(* ===== verification/_CoqProject ===== *)
-Q . S2P
Prelude.v
GoStrings.v
Varint.v
State.v
PatchDelta.v
DeltaIndex.v
DiffDelta.v
Pktline.v
Sideband.v
ObjectId.v
Object.v
Idxfile.v
IdxLookup.v
IdxWrite.v
IdxCodec.v
Pathutil.v
Filemode.v
Tree.v
Refname.v
RefSpec.v
Storer.v
MemStorage.v
TxStorage.v
ObjectStore.v
Lru.v
Signature.v
Commit.v
Walk.v
MergeBase.v
Merkletrie.v
TreeWalk.v
TreeDiff.v
Tag.v
Revlist.v
PackScanner.v
PackParser.v
PackResolve.v
PackSelect.v
PackEncoder.v
Packfile.v
PackStore.v
IndexFile.v
Gitignore.v
