(* ===== verification/Prelude.v ===== *)
(** * A verification of go-git

    This library models the core of go-git, a Git implementation in Go, and
    proves what makes it correct.  It is a shallow embedding: every definition
    translates a function, method or type of [src/], named after it where Rocq
    allows it, and each file says in its first comment which Go files it models.

    ** How Go is modelled

    - An [int64], [uint32] and the like is a [Z], with its wrap-around written
      out ([i64], [u64], [u32] below) wherever an operation can overflow; a
      byte is a [Z] ([is_byte], [bytes_ok]), a [[]byte] or [string] a list of
      them.
    - A function that returns an error is an [outcome] (below): a result, an
      error, a panic (an index or slice out of range, a nil dereference), or
      running out of fuel.  Loops recurse on fuel where they are not
      structural; that the fuel is enough, and that there is no panic, is part
      of the theorems about the function.
    - A method on an object is a function of the state of the object: [M] of
      [Storer.v] for the storages, [ST] of [State.v] for the scanner, the parser
      and the encoder.  Where Go shares objects by pointers and the sharing
      matters, the objects live in a heap, a list of records, and pointers are
      indices ([PackParser.v], [PackEncoder.v]).
    - An interface is a [Class] of its methods with a class of the laws its
      clients rely on; the implementations are instances ([ReferenceStorer],
      [ObjectStorer], [RawStorer], [PackIndex], [ObjectCache], [Noder], ...).
    - What is not under [src/] is a parameter: the SHA-1 and SHA-256 digests, the
      zlib codec (with the law that inflating inverts deflating), [sort.Slice]
      and the heaps of the module gods (with the laws of their documentation),
      and the order in which Go ranges over a map.

    ** The parts and how they interact

    Shared: [Prelude.v] (outcomes, integers, bytes, lists, hints and tactics),
    [GoStrings.v] (package [strings]), [State.v] (the monad of stateful
    components and its rules).

    Packs, the files and streams of objects, from the bottom up:
    - [Varint.v]: LEB128, entry headers and git's offset encoding
      ([plumbing/format/packfile/util], [utils/binary]);
    - [PatchDelta.v], [DeltaIndex.v], [DiffDelta.v]: applying deltas in the three
      ways the code has, and computing them over an index of the source
      ([patch_delta.go], [delta_index.go], [diff_delta.go]);
    - [PackScanner.v]: the scanner as its machine of state functions
      ([scanner.go]); [PackParser.v]: the parser that drives it, resolves
      deltas and writes to a storage and to observers ([parser.go]);
      [PackResolve.v]: what the entries of a pack stand for, and that the
      parser finds it;
    - [PackSelect.v]: the choice of the deltas to write, reused or computed
      ([delta_selector.go], [object_pack.go]); [PackEncoder.v]: the encoder
      ([encoder.go]), and that the parser reads back what it writes;
    - [Idxfile.v], [IdxLookup.v], [IdxWrite.v], [IdxCodec.v]: the index of a pack
      in memory, its lookups, its writer (an observer of the parser) and its
      file format ([plumbing/format/idxfile]);
    - [Packfile.v]: objects of a pack by identifier, position and type, over an
      index and a cache ([packfile.go], [packfile_iter.go]); [PackStore.v]: all
      of these composed, from the encoder of one repository to the pack file of
      another.

    Objects:
    - [ObjectId.v], [Object.v]: identifiers, types, objects in memory;
    - [Tree.v], [TreeWalk.v], [Filemode.v], [Pathutil.v]: trees, their codec and
      validation, lookups by path, the walker, modes and safe paths;
    - [Commit.v], [Tag.v], [Signature.v]: commits and tags, decoders as state
      machines, encoders, and the payload a signature covers.

    Graphs of objects:
    - [Walk.v], [MergeBase.v]: the history iterators and merge bases;
    - [Revlist.v]: the objects to send for what one side wants and has;
    - [Merkletrie.v], [TreeDiff.v]: differences of tries, and of trees as tries.

    References and storages:
    - [Refname.v], [RefSpec.v]: names, references and specifications;
    - [Storer.v]: the interface of reference stores and the resolution of
      symbolic references; [MemStorage.v], [TxStorage.v], [ObjectStore.v]: the
      storage in memory and the transactions over any storage;
    - [Lru.v]: the object and buffer caches.

    The wire: [Pktline.v] and [Sideband.v].

    The worktree's formats: [IndexFile.v], the staging index
    ([plumbing/format/index]); [Gitignore.v], ignore patterns and their
    wildcards ([plumbing/format/gitignore]).

    A push or fetch composes them: [Revlist.v] lists the objects to send,
    [PackSelect.v] and [PackEncoder.v] write them as a pack, [Sideband.v] over
    [Pktline.v] carries it, [PackParser.v] reads it into a storage and, through
    its observer, [IdxWrite.v] builds the index, over which [Packfile.v] finds
    the objects; [PackStore.v] proves the last four steps as one.

    ** What the theorems show

    A theorem that is a claim carries a number (C1, C2, ...) in its comment;
    [f_witness] applies the theorem [f] at a concrete input.

    - Round trips: what a component writes it reads back, for every value that
      can be written; where the encoding is one of many, also that the reader
      accepts nothing else or refuses it with an error (varints, packet lines,
      side bands, deltas, packs, pack indexes, trees, commits, tags,
      identifiers, reference specifications, the staging index).
    - Equivalence with a reference definition: the delta interpreters with the
      format's semantics, the pack scanner with a grammar of packs,
      the difference of tries with the difference of the
      maps from paths to hashes, the tree walker with the listing of a tree,
      lookups through a cache with lookups without, the wildcard matcher with
      the language of its patterns.
    - Graph algorithms against reachability: the history walks list each
      reachable commit once, [MergeBase] returns the best common ancestors,
      [Objects] what is wanted and not had.
    - Refinement: transactions commit what a single map would hold; the caches
      are a list in the order of use; storages satisfy the laws their clients
      assume; what one repository packs another serves, in any order of
      lookups.
    - Safety and errors: names accepted for paths lead to the entries of their
      components inside the directory, for either separator and whatever
      names the file system takes for one entry; the decoders of trees and of the index end without a
      panic on every input, and the index is accepted only with its checksum.

    ** Fuel

    No theorem assumes that a function returns: fuel is an argument only where
    a loop is not structural, and is then either computed in the definition
    from the size of the input (a decoder gets the length of what it reads, as
    every round reads at least a byte) or an argument for which the theorem
    gives a bound that suffices (the number of objects of the graph for the
    walks, the number of entries of the pack for the parser, ten for the
    varints, [MaxResolveRecursion] for references, the longest chain of deltas
    a parser accepts for the pack file, which has no bound of its own).  The comment of each
    definition says which.

    ** What is not modelled

    - Input and output: files, locks and descriptors of the .git directory,
      sockets, processes, ssh and http; so neither the filesystem storage nor
      the transports nor what orchestrates them (Repository, Remote, Worktree).
    - What third-party or standard modules compute: zlib and the digests (they
      are parameters with laws), the text differences of go-diff, the parser of
      gcfg, regular expressions and OpenPGP; so neither patches nor blame nor
      the configuration's syntax.
    - Concurrency: a mutex that serialises whole operations is left out, as
      each operation is a step; contexts and their cancellation, pools of
      buffers, tracing and progress messages do not change results.
    - Within the files modelled, the first comment of each file here and the
      comments of its definitions say what is left out.
*)
From stdpp Require Import base list gmap strings numbers option sorting.
From Stdlib Require Import ZArith Lia.

Open Scope Z_scope.

(** ** Outcomes of Go code *)

(** A Go function that returns [(A, error)] either returns normally, returns a
    non-nil error, or panics (a slice or index expression out of range).  A
    model function that recurses on fuel can also run out of it; every
    theorem about such a function shows that it does not. *)
Inductive outcome (E A : Type) : Type :=
  | Ok (a : A)
  | Err (e : E)
  | Panic
  | NoFuel.
Arguments Ok {E A} a.
Arguments Err {E A} e.
Arguments Panic {E A}.
Arguments NoFuel {E A}.

#[export] Instance outcome_ret {E} : MRet (outcome E) := fun A a => Ok a.
#[export] Instance outcome_bind {E} : MBind (outcome E) := fun A B f m =>
  match m with
  | Ok a => f a
  | Err e => Err e
  | Panic => Panic
  | NoFuel => NoFuel
  end.

Definition is_ok {E A} (m : outcome E A) : bool :=
  match m with Ok _ => true | _ => false end.

(** The outcome of a function that cannot panic and always terminates. *)
Definition returns {E A} (m : outcome E A) : Prop :=
  match m with Ok _ | Err _ => True | _ => False end.

Definition map_err {E E' A} (f : E -> E') (m : outcome E A) : outcome E' A :=
  match m with
  | Ok a => Ok a
  | Err e => Err (f e)
  | Panic => Panic
  | NoFuel => NoFuel
  end.

(** Case analysis on the outcomes bound in a hypothesis or in the goal. *)
Lemma bind_Ok_inv {E A B} (m : outcome E A) (f : A -> outcome E B) b :
  (m ≫= f) = Ok b -> exists a, m = Ok a /\ f a = Ok b.
Proof. destruct m; simpl; intros H; try discriminate; eauto. Qed.

Lemma returns_bind {E A B} (m : outcome E A) (f : A -> outcome E B) :
  returns m -> (forall a, m = Ok a -> returns (f a)) -> returns (m ≫= f).
Proof. destruct m; simpl; intros; try contradiction; auto. Qed.

(** [ensures m P]: the computation returns normally, with a result satisfying
    [P] (total correctness). *)
Definition ensures {E A} (m : outcome E A) (P : A -> Prop) : Prop :=
  match m with Ok a => P a | _ => False end.

Lemma ensures_inv {E A} (m : outcome E A) P : ensures m P -> exists a, m = Ok a /\ P a.
Proof. destruct m; simpl; intros H; try contradiction; eauto. Qed.

Lemma ensures_bind {E A B} (m : outcome E A) (f : A -> outcome E B) (Q : A -> Prop) P :
  ensures m Q -> (forall a, Q a -> ensures (f a) P) -> ensures (m ≫= f) P.
Proof. destruct m; simpl; intros; try contradiction; auto. Qed.

Lemma ensures_weaken {E A} (m : outcome E A) (P Q : A -> Prop) :
  ensures m P -> (forall a, P a -> Q a) -> ensures m Q.
Proof. destruct m; simpl; intros; try contradiction; auto. Qed.

(** ** Machine integers *)

(** Go's [uint] and [uint64] are 64 bits wide on the platforms modelled here,
    [uint32] and [byte] 32 and 8; a conversion or an operation that can leave
    the range wraps around. *)
Definition wrap (w x : Z) : Z := x `mod` 2 ^ w.
Abbreviation u64 := (wrap 64).
Abbreviation u32 := (wrap 32).
Abbreviation u16 := (wrap 16).
Abbreviation u8 := (wrap 8).

(** The conversion of an unsigned 64-bit value to [int64]. *)
Definition i64 (x : Z) : Z :=
  let y := wrap 64 x in if y <? 2 ^ 63 then y else y - 2 ^ 64.

Definition MaxInt64 : Z := 2 ^ 63 - 1.
Definition MaxInt32 : Z := 2 ^ 31 - 1.

Lemma wrap_bound w x : 0 <= w -> 0 <= wrap w x < 2 ^ w.
Proof. intros. unfold wrap. apply Z.mod_pos_bound. lia. Qed.

Lemma wrap_small w x : 0 <= x < 2 ^ w -> wrap w x = x.
Proof. intros. unfold wrap. by apply Z.mod_small. Qed.

Lemma i64_small x : 0 <= x < 2 ^ 63 -> i64 x = x.
Proof.
  intros H. unfold i64. rewrite wrap_small by lia.
  destruct (Z.ltb_spec x (2 ^ 63)); lia.
Qed.

Lemma i64_id x : - 2 ^ 63 <= x < 2 ^ 63 -> i64 x = x.
Proof.
  intros H. destruct (Z.le_gt_cases 0 x); [apply i64_small; lia|]. unfold i64, wrap.
  rewrite <-(Z.mod_unique x (2 ^ 64) (-1) (x + 2 ^ 64)) by lia.
  destruct (Z.ltb_spec (x + 2 ^ 64) (2 ^ 63)); lia.
Qed.

(** ** Bits *)

Lemma land_disjoint a b n :
  0 <= n -> 0 <= a < 2 ^ n -> Z.land a (Z.shiftl b n) = 0.
Proof.
  intros Hn Ha. apply Z.bits_inj'. intros i Hi. rewrite Z.land_spec, Z.bits_0.
  destruct (Z.ltb_spec i n).
  - by rewrite (Z.shiftl_spec_low b) by lia; rewrite andb_false_r.
  - rewrite <-(Z.mod_small a (2 ^ n)) by done.
    by rewrite Z.mod_pow2_bits_high by lia.
Qed.

Lemma lor_disjoint_add a b n :
  0 <= n -> 0 <= a < 2 ^ n -> Z.lor a (Z.shiftl b n) = a + b * 2 ^ n.
Proof.
  intros Hn Ha. pose proof (land_disjoint a b n Hn Ha) as Hd.
  rewrite <-Z.shiftl_mul_pow2 by done.
  by rewrite Z.add_nocarry_lxor, Z.lxor_lor.
Qed.

Lemma land_low_mask a n : 0 <= n -> Z.land a (2 ^ n - 1) = a `mod` 2 ^ n.
Proof.
  intros. replace (2 ^ n - 1) with (Z.ones n) by (rewrite Z.ones_equiv; lia).
  by rewrite Z.land_ones.
Qed.

Lemma land_pow2_testbit a n :
  0 <= n -> (Z.land a (2 ^ n) =? 0) = negb (Z.testbit a n).
Proof.
  intros Hn. destruct (Z.testbit a n) eqn:Hb; simpl.
  - apply Z.eqb_neq. intros H0.
    assert (Z.testbit (Z.land a (2 ^ n)) n = true) as Ht
      by (rewrite Z.land_spec, Hb, Z.pow2_bits_true by lia; done).
    rewrite H0, Z.bits_0 in Ht. discriminate.
  - apply Z.eqb_eq, Z.bits_inj'. intros i Hi.
    rewrite Z.land_spec, Z.bits_0. destruct (decide (i = n)) as [->|Hne].
    + by rewrite Hb.
    + by rewrite Z.pow2_bits_false, andb_false_r by lia.
Qed.

Lemma testbit_small a n : 0 <= n -> 0 <= a < 2 ^ n -> Z.testbit a n = false.
Proof.
  intros Hn Ha. rewrite <-(Z.mod_small a (2 ^ n)) by done.
  apply Z.mod_pow2_bits_high; lia.
Qed.

Lemma testbit_top a n : 0 <= n -> 0 <= a < 2 ^ (n + 1) -> Z.testbit a n = (2 ^ n <=? a).
Proof.
  intros Hn Ha. rewrite Z.pow_add_r in Ha by lia. change (2 ^ 1) with 2 in Ha.
  destruct (Z.leb_spec (2 ^ n) a).
  - apply Z.testbit_true; [done|]. replace (a `div` 2 ^ n) with 1; [done|].
    apply Z.div_unique with (a - 2 ^ n); lia.
  - apply testbit_small; lia.
Qed.

(** ** Slices *)

(** Go's [len]; a slice expression [l[i:j]] and an index expression [l[i]],
    which panic when out of range.  (The bound of a slice expression is the
    capacity in Go; every slice expression modelled here stays within the
    length, which is what the models check.) *)
Definition len {A} (l : list A) : Z := Z.of_nat (length l).

Definition slice {E A} (l : list A) (i j : Z) : outcome E (list A) :=
  if (0 <=? i) && (i <=? j) && (j <=? len l)
  then Ok (take (Z.to_nat (j - i)) (drop (Z.to_nat i) l))
  else Panic.

Definition index {E A} (l : list A) (i : Z) : outcome E A :=
  if 0 <=? i then
    match l !! Z.to_nat i with Some x => Ok x | None => Panic end
  else Panic.

(** [l[i] = x]. *)
Definition assign {E A} (l : list A) (i : Z) (x : A) : outcome E (list A) :=
  if (0 <=? i) && (i <? len l) then Ok (<[Z.to_nat i := x]> l) else Panic.

Lemma len_nonneg {A} (l : list A) : 0 <= len l.
Proof. unfold len. lia. Qed.
Lemma len_nil {A} : len (@nil A) = 0.
Proof. done. Qed.
Lemma len_cons {A} (x : A) l : len (x :: l) = 1 + len l.
Proof. unfold len. simpl. lia. Qed.
Lemma len_app {A} (l k : list A) : len (l ++ k) = len l + len k.
Proof. unfold len. rewrite length_app. lia. Qed.
Lemma len_take {A} n (l : list A) : len (take n l) = Z.min (Z.of_nat n) (len l).
Proof. unfold len. rewrite length_take. lia. Qed.
Lemma len_drop {A} n (l : list A) : len (drop n l) = Z.max 0 (len l - Z.of_nat n).
Proof. unfold len. rewrite length_drop. lia. Qed.
Lemma len_insert {A} i (x : A) l : len (<[i := x]> l) = len l.
Proof. unfold len. by rewrite length_insert. Qed.
Lemma len_replicate {A} n (x : A) : len (replicate n x) = Z.of_nat n.
Proof. unfold len. by rewrite length_replicate. Qed.
Lemma len_zero_nil {A} (l : list A) : len l = 0 -> l = [].
Proof. destruct l; [done|]. rewrite len_cons. pose proof (len_nonneg l). lia. Qed.

Create Rewrite HintDb golen.
#[export] Hint Rewrite @len_nil @len_cons @len_app @len_take @len_drop @len_insert
  @len_replicate : golen.

(** Linear arithmetic over lengths of lists. *)
Ltac len_lia :=
  autorewrite with golen in *;
  repeat match goal with
  | |- context [len ?l] =>
      lazymatch goal with
      | _ : 0 <= len l |- _ => fail
      | _ => pose proof (len_nonneg l)
      end
  | _ : context [len ?l] |- _ =>
      lazymatch goal with
      | _ : 0 <= len l |- _ => fail
      | _ => pose proof (len_nonneg l)
      end
  end; lia.

(** Destruct every boolean comparison on [Z] in the goal, turning it into
    arithmetic facts. *)
Ltac zdestruct :=
  repeat (case_match || match goal with
  | |- context [Z.eqb ?a ?b] => destruct (Z.eqb_spec a b)
  | |- context [Z.leb ?a ?b] => destruct (Z.leb_spec a b)
  | |- context [Z.ltb ?a ?b] => destruct (Z.ltb_spec a b)
  end).

(** Turn boolean hypotheses on [Z] into propositions. *)
Ltac zbool :=
  repeat match goal with
  | H : (_ && _) = true |- _ => apply andb_prop in H as [? ?]
  | H : (_ || _) = false |- _ => apply orb_false_elim in H as [? ?]
  | H : negb _ = true |- _ => apply negb_true_iff in H
  | H : negb _ = false |- _ => apply negb_false_iff in H
  | H : (_ =? _) = true |- _ => apply Z.eqb_eq in H
  | H : (_ =? _) = false |- _ => apply Z.eqb_neq in H
  | H : (_ <? _) = true |- _ => apply Z.ltb_lt in H
  | H : (_ <? _) = false |- _ => apply Z.ltb_ge in H
  | H : (_ <=? _) = true |- _ => apply Z.leb_le in H
  | H : (_ <=? _) = false |- _ => apply Z.leb_gt in H
  | H : (_ >? _) = true |- _ => rewrite Z.gtb_ltb in H
  | H : (_ >? _) = false |- _ => rewrite Z.gtb_ltb in H
  | H : (_ >=? _) = true |- _ => rewrite Z.geb_leb in H
  | H : (_ >=? _) = false |- _ => rewrite Z.geb_leb in H
  end.

(** The elements of a sorted list, by index. *)
Lemma StronglySorted_index {A} (R : relation A) l i j x y :
  StronglySorted R l -> l !! i = Some x -> l !! j = Some y -> (i < j)%nat -> R x y.
Proof.
  intros Hs. revert i j. induction Hs as [|z l Hs IH Hz]; intros i j Hx Hy Hij; [done|].
  destruct j as [|j]; [lia|]. destruct i as [|i]; cbn in *.
  - injection Hx as ->. rewrite Forall_forall in Hz. by apply Hz, (list_elem_of_lookup_2 _ j).
  - apply (IH i j); done || lia.
Qed.

(** Filtering out nothing. *)
Lemma filter_all {A} (P : A -> Prop) `{!forall x, Decision (P x)} l : Forall P l -> filter P l = l.
Proof. induction 1 as [|x l Hx Hl IH]; [done|]. by rewrite filter_cons_True, IH by done. Qed.

(** Evaluate a boolean test from the arithmetic facts in the context. *)
Ltac ztest b v :=
  replace b with v by
    (symmetry; first [apply Z.eqb_eq | apply Z.eqb_neq | apply Z.ltb_lt
                     | apply Z.ltb_ge | apply Z.leb_le | apply Z.leb_gt]; len_lia).

(** Split a successful monadic computation in a hypothesis into its steps. *)
Ltac inv_bind :=
  repeat match goal with
  | H : (_ ≫= _) = Ok _ |- _ => apply bind_Ok_inv in H as (? & ? & ?)
  | H : (let '(_, _) := ?p in _) = Ok _ |- _ => destruct p
  | H : mret _ = Ok _ |- _ => injection H as H
  | H : Ok _ = Ok _ |- _ => injection H as H
  | H : Err _ = Ok _ |- _ => discriminate H
  | H : Panic = Ok _ |- _ => discriminate H
  | H : NoFuel = Ok _ |- _ => discriminate H
  end.

Lemma slice_Ok {E A} (l : list A) i j :
  0 <= i <= j -> j <= len l ->
  slice (E := E) l i j = Ok (take (Z.to_nat (j - i)) (drop (Z.to_nat i) l)).
Proof.
  intros Hi Hj. unfold slice.
  ztest (0 <=? i) true; ztest (i <=? j) true; ztest (j <=? len l) true. done.
Qed.

Lemma slice_Ok_inv {E A} (l : list A) i j r :
  slice (E := E) l i j = Ok r ->
  0 <= i <= j /\ j <= len l /\ r = take (Z.to_nat (j - i)) (drop (Z.to_nat i) l).
Proof.
  unfold slice. case_match eqn:Hc; [|discriminate]. intros [= <-]. zbool. auto.
Qed.

Lemma slice_app3 {E A} (p m q : list A) :
  slice (E := E) (p ++ m ++ q) (len p) (len p + len m) = Ok m.
Proof.
  rewrite slice_Ok by len_lia.
  replace (Z.to_nat (len p)) with (length p) by (unfold len; lia).
  rewrite drop_app_length.
  replace (Z.to_nat (len p + len m - len p)) with (length m) by (unfold len; lia).
  by rewrite take_app_length.
Qed.

Lemma index_Ok {E A} (l : list A) i x :
  0 <= i -> l !! Z.to_nat i = Some x -> index (E := E) l i = Ok x.
Proof. intros Hi Hx. unfold index. ztest (0 <=? i) true. by rewrite Hx. Qed.

Lemma index_Ok_inv {E A} (l : list A) i x :
  index (E := E) l i = Ok x -> 0 <= i < len l /\ l !! Z.to_nat i = Some x.
Proof.
  unfold index. destruct (Z.leb_spec 0 i); [|discriminate].
  destruct (l !! Z.to_nat i) eqn:Hl; [|discriminate]. intros [= <-].
  apply lookup_lt_Some in Hl as Hlt. unfold len. split; [lia|done].
Qed.

Lemma index_in_range {E A} (l : list A) i :
  0 <= i < len l -> exists x, index (E := E) l i = Ok x /\ l !! Z.to_nat i = Some x.
Proof.
  intros Hi. destruct (lookup_lt_is_Some_2 l (Z.to_nat i)) as [x Hx];
    [unfold len in Hi; lia|].
  exists x. split; [|done]. apply index_Ok; [lia|done].
Qed.

Lemma assign_Ok {E A} (l : list A) i x :
  0 <= i < len l -> assign (E := E) l i x = Ok (<[Z.to_nat i := x]> l).
Proof.
  intros Hi. unfold assign. ztest (0 <=? i) true; ztest (i <? len l) true. done.
Qed.

Lemma index_ensures {E A} (l : list A) i :
  0 <= i < len l -> ensures (index (E := E) l i) (fun x => l !! Z.to_nat i = Some x).
Proof. intros Hi. destruct (index_in_range (E := E) l i Hi) as (x & -> & Hx). done. Qed.

Lemma assign_ensures {E A} (l : list A) i x :
  0 <= i < len l -> ensures (assign (E := E) l i x) (fun l' => l' = <[Z.to_nat i := x]> l).
Proof. intros Hi. by rewrite assign_Ok. Qed.

(** Run one step of the monadic computation in the goal, by its specification. *)
Tactic Notation "run" uconstr(lem) "as" simple_intropattern(p) :=
  eapply ensures_bind; [eapply lem | cbv beta; intros p].

(** ** Bytes and strings *)

(** A byte is an integer in [0, 256); Go strings and byte slices are both
    sequences of bytes. *)
Abbreviation bytes := (list Z).
Definition is_byte (b : Z) : Prop := 0 <= b < 256.
Definition bytes_ok : bytes -> Prop := Forall is_byte.

#[export] Instance is_byte_dec b : Decision (is_byte b).
Proof. unfold is_byte. apply _. Defined.

#[export] Instance bytes_ok_dec l : Decision (bytes_ok l).
Proof. unfold bytes_ok. apply _. Defined.

(** The bytes of a Go string literal, and of a character literal. *)
Definition ascii_Z (a : Ascii.ascii) : Z := Z.of_N (Ascii.N_of_ascii a).
Definition bs (s : string) : bytes := ascii_Z <$> String.list_ascii_of_string s.
Arguments bs s%_string.

Lemma u8_is_byte x : is_byte (u8 x).
Proof. unfold is_byte. apply wrap_bound. lia. Qed.

Lemma bytes_ok_app l k : bytes_ok (l ++ k) <-> bytes_ok l /\ bytes_ok k.
Proof. apply Forall_app. Qed.
Lemma bytes_ok_cons b l : bytes_ok (b :: l) <-> is_byte b /\ bytes_ok l.
Proof. apply Forall_cons_iff. Qed.
Lemma bytes_ok_nil : bytes_ok [].
Proof. constructor. Qed.
Lemma bytes_ok_take n l : bytes_ok l -> bytes_ok (take n l).
Proof. apply Forall_take. Qed.
Lemma bytes_ok_drop n l : bytes_ok l -> bytes_ok (drop n l).
Proof. apply Forall_drop. Qed.

Create HintDb gobytes.
#[export] Hint Resolve u8_is_byte bytes_ok_nil bytes_ok_take bytes_ok_drop : gobytes.

(** [bytes.Compare]: lexicographic order. *)
Fixpoint bytes_compare (a b : bytes) : comparison :=
  match a, b with
  | [], [] => Eq
  | [], _ :: _ => Lt
  | _ :: _, [] => Gt
  | x :: a', y :: b' =>
      match Z.compare x y with Eq => bytes_compare a' b' | c => c end
  end.

Definition bytes_ltb (a b : bytes) : bool :=
  match bytes_compare a b with Lt => true | _ => false end.
Definition bytes_lt (a b : bytes) : Prop := bytes_compare a b = Lt.

Lemma bytes_compare_refl a : bytes_compare a a = Eq.
Proof. induction a as [|x a IH]; simpl; [done|]. by rewrite Z.compare_refl. Qed.

Lemma bytes_compare_eq a b : bytes_compare a b = Eq <-> a = b.
Proof.
  split; [|intros ->; apply bytes_compare_refl].
  revert b. induction a as [|x a IH]; intros [|y b]; simpl; try done.
  destruct (Z.compare_spec x y) as [->| |]; try done.
  intros H. f_equal. by apply IH.
Qed.

Lemma bytes_compare_antisym a b : bytes_compare b a = CompOpp (bytes_compare a b).
Proof.
  revert b. induction a as [|x a IH]; intros [|y b]; simpl; try done.
  rewrite Z.compare_antisym. destruct (Z.compare x y); simpl; auto.
Qed.

Lemma bytes_lt_trans a b c : bytes_lt a b -> bytes_lt b c -> bytes_lt a c.
Proof.
  unfold bytes_lt. revert b c.
  induction a as [|x a IH]; intros [|y b] [|z c]; simpl; try done.
  destruct (Z.compare_spec x y) as [->| |]; intros H1 H2; try done.
  - destruct (Z.compare y z); try done. eauto.
  - destruct (Z.compare_spec y z) as [->| |]; try done.
    + by replace (x ?= z) with Lt by (symmetry; apply Z.compare_lt_iff; lia).
    + by replace (x ?= z) with Lt by (symmetry; apply Z.compare_lt_iff; lia).
Qed.

Lemma bytes_lt_irrefl a : ~ bytes_lt a a.
Proof. unfold bytes_lt. by rewrite bytes_compare_refl. Qed.

#[export] Instance bytes_lt_strict : StrictOrder bytes_lt.
Proof.
  split; [intros a; apply bytes_lt_irrefl | intros a b c; apply bytes_lt_trans].
Qed.

#[export] Instance bytes_lt_dec a b : Decision (bytes_lt a b).
Proof. unfold bytes_lt. apply _. Defined.

Lemma bytes_ltb_lt a b : bytes_ltb a b = true <-> bytes_lt a b.
Proof. unfold bytes_ltb, bytes_lt. by destruct (bytes_compare a b). Qed.

Lemma bytes_lt_total a b : bytes_lt a b \/ a = b \/ bytes_lt b a.
Proof.
  unfold bytes_lt. destruct (bytes_compare a b) eqn:Hc.
  - right; left. by apply bytes_compare_eq.
  - by left.
  - right; right. rewrite bytes_compare_antisym, Hc. done.
Qed.

Lemma bytes_compare_common p a b : bytes_compare (p ++ a) (p ++ b) = bytes_compare a b.
Proof. induction p; simpl; [done|]. by rewrite Z.compare_refl. Qed.

Lemma bytes_ltb_false a b : bytes_ltb a b = false <-> ~ bytes_lt a b.
Proof. rewrite <-bytes_ltb_lt, not_true_iff_false. done. Qed.

Definition bytes_le (a b : bytes) : Prop := ~ bytes_lt b a.

#[export] Instance bytes_le_preorder : PreOrder bytes_le.
Proof.
  unfold bytes_le. split; [intros a; apply bytes_lt_irrefl|]. intros a b c Hab Hbc Hca.
  destruct (bytes_lt_total a b) as [H|[->|H]]; [|done|done].
  apply Hbc. by apply bytes_lt_trans with a.
Qed.

Lemma bytes_le_antisym a b : bytes_le a b -> bytes_le b a -> a = b.
Proof. unfold bytes_le. intros H1 H2. by destruct (bytes_lt_total a b) as [?|[?|?]]. Qed.

Lemma bytes_le_lt_trans a b c : bytes_le a b -> bytes_lt b c -> bytes_lt a c.
Proof.
  unfold bytes_le. intros Hab Hbc. destruct (bytes_lt_total a b) as [H|[->|H]]; [|done|done].
  by apply bytes_lt_trans with b.
Qed.

Lemma bytes_lt_le a b : bytes_lt a b -> bytes_le a b.
Proof. intros H1 H2. by apply (bytes_lt_irrefl a), bytes_lt_trans with b. Qed.

Lemma bytes_lt_app p s : s <> [] -> bytes_lt p (p ++ s).
Proof. intros Hs. induction p as [|c p IH]; [by destruct s|]. unfold bytes_lt. cbn. by rewrite Z.compare_refl. Qed.

(** [bytes.HasPrefix]. *)
Fixpoint HasPrefix (l p : bytes) : bool :=
  match p, l with
  | [], _ => true
  | b :: p', c :: l' => (b =? c) && HasPrefix l' p'
  | _ :: _, [] => false
  end.

Lemma HasPrefix_spec l p : HasPrefix l p = true <-> exists q, l = p ++ q.
Proof.
  revert l. induction p as [|b p IH]; intros l; simpl.
  - split; [eauto|]. by destruct l.
  - destruct l as [|c l]; [by split; [|intros [q Hq]]|].
    simpl. rewrite andb_true_iff, Z.eqb_eq, IH. split.
    + intros [-> [q ->]]. by exists q.
    + intros [q [= -> ->]]. eauto.
Qed.

(** ** Big-endian integers ([encoding/binary]) *)

Fixpoint be_bytes (n : nat) (v : Z) : bytes :=
  match n with
  | O => []
  | S n' => u8 (Z.shiftr v (8 * Z.of_nat n')) :: be_bytes n' v
  end.

Definition be_val (l : bytes) : Z := foldl (fun acc b => Z.lor (Z.shiftl acc 8) b) 0 l.

Definition PutUint32 (v : Z) : bytes := be_bytes 4 v.
Definition PutUint64 (v : Z) : bytes := be_bytes 8 v.

Lemma be_bytes_len n v : len (be_bytes n v) = Z.of_nat n.
Proof.
  induction n as [|n IH]; [done|]. cbn [be_bytes]. rewrite len_cons, IH. lia.
Qed.

Lemma be_bytes_length n v : length (be_bytes n v) = n.
Proof. pose proof (be_bytes_len n v) as H. unfold len in H. lia. Qed.

Lemma be_bytes_ok n v : bytes_ok (be_bytes n v).
Proof.
  induction n as [|n IH]; [constructor|].
  cbn [be_bytes]. apply bytes_ok_cons. auto with gobytes.
Qed.

Lemma be_val_acc l acc :
  0 <= acc -> bytes_ok l ->
  foldl (fun a b => Z.lor (Z.shiftl a 8) b) acc l = acc * 2 ^ (8 * len l) + be_val l.
Proof.
  unfold be_val. intros Hacc Hok. revert acc Hacc.
  assert (forall a x, is_byte x -> Z.lor (Z.shiftl a 8) x = x + a * 2 ^ 8) as Hstep.
  { intros a x Hx. rewrite Z.lor_comm. apply lor_disjoint_add; [lia|].
    unfold is_byte in Hx. lia. }
  induction Hok as [|x l Hx Hok IH]; intros acc Hacc; simpl.
  - unfold len; simpl. lia.
  - unfold is_byte in Hx. rewrite !Hstep by done.
    rewrite (IH (x + acc * 2 ^ 8)), (IH (x + 0 * 2 ^ 8)) by lia.
    rewrite len_cons. pose proof (len_nonneg l).
    replace (8 * (1 + len l)) with (8 + 8 * len l) by lia.
    rewrite Z.pow_add_r by lia. lia.
Qed.

Lemma be_val_be_bytes n v : be_val (be_bytes n v) = v `mod` 2 ^ (8 * Z.of_nat n).
Proof.
  induction n as [|n IH].
  - simpl. by rewrite Z.mod_1_r.
  - unfold be_val. cbn [be_bytes foldl].
    rewrite Z.shiftl_0_l, Z.lor_0_l.
    rewrite be_val_acc by (first [apply be_bytes_ok
      | pose proof (u8_is_byte (Z.shiftr v (8 * Z.of_nat n))) as Hb;
        unfold is_byte in Hb; lia]).
    rewrite IH, be_bytes_len. unfold wrap.
    rewrite Z.shiftr_div_pow2 by lia.
    replace (8 * Z.of_nat (S n)) with (8 * Z.of_nat n + 8) by lia.
    rewrite Z.pow_add_r by lia.
    rewrite (Z.rem_mul_r v (2 ^ (8 * Z.of_nat n)) (2 ^ 8)) by lia. lia.
Qed.

Lemma be_val_bound l : bytes_ok l -> 0 <= be_val l < 2 ^ (8 * len l).
Proof.
  induction 1 as [|x l Hx Hok IH]; [done|].
  unfold be_val. cbn [foldl]. rewrite Z.shiftl_0_l, Z.lor_0_l.
  unfold is_byte in Hx. rewrite be_val_acc by (done || lia). rewrite len_cons.
  pose proof (len_nonneg l).
  replace (8 * (1 + len l)) with (8 + 8 * len l) by lia.
  rewrite Z.pow_add_r by lia. nia.
Qed.

(** ** Readers *)

(** An [io.Reader] over in-memory data is the list of bytes that remain. *)
Inductive ioerr := EOF | ErrUnexpectedEOF.

#[export] Instance ioerr_eq_dec : EqDecision ioerr.
Proof. solve_decision. Defined.

(** [io.ReadFull] of [n] bytes: the bytes read and the rest of the input. *)
Definition ReadFull (n : Z) (r : bytes) : outcome ioerr (bytes * bytes) :=
  if n <=? 0 then Ok ([], r)
  else if len r =? 0 then Err EOF
  else if len r <? n then Err ErrUnexpectedEOF
  else Ok (take (Z.to_nat n) r, drop (Z.to_nat n) r).

Lemma ReadFull_app p q : ReadFull (len p) (p ++ q) = Ok (p, q).
Proof.
  unfold ReadFull. destruct (Z.leb_spec (len p) 0) as [Hp|Hp].
  - rewrite (len_zero_nil p) by len_lia. done.
  - ztest (len (p ++ q) =? 0) false; ztest (len (p ++ q) <? len p) false.
    replace (Z.to_nat (len p)) with (length p) by (unfold len; lia).
    by rewrite take_app_length, drop_app_length.
Qed.

Lemma ReadFull_Ok_inv n r p q :
  ReadFull n r = Ok (p, q) -> r = p ++ q /\ len p = Z.max 0 n.
Proof.
  unfold ReadFull. zdestruct; intros [= <- <-]; subst.
  - split; [done|]. rewrite len_nil. lia.
  - rewrite take_drop. split; [done|]. len_lia.
Qed.

Lemma ReadFull_returns n r : returns (ReadFull n r).
Proof. unfold ReadFull. zdestruct; done. Qed.

(** ** Lists *)

Lemma filter_none {A} (P : A -> Prop) `{!forall x, Decision (P x)} (l : list A) :
  Forall (fun x => ~ P x) l -> filter P l = [].
Proof. induction 1 as [|x l Hx Hl IH]; [done|]. by rewrite filter_cons_False. Qed.

(** Sorting by insertion, as an instance of the sorts the code leaves to Go. *)
Fixpoint insert_by {A} (less : A -> A -> bool) (x : A) (l : list A) : list A :=
  match l with
  | [] => [x]
  | y :: l' => if less x y then x :: l else y :: insert_by less x l'
  end.

Definition insertion_sort {A} (less : A -> A -> bool) (l : list A) : list A := foldr (insert_by less) [] l.

Lemma insert_by_perm {A} (less : A -> A -> bool) x l : insert_by less x l ≡ₚ x :: l.
Proof. induction l as [|y l IH]; cbn; [done|]. destruct (less x y); [done|]. rewrite IH. apply Permutation_swap. Qed.

Lemma insertion_sort_perm {A} (less : A -> A -> bool) l : insertion_sort less l ≡ₚ l.
Proof. induction l as [|x l IH]; [done|]. cbn. by rewrite insert_by_perm, IH. Qed.

(** What [sort.Sort] documents: a permutation, in order for a strict weak order. *)
Record sorts {A} (Sort : (A -> A -> bool) -> list A -> list A) : Prop := {
  sorts_perm : forall less l, Sort less l ≡ₚ l;
  sorts_sorted : forall less, (forall x y, less x y = true -> less y x = false) ->
    (forall x y z, less y x = false -> less z y = false -> less z x = false) ->
    forall l, StronglySorted (fun x y => less y x = false) (Sort less l);
}.

Lemma insertion_sort_sorts A : sorts (@insertion_sort A).
Proof.
  split; [apply insertion_sort_perm|]. intros less Hasym Htrans l.
  assert (forall x l, StronglySorted (fun x y => less y x = false) l -> StronglySorted (fun x y => less y x = false) (insert_by less x l)) as Hins.
  { intros x l' Hl. induction Hl as [|y l' Hl IH Hy]; cbn; [by repeat constructor|]. destruct (less x y) eqn:Hxy.
    - constructor; [by constructor|]. constructor; [by apply Hasym|]. eapply Forall_impl; [exact Hy|]. intros z Hz. eapply Htrans; [by apply Hasym|done].
    - constructor; [done|]. rewrite insert_by_perm. by constructor. }
  induction l as [|x l IH]; [constructor|]. by apply Hins.
Qed.

(** ** Searching *)

#[local] Ltac Zify.zify_post_hook ::= Z.to_euclidean_division_equations.

(** [sort.Search]: the least index in [lo, hi) where the predicate holds, for a
    monotone one. *)
Fixpoint Search_loop {E} (fuel : nat) (f : Z -> bool) (i j : Z) : outcome E Z :=
  match fuel with
  | O => NoFuel
  | S fu =>
      if i <? j then
        let h := Z.shiftr (u64 (i + j)) 1 in
        if negb (f h) then Search_loop fu f (h + 1) j else Search_loop fu f i h
      else mret i
  end.

Definition Search {E} (n : Z) (f : Z -> bool) : outcome E Z := Search_loop (S (Z.to_nat n)) f 0 n.

Lemma Search_loop_spec {E} f fuel i j :
  0 <= i <= j -> j < 2 ^ 63 -> (Z.to_nat (j - i) < fuel)%nat ->
  (forall a b, i <= a <= b -> b < j -> f a = true -> f b = true) ->
  exists k, Search_loop (E := E) fuel f i j = Ok k /\ i <= k <= j
    /\ (forall a, i <= a < k -> f a = false) /\ (forall a, k <= a < j -> f a = true).
Proof.
  revert i j. induction fuel as [|fu IH]; intros i j Hij Hj Hfuel Hmono; [lia|]. cbn [Search_loop].
  destruct (Z.ltb_spec i j); [|exists i; repeat split; intros; lia || done].
  rewrite wrap_small, Z.shiftr_div_pow2 by lia. change (2 ^ 1) with 2. set (h := (i + j) / 2).
  assert (i <= h < j) as Hh by (unfold h; lia). destruct (f h) eqn:Hf; cbn [negb].
  - destruct (IH i h) as (k & -> & Hk & Hlo & Hhi); [lia|lia|lia|intros a b ? ?; apply Hmono; lia|].
    exists k. split; [done|]. split; [lia|]. split; [done|]. intros a Ha.
    destruct (Z.ltb_spec a h); [apply Hhi; lia|]. apply (Hmono h a); done || lia.
  - destruct (IH (h + 1) j) as (k & -> & Hk & Hlo & Hhi); [lia|lia|lia|intros a b ? ?; apply Hmono; lia|].
    exists k. split; [done|]. split; [lia|]. split; [|done]. intros a Ha.
    destruct (Z.ltb_spec h a); [apply Hlo; lia|].
    destruct (f a) eqn:Hfa; [|done]. rewrite (Hmono a h) in Hf by (done || lia). done.
Qed.

(** Whatever the predicate, the index found is in range. *)
Lemma Search_range {E} n f : 0 <= n < 2 ^ 63 -> exists k, Search (E := E) n f = Ok k /\ 0 <= k <= n.
Proof.
  unfold Search. intros Hn.
  assert (forall fuel i j, 0 <= i <= j -> j <= n -> (Z.to_nat (j - i) < fuel)%nat ->
    exists k, Search_loop (E := E) fuel f i j = Ok k /\ 0 <= k <= n) as H; [|apply H; lia].
  induction fuel as [|fu IH]; intros i j Hij Hj Hfuel; [lia|]. cbn [Search_loop].
  destruct (Z.ltb_spec i j); [|exists i; split; [done|lia]].
  rewrite wrap_small, Z.shiftr_div_pow2 by lia. change (2 ^ 1) with 2.
  assert (i <= (i + j) / 2 < j) by lia. destruct (negb _); apply IH; lia.
Qed.

(** ** Loops *)

(** A loop over a list that changes a state and stops at the first error. *)
Fixpoint foldM {E A S} (f : A -> S -> outcome E S) (l : list A) (s : S) : outcome E S :=
  match l with
  | [] => mret s
  | a :: l => s ← f a s; foldM f l s
  end.

Lemma foldM_app {E A S} (f : A -> S -> outcome E S) l k s : foldM f (l ++ k) s = s ← foldM f l s; foldM f k s.
Proof. revert s. induction l as [|a l IH]; intros s; [done|]. cbn. destruct (f a s); cbn; [apply IH|done..]. Qed.

(** An invariant of the loop, over the part of the list that was visited. *)
Lemma foldM_inv {E A S} (f : A -> S -> outcome E S) (I : list A -> S -> Prop) l s :
  I [] s -> (forall done a rest s, l = done ++ a :: rest -> I done s -> ensures (f a s) (I (done ++ [a]))) ->
  ensures (foldM f l s) (I l).
Proof.
  intros H0 Hstep. assert (forall done rest s, l = done ++ rest -> I done s -> ensures (foldM f rest s) (I l)) as H.
  { intros done rest. revert done. induction rest as [|a rest IH]; intros done s1 Hl HI; cbn [foldM].
    - rewrite app_nil_r in Hl. by subst.
    - eapply ensures_bind; [by eapply Hstep|]. intros s2 Hs2. apply (IH (done ++ [a])); [by rewrite <-app_assoc|done]. }
  by apply (H []).
Qed.

Lemma foldM_returns {E A S} (f : A -> S -> outcome E S) l s : (forall a s, returns (f a s)) -> returns (foldM f l s).
Proof. intros Hf. revert s. induction l as [|a l IH]; intros s; [done|]. cbn. apply returns_bind; auto. Qed.
