(* ===== verification/GoStrings.v ===== *)
(** * Go's [strings] package: the functions the components share

    Strings are lists of bytes.  Each function comes with the lemma that says
    what it computes. *)
From stdpp Require Import base list numbers option strings sets.
From Stdlib Require Import ZArith Lia.
From S2P Require Import Prelude.

Open Scope Z_scope.

(** ** [strings.Cut] at a byte, [strings.IndexByte] *)

Fixpoint cut_at (d : Z) (l : bytes) : option (bytes * bytes) :=
  match l with
  | [] => None
  | c :: l' =>
      if c =? d then Some ([], l')
      else match cut_at d l' with Some (a, b) => Some (c :: a, b) | None => None end
  end.

Lemma cut_at_Some d l a b : cut_at d l = Some (a, b) -> l = a ++ d :: b /\ d ∉ a.
Proof.
  revert a b. induction l as [|c l IH]; intros a b; cbn [cut_at]; [done|].
  destruct (Z.eqb_spec c d) as [->|Hne].
  - intros [= <- <-]. split; [done|apply not_elem_of_nil].
  - destruct (cut_at d l) as [[x y]|]; [|done]. intros [= <- <-].
    destruct (IH x y eq_refl) as [-> Hx]. split; [done|]. apply not_elem_of_cons. done.
Qed.

Lemma cut_at_None d l : cut_at d l = None <-> d ∉ l.
Proof.
  induction l as [|c l IH]; cbn [cut_at]; [split; [intros _; apply not_elem_of_nil|done]|].
  rewrite not_elem_of_cons. destruct (Z.eqb_spec c d) as [->|Hne]; [split; [done|by intros []]|].
  destruct (cut_at d l) as [[x y]|]; rewrite <-IH; split; intros; try done; by destruct_and?.
Qed.

Lemma cut_at_app d a b : d ∉ a -> cut_at d (a ++ d :: b) = Some (a, b).
Proof.
  induction a as [|c a IH]; cbn [app cut_at]; [by rewrite Z.eqb_refl|].
  intros [Hc Ha]%not_elem_of_cons. ztest (c =? d) false. by rewrite IH.
Qed.

(** [strings.Index] of a one-byte string, and [strings.Count] of one. *)
Definition Index (s : bytes) (c : Z) : Z := match cut_at c s with Some (a, _) => len a | None => -1 end.

Definition Count (s : bytes) (c : Z) : Z := len (filter (fun x => x = c) s).

Lemma Count_app s t c : Count (s ++ t) c = Count s c + Count t c.
Proof. unfold Count. by rewrite filter_app, len_app. Qed.

Lemma Count_cons x s c : Count (x :: s) c = (if decide (x = c) then 1 else 0) + Count s c.
Proof. unfold Count. rewrite filter_cons. destruct (decide (x = c)); [|done]. rewrite len_cons. done. Qed.

Lemma Count_zero s c : Count s c = 0 <-> c ∉ s.
Proof.
  induction s as [|x s IH]; [split; [intros _; apply not_elem_of_nil|done]|].
  rewrite Count_cons, not_elem_of_cons, <-IH. assert (0 <= Count s c) by apply len_nonneg.
  destruct (decide (x = c)) as [->|]; naive_solver lia.
Qed.

Lemma Count_nonneg s c : 0 <= Count s c.
Proof. apply len_nonneg. Qed.

(** A string with one occurrence of a byte. *)
Lemma Count_one s c : Count s c = 1 -> exists a b, s = a ++ c :: b /\ c ∉ a /\ c ∉ b.
Proof.
  intros H. destruct (cut_at c s) as [[a b]|] eqn:Hc.
  - apply cut_at_Some in Hc as [-> Ha]. exists a, b. split; [done|]. split; [done|].
    rewrite Count_app, Count_cons, decide_True in H by done. apply Count_zero in Ha as Hz.
    apply Count_zero. lia.
  - apply cut_at_None, Count_zero in Hc. lia.
Qed.

Lemma Index_app a b c : c ∉ a -> Index (a ++ c :: b) c = len a.
Proof. intros H. unfold Index. by rewrite cut_at_app. Qed.

(** ** Affixes and substrings *)

Definition HasSuffix (s suffix : bytes) : bool := HasPrefix (reverse s) (reverse suffix).

Lemma HasSuffix_spec s suf : HasSuffix s suf = true <-> exists q, s = q ++ suf.
Proof.
  unfold HasSuffix. rewrite HasPrefix_spec. split; intros [q Hq].
  - exists (reverse q). by rewrite <-(reverse_involutive s), Hq, reverse_app, reverse_involutive.
  - exists (reverse q). by rewrite Hq, reverse_app.
Qed.

Lemma HasPrefix_app p q : HasPrefix (p ++ q) p = true.
Proof. apply HasPrefix_spec. by exists q. Qed.

Lemma HasSuffix_app p q : HasSuffix (p ++ q) q = true.
Proof. apply HasSuffix_spec. by exists p. Qed.

(** [strings.CutPrefix]. *)
Definition CutPrefix (s p : bytes) : option bytes := if HasPrefix s p then Some (drop (length p) s) else None.

Lemma CutPrefix_spec s p q : CutPrefix s p = Some q <-> s = p ++ q.
Proof.
  unfold CutPrefix. destruct (HasPrefix s p) eqn:H.
  - apply HasPrefix_spec in H as [r ->]. rewrite drop_app_length. split; [by intros [= ->]|].
    intros Hq. f_equal. by apply (app_inv_head p).
  - split; [done|]. intros ->. by rewrite HasPrefix_app in H.
Qed.

Fixpoint Contains (s sub : bytes) : bool :=
  HasPrefix s sub || match s with [] => false | _ :: s' => Contains s' sub end.

Lemma Contains_spec s sub : Contains s sub = true <-> exists a b, s = a ++ sub ++ b.
Proof.
  induction s as [|c s IH]; cbn [Contains]; rewrite orb_true_iff, HasPrefix_spec.
  - split; [|intros (a & b & H); left].
    + intros [[q Hq]|]; [|done]. by exists [], q.
    + destruct a; [|done]. by exists b.
  - rewrite IH. split.
    + intros [[q Hq]|(a & b & ->)]; [by exists [], q|by exists (c :: a), b].
    + intros ([|x a] & b & H); [left; by exists b|right]. injection H as -> ->. by exists a, b.
Qed.

Definition ContainsByte (s : bytes) (c : Z) : bool := bool_decide (c ∈ s).

(** [strings.ContainsAny]. *)
Definition ContainsAny (s chars : bytes) : bool := existsb (fun c => bool_decide (c ∈ chars)) s.

(** ** [strings.Split] and [strings.Join] at a byte *)

Fixpoint Split (s : bytes) (d : Z) : list bytes :=
  match s with
  | [] => [[]]
  | c :: s' =>
      if c =? d then [] :: Split s' d
      else match Split s' d with
           | [] => [[c]]
           | p :: ps => (c :: p) :: ps
           end
  end.

Fixpoint Join (ps : list bytes) (d : Z) : bytes :=
  match ps with
  | [] => []
  | [p] => p
  | p :: ps' => p ++ d :: Join ps' d
  end.

Lemma Split_not_nil s d : Split s d <> [].
Proof. induction s as [|c s IH]; cbn; [done|]. destruct (c =? d); [done|]. by destruct (Split s d). Qed.

Lemma Join_cons p ps d : ps <> [] -> Join (p :: ps) d = p ++ d :: Join ps d.
Proof. by destruct ps. Qed.

Lemma Join_Split s d : Join (Split s d) d = s.
Proof.
  induction s as [|c s IH]; [done|]. cbn [Split]. destruct (Z.eqb_spec c d) as [->|Hne].
  - rewrite Join_cons by apply Split_not_nil. by rewrite IH.
  - pose proof (Split_not_nil s d). destruct (Split s d) as [|p ps]; [done|].
    destruct ps as [|q ps]; cbn [Join app] in *; by rewrite IH.
Qed.

Lemma Split_no_sep s d : Forall (fun p => d ∉ p) (Split s d).
Proof.
  induction s as [|c s IH]; cbn [Split]; [repeat constructor; apply not_elem_of_nil|].
  destruct (Z.eqb_spec c d) as [->|Hne]; [constructor; [apply not_elem_of_nil|done]|].
  destruct (Split s d) as [|p ps]; [repeat constructor; by rewrite list_elem_of_singleton|].
  apply Forall_cons in IH as [Hp Hps]. constructor; [|done]. apply not_elem_of_cons. done.
Qed.

Lemma Split_app a d b : d ∉ a -> Split (a ++ d :: b) d = a :: Split b d.
Proof.
  induction a as [|c a IH]; cbn [app Split]; [by rewrite Z.eqb_refl|].
  intros [Hc Ha]%not_elem_of_cons. ztest (c =? d) false. by rewrite IH.
Qed.

Lemma Split_none a d : d ∉ a -> Split a d = [a].
Proof.
  induction a as [|c a IH]; [done|]. cbn [Split]. intros [Hc Ha]%not_elem_of_cons.
  ztest (c =? d) false. by rewrite IH.
Qed.

Lemma Split_Join ps d : ps <> [] -> Forall (fun p => d ∉ p) ps -> Split (Join ps d) d = ps.
Proof.
  intros Hne Hps. induction Hps as [|p ps Hp Hps IH]; [done|]. destruct ps as [|q ps].
  - by apply Split_none.
  - rewrite Join_cons, Split_app by done. by rewrite IH.
Qed.

Lemma elem_of_Join ps d c : c ∈ Join ps d -> c = d \/ exists p, p ∈ ps /\ c ∈ p.
Proof.
  induction ps as [|p ps IH]; [by intros ?%elem_of_nil|]. destruct ps as [|q ps]; [set_solver|].
  rewrite Join_cons by done. rewrite elem_of_app, elem_of_cons. set_solver.
Qed.

Lemma elem_of_part ps d p c : p ∈ ps -> c ∈ p -> c ∈ Join ps d.
Proof.
  induction ps as [|q ps IH]; [by intros ?%not_elem_of_nil|]. rewrite elem_of_cons. intros [->|Hp] Hc.
  - destruct ps; [done|]. rewrite Join_cons by done. apply elem_of_app. by left.
  - destruct ps as [|r ps]; [by apply not_elem_of_nil in Hp|]. rewrite Join_cons by done.
    rewrite elem_of_app, elem_of_cons. auto.
Qed.

Lemma elem_of_Split s d p c : p ∈ Split s d -> c ∈ p -> c ∈ s.
Proof. intros Hp Hc. rewrite <-(Join_Split s d). by apply elem_of_part with p. Qed.

(** ** Decimal numbers ([strconv.FormatInt], [strconv.ParseUint]) *)

Definition is_decimal (c : Z) : Prop := 48 <= c <= 57.

#[export] Instance is_decimal_dec c : Decision (is_decimal c).
Proof. unfold is_decimal. apply _. Defined.

(** The number a run of digits stands for. *)
Definition dec_value (s : bytes) : Z := foldl (fun n c => n * 10 + (c - 48)) 0 s.

(** Digits of [n] in front of [acc]; a 64-bit value has 20 at most. *)
Fixpoint dec_loop (fuel : nat) (n : Z) (acc : bytes) : bytes :=
  match fuel with
  | O => acc
  | S f => let acc := (48 + n `mod` 10) :: acc in if n `div` 10 =? 0 then acc else dec_loop f (n `div` 10) acc
  end.

Definition FormatUint (n : Z) : bytes := dec_loop 20 n [].
Definition FormatInt (n : Z) : bytes := if n <? 0 then 45 :: FormatUint (- n) else FormatUint n.

(** Nothing when the string is empty, has another character or a value of
    2^[w] or more. *)
Definition ParseUint (w : Z) (s : bytes) : option Z :=
  if len s =? 0 then None
  else if bool_decide (Forall is_decimal s)
  then if dec_value s <? 2 ^ w then Some (dec_value s) else None
  else None.

Lemma dec_value_snoc s c : dec_value (s ++ [c]) = dec_value s * 10 + (c - 48).
Proof. unfold dec_value. by rewrite foldl_app. Qed.

Lemma dec_loop_spec fuel n acc :
  0 <= n < 10 ^ Z.of_nat fuel -> (0 < fuel)%nat ->
  exists ds, dec_loop fuel n acc = ds ++ acc /\ ds <> [] /\ Forall is_decimal ds /\ dec_value ds = n.
Proof.
  revert n acc. induction fuel as [|f IH]; intros n acc Hn Hf; [lia|]. cbn [dec_loop].
  assert (0 <= n `mod` 10 < 10) as Hm by (apply Z.mod_pos_bound; lia).
  destruct (Z.eqb_spec (n `div` 10) 0) as [Hz|Hz].
  - exists [48 + n `mod` 10]. split; [done|]. split; [done|]. split.
    + repeat constructor; unfold is_decimal; lia.
    + cbn. pose proof (Z.div_mod n 10). lia.
  - rewrite Nat2Z.inj_succ, Z.pow_succ_r in Hn by lia.
    assert (0 <= n `div` 10 < 10 ^ Z.of_nat f) as Hd
      by (split; [apply Z.div_pos; lia|apply Z.div_lt_upper_bound; lia]).
    destruct f as [|f]; [change (10 ^ Z.of_nat 0) with 1 in Hd; lia|].
    destruct (IH (n `div` 10) ((48 + n `mod` 10) :: acc)) as (ds & -> & Hne & Hds & Hv); [done|lia|].
    exists (ds ++ [48 + n `mod` 10]). rewrite <-app_assoc. split; [done|]. split; [by destruct ds|]. split.
    + apply Forall_app. split; [done|]. repeat constructor; unfold is_decimal; lia.
    + rewrite dec_value_snoc, Hv. pose proof (Z.div_mod n 10). lia.
Qed.

Lemma FormatUint_spec n :
  0 <= n < 2 ^ 64 -> FormatUint n <> [] /\ Forall is_decimal (FormatUint n) /\ dec_value (FormatUint n) = n.
Proof.
  intros Hn. destruct (dec_loop_spec 20 n []) as (ds & Hd & H); [lia|lia|].
  unfold FormatUint. by rewrite Hd, app_nil_r.
Qed.

Lemma FormatUint_inj n m : 0 <= n < 2 ^ 64 -> 0 <= m < 2 ^ 64 -> FormatUint n = FormatUint m -> n = m.
Proof.
  intros Hn Hm Heq. destruct (FormatUint_spec n Hn) as (_ & _ & <-).
  destruct (FormatUint_spec m Hm) as (_ & _ & <-). by rewrite Heq.
Qed.

Lemma ParseUint_Format w n : 0 <= n < 2 ^ 64 -> n < 2 ^ w -> ParseUint w (FormatUint n) = Some n.
Proof.
  intros Hn Hw. destruct (FormatUint_spec n Hn) as (Hne & Hd & Hv). unfold ParseUint.
  destruct (Z.eqb_spec (len (FormatUint n)) 0) as [H|H]; [by apply len_zero_nil in H|].
  rewrite bool_decide_eq_true_2, Hv by done. by ztest (n <? 2 ^ w) true.
Qed.

(** [strconv.ParseInt] in base 10, 64 bits. *)
Definition ParseInt (s : bytes) : option Z :=
  let '(neg, digits) := match s with
                        | 45 :: s' => (true, s')
                        | 43 :: s' => (false, s')
                        | _ => (false, s)
                        end in
  n ← ParseUint 64 digits;
  if negb neg && (2 ^ 63 <=? n) then None
  else if neg && (2 ^ 63 <? n) then None
  else Some (if neg then - n else n).

Lemma ParseInt_digits s n :
  s <> [] -> Forall is_decimal s -> dec_value s = n -> 0 <= n < 2 ^ 63 -> ParseInt s = Some n.
Proof.
  intros Hne Hs Hv Hn. assert (ParseUint 64 s = Some n) as Hp.
  { unfold ParseUint. destruct (Z.eqb_spec (len s) 0) as [H|_]; [by apply len_zero_nil in H|].
    rewrite bool_decide_eq_true_2, Hv by done. by ztest (n <? 2 ^ 64) true. }
  assert (match s with 45 :: s' => (true, s') | 43 :: s' => (false, s') | _ => (false, s) end = (false, s)) as Hm.
  { destruct s as [|c s]; [done|]. apply Forall_cons in Hs as [Hc _]. unfold is_decimal in Hc.
    destruct c as [|c|c]; try done. do 7 (destruct c as [c|c|]; try done); lia. }
  unfold ParseInt. rewrite Hm, Hp. cbn. by ztest (2 ^ 63 <=? n) false.
Qed.

Lemma dec_value_nonneg s : Forall is_decimal s -> 0 <= dec_value s.
Proof.
  unfold dec_value. generalize (Z.le_refl 0). generalize 0 at 2 4. intros acc Hacc Hs. revert acc Hacc.
  induction Hs as [|c s Hc Hs IH]; intros acc Hacc; [done|]. cbn [foldl]. apply IH. unfold is_decimal in Hc. lia.
Qed.

Lemma ParseUint_nonneg w s n : ParseUint w s = Some n -> 0 <= n.
Proof.
  unfold ParseUint. destruct (len s =? 0); [done|]. case_bool_decide as Hs; [|done]. apply dec_value_nonneg in Hs.
  destruct (_ <? _); [|done]. by intros [= <-].
Qed.

Lemma ParseInt_range s n : ParseInt s = Some n -> - 2 ^ 63 <= n < 2 ^ 63.
Proof.
  unfold ParseInt. destruct (match s with 45 :: s' => _ | 43 :: s' => _ | _ => _ end) as [neg digits].
  destruct (ParseUint 64 digits) as [u|] eqn:Hu; [|done]. apply ParseUint_nonneg in Hu. cbn [mbind option_bind].
  destruct neg; cbn [negb andb].
  - destruct (Z.ltb_spec (2 ^ 63) u); [done|]. intros [= <-]. lia.
  - destruct (Z.leb_spec (2 ^ 63) u); [done|]. intros [= <-]. lia.
Qed.

Lemma ParseInt_signed c s n :
  c = 43 \/ c = 45 -> s <> [] -> Forall is_decimal s -> dec_value s = n -> 0 <= n < 2 ^ 63 ->
  ParseInt (c :: s) = Some (if c =? 45 then - n else n).
Proof.
  intros Hc Hne Hs Hv Hn. assert (ParseUint 64 s = Some n) as Hp.
  { unfold ParseUint. destruct (Z.eqb_spec (len s) 0) as [H|_]; [by apply len_zero_nil in H|].
    rewrite bool_decide_eq_true_2, Hv by done. by ztest (n <? 2 ^ 64) true. }
  destruct Hc as [-> | ->]; unfold ParseInt; rewrite Hp; cbn.
  - by ztest (2 ^ 63 <=? n) false.
  - by ztest (2 ^ 63 <? n) false.
Qed.

Lemma FormatInt_nonneg n : 0 <= n -> FormatInt n = FormatUint n.
Proof. intros H. unfold FormatInt. by ztest (n <? 0) false. Qed.

(** ** Trimming *)

Fixpoint TrimLeft (s : bytes) (c : Z) : bytes :=
  match s with [] => [] | x :: s' => if x =? c then TrimLeft s' c else s end.
Definition TrimRight (s : bytes) (c : Z) : bytes := reverse (TrimLeft (reverse s) c).
Definition Trim (s : bytes) (c : Z) : bytes := TrimRight (TrimLeft s c) c.

(** [strings.TrimSuffix]. *)
Definition TrimSuffix (s suffix : bytes) : bytes :=
  if HasSuffix s suffix then take (length s - length suffix) s else s.

Lemma TrimLeft_id s c : head s <> Some c -> TrimLeft s c = s.
Proof. destruct s as [|x s]; [done|]. cbn. intros H. destruct (Z.eqb_spec x c) as [->|]; done. Qed.

Lemma TrimRight_id s c : last s <> Some c -> TrimRight s c = s.
Proof.
  intros H. unfold TrimRight. rewrite TrimLeft_id; [apply reverse_involutive|]. by rewrite head_reverse.
Qed.

Lemma TrimRight_snoc s c : TrimRight (s ++ [c]) c = TrimRight s c.
Proof. unfold TrimRight. rewrite reverse_app. cbn. by rewrite Z.eqb_refl. Qed.

Lemma TrimSuffix_app s t : TrimSuffix (s ++ t) t = s.
Proof.
  unfold TrimSuffix. rewrite HasSuffix_app, length_app. replace (length s + length t - length t)%nat with (length s) by lia.
  apply take_app_length.
Qed.

Lemma last_not_elem {A} (l : list A) x : x ∉ l -> last l <> Some x.
Proof. intros H Hl. apply H. apply last_Some in Hl as [l' ->]. apply elem_of_app. right. by left. Qed.

Lemma head_not_elem {A} (l : list A) x : x ∉ l -> head l <> Some x.
Proof. intros H Hl. apply H. destruct l; [done|]. injection Hl as ->. by left. Qed.

(** ** [strings.LastIndexByte] *)

Definition cut_last (d : Z) (l : bytes) : option (bytes * bytes) :=
  match cut_at d (reverse l) with Some (a, b) => Some (reverse b, reverse a) | None => None end.

Definition LastIndexByte (s : bytes) (c : Z) : Z := match cut_last c s with Some (a, _) => len a | None => -1 end.

Lemma cut_last_app d a b : d ∉ b -> cut_last d (a ++ d :: b) = Some (a, b).
Proof.
  intros H. unfold cut_last. rewrite reverse_app, reverse_cons, <-app_assoc. cbn [app].
  rewrite cut_at_app by (by rewrite elem_of_reverse). by rewrite !reverse_involutive.
Qed.

Lemma cut_last_Some d l a b : cut_last d l = Some (a, b) -> l = a ++ d :: b /\ d ∉ b.
Proof.
  unfold cut_last. destruct (cut_at d (reverse l)) as [[x y]|] eqn:Hc; [|done]. intros [= <- <-].
  apply cut_at_Some in Hc as [Hl Hx]. rewrite elem_of_reverse. split; [|done].
  rewrite <-(reverse_involutive l), Hl, reverse_app, reverse_cons, <-app_assoc. done.
Qed.

Lemma LastIndexByte_app a b c : c ∉ b -> LastIndexByte (a ++ c :: b) c = len a.
Proof. intros H. unfold LastIndexByte. by rewrite cut_last_app. Qed.

Lemma LastIndexByte_range s c : -1 <= LastIndexByte s c < len s \/ LastIndexByte s c = -1.
Proof.
  unfold LastIndexByte. destruct (cut_last c s) as [[a b]|] eqn:Hc; [|by right]. left.
  apply cut_last_Some in Hc as [-> _]. len_lia.
Qed.

Lemma Index_range s c : -1 <= Index s c < len s \/ Index s c = -1.
Proof.
  unfold Index. destruct (cut_at c s) as [[a b]|] eqn:Hc; [|by right]. left.
  apply cut_at_Some in Hc as [-> _]. len_lia.
Qed.

(** ** [strings.Join] with any separator *)

Fixpoint join_with (sep : bytes) (ps : list bytes) : bytes :=
  match ps with
  | [] => []
  | [p] => p
  | p :: ps' => p ++ sep ++ join_with sep ps'
  end.

Lemma join_with_cons sep p ps : ps <> [] -> join_with sep (p :: ps) = p ++ sep ++ join_with sep ps.
Proof. by destruct ps. Qed.

(** ** Lines ([bufio.Reader.ReadBytes]) *)

(** The line with its delimiter, or all that is left together with [io.EOF]
    ([true]); and the rest. *)
Definition ReadBytes (d : Z) (r : bytes) : bytes * bool * bytes :=
  match cut_at d r with
  | Some (a, b) => (a ++ [d], false, b)
  | None => (r, true, [])
  end.

Lemma ReadBytes_app d a b : d ∉ a -> ReadBytes d (a ++ d :: b) = (a ++ [d], false, b).
Proof. intros H. unfold ReadBytes. by rewrite cut_at_app. Qed.

Lemma ReadBytes_content d r line eof r' :
  ReadBytes d r = (line, eof, r') -> r = line ++ r' /\ (eof = true -> r' = []) /\ (eof = false -> line <> []).
Proof.
  unfold ReadBytes. destruct (cut_at d r) as [[a b]|] eqn:Hc; intros [= <- <- <-].
  - apply cut_at_Some in Hc as [-> _]. split; [by rewrite <-app_assoc|]. split; [done|]. by destruct a.
  - rewrite app_nil_r. done.
Qed.
