(* ===== verification/Varint.v ===== *)
(** * Variable-length integers

    The three variable-width integer encodings of a packfile:
    - unsigned LEB128 (sizes in a delta header):
      [plumbing/format/packfile/util/util.go];
    - the type/size header of a pack entry: [util.go] for the reader and
      [plumbing/format/packfile/encoder.go] ([entryHead]) for the writer;
    - git's offset encoding of OFS_DELTA entries: [utils/binary/read.go] and
      [utils/binary/write.go].

    Each encoder is shown to be inverted by its decoder on the whole range the
    decoder accepts, and git's offset encoding to be a bijection. *)
From stdpp Require Import base list numbers option.
From Stdlib Require Import ZArith Lia.
From S2P Require Import Prelude.

Open Scope Z_scope.
#[local] Ltac Zify.zify_post_hook ::= Z.to_euclidean_division_equations.

(** The errors of the three decoders. *)
Inductive varint_error :=
  | ErrLengthOverflow
  | ErrIntegerOverflow
  | ErrRead (e : ioerr).

(** Fuel of the encoders: a 64-bit value has at most ten 7-bit groups. *)
Definition varint_fuel : nat := 10.

(** ** Unsigned LEB128 *)

(** [uintBits] on a 64-bit platform. *)
Definition uintBits : Z := 64.

Fixpoint EncodeLEB128_loop (fuel : nat) (num : Z) (out : bytes) : outcome varint_error bytes :=
  match fuel with
  | O => NoFuel
  | S f =>
      let b := Z.land num 0x7f in
      let num' := Z.shiftr num 7 in
      if num' =? 0 then Ok (out ++ [b])
      else EncodeLEB128_loop f num' (out ++ [Z.lor b 0x80])
  end.

Definition EncodeLEB128 (num : Z) : outcome varint_error bytes :=
  EncodeLEB128_loop varint_fuel num [].

(** One iteration reads [input[sz]]; the loop ends on a byte without the
    continuation bit or at the end of the input. *)
Fixpoint DecodeLEB128_loop (rest : bytes) (num sz : Z) : outcome varint_error (Z * bytes) :=
  if sz * 7 >? uintBits - 7 then Err ErrLengthOverflow
  else match rest with
  | [] => Panic
  | b :: rest' =>
      let num' := Z.lor num (u64 (Z.shiftl (Z.land b 0x7f) (sz * 7))) in
      if (Z.land b 0x80 =? 0) || (len rest' =? 0) then Ok (num', rest')
      else DecodeLEB128_loop rest' num' (sz + 1)
  end.

Definition DecodeLEB128 (input : bytes) : outcome varint_error (Z * bytes) :=
  if len input =? 0 then Ok (0, input) else DecodeLEB128_loop input 0 0.

Fixpoint DecodeLEB128FromReader_loop (input : bytes) (num sz : Z)
    : outcome varint_error (Z * bytes) :=
  if sz * 7 >? uintBits - 7 then Err ErrLengthOverflow
  else match input with
  | [] => Err (ErrRead EOF)
  | b :: rest =>
      let num' := Z.lor num (u64 (Z.shiftl (Z.land b 0x7f) (sz * 7))) in
      if Z.land b 0x80 =? 0 then Ok (num', rest)
      else DecodeLEB128FromReader_loop rest num' (sz + 1)
  end.

Definition DecodeLEB128FromReader (input : bytes) : outcome varint_error (Z * bytes) :=
  DecodeLEB128FromReader_loop input 0 0.

(** ** The type/size header of a pack entry *)

(** [size] holds the low four bits of the first byte when the loop starts at
    [shift] 4. *)
Fixpoint VariableLengthSize_loop (reader : bytes) (size shift : Z)
    : outcome varint_error (Z * bytes) :=
  if shift >? 64 - 7 then Err ErrLengthOverflow
  else match reader with
  | [] => Err (ErrRead EOF)
  | b :: reader' =>
      let size' := Z.lor size (u64 (Z.shiftl (Z.land b 0x7f) shift)) in
      if Z.land b 0x80 =? 0 then Ok (size', reader')
      else VariableLengthSize_loop reader' size' (shift + 7)
  end.

Definition VariableLengthSize (first : Z) (reader : bytes) : outcome varint_error (Z * bytes) :=
  let size := Z.land first 0x0f in
  if negb (Z.land first 0x80 =? 0) then VariableLengthSize_loop reader size 4
  else Ok (size, reader).

Definition ObjectType (b : Z) : Z := Z.shiftr (Z.land b 112) 4.

Fixpoint entryHead_loop (fuel : nat) (c size : Z) (header : bytes) : outcome varint_error bytes :=
  if size =? 0 then Ok (header ++ [u8 c])
  else match fuel with
  | O => NoFuel
  | S f =>
      entryHead_loop f (Z.land size 127) (Z.shiftr size 7) (header ++ [u8 (Z.lor c 0x80)])
  end.

Definition entryHead (typeNum size : Z) : outcome varint_error bytes :=
  entryHead_loop varint_fuel (Z.lor (Z.shiftl typeNum 4) (Z.land size 15)) (Z.shiftr size 4) [].

(** ** Git's offset encoding *)

Fixpoint ReadVariableWidthInt_loop (v c : Z) (r : bytes) : outcome varint_error (Z * bytes) :=
  if Z.land c 128 >? 0 then
    if v >=? Z.shiftr (MaxInt64 - 127) 7 then Err ErrIntegerOverflow
    else match r with
    | [] => Err (ErrRead EOF)
    | c' :: r' => ReadVariableWidthInt_loop (Z.shiftl (v + 1) 7 + Z.land c' 127) c' r'
    end
  else Ok (v, r).

Definition ReadVariableWidthInt (r : bytes) : outcome varint_error (Z * bytes) :=
  match r with
  | [] => Err (ErrRead EOF)
  | c :: r' => ReadVariableWidthInt_loop (Z.land c 127) c r'
  end.

Fixpoint WriteVariableWidthInt_loop (fuel : nat) (n : Z) (buf : bytes)
    : outcome varint_error bytes :=
  if n =? 0 then Ok buf
  else match fuel with
  | O => NoFuel
  | S f =>
      let n' := n - 1 in
      WriteVariableWidthInt_loop f (Z.shiftr n' 7) (Z.lor 0x80 (Z.land n' 0x7f) :: buf)
  end.

Definition WriteVariableWidthInt (n : Z) : outcome varint_error bytes :=
  WriteVariableWidthInt_loop varint_fuel (Z.shiftr n 7) [Z.land n 0x7f].

Example leb_624485 : EncodeLEB128 624485 = Ok [0xE5; 0x8E; 0x26].
Proof. reflexivity. Qed.
Example leb_back : DecodeLEB128 [0xE5; 0x8E; 0x26; 1] = Ok (624485, [1]).
Proof. reflexivity. Qed.
Example vlq_16511 : WriteVariableWidthInt 16511 = Ok [0xff; 0x7f].
Proof. reflexivity. Qed.
Example vlq_16512 : WriteVariableWidthInt 16512 = Ok [0x80; 0x80; 0].
Proof. reflexivity. Qed.
Example head_300 : entryHead 3 300 = Ok [0xbc; 18] /\ VariableLengthSize 0xbc [18; 7] = Ok (300, [7]).
Proof. split; reflexivity. Qed.

(** ** Seven-bit groups *)

Lemma low7 n : Z.land n 0x7f = n `mod` 128.
Proof. change 0x7f with (2 ^ 7 - 1). by rewrite land_low_mask. Qed.

Lemma shiftr7 n : Z.shiftr n 7 = n `div` 128.
Proof. by rewrite Z.shiftr_div_pow2. Qed.

Lemma set_continue x : 0 <= x < 128 -> Z.lor x 0x80 = x + 128.
Proof.
  intros Hx. change (Z.lor x 0x80) with (Z.lor x (Z.shiftl 1 7)).
  rewrite lor_disjoint_add; lia.
Qed.

Lemma continue_bit b : is_byte b -> (Z.land b 0x80 =? 0) = (b <? 128).
Proof.
  intros Hb. unfold is_byte in Hb. change 0x80 with (2 ^ 7).
  rewrite land_pow2_testbit, testbit_top by lia.
  destruct (Z.leb_spec (2 ^ 7) b), (Z.ltb_spec b 128); simpl; lia.
Qed.

Lemma digit_payload n : (n `mod` 128 + 128) `mod` 128 = n `mod` 128.
Proof. lia. Qed.

Lemma digit_recompose n x :
  n `mod` 128 * x + n `div` 128 * (128 * x) = n * x.
Proof. pose proof (Z.div_mod n 128 ltac:(lia)) as Hdm. nia. Qed.

Lemma pow_next_group sh : 0 <= sh -> 2 ^ (sh + 7) = 128 * 2 ^ sh.
Proof. intros. rewrite Z.pow_add_r by lia. lia. Qed.

(** The little-endian base-128 digits of [n], all but the last carrying the
    continuation bit: what the LEB128 encoders write. *)
Inductive leb_enc : Z -> bytes -> Prop :=
  | leb_last n : 0 <= n < 128 -> leb_enc n [n]
  | leb_more n l :
      128 <= n -> leb_enc (n `div` 128) l -> leb_enc n ((n `mod` 128 + 128) :: l).

#[local] Hint Constructors leb_enc : core.

Lemma leb_enc_bytes_ok n l : leb_enc n l -> bytes_ok l.
Proof.
  induction 1 as [n Hn|n l Hn _ IH]; apply bytes_ok_cons; split; auto with gobytes.
  - unfold is_byte. lia.
  - unfold is_byte. pose proof (Z.mod_pos_bound n 128). lia.
Qed.

Lemma leb_enc_nonempty n l : leb_enc n l -> l <> [].
Proof. by destruct 1. Qed.

Lemma leb_enc_len k n l : leb_enc n l -> n < 2 ^ (7 * k) -> 1 <= k -> len l <= k.
Proof.
  intros H. revert k. induction H as [n Hn|n l Hn Henc IH]; intros k Hk H1; rewrite len_cons.
  - change (len (@nil Z)) with 0. lia.
  - destruct (Z.eq_dec k 1) as [->|Hne]; [simpl in Hk; lia|].
    assert (len l <= k - 1); [|lia]. apply IH; [|lia].
    replace (7 * k) with (7 + 7 * (k - 1)) in Hk by lia. rewrite Z.pow_add_r in Hk by lia. lia.
Qed.

(** Pre: [n] fits in the [fuel] groups left. *)
Lemma EncodeLEB128_loop_enc fuel n out :
  0 <= n < 2 ^ (7 * Z.of_nat fuel) -> (0 < fuel)%nat ->
  exists l, leb_enc n l /\ EncodeLEB128_loop fuel n out = Ok (out ++ l).
Proof.
  revert n out. induction fuel as [|f IH]; intros n out Hn Hf; [lia|].
  cbn [EncodeLEB128_loop]. rewrite low7, shiftr7.
  destruct (Z.eqb_spec (n `div` 128) 0) as [Hd|Hd].
  - exists [n]. assert (0 <= n < 128) as Hs by lia.
    split; [auto|]. by rewrite Z.mod_small.
  - rewrite set_continue by (apply Z.mod_pos_bound; lia).
    replace (7 * Z.of_nat (S f)) with (7 * Z.of_nat f + 7) in Hn by lia.
    rewrite Z.pow_add_r in Hn by lia. change (2 ^ 7) with 128 in Hn.
    assert (0 <= n `div` 128 < 2 ^ (7 * Z.of_nat f)) as Hn'.
    { split; [apply Z.div_pos; lia | apply Z.div_lt_upper_bound; lia]. }
    destruct f as [|f']; [simpl in Hn'; lia|].
    destruct (IH (n `div` 128) (out ++ [n `mod` 128 + 128]) Hn') as (l & Hl & ->); [lia|].
    exists ((n `mod` 128 + 128) :: l). rewrite <-app_assoc. split; [|done].
    apply leb_more; [|done]. destruct (Z.le_gt_cases 128 n) as [|Hlt]; [done|].
    rewrite Z.div_small in Hd by lia. done.
Qed.

(** The accumulating step shared by the three decoders. *)
Lemma group_or acc d sh :
  0 <= sh <= 57 -> 0 <= acc < 2 ^ sh -> 0 <= d < 128 ->
  Z.lor acc (u64 (Z.shiftl d sh)) = acc + d * 2 ^ sh
  /\ 0 <= acc + d * 2 ^ sh < 2 ^ (sh + 7).
Proof.
  intros Hsh Hacc Hd.
  assert (2 ^ sh <= 2 ^ 57) by (apply Z.pow_le_mono_r; lia).
  assert (0 < 2 ^ sh) by (apply Z.pow_pos_nonneg; lia).
  rewrite (wrap_small 64) by (rewrite Z.shiftl_mul_pow2 by lia; nia).
  rewrite lor_disjoint_add by lia. split; [done|].
  rewrite Z.pow_add_r by lia. change (2 ^ 7) with 128. nia.
Qed.

Lemma group_of_byte b : is_byte b -> 0 <= Z.land b 0x7f < 128.
Proof. intros _. rewrite low7. apply Z.mod_pos_bound. lia. Qed.

(** At a shift [sh] that is a whole number of groups below [top], a value that
    fits below [top + 7] bits and needs another group leaves room for it. *)
Lemma enc_head_fits n sh top k :
  n * 2 ^ sh < 2 ^ (top + 7) -> 0 <= sh -> sh = top - 7 * k -> 0 <= k -> 128 <= n ->
  sh + 7 <= top /\ n `div` 128 * 2 ^ (sh + 7) < 2 ^ (top + 7).
Proof.
  intros Hfit Hsh Htop Hk Hn.
  assert (0 < 2 ^ sh) by (apply Z.pow_pos_nonneg; lia).
  rewrite pow_next_group by lia.
  split; [|pose proof (Z.mul_div_le n 128 ltac:(lia)); nia].
  destruct (decide (k = 0)) as [->|]; [exfalso|lia].
  replace (top + 7) with (sh + 7) in Hfit by lia.
  rewrite pow_next_group in Hfit by lia. nia.
Qed.

Lemma DecodeLEB128_loop_enc n l rest acc sz :
  leb_enc n l -> 0 <= sz <= 8 -> 0 <= acc < 2 ^ (sz * 7) ->
  n * 2 ^ (sz * 7) < 2 ^ 63 ->
  DecodeLEB128_loop (l ++ rest) acc sz = Ok (acc + n * 2 ^ (sz * 7), rest)
  /\ DecodeLEB128FromReader_loop (l ++ rest) acc sz = Ok (acc + n * 2 ^ (sz * 7), rest).
Proof.
  intros Henc. revert acc sz. induction Henc as [n Hn|n l Hn Henc IH]; intros acc sz Hsz Hacc Hfit.
  - destruct (group_or acc n (sz * 7)) as [Hor _]; [lia..|].
    simpl. unfold uintBits; rewrite Z.gtb_ltb; ztest (64 - 7 <? sz * 7) false.
    rewrite continue_bit by (unfold is_byte; lia). ztest (n <? 128) true.
    rewrite low7, Z.mod_small by lia. by rewrite Hor.
  - destruct (enc_head_fits n (sz * 7) 56 (8 - sz)) as [Hsh Hd]; [lia..|].
    pose proof (Z.mod_pos_bound n 128 ltac:(lia)) as Hm.
    destruct (group_or acc (n `mod` 128) (sz * 7)) as [Hor Hb]; [lia..|].
    replace (sz * 7 + 7) with ((sz + 1) * 7) in * by lia.
    destruct (IH (acc + n `mod` 128 * 2 ^ (sz * 7)) (sz + 1)) as [E1 E2]; [lia..|].
    simpl. unfold uintBits; rewrite Z.gtb_ltb; ztest (64 - 7 <? sz * 7) false.
    rewrite continue_bit by (unfold is_byte; lia). ztest (n `mod` 128 + 128 <? 128) false.
    rewrite low7, digit_payload, Hor.
    assert (len l <> 0) by (destruct Henc; len_lia).
    ztest (len (l ++ rest) =? 0) false. simpl. rewrite E1, E2.
    replace ((sz + 1) * 7) with (sz * 7 + 7) by lia. rewrite pow_next_group by lia.
    by rewrite <-Z.add_assoc, digit_recompose.
Qed.

Lemma VariableLengthSize_loop_enc n l rest acc sh k :
  leb_enc n l -> 0 <= sh -> sh = 53 - 7 * k -> 0 <= k -> 0 <= acc < 2 ^ sh ->
  n * 2 ^ sh < 2 ^ 60 ->
  VariableLengthSize_loop (l ++ rest) acc sh = Ok (acc + n * 2 ^ sh, rest).
Proof.
  intros Henc. revert acc sh k.
  induction Henc as [n Hn|n l Hn Henc IH]; intros acc sh k Hsh Hk1 Hk2 Hacc Hfit.
  - destruct (group_or acc n sh) as [Hor _]; [lia..|].
    simpl. rewrite Z.gtb_ltb. ztest (64 - 7 <? sh) false.
    rewrite continue_bit by (unfold is_byte; lia). ztest (n <? 128) true.
    rewrite low7, Z.mod_small by lia. by rewrite Hor.
  - destruct (enc_head_fits n sh 53 k) as [Htop Hd]; [lia..|].
    pose proof (Z.mod_pos_bound n 128 ltac:(lia)) as Hm.
    destruct (group_or acc (n `mod` 128) sh) as [Hor Hb]; [lia..|].
    simpl. rewrite Z.gtb_ltb. ztest (64 - 7 <? sh) false.
    rewrite continue_bit by (unfold is_byte; lia). ztest (n `mod` 128 + 128 <? 128) false.
    rewrite low7, digit_payload, Hor.
    rewrite (IH _ _ (k - 1)) by lia.
    by rewrite pow_next_group, <-Z.add_assoc, digit_recompose by lia.
Qed.

(** The groups after the first byte of an entry header. *)
Lemma entryHead_loop_enc fuel c size header :
  0 <= c < 128 -> 0 <= size < 2 ^ (7 * Z.of_nat fuel) ->
  exists h, entryHead_loop fuel c size header = Ok (header ++ h) /\
    ((size = 0 /\ h = [c]) \/ (0 < size /\ exists l, leb_enc size l /\ h = (c + 128) :: l)).
Proof.
  revert c size header. induction fuel as [|f IH]; intros c size header Hc Hs;
    cbn [entryHead_loop]; destruct (Z.eqb_spec size 0) as [->|Hne].
  1,3: exists [c]; split; [by rewrite wrap_small by lia|auto].
  - simpl in Hs. lia.
  - rewrite low7, shiftr7, set_continue, wrap_small by lia.
    replace (7 * Z.of_nat (S f)) with (7 * Z.of_nat f + 7) in Hs by lia.
    rewrite pow_next_group in Hs by lia.
    destruct (IH (size `mod` 128) (size `div` 128) (header ++ [c + 128])) as (h & -> & Hh);
      [lia..|].
    exists ((c + 128) :: h). rewrite <-app_assoc. split; [done|]. right. split; [lia|].
    exists h. split; [|done].
    destruct Hh as [[Hz ->]|[Hp (l & Hl & ->)]].
    + rewrite Z.mod_small by lia. apply leb_last. lia.
    + apply leb_more; [lia|done].
Qed.

Lemma DecodeLEB128_loop_overflow n l acc sz :
  leb_enc n l -> 0 <= sz <= 9 -> 2 ^ (63 - sz * 7) <= n ->
  DecodeLEB128_loop l acc sz = Err ErrLengthOverflow.
Proof.
  intros Henc. revert acc sz. induction Henc as [n Hn|n l Hn Henc IH]; intros acc sz Hsz Hbig.
  - assert (sz = 9) as -> ; [|done].
    destruct (decide (sz = 9)); [done|].
    assert (2 ^ 7 <= 2 ^ (63 - sz * 7)) by (apply Z.pow_le_mono_r; lia). lia.
  - destruct (decide (sz = 9)) as [->|Hne]; [done|].
    simpl. unfold uintBits. rewrite Z.gtb_ltb. ztest (64 - 7 <? sz * 7) false.
    rewrite continue_bit by (unfold is_byte; lia). ztest (n `mod` 128 + 128 <? 128) false.
    assert (len l <> 0) by (destruct Henc; len_lia).
    ztest (len l =? 0) false. simpl. apply IH; [lia|].
    apply Z.div_le_lower_bound; [lia|].
    change 128 with (2 ^ 7). rewrite <-Z.pow_add_r by lia.
    etransitivity; [|exact Hbig]. apply Z.pow_le_mono_r; lia.
Qed.

(** LEB128 encoding and decoding are inverse.  For every [uint] the encoder
    writes a well-formed byte string; both decoders give the number back, with
    the bytes that follow left unread, for every value below 2^63.  From 2^63
    on, although the value fits a [uint], the decoder reports an overflow. *)
Theorem leb128_roundtrip n rest :
  0 <= n < 2 ^ 64 ->
  exists l, EncodeLEB128 n = Ok l /\ bytes_ok l /\
    if n <? 2 ^ 63
    then DecodeLEB128 (l ++ rest) = Ok (n, rest)
         /\ DecodeLEB128FromReader (l ++ rest) = Ok (n, rest)
    else DecodeLEB128 l = Err ErrLengthOverflow.
Proof.
  intros Hn. destruct (EncodeLEB128_loop_enc 10 n []) as (l & Henc & Hl); [simpl; lia|lia|].
  exists l. split; [done|]. split; [by eapply leb_enc_bytes_ok|].
  assert (len l <> 0) by (destruct Henc; len_lia).
  unfold DecodeLEB128, DecodeLEB128FromReader.
  destruct (Z.ltb_spec n (2 ^ 63)).
  - ztest (len (l ++ rest) =? 0) false.
    destruct (DecodeLEB128_loop_enc n l rest 0 0) as [-> ->]; [done|simpl; lia..|].
    rewrite Z.add_0_l, Z.mul_1_r. done.
  - ztest (len l =? 0) false. apply DecodeLEB128_loop_overflow with n; [done|lia|simpl; lia].
Qed.

Lemma leb128_roundtrip_witness :
  0 <= 2 ^ 63 < 2 ^ 64 /\
  exists l, EncodeLEB128 (2 ^ 63) = Ok l /\ bytes_ok l /\
    if 2 ^ 63 <? 2 ^ 63
    then DecodeLEB128 (l ++ [7]) = Ok (2 ^ 63, [7])
         /\ DecodeLEB128FromReader (l ++ [7]) = Ok (2 ^ 63, [7])
    else DecodeLEB128 l = Err ErrLengthOverflow.
Proof. split; [lia|]. apply (leb128_roundtrip (2 ^ 63) [7]). lia. Defined.

Lemma entryHead_spec t size :
  0 <= t < 8 -> 0 <= size < 2 ^ 60 ->
  exists first h, entryHead t size = Ok (first :: h) /\ bytes_ok (first :: h) /\ len h <= 9
    /\ (forall rest, VariableLengthSize first (h ++ rest) = Ok (size, rest))
    /\ ObjectType first = t.
Proof.
  intros Ht Hs. unfold entryHead, VariableLengthSize, ObjectType.
  assert (Z.lor (Z.shiftl t 4) (Z.land size 15) = size `mod` 16 + t * 16) as ->.
  { change 15 with (2 ^ 4 - 1). rewrite land_low_mask, Z.lor_comm by lia.
    rewrite lor_disjoint_add; lia. }
  rewrite Z.shiftr_div_pow2 by lia. change (2 ^ 4) with 16.
  destruct (entryHead_loop_enc varint_fuel (size `mod` 16 + t * 16) (size `div` 16) [])
    as (h & -> & Hh); [lia|unfold varint_fuel; lia|].
  assert (forall x, 0 <= x < 256 -> Z.land x 15 = x `mod` 16
                    /\ Z.shiftr (Z.land x 112) 4 = (x `div` 16) `mod` 8) as Hparts.
  { intros x Hx. split; [by change 15 with (2 ^ 4 - 1); rewrite land_low_mask|].
    rewrite Z.shiftr_land. change (Z.shiftr 112 4) with (2 ^ 3 - 1).
    rewrite land_low_mask, Z.shiftr_div_pow2 by lia. done. }
  destruct Hh as [[Hz ->]|[Hp (l & Hl & ->)]].
  - exists (size `mod` 16 + t * 16), []. split; [done|].
    split; [repeat constructor; unfold is_byte; lia|]. split; [len_lia|].
    destruct (Hparts (size `mod` 16 + t * 16)) as [-> ->]; [lia|].
    rewrite continue_bit by (unfold is_byte; lia).
    ztest (size `mod` 16 + t * 16 <? 128) true. simpl. split; [intros rest; do 2 f_equal; lia|lia].
  - exists (size `mod` 16 + t * 16 + 128), l. split; [done|].
    split; [apply bytes_ok_cons; split; [unfold is_byte; lia|by eapply leb_enc_bytes_ok]|].
    split; [eapply leb_enc_len; [done|simpl; lia|lia]|].
    destruct (Hparts (size `mod` 16 + t * 16 + 128)) as [-> ->]; [lia|].
    rewrite continue_bit by (unfold is_byte; lia).
    ztest (size `mod` 16 + t * 16 + 128 <? 128) false. simpl.
    split; [|lia]. intros rest. rewrite (VariableLengthSize_loop_enc _ l rest _ 4 7) by (done || lia).
    do 2 f_equal; lia.
Qed.

(** The type/size header of a pack entry is read back by the scanner: for
    every object type and every size below 2^60 (what the reader's overflow
    guard admits), [entryHead] terminates and [VariableLengthSize] and
    [ObjectType] recover size and type, leaving the entry's content unread. *)
Theorem entry_header_roundtrip t size rest :
  0 <= t < 8 -> 0 <= size < 2 ^ 60 ->
  exists first h, entryHead t size = Ok (first :: h)
    /\ VariableLengthSize first (h ++ rest) = Ok (size, rest)
    /\ ObjectType first = t.
Proof.
  intros Ht Hs. destruct (entryHead_spec t size Ht Hs) as (first & h & He & _ & _ & Hv & Hty). exists first, h. auto.
Qed.

Lemma entry_header_roundtrip_witness :
  (0 <= 6 < 8) /\ (0 <= 100000 < 2 ^ 60) /\
  exists first h, entryHead 6 100000 = Ok (first :: h)
    /\ VariableLengthSize first (h ++ [1; 2]) = Ok (100000, [1; 2])
    /\ ObjectType first = 6.
Proof. split; [lia|]. split; [lia|]. apply entry_header_roundtrip; lia. Defined.

(** ** Git's offset encoding *)

(** The continuation bytes in front of the last one: the more significant part
    [m] of the offset, each group being one less than what it stands for. *)
Inductive vlq_prefix : Z -> bytes -> Prop :=
  | vlq_none : vlq_prefix 0 []
  | vlq_snoc m l :
      0 < m -> vlq_prefix ((m - 1) `div` 128) l ->
      vlq_prefix m (l ++ [(m - 1) `mod` 128 + 128]).

#[local] Hint Constructors vlq_prefix : core.

Lemma vlq_prefix_nonneg m l : vlq_prefix m l -> 0 <= m.
Proof. destruct 1; lia. Qed.

Lemma vlq_prefix_inj m l l' : vlq_prefix m l -> vlq_prefix m l' -> l = l'.
Proof.
  intros H. revert l'. induction H as [|m l Hm Hl IH]; intros l' H'; inversion H'; subst;
    try lia; [done|]. f_equal. by apply IH.
Qed.

Lemma continue_groups x :
  0 <= x < 128 -> is_byte (x + 128) /\ (Z.land (x + 128) 128 >? 0) = true
  /\ Z.land (x + 128) 127 = x.
Proof.
  intros Hx. split; [unfold is_byte; lia|].
  split; [|change 127 with 0x7f; rewrite low7; lia].
  pose proof (continue_bit (x + 128)) as Hc.
  rewrite (proj2 (Z.ltb_ge (x + 128) 128)) in Hc by lia.
  assert (0 <= Z.land (x + 128) 128) by (apply Z.land_nonneg; lia).
  destruct (Z.eqb_spec (Z.land (x + 128) 0x80) 0) as [|Hne].
  - discriminate Hc. unfold is_byte; lia.
  - rewrite Z.gtb_ltb. apply Z.ltb_lt. change 0x80 with 128 in Hne. lia.
Qed.

Lemma stop_groups x :
  0 <= x < 128 -> (Z.land x 128 >? 0) = false /\ Z.land x 127 = x.
Proof.
  intros Hx. split; [|change 127 with 0x7f; rewrite low7; lia].
  rewrite Z.gtb_ltb, Z.ltb_ge. pose proof (continue_bit x) as Hc.
  rewrite (proj2 (Z.ltb_lt x 128)) in Hc by lia.
  destruct (Z.eqb_spec (Z.land x 0x80) 0) as [Hz|]; [change 0x80 with 128 in Hz; lia|].
  discriminate Hc. unfold is_byte; lia.
Qed.

Lemma byte_groups b :
  is_byte b -> Z.land b 127 = b `mod` 128 /\ (Z.land b 128 >? 0) = (128 <=? b).
Proof.
  intros Hb. unfold is_byte in Hb. split; [apply low7|].
  destruct (Z.leb_spec 128 b).
  - replace b with ((b - 128) + 128) by lia. apply continue_groups. lia.
  - apply stop_groups. lia.
Qed.

Lemma WriteVariableWidthInt_loop_enc fuel m buf :
  0 <= m < 2 ^ (7 * Z.of_nat fuel) ->
  exists l, vlq_prefix m l /\ WriteVariableWidthInt_loop fuel m buf = Ok (l ++ buf).
Proof.
  revert m buf. induction fuel as [|f IH]; intros m buf Hm;
    cbn [WriteVariableWidthInt_loop]; destruct (Z.eqb_spec m 0) as [->|Hne]; eauto.
  - simpl in Hm. lia.
  - replace (7 * Z.of_nat (S f)) with (7 * Z.of_nat f + 7) in Hm by lia.
    rewrite pow_next_group in Hm by lia.
    rewrite low7, shiftr7, Z.lor_comm, set_continue by lia.
    destruct (IH ((m - 1) `div` 128) (((m - 1) `mod` 128 + 128) :: buf)) as (l & Hl & ->); [lia|].
    eexists. split; [apply vlq_snoc; [lia|exact Hl]|]. by rewrite <-app_assoc.
Qed.

(** Having read the continuation bytes of [m], the reader holds [m - 1]. *)
Lemma ReadVariableWidthInt_prefix m l r :
  vlq_prefix m l -> 0 < m <= 2 ^ 56 - 1 ->
  exists c, (Z.land c 128 >? 0) = true /\
    ReadVariableWidthInt (l ++ r) = ReadVariableWidthInt_loop (m - 1) c r.
Proof.
  intros H. revert r. induction H as [|m l Hm Hl IH]; intros r Hb; [lia|].
  destruct (continue_groups ((m - 1) `mod` 128)) as (_ & Hc1 & Hc2); [lia|].
  exists ((m - 1) `mod` 128 + 128). split; [done|].
  rewrite <-app_assoc. simpl.
  destruct (decide (m - 1 < 128)) as [Hlt|Hge].
  - replace ((m - 1) `div` 128) with 0 in Hl by lia.
    assert (l = []) as -> by (inversion Hl; subst; [done|lia]).
    simpl. rewrite Hc2. f_equal. lia.
  - pose proof (IH (((m - 1) `mod` 128 + 128) :: r)) as (c & Hc & ->); [lia|].
    cbn [ReadVariableWidthInt_loop]. rewrite Hc, Hc2, Z.geb_leb.
    change (Z.shiftr (MaxInt64 - 127) 7) with (2 ^ 56 - 1).
    ztest (2 ^ 56 - 1 <=? (m - 1) `div` 128 - 1) false.
    f_equal. rewrite Z.shiftl_mul_pow2 by lia. lia.
Qed.

Lemma vlq_decode m l d rest :
  vlq_prefix m l -> m <= 2 ^ 56 - 1 -> 0 <= d < 128 ->
  ReadVariableWidthInt (l ++ d :: rest) = Ok (m * 128 + d, rest).
Proof.
  intros Hl Hm Hd. destruct (stop_groups d Hd) as [Hs1 Hs2].
  pose proof (vlq_prefix_nonneg _ _ Hl).
  destruct (decide (m = 0)) as [->|].
  - assert (l = []) as -> by (inversion Hl; subst; [done|lia]).
    simpl. rewrite Hs2. destruct rest; simpl; by rewrite Hs1.
  - destruct (ReadVariableWidthInt_prefix m l (d :: rest) Hl) as (c & Hc & ->); [lia|].
    cbn [ReadVariableWidthInt_loop]. rewrite Hc, Hs2, Z.geb_leb.
    change (Z.shiftr (MaxInt64 - 127) 7) with (2 ^ 56 - 1).
    ztest (2 ^ 56 - 1 <=? m - 1) false.
    rewrite Z.shiftl_mul_pow2 by lia.
    destruct rest; simpl; rewrite Hs1; do 2 f_equal; lia.
Qed.

Lemma vlq_prefix_facts m l : vlq_prefix m l -> bytes_ok l /\ forall k, m < 2 ^ (7 * k) -> 0 <= k -> len l <= k.
Proof.
  intros H. induction H as [|m l Hm Hl [IHb IHl]].
  - split; [constructor|]. done.
  - split.
    + apply bytes_ok_app. split; [done|]. repeat constructor; unfold is_byte; lia.
    + intros k Hk H0. rewrite len_app, len_cons. change (len (@nil Z)) with 0.
      destruct (Z.eq_dec k 0) as [->|]; [simpl in Hk; lia|].
      assert (len l <= k - 1); [|lia]. apply IHl; [|lia].
      replace (7 * k) with (7 + 7 * (k - 1)) in Hk by lia. rewrite Z.pow_add_r in Hk by lia. lia.
Qed.

Lemma WriteVariableWidthInt_spec n : 0 <= n <= MaxInt64 ->
  exists l, WriteVariableWidthInt n = Ok l /\ bytes_ok l /\ len l <= 10 /\ forall rest, ReadVariableWidthInt (l ++ rest) = Ok (n, rest).
Proof.
  intros Hn. unfold WriteVariableWidthInt. rewrite low7, shiftr7. unfold MaxInt64 in Hn.
  destruct (WriteVariableWidthInt_loop_enc varint_fuel (n `div` 128) [n `mod` 128]) as (l & Hl & ->); [unfold varint_fuel; lia|].
  destruct (vlq_prefix_facts _ _ Hl) as [Hb Hlen].
  exists (l ++ [n `mod` 128]). split; [done|]. split; [apply bytes_ok_app; split; [done|]; repeat constructor; unfold is_byte; lia|].
  split; [rewrite len_app, len_cons; change (len (@nil Z)) with 0; specialize (Hlen 9); lia|].
  intros rest. rewrite <-app_assoc. cbn [app]. rewrite (vlq_decode (n `div` 128)) by (done || lia). do 2 f_equal. lia.
Qed.

(** Whatever the reader accepts starts with the canonical bytes. *)
Lemma ReadVariableWidthInt_loop_inv r v c n rest l :
  bytes_ok r -> is_byte c -> 0 <= v ->
  vlq_prefix (v `div` 128) l -> v `mod` 128 = Z.land c 127 -> v <= MaxInt64 ->
  ReadVariableWidthInt_loop v c r = Ok (n, rest) ->
  exists l' d, l ++ c :: r = l' ++ d :: rest /\ vlq_prefix (n `div` 128) l'
    /\ d = n `mod` 128 /\ 0 <= n <= MaxInt64.
Proof.
  revert v c l. induction r as [|c' r IH]; intros v c l Hr Hc Hv Hl Hlow Hmax; simpl;
    destruct (byte_groups c Hc) as [Hg1 Hg2]; rewrite Hg2; unfold is_byte in Hc;
    change (Z.shiftr (MaxInt64 - 127) 7) with (2 ^ 56 - 1);
    rewrite Z.geb_leb; destruct (Z.leb_spec 128 c).
  1: by destruct (_ <=? v).
  1,3: intros [= <- <-]; exists l, c; split_and!; try done; lia.
  destruct (Z.leb_spec (2 ^ 56 - 1) v); [done|].
  apply bytes_ok_cons in Hr as [Hc' Hr].
  destruct (byte_groups c' Hc') as [Hg1' _]. rewrite Hg1', Z.shiftl_mul_pow2 by lia.
  intros Hok. change (2 ^ 7) with 128 in Hok.
  unfold MaxInt64 in *. unfold is_byte in Hc'.
  apply IH with (l := l ++ [c]) in Hok; try done; try lia.
  - by rewrite <-app_assoc in Hok.
  - replace (((v + 1) * 128 + c' `mod` 128) `div` 128) with (v + 1) by lia.
    replace c with ((v + 1 - 1) `mod` 128 + 128) by lia.
    apply vlq_snoc; [lia|]. by replace (v + 1 - 1) with v by lia.
Qed.

(** C32: git's offset encoding is a bijection: the reader returns [n] and leaves
    [rest] exactly when the input is the writer's output for [n] followed by
    [rest], and the writer's range is the non-negative [int64].  In particular
    no offset has two encodings, and no accepted input overflows. *)
Theorem offset_encoding_bijective r n rest :
  bytes_ok r ->
  ReadVariableWidthInt r = Ok (n, rest) <->
  0 <= n <= MaxInt64 /\ exists l, WriteVariableWidthInt n = Ok l /\ r = l ++ rest.
Proof.
  intros Hok. unfold WriteVariableWidthInt. rewrite low7, shiftr7.
  assert (forall x, 0 <= x <= MaxInt64 -> exists l, vlq_prefix (x `div` 128) l /\
    WriteVariableWidthInt_loop varint_fuel (x `div` 128) [x `mod` 128] = Ok (l ++ [x `mod` 128]))
    as Hw.
  { intros x Hx. apply WriteVariableWidthInt_loop_enc. unfold varint_fuel, MaxInt64 in *. lia. }
  split.
  - destruct r as [|c r]; [done|]. cbn [ReadVariableWidthInt]. intros Hr.
    apply bytes_ok_cons in Hok as [Hc Hok]. pose proof (byte_groups c Hc) as [Hg _].
    apply ReadVariableWidthInt_loop_inv with (l := []) in Hr as (l & d & Heq & Hl & -> & Hn);
      try done; unfold MaxInt64 in *; try lia.
    + split; [done|]. destruct (Hw n Hn) as (l' & Hl' & ->).
      rewrite (vlq_prefix_inj _ _ _ Hl' Hl). eexists. split; [done|].
      simpl in Heq. by rewrite Heq, <-app_assoc.
    + replace (Z.land c 127 `div` 128) with 0 by lia. constructor.
  - intros (Hn & l & Hl & ->). destruct (Hw n Hn) as (l' & Hl' & Hl'').
    rewrite Hl'' in Hl. injection Hl as <-. rewrite <-app_assoc. simpl.
    rewrite (vlq_decode (n `div` 128)); [do 2 f_equal; lia|done|unfold MaxInt64 in *; lia|lia].
Qed.

Lemma offset_encoding_bijective_witness :
  bytes_ok [0xff; 0x7f; 9] /\
  (ReadVariableWidthInt [0xff; 0x7f; 9] = Ok (16511, [9]) <->
   0 <= 16511 <= MaxInt64 /\ exists l, WriteVariableWidthInt 16511 = Ok l /\ [0xff; 0x7f; 9] = l ++ [9]).
Proof.
  assert (bytes_ok [0xff; 0x7f; 9]) as H by (apply (bool_decide_unpack _); vm_compute; exact I).
  split; [exact H|]. apply (offset_encoding_bijective [0xff; 0x7f; 9] 16511 [9]). exact H.
Defined.
