(* ===== verification/State.v ===== *)
(** * State with errors: the monad of the pack files' components

    A method of a Go object that may fail is a function from the state of the
    object to an outcome and the state after the call, also when it fails. *)
From stdpp Require Import base list.
From Stdlib Require Import ZArith Lia.
From S2P Require Import Prelude.

Open Scope Z_scope.

Definition ST (E S A : Type) : Type := S -> outcome E A * S.

#[export] Instance ST_ret {E S} : MRet (ST E S) := fun A a s => (Ok a, s).
#[export] Instance ST_bind {E S} : MBind (ST E S) := fun A B f m s =>
  match m s with
  | (Ok a, s') => f a s'
  | (Err e, s') => (Err e, s')
  | (Panic, s') => (Panic, s')
  | (NoFuel, s') => (NoFuel, s')
  end.

Definition st_fail {E S A} (e : E) : ST E S A := fun s => (Err e, s).
Definition st_panic {E S A} : ST E S A := fun s => (Panic, s).
Definition st_nofuel {E S A} : ST E S A := fun s => (NoFuel, s).
Definition st_get {E S A} (f : S -> A) : ST E S A := fun s => (Ok (f s), s).
Definition st_set {E S} (f : S -> S) : ST E S unit := fun s => (Ok tt, f s).
Definition st_lift {E S A} (m : outcome E A) : ST E S A := fun s => (m, s).

(** A loop over a list. *)
Fixpoint st_each {E S A} (f : A -> ST E S unit) (l : list A) : ST E S unit :=
  match l with
  | [] => mret tt
  | a :: l => f a ;; st_each f l
  end.

(** [st_ensures m s P]: from [s], [m] returns normally with a result and a state
    satisfying [P]. *)
Definition st_ensures {E S A} (m : ST E S A) (s : S) (P : A -> S -> Prop) : Prop :=
  exists a s', m s = (Ok a, s') /\ P a s'.

Lemma st_bind_Ok {E S A B} (m : ST E S A) (f : A -> ST E S B) s a s' : m s = (Ok a, s') -> (m ≫= f) s = f a s'.
Proof. unfold mbind, ST_bind. by intros ->. Qed.

Lemma st_bind_Ok_inv {E S A B} (m : ST E S A) (f : A -> ST E S B) s b s' :
  (m ≫= f) s = (Ok b, s') -> exists a s1, m s = (Ok a, s1) /\ f a s1 = (Ok b, s').
Proof. unfold mbind, ST_bind. destruct (m s) as [[] ?]; intros; simplify_eq. eauto. Qed.

(** Neither a panic nor out of fuel. *)
Definition st_returns {E S A} (m : ST E S A) (s : S) : Prop := returns (m s).1.

Lemma st_returns_bind {E S A B} (m : ST E S A) (f : A -> ST E S B) s :
  st_returns m s -> (forall a s', m s = (Ok a, s') -> st_returns (f a) s') -> st_returns (m ≫= f) s.
Proof. unfold st_returns, mbind, ST_bind. destruct (m s) as [[] ?]; naive_solver. Qed.

Section rules.
Context {E S : Type}.
Implicit Types s : S.

Lemma st_ensures_ret {A} (a : A) s (P : A -> S -> Prop) : P a s -> st_ensures (E := E) (mret a) s P.
Proof. intros. by exists a, s. Qed.

Lemma st_ensures_bind {A B} (m : ST E S A) (f : A -> ST E S B) s P (Q : A -> S -> Prop) :
  st_ensures m s Q -> (forall a s', Q a s' -> st_ensures (f a) s' P) -> st_ensures (m ≫= f) s P.
Proof.
  intros (a & s' & Hm & HQ) H. destruct (H a s' HQ) as (b & s'' & Hf & HP). exists b, s''.
  unfold mbind, ST_bind. by rewrite Hm.
Qed.

(** A first step whose run is known. *)
Lemma st_ensures_step {A B} (m : ST E S A) (f : A -> ST E S B) s a s' P :
  m s = (Ok a, s') -> st_ensures (f a) s' P -> st_ensures (m ≫= f) s P.
Proof. intros Hm (b & s'' & Hf & HP). exists b, s''. by rewrite (st_bind_Ok _ _ _ _ _ Hm). Qed.

Lemma st_ensures_get {A} (f : S -> A) s (P : A -> S -> Prop) : P (f s) s -> st_ensures (E := E) (st_get f) s P.
Proof. intros. by exists (f s), s. Qed.

Lemma st_ensures_set (f : S -> S) s (P : unit -> S -> Prop) : P tt (f s) -> st_ensures (E := E) (st_set f) s P.
Proof. intros. by exists tt, (f s). Qed.

Lemma st_ensures_lift {A} (m : outcome E A) s (P : A -> S -> Prop) :
  ensures m (fun a => P a s) -> st_ensures (st_lift m) s P.
Proof. intros (a & -> & H)%ensures_inv. by exists a, s. Qed.

Lemma st_ensures_weaken {A} (m : ST E S A) s (P Q : A -> S -> Prop) :
  st_ensures m s P -> (forall a s', P a s' -> Q a s') -> st_ensures m s Q.
Proof. intros (a & s' & Hm & HP) H. exists a, s'. auto. Qed.

(** An invariant of a loop, over the part of the list that was visited. *)
Lemma st_each_inv {A} (f : A -> ST E S unit) (I : list A -> S -> Prop) l s :
  I [] s ->
  (forall done a rest s, l = done ++ a :: rest -> I done s -> st_ensures (f a) s (fun _ s' => I (done ++ [a]) s')) ->
  st_ensures (st_each f l) s (fun _ s' => I l s').
Proof.
  intros H0 Hstep. assert (forall done rest s, l = done ++ rest -> I done s -> st_ensures (st_each f rest) s (fun _ s' => I l s')) as H.
  { intros done rest. revert done. induction rest as [|a rest IH]; intros done s1 Hl HI; cbn [st_each].
    - rewrite app_nil_r in Hl. subst. by apply st_ensures_ret.
    - eapply st_ensures_bind; [by eapply Hstep|]. intros [] s2 Hs2. apply (IH (done ++ [a])); [by rewrite <-app_assoc|done]. }
  by apply (H []).
Qed.
End rules.
