(* ===== verification/PatchDelta.v ===== *)
(** * Applying a delta: [plumbing/format/packfile/patch_delta.go]

    A delta is a header of two LEB128 sizes followed by copy and insert
    operations.  The file models the validation pass [validateDeltaOps] and the
    three appliers of the package (over a byte slice, streaming through a pipe,
    and writing through a [LazyObjectWriter]), an abstract grammar of deltas
    with its meaning, and shows that the slice applier implements exactly that
    grammar and that the two streaming appliers agree with it. *)
From stdpp Require Import base list numbers option.
From Stdlib Require Import ZArith Lia.
From S2P Require Import Prelude Varint.

Open Scope Z_scope.
#[local] Ltac Zify.zify_post_hook ::= Z.to_euclidean_division_equations.

Inductive delta_error :=
  | ErrInvalidDelta
  | ErrDeltaCmd
  | ErrDeltaRead (e : ioerr)
  | ErrWriteHeader.

#[export] Instance delta_error_eq_dec : EqDecision delta_error.
Proof. solve_decision. Defined.

Definition minDeltaSize : Z := 2.
Definition maskContinue : Z := 0x80.
Definition maxCopySize : Z := 64 * 1024.

(** [offsets] and [sizes]: the flag of the command byte and the shift of the
    argument byte it announces. *)
Definition offsets : list (Z * Z) := [(0x01, 0); (0x02, 8); (0x04, 16); (0x08, 24)].
Definition sizes : list (Z * Z) := [(0x10, 0); (0x20, 8); (0x40, 16)].

Definition isCopyFromSrc (cmd : Z) : bool := negb (Z.land cmd maskContinue =? 0).
Definition isCopyFromDelta (cmd : Z) : bool :=
  (Z.land cmd maskContinue =? 0) && negb (cmd =? 0).

Definition invalidSize (sz remaining : Z) : bool := sz >? remaining.
Definition sumOverflows (a b : Z) : bool := u64 (a + b) <? a.
Definition invalidOffsetSize (offset sz srcSz : Z) : bool :=
  sumOverflows offset sz || (u64 (offset + sz) >? srcSz).

(** The loop over [offsets] or [sizes]; [eof] is what an exhausted input gives. *)
Fixpoint decodeFields (eof : delta_error) (os : list (Z * Z)) (cmd acc : Z) (delta : bytes)
    : outcome delta_error (Z * bytes) :=
  match os with
  | [] => Ok (acc, delta)
  | (mask, shift) :: os' =>
      if negb (Z.land cmd mask =? 0) then
        match delta with
        | [] => Err eof
        | b :: delta' => decodeFields eof os' cmd (Z.lor acc (Z.shiftl b shift)) delta'
        end
      else decodeFields eof os' cmd acc delta
  end.

Definition decodeOffset (cmd : Z) (delta : bytes) : outcome delta_error (Z * bytes) :=
  decodeFields ErrInvalidDelta offsets cmd 0 delta.

Definition decodeSize (cmd : Z) (delta : bytes) : outcome delta_error (Z * bytes) :=
  '(sz, delta') ← decodeFields ErrInvalidDelta sizes cmd 0 delta;
  if sz =? 0 then mret (maxCopySize, delta') else mret (sz, delta').

Definition decodeOffsetByteReader (cmd : Z) (delta : bytes) : outcome delta_error (Z * bytes) :=
  decodeFields (ErrDeltaRead EOF) offsets cmd 0 delta.

Definition decodeSizeByteReader (cmd : Z) (delta : bytes) : outcome delta_error (Z * bytes) :=
  '(sz, delta') ← decodeFields (ErrDeltaRead EOF) sizes cmd 0 delta;
  if sz =? 0 then mret (maxCopySize, delta') else mret (sz, delta').

Definition decodeDeltaSize (delta : bytes) : outcome delta_error (Z * bytes) :=
  '(sz, rest) ← map_err (fun _ => ErrInvalidDelta) (DecodeLEB128 delta);
  let consumed := len delta - len rest in
  if consumed <=? 0 then Err ErrInvalidDelta
  else b ← index delta (consumed - 1);
       if negb (Z.land b maskContinue =? 0) then Err ErrInvalidDelta
       else mret (sz, rest).

(** ** Validation *)

(** One iteration per operation; every operation consumes at least its command
    byte, so the length of the delta bounds the iterations. *)
Fixpoint validateDeltaOps_loop (fuel : nat) (delta : bytes) (srcSz remaining : Z)
    : outcome delta_error unit :=
  match fuel with
  | O => NoFuel
  | S f =>
    if remaining >? 0 then
      match delta with
      | [] => Err ErrInvalidDelta
      | cmd :: delta =>
          if isCopyFromSrc cmd then
            '(offset, delta) ← decodeOffset cmd delta;
            '(sz, delta) ← decodeSize cmd delta;
            if invalidSize sz remaining || invalidOffsetSize offset sz srcSz
            then Err ErrInvalidDelta
            else validateDeltaOps_loop f delta srcSz (u64 (remaining - sz))
          else if isCopyFromDelta cmd then
            let sz := cmd in
            if invalidSize sz remaining then Err ErrInvalidDelta
            else if len delta <? sz then Err ErrInvalidDelta
            else delta' ← slice delta sz (len delta);
                 validateDeltaOps_loop f delta' srcSz (u64 (remaining - sz))
          else Err ErrDeltaCmd
      end
    else if negb (len delta =? 0) then Err ErrInvalidDelta else mret tt
  end.

Definition validateDeltaOps (delta : bytes) (srcSz targetSz : Z) : outcome delta_error unit :=
  if targetSz >? MaxInt64 then Err ErrInvalidDelta
  else validateDeltaOps_loop (S (length delta)) delta srcSz targetSz.

(** ** Applying a delta to a slice *)

Fixpoint patchDelta_loop (fuel : nat) (dst src delta : bytes) (srcSz remaining : Z)
    : outcome delta_error bytes :=
  match fuel with
  | O => NoFuel
  | S f =>
    if remaining >? 0 then
      match delta with
      | [] => Err ErrInvalidDelta
      | cmd :: delta =>
          if isCopyFromSrc cmd then
            '(offset, delta) ← decodeOffset cmd delta;
            '(sz, delta) ← decodeSize cmd delta;
            if invalidSize sz remaining || invalidOffsetSize offset sz srcSz
            then Err ErrInvalidDelta
            else chunk ← slice src offset (offset + sz);
                 patchDelta_loop f (dst ++ chunk) src delta srcSz (u64 (remaining - sz))
          else if isCopyFromDelta cmd then
            let sz := cmd in
            if invalidSize sz remaining then Err ErrInvalidDelta
            else if len delta <? sz then Err ErrInvalidDelta
            else chunk ← slice delta 0 sz;
                 delta' ← slice delta sz (len delta);
                 patchDelta_loop f (dst ++ chunk) src delta' srcSz (u64 (remaining - sz))
          else Err ErrDeltaCmd
      end
    else if negb (len delta =? 0) then Err ErrInvalidDelta else mret dst
  end.

(** [patchDelta(dst, src, delta)]: the bytes appended to [dst]. *)
Definition patchDelta (src delta : bytes) : outcome delta_error bytes :=
  '(srcSz, delta) ← decodeDeltaSize delta;
  if negb (srcSz =? len src) then Err ErrInvalidDelta
  else
    '(targetSz, delta) ← decodeDeltaSize delta;
    _ ← validateDeltaOps delta srcSz targetSz;
    patchDelta_loop (S (length delta)) [] src delta srcSz targetSz.

Definition PatchDelta (src delta : bytes) : outcome delta_error bytes :=
  if (len src =? 0) || (len delta <? minDeltaSize) then Err ErrInvalidDelta
  else patchDelta src delta.

(** ** Applying a delta through a pipe *)

(** The base object, outside this package: the size it reports and the content
    each call of [Reader] gives, [None] when [Reader] fails. *)
Record BaseObject := { Base_Size : Z; Base_Reader : option bytes }.

(** What the consumer of the pipe sees: the bytes written, then end of file
    ([None]) or an error.  [CloseWithError] given [io.EOF] is end of file. *)
Definition CloseWithError (written : bytes) (e : delta_error) : bytes * option delta_error :=
  match e with
  | ErrDeltaRead EOF => (written, None)
  | _ => (written, Some e)
  end.

(** [baseBuf.Discard(n)]. *)
Definition Discard (n : Z) (baseBuf : bytes) : outcome delta_error bytes :=
  if len baseBuf <? n then Err (ErrDeltaRead EOF) else Ok (drop (Z.to_nat n) baseBuf).

(** The two loops that skip to the offset, in steps of at most [MaxInt32]. *)
Fixpoint discard_loop (fuel : nat) (discard : Z) (baseBuf : bytes) : outcome delta_error bytes :=
  match fuel with
  | O => NoFuel
  | S f =>
    if discard >? MaxInt32 then
      baseBuf' ← Discard MaxInt32 baseBuf; discard_loop f (discard - MaxInt32) baseBuf'
    else if discard >? 0 then
      baseBuf' ← Discard discard baseBuf; discard_loop f 0 baseBuf'
    else mret baseBuf
  end.

(** Offsets have 32 bits, so four rounds are enough. *)
Definition discard_fuel : nat := 4.

(** Position the base reader at [offset]: reopen it when it is past it. *)
Definition seekBase (base : BaseObject) (baseBuf : bytes) (basePos offset : Z)
    : outcome delta_error bytes :=
  if basePos >? offset then
    match Base_Reader base with
    | None => Err ErrInvalidDelta
    | Some content => discard_loop discard_fuel offset content
    end
  else discard_loop discard_fuel (offset - basePos) baseBuf.

(** The goroutine of [ReaderFromDelta]; [None] stands for exhausted fuel. *)
Fixpoint ReaderFromDelta_loop (fuel : nat) (base : BaseObject) (written deltaBuf baseBuf : bytes)
    (basePos srcSz remaining : Z) : option (bytes * option delta_error) :=
  match fuel with
  | O => None
  | S f =>
    if remaining >? 0 then
      match deltaBuf with
      | [] => Some (CloseWithError written ErrInvalidDelta)
      | cmd :: deltaBuf =>
          if isCopyFromSrc cmd then
            match ('(offset, deltaBuf) ← decodeOffsetByteReader cmd deltaBuf;
                   '(sz, deltaBuf) ← decodeSizeByteReader cmd deltaBuf;
                   if invalidSize sz remaining || invalidOffsetSize offset sz srcSz
                   then Err ErrInvalidDelta
                   else baseBuf ← seekBase base baseBuf basePos offset;
                        mret (offset, sz, deltaBuf, baseBuf)) with
            | Ok (offset, sz, deltaBuf, baseBuf) =>
                let chunk := take (Z.to_nat sz) baseBuf in
                if negb (len chunk =? sz)
                then Some (CloseWithError (written ++ chunk) ErrInvalidDelta)
                else ReaderFromDelta_loop f base (written ++ chunk) deltaBuf
                       (drop (Z.to_nat sz) baseBuf) (offset + sz) srcSz (u64 (remaining - sz))
            | Err e => Some (CloseWithError written e)
            | Panic | NoFuel => None
            end
          else if isCopyFromDelta cmd then
            let sz := cmd in
            if invalidSize sz remaining then Some (CloseWithError written ErrInvalidDelta)
            else
              let chunk := take (Z.to_nat sz) deltaBuf in
              if negb (len chunk =? sz)
              then Some (CloseWithError (written ++ chunk) ErrInvalidDelta)
              else ReaderFromDelta_loop f base (written ++ chunk) (drop (Z.to_nat sz) deltaBuf)
                     baseBuf basePos srcSz (u64 (remaining - sz))
          else Some (CloseWithError written ErrDeltaCmd)
      end
    else match deltaBuf with
         | [] => Some (written, None)
         | _ :: _ => Some (CloseWithError written ErrInvalidDelta)
         end
  end.

(** The outer outcome is what the call returns; the inner one what the pipe
    delivers afterwards. *)
Definition ReaderFromDelta (base : BaseObject) (delta : bytes)
    : outcome delta_error (option (bytes * option delta_error)) :=
  if len delta <? minDeltaSize then Err ErrInvalidDelta
  else
    '(srcSz, delta) ← decodeDeltaSize delta;
    if negb (srcSz =? u64 (Base_Size base)) then Err ErrInvalidDelta
    else
      '(targetSz, delta) ← decodeDeltaSize delta;
      _ ← validateDeltaOps delta srcSz targetSz;
      mret match Base_Reader base with
           | None => Some (CloseWithError [] ErrInvalidDelta)
           | Some content =>
               ReaderFromDelta_loop (S (length delta)) base [] delta content 0 srcSz targetSz
           end.

(** ** Applying a delta through a writer *)

Section patchDeltaWriter.
(** Parameters: the object hasher [plumbing.NewHasher] fed with the object's
    type, size and content (a SHA library underneath), and the caller's
    header callback, [None] for nil, [false] for an error. *)
Context {Hash : Type} (objectHash : Z -> Z -> bytes -> Hash).
Context (writeHeader : option (Z -> Z -> bool)).

(** [io.CopyBuffer] from a limited section reader copies what there is; the
    number of bytes it copied is not looked at. *)
Fixpoint patchDeltaWriter_loop (fuel : nat) (dst base deltaBuf : bytes) (srcSz remaining : Z)
    : outcome delta_error bytes :=
  match fuel with
  | O => NoFuel
  | S f =>
    if remaining >? 0 then
      match deltaBuf with
      | [] => Err ErrInvalidDelta
      | cmd :: deltaBuf =>
          if isCopyFromSrc cmd then
            '(offset, deltaBuf) ← decodeOffsetByteReader cmd deltaBuf;
            '(sz, deltaBuf) ← decodeSizeByteReader cmd deltaBuf;
            if invalidSize sz remaining || invalidOffsetSize offset sz srcSz
            then Err ErrInvalidDelta
            else
              let section := take (Z.to_nat srcSz) base in
              let chunk := take (Z.to_nat sz) (drop (Z.to_nat offset) section) in
              patchDeltaWriter_loop f (dst ++ chunk) base deltaBuf srcSz (u64 (remaining - sz))
          else if isCopyFromDelta cmd then
            let sz := cmd in
            if invalidSize sz remaining then Err ErrInvalidDelta
            else patchDeltaWriter_loop f (dst ++ take (Z.to_nat sz) deltaBuf) base
                   (drop (Z.to_nat sz) deltaBuf) srcSz (u64 (remaining - sz))
          else Err ErrDeltaCmd
      end
    else match deltaBuf with [] => mret dst | _ :: _ => Err ErrInvalidDelta end
  end.

Definition patchDeltaWriter (base : bytes) (baseSz : Z) (delta : bytes) (typ : Z)
    : outcome delta_error (bytes * Z * Hash) :=
  if len delta <? minDeltaSize then Err ErrInvalidDelta
  else
    '(srcSz, delta) ← decodeDeltaSize delta;
    if (baseSz <? 0) || negb (srcSz =? u64 baseSz) then Err ErrInvalidDelta
    else
      '(targetSz, delta) ← decodeDeltaSize delta;
      _ ← validateDeltaOps delta srcSz targetSz;
      _ ← match writeHeader with
          | None => mret tt
          | Some h => if h typ (i64 targetSz) then mret tt else Err ErrWriteHeader
          end;
      dst ← patchDeltaWriter_loop (S (length delta)) [] base delta srcSz targetSz;
      mret (dst, targetSz, objectHash typ (i64 targetSz) dst).
End patchDeltaWriter.

(** ** The delta format

    Little-endian fields whose zero bytes may be left out: a flag per byte says
    whether it is present. *)
Inductive le_fields : list bool -> bytes -> Z -> Prop :=
  | fields_nil : le_fields [] [] 0
  | fields_present b fl l v :
      is_byte b -> le_fields fl l v -> le_fields (true :: fl) (b :: l) (b + 256 * v)
  | fields_absent fl l v :
      le_fields fl l v -> le_fields (false :: fl) l (256 * v).

(** Bits [k], [k + 1], ... of the command, [n] of them. *)
Fixpoint flags (cmd k : Z) (n : nat) : list bool :=
  match n with
  | O => []
  | S n' => Z.testbit cmd k :: flags cmd (k + 1) n'
  end.

(** Base-128 little-endian sizes: the continuation bit marks all bytes but the
    last. *)
Inductive leb_size : bytes -> Z -> Prop :=
  | size_last b : 0 <= b < 128 -> leb_size [b] b
  | size_more b l v : 128 <= b < 256 -> leb_size l v -> leb_size (b :: l) (b - 128 + 128 * v).

Inductive delta_op :=
  | OpCopy (offset sz : Z)
  | OpInsert (data : bytes).

Inductive op_bytes : delta_op -> bytes -> Prop :=
  | copy_bytes cmd ob sb offset s :
      128 <= cmd < 256 ->
      le_fields (flags cmd 0 4) ob offset ->
      le_fields (flags cmd 4 3) sb s ->
      op_bytes (OpCopy offset (if s =? 0 then 0x10000 else s)) (cmd :: ob ++ sb)
  | insert_bytes data :
      0 < len data < 128 -> op_bytes (OpInsert data) (len data :: data).

Inductive delta_body : list delta_op -> bytes -> Prop :=
  | body_nil : delta_body [] []
  | body_cons op ops l rest :
      op_bytes op l -> delta_body ops rest -> delta_body (op :: ops) (l ++ rest).

Definition op_size (op : delta_op) : Z :=
  match op with OpCopy _ sz => sz | OpInsert data => len data end.

Definition ops_size (ops : list delta_op) : Z := foldr Z.add 0 (op_size <$> ops).

Definition op_valid (srcSz : Z) (op : delta_op) : Prop :=
  match op with OpCopy offset sz => offset + sz <= srcSz | OpInsert _ => True end.

Definition op_result (src : bytes) (op : delta_op) : bytes :=
  match op with
  | OpCopy offset sz => take (Z.to_nat sz) (drop (Z.to_nat offset) src)
  | OpInsert data => data
  end.

Definition ops_result (src : bytes) (ops : list delta_op) : bytes :=
  concat (op_result src <$> ops).

(** [delta] is a delta from [src] to [tgt]. *)
Definition delta_denotes (src delta tgt : bytes) : Prop :=
  exists hs ht body ops,
    delta = hs ++ ht ++ body
    /\ leb_size hs (len src) /\ len hs <= 9
    /\ leb_size ht (len tgt) /\ len ht <= 9
    /\ delta_body ops body
    /\ Forall (op_valid (len src)) ops
    /\ tgt = ops_result src ops.

(** ** Fields *)

Fixpoint field_list (k j : Z) (n : nat) : list (Z * Z) :=
  match n with
  | O => []
  | S n' => (2 ^ (k + j), 8 * j) :: field_list k (j + 1) n'
  end.

Lemma offsets_fields : offsets = field_list 0 0 4.
Proof. reflexivity. Qed.
Lemma sizes_fields : sizes = field_list 4 0 3.
Proof. reflexivity. Qed.

Lemma flags_length cmd k n : length (flags cmd k n) = n.
Proof. revert k. induction n; intros; simpl; auto. Qed.

Lemma le_fields_bound fl l v : le_fields fl l v -> 0 <= v < 2 ^ (8 * len fl).
Proof.
  induction 1 as [|b fl l v Hb Hl IH|fl l v Hl IH]; [done|..];
    rewrite len_cons; pose proof (len_nonneg fl);
    replace (8 * (1 + len fl)) with (8 + 8 * len fl) by lia;
    rewrite Z.pow_add_r by lia; unfold is_byte in *; lia.
Qed.

Lemma le_fields_inj fl l l' v w r r' :
  le_fields fl l v -> le_fields fl l' w -> l ++ r = l' ++ r' -> l = l' /\ v = w /\ r = r'.
Proof.
  intros H. revert l' w. induction H as [|b fl l v Hb Hl IH|fl l v Hl IH]; intros l' w H' Heq;
    inversion H'; subst; simpl in Heq; auto.
  - injection Heq as -> Heq. destruct (IH _ _ ltac:(eassumption) Heq) as (-> & -> & ->). auto.
  - destruct (IH _ _ ltac:(eassumption) Heq) as (-> & -> & ->). auto.
Qed.

Section fields.
Context (eof : delta_error) (cmd k : Z) (Hk : 0 <= k).

Lemma decodeFields_app n j args v acc rest :
  le_fields (flags cmd (k + j) n) args v -> 0 <= j -> 0 <= acc < 2 ^ (8 * j) ->
  decodeFields eof (field_list k j n) cmd acc (args ++ rest) = Ok (acc + v * 2 ^ (8 * j), rest).
Proof.
  revert j args v acc. induction n as [|n IH]; intros j args v acc Hf Hj Hacc.
  - inversion Hf; subst. simpl. do 2 f_equal. lia.
  - simpl in Hf. cbn [field_list decodeFields].
    rewrite land_pow2_testbit, negb_involutive by lia.
    rewrite <-Z.add_assoc in Hf. pose proof (Z.pow_add_r 2 (8 * j) 8 ltac:(lia) ltac:(lia)) as Hp.
    change (2 ^ 8) with 256 in Hp.
    inversion Hf as [|b fl l w Hb Hl|fl l w Hl]; subst; simpl; unfold is_byte in *.
    + rewrite lor_disjoint_add by lia.
      rewrite (IH (j + 1) _ w); [..|done|lia|].
      * replace (8 * (j + 1)) with (8 * j + 8) by lia. rewrite Hp. do 2 f_equal. lia.
      * replace (8 * (j + 1)) with (8 * j + 8) by lia. rewrite Hp. nia.
    + rewrite (IH (j + 1) _ w); [..|done|lia|].
      * replace (8 * (j + 1)) with (8 * j + 8) by lia. rewrite Hp. do 2 f_equal. lia.
      * replace (8 * (j + 1)) with (8 * j + 8) by lia. rewrite Hp. lia.
Qed.

Lemma decodeFields_cases n j acc delta :
  bytes_ok delta -> 0 <= j -> 0 <= acc < 2 ^ (8 * j) ->
  decodeFields eof (field_list k j n) cmd acc delta = Err eof \/
  exists args v rest, delta = args ++ rest /\ le_fields (flags cmd (k + j) n) args v.
Proof.
  revert j acc delta. induction n as [|n IH]; intros j acc delta Hok Hj Hacc.
  - right. exists [], 0, delta. split; [done|constructor].
  - cbn [field_list decodeFields flags].
    rewrite land_pow2_testbit, negb_involutive by lia. rewrite <-Z.add_assoc.
    pose proof (Z.pow_add_r 2 (8 * j) 8 ltac:(lia) ltac:(lia)) as Hp.
    replace (8 * j + 8) with (8 * (j + 1)) in Hp by lia.
    destruct (Z.testbit cmd (k + j)).
    + destruct delta as [|b delta]; [by left|]. apply bytes_ok_cons in Hok as [Hb Hok].
      unfold is_byte in Hb. rewrite lor_disjoint_add by lia.
      destruct (IH (j + 1) (acc + b * 2 ^ (8 * j)) delta) as [|(args & v & rest & -> & Hf)];
        [done|lia|nia|by left|].
      right. exists (b :: args), (b + 256 * v), rest. split; [done|]. by constructor.
    + destruct (IH (j + 1) acc delta) as [|(args & v & rest & -> & Hf)];
        [done|lia|nia|by left|].
      right. exists args, (256 * v), rest. split; [done|]. by constructor.
Qed.
End fields.

(** What the two decoders compute, whatever they report at the end of input. *)
Definition copy_args (eof : delta_error) (cmd : Z) (delta : bytes)
    : outcome delta_error (Z * Z * bytes) :=
  '(offset, delta) ← decodeFields eof offsets cmd 0 delta;
  '(sz, delta) ← decodeFields eof sizes cmd 0 delta;
  mret (offset, if sz =? 0 then maxCopySize else sz, delta).

Lemma copy_args_app eof cmd ob sb offset s rest :
  le_fields (flags cmd 0 4) ob offset -> le_fields (flags cmd 4 3) sb s ->
  copy_args eof cmd ((ob ++ sb) ++ rest) = Ok (offset, if s =? 0 then maxCopySize else s, rest).
Proof.
  intros Ho Hs. unfold copy_args. rewrite <-app_assoc, offsets_fields, sizes_fields.
  rewrite (decodeFields_app eof cmd 0 ltac:(lia) 4 0 ob offset) by (done || lia).
  cbn [mbind outcome_bind].
  rewrite (decodeFields_app eof cmd 4 ltac:(lia) 3 0 sb s) by (done || lia).
  cbn [mbind outcome_bind]. unfold mret, outcome_ret.
  rewrite !Z.add_0_l, !Z.mul_1_r. done.
Qed.

Lemma copy_args_cases eof cmd delta :
  bytes_ok delta ->
  copy_args eof cmd delta = Err eof \/
  exists ob sb offset s rest, delta = (ob ++ sb) ++ rest
    /\ le_fields (flags cmd 0 4) ob offset /\ le_fields (flags cmd 4 3) sb s.
Proof.
  intros Hok. unfold copy_args. rewrite offsets_fields, sizes_fields.
  destruct (decodeFields_cases eof cmd 0 ltac:(lia) 4 0 0 delta) as [->|(ob & o & r & -> & Ho)];
    [done|lia..|by left|].
  apply bytes_ok_app in Hok as [_ Hok]. rewrite Z.add_0_r in Ho.
  rewrite (decodeFields_app eof cmd 0 ltac:(lia) 4 0 ob o) by (done || lia).
  cbn [mbind outcome_bind].
  destruct (decodeFields_cases eof cmd 4 ltac:(lia) 3 0 0 r) as [->|(sb & s & r' & -> & Hs)];
    [done|lia..|by left|].
  right. exists ob, sb, o, s, r'. by rewrite <-app_assoc.
Qed.

Lemma copy_offset_bound cmd ob offset :
  le_fields (flags cmd 0 4) ob offset -> 0 <= offset < 2 ^ 32.
Proof. intros H. apply le_fields_bound in H. done. Qed.

Lemma copy_size_bound cmd sb s :
  le_fields (flags cmd 4 3) sb s -> 0 < (if s =? 0 then maxCopySize else s) < 2 ^ 24.
Proof.
  intros H. apply le_fields_bound in H. change (8 * len (flags cmd 4 3)) with 24 in H.
  destruct (Z.eqb_spec s 0); unfold maxCopySize; lia.
Qed.

Lemma op_bytes_size op l : op_bytes op l -> 0 < op_size op < 2 ^ 24.
Proof.
  destruct 1 as [cmd ob sb offset s Hcmd Ho Hs|data Hd]; simpl; [|lia].
  by apply copy_size_bound in Hs.
Qed.

(** ** One operation

    [parse_op] is the part of an iteration that the four loops share: the next
    operation and its checks. *)
Definition parse_op (eof : delta_error) (srcSz remaining : Z) (delta : bytes)
    : outcome delta_error (delta_op * bytes) :=
  match delta with
  | [] => Err ErrInvalidDelta
  | cmd :: delta =>
      if isCopyFromSrc cmd then
        '(offset, sz, delta) ← copy_args eof cmd delta;
        if invalidSize sz remaining || invalidOffsetSize offset sz srcSz
        then Err ErrInvalidDelta
        else mret (OpCopy offset sz, delta)
      else if isCopyFromDelta cmd then
        if invalidSize cmd remaining then Err ErrInvalidDelta
        else if len delta <? cmd then Err ErrInvalidDelta
        else mret (OpInsert (take (Z.to_nat cmd) delta), drop (Z.to_nat cmd) delta)
      else Err ErrDeltaCmd
  end.

Lemma isCopyFromSrc_spec cmd : is_byte cmd -> isCopyFromSrc cmd = (128 <=? cmd).
Proof.
  intros Hc. unfold isCopyFromSrc, maskContinue. rewrite continue_bit by done.
  destruct (Z.ltb_spec cmd 128), (Z.leb_spec 128 cmd); simpl; lia.
Qed.

Lemma isCopyFromDelta_spec cmd :
  is_byte cmd -> isCopyFromDelta cmd = (0 <? cmd) && (cmd <? 128).
Proof.
  intros Hc. unfold isCopyFromDelta, maskContinue. rewrite continue_bit by done.
  unfold is_byte in Hc.
  destruct (Z.ltb_spec cmd 128), (Z.ltb_spec 0 cmd), (Z.eqb_spec cmd 0); simpl; lia.
Qed.

Lemma invalidOffsetSize_spec offset sz srcSz :
  0 <= offset < 2 ^ 32 -> 0 < sz < 2 ^ 24 ->
  invalidOffsetSize offset sz srcSz = (srcSz <? offset + sz).
Proof.
  intros Ho Hs. unfold invalidOffsetSize, sumOverflows.
  rewrite wrap_small by lia. rewrite Z.gtb_ltb. by ztest (offset + sz <? offset) false.
Qed.

Definition parse_op_ok (srcSz remaining : Z) (delta : bytes) (op : delta_op) (rest : bytes) : Prop :=
  exists l, delta = l ++ rest /\ op_bytes op l /\ op_valid srcSz op /\ op_size op <= remaining.

Lemma parse_op_complete eof srcSz remaining delta op rest :
  parse_op_ok srcSz remaining delta op rest ->
  parse_op eof srcSz remaining delta = Ok (op, rest).
Proof.
  intros (l & -> & Hop & Hv & Hsz). unfold parse_op.
  destruct Hop as [cmd ob sb offset s Hcmd Ho Hs|data Hd]; simpl in Hv, Hsz; simpl.
  - rewrite isCopyFromSrc_spec by (unfold is_byte; lia). ztest (128 <=? cmd) true.
    rewrite (copy_args_app eof cmd ob sb offset s) by done. simpl.
    pose proof (copy_offset_bound _ _ _ Ho). pose proof (copy_size_bound _ _ _ Hs) as Hb.
    rewrite invalidOffsetSize_spec by done.
    change maxCopySize with 0x10000 in *. unfold invalidSize. rewrite Z.gtb_ltb.
    by rewrite (proj2 (Z.ltb_ge remaining _) Hsz), (proj2 (Z.ltb_ge srcSz _) Hv).
  - rewrite isCopyFromSrc_spec, isCopyFromDelta_spec by (unfold is_byte; lia).
    ztest (128 <=? len data) false; ztest (0 <? len data) true; ztest (len data <? 128) true.
    simpl. unfold invalidSize. rewrite Z.gtb_ltb.
    ztest (remaining <? len data) false. ztest (len (data ++ rest) <? len data) false.
    unfold len. rewrite Nat2Z.id. by rewrite take_app_length, drop_app_length.
Qed.

Lemma parse_op_sound eof srcSz remaining delta :
  bytes_ok delta ->
  (exists e, parse_op eof srcSz remaining delta = Err e) \/
  exists op rest, parse_op eof srcSz remaining delta = Ok (op, rest) /\
    parse_op_ok srcSz remaining delta op rest.
Proof.
  intros Hok. destruct delta as [|cmd delta]; [left; eauto|].
  apply bytes_ok_cons in Hok as [Hc Hok]. simpl.
  rewrite isCopyFromSrc_spec, isCopyFromDelta_spec by done. unfold is_byte in Hc.
  destruct (Z.leb_spec 128 cmd) as [Hcmd|Hcmd].
  - destruct (copy_args_cases eof cmd delta Hok)
      as [->|(ob & sb & offset & s & rest & -> & Ho & Hs)]; [left; eauto|].
    pose proof (copy_offset_bound _ _ _ Ho). pose proof (copy_size_bound _ _ _ Hs) as Hb.
    rewrite (copy_args_app eof cmd ob sb offset s) by done.
    change maxCopySize with 0x10000 in *. set (sz := if s =? 0 then 0x10000 else s) in *.
    simpl. rewrite invalidOffsetSize_spec by done. unfold invalidSize. rewrite Z.gtb_ltb.
    destruct (Z.ltb_spec remaining sz); [left; eauto|].
    destruct (Z.ltb_spec srcSz (offset + sz)); [left; eauto|].
    right. exists (OpCopy offset sz), rest. split; [done|]. exists (cmd :: ob ++ sb).
    split; [done|]. split; [|by split]. apply copy_bytes; [lia|done|done].
  - destruct (Z.ltb_spec 0 cmd); simpl; [|left; eauto].
    ztest (cmd <? 128) true. unfold invalidSize. rewrite Z.gtb_ltb.
    destruct (Z.ltb_spec remaining cmd); [left; eauto|].
    destruct (Z.ltb_spec (len delta) cmd); [left; eauto|].
    right. eexists _, _. split; [done|]. exists (cmd :: take (Z.to_nat cmd) delta).
    assert (len (take (Z.to_nat cmd) delta) = cmd) as Hl by len_lia.
    split; [simpl; by rewrite take_drop|]. split; [|split; [done|simpl; lia]].
    replace (cmd :: take (Z.to_nat cmd) delta)
      with (len (take (Z.to_nat cmd) delta) :: take (Z.to_nat cmd) delta) by (by rewrite Hl).
    constructor. lia.
Qed.

(** ** The loops in terms of [parse_op] *)

#[local] Arguments decodeFields : simpl never.
#[local] Arguments copy_args : simpl never.

Lemma copy_decoders eof cmd delta {A} (k : Z -> Z -> bytes -> outcome delta_error A) :
  ('(offset, d) ← decodeFields eof offsets cmd 0 delta;
   '(sz, d) ← ('(sz, d) ← decodeFields eof sizes cmd 0 d;
               if sz =? 0 then mret (maxCopySize, d) else mret (sz, d));
   k offset sz d)
  = ('(offset, sz, d) ← copy_args eof cmd delta; k offset sz d).
Proof.
  unfold copy_args. destruct (decodeFields eof offsets cmd 0 delta) as [[o d]| | |]; try done.
  simpl. destruct (decodeFields eof sizes cmd 0 d) as [[s d']| | |]; try done.
  simpl. by destruct (s =? 0).
Qed.

Lemma drop_slice {E} (l : bytes) n :
  0 <= n <= len l -> slice (E := E) l n (len l) = Ok (drop (Z.to_nat n) l).
Proof.
  intros Hn. rewrite slice_Ok by lia. rewrite take_ge; [done|].
  rewrite length_drop. unfold len in *. lia.
Qed.

Lemma validate_step f delta srcSz remaining :
  bytes_ok delta -> 0 < remaining ->
  validateDeltaOps_loop (S f) delta srcSz remaining =
  ('(op, rest) ← parse_op ErrInvalidDelta srcSz remaining delta;
   validateDeltaOps_loop f rest srcSz (u64 (remaining - op_size op))).
Proof.
  intros Hok Hr. cbn [validateDeltaOps_loop]. rewrite Z.gtb_ltb. ztest (0 <? remaining) true.
  destruct delta as [|cmd delta]; [done|]. apply bytes_ok_cons in Hok as [Hc _].
  unfold parse_op, decodeOffset, decodeSize. rewrite isCopyFromDelta_spec by done.
  unfold is_byte in Hc. destruct (isCopyFromSrc cmd).
  - rewrite copy_decoders. destruct (copy_args _ _ _) as [[[o sz] d]| | |]; try done.
    simpl. by destruct (_ || _).
  - destruct (Z.ltb_spec 0 cmd); [|done]. destruct (Z.ltb_spec cmd 128); [|done]. simpl.
    destruct (invalidSize cmd remaining); [done|].
    destruct (Z.ltb_spec (len delta) cmd); [done|]. rewrite drop_slice by lia. simpl.
    by replace (len (take (Z.to_nat cmd) delta)) with cmd by len_lia.
Qed.

Lemma parse_op_rest_ok srcSz remaining delta op rest :
  bytes_ok delta -> parse_op_ok srcSz remaining delta op rest ->
  bytes_ok rest /\ (length rest < length delta)%nat /\ 0 < op_size op <= remaining.
Proof.
  intros Hok (l & -> & Hop & _ & Hsz). apply bytes_ok_app in Hok as [_ Hok].
  split; [done|]. split; [|apply op_bytes_size in Hop; lia].
  rewrite length_app. destruct Hop; simpl; lia.
Qed.

Lemma ops_size_cons op ops : ops_size (op :: ops) = op_size op + ops_size ops.
Proof. done. Qed.

(** The validation pass accepts exactly the operation streams that build a
    target of the advertised size out of the source. *)
Lemma validate_loop_spec fuel delta srcSz remaining :
  bytes_ok delta -> (length delta < fuel)%nat -> 0 <= remaining < 2 ^ 64 ->
  (exists e, validateDeltaOps_loop fuel delta srcSz remaining = Err e) \/
  (validateDeltaOps_loop fuel delta srcSz remaining = Ok tt /\
   exists ops, delta_body ops delta /\ Forall (op_valid srcSz) ops /\ ops_size ops = remaining).
Proof.
  revert delta remaining. induction fuel as [|f IH]; intros delta remaining Hok Hf Hr; [lia|].
  destruct (decide (0 < remaining)) as [Hpos|Hz].
  - rewrite validate_step by done.
    destruct (parse_op_sound ErrInvalidDelta srcSz remaining delta Hok)
      as [[e ->]|(op & rest & -> & Hop)]; [left; eauto|]. simpl.
    destruct (parse_op_rest_ok _ _ _ _ _ Hok Hop) as (Hok' & Hlen & Hsz).
    rewrite wrap_small by lia.
    destruct (IH rest (remaining - op_size op)) as [[e ->]|[-> (ops & Hb & Hv & Hs)]];
      [done|lia|lia|left; eauto|].
    right. split; [done|]. destruct Hop as (l & -> & Hl & Hvalid & _).
    exists (op :: ops). split; [by constructor|]. split; [by constructor|].
    rewrite ops_size_cons. lia.
  - cbn [validateDeltaOps_loop]. rewrite Z.gtb_ltb. ztest (0 <? remaining) false.
    destruct (Z.eqb_spec (len delta) 0) as [Hnil|]; simpl; [|left; eauto].
    apply len_zero_nil in Hnil as ->. right. split; [done|]. exists [].
    split; [constructor|]. split; [constructor|]. unfold ops_size. simpl. lia.
Qed.

Lemma ops_size_nonneg ops delta : delta_body ops delta -> 0 <= ops_size ops.
Proof.
  induction 1 as [|op ops l rest Hop _ IH]; [done|].
  apply op_bytes_size in Hop. rewrite ops_size_cons. lia.
Qed.

Lemma validate_loop_complete fuel ops delta srcSz :
  bytes_ok delta -> (length delta < fuel)%nat -> ops_size ops < 2 ^ 64 ->
  delta_body ops delta -> Forall (op_valid srcSz) ops ->
  validateDeltaOps_loop fuel delta srcSz (ops_size ops) = Ok tt.
Proof.
  revert ops delta. induction fuel as [|f IH]; intros ops delta Hok Hf Hs Hb Hv; [lia|].
  destruct ops as [|op ops]; [by inversion Hb; subst|].
  inversion Hb as [|? ? l rest Hop Hrest]; subst.
  pose proof (ops_size_nonneg _ _ Hrest) as Hn. pose proof (op_bytes_size _ _ Hop) as Hsz.
  rewrite ops_size_cons in *. rewrite validate_step by (done || lia).
  apply Forall_cons_iff in Hv as [Hv1 Hv2].
  rewrite (parse_op_complete _ _ _ _ op rest)
    by (exists l; split; [done|]; split; [done|]; split; [done|]; lia).
  apply bytes_ok_app in Hok as [_ Hok]. simpl.
  replace (op_size op + ops_size ops - op_size op) with (ops_size ops) by lia.
  rewrite wrap_small by lia. apply IH; [done| |lia|done|done].
  rewrite length_app in Hf. destruct Hop; simpl in Hf; lia.
Qed.

(** ** The header *)

Lemma leb_size_bytes_ok h v : leb_size h v -> bytes_ok h.
Proof.
  induction 1; apply bytes_ok_cons; unfold is_byte; split; try lia; auto with gobytes.
Qed.

Lemma leb_size_bound h v : leb_size h v -> 0 <= v < 2 ^ (7 * len h) /\ 1 <= len h.
Proof.
  induction 1 as [b Hb|b l v Hb Hl [IH1 IH2]]; rewrite len_cons.
  - change (2 ^ (7 * (1 + len (@nil Z)))) with 128. change (len (@nil Z)) with 0. lia.
  - replace (7 * (1 + len l)) with (7 * len l + 7) by lia.
    rewrite pow_next_group by lia. lia.
Qed.

Lemma leb_size_inj h h' v w r r' :
  leb_size h v -> leb_size h' w -> h ++ r = h' ++ r' -> h = h' /\ v = w /\ r = r'.
Proof.
  intros H. revert h' w. induction H as [b Hb|b l v Hb Hl IH]; intros h' w H' Heq;
    inversion H'; subst; simpl in Heq; injection Heq as -> Heq; try lia; auto.
  destruct (IH _ _ ltac:(eassumption) Heq) as (-> & -> & ->). auto.
Qed.

Lemma leb_size_last h v : leb_size h v -> exists p b, h = p ++ [b] /\ 0 <= b < 128.
Proof.
  induction 1 as [b Hb|b l v Hb Hl (p & b' & -> & Hb')]; [by exists [], b|].
  by exists (b :: p), b'.
Qed.

Lemma DecodeLEB128_loop_size h v rest num sz :
  leb_size h v -> 0 <= sz -> len h + sz <= 9 -> 0 <= num < 2 ^ (sz * 7) ->
  DecodeLEB128_loop (h ++ rest) num sz = Ok (num + v * 2 ^ (sz * 7), rest).
Proof.
  intros Hh. revert num sz.
  induction Hh as [b Hb|b l v Hb Hl IH]; intros num sz Hsz Hlen Hnum.
  - simpl. unfold uintBits. rewrite Z.gtb_ltb. rewrite len_cons, len_nil in Hlen.
    ztest (64 - 7 <? sz * 7) false. rewrite continue_bit by (unfold is_byte; lia).
    ztest (b <? 128) true. rewrite low7, Z.mod_small by lia. simpl.
    by destruct (group_or num b (sz * 7)) as [-> _]; [lia..|].
  - pose proof (leb_size_bound _ _ Hl) as [_ Hl1]. rewrite len_cons in Hlen.
    simpl. unfold uintBits. rewrite Z.gtb_ltb.
    ztest (64 - 7 <? sz * 7) false. rewrite continue_bit by (unfold is_byte; lia).
    ztest (b <? 128) false. ztest (len (l ++ rest) =? 0) false. simpl. rewrite low7.
    destruct (group_or num (b `mod` 128) (sz * 7)) as [-> Hb']; [lia..|].
    rewrite IH by (try lia; by replace ((sz + 1) * 7) with (sz * 7 + 7) by lia).
    replace ((sz + 1) * 7) with (sz * 7 + 7) by lia. rewrite pow_next_group by lia.
    do 2 f_equal. replace (b `mod` 128) with (b - 128) by lia. lia.
Qed.

Lemma DecodeLEB128_loop_inv input num sz :
  bytes_ok input -> input <> [] -> 0 <= sz ->
  (exists e, DecodeLEB128_loop input num sz = Err e) \/
  exists h w r, DecodeLEB128_loop input num sz = Ok (w, r) /\ input = h ++ r /\
    ((exists v, leb_size h v /\ len h + sz <= 9) \/ (exists p b, h = p ++ [b] /\ 128 <= b < 256)).
Proof.
  intros Hok. revert num sz. induction Hok as [|b rest Hb Hok IH]; intros num sz Hne Hsz; [done|].
  cbn [DecodeLEB128_loop]. unfold uintBits. rewrite Z.gtb_ltb.
  destruct (Z.ltb_spec (64 - 7) (sz * 7)); [left; eauto|].
  rewrite continue_bit by done. unfold is_byte in Hb.
  destruct (Z.ltb_spec b 128); cbn [orb].
  - right. eexists [b], _, _. split; [done|]. split; [done|]. left. exists b.
    split; [constructor; lia|]. rewrite len_cons, len_nil. lia.
  - destruct (Z.eqb_spec (len rest) 0) as [Hnil|Hnn].
    + right. apply len_zero_nil in Hnil as ->. eexists [b], _, _. split; [done|].
      split; [done|]. right. exists [], b. split; [done|lia].
    + destruct (IH (Z.lor num (u64 (Z.shiftl (Z.land b 0x7f) (sz * 7)))) (sz + 1))
        as [[e ->]|(h & w & r & -> & -> & Hh)]; [by intros ->|lia|left; eauto|].
      right. exists (b :: h), w, r. split; [done|]. split; [done|].
      destruct Hh as [(v & Hv & Hl)|(p & b' & -> & Hb')].
      * left. exists (b - 128 + 128 * v). split; [constructor; [lia|done]|].
        rewrite len_cons. lia.
      * right. by exists (b :: p), b'.
Qed.

(** [decodeDeltaSize] reads exactly one well-formed size of at most nine bytes. *)
Lemma decodeDeltaSize_app h v rest :
  leb_size h v -> len h <= 9 -> decodeDeltaSize (h ++ rest) = Ok (v, rest).
Proof.
  intros Hh Hl. pose proof (leb_size_bound _ _ Hh) as [_ Hl1].
  unfold decodeDeltaSize, DecodeLEB128. ztest (len (h ++ rest) =? 0) false.
  rewrite (DecodeLEB128_loop_size h v) by (done || lia). simpl.
  rewrite Z.mul_1_r, len_app. ztest (len h + len rest - len rest <=? 0) false.
  replace (len h + len rest - len rest - 1) with (len h - 1) by lia.
  destruct (leb_size_last h v Hh) as (p & b & -> & Hb).
  rewrite (index_Ok _ _ b).
  - simpl. unfold maskContinue. rewrite continue_bit by (unfold is_byte; lia).
    by ztest (b <? 128) true.
  - len_lia.
  - rewrite len_app, len_cons, len_nil. rewrite <-app_assoc.
    replace (Z.to_nat (len p + (1 + 0) - 1)) with (length p + 0)%nat by (unfold len; lia).
    by rewrite lookup_app_r, Nat.add_comm, Nat.add_sub by lia.
Qed.

Lemma decodeDeltaSize_cases delta :
  bytes_ok delta ->
  (exists e, decodeDeltaSize delta = Err e) \/
  exists h v rest, delta = h ++ rest /\ leb_size h v /\ len h <= 9.
Proof.
  intros Hok. destruct (decide (delta = [])) as [->|Hne]; [left; by eexists|].
  destruct (DecodeLEB128_loop_inv delta 0 0 Hok Hne)
    as [[e He]|(h & w & r & He & -> & [(v & Hv & Hl)|(p & b & -> & Hb)])]; [lia|..].
  - left. unfold decodeDeltaSize, DecodeLEB128.
    destruct (Z.eqb_spec (len delta) 0) as [Hz|]; [by apply len_zero_nil in Hz|].
    rewrite He. simpl. eauto.
  - right. exists h, v, r. split; [done|]. split; [done|lia].
  - left. unfold decodeDeltaSize, DecodeLEB128.
    ztest (len ((p ++ [b]) ++ r) =? 0) false. rewrite He. simpl. rewrite len_app.
    ztest (len (p ++ [b]) + len r - len r <=? 0) false.
    rewrite (index_Ok _ _ b).
    + simpl. unfold maskContinue. rewrite continue_bit by (unfold is_byte; lia).
      ztest (b <? 128) false. simpl. eauto.
    + len_lia.
    + rewrite len_app, len_cons, len_nil, <-app_assoc.
      replace (Z.to_nat (len p + (1 + 0) + len r - len r - 1)) with (length p + 0)%nat
        by (unfold len; lia).
      by rewrite lookup_app_r, Nat.add_comm, Nat.add_sub by lia.
Qed.

(** ** Running valid operations *)

#[local] Arguments slice : simpl never.

(** The checks of a copy pass. *)
Lemma copy_checks_pass srcSz offset sz remaining :
  0 <= offset < 2 ^ 32 -> 0 < sz < 2 ^ 24 -> sz <= remaining -> offset + sz <= srcSz ->
  invalidSize sz remaining || invalidOffsetSize offset sz srcSz = false.
Proof.
  intros. rewrite invalidOffsetSize_spec by done. unfold invalidSize. rewrite Z.gtb_ltb.
  by ztest (remaining <? sz) false; ztest (srcSz <? offset + sz) false.
Qed.

(** Open the head of a loop on a valid copy or insert operation. *)
Ltac open_copy cmd ob sb offset s Ho Hs :=
  rewrite Z.gtb_ltb, (proj2 (Z.ltb_lt 0 _)) by lia;
  rewrite isCopyFromSrc_spec, (proj2 (Z.leb_le 128 cmd)) by (unfold is_byte; lia);
  unfold decodeOffset, decodeSize, decodeOffsetByteReader, decodeSizeByteReader;
  rewrite copy_decoders, (copy_args_app _ cmd ob sb offset s) by done;
  change maxCopySize with 0x10000;
  pose proof (copy_offset_bound _ _ _ Ho); pose proof (copy_size_bound _ _ _ Hs);
  cbn [mbind outcome_bind]; change maxCopySize with 0x10000 in *;
  rewrite copy_checks_pass by (done || lia).

Ltac open_insert data :=
  rewrite Z.gtb_ltb, (proj2 (Z.ltb_lt 0 _)) by lia;
  rewrite isCopyFromSrc_spec, isCopyFromDelta_spec by (unfold is_byte; lia);
  rewrite (proj2 (Z.leb_gt 128 (len data))), (proj2 (Z.ltb_lt 0 (len data))),
    (proj2 (Z.ltb_lt (len data) 128)) by lia;
  unfold invalidSize; cbn [andb]; rewrite Z.gtb_ltb, (proj2 (Z.ltb_ge _ (len data))) by lia.

Lemma take_len_app (p q : bytes) : take (Z.to_nat (len p)) (p ++ q) = p.
Proof. unfold len. by rewrite Nat2Z.id, take_app_length. Qed.
Lemma drop_len_app (p q : bytes) : drop (Z.to_nat (len p)) (p ++ q) = q.
Proof. unfold len. by rewrite Nat2Z.id, drop_app_length. Qed.

Lemma patch_step f dst src op l rest remaining :
  op_bytes op l -> op_valid (len src) op -> op_size op <= remaining ->
  patchDelta_loop (S f) dst src (l ++ rest) (len src) remaining =
  patchDelta_loop f (dst ++ op_result src op) src rest (len src) (u64 (remaining - op_size op)).
Proof.
  intros Hop Hv Hsz. pose proof (op_bytes_size _ _ Hop) as Hpos.
  destruct Hop as [cmd ob sb offset s Hcmd Ho Hs|data Hd]; cbn [patchDelta_loop app];
    simpl in Hv, Hsz, Hpos; simpl op_size; simpl op_result.
  - open_copy cmd ob sb offset s Ho Hs. rewrite slice_Ok by lia. cbn [mbind outcome_bind].
    by replace (offset + (if s =? 0 then 65536 else s) - offset)
      with (if s =? 0 then 65536 else s) by lia.
  - open_insert data. ztest (len (data ++ rest) <? len data) false.
    rewrite drop_slice by len_lia. rewrite slice_Ok by len_lia. cbn [mbind outcome_bind].
    by rewrite Z.sub_0_r, drop_0, take_len_app, drop_len_app.
Qed.

Lemma Discard_Ok n buf : 0 <= n <= len buf -> Discard n buf = Ok (drop (Z.to_nat n) buf).
Proof. intros. unfold Discard. by ztest (len buf <? n) false. Qed.

Lemma drop_drop_Z (l : bytes) a b :
  0 <= a -> 0 <= b -> drop (Z.to_nat a) (drop (Z.to_nat b) l) = drop (Z.to_nat (a + b)) l.
Proof. intros. rewrite drop_drop. f_equal. lia. Qed.

(** Four rounds skip any 32-bit distance. *)
Lemma discard_loop_Ok d buf :
  0 <= d < 2 ^ 32 -> d <= len buf -> discard_loop discard_fuel d buf = Ok (drop (Z.to_nat d) buf).
Proof.
  assert (forall k d buf, (d = 0 -> discard_loop (S k) d buf = Ok buf) /\
            (0 < d <= MaxInt32 -> d <= len buf ->
             discard_loop (S (S k)) d buf = Ok (drop (Z.to_nat d) buf))) as Hlast.
  { unfold MaxInt32. intros k d' buf'. split; intros H; [by subst|]. intros Hl. simpl.
    unfold MaxInt32. rewrite !Z.gtb_ltb. ztest (2 ^ 31 - 1 <? d') false; ztest (0 <? d') true.
    by rewrite Discard_Ok by lia. }
  assert (forall k d buf, MaxInt32 < d -> d <= len buf ->
            discard_loop (S k) d buf = discard_loop k (d - MaxInt32) (drop (Z.to_nat MaxInt32) buf))
    as Hfirst.
  { unfold MaxInt32. intros k d' buf' H Hl. simpl. unfold MaxInt32. rewrite !Z.gtb_ltb.
    ztest (2 ^ 31 - 1 <? d') true. by rewrite Discard_Ok by lia. }
  unfold discard_fuel. intros Hd Hl.
  assert (forall x, x < MaxInt32 \/ x = MaxInt32 \/ MaxInt32 < x) as Hc by (intros; lia).
  unfold MaxInt32 in Hc.
  destruct (decide (d = 0)) as [->|]; [by rewrite (proj1 (Hlast _ _ _))|].
  destruct (decide (d <= MaxInt32)) as [Hle|Hgt]; [by rewrite (proj2 (Hlast _ _ _)) by lia|].
  unfold MaxInt32 in Hgt. rewrite Hfirst by (unfold MaxInt32; lia).
  set (d1 := d - MaxInt32). unfold MaxInt32 in *.
  assert (len (drop (Z.to_nat (2 ^ 31 - 1)) buf) = len buf - (2 ^ 31 - 1)) as Hl1 by len_lia.
  destruct (decide (d1 <= 2 ^ 31 - 1)) as [Hle|Hgt1].
  - rewrite (proj2 (Hlast _ _ _)) by (unfold d1, MaxInt32 in *; lia).
    rewrite drop_drop_Z by (unfold d1, MaxInt32 in *; lia). do 3 f_equal. unfold d1, MaxInt32. lia.
  - rewrite Hfirst by (unfold d1, MaxInt32 in *; lia).
    rewrite (proj2 (Hlast _ _ _)).
    + rewrite !drop_drop_Z by (unfold d1, MaxInt32 in *; lia).
      do 3 f_equal. unfold d1, MaxInt32. lia.
    + unfold d1, MaxInt32 in *. lia.
    + rewrite len_drop. unfold d1, MaxInt32 in *. lia.
Qed.

Lemma seekBase_Ok base content basePos offset :
  Base_Reader base = Some content -> 0 <= basePos <= len content ->
  0 <= offset < 2 ^ 32 -> offset <= len content ->
  seekBase base (drop (Z.to_nat basePos) content) basePos offset
  = Ok (drop (Z.to_nat offset) content).
Proof.
  intros Hb Hp Ho Hl. unfold seekBase. rewrite Z.gtb_ltb.
  destruct (Z.ltb_spec offset basePos).
  - rewrite Hb. by rewrite discard_loop_Ok.
  - rewrite discard_loop_Ok by len_lia. rewrite drop_drop_Z by lia. do 3 f_equal. lia.
Qed.

(** Where the base reader stands after an operation. *)
Definition op_pos (basePos : Z) (op : delta_op) : Z :=
  match op with OpCopy offset sz => offset + sz | OpInsert _ => basePos end.

Lemma reader_step f base content written op l rest basePos remaining :
  Base_Reader base = Some content -> 0 <= basePos <= len content ->
  op_bytes op l -> op_valid (len content) op -> op_size op <= remaining ->
  ReaderFromDelta_loop (S f) base written (l ++ rest) (drop (Z.to_nat basePos) content)
    basePos (len content) remaining =
  ReaderFromDelta_loop f base (written ++ op_result content op) rest
    (drop (Z.to_nat (op_pos basePos op)) content) (op_pos basePos op) (len content)
    (u64 (remaining - op_size op)).
Proof.
  intros Hbase Hp Hop Hv Hsz. pose proof (op_bytes_size _ _ Hop) as Hpos.
  destruct Hop as [cmd ob sb offset s Hcmd Ho Hs|data Hd]; cbn [ReaderFromDelta_loop app];
    simpl in Hv, Hsz, Hpos; simpl op_size; simpl op_result; simpl op_pos.
  - open_copy cmd ob sb offset s Ho Hs.
    rewrite (seekBase_Ok base content) by (done || lia). cbn [mbind outcome_bind mret outcome_ret].
    set (sz := if s =? 0 then 0x10000 else s) in *.
    ztest (len (take (Z.to_nat sz) (drop (Z.to_nat offset) content)) =? sz) true.
    simpl. rewrite drop_drop_Z by lia. by replace (sz + offset) with (offset + sz) by lia.
  - open_insert data. rewrite take_len_app, drop_len_app, Z.eqb_refl. done.
Qed.

Lemma writer_step f dst base op l rest remaining srcSz :
  op_bytes op l -> op_valid srcSz op -> op_size op <= remaining ->
  patchDeltaWriter_loop (S f) dst base (l ++ rest) srcSz remaining =
  patchDeltaWriter_loop f (dst ++ op_result (take (Z.to_nat srcSz) base) op) base rest srcSz
    (u64 (remaining - op_size op)).
Proof.
  intros Hop Hv Hsz. pose proof (op_bytes_size _ _ Hop) as Hpos.
  destruct Hop as [cmd ob sb offset s Hcmd Ho Hs|data Hd]; cbn [patchDeltaWriter_loop app];
    simpl in Hv, Hsz, Hpos; simpl op_size; simpl op_result.
  - by open_copy cmd ob sb offset s Ho Hs.
  - open_insert data. by rewrite take_len_app, drop_len_app.
Qed.

#[local] Arguments validateDeltaOps_loop : simpl never.
#[local] Arguments patchDelta_loop : simpl never.
#[local] Arguments ReaderFromDelta_loop : simpl never.
#[local] Arguments patchDeltaWriter_loop : simpl never.

Lemma ops_result_cons src op ops : ops_result src (op :: ops) = op_result src op ++ ops_result src ops.
Proof. done. Qed.

Lemma op_result_len src op :
  op_valid (len src) op -> (exists l, op_bytes op l) -> len (op_result src op) = op_size op.
Proof.
  intros Hv [l Hop]. destruct Hop as [cmd ob sb offset s Hcmd Ho Hs|data Hd]; simpl in *; [|done].
  pose proof (copy_offset_bound _ _ _ Ho). pose proof (copy_size_bound _ _ _ Hs).
  change maxCopySize with 0x10000 in *. len_lia.
Qed.

Lemma ops_result_len src ops body :
  delta_body ops body -> Forall (op_valid (len src)) ops -> len (ops_result src ops) = ops_size ops.
Proof.
  induction 1 as [|op ops l rest Hop _ IH]; [done|].
  intros Hv. apply Forall_cons_iff in Hv as [Hv Hvs].
  rewrite ops_result_cons, ops_size_cons, len_app, IH, op_result_len by eauto. done.
Qed.


Lemma body_cons_inv srcSz op ops body :
  delta_body (op :: ops) body -> Forall (op_valid srcSz) (op :: ops) ->
  exists l rest, body = l ++ rest /\ op_bytes op l /\ op_valid srcSz op
    /\ delta_body ops rest /\ Forall (op_valid srcSz) ops
    /\ 0 < op_size op /\ 0 <= ops_size ops /\ (length rest < length body)%nat.
Proof.
  intros Hb Hv. inversion Hb as [|? ? l rest Hop Hrest]; subst.
  apply Forall_cons_iff in Hv as [Hv1 Hv2]. exists l, rest.
  pose proof (op_bytes_size _ _ Hop). pose proof (ops_size_nonneg _ _ Hrest).
  split_and!; try done; [lia|]. rewrite length_app. destruct Hop; simpl; lia.
Qed.

(** The slice applier turns a valid body into the result of its operations. *)
Lemma patch_loop_run fuel ops body src dst :
  delta_body ops body -> Forall (op_valid (len src)) ops -> ops_size ops < 2 ^ 64 ->
  (length body < fuel)%nat ->
  patchDelta_loop fuel dst src body (len src) (ops_size ops) = Ok (dst ++ ops_result src ops).
Proof.
  revert ops body dst. induction fuel as [|f IH]; intros ops body dst Hb Hv Hs Hf; [lia|].
  destruct ops as [|op ops].
  - inversion Hb; subst. cbv [ops_result concat fmap list_fmap]. by rewrite app_nil_r.
  - destruct (body_cons_inv _ _ _ _ Hb Hv) as (l & rest & -> & Hop & Hv1 & Hr & Hv2 & Hp & Hn & Hlt).
    rewrite ops_size_cons in *. rewrite (patch_step _ _ _ op) by (done || lia).
    replace (op_size op + ops_size ops - op_size op) with (ops_size ops) by lia.
    rewrite wrap_small, IH by (done || lia). by rewrite ops_result_cons, app_assoc.
Qed.

Lemma size_below_2_63 h v : leb_size h v -> len h <= 9 -> 0 <= v < 2 ^ 63.
Proof.
  intros Hs Hl. pose proof (leb_size_bound _ _ Hs) as [[? Hv] ?]. split; [done|].
  eapply Z.lt_le_trans; [exact Hv|]. apply Z.pow_le_mono_r; lia.
Qed.

(** The shape of an accepted delta. *)
Definition accepted (srcSz : Z) (delta : bytes) (ops : list delta_op) : Prop :=
  exists hs ht body, delta = hs ++ ht ++ body
    /\ leb_size hs srcSz /\ len hs <= 9 /\ leb_size ht (ops_size ops) /\ len ht <= 9
    /\ delta_body ops body /\ Forall (op_valid srcSz) ops.

(** Header and validation, the part common to the three appliers: they either
    fail with an error that does not depend on the applier, or accept. *)
Definition delta_prefix (srcSz : Z) (delta : bytes) : outcome delta_error (Z * bytes) :=
  '(sz, delta) ← decodeDeltaSize delta;
  if negb (sz =? srcSz) then Err ErrInvalidDelta
  else
    '(targetSz, delta) ← decodeDeltaSize delta;
    _ ← validateDeltaOps delta sz targetSz;
    mret (targetSz, delta).

Lemma delta_prefix_accepts srcSz hs ht body ops :
  bytes_ok body -> leb_size hs srcSz -> len hs <= 9 -> leb_size ht (ops_size ops) -> len ht <= 9 ->
  delta_body ops body -> Forall (op_valid srcSz) ops ->
  delta_prefix srcSz (hs ++ ht ++ body) = Ok (ops_size ops, body).
Proof.
  intros Hok Hs Hsl Ht Htl Hb Hv. pose proof (size_below_2_63 _ _ Ht Htl). unfold delta_prefix.
  rewrite (decodeDeltaSize_app hs srcSz) by done. cbn [mbind outcome_bind].
  rewrite Z.eqb_refl. cbn [negb].
  rewrite (decodeDeltaSize_app ht (ops_size ops)) by done. cbn [mbind outcome_bind].
  unfold validateDeltaOps, MaxInt64. rewrite Z.gtb_ltb.
  ztest (2 ^ 63 - 1 <? ops_size ops) false.
  by rewrite (validate_loop_complete _ ops) by (done || lia).
Qed.

Lemma delta_prefix_cases srcSz delta :
  bytes_ok delta ->
  (exists e, delta_prefix srcSz delta = Err e) \/
  exists ops body, accepted srcSz delta ops /\ delta_prefix srcSz delta = Ok (ops_size ops, body)
    /\ delta_body ops body /\ Forall (op_valid srcSz) ops /\ 0 <= ops_size ops < 2 ^ 63.
Proof.
  intros Hok. unfold delta_prefix at 1.
  destruct (decodeDeltaSize_cases delta Hok) as [[e ->]|(hs & v & rest & -> & Hs & Hsl)];
    [left; eauto|].
  apply bytes_ok_app in Hok as [_ Hok].
  rewrite (decodeDeltaSize_app hs v) by done. cbn [mbind outcome_bind].
  destruct (Z.eqb_spec v srcSz) as [->|]; cbn [negb]; [|left; eauto].
  destruct (decodeDeltaSize_cases rest Hok) as [[e ->]|(ht & w & body & -> & Ht & Htl)];
    [left; eauto|].
  rewrite (decodeDeltaSize_app ht w) by done. cbn [mbind outcome_bind]. unfold validateDeltaOps.
  destruct (w >? MaxInt64); [left; eauto|].
  apply bytes_ok_app in Hok as [_ Hok]. pose proof (size_below_2_63 _ _ Ht Htl).
  destruct (validate_loop_spec (S (length body)) body srcSz w Hok)
    as [[e ->]|[_ (ops & Hb & Hv & <-)]]; [lia|lia|left; eauto|right].
  exists ops, body. rewrite (delta_prefix_accepts srcSz hs ht body ops) by done.
  split; [by exists hs, ht, body|done].
Qed.

Lemma patchDelta_prefix src delta :
  patchDelta src delta =
  ('(targetSz, body) ← delta_prefix (len src) delta;
   patchDelta_loop (S (length body)) [] src body (len src) targetSz).
Proof.
  unfold patchDelta, delta_prefix. destruct (decodeDeltaSize delta) as [[sz d]| | |]; try done.
  cbn [mbind outcome_bind]. destruct (Z.eqb_spec sz (len src)) as [->|]; [|done]. cbn [negb].
  destruct (decodeDeltaSize d) as [[tsz d']| | |]; try done. cbn [mbind outcome_bind].
  by destruct (validateDeltaOps _ _ _).
Qed.

Lemma patchDelta_accepted src delta ops body :
  delta_prefix (len src) delta = Ok (ops_size ops, body) ->
  delta_body ops body -> Forall (op_valid (len src)) ops -> ops_size ops < 2 ^ 63 ->
  patchDelta src delta = Ok (ops_result src ops).
Proof.
  intros Hp Hb Hv Hs. rewrite patchDelta_prefix, Hp. cbn [mbind outcome_bind].
  rewrite patch_loop_run by (done || lia). done.
Qed.

Lemma patchDelta_complete src delta tgt :
  bytes_ok delta -> delta_denotes src delta tgt -> patchDelta src delta = Ok tgt.
Proof.
  intros Hok (hs & ht & body & ops & -> & Hs & Hsl & Ht & Htl & Hb & Hv & ->).
  rewrite (ops_result_len src ops body) in Ht by done.
  apply bytes_ok_app in Hok as [_ Hok]. apply bytes_ok_app in Hok as [_ Hok].
  eapply patchDelta_accepted; [by apply delta_prefix_accepts|done|done|].
  by apply (size_below_2_63 ht).
Qed.

(** C6: [patchDelta] implements the delta format.  For every byte string it
    terminates without a panic, and it returns [tgt] exactly when the string is
    a delta from [src] to [tgt]: two sizes, the first the size of [src], the
    second the size of [tgt], and copy and insert operations within bounds
    whose results concatenated are [tgt], with nothing left over. *)
Theorem patchDelta_implements_format src delta :
  bytes_ok delta ->
  returns (patchDelta src delta) /\
  forall tgt, patchDelta src delta = Ok tgt <-> delta_denotes src delta tgt.
Proof.
  intros Hok.
  pose proof (fun tgt => patchDelta_complete src delta tgt Hok) as Hcomplete.
  destruct (delta_prefix_cases (len src) delta Hok)
    as [[e He]|(ops & body & Hacc & Hp & Hb & Hv & Hs)].
  - assert (patchDelta src delta = Err e) as He' by (rewrite patchDelta_prefix, He; done).
    rewrite He'. split; [done|]. intros tgt. split; [done|]. intros Hd%Hcomplete. congruence.
  - rewrite (patchDelta_accepted src delta ops body) in * by (done || lia). split; [done|].
    intros tgt. split; [|apply Hcomplete]. intros [= <-].
    destruct Hacc as (hs & ht & body' & -> & Hs1 & Hs2 & Ht1 & Ht2 & Hb' & _).
    exists hs, ht, body', ops. rewrite (ops_result_len src ops body') by done. done.
Qed.

Lemma patchDelta_implements_format_witness :
  bytes_ok [4; 6; 0x90; 3; 3; 120; 121; 122] /\
  patchDelta [97; 98; 99; 100] [4; 6; 0x90; 3; 3; 120; 121; 122] = Ok [97; 98; 99; 120; 121; 122] /\
  delta_denotes [97; 98; 99; 100] [4; 6; 0x90; 3; 3; 120; 121; 122] [97; 98; 99; 120; 121; 122].
Proof.
  assert (bytes_ok [4; 6; 0x90; 3; 3; 120; 121; 122]) as H
    by (apply (bool_decide_unpack _); vm_compute; exact I).
  split; [exact H|]. split; [reflexivity|].
  apply (patchDelta_implements_format [97; 98; 99; 100] _ H). reflexivity.
Defined.

(** ** The streaming appliers *)

Lemma op_pos_bound (content : bytes) basePos op l :
  op_bytes op l -> op_valid (len content) op -> 0 <= basePos <= len content ->
  0 <= op_pos basePos op <= len content.
Proof.
  intros Hop Hv Hp. pose proof (op_bytes_size _ _ Hop).
  destruct Hop as [cmd ob sb offset s Hcmd Ho Hs|data Hd]; simpl in *; [|done].
  pose proof (copy_offset_bound _ _ _ Ho). lia.
Qed.

Lemma reader_loop_run fuel ops body base content written basePos :
  Base_Reader base = Some content -> 0 <= basePos <= len content ->
  delta_body ops body -> Forall (op_valid (len content)) ops -> ops_size ops < 2 ^ 64 ->
  (length body < fuel)%nat ->
  ReaderFromDelta_loop fuel base written body (drop (Z.to_nat basePos) content) basePos
    (len content) (ops_size ops) = Some (written ++ ops_result content ops, None).
Proof.
  intros Hbase. revert ops body written basePos.
  induction fuel as [|f IH]; intros ops body written basePos Hp Hb Hv Hs Hf; [lia|].
  destruct ops as [|op ops].
  - inversion Hb; subst. cbv [ops_result concat fmap list_fmap]. by rewrite app_nil_r.
  - destruct (body_cons_inv _ _ _ _ Hb Hv) as (l & rest & -> & Hop & Hv1 & Hr & Hv2 & Hz & Hn & Hlt).
    rewrite ops_size_cons in *.
    rewrite (reader_step _ _ _ _ op) by (done || lia).
    replace (op_size op + ops_size ops - op_size op) with (ops_size ops) by lia.
    rewrite wrap_small, IH by (done || lia || by eapply op_pos_bound).
    by rewrite ops_result_cons, app_assoc.
Qed.

Lemma writer_loop_run fuel ops body base dst srcSz :
  delta_body ops body -> Forall (op_valid srcSz) ops -> ops_size ops < 2 ^ 64 ->
  (length body < fuel)%nat ->
  patchDeltaWriter_loop fuel dst base body srcSz (ops_size ops)
  = Ok (dst ++ ops_result (take (Z.to_nat srcSz) base) ops).
Proof.
  revert ops body dst. induction fuel as [|f IH]; intros ops body dst Hb Hv Hs Hf; [lia|].
  destruct ops as [|op ops].
  - inversion Hb; subst. cbv [ops_result concat fmap list_fmap]. by rewrite app_nil_r.
  - destruct (body_cons_inv _ _ _ _ Hb Hv) as (l & rest & -> & Hop & Hv1 & Hr & Hv2 & Hz & Hn & Hlt).
    rewrite ops_size_cons in *. rewrite (writer_step _ _ _ op) by (done || lia).
    replace (op_size op + ops_size ops - op_size op) with (ops_size ops) by lia.
    rewrite wrap_small, IH by (done || lia). by rewrite ops_result_cons, app_assoc.
Qed.

Lemma ReaderFromDelta_prefix base delta :
  minDeltaSize <= len delta ->
  ReaderFromDelta base delta =
  ('(targetSz, body) ← delta_prefix (u64 (Base_Size base)) delta;
   mret match Base_Reader base with
        | None => Some (CloseWithError [] ErrInvalidDelta)
        | Some content => ReaderFromDelta_loop (S (length body)) base [] body content 0
                            (u64 (Base_Size base)) targetSz
        end).
Proof.
  intros Hl. unfold ReaderFromDelta, delta_prefix.
  rewrite (proj2 (Z.ltb_ge _ minDeltaSize)) by done.
  destruct (decodeDeltaSize delta) as [[sz d]| | |]; try done. cbn [mbind outcome_bind].
  destruct (Z.eqb_spec sz (u64 (Base_Size base))) as [->|]; [|done]. cbn [negb].
  destruct (decodeDeltaSize d) as [[tsz d']| | |]; try done. cbn [mbind outcome_bind].
  by destruct (validateDeltaOps _ _ _).
Qed.

(** C24: the streaming applier agrees with the slice applier.  Over a base whose
    reported size is the length of its content, [ReaderFromDelta] rejects a
    delta with the error [patchDelta] gives, and otherwise its pipe delivers
    the bytes [patchDelta] returns and then end of file. *)
Theorem ReaderFromDelta_agrees content delta :
  bytes_ok delta -> minDeltaSize <= len delta -> len content < 2 ^ 63 ->
  ReaderFromDelta {| Base_Size := len content; Base_Reader := Some content |} delta =
  (tgt ← patchDelta content delta; mret (Some (tgt, None))).
Proof.
  intros Hok Hmin Hc. pose proof (len_nonneg content).
  rewrite ReaderFromDelta_prefix by done. simpl Base_Size. simpl Base_Reader.
  rewrite wrap_small by lia.
  destruct (delta_prefix_cases (len content) delta Hok)
    as [[e He]|(ops & body & _ & Hp & Hb & Hv & Hs)].
  - by rewrite patchDelta_prefix, He.
  - rewrite (patchDelta_accepted content delta ops body) by (done || lia).
    rewrite Hp. cbn [mbind outcome_bind]. f_equal.
    apply (reader_loop_run (S (length body)) ops body _ content [] 0); (done || lia).
Qed.

Lemma ReaderFromDelta_agrees_witness :
  bytes_ok [4; 6; 0x91; 1; 3; 3; 120; 121; 122] /\
  ReaderFromDelta {| Base_Size := 4; Base_Reader := Some [97; 98; 99; 100] |}
    [4; 6; 0x91; 1; 3; 3; 120; 121; 122] = Ok (Some ([98; 99; 100; 120; 121; 122], None)).
Proof.
  assert (bytes_ok [4; 6; 0x91; 1; 3; 3; 120; 121; 122]) as H
    by (apply (bool_decide_unpack _); vm_compute; exact I).
  split; [exact H|].
  refine (eq_trans (ReaderFromDelta_agrees [97; 98; 99; 100] _ H _ _) _);
    [vm_compute; congruence | vm_compute; congruence | reflexivity].
Defined.

Lemma patchDeltaWriter_prefix {Hash} (objectHash : Z -> Z -> bytes -> Hash) base baseSz delta typ :
  minDeltaSize <= len delta -> 0 <= baseSz < 2 ^ 63 ->
  patchDeltaWriter objectHash None base baseSz delta typ =
  ('(targetSz, body) ← delta_prefix baseSz delta;
   dst ← patchDeltaWriter_loop (S (length body)) [] base body baseSz targetSz;
   mret (dst, targetSz, objectHash typ (i64 targetSz) dst)).
Proof.
  intros Hl Hb. unfold patchDeltaWriter, delta_prefix.
  rewrite (proj2 (Z.ltb_ge _ minDeltaSize)) by done.
  rewrite (proj2 (Z.ltb_ge baseSz 0)), wrap_small by lia. cbn [orb].
  destruct (decodeDeltaSize delta) as [[sz d]| | |]; try done. cbn [mbind outcome_bind].
  destruct (Z.eqb_spec sz baseSz) as [->|]; [|done]. cbn [negb].
  destruct (decodeDeltaSize d) as [[tsz d']| | |]; try done. cbn [mbind outcome_bind].
  by destruct (validateDeltaOps _ _ _).
Qed.

Lemma patchDeltaWriter_spec {Hash} (objectHash : Z -> Z -> bytes -> Hash) base baseSz delta typ :
  bytes_ok delta -> minDeltaSize <= len delta -> 0 <= baseSz <= len base -> len base < 2 ^ 63 ->
  patchDeltaWriter objectHash None base baseSz delta typ =
  (tgt ← patchDelta (take (Z.to_nat baseSz) base) delta;
   mret (tgt, len tgt, objectHash typ (len tgt) tgt)).
Proof.
  intros Hok Hmin Hb Hc. rewrite patchDeltaWriter_prefix by (done || lia).
  set (src := take (Z.to_nat baseSz) base).
  assert (len src = baseSz) as Hlen by (unfold src; len_lia).
  destruct (delta_prefix_cases baseSz delta Hok) as [[e He]|(ops & body & _ & Hp & Hbd & Hv & Hs)].
  - by rewrite patchDelta_prefix, Hlen, He.
  - rewrite (patchDelta_accepted src delta ops body) by first [lia | by rewrite ?Hlen].
    rewrite Hp. cbn [mbind outcome_bind]. rewrite writer_loop_run by (done || lia).
    cbn [mbind outcome_bind app]. fold src.
    by rewrite i64_small, (ops_result_len src ops body) by first [lia | by rewrite ?Hlen].
Qed.

Lemma patchDelta_len src delta tgt : bytes_ok delta -> patchDelta src delta = Ok tgt -> len tgt < 2 ^ 63.
Proof.
  intros Hok Hp. destruct (delta_prefix_cases (len src) delta Hok) as [[e He]|(ops & body & _ & Hd & Hb & Hv & Hs)].
  - by rewrite patchDelta_prefix, He in Hp.
  - rewrite (patchDelta_accepted src delta ops body) in Hp by (done || lia). injection Hp as <-. rewrite (ops_result_len src ops body) by done. lia.
Qed.

(** Writing through a [LazyObjectWriter] agrees as well: over the base the
    header describes (the first [baseSz] bytes of what the reader offers),
    [patchDeltaWriter] fails like [patchDelta] does, and otherwise writes its
    result and reports its length and the hash of the object it forms. *)
Theorem patchDeltaWriter_agrees {Hash} (objectHash : Z -> Z -> bytes -> Hash) base baseSz delta typ :
  bytes_ok delta -> minDeltaSize <= len delta -> 0 <= baseSz <= len base -> len base < 2 ^ 63 ->
  patchDeltaWriter objectHash None base baseSz delta typ =
  (tgt ← patchDelta (take (Z.to_nat baseSz) base) delta;
   mret (tgt, len tgt, objectHash typ (len tgt) tgt)).
Proof. apply patchDeltaWriter_spec. Qed.

Lemma patchDeltaWriter_agrees_witness :
  bytes_ok [2; 2; 0x90; 2] /\
  patchDeltaWriter (fun t n l => (t, n, l)) None [5; 6; 7] 2 [2; 2; 0x90; 2] 3
  = Ok ([5; 6], 2, (3, 2, [5; 6])).
Proof.
  assert (bytes_ok [2; 2; 0x90; 2]) as H
    by (apply (bool_decide_unpack _); vm_compute; exact I).
  split; [exact H|].
  refine (eq_trans (patchDeltaWriter_agrees (fun t n l => (t, n, l)) [5; 6; 7] 2 _ 3 H _ _ _) _);
    [vm_compute; congruence | vm_compute; intuition congruence | vm_compute; congruence
    | reflexivity].
Defined.

(** A base that delivers less than the size it reports can make the pipe end
    without an error and short of the advertised target: skipping to the
    offset of a copy fails with [io.EOF], which [CloseWithError] turns into a
    normal end of file. *)
Lemma short_base_truncates_silently :
  ReaderFromDelta {| Base_Size := 4; Base_Reader := Some [97] |} [4; 3; 1; 120; 0x91; 2; 2]
  = Ok (Some ([120], None)).
Proof. reflexivity. Qed.
