(* ===== verification/DeltaIndex.v ===== *)
(** * The delta index: [plumbing/format/packfile/delta_index.go]

    The index of a source buffer maps the hash of each 16-byte block to a chain
    of block offsets.  [newDeltaIndexScanner] scans the source backwards and
    links the blocks into chains, [countEntries] truncates long chains, and
    [copyEntries] lays each chain out contiguously.  Every slice access is
    modelled as one that can panic; the file shows that building and querying
    the index never does, and that a match it reports is a match. *)
From stdpp Require Import base list numbers option.
From Stdlib Require Import ZArith Lia.
From S2P Require Import Prelude.

Open Scope Z_scope.
#[local] Ltac Zify.zify_post_hook ::= Z.to_euclidean_division_equations.

Definition blksz : Z := 16.
Definition s : Z := 16.
Definition maxChainLength : Z := 64.

(** Building an index raises no error. *)
Abbreviation total := (outcome Empty_set).

Definition len8tab : list Z :=
  [0; 1; 2; 2; 3; 3; 3; 3; 4; 4; 4; 4; 4; 4; 4; 4; 5; 5; 5; 5; 5; 5; 5; 5; 5; 5; 5; 5; 5; 5; 5; 5;
   6; 6; 6; 6; 6; 6; 6; 6; 6; 6; 6; 6; 6; 6; 6; 6; 6; 6; 6; 6; 6; 6; 6; 6; 6; 6; 6; 6; 6; 6; 6; 6;
   7; 7; 7; 7; 7; 7; 7; 7; 7; 7; 7; 7; 7; 7; 7; 7; 7; 7; 7; 7; 7; 7; 7; 7; 7; 7; 7; 7; 7; 7; 7; 7;
   7; 7; 7; 7; 7; 7; 7; 7; 7; 7; 7; 7; 7; 7; 7; 7; 7; 7; 7; 7; 7; 7; 7; 7; 7; 7; 7; 7; 7; 7; 7; 7;
   8; 8; 8; 8; 8; 8; 8; 8; 8; 8; 8; 8; 8; 8; 8; 8; 8; 8; 8; 8; 8; 8; 8; 8; 8; 8; 8; 8; 8; 8; 8; 8;
   8; 8; 8; 8; 8; 8; 8; 8; 8; 8; 8; 8; 8; 8; 8; 8; 8; 8; 8; 8; 8; 8; 8; 8; 8; 8; 8; 8; 8; 8; 8; 8;
   8; 8; 8; 8; 8; 8; 8; 8; 8; 8; 8; 8; 8; 8; 8; 8; 8; 8; 8; 8; 8; 8; 8; 8; 8; 8; 8; 8; 8; 8; 8; 8;
   8; 8; 8; 8; 8; 8; 8; 8; 8; 8; 8; 8; 8; 8; 8; 8; 8; 8; 8; 8; 8; 8; 8; 8; 8; 8; 8; 8; 8; 8; 8; 8].

Definition T : list Z :=
  [0x00000000; 0xd4c6b32d; 0x7d4bd577; 0xa98d665a; 0x2e5119c3; 0xfa97aaee; 0x531accb4;
   0x87dc7f99; 0x5ca23386; 0x886480ab; 0x21e9e6f1; 0xf52f55dc; 0x72f32a45; 0xa6359968;
   0x0fb8ff32; 0xdb7e4c1f; 0x6d82d421; 0xb944670c; 0x10c90156; 0xc40fb27b; 0x43d3cde2;
   0x97157ecf; 0x3e981895; 0xea5eabb8; 0x3120e7a7; 0xe5e6548a; 0x4c6b32d0; 0x98ad81fd;
   0x1f71fe64; 0xcbb74d49; 0x623a2b13; 0xb6fc983e; 0x0fc31b6f; 0xdb05a842; 0x7288ce18;
   0xa64e7d35; 0x219202ac; 0xf554b181; 0x5cd9d7db; 0x881f64f6; 0x536128e9; 0x87a79bc4;
   0x2e2afd9e; 0xfaec4eb3; 0x7d30312a; 0xa9f68207; 0x007be45d; 0xd4bd5770; 0x6241cf4e;
   0xb6877c63; 0x1f0a1a39; 0xcbcca914; 0x4c10d68d; 0x98d665a0; 0x315b03fa; 0xe59db0d7;
   0x3ee3fcc8; 0xea254fe5; 0x43a829bf; 0x976e9a92; 0x10b2e50b; 0xc4745626; 0x6df9307c;
   0xb93f8351; 0x1f8636de; 0xcb4085f3; 0x62cde3a9; 0xb60b5084; 0x31d72f1d; 0xe5119c30;
   0x4c9cfa6a; 0x985a4947; 0x43240558; 0x97e2b675; 0x3e6fd02f; 0xeaa96302; 0x6d751c9b;
   0xb9b3afb6; 0x103ec9ec; 0xc4f87ac1; 0x7204e2ff; 0xa6c251d2; 0x0f4f3788; 0xdb8984a5;
   0x5c55fb3c; 0x88934811; 0x211e2e4b; 0xf5d89d66; 0x2ea6d179; 0xfa606254; 0x53ed040e;
   0x872bb723; 0x00f7c8ba; 0xd4317b97; 0x7dbc1dcd; 0xa97aaee0; 0x10452db1; 0xc4839e9c;
   0x6d0ef8c6; 0xb9c84beb; 0x3e143472; 0xead2875f; 0x435fe105; 0x97995228; 0x4ce71e37;
   0x9821ad1a; 0x31accb40; 0xe56a786d; 0x62b607f4; 0xb670b4d9; 0x1ffdd283; 0xcb3b61ae;
   0x7dc7f990; 0xa9014abd; 0x008c2ce7; 0xd44a9fca; 0x5396e053; 0x8750537e; 0x2edd3524;
   0xfa1b8609; 0x2165ca16; 0xf5a3793b; 0x5c2e1f61; 0x88e8ac4c; 0x0f34d3d5; 0xdbf260f8;
   0x727f06a2; 0xa6b9b58f; 0x3f0c6dbc; 0xebcade91; 0x4247b8cb; 0x96810be6; 0x115d747f;
   0xc59bc752; 0x6c16a108; 0xb8d01225; 0x63ae5e3a; 0xb768ed17; 0x1ee58b4d; 0xca233860;
   0x4dff47f9; 0x9939f4d4; 0x30b4928e; 0xe47221a3; 0x528eb99d; 0x86480ab0; 0x2fc56cea;
   0xfb03dfc7; 0x7cdfa05e; 0xa8191373; 0x01947529; 0xd552c604; 0x0e2c8a1b; 0xdaea3936;
   0x73675f6c; 0xa7a1ec41; 0x207d93d8; 0xf4bb20f5; 0x5d3646af; 0x89f0f582; 0x30cf76d3;
   0xe409c5fe; 0x4d84a3a4; 0x99421089; 0x1e9e6f10; 0xca58dc3d; 0x63d5ba67; 0xb713094a;
   0x6c6d4555; 0xb8abf678; 0x11269022; 0xc5e0230f; 0x423c5c96; 0x96faefbb; 0x3f7789e1;
   0xebb13acc; 0x5d4da2f2; 0x898b11df; 0x20067785; 0xf4c0c4a8; 0x731cbb31; 0xa7da081c;
   0x0e576e46; 0xda91dd6b; 0x01ef9174; 0xd5292259; 0x7ca44403; 0xa862f72e; 0x2fbe88b7;
   0xfb783b9a; 0x52f55dc0; 0x8633eeed; 0x208a5b62; 0xf44ce84f; 0x5dc18e15; 0x89073d38;
   0x0edb42a1; 0xda1df18c; 0x739097d6; 0xa75624fb; 0x7c2868e4; 0xa8eedbc9; 0x0163bd93;
   0xd5a50ebe; 0x52797127; 0x86bfc20a; 0x2f32a450; 0xfbf4177d; 0x4d088f43; 0x99ce3c6e;
   0x30435a34; 0xe485e919; 0x63599680; 0xb79f25ad; 0x1e1243f7; 0xcad4f0da; 0x11aabcc5;
   0xc56c0fe8; 0x6ce169b2; 0xb827da9f; 0x3ffba506; 0xeb3d162b; 0x42b07071; 0x9676c35c;
   0x2f49400d; 0xfb8ff320; 0x5202957a; 0x86c42657; 0x011859ce; 0xd5deeae3; 0x7c538cb9;
   0xa8953f94; 0x73eb738b; 0xa72dc0a6; 0x0ea0a6fc; 0xda6615d1; 0x5dba6a48; 0x897cd965;
   0x20f1bf3f; 0xf4370c12; 0x42cb942c; 0x960d2701; 0x3f80415b; 0xeb46f276; 0x6c9a8def;
   0xb85c3ec2; 0x11d15898; 0xc517ebb5; 0x1e69a7aa; 0xcaaf1487; 0x632272dd; 0xb7e4c1f0;
   0x3038be69; 0xe4fe0d44; 0x4d736b1e; 0x99b5d833].

(** ** Hashing a block *)

(** One of the twelve steps [hash = ((hash << 8) | raw[i]) ^ T[hash >> 23]]. *)
Definition hash_step (raw : bytes) (i hash : Z) : total Z :=
  b ← index raw i;
  t ← index T (Z.shiftr hash 23);
  mret (Z.lxor (Z.lor (u32 (Z.shiftl hash 8)) (Z.land b 0xff)) t).

Fixpoint hash_steps (raw : bytes) (i : Z) (n : nat) (hash : Z) : total Z :=
  match n with
  | O => mret hash
  | S n' => hash' ← hash_step raw i hash; hash_steps raw (i + 1) n' hash'
  end.

Definition hashBlock (raw : bytes) (ptr : Z) : total Z :=
  b0 ← index raw ptr;
  b1 ← index raw (ptr + 1);
  b2 ← index raw (ptr + 2);
  b3 ← index raw (ptr + 3);
  let hash := Z.lor (Z.lor (Z.lor (Z.shiftl (Z.land b0 0xff) 24) (Z.shiftl (Z.land b1 0xff) 16))
                           (Z.shiftl (Z.land b2 0xff) 8)) (Z.land b3 0xff) in
  t ← index T (Z.shiftr hash 31);
  hash_steps raw (ptr + 4) 12 (Z.lxor hash t).

(** ** The size of the table *)

Definition leadingZeros (x : Z) : total Z :=
  let '(x, n) := if x >=? Z.shiftl 1 16 then (Z.shiftr x 16, 16) else (x, 0) in
  let '(x, n) := if x >=? Z.shiftl 1 8 then (Z.shiftr x 8, n + 8) else (x, n) in
  b ← index len8tab x;
  mret (32 - (n + b)).

Definition tableSize (worstCaseBlockCnt : Z) : total Z :=
  lz ← leadingZeros (u32 worstCaseBlockCnt);
  let shift := 32 - lz in
  let sz := Z.shiftl 1 (shift - 1) in
  mret (if sz <? worstCaseBlockCnt then Z.shiftl sz 1 else sz).

(** ** Scanning the source *)

Record deltaIndexScanner := {
  sc_table : list Z;
  sc_entries : list Z;
  sc_next : list Z;
  sc_mask : Z;
  sc_count : Z;
}.

(** One iteration of [scan] at block [ptr]. *)
Definition scan_block (sc : deltaIndexScanner) (buf : bytes) (lastHash ptr : Z)
    : total (deltaIndexScanner * Z) :=
  key ← hashBlock buf ptr;
  let tIdx := Z.land key (sc_mask sc) in
  head ← index (sc_table sc) tIdx;
  if negb (head =? 0) && (lastHash =? key) then
    entries ← assign (sc_entries sc) head ptr;
    mret ({| sc_table := sc_table sc; sc_entries := entries; sc_next := sc_next sc;
             sc_mask := sc_mask sc; sc_count := sc_count sc |}, key)
  else
    let eIdx := sc_count sc + 1 in
    entries ← assign (sc_entries sc) eIdx ptr;
    next ← assign (sc_next sc) eIdx head;
    table ← assign (sc_table sc) tIdx eIdx;
    mret ({| sc_table := table; sc_entries := entries; sc_next := next;
             sc_mask := sc_mask sc; sc_count := eIdx |}, key).

Fixpoint scan (fuel : nat) (sc : deltaIndexScanner) (buf : bytes) (lastHash ptr : Z)
    : total deltaIndexScanner :=
  match fuel with
  | O => NoFuel
  | S f =>
      '(sc, key) ← scan_block sc buf lastHash ptr;
      let ptr := ptr - blksz in
      if 0 >? ptr then mret sc else scan f sc buf key ptr
  end.

(** The loop moves back one block per iteration, so [size] bounds it. *)
Definition newDeltaIndexScanner (buf : bytes) (size : Z) : total deltaIndexScanner :=
  let size := size - size `rem` blksz in
  let worstCaseBlockCnt := size `quot` blksz in
  if worstCaseBlockCnt <? 1 then
    mret {| sc_table := []; sc_entries := []; sc_next := []; sc_mask := 0; sc_count := 0 |}
  else
    tsz ← tableSize worstCaseBlockCnt;
    scan (Z.to_nat size)
      {| sc_table := replicate (Z.to_nat tsz) 0;
         sc_entries := replicate (Z.to_nat (worstCaseBlockCnt + 1)) 0;
         sc_next := replicate (Z.to_nat (worstCaseBlockCnt + 1)) 0;
         sc_mask := tsz - 1; sc_count := 0 |} buf 0 (size - blksz).

(** ** Counting and truncating the chains *)

(** Walk a chain from entry [h], cutting it after [maxChainLength] entries; the
    number of entries kept and the updated links. *)
Fixpoint count_chain (fuel : nat) (next : list Z) (h size : Z) : total (Z * list Z) :=
  match fuel with
  | O => NoFuel
  | S f =>
      let size := size + 1 in
      if size =? maxChainLength then
        next ← assign next h 0; mret (size, next)
      else
        h ← index next h;
        if h =? 0 then mret (size, next) else count_chain f next h size
  end.

Definition chain_fuel : nat := 64.

Fixpoint countEntries_loop (table next : list Z) (cnt : Z) : total (Z * list Z) :=
  match table with
  | [] => mret (cnt, next)
  | h :: table' =>
      if h =? 0 then countEntries_loop table' next cnt
      else '(size, next) ← count_chain chain_fuel next h 0;
           countEntries_loop table' next (cnt + size)
  end.

Definition countEntries (scan : deltaIndexScanner) : total (Z * list Z) :=
  countEntries_loop (sc_table scan) (sc_next scan) 0.

(** ** The index *)

Record deltaIndex := {
  di_table : list Z;
  di_entries : list Z;
  di_mask : Z;
}.

(** [new(deltaIndex)]. *)
Definition new_deltaIndex : deltaIndex :=
  {| di_table := []; di_entries := []; di_mask := 0 |}.

Fixpoint copy_chain (fuel : nat) (sc_entries sc_next entries : list Z) (h next : Z)
    : total (list Z * Z) :=
  match fuel with
  | O => NoFuel
  | S f =>
      v ← index sc_entries h;
      entries ← assign entries next v;
      let next := next + 1 in
      h ← index sc_next h;
      if h =? 0 then mret (entries, next)
      else copy_chain f sc_entries sc_next entries h next
  end.

(** The rebuilt table, chain by chain; an empty bucket stays 0. *)
Fixpoint copyEntries_loop (table sc_entries sc_next entries : list Z) (next : Z)
    : total (list Z * list Z) :=
  match table with
  | [] => mret ([], entries)
  | h :: table' =>
      if h =? 0 then
        '(t, entries) ← copyEntries_loop table' sc_entries sc_next entries next;
        mret (0 :: t, entries)
      else
        '(entries, next') ← copy_chain chain_fuel sc_entries sc_next entries h next;
        '(t, entries) ← copyEntries_loop table' sc_entries sc_next entries next';
        mret (next :: t, entries)
  end.

(** [idx.init(buf)]. *)
Definition deltaIndex_init (buf : bytes) : total deltaIndex :=
  scanner ← newDeltaIndexScanner buf (len buf);
  '(cnt, next) ← countEntries scanner;
  '(table, entries) ← copyEntries_loop (sc_table scanner) (sc_entries scanner) next
                        (replicate (Z.to_nat (cnt + 1)) 0) 1;
  mret {| di_table := table; di_entries := entries; di_mask := sc_mask scanner |}.

(** ** Looking up a match *)

(** The loop of [matchLength] over the two suffixes. *)
Fixpoint match_len (src tgt : bytes) : Z :=
  match src, tgt with
  | a :: src', b :: tgt' => if a =? b then 1 + match_len src' tgt' else 0
  | _, _ => 0
  end.

Definition matchLength (src tgt : bytes) (otgt osrc : Z) : Z :=
  match_len (drop (Z.to_nat osrc) src) (drop (Z.to_nat otgt) tgt).

Definition findMatch (idx : deltaIndex) (src tgt : bytes) (tgtOffset : Z) : total (Z * Z) :=
  if len tgt <? tgtOffset + s then mret (0, len tgt - tgtOffset)
  else if len src <? blksz then mret (0, -1)
  else
    h ← hashBlock tgt tgtOffset;
    let tIdx := Z.land h (di_mask idx) in
    eIdx ← index (di_table idx) tIdx;
    if eIdx =? 0 then mret (0, 0)
    else
      srcOffset ← index (di_entries idx) eIdx;
      mret (srcOffset, matchLength src tgt tgtOffset srcOffset).

Example index_of_48 :
  deltaIndex_init (replicate 16 1 ++ replicate 16 2 ++ replicate 16 1)
  = Ok {| di_table := [0; 1; 0; 3]; di_entries := [0; 0; 32; 16]; di_mask := 3 |}.
Proof. vm_compute. reflexivity. Qed.

(** ** Hash values are in range

    Bit 31 of [T[i]] is the lowest bit of [i], so that each step clears the
    bit it shifts out: the hash stays below 2^31 and [hash >> 23] indexes the
    256 entries of [T]. *)
Lemma T_top_bit i t : T !! i = Some t -> 0 <= t < 2 ^ 32 /\ Z.testbit t 31 = Nat.odd i.
Proof.
  assert (forallb (fun '(i, t) => (0 <=? t) && (t <? 2 ^ 32) &&
    Bool.eqb (Z.testbit t 31) (Nat.odd i)) (zip (seq 0 (length T)) T) = true) as Hall
    by (vm_compute; reflexivity).
  intros Ht. apply Is_true_true, forallb_True in Hall.
  assert (zip (seq 0 (length T)) T !! i = Some (i, t)) as Hz.
  { apply lookup_zip_with_Some. exists i, t. split; [done|]. split; [|done].
    apply lookup_seq. split; [done|]. by apply lookup_lt_Some in Ht. }
  rewrite Forall_lookup in Hall. apply Hall in Hz. apply Is_true_true in Hz. zbool.
  split; [lia|]. by apply Bool.eqb_prop.
Qed.

Lemma clear_top x : 0 <= x < 2 ^ 32 -> Z.testbit x 31 = false -> 0 <= x < 2 ^ 31.
Proof.
  intros Hx Hb. rewrite testbit_top in Hb by lia. apply Z.leb_gt in Hb. lia.
Qed.

Lemma lxor_bound x y n : 0 <= n -> 0 <= x < 2 ^ n -> 0 <= y < 2 ^ n -> 0 <= Z.lxor x y < 2 ^ n.
Proof.
  intros Hn Hx Hy. rewrite <-(Z.mod_small x (2 ^ n)), <-(Z.mod_small y (2 ^ n)) by done.
  rewrite <-!Z.land_ones by lia.
  replace (Z.lxor (Z.land x (Z.ones n)) (Z.land y (Z.ones n)))
    with (Z.land (Z.lxor x y) (Z.ones n)).
  - rewrite Z.land_ones by lia. apply Z.mod_pos_bound. lia.
  - apply Z.bits_inj'. intros i Hi. rewrite Z.lxor_spec, !Z.land_spec, Z.lxor_spec.
    by destruct (Z.testbit x i), (Z.testbit y i), (Z.testbit (Z.ones n) i).
Qed.

Lemma odd_to_nat x : 0 <= x -> Nat.odd (Z.to_nat x) = Z.testbit x 0.
Proof.
  intros Hx. rewrite Z.bit0_odd. rewrite <-(Z2Nat.id x) at 2 by done.
  generalize (Z.to_nat x). intros n.
  destruct (Nat.Even_or_Odd n) as [[m ->]|[m ->]].
  - rewrite Nat.odd_mul. rewrite Nat2Z.inj_mul, Z.odd_mul. done.
  - rewrite Nat.odd_add, Nat.odd_mul. rewrite Nat2Z.inj_add, Nat2Z.inj_mul, Z.odd_add, Z.odd_mul.
    done.
Qed.

Lemma len_T : len T = 256.
Proof. reflexivity. Qed.

Lemma hash_step_ensures raw i hash :
  0 <= i < len raw -> 0 <= hash < 2 ^ 31 ->
  ensures (hash_step raw i hash) (fun hash' => 0 <= hash' < 2 ^ 31).
Proof.
  intros Hi Hh. unfold hash_step. run index_ensures as b; [done|]. intros _.
  assert (0 <= Z.shiftr hash 23 < 256) as Hs by (rewrite Z.shiftr_div_pow2 by lia; lia).
  run index_ensures as t; [by rewrite len_T|]. intros Ht.
  apply T_top_bit in Ht as [Ht Hbit]. rewrite odd_to_nat, Z.shiftr_spec in Hbit by lia.
  cbn -[Z.pow]. assert (0 <= Z.land b 0xff < 2 ^ 8) as Hb.
  { change 0xff with (2 ^ 8 - 1). rewrite land_low_mask by lia. lia. }
  assert (Z.lor (u32 (Z.shiftl hash 8)) (Z.land b 0xff)
          = Z.land b 0xff + (hash `mod` 2 ^ 24) * 2 ^ 8) as Hlor.
  { rewrite <-lor_disjoint_add, Z.lor_comm by lia. f_equal.
    unfold wrap. rewrite !Z.shiftl_mul_pow2 by lia. lia. }
  apply clear_top.
  - apply lxor_bound; [lia| |lia]. rewrite Hlor. lia.
  - rewrite Z.lxor_spec, Hbit, Z.lor_spec. rewrite (testbit_small (Z.land b 255)) by lia.
    unfold wrap. rewrite Z.mod_pow2_bits_low, Z.shiftl_spec by lia.
    change (31 - 8) with 23. change (0 + 23) with 23. by destruct (Z.testbit hash 23).
Qed.

Lemma hash_steps_ensures raw n i hash :
  0 <= i -> i + Z.of_nat n <= len raw -> 0 <= hash < 2 ^ 31 ->
  ensures (hash_steps raw i n hash) (fun hash' => 0 <= hash' < 2 ^ 31).
Proof.
  revert i hash. induction n as [|n IH]; intros i hash Hi Hn Hh; [done|].
  cbn [hash_steps]. run hash_step_ensures as h'; [lia|done|]. intros Hh'. apply IH; lia.
Qed.

Lemma hashBlock_ensures raw ptr :
  bytes_ok raw -> 0 <= ptr -> ptr + 16 <= len raw ->
  ensures (hashBlock raw ptr) (fun h => 0 <= h < 2 ^ 31).
Proof.
  intros Hok Hp Hl. unfold hashBlock.
  do 4 (run index_ensures as ?b; [lia|]; intros ?Hb%(Forall_lookup_1 _ _ _ _ Hok)).
  unfold is_byte in *.
  assert (forall b, 0 <= b < 256 -> Z.land b 0xff = b) as Hff.
  { intros x Hx. change 0xff with (2 ^ 8 - 1). rewrite land_low_mask by lia. lia. }
  rewrite !Hff by done. set (h := Z.lor _ _).
  assert (0 <= h < 2 ^ 32) as Hh.
  { assert (h = b2 + (b1 + (b0 + b * 2 ^ 8) * 2 ^ 8) * 2 ^ 8) as ->; [|lia]. subst h.
    rewrite <-!lor_disjoint_add, !Z.shiftl_lor, !Z.shiftl_shiftl by lia.
    rewrite (Z.lor_comm _ b2). f_equal. rewrite (Z.lor_comm _ (Z.shiftl b1 _)). f_equal.
    by rewrite Z.lor_comm. }
  clearbody h. assert (0 <= Z.shiftr h 31 < 2) as Hs by (rewrite Z.shiftr_div_pow2 by lia; lia).
  run index_ensures as t; [rewrite len_T; lia|]. intros Ht.
  apply T_top_bit in Ht as [Ht Hbit]. rewrite odd_to_nat, Z.shiftr_spec in Hbit by lia.
  apply hash_steps_ensures; [lia|lia|]. apply clear_top.
  - by apply lxor_bound.
  - rewrite Z.lxor_spec, Hbit. change (0 + 31) with 31. by destruct (Z.testbit h 31).
Qed.

(** ** The table size is a power of two, at least the number of blocks *)

Lemma len8tab_spec i b :
  len8tab !! i = Some b -> (0 < i)%nat -> 0 < b <= 8 /\ 2 ^ (b - 1) <= Z.of_nat i < 2 ^ b.
Proof.
  assert (forallb (fun '(i, b) => Nat.eqb i 0 || ((0 <? b) && (b <=? 8) &&
    (2 ^ (b - 1) <=? Z.of_nat i) && (Z.of_nat i <? 2 ^ b))) (zip (seq 0 256) len8tab) = true)
    as Hall by (vm_compute; reflexivity).
  intros Hb Hi. apply Is_true_true, forallb_True in Hall.
  assert (zip (seq 0 256) len8tab !! i = Some (i, b)) as Hz.
  { apply lookup_zip_with_Some. exists i, b. split; [done|]. split; [|done].
    apply lookup_seq. split; [done|]. by apply lookup_lt_Some in Hb. }
  rewrite Forall_lookup in Hall. apply Hall in Hz. apply Is_true_true in Hz.
  replace (Nat.eqb i 0) with false in Hz by (symmetry; apply Nat.eqb_neq; lia).
  cbn -[Z.pow] in Hz. zbool. lia.
Qed.

Lemma len8tab_step n x y :
  0 < x < 256 -> x = y `div` 2 ^ n -> 0 <= n <= 24 -> 0 < y ->
  ensures (b ← index len8tab x; mret (32 - (n + b)) : total Z)
    (fun lz => 0 <= lz <= 31 /\ 2 ^ (31 - lz) <= y < 2 ^ (32 - lz)).
Proof.
  intros Hx Hxy Hn Hy.
  run index_ensures as b; [change (len len8tab) with 256; lia|]. intros Hb.
  apply len8tab_spec in Hb; [|lia]. rewrite Z2Nat.id in Hb by lia. destruct Hb as [Hb Hbx].
  simpl. split; [lia|].
  replace (31 - (32 - (n + b))) with (n + (b - 1)) by lia.
  replace (32 - (32 - (n + b))) with (n + b) by lia.
  rewrite !Z.pow_add_r by lia. assert (0 < 2 ^ n) by lia.
  rewrite Hxy in Hbx. pose proof (Z.div_mod y (2 ^ n) ltac:(lia)).
  pose proof (Z.mod_pos_bound y (2 ^ n) ltac:(lia)). nia.
Qed.

Lemma leadingZeros_ensures x :
  0 < x < 2 ^ 32 ->
  ensures (leadingZeros x) (fun lz => 0 <= lz <= 31 /\ 2 ^ (31 - lz) <= x < 2 ^ (32 - lz)).
Proof.
  intros Hx. unfold leadingZeros.
  change (Z.shiftl 1 16) with (2 ^ 16). change (Z.shiftl 1 8) with (2 ^ 8).
  rewrite !Z.geb_leb.
  destruct (Z.leb_spec (2 ^ 16) x); rewrite !Z.geb_leb.
  - rewrite !Z.shiftr_div_pow2 by lia. destruct (Z.leb_spec (2 ^ 8) (x `div` 2 ^ 16)).
    + apply len8tab_step; lia.
    + apply len8tab_step; lia.
  - rewrite !Z.shiftr_div_pow2 by lia. destruct (Z.leb_spec (2 ^ 8) x).
    + apply len8tab_step; lia.
    + apply len8tab_step; lia.
Qed.

Lemma tableSize_ensures n :
  0 < n < 2 ^ 32 ->
  ensures (tableSize n) (fun sz => exists k, 0 <= k <= 32 /\ sz = 2 ^ k /\ n <= sz < 2 * n).
Proof.
  intros Hn. unfold tableSize. rewrite wrap_small by lia.
  run leadingZeros_ensures as lz; [done|]. intros [Hlz Hx]. simpl.
  replace (32 - lz - 1) with (31 - lz) by lia.
  rewrite Z.shiftl_mul_pow2, Z.mul_1_l by lia.
  replace (32 - lz) with (31 - lz + 1) in Hx by lia. rewrite Z.pow_add_r in Hx by lia.
  destruct (Z.ltb_spec (2 ^ (31 - lz)) n).
  - exists (31 - lz + 1). rewrite Z.pow_add_r by lia. rewrite Z.shiftl_mul_pow2 by lia. lia.
  - exists (31 - lz). lia.
Qed.

(** ** The scanner stays in range *)

Definition in_range (lo hi x : Z) : Prop := lo <= x < hi.

Record scanner_ok (src : bytes) (n : Z) (sc : deltaIndexScanner) : Prop := {
  ok_mask : exists k, 0 <= k /\ sc_mask sc = 2 ^ k - 1 /\ len (sc_table sc) = 2 ^ k;
  ok_count : 0 <= sc_count sc <= n;
  ok_table : Forall (in_range 0 (sc_count sc + 1)) (sc_table sc);
  ok_entries : len (sc_entries sc) = n + 1 /\ Forall (in_range 0 (len src)) (sc_entries sc);
  ok_next : len (sc_next sc) = n + 1 /\ Forall (in_range 0 (n + 1)) (sc_next sc);
}.

Lemma mask_index (h mask n : Z) :
  0 <= h -> (exists k, 0 <= k /\ mask = 2 ^ k - 1 /\ n = 2 ^ k) -> 0 <= Z.land h mask < n.
Proof.
  intros Hh (k & Hk & -> & ->). rewrite land_low_mask by lia. apply Z.mod_pos_bound. lia.
Qed.

Lemma in_range_weaken a b c d l :
  Forall (in_range a b) l -> c <= a -> b <= d -> Forall (in_range c d) l.
Proof. intros H Hc Hd. revert H. apply Forall_impl. unfold in_range. lia. Qed.

Lemma in_range_insert a b l i x :
  Forall (in_range a b) l -> in_range a b x -> Forall (in_range a b) (<[i := x]> l).
Proof. intros. by apply Forall_insert. Qed.

Lemma scan_block_ensures src n sc lastHash ptr :
  bytes_ok src -> scanner_ok src n sc -> sc_count sc + 1 <= n ->
  0 <= ptr -> ptr + 16 <= len src ->
  ensures (scan_block sc src lastHash ptr)
    (fun '(sc', key) => scanner_ok src n sc' /\ sc_count sc' <= sc_count sc + 1).
Proof.
  intros Hb [Hm Hc Ht [Hle Hfe] [Hln Hfn]] Hcn Hp Hpl. unfold scan_block.
  run hashBlock_ensures as key; [done..|]. intros Hkey.
  pose proof (mask_index key _ _ ltac:(lia) Hm) as Hidx.
  run index_ensures as head; [done|].
  intros Hhead%(Forall_lookup_1 _ _ _ _ Ht). unfold in_range in Hhead. case_match.
  - run assign_ensures as e; [lia|]. intros ->. simpl. split; [|lia].
    constructor; simpl; rewrite ?len_insert; try done.
    split; [done|]. apply in_range_insert; [done|]. unfold in_range. lia.
  - run assign_ensures as e; [lia|]. intros ->. run assign_ensures as nx; [lia|]. intros ->.
    run assign_ensures as t; [done|]. intros ->. simpl. split; [|lia].
    constructor; simpl; rewrite ?len_insert; try done; [lia|..].
    + apply in_range_insert; [|unfold in_range; lia]. eapply in_range_weaken; [exact Ht|lia..].
    + split; [done|]. apply in_range_insert; [done|]. unfold in_range. lia.
    + split; [done|]. apply in_range_insert; [done|]. unfold in_range. lia.
Qed.

Lemma scan_ensures src n fuel sc lastHash j :
  bytes_ok src -> scanner_ok src n sc -> 0 <= j -> sc_count sc + 1 + j <= n ->
  16 * j + 16 <= len src -> j < Z.of_nat fuel ->
  ensures (scan fuel sc src lastHash (16 * j)) (scanner_ok src n).
Proof.
  intros Hb. revert sc lastHash j. induction fuel as [|f IH]; intros sc lh j Hsc Hj Hc Hl Hf; [lia|].
  cbn [scan]. run (scan_block_ensures src n) as r; [done..|lia|lia|lia|]. destruct r as [sc' key].
  intros [Hsc' Hcnt]. unfold blksz.
  destruct (Z.gtb_spec 0 (16 * j - 16)); [done|].
  replace (16 * j - 16) with (16 * (j - 1)) by lia. apply IH; (done || lia).
Qed.

Lemma newDeltaIndexScanner_ensures src :
  bytes_ok src -> 16 <= len src -> len src < 2 ^ 36 ->
  ensures (newDeltaIndexScanner src (len src)) (scanner_ok src (len src `quot` 16)).
Proof.
  intros Hb Hl Hu. unfold newDeltaIndexScanner, blksz.
  set (n := len src `quot` 16). assert (1 <= n < 2 ^ 32) as Hn by (subst n; lia).
  assert (len src - len src `rem` 16 = 16 * n) as -> by (subst n; lia).
  assert (16 * n <= len src) by (subst n; lia). clearbody n.
  assert ((16 * n) `quot` 16 = n) as -> by (rewrite Z.mul_comm; apply Z.quot_mul; lia).
  ztest (n <? 1) false.
  run tableSize_ensures as sz; [lia|]. intros (k & Hk & -> & Hsz).
  replace (16 * n - 16) with (16 * (n - 1)) by lia.
  apply scan_ensures; simpl; [done| |lia..].
  constructor; simpl; rewrite ?len_replicate.
  - exists k. lia.
  - lia.
  - apply Forall_replicate. unfold in_range. lia.
  - split; [lia|]. apply Forall_replicate. unfold in_range. lia.
  - split; [lia|]. apply Forall_replicate. unfold in_range. lia.
Qed.

(** ** The chains fit in the entries allocated for them *)

(** The chain that starts at [h] has at most [n] entries. *)
Fixpoint chain_within (n : nat) (next : list Z) (h : Z) : Prop :=
  match n with
  | O => False
  | S n' => exists x, next !! Z.to_nat h = Some x /\ (x = 0 \/ chain_within n' next x)
  end.

(** Truncation only zeroes links. *)
Definition zeroed : list Z -> list Z -> Prop := Forall2 (fun x y => y = x \/ y = 0).

Lemma zeroed_refl l : zeroed l l.
Proof. apply Forall_Forall2_diag, Forall_true. auto. Qed.

Lemma zeroed_trans a b c : zeroed a b -> zeroed b c -> zeroed a c.
Proof.
  unfold zeroed. intros H. revert c.
  induction H as [|x y a b Hxy Hab IH]; intros c Hc; inversion Hc; subst; constructor.
  - intuition congruence.
  - auto.
Qed.

Lemma zeroed_insert l i : zeroed l (<[i := 0]> l).
Proof.
  revert i. unfold zeroed. induction l as [|x l IH]; intros [|i]; simpl; constructor; auto.
  apply zeroed_refl.
Qed.

Lemma zeroed_len a b : zeroed a b -> len b = len a.
Proof. intros H%Forall2_length. unfold len. lia. Qed.

Lemma zeroed_range n a b : 0 < n -> zeroed a b -> Forall (in_range 0 n) a -> Forall (in_range 0 n) b.
Proof.
  unfold zeroed, in_range. intros Hn. induction 1 as [|x y a b Hxy Hab IH]; [done|].
  rewrite !Forall_cons_iff. intros [Hx Ha]. split; [lia|auto].
Qed.

Lemma chain_within_zeroed n a b h : zeroed a b -> chain_within n a h -> chain_within n b h.
Proof.
  intros Hab. revert h. induction n as [|n IH]; intros h; [done|]. simpl.
  intros (x & Hx & Hw). destruct (Forall2_lookup_l _ _ _ _ _ Hab Hx) as (y & Hy & Hxy).
  exists y. split; [done|]. destruct Hxy as [->| ->]; [|auto]. destruct Hw; auto.
Qed.

Lemma count_chain_ensures n fuel next h size :
  len next = n -> Forall (in_range 0 n) next -> in_range 1 n h ->
  0 <= size -> size + Z.of_nat fuel = maxChainLength -> (0 < fuel)%nat ->
  ensures (count_chain fuel next h size) (fun '(size', next') =>
    exists m, size' = size + Z.of_nat m /\ (m <= fuel)%nat /\
      chain_within m next' h /\ zeroed next next').
Proof.
  intros Hlen Hr. revert h size. induction fuel as [|f IH]; intros h size Hh Hs Hf H0; [lia|].
  unfold in_range in Hh. cbn [count_chain]. destruct (Z.eqb_spec (size + 1) maxChainLength).
  - run assign_ensures as nx; [lia|]. intros ->. simpl. exists 1%nat.
    split; [lia|]. split; [lia|]. split; [|apply zeroed_insert].
    exists 0. split; [|by left]. apply list_lookup_insert_eq. unfold len in *. lia.
  - run index_ensures as x; [lia|]. intros Hx.
    pose proof (Forall_lookup_1 _ _ _ _ Hr Hx) as Hxr. unfold in_range in Hxr.
    destruct (Z.eqb_spec x 0) as [->|Hne].
    + simpl. exists 1%nat. split; [lia|]. split; [lia|]. split; [|apply zeroed_refl].
      exists 0. auto.
    + eapply ensures_weaken; [apply IH; [unfold in_range; lia|lia|lia|lia]|].
      intros [size' next'] (m & -> & Hm & Hw & Hz). exists (S m).
      split; [lia|]. split; [lia|]. split; [|done].
      destruct (Forall2_lookup_l _ _ _ _ _ Hz Hx) as (y & Hy & Hxy). simpl.
      exists y. split; [done|]. destruct Hxy as [->| ->]; auto.
Qed.

(** The chains of a table have at most [n] entries together. *)
Fixpoint chains (table next : list Z) (n : nat) : Prop :=
  match table with
  | [] => True
  | h :: table' =>
      if h =? 0 then chains table' next n
      else exists m, (m <= n)%nat /\ (m <= chain_fuel)%nat /\
        chain_within m next h /\ chains table' next (n - m)
  end.

Lemma countEntries_loop_ensures n table next cnt :
  0 < n -> len next = n -> Forall (in_range 0 n) next -> Forall (in_range 0 n) table ->
  ensures (countEntries_loop table next cnt) (fun '(cnt', next') =>
    zeroed next next' /\ exists m, cnt' = cnt + Z.of_nat m /\ chains table next' m).
Proof.
  intros Hn Hlen Hr Ht. revert next cnt Hlen Hr.
  induction Ht as [|h table Hh Ht IH]; intros next cnt Hlen Hr; cbn [countEntries_loop].
  - split; [apply zeroed_refl|]. exists 0%nat. simpl. split; [lia|done].
  - unfold in_range in Hh. destruct (Z.eqb_spec h 0) as [->|Hne].
    + eapply ensures_weaken; [by apply IH|]. intros [c nx]. simpl. done.
    + run (count_chain_ensures n) as r; [done|done|unfold in_range; lia|lia|done|unfold chain_fuel; lia|].
      destruct r as [size nx]. intros (m & -> & Hm & Hw & Hz).
      eapply ensures_weaken; [apply IH; [by rewrite (zeroed_len _ _ Hz)|by eapply zeroed_range]|].
      intros [c nx'] [Hz' (m' & -> & Hc)]. split; [by eapply zeroed_trans|].
      exists (m + m')%nat. split; [lia|]. simpl. ztest (h =? 0) false.
      exists m. split; [lia|]. split; [done|]. split; [by eapply chain_within_zeroed|].
      by replace (m + m' - m)%nat with m' by lia.
Qed.

(** ** The index is well formed *)

Record index_ok (src : bytes) (idx : deltaIndex) : Prop := {
  idx_nonempty : 0 < len (di_entries idx);
  idx_entries : Forall (in_range 0 (len src)) (di_entries idx) \/ len src < blksz;
  idx_table : Forall (in_range 0 (len (di_entries idx))) (di_table idx);
  idx_mask : len src < blksz \/
    exists k, 0 <= k /\ di_mask idx = 2 ^ k - 1 /\ len (di_table idx) = 2 ^ k;
}.

Lemma copy_chain_ensures lo hi n m fuel es nx entries h pos :
  chain_within m nx h -> (m <= fuel)%nat -> Forall (in_range 0 n) nx -> in_range 0 n h ->
  len es = n -> len nx = n -> Forall (in_range lo hi) es -> Forall (in_range lo hi) entries ->
  0 <= pos -> pos + Z.of_nat m <= len entries ->
  ensures (copy_chain fuel es nx entries h pos) (fun '(entries', pos') =>
    len entries' = len entries /\ Forall (in_range lo hi) entries' /\
    pos <= pos' <= pos + Z.of_nat m).
Proof.
  intros Hw Hf Hnx Hh Hles Hlnx Hes Hen Hp Hl.
  revert m h pos entries Hw Hf Hh Hen Hp Hl.
  induction fuel as [|f IH]; intros m h pos entries Hw Hf Hh Hen Hp Hl.
  - destruct m; [destruct Hw|lia].
  - destruct m as [|m]; [destruct Hw|]. destruct Hw as (x & Hx & Hw).
    unfold in_range in Hh. cbn [copy_chain].
    run index_ensures as v; [lia|]. intros Hv%(Forall_lookup_1 _ _ _ _ Hes).
    run assign_ensures as en; [lia|]. intros ->.
    rewrite (index_Ok nx h x) by (lia || done). cbn [mbind outcome_bind].
    assert (Forall (in_range lo hi) (<[Z.to_nat pos:=v]> entries)) as Hen'
      by (by apply in_range_insert).
    destruct (Z.eqb_spec x 0) as [->|Hne].
    + simpl. rewrite len_insert. split; [done|]. split; [done|]. lia.
    + destruct Hw as [->|Hw]; [done|].
      eapply ensures_weaken; [eapply (IH m)|].
      * done.
      * lia.
      * by apply (Forall_lookup_1 _ _ _ _ Hnx Hx).
      * done.
      * lia.
      * rewrite len_insert. lia.
      * intros [en' pos']. rewrite len_insert. intros (? & ? & ?). split; [done|]. split; [done|]. lia.
Qed.

Lemma copyEntries_loop_ensures lo hi n m table es nx entries pos :
  chains table nx m -> Forall (in_range 0 n) table -> Forall (in_range 0 n) nx ->
  len es = n -> len nx = n -> Forall (in_range lo hi) es -> Forall (in_range lo hi) entries ->
  1 <= pos -> pos + Z.of_nat m <= len entries ->
  ensures (copyEntries_loop table es nx entries pos) (fun '(table', entries') =>
    len table' = len table /\ len entries' = len entries /\
    Forall (in_range lo hi) entries' /\ Forall (in_range 0 (len entries)) table').
Proof.
  intros Hc Ht Hnx Hles Hlnx Hes Hen Hp Hl. revert m entries pos Hc Hen Hp Hl.
  induction Ht as [|h table Hh Ht IH]; intros m entries pos Hc Hen Hp Hl;
    cbn [copyEntries_loop]; [done|].
  cbn [chains] in Hc. destruct (Z.eqb_spec h 0) as [->|Hne].
  - run (IH m) as r; [done..|]. destruct r as [t en]. intros (? & ? & ? & ?). simpl.
    rewrite !len_cons. split; [lia|]. split; [done|]. split; [done|].
    constructor; [|done]. unfold in_range. lia.
  - destruct Hc as (k & Hk & Hkf & Hw & Hc).
    run (copy_chain_ensures lo hi n k) as r; try done; [lia|lia|].
    destruct r as [en pos']. intros (Hlen & Hen' & Hpos).
    run (IH (m - k)%nat en pos') as r; [done|done|lia|lia|].
    destruct r as [t en']. intros (? & ? & ? & ?). simpl.
    rewrite !len_cons. split; [lia|]. split; [lia|]. split; [done|].
    assert (k <> 0%nat) by (intros ->; destruct Hw).
    constructor; [unfold in_range; lia|]. by rewrite <-Hlen.
Qed.

Lemma deltaIndex_init_ensures src :
  bytes_ok src -> len src < 2 ^ 36 -> ensures (deltaIndex_init src) (index_ok src).
Proof.
  intros Hb Hu. unfold deltaIndex_init. destruct (Z.lt_ge_cases (len src) 16) as [Hs|Hs].
  - pose proof (len_nonneg src). unfold newDeltaIndexScanner, blksz.
    assert ((len src - len src `rem` 16) `quot` 16 = 0) as -> by lia.
    simpl. constructor; simpl; unfold blksz; [done|by right|constructor|by left].
  - run newDeltaIndexScanner_ensures as sc; [done..|]. set (n := len src `quot` 16).
    assert (1 <= n) as Hn by (subst n; lia). clearbody n.
    intros [Hm Hc Ht [Hle Hfe] [Hln Hfn]].
    assert (Forall (in_range 0 (n + 1)) (sc_table sc)) as Htn by (eapply in_range_weaken; [done|lia..]).
    unfold countEntries. run (countEntries_loop_ensures (n + 1)) as r; [lia|done..|].
    destruct r as [cnt nx]. intros (Hz & m & -> & Hch). rewrite Z.add_0_l.
    run (copyEntries_loop_ensures 0 (len src) (n + 1) m) as r;
      try first [done | by eapply zeroed_range; [..|done|done]; lia | by rewrite (zeroed_len _ _ Hz)
        | rewrite len_replicate; lia | lia].
    + apply Forall_replicate. unfold in_range. lia.
    + destruct r as [t en]. rewrite len_replicate. intros (Hlt & Hlen & Hen & Htb). simpl.
      assert (0 < len en) by lia.
      constructor; simpl; [done|by left| |right].
      * eapply in_range_weaken; [done|lia..].
      * destruct Hm as (k & ? & ? & ?). exists k. rewrite Hlt. done.
Qed.

(** ** A match is a match *)

Lemma match_len_bounds src tgt :
  0 <= match_len src tgt <= len src /\ match_len src tgt <= len tgt.
Proof.
  revert tgt. induction src as [|a src IH]; intros [|b tgt]; simpl; try len_lia.
  rewrite !len_cons. specialize (IH tgt). pose proof (len_nonneg src). pose proof (len_nonneg tgt).
  destruct (a =? b); lia.
Qed.

Lemma match_len_take src tgt :
  take (Z.to_nat (match_len src tgt)) src = take (Z.to_nat (match_len src tgt)) tgt.
Proof.
  revert tgt. induction src as [|a src IH]; intros [|b tgt]; simpl; try done.
  destruct (Z.eqb_spec a b) as [->|]; [|done].
  destruct (match_len_bounds src tgt) as [[? _] _].
  rewrite Z2Nat.inj_add by lia. simpl. f_equal. apply IH.
Qed.

(** What [findMatch] reports: at the end of the target, the bytes that remain;
    for a source without blocks, -1; otherwise no match, or a common
    substring. *)
Inductive match_at (src tgt : bytes) (i : Z) : Z -> Z -> Prop :=
  | match_tail : len tgt - i < s -> match_at src tgt i 0 (len tgt - i)
  | match_no_blocks : len src < blksz -> match_at src tgt i 0 (-1)
  | match_none o : match_at src tgt i o 0
  | match_found o l :
      0 <= o -> 0 < l -> o + l <= len src -> i + l <= len tgt ->
      take (Z.to_nat l) (drop (Z.to_nat o) src) = take (Z.to_nat l) (drop (Z.to_nat i) tgt) ->
      match_at src tgt i o l.

Lemma findMatch_ensures idx src tgt i :
  bytes_ok tgt -> index_ok src idx -> 0 <= i < len tgt ->
  ensures (findMatch idx src tgt i) (fun '(o, l) => match_at src tgt i o l).
Proof.
  intros Hb [Hne He Ht Hm] Hi. unfold findMatch.
  destruct (Z.ltb_spec (len tgt) (i + s)) as [Hlt|Hge]; [simpl; apply match_tail; lia|].
  unfold s in *. destruct (Z.ltb_spec (len src) blksz) as [Hs|Hs]; [by apply match_no_blocks|].
  run hashBlock_ensures as h; [done|lia|lia|]. intros Hh.
  destruct Hm as [?|Hm]; [lia|].
  run index_ensures as e; [apply mask_index; [lia|done]|].
  intros Her%(Forall_lookup_1 _ _ _ _ Ht). unfold in_range in Her.
  destruct (e =? 0); [apply match_none|].
  destruct He as [He|?]; [|lia].
  run index_ensures as o; [lia|]. intros Ho%(Forall_lookup_1 _ _ _ _ He). unfold in_range in Ho.
  unfold mret, outcome_ret, ensures. unfold matchLength.
  set (a := drop _ src). set (b := drop _ tgt).
  destruct (match_len_bounds a b) as [[Hl0 Hla] Hlb].
  assert (len a = len src - o) as Ha by (subst a; len_lia).
  assert (len b = len tgt - i) as Hbl by (subst b; len_lia).
  destruct (Z.eq_dec (match_len a b) 0) as [->|Hnz]; [apply match_none|].
  apply match_found; [lia..|]. apply match_len_take.
Qed.

(** C31: for every source of less than 64 GiB the index is built without a slice
    access out of range and within the chain limits, and looking up any
    position of any target in it gives a common substring of source and target
    at that position, no match, or one of the two special answers (the tail of
    the target, a source without blocks). *)
Theorem findMatch_sound src tgt i :
  bytes_ok src -> bytes_ok tgt -> len src < 2 ^ 36 -> 0 <= i < len tgt ->
  exists idx o l, deltaIndex_init src = Ok idx /\ findMatch idx src tgt i = Ok (o, l) /\
    match_at src tgt i o l.
Proof.
  intros Hbs Hbt Hs Hi.
  destruct (ensures_inv _ _ (deltaIndex_init_ensures src Hbs Hs)) as (idx & Hidx & Hok).
  destruct (ensures_inv _ _ (findMatch_ensures idx src tgt i Hbt Hok Hi)) as ([o l] & Hm & Hat).
  exists idx, o, l. done.
Qed.

Lemma findMatch_sound_witness :
  let src := replicate 16 1 ++ replicate 20 2 in let tgt := replicate 24 2 in
  exists idx o l, deltaIndex_init src = Ok idx /\ findMatch idx src tgt 1 = Ok (o, l) /\
    match_at src tgt 1 o l.
Proof.
  intros src tgt. apply (findMatch_sound src tgt 1).
  - apply (bool_decide_unpack _). vm_compute. exact I.
  - apply (bool_decide_unpack _). vm_compute. exact I.
  - vm_compute. congruence.
  - vm_compute. intuition congruence.
Defined.
