(* ===== verification/DiffDelta.v ===== *)
(** * Computing a delta: [plumbing/format/packfile/diff_delta.go]

    [diffDelta] walks the target, asks the index of the source for a match at
    each position, and emits copy operations for matches of at least [s] bytes
    and insert operations for everything else.  The main theorem composes it
    with the model of [patch_delta.go]: the delta of a source and a target
    patches the source to the target. *)
From stdpp Require Import base list numbers option strings.
From Stdlib Require Import ZArith Lia.
From S2P Require Import Prelude Varint PatchDelta DeltaIndex.

Open Scope Z_scope.
#[local] Ltac Zify.zify_post_hook ::= Z.to_euclidean_division_equations.

(** The index functions return no error; [diffDelta] has the error type of the
    size encoder, which it never uses either. *)
Definition lift {E A} (m : total A) : outcome E A := map_err (fun e : Empty_set => match e with end) m.

(** ** Insert operations *)

Fixpoint encodeInsertOperation_loop (fuel : nat) (b : bytes) (s o : Z) (buf : bytes)
    : outcome varint_error bytes :=
  match fuel with
  | O => NoFuel
  | S f =>
      if s >? 127 then
        chunk ← slice b o (o + 127);
        encodeInsertOperation_loop f b (s - 127) (o + 127) (buf ++ [127] ++ chunk)
      else
        chunk ← slice b o (o + s);
        mret (buf ++ [u8 s] ++ chunk)
  end.

(** The contents of [ibuf] and [buf] afterwards. *)
Definition encodeInsertOperation (ibuf buf : bytes) : outcome varint_error (bytes * bytes) :=
  if len ibuf =? 0 then mret (ibuf, buf)
  else
    buf ← encodeInsertOperation_loop (S (length ibuf)) ibuf (len ibuf) 0 buf;
    mret ([], buf).

(** ** Copy operations *)

(** The two loops over the bytes of the offset and of the length: [n] bytes
    from byte [i], with [bit << i] as the flag of byte [i]. *)
Fixpoint encodeFields (bit : Z) (n : nat) (i v code : Z) (opcodes : bytes) : Z * bytes :=
  match n with
  | O => (code, opcodes)
  | S n' =>
      let f := Z.shiftl 0xff (i * 8) in
      if negb (Z.land v f =? 0) then
        encodeFields bit n' (i + 1) v (Z.lor code (Z.shiftl bit i))
          (opcodes ++ [u8 (Z.shiftr (Z.land v f) (i * 8))])
      else encodeFields bit n' (i + 1) v code opcodes
  end.

Definition encodeCopyOperation (offset length : Z) : bytes :=
  let '(code, opcodes) := encodeFields 0x01 4 0 offset 0x80 [] in
  let '(code, opcodes) := encodeFields 0x10 3 0 length code opcodes in
  u8 code :: opcodes.

(** The loop over [rl]: a match is split into copies of [maxCopySize]. *)
Fixpoint copy_loop (fuel : nat) (rl aOffset : Z) (buf : bytes) : outcome varint_error bytes :=
  match fuel with
  | O => NoFuel
  | S f =>
      if rl >? 0 then
        if rl <? maxCopySize then mret (buf ++ encodeCopyOperation aOffset rl)
        else copy_loop f (rl - maxCopySize) (aOffset + maxCopySize)
               (buf ++ encodeCopyOperation aOffset maxCopySize)
      else mret buf
  end.

(** ** The delta *)

(** [ibuf.WriteByte(tgt[j])] for [n] bytes from [j]. *)
Fixpoint write_bytes (n : nat) (tgt : bytes) (j : Z) (ibuf : bytes) : outcome varint_error bytes :=
  match n with
  | O => mret ibuf
  | S n' => b ← index tgt j; write_bytes n' tgt (j + 1) (ibuf ++ [b])
  end.

Fixpoint diffDelta_loop (fuel : nat) (idx : deltaIndex) (src tgt : bytes) (i : Z) (ibuf buf : bytes)
    : outcome varint_error (bytes * bytes) :=
  match fuel with
  | O => NoFuel
  | S f =>
      if i <? len tgt then
        '(offset, l) ← lift (findMatch idx src tgt i);
        if l =? 0 then
          b ← index tgt i;
          diffDelta_loop f idx src tgt (i + 1) (ibuf ++ [b]) buf
        else if l <? 0 then
          ibuf ← write_bytes (Z.to_nat (len tgt - i)) tgt i ibuf;
          diffDelta_loop f idx src tgt (len tgt + 1) ibuf buf
        else if l <? s then
          ibuf ← write_bytes (Z.to_nat l) tgt i ibuf;
          diffDelta_loop f idx src tgt (i + (l - 1) + 1) ibuf buf
        else
          '(ibuf, buf) ← encodeInsertOperation ibuf buf;
          buf ← copy_loop (S (Z.to_nat l)) l offset buf;
          diffDelta_loop f idx src tgt (i + (l - 1) + 1) ibuf buf
      else mret (ibuf, buf)
  end.

(** The delta, and the index as [diffDelta] leaves it. *)
Definition diffDelta (idx : deltaIndex) (src tgt : bytes) : outcome varint_error (bytes * deltaIndex) :=
  hs ← EncodeLEB128 (len src);
  ht ← EncodeLEB128 (len tgt);
  let buf := hs ++ ht in
  idx ← if len (di_entries idx) =? 0 then lift (deltaIndex_init src) else mret idx;
  '(ibuf, buf) ← diffDelta_loop (S (length tgt)) idx src tgt 0 [] buf;
  '(_, buf) ← encodeInsertOperation ibuf buf;
  mret (buf, idx).

Definition DiffDelta (src tgt : bytes) : outcome varint_error bytes :=
  '(delta, _) ← diffDelta new_deltaIndex src tgt;
  mret delta.

Example DiffDelta_example :
  DiffDelta (bs "0123456789abcdefXYZ") (bs "hi 0123456789abcdef!")
  = Ok ([19; 20; 3] ++ bs "hi " ++ [0x90; 16; 1] ++ bs "!").
Proof. vm_compute. reflexivity. Qed.

(** ** [getDelta] over encoded objects *)

Section getDelta.
Context {E : Type}.

(** An open reader: what reading it to the end gives, and what [Close]
    returns. *)
Record reader := { rd_contents : outcome E bytes; rd_close : option E }.

(** [plumbing.EncodedObject], as far as [getDelta] uses it. *)
Record EncodedObject := { obj_Reader : outcome E reader }.

Record MemoryObject := { mo_type : Z; mo_cont : bytes; mo_sz : Z }.

Definition OFSDeltaObject : Z := 6.

(** [ioutil.CheckClose]. *)
Definition CheckClose (r : reader) (err : option E) : option E :=
  match rd_close r, err with Some cerr, None => Some cerr | _, _ => err end.

Definition memory_write (o : MemoryObject) (p : bytes) : MemoryObject :=
  {| mo_type := mo_type o; mo_cont := mo_cont o ++ p; mo_sz := len (mo_cont o ++ p) |}.

(** The object and the error returned; the deferred [CheckClose] calls run in
    reverse order and can set the error of a returned object. *)
Definition getDelta (idx : deltaIndex) (base target : EncodedObject)
    : outcome varint_error (option MemoryObject * option E) :=
  match obj_Reader base with
  | Err e => mret (None, Some e)
  | Panic => Panic
  | NoFuel => NoFuel
  | Ok br =>
      match obj_Reader target with
      | Err e => mret (None, CheckClose br (Some e))
      | Panic => Panic
      | NoFuel => NoFuel
      | Ok tr =>
          '(o, err) ←
            match rd_contents br with
            | Err e => mret (None, Some e)
            | Panic => Panic
            | NoFuel => NoFuel
            | Ok bb =>
                match rd_contents tr with
                | Err e => mret (None, Some e)
                | Panic => Panic
                | NoFuel => NoFuel
                | Ok tb =>
                    '(db, _) ← diffDelta idx bb tb;
                    let delta := memory_write {| mo_type := 0; mo_cont := []; mo_sz := 0 |} db in
                    mret (Some {| mo_type := OFSDeltaObject; mo_cont := mo_cont delta;
                                  mo_sz := len db |}, None)
                end
            end;
          mret (o, CheckClose br (CheckClose tr err))
      end
  end.

Definition GetDelta (base target : EncodedObject) : outcome varint_error (option MemoryObject * option E) :=
  getDelta new_deltaIndex base target.
End getDelta.
Arguments EncodedObject : clear implicits.
Arguments reader : clear implicits.

(** ** The sizes *)

Lemma leb_enc_size n l : leb_enc n l -> leb_size l n.
Proof.
  induction 1 as [n Hn|n l Hn Henc IH]; [by constructor|].
  replace n with (n `mod` 128 + 128 - 128 + 128 * (n `div` 128)) at 2 by lia.
  constructor; [lia|done].
Qed.

Lemma EncodeLEB128_size n :
  0 <= n < 2 ^ 63 -> ensures (EncodeLEB128 n) (fun h => leb_size h n /\ len h <= 9).
Proof.
  intros Hn. destruct (EncodeLEB128_loop_enc 10 n []) as (l & Henc & Hl); [simpl; lia|lia|].
  unfold EncodeLEB128, varint_fuel. rewrite Hl. simpl.
  split; [by apply leb_enc_size|]. eapply leb_enc_len; [done| |lia]. simpl. lia.
Qed.

(** ** Operations are encoded as the format says *)

Lemma land_field v n :
  0 <= n -> Z.shiftr (Z.land v (Z.shiftl 0xff n)) n = (v `div` 2 ^ n) `mod` 256.
Proof.
  intros Hn. change 0xff with (Z.ones 8). change 256 with (2 ^ 8).
  rewrite <-Z.land_ones, <-Z.shiftr_div_pow2 by lia.
  rewrite Z.shiftr_land, Z.shiftr_shiftl_l, Z.sub_diag, Z.shiftl_0_r by lia. done.
Qed.

Lemma land_field_zero v n :
  0 <= n -> (Z.land v (Z.shiftl 0xff n) =? 0) = ((v `div` 2 ^ n) `mod` 256 =? 0).
Proof.
  intros Hn. rewrite <-land_field by done. set (x := Z.land v (Z.shiftl 255 n)).
  assert (x = Z.shiftl (Z.shiftr x n) n) as Hx.
  { apply Z.bits_inj'. intros i Hi. destruct (Z.lt_ge_cases i n).
    - rewrite Z.shiftl_spec_low by done. subst x.
      rewrite Z.land_spec, (Z.shiftl_spec_low 255) by done. apply andb_false_r.
    - rewrite Z.shiftl_spec_high, Z.shiftr_spec by lia. f_equal. lia. }
  destruct (Z.eqb_spec (Z.shiftr x n) 0) as [H0|H0].
  - apply Z.eqb_eq. rewrite Hx, H0. apply Z.shiftl_0_l.
  - apply Z.eqb_neq. intros Hx0. rewrite Hx0, Z.shiftr_0_l in H0. done.
Qed.

(** Bits [k + i .. k + i + n - 1] of the code become the flags of the bytes
    emitted; the other bits are unchanged. *)
Lemma encodeFields_spec k n i v code ops :
  0 <= k -> 0 <= i -> 0 <= v < 2 ^ (8 * (i + Z.of_nat n)) -> 0 <= code ->
  (forall m, k + i <= m < k + i + Z.of_nat n -> Z.testbit code m = false) ->
  exists code' l,
    encodeFields (2 ^ k) n i v code ops = (code', ops ++ l)
    /\ le_fields (flags code' (k + i) n) l (v `div` 2 ^ (8 * i))
    /\ 0 <= code'
    /\ (forall m, 0 <= m -> ~ (k + i <= m < k + i + Z.of_nat n) -> Z.testbit code' m = Z.testbit code m).
Proof.
  intros Hk. revert i code ops. induction n as [|n IH]; intros i code ops Hi Hv Hc Hz.
  - exists code, []. rewrite app_nil_r, Z.div_small by (by rewrite Z.add_0_r in Hv).
    split; [done|]. split; [constructor|]. auto.
  - cbn [encodeFields]. rewrite (Z.mul_comm i 8), land_field_zero, land_field by lia.
    set (b := (v `div` 2 ^ (8 * i)) `mod` 256). assert (is_byte b) as Hb by (unfold is_byte; lia).
    assert (v `div` 2 ^ (8 * i) = b + 256 * (v `div` 2 ^ (8 * (i + 1)))) as Hdiv.
    { replace (8 * (i + 1)) with (8 * i + 8) by lia. rewrite Z.pow_add_r by lia.
      rewrite <-Z.div_div by lia. change (2 ^ 8) with 256. subst b. lia. }
    rewrite Hdiv. clearbody b. rewrite Z.shiftl_mul_pow2, <-Z.pow_add_r by lia.
    replace (i + Z.of_nat (S n)) with (i + 1 + Z.of_nat n) in Hv by lia.
    set (code1 := if b =? 0 then code else Z.lor code (2 ^ (k + i))).
    assert (0 <= code1) as Hc1 by (subst code1; destruct (b =? 0); [done|]; apply Z.lor_nonneg; lia).
    assert (forall m, 0 <= m -> Z.testbit code1 m
              = Z.testbit code m || (negb (b =? 0) && (k + i =? m))) as Hbits.
    { intros m Hm. subst code1. destruct (b =? 0); simpl; [by rewrite orb_false_r|].
      rewrite Z.lor_spec, Z.pow2_bits_eqb by lia. done. }
    destruct (IH (i + 1) code1 (if b =? 0 then ops else ops ++ [u8 b]))
      as (code' & l & He & Hf & Hc' & Hsame); [lia|done|done| |].
    { intros m Hm. rewrite Hbits, Hz by lia. ztest (k + i =? m) false. by rewrite andb_false_r. }
    assert (Z.testbit code' (k + i) = negb (b =? 0)) as Hflag.
    { rewrite Hsame, Hbits, Hz by lia. by rewrite Z.eqb_refl, andb_true_r. }
    exists code', (if b =? 0 then l else b :: l).
    split; [|split; [|split; [done|]]].
    + subst code1. destruct (Z.eqb_spec b 0); simpl; rewrite He; [done|].
      rewrite <-app_assoc. unfold is_byte in Hb. by rewrite wrap_small by lia.
    + cbn [flags]. rewrite Hflag, <-Z.add_assoc. destruct (Z.eqb_spec b 0) as [->|]; simpl.
      * rewrite Z.add_0_l. by constructor.
      * by constructor.
    + intros m Hm Hout. rewrite Hsame, Hbits by lia. ztest (k + i =? m) false.
      by rewrite andb_false_r, orb_false_r.
Qed.

Lemma byte_of_bits code :
  0 <= code -> Z.testbit code 7 = true -> (forall m, 8 <= m -> Z.testbit code m = false) ->
  128 <= code < 256.
Proof.
  intros Hc H7 Hhi. assert (code < 256) as Hlt.
  { replace code with (code `mod` 2 ^ 8); [lia|]. apply Z.bits_inj'. intros m Hm.
    destruct (Z.lt_ge_cases m 8).
    - by rewrite Z.mod_pow2_bits_low by lia.
    - rewrite Z.mod_pow2_bits_high by lia. symmetry. auto. }
  destruct (Z.lt_ge_cases code 128); [|lia].
  rewrite (testbit_small code 7) in H7 by lia. done.
Qed.

Lemma flags_ext c c' k n :
  (forall m, k <= m < k + Z.of_nat n -> Z.testbit c m = Z.testbit c' m) -> flags c k n = flags c' k n.
Proof.
  revert k. induction n as [|n IH]; intros k H; [done|]. cbn [flags]. f_equal.
  - apply H. lia.
  - apply IH. intros m Hm. apply H. lia.
Qed.

Lemma encodeCopyOperation_spec offset length :
  0 <= offset < 2 ^ 32 -> 0 < length < 2 ^ 24 ->
  op_bytes (OpCopy offset length) (encodeCopyOperation offset length).
Proof.
  intros Ho Hl. unfold encodeCopyOperation.
  assert (forall m, Z.testbit 128 m = (7 =? m)) as H128.
  { intros m. change 128 with (2 ^ 7). by rewrite Z.pow2_bits_eqb. }
  destruct (encodeFields_spec 0 4 0 offset 0x80 []) as (c & ob & He & Hf & Hc & Hs); [lia..| |].
  { intros m Hm. rewrite H128. ztest (7 =? m) false. done. }
  change (2 ^ 0) with 0x01 in He. rewrite He. simpl (_ ++ _).
  destruct (encodeFields_spec 4 3 0 length c ob) as (c' & sb & He' & Hf' & Hc' & Hs'); [lia..| |].
  { intros m Hm. rewrite Hs, H128 by lia. ztest (7 =? m) false. done. }
  change (2 ^ 4) with 0x10 in He'. rewrite He'.
  assert (128 <= c' < 256).
  { apply byte_of_bits; [done|..].
    - rewrite Hs', Hs, H128 by lia. done.
    - intros m Hm. rewrite Hs', Hs, H128 by lia. ztest (7 =? m) false. done. }
  rewrite wrap_small by lia. rewrite Z.div_1_r in Hf, Hf'.
  replace length with (if length =? 0 then 0x10000 else length) at 1
    by (destruct (Z.eqb_spec length 0); lia).
  apply copy_bytes; [done| |done].
  rewrite (flags_ext c' c); [done|]. intros m Hm. apply Hs'; lia.
Qed.

(** ** What a stretch of the body contributes *)

(** [body] is a well-formed sequence of operations over [src] that produces
    [out]. *)
Definition produces (src body out : bytes) : Prop :=
  exists ops, delta_body ops body /\ Forall (op_valid (len src)) ops /\ out = ops_result src ops.

Lemma delta_body_app ops1 b1 ops2 b2 :
  delta_body ops1 b1 -> delta_body ops2 b2 -> delta_body (ops1 ++ ops2) (b1 ++ b2).
Proof.
  induction 1 as [|op ops l rest Hop Hb IH]; [done|]. intros H2. rewrite <-app_assoc.
  simpl. constructor; auto.
Qed.

Lemma produces_nil src : produces src [] [].
Proof. exists []. split; [constructor|]. split; [constructor|done]. Qed.

Lemma produces_app src b1 o1 b2 o2 :
  produces src b1 o1 -> produces src b2 o2 -> produces src (b1 ++ b2) (o1 ++ o2).
Proof.
  intros (ops1 & Hb1 & Hv1 & ->) (ops2 & Hb2 & Hv2 & ->). exists (ops1 ++ ops2).
  split; [by apply delta_body_app|]. split; [by apply Forall_app|].
  unfold ops_result. by rewrite fmap_app, concat_app.
Qed.

Lemma produces_op src op l :
  op_bytes op l -> op_valid (len src) op -> produces src l (op_result src op).
Proof.
  intros Hl Hv. exists [op]. split; [|split; [by constructor|]].
  - rewrite <-(app_nil_r l). constructor; [done|constructor].
  - unfold ops_result. simpl. by rewrite app_nil_r.
Qed.

Lemma produces_insert src data :
  0 < len data < 128 -> produces src (len data :: data) data.
Proof. intros Hd. by apply (produces_op src (OpInsert data)); [constructor|]. Qed.

Lemma produces_copy src offset l :
  0 <= offset -> 0 < l <= maxCopySize -> offset + l <= len src -> len src <= 2 ^ 32 ->
  produces src (encodeCopyOperation offset l) (take (Z.to_nat l) (drop (Z.to_nat offset) src)).
Proof.
  unfold maxCopySize. intros Ho Hl Hs Hu.
  apply (produces_op src (OpCopy offset l)); [|simpl; lia].
  apply encodeCopyOperation_spec; lia.
Qed.

Lemma encodeInsertOperation_loop_spec src fuel b s o buf :
  0 <= o -> o + s = len b -> 0 < s -> s <= Z.of_nat fuel ->
  ensures (encodeInsertOperation_loop fuel b s o buf) (fun buf' =>
    exists l, buf' = buf ++ l /\ produces src l (drop (Z.to_nat o) b)).
Proof.
  revert s o buf. induction fuel as [|f IH]; intros s o buf Ho Hs Hpos Hf; [lia|].
  cbn [encodeInsertOperation_loop]. rewrite Z.gtb_ltb. destruct (Z.ltb_spec 127 s).
  - rewrite slice_Ok by lia. cbn [mbind outcome_bind].
    replace (o + 127 - o) with 127 by lia. set (chunk := take _ (drop _ b)).
    assert (len chunk = 127) as Hck by (subst chunk; len_lia).
    eapply ensures_weaken; [apply IH; lia|]. intros buf' (l & -> & Hl).
    exists ((127 :: chunk) ++ l). split; [by rewrite <-app_assoc|].
    replace (drop (Z.to_nat o) b) with (chunk ++ drop (Z.to_nat (o + 127)) b).
    + apply produces_app; [|done]. rewrite <-Hck. apply produces_insert. lia.
    + replace (Z.to_nat (o + 127)) with (Z.to_nat o + Z.to_nat 127)%nat by lia.
      rewrite <-drop_drop. apply take_drop.
  - rewrite slice_Ok by lia. cbn [mbind outcome_bind]. simpl.
    replace (o + s - o) with s by lia. set (chunk := take _ (drop _ b)).
    assert (chunk = drop (Z.to_nat o) b) as Hck.
    { subst chunk. apply take_ge. rewrite length_drop. unfold len in *. lia. }
    assert (len chunk = s) as Hlen by (rewrite Hck; len_lia).
    exists (s :: chunk). rewrite wrap_small by lia. split; [done|].
    rewrite <-Hck, <-Hlen at 1. apply produces_insert. lia.
Qed.

Lemma encodeInsertOperation_spec src ibuf buf :
  ensures (encodeInsertOperation ibuf buf) (fun '(ibuf', buf') =>
    ibuf' = [] /\ exists l, buf' = buf ++ l /\ produces src l ibuf).
Proof.
  unfold encodeInsertOperation. destruct (Z.eqb_spec (len ibuf) 0) as [Hz|Hz].
  - apply len_zero_nil in Hz as ->. simpl. split; [done|]. exists [].
    rewrite app_nil_r. split; [done|apply produces_nil].
  - run (encodeInsertOperation_loop_spec src) as buf'; [len_lia..|unfold len; lia|].
    intros (l & -> & Hl). simpl. split; [done|]. exists l. done.
Qed.

Lemma copy_loop_spec src fuel rl aOffset buf :
  0 <= aOffset -> 0 <= rl < Z.of_nat fuel -> aOffset + rl <= len src -> len src <= 2 ^ 32 ->
  ensures (copy_loop fuel rl aOffset buf) (fun buf' =>
    exists l, buf' = buf ++ l /\
      produces src l (take (Z.to_nat rl) (drop (Z.to_nat aOffset) src))).
Proof.
  revert rl aOffset buf. induction fuel as [|f IH]; intros rl o buf Ho Hf Hs Hu; [lia|].
  cbn [copy_loop]. rewrite Z.gtb_ltb. destruct (Z.ltb_spec 0 rl).
  - destruct (Z.ltb_spec rl maxCopySize) as [Hm|Hm].
    + simpl. eexists. split; [done|]. apply produces_copy; lia.
    + unfold maxCopySize in *.
      eapply ensures_weaken; [apply IH; lia|]. intros buf' (l & -> & Hl).
      eexists. split; [by rewrite <-app_assoc|].
      replace (Z.to_nat rl) with (Z.to_nat (64 * 1024) + Z.to_nat (rl - 64 * 1024))%nat by lia.
      rewrite <-take_take_drop, drop_drop.
      replace (Z.to_nat o + Z.to_nat (64 * 1024))%nat with (Z.to_nat (o + 64 * 1024)) by lia.
      apply produces_app; [|done]. apply produces_copy; unfold maxCopySize; lia.
  - simpl. exists []. rewrite app_nil_r. replace rl with 0 by lia. split; [done|]. apply produces_nil.
Qed.

Lemma write_bytes_spec n tgt j ibuf :
  0 <= j -> j + Z.of_nat n <= len tgt ->
  write_bytes n tgt j ibuf = Ok (ibuf ++ take n (drop (Z.to_nat j) tgt)).
Proof.
  revert j ibuf. induction n as [|n IH]; intros j ibuf Hj Hn; cbn [write_bytes].
  - by rewrite app_nil_r.
  - destruct (index_in_range (E := varint_error) tgt j) as (x & -> & Hx); [lia|].
    cbn [mbind outcome_bind]. rewrite IH by lia. rewrite <-app_assoc. do 2 f_equal.
    rewrite (drop_S _ _ _ Hx). simpl. by replace (Z.to_nat (j + 1)) with (S (Z.to_nat j)) by lia.
Qed.

Lemma take_extend (l : bytes) i n :
  0 <= i -> 0 <= n ->
  take (Z.to_nat (i + n)) l = take (Z.to_nat i) l ++ take (Z.to_nat n) (drop (Z.to_nat i) l).
Proof.
  intros Hi Hn. rewrite take_take_drop. f_equal. lia.
Qed.

(** Before position [i], the operations emitted and the pending insert produce
    the first [i] bytes of the target. *)
Lemma diffDelta_loop_spec src tgt idx fuel i ibuf buf body out :
  bytes_ok tgt -> index_ok src idx -> len src <= 2 ^ 32 ->
  0 <= i -> Z.max 0 (len tgt - i) < Z.of_nat fuel ->
  produces src body out -> out ++ ibuf = take (Z.to_nat i) tgt ->
  ensures (diffDelta_loop fuel idx src tgt i ibuf (buf ++ body)) (fun '(ibuf', buf') =>
    exists body' out', buf' = buf ++ body' /\ produces src body' out' /\ out' ++ ibuf' = tgt).
Proof.
  intros Hb Hidx Hu. revert i ibuf body out.
  induction fuel as [|f IH]; intros i ibuf body out Hi Hf Hp Hinv; [lia|].
  cbn [diffDelta_loop]. destruct (Z.ltb_spec i (len tgt)) as [Hlt|Hge].
  2:{ exists body, out. split; [done|]. split; [done|]. rewrite Hinv.
      apply take_ge. unfold len in *. lia. }
  destruct (ensures_inv _ _ (findMatch_ensures idx src tgt i Hb Hidx ltac:(lia)))
    as ([o l] & -> & Hm). cbn [lift map_err mbind outcome_bind].
  assert (forall n, 0 <= n -> out ++ ibuf ++ take (Z.to_nat n) (drop (Z.to_nat i) tgt)
            = take (Z.to_nat (i + n)) tgt) as Hext.
  { intros n Hn. rewrite app_assoc, Hinv. symmetry. by apply take_extend. }
  destruct (Z.eqb_spec l 0) as [->|Hl0].
  { pose proof (write_bytes_spec 1 tgt i ibuf ltac:(lia) ltac:(lia)) as Hw.
    cbn [write_bytes] in Hw. destruct (index tgt i) as [b|?| |] eqn:Hix; try discriminate Hw.
    cbn [mbind outcome_bind] in Hw |- *. injection Hw as Hw. rewrite Hw.
    eapply IH; [lia|lia|done|]. apply (Hext 1). lia. }
  destruct (Z.ltb_spec l 0) as [Hneg|Hnn].
  { rewrite write_bytes_spec by lia. cbn [mbind outcome_bind].
    eapply IH; [lia|lia|done|]. rewrite (Hext (len tgt - i)) by lia.
    rewrite !take_ge by (unfold len in *; lia). done. }
  assert (i + l <= len tgt) as Hil by (destruct Hm; lia).
  replace (i + (l - 1) + 1) with (i + l) by lia.
  destruct (Z.ltb_spec l s) as [Hs|Hs]; unfold s in Hs.
  { rewrite write_bytes_spec by lia. cbn [mbind outcome_bind].
    eapply IH; [lia|lia|done|]. apply Hext. lia. }
  destruct Hm as [Htail|?|?|o l Ho Hl Hsrc Htgt Heq]; try (unfold s in *; lia).
  run (encodeInsertOperation_spec src) as r. destruct r as [ib bf].
  intros (-> & ins & -> & Hins).
  run (copy_loop_spec src) as bf; [done|lia|done|done|]. intros (cp & -> & Hcp).
  rewrite <-!app_assoc. eapply (IH _ _ _ (out ++ ibuf ++ take (Z.to_nat l) (drop (Z.to_nat o) src)));
    [lia|lia| |].
  - apply produces_app; [done|]. by apply produces_app.
  - rewrite app_nil_r, Heq. apply Hext. lia.
Qed.

Lemma diffDelta_denotes idx src tgt :
  bytes_ok src -> bytes_ok tgt -> len src <= 2 ^ 32 -> len tgt < 2 ^ 63 ->
  idx = new_deltaIndex \/ index_ok src idx ->
  ensures (diffDelta idx src tgt) (fun '(delta, idx') =>
    delta_denotes src delta tgt /\ index_ok src idx').
Proof.
  intros Hbs Hbt Hs Ht Hidx. unfold diffDelta.
  run EncodeLEB128_size as hs; [pose proof (len_nonneg src); lia|]. intros [Hhs Hls].
  run EncodeLEB128_size as ht; [pose proof (len_nonneg tgt); lia|]. intros [Hht Hlt].
  eapply (ensures_bind _ _ (index_ok src)).
  { destruct Hidx as [->|Hok].
    - simpl. destruct (ensures_inv _ _ (deltaIndex_init_ensures src Hbs ltac:(lia))) as (i & -> & Hi).
      done.
    - destruct Hok as [Hne ???] eqn:?. ztest (len (di_entries idx) =? 0) false. done. }
  intros idx' Hok.
  rewrite <-(app_nil_r (hs ++ ht)).
  run (diffDelta_loop_spec src tgt idx' _ 0 [] (hs ++ ht) [] []) as r;
    [done|done|done|lia|unfold len; lia|apply produces_nil|done|].
  destruct r as [ib bf]. intros (body & out & -> & Hp & Htgt).
  run (encodeInsertOperation_spec src) as r. destruct r as [ib' bf]. intros (-> & ins & -> & Hins).
  simpl. split; [|done]. destruct (produces_app _ _ _ _ _ Hp Hins) as (ops & Hbody & Hv & Hout).
  exists hs, ht, (body ++ ins), ops. rewrite <-!app_assoc.
  do 6 (split; [done|]). by rewrite <-Hout.
Qed.

(** ** The delta patches the source to the target *)

Lemma le_fields_bytes_ok fl l v : le_fields fl l v -> bytes_ok l.
Proof. induction 1; [constructor|by apply bytes_ok_cons|done]. Qed.

Lemma delta_body_bytes_ok src ops body :
  delta_body ops body -> bytes_ok (ops_result src ops) -> bytes_ok body.
Proof.
  induction 1 as [|op ops l rest Hop Hb IH]; [constructor|]. rewrite ops_result_cons.
  rewrite !bytes_ok_app. intros [H1 H2]. split; [|auto].
  destruct Hop as [cmd ob sb offset n Hcmd Ho Hs|data Hd]; apply bytes_ok_cons; unfold is_byte.
  - split; [lia|]. apply bytes_ok_app. split; by eapply le_fields_bytes_ok.
  - split; [lia|done].
Qed.

Lemma delta_denotes_bytes_ok src delta tgt :
  delta_denotes src delta tgt -> bytes_ok tgt -> bytes_ok delta /\ 2 <= len delta.
Proof.
  intros (hs & ht & body & ops & -> & Hs & _ & Ht & _ & Hb & _ & ->) Hok.
  split.
  - rewrite !bytes_ok_app. split; [by eapply leb_size_bytes_ok|].
    split; [by eapply leb_size_bytes_ok|by eapply delta_body_bytes_ok].
  - apply leb_size_bound in Hs, Ht. len_lia.
Qed.

Lemma le_fields_len fl l v : le_fields fl l v -> len l <= len fl.
Proof. induction 1; len_lia. Qed.

Lemma op_bytes_len src op l : op_bytes op l -> op_valid (len src) op -> len l <= 8 * len (op_result src op).
Proof.
  intros [cmd ob sb offset n Hcmd Ho Hs|data Hd] Hv; cbn [op_result op_valid] in *.
  - pose proof (le_fields_bound _ _ _ Ho). pose proof (le_fields_bound _ _ _ Hs).
    apply le_fields_len in Ho, Hs. change (len (flags cmd 0 4)) with 4 in Ho. change (len (flags cmd 4 3)) with 3 in Hs.
    rewrite len_cons, len_app, len_take, len_drop. destruct (Z.eqb_spec n 0); lia.
  - rewrite len_cons. lia.
Qed.

Lemma delta_denotes_len src delta tgt : delta_denotes src delta tgt -> len delta <= 8 * len tgt + 18.
Proof.
  intros (hs & ht & body & ops & -> & _ & Hls & _ & Hlt & Hb & Hv & ->). rewrite !len_app.
  enough (len body <= 8 * len (ops_result src ops)) by lia.
  induction Hb as [|op ops l rest Hop Hb IH]; [done|]. apply Forall_cons in Hv as [Hv1 Hv].
  rewrite ops_result_cons, !len_app. pose proof (op_bytes_len src op l Hop Hv1). specialize (IH Hv). lia.
Qed.

Lemma diffDelta_patches idx src tgt :
  bytes_ok src -> bytes_ok tgt -> 0 < len src <= 2 ^ 32 -> len tgt < 2 ^ 63 ->
  idx = new_deltaIndex \/ index_ok src idx ->
  ensures (diffDelta idx src tgt) (fun '(delta, idx') =>
    bytes_ok delta /\ PatchDelta.PatchDelta src delta = Ok tgt /\ index_ok src idx' /\ len delta <= 8 * len tgt + 18).
Proof.
  intros Hbs Hbt Hs Ht Hidx. eapply ensures_weaken; [by apply diffDelta_denotes; (done || lia)|].
  intros [delta idx'] [Hd Hok]. destruct (delta_denotes_bytes_ok _ _ _ Hd Hbt) as [Hbd Hl].
  split; [done|]. split; [|split; [done|by eapply delta_denotes_len]]. unfold PatchDelta.PatchDelta, minDeltaSize.
  ztest (len src =? 0) false. ztest (len delta <? 2) false. simpl. by apply patchDelta_complete.
Qed.

(** C7: for a non-empty source of at most 4 GiB, [DiffDelta] always returns a
    delta (no slice or table access is out of range, every loop terminates),
    and [PatchDelta] applied to the source and that delta gives back exactly
    the target. *)
Theorem DiffDelta_patches src tgt :
  bytes_ok src -> bytes_ok tgt -> 0 < len src <= 2 ^ 32 -> len tgt < 2 ^ 63 ->
  exists delta, DiffDelta src tgt = Ok delta /\ bytes_ok delta /\
    PatchDelta.PatchDelta src delta = Ok tgt.
Proof.
  intros Hbs Hbt Hs Ht.
  destruct (ensures_inv _ _ (diffDelta_patches new_deltaIndex src tgt Hbs Hbt Hs Ht ltac:(by left)))
    as ([delta idx'] & Hd & Hok & Hp & _).
  exists delta. unfold DiffDelta. by rewrite Hd.
Qed.

Lemma DiffDelta_patches_witness :
  let src := bs "0123456789abcdefXYZ" in let tgt := bs "hi 0123456789abcdef!" in
  exists delta, DiffDelta src tgt = Ok delta /\ bytes_ok delta /\
    PatchDelta.PatchDelta src delta = Ok tgt.
Proof.
  intros src tgt. apply (DiffDelta_patches src tgt).
  - apply (bool_decide_unpack _). vm_compute. exact I.
  - apply (bool_decide_unpack _). vm_compute. exact I.
  - vm_compute. intuition congruence.
  - vm_compute. congruence.
Defined.

(** [getDelta], with a fresh index or one built before for the same base,
    never panics; when both objects can be read it returns an OFS-delta object
    whose declared size is its length and whose content patches the base to the
    target, together with the first error of closing the two readers (target
    first); when one cannot be read it returns no object and an error. *)
Theorem getDelta_correct {E} idx (base target : EncodedObject E) br tr :
  obj_Reader base = Ok br -> obj_Reader target = Ok tr ->
  match rd_contents br, rd_contents tr with
  | Ok src, Ok tgt =>
      bytes_ok src -> bytes_ok tgt -> 0 < len src <= 2 ^ 32 -> len tgt < 2 ^ 63 ->
      idx = new_deltaIndex \/ index_ok src idx ->
      exists delta, getDelta idx base target
        = Ok (Some {| mo_type := OFSDeltaObject; mo_cont := delta; mo_sz := len delta |},
              match rd_close tr with Some e => Some e | None => rd_close br end)
        /\ PatchDelta.PatchDelta src delta = Ok tgt
  | Err e, _ => getDelta idx base target = Ok (None, Some e)
  | Ok _, Err e => getDelta idx base target = Ok (None, Some e)
  | _, _ => True
  end.
Proof.
  intros Hb Ht. unfold getDelta. rewrite Hb, Ht. destruct br as [[src|e| |] bc]; simpl; try done;
    unfold CheckClose; simpl.
  - destruct tr as [[tgt|e| |] tc]; simpl; try done; [|by destruct tc, bc].
    intros Hbs Hbt Hs Htl Hidx.
    destruct (ensures_inv _ _ (diffDelta_patches idx src tgt Hbs Hbt Hs Htl Hidx))
      as ([delta idx'] & -> & Hok & Hp & _).
    exists delta. simpl. split; [|done]. by destruct tc, bc.
  - by destruct (rd_close tr), bc.
Qed.

Lemma getDelta_correct_witness :
  let br := {| rd_contents := Ok [7; 7]; rd_close := None |} in
  let tr := {| rd_contents := Ok [7; 9]; rd_close := Some 5 |} in
  exists delta, getDelta (E := Z) new_deltaIndex {| obj_Reader := Ok br |} {| obj_Reader := Ok tr |}
    = Ok (Some {| mo_type := 6; mo_cont := delta; mo_sz := len delta |}, Some 5)
    /\ PatchDelta.PatchDelta [7; 7] delta = Ok [7; 9].
Proof.
  intros br tr.
  refine (getDelta_correct new_deltaIndex {| obj_Reader := Ok br |} {| obj_Reader := Ok tr |}
            br tr eq_refl eq_refl _ _ _ _ _).
  - apply (bool_decide_unpack _). vm_compute. exact I.
  - apply (bool_decide_unpack _). vm_compute. exact I.
  - vm_compute. intuition congruence.
  - vm_compute. congruence.
  - by left.
Defined.
