(* ===== verification/Pktline.v ===== *)
(** * Packet lines: [plumbing/format/pktline]

    The framing of git's wire protocol: a four-digit hexadecimal length that
    counts itself, then the payload; the lengths 0, 1 and 2 are the flush,
    delimiter and response-end packets.  [length.go] is the length codec,
    [pktline.go] the reader and the writer, [scanner.go] the scanner and
    [error.go] the error packet.  Tracing ([maskPackDataTrace]) has no effect on
    the state and is left out. *)
From stdpp Require Import base list numbers option strings.
From Stdlib Require Import ZArith Lia.
From S2P Require Import Prelude.

Open Scope Z_scope.
#[local] Ltac Zify.zify_post_hook ::= Z.to_euclidean_division_equations.

(** ** Constants and errors *)

Definition Err_len : Z := -1.
Definition Flush : Z := 0.
Definition Delim : Z := 1.
Definition ResponseEnd : Z := 2.
Definition LenSize : Z := 4.
Definition MaxSize : Z := 65520.
Definition MaxPayloadSize : Z := MaxSize - LenSize.

Inductive pkt_error :=
  | ErrPayloadTooLong
  | ErrInvalidPktLen
  | ErrInvalidErrorLine
  | ErrNilWriter
  | ErrNilReader
  | ErrNilError
  | ErrorLine (Text : bytes)
  | ErrReader (e : ioerr)
  | ErrBufferFull
  | ErrShortWrite.

Definition flushPkt : bytes := bs "0000".
Definition delimPkt : bytes := bs "0001".
Definition responseEndPkt : bytes := bs "0002".
Definition emptyPkt : bytes := bs "0004".
Definition errPrefix : bytes := bs "ERR ".
Definition errPrefixSize : Z := LenSize.

(** ** The length codec *)

Definition asciiHexToByte (b : Z) : outcome pkt_error Z :=
  if (b >=? 48) && (b <=? 57) then mret (b - 48)
  else if (b >=? 97) && (b <=? 102) then mret (b - 97 + 10)
  else if (b >=? 65) && (b <=? 70) then mret (b - 65 + 10)
  else Err ErrInvalidPktLen.

(** [hexDecode] wraps the error of [asciiHexToByte] in [ErrInvalidPktLen]. *)
Fixpoint hexDecode_loop (n : nat) (buf : bytes) (i ret : Z) : outcome pkt_error Z :=
  match n with
  | O => mret ret
  | S n' =>
      b ← index buf i;
      d ← asciiHexToByte b;
      hexDecode_loop n' buf (i + 1) (16 * ret + d)
  end.

Definition hexDecode (buf : bytes) : outcome pkt_error Z :=
  if len buf <? 4 then Err ErrInvalidPktLen else hexDecode_loop 4 buf 0 0.

Definition byteToASCIIHex (n : Z) : Z := if n <? 10 then u8 (48 + n) else u8 (97 - 10 + n).

Definition asciiHex16 (n : Z) : bytes :=
  [byteToASCIIHex (u8 (Z.shiftr (Z.land n 0xf000) 12));
   byteToASCIIHex (u8 (Z.shiftr (Z.land n 0x0f00) 8));
   byteToASCIIHex (u8 (Z.shiftr (Z.land n 0x00f0) 4));
   byteToASCIIHex (u8 (Z.land n 0x000f))].

(** [None] is the nil slice. *)
Definition ParseLength (b : option bytes) : outcome pkt_error Z :=
  match b with
  | None => Err ErrInvalidPktLen
  | Some b =>
      n ← hexDecode b;
      if n =? 3 then Err ErrInvalidPktLen
      else if n >? MaxSize then Err ErrInvalidPktLen
      else mret n
  end.

(** ** Writers

    An [io.Writer] holds what was written so far and the number of bytes it
    still accepts; a write past that stores what fits and returns an error, as
    the [io.Writer] contract asks. *)
Record writer := { w_out : bytes; w_room : option Z }.

Definition buffer (out : bytes) : writer := {| w_out := out; w_room := None |}.

Definition w_Write (w : writer) (p : bytes) : Z * option pkt_error * writer :=
  match w_room w with
  | None => (len p, None, {| w_out := w_out w ++ p; w_room := None |})
  | Some r =>
      if len p <=? r then (len p, None, {| w_out := w_out w ++ p; w_room := Some (r - len p) |})
      else (Z.max 0 r, Some ErrShortWrite, {| w_out := w_out w ++ take (Z.to_nat r) p; w_room := Some 0 |})
  end.

(** [Write] on a non-nil writer; [None] below is the nil interface. *)
Definition Write (w : option writer) (p : bytes) : Z * option pkt_error * option writer :=
  match w with
  | None => (0, Some ErrNilWriter, None)
  | Some w =>
      if len p =? 0 then let '(n, err, w) := w_Write w emptyPkt in (n, err, Some w)
      else if len p >? MaxPayloadSize then (0, Some ErrPayloadTooLong, Some w)
      else
        let pktlen := len p + LenSize in
        let '(n, err, w) := w_Write w (asciiHex16 pktlen) in
        match err with
        | Some e => (n, Some e, Some w)
        | None =>
            let '(n2, err, w) := w_Write w p in
            (n + n2, err, Some w)
        end
  end.

Definition Writeln (w : option writer) (s : bytes) : Z * option pkt_error * option writer :=
  Write w (s ++ [10]).

Definition WriteString (w : option writer) (s : bytes) : Z * option pkt_error * option writer :=
  Write w s.

(** The error to write is its message; [Writef] formats ["%s%s\n"]. *)
Definition WriteError (w : option writer) (e : option bytes) : Z * option pkt_error * option writer :=
  match w with
  | None => (0, Some ErrNilWriter, None)
  | Some _ =>
      match e with
      | None => (0, Some ErrNilError, w)
      | Some text => Write w (errPrefix ++ text ++ [10])
      end
  end.

Definition write_special (pkt : bytes) (w : option writer) : option pkt_error * option writer :=
  match w with
  | None => (Some ErrNilWriter, None)
  | Some w => let '(_, err, w) := w_Write w pkt in (err, Some w)
  end.

Definition WriteFlush := write_special flushPkt.
Definition WriteDelim := write_special delimPkt.
Definition WriteResponseEnd := write_special responseEndPkt.

(** ** Text functions of the standard library *)

(** The UTF-8 encodings of the code points for which [unicode.IsSpace] holds. *)
Definition spaces : list bytes :=
  [[9]; [10]; [11]; [12]; [13]; [32]; [0xc2; 0x85]; [0xc2; 0xa0]; [0xe1; 0x9a; 0x80]]
  ++ ((fun x => [0xe2; 0x80; 0x80 + Z.of_nat x]) <$> seq 0 11)
  ++ [[0xe2; 0x80; 0xa8]; [0xe2; 0x80; 0xa9]; [0xe2; 0x80; 0xaf]; [0xe2; 0x81; 0x9f];
      [0xe3; 0x80; 0x80]].

Definition space_prefix (sp : list bytes) (l : bytes) : option bytes := List.find (HasPrefix l) sp.

Fixpoint trim (sp : list bytes) (fuel : nat) (l : bytes) : bytes :=
  match fuel with
  | O => l
  | S f => match space_prefix sp l with
           | Some p => trim sp f (drop (length p) l)
           | None => l
           end
  end.

(** [bytes.TrimSpace]. *)
Definition TrimSpace (l : bytes) : bytes :=
  let l := trim spaces (length l) l in
  reverse (trim (reverse <$> spaces) (length l) (reverse l)).

(** ** Reading *)

(** [io.ReadFull(r, buf)]: the count, the error, the buffer and the reader
    afterwards. *)
Definition io_ReadFull (r buf : bytes) : option ioerr * bytes * bytes :=
  let n := Z.to_nat (Z.min (len buf) (len r)) in
  (if len buf <=? len r then None
   else if len r =? 0 then Some EOF else Some ErrUnexpectedEOF,
   take n r ++ drop n buf, drop n r).

(** The part [p[i:j]] of a buffer replaced by [q]. *)
Definition splice (p : bytes) (i j : Z) (q : bytes) : bytes :=
  take (Z.to_nat i) p ++ q ++ drop (Z.to_nat j) p.

Record read_result := {
  rr_len : Z;
  rr_err : option pkt_error;
  rr_buf : bytes;     (* [p] afterwards *)
  rr_reader : bytes;  (* the bytes left in [r] *)
}.

Definition Read (r : option bytes) (p : bytes) : outcome pkt_error read_result :=
  match r with
  | None => mret {| rr_len := Err_len; rr_err := Some ErrNilReader; rr_buf := p; rr_reader := [] |}
  | Some r =>
      if len p <? LenSize then
        mret {| rr_len := Err_len; rr_err := Some ErrInvalidPktLen; rr_buf := p; rr_reader := r |}
      else
        head ← slice p 0 LenSize;
        let '(err, head, r) := io_ReadFull r head in
        let p := splice p 0 LenSize head in
        match err with
        | Some e =>
            mret {| rr_len := Err_len;
                    rr_err := Some (match e with
                                    | ErrUnexpectedEOF => ErrInvalidPktLen
                                    | EOF => ErrReader EOF end);
                    rr_buf := p; rr_reader := r |}
        | None =>
            match ParseLength (Some p) with
            | Err e => mret {| rr_len := Err_len; rr_err := Some e; rr_buf := p; rr_reader := r |}
            | Panic => Panic
            | NoFuel => NoFuel
            | Ok length =>
                if (length =? Flush) || (length =? Delim) || (length =? ResponseEnd)
                   || (length =? LenSize) then
                  mret {| rr_len := length; rr_err := None; rr_buf := p; rr_reader := r |}
                else if length >? len p then
                  (* [io.CopyN(io.Discard, r, length-LenSize)] *)
                  mret {| rr_len := Err_len; rr_err := Some (ErrReader ErrUnexpectedEOF); rr_buf := p;
                          rr_reader := drop (Z.to_nat (length - LenSize)) r |}
                else
                  body ← slice p LenSize length;
                  let '(err, body, r) := io_ReadFull r body in
                  let p := splice p LenSize length body in
                  match err with
                  | Some e =>
                      mret {| rr_len := Err_len; rr_err := Some (ErrReader e); rr_buf := p; rr_reader := r |}
                  | None =>
                      payload ← slice p LenSize length;
                      err ← if HasPrefix payload errPrefix then
                              text ← slice p (LenSize + errPrefixSize) length;
                              mret (Some (ErrorLine (TrimSpace text)))
                            else mret None;
                      mret {| rr_len := length; rr_err := err; rr_buf := p; rr_reader := r |}
                  end
            end
        end
  end.

(** The pooled buffer has [MaxSize] bytes with arbitrary contents [pool]. *)
Definition ReadLine (pool : bytes) (r : option bytes)
    : outcome pkt_error (Z * option bytes * option pkt_error * bytes) :=
  res ← Read r pool;
  if rr_len res <? LenSize then mret (rr_len res, None, rr_err res, rr_reader res)
  else
    clone ← slice (rr_buf res) LenSize (rr_len res);
    mret (rr_len res, Some clone, rr_err res, rr_reader res).

(** [bufio.Reader.Peek] on a reader with a buffer of [cap] bytes. *)
Definition Peek (cap : Z) (r : bytes) (n : Z) : outcome pkt_error bytes :=
  if n >? cap then Err ErrBufferFull
  else if len r <? n then Err (ErrReader EOF)
  else Ok (take (Z.to_nat n) r).

Definition PeekLine (cap : Z) (r : option bytes)
    : outcome pkt_error (Z * option bytes * option pkt_error) :=
  match r with
  | None => mret (Err_len, None, Some ErrNilReader)
  | Some r =>
      match Peek cap r LenSize with
      | Panic => Panic | NoFuel => NoFuel
      | Err e => mret (Err_len, None, Some e)
      | Ok n =>
          match ParseLength (Some n) with
          | Panic => Panic | NoFuel => NoFuel
          | Err e => mret (Err_len, None, Some e)
          | Ok length =>
              if (length =? Flush) || (length =? Delim) || (length =? ResponseEnd)
              then mret (length, None, None)
              else if length =? LenSize then mret (length, Some [], None)
              else
                match Peek cap r length with
                | Panic => Panic | NoFuel => NoFuel
                | Err e => mret (Err_len, None, Some e)
                | Ok data =>
                    buf ← slice data LenSize length;
                    err ← if HasPrefix buf errPrefix then
                            text ← slice buf errPrefixSize (len buf);
                            mret (Some (ErrorLine (TrimSpace text)))
                          else mret None;
                    mret (length, Some buf, err)
                end
          end
      end
  end.

(** [ErrorLine.Encode] and [ErrorLine.Decode]. *)
Definition ErrorLine_Encode (text : bytes) (w : option writer) : option pkt_error * option writer :=
  let '(_, err, w) := Write w (errPrefix ++ text ++ [10]) in (err, w).

Definition ErrorLine_Decode (pool : bytes) (r : option bytes) : outcome pkt_error bytes :=
  '(_, _, err, _) ← ReadLine pool r;
  match err with
  | Some (ErrorLine text) => mret text
  | _ => Err ErrInvalidErrorLine
  end.

(** ** The scanner *)

Record Scanner := { s_r : option bytes; s_err : option pkt_error; s_buf : bytes; s_n : Z }.

Definition NewScanner (r : option bytes) : Scanner :=
  {| s_r := r; s_err := None; s_buf := replicate (Z.to_nat MaxSize) 0; s_n := 0 |}.

Definition Scan (s : Scanner) : outcome pkt_error (bool * Scanner) :=
  match s_r s with
  | None => mret (false, s)
  | Some r =>
      res ← Read (Some r) (s_buf s);
      let s := {| s_r := Some (rr_reader res); s_err := rr_err res; s_buf := rr_buf res;
                  s_n := rr_len res |} in
      match s_err s with
      | Some (ErrReader EOF) =>
          mret (false, {| s_r := s_r s; s_err := None; s_buf := s_buf s; s_n := s_n s |})
      | Some _ => mret (false, s)
      | None => mret (true, s)
      end
  end.

Definition Bytes (s : Scanner) : outcome pkt_error (option bytes) :=
  if s_n s >=? LenSize then b ← slice (s_buf s) LenSize (s_n s); mret (Some b)
  else mret None.

Example read_flush_then_data :
  ReadLine (replicate (Z.to_nat MaxSize) 0) (Some (bs "0009hello0000")) =
  Ok (9, Some (bs "hello"), None, bs "0000").
Proof. vm_compute. reflexivity. Qed.

Example read_error_line :
  ReadLine (replicate (Z.to_nat MaxSize) 0) (Some (bs "000cERR no  ")) =
  Ok (12, Some (bs "ERR no  "), Some (ErrorLine (bs "no")), []).
Proof. vm_compute. reflexivity. Qed.

(** ** The length codec is correct *)

Lemma asciiHexToByte_returns b : returns (asciiHexToByte b).
Proof. unfold asciiHexToByte. repeat case_match; done. Qed.

Lemma asciiHexToByte_bound b d : asciiHexToByte b = Ok d -> 0 <= d < 16.
Proof.
  unfold asciiHexToByte. repeat case_match; intros [= <-]; zbool; lia.
Qed.

Lemma hex_digit d : 0 <= d < 16 -> asciiHexToByte (byteToASCIIHex d) = Ok d.
Proof.
  intros Hd.
  assert (forallb (fun d => match asciiHexToByte (byteToASCIIHex d) with
    | Ok d' => d' =? d | _ => false end) (Z.of_nat <$> seq 0 16) = true) as Hall by done.
  rewrite forallb_forall in Hall. specialize (Hall d).
  assert (In d (Z.of_nat <$> seq 0 16)) as Hin.
  { apply list_elem_of_In, list_elem_of_fmap. exists (Z.to_nat d). rewrite elem_of_seq. lia. }
  specialize (Hall Hin). destruct (asciiHexToByte (byteToASCIIHex d)); try discriminate.
  by apply Z.eqb_eq in Hall as ->.
Qed.

(** The digits of a length, most significant first. *)
Lemma asciiHex16_digits n :
  0 <= n < 65536 ->
  asciiHex16 n = byteToASCIIHex <$> [n `div` 4096; (n `div` 256) `mod` 16; (n `div` 16) `mod` 16; n `mod` 16].
Proof.
  intros Hn. unfold asciiHex16.
  assert (forall k, 0 <= k -> Z.shiftr (Z.land n (Z.shiftl 15 k)) k = (n `div` 2 ^ k) `mod` 16) as Hk.
  { intros k Hk. rewrite Z.shiftr_land, Z.shiftr_shiftl_l, Z.sub_diag, Z.shiftl_0_r by lia.
    change 15 with (Z.ones 4). rewrite Z.land_ones, Z.shiftr_div_pow2 by lia. done. }
  change 0xf000 with (Z.shiftl 15 12). change 0x0f00 with (Z.shiftl 15 8).
  change 0x00f0 with (Z.shiftl 15 4).
  rewrite !Hk by lia. change (Z.land n 0x000f) with (Z.land n (Z.ones 4)).
  rewrite Z.land_ones by lia. rewrite !wrap_small by lia. cbn [fmap list_fmap].
  change (2 ^ 12) with 4096. change (2 ^ 8) with 256. change (2 ^ 4) with 16.
  by replace ((n `div` 4096) `mod` 16) with (n `div` 4096) by lia.
Qed.

Lemma asciiHex16_len n : len (asciiHex16 n) = 4.
Proof. done. Qed.

Lemma hexDecode_cons4 a b c d x :
  hexDecode (a :: b :: c :: d :: x) =
  (a ← asciiHexToByte a; b ← asciiHexToByte b; c ← asciiHexToByte c; d ← asciiHexToByte d;
   mret (16 * (16 * (16 * (16 * 0 + a) + b) + c) + d)).
Proof.
  unfold hexDecode. rewrite !len_cons. pose proof (len_nonneg x).
  ztest (1 + (1 + (1 + (1 + len x))) <? 4) false. reflexivity.
Qed.

Lemma hexDecode_asciiHex16 n rest : 0 <= n < 65536 -> hexDecode (asciiHex16 n ++ rest) = Ok n.
Proof.
  intros Hn. rewrite asciiHex16_digits by done. cbn [fmap list_fmap app].
  rewrite hexDecode_cons4, !hex_digit by lia. cbn [mbind outcome_bind]. unfold mret, outcome_ret.
  f_equal. lia.
Qed.

Lemma ParseLength_app a b c d x : ParseLength (Some (a :: b :: c :: d :: x)) = ParseLength (Some [a; b; c; d]).
Proof. unfold ParseLength. by rewrite !hexDecode_cons4. Qed.

(** The lengths a header can announce. *)
Definition valid_length (n : Z) : Prop := n = Flush \/ n = Delim \/ n = ResponseEnd \/ LenSize <= n <= MaxSize.

Lemma ParseLength_cases a b c d :
  (exists e, ParseLength (Some [a; b; c; d]) = Err e) \/
  exists n, ParseLength (Some [a; b; c; d]) = Ok n /\ valid_length n.
Proof.
  unfold ParseLength. rewrite hexDecode_cons4.
  assert (forall x, (exists e, asciiHexToByte x = Err e) \/ exists y, asciiHexToByte x = Ok y /\ 0 <= y)
    as Hdig.
  { intros x. pose proof (asciiHexToByte_returns x). destruct (asciiHexToByte x) eqn:Hx; try done.
    - right. apply asciiHexToByte_bound in Hx. eexists. split; [done|lia].
    - left. eauto. }
  destruct (Hdig a) as [[e ->]|(a' & -> & Ha)]; [left; eauto|].
  destruct (Hdig b) as [[e ->]|(b' & -> & Hb)]; [left; eauto|].
  destruct (Hdig c) as [[e ->]|(c' & -> & Hc)]; [left; eauto|].
  destruct (Hdig d) as [[e ->]|(d' & -> & Hd)]; [left; eauto|].
  cbn [mbind outcome_bind mret outcome_ret].
  set (n := 16 * _ + d'). unfold MaxSize.
  destruct (Z.eqb_spec n 3); [left; eauto|].
  destruct (Z.gtb_spec n 65520); [left; eauto|].
  right. exists n. split; [done|]. assert (0 <= n) by (subst n; lia).
  unfold valid_length, Flush, Delim, ResponseEnd, LenSize, MaxSize. lia.
Qed.

Lemma ParseLength_data n rest :
  LenSize <= n <= MaxSize -> ParseLength (Some (asciiHex16 n ++ rest)) = Ok n.
Proof.
  unfold LenSize, MaxSize. intros Hn. unfold ParseLength. rewrite hexDecode_asciiHex16 by lia.
  cbn [mbind outcome_bind]. unfold MaxSize. rewrite Z.gtb_ltb. ztest (n =? 3) false. ztest (65520 <? n) false. done.
Qed.

(** ** What [Read] does, case by case *)

Definition line_error (payload : bytes) : option pkt_error :=
  if HasPrefix payload errPrefix then Some (ErrorLine (TrimSpace (drop 4 payload))) else None.

(** The specification of [Read] on a reader holding [r] and a buffer [p] of at
    least four bytes: a short header, a bad header, a packet without payload, a
    packet too large for the buffer (skipped), a truncated payload, a packet. *)
Definition read_spec (r p : bytes) : read_result :=
  let body := drop 4 r in
  let p1 := take 4 r ++ drop (length (take 4 r)) p in
  let fail e rest := {| rr_len := Err_len; rr_err := Some e; rr_buf := p1; rr_reader := rest |} in
  if len r =? 0 then fail (ErrReader EOF) []
  else if len r <? 4 then fail ErrInvalidPktLen []
  else match ParseLength (Some (take 4 r)) with
  | Ok n =>
      if n <=? 4 then {| rr_len := n; rr_err := None; rr_buf := p1; rr_reader := body |}
      else if n >? len p then fail (ErrReader ErrUnexpectedEOF) (drop (Z.to_nat (n - 4)) body)
      else if len body <? n - 4 then
        {| rr_len := Err_len;
           rr_err := Some (ErrReader (if len body =? 0 then EOF else ErrUnexpectedEOF));
           rr_buf := r ++ drop (length r) p; rr_reader := [] |}
      else
        {| rr_len := n; rr_err := line_error (take (Z.to_nat (n - 4)) body);
           rr_buf := take (Z.to_nat n) r ++ drop (Z.to_nat n) p;
           rr_reader := drop (Z.to_nat (n - 4)) body |}
  | Err e => fail e body
  | Panic | NoFuel => fail ErrInvalidPktLen body
  end.

Lemma list_split4 (r : bytes) : 4 <= len r -> exists a b c d r', r = [a; b; c; d] ++ r'.
Proof.
  destruct r as [|a [|b [|c [|d r']]]]; rewrite ?len_cons, ?len_nil; try lia.
  intros _. by exists a, b, c, d, r'.
Qed.

Lemma io_ReadFull_ok r buf :
  len buf <= len r -> io_ReadFull r buf = (None, take (length buf) r, drop (length buf) r).
Proof.
  intros H. unfold io_ReadFull. ztest (len buf <=? len r) true.
  rewrite Z.min_l by done. unfold len. rewrite Nat2Z.id.
  by rewrite drop_all, app_nil_r.
Qed.

Lemma io_ReadFull_short r buf :
  len r < len buf ->
  io_ReadFull r buf = (Some (if len r =? 0 then EOF else ErrUnexpectedEOF),
                       r ++ drop (length r) buf, []).
Proof.
  intros H. unfold io_ReadFull. ztest (len buf <=? len r) false.
  rewrite Z.min_r by lia. unfold len at 2 3 4. rewrite !Nat2Z.id, firstn_all, drop_all.
  by destruct (len r =? 0).
Qed.

Lemma Read_short r p :
  4 <= len p -> len r < 4 -> Read (Some r) p = Ok (read_spec r p).
Proof.
  intros Hp Hr. destruct (list_split4 p Hp) as (a & b & c & d & p' & ->).
  unfold Read, read_spec, LenSize. ztest (len ([a; b; c; d] ++ p') <? 4) false.
  rewrite slice_Ok by lia. cbn [mbind outcome_bind].
  change (take (Z.to_nat (4 - 0)) (drop (Z.to_nat 0) ([a; b; c; d] ++ p'))) with [a; b; c; d].
  rewrite io_ReadFull_short by done. cbn [app]. unfold splice.
  ztest (len r <? 4) true.
  assert (length r <= 3)%nat as Hl by (unfold len in Hr; lia).
  change (drop (Z.to_nat 4) (a :: b :: c :: d :: p')) with p'. cbn [take app Z.to_nat].
  rewrite (take_ge r 4) by lia. rewrite <-app_assoc.
  replace (drop (length r) [a; b; c; d] ++ p') with (drop (length r) (a :: b :: c :: d :: p')).
  - by destruct (len r =? 0).
  - change (a :: b :: c :: d :: p') with ([a; b; c; d] ++ p').
    rewrite drop_app_le by (simpl; lia). done.
Qed.

Lemma splice_head (h x : bytes) p' :
  length h = 4%nat -> splice (h ++ p') 0 4 x = x ++ p'.
Proof.
  intros Hh. unfold splice. simpl (take _ _). change (Z.to_nat 4) with 4%nat.
  by rewrite drop_app_length' by done.
Qed.

Lemma Read_long r p :
  4 <= len p -> 4 <= len r -> Read (Some r) p = Ok (read_spec r p).
Proof.
  intros Hp Hr. destruct (list_split4 p Hp) as (pa & pb & pc & pd & p' & ->).
  destruct (list_split4 r Hr) as (a & b & c & d & r' & ->).
  unfold Read, read_spec, LenSize. ztest (len ([pa; pb; pc; pd] ++ p') <? 4) false.
  ztest (len ([a; b; c; d] ++ r') =? 0) false. ztest (len ([a; b; c; d] ++ r') <? 4) false.
  rewrite slice_Ok by lia. cbn [mbind outcome_bind].
  change (take (Z.to_nat (4 - 0)) (drop (Z.to_nat 0) ([pa; pb; pc; pd] ++ p'))) with [pa; pb; pc; pd].
  rewrite io_ReadFull_ok by (simpl; len_lia).
  change (take (length [pa; pb; pc; pd]) ([a; b; c; d] ++ r')) with [a; b; c; d].
  change (drop (length [pa; pb; pc; pd]) ([a; b; c; d] ++ r')) with r'.
  change (take 4 ([a; b; c; d] ++ r')) with [a; b; c; d].
  change (drop 4 ([a; b; c; d] ++ r')) with r'.
  change (drop (length [a; b; c; d]) ([pa; pb; pc; pd] ++ p')) with p'.
  rewrite splice_head by done. cbn [app]. rewrite ParseLength_app.
  destruct (ParseLength_cases a b c d) as [[e ->]|(n & -> & Hn)]; [done|].
  unfold valid_length, Flush, Delim, ResponseEnd, LenSize in *.
  destruct (Z.leb_spec n 4) as [Hn4|Hn4].
  { by replace ((n =? 0) || (n =? 1) || (n =? 2) || (n =? 4)) with true
      by (destruct Hn as [->|[->|[->|?]]]; [done..|assert (n = 4) as -> by lia; done]). }
  replace ((n =? 0) || (n =? 1) || (n =? 2) || (n =? 4)) with false
    by (symmetry; ztest (n =? 0) false; ztest (n =? 1) false; ztest (n =? 2) false; ztest (n =? 4) false; done).
  assert (len (pa :: pb :: pc :: pd :: p') = 4 + len p') as Hlp by (rewrite !len_cons; lia).
  assert (len (a :: b :: c :: d :: p') = 4 + len p') as Hlp' by (rewrite !len_cons; lia).
  rewrite Hlp, Hlp'. destruct (Z.gtb_spec n (4 + len p')) as [Hbig|Hfit]; [done|].
  rewrite slice_Ok by lia. cbn [mbind outcome_bind].
  change (drop (Z.to_nat 4) (a :: b :: c :: d :: p')) with p'.
  set (k := Z.to_nat (n - 4)). assert (length (take k p') = k) as Hk
    by (rewrite length_take; unfold len in *; lia).
  assert (len (take k p') = n - 4) as HkZ by (unfold len; rewrite Hk; lia).
  assert (Z.to_nat n = (4 + k)%nat) as Hnk by lia.
  assert (forall q, splice (a :: b :: c :: d :: p') 4 n q = [a; b; c; d] ++ q ++ drop k p') as Hsp.
  { intros q. unfold splice. rewrite Hnk. done. }
  destruct (Z.ltb_spec (len r') (n - 4)) as [Hs|Hs].
  - rewrite io_ReadFull_short by lia. rewrite Hsp. f_equal.
    rewrite <-app_assoc. rewrite <-(take_drop k p') at 3.
    cbn [length drop].
    rewrite drop_app_le by (rewrite Hk; unfold len in *; lia). by destruct (len r' =? 0).
  - rewrite io_ReadFull_ok by lia. rewrite Hsp, Hk.
    set (pay := take k r').
    assert (length pay = k) as Hpay by (subst pay; rewrite length_take; unfold len in *; lia).
    assert (len pay = n - 4) as HpayZ by (unfold len; rewrite Hpay; lia).
    assert (forall i, 0 <= i <= n - 4 -> slice (E := pkt_error) ([a; b; c; d] ++ pay ++ drop k p') (4 + i) n
              = Ok (drop (Z.to_nat i) pay)) as Hsl.
    { intros i Hi. rewrite slice_Ok by len_lia. f_equal.
      rewrite Z2Nat.inj_add by lia. change (Z.to_nat 4) with 4%nat. cbn [app plus drop].
      rewrite drop_app_le by lia. rewrite take_app_length'; [done|].
      rewrite length_drop. lia. }
    pose proof (Hsl 0 ltac:(lia)) as H0. change (4 + 0) with 4 in H0. rewrite H0.
    cbn [mbind outcome_bind]. change (drop (Z.to_nat 0) pay) with pay. unfold line_error.
    destruct (HasPrefix pay errPrefix) eqn:Hpre.
    + apply HasPrefix_spec in Hpre as [q Hq].
      unfold errPrefixSize, LenSize. rewrite Hsl.
      * cbn [mbind outcome_bind mret outcome_ret]. rewrite Hnk. done.
      * split; [lia|]. rewrite <-HpayZ, Hq, len_app. change (len errPrefix) with 4. len_lia.
    + cbn [mbind outcome_bind mret outcome_ret]. rewrite Hnk. done.
Qed.

Lemma Read_eq r p : 4 <= len p -> Read (Some r) p = Ok (read_spec r p).
Proof.
  intros Hp. destruct (Z.lt_ge_cases (len r) 4); [by apply Read_short|by apply Read_long].
Qed.

(** What [Read] yields for a complete packet of announced length [n]. *)
Lemma Read_packet h n pay rest p :
  len h = 4 -> ParseLength (Some h) = Ok n -> len pay = Z.max 0 (n - 4) -> 4 <= len p ->
  Read (Some (h ++ pay ++ rest)) p = Ok
    {| rr_len := if n <=? len p then n else Err_len;
       rr_err := if n <=? len p then (if n <=? 4 then None else line_error pay)
                 else Some (ErrReader ErrUnexpectedEOF);
       rr_buf := if (4 <? n) && (n <=? len p)
                 then h ++ pay ++ drop (Z.to_nat n) p else h ++ drop 4 p;
       rr_reader := rest |}.
Proof.
  intros Hh Hn Hpay Hp. rewrite Read_eq by done. f_equal. unfold read_spec.
  rewrite !len_app. pose proof (len_nonneg pay). pose proof (len_nonneg rest).
  ztest (len h + (len pay + len rest) =? 0) false. ztest (len h + (len pay + len rest) <? 4) false.
  assert (length h = 4%nat) as Hl by (unfold len in Hh; lia).
  rewrite (take_app_length' h _ 4), (drop_app_length' h _ 4) by done. rewrite Hn, Hl.
  destruct (Z.leb_spec n 4) as [H4|H4].
  { ztest (n <=? len p) true. ztest (4 <? n) false. cbn [andb].
    by rewrite (len_zero_nil pay) by lia. }
  assert (length pay = Z.to_nat (n - 4)) as Hlp by (unfold len in Hpay; lia).
  rewrite Z.gtb_ltb. ztest (4 <? n) true. cbn [andb].
  destruct (Z.ltb_spec (len p) n).
  - ztest (n <=? len p) false. by rewrite drop_app_length' by done.
  - ztest (n <=? len p) true. rewrite len_app. ztest (len pay + len rest <? n - 4) false.
    rewrite (take_app_length' pay), (drop_app_length' pay) by done. f_equal.
    replace (Z.to_nat n) with (length (h ++ pay)) at 1 by (rewrite length_app; lia).
    by rewrite (app_assoc h pay rest), take_app_length, <-app_assoc.
Qed.

Lemma read_spec_consumes r p :
  4 <= len p ->
  exists used, r = used ++ rr_reader (read_spec r p) /\ len (rr_buf (read_spec r p)) = len p.
Proof.
  intros Hp. unfold read_spec.
  assert (len (take 4 r ++ drop (length (take 4 r)) p) = len p) as Hbuf.
  { rewrite len_app, len_drop, len_take. fold (len (take 4 r)).
    change (Z.of_nat (length (take 4 r))) with (len (take 4 r)). rewrite len_take.
    pose proof (len_nonneg r). lia. }
  pose proof (take_drop 4 r) as Htd.
  destruct (Z.eqb_spec (len r) 0) as [_|_].
  { exists r. cbn. by rewrite app_nil_r. }
  destruct (Z.ltb_spec (len r) 4) as [Hs|Hl].
  { exists r. cbn. by rewrite app_nil_r. }
  destruct (list_split4 r Hl) as (a & b & c & d & r' & ->).
  change (take 4 ([a; b; c; d] ++ r')) with [a; b; c; d] in *.
  change (drop 4 ([a; b; c; d] ++ r')) with r' in *.
  destruct (ParseLength_cases a b c d) as [[e ->]|(n & -> & Hn)].
  { exists [a; b; c; d]. done. }
  destruct (Z.leb_spec n 4).
  { exists [a; b; c; d]. done. }
  destruct (Z.gtb_spec n (len p)).
  { exists ([a; b; c; d] ++ take (Z.to_nat (n - 4)) r').
    rewrite <-app_assoc. cbn [rr_reader]. by rewrite take_drop. }
  destruct (Z.ltb_spec (len r') (n - 4)).
  { exists ([a; b; c; d] ++ r'). cbn [rr_reader rr_buf].
    rewrite app_nil_r. split; [done|]. rewrite len_app, len_drop.
    change (Z.of_nat (length ([a; b; c; d] ++ r'))) with (len ([a; b; c; d] ++ r')).
    rewrite len_app. change (len [a; b; c; d]) with 4. pose proof (len_nonneg r'). lia. }
  exists ([a; b; c; d] ++ take (Z.to_nat (n - 4)) r').
  cbn [rr_reader rr_buf]. rewrite <-app_assoc, take_drop. split; [done|].
  rewrite len_app, len_take, len_drop, len_app. change (len [a; b; c; d]) with 4.
  pose proof (len_nonneg r'). lia.
Qed.

(** [Read] stays in sync with the stream.  It never panics and consumes a
    prefix of its input.  Given a complete packet it leaves the reader exactly
    after the packet, also when the buffer is too small to hold it; it returns
    the announced length when the packet fits and [io.ErrUnexpectedEOF]
    otherwise. *)
Theorem Read_in_sync r p :
  LenSize <= len p ->
  (exists res used, Read (Some r) p = Ok res /\ r = used ++ rr_reader res
     /\ len (rr_buf res) = len p) /\
  forall h n pay rest, r = h ++ pay ++ rest -> len h = LenSize -> ParseLength (Some h) = Ok n ->
    len pay = Z.max 0 (n - LenSize) ->
    exists res, Read (Some r) p = Ok res /\ rr_reader res = rest /\
      (n <= len p -> rr_len res = n) /\
      (len p < n -> rr_len res = Err_len /\ rr_err res = Some (ErrReader ErrUnexpectedEOF)).
Proof.
  unfold LenSize. intros Hp. split.
  - rewrite Read_eq by done. destruct (read_spec_consumes r p Hp) as (used & Hu & Hb). eauto.
  - intros h n pay rest -> Hh Hn Hpay. rewrite (Read_packet h n pay rest p) by done.
    eexists. split; [done|]. split; [done|]. cbn.
    split; intros; [by ztest (n <=? len p) true|by ztest (n <=? len p) false].
Qed.

Lemma Read_in_sync_witness :
  exists res, Read (Some (bs "0009hello0000")) [0; 0; 0; 0; 0; 0] = Ok res /\ rr_reader res = bs "0000" /\
    (9 <= 6 -> rr_len res = 9) /\
    (6 < 9 -> rr_len res = Err_len /\ rr_err res = Some (ErrReader ErrUnexpectedEOF)).
Proof.
  assert (LenSize <= len [0; 0; 0; 0; 0; 0]) as H by (vm_compute; congruence).
  apply (proj2 (Read_in_sync (bs "0009hello0000") [0; 0; 0; 0; 0; 0] H)
           (bs "0009") 9 (bs "hello") (bs "0000")); reflexivity.
Defined.

(** ** Packets written are packets read *)

Inductive packet :=
  | DataPkt (payload : bytes)
  | FlushPkt
  | DelimPkt
  | ResponseEndPkt.

Definition packet_ok (pkt : packet) : Prop :=
  match pkt with DataPkt p => len p <= MaxPayloadSize | _ => True end.

Definition packet_bytes (pkt : packet) : bytes :=
  match pkt with
  | DataPkt p => if len p =? 0 then emptyPkt else asciiHex16 (len p + LenSize) ++ p
  | FlushPkt => flushPkt
  | DelimPkt => delimPkt
  | ResponseEndPkt => responseEndPkt
  end.

(** The call that writes a packet, and its error. *)
Definition write_packet (pkt : packet) (w : option writer) : option pkt_error * option writer :=
  match pkt with
  | DataPkt p => let '(_, err, w) := Write w p in (err, w)
  | FlushPkt => WriteFlush w
  | DelimPkt => WriteDelim w
  | ResponseEndPkt => WriteResponseEnd w
  end.

(** Writing packets until one fails. *)
Fixpoint write_packets (pkts : list packet) (w : option writer) : option pkt_error * option writer :=
  match pkts with
  | [] => (None, w)
  | pkt :: pkts' =>
      match write_packet pkt w with
      | (Some e, w) => (Some e, w)
      | (None, w) => write_packets pkts' w
      end
  end.

(** The line [ReadLine] returns for a packet: length, payload and error. *)
Definition packet_line (pkt : packet) : Z * option bytes * option pkt_error :=
  match pkt with
  | DataPkt p => (len p + LenSize, Some p, line_error p)
  | FlushPkt => (Flush, None, None)
  | DelimPkt => (Delim, None, None)
  | ResponseEndPkt => (ResponseEnd, None, None)
  end.

(** Reading one line per pooled buffer. *)
Fixpoint read_lines (pools : list bytes) (r : bytes)
    : outcome pkt_error (list (Z * option bytes * option pkt_error) * bytes) :=
  match pools with
  | [] => mret ([], r)
  | pool :: pools' =>
      '(l, p, err, r) ← ReadLine pool (Some r);
      '(lines, r) ← read_lines pools' r;
      mret ((l, p, err) :: lines, r)
  end.

Lemma Write_buffer out p :
  len p <= MaxPayloadSize ->
  Write (Some (buffer out)) p
  = (len (packet_bytes (DataPkt p)), None, Some (buffer (out ++ packet_bytes (DataPkt p)))).
Proof.
  intros Hp. unfold Write, packet_bytes. destruct (len p =? 0); [done|].
  rewrite Z.gtb_ltb. ztest (MaxPayloadSize <? len p) false.
  unfold w_Write, buffer. cbn [w_room w_out]. by rewrite len_app, <-app_assoc.
Qed.

Lemma write_packet_buffer pkt out :
  packet_ok pkt ->
  write_packet pkt (Some (buffer out)) = (None, Some (buffer (out ++ packet_bytes pkt))).
Proof. destruct pkt; cbn [packet_ok write_packet]; intros Hp; [|done..]. by rewrite Write_buffer. Qed.

Lemma write_packets_buffer pkts out :
  Forall packet_ok pkts ->
  write_packets pkts (Some (buffer out)) = (None, Some (buffer (out ++ concat (packet_bytes <$> pkts)))).
Proof.
  intros Hp. revert out. induction Hp as [|pkt pkts Hpkt Hp IH]; intros out; cbn [write_packets].
  - cbn. by rewrite app_nil_r.
  - rewrite write_packet_buffer by done. rewrite IH. cbn [fmap list_fmap concat]. by rewrite app_assoc.
Qed.

Lemma data_line_error (pkt : packet) : packet_line (DataPkt []) = (4, Some [], None).
Proof. done. Qed.

Lemma packet_split pkt :
  packet_ok pkt ->
  exists h pay n, packet_bytes pkt = h ++ pay /\ len h = 4 /\ ParseLength (Some h) = Ok n
    /\ len pay = Z.max 0 (n - 4) /\ n <= MaxSize
    /\ packet_line pkt = (n, if n <? 4 then None else Some pay, if n <=? 4 then None else line_error pay).
Proof.
  destruct pkt as [p| | |]; cbn [packet_ok packet_bytes]; intros Hp.
  - pose proof (len_nonneg p). destruct (Z.eqb_spec (len p) 0) as [Hz|Hz].
    + apply len_zero_nil in Hz as ->. exists emptyPkt, [], 4. repeat split; done.
    + unfold MaxPayloadSize, MaxSize, LenSize in *. exists (asciiHex16 (len p + 4)), p, (len p + 4).
      split; [done|]. split; [done|]. split; [|split; [lia|split; [lia|]]].
      * rewrite <-(app_nil_r (asciiHex16 _)). apply ParseLength_data. unfold LenSize, MaxSize. lia.
      * unfold packet_line, LenSize. ztest (len p + 4 <? 4) false. by ztest (len p + 4 <=? 4) false.
  - exists flushPkt, [], 0. repeat split; done.
  - exists delimPkt, [], 1. repeat split; done.
  - exists responseEndPkt, [], 2. repeat split; done.
Qed.

Lemma ReadLine_split h n pay rest pool :
  len h = 4 -> ParseLength (Some h) = Ok n -> len pay = Z.max 0 (n - 4) -> n <= MaxSize ->
  len pool = MaxSize ->
  ReadLine pool (Some (h ++ pay ++ rest))
  = Ok (n, if n <? 4 then None else Some pay, if n <=? 4 then None else line_error pay, rest).
Proof.
  intros Hh Hn Hpay Hmax Hpool. unfold ReadLine. rewrite (Read_packet h n pay rest pool)
    by (rewrite ?Hpool; unfold MaxSize; (done || lia)).
  cbn [mbind outcome_bind rr_len rr_err rr_buf rr_reader]. rewrite Hpool. ztest (n <=? MaxSize) true.
  unfold LenSize. destruct (Z.ltb_spec n 4) as [H4|H4]; [by ztest (n <=? 4) true|].
  destruct (Z.leb_spec n 4).
  - assert (n = 4) as -> by lia. rewrite (len_zero_nil pay) in * by lia.
    cbn [Z.ltb Z.compare Pos.compare Pos.compare_cont andb]. rewrite slice_Ok by len_lia. done.
  - ztest (4 <? n) true. cbn [andb].
    rewrite <-Hh. replace n with (len h + len pay) by lia. rewrite slice_app3. done.
Qed.

Lemma ReadLine_packet pkt pool rest :
  packet_ok pkt -> len pool = MaxSize ->
  ReadLine pool (Some (packet_bytes pkt ++ rest)) = Ok (packet_line pkt, rest).
Proof.
  intros Hpkt Hpool. destruct (packet_split pkt Hpkt) as (h & pay & n & -> & Hh & Hn & Hpay & Hmax & ->).
  rewrite <-app_assoc. by rewrite (ReadLine_split h n).
Qed.

Lemma read_lines_packets pkts pools rest :
  Forall packet_ok pkts -> Forall (fun pool => len pool = MaxSize) pools -> length pools = length pkts ->
  read_lines pools (concat (packet_bytes <$> pkts) ++ rest) = Ok (packet_line <$> pkts, rest).
Proof.
  intros Hp. revert pools. induction Hp as [|pkt pkts Hpkt Hp IH]; intros pools Hpools Hl.
  - by destruct pools.
  - destruct pools as [|pool pools]; [done|]. apply Forall_cons_iff in Hpools as [Hpool Hpools].
    cbn [read_lines fmap list_fmap concat]. rewrite <-app_assoc, ReadLine_packet by done.
    destruct (packet_line pkt) as [[n p] err] eqn:Hline. cbn [mbind outcome_bind].
    rewrite IH by (done || (simpl in Hl; lia)). done.
Qed.

(** C25: packet lines round-trip.  A sequence of data packets (each payload at
    most [MaxPayloadSize] bytes), flush, delimiter and response-end packets
    written to a buffer is written without an error, and reading that many lines
    from what was written, whatever follows it and whatever the pooled buffers
    held before, gives the packets back in order, with [ErrorLine] for the
    payloads that begin with "ERR ", and leaves the rest of the stream. *)
Theorem pktline_roundtrip pkts pools out rest :
  Forall packet_ok pkts -> Forall (fun pool => len pool = MaxSize) pools -> length pools = length pkts ->
  exists enc,
    write_packets pkts (Some (buffer out)) = (None, Some (buffer (out ++ enc)))
    /\ read_lines pools (enc ++ rest) = Ok (packet_line <$> pkts, rest).
Proof.
  intros Hp Hpools Hl. exists (concat (packet_bytes <$> pkts)).
  split; [by apply write_packets_buffer|by apply read_lines_packets].
Qed.

Lemma pktline_roundtrip_witness :
  let pkts := [DataPkt (bs "hi"); FlushPkt; DataPkt (bs "ERR bad "); DataPkt []] in
  let pools := replicate 4 (replicate (Z.to_nat MaxSize) 7) in
  exists enc,
    write_packets pkts (Some (buffer [])) = (None, Some (buffer ([] ++ enc)))
    /\ read_lines pools (enc ++ bs "x") = Ok (packet_line <$> pkts, bs "x").
Proof.
  intros pkts pools. apply (pktline_roundtrip pkts pools [] (bs "x")).
  - subst pkts. repeat constructor; vm_compute; congruence.
  - subst pools. apply Forall_replicate. reflexivity.
  - reflexivity.
Defined.

(** ** Peeking *)

(** [PeekLine] agrees with [ReadLine].  When peeking succeeds, reading the
    line returns the same length, payload and error, and consumes exactly the
    packet. *)
Theorem PeekLine_agrees cap pool r l p err :
  len pool = MaxSize -> PeekLine cap (Some r) = Ok (l, p, err) -> l <> Err_len ->
  ReadLine pool (Some r) = Ok (l, p, err, drop (Z.to_nat (Z.max LenSize l)) r).
Proof.
  intros Hpool Hpeek Hl. unfold PeekLine, Peek, LenSize in Hpeek.
  destruct (Z.gtb_spec 4 cap); [by injection Hpeek as <- <- <-|].
  destruct (Z.ltb_spec (len r) 4) as [|Hr]; [by injection Hpeek as <- <- <-|].
  destruct (list_split4 r Hr) as (a & b & c & d & r' & ->).
  change (take (Z.to_nat 4) ([a; b; c; d] ++ r')) with [a; b; c; d] in Hpeek.
  destruct (ParseLength_cases a b c d) as [[e He]|(n & Hn & Hv)].
  { rewrite He in Hpeek. by injection Hpeek as <- <- <-. }
  rewrite Hn in Hpeek. unfold valid_length, Flush, Delim, ResponseEnd, LenSize, MaxSize in *.
  pose proof (len_nonneg r').
  destruct (Z.ltb_spec n 4) as [H4|H4].
  - replace ((n =? 0) || (n =? 1) || (n =? 2)) with true in Hpeek
      by (destruct Hv as [->|[->|[->|?]]]; [done..|lia]).
    injection Hpeek as <- <- <-.
    change ([a; b; c; d] ++ r') with ([a; b; c; d] ++ [] ++ r').
    rewrite (ReadLine_split [a; b; c; d] n [] r' pool)
      by (done || (unfold MaxSize; lia) || (change (len (@nil Z)) with 0; lia)).
    ztest (n <? 4) true. ztest (n <=? 4) true. by rewrite Z.max_l by lia.
  - replace ((n =? 0) || (n =? 1) || (n =? 2)) with false in Hpeek
      by (ztest (n =? 0) false; ztest (n =? 1) false; ztest (n =? 2) false; done).
    destruct (Z.eq_dec n 4) as [Hn4|Hne].
    + subst n. rewrite Z.eqb_refl in Hpeek. injection Hpeek as <- <- <-.
      change ([a; b; c; d] ++ r') with ([a; b; c; d] ++ [] ++ r').
      by rewrite (ReadLine_split [a; b; c; d] 4 [] r' pool) by done.
    + rewrite (proj2 (Z.eqb_neq n 4) Hne) in Hpeek. destruct (Z.gtb_spec n cap); [by injection Hpeek as <- <- <-|].
      destruct (Z.ltb_spec (len ([a; b; c; d] ++ r')) n) as [|Hlen];
        [by injection Hpeek as <- <- <-|].
      rewrite len_app in Hlen. change (len [a; b; c; d]) with 4 in Hlen.
      set (k := Z.to_nat (n - 4)). assert (Z.to_nat n = (4 + k)%nat) as Hnk by lia.
      rewrite Hnk in Hpeek. cbn [plus take app] in Hpeek.
      assert (len (take k r') = n - 4) as Hk by (rewrite len_take; lia).
      rewrite slice_Ok in Hpeek by (rewrite ?len_cons; lia). cbn [mbind outcome_bind] in Hpeek.
      change (drop (Z.to_nat 4) (a :: b :: c :: d :: take k r')) with (take k r') in Hpeek.
      rewrite take_take, Nat.min_id in Hpeek.
      rewrite <-(take_drop k r') at 1.
      rewrite (ReadLine_split [a; b; c; d] n (take k r') (drop k r') pool)
        by (done || (unfold MaxSize; lia)).
      ztest (n <? 4) false. ztest (n <=? 4) false.
      assert (drop (Z.to_nat (Z.max 4 n)) ([a; b; c; d] ++ r') = drop k r') as Hdrop
        by (rewrite Z.max_r, Hnk by lia; done).
      unfold line_error. destruct (HasPrefix (take k r') errPrefix) eqn:Hpre.
      * apply HasPrefix_spec in Hpre as [q Hq]. unfold errPrefixSize, LenSize in Hpeek.
        rewrite slice_Ok in Hpeek by (rewrite ?Hq, ?len_app; change (len errPrefix) with 4; len_lia).
        cbn [mbind outcome_bind] in Hpeek. injection Hpeek as <- <- <-. rewrite Hdrop.
        rewrite (take_ge (drop _ (take k r'))) by (rewrite length_drop; unfold len; lia). done.
      * injection Hpeek as <- <- <-. by rewrite Hdrop.
Qed.

Lemma PeekLine_agrees_witness :
  let pool := replicate (Z.to_nat MaxSize) 7 in
  ReadLine pool (Some (bs "0009hello0000"))
  = Ok (9, Some (bs "hello"), None, drop (Z.to_nat (Z.max LenSize 9)) (bs "0009hello0000")).
Proof.
  intros pool. apply (PeekLine_agrees 4096 pool (bs "0009hello0000")).
  - reflexivity.
  - vm_compute. reflexivity.
  - discriminate.
Defined.

(** ** The scanner *)

(** [for s.Scan() { use(s.Len(), s.Bytes()) }]. *)
Fixpoint scan_all (fuel : nat) (s : Scanner) : outcome pkt_error (list (Z * option bytes) * Scanner) :=
  match fuel with
  | O => NoFuel
  | S f =>
      '(ok, s) ← Scan s;
      if ok : bool then
        b ← Bytes s;
        '(lines, s') ← scan_all f s;
        mret ((s_n s, b) :: lines, s')
      else mret ([], s)
  end.

(** The lines before the first error line, and that error. *)
Fixpoint until_error (lines : list (Z * option bytes * option pkt_error))
    : list (Z * option bytes) * option pkt_error :=
  match lines with
  | [] => ([], None)
  | (n, p, None) :: lines' => let '(l, e) := until_error lines' in ((n, p) :: l, e)
  | (_, _, Some e) :: _ => ([], Some e)
  end.

Lemma Scan_packet pkt rest err buf k :
  packet_ok pkt -> len buf = MaxSize ->
  exists s', Scan {| s_r := Some (packet_bytes pkt ++ rest); s_err := err; s_buf := buf; s_n := k |}
    = Ok (match (packet_line pkt).2 with None => true | Some _ => false end, s')
    /\ s_err s' = (packet_line pkt).2 /\ s_r s' = Some rest /\ len (s_buf s') = MaxSize
    /\ s_n s' = (packet_line pkt).1.1 /\ Bytes s' = Ok (packet_line pkt).1.2.
Proof.
  intros Hpkt Hbuf. destruct (packet_split pkt Hpkt) as (h & pay & n & -> & Hh & Hn & Hpay & Hmax & ->).
  unfold Scan. cbn [s_r s_buf s_err s_n]. rewrite <-app_assoc, (Read_packet h n pay rest buf)
    by (rewrite ?Hbuf; unfold MaxSize; (done || lia)).
  cbn [mbind outcome_bind rr_len rr_err rr_buf rr_reader fst snd s_err s_n]. rewrite Hbuf.
  ztest (n <=? MaxSize) true. rewrite andb_true_r.
  set (b := if 4 <? n then _ else _).
  assert (len b = MaxSize) as Hb.
  { subst b. destruct (Z.ltb_spec 4 n); rewrite !len_app, len_drop; unfold MaxSize in *; lia. }
  assert (Bytes {| s_r := Some rest; s_err := if n <=? 4 then None else line_error pay;
                   s_buf := b; s_n := n |} = Ok (if n <? 4 then None else Some pay)) as HB.
  { unfold Bytes. cbn [s_n s_buf]. unfold LenSize. rewrite Z.geb_leb.
    destruct (Z.ltb_spec n 4); [by ztest (4 <=? n) false|]. ztest (4 <=? n) true.
    subst b. destruct (Z.ltb_spec 4 n).
    - rewrite <-Hh. replace n with (len h + len pay) by lia. by rewrite slice_app3.
    - assert (n = 4) as -> by lia. rewrite (len_zero_nil pay) by lia.
      rewrite slice_Ok; [done|lia|rewrite Hb; done]. }
  unfold line_error in *. destruct (n <=? 4); [eexists; by eauto 8|].
  destruct (HasPrefix pay errPrefix); eexists; by eauto 8.
Qed.

Lemma Scan_end err buf k :
  len buf = MaxSize ->
  exists s', Scan {| s_r := Some []; s_err := err; s_buf := buf; s_n := k |} = Ok (false, s')
    /\ s_err s' = None.
Proof.
  intros Hb. unfold Scan. cbn [s_r s_buf]. rewrite Read_eq by (rewrite Hb; unfold MaxSize; lia).
  cbn. eauto.
Qed.

Lemma scan_all_packets pkts fuel err buf k :
  Forall packet_ok pkts -> len buf = MaxSize -> (length pkts < fuel)%nat ->
  exists s', scan_all fuel {| s_r := Some (concat (packet_bytes <$> pkts)); s_err := err;
                              s_buf := buf; s_n := k |}
    = Ok ((until_error (packet_line <$> pkts)).1, s')
    /\ s_err s' = (until_error (packet_line <$> pkts)).2.
Proof.
  intros Hp. revert fuel err buf k.
  induction Hp as [|pkt pkts Hpkt Hp IH]; intros fuel err buf k Hb Hf;
    (destruct fuel as [|f]; [simpl in Hf; lia|]); cbn [scan_all fmap list_fmap concat].
  - destruct (Scan_end err buf k Hb) as (s' & -> & He). cbn. eauto.
  - destruct (Scan_packet pkt (concat (packet_bytes <$> pkts)) err buf k Hpkt Hb)
      as (s' & -> & He & Hr & Hb' & Hn & HB).
    destruct (packet_line pkt) as [[n p] [e|]] eqn:Hline; cbn [fst snd mbind outcome_bind] in *;
      [cbn [until_error]; eauto|].
    rewrite HB. cbn [mbind outcome_bind]. destruct s' as [r' e' b' n']. cbn in *. subst.
    destruct (IH f None b' n Hb' ltac:(simpl in Hf; lia)) as (s'' & -> & He'').
    exists s''. cbn [mbind outcome_bind].
    by destruct (until_error (packet_line <$> pkts)) as [l e].
Qed.

(** The scanner delivers a stream of packets completely.  Scanning the
    encoding of a sequence of packets yields every packet (its length and
    payload, [nil] for the special packets) in order up to the first error
    line; [Scan] then returns false, and [Err] is that [ErrorLine], or nil when
    the stream ended after the last packet. *)
Theorem scanner_delivers pkts :
  Forall packet_ok pkts ->
  exists s', scan_all (S (length pkts)) (NewScanner (Some (concat (packet_bytes <$> pkts))))
    = Ok ((until_error (packet_line <$> pkts)).1, s')
    /\ s_err s' = (until_error (packet_line <$> pkts)).2.
Proof.
  intros Hp. apply scan_all_packets; [done| |lia].
  rewrite len_replicate. unfold MaxSize. lia.
Qed.

Lemma scanner_delivers_witness :
  let pkts := [DataPkt (bs "a"); FlushPkt; DataPkt (bs "ERR x"); DelimPkt] in
  exists s', scan_all 5 (NewScanner (Some (concat (packet_bytes <$> pkts))))
    = Ok ([(5, Some (bs "a")); (0, None)], s') /\ s_err s' = Some (ErrorLine (bs "x")).
Proof.
  intros pkts. apply (scanner_delivers pkts).
  subst pkts. repeat constructor; vm_compute; congruence.
Defined.

(** A stream that ends right after a header is taken for a clean end: [Read]
    returns [io.EOF] for the missing payload and [Scan] drops it. *)
Lemma truncated_payload_is_clean_end :
  exists s', Scan (NewScanner (Some (bs "0009"))) = Ok (false, s') /\ s_err s' = None.
Proof.
  unfold Scan, NewScanner. cbn [s_r s_buf]. generalize (eq_refl (len (replicate (Z.to_nat MaxSize) 0))).
  generalize (replicate (Z.to_nat MaxSize) 0) at 2 3. intros buf Hb.
  rewrite len_replicate in Hb. change (Z.of_nat (Z.to_nat MaxSize)) with 65520 in Hb.
  rewrite Read_eq by lia. unfold read_spec.
  change (ParseLength (Some (take 4 (bs "0009")))) with (@Ok pkt_error Z 9).
  cbv iota beta. rewrite Z.gtb_ltb. ztest (len buf <? 9) false. eexists. split; reflexivity.
Qed.
