(* ===== verification/Sideband.v ===== *)
(** * The sideband: [plumbing/protocol/packp/sideband]

    [Muxer] ([muxer.go]) splits each channel's data into packet lines whose
    first byte names the channel; [Demuxer] ([demux.go]) reads the packfile
    channel back, writes progress messages (sanitized) to [Progress], and fails
    on an error message.  The file is a client of [Pktline]. *)
From stdpp Require Import base list numbers option strings.
From Stdlib Require Import ZArith Lia.
From S2P Require Import Prelude Pktline.

Open Scope Z_scope.
#[local] Ltac Zify.zify_post_hook ::= Z.to_euclidean_division_equations.

(** ** Constants *)

Definition Sideband : Z := 0.
Definition Sideband64k : Z := 1.
Definition MaxPackedSize : Z := 1000.
Definition MaxPackedSize64k : Z := 65520.
Definition PackData : Z := 1.
Definition ProgressMessage : Z := 2.
Definition ErrorMessage : Z := 3.
Definition chLen : Z := 1.

(** [Channel.WithPayload]. *)
Definition WithPayload (ch : Z) (payload : bytes) : bytes := ch :: payload.

(** ** Muxer *)

(** The scratch buffer [buf] is overwritten by every write and never read
    before that, so it is not part of the model's state. *)
Record Muxer := { mux_max : Z; mux_w : option writer }.

Definition NewMuxer (t : Z) (w : option writer) : Muxer :=
  let maxSize := if t =? Sideband then MaxPackedSize else MaxPackedSize64k in
  {| mux_max := maxSize - LenSize - chLen; mux_w := w |}.

(** The count returned is [sz] even when the write failed. *)
Definition doWrite (m : Muxer) (ch : Z) (p : bytes) : outcome pkt_error (Z * option pkt_error * Muxer) :=
  let sz := Z.min (len p) (mux_max m) in
  chunk ← slice p 0 sz;
  let '(_, err, w) := Write (mux_w m) (ch :: chunk) in
  mret (sz, err, {| mux_max := mux_max m; mux_w := w |}).

Fixpoint WriteChannel_loop (fuel : nat) (m : Muxer) (t : Z) (p : bytes) (wrote : Z)
    : outcome pkt_error (Z * option pkt_error * Muxer) :=
  match fuel with
  | O => NoFuel
  | S f =>
      if wrote <? len p then
        rest ← slice p wrote (len p);
        '(n, err, m) ← doWrite m t rest;
        let wrote := wrote + n in
        match err with
        | Some e => mret (wrote, Some e, m)
        | None => WriteChannel_loop f m t p wrote
        end
      else mret (wrote, None, m)
  end.

(** Each iteration writes at least one byte. *)
Definition WriteChannel (m : Muxer) (t : Z) (p : bytes) : outcome pkt_error (Z * option pkt_error * Muxer) :=
  WriteChannel_loop (S (length p)) m t p 0.

Definition Muxer_Write (m : Muxer) (p : bytes) : outcome pkt_error (Z * option pkt_error * Muxer) :=
  WriteChannel m PackData p.

(** ** Sanitizing messages *)

Fixpoint colorSequenceLen_loop (b : bytes) (i : Z) : Z :=
  match b with
  | [] => 0
  | c :: b' =>
      if c =? 109 then i + 1
      else if ((48 <=? c) && (c <=? 57)) || (c =? 58) || (c =? 59) then colorSequenceLen_loop b' (i + 1)
      else 0
  end.

Definition colorSequenceLen (b : bytes) : Z :=
  match b with
  | b0 :: b1 :: b' =>
      if (len b <? 3) || negb (b0 =? 0x1b) || negb (b1 =? 91) then 0
      else colorSequenceLen_loop b' 2
  | _ => 0
  end.

Definition keep (keepCR : bool) (c : Z) : bool :=
  (c =? 9) || (c =? 10) || ((c =? 13) && keepCR) || ((c >=? 0x20) && negb (c =? 0x7f)).

(** [out] is [None] until the first control byte; [message] is what remains
    from index [i], [seen] the bytes before it. *)
Fixpoint sanitize_loop (fuel : nat) (seen message : bytes) (keepCR : bool) (out : option bytes)
    : option bytes :=
  match fuel, message with
  | O, _ | _, [] => out
  | S f, c :: message' =>
      if keep keepCR c then
        sanitize_loop f (seen ++ [c]) message' keepCR ((fun o => o ++ [c]) <$> out)
      else
        let out := default seen out in
        let n := colorSequenceLen message in
        if n >? 0 then
          sanitize_loop f (seen ++ take (Z.to_nat n) message) (drop (Z.to_nat n) message) keepCR
            (Some (out ++ take (Z.to_nat n) message))
        else if c =? 0x7f then sanitize_loop f (seen ++ [c]) message' keepCR (Some (out ++ [94; 63]))
        else sanitize_loop f (seen ++ [c]) message' keepCR (Some (out ++ [94; u8 (c + 0x40)]))
  end.

Definition sanitize (message : bytes) (keepCR : bool) : bytes :=
  default message (sanitize_loop (length message) [] message keepCR None).

(** ** Demuxer *)

Inductive demux_error :=
  | DErr (e : pkt_error)
  | DEOF
  | ErrMaxPackedExceeded
  | ErrInvalidSideband
  | ErrUnexpected (msg : bytes)
  | ErrUnknownChannel (msg : bytes).

Record Demuxer := {
  d_s : Scanner;
  d_max : Z;
  d_pending : bytes;
  d_Progress : option writer;   (* [None]: progress is dropped *)
}.

Definition NewDemuxer (t : Z) (r : option bytes) : Demuxer :=
  {| d_s := NewScanner r;
     d_max := if t =? Sideband then MaxPackedSize else MaxPackedSize64k;
     d_pending := []; d_Progress := None |}.

Definition getPending (d : Demuxer) : bytes * Demuxer :=
  if len (d_pending d) =? 0 then ([], d)
  else (d_pending d, {| d_s := d_s d; d_max := d_max d; d_pending := []; d_Progress := d_Progress d |}).

Definition set_scanner (d : Demuxer) (s : Scanner) : Demuxer :=
  {| d_s := s; d_max := d_max d; d_pending := d_pending d; d_Progress := d_Progress d |}.

Definition set_progress (d : Demuxer) (w : option writer) : Demuxer :=
  {| d_s := d_s d; d_max := d_max d; d_pending := d_pending d; d_Progress := w |}.

Definition nextPackData (d : Demuxer) : outcome pkt_error (bytes * option demux_error * Demuxer) :=
  let '(content, d) := getPending d in
  if negb (len content =? 0) then mret (content, None, d)
  else
    '(ok, s) ← Scan (d_s d);
    let d := set_scanner d s in
    if negb ok then
      match s_err s with
      | Some e => mret ([], Some (DErr e), d)
      | None => mret ([], Some DEOF, d)
      end
    else
      let l := s_n s in
      if l =? Flush then mret ([], Some DEOF, d)
      else if l >? d_max d then mret ([], Some ErrMaxPackedExceeded, d)
      else
        b ← Bytes s;
        match default [] b with
        | [] => mret ([], Some ErrInvalidSideband, d)
        | c :: content =>
            if c =? PackData then mret (content, None, d)
            else if c =? ProgressMessage then
              match d_Progress d with
              | Some w =>
                  let '(_, err, w) := w_Write w (sanitize content true) in
                  mret ([], DErr <$> err, set_progress d (Some w))
              | None => mret ([], None, d)
              end
            else if c =? ErrorMessage then mret ([], Some (ErrUnexpected (sanitize content false)), d)
            else mret ([], Some (ErrUnknownChannel (sanitize (c :: content) false)), d)
        end.

(** The bytes copied to the caller's buffer of [wanted] bytes. *)
Definition doRead (d : Demuxer) (wanted : Z) : outcome pkt_error (bytes * option demux_error * Demuxer) :=
  '(read, err, d) ← nextPackData d;
  let size := len read in
  d ← (if size >? wanted then
         pending ← slice read wanted size;
         mret {| d_s := d_s d; d_max := d_max d; d_pending := pending; d_Progress := d_Progress d |}
       else mret d);
  let wanted := if wanted >? size then size else wanted in
  out ← slice read 0 wanted;
  mret (out, err, d).

(** [Read] of a buffer of [req] bytes; [got] is what it holds so far. *)
Fixpoint Demuxer_Read_loop (fuel : nat) (d : Demuxer) (req : Z) (got : bytes)
    : outcome pkt_error (bytes * option demux_error * Demuxer) :=
  match fuel with
  | O => NoFuel
  | S f =>
      if len got <? req then
        '(out, err, d) ← doRead d (req - len got);
        let got := got ++ out in
        match err with
        | Some e => mret (got, Some e, d)
        | None => Demuxer_Read_loop f d req got
        end
      else mret (got, None, d)
  end.

(** Every iteration but the last takes pending data or consumes a packet of at
    least four bytes from the reader. *)
Definition Demuxer_Read (d : Demuxer) (req : Z) : outcome pkt_error (bytes * option demux_error * Demuxer) :=
  Demuxer_Read_loop (length (default [] (s_r (d_s d))) + 3) d req [].

Example demux_example :
  ('(_, _, m) ← WriteChannel (NewMuxer Sideband (Some (buffer []))) PackData (bs "hello");
  '(out, err, _) ← Demuxer_Read (NewDemuxer Sideband (w_out <$> mux_w m)) 5;
  mret (out, err)) = Ok (bs "hello", None).
Proof. vm_compute. reflexivity. Qed.

Example sanitize_example :
  sanitize (bs "a" ++ [27] ++ bs "[31mred" ++ [27; 13]) false = bs "a" ++ [27] ++ bs "[31mred^[^M".
Proof. vm_compute. reflexivity. Qed.

(** ** What sanitizing guarantees *)

Definition is_param (c : Z) : bool := ((48 <=? c) && (c <=? 57)) || (c =? 58) || (c =? 59).

(** A text without control characters, apart from tab, line feed, carriage
    return if kept, and complete SGR color sequences. *)
Inductive clean (keepCR : bool) : bytes -> Prop :=
  | clean_nil : clean keepCR []
  | clean_char c l : keep keepCR c = true -> clean keepCR l -> clean keepCR (c :: l)
  | clean_color q l :
      forallb is_param q = true -> clean keepCR l ->
      clean keepCR (0x1b :: 91 :: q ++ 109 :: l).

Lemma param_not_m c : is_param c = true -> (c =? 109) = false.
Proof.
  unfold is_param. intros H. apply Z.eqb_neq. intros ->. done.
Qed.

Lemma color_loop_app q l i :
  forallb is_param q = true -> colorSequenceLen_loop (q ++ 109 :: l) i = i + len q + 1.
Proof.
  revert i. induction q as [|c q IH]; intros i Hq; cbn [app colorSequenceLen_loop].
  - change (109 =? 109) with true. change (len (@nil Z)) with 0. cbn. lia.
  - cbn [forallb] in Hq. apply andb_prop in Hq as [Hc Hq].
    rewrite (param_not_m c Hc). unfold is_param in Hc. rewrite Hc, IH, len_cons by done. lia.
Qed.

Lemma colorSequenceLen_app q l :
  forallb is_param q = true -> colorSequenceLen (0x1b :: 91 :: q ++ 109 :: l) = len q + 3.
Proof.
  intros Hq. unfold colorSequenceLen. rewrite !len_cons, len_app, len_cons.
  pose proof (len_nonneg q). pose proof (len_nonneg l).
  ztest (1 + (1 + (len q + (1 + len l))) <? 3) false. cbn -[colorSequenceLen_loop Z.add].
  rewrite color_loop_app by done. lia.
Qed.

Lemma color_loop_inv b i :
  0 <= i -> 0 < colorSequenceLen_loop b i ->
  exists q l, b = q ++ 109 :: l /\ forallb is_param q = true.
Proof.
  revert i. induction b as [|c b IH]; intros i Hi; cbn [colorSequenceLen_loop]; [lia|].
  destruct (Z.eqb_spec c 109) as [->|]; [intros _; by exists [], b|].
  destruct (_ || _) eqn:Hp; [|lia]. intros H. apply IH in H as (q & l & -> & Hq); [|lia].
  exists (c :: q), l. split; [done|]. cbn [forallb]. by rewrite Hq, andb_true_r.
Qed.

Lemma colorSequenceLen_inv b :
  0 < colorSequenceLen b ->
  exists q l, b = 0x1b :: 91 :: q ++ 109 :: l /\ forallb is_param q = true.
Proof.
  destruct b as [|b0 [|b1 b]]; cbn [colorSequenceLen]; [lia..|].
  destruct (_ || _) eqn:Hb; [lia|]. apply orb_false_iff in Hb as [Hb H1].
  apply orb_false_iff in Hb as [_ H0]. zbool. subst. intros H.
  apply color_loop_inv in H as (q & l & -> & Hq); [|lia]. eauto.
Qed.

(** The result of [sanitize], without the sharing of a clean message. *)
Fixpoint sanitized (fuel : nat) (message : bytes) (keepCR : bool) : bytes :=
  match fuel, message with
  | O, _ | _, [] => []
  | S f, c :: message' =>
      if keep keepCR c then c :: sanitized f message' keepCR
      else
        let n := colorSequenceLen message in
        if n >? 0 then take (Z.to_nat n) message ++ sanitized f (drop (Z.to_nat n) message) keepCR
        else (if c =? 0x7f then [94; 63] else [94; u8 (c + 0x40)]) ++ sanitized f message' keepCR
  end.

Lemma sanitize_loop_sanitized fuel seen message keepCR out :
  (length message <= fuel)%nat ->
  default (seen ++ message) (sanitize_loop fuel seen message keepCR out)
  = default seen out ++ sanitized fuel message keepCR.
Proof.
  revert seen message out. induction fuel as [|f IH]; intros seen message out Hf.
  { destruct message; [|simpl in Hf; lia]. cbn. rewrite !app_nil_r. done. }
  destruct message as [|c message]; [cbn; by rewrite !app_nil_r|].
  cbn [length] in Hf. cbn [sanitize_loop sanitized].
  assert (forall l, seen ++ c :: l = (seen ++ [c]) ++ l) as Hc by (intros; by rewrite <-app_assoc).
  destruct (keep keepCR c).
  { rewrite Hc, IH by lia. destruct out; cbn; by rewrite <-app_assoc. }
  destruct (Z.gtb_spec (colorSequenceLen (c :: message)) 0) as [Hn|Hn].
  - set (n := Z.to_nat _) in *. assert (0 < n)%nat by lia.
    rewrite <-(take_drop n (c :: message)) at 1. rewrite app_assoc, IH.
    + cbn [default id from_option]. unfold id. by rewrite <-app_assoc.
    + rewrite length_drop. cbn [length]. lia.
  - destruct (c =? 127); rewrite Hc, IH by lia; cbn [default from_option]; unfold id; by rewrite <-app_assoc.
Qed.

Lemma sanitize_sanitized message keepCR :
  sanitize message keepCR = sanitized (length message) message keepCR.
Proof.
  unfold sanitize. rewrite <-(app_nil_l message) at 1.
  by rewrite sanitize_loop_sanitized by lia.
Qed.

Lemma color_split q l (k := len q + 3) :
  take (Z.to_nat k) (0x1b :: 91 :: q ++ 109 :: l) = 0x1b :: 91 :: q ++ [109]
  /\ drop (Z.to_nat k) (0x1b :: 91 :: q ++ 109 :: l) = l.
Proof.
  replace (0x1b :: 91 :: q ++ 109 :: l) with ((0x1b :: 91 :: q ++ [109]) ++ l)
    by (cbn; by rewrite <-app_assoc).
  replace (Z.to_nat k) with (length (0x1b :: 91 :: q ++ [109])).
  - by rewrite take_app_length, drop_app_length.
  - cbn [length]. rewrite length_app. subst k. unfold len. cbn [length]. lia.
Qed.

Lemma keep_control keepCR c : is_byte c -> keep keepCR c = false -> c = 0x7f \/ 0 <= c < 0x20.
Proof.
  unfold is_byte, keep. intros Hc H. apply orb_false_iff in H as [_ H]. rewrite Z.geb_leb in H.
  destruct (Z.leb_spec 0x20 c); cbn in H; zbool; lia.
Qed.

Lemma keep_printable keepCR c : 0x20 <= c -> c <> 0x7f -> keep keepCR c = true.
Proof.
  intros H1 H2. unfold keep. rewrite Z.geb_leb. ztest (32 <=? c) true. ztest (c =? 127) false.
  by rewrite !orb_true_r.
Qed.

Lemma sanitized_clean fuel message keepCR :
  bytes_ok message -> clean keepCR (sanitized fuel message keepCR).
Proof.
  revert message. induction fuel as [|f IH]; intros message Hok; [constructor|].
  destruct message as [|c message]; [constructor|]. cbn [sanitized].
  pose proof Hok as Hall. apply bytes_ok_cons in Hok as [Hc Hok].
  destruct (keep keepCR c) eqn:Hk; [constructor; auto|].
  destruct (Z.gtb_spec (colorSequenceLen (c :: message)) 0) as [Hn|Hn].
  - destruct (colorSequenceLen_inv (c :: message)) as (q & l & Heq & Hq); [lia|].
    rewrite Heq in *. rewrite colorSequenceLen_app by done.
    destruct (color_split q l) as [-> ->].
    rewrite <-!app_comm_cons, <-app_assoc. constructor; [done|]. apply IH.
    rewrite !bytes_ok_cons, bytes_ok_app, bytes_ok_cons in Hall. tauto.
  - destruct (keep_control _ _ Hc Hk) as [->|Hctl].
    + cbn. do 2 (constructor; [done|]). auto.
    + ztest (c =? 127) false. cbn [app]. rewrite wrap_small by lia.
      constructor; [done|]. constructor; [apply keep_printable; lia|auto].
Qed.

Lemma sanitized_id fuel message keepCR :
  clean keepCR message -> (length message <= fuel)%nat -> sanitized fuel message keepCR = message.
Proof.
  intros Hc. revert fuel. induction Hc as [|c l Hk Hc IH|q l Hq Hc IH]; intros [|f] Hf;
    cbn [sanitized]; cbn [length] in Hf; try (done || lia).
  - by rewrite Hk, IH by lia.
  - change (keep keepCR 27) with false. rewrite colorSequenceLen_app by done.
    pose proof (len_nonneg q). destruct (Z.gtb_spec (len q + 3) 0); [|lia].
    destruct (color_split q l) as [-> ->]. rewrite IH; [cbn; by rewrite <-app_assoc|].
    rewrite length_app in Hf. cbn [length] in Hf. lia.
Qed.

(** Sanitizing is safe and changes nothing that is safe.  Whatever bytes
    the server sends, the result has no control character but tab, line feed,
    carriage return where it is kept, and complete SGR color sequences; a
    message is returned unchanged exactly when it has that form already, so
    sanitizing twice is sanitizing once. *)
Theorem sanitize_safe message keepCR :
  bytes_ok message ->
  clean keepCR (sanitize message keepCR)
  /\ (sanitize message keepCR = message <-> clean keepCR message)
  /\ sanitize (sanitize message keepCR) keepCR = sanitize message keepCR.
Proof.
  intros Hok. assert (clean keepCR (sanitize message keepCR)) as Hc
    by (rewrite sanitize_sanitized; by apply sanitized_clean).
  split; [done|]. split; [split|].
  - intros H. by rewrite <-H.
  - intros H. rewrite sanitize_sanitized. by apply sanitized_id.
  - rewrite (sanitize_sanitized (sanitize _ _)). by apply sanitized_id.
Qed.

Lemma sanitize_safe_witness :
  clean false (sanitize [104; 27; 93; 48; 7; 13; 10] false)
  /\ sanitize [104; 27; 93; 48; 7; 13; 10] false = bs "h^[]0^G^M" ++ [10].
Proof.
  assert (bytes_ok [104; 27; 93; 48; 7; 13; 10]) as H
    by (apply (bool_decide_unpack _); vm_compute; exact I).
  split; [apply (sanitize_safe _ false H)|vm_compute; reflexivity].
Defined.

(** ** What the muxer writes *)

(** A message on a channel: a non-empty chunk. *)
Definition msg_packet (m : Z * bytes) : packet := DataPkt (WithPayload m.1 m.2).
Definition msgs_bytes (msgs : list (Z * bytes)) : bytes := concat (packet_bytes ∘ msg_packet <$> msgs).
Definition msg_ok (max : Z) (m : Z * bytes) : Prop := 0 < len m.2 <= max.

Lemma msgs_bytes_app a b : msgs_bytes (a ++ b) = msgs_bytes a ++ msgs_bytes b.
Proof. unfold msgs_bytes. by rewrite fmap_app, concat_app. Qed.

Lemma msgs_bytes_cons m msgs : msgs_bytes (m :: msgs) = packet_bytes (msg_packet m) ++ msgs_bytes msgs.
Proof. done. Qed.

Lemma WriteChannel_loop_buffer fuel max out t p wrote :
  0 < max < MaxPayloadSize -> 0 <= wrote <= len p -> len p - wrote < Z.of_nat fuel ->
  exists chunks, Forall (msg_ok max) chunks /\ Forall (fun m => m.1 = t) chunks
    /\ concat chunks.*2 = drop (Z.to_nat wrote) p
    /\ WriteChannel_loop fuel {| mux_max := max; mux_w := Some (buffer out) |} t p wrote
       = Ok (len p, None, {| mux_max := max; mux_w := Some (buffer (out ++ msgs_bytes chunks)) |}).
Proof.
  intros Hmax. revert out wrote. induction fuel as [|f IH]; intros out wrote Hw Hf; [lia|].
  cbn [WriteChannel_loop]. destruct (Z.ltb_spec wrote (len p)) as [Hlt|Hge].
  - rewrite slice_Ok by lia. cbn [mbind outcome_bind].
    rewrite (take_ge (drop _ p)) by (rewrite length_drop; unfold len; lia).
    set (rest := drop (Z.to_nat wrote) p). assert (len rest = len p - wrote) as Hr by (subst rest; len_lia).
    unfold doWrite. cbn [mux_max mux_w]. set (sz := Z.min (len rest) max).
    rewrite slice_Ok by lia. cbn [mbind outcome_bind].
    replace (sz - 0) with sz by lia. change (drop (Z.to_nat 0) rest) with rest.
    set (chunk := take (Z.to_nat sz) rest). assert (len chunk = sz) as Hck by (subst chunk; len_lia).
    rewrite Write_buffer by (rewrite len_cons; lia). cbn [mbind outcome_bind mret outcome_ret].
    destruct (IH (out ++ packet_bytes (DataPkt (t :: chunk))) (wrote + sz))
      as (chunks & Hok & Ht & Hc & ->); [lia|lia|].
    exists ((t, chunk) :: chunks).
    split; [constructor; [unfold msg_ok; cbn; lia|done]|]. split; [by constructor|]. split.
    + cbn [fmap list_fmap concat snd]. rewrite Hc.
      replace (Z.to_nat (wrote + sz)) with (Z.to_nat wrote + Z.to_nat sz)%nat by lia.
      rewrite <-drop_drop. apply take_drop.
    + unfold msgs_bytes. cbn [fmap list_fmap concat compose]. by rewrite app_assoc.
  - exists []. split; [constructor|]. split; [constructor|]. split.
    + symmetry. apply drop_ge. unfold len in *. lia.
    + cbn. rewrite app_nil_r. by replace wrote with (len p) by lia.
Qed.

(** Writing a sequence of calls [(channel, data)]. *)
Fixpoint mux_calls (calls : list (Z * bytes)) (m : Muxer) : outcome pkt_error (option pkt_error * Muxer) :=
  match calls with
  | [] => mret (None, m)
  | (t, p) :: calls' =>
      '(_, err, m) ← WriteChannel m t p;
      match err with Some e => mret (Some e, m) | None => mux_calls calls' m end
  end.

(** The data of a channel in a sequence of messages or calls. *)
Definition channel (t : Z) (msgs : list (Z * bytes)) : bytes :=
  concat (filter (fun m => m.1 = t) msgs).*2.

Lemma channel_app t a b : channel t (a ++ b) = channel t a ++ channel t b.
Proof. unfold channel. by rewrite filter_app, fmap_app, concat_app. Qed.

Lemma channel_cons t m msgs :
  channel t (m :: msgs) = (if decide (m.1 = t) then m.2 else []) ++ channel t msgs.
Proof.
  unfold channel. rewrite filter_cons. destruct (decide (m.1 = t)); done.
Qed.

Lemma channel_same t msgs : Forall (fun m => m.1 = t) msgs -> channel t msgs = concat msgs.*2.
Proof.
  induction 1 as [|m msgs Hm Hms IH]; [done|]. rewrite channel_cons, decide_True by done.
  cbn. by rewrite IH.
Qed.

Lemma channel_other t t' msgs : t <> t' -> Forall (fun m => m.1 = t) msgs -> channel t' msgs = [].
Proof.
  intros Ht. induction 1 as [|m msgs Hm Hms IH]; [done|].
  rewrite channel_cons, decide_False by congruence. done.
Qed.

Lemma mux_calls_buffer calls max out :
  0 < max < MaxPayloadSize ->
  exists msgs, Forall (msg_ok max) msgs
    /\ (forall t, channel t msgs = channel t calls)
    /\ (forall P, Forall (fun c => P c.1) calls -> Forall (fun m => P m.1) msgs)
    /\ mux_calls calls {| mux_max := max; mux_w := Some (buffer out) |}
       = Ok (None, {| mux_max := max; mux_w := Some (buffer (out ++ msgs_bytes msgs)) |}).
Proof.
  intros Hmax. revert out. induction calls as [|[t p] calls IH]; intros out; cbn [mux_calls].
  - exists []. split; [constructor|]. split; [done|]. split; [constructor|]. cbn. by rewrite app_nil_r.
  - pose proof (len_nonneg p).
    destruct (WriteChannel_loop_buffer (S (length p)) max out t p 0)
      as (chunks & Hok & Ht & Hc & Hw); [done|lia|unfold len; lia|].
    unfold WriteChannel. rewrite Hw. cbn [mbind outcome_bind].
    destruct (IH (out ++ msgs_bytes chunks)) as (msgs & Hoks & Hch & HP & ->).
    exists (chunks ++ msgs). split; [by apply Forall_app|]. split; [|split].
    + intros t'. rewrite channel_app, channel_cons, Hch. f_equal. cbn [fst snd].
      destruct (decide (t = t')) as [<-|Hne].
      * rewrite channel_same by done. done.
      * by apply (channel_other t).
    + intros P HPc. apply Forall_cons_iff in HPc as [Hp HPc]. cbn in Hp. apply Forall_app.
      split; [|auto]. eapply Forall_impl; [exact Ht|]. intros m ->. done.
    + by rewrite msgs_bytes_app, app_assoc.
Qed.

(** ** What the demuxer reads *)

(** The demuxer will deliver [data] on the packfile channel and then reach a
    flush packet; by then it will have written [prog] to [Progress], and the
    reader will hold [rest]. *)
Record feeds (d : Demuxer) (data prog rest : bytes) (msgs : list (Z * bytes)) : Prop := {
  f_max : 0 < d_max d <= MaxSize;
  f_msgs : Forall (fun m => msg_ok (d_max d - 5) m /\ (m.1 = PackData \/ m.1 = ProgressMessage)) msgs;
  f_reader : s_r (d_s d) = Some (msgs_bytes msgs ++ flushPkt ++ rest);
  f_buf : len (s_buf (d_s d)) = MaxSize;
  f_data : data = d_pending d ++ channel PackData msgs;
  f_prog : exists out, d_Progress d = Some (buffer out)
    /\ prog = out ++ concat ((fun m => sanitize m.2 true) <$> filter (fun m => m.1 = ProgressMessage) msgs);
}.

(** The demuxer after a packet, up to the private fields of its scanner. *)
Lemma nextPackData_msg d data prog rest m msgs :
  feeds d data prog rest (m :: msgs) -> d_pending d = [] ->
  exists d', nextPackData d = Ok (if decide (m.1 = PackData) then m.2 else [], None, d')
    /\ feeds d' (channel PackData msgs) prog rest msgs /\ d_pending d' = []
    /\ data = (if decide (m.1 = PackData) then m.2 else []) ++ channel PackData msgs.
Proof.
  intros [Hmax Hmsgs Hr Hb Hd (out & Hpo & Hprog)] Hpend. destruct m as [t c].
  apply Forall_cons_iff in Hmsgs as [[Hm Ht] Hmsgs]. unfold msg_ok in Hm. cbn [fst snd] in *.
  rewrite Hpend, channel_cons in Hd. cbn [app fst snd] in Hd.
  unfold nextPackData, getPending. rewrite Hpend. change (len (@nil Z) =? 0) with true.
  cbn [negb]. change (negb (len (@nil Z) =? 0)) with false. cbn iota.
  destruct d as [[r e buf n] max pend pw]. cbn [d_s d_max d_pending d_Progress s_r s_buf fst snd] in *. subst r pend pw.
  rewrite msgs_bytes_cons, <-app_assoc.
  destruct (Scan_packet (msg_packet (t, c)) (msgs_bytes msgs ++ flushPkt ++ rest) e buf n)
    as (s' & HS & He & Hr' & Hb' & Hn & HB); [|done|].
  { unfold msg_packet, packet_ok, WithPayload, MaxPayloadSize, MaxSize, LenSize in *.
    rewrite len_cons. cbn [fst snd]. lia. }
  rewrite HS. clear HS.
  assert (packet_line (msg_packet (t, c)) = (1 + len c + LenSize, Some (t :: c), None)) as Hline.
  { unfold msg_packet, packet_line, WithPayload. cbn [fst snd]. rewrite len_cons. unfold line_error.
    by destruct Ht as [->| ->]. }
  rewrite Hline in *. cbn [fst snd] in *. cbn [mbind outcome_bind negb]. rewrite Hn.
  unfold Flush, LenSize. ztest (1 + len c + 4 =? 0) false. rewrite Z.gtb_ltb.
  cbn [set_scanner d_max]. ztest (max <? 1 + len c + 4) false. rewrite HB.
  cbn [mbind outcome_bind default from_option]. unfold id. cbn iota.
  destruct (decide (t = PackData)) as [->|Hne]; destruct Ht as [Ht|Ht]; try done; subst.
  - change (PackData =? PackData) with true. eexists. split; [done|]. split; [|done].
    constructor; try done. exists out. split; [done|].
    rewrite filter_cons. by rewrite decide_False by done.
  - change (ProgressMessage =? PackData) with false.
    change (ProgressMessage =? ProgressMessage) with true. cbn.
    eexists. split; [done|]. split; [|done]. constructor; try done.
    eexists. split; [done|]. rewrite decide_True by done. cbn. by rewrite <-app_assoc.
Qed.

Lemma nextPackData_flush d data prog rest :
  feeds d data prog rest [] -> d_pending d = [] ->
  exists d', nextPackData d = Ok ([], Some DEOF, d') /\ data = []
    /\ s_r (d_s d') = Some rest /\ d_Progress d' = Some (buffer prog).
Proof.
  intros [Hmax Hmsgs Hr Hb Hd (out & Hpo & Hprog)] Hpend.
  rewrite Hpend in Hd. cbn in Hd, Hprog. rewrite app_nil_r in Hprog. subst.
  unfold nextPackData, getPending. rewrite Hpend. change (len (@nil Z) =? 0) with true.
  cbn [negb]. change (negb (len (@nil Z) =? 0)) with false. cbn iota.
  destruct d as [[r e buf n] max pend pw]. cbn [d_s d_max d_pending d_Progress s_r s_buf] in *.
  subst r pend pw. change (msgs_bytes [] ++ flushPkt ++ rest) with (packet_bytes FlushPkt ++ rest).
  destruct (Scan_packet FlushPkt rest e buf n) as (s' & HS & He & Hr' & Hb' & Hn & HB); [done|done|].
  rewrite HS. cbn [mbind outcome_bind negb packet_line snd fst] in *. rewrite Hn.
  eexists. done.
Qed.

Definition set_pending (d : Demuxer) (p : bytes) : Demuxer :=
  {| d_s := d_s d; d_max := d_max d; d_pending := p; d_Progress := d_Progress d |}.

Lemma feeds_pending d p data prog rest msgs :
  feeds d data prog rest msgs -> d_pending d = [] -> feeds (set_pending d p) (p ++ data) prog rest msgs.
Proof.
  intros [Hmax Hmsgs Hr Hb Hd Hprog] Hp. constructor; try done. cbn. by rewrite Hd, Hp.
Qed.

(** How much is left to do before the flush packet. *)
Definition work (d : Demuxer) (msgs : list (Z * bytes)) : nat :=
  length msgs + (if len (d_pending d) =? 0 then 0 else 1).

(** [doRead] once [nextPackData] has produced [read]. *)
Lemma doRead_step d wanted read d1 data1 prog rest msgs1 :
  nextPackData d = Ok (read, None, d1) -> feeds d1 data1 prog rest msgs1 -> d_pending d1 = [] ->
  0 < wanted ->
  exists d', doRead d wanted = Ok (take (Z.to_nat wanted) read, None, d')
    /\ feeds d' (drop (Z.to_nat wanted) read ++ data1) prog rest msgs1
    /\ (len read <= wanted -> work d' msgs1 = length msgs1).
Proof.
  intros Hn Hf Hp Hw. unfold doRead. rewrite Hn. cbn [mbind outcome_bind].
  pose proof (len_nonneg read). rewrite !Z.gtb_ltb. destruct (Z.ltb_spec wanted (len read)).
  - ztest (len read <? wanted) false. rewrite (slice_Ok read wanted) by lia.
    cbn [mbind outcome_bind mret outcome_ret].
    rewrite (slice_Ok read 0) by lia. cbn [mbind outcome_bind mret outcome_ret].
    replace (wanted - 0) with wanted by lia. change (drop (Z.to_nat 0) read) with read.
    rewrite (take_ge (drop _ read)) by (rewrite length_drop; unfold len in *; lia).
    eexists. split; [done|]. split; [by apply feeds_pending|lia].
  - cbn [mbind outcome_bind mret outcome_ret]. rewrite drop_ge by (unfold len in *; lia).
    destruct (Z.ltb_spec (len read) wanted); rewrite slice_Ok by lia;
      cbn [mbind outcome_bind mret outcome_ret]; change (drop (Z.to_nat 0) read) with read.
    all: exists d1; split; [|split; [done|intros _; unfold work; rewrite Hp; change (len (@nil Z) =? 0) with true; cbv iota; lia]].
    all: rewrite !take_ge by (unfold len in *; lia); done.
Qed.

Lemma doRead_flush d wanted d1 :
  nextPackData d = Ok ([], Some DEOF, d1) -> 0 < wanted ->
  doRead d wanted = Ok ([], Some DEOF, d1).
Proof.
  intros Hn Hw. unfold doRead. rewrite Hn. cbn [mbind outcome_bind].
  change (len (@nil Z)) with 0. rewrite !Z.gtb_ltb. ztest (wanted <? 0) false.
  cbn [mbind outcome_bind mret outcome_ret]. ztest (0 <? wanted) true. done.
Qed.

Lemma doRead_feeds d data prog rest msgs wanted :
  feeds d data prog rest msgs -> 0 < wanted ->
  (exists out d' data' msgs', doRead d wanted = Ok (out, None, d') /\ data = out ++ data'
     /\ feeds d' data' prog rest msgs' /\ len out <= wanted
     /\ (len out = wanted \/ (work d' msgs' < work d msgs)%nat))
  \/ (exists d', doRead d wanted = Ok ([], Some DEOF, d') /\ data = []
     /\ s_r (d_s d') = Some rest /\ d_Progress d' = Some (buffer prog)).
Proof.
  intros Hf Hw. destruct (Z.eq_dec (len (d_pending d)) 0) as [Hz|Hz].
  - apply len_zero_nil in Hz. destruct msgs as [|m msgs].
    + right. destruct (nextPackData_flush d data prog rest Hf Hz) as (d' & Hn & -> & Hr & Hp).
      exists d'. split; [by apply doRead_flush|done].
    + left. destruct (nextPackData_msg d data prog rest m msgs Hf Hz) as (d1 & Hn & Hf1 & Hp1 & Hdata).
      set (read := if decide (m.1 = PackData) then m.2 else []) in *.
      destruct (doRead_step d wanted read d1 _ prog rest msgs Hn Hf1 Hp1 Hw) as (d' & Hd & Hf' & Hwork).
      eexists _, d', _, msgs. split; [done|].
      split; [by rewrite Hdata, app_assoc, take_drop|]. split; [done|].
      rewrite len_take. split; [lia|].
      destruct (Z.le_gt_cases (len read) wanted) as [Hle|Hgt]; [|left; lia].
      right. rewrite Hwork by done. unfold work. cbn [length]. lia.
  - left. pose proof Hf as [Hmax Hmsgs Hr Hb Hd Hprog].
    assert (nextPackData d = Ok (d_pending d, None, set_pending d [])) as Hn.
    { unfold nextPackData, getPending. ztest (len (d_pending d) =? 0) false. cbn iota.
      by ztest (len (d_pending d) =? 0) false. }
    assert (feeds (set_pending d []) (channel PackData msgs) prog rest msgs) as Hf1 by (by constructor).
    destruct (doRead_step d wanted _ _ _ prog rest msgs Hn Hf1 eq_refl Hw) as (d' & Hdr & Hf' & Hwork).
    eexists _, d', _, msgs. split; [done|].
    split; [by rewrite Hd, app_assoc, take_drop|]. split; [done|].
    rewrite len_take. split; [lia|].
    destruct (Z.le_gt_cases (len (d_pending d)) wanted) as [Hle|Hgt]; [|left; lia].
    right. rewrite Hwork by done. unfold work. ztest (len (d_pending d) =? 0) false. lia.
Qed.

Lemma Read_loop_feeds fuel d data prog rest msgs req got :
  feeds d data prog rest msgs -> 0 <= req - len got -> (work d msgs + 2 <= fuel)%nat ->
  let k := req - len got in
  if k <=? len data then
    exists d' msgs', Demuxer_Read_loop fuel d req got = Ok (got ++ take (Z.to_nat k) data, None, d')
      /\ feeds d' (drop (Z.to_nat k) data) prog rest msgs'
  else
    exists d', Demuxer_Read_loop fuel d req got = Ok (got ++ data, Some DEOF, d')
      /\ s_r (d_s d') = Some rest /\ d_Progress d' = Some (buffer prog).
Proof.
  revert d data msgs got. induction fuel as [|f IH]; intros d data msgs got Hf Hk Hw; [lia|].
  cbn [Demuxer_Read_loop]. pose proof (len_nonneg data).
  set (k := req - len got). assert (k = req - len got) as Hkdef by done. clearbody k. cbv zeta.
  destruct (Z.ltb_spec (len got) req) as [Hlt|Hge].
  2:{ assert (k = 0) as -> by lia. ztest (0 <=? len data) true.
      exists d, msgs. cbn. by rewrite app_nil_r. }
  destruct (doRead_feeds d data prog rest msgs k Hf) as
    [(out & d' & data' & msgs' & -> & -> & Hf' & Hout & Hprogress)|(d' & -> & -> & Hr & Hp)]; [lia|..].
  2:{ change (len (@nil Z)) with 0.
      ztest (k <=? 0) false. cbn [mbind outcome_bind]. eauto. }
  cbn [mbind outcome_bind]. pose proof (len_nonneg out). rewrite len_app.
  assert (forall (l : bytes), out ++ take (Z.to_nat (k - len out)) l = take (Z.to_nat k) (out ++ l)
     /\ drop (Z.to_nat (k - len out)) l = drop (Z.to_nat k) (out ++ l)) as Htd.
  { intros l. rewrite take_app_ge, drop_app_ge by (unfold len in *; lia).
    replace (Z.to_nat k - length out)%nat with (Z.to_nat (k - len out)) by (unfold len; lia). done. }
  destruct (Htd data') as [Ht Hd]. pose proof (len_nonneg data').
  destruct Hprogress as [Hfull|Hless].
  - destruct f as [|f]; [lia|]. cbn [Demuxer_Read_loop]. rewrite len_app.
    ztest (len got + len out <? req) false. ztest (k <=? len out + len data') true.
    exists d', msgs'. rewrite <-Ht, <-Hd. replace (k - len out) with 0 by lia.
    change (take (Z.to_nat 0) data') with (@nil Z). change (drop (Z.to_nat 0) data') with data'.
    rewrite app_nil_r. done.
  - specialize (IH d' data' msgs' (got ++ out) Hf' ltac:(rewrite len_app; lia) ltac:(lia)).
    cbv zeta in IH. rewrite len_app in IH.
    replace (req - (len got + len out)) with (k - len out) in IH by lia.
    destruct (Z.leb_spec (k - len out) (len data')) as [Hle|Hgt].
    + ztest (k <=? len out + len data') true.
      destruct IH as (d'' & msgs'' & -> & Hf''). exists d'', msgs''.
      by rewrite <-app_assoc, Ht, <-Hd.
    + ztest (k <=? len out + len data') false.
      destruct IH as (d'' & -> & Hrest). exists d''. by rewrite <-app_assoc.
Qed.

Lemma packet_bytes_nonempty pkt : packet_ok pkt -> (1 <= length (packet_bytes pkt))%nat.
Proof.
  intros H. destruct (packet_split pkt H) as (h & pay & n & -> & Hh & _).
  rewrite length_app. unfold len in Hh. lia.
Qed.

Lemma feeds_fuel d data prog rest msgs :
  feeds d data prog rest msgs -> (work d msgs + 2 <= length (default [] (s_r (d_s d))) + 3)%nat.
Proof.
  intros [Hmax Hmsgs Hr _ _ _]. rewrite Hr. cbn [default from_option]. unfold id, work.
  assert (length msgs <= length (msgs_bytes msgs))%nat as Hl.
  { clear Hr. induction Hmsgs as [|m msgs [Hm _] Hmsgs IH]; [done|].
    rewrite msgs_bytes_cons, length_app. cbn [length].
    assert (1 <= length (packet_bytes (msg_packet m)))%nat; [|lia].
    apply packet_bytes_nonempty. unfold msg_packet, packet_ok, WithPayload, msg_ok in *.
    unfold MaxPayloadSize, MaxSize, LenSize in *. rewrite len_cons. lia. }
  rewrite !length_app. destruct (len (d_pending d) =? 0); lia.
Qed.

(** Reading in buffers of the given sizes. *)
Fixpoint read_sizes (sizes : list Z) (d : Demuxer) : outcome pkt_error (list (bytes * option demux_error) * Demuxer) :=
  match sizes with
  | [] => mret ([], d)
  | n :: sizes' =>
      '(out, err, d) ← Demuxer_Read d n;
      '(outs, d) ← read_sizes sizes' d;
      mret ((out, err) :: outs, d)
  end.

(** [l] cut into pieces of the given sizes. *)
Fixpoint pieces (sizes : list Z) (l : bytes) : list bytes :=
  match sizes with
  | [] => []
  | n :: sizes' => take (Z.to_nat n) l :: pieces sizes' (drop (Z.to_nat n) l)
  end.

Lemma read_sizes_feeds sizes d data prog rest msgs :
  feeds d data prog rest msgs -> Forall (Z.le 0) sizes -> foldr Z.add 0 sizes <= len data ->
  exists d' msgs', read_sizes sizes d = Ok ((fun p => (p, None)) <$> pieces sizes data, d')
    /\ feeds d' (drop (Z.to_nat (foldr Z.add 0 sizes)) data) prog rest msgs'.
Proof.
  intros Hf Hs. revert d data msgs Hf.
  induction Hs as [|n sizes Hn Hs IH]; intros d data msgs Hf Hsum; cbn [read_sizes pieces foldr] in *.
  - exists d, msgs. done.
  - assert (0 <= foldr Z.add 0 sizes) as Hnn by (clear -Hs; induction Hs; cbn; lia).
    pose proof (Read_loop_feeds _ d data prog rest msgs n [] Hf ltac:(change (len (@nil Z)) with 0; lia)
      (feeds_fuel _ _ _ _ _ Hf)) as Hread.
    cbv zeta in Hread. change (len (@nil Z)) with 0 in Hread. rewrite Z.sub_0_r in Hread.
    replace (n <=? len data) with true in Hread by (symmetry; apply Z.leb_le; lia).
    destruct Hread as (d' & msgs' & Hd & Hf'). unfold Demuxer_Read. rewrite Hd.
    cbn [mbind outcome_bind app].
    destruct (IH d' _ msgs' Hf') as (d'' & msgs'' & -> & Hf'').
    { rewrite len_drop. lia. }
    exists d'', msgs''. split; [done|]. rewrite drop_drop in Hf''.
    by rewrite Z2Nat.inj_add by lia.
Qed.

(** The sideband round-trips.  Data written on the packfile and progress
    channels through a muxer of either type, in any interleaving and split into
    packets as the muxer does, is written without an error; a demuxer of the
    same type reads the packfile data back exactly, in whatever buffer sizes it
    is asked for, then reports end of file at the flush packet, leaving the
    stream after it untouched; all progress messages, sanitized packet by
    packet, have then been written to [Progress] in order. *)
Theorem sideband_roundtrip t calls sizes n rest pout :
  t = Sideband \/ t = Sideband64k ->
  Forall (fun c => c.1 = PackData \/ c.1 = ProgressMessage) calls ->
  Forall (Z.le 0) sizes -> foldr Z.add 0 sizes = len (channel PackData calls) -> 0 < n ->
  exists enc m msgs d d',
    mux_calls calls (NewMuxer t (Some (buffer []))) = Ok (None, m)
    /\ mux_w m = Some (buffer enc)
    /\ channel ProgressMessage msgs = channel ProgressMessage calls
    /\ read_sizes sizes (set_progress (NewDemuxer t (Some (enc ++ flushPkt ++ rest))) (Some (buffer pout)))
       = Ok ((fun p => (p, None)) <$> pieces sizes (channel PackData calls), d)
    /\ Demuxer_Read d n = Ok ([], Some DEOF, d')
    /\ s_r (d_s d') = Some rest
    /\ d_Progress d' = Some (buffer (pout ++ concat ((fun m => sanitize m.2 true) <$>
                          filter (fun m => m.1 = ProgressMessage) msgs))).
Proof.
  intros Ht Hcalls Hsizes Hsum Hn.
  set (max := if t =? Sideband then MaxPackedSize else MaxPackedSize64k).
  assert (max = 1000 \/ max = 65520) as Hmax by (subst max; destruct Ht as [->| ->]; auto).
  destruct (mux_calls_buffer calls (max - 5) []) as (msgs & Hoks & Hch & HP & Hmux).
  { unfold MaxPayloadSize, MaxSize, LenSize. lia. }
  exists (msgs_bytes msgs). cbn [app] in Hmux.
  replace (NewMuxer t (Some (buffer []))) with {| mux_max := max - 5; mux_w := Some (buffer []) |}
    by (unfold NewMuxer; fold max; unfold LenSize, chLen; f_equal; lia).
  rewrite Hmux. eexists. exists msgs.
  pose (d1 := set_progress (NewDemuxer t (Some (msgs_bytes msgs ++ flushPkt ++ rest))) (Some (buffer pout))).
  set (prog1 := pout ++ concat ((fun m => sanitize m.2 true) <$> filter (fun m => m.1 = ProgressMessage) msgs)).
  assert (feeds d1 (channel PackData calls) prog1 rest msgs) as Hf.
  { constructor; try done.
    - cbn. fold max. unfold MaxSize. lia.
    - apply Forall_and. split; [cbn; by fold max|]. by apply (HP (fun t => t = PackData \/ t = ProgressMessage)).
    - cbn. by rewrite Hch.
    - exists pout. done. }
  destruct (read_sizes_feeds sizes d1 _ _ _ _ Hf Hsizes ltac:(lia)) as (d & msgs' & Hread & Hf').
  rewrite drop_ge in Hf' by (rewrite Hsum; unfold len; lia).
  pose proof (Read_loop_feeds _ d [] prog1 rest msgs' n [] Hf' ltac:(change (len (@nil Z)) with 0; lia)
      (feeds_fuel _ _ _ _ _ Hf')) as Hend.
  cbv zeta in Hend. change (len (@nil Z)) with 0 in Hend. rewrite Z.sub_0_r in Hend.
  replace (n <=? 0) with false in Hend by (symmetry; apply Z.leb_gt; lia).
  destruct Hend as (d' & Hend & Hrest & Hprog). exists d, d'.
  split; [done|]. split; [done|]. split; [done|]. split; [done|]. split; [done|]. done.
Qed.

Lemma sideband_roundtrip_witness :
  let calls := [(PackData, bs "PACK"); (ProgressMessage, bs "50%"); (PackData, bs "xy")] in
  exists enc m msgs d d',
    mux_calls calls (NewMuxer Sideband (Some (buffer []))) = Ok (None, m)
    /\ mux_w m = Some (buffer enc)
    /\ channel ProgressMessage msgs = channel ProgressMessage calls
    /\ read_sizes [1; 5] (set_progress (NewDemuxer Sideband (Some (enc ++ flushPkt ++ bs "0000"))) (Some (buffer [])))
       = Ok ((fun p => (p, None)) <$> pieces [1; 5] (channel PackData calls), d)
    /\ Demuxer_Read d 3 = Ok ([], Some DEOF, d')
    /\ s_r (d_s d') = Some (bs "0000")
    /\ d_Progress d' = Some (buffer ([] ++ concat ((fun m => sanitize m.2 true) <$>
                          filter (fun m => m.1 = ProgressMessage) msgs))).
Proof.
  intros calls. apply (sideband_roundtrip Sideband calls [1; 5] 3 (bs "0000") []).
  - by left.
  - subst calls. constructor; [by left|]. constructor; [by right|]. constructor; [by left|constructor].
  - repeat constructor; lia.
  - reflexivity.
  - lia.
Defined.
