(* ===== verification/ObjectId.v ===== *)
(** * Object identifiers: [plumbing/objectid.go]

    An [ObjectID] is an array of 32 bytes and an object format; a SHA1
    identifier uses the first 20 bytes.  The index file, the reference storage
    and the object model are clients of this file. *)
From stdpp Require Import base list numbers option strings.
From Stdlib Require Import ZArith Lia.
From S2P Require Import Prelude.

Open Scope Z_scope.
#[local] Ltac Zify.zify_post_hook ::= Z.to_euclidean_division_equations.

(** ** Object formats ([plumbing/format/config/format.go]) *)

Inductive ObjectFormat := UnsetObjectFormat | SHA1 | SHA256.

#[export] Instance ObjectFormat_eq_dec : EqDecision ObjectFormat.
Proof. solve_decision. Defined.

Definition SHA1Size : Z := 20.
Definition SHA256Size : Z := 32.
Definition SHA1HexSize : Z := SHA1Size * 2.
Definition SHA256HexSize : Z := SHA256Size * 2.

(** Anything but SHA256 has the size of the default format, SHA1. *)
Definition format_Size (f : ObjectFormat) : Z :=
  match f with SHA1 | UnsetObjectFormat => SHA1Size | SHA256 => SHA256Size end.

Definition format_HexSize (f : ObjectFormat) : Z :=
  match f with SHA1 | UnsetObjectFormat => SHA1HexSize | SHA256 => SHA256HexSize end.

(** ** Identifiers *)

Record ObjectID := { oid_hash : bytes; oid_format : ObjectFormat }.

(** Go's [==] on the struct. *)
#[export] Instance ObjectID_eq_dec : EqDecision ObjectID.
Proof. solve_decision. Defined.

Definition zeros (n : Z) : bytes := replicate (Z.to_nat n) 0.
Definition ZeroHash : ObjectID := {| oid_hash := zeros SHA256Size; oid_format := UnsetObjectFormat |}.

(** Go's [copy(dst, src)]. *)
Definition copy (dst src : bytes) : bytes := take (length dst) src ++ drop (length src) dst.

Definition Size (s : ObjectID) : Z := format_Size (oid_format s).
Definition HexSize (s : ObjectID) : Z := format_HexSize (oid_format s).

(** [s.hash[:s.Size()]]: the array has 32 bytes, so the slice is in range. *)
Definition Bytes (s : ObjectID) : bytes := take (Z.to_nat (Size s)) (oid_hash s).

Definition Compare (s : ObjectID) (b : bytes) : comparison := bytes_compare (Bytes s) b.
Definition Equal (s t : ObjectID) : bool := bool_decide (oid_hash s = oid_hash t).
Definition IsZero (s : ObjectID) : bool := bool_decide (oid_hash s = zeros SHA256Size).

Definition oid_HasPrefix (s : ObjectID) (prefix : bytes) : bool := HasPrefix (Bytes s) prefix.

Definition oid_Write (s : ObjectID) (b : bytes) : ObjectID :=
  {| oid_hash := copy (oid_hash s) b; oid_format := oid_format s |}.

Definition ResetBySize (idSize : Z) : ObjectID :=
  {| oid_hash := zeros SHA256Size;
     oid_format := if idSize =? SHA256Size then SHA256 else UnsetObjectFormat |}.

(** The identifier and the rest of the input. *)
Definition ReadFrom (s : ObjectID) (r : bytes) : outcome ioerr (ObjectID * bytes) :=
  '(b, r) ← ReadFull (Size s) r;
  mret ({| oid_hash := copy (oid_hash s) b; oid_format := oid_format s |}, r).

Definition FromBytes (b : bytes) : ObjectID * bool :=
  if len b =? SHA1Size then
    ({| oid_hash := copy (zeros SHA256Size) b; oid_format := UnsetObjectFormat |}, true)
  else if len b =? SHA256Size then
    ({| oid_hash := copy (zeros SHA256Size) b; oid_format := SHA256 |}, true)
  else (ZeroHash, false).

(** ** Hexadecimal ([encoding/hex]) *)

Definition hex_nibble (c : Z) : option Z :=
  if (48 <=? c) && (c <=? 57) then Some (c - 48)
  else if (97 <=? c) && (c <=? 102) then Some (c - 97 + 10)
  else if (65 <=? c) && (c <=? 70) then Some (c - 65 + 10)
  else None.

Fixpoint hex_decode (s : bytes) : option bytes :=
  match s with
  | [] => Some []
  | [_] => None
  | a :: b :: s' =>
      x ← hex_nibble a; y ← hex_nibble b; l ← hex_decode s'; Some (16 * x + y :: l)
  end.

Definition hex_digit (x : Z) : Z := if x <? 10 then 48 + x else 97 + x - 10.

Fixpoint hex_encode (l : bytes) : bytes :=
  match l with
  | [] => []
  | b :: l' => hex_digit (b `div` 16) :: hex_digit (b `mod` 16) :: hex_encode l'
  end.

Definition FromHex (s : bytes) : ObjectID * bool :=
  let id := {| oid_hash := zeros SHA256Size;
               oid_format := if len s =? SHA256HexSize then SHA256 else UnsetObjectFormat |} in
  match hex_decode s with
  | Some out => (oid_Write id out, true)
  | None => (id, false)
  end.

Definition oid_String (s : ObjectID) : bytes := hex_encode (Bytes s).

(** ** Well-formed identifiers

    Those the constructors produce: no bytes beyond the size of the format. *)
Record oid_ok (s : ObjectID) : Prop := {
  oid_len : len (oid_hash s) = SHA256Size;
  oid_bytes : bytes_ok (oid_hash s);
  oid_tail : drop (Z.to_nat (Size s)) (oid_hash s) = zeros (SHA256Size - Size s);
  oid_fmt : oid_format s <> SHA1;
}.

(** The identifier of format [f] with the given bytes. *)
Definition oid_of (f : ObjectFormat) (b : bytes) : ObjectID :=
  {| oid_hash := b ++ zeros (SHA256Size - len b); oid_format := f |}.

Lemma Size_cases s : (Size s = 20 /\ oid_format s <> SHA256) \/ (Size s = 32 /\ oid_format s = SHA256).
Proof. unfold Size. destruct (oid_format s); [left|left|right]; done. Qed.

Lemma Size_bound s : 20 <= Size s <= 32.
Proof. destruct (Size_cases s) as [[-> _]|[-> _]]; lia. Qed.

Lemma zeros_len n : 0 <= n -> len (zeros n) = n.
Proof. intros. unfold zeros. rewrite len_replicate. lia. Qed.

Lemma zeros_ok n : bytes_ok (zeros n).
Proof. apply Forall_replicate. unfold is_byte. lia. Qed.

Lemma Bytes_len s : len (oid_hash s) = SHA256Size -> len (Bytes s) = Size s.
Proof.
  intros H. unfold Bytes. rewrite len_take, H. pose proof (Size_bound s). unfold SHA256Size. lia.
Qed.

Lemma Bytes_ok s : bytes_ok (oid_hash s) -> bytes_ok (Bytes s).
Proof. intros. by apply bytes_ok_take. Qed.

Lemma oid_eta s : oid_ok s -> s = oid_of (oid_format s) (Bytes s).
Proof.
  intros [Hl Hb Ht Hf]. destruct s as [h f]. unfold oid_of. f_equal. cbn [oid_hash oid_format] in *.
  rewrite Bytes_len by done. rewrite <-Ht. unfold Bytes. by rewrite take_drop.
Qed.

Lemma oid_of_Bytes f b : len b = format_Size f -> Bytes (oid_of f b) = b.
Proof.
  intros Hl. unfold Bytes, Size, oid_of. cbn [oid_hash oid_format]. rewrite <-Hl.
  unfold len. rewrite Nat2Z.id. apply take_app_length.
Qed.

Lemma oid_of_ok f b : f <> SHA1 -> len b = format_Size f -> bytes_ok b -> oid_ok (oid_of f b).
Proof.
  intros Hf Hl Hb. assert (20 <= len b <= 32) by (rewrite Hl; destruct f; done).
  constructor; cbn [oid_of oid_hash oid_format].
  - rewrite len_app, zeros_len; unfold SHA256Size; lia.
  - apply bytes_ok_app. split; [done|apply zeros_ok].
  - unfold Size. change (oid_format (oid_of f b)) with f. rewrite <-Hl. unfold len at 1. rewrite Nat2Z.id.
    by rewrite drop_app_length.
  - done.
Qed.

(** Identifiers of one format are equal when their bytes are. *)
Lemma Bytes_inj s t : oid_ok s -> oid_ok t -> Bytes s = Bytes t -> s = t.
Proof.
  intros Hs Ht Hb. rewrite (oid_eta s Hs), (oid_eta t Ht), Hb. f_equal.
  assert (Size s = Size t) as Hsz
    by (rewrite <-(Bytes_len s) by apply Hs; rewrite <-(Bytes_len t) by apply Ht; by rewrite Hb).
  destruct Hs as [_ _ _ Hsf], Ht as [_ _ _ Htf]. unfold Size in Hsz.
  destruct (oid_format s), (oid_format t); done.
Qed.

Lemma copy_full dst src : length src = length dst -> copy dst src = src.
Proof. intros H. unfold copy. rewrite take_ge, drop_ge by lia. apply app_nil_r. Qed.

Lemma copy_zeros b : len b <= SHA256Size -> copy (zeros SHA256Size) b = b ++ zeros (SHA256Size - len b).
Proof.
  intros H. pose proof (len_nonneg b). unfold copy, zeros, SHA256Size in *. unfold len in *.
  rewrite take_ge by (rewrite length_replicate; lia). f_equal.
  rewrite drop_replicate. f_equal. lia.
Qed.

(** ** Hexadecimal round trips *)

Lemma hex_nibble_digit x : 0 <= x < 16 -> hex_nibble (hex_digit x) = Some x.
Proof.
  intros Hx. unfold hex_digit. destruct (Z.ltb_spec x 10); unfold hex_nibble.
  - ztest (48 <=? 48 + x) true. ztest (48 + x <=? 57) true. cbn. f_equal. lia.
  - ztest (48 <=? 97 + x - 10) true. ztest (97 + x - 10 <=? 57) false.
    ztest (97 <=? 97 + x - 10) true. ztest (97 + x - 10 <=? 102) true. cbn. f_equal. lia.
Qed.

Lemma hex_decode_encode l : bytes_ok l -> hex_decode (hex_encode l) = Some l.
Proof.
  induction 1 as [|b l Hb Hl IH]; [done|]. unfold is_byte in Hb. cbn [hex_encode hex_decode].
  rewrite !hex_nibble_digit by lia. cbn. rewrite IH. cbn. do 2 f_equal. lia.
Qed.

Lemma hex_encode_len l : len (hex_encode l) = 2 * len l.
Proof. induction l as [|b l IH]; [done|]. cbn [hex_encode]. rewrite !len_cons, IH. lia. Qed.

Lemma FromBytes_of b f :
  f <> SHA1 -> len b = format_Size f -> FromBytes b = (oid_of f b, true).
Proof.
  intros Hf Hl. unfold FromBytes. destruct f; try done; cbn [format_Size] in Hl;
    unfold SHA1Size, SHA256Size in *; rewrite Hl.
  - change (20 =? 20) with true. cbn iota. rewrite copy_zeros by (unfold SHA256Size; lia). done.
  - change (32 =? 20) with false. change (32 =? 32) with true. cbn iota.
    rewrite copy_zeros by (unfold SHA256Size; lia). done.
Qed.

Lemma FromHex_String s : oid_ok s -> FromHex (oid_String s) = (s, true).
Proof.
  intros Hs. pose proof Hs as [Hl Hb Htl Hf]. pose proof (Bytes_len s Hl) as HB.
  unfold FromHex, oid_String. rewrite hex_decode_encode by (by apply Bytes_ok).
  rewrite hex_encode_len, HB. f_equal. rewrite (oid_eta s Hs) at 3.
  unfold oid_Write, oid_of. cbn [oid_hash oid_format]. f_equal.
  - rewrite copy_zeros; [done|]. rewrite HB. pose proof (Size_bound s). unfold SHA256Size. lia.
  - unfold SHA256HexSize, SHA256Size. destruct (Size_cases s) as [[-> H]|[-> H]]; cbn.
    + by destruct (oid_format s).
    + done.
Qed.

Lemma ReadFrom_app sz h r :
  sz = 20 \/ sz = 32 -> oid_ok h -> Size h = sz -> ReadFrom (ResetBySize sz) (Bytes h ++ r) = Ok (h, r).
Proof.
  intros Hsz Hh Hs. unfold ReadFrom. assert (Size (ResetBySize sz) = sz) as -> by (by destruct Hsz as [-> | ->]).
  replace sz with (len (Bytes h)) at 1 by (rewrite Bytes_len, Hs by apply Hh; done).
  rewrite ReadFull_app. cbn [mbind outcome_bind mret outcome_ret]. do 2 f_equal.
  rewrite (oid_eta h Hh) at 2. unfold oid_of. f_equal.
  - cbn [ResetBySize oid_hash]. rewrite copy_zeros; [done|]. rewrite Bytes_len by apply Hh. unfold SHA256Size. lia.
  - cbn [ResetBySize oid_format]. destruct (Size_cases h) as [[H1 H2]|[H1 H2]].
    + assert (sz = 20) as -> by lia. destruct Hh as [_ _ _ Hf]. by destruct (oid_format h).
    + by assert (sz = 32) as -> by lia.
Qed.

(** Identifiers round-trip through both of their representations.  For a
    well-formed identifier of either format, [FromHex] of its string and
    [FromBytes] of its bytes succeed and give it back; two well-formed
    identifiers compare equal exactly when they are equal. *)
Theorem ObjectID_roundtrip s t :
  oid_ok s -> oid_ok t ->
  FromHex (oid_String s) = (s, true) /\ FromBytes (Bytes s) = (s, true)
  /\ (Compare s (Bytes t) = Eq <-> s = t).
Proof.
  intros Hs Ht. pose proof Hs as [Hl Hb Htl Hf].
  pose proof (Bytes_len s Hl) as HB. split; [|split].
  - by apply FromHex_String.
  - rewrite (FromBytes_of _ (oid_format s)) by done. by rewrite <-oid_eta.
  - unfold Compare. rewrite bytes_compare_eq. split; [by apply Bytes_inj|by intros ->].
Qed.

Lemma ObjectID_roundtrip_witness :
  let s := oid_of UnsetObjectFormat (replicate 20 171) in
  FromHex (oid_String s) = (s, true) /\ FromBytes (Bytes s) = (s, true)
  /\ (Compare s (Bytes s) = Eq <-> s = s).
Proof.
  intros s. assert (oid_ok s) as H.
  { apply oid_of_ok; [discriminate|reflexivity|]. apply (bool_decide_unpack _). vm_compute. exact I. }
  exact (ObjectID_roundtrip s s H H).
Defined.

(** A string of any even length is accepted: one of 42 digits gives an
    identifier with a byte beyond its 20. *)
Lemma FromHex_overlong :
  exists id, FromHex (bs "ababababababababababababababababababababab") = (id, true) /\ Size id = 20
    /\ drop 20 (oid_hash id) <> zeros 12.
Proof. eexists. split; [vm_compute; reflexivity|]. split; [reflexivity|]. vm_compute. congruence. Qed.
