(* ===== verification/Object.v ===== *)
(** * Objects: [plumbing/object.go], [plumbing/memory.go], [plumbing/hasher.go]

    Object types, encoded objects, and the objects kept in memory with the
    hash of their content.  The digest (SHA1 or SHA256, of the Go library's
    crypto packages) is a parameter. *)
From stdpp Require Import base list numbers option strings.
From Stdlib Require Import ZArith Lia.
From S2P Require Import Prelude GoStrings ObjectId.

Open Scope Z_scope.

(** ** Types *)

Inductive ObjectType :=
  | InvalidObject | CommitObject | TreeObject | BlobObject | TagObject
  | OFSDeltaObject | REFDeltaObject | AnyObject.

#[export] Instance ObjectType_eq_dec : EqDecision ObjectType.
Proof. solve_decision. Defined.

Definition type_String (t : ObjectType) : bytes :=
  match t with
  | CommitObject => bs "commit"
  | TreeObject => bs "tree"
  | BlobObject => bs "blob"
  | TagObject => bs "tag"
  | OFSDeltaObject => bs "ofs-delta"
  | REFDeltaObject => bs "ref-delta"
  | AnyObject => bs "any"
  | InvalidObject => bs "unknown"
  end.

Definition Valid (t : ObjectType) : bool :=
  match t with
  | CommitObject | TreeObject | BlobObject | TagObject | OFSDeltaObject | REFDeltaObject => true
  | _ => false
  end.

Definition IsDelta (t : ObjectType) : bool :=
  match t with REFDeltaObject | OFSDeltaObject => true | _ => false end.

(** The type, and whether there is no error. *)
Definition ParseObjectType (value : bytes) : ObjectType * bool :=
  if bool_decide (value = bs "commit") then (CommitObject, true)
  else if bool_decide (value = bs "tree") then (TreeObject, true)
  else if bool_decide (value = bs "blob") then (BlobObject, true)
  else if bool_decide (value = bs "tag") then (TagObject, true)
  else if bool_decide (value = bs "ofs-delta") then (OFSDeltaObject, true)
  else if bool_decide (value = bs "ref-delta") then (REFDeltaObject, true)
  else (InvalidObject, false).

(** What the stores and decoders use of a [plumbing.EncodedObject]. *)
Record EncodedObject := { eo_Type : ObjectType; eo_Hash : ObjectID; eo_Data : bytes }.

#[export] Instance EncodedObject_eq_dec : EqDecision EncodedObject.
Proof. solve_decision. Defined.

Definition eo_Size (o : EncodedObject) : Z := len (eo_Data o).

(** ** Hashing *)

(** The header that is hashed before the content. *)
Definition writeHeader (t : ObjectType) (sz : Z) : bytes := type_String t ++ [32] ++ FormatInt sz ++ [0].

Section hasher.
Context (digest : ObjectFormat -> bytes -> bytes).

(** [FromObjectFormat]: anything but SHA256 is SHA1, with the format unset. *)
Definition FromObjectFormat (f : ObjectFormat) : ObjectFormat :=
  match f with SHA256 => SHA256 | _ => UnsetObjectFormat end.

Definition Compute (oh : ObjectFormat) (ot : ObjectType) (d : bytes) : ObjectID :=
  {| oid_hash := copy (zeros SHA256Size) (digest oh (writeHeader ot (len d) ++ d)); oid_format := oh |}.

(** *** Objects in memory *)

Record MemoryObject := {
  mo_t : ObjectType;
  mo_h : ObjectID;
  mo_cont : bytes;
  mo_sz : Z;
  mo_oh : option ObjectFormat;
}.

Definition NewMemoryObject (oh : option ObjectFormat) : MemoryObject :=
  {| mo_t := InvalidObject; mo_h := ZeroHash; mo_cont := []; mo_sz := 0; mo_oh := oh |}.

(** The hash, computed by the first call, and the object after the call. *)
Definition mo_Hash (o : MemoryObject) : ObjectID * MemoryObject :=
  if IsZero (mo_h o) && (len (mo_cont o) =? mo_sz o) then
    let oh := match mo_oh o with None => FromObjectFormat SHA1 | Some oh => oh end in
    let h := Compute oh (mo_t o) (mo_cont o) in
    let o := {| mo_t := mo_t o; mo_h := h; mo_cont := mo_cont o; mo_sz := mo_sz o; mo_oh := Some oh |} in
    if IsZero h then (ZeroHash, o) else (h, o)
  else if IsZero (mo_h o) then (ZeroHash, o) else (mo_h o, o).

Definition mo_SetType (t : ObjectType) (o : MemoryObject) : MemoryObject :=
  {| mo_t := t; mo_h := mo_h o; mo_cont := mo_cont o; mo_sz := mo_sz o; mo_oh := mo_oh o |}.

Definition mo_SetSize (s : Z) (o : MemoryObject) : MemoryObject :=
  {| mo_t := mo_t o; mo_h := mo_h o; mo_cont := mo_cont o; mo_sz := s; mo_oh := mo_oh o |}.

(** [Write] never fails; it returns the number of bytes written. *)
Definition mo_Write (p : bytes) (o : MemoryObject) : Z * MemoryObject :=
  let cont := mo_cont o ++ p in
  (len p, {| mo_t := mo_t o; mo_h := mo_h o; mo_cont := cont; mo_sz := len cont; mo_oh := mo_oh o |}).

Fixpoint mo_writes (ps : list bytes) (o : MemoryObject) : MemoryObject :=
  match ps with [] => o | p :: ps' => mo_writes ps' (mo_Write p o).2 end.

(** ** Properties *)

Lemma ParseObjectType_String t : Valid t = true -> ParseObjectType (type_String t) = (t, true).
Proof. by destruct t. Qed.

Lemma type_String_no_space t : 32 ∉ type_String t.
Proof. apply (bool_decide_unpack _). by destruct t; vm_compute. Qed.

Lemma type_String_inj t t' : Valid t = true -> Valid t' = true -> type_String t = type_String t' -> t = t'.
Proof.
  intros Ht Ht' H. apply (f_equal ParseObjectType) in H. rewrite !ParseObjectType_String in H by done.
  by injection H.
Qed.

Lemma FormatInt_no_nul n : 0 <= n < 2 ^ 64 -> 0 ∉ FormatUint n.
Proof.
  intros Hn H. destruct (FormatUint_spec n Hn) as (_ & Hd & _). rewrite Forall_forall in Hd.
  specialize (Hd _ H). unfold is_decimal in Hd. lia.
Qed.

(** What is hashed determines the object.  The text given to the digest,
    the type, a space, the decimal length, a zero byte and the content, is
    different for objects of different valid types or different contents; so
    two objects of one hash are equal unless the digest collides. *)
Theorem hash_input_injective t t' d d' :
  Valid t = true -> Valid t' = true -> len d < 2 ^ 63 -> len d' < 2 ^ 63 ->
  writeHeader t (len d) ++ d = writeHeader t' (len d') ++ d' -> t = t' /\ d = d'.
Proof.
  intros Ht Ht' Hd Hd' H. unfold writeHeader in H. rewrite <-!app_assoc in H.
  assert (forall t d, cut_at 32 (type_String t ++ [32] ++ FormatInt (len d) ++ [0] ++ d)
    = Some (type_String t, FormatInt (len d) ++ [0] ++ d)) as Hcut
    by (intros; apply cut_at_app, type_String_no_space).
  assert (forall d, len d < 2 ^ 63 -> cut_at 0 (FormatInt (len d) ++ [0] ++ d) = Some (FormatInt (len d), d)) as Hcut0.
  { intros d0 H0. apply cut_at_app. pose proof (len_nonneg d0). unfold FormatInt. ztest (len d0 <? 0) false.
    apply FormatInt_no_nul. lia. }
  apply (f_equal (cut_at 32)) in H. rewrite !Hcut in H. injection H as H1 H2.
  split; [by apply type_String_inj|]. apply (f_equal (cut_at 0)) in H2. rewrite !Hcut0 in H2 by done.
  by injection H2.
Qed.

(** The object after any writes has their content and its size, and its hash
    is the digest of both with the type at the first call. *)
Lemma mo_writes_spec ps o :
  mo_cont (mo_writes ps o) = mo_cont o ++ concat ps
  /\ (mo_sz o = len (mo_cont o) -> mo_sz (mo_writes ps o) = len (mo_cont (mo_writes ps o)))
  /\ mo_t (mo_writes ps o) = mo_t o /\ mo_h (mo_writes ps o) = mo_h o /\ mo_oh (mo_writes ps o) = mo_oh o.
Proof.
  revert o. induction ps as [|p ps IH]; intros o; [by rewrite app_nil_r|]. cbn [mo_writes concat].
  destruct (IH (mo_Write p o).2) as (-> & Hs & -> & -> & ->). rewrite app_assoc. split; [done|].
  split; [intros _; by apply Hs|done].
Qed.
End hasher.

Lemma hash_input_injective_witness :
  let d := bs "hello" in
  writeHeader BlobObject (len d) ++ d = writeHeader BlobObject (len d) ++ d /\ d = d.
Proof.
  intros d. split; [reflexivity|].
  exact (proj2 (hash_input_injective BlobObject BlobObject d d eq_refl eq_refl ltac:(reflexivity) ltac:(reflexivity) eq_refl)).
Defined.
