(* ===== verification/Idxfile.v ===== *)
(** * Pack index files: [plumbing/format/idxfile]

    The in-memory index ([idxfile.go]): lookup by object name with a fanout
    table and binary search, lookup by offset, and the iterators; the writer
    that builds an index from the objects of a pack ([writer.go]); the decoder
    ([decoder.go]) and encoder ([encoder.go]) of version 2 index files.
    The locks of [MemoryIndex] and [Writer] serialise whole operations; the
    model is of the operations. *)
From stdpp Require Import base list numbers option gmap sorting.
From Stdlib Require Import ZArith Lia.
From S2P Require Import Prelude ObjectId.

Open Scope Z_scope.
#[local] Ltac Zify.zify_post_hook ::= Z.to_euclidean_division_equations.

(** ** Data *)

Definition VersionSupported : Z := 2.
Definition noMapping : Z := -1.
Definition fanout : Z := 256.
Definition idxHeader : bytes := [255; 116; 79; 99].
Definition isO64Mask : Z := Z.shiftl 1 31.

Inductive idx_error :=
  | ErrUnsupportedVersion
  | ErrMalformedIdxFile
  | ErrObjectNotFound
  | ErrIdxRead (e : ioerr)
  | ErrNilArgument
  | ErrNotFinished
  | ErrHashSize.

Record Entry := { e_Hash : ObjectID; e_CRC32 : Z; e_Offset : Z }.

Record MemoryIndex := {
  Version : Z;
  Fanout : list Z;
  FanoutMapping : list Z;
  Names : list bytes;
  Offset32 : list bytes;
  CRC32 : list bytes;
  Offset64 : bytes;
  PackfileChecksum : ObjectID;
  IdxChecksum : ObjectID;
  offsetHash : option (gmap Z ObjectID);   (* [None]: the nil map *)
  offsetBuilt : bool;                      (* [offsetBuildOnce] has run *)
  objectIDSize : Z;
}.

Definition set_offsetHash (idx : MemoryIndex) (m : option (gmap Z ObjectID)) (built : bool) : MemoryIndex :=
  {| Version := Version idx; Fanout := Fanout idx; FanoutMapping := FanoutMapping idx;
     Names := Names idx; Offset32 := Offset32 idx; CRC32 := CRC32 idx; Offset64 := Offset64 idx;
     PackfileChecksum := PackfileChecksum idx; IdxChecksum := IdxChecksum idx;
     offsetHash := m; offsetBuilt := built; objectIDSize := objectIDSize idx |}.

Definition NewMemoryIndex (objectIDSize : Z) : MemoryIndex :=
  {| Version := 0; Fanout := replicate 256 0; FanoutMapping := replicate 256 0;
     Names := []; Offset32 := []; CRC32 := []; Offset64 := [];
     PackfileChecksum := ResetBySize objectIDSize; IdxChecksum := ResetBySize objectIDSize;
     offsetHash := None; offsetBuilt := false; objectIDSize := objectIDSize |}.

Definition idSize (idx : MemoryIndex) : Z :=
  if negb (objectIDSize idx =? 0) then objectIDSize idx else SHA1Size.

(** ** Lookup by name *)

Fixpoint findHashIndex_loop (fuel : nat) (h : ObjectID) (data : bytes) (idSz low high : Z)
    : outcome idx_error (Z * bool) :=
  match fuel with
  | O => NoFuel
  | S f =>
      let mid := Z.shiftr (u64 (low + high)) 1 in
      let offset := u64 (mid * idSz) in
      name ← slice data offset (offset + idSz);
      match Compare h name with
      | Eq => mret (mid, true)
      | Lt => if low >=? mid then mret (0, false) else findHashIndex_loop f h data idSz low mid
      | Gt => if mid + 1 >=? high then mret (0, false)
              else findHashIndex_loop f h data idSz (mid + 1) high
      end
  end.

(** The interval shrinks in every round, so [high] rounds are enough. *)
Definition findHashIndex (idx : MemoryIndex) (h : ObjectID) : outcome idx_error (Z * bool) :=
  b0 ← index (Bytes h) 0;
  k ← index (FanoutMapping idx) b0;
  if k =? noMapping then mret (0, false)
  else if len (Names idx) <=? k then mret (0, false)
  else
    data ← index (Names idx) k;
    o32 ← index (Offset32 idx) k;
    let high := Z.shiftr (len o32) 2 in
    if high =? 0 then mret (0, false)
    else findHashIndex_loop (Z.to_nat high + 1) h data (idSize idx) 0 high.

Definition MayContain (idx : MemoryIndex) (h : ObjectID) : outcome idx_error bool :=
  b0 ← index (Bytes h) 0;
  k ← index (FanoutMapping idx) b0;
  mret (negb (k =? noMapping)).

Definition Contains (idx : MemoryIndex) (h : ObjectID) : outcome idx_error bool :=
  '(_, ok) ← findHashIndex idx h;
  mret ok.

(** The common part of [getOffset] and [bucketOffset]. *)
Definition offset_word (o32 offset64 : bytes) (pos : Z) : outcome idx_error Z :=
  let offset := Z.shiftl pos 2 in
  w ← slice o32 offset (offset + 4);
  let ofs := be_val w in
  if negb (Z.land ofs isO64Mask =? 0) then
    let offset := 8 * Z.ldiff ofs isO64Mask in
    let l := len offset64 in
    if (l <? 8) || (offset >? l - 8) then Err ErrMalformedIdxFile
    else v ← slice offset64 offset (offset + 8); mret (be_val v)
  else mret ofs.

Definition getOffset (idx : MemoryIndex) (firstLevel secondLevel : Z) : outcome idx_error Z :=
  o32 ← index (Offset32 idx) firstLevel;
  offset_word o32 (Offset64 idx) secondLevel.

Definition crc_word (crc : bytes) (pos : Z) : outcome idx_error Z :=
  let offset := Z.shiftl pos 2 in
  w ← slice crc offset (offset + 4);
  mret (be_val w).

Definition getCRC32 (idx : MemoryIndex) (firstLevel secondLevel : Z) : outcome idx_error Z :=
  crc ← index (CRC32 idx) firstLevel;
  crc_word crc secondLevel.

(** The offset, and the index with the offset saved for reverse lookup. *)
Definition FindOffset (idx : MemoryIndex) (h : ObjectID) : outcome idx_error (Z * MemoryIndex) :=
  fo ← index (Bytes h) 0;
  if len (FanoutMapping idx) <=? fo then Err ErrObjectNotFound
  else
    k ← index (FanoutMapping idx) fo;
    '(i, ok) ← findHashIndex idx h;
    if negb ok then Err ErrObjectNotFound
    else
      offset ← getOffset idx k i;
      mret (i64 offset, set_offsetHash idx (Some (<[i64 offset := h]> (default ∅ (offsetHash idx))))
                          (offsetBuilt idx)).

Definition FindCRC32 (idx : MemoryIndex) (h : ObjectID) : outcome idx_error Z :=
  b0 ← index (Bytes h) 0;
  k ← index (FanoutMapping idx) b0;
  '(i, ok) ← findHashIndex idx h;
  if negb ok then Err ErrObjectNotFound else getCRC32 idx k i.

(** ** Lookup by offset *)

(** The inner loop of [genOffsetHash]: [n] entries of one bucket.  [hash] is
    overwritten, not reset, from one entry to the next. *)
Fixpoint genOffsetHash_bucket (idx : MemoryIndex) (n : nat) (mapped second : Z) (hash : ObjectID)
    (m : gmap Z ObjectID) : outcome idx_error (ObjectID * gmap Z ObjectID) :=
  match n with
  | O => mret (hash, m)
  | S n' =>
      names ← index (Names idx) mapped;
      name ← slice names (u32 (second * idSize idx)) (len names);
      let hash := oid_Write hash name in
      off ← getOffset idx mapped second;
      genOffsetHash_bucket idx n' mapped (second + 1) hash (<[i64 off := hash]> m)
  end.

(** The outer loop, over the fanout table and its mapping; [i] entries have
    been seen. *)
Fixpoint genOffsetHash_loop (idx : MemoryIndex) (fans maps : list Z) (i : Z) (hash : ObjectID)
    (m : gmap Z ObjectID) : outcome idx_error (gmap Z ObjectID) :=
  match fans, maps with
  | fan :: fans', mapped :: maps' =>
      '(hash, m) ← genOffsetHash_bucket idx (Z.to_nat (fan - i)) mapped 0 hash m;
      genOffsetHash_loop idx fans' maps' (Z.max i fan) hash m
  | _, _ => mret m
  end.

Definition genOffsetHash (idx : MemoryIndex) : outcome idx_error (gmap Z ObjectID) :=
  genOffsetHash_loop idx (Fanout idx) (FanoutMapping idx) 0 (ResetBySize (objectIDSize idx)) ∅.

(** The identifier or the error, and the index afterwards: the table is built
    at most once, also when building it fails. *)
Definition FindHash (idx : MemoryIndex) (o : Z)
    : outcome idx_error ((ObjectID + idx_error) * MemoryIndex) :=
  match offsetHash idx ≫= (fun m => m !! o) with
  | Some hash => mret (inl hash, idx)
  | None =>
      let lookup (idx : MemoryIndex) :=
        match offsetHash idx ≫= (fun m => m !! o) with
        | Some hash => (inl hash, idx)
        | None => (inr ErrObjectNotFound, idx)
        end in
      if offsetBuilt idx then mret (lookup idx)
      else
        match genOffsetHash idx with
        | Ok m => mret (lookup (set_offsetHash idx (Some m) true))
        | Err e => mret (inr e, set_offsetHash idx (offsetHash idx) true)
        | Panic => Panic
        | NoFuel => NoFuel
        end
  end.

(** ** Iterators *)

Definition Count (idx : MemoryIndex) : outcome idx_error Z := index (Fanout idx) (fanout - 1).

Record idxfileEntryIter := { it_total : Z; it_first : Z; it_second : Z }.

Definition Entries : idxfileEntryIter := {| it_total := 0; it_first := 0; it_second := 0 |}.

(** [None] is [io.EOF]. *)
Fixpoint Entries_Next (fuel : nat) (idx : MemoryIndex) (i : idxfileEntryIter)
    : outcome idx_error (option Entry * idxfileEntryIter) :=
  match fuel with
  | O => NoFuel
  | S f =>
      if it_first i >=? fanout then mret (None, i)
      else
        fan ← index (Fanout idx) (it_first i);
        if it_total i >=? fan then
          Entries_Next f idx {| it_total := it_total i; it_first := it_first i + 1; it_second := 0 |}
        else
          mapped ← index (FanoutMapping idx) (it_first i);
          names ← index (Names idx) mapped;
          name ← slice names (it_second i * idSize idx) (len names);
          let hash := oid_Write (ResetBySize (idSize idx)) name in
          offset ← getOffset idx mapped (it_second i);
          crc ← getCRC32 idx mapped (it_second i);
          mret (Some {| e_Hash := hash; e_CRC32 := crc; e_Offset := offset |},
                {| it_total := it_total i + 1; it_first := it_first i; it_second := it_second i + 1 |})
  end.

(** A call advances [firstLevel] at most 256 times. *)
Definition entries_fuel : nat := 258.

(** [for { e, err := it.Next(); if err == io.EOF { break } }]. *)
Fixpoint drain (n : nat) (idx : MemoryIndex) (i : idxfileEntryIter) : outcome idx_error (list Entry) :=
  match n with
  | O => NoFuel
  | S n' =>
      '(e, i) ← Entries_Next entries_fuel idx i;
      match e with
      | None => mret []
      | Some e => es ← drain n' idx i; mret (e :: es)
      end
  end.

(** [EntriesByOffset]: [count] entries of the iterator, sorted; its end is an
    error there. *)
Fixpoint take_entries (n : nat) (idx : MemoryIndex) (i : idxfileEntryIter) : outcome idx_error (list Entry) :=
  match n with
  | O => mret []
  | S n' =>
      '(e, i) ← Entries_Next entries_fuel idx i;
      match e with
      | None => Err (ErrIdxRead EOF)
      | Some e => es ← take_entries n' idx i; mret (e :: es)
      end
  end.

Definition offset_le (a b : Entry) : Prop := ~ e_Offset b < e_Offset a.
#[export] Instance offset_le_dec a b : Decision (offset_le a b).
Proof. unfold offset_le. apply _. Defined.

Record idxfileEntryOffsetIter := { oi_entries : list Entry; oi_pos : Z }.

Definition EntriesByOffset (idx : MemoryIndex) : outcome idx_error idxfileEntryOffsetIter :=
  count ← Count idx;
  entries ← take_entries (Z.to_nat count) idx Entries;
  mret {| oi_entries := merge_sort offset_le entries; oi_pos := 0 |}.

Definition EntriesByOffset_Next (i : idxfileEntryOffsetIter)
    : outcome idx_error (option Entry * idxfileEntryOffsetIter) :=
  if oi_pos i >=? len (oi_entries i) then mret (None, i)
  else
    entry ← index (oi_entries i) (oi_pos i);
    mret (Some entry, {| oi_entries := oi_entries i; oi_pos := oi_pos i + 1 |}).

Fixpoint drain_offset (n : nat) (i : idxfileEntryOffsetIter) : outcome idx_error (list Entry) :=
  match n with
  | O => NoFuel
  | S n' =>
      '(e, i) ← EntriesByOffset_Next i;
      match e with
      | None => mret []
      | Some e => es ← drain_offset n' i; mret (e :: es)
      end
  end.

Record idxfilePrefixIter := {
  px_idSize : Z; px_prefix : bytes; px_names : bytes; px_offset32 : bytes; px_crc32 : bytes;
  px_offset64 : bytes; px_pos : Z; px_done : bool;
}.

(** The binary search for the first name that is not below [target]. *)
Fixpoint lower_bound (fuel : nat) (names target : bytes) (idSz lo hi : Z) : outcome idx_error Z :=
  match fuel with
  | O => NoFuel
  | S f =>
      if lo <? hi then
        let mid := Z.shiftr (lo + hi) 1 in
        slot ← slice names (mid * idSz) ((mid + 1) * idSz);
        match bytes_compare slot target with
        | Lt => lower_bound f names target idSz (mid + 1) hi
        | _ => lower_bound f names target idSz lo mid
        end
      else mret lo
  end.

(** The iterator of [Entries] for the empty prefix. *)
Definition EntriesWithPrefix (idx : MemoryIndex) (prefix : bytes)
    : outcome idx_error (idxfileEntryIter + idxfilePrefixIter) :=
  if len prefix =? 0 then mret (inl Entries)
  else
    p0 ← index prefix 0;
    bucket ← index (FanoutMapping idx) p0;
    if bucket =? noMapping then
      mret (inr {| px_idSize := 0; px_prefix := []; px_names := []; px_offset32 := []; px_crc32 := [];
                   px_offset64 := []; px_pos := 0; px_done := true |})
    else
      names ← index (Names idx) bucket;
      let n := len names `quot` idSize idx in
      lo ← lower_bound (Z.to_nat n + 1) names (copy (zeros (idSize idx)) prefix) (idSize idx) 0 n;
      o32 ← index (Offset32 idx) bucket;
      crc ← index (CRC32 idx) bucket;
      mret (inr {| px_idSize := idSize idx; px_prefix := prefix; px_names := names; px_offset32 := o32;
                   px_crc32 := crc; px_offset64 := Offset64 idx; px_pos := lo; px_done := false |}).

Definition px_finish (i : idxfilePrefixIter) : idxfilePrefixIter :=
  {| px_idSize := px_idSize i; px_prefix := px_prefix i; px_names := px_names i;
     px_offset32 := px_offset32 i; px_crc32 := px_crc32 i; px_offset64 := px_offset64 i;
     px_pos := px_pos i; px_done := true |}.

Definition Prefix_Next (i : idxfilePrefixIter) : outcome idx_error (option Entry * idxfilePrefixIter) :=
  if px_done i then mret (None, i)
  else
    let offset := px_pos i * px_idSize i in
    if offset + px_idSize i >? len (px_names i) then mret (None, px_finish i)
    else
      hashBytes ← slice (px_names i) offset (offset + px_idSize i);
      if negb (HasPrefix hashBytes (px_prefix i)) then mret (None, px_finish i)
      else
        o ← offset_word (px_offset32 i) (px_offset64 i) (px_pos i);
        crc ← crc_word (px_crc32 i) (px_pos i);
        mret (Some {| e_Hash := oid_Write (ResetBySize (px_idSize i)) hashBytes; e_CRC32 := crc;
                      e_Offset := o |},
              {| px_idSize := px_idSize i; px_prefix := px_prefix i; px_names := px_names i;
                 px_offset32 := px_offset32 i; px_crc32 := px_crc32 i; px_offset64 := px_offset64 i;
                 px_pos := px_pos i + 1; px_done := px_done i |}).

Fixpoint drain_prefix (n : nat) (i : idxfilePrefixIter) : outcome idx_error (list Entry) :=
  match n with
  | O => NoFuel
  | S n' =>
      '(e, i) ← Prefix_Next i;
      match e with
      | None => mret []
      | Some e => es ← drain_prefix n' i; mret (e :: es)
      end
  end.

(** ** The writer ([writer.go]) *)

#[export] Instance ObjectFormat_countable : Countable ObjectFormat.
Proof.
  apply (inj_countable' (fun f => match f with UnsetObjectFormat => 0%nat | SHA1 => 1%nat | SHA256 => 2%nat end)
    (fun n => match n with O => UnsetObjectFormat | 1%nat => SHA1 | _ => SHA256 end)).
  by intros [].
Defined.

#[export] Instance ObjectID_countable : Countable ObjectID.
Proof.
  apply (inj_countable' (fun s => (oid_hash s, oid_format s))
    (fun p => {| oid_hash := p.1; oid_format := p.2 |})).
  by intros [].
Defined.

Record Writer := {
  w_count : Z;
  w_checksum : ObjectID;
  w_objects : list Entry;
  w_offset64 : Z;
  w_finished : bool;
  w_index : option MemoryIndex;
  w_added : gset ObjectID;
}.

Definition new_Writer : Writer :=
  {| w_count := 0; w_checksum := ZeroHash; w_objects := []; w_offset64 := 0; w_finished := false;
     w_index := None; w_added := ∅ |}.

Definition Add (w : Writer) (h : ObjectID) (pos crc : Z) : Writer :=
  if IsZero h then w
  else if bool_decide (h ∈ w_added w) then w
  else {| w_count := w_count w; w_checksum := w_checksum w;
          w_objects := w_objects w ++ [{| e_Hash := h; e_CRC32 := crc; e_Offset := pos |}];
          w_offset64 := w_offset64 w; w_finished := w_finished w; w_index := w_index w;
          w_added := {[ h ]} ∪ w_added w |}.

Definition OnHeader (w : Writer) (count : Z) : Writer :=
  {| w_count := count; w_checksum := w_checksum w; w_objects := []; w_offset64 := w_offset64 w;
     w_finished := w_finished w; w_index := w_index w; w_added := w_added w |}.

(** The conversion [uint64(pos)] of the signed position. *)
Definition OnInflatedObjectContent (w : Writer) (h : ObjectID) (pos crc : Z) : Writer :=
  Add w h (u64 pos) crc.

(** [sort.Sort] with [Less] on the names. *)
Definition entry_le (a b : Entry) : Prop := Compare (e_Hash b) (Bytes (e_Hash a)) <> Lt.
#[export] Instance entry_le_dec a b : Decision (entry_le a b).
Proof. unfold entry_le. apply _. Defined.

Definition sort_objects (l : list Entry) : list Entry := merge_sort entry_le l.

(** The variables of the loop in [createIndex]. *)
Record build := {
  b_fanout : list Z; b_mapping : list Z; b_names : list bytes; b_offset32 : list bytes;
  b_crc32 : list bytes; b_offset64 : bytes; b_count64 : Z; b_last : Z; b_bucket : Z;
}.

(** [for j := from; j < to; j++ { Fanout[j] = v }]. *)
Fixpoint fill (n : nat) (fanout : list Z) (from v : Z) : outcome idx_error (list Z) :=
  match n with
  | O => mret fanout
  | S n' => fanout ← assign fanout from v; fill n' fanout (from + 1) v
  end.

(** [uint32(w.offset64 | 1<<31)] and the appended 64-bit offset. *)
Definition addOffset64 (b : build) (pos : Z) : Z * build :=
  (Z.lor (b_count64 b) (Z.shiftl 1 31),
   {| b_fanout := b_fanout b; b_mapping := b_mapping b; b_names := b_names b;
      b_offset32 := b_offset32 b; b_crc32 := b_crc32 b;
      b_offset64 := b_offset64 b ++ PutUint64 pos; b_count64 := u32 (b_count64 b + 1);
      b_last := b_last b; b_bucket := b_bucket b |}).

Definition append_at (l : list bytes) (i : Z) (x : bytes) : outcome idx_error (list bytes) :=
  old ← index l i; assign l i (old ++ x).

(** One object of [createIndex], the [i]-th. *)
Definition createIndex_step (b : build) (i : Z) (o : Entry) : outcome idx_error build :=
  fan ← index (Bytes (e_Hash o)) 0;
  fanout ← fill (Z.to_nat (fan - (b_last b + 1))) (b_fanout b) (b_last b + 1) (u32 i);
  fanout ← assign fanout fan (u32 (i + 1));
  let new := negb (b_last b =? fan) in
  let bucket := if new then b_bucket b + 1 else b_bucket b in
  mapping ← (if new then assign (b_mapping b) fan bucket else mret (b_mapping b));
  let ext (l : list bytes) := if new then l ++ [[]] else l in
  names ← append_at (ext (b_names b)) bucket (Bytes (e_Hash o));
  let b := {| b_fanout := fanout; b_mapping := mapping; b_names := names;
              b_offset32 := ext (b_offset32 b); b_crc32 := ext (b_crc32 b);
              b_offset64 := b_offset64 b; b_count64 := b_count64 b; b_last := fan;
              b_bucket := bucket |} in
  let '(offset, b) := if e_Offset o >? MaxInt32 then addOffset64 b (e_Offset o) else (e_Offset o, b) in
  o32 ← append_at (b_offset32 b) bucket (PutUint32 (u32 offset));
  crc ← append_at (b_crc32 b) bucket (PutUint32 (e_CRC32 o));
  mret {| b_fanout := b_fanout b; b_mapping := b_mapping b; b_names := b_names b;
          b_offset32 := o32; b_crc32 := crc; b_offset64 := b_offset64 b; b_count64 := b_count64 b;
          b_last := b_last b; b_bucket := b_bucket b |}.

(** The loop; the build state reached and whether an object had the wrong
    size. *)
Fixpoint createIndex_loop (sz : Z) (b : build) (i : Z) (objs : list Entry)
    : outcome idx_error (build * option idx_error) :=
  match objs with
  | [] => mret (b, None)
  | o :: objs' =>
      if negb (Size (e_Hash o) =? sz) then mret (b, Some ErrHashSize)
      else b ← createIndex_step b i o; createIndex_loop sz b (i + 1) objs'
  end.

Definition set_index (w : Writer) (objs : list Entry) (count64 : Z) (idx : MemoryIndex) : Writer :=
  {| w_count := w_count w; w_checksum := w_checksum w; w_objects := objs; w_offset64 := count64;
     w_finished := w_finished w; w_index := Some idx; w_added := w_added w |}.

Definition index_of_build (idx : MemoryIndex) (b : build) : MemoryIndex :=
  {| Version := Version idx; Fanout := b_fanout b; FanoutMapping := b_mapping b;
     Names := b_names b; Offset32 := b_offset32 b; CRC32 := b_crc32 b; Offset64 := b_offset64 b;
     PackfileChecksum := PackfileChecksum idx; IdxChecksum := IdxChecksum idx;
     offsetHash := None; offsetBuilt := false; objectIDSize := objectIDSize idx |}.

(** The index or the error, and the writer, whose [index] points to the index
    under construction even when an error is returned. *)
Definition createIndex (w : Writer) : outcome idx_error ((MemoryIndex + idx_error) * Writer) :=
  if negb (w_finished w) then mret (inr ErrNotFinished, w)
  else
    let idx := NewMemoryIndex (Size (w_checksum w)) in
    let objs := sort_objects (w_objects w) in
    let b0 := {| b_fanout := Fanout idx; b_mapping := replicate 256 noMapping; b_names := [];
                 b_offset32 := []; b_crc32 := []; b_offset64 := []; b_count64 := w_offset64 w;
                 b_last := -1; b_bucket := -1 |} in
    '(b, err) ← createIndex_loop (Size (w_checksum w)) b0 0 objs;
    match err with
    | Some e => mret (inr e, set_index w objs (b_count64 b) (index_of_build idx b))
    | None =>
        fanout ← fill (Z.to_nat (256 - (b_last b + 1))) (b_fanout b) (b_last b + 1) (u32 (len objs));
        let idx := {| Version := VersionSupported; Fanout := fanout; FanoutMapping := b_mapping b;
                      Names := b_names b; Offset32 := b_offset32 b; CRC32 := b_crc32 b;
                      Offset64 := b_offset64 b; PackfileChecksum := w_checksum w;
                      IdxChecksum := IdxChecksum idx; offsetHash := None; offsetBuilt := false;
                      objectIDSize := objectIDSize idx |} in
        mret (inl idx, set_index w objs (b_count64 b) idx)
    end.

Definition Index (w : Writer) : outcome idx_error ((MemoryIndex + idx_error) * Writer) :=
  match w_index w with
  | None => createIndex w
  | Some idx => mret (inl idx, w)
  end.

Definition OnFooter (w : Writer) (h : ObjectID) : outcome idx_error (option idx_error * Writer) :=
  let w := {| w_count := w_count w; w_checksum := h; w_objects := w_objects w;
              w_offset64 := w_offset64 w; w_finished := true; w_index := w_index w;
              w_added := w_added w |} in
  '(r, w) ← createIndex w;
  mret (match r with inl _ => None | inr e => Some e end, w).

(** ** The encoder ([encoder.go])

    The output buffer and, through the [io.MultiWriter], the hash function see
    the same bytes; [sum] is the hash library's digest of what was written. *)
Section encoder.
Context (sum : bytes -> bytes).

(** [writeHashes], [writeCRC32] and [writeOffsets] visit the buckets in the
    order of the mapping. *)
Fixpoint write_buckets (maps : list Z) (tables : list bytes) (out : bytes) : outcome idx_error bytes :=
  match maps with
  | [] => mret out
  | pos :: maps' =>
      if pos =? noMapping then write_buckets maps' tables out
      else if pos >=? len tables then Err ErrMalformedIdxFile
      else t ← index tables pos; write_buckets maps' tables (out ++ t)
  end.

Definition writeHeader (idx : MemoryIndex) (out : bytes) : outcome idx_error bytes :=
  if negb (Version idx =? VersionSupported) then Err ErrUnsupportedVersion
  else mret (out ++ idxHeader ++ PutUint32 (Version idx)).

Definition writeFanout (idx : MemoryIndex) (out : bytes) : outcome idx_error bytes :=
  mret (out ++ concat (PutUint32 <$> Fanout idx)).

Definition writeHashes (idx : MemoryIndex) (out : bytes) : outcome idx_error bytes :=
  write_buckets (FanoutMapping idx) (Names idx) out.

Definition writeCRC32 (idx : MemoryIndex) (out : bytes) : outcome idx_error bytes :=
  write_buckets (FanoutMapping idx) (CRC32 idx) out.

Definition writeOffsets (idx : MemoryIndex) (out : bytes) : outcome idx_error bytes :=
  out ← write_buckets (FanoutMapping idx) (Offset32 idx) out;
  mret (if len (Offset64 idx) >? 0 then out ++ Offset64 idx else out).

Definition set_IdxChecksum (idx : MemoryIndex) (c : ObjectID) : MemoryIndex :=
  {| Version := Version idx; Fanout := Fanout idx; FanoutMapping := FanoutMapping idx;
     Names := Names idx; Offset32 := Offset32 idx; CRC32 := CRC32 idx; Offset64 := Offset64 idx;
     PackfileChecksum := PackfileChecksum idx; IdxChecksum := c;
     offsetHash := offsetHash idx; offsetBuilt := offsetBuilt idx; objectIDSize := objectIDSize idx |}.

Definition writeChecksums (idx : MemoryIndex) (out : bytes) : outcome idx_error (bytes * MemoryIndex) :=
  let out := out ++ Bytes (PackfileChecksum idx) in
  let c := oid_Write (IdxChecksum idx) (sum out) in
  mret (out ++ Bytes c, set_IdxChecksum idx c).

(** The state functions, each returning the next; nil arguments are [None]. *)
Definition Encode (w : option bytes) (idx : option MemoryIndex) : outcome idx_error (bytes * MemoryIndex) :=
  match w, idx with
  | None, _ | _, None => Err ErrNilArgument
  | Some out0, Some idx =>
      out ← writeHeader idx [];
      out ← writeFanout idx out;
      out ← writeHashes idx out;
      out ← writeCRC32 idx out;
      out ← writeOffsets idx out;
      '(out, idx) ← writeChecksums idx out;
      mret (out0 ++ out, idx)
  end.

(** ** The decoder ([decoder.go]) *)

Definition headerLen : Z := 8.
Definition fanoutLen : Z := fanout * 4.
Definition crc32Len : Z := 4.
Definition offset32Len : Z := 4.
Definition offset64Len : Z := 8.
Definition trailerHashes : Z := 2.

Definition readN (n : Z) (r : bytes) : outcome idx_error (bytes * bytes) :=
  map_err ErrIdxRead (ReadFull n r).

Definition ReadUint32 (r : bytes) : outcome idx_error (Z * bytes) :=
  '(b, r) ← readN 4 r; mret (be_val b, r).

Definition validateHeader (r : bytes) : outcome idx_error bytes :=
  '(h, r) ← readN 4 r;
  if bool_decide (h = idxHeader) then mret r else Err ErrMalformedIdxFile.

Definition readVersion (r : bytes) : outcome idx_error (Z * bytes) :=
  '(v, r) ← ReadUint32 r;
  if negb (v =? VersionSupported) then Err ErrUnsupportedVersion else mret (v, r).

(** [n] entries; [prev] is the entry before, [None] before the first. *)
Fixpoint readFanout (n : nat) (prev : option Z) (r : bytes) : outcome idx_error (list Z * bytes) :=
  match n with
  | O => mret ([], r)
  | S n' =>
      '(v, r) ← ReadUint32 r;
      if match prev with Some p => v <? p | None => false end then Err ErrMalformedIdxFile
      else '(fans, r) ← readFanout n' (Some v) r; mret (v :: fans, r)
  end.

(** The mapping of the fanout entries and the names of the buckets; [names]
    are the buckets read before.  The length of a bucket is computed in 32
    bits. *)
Fixpoint readObjectNames (idSz : Z) (fans : list Z) (prev : Z) (names : list bytes) (r : bytes)
    : outcome idx_error (list Z * list bytes * list Z * bytes) :=
  match fans with
  | [] => mret ([], names, [], r)
  | fan :: fans' =>
      let buckets := u32 (fan - prev) in
      if buckets =? 0 then
        '(maps, names, sizes, r) ← readObjectNames idSz fans' fan names r;
        mret (noMapping :: maps, names, sizes, r)
      else
        '(bin, r) ← readN (u32 (buckets * u32 idSz)) r;
        let pos := len names in
        '(maps, names, sizes, r) ← readObjectNames idSz fans' fan (names ++ [bin]) r;
        mret (pos :: maps, names, u32 (buckets * 4) :: sizes, r)
  end.

(** [readCRC32] and the first part of [readOffsets]: one table per bucket, of
    the sizes allocated by [readObjectNames]. *)
Fixpoint readTables (sizes : list Z) (r : bytes) : outcome idx_error (list bytes * bytes) :=
  match sizes with
  | [] => mret ([], r)
  | n :: sizes' =>
      '(t, r) ← readN n r;
      '(ts, r) ← readTables sizes' r;
      mret (t :: ts, r)
  end.

(** The words of a table with the top bit set. *)
Fixpoint count_o64 (t : bytes) : Z :=
  match t with
  | a :: _ :: _ :: _ :: t' => (if Z.land a 128 >? 0 then 1 else 0) + count_o64 t'
  | a :: _ => if Z.land a 128 >? 0 then 1 else 0
  | [] => 0
  end.

Definition mulInt64 (a b : Z) : Z * bool :=
  if (a <? 0) || (b <? 0) then (0, false)
  else if (a =? 0) || (b =? 0) then (0, true)
  else let c := i64 (a * b) in
       if negb (c `quot` b =? a) then (0, false) else (c, true).

Definition addInt64 (a b : Z) : Z * bool :=
  if (a <? 0) || (b <? 0) then (0, false)
  else let c := i64 (a + b) in
       if c <? a then (0, false) else (c, true).

Definition minIdxV2Size (nr hashsz : Z) : Z :=
  let perObject := hashsz + crc32Len + offset32Len in
  let fixed := headerLen + fanoutLen + trailerHashes * hashsz in
  let '(objects, ok) := mulInt64 nr perObject in
  if negb ok then -1
  else let '(s, ok) := addInt64 fixed objects in
       if negb ok then -1 else s.

Definition maxIdxV2Size (nr hashsz : Z) : Z :=
  let minSize := minIdxV2Size nr hashsz in
  if minSize <? 0 then -1
  else if nr =? 0 then minSize
  else let '(overflow, ok) := mulInt64 (nr - 1) offset64Len in
       if negb ok then -1
       else let '(s, ok) := addInt64 minSize overflow in
            if negb ok then -1 else s.

Definition validateIdxV2Size (nr hashsz idxSize : Z) : outcome idx_error unit :=
  let minSize := minIdxV2Size nr hashsz in
  let maxSize := maxIdxV2Size nr hashsz in
  if (minSize <? 0) || (maxSize <? 0) then Err ErrMalformedIdxFile
  else if (idxSize <? minSize) || (idxSize >? maxSize) then Err ErrMalformedIdxFile
  else mret tt.

Definition readChecksum (idSz : Z) (r : bytes) : outcome idx_error (ObjectID * bytes) :=
  map_err ErrIdxRead (ReadFrom (ResetBySize idSz) r).

(** [Decode] into a fresh index of the given identifier size: the size [Stat]
    reports ([None] for an error) and the content of the input.  The hash has
    seen everything read up to the packfile checksum. *)
Definition Decode (objectIDSize : Z) (stat : option Z) (input : bytes) : outcome idx_error MemoryIndex :=
  match stat with
  | None => Err ErrMalformedIdxFile
  | Some idxSize =>
      let idx := NewMemoryIndex objectIDSize in
      let idSz := idSize idx in
      r ← validateHeader input;
      '(version, r) ← readVersion r;
      '(fans, r) ← readFanout 256 None r;
      nr ← index fans (fanout - 1);
      _ ← validateIdxV2Size nr idSz idxSize;
      '(maps, names, sizes, r) ← readObjectNames idSz fans 0 [] r;
      '(crcs, r) ← readTables sizes r;
      '(o32, r) ← readTables sizes r;
      let o64cnt := foldr Z.add 0 (count_o64 <$> o32) in
      '(o64, r) ← (if o64cnt >? 0 then readN (o64cnt * 8) r else mret ([], r));
      '(pack, r) ← readChecksum idSz r;
      let actual := sum (take (Z.to_nat (len input - len r)) input) in
      '(check, r) ← readChecksum idSz r;
      match Compare check actual with
      | Eq => mret {| Version := version; Fanout := fans; FanoutMapping := maps; Names := names;
                      Offset32 := o32; CRC32 := crcs; Offset64 := o64; PackfileChecksum := pack;
                      IdxChecksum := check; offsetHash := None; offsetBuilt := false;
                      objectIDSize := objectIDSize |}
      | _ => Err ErrMalformedIdxFile
      end
  end.
End encoder.
