(* ===== verification/IdxLookup.v ===== *)
(** * Looking objects up in a pack index

    [represents idx bs]: the tables of [idx] hold the entries of the 256
    buckets [bs], sorted by name.  Under it, lookup by name, by offset and by
    prefix and the iterators of [idxfile.go] return exactly the entries. *)
From stdpp Require Import base list numbers option gmap sorting.
From Stdlib Require Import ZArith Lia.
From S2P Require Import Prelude ObjectId Idxfile.

Open Scope Z_scope.
#[local] Ltac Zify.zify_post_hook ::= Z.to_euclidean_division_equations.

(** ** Tables of fixed-size records *)

Lemma concat_fixed_len {A} (f : A -> bytes) n l :
  Forall (fun x => len (f x) = n) l -> len (concat (f <$> l)) = n * len l.
Proof.
  induction 1 as [|x l Hx Hl IH]; [cbn; unfold len; simpl; lia|].
  rewrite fmap_cons. cbn [concat]. rewrite len_app, len_cons, Hx, IH. lia.
Qed.

Lemma concat_split {A} (f : A -> bytes) n l i x :
  Forall (fun x => len (f x) = n) l -> l !! i = Some x ->
  exists p q, concat (f <$> l) = p ++ f x ++ q /\ len p = Z.of_nat i * n /\ q = concat (f <$> drop (S i) l).
Proof.
  intros Hl. revert i. induction Hl as [|y l Hy Hl IH]; intros [|i] Hi; try done.
  - injection Hi as ->. exists [], (concat (f <$> l)). done.
  - destruct (IH i Hi) as (p & q & Heq & Hp & Hq). exists (f y ++ p), q.
    rewrite fmap_cons. cbn [concat]. rewrite Heq, len_app, app_assoc. split; [done|]. split; [lia|done].
Qed.

Lemma slice_fixed {E A} (f : A -> bytes) n l i j x :
  Forall (fun x => len (f x) = n) l -> l !! i = Some x -> j = Z.of_nat i * n ->
  slice (E := E) (concat (f <$> l)) j (j + n) = Ok (f x).
Proof.
  intros Hl Hi ->. destruct (concat_split f n l i x Hl Hi) as (p & q & -> & Hp & _).
  assert (len (f x) = n) as Hn by (by apply (Forall_lookup_1 _ _ _ _ Hl Hi)).
  rewrite <-Hp, <-Hn. apply slice_app3.
Qed.

(** ** Buckets *)

Definition ebytes (e : Entry) : bytes := Bytes (e_Hash e).
Definition first (e : Entry) : Z := default 0 (head (ebytes e)).
Definition nonempty {A} (b : list A) : Prop := b <> [].
#[export] Instance nonempty_dec {A} (b : list A) : Decision (nonempty b).
Proof. destruct b; [right|left]; unfold nonempty; [tauto|done]. Defined.

Definition fans (bs : list (list Entry)) : list Z :=
  (fun j => len (concat (take (S j) bs))) <$> seq 0 (length bs).

Definition maps (bs : list (list Entry)) : list Z :=
  imap (fun j b => if decide (nonempty b) then len (filter nonempty (take j bs)) else noMapping) bs.

Definition names_of (b : list Entry) : bytes := concat (ebytes <$> b).
Definition crcs_of (b : list Entry) : bytes := concat ((fun e => PutUint32 (e_CRC32 e)) <$> b).
Definition words_of (ws : list Z) : bytes := concat (PutUint32 <$> ws).

(** The offset that a 32-bit word of the offset table stands for. *)
Definition resolves (o64 : bytes) (e : Entry) (w : Z) : Prop :=
  (0 <= w < 2 ^ 31 /\ w = e_Offset e)
  \/ exists i p q, w = 2 ^ 31 + i /\ 0 <= i < 2 ^ 31 /\ o64 = p ++ PutUint64 (e_Offset e) ++ q /\ len p = 8 * i.

Definition entry_ok (sz : Z) (e : Entry) : Prop :=
  oid_ok (e_Hash e) /\ Size (e_Hash e) = sz /\ 0 <= e_CRC32 e < 2 ^ 32 /\ 0 <= e_Offset e < 2 ^ 63.

Definition entry_lt (a b : Entry) : Prop := bytes_lt (ebytes a) (ebytes b).

(** The tables hold the buckets. *)
Record tables (idx : MemoryIndex) (bs : list (list Entry)) (wss : list (list Z)) : Prop := {
  t_fanout : Fanout idx = fans bs;
  t_mapping : FanoutMapping idx = maps bs;
  t_names : Names idx = names_of <$> filter nonempty bs;
  t_crc : CRC32 idx = crcs_of <$> filter nonempty bs;
  t_offset32 : Offset32 idx = words_of <$> filter nonempty wss;
  t_words : Forall2 (Forall2 (resolves (Offset64 idx))) bs wss;
}.

Record buckets_ok (sz : Z) (bs : list (list Entry)) : Prop := {
  b_len : length bs = 256%nat;
  b_first : forall k b, bs !! k = Some b -> Forall (fun e => first e = Z.of_nat k) b;
  b_entries : Forall (entry_ok sz) (concat bs);
  b_sorted : StronglySorted entry_lt (concat bs);
  b_small : len (concat bs) < 2 ^ 31;
}.

(** The reverse-lookup cache: sound, and complete once built. *)
Record cache_ok (idx : MemoryIndex) (es : list Entry) : Prop := {
  c_sound : forall m o h, offsetHash idx = Some m -> m !! o = Some h ->
    exists e, e ∈ es /\ e_Offset e = o /\ Bytes h = ebytes e;
  c_complete : offsetBuilt idx = true -> exists m, offsetHash idx = Some m /\
    forall e, e ∈ es -> is_Some (m !! e_Offset e);
}.

Record represents (idx : MemoryIndex) (bs : list (list Entry)) : Prop := {
  r_size : objectIDSize idx = 20 \/ objectIDSize idx = 32;
  r_buckets : buckets_ok (objectIDSize idx) bs;
  r_tables : exists wss, tables idx bs wss;
  r_cache : cache_ok idx (concat bs);
}.

Lemma idSize_eq idx : objectIDSize idx = 20 \/ objectIDSize idx = 32 -> idSize idx = objectIDSize idx.
Proof. unfold idSize. by intros [-> | ->]. Qed.

(** ** Bytes of entries *)

Lemma PutUint32_len v : len (PutUint32 v) = 4.
Proof. apply be_bytes_len. Qed.
Lemma PutUint64_len v : len (PutUint64 v) = 8.
Proof. apply be_bytes_len. Qed.
Lemma be_val_PutUint32 v : 0 <= v < 2 ^ 32 -> be_val (PutUint32 v) = v.
Proof. intros. unfold PutUint32. rewrite be_val_be_bytes. by apply Z.mod_small. Qed.
Lemma be_val_PutUint64 v : 0 <= v < 2 ^ 64 -> be_val (PutUint64 v) = v.
Proof. intros. unfold PutUint64. rewrite be_val_be_bytes. by apply Z.mod_small. Qed.

Lemma entry_len sz e : entry_ok sz e -> len (ebytes e) = sz.
Proof. intros ([Hl _ _ _] & Hs & _). unfold ebytes. by rewrite Bytes_len. Qed.

Lemma Bytes_cons h : oid_ok h -> exists a l, Bytes h = a :: l /\ 0 <= a < 256.
Proof.
  intros [Hl Hb _ _]. pose proof (Bytes_len h Hl) as HB. pose proof (Size_bound h).
  destruct (Bytes h) as [|a l] eqn:Heq.
  - change (len (@nil Z)) with 0 in HB. lia.
  - exists a, l. split; [done|]. pose proof (Bytes_ok h Hb) as Hok. rewrite Heq in Hok.
    apply bytes_ok_cons in Hok as [Ha _]. done.
Qed.

(** ** The tables of one bucket *)

Lemma filter_take_lookup {A} (P : list A -> Prop) `{forall x, Decision (P x)} (l : list (list A)) k b :
  l !! k = Some b -> P b -> filter P l !! length (filter P (take k l)) = Some b.
Proof.
  intros Hk HP.
  assert (filter P l = filter P (take k l) ++ b :: filter P (drop (S k) l)) as Heq.
  { rewrite <-(take_drop_middle l k b Hk) at 1. by rewrite filter_app, filter_cons_True by done. }
  rewrite Heq. by rewrite list_lookup_middle.
Qed.

Lemma filter_nonempty_length {A B} (l : list (list A)) (l' : list (list B)) k :
  Forall2 (fun x y => length x = length y) l l' ->
  length (filter nonempty (take k l)) = length (filter nonempty (take k l')).
Proof.
  intros Hl. revert k. induction Hl as [|x y l l' Hxy Hl IH]; intros [|k]; [done..|].
  cbn [take]. rewrite !filter_cons. specialize (IH k).
  destruct x, y; try done; simpl; by rewrite ?IH.
Qed.

Lemma words_length o64 bs wss :
  Forall2 (Forall2 (resolves o64)) bs wss -> Forall2 (fun x y => length x = length y) bs wss.
Proof. intros H. eapply Forall2_impl; [done|]. intros x y Hxy. by eapply Forall2_length. Qed.

(** Where a bucket's tables are. *)
Lemma bucket_tables idx bs wss k b :
  tables idx bs wss -> bs !! k = Some b ->
  exists m, FanoutMapping idx !! k = Some m /\
    (b = [] /\ m = noMapping \/
     b <> [] /\ 0 <= m < len (Names idx) /\ exists ws,
       Names idx !! Z.to_nat m = Some (names_of b) /\ CRC32 idx !! Z.to_nat m = Some (crcs_of b)
       /\ Offset32 idx !! Z.to_nat m = Some (words_of ws) /\ Forall2 (resolves (Offset64 idx)) b ws).
Proof.
  intros [Hf Hm Hn Hc Ho Hw] Hk. rewrite Hm, Hn, Hc, Ho. unfold maps. rewrite list_lookup_imap, Hk. cbn.
  eexists. split; [done|]. destruct (decide (nonempty b)) as [Hb|Hb].
  - right. split; [done|]. destruct (Forall2_lookup_l _ _ _ _ _ Hw Hk) as (ws & Hws & Hres).
    pose proof (filter_take_lookup nonempty bs k b Hk Hb) as Hlk.
    pose proof (filter_nonempty_length bs wss k (words_length _ _ _ Hw)) as Hlen.
    assert (nonempty ws) as Hwne.
    { intros ->. apply Forall2_length in Hres. by destruct b. }
    pose proof (filter_take_lookup nonempty wss k ws Hws Hwne) as Hlw. rewrite <-Hlen in Hlw.
    split.
    + unfold len. rewrite length_fmap. apply lookup_lt_Some in Hlk. lia.
    + exists ws. unfold len. rewrite Nat2Z.id, !list_lookup_fmap, Hlk, Hlw. done.
  - left. split; [|done]. destruct b; [done|]. exfalso. by apply Hb.
Qed.

Lemma names_entry_len sz b : Forall (entry_ok sz) b -> Forall (fun e => len (ebytes e) = sz) b.
Proof. intros H. eapply Forall_impl; [exact H|]. apply entry_len. Qed.

(** The offset found in a bucket's table. *)
Lemma offset_word_ok o64 b ws i e :
  Forall2 (resolves o64) b ws -> b !! i = Some e -> 0 <= e_Offset e < 2 ^ 63 ->
  offset_word (words_of ws) o64 (Z.of_nat i) = Ok (e_Offset e).
Proof.
  intros Hres Hi Ho. destruct (Forall2_lookup_l _ _ _ _ _ Hres Hi) as (w & Hw & Hr).
  unfold offset_word. unfold words_of.
  rewrite (slice_fixed PutUint32 4 ws i _ w); [|by apply Forall_true; intros; apply PutUint32_len|done|
    rewrite Z.shiftl_mul_pow2; lia].
  cbn [mbind outcome_bind].
  assert (0 <= w < 2 ^ 32) as Hwb by (destruct Hr as [[? _]|(j & ? & ? & -> & ? & _)]; lia).
  rewrite be_val_PutUint32 by done. unfold isO64Mask. change (Z.shiftl 1 31) with (2 ^ 31).
  rewrite land_pow2_testbit, negb_involutive, testbit_top by lia.
  destruct Hr as [[Hs ->]|(j & p & q & -> & Hj & -> & Hp)].
  - ztest (2 ^ 31 <=? e_Offset e) false. done.
  - ztest (2 ^ 31 <=? 2 ^ 31 + j) true.
    assert (Z.ldiff (2 ^ 31 + j) (2 ^ 31) = j) as ->.
    { replace (2 ^ 31 + j) with (Z.lor j (Z.shiftl 1 31))
        by (rewrite lor_disjoint_add by lia; lia).
      apply Z.bits_inj'. intros n Hn. rewrite Z.ldiff_spec, Z.lor_spec.
      change (Z.shiftl 1 31) with (2 ^ 31). destruct (Z.eq_dec n 31) as [->|Hne].
      - rewrite Z.pow2_bits_true by lia. rewrite testbit_small by lia. done.
      - rewrite Z.pow2_bits_false by lia. by rewrite orb_false_r, andb_true_r. }
    rewrite !len_app, PutUint64_len, Hp. pose proof (len_nonneg q).
    ztest (8 * j + (8 + len q) <? 8) false. rewrite Z.gtb_ltb.
    ztest (8 * j + (8 + len q) - 8 <? 8 * j) false. cbn [orb].
    rewrite <-Hp. replace (len p + 8) with (len p + len (PutUint64 (e_Offset e)))
      by (by rewrite PutUint64_len). rewrite slice_app3.
    cbn [mbind outcome_bind]. by rewrite be_val_PutUint64 by lia.
Qed.

Lemma crc_word_ok sz b i e :
  Forall (entry_ok sz) b -> b !! i = Some e -> crc_word (crcs_of b) (Z.of_nat i) = Ok (e_CRC32 e).
Proof.
  intros Hok Hi. unfold crc_word, crcs_of.
  rewrite (slice_fixed _ 4 b i _ e); [|by apply Forall_true; intros; apply PutUint32_len|done|
    rewrite Z.shiftl_mul_pow2; lia].
  cbn [mbind outcome_bind]. destruct (Forall_lookup_1 _ _ _ _ Hok Hi) as (_ & _ & Hc & _).
  by rewrite be_val_PutUint32.
Qed.

(** ** Binary search *)

Lemma bytes_lt_compare a b : bytes_lt a b -> bytes_compare b a = Gt.
Proof. unfold bytes_lt. intros H. by rewrite bytes_compare_antisym, H. Qed.

Lemma sorted_lookup (b : list Entry) i j x y :
  StronglySorted entry_lt b -> b !! i = Some x -> b !! j = Some y -> (i < j)%nat -> entry_lt x y.
Proof.
  intros Hs. revert i j. induction Hs as [|z b Hs IH Hz]; intros [|i] [|j] Hi Hj Hij; try done; try lia.
  - injection Hi as ->. by apply (Forall_lookup_1 _ _ _ _ Hz Hj).
  - apply (IH i j); [done|done|lia].
Qed.

Lemma sorted_app_inv (a b : list Entry) :
  StronglySorted entry_lt (a ++ b) -> StronglySorted entry_lt a /\ StronglySorted entry_lt b
    /\ forall x y, x ∈ a -> y ∈ b -> entry_lt x y.
Proof.
  induction a as [|x a IH]; cbn [app].
  - intros H. split; [constructor|]. split; [done|]. intros x y Hx. by apply not_elem_of_nil in Hx.
  - intros H. inversion H as [|? ? Hs Hx]; subst. destruct (IH Hs) as (Ha & Hb & Hab).
    apply Forall_app in Hx as [Hxa Hxb]. split; [by constructor|]. split; [done|].
    intros u v [->|Hu]%elem_of_cons Hv; [|auto].
    rewrite Forall_forall in Hxb. auto.
Qed.

Lemma findHashIndex_loop_spec fuel h b sz low high :
  Forall (entry_ok sz) b -> StronglySorted entry_lt b -> 20 <= sz <= 32 -> len b < 2 ^ 31 ->
  0 <= low < high -> high <= len b -> high - low < Z.of_nat fuel ->
  (forall i e, b !! i = Some e -> Z.of_nat i < low -> bytes_lt (ebytes e) (Bytes h)) ->
  (forall i e, b !! i = Some e -> high <= Z.of_nat i -> bytes_lt (Bytes h) (ebytes e)) ->
  ensures (findHashIndex_loop fuel h (names_of b) sz low high) (fun '(i, ok) =>
    if ok : bool then exists e, 0 <= i /\ b !! Z.to_nat i = Some e /\ ebytes e = Bytes h
    else forall e, e ∈ b -> ebytes e <> Bytes h).
Proof.
  intros Hok Hs Hsz Hsmall. revert low high.
  induction fuel as [|f IH]; intros low high Hlow Hhigh Hf Hbelow Habove; [lia|].
  cbn [findHashIndex_loop]. rewrite wrap_small, Z.shiftr_div_pow2 by lia.
  change (2 ^ 1) with 2. set (mid := (low + high) `div` 2). assert (low <= mid < high) as Hmid by (subst mid; lia).
  clearbody mid. rewrite wrap_small by nia.
  destruct (lookup_lt_is_Some_2 b (Z.to_nat mid)) as [e He]; [unfold len in Hhigh; lia|].
  unfold names_of. rewrite (slice_fixed ebytes sz b (Z.to_nat mid) _ e)
    by (first [by apply names_entry_len | done | rewrite Z2Nat.id by lia; done]).
  cbn [mbind outcome_bind]. fold (names_of b). unfold Compare.
  destruct (bytes_compare (Bytes h) (ebytes e)) eqn:Hc.
  - apply bytes_compare_eq in Hc. exists e. split; [lia|]. done.
  - assert (forall i e', b !! i = Some e' -> mid <= Z.of_nat i -> bytes_lt (Bytes h) (ebytes e')) as Hnew.
    { intros i e' Hi Hle. destruct (Z.eq_dec (Z.of_nat i) mid) as [Heq|Hne].
      - replace i with (Z.to_nat mid) in Hi by lia. by simplify_eq.
      - etrans; [exact Hc|]. apply (sorted_lookup b (Z.to_nat mid) i); [done..|lia]. }
    rewrite Z.geb_leb. destruct (Z.leb_spec mid low).
    + intros e' He' Heq. apply list_elem_of_lookup in He' as [i Hi].
      destruct (Z.lt_ge_cases (Z.of_nat i) low) as [Hlt|Hge].
      * specialize (Hbelow i e' Hi Hlt). rewrite Heq in Hbelow. by apply bytes_lt_irrefl in Hbelow.
      * specialize (Hnew i e' Hi ltac:(lia)). rewrite Heq in Hnew. by apply bytes_lt_irrefl in Hnew.
    + apply IH; [lia|lia|lia|done|done].
  - assert (forall i e', b !! i = Some e' -> Z.of_nat i < mid + 1 -> bytes_lt (ebytes e') (Bytes h)) as Hnew.
    { assert (bytes_lt (ebytes e) (Bytes h)) as Hlt
        by (unfold bytes_lt; rewrite bytes_compare_antisym, Hc; done).
      intros i e' Hi Hle. destruct (Z.eq_dec (Z.of_nat i) mid) as [Heq|Hne].
      - replace i with (Z.to_nat mid) in Hi by lia. by simplify_eq.
      - etrans; [|exact Hlt]. apply (sorted_lookup b i (Z.to_nat mid)); [done..|lia]. }
    rewrite Z.geb_leb. destruct (Z.leb_spec high (mid + 1)).
    + intros e' He' Heq. apply list_elem_of_lookup in He' as [i Hi].
      destruct (Z.lt_ge_cases (Z.of_nat i) (mid + 1)) as [Hlt|Hge].
      * specialize (Hnew i e' Hi Hlt). rewrite Heq in Hnew. by apply bytes_lt_irrefl in Hnew.
      * specialize (Habove i e' Hi ltac:(lia)). rewrite Heq in Habove. by apply bytes_lt_irrefl in Habove.
    + apply IH; [lia|lia|lia|done|done].
Qed.

(** ** Lookup by name *)

Lemma bucket_of sz bs e :
  buckets_ok sz bs -> e ∈ concat bs ->
  exists k b, bs !! k = Some b /\ e ∈ b /\ first e = Z.of_nat k.
Proof.
  intros [Hl Hf _ _ _] He. apply list_elem_of_In, in_concat in He as (b & Hb & He).
  apply list_elem_of_In in Hb, He. apply list_elem_of_lookup in Hb as [k Hk].
  exists k, b. split; [done|]. split; [done|].
  specialize (Hf k b Hk). rewrite Forall_forall in Hf. auto.
Qed.

Lemma bucket_props sz bs k b :
  buckets_ok sz bs -> bs !! k = Some b ->
  Forall (entry_ok sz) b /\ StronglySorted entry_lt b /\ len b < 2 ^ 31 /\ forall e, e ∈ b -> e ∈ concat bs.
Proof.
  intros [Hl Hf He Hs Hn] Hk. pose proof (take_drop_middle bs k b Hk) as Hsplit.
  rewrite <-Hsplit in He, Hs, Hn |- *. rewrite concat_app in *. cbn [concat] in *.
  apply Forall_app in He as [_ He]. apply Forall_app in He as [He _].
  apply sorted_app_inv in Hs as (_ & Hs & _). apply sorted_app_inv in Hs as (Hs & _ & _).
  rewrite !len_app in Hn. split; [done|]. split; [done|]. split.
  - pose proof (len_nonneg (concat (take k bs))). pose proof (len_nonneg (concat (drop (S k) bs))). lia.
  - intros e Hin. apply elem_of_app. right. apply elem_of_app. by left.
Qed.

Definition present (bs : list (list Entry)) (h : ObjectID) (e : Entry) : Prop :=
  e ∈ concat bs /\ ebytes e = Bytes h.

Lemma first_of e h a l : ebytes e = Bytes h -> Bytes h = a :: l -> first e = a.
Proof. intros He Hh. unfold first. by rewrite He, Hh. Qed.

(** The position found by the search, with the tables of the bucket. *)
Lemma findHashIndex_spec idx bs h a l :
  represents idx bs -> oid_ok h -> Bytes h = a :: l -> 0 <= a < 256 ->
  exists m, index (E := idx_error) (FanoutMapping idx) a = Ok m /\
  ((exists e i, present bs h e /\ findHashIndex idx h = Ok (i, true)
      /\ getOffset idx m i = Ok (e_Offset e) /\ getCRC32 idx m i = Ok (e_CRC32 e) /\ m <> noMapping)
   \/ ((forall e, ~ present bs h e) /\ exists i, findHashIndex idx h = Ok (i, false))).
Proof.
  intros [Hsz Hb [wss Ht] Hc] Hh Ha Har.
  pose proof Hb as [Hl _ _ _ _].
  destruct (lookup_lt_is_Some_2 bs (Z.to_nat a)) as [b Hk]; [lia|].
  destruct (bucket_tables idx bs wss _ b Ht Hk) as (m & Hm & Hcase). exists m.
  assert (index (E := idx_error) (FanoutMapping idx) a = Ok m) as Hidx by (apply index_Ok; [lia|done]).
  split; [done|].
  assert (forall e, present bs h e -> e ∈ b) as Hin.
  { intros e [He Heq]. destruct (bucket_of _ _ _ Hb He) as (k & b' & Hk' & Hin & Hfirst).
    rewrite (first_of e h a l Heq Ha) in Hfirst. replace (Z.to_nat a) with k in Hk by lia. by simplify_eq. }
  unfold findHashIndex. rewrite Ha. change (index (a :: l) 0) with (@Ok idx_error Z a).
  cbn [mbind outcome_bind]. rewrite Hidx. cbn [mbind outcome_bind].
  destruct Hcase as [[-> ->]|(Hne & Hmr & ws & HN & HC & HO & Hres)].
  - right. split; [|by exists 0]. intros e He. apply Hin in He. by apply not_elem_of_nil in He.
  - unfold noMapping. ztest (m =? -1) false. ztest (len (Names idx) <=? m) false.
    rewrite (index_Ok (Names idx) m _ ltac:(lia) HN), (index_Ok (Offset32 idx) m _ ltac:(lia) HO).
    cbn [mbind outcome_bind]. destruct (bucket_props _ _ _ _ Hb Hk) as (Hbe & Hbs & Hbn & Hbin).
    assert (len ws = len b) as Hlw by (unfold len; by rewrite (Forall2_length _ _ _ Hres)).
    assert (Z.shiftr (len (words_of ws)) 2 = len b) as ->.
    { unfold words_of. rewrite (concat_fixed_len PutUint32 4) by (apply Forall_true; intros; apply PutUint32_len).
      rewrite Z.shiftr_div_pow2, Hlw by lia. change (2 ^ 2) with 4. lia. }
    assert (0 < len b) as Hbpos by (destruct b; [done|len_lia]).
    ztest (len b =? 0) false. rewrite idSize_eq by done.
    destruct (ensures_inv _ _ (findHashIndex_loop_spec (Z.to_nat (len b) + 1) h b (objectIDSize idx) 0 (len b)
      Hbe Hbs ltac:(lia) Hbn ltac:(lia) ltac:(lia) ltac:(lia)
      ltac:(intros; lia) ltac:(intros i e Hi ?; apply lookup_lt_Some in Hi; unfold len in *; lia)))
      as ([i ok] & -> & Hok).
    destruct ok.
    + left. destruct Hok as (e & Hi & He & Heq). exists e, i.
      split; [split; [apply Hbin; by eapply list_elem_of_lookup_2|done]|]. split; [done|].
      unfold getOffset, getCRC32.
      rewrite (index_Ok (Offset32 idx) m _ ltac:(lia) HO), (index_Ok (CRC32 idx) m _ ltac:(lia) HC).
      cbn [mbind outcome_bind]. replace i with (Z.of_nat (Z.to_nat i)) by lia.
      destruct (Forall_lookup_1 _ _ _ _ Hbe He) as (_ & _ & _ & Hoff).
      rewrite (offset_word_ok _ b ws _ e) by done. rewrite (crc_word_ok (objectIDSize idx) b _ e) by done.
      split; [done|]. split; [done|lia].
    + right. split; [|by exists i]. intros e He. specialize (Hin e He). destruct He as [_ Heq].
      by apply (Hok e Hin).
Qed.

Lemma tables_set idx bs wss m b : tables idx bs wss -> tables (set_offsetHash idx m b) bs wss.
Proof. intros []. by constructor. Qed.

Lemma represents_cache idx bs m b :
  represents idx bs -> cache_ok (set_offsetHash idx m b) (concat bs) ->
  represents (set_offsetHash idx m b) bs.
Proof.
  intros [Hsz Hb [wss Ht] _] Hc. constructor; try done. exists wss. by apply tables_set.
Qed.

Lemma lookup_name idx bs h :
  represents idx bs -> oid_ok h ->
  (forall e, present bs h e ->
     (exists idx', FindOffset idx h = Ok (e_Offset e, idx') /\ represents idx' bs)
     /\ FindCRC32 idx h = Ok (e_CRC32 e) /\ Contains idx h = Ok true /\ MayContain idx h = Ok true)
  /\ ((forall e, ~ present bs h e) ->
     FindOffset idx h = Err ErrObjectNotFound /\ FindCRC32 idx h = Err ErrObjectNotFound
     /\ Contains idx h = Ok false).
Proof.
  intros Hrep Hh. destruct (Bytes_cons h Hh) as (a & l & Ha & Har).
  destruct (findHashIndex_spec idx bs h a l Hrep Hh Ha Har) as (m & Hm & Hcase).
  unfold FindOffset, FindCRC32, Contains, MayContain. rewrite Ha.
  change (index (a :: l) 0) with (@Ok idx_error Z a). cbn [mbind outcome_bind]. rewrite Hm.
  assert ((len (FanoutMapping idx) <=? a) = false) as ->.
  { apply index_Ok_inv in Hm as [Hm _]. apply Z.leb_gt. lia. }
  cbn [mbind outcome_bind].
  destruct Hcase as [(e & i & Hp & Hf & Ho & Hc & Hnm)|(Hno & i & Hf)]; rewrite Hf; cbn [mbind outcome_bind negb].
  - split; [|intros Hno; by apply Hno in Hp]. intros e' He'.
    assert (e' = e) as ->.
    { destruct Hrep as [_ [_ _ _ Hs _] _ _]. destruct Hp as [Hin Heq], He' as [Hin' Heq'].
      apply list_elem_of_lookup in Hin as [x Hx]. apply list_elem_of_lookup in Hin' as [y Hy].
      destruct (Nat.lt_trichotomy x y) as [Hxy|[->|Hxy]]; [|congruence|];
        [pose proof (sorted_lookup _ _ _ _ _ Hs Hx Hy Hxy) as Hlt
        |pose proof (sorted_lookup _ _ _ _ _ Hs Hy Hx Hxy) as Hlt];
        unfold entry_lt in Hlt; rewrite Heq, Heq' in Hlt; by apply bytes_lt_irrefl in Hlt. }
    rewrite Ho, Hc. cbn [mbind outcome_bind mret outcome_ret].
    assert (0 <= e_Offset e < 2 ^ 63) as Hoff.
    { destruct Hrep as [_ [_ _ He _ _] _ _], Hp as [Hin _]. rewrite Forall_forall in He.
      apply (He e Hin). }
    rewrite i64_small by done. split; [|split; [done|split; [done|]]].
    + eexists. split; [done|]. apply represents_cache; [done|].
      destruct Hrep as [_ _ _ [Hsound Hcomp]]. constructor; cbn [set_offsetHash offsetHash offsetBuilt].
      * intros mm o hh [= <-] Hlk. apply lookup_insert_Some in Hlk as [[<- <-]|[Hne Hlk]].
        -- exists e. destruct Hp as [Hin Heq]. split; [done|]. done.
        -- destruct (offsetHash idx) as [m0|] eqn:Hm0; cbn [default from_option] in Hlk; unfold id in Hlk;
             [by apply (Hsound m0)|by rewrite lookup_empty in Hlk].
      * intros Hb. destruct (Hcomp Hb) as (m0 & Hm0 & Hall). rewrite Hm0. eexists. split; [done|].
        intros e' He. cbn. apply lookup_insert_is_Some. destruct (decide (e_Offset e = e_Offset e')); auto.
    + f_equal. apply negb_true_iff, Z.eqb_neq. done.
  - split; [intros e He; by apply Hno in He|]. done.
Qed.

(** The quick check looks at the first byte only. *)
Lemma MayContain_spec idx bs h : represents idx bs -> oid_ok h ->
  exists b, MayContain idx h = Ok b /\ (b = true <-> exists e, e ∈ concat bs /\ head (ebytes e) = head (Bytes h)).
Proof.
  intros [_ Hb [wss Ht] _] Hh. destruct (Bytes_cons h Hh) as (a & l & Ha & Har). pose proof (b_len _ _ Hb) as Hl.
  destruct (lookup_lt_is_Some_2 bs (Z.to_nat a)) as [b Hk]; [lia|].
  destruct (bucket_tables idx bs wss _ b Ht Hk) as (m & Hm & Hcase). unfold MayContain. rewrite Ha.
  change (index (a :: l) 0) with (@Ok idx_error Z a). cbn [mbind outcome_bind]. rewrite (index_Ok (FanoutMapping idx) a m) by (done || lia).
  cbn [mbind outcome_bind]. eexists. split; [done|].
  assert (forall e, e ∈ concat bs -> head (ebytes e) = Some a <-> first e = a) as Hhead.
  { intros e He. pose proof (b_entries _ _ Hb) as Hes. rewrite Forall_forall in Hes. destruct (Hes e He) as (Ho & _).
    destruct (Bytes_cons _ Ho) as (a' & l' & Ha' & _). unfold first, ebytes. rewrite Ha'. cbn. split; [by intros [= ->]|by intros ->]. }
  rewrite negb_true_iff, Z.eqb_neq. destruct Hcase as [[-> ->]|(Hne & Hmr & _)].
  - split; [done|]. intros (e & He & Hhd%Hhead); [|done]. destruct (bucket_of _ _ _ Hb He) as (k & b & Hk' & Hin & Hfirst).
    replace (Z.to_nat a) with k in Hk by lia. rewrite Hk' in Hk. injection Hk as ->. by apply not_elem_of_nil in Hin.
  - split; [intros _|unfold noMapping; lia]. destruct b as [|e b]; [done|]. exists e. destruct (bucket_props _ _ _ _ Hb Hk) as (_ & _ & _ & Hin).
    assert (e ∈ concat bs) as He by (apply Hin; by left). split; [done|]. apply Hhead; [done|].
    pose proof (b_first _ _ Hb _ _ Hk) as Hf. apply Forall_cons in Hf as [-> _]. lia.
Qed.

(** C33: lookup by name is correct.  In an index whose tables represent the
    sorted entries [bs], an object that is present is found: [FindOffset] and
    [FindCRC32] return its offset and checksum and [Contains] holds, and the
    index with the offset remembered still represents [bs]; an object that is
    absent gives [ErrObjectNotFound] and [Contains] is false.  [MayContain],
    which looks at the first byte only, holds exactly when some object starts
    with that byte, so for every object that is present.  No slice access is
    out of range. *)
Theorem lookup_by_name idx bs h :
  represents idx bs -> oid_ok h ->
  (forall e, present bs h e ->
     (exists idx', FindOffset idx h = Ok (e_Offset e, idx') /\ represents idx' bs)
     /\ FindCRC32 idx h = Ok (e_CRC32 e) /\ Contains idx h = Ok true /\ MayContain idx h = Ok true)
  /\ ((forall e, ~ present bs h e) ->
     FindOffset idx h = Err ErrObjectNotFound /\ FindCRC32 idx h = Err ErrObjectNotFound
     /\ Contains idx h = Ok false)
  /\ exists b, MayContain idx h = Ok b /\ (b = true <-> exists e, e ∈ concat bs /\ head (ebytes e) = head (Bytes h)).
Proof.
  intros Hr Hh. destruct (lookup_name idx bs h Hr Hh) as [H1 H2]. split; [done|]. split; [done|]. by apply MayContain_spec.
Qed.

(** ** Identifiers read from the names table *)

Lemma copy_length dst src : length (copy dst src) = length dst.
Proof. unfold copy. rewrite length_app, length_take, length_drop. lia. Qed.

Lemma Bytes_Write s b :
  len (oid_hash s) = SHA256Size -> Size s <= len b ->
  Bytes (oid_Write s b) = take (Z.to_nat (Size s)) b.
Proof.
  intros Hl Hb. unfold Bytes. change (Size (oid_Write s b)) with (Size s). cbn [oid_Write oid_hash].
  unfold copy. pose proof (Size_bound s). unfold len, SHA256Size in *.
  rewrite take_app_le by (rewrite length_take; lia). rewrite take_take. f_equal. lia.
Qed.

Lemma Write_len s b : len (oid_hash (oid_Write s b)) = len (oid_hash s).
Proof. unfold len. cbn [oid_Write oid_hash]. by rewrite copy_length. Qed.

Lemma ResetBySize_props sz : sz = 20 \/ sz = 32 -> Size (ResetBySize sz) = sz /\ len (oid_hash (ResetBySize sz)) = SHA256Size.
Proof. by intros [-> | ->]. Qed.

(** Reading the [i]-th name of a bucket, to the end of the table as the code
    does. *)
Lemma slice_name sz b i e j :
  Forall (entry_ok sz) b -> b !! i = Some e -> j = Z.of_nat i * sz -> 0 <= sz ->
  exists q, slice (E := idx_error) (names_of b) j (len (names_of b)) = Ok (ebytes e ++ q).
Proof.
  intros Hok Hi -> Hsz. destruct (concat_split ebytes sz b i e (names_entry_len _ _ Hok) Hi)
    as (p & q & Heq & Hp & _). exists q. unfold names_of. rewrite Heq, <-Hp.
  pose proof (len_nonneg p). pose proof (len_nonneg (ebytes e ++ q)).
  rewrite slice_Ok by (rewrite ?len_app in *; lia). rewrite len_app. f_equal.
  replace (Z.to_nat (len p)) with (length p) by (unfold len; lia). rewrite drop_app_length.
  apply take_ge. unfold len. lia.
Qed.

Lemma take_ebytes sz e q : entry_ok sz e -> take (Z.to_nat sz) (ebytes e ++ q) = ebytes e.
Proof.
  intros H. apply entry_len in H. replace (Z.to_nat sz) with (length (ebytes e)) by (unfold len in H; lia).
  apply take_app_length.
Qed.

(** ** Positions in the concatenated buckets *)

Lemma fans_lookup bs k :
  (k < length bs)%nat -> fans bs !! k = Some (len (concat (take (S k) bs))).
Proof. intros Hk. unfold fans. rewrite list_lookup_fmap, lookup_seq_lt by done. done. Qed.

Lemma concat_take_S {A} (bs : list (list A)) k b :
  bs !! k = Some b -> concat (take (S k) bs) = concat (take k bs) ++ b.
Proof.
  intros Hk. rewrite (take_S_r _ _ _ Hk), concat_app. cbn. by rewrite app_nil_r.
Qed.

Lemma concat_middle {A} (bs : list (list A)) k b :
  bs !! k = Some b -> concat bs = concat (take k bs) ++ b ++ concat (drop (S k) bs).
Proof. intros Hk. rewrite <-(take_drop_middle bs k b Hk) at 1. by rewrite concat_app. Qed.

Lemma concat_lookup {A} (bs : list (list A)) k b s :
  bs !! k = Some b -> (s < length b)%nat ->
  concat bs !! (length (concat (take k bs)) + s)%nat = b !! s.
Proof.
  intros Hk Hs. rewrite (concat_middle bs k b Hk).
  rewrite lookup_app_r by lia. rewrite lookup_app_l by lia. f_equal. lia.
Qed.

(** ** Lookup by offset *)

Definition map_of (m : gmap Z ObjectID) (es : list Entry) : Prop :=
  (forall o h, m !! o = Some h -> exists e, e ∈ es /\ e_Offset e = o /\ Bytes h = ebytes e)
  /\ forall e, e ∈ es -> is_Some (m !! e_Offset e).

Lemma map_of_snoc m es e h :
  map_of m es -> Bytes h = ebytes e -> map_of (<[e_Offset e := h]> m) (es ++ [e]).
Proof.
  intros [Hs Hc] Hh. split.
  - intros o h' [[<- <-]|[Hne Hlk]]%lookup_insert_Some.
    + exists e. split; [|done]. apply elem_of_app. right. by apply list_elem_of_singleton.
    + destruct (Hs o h' Hlk) as (e' & He' & Ho & Hb). exists e'. split; [|done]. apply elem_of_app. by left.
  - intros e' He'. apply lookup_insert_is_Some.
    destruct (decide (e_Offset e = e_Offset e')) as [->|Hne]; [by left|right].
    split; [done|]. apply elem_of_app in He' as [He'|He']; [auto|].
    apply list_elem_of_singleton in He' as ->. done.
Qed.

Lemma genOffsetHash_bucket_spec idx bs wss k b m es hash mapped n s :
  tables idx bs wss -> buckets_ok (objectIDSize idx) bs ->
  objectIDSize idx = 20 \/ objectIDSize idx = 32 -> bs !! k = Some b ->
  FanoutMapping idx !! k = Some mapped ->
  len (oid_hash hash) = SHA256Size -> Size hash = objectIDSize idx ->
  0 <= s -> n = (length b - Z.to_nat s)%nat -> map_of m (es ++ take (Z.to_nat s) b) ->
  len b * 32 < 2 ^ 32 ->
  ensures (genOffsetHash_bucket idx n mapped s hash m) (fun '(hash', m') =>
    len (oid_hash hash') = SHA256Size /\ Size hash' = objectIDSize idx /\ map_of m' (es ++ b)).
Proof.
  intros Ht Hb Hsz Hk Hmap Hhl Hhs Hs Hn Hm Hsmall.
  destruct (bucket_tables idx bs wss k b Ht Hk) as (m0 & Hm0 & Hcase). rewrite Hmap in Hm0.
  injection Hm0 as <-. destruct (bucket_props _ _ _ _ Hb Hk) as (Hbe & _ & _ & _).
  revert s hash m Hs Hn Hhl Hhs Hm. induction n as [|n IH]; intros s hash m Hs Hn Hhl Hhs Hm.
  - cbn. rewrite take_ge in Hm by lia. done.
  - destruct Hcase as [[-> _]|(Hne & Hmr & ws & HN & HC & HO & Hres)]; [simpl in Hn; lia|].
    cbn [genOffsetHash_bucket].
    destruct (lookup_lt_is_Some_2 b (Z.to_nat s)) as [e He]; [lia|].
    rewrite (index_Ok (Names idx) mapped _ ltac:(lia) HN). cbn [mbind outcome_bind].
    rewrite idSize_eq by done.
    assert (s < len b) as Hsb by (unfold len; lia).
    rewrite wrap_small by nia.
    pose proof (Forall_lookup_1 _ _ _ _ Hbe He) as Hoke.
    destruct (slice_name (objectIDSize idx) b (Z.to_nat s) e (s * objectIDSize idx) Hbe He) as (q & ->);
      [by rewrite Z2Nat.id|lia|].
    cbn [mbind outcome_bind]. unfold getOffset.
    rewrite (index_Ok (Offset32 idx) mapped _ ltac:(lia) HO). cbn [mbind outcome_bind].
    destruct Hoke as (Ho1 & Ho2 & Ho3 & Ho4).
    replace s with (Z.of_nat (Z.to_nat s)) at 1 by lia.
    rewrite (offset_word_ok _ b ws _ e) by done. cbn [mbind outcome_bind].
    rewrite i64_small by done. apply IH; [lia|lia|by rewrite Write_len|done|].
    replace (Z.to_nat (s + 1)) with (S (Z.to_nat s)) by lia.
    rewrite (take_S_r _ _ _ He), app_assoc. apply map_of_snoc; [done|].
    assert (entry_ok (objectIDSize idx) e) as Hoke by done.
    rewrite Bytes_Write; [|done|].
    + rewrite Hhs. by apply take_ebytes.
    + rewrite len_app, Hhs, (entry_len _ _ Hoke). pose proof (len_nonneg q). lia.
Qed.

Lemma drop_cons_lookup {A} (l : list A) k x l' : drop k l = x :: l' -> l !! k = Some x /\ drop (S k) l = l'.
Proof.
  revert l. induction k as [|k IH]; intros [|y l]; cbn; try done.
  - by intros [= -> ->].
  - apply IH.
Qed.

Lemma genOffsetHash_loop_spec idx bs wss fs ms k i hash m :
  tables idx bs wss -> buckets_ok (objectIDSize idx) bs ->
  objectIDSize idx = 20 \/ objectIDSize idx = 32 ->
  fs = drop k (fans bs) -> ms = drop k (maps bs) -> i = len (concat (take k bs)) ->
  len (oid_hash hash) = SHA256Size -> Size hash = objectIDSize idx ->
  map_of m (concat (take k bs)) -> len (concat bs) * 32 < 2 ^ 32 -> (k <= length bs)%nat ->
  ensures (genOffsetHash_loop idx fs ms i hash m) (fun m' => map_of m' (concat bs)).
Proof.
  intros Ht Hb Hsz. revert ms k i hash m.
  induction fs as [|f fs IH]; intros ms k i hash m Hfs Hms Hi Hhl Hhs Hm Hsmall Hk.
  - assert (length bs <= k)%nat as Hle.
    { apply (f_equal length) in Hfs. rewrite length_drop in Hfs. unfold fans in Hfs.
      rewrite length_fmap, length_seq in Hfs. simpl in Hfs. lia. }
    rewrite take_ge in Hm by done. by destruct ms.
  - symmetry in Hfs. apply drop_cons_lookup in Hfs as [Hf Hfs].
    assert (k < length bs)%nat as Hlt.
    { apply lookup_lt_Some in Hf. unfold fans in Hf. by rewrite length_fmap, length_seq in Hf. }
    rewrite fans_lookup in Hf by done. injection Hf as <-.
    destruct (lookup_lt_is_Some_2 bs k Hlt) as [b Hbk].
    destruct ms as [|mp ms].
    { apply (f_equal length) in Hms. rewrite length_drop in Hms. unfold maps in Hms.
      rewrite length_imap in Hms. simpl in Hms. lia. }
    symmetry in Hms. apply drop_cons_lookup in Hms as [Hmp Hms].
    cbn [genOffsetHash_loop]. rewrite (concat_take_S bs k b Hbk), len_app, <-Hi.
    replace (i + len b - i) with (len b) by lia.
    assert (len b <= len (concat bs)) as Hble.
    { rewrite (concat_middle bs k b Hbk), !len_app. pose proof (len_nonneg (concat (take k bs))).
      pose proof (len_nonneg (concat (drop (S k) bs))). lia. }
    run (genOffsetHash_bucket_spec idx bs wss k b m (concat (take k bs)) hash mp _ 0) as r;
      try done.
    + by rewrite (t_mapping _ _ _ Ht).
    + unfold len. rewrite Nat2Z.id. simpl. lia.
    + by rewrite app_nil_r.
    + lia.
    + destruct r as [hash' m']. intros (Hhl' & Hhs' & Hm').
      apply (IH ms (S k)); try done.
      * rewrite (concat_take_S bs k b Hbk), len_app, Hi. pose proof (len_nonneg b). lia.
      * by rewrite (concat_take_S bs k b Hbk).
Qed.

Lemma genOffsetHash_spec idx bs :
  represents idx bs -> len (concat bs) < 2 ^ 27 ->
  ensures (genOffsetHash idx) (fun m => map_of m (concat bs)).
Proof.
  intros [Hsz Hb [wss Ht] _] Hn. unfold genOffsetHash.
  destruct (ResetBySize_props (objectIDSize idx) Hsz) as [Hs Hl].
  eapply (genOffsetHash_loop_spec idx bs wss _ _ 0); try done.
  - by rewrite (t_fanout _ _ _ Ht).
  - by rewrite (t_mapping _ _ _ Ht).
  - split; [intros o h Ho; by rewrite lookup_empty in Ho|].
    intros e He. by apply not_elem_of_nil in He.
  - lia.
  - lia.
Qed.

(** Lookup by offset inverts lookup by name.  In an index that represents
    [bs], with fewer than 2^27 entries, [FindHash] at the offset of an entry returns an identifier with the bytes
    of the entry's name, and [ErrObjectNotFound] at every other offset, however
    the lookups before have filled the cache; the index still represents
    [bs]. *)
Theorem lookup_by_offset idx bs o :
  represents idx bs -> len (concat bs) < 2 ^ 27 ->
  exists r idx', FindHash idx o = Ok (r, idx') /\ represents idx' bs /\
    match r with
    | inl h => exists e, e ∈ concat bs /\ e_Offset e = o /\ Bytes h = ebytes e
    | inr err => err = ErrObjectNotFound /\ forall e, e ∈ concat bs -> e_Offset e <> o
    end.
Proof.
  intros Hrep Hn. unfold FindHash.
  destruct (offsetHash idx ≫= (fun m => m !! o)) as [h|] eqn:Hcache.
  { exists (inl h), idx. split; [done|]. split; [done|].
    destruct (offsetHash idx) as [m|] eqn:Hm; [|done]. destruct Hrep as [_ _ _ [Hs _]]. by apply (Hs m). }
  destruct (offsetBuilt idx) eqn:Hbuilt.
  - eexists _, _. split; [done|]. split; [done|]. split; [done|]. intros e He <-.
    destruct Hrep as [_ _ _ [_ Hc]]. destruct (Hc Hbuilt) as (m & Hm & Hall). rewrite Hm in Hcache.
    cbn in Hcache. destruct (Hall e He) as [h Hh]. congruence.
  - destruct (ensures_inv _ _ (genOffsetHash_spec idx bs Hrep Hn)) as (m & -> & Hs & Hc).
    cbn [set_offsetHash offsetHash mbind option_bind].
    assert (represents (set_offsetHash idx (Some m) true) bs) as Hrep'.
    { apply represents_cache; [done|]. constructor; cbn [set_offsetHash offsetHash offsetBuilt].
      - intros m' o' h' [= <-]. apply Hs.
      - intros _. by exists m. }
    destruct (m !! o) as [h|] eqn:Hmo.
    + eexists _, _. split; [done|]. split; [done|]. by apply Hs.
    + eexists _, _. split; [done|]. split; [done|]. split; [done|]. intros e He <-.
      destruct (Hc e He) as [h Hh]. congruence.
Qed.

(** ** Iterating *)

(** The entry read from the tables: its identifier has the bytes of the name
    (see [entries_identifier_is_not_clean] for what follows them). *)
Definition reads_as (e' e : Entry) : Prop :=
  Bytes (e_Hash e') = ebytes e /\ e_CRC32 e' = e_CRC32 e /\ e_Offset e' = e_Offset e.

(** The iterator is before the entry number [it_total]. *)
Definition iter_ok (bs : list (list Entry)) (i : idxfileEntryIter) : Prop :=
  0 <= it_first i <= fanout /\ 0 <= it_second i /\
  it_total i = len (concat (take (Z.to_nat (it_first i)) bs)) + it_second i /\
  it_total i <= len (concat (take (S (Z.to_nat (it_first i))) bs)).

Lemma Entries_Next_spec fuel idx bs wss i :
  tables idx bs wss -> buckets_ok (objectIDSize idx) bs ->
  objectIDSize idx = 20 \/ objectIDSize idx = 32 -> iter_ok bs i ->
  fanout - it_first i < Z.of_nat fuel ->
  ensures (Entries_Next fuel idx i) (fun '(r, i') => iter_ok bs i' /\
    match concat bs !! Z.to_nat (it_total i) with
    | Some e => exists e', r = Some e' /\ reads_as e' e /\ it_total i' = it_total i + 1
    | None => r = None
    end).
Proof.
  intros Ht Hb Hsz. revert i. pose proof (b_len _ _ Hb) as Hlen.
  induction fuel as [|f IH]; intros [t k s] (Hk & Hs & Htot & Hle) Hf; cbn [it_first it_total it_second] in *.
  { unfold fanout in *. lia. }
  cbn [Entries_Next it_first it_total it_second]. rewrite !Z.geb_leb. unfold fanout in *.
  destruct (Z.leb_spec 256 k) as [Hend|Hlt].
  - cbn. split; [done|]. rewrite lookup_ge_None_2; [done|].
    rewrite take_ge in Htot by lia. unfold len in *. lia.
  - destruct (lookup_lt_is_Some_2 bs (Z.to_nat k)) as [b Hbk]; [lia|].
    rewrite (t_fanout _ _ _ Ht).
    assert (Z.to_nat k < length bs)%nat as Hkl by lia.
    rewrite (index_Ok (fans bs) k _ ltac:(lia) (fans_lookup bs _ Hkl)).
    cbn [mbind outcome_bind]. rewrite (concat_take_S bs _ b Hbk), len_app in Hle |- *.
    rewrite Z.geb_leb.
    destruct (Z.leb_spec (len (concat (take (Z.to_nat k) bs)) + len b) t) as [Hnext|Hin].
    + apply IH; [|cbn; lia]. unfold iter_ok. cbn [it_first it_second it_total]. unfold fanout.
      replace (Z.to_nat (k + 1)) with (S (Z.to_nat k)) by lia.
      rewrite (concat_take_S bs _ b Hbk), len_app. split; [lia|]. split; [lia|]. split; [lia|].
      assert (len (concat (take (S (Z.to_nat k)) bs)) <= len (concat (take (S (S (Z.to_nat k))) bs))) as Hmono.
      { replace (take (S (Z.to_nat k)) bs) with (take (S (Z.to_nat k)) (take (S (S (Z.to_nat k))) bs))
          by (rewrite take_take; f_equal; lia).
        rewrite <-(take_drop (S (Z.to_nat k)) (take (S (S (Z.to_nat k))) bs)) at 2.
        rewrite concat_app, len_app.
        pose proof (len_nonneg (concat (drop (S (Z.to_nat k)) (take (S (S (Z.to_nat k))) bs)))). lia. }
      rewrite (concat_take_S bs _ b Hbk), len_app in Hmono. lia.
    + assert (s < len b) as Hsb by lia.
      destruct (bucket_tables idx bs wss _ b Ht Hbk) as (m & Hm & Hcase).
      rewrite (index_Ok (FanoutMapping idx) k _ ltac:(lia) Hm). cbn [mbind outcome_bind].
      destruct Hcase as [[-> _]|(Hne & Hmr & ws & HN & HC & HO & Hres)].
      { change (len (@nil Entry)) with 0 in Hsb. lia. }
      destruct (bucket_props _ _ _ _ Hb Hbk) as (Hbe & _ & _ & _).
      rewrite (index_Ok (Names idx) m _ ltac:(lia) HN). cbn [mbind outcome_bind].
      rewrite idSize_eq by done.
      destruct (lookup_lt_is_Some_2 b (Z.to_nat s)) as [e He]; [unfold len in Hsb; lia|].
      destruct (slice_name (objectIDSize idx) b (Z.to_nat s) e (s * objectIDSize idx) Hbe He) as (q & ->);
        [by rewrite Z2Nat.id|lia|].
      cbn [mbind outcome_bind]. unfold getOffset, getCRC32.
      rewrite (index_Ok (Offset32 idx) m _ ltac:(lia) HO), (index_Ok (CRC32 idx) m _ ltac:(lia) HC).
      cbn [mbind outcome_bind]. pose proof (Forall_lookup_1 _ _ _ _ Hbe He) as Hoke.
      replace (offset_word (words_of ws) (Offset64 idx) s) with (@Ok idx_error Z (e_Offset e)).
      2:{ rewrite <-(Z2Nat.id s) by lia. symmetry. destruct Hoke as (_ & _ & _ & ?).
          by apply (offset_word_ok _ b ws). }
      replace (crc_word (crcs_of b) s) with (@Ok idx_error Z (e_CRC32 e)).
      2:{ rewrite <-(Z2Nat.id s) by lia. symmetry. by apply (crc_word_ok (objectIDSize idx)). }
      cbn [mbind outcome_bind mret outcome_ret ensures]. split.
      * unfold iter_ok. cbn [it_first it_second it_total]. unfold fanout.
        rewrite (concat_take_S bs _ b Hbk), len_app. lia.
      * replace (Z.to_nat t) with (length (concat (take (Z.to_nat k) bs)) + Z.to_nat s)%nat
          by (unfold len in Htot; lia).
        rewrite (concat_lookup bs _ b) by (done || (unfold len in Hsb; lia)). rewrite He.
        eexists. split; [done|]. split; [|done]. split; [|done]. cbn [e_Hash].
        destruct (ResetBySize_props (objectIDSize idx) Hsz) as [Hrs Hrl].
        rewrite Bytes_Write; [|done|].
        -- rewrite Hrs. by apply take_ebytes.
        -- rewrite len_app, Hrs, (entry_len _ _ Hoke). pose proof (len_nonneg q). lia.
Qed.

Lemma drain_spec n idx bs wss i :
  tables idx bs wss -> buckets_ok (objectIDSize idx) bs ->
  objectIDSize idx = 20 \/ objectIDSize idx = 32 -> iter_ok bs i -> 0 <= it_total i ->
  len (concat bs) - it_total i < Z.of_nat n ->
  ensures (drain n idx i) (fun es => Forall2 reads_as es (drop (Z.to_nat (it_total i)) (concat bs))).
Proof.
  intros Ht Hb Hsz. revert i. induction n as [|n IH]; intros i Hi H0 Hn.
  - rewrite drop_ge by (unfold len in Hn; lia). exfalso. destruct Hi as (Hk & Hs & Htot & Hle).
    pose proof (b_len _ _ Hb) as Hlen.
    assert (len (concat (take (S (Z.to_nat (it_first i))) bs)) <= len (concat bs)); [|lia].
    rewrite <-(take_drop (S (Z.to_nat (it_first i))) bs) at 2. rewrite concat_app, len_app.
    pose proof (len_nonneg (concat (drop (S (Z.to_nat (it_first i))) bs))). lia.
  - cbn [drain]. run (Entries_Next_spec entries_fuel idx bs wss i) as r; try done.
    { destruct Hi as (Hk & _). unfold entries_fuel, fanout in *. lia. }
    destruct r as [r i']. intros [Hi' Hr].
    destruct (concat bs !! Z.to_nat (it_total i)) as [e|] eqn:He.
    + destruct Hr as (e' & -> & Hreads & Htot').
      run (IH i') as es; [done|lia|lia|]. intros Hes. cbn.
      rewrite (drop_S _ _ _ He). constructor; [done|].
      by replace (S (Z.to_nat (it_total i))) with (Z.to_nat (it_total i')) by lia.
    + subst r. cbn. rewrite drop_ge; [constructor|]. by apply lookup_ge_None_1.
Qed.

Lemma iter_ok_start bs : iter_ok bs Entries.
Proof.
  unfold iter_ok, Entries, fanout. cbn [it_first it_second it_total]. change (Z.to_nat 0) with 0%nat.
  change (concat (take 0 bs)) with (@nil Entry). change (len (@nil Entry)) with 0.
  pose proof (len_nonneg (concat (take 1 bs))). lia.
Qed.

(** The iterator of [Entries] returns every entry once, in name order:
    identifiers with the bytes of the names, checksums and offsets; then
    [io.EOF]. *)
Theorem entries_complete idx bs :
  represents idx bs ->
  exists es, drain (S (length (concat bs))) idx Entries = Ok es /\ Forall2 reads_as es (concat bs).
Proof.
  intros [Hsz Hb [wss Ht] _].
  pose proof (iter_ok_start bs) as Hi.
  destruct (ensures_inv _ _ (drain_spec (S (length (concat bs))) idx bs wss Entries Ht Hb Hsz Hi
    ltac:(done) ltac:(unfold len; cbn [Entries it_total]; lia))) as (es & -> & Hes).
  exists es. split; [done|]. exact Hes.
Qed.

(** *** By offset *)

Lemma take_entries_spec n idx bs wss i :
  tables idx bs wss -> buckets_ok (objectIDSize idx) bs ->
  objectIDSize idx = 20 \/ objectIDSize idx = 32 -> iter_ok bs i -> 0 <= it_total i ->
  Z.of_nat n + it_total i <= len (concat bs) ->
  ensures (take_entries n idx i) (fun es => Forall2 reads_as es (take n (drop (Z.to_nat (it_total i)) (concat bs)))).
Proof.
  intros Ht Hb Hsz. revert i. induction n as [|n IH]; intros i Hi H0 Hn; [by cbn|].
  cbn [take_entries]. run (Entries_Next_spec entries_fuel idx bs wss i) as r; try done.
  { destruct Hi as (Hk & _). unfold entries_fuel, fanout in *. lia. }
  destruct r as [r i']. intros [Hi' Hr].
  destruct (lookup_lt_is_Some_2 (concat bs) (Z.to_nat (it_total i))) as [e He]; [unfold len in Hn; lia|].
  rewrite He in Hr. destruct Hr as (e' & -> & Hreads & Htot').
  run (IH i') as es; [done|lia|lia|]. intros Hes. cbn [mret outcome_ret ensures].
  rewrite (drop_S _ _ _ He). constructor; [done|].
  by replace (S (Z.to_nat (it_total i))) with (Z.to_nat (it_total i')) by lia.
Qed.

Lemma drain_offset_spec n l pos :
  0 <= pos <= len l -> len l - pos < Z.of_nat n ->
  drain_offset n {| oi_entries := l; oi_pos := pos |} = Ok (drop (Z.to_nat pos) l).
Proof.
  revert pos. induction n as [|n IH]; intros pos Hpos Hn; cbn [drain_offset].
  - lia.
  - unfold EntriesByOffset_Next. cbn [oi_entries oi_pos]. rewrite Z.geb_leb.
    destruct (Z.leb_spec (len l) pos).
    + cbn. rewrite drop_ge; [done|]. unfold len in *. lia.
    + destruct (lookup_lt_is_Some_2 l (Z.to_nat pos)) as [e He]; [unfold len in *; lia|].
      rewrite (index_Ok l pos e ltac:(lia) He). cbn [mbind outcome_bind mret outcome_ret].
      rewrite IH by lia. cbn [mbind outcome_bind]. rewrite (drop_S _ _ _ He).
      by replace (Z.to_nat (pos + 1)) with (S (Z.to_nat pos)) by lia.
Qed.

#[local] Instance offset_le_trans : Transitive offset_le.
Proof. unfold offset_le. intros a b c. lia. Qed.
#[local] Instance offset_le_total : Total offset_le.
Proof. unfold offset_le. intros a b. lia. Qed.

Lemma EntriesByOffset_spec idx bs :
  represents idx bs ->
  exists es, EntriesByOffset idx = Ok {| oi_entries := merge_sort offset_le es; oi_pos := 0 |}
    /\ StronglySorted (fun a b => e_Offset a <= e_Offset b) (merge_sort offset_le es) /\ Forall2 reads_as es (concat bs).
Proof.
  intros [Hsz Hb [wss Ht] _]. unfold EntriesByOffset, Count.
  pose proof (b_len _ _ Hb) as H256.
  rewrite (t_fanout _ _ _ Ht), (index_Ok (fans bs) _ (len (concat bs))).
  2: done.
  2:{ rewrite fans_lookup by (rewrite H256; unfold fanout; lia). by rewrite take_ge by (rewrite H256; done). }
  cbn [mbind outcome_bind]. unfold len at 1. rewrite Nat2Z.id.
  destruct (ensures_inv _ _ (take_entries_spec (length (concat bs)) idx bs wss Entries Ht Hb Hsz
    (iter_ok_start bs) ltac:(done) ltac:(unfold len; cbn [Entries it_total]; lia))) as (es & -> & Hes).
  cbn [mbind outcome_bind it_total Entries] in *. change (Z.to_nat 0) with 0%nat in Hes.
  rewrite drop_0, take_ge in Hes by lia. exists es. split; [done|]. split; [|done].
  pose proof (StronglySorted_merge_sort offset_le es) as Hs. clear -Hs.
  induction Hs as [|x l Hs IH Hx]; constructor; [done|].
  eapply Forall_impl; [exact Hx|]. unfold offset_le. cbn. lia.
Qed.

(** [EntriesByOffset] returns the same entries as [Entries], in the order
    of their offsets in the pack; then [io.EOF]. *)
Theorem entries_by_offset_sorted idx bs :
  represents idx bs ->
  exists it es sorted, EntriesByOffset idx = Ok it
    /\ drain_offset (S (length (concat bs))) it = Ok sorted
    /\ StronglySorted (fun a b => e_Offset a <= e_Offset b) sorted
    /\ sorted ≡ₚ es /\ Forall2 reads_as es (concat bs).
Proof.
  intros (es & Hit & Hs & Hes)%EntriesByOffset_spec. pose proof (merge_sort_Permutation offset_le es) as Hp.
  eexists _, es, (merge_sort offset_le es). split; [exact Hit|]. split; [|done].
  rewrite drain_offset_spec; [done|pose proof (len_nonneg (merge_sort offset_le es)); lia|]. unfold len. rewrite Hp.
  rewrite (Forall2_length _ _ _ Hes). lia.
Qed.

(** ** Prefix search *)

Lemma compare_zeros q n : bytes_ok q -> length q = n -> bytes_compare q (replicate n 0) <> Lt.
Proof.
  intros Hq. revert n. induction Hq as [|x q Hx Hq IH]; intros [|n] Hl; cbn; try done.
  unfold is_byte in Hx. destruct (Z.compare_spec x 0); try done; [|lia].
  apply IH. by injection Hl.
Qed.

Lemma prefix_sandwich pre x y z :
  bytes_compare y (pre ++ x) <> Lt -> bytes_lt y (pre ++ z) -> exists q, y = pre ++ q.
Proof.
  revert y. induction pre as [|c pre IH]; intros y H1 H2; [by exists y|].
  unfold bytes_lt in H2. destruct y as [|d y]; cbn in H1, H2; [done|].
  destruct (Z.compare_spec d c) as [->| |]; try done.
  destruct (IH y H1 H2) as [q ->]. by exists q.
Qed.

Definition target_of (sz : Z) (prefix : bytes) : bytes := copy (zeros sz) prefix.

Lemma target_of_short sz prefix :
  len prefix <= sz -> target_of sz prefix = prefix ++ replicate (Z.to_nat sz - length prefix) 0.
Proof.
  intros H. unfold target_of, copy, zeros, len in *. rewrite length_replicate.
  rewrite take_ge by lia. by rewrite drop_replicate.
Qed.

Lemma below_target_no_prefix sz prefix slot :
  len slot = sz -> bytes_ok slot -> bytes_lt slot (target_of sz prefix) -> HasPrefix slot prefix = false.
Proof.
  intros Hl Hok Hlt. destruct (HasPrefix slot prefix) eqn:Hp; [|done]. exfalso.
  apply HasPrefix_spec in Hp as [q ->]. rewrite len_app in Hl. pose proof (len_nonneg q).
  rewrite target_of_short in Hlt by lia. unfold bytes_lt in Hlt. rewrite bytes_compare_common in Hlt.
  apply bytes_ok_app in Hok as [_ Hok]. revert Hlt. apply compare_zeros; [done|].
  unfold len in *. lia.
Qed.

Lemma after_mismatch_no_prefix sz prefix x y :
  len x = sz -> len y = sz -> ~ bytes_lt x (target_of sz prefix) -> HasPrefix x prefix = false ->
  bytes_lt x y -> HasPrefix y prefix = false.
Proof.
  intros Hx Hy Hge Hxp Hlt. destruct (HasPrefix y prefix) eqn:Hp; [|done]. exfalso.
  apply HasPrefix_spec in Hp as [q ->]. rewrite len_app in Hy. pose proof (len_nonneg q).
  rewrite target_of_short in Hge by lia.
  destruct (prefix_sandwich prefix _ x q Hge Hlt) as [q' ->].
  rewrite (proj2 (HasPrefix_spec (prefix ++ q') prefix)) in Hxp by eauto. done.
Qed.

Lemma lower_bound_spec fuel b sz target lo hi :
  Forall (entry_ok sz) b -> StronglySorted entry_lt b ->
  0 <= lo <= hi -> hi <= len b -> hi - lo < Z.of_nat fuel ->
  (forall i e, b !! i = Some e -> Z.of_nat i < lo -> bytes_lt (ebytes e) target) ->
  (forall i e, b !! i = Some e -> hi <= Z.of_nat i -> ~ bytes_lt (ebytes e) target) ->
  ensures (lower_bound fuel (names_of b) target sz lo hi) (fun r => lo <= r <= hi /\
    (forall i e, b !! i = Some e -> Z.of_nat i < r -> bytes_lt (ebytes e) target) /\
    (forall i e, b !! i = Some e -> r <= Z.of_nat i -> ~ bytes_lt (ebytes e) target)).
Proof.
  intros Hok Hs. revert lo hi. induction fuel as [|f IH]; intros lo hi Hlo Hhi Hf Hbelow Habove; [lia|].
  cbn [lower_bound]. destruct (Z.ltb_spec lo hi) as [Hlt|Hge].
  2:{ cbn. assert (hi = lo) as -> by lia. split; [lia|]. done. }
  rewrite Z.shiftr_div_pow2 by lia. change (2 ^ 1) with 2. set (mid := (lo + hi) `div` 2).
  assert (lo <= mid < hi) as Hmid by (subst mid; lia). clearbody mid.
  destruct (lookup_lt_is_Some_2 b (Z.to_nat mid)) as [e He]; [unfold len in Hhi; lia|].
  replace ((mid + 1) * sz) with (mid * sz + sz) by lia. unfold names_of.
  rewrite (slice_fixed ebytes sz b (Z.to_nat mid) _ e)
    by (first [by apply names_entry_len | done | rewrite Z2Nat.id by lia; done]).
  cbn [mbind outcome_bind]. fold (names_of b).
  assert (forall i e', b !! i = Some e' -> mid <= Z.of_nat i ->
    i = Z.to_nat mid /\ e' = e \/ bytes_lt (ebytes e) (ebytes e')) as Hafter.
  { intros i e' Hi Hle. destruct (Z.eq_dec (Z.of_nat i) mid) as [Heq|Hne].
    - left. replace i with (Z.to_nat mid) in Hi |- * by lia. split; [done|]. by simplify_eq.
    - right. apply (sorted_lookup b (Z.to_nat mid) i); [done..|lia]. }
  assert (forall i e', b !! i = Some e' -> Z.of_nat i < mid + 1 ->
    i = Z.to_nat mid /\ e' = e \/ bytes_lt (ebytes e') (ebytes e)) as Hbefore.
  { intros i e' Hi Hle. destruct (Z.eq_dec (Z.of_nat i) mid) as [Heq|Hne].
    - left. replace i with (Z.to_nat mid) in Hi |- * by lia. split; [done|]. by simplify_eq.
    - right. apply (sorted_lookup b i (Z.to_nat mid)); [done..|lia]. }
  destruct (bytes_compare (ebytes e) target) eqn:Hc.
  2:{ eapply ensures_weaken; [apply (IH (mid + 1) hi); [lia|done|lia| |done]|].
      - intros i e' Hi Hle. destruct (Hbefore i e' Hi Hle) as [[_ ->]|Hlt']; [done|].
        etrans; [exact Hlt'|done].
      - cbn. intros r (Hr & Hb1 & Hb2). split; [lia|done]. }
  all: eapply ensures_weaken; [apply (IH lo mid); [lia|lia|lia|done|]|].
  1,3: intros i e' Hi Hle; assert (~ bytes_lt (ebytes e) target) as Hn
         by (unfold bytes_lt; rewrite Hc; done);
       destruct (Hafter i e' Hi Hle) as [[_ ->]|Hlt']; [done|];
       intros Hcon; apply Hn; etrans; [exact Hlt'|done].
  all: cbn; intros r (Hr & Hb1 & Hb2); split; [lia|done].
Qed.

Lemma Write_ebytes sz e :
  sz = 20 \/ sz = 32 -> entry_ok sz e -> oid_Write (ResetBySize sz) (ebytes e) = e_Hash e.
Proof.
  intros Hsz Hok. pose proof (entry_len _ _ Hok) as Hl. destruct Hok as (Hoid & Hs & _).
  rewrite (oid_eta _ Hoid). fold (ebytes e). unfold oid_Write, oid_of. f_equal.
  - cbn [ResetBySize oid_hash]. rewrite copy_zeros; [done|]. unfold SHA256Size. lia.
  - cbn [ResetBySize oid_format]. destruct (Size_cases (e_Hash e)) as [[H1 H2]|[H1 H2]].
    + assert (sz = 20) as -> by lia. destruct Hoid as [_ _ _ Hf]. by destruct (oid_format (e_Hash e)).
    + assert (sz = 32) as -> by lia. done.
Qed.

Definition with_prefix (prefix : bytes) (e : Entry) : Prop := HasPrefix (ebytes e) prefix = true.
#[export] Instance with_prefix_dec prefix e : Decision (with_prefix prefix e).
Proof. unfold with_prefix. apply _. Defined.

Lemma drain_prefix_spec n b ws sz o64 prefix pos :
  Forall (entry_ok sz) b -> StronglySorted entry_lt b -> Forall2 (resolves o64) b ws ->
  sz = 20 \/ sz = 32 -> 0 <= pos <= len b -> len b - pos < Z.of_nat n ->
  (forall i e, b !! i = Some e -> pos <= Z.of_nat i -> ~ bytes_lt (ebytes e) (target_of sz prefix)) ->
  drain_prefix n {| px_idSize := sz; px_prefix := prefix; px_names := names_of b;
                    px_offset32 := words_of ws; px_crc32 := crcs_of b; px_offset64 := o64;
                    px_pos := pos; px_done := false |}
  = Ok (filter (with_prefix prefix) (drop (Z.to_nat pos) b)).
Proof.
  intros Hok Hs Hres Hsz. revert pos. induction n as [|n IH]; intros pos Hpos Hn Hge.
  - lia.
  - cbn [drain_prefix]. unfold Prefix_Next.
    cbn [px_done px_pos px_idSize px_names px_prefix px_offset32 px_offset64 px_crc32].
    unfold names_of at 1. rewrite (concat_fixed_len ebytes sz) by (by apply names_entry_len).
    rewrite Z.gtb_ltb. destruct (b !! Z.to_nat pos) as [e|] eqn:He.
    2:{ apply lookup_ge_None_1 in He. rewrite drop_ge by done.
        replace (sz * len b <? pos * sz + sz) with true; [done|].
        symmetry. apply Z.ltb_lt. unfold len in *. nia. }
    pose proof (lookup_lt_Some _ _ _ He) as Hlt.
    replace (sz * len b <? pos * sz + sz) with false
      by (symmetry; apply Z.ltb_ge; unfold len; nia).
    unfold names_of at 1. rewrite (slice_fixed ebytes sz b (Z.to_nat pos) _ e)
      by (first [by apply names_entry_len | done | rewrite Z2Nat.id by lia; done]).
    cbn [mbind outcome_bind]. rewrite (drop_S _ _ _ He), filter_cons.
    destruct (decide (with_prefix prefix e)) as [Hp|Hp]; unfold with_prefix in Hp.
    + rewrite Hp. cbn [negb]. pose proof (Forall_lookup_1 _ _ _ _ Hok He) as Hoke.
      replace (offset_word (words_of ws) o64 pos) with (@Ok idx_error Z (e_Offset e)).
      2:{ rewrite <-(Z2Nat.id pos) by lia. symmetry. destruct Hoke as (_ & _ & _ & ?).
          by apply (offset_word_ok _ b ws). }
      replace (crc_word (crcs_of b) pos) with (@Ok idx_error Z (e_CRC32 e)).
      2:{ rewrite <-(Z2Nat.id pos) by lia. symmetry. by apply (crc_word_ok sz). }
      cbn [mbind outcome_bind mret outcome_ret]. 
      rewrite IH; [|unfold len; lia|unfold len in *; lia|intros i e' Hi Hle; apply (Hge i e' Hi); lia].
      cbn [mbind outcome_bind]. rewrite (Write_ebytes sz e) by done. unfold mret, outcome_ret.
      replace (Z.to_nat (pos + 1)) with (S (Z.to_nat pos)) by lia. by destruct e.
    + apply not_true_is_false in Hp. rewrite Hp. cbn. f_equal. symmetry. apply filter_none.
      apply Forall_lookup. intros i e' Hi. rewrite lookup_drop in Hi. unfold with_prefix.
      rewrite (after_mismatch_no_prefix sz prefix (ebytes e) (ebytes e')); [done|..|done|].
      * by apply entry_len, (Forall_lookup_1 _ _ _ _ Hok He).
      * by apply entry_len, (Forall_lookup_1 _ _ _ _ Hok Hi).
      * apply (Hge _ _ He). lia.
      * apply (sorted_lookup b _ _ _ _ Hs He Hi). lia.
Qed.

Lemma filter_prefix_bucket sz bs a p b :
  buckets_ok sz bs -> 0 <= a -> bs !! Z.to_nat a = Some b ->
  filter (with_prefix (a :: p)) (concat bs) = filter (with_prefix (a :: p)) b.
Proof.
  intros Hb Ha Hk. rewrite (concat_middle bs _ b Hk), !filter_app.
  assert (forall k e b', bs !! k = Some b' -> e ∈ b' -> k <> Z.to_nat a -> ~ with_prefix (a :: p) e) as Hno.
  { intros k e b' Hk' He Hne Hp. apply HasPrefix_spec in Hp as [q Hq].
    pose proof (b_first _ _ Hb k b' Hk') as Hf. rewrite Forall_forall in Hf. specialize (Hf e He).
    unfold first in Hf. rewrite Hq in Hf. cbn in Hf. lia. }
  assert (forall l, (forall b', b' ∈ l -> exists k, bs !! k = Some b' /\ k <> Z.to_nat a) ->
    filter (with_prefix (a :: p)) (concat l) = []) as Hside.
  { intros l Hl. apply filter_none. apply Forall_forall. intros e He.
    apply list_elem_of_In, in_concat in He as (b' & Hb' & He). apply list_elem_of_In in Hb', He.
    destruct (Hl b' Hb') as (k & Hk' & Hne). by apply (Hno k e b'). }
  rewrite (Hside (take _ bs)), (Hside (drop _ bs)); [by rewrite app_nil_r|..].
  - intros b' Hb'. apply list_elem_of_lookup in Hb' as [i Hi]. rewrite lookup_drop in Hi.
    eexists. split; [exact Hi|]. lia.
  - intros b' Hb'. apply list_elem_of_lookup in Hb' as [i Hi].
    apply lookup_take_Some in Hi as [Hi Hlt]. exists i. split; [done|]. lia.
Qed.

(** Prefix search is exact.  In an index that represents [bs], iterating
    over [EntriesWithPrefix] for the empty prefix is iterating over [Entries], and for
    another it returns exactly the entries
    whose name starts with the prefix, in order and with their identifiers,
    checksums and offsets. *)
Theorem prefix_search idx bs a p :
  represents idx bs -> bytes_ok (a :: p) ->
  EntriesWithPrefix idx [] = Ok (inl Entries) /\
  exists it, EntriesWithPrefix idx (a :: p) = Ok (inr it) /\
    drain_prefix (S (length (concat bs))) it = Ok (filter (with_prefix (a :: p)) (concat bs)).
Proof.
  intros [Hsz Hb [wss Ht] _] [Ha _]%bytes_ok_cons. unfold is_byte in Ha. split; [done|].
  pose proof (b_len _ _ Hb) as Hlen.
  destruct (lookup_lt_is_Some_2 bs (Z.to_nat a)) as [b Hbk]; [lia|].
  rewrite (filter_prefix_bucket _ bs a p b Hb ltac:(lia) Hbk).
  destruct (bucket_tables idx bs wss _ b Ht Hbk) as (m & Hm & Hcase).
  unfold EntriesWithPrefix. rewrite len_cons. pose proof (len_nonneg p). ztest (1 + len p =? 0) false.
  change (index (a :: p) 0) with (@Ok idx_error Z a). cbn [mbind outcome_bind].
  rewrite (index_Ok (FanoutMapping idx) a m ltac:(lia) Hm). cbn [mbind outcome_bind].
  destruct Hcase as [[-> ->]|(Hne & Hmr & ws & HN & HC & HO & Hres)].
  { eexists. split; [done|]. done. }
  unfold noMapping. ztest (m =? -1) false.
  rewrite (index_Ok (Names idx) m _ ltac:(lia) HN), (index_Ok (Offset32 idx) m _ ltac:(lia) HO),
    (index_Ok (CRC32 idx) m _ ltac:(lia) HC). cbn [mbind outcome_bind]. rewrite idSize_eq by done.
  destruct (bucket_props _ _ _ _ Hb Hbk) as (Hbe & Hbs & Hbn & Hbin).
  assert (len (names_of b) `quot` objectIDSize idx = len b) as ->.
  { unfold names_of. rewrite (concat_fixed_len ebytes (objectIDSize idx)) by (by apply names_entry_len).
    rewrite Z.mul_comm. apply Z.quot_mul. lia. }
  fold (target_of (objectIDSize idx) (a :: p)).
  destruct (ensures_inv _ _ (lower_bound_spec (Z.to_nat (len b) + 1) b (objectIDSize idx)
    (target_of (objectIDSize idx) (a :: p)) 0 (len b) Hbe Hbs ltac:(pose proof (len_nonneg b); lia) ltac:(lia)
    ltac:(lia) ltac:(intros; lia)
    ltac:(intros i e Hi ?; apply lookup_lt_Some in Hi; unfold len in *; lia)))
    as (lo & -> & Hlo & Hbelow & Habove).
  cbn [mbind outcome_bind]. eexists. split; [done|].
  assert (length b <= length (concat bs))%nat as Hbl.
  { rewrite (concat_middle bs _ b Hbk), !length_app. lia. }
  rewrite (drain_prefix_spec _ b ws); [|done|done|done|done|lia|unfold len; lia|done].
  f_equal. rewrite <-(take_drop (Z.to_nat lo) b) at 2. rewrite filter_app.
  rewrite (filter_none _ (take _ b)); [done|]. apply Forall_lookup. intros i e Hi.
  apply lookup_take_Some in Hi as [Hi Hlt]. unfold with_prefix.
  pose proof (Forall_lookup_1 _ _ _ _ Hbe Hi) as Hoke.
  rewrite (below_target_no_prefix (objectIDSize idx)); [done|by apply entry_len| |].
  - destruct Hoke as ([_ Hok _ _] & _). by apply Bytes_ok.
  - apply (Hbelow i e Hi). lia.
Qed.

(** ** A concrete index

    Three SHA1 objects in two buckets, one with an offset beyond 2^31. *)
Module Sample.
Definition name (a b : Z) : bytes := a :: b :: replicate 18 7.
Definition entry (a b crc off : Z) : Entry :=
  {| e_Hash := oid_of UnsetObjectFormat (name a b); e_CRC32 := crc; e_Offset := off |}.
Definition e1 : Entry := entry 17 3 111 12.
Definition e2 : Entry := entry 17 9 222 (2 ^ 33 + 5).
Definition e3 : Entry := entry 200 0 333 400.
Definition buckets : list (list Entry) :=
  replicate 17 [] ++ [[e1; e2]] ++ replicate 182 [] ++ [[e3]] ++ replicate 55 [].
Definition words : list (list Z) :=
  replicate 17 [] ++ [[12; 2 ^ 31]] ++ replicate 182 [] ++ [[400]] ++ replicate 55 [].
Definition idx : MemoryIndex :=
  {| Version := 2; Fanout := fans buckets; FanoutMapping := maps buckets;
     Names := names_of <$> filter nonempty buckets; Offset32 := words_of <$> filter nonempty words;
     CRC32 := crcs_of <$> filter nonempty buckets; Offset64 := PutUint64 (2 ^ 33 + 5);
     PackfileChecksum := oid_of UnsetObjectFormat (replicate 20 1);
     IdxChecksum := ResetBySize 20; offsetHash := None; offsetBuilt := false; objectIDSize := 20 |}.

Lemma entry_sample_ok a b crc off :
  is_byte a -> is_byte b -> 0 <= crc < 2 ^ 32 -> 0 <= off < 2 ^ 63 -> entry_ok 20 (entry a b crc off).
Proof.
  intros Ha Hb Hc Ho. split; [|split; [done|done]]. apply oid_of_ok; [done|done|].
  do 2 (apply bytes_ok_cons; split; [done|]). apply Forall_replicate. unfold is_byte. lia.
Qed.

Lemma idx_tables : tables idx buckets words.
Proof.
  constructor; try done. unfold buckets, words.
  repeat apply Forall2_app; try (apply Forall2_replicate; constructor);
    repeat (apply Forall2_cons_2 || apply Forall2_nil_2).
  - left. cbn. lia.
  - right. exists 0, [], []. split; [done|]. split; [lia|]. done.
  - left. cbn. lia.
Qed.

Lemma buckets_first k b : buckets !! k = Some b -> Forall (fun e => first e = Z.of_nat k) b.
Proof.
  unfold buckets. intros Hk.
  repeat (apply lookup_app_Some in Hk as [Hk|[? Hk]]);
    rewrite ?length_replicate in *; cbn [length] in *;
    try (apply lookup_replicate in Hk as [-> _]; constructor).
  - destruct (k - 17)%nat eqn:Hi; [|done]. injection Hk as <-.
    replace k with 17%nat by lia. repeat constructor.
  - destruct (k - 17 - 1 - 182)%nat eqn:Hi; [|done]. injection Hk as <-.
    replace k with 200%nat by lia. repeat constructor.
Qed.

Lemma represented : represents idx buckets.
Proof.
  constructor; [by left| |by exists words; apply idx_tables|by constructor].
  constructor; [done|apply buckets_first| | |done].
  - change (concat buckets) with [e1; e2; e3].
    repeat constructor; try (cbn; lia); try (apply (bool_decide_unpack _); vm_compute; exact I); discriminate.
  - change (concat buckets) with [e1; e2; e3]. repeat constructor.
Qed.
End Sample.

Lemma lookup_by_name_witness :
  (exists idx', FindOffset Sample.idx (e_Hash Sample.e2) = Ok (2 ^ 33 + 5, idx')
     /\ represents idx' Sample.buckets)
  /\ FindCRC32 Sample.idx (e_Hash Sample.e2) = Ok 222 /\ Contains Sample.idx (e_Hash Sample.e2) = Ok true.
Proof.
  assert (oid_ok (e_Hash Sample.e2)) as Hok.
  { apply (Sample.entry_sample_ok 17 9 222 (2 ^ 33 + 5)); unfold is_byte; lia. }
  destruct (lookup_by_name Sample.idx Sample.buckets (e_Hash Sample.e2) Sample.represented Hok) as [H _].
  destruct (H Sample.e2) as (H1 & H2 & H3 & _).
  - split; [|reflexivity]. change (concat Sample.buckets) with [Sample.e1; Sample.e2; Sample.e3].
    right. left.
  - exact (conj H1 (conj H2 H3)).
Defined.

Lemma lookup_by_offset_witness :
  exists r idx', FindHash Sample.idx 400 = Ok (r, idx') /\ represents idx' Sample.buckets /\
    match r with
    | inl h => exists e, e ∈ concat Sample.buckets /\ e_Offset e = 400 /\ Bytes h = ebytes e
    | inr err => err = ErrObjectNotFound /\ forall e, e ∈ concat Sample.buckets -> e_Offset e <> 400
    end.
Proof. apply (lookup_by_offset Sample.idx Sample.buckets 400 Sample.represented). reflexivity. Defined.

Lemma entries_complete_witness :
  exists es, drain 4 Sample.idx Entries = Ok es /\ Forall2 reads_as es [Sample.e1; Sample.e2; Sample.e3].
Proof. exact (entries_complete Sample.idx Sample.buckets Sample.represented). Defined.

Lemma entries_by_offset_sorted_witness :
  exists it es sorted, EntriesByOffset Sample.idx = Ok it
    /\ drain_offset 4 it = Ok sorted
    /\ StronglySorted (fun a b => e_Offset a <= e_Offset b) sorted
    /\ sorted ≡ₚ es /\ Forall2 reads_as es [Sample.e1; Sample.e2; Sample.e3].
Proof. exact (entries_by_offset_sorted Sample.idx Sample.buckets Sample.represented). Defined.

Lemma prefix_search_witness :
  EntriesWithPrefix Sample.idx [] = Ok (inl Entries) /\
  exists it, EntriesWithPrefix Sample.idx [17; 9] = Ok (inr it) /\ drain_prefix 4 it = Ok [Sample.e2].
Proof.
  apply (prefix_search Sample.idx Sample.buckets 17 [9] Sample.represented).
  apply (bool_decide_unpack _). vm_compute. exact I.
Defined.

(** The identifier of the first entry is not the one that was written: its
    array holds the start of the next name after its 20 bytes. *)
Lemma entries_identifier_is_not_clean :
  exists e i, Entries_Next entries_fuel Sample.idx Entries = Ok (Some e, i)
    /\ Bytes (e_Hash e) = ebytes Sample.e1 /\ Equal (e_Hash e) (e_Hash Sample.e1) = false.
Proof. eexists _, _. split; [vm_compute; reflexivity|]. split; reflexivity. Qed.
