(* ===== verification/IdxWrite.v ===== *)
(** * Building, encoding and decoding a pack index

    The writer builds, from the objects of a pack in any order, an index that
    represents them ([writer.go]); encoding an index and decoding the result
    gives the index back ([encoder.go], [decoder.go]). *)
From stdpp Require Import base list numbers option gmap sorting.
From Stdlib Require Import ZArith Lia.
From S2P Require Import Prelude ObjectId Idxfile IdxLookup.

Open Scope Z_scope.
#[local] Ltac Zify.zify_post_hook ::= Z.to_euclidean_division_equations.

(** ** Sorting the objects *)

Lemma entry_le_iff a b : entry_le a b <-> ~ bytes_lt (ebytes b) (ebytes a).
Proof. reflexivity. Qed.

#[local] Instance entry_le_trans : Transitive entry_le.
Proof.
  intros a b c Hab Hbc. rewrite entry_le_iff in *. intros Hca.
  destruct (bytes_lt_total (ebytes a) (ebytes b)) as [H|[H|H]].
  - apply Hbc. etrans; eauto.
  - rewrite H in Hca. done.
  - done.
Qed.

#[local] Instance entry_le_total : Total entry_le.
Proof.
  intros a b. rewrite !entry_le_iff. destruct (decide (bytes_lt (ebytes b) (ebytes a))) as [H|H]; [|by left].
  right. intros H'. apply (bytes_lt_irrefl (ebytes a)). etrans; eauto.
Qed.

Lemma sort_objects_sorted l :
  NoDup (ebytes <$> l) -> StronglySorted entry_lt (sort_objects l) /\ sort_objects l ≡ₚ l.
Proof.
  intros Hnd. assert (sort_objects l ≡ₚ l) as Hp by apply merge_sort_Permutation.
  split; [|done]. rewrite <-Hp in Hnd. pose proof (StronglySorted_merge_sort entry_le l) as Hs.
  change (merge_sort entry_le l) with (sort_objects l) in Hs. clear Hp.
  induction Hs as [|x k Hs IH Hx]; [constructor|].
  rewrite fmap_cons in Hnd. apply NoDup_cons in Hnd as [Hnin Hnd].
  constructor.
  - by apply IH.
  - rewrite Forall_forall in Hx |- *. intros y Hy. specialize (Hx y Hy). rewrite entry_le_iff in Hx.
    destruct (bytes_lt_total (ebytes x) (ebytes y)) as [H|[H|H]]; [done| |done].
    exfalso. apply Hnin. rewrite H. by apply list_elem_of_fmap_2.
Qed.

(** ** Closed forms, one bucket at a time *)

Lemma fans_snoc bs b : fans (bs ++ [b]) = fans bs ++ [len (concat bs) + len b].
Proof.
  unfold fans. rewrite length_app. cbn [length]. rewrite Nat.add_1_r, seq_S, fmap_app. f_equal.
  - apply list_fmap_ext. intros i j Hi. apply lookup_seq in Hi as [-> Hi].
    rewrite take_app_le by lia. done.
  - cbn [fmap list_fmap Nat.add]. rewrite take_ge by (rewrite length_app; cbn; lia).
    rewrite concat_app, len_app. cbn. by rewrite app_nil_r.
Qed.

Lemma maps_snoc bs b :
  maps (bs ++ [b]) = maps bs ++ [if decide (nonempty b) then len (filter nonempty bs) else noMapping].
Proof.
  unfold maps. rewrite imap_app. f_equal.
  - apply imap_ext. intros i x Hi. apply lookup_lt_Some in Hi. by rewrite take_app_le by lia.
  - cbn. rewrite Nat.add_0_r, take_app_length. done.
Qed.

Lemma fans_empties bs n : fans (bs ++ replicate n []) = fans bs ++ replicate n (len (concat bs)).
Proof.
  revert bs. induction n as [|n IH]; intros bs; cbn [replicate]; [by rewrite !app_nil_r|].
  rewrite cons_middle, app_assoc, IH, fans_snoc, <-app_assoc, concat_app. cbn [concat].
  cbn [app]. rewrite !app_nil_r. change (len (@nil Entry)) with 0. by rewrite !Z.add_0_r.
Qed.

Lemma maps_empties bs n : maps (bs ++ replicate n []) = maps bs ++ replicate n noMapping.
Proof.
  revert bs. induction n as [|n IH]; intros bs; cbn [replicate]; [by rewrite !app_nil_r|].
  rewrite cons_middle, app_assoc, IH, maps_snoc, <-app_assoc.
  rewrite decide_False by (unfold nonempty; tauto). done.
Qed.

Lemma filter_empties {A} (bs : list (list A)) n :
  filter nonempty (bs ++ replicate n []) = filter nonempty bs.
Proof.
  rewrite filter_app. rewrite (filter_none _ (replicate n [])); [apply app_nil_r|].
  apply Forall_replicate. unfold nonempty. tauto.
Qed.

Lemma concat_empties {A} (bs : list (list A)) n : concat (bs ++ replicate n []) = concat bs.
Proof.
  rewrite concat_app. assert (concat (replicate n (@nil A)) = []) as ->; [|apply app_nil_r].
  induction n; [done|]. by cbn [replicate concat].
Qed.

Lemma fans_length bs : length (fans bs) = length bs.
Proof. unfold fans. by rewrite length_fmap, length_seq. Qed.
Lemma maps_length bs : length (maps bs) = length bs.
Proof. unfold maps. apply length_imap. Qed.

Lemma fans_len bs : len (fans bs) = len bs.
Proof. unfold len. by rewrite fans_length. Qed.

(** ** The loops of [createIndex] *)

Lemma fill_spec n pre rest from v :
  from = len pre -> (n <= length rest)%nat ->
  fill n (pre ++ rest) from v = Ok (pre ++ replicate n v ++ drop n rest).
Proof.
  revert pre rest from. induction n as [|n IH]; intros pre rest from -> Hn; cbn [fill].
  - done.
  - destruct rest as [|x rest]; [simpl in Hn; lia|].
    pose proof (len_nonneg pre). pose proof (len_nonneg rest).
    rewrite assign_Ok by (rewrite len_app, len_cons; lia). cbn [mbind outcome_bind].
    replace (Z.to_nat (len pre)) with (length pre + 0)%nat by (unfold len; lia).
    rewrite insert_app_r. cbn [list_insert insert]. change (v :: rest) with ([v] ++ rest).
    rewrite app_assoc, IH; [|rewrite len_app; change (len [v]) with 1; lia|simpl in Hn; lia].
    cbn [replicate drop]. by rewrite <-app_assoc.
Qed.

Lemma append_at_last (l : list bytes) (x y : bytes) i :
  i = len l -> append_at (l ++ [x]) i y = Ok (l ++ [x ++ y]).
Proof.
  intros ->. unfold append_at. pose proof (len_nonneg l).
  rewrite (index_Ok _ _ x); [|lia|].
  - cbn [mbind outcome_bind]. rewrite assign_Ok by (rewrite len_app; change (len [x]) with 1; lia).
    replace (Z.to_nat (len l)) with (length l + 0)%nat by (unfold len; lia).
    by rewrite insert_app_r.
  - replace (Z.to_nat (len l)) with (length l) by (unfold len; lia). by rewrite list_lookup_middle.
Qed.

(** Offsets for the 64-bit table, and words that point to it. *)
Definition big (e : Entry) : Prop := MaxInt32 < e_Offset e.
Definition large (w : Z) : Prop := 2 ^ 31 <= w.
#[export] Instance big_dec e : Decision (big e).
Proof. unfold big. apply _. Defined.
#[export] Instance large_dec w : Decision (large w).
Proof. unfold large. apply _. Defined.
Definition nbig (es : list Entry) : Z := len (filter big es).
Definition nlarge (ws : list Z) : Z := len (filter large ws).

Lemma len_filter_le {A} (P : A -> Prop) `{forall x, Decision (P x)} l : len (filter P l) <= len l.
Proof. unfold len. pose proof (length_filter P l). lia. Qed.

Lemma len_filter_app_one {A} (P : A -> Prop) `{forall x, Decision (P x)} l x :
  len (filter P (l ++ [x])) = len (filter P l) + (if decide (P x) then 1 else 0).
Proof.
  rewrite filter_app, len_app, filter_cons. by destruct (decide (P x)).
Qed.

(** The state of the loop when the buckets [bs] are complete up to the last
    object seen. *)
Record building (b : build) (bs : list (list Entry)) (wss : list (list Z)) : Prop := {
  g_len : (length bs <= 256)%nat;
  g_fanout : b_fanout b = fans bs ++ replicate (256 - length bs) 0;
  g_mapping : b_mapping b = maps bs ++ replicate (256 - length bs) noMapping;
  g_names : b_names b = names_of <$> filter nonempty bs;
  g_crc : b_crc32 b = crcs_of <$> filter nonempty bs;
  g_offset32 : b_offset32 b = words_of <$> filter nonempty wss;
  g_words : Forall2 (Forall2 (resolves (b_offset64 b))) bs wss;
  g_len64 : len (b_offset64 b) = 8 * b_count64 b;
  g_count64 : b_count64 b = nbig (concat bs);
  g_words64 : b_count64 b = nlarge (concat wss);
  g_last : b_last b = len bs - 1;
  g_bucket : b_bucket b = len (filter nonempty bs) - 1;
  g_last_full : forall bs0 b0, bs = bs0 ++ [b0] -> nonempty b0;
}.

Lemma building_count b bs wss : building b bs wss -> 0 <= b_count64 b <= len (concat bs).
Proof.
  intros H. rewrite (g_count64 _ _ _ H). unfold nbig. split; [apply len_nonneg|apply len_filter_le].
Qed.

Lemma resolves_app o64 q e w : resolves o64 e w -> resolves (o64 ++ q) e w.
Proof.
  intros [H|(i & p & r & -> & Hi & -> & Hp)]; [by left|]. right.
  exists i, p, (r ++ q). split; [done|]. split; [done|]. by rewrite <-!app_assoc.
Qed.

Lemma words_weaken o64 q bs wss :
  Forall2 (Forall2 (resolves o64)) bs wss -> Forall2 (Forall2 (resolves (o64 ++ q))) bs wss.
Proof.
  intros H. eapply Forall2_impl; [exact H|]. intros x y Hxy. eapply Forall2_impl; [exact Hxy|].
  intros. by apply resolves_app.
Qed.

(** The word written for an offset, and the 64-bit table after it. *)
Definition offset_entry (o64 : bytes) (count : Z) (offset : Z) : Z * bytes * Z :=
  if offset >? MaxInt32 then (Z.lor count (Z.shiftl 1 31), o64 ++ PutUint64 offset, u32 (count + 1))
  else (offset, o64, count).

Lemma offset_entry_ok o64 count offset :
  0 <= offset -> len o64 = 8 * count -> 0 <= count < 2 ^ 31 ->
  exists w o64' count' q, offset_entry o64 count offset = (w, o64', count') /\ o64' = o64 ++ q
    /\ 0 <= w < 2 ^ 32
    /\ len o64' = 8 * count'
    /\ forall e, e_Offset e = offset -> resolves o64' e w /\ (large w <-> big e)
         /\ count' = count + (if decide (big e) then 1 else 0).
Proof.
  intros Ho Hl Hc. unfold offset_entry, MaxInt32. rewrite Z.gtb_ltb.
  destruct (Z.ltb_spec (2 ^ 31 - 1) offset).
  - exists (2 ^ 31 + count), (o64 ++ PutUint64 offset), (count + 1), (PutUint64 offset).
    rewrite lor_disjoint_add, wrap_small by lia. rewrite len_app, PutUint64_len.
    split; [f_equal; f_equal; lia|]. split; [done|]. split; [lia|]. split; [lia|].
    intros e He. unfold large. rewrite decide_True by (unfold big, MaxInt32; lia).
    split; [|split; [unfold big, MaxInt32; lia|lia]].
    right. exists count, o64, []. rewrite app_nil_r, He. split; [done|]. split; [lia|].
    split; [done|lia].
  - exists offset, o64, count, []. rewrite app_nil_r. split; [done|]. split; [done|]. split; [lia|].
    split; [done|]. intros e He. unfold large. rewrite decide_False by (unfold big, MaxInt32; lia).
    split; [left; lia|]. split; [unfold big, MaxInt32; lia|lia].
Qed.

(** [createIndex_step] by what it appends. *)
Lemma createIndex_step_eq b i o fan fanout mapping names o32 crc :
  index (E := idx_error) (Bytes (e_Hash o)) 0 = Ok fan ->
  let new := negb (b_last b =? fan) in
  let bucket := if new then b_bucket b + 1 else b_bucket b in
  let ext (l : list bytes) := if new then l ++ [[]] else l in
  let '(w, o64, count) := offset_entry (b_offset64 b) (b_count64 b) (e_Offset o) in
  (f ← fill (Z.to_nat (fan - (b_last b + 1))) (b_fanout b) (b_last b + 1) (u32 i);
   assign f fan (u32 (i + 1))) = Ok fanout ->
  (if new then assign (E := idx_error) (b_mapping b) fan bucket else mret (b_mapping b)) = Ok mapping ->
  append_at (ext (b_names b)) bucket (Bytes (e_Hash o)) = Ok names ->
  append_at (ext (b_offset32 b)) bucket (PutUint32 (u32 w)) = Ok o32 ->
  append_at (ext (b_crc32 b)) bucket (PutUint32 (e_CRC32 o)) = Ok crc ->
  createIndex_step b i o = Ok
    {| b_fanout := fanout; b_mapping := mapping; b_names := names; b_offset32 := o32;
       b_crc32 := crc; b_offset64 := o64; b_count64 := count; b_last := fan; b_bucket := bucket |}.
Proof.
  intros Hfan. cbv beta zeta. unfold offset_entry.
  destruct (e_Offset o >? MaxInt32) eqn:Hbig; intros Hf Hm Hn Ho Hc; unfold createIndex_step;
    cbv beta zeta; rewrite Hfan; cbn [mbind outcome_bind] in *;
    apply bind_Ok_inv in Hf as (f & Hf & Hf'); rewrite Hf; cbn [mbind outcome_bind];
    rewrite Hf'; cbn [mbind outcome_bind];
    rewrite Hm; cbn [mbind outcome_bind]; rewrite Hn; cbn [mbind outcome_bind]; rewrite Hbig;
    unfold addOffset64; cbn [b_offset32 b_crc32 b_fanout b_mapping b_names b_offset64 b_count64 b_last b_bucket];
    rewrite Ho; cbn [mbind outcome_bind]; rewrite Hc; done.
Qed.

(** *** One object *)

Definition firsts (bs : list (list Entry)) : Prop :=
  forall k b, bs !! k = Some b -> Forall (fun e => first e = Z.of_nat k) b.

Lemma filter_snoc_nonempty {A} (bs : list (list A)) b :
  nonempty b -> filter nonempty (bs ++ [b]) = filter nonempty bs ++ [b].
Proof. intros Hb. rewrite filter_app, filter_cons_True by done. done. Qed.

Lemma append_table_extend {A} (f : list A -> bytes) bs b x y i :
  nonempty b -> f (b ++ [x]) = f b ++ y -> i = len (filter nonempty bs) ->
  append_at (f <$> filter nonempty (bs ++ [b])) i y = Ok (f <$> filter nonempty (bs ++ [b ++ [x]])).
Proof.
  intros Hb Hf ->. rewrite !filter_snoc_nonempty; [|by destruct b|done].
  rewrite !fmap_app. cbn [fmap list_fmap]. rewrite Hf. apply append_at_last.
  unfold len. by rewrite length_fmap.
Qed.

Lemma append_table_new {A} (f : list A -> bytes) bs x y i n :
  f [x] = y -> i = len (filter nonempty bs) ->
  append_at ((f <$> filter nonempty bs) ++ [[]]) i y
    = Ok (f <$> filter nonempty (bs ++ replicate n [] ++ [[x]])).
Proof.
  intros Hf ->. rewrite app_assoc, filter_snoc_nonempty by done. rewrite filter_empties, fmap_app.
  cbn [fmap list_fmap]. rewrite Hf. rewrite append_at_last; [done|]. unfold len. by rewrite length_fmap.
Qed.

Lemma insert_len_app {A} (l k : list A) (x y : A) : <[length l := y]> (l ++ x :: k) = l ++ y :: k.
Proof. replace (length l) with (length l + 0)%nat by lia. by rewrite insert_app_r. Qed.

Lemma firsts_snoc bs b :
  firsts bs -> Forall (fun e => first e = len bs) b -> firsts (bs ++ [b]).
Proof.
  intros Hbs Hb k x Hk. apply lookup_app_Some in Hk as [Hk|[Hle Hk]]; [by apply Hbs|].
  destruct (k - length bs)%nat eqn:Heq; [|done]. injection Hk as <-.
  unfold len in Hb. by replace k with (length bs) by lia.
Qed.

Lemma firsts_app_l bs bs' : firsts (bs ++ bs') -> firsts bs.
Proof. intros H k b Hk. apply H. by apply lookup_app_l_Some. Qed.

Lemma firsts_empties bs n : firsts bs -> firsts (bs ++ replicate n []).
Proof.
  intros Hbs k b Hk. apply lookup_app_Some in Hk as [Hk|[_ Hk]]; [by apply Hbs|].
  apply lookup_replicate in Hk as [-> _]. constructor.
Qed.

Lemma names_of_snoc b e : names_of (b ++ [e]) = names_of b ++ ebytes e.
Proof. unfold names_of. rewrite fmap_app, concat_app. cbn. by rewrite app_nil_r. Qed.
Lemma crcs_of_snoc b e : crcs_of (b ++ [e]) = crcs_of b ++ PutUint32 (e_CRC32 e).
Proof.
  unfold crcs_of. rewrite fmap_app, concat_app. cbn [fmap list_fmap concat]. by rewrite app_nil_r.
Qed.
Lemma words_of_snoc ws w : words_of (ws ++ [w]) = words_of ws ++ PutUint32 w.
Proof.
  unfold words_of. rewrite fmap_app, concat_app. cbn [fmap list_fmap concat]. by rewrite app_nil_r.
Qed.

(** What a step must establish. *)
Definition step_ok (b' : build) (bs : list (list Entry)) (e : Entry) (fan : Z) : Prop :=
  exists bs' wss', building b' bs' wss' /\ firsts bs' /\ concat bs' = concat bs ++ [e] /\ len bs' = fan + 1.

Lemma concat_snoc {A} (bs : list (list A)) b : concat (bs ++ [b]) = concat bs ++ b.
Proof. rewrite concat_app. cbn. by rewrite app_nil_r. Qed.

Lemma filter_nonempty_len o64 bs wss :
  Forall2 (Forall2 (resolves o64)) bs wss -> len (filter nonempty bs) = len (filter nonempty wss).
Proof.
  intros H. pose proof (filter_nonempty_length bs wss (length bs) (words_length _ _ _ H)) as Hl.
  rewrite take_ge in Hl by lia. rewrite take_ge in Hl by (by rewrite (Forall2_length _ _ _ H)).
  unfold len. by rewrite Hl.
Qed.

Lemma len_filter_snoc {A} (bs : list (list A)) b :
  nonempty b -> len (filter nonempty (bs ++ [b])) = len (filter nonempty bs) + 1.
Proof. intros Hb. by rewrite filter_snoc_nonempty, len_app. Qed.

(** The bookkeeping of an object for the bucket of the object before it. *)
Lemma building_extend b bs b0 wss0 ws0 e w o64 count q :
  building b (bs ++ [b0]) (wss0 ++ [ws0]) -> nonempty b0 -> length bs = length wss0 ->
  o64 = b_offset64 b ++ q -> len o64 = 8 * count ->
  resolves o64 e w -> (large w <-> big e) -> count = b_count64 b + (if decide (big e) then 1 else 0) ->
  building {| b_fanout := <[length bs := len (concat (bs ++ [b0])) + 1]> (b_fanout b);
              b_mapping := b_mapping b; b_names := names_of <$> filter nonempty (bs ++ [b0 ++ [e]]);
              b_offset32 := words_of <$> filter nonempty (wss0 ++ [ws0 ++ [w]]);
              b_crc32 := crcs_of <$> filter nonempty (bs ++ [b0 ++ [e]]);
              b_offset64 := o64; b_count64 := count; b_last := len bs; b_bucket := b_bucket b |}
    (bs ++ [b0 ++ [e]]) (wss0 ++ [ws0 ++ [w]]).
Proof.
  intros [Hlen HF HM HN HC HO Hw Hc1 Hc2 Hc3 Hla Hbk Hfull] Hne Hbw Hq Hl Hr Hlb Hcr.
  assert (nonempty (b0 ++ [e])) as Hne' by (by destruct b0).
  rewrite length_app in Hlen, HF, HM. cbn [length] in Hlen, HF, HM.
  rewrite len_filter_snoc in Hbk by done.
  constructor; cbn [b_fanout b_mapping b_names b_crc32 b_offset32 b_offset64 b_count64 b_last b_bucket];
    rewrite ?length_app; cbn [length]; rewrite ?concat_snoc; try done.
  - rewrite HF, !fans_snoc. rewrite <-!app_assoc. cbn [app].
    rewrite <-(fans_length bs), insert_len_app, !len_app. change (len [e]) with 1. f_equal. f_equal. lia.
  - rewrite HM, !maps_snoc. f_equal. f_equal. by rewrite !decide_True by done.
  - apply (words_weaken _ q) in Hw. rewrite <-Hq in Hw. apply Forall2_app_inv in Hw as [H1 H2]; [|done].
    apply Forall2_app; [done|]. constructor; [|done]. apply Forall2_cons in H2 as [H2 _].
    apply Forall2_app; [done|]. constructor; [done|done].
  - rewrite concat_snoc in Hc2. unfold nbig in *. rewrite app_assoc, len_filter_app_one. lia.
  - rewrite concat_snoc in Hc3. unfold nlarge in *. rewrite app_assoc, len_filter_app_one.
    rewrite Hcr, Hc3. f_equal. by apply decide_ext.
  - rewrite len_app. change (len [_]) with 1. lia.
  - by rewrite len_filter_snoc.
  - intros bs1 b1 Heq. apply app_inj_tail in Heq as [_ <-]. done.
Qed.

(** An object for the bucket of the object before it. *)
Lemma step_extend b bs b0 wss e l fan :
  building b (bs ++ [b0]) wss -> firsts (bs ++ [b0]) -> 0 <= e_Offset e -> ebytes e = fan :: l ->
  fan = len bs -> len (concat (bs ++ [b0])) < 2 ^ 31 - 1 ->
  ensures (createIndex_step b (len (concat (bs ++ [b0]))) e) (fun b' => step_ok b' (bs ++ [b0]) e fan).
Proof.
  intros Hb Hfst Ho He -> Hsmall. pose proof (g_words _ _ _ Hb) as Hw.
  pose proof (g_last_full _ _ _ Hb bs b0 eq_refl) as Hne.
  apply Forall2_app_inv_l in Hw as (wss0 & ws' & Hw0 & Hw1 & ->).
  apply Forall2_cons_inv_l in Hw1 as (ws0 & ws1 & Hws0 & Hw1 & ->). apply Forall2_nil_inv_l in Hw1 as ->.
  assert (nonempty ws0) as Hnw by (intros ->; by apply Forall2_nil_inv_r in Hws0).
  destruct (offset_entry_ok (b_offset64 b) (b_count64 b) (e_Offset e)) as
    (w & o64' & count' & q & Heq & Hq & Hwr & Hl & Hr);
    [done|apply Hb|pose proof (building_count _ _ _ Hb); lia|].
  destruct (Hr e eq_refl) as (Hres & Hlb & Hcr).
  pose proof (building_extend b bs b0 wss0 ws0 e w o64' count' q Hb Hne (Forall2_length _ _ _ Hw0) Hq Hl Hres Hlb Hcr)
    as Hb'.
  pose proof (g_last _ _ _ Hb) as Hla. pose proof (g_bucket _ _ _ Hb) as Hbk.
  rewrite len_app in Hla. change (len [b0]) with 1 in Hla. rewrite len_filter_snoc in Hbk by done.
  pose proof (createIndex_step_eq b (len (concat (bs ++ [b0]))) e (len bs)) as Hstep. cbv zeta in Hstep.
  rewrite Heq in Hstep. replace (b_last b) with (len bs) in Hstep by lia. rewrite Z.eqb_refl in Hstep.
  cbn [negb] in Hstep. pose proof (len_nonneg (concat (bs ++ [b0]))) as Hpos. pose proof (len_nonneg bs).
  erewrite Hstep; clear Hstep;
    [|unfold ebytes in He; by rewrite He| |done
     |rewrite (g_names _ _ _ Hb); apply append_table_extend; [done|apply names_of_snoc|lia]
     |rewrite (g_offset32 _ _ _ Hb); apply (append_table_extend words_of _ _ w); [done
        |rewrite wrap_small by lia; apply words_of_snoc
        |rewrite <-(filter_nonempty_len _ bs wss0 Hw0); lia]
     |rewrite (g_crc _ _ _ Hb); apply append_table_extend; [done|apply crcs_of_snoc|lia]].
  - cbn. eexists _, _. split; [exact Hb'|]. split; [|split].
    + apply firsts_snoc; [by eapply firsts_app_l|]. apply Forall_app. split.
      * apply (Hfst (length bs)). by rewrite list_lookup_middle.
      * constructor; [|done]. unfold first. by rewrite He.
    + by rewrite !concat_snoc, app_assoc.
    + by rewrite len_app.
  - replace (Z.to_nat (len bs - (len bs + 1))) with 0%nat by lia. cbn [fill mbind outcome_bind mret outcome_ret].
    rewrite wrap_small by lia. rewrite assign_Ok; [by replace (Z.to_nat (len bs)) with (length bs) by (unfold len; lia)|].
    rewrite (g_fanout _ _ _ Hb), len_app, fans_len, len_app. change (len [b0]) with 1.
    pose proof (len_nonneg (replicate (256 - length (bs ++ [b0])) 0)). lia.
Qed.

(** The bookkeeping of an object that starts a new bucket. *)
Lemma building_new b bs wss n e w o64 count q :
  building b bs wss -> (length bs + n < 256)%nat ->
  o64 = b_offset64 b ++ q -> len o64 = 8 * count ->
  resolves o64 e w -> (large w <-> big e) -> count = b_count64 b + (if decide (big e) then 1 else 0) ->
  building {| b_fanout := fans bs ++ replicate n (len (concat bs)) ++ [len (concat bs) + 1]
                ++ replicate (256 - (length bs + n + 1)) 0;
              b_mapping := <[(length bs + n)%nat := b_bucket b + 1]> (b_mapping b);
              b_names := names_of <$> filter nonempty (bs ++ replicate n [] ++ [[e]]);
              b_offset32 := words_of <$> filter nonempty (wss ++ replicate n [] ++ [[w]]);
              b_crc32 := crcs_of <$> filter nonempty (bs ++ replicate n [] ++ [[e]]);
              b_offset64 := o64; b_count64 := count; b_last := len bs + Z.of_nat n;
              b_bucket := b_bucket b + 1 |}
    (bs ++ replicate n [] ++ [[e]]) (wss ++ replicate n [] ++ [[w]]).
Proof.
  intros [Hlen HF HM HN HC HO Hw Hc1 Hc2 Hc3 Hla Hbk Hfull] Hn Hq Hl Hr Hlb Hcr.
  constructor; cbn [b_fanout b_mapping b_names b_crc32 b_offset32 b_offset64 b_count64 b_last b_bucket];
    rewrite ?length_app, ?length_replicate; cbn [length]; try done.
  - lia.
  - rewrite !app_assoc, fans_snoc, fans_empties, concat_empties. change (len [e]) with 1.
    rewrite <-!app_assoc. by rewrite Nat.add_assoc.
  - rewrite HM, !app_assoc, maps_snoc, maps_empties, filter_empties, Hbk.
    rewrite decide_True by done. rewrite Nat.add_assoc.
    replace (256 - length bs)%nat with (n + S (256 - (length bs + n + 1)))%nat by lia.
    rewrite replicate_add, app_assoc. cbn [replicate].
    replace (length bs + n)%nat with (length (maps bs ++ replicate n noMapping)) at 1
      by (by rewrite length_app, length_replicate, maps_length).
    rewrite insert_len_app, <-!app_assoc. do 3 f_equal. cbn [app]. f_equal. lia.
  - apply (words_weaken _ q) in Hw. rewrite <-Hq in Hw. apply Forall2_app; [done|].
    apply Forall2_app; [apply Forall2_replicate; constructor|].
    constructor; [|done]. constructor; [done|done].
  - unfold nbig in *. rewrite app_assoc, concat_snoc, concat_empties, len_filter_app_one. lia.
  - unfold nlarge in *. rewrite app_assoc, concat_snoc, concat_empties, len_filter_app_one.
    rewrite Hcr, Hc3. f_equal. by apply decide_ext.
  - rewrite !len_app, len_replicate. change (len [_]) with 1. lia.
  - rewrite app_assoc, len_filter_snoc, filter_empties by done. lia.
  - intros bs1 b1 Heq. rewrite app_assoc in Heq. apply app_inj_tail in Heq as [_ <-]. done.
Qed.

(** An object that starts a new bucket. *)
Lemma step_new b bs wss e l fan :
  building b bs wss -> firsts bs -> 0 <= e_Offset e -> ebytes e = fan :: l ->
  len bs <= fan < 256 -> len (concat bs) < 2 ^ 31 - 1 ->
  ensures (createIndex_step b (len (concat bs)) e) (fun b' => step_ok b' bs e fan).
Proof.
  intros Hb Hfst Ho He Hfan Hsmall. pose proof (g_words _ _ _ Hb) as Hw.
  destruct (offset_entry_ok (b_offset64 b) (b_count64 b) (e_Offset e)) as
    (w & o64' & count' & q & Heq & Hq & Hwr & Hl & Hr);
    [done|apply Hb|pose proof (building_count _ _ _ Hb); lia|].
  destruct (Hr e eq_refl) as (Hres & Hlb & Hcr).
  pose proof (len_nonneg bs) as Hbs0. pose proof (len_nonneg (concat bs)) as Hpos.
  set (n := Z.to_nat (fan - len bs)). assert (fan = len bs + Z.of_nat n) as Hfn by lia.
  assert (Z.to_nat fan = (length bs + n)%nat) as Hfnat by (unfold len in Hfn; lia).
  assert (length bs + n < 256)%nat as Hn by lia.
  pose proof (building_new b bs wss n e w o64' count' q Hb Hn Hq Hl Hres Hlb Hcr) as Hb'.
  pose proof (g_last _ _ _ Hb) as Hla. pose proof (g_bucket _ _ _ Hb) as Hbk.
  pose proof (createIndex_step_eq b (len (concat bs)) e fan) as Hstep. cbv zeta in Hstep.
  rewrite Heq in Hstep. replace (b_last b =? fan) with false in Hstep by (symmetry; apply Z.eqb_neq; lia). cbn [negb] in Hstep.
  erewrite Hstep; clear Hstep;
    [|unfold ebytes in He; by rewrite He| | 
     |rewrite (g_names _ _ _ Hb); apply (append_table_new _ _ e _ _ n); [apply app_nil_r|lia]
     |rewrite (g_offset32 _ _ _ Hb); apply (append_table_new words_of _ w _ _ n);
        [rewrite wrap_small by lia; apply app_nil_r|rewrite <-(filter_nonempty_len _ _ _ Hw); lia]
     |rewrite (g_crc _ _ _ Hb); apply (append_table_new _ _ e _ _ n); [apply app_nil_r|lia]].
  - cbn. eexists _, _. rewrite <-Hfn in Hb'. split; [exact Hb'|]. split; [|split].
    + rewrite app_assoc. apply firsts_snoc; [by apply firsts_empties|].
      constructor; [|done]. unfold first. rewrite He, len_app, len_replicate. cbn. lia.
    + by rewrite app_assoc, concat_snoc, concat_empties.
    + rewrite !len_app, len_replicate. change (len [_]) with 1. lia.
  - replace (Z.to_nat (fan - (b_last b + 1))) with n by lia. rewrite (g_fanout _ _ _ Hb), !wrap_small by lia.
    rewrite (fill_spec n (fans bs)); [|rewrite fans_len; lia|rewrite length_replicate; lia].
    cbn [mbind outcome_bind]. rewrite drop_replicate.
    replace (256 - length bs - n)%nat with (S (256 - (length bs + n + 1))) by lia. cbn [replicate].
    rewrite app_assoc, assign_Ok.
    + rewrite Hfnat. replace (length bs + n)%nat with (length (fans bs ++ replicate n (len (concat bs)))) at 1
        by (by rewrite length_app, length_replicate, fans_length).
      by rewrite insert_len_app, <-app_assoc.
    + rewrite !len_app, fans_len, !len_replicate. rewrite len_cons.
      pose proof (len_nonneg (replicate (256 - (length bs + n + 1)) 0)). lia.
  - rewrite assign_Ok; [by rewrite Hfnat|]. rewrite (g_mapping _ _ _ Hb), len_app, len_replicate.
    unfold len at 1. rewrite maps_length. lia.
Qed.

(** *** All objects *)

Lemma first_cons e h : oid_ok (e_Hash e) -> e_Hash e = h -> exists l, ebytes e = first e :: l /\ 0 <= first e < 256.
Proof.
  intros Hok _. destruct (Bytes_cons _ Hok) as (a & l & Ha & Hr). exists l.
  unfold first, ebytes. rewrite Ha. done.
Qed.

Lemma first_mono x e : oid_ok (e_Hash x) -> oid_ok (e_Hash e) -> entry_lt x e -> first x <= first e.
Proof.
  intros Hx He Hlt. destruct (first_cons x _ Hx eq_refl) as (l & Hl & _), (first_cons e _ He eq_refl) as (k & Hk & _).
  unfold entry_lt, bytes_lt in Hlt. rewrite Hl, Hk in Hlt. cbn in Hlt.
  destruct (Z.compare_spec (first x) (first e)); [lia|lia|done].
Qed.

Lemma createIndex_loop_spec sz b i bs wss objs :
  building b bs wss -> firsts bs -> Forall (entry_ok sz) (concat bs ++ objs) ->
  StronglySorted entry_lt (concat bs ++ objs) -> len (concat bs ++ objs) < 2 ^ 31 -> i = len (concat bs) ->
  ensures (createIndex_loop sz b i objs) (fun '(b', err) => err = None /\
    exists bs' wss', building b' bs' wss' /\ firsts bs' /\ concat bs' = concat bs ++ objs).
Proof.
  revert b i bs wss. induction objs as [|e objs IH]; intros b i bs wss Hb Hf Hok Hs Hn ->.
  - cbn. split; [done|]. exists bs, wss. by rewrite app_nil_r.
  - cbn [createIndex_loop]. pose proof Hok as [Hokl Hoke]%Forall_app. apply Forall_cons in Hoke as [Hoke _].
    pose proof Hoke as (Hoid & Hsz & _ & Hoff). rewrite Hsz, Z.eqb_refl. cbn [negb].
    destruct (first_cons e _ Hoid eq_refl) as (l & Hl & Hr).
    rewrite len_app, len_cons in Hn. pose proof (len_nonneg objs).
    assert (ensures (createIndex_step b (len (concat bs)) e) (fun b' => step_ok b' bs e (first e))) as Hstep.
    { destruct (decide (len bs <= first e)) as [Hge|Hlt].
      - apply (step_new b bs wss e l); done || lia.
      - destruct bs as [|b0 bs0 _] using rev_ind; [change (len (@nil (list Entry))) with 0 in Hlt; lia|].
        rewrite len_app in Hlt. change (len [b0]) with 1 in Hlt.
        apply (step_extend b bs0 b0 wss e l); [done|done|lia|done| |lia].
        pose proof (g_last_full _ _ _ Hb bs0 b0 eq_refl) as Hne.
        destruct b0 as [|x b0]; [done|]. rewrite concat_snoc in Hs, Hokl.
        apply sorted_app_inv in Hs as (_ & _ & Hxe).
        assert (x ∈ concat bs0 ++ x :: b0) as Hin by (apply elem_of_app; right; by left).
        rewrite Forall_forall in Hokl. destruct (Hokl x Hin) as (Hox & _).
        pose proof (first_mono x e Hox Hoid (Hxe x e Hin ltac:(by left))) as Hle.
        specialize (Hf (length bs0) (x :: b0) ltac:(by rewrite list_lookup_middle)).
        apply Forall_cons in Hf as [Hf _]. unfold len in *. lia. }
    run Hstep as b'. intros (bs' & wss' & Hb' & Hf' & Hc & _).
    eapply ensures_weaken; [apply (IH b' _ bs' wss')|]; rewrite ?Hc, <-?app_assoc; try done.
    + rewrite !len_app. change (len [e]) with 1. lia.
    + rewrite len_app. done.
Qed.

(** The 64-bit table holds the offsets that need it, and nothing else. *)
Definition overflow_exact (idx : MemoryIndex) (bs : list (list Entry)) : Prop :=
  exists wss, tables idx bs wss /\ len (Offset64 idx) = 8 * nlarge (concat wss)
    /\ nlarge (concat wss) = nbig (concat bs).

(** Padding to 256 buckets gives the tables of the index. *)
Lemma index_represents b bs wss sz idx :
  building b bs wss -> firsts bs -> sz = 20 \/ sz = 32 -> Forall (entry_ok sz) (concat bs) ->
  StronglySorted entry_lt (concat bs) -> len (concat bs) < 2 ^ 31 ->
  Fanout idx = fans bs ++ replicate (256 - length bs) (len (concat bs)) ->
  FanoutMapping idx = b_mapping b -> Names idx = b_names b -> Offset32 idx = b_offset32 b ->
  CRC32 idx = b_crc32 b -> Offset64 idx = b_offset64 b -> offsetHash idx = None ->
  offsetBuilt idx = false -> objectIDSize idx = sz ->
  let bs' := bs ++ replicate (256 - length bs) [] in represents idx bs' /\ overflow_exact idx bs'.
Proof.
  intros [Hlen HF HM HN HC HO Hw Hc1 Hc2 Hc3 Hla Hbk Hfull] Hf Hsz Hok Hs Hn
    EF EM EN EO EC E64 EH EB ES bs'.
  assert (tables idx bs' (wss ++ replicate (256 - length bs) [])) as Ht.
  { assert (length bs = length wss) as Hbw by (by eapply Forall2_length). subst bs'.
    constructor; rewrite ?EF, ?EM, ?EN, ?EO, ?EC, ?E64, ?fans_empties, ?maps_empties, ?filter_empties; try done.
    apply Forall2_app; [done|]. apply Forall2_replicate. constructor. }
  split.
  - constructor; rewrite ?ES; [done| |by eexists|by constructor; congruence].
    subst bs'. constructor; rewrite ?concat_empties; try done.
    + rewrite length_app, length_replicate. lia.
    + by apply firsts_empties.
  - eexists. split; [done|]. subst bs'. rewrite !concat_empties, E64, <-Hc2, <-Hc3. done.
Qed.

Definition ready (w : Writer) (sz : Z) : Prop :=
  w_offset64 w = 0 /\ Forall (entry_ok sz) (w_objects w) /\ NoDup (ebytes <$> w_objects w)
  /\ len (w_objects w) < 2 ^ 31.

Lemma building_start :
  building {| b_fanout := replicate 256 0; b_mapping := replicate 256 noMapping; b_names := [];
              b_offset32 := []; b_crc32 := []; b_offset64 := []; b_count64 := 0; b_last := -1;
              b_bucket := -1 |} [] [].
Proof.
  constructor; cbn [b_fanout b_mapping b_names b_crc32 b_offset32 b_offset64 b_count64 b_last b_bucket];
    try done.
  - cbn. lia.
  - intros bs0 b1 Heq. by destruct bs0.
Qed.

Lemma createIndex_spec w :
  w_finished w = true -> ready w (Size (w_checksum w)) ->
  exists idx w' bs, createIndex w = Ok (inl idx, w') /\ w_index w' = Some idx /\ represents idx bs
    /\ overflow_exact idx bs /\ concat bs ≡ₚ w_objects w /\ Version idx = VersionSupported /\ PackfileChecksum idx = w_checksum w.
Proof.
  intros Hfin (H64 & Hok & Hnd & Hn). unfold createIndex. rewrite Hfin. cbn [negb].
  destruct (sort_objects_sorted (w_objects w) Hnd) as [Hs Hp].
  assert (Forall (entry_ok (Size (w_checksum w))) (sort_objects (w_objects w))) as Hok' by (by rewrite Hp).
  assert (len (sort_objects (w_objects w)) = len (w_objects w)) as Hl by (unfold len; by rewrite Hp).
  set (objs := sort_objects (w_objects w)) in *. rewrite H64.
  match goal with |- context [createIndex_loop _ ?b 0 objs] => set (b0 := b) end.
  assert (building b0 [] []) as Hb0.
  { apply building_start. }
  destruct (ensures_inv _ _ (createIndex_loop_spec (Size (w_checksum w)) b0 0 [] [] objs Hb0
    ltac:(by intros k b Hk) Hok' Hs ltac:(cbn [concat app]; lia) eq_refl))
    as ([b err] & -> & -> & bs & wss & Hb & Hf & Hc).
  cbn [mbind outcome_bind concat app] in *.
  pose proof (g_last _ _ _ Hb) as Hla. pose proof (g_len _ _ _ Hb) as Hlen.
  rewrite (g_fanout _ _ _ Hb), wrap_small by (pose proof (len_nonneg objs); lia).
  rewrite (fill_spec _ (fans bs)); [|rewrite fans_len; lia|rewrite length_replicate; unfold len in *; lia].
  cbn [mbind outcome_bind]. rewrite drop_ge by (rewrite length_replicate; unfold len in *; lia).
  rewrite app_nil_r. replace (Z.to_nat (256 - (b_last b + 1))) with (256 - length bs)%nat by (unfold len in *; lia).
  rewrite <-Hc in Hok', Hs, Hl |- *.
  eexists _, _, (bs ++ replicate (256 - length bs) []). split; [done|]. split; [done|].
  assert (Size (w_checksum w) = 20 \/ Size (w_checksum w) = 32) as Hsz
    by (destruct (Size_cases (w_checksum w)) as [[-> _]|[-> _]]; auto).
  match goal with |- represents ?idx _ /\ _ =>
    destruct (index_represents b bs wss (Size (w_checksum w)) idx Hb Hf Hsz Hok' Hs ltac:(lia)) as [Hr Ho]
  end; try done.
  do 2 (split; [done|]). split; [|done]. by rewrite concat_empties, Hc.
Qed.

(** ** The writer as a pack observer *)

(** The calls of the pack parser: one per object. *)
Definition observe (w : Writer) (objs : list Entry) : Writer :=
  foldl (fun w e => OnInflatedObjectContent w (e_Hash e) (e_Offset e) (e_CRC32 e)) w objs.

(** [e] is the first object of its name, and not the zero name. *)
Definition first_addition (objs : list Entry) (e : Entry) : Prop :=
  exists pre post, objs = pre ++ e :: post /\ IsZero (e_Hash e) = false
    /\ Forall (fun e' => e_Hash e' <> e_Hash e) pre.

Record observed (w w0 : Writer) (objs : list Entry) : Prop := {
  o_same : w_offset64 w = w_offset64 w0 /\ w_index w = w_index w0 /\ w_finished w = w_finished w0;
  o_added : forall h, h ∈ w_added w <-> exists e, e ∈ w_objects w /\ e_Hash e = h;
  o_nodup : NoDup (e_Hash <$> w_objects w);
  o_objects : forall e, e ∈ w_objects w <-> first_addition objs e;
  o_count : len (w_objects w) <= len objs;
}.

Lemma first_addition_snoc objs x e :
  first_addition (objs ++ [x]) e <-> first_addition objs e
    \/ e = x /\ IsZero (e_Hash x) = false /\ Forall (fun e' => e_Hash e' <> e_Hash x) objs.
Proof.
  split.
  - intros (pre & post & Heq & Hz & Hpre).
    destruct post as [|y post _] using rev_ind.
    + apply app_inj_tail in Heq as [-> ->]. by right.
    + left. rewrite app_comm_cons, app_assoc in Heq. apply app_inj_tail in Heq as [-> _].
      by exists pre, post.
  - intros [(pre & post & -> & Hz & Hpre)|(-> & Hz & Hpre)].
    + exists pre, (post ++ [x]). by rewrite <-app_assoc.
    + by exists objs, [].
Qed.

Lemma first_addition_iff objs h :
  IsZero h = false ->
  (exists e, first_addition objs e /\ e_Hash e = h) <-> ~ Forall (fun e' => e_Hash e' <> h) objs.
Proof.
  intros Hz. split.
  - intros (e & (pre & post & -> & _ & _) & <-) Hall. apply Forall_app in Hall as [_ Hall].
    apply Forall_cons in Hall as [Hall _]. done.
  - induction objs as [|x objs IH] using rev_ind; [intros H; exfalso; by apply H|].
    intros Hn. destruct (decide (Forall (fun e' => e_Hash e' <> h) objs)) as [Hall|Hno].
    + destruct (decide (e_Hash x = h)) as [<-|Hne].
      * exists x. split; [|done]. apply first_addition_snoc. by right.
      * exfalso. apply Hn, Forall_app. by repeat constructor.
    + destruct (IH Hno) as (e & He & Heq). exists e. split; [|done]. apply first_addition_snoc. by left.
Qed.

Lemma observed_start w : w_objects w = [] -> w_added w = ∅ -> observed w w [].
Proof.
  intros Ho Ha. constructor; rewrite ?Ho; try done.
  - intros h. rewrite Ha. split; [by intros ?%not_elem_of_empty|].
    by intros (e & He%not_elem_of_nil & _).
  - constructor.
  - intros e. split; [by intros ?%not_elem_of_nil|]. by intros (pre & post & Heq & _); destruct pre.
Qed.

Lemma observed_step w w0 objs e :
  0 <= e_Offset e < 2 ^ 63 -> observed w w0 objs ->
  observed (OnInflatedObjectContent w (e_Hash e) (e_Offset e) (e_CRC32 e)) w0 (objs ++ [e]).
Proof.
  intros Hoff Hw. pose proof Hw as [Hsame Hadd Hnd Hobj Hcnt].
  unfold OnInflatedObjectContent, Add. rewrite wrap_small by lia.
  assert (len objs <= len (objs ++ [e])) as Hle by (rewrite len_app; pose proof (len_nonneg [e]); lia).
  destruct (IsZero (e_Hash e)) eqn:Hz.
  { constructor; try done; [|lia]. intros x. rewrite Hobj, first_addition_snoc. rewrite Hz.
    split; [by left|]. intros [H|(_ & H & _)]; done. }
  assert ((exists x, x ∈ w_objects w /\ e_Hash x = e_Hash e) <-> ~ Forall (fun e' => e_Hash e' <> e_Hash e) objs)
    as Hseen.
  { rewrite <-first_addition_iff by done. by setoid_rewrite Hobj. }
  rewrite <-Hadd in Hseen.
  destruct (bool_decide_reflect (e_Hash e ∈ w_added w)) as [Hin|Hnin].
  { constructor; try done; [|lia]. intros x. rewrite Hobj, first_addition_snoc.
    split; [by left|]. intros [H|(_ & _ & H)]; [done|]. by apply Hseen in Hin. }
  assert (Forall (fun e' => e_Hash e' <> e_Hash e) objs) as Hall.
  { destruct (decide (Forall (fun e' => e_Hash e' <> e_Hash e) objs)); [done|]. tauto. }
  replace {| e_Hash := e_Hash e; e_CRC32 := e_CRC32 e; e_Offset := e_Offset e |} with e by (by destruct e).
  constructor; cbn [w_offset64 w_index w_finished w_added w_objects]; [done|..].
  - intros h. rewrite elem_of_union, elem_of_singleton, Hadd. split.
    + intros [->|(x & Hx & <-)]; [exists e|exists x]; rewrite elem_of_app, list_elem_of_singleton; auto.
    + intros (x & [Hx| ->%list_elem_of_singleton]%elem_of_app & <-); eauto.
  - rewrite fmap_app. apply NoDup_app. split; [done|]. split; [|apply NoDup_singleton].
    intros h Hh ->%list_elem_of_singleton. apply Hnin, Hadd.
    by apply list_elem_of_fmap in Hh as (x & Hx & Hin); exists x.
  - intros x. rewrite elem_of_app, list_elem_of_singleton, Hobj, first_addition_snoc.
    split; [intros [H| ->]; auto|intros [H|(-> & _)]; auto].
  - rewrite !len_app. change (len [e]) with 1. lia.
Qed.

Lemma observe_spec w0 objs :
  w_objects w0 = [] -> w_added w0 = ∅ -> Forall (fun e => 0 <= e_Offset e < 2 ^ 63) objs ->
  observed (observe w0 objs) w0 objs.
Proof.
  intros Ho Ha. induction objs as [|e objs IH] using rev_ind; intros Hf.
  - by apply observed_start.
  - apply Forall_app in Hf as [Hf He]. apply Forall_cons in He as [He _].
    unfold observe. rewrite foldl_app. cbn [foldl]. apply observed_step; [done|]. by apply IH.
Qed.

Lemma NoDup_ebytes sz l : Forall (entry_ok sz) l -> NoDup (e_Hash <$> l) -> NoDup (ebytes <$> l).
Proof.
  induction 1 as [|e l (He & _) Hok IH]; intros Hnd; [constructor|]. rewrite fmap_cons in *.
  apply NoDup_cons in Hnd as [Hnin Hnd]. apply NoDup_cons. split; [|by apply IH].
  intros (x & Heq & Hx)%list_elem_of_fmap. apply Hnin, list_elem_of_fmap. exists x. split; [|done].
  rewrite Forall_forall in Hok. destruct (Hok x Hx) as (Hox & _). by apply Bytes_inj.
Qed.

Lemma writer_index count objs checksum :
  Forall (entry_ok (Size checksum)) objs -> len objs < 2 ^ 31 ->
  exists idx w bs, OnFooter (observe (OnHeader new_Writer count) objs) checksum = Ok (None, w)
    /\ Index w = Ok (inl idx, w) /\ represents idx bs /\ overflow_exact idx bs
    /\ PackfileChecksum idx = checksum /\ Version idx = VersionSupported /\ forall e, e ∈ concat bs <-> first_addition objs e.
Proof.
  intros Hok Hn. set (w0 := observe (OnHeader new_Writer count) objs).
  assert (observed w0 (OnHeader new_Writer count) objs) as [[H64 _] Hadd Hnd Hobj Hcnt].
  { apply observe_spec; [done..|]. eapply Forall_impl; [exact Hok|]. by intros e (_ & _ & _ & H). }
  assert (Forall (entry_ok (Size checksum)) (w_objects w0)) as Hok0.
  { apply Forall_forall. intros e (pre & post & -> & _)%Hobj. apply Forall_app in Hok as [_ Hok].
    by apply Forall_cons in Hok as [Hok _]. }
  unfold OnFooter. match goal with |- context [createIndex ?w] => set (w1 := w) end.
  destruct (createIndex_spec w1) as (idx & w & bs & -> & Hw & Hrep & Hex & Hp & Hv & Hpack); [done| |].
  { split; [done|]. cbn [w1 w_checksum w_objects]. split; [done|]. split; [|lia].
    by eapply NoDup_ebytes. }
  cbn [mbind outcome_bind]. exists idx, w, bs. split; [done|]. unfold Index. rewrite Hw.
  do 5 (split; [done|]). intros e. rewrite <-Hobj. by rewrite Hp.
Qed.

(** C34: the writer builds an index of the pack it observed.  Fed the objects
    of a pack in any order between the header and the footer, [OnFooter]
    succeeds and [Index] returns an index, with the pack's checksum, whose
    sorted entries are exactly the first object of every non-zero name; its
    offsets and checksums are the ones observed, exactly those from 2^31 on are in
    the 64-bit table. *)
Theorem writer_builds_index count objs checksum :
  Forall (entry_ok (Size checksum)) objs -> len objs < 2 ^ 31 ->
  exists idx w bs, OnFooter (observe (OnHeader new_Writer count) objs) checksum = Ok (None, w)
    /\ Index w = Ok (inl idx, w) /\ represents idx bs /\ overflow_exact idx bs
    /\ PackfileChecksum idx = checksum /\ Version idx = VersionSupported /\ forall e, e ∈ concat bs <-> first_addition objs e.
Proof. apply writer_index. Qed.

Lemma writer_builds_index_witness :
  let objs := [Sample.e3; Sample.e2; Sample.e1; Sample.e2] in
  exists idx w bs,
    OnFooter (observe (OnHeader new_Writer 4) objs) (ResetBySize 20) = Ok (None, w)
    /\ Index w = Ok (inl idx, w) /\ represents idx bs /\ overflow_exact idx bs
    /\ PackfileChecksum idx = ResetBySize 20 /\ Version idx = VersionSupported
    /\ forall e, e ∈ concat bs <-> first_addition objs e.
Proof.
  apply writer_builds_index; [|reflexivity].
  repeat apply Forall_cons_2; try apply Forall_nil_2; apply Sample.entry_sample_ok; unfold is_byte; lia.
Defined.
