(* ===== verification/IdxCodec.v ===== *)
(** * Encoding and decoding a pack index

    Decoding the file that [Encode] writes for an index gives the index back
    ([encoder.go], [decoder.go]).  The digest function is a parameter. *)
From stdpp Require Import base list numbers option gmap sorting.
From Stdlib Require Import ZArith Lia.
From S2P Require Import Prelude ObjectId Idxfile IdxLookup IdxWrite.

Open Scope Z_scope.
#[local] Ltac Zify.zify_post_hook ::= Z.to_euclidean_division_equations.

(** ** Encoding *)

Lemma filter_nonempty_concat {A} (bs : list (list A)) : concat (filter nonempty bs) = concat bs.
Proof.
  induction bs as [|b bs IH]; [done|]. rewrite filter_cons. destruct (decide (nonempty b)) as [|Hb].
  - cbn [concat]. by rewrite IH.
  - destruct b; [done|]. by destruct Hb.
Qed.

Lemma maps_app bs bs' :
  exists ms, maps (bs ++ bs') = maps bs ++ ms /\ length ms = length bs'.
Proof.
  unfold maps. rewrite imap_app. eexists. split.
  - f_equal. apply imap_ext. intros i x Hi. apply lookup_lt_Some in Hi. by rewrite take_app_le by lia.
  - by rewrite length_imap.
Qed.

Lemma maps_drop bs b bs' :
  drop (length bs) (maps (bs ++ b :: bs'))
  = (if decide (nonempty b) then len (filter nonempty bs) else noMapping)
    :: drop (S (length bs)) (maps (bs ++ b :: bs')).
Proof.
  apply drop_S. unfold maps. rewrite list_lookup_imap, list_lookup_middle by done. cbn.
  by rewrite take_app_length.
Qed.

(** Visiting the tables in the order of the mapping. *)
Lemma write_buckets_spec {A} (f : list A -> bytes) (bs : list (list Entry)) (ts pre : list (list A)) b0 out :
  Forall2 (fun x y => length x = length y) bs ts -> Forall2 (fun x y => length x = length y) b0 pre ->
  write_buckets (drop (length b0) (maps (b0 ++ bs))) (f <$> filter nonempty (pre ++ ts)) out
  = Ok (out ++ concat (f <$> filter nonempty ts)).
Proof.
  intros H. revert b0 pre out. induction H as [|b t bs ts Hbt H IH]; intros b0 pre out Hpre.
  - rewrite app_nil_r, drop_ge by (by rewrite maps_length). cbn. by rewrite app_nil_r.
  - rewrite maps_drop. cbn [write_buckets].
    assert (len (filter nonempty b0) = len (filter nonempty pre)) as Hlen.
    { pose proof (filter_nonempty_length b0 pre (length b0) Hpre) as Hl.
      rewrite take_ge in Hl by lia. rewrite take_ge in Hl by (by rewrite (Forall2_length _ _ _ Hpre)).
      unfold len. by rewrite Hl. }
    specialize (IH (b0 ++ [b]) (pre ++ [t])). rewrite length_app, Nat.add_1_r, <-!app_assoc in IH.
    cbn [app] in IH. rewrite filter_cons.
    destruct (decide (nonempty b)) as [Hb|Hb].
    + rewrite decide_True by (intros ->; destruct b; done).
      unfold noMapping. pose proof (len_nonneg (filter nonempty b0)).
      ztest (len (filter nonempty b0) =? -1) false. rewrite Z.geb_leb.
      assert (nonempty t) as Ht by (intros ->; destruct b; done).
      assert ((f <$> filter nonempty (pre ++ t :: ts)) !! length (filter nonempty pre) = Some (f t)) as Hlk.
      { rewrite list_lookup_fmap, filter_app, filter_cons_True by done. by rewrite list_lookup_middle. }
      pose proof (lookup_lt_Some _ _ _ Hlk) as Hlt.
      replace (len (f <$> filter nonempty (pre ++ t :: ts)) <=? len (filter nonempty b0)) with false
        by (symmetry; apply Z.leb_gt; rewrite Hlen; unfold len; lia).
      rewrite (index_Ok _ _ (f t)) by (rewrite Hlen; unfold len; rewrite ?Nat2Z.id; done || lia).
      cbn [mbind outcome_bind]. rewrite IH by (apply Forall2_app; [done|by constructor]).
      rewrite fmap_cons. cbn [concat]. by rewrite app_assoc.
    + rewrite decide_False by (intros Ht; apply Hb; intros ->; by destruct t).
      unfold noMapping. change (-1 =? -1) with true. cbn iota. apply IH.
      apply Forall2_app; [done|by constructor].
Qed.

Lemma write_buckets_all {A} (f : list A -> bytes) bs (ts : list (list A)) out :
  Forall2 (fun x y => length x = length y) bs ts ->
  write_buckets (maps bs) (f <$> filter nonempty ts) out = Ok (out ++ concat (f <$> filter nonempty ts)).
Proof. intros H. apply (write_buckets_spec f bs ts [] [] out H). constructor. Qed.

(** The file up to the packfile checksum, that checksum and the digest. *)
Definition body (idx : MemoryIndex) : bytes :=
  idxHeader ++ PutUint32 (Version idx) ++ concat (PutUint32 <$> Fanout idx)
    ++ concat (Names idx) ++ concat (CRC32 idx) ++ concat (Offset32 idx) ++ Offset64 idx
    ++ Bytes (PackfileChecksum idx).

Lemma Encode_spec sum idx bs wss out0 :
  tables idx bs wss -> Version idx = VersionSupported ->
  let c := oid_Write (IdxChecksum idx) (sum (body idx)) in
  Encode sum (Some out0) (Some idx) = Ok (out0 ++ body idx ++ Bytes c, set_IdxChecksum idx c).
Proof.
  intros [HF HM HN HC HO Hw] Hv c. pose proof (words_length _ _ _ Hw) as Hlen.
  assert (Forall2 (fun x y : list Entry => length x = length y) bs bs) as Hself
    by (clear; induction bs; constructor; auto).
  unfold Encode, writeHeader. rewrite Hv, Z.eqb_refl. cbn [negb mbind outcome_bind mret outcome_ret].
  unfold writeFanout, writeHashes, writeCRC32, writeOffsets. cbn [mbind outcome_bind mret outcome_ret].
  rewrite HM, HN, HC, HO.
  rewrite (write_buckets_all names_of) by done. cbn [mbind outcome_bind].
  rewrite (write_buckets_all crcs_of) by done. cbn [mbind outcome_bind].
  rewrite (write_buckets_all words_of) by done. cbn [mbind outcome_bind].
  match goal with |- context [if len (Offset64 idx) >? 0 then ?a ++ _ else _] =>
    assert ((if len (Offset64 idx) >? 0 then a ++ Offset64 idx else a) = a ++ Offset64 idx) as ->
  end.
  { rewrite Z.gtb_ltb. destruct (Z.ltb_spec 0 (len (Offset64 idx))) as [|H]; [done|].
    pose proof (len_nonneg (Offset64 idx)). rewrite (len_zero_nil (Offset64 idx)) by lia. by rewrite app_nil_r. }
  unfold mret, outcome_ret. cbn [mbind outcome_bind]. unfold writeChecksums. cbn [mbind outcome_bind mret outcome_ret].
  match goal with |- context [sum ?x] => assert (x = body idx) as -> end.
  { unfold body. rewrite Hv, HN, HC, HO, <-!app_assoc. done. }
  done.
Qed.

(** ** Decoding *)

Lemma readN_app p q n : len p = n -> readN n (p ++ q) = Ok (p, q).
Proof. intros <-. unfold readN. by rewrite ReadFull_app. Qed.

Lemma ReadUint32_app v r : 0 <= v < 2 ^ 32 -> ReadUint32 (PutUint32 v ++ r) = Ok (v, r).
Proof.
  intros Hv. unfold ReadUint32. rewrite readN_app by apply PutUint32_len.
  cbn [mbind outcome_bind]. by rewrite be_val_PutUint32.
Qed.

(** Non-decreasing, from [p] on. *)
Inductive ascending : Z -> list Z -> Prop :=
  | asc_nil p : ascending p []
  | asc_cons p x l : p <= x < 2 ^ 32 -> ascending x l -> ascending p (x :: l).

Lemma readFanout_app fs prev p r :
  ascending p fs -> 0 <= p -> (forall q, prev = Some q -> q = p) ->
  readFanout (length fs) prev (concat (PutUint32 <$> fs) ++ r) = Ok (fs, r).
Proof.
  intros Ha. revert prev. induction Ha as [p|p x l Hx Ha IH]; intros prev Hp Hprev; [done|].
  cbn [length readFanout]. rewrite fmap_cons. cbn [concat]. rewrite <-app_assoc, ReadUint32_app by lia.
  cbn [mbind outcome_bind].
  assert (match prev with Some p => x <? p | None => false end = false) as ->.
  { destruct prev as [q|]; [|done]. rewrite (Hprev q eq_refl). apply Z.ltb_ge. lia. }
  rewrite IH; [done|lia|by intros q [= ->]].
Qed.

Lemma fans_drop bs b bs' :
  drop (length bs) (fans (bs ++ b :: bs'))
  = (len (concat bs) + len b) :: drop (S (length bs)) (fans (bs ++ b :: bs')).
Proof.
  apply drop_S. rewrite fans_lookup by (rewrite length_app; cbn; lia). f_equal.
  rewrite (concat_take_S _ _ b) by (by rewrite list_lookup_middle). by rewrite take_app_length, len_app.
Qed.

Lemma cons_snoc_app {A} (l : list A) x k : l ++ x :: k = (l ++ [x]) ++ k.
Proof. by rewrite <-app_assoc. Qed.

Lemma fans_ascending_from bs0 bs :
  len (concat (bs0 ++ bs)) < 2 ^ 32 -> ascending (len (concat bs0)) (drop (length bs0) (fans (bs0 ++ bs))).
Proof.
  revert bs0. induction bs as [|b bs IH]; intros bs0 Hn.
  - rewrite app_nil_r, drop_ge by (by rewrite fans_length). constructor.
  - rewrite fans_drop. pose proof (len_nonneg (concat bs)). pose proof (len_nonneg b).
    rewrite concat_app, len_app in Hn. cbn [concat] in Hn. rewrite len_app in Hn. constructor; [lia|].
    specialize (IH (bs0 ++ [b])). rewrite concat_snoc, len_app, length_app, Nat.add_1_r in IH.
    rewrite cons_snoc_app. apply IH. rewrite <-cons_snoc_app, concat_app, len_app. cbn [concat].
    rewrite len_app. lia.
Qed.

Lemma fans_ascending bs : len (concat bs) < 2 ^ 32 -> ascending 0 (fans bs).
Proof. intros H. by apply (fans_ascending_from [] bs). Qed.

(** The names of the buckets, one table per non-empty bucket. *)
Definition sizes_of (bs : list (list Entry)) : list Z := (fun b => len b * 4) <$> filter nonempty bs.

Lemma readObjectNames_app sz bs bs0 r :
  0 < sz < 2 ^ 32 -> Forall (entry_ok sz) (concat bs) ->
  Forall (fun b => len b * sz < 2 ^ 32 /\ len b * 4 < 2 ^ 32) bs ->
  readObjectNames sz (drop (length bs0) (fans (bs0 ++ bs))) (len (concat bs0))
    (names_of <$> filter nonempty bs0) (concat (names_of <$> filter nonempty bs) ++ r)
  = Ok (drop (length bs0) (maps (bs0 ++ bs)), names_of <$> filter nonempty (bs0 ++ bs), sizes_of bs, r).
Proof.
  intros Hsz. revert bs0. induction bs as [|b bs IH]; intros bs0 Hok Hsm.
  - rewrite app_nil_r, !drop_ge by (by rewrite ?maps_length, ?fans_length). done.
  - rewrite fans_drop, maps_drop. apply Forall_cons in Hsm as [[Hb1 Hb2] Hsm].
    cbn [concat] in Hok. apply Forall_app in Hok as [Hokb Hok].
    specialize (IH (bs0 ++ [b]) Hok Hsm). rewrite length_app, Nat.add_1_r, <-!app_assoc, concat_snoc, len_app in IH.
    cbn [app] in IH. cbn [readObjectNames]. unfold sizes_of in *. pose proof (len_nonneg b).
    replace (len (concat bs0) + len b - len (concat bs0)) with (len b) by lia.
    rewrite (wrap_small 32 (len b)) by nia. rewrite filter_cons.
    destruct (decide (nonempty b)) as [Hb|Hb].
    + assert (0 < len b) as Hpos by (destruct b; [done|rewrite len_cons; pose proof (len_nonneg b); lia]).
      ztest (len b =? 0) false. rewrite (wrap_small 32 sz), (wrap_small 32 (len b * sz)), (wrap_small 32 (len b * 4)) by nia. rewrite fmap_cons. cbn [concat].
      rewrite <-app_assoc, readN_app.
      2:{ unfold names_of. rewrite (concat_fixed_len ebytes sz) by (by apply names_entry_len). lia. }
      cbn [mbind outcome_bind]. rewrite filter_snoc_nonempty, fmap_app in IH by done. cbn [fmap list_fmap] in IH.
      rewrite IH. cbn [mbind outcome_bind]. unfold len at 1. by rewrite length_fmap.
    + assert (b = []) as -> by (destruct b; [done|by destruct Hb]).
      change (len (@nil Entry)) with 0. change (0 =? 0) with true. cbn iota.
      rewrite filter_app, app_nil_r in IH. cbn in IH. change (len (@nil Entry)) with 0 in IH.
      rewrite IH. done.
Qed.

Lemma readTables_app ts sizes r :
  Forall2 (fun t n => len t = n) ts sizes -> readTables sizes (concat ts ++ r) = Ok (ts, r).
Proof.
  induction 1 as [|t n ts sizes Ht H IH]; [done|]. cbn [readTables concat].
  rewrite <-app_assoc, readN_app by done. cbn [mbind outcome_bind]. rewrite IH. done.
Qed.

Lemma table_sizes bs (wss : list (list Z)) :
  Forall2 (fun x y => length x = length y) bs wss ->
  Forall2 (fun t n => len t = n) (crcs_of <$> filter nonempty bs) (sizes_of bs)
  /\ Forall2 (fun t n => len t = n) (words_of <$> filter nonempty wss) (sizes_of bs).
Proof.
  unfold sizes_of. induction 1 as [|b ws bs wss Hb H [IH1 IH2]]; [done|]. rewrite !filter_cons.
  destruct (decide (nonempty b)) as [Hne|Hne].
  - rewrite decide_True by (intros ->; by destruct b). rewrite !fmap_cons. split; constructor; try done.
    + unfold crcs_of. rewrite (concat_fixed_len _ 4) by (apply Forall_true; intros; apply PutUint32_len). lia.
    + unfold words_of. rewrite (concat_fixed_len _ 4) by (apply Forall_true; intros; apply PutUint32_len).
      unfold len. rewrite Hb. lia.
  - rewrite decide_False by (intros Hw; apply Hne; intros ->; by destruct ws). done.
Qed.

(** *** Counting the words that point to the 64-bit table *)

Lemma count_o64_word w t :
  0 <= w < 2 ^ 32 -> count_o64 (PutUint32 w ++ t) = (if decide (large w) then 1 else 0) + count_o64 t.
Proof.
  intros Hw. unfold PutUint32. cbn [be_bytes app count_o64].
  assert ((Z.land (u8 (Z.shiftr w (8 * Z.of_nat 3))) 128 >? 0) = bool_decide (large w)) as ->.
  2:{ unfold bool_decide, decide. by destruct (large_dec w). }
  rewrite Z.shiftr_div_pow2 by lia. change (8 * Z.of_nat 3) with 24. rewrite wrap_small by lia.
  rewrite Z.gtb_ltb. change 128 with (2 ^ 7).
  assert ((0 <? Z.land (w `div` 2 ^ 24) (2 ^ 7)) = Z.testbit (w `div` 2 ^ 24) 7) as ->.
  { pose proof (land_pow2_testbit (w `div` 2 ^ 24) 7 ltac:(lia)) as H.
    assert (0 <= Z.land (w `div` 2 ^ 24) (2 ^ 7)) by (apply Z.land_nonneg; lia).
    destruct (Z.ltb_spec 0 (Z.land (w `div` 2 ^ 24) (2 ^ 7))), (Z.eqb_spec (Z.land (w `div` 2 ^ 24) (2 ^ 7)) 0);
      try lia; destruct (Z.testbit _ _); done. }
  rewrite Z.testbit_eqb by lia. change (2 ^ 7) with 128.
  destruct (Z.eqb_spec (((w `div` 2 ^ 24) `div` 128) `mod` 2) 1) as [H|H]; symmetry;
    [apply bool_decide_eq_true|apply bool_decide_eq_false]; unfold large; lia.
Qed.

Lemma count_o64_words ws : Forall (fun w => 0 <= w < 2 ^ 32) ws -> count_o64 (words_of ws) = nlarge ws.
Proof.
  unfold words_of, nlarge. induction 1 as [|w ws Hw H IH]; [done|]. rewrite fmap_cons. cbn [concat].
  rewrite count_o64_word, IH, filter_cons by done. destruct (decide (large w)); [rewrite len_cons|]; lia.
Qed.

Lemma count_o64_tables wss :
  Forall (fun w => 0 <= w < 2 ^ 32) (concat wss) ->
  foldr Z.add 0 (count_o64 <$> (words_of <$> filter nonempty wss)) = nlarge (concat wss).
Proof.
  rewrite <-(filter_nonempty_concat wss). generalize (filter nonempty wss). intros l Hl.
  induction l as [|ws l IH]; [done|]. cbn [concat] in *. apply Forall_app in Hl as [Hw Hl].
  rewrite !fmap_cons. cbn [foldr]. rewrite IH, count_o64_words by done.
  unfold nlarge. by rewrite filter_app, len_app.
Qed.

Lemma words_range o64 bs wss :
  Forall2 (Forall2 (resolves o64)) bs wss -> Forall (fun w => 0 <= w < 2 ^ 32) (concat wss).
Proof.
  induction 1 as [|b ws bs wss Hb H IH]; [constructor|]. cbn [concat]. apply Forall_app. split; [|done].
  clear -Hb. induction Hb as [|e w b ws Hr Hb IH]; constructor; [|done].
  destruct Hr as [[? _]|(i & p & q & -> & ? & _)]; lia.
Qed.

(** *** The size check *)

Lemma mulInt64_exact a b :
  0 <= a < 2 ^ 63 -> 0 <= b < 2 ^ 63 -> a * b < 2 ^ 63 -> mulInt64 a b = (a * b, true).
Proof.
  intros Ha Hb Hab. unfold mulInt64. ztest (a <? 0) false. ztest (b <? 0) false. cbn [orb].
  destruct (Z.eqb_spec a 0) as [->|Hza]; [done|]. destruct (Z.eqb_spec b 0) as [->|Hzb]; cbn [orb].
  - by rewrite Z.mul_0_r.
  - rewrite i64_small by nia. rewrite Z.quot_mul, Z.eqb_refl by done. done.
Qed.

Lemma addInt64_exact a b :
  0 <= a < 2 ^ 63 -> 0 <= b < 2 ^ 63 -> a + b < 2 ^ 63 -> addInt64 a b = (a + b, true).
Proof.
  intros Ha Hb Hab. unfold addInt64. ztest (a <? 0) false. ztest (b <? 0) false. cbn [orb].
  rewrite i64_small by lia. ztest (a + b <? a) false. done.
Qed.

Lemma minIdxV2Size_exact nr sz :
  0 <= nr < 2 ^ 32 -> 0 <= sz <= 32 -> minIdxV2Size nr sz = 1032 + 2 * sz + nr * (sz + 8).
Proof.
  intros Hn Hs. unfold minIdxV2Size, headerLen, fanoutLen, fanout, trailerHashes, crc32Len, offset32Len.
  rewrite mulInt64_exact by nia. cbn [negb]. rewrite addInt64_exact by nia. cbn [negb]. lia.
Qed.

Lemma maxIdxV2Size_exact nr sz :
  0 <= nr < 2 ^ 32 -> 0 <= sz <= 32 ->
  maxIdxV2Size nr sz = 1032 + 2 * sz + nr * (sz + 8) + 8 * Z.max 0 (nr - 1).
Proof.
  intros Hn Hs. unfold maxIdxV2Size. rewrite minIdxV2Size_exact by done. unfold offset64Len.
  ztest (1032 + 2 * sz + nr * (sz + 8) <? 0) false || replace (1032 + 2 * sz + nr * (sz + 8) <? 0) with false by (symmetry; apply Z.ltb_ge; nia).
  destruct (Z.eqb_spec nr 0) as [->|Hnz]; [lia|].
  rewrite mulInt64_exact by lia. cbn [negb]. rewrite addInt64_exact by nia. cbn [negb]. lia.
Qed.

(** The size of a file is accepted exactly when it has room for the tables and
    for at most one 64-bit offset per object but one. *)
Lemma validateIdxV2Size_iff nr sz n :
  0 <= nr < 2 ^ 32 -> 0 <= sz <= 32 ->
  validateIdxV2Size nr sz n = Ok tt <->
  1032 + 2 * sz + nr * (sz + 8) <= n <= 1032 + 2 * sz + nr * (sz + 8) + 8 * Z.max 0 (nr - 1).
Proof.
  intros Hn Hs. unfold validateIdxV2Size. rewrite maxIdxV2Size_exact, minIdxV2Size_exact by done.
  set (m := 1032 + 2 * sz + nr * (sz + 8)). assert (0 <= m) by (subst m; nia). clearbody m.
  ztest (m <? 0) false. replace (m + 8 * Z.max 0 (nr - 1) <? 0) with false by (symmetry; apply Z.ltb_ge; lia).
  cbn [orb]. rewrite Z.gtb_ltb.
  destruct (Z.ltb_spec n m), (Z.ltb_spec (m + 8 * Z.max 0 (nr - 1)) n); cbn [orb]; split; intros; try done; lia.
Qed.

(** *** Checksums *)

Lemma Write_Bytes sz h :
  sz = 20 \/ sz = 32 -> oid_ok h -> Size h = sz -> oid_Write (ResetBySize sz) (Bytes h) = h.
Proof.
  intros Hsz Hh Hs. apply (Write_ebytes sz {| e_Hash := h; e_CRC32 := 0; e_Offset := 0 |} Hsz).
  split; [done|]. split; [done|]. cbn. lia.
Qed.

Lemma readChecksum_app sz h r :
  sz = 20 \/ sz = 32 -> oid_ok h -> Size h = sz -> readChecksum sz (Bytes h ++ r) = Ok (h, r).
Proof.
  intros Hsz Hh Hs. unfold readChecksum, ReadFrom.
  destruct (ResetBySize_props sz Hsz) as [-> _].
  replace sz with (len (Bytes h)) at 1 by (rewrite Bytes_len, Hs by apply Hh; done).
  rewrite ReadFull_app. cbn [mbind outcome_bind mret outcome_ret map_err].
  do 3 f_equal. exact (Write_Bytes sz h Hsz Hh Hs).
Qed.

Lemma Write_oid_ok h d :
  oid_ok h -> len d = Size h -> bytes_ok d -> oid_ok (oid_Write h d) /\ Bytes (oid_Write h d) = d.
Proof.
  intros [Hl Hb Ht Hf] Hd Hdb. assert (oid_Write h d = oid_of (oid_format h) d) as ->.
  { unfold oid_Write, oid_of. f_equal. unfold copy. rewrite take_ge by (unfold len in *; pose proof (Size_bound h); unfold SHA256Size in *; lia).
    f_equal. rewrite Hd, <-Ht, <-Hd. unfold len. by rewrite Nat2Z.id. }
  split; [by apply oid_of_ok|by apply oid_of_Bytes].
Qed.

Lemma concat_table_len {A} (f : A -> bytes) n (l : list (list A)) :
  Forall (fun x => len (f x) = n) (concat l) ->
  len (concat ((fun b => concat (f <$> b)) <$> l)) = n * len (concat l).
Proof.
  induction l as [|b l IH]; intros H; [cbn; change (len (@nil A)) with 0; change (len (@nil Z)) with 0; lia|].
  cbn [concat] in H. apply Forall_app in H as [Hb Hl]. rewrite fmap_cons. cbn [concat].
  rewrite !len_app, (concat_fixed_len f n b Hb), IH by done. lia.
Qed.

Lemma body_len idx bs wss :
  tables idx bs wss -> Forall (entry_ok (objectIDSize idx)) (concat bs) -> length bs = 256%nat ->
  oid_ok (PackfileChecksum idx) ->
  len (body idx) = 1032 + len (concat bs) * (objectIDSize idx + 8) + len (Offset64 idx)
    + Size (PackfileChecksum idx).
Proof.
  intros [HF HM HN HC HO Hw] Hok H256 Hp. unfold body. rewrite HF, HN, HC, HO.
  unfold names_of, crcs_of, words_of.
  rewrite !len_app, !PutUint32_len, (concat_fixed_len PutUint32 4) by (apply Forall_true; intros; apply PutUint32_len).
  rewrite (concat_table_len ebytes (objectIDSize idx)) by (rewrite filter_nonempty_concat; by apply names_entry_len).
  rewrite (concat_table_len (fun e => PutUint32 (e_CRC32 e)) 4) by (apply Forall_true; intros; apply PutUint32_len).
  rewrite (concat_table_len PutUint32 4) by (apply Forall_true; intros; apply PutUint32_len).
  rewrite !filter_nonempty_concat, fans_len, Bytes_len by apply Hp. change (len idxHeader) with 4.
  assert (len (concat wss) = len (concat bs)) as ->.
  { apply words_length in Hw. clear -Hw. induction Hw as [|b ws bs wss Hb Hw IH]; [done|].
    cbn [concat]. rewrite !len_app, IH. unfold len. lia. }
  unfold len at 1. lia.
Qed.

Record encodable (sz : Z) (idx : MemoryIndex) (bs : list (list Entry)) : Prop := {
  x_version : Version idx = VersionSupported;
  x_size : objectIDSize idx = sz;
  x_pack : oid_ok (PackfileChecksum idx) /\ Size (PackfileChecksum idx) = sz;
  x_check : oid_ok (IdxChecksum idx) /\ Size (IdxChecksum idx) = sz;
  x_overflow : overflow_exact idx bs;
  x_small : nbig (concat bs) <= Z.max 0 (len (concat bs) - 1);
  x_buckets : Forall (fun b => len b * sz < 2 ^ 32) bs;
}.

Lemma bucket_le {A} (bs : list (list A)) b : b ∈ bs -> len b <= len (concat bs).
Proof.
  intros [k Hk]%list_elem_of_lookup. rewrite (concat_middle bs k b Hk), !len_app.
  pose proof (len_nonneg (concat (take k bs))). pose proof (len_nonneg (concat (drop (S k) bs))). lia.
Qed.

Ltac mstep := unfold mret, outcome_ret; cbn [mbind outcome_bind negb].

(** The size of the file is one that the decoder accepts. *)
Lemma file_size_ok sz idx bs wss d :
  tables idx bs wss -> buckets_ok sz bs -> sz = 20 \/ sz = 32 -> encodable sz idx bs -> len d = sz ->
  validateIdxV2Size (len (concat bs)) sz (len (body idx ++ d)) = Ok tt.
Proof.
  intros Ht Hb Hsz [Hv Hs [Hp Hps] _ (wss' & _ & H64 & H64') Hsm _] Hd.
  pose proof (b_small _ _ Hb). pose proof (len_nonneg (concat bs)).
  apply validateIdxV2Size_iff; [lia|lia|].
  rewrite len_app, (body_len idx bs wss Ht); [|rewrite Hs; apply Hb|apply Hb|done].
  rewrite Hs, Hps, Hd, H64, H64'. unfold nbig in *. pose proof (len_nonneg (filter big (concat bs))). lia.
Qed.

(** The 64-bit table is read when some word points to it. *)
Lemma read_overflow (o64 : bytes) n r :
  len o64 = 8 * n -> 0 <= n ->
  (if n >? 0 then readN (n * 8) (o64 ++ r) else mret ([], o64 ++ r)) = Ok (o64, r).
Proof.
  intros Hl Hn. rewrite Z.gtb_ltb. destruct (Z.ltb_spec 0 n) as [H|H].
  - apply readN_app. lia.
  - rewrite (len_zero_nil o64) by lia. done.
Qed.

Lemma Decode_body sum sz idx bs c :
  represents idx bs -> encodable sz idx bs -> oid_ok c -> Size c = sz -> Bytes c = sum (body idx) ->
  Decode sum sz (Some (len (body idx ++ Bytes c))) (body idx ++ Bytes c)
  = Ok (set_offsetHash (set_IdxChecksum idx c) None false).
Proof.
  intros [Hsz Hb _ _] Hx Hc Hcs Hcb. pose proof Hx as [Hv Hs [Hp Hps] _ (wss & Ht & H64 & H64') Hsm Hbk].
  rewrite Hs in Hsz, Hb.
  pose proof (file_size_ok sz idx bs wss (Bytes c) Ht Hb Hsz Hx ltac:(rewrite Bytes_len, Hcs by apply Hc; done)) as Hval.
  pose proof (b_small _ _ Hb) as Hsmall. pose proof (b_len _ _ Hb) as H256. pose proof Ht as [HF HM HN HC HO Hw].
  set (input := body idx ++ Bytes c) in *.
  assert (input = idxHeader ++ PutUint32 2 ++ concat (PutUint32 <$> fans bs)
    ++ concat (names_of <$> filter nonempty bs) ++ concat (crcs_of <$> filter nonempty bs)
    ++ concat (words_of <$> filter nonempty wss) ++ Offset64 idx ++ Bytes (PackfileChecksum idx) ++ Bytes c) as Hin.
  { subst input. unfold body. rewrite HF, HN, HC, HO, Hv, <-!app_assoc. done. }
  unfold Decode. rewrite Hin at 1. clear Hin. unfold validateHeader. rewrite readN_app by done. mstep.
  rewrite bool_decide_true by done. mstep. unfold readVersion. rewrite ReadUint32_app by lia. mstep.
  change (negb (2 =? VersionSupported)) with false. mstep.
  replace 256%nat with (length (fans bs)) by (by rewrite fans_length).
  rewrite (readFanout_app _ None 0); [|apply fans_ascending; lia|lia|done]. mstep.
  rewrite (index_Ok (fans bs) _ (len (concat bs))); [|done|].
  2:{ rewrite fans_lookup by (rewrite H256; unfold fanout; lia). by rewrite take_ge by (rewrite H256; done). }
  mstep. assert (idSize (NewMemoryIndex sz) = sz) as -> by (by destruct Hsz as [-> | ->]).
  rewrite Hval. mstep.
  pose proof (readObjectNames_app sz bs []) as Hnames. cbn [length drop app filter fmap list_fmap concat] in Hnames.
  change (len (@nil Entry)) with 0 in Hnames. rewrite Hnames; clear Hnames; [|lia|apply Hb|].
  2:{ apply Forall_forall. intros b Hin. rewrite Forall_forall in Hbk. specialize (Hbk b Hin). lia. }
  mstep. destruct (table_sizes bs wss (words_length _ _ _ Hw)) as [Hs1 Hs2].
  rewrite readTables_app by done. mstep. rewrite readTables_app by done. mstep.
  rewrite count_o64_tables by (by eapply words_range).
  rewrite read_overflow by (done || apply len_nonneg). mstep.
  rewrite readChecksum_app by done. mstep.
  replace (Z.to_nat (len input - len (Bytes c))) with (length (body idx)).
  2:{ subst input. rewrite len_app. unfold len. lia. }
  subst input. rewrite take_app_length. pose proof (readChecksum_app sz c [] Hsz Hc Hcs) as Hck.
  rewrite app_nil_r in Hck. rewrite Hck. mstep. unfold Compare. rewrite Hcb, bytes_compare_refl.
  unfold set_offsetHash, set_IdxChecksum. cbn. by rewrite HF, HM, HN, HC, HO, Hv, Hs.
Qed.

(** C35: encoding and decoding are inverse.  For an index that represents
    sorted entries, with a digest function of the identifier size, [Encode]
    succeeds and appends a file to its output; [Decode] of that file, with its
    size from [Stat], succeeds and returns the index [Encode] leaves behind
    (with an empty reverse-lookup cache), which represents the same entries. *)
Theorem index_file_roundtrip sum sz idx bs out0 :
  (forall x, len (sum x) = sz /\ bytes_ok (sum x)) -> represents idx bs -> encodable sz idx bs ->
  exists file idx', Encode sum (Some out0) (Some idx) = Ok (out0 ++ file, idx')
    /\ Decode sum sz (Some (len file)) file = Ok (set_offsetHash idx' None false)
    /\ represents (set_offsetHash idx' None false) bs.
Proof.
  intros Hsum Hrep Hx. pose proof Hx as [Hv Hs [Hp Hps] [Hc Hcs] (wss & Ht & _) _ _].
  destruct (Hsum (body idx)) as [Hd1 Hd2].
  destruct (Write_oid_ok (IdxChecksum idx) (sum (body idx)) Hc ltac:(lia) Hd2) as [Hck Hcb].
  pose proof (Encode_spec sum idx bs wss out0 Ht Hv) as Henc. cbv zeta in Henc.
  set (c := oid_Write (IdxChecksum idx) (sum (body idx))) in *.
  exists (body idx ++ Bytes c), (set_IdxChecksum idx c). split; [done|]. split.
  - apply (Decode_body sum sz idx bs); done.
  - destruct Hrep as [Hsz Hb _ _]. constructor; [done|done| |by constructor].
    exists wss. destruct Ht. by constructor.
Qed.

Lemma index_file_roundtrip_witness :
  let sum := fun x : bytes => replicate 20 (len x `mod` 256) in
  exists file idx', Encode sum (Some [1; 2]) (Some Sample.idx) = Ok ([1; 2] ++ file, idx')
    /\ Decode sum 20 (Some (len file)) file = Ok (set_offsetHash idx' None false)
    /\ represents (set_offsetHash idx' None false) Sample.buckets.
Proof.
  apply (index_file_roundtrip _ 20 Sample.idx Sample.buckets [1; 2]).
  - intros x. split; [reflexivity|]. apply Forall_replicate. unfold is_byte. lia.
  - exact Sample.represented.
  - constructor; [reflexivity|reflexivity| | | | |].
    + split; [|reflexivity]. apply oid_of_ok; [discriminate|reflexivity|].
      apply (bool_decide_unpack _). vm_compute. exact I.
    + split; [|reflexivity]. constructor; [reflexivity| |reflexivity|discriminate].
      apply (bool_decide_unpack _). vm_compute. exact I.
    + exists Sample.words. split; [exact Sample.idx_tables|]. split; reflexivity.
    + vm_compute. discriminate.
    + unfold Sample.buckets. repeat (apply Forall_app; split);
        try (apply Forall_replicate; reflexivity); apply Forall_singleton; reflexivity.
Defined.
