(* ===== verification/Pathutil.v ===== *)
(** * Path safety: [internal/pathutil]

    Which names of tree entries and references may become file names: the
    spellings of [.git] that HFS+ and NTFS resolve to it, the Windows device
    names, and the checks of whole paths built from them.  Strings are
    sequences of bytes; [runes] is their decoding by [[]rune(s)]. *)
From stdpp Require Import base list numbers option strings.
From Stdlib Require Import ZArith Lia.
From S2P Require Import Prelude.

Open Scope Z_scope.
#[local] Ltac Zify.zify_post_hook ::= Z.to_euclidean_division_equations.

(** ** Runes *)

Definition RuneError : Z := 65533.

Definition in_range (lo hi c : Z) : bool := (lo <=? c) && (c <=? hi).
Definition cont (c : Z) : bool := in_range 128 191 c.

(** The rune of a two-, three- or four-byte sequence: the second byte is in a
    range that depends on the first ([unicode/utf8]). *)
Definition rune2 (a b : Z) : Z := Z.lor (Z.shiftl (Z.land a 31) 6) (Z.land b 63).
Definition rune3 (a b c : Z) : Z :=
  Z.lor (Z.lor (Z.shiftl (Z.land a 15) 12) (Z.shiftl (Z.land b 63) 6)) (Z.land c 63).
Definition rune4 (a b c d : Z) : Z :=
  Z.lor (Z.lor (Z.lor (Z.shiftl (Z.land a 7) 18) (Z.shiftl (Z.land b 63) 12))
    (Z.shiftl (Z.land c 63) 6)) (Z.land d 63).

Definition second3 (a b : Z) : bool :=
  if a =? 224 then in_range 160 191 b else if a =? 237 then in_range 128 159 b else cont b.
Definition second4 (a b : Z) : bool :=
  if a =? 240 then in_range 144 191 b else if a =? 244 then in_range 128 143 b else cont b.

(** [[]rune(s)]: an invalid byte is one [RuneError]. *)
Fixpoint runes (s : bytes) : list Z :=
  match s with
  | [] => []
  | a :: s1 =>
      if a <? 128 then a :: runes s1
      else if in_range 194 223 a then
        match s1 with
        | b :: s2 => if cont b then rune2 a b :: runes s2 else RuneError :: runes s1
        | [] => [RuneError]
        end
      else if in_range 224 239 a then
        match s1 with
        | b :: (c :: s3) =>
            if second3 a b && cont c then rune3 a b c :: runes s3 else RuneError :: runes s1
        | _ => RuneError :: runes s1
        end
      else if in_range 240 244 a then
        match s1 with
        | b :: (c :: (d :: s4)) =>
            if second4 a b && cont c && cont d then rune4 a b c d :: runes s4 else RuneError :: runes s1
        | _ => RuneError :: runes s1
        end
      else RuneError :: runes s1
  end.

Definition asciiToLower (c : Z) : Z := if (65 <=? c) && (c <=? 90) then c + 32 else c.

(** [unicode.ToLower] where it can give an ASCII rune: the upper-case letters,
    U+0130 and U+212A.  The lower case of any other rune is not ASCII, and is
    only compared with ASCII here. *)
Definition ToLower_rune (r : Z) : Z :=
  if r =? 304 then 105 else if r =? 8490 then 107 else asciiToLower r.

(** [strings.EqualFold] of two strings of the same length, the second ASCII.  A
    rune of the first with more than one byte would leave the second longer, and
    no other rune folds to a byte, so folding the bytes is enough. *)
Definition EqualFold (s t : bytes) : bool := bool_decide (asciiToLower <$> s = asciiToLower <$> t).

(** ** [.git] ([dotgit.go]) *)

Definition IsDotGitName (name : bytes) : bool :=
  let l := ToLower_rune <$> runes name in
  bool_decide (l = bs ".git") || bool_decide (l = bs "git~1").

(** ** HFS+ ([hfs.go]) *)

Definition hfsIgnoredCodepoints : list Z :=
  [8204; 8205; 8206; 8207; 8234; 8235; 8236; 8237; 8238;
   8298; 8299; 8300; 8301; 8302; 8303; 65279].

Definition ignored (r : Z) : bool := bool_decide (r ∈ hfsIgnoredCodepoints).

(** The loops [for i < len(runes)] over ignored code points. *)
Fixpoint skip_ignored (l : list Z) : list Z :=
  match l with
  | r :: l' => if ignored r then skip_ignored l' else l
  | [] => []
  end.

Fixpoint match_needle (needle : bytes) (l : list Z) : option (list Z) :=
  match needle with
  | [] => Some l
  | expected :: needle' =>
      match skip_ignored l with
      | [] => None
      | r :: l' =>
          if r >? 127 then None
          else if negb (ToLower_rune r =? expected) then None
          else match_needle needle' l'
      end
  end.

Definition IsHFSDot (part needle : bytes) : bool :=
  match skip_ignored (runes part) with
  | [] => false
  | r :: l =>
      if negb (r =? 46) then false
      else match match_needle needle l with
           | None => false
           | Some l => bool_decide (skip_ignored l = [])
           end
  end.

Definition IsHFSDotGit (part : bytes) : bool := IsHFSDot part (bs "git").
Definition IsHFSDotGitmodules (part : bytes) : bool := IsHFSDot part (bs "gitmodules").
Definition IsHFSDotGitattributes (part : bytes) : bool := IsHFSDot part (bs "gitattributes").
Definition IsHFSDotGitignore (part : bytes) : bool := IsHFSDot part (bs "gitignore").
Definition IsHFSDotMailmap (part : bytes) : bool := IsHFSDot part (bs "mailmap").

(** ** NTFS ([ntfs.go]) *)

(** The rest of a component after the name: spaces and periods, which NTFS
    trims, up to the end or a colon. *)
Fixpoint onlySpacesAndPeriods (l : bytes) : bool :=
  match l with
  | [] => true
  | c :: l' => if c =? 58 then true else if (c =? 32) || (c =? 46) then onlySpacesAndPeriods l' else false
  end.

Definition IsNTFSDotGit (part : bytes) : bool :=
  match part with
  | c0 :: c1 :: c2 :: c3 :: rest =>
      if (c0 =? 46) && (asciiToLower c1 =? 103) && (asciiToLower c2 =? 105) && (asciiToLower c3 =? 116)
      then onlySpacesAndPeriods rest
      else
        match rest with
        | c4 :: rest' =>
            if (asciiToLower c0 =? 103) && (asciiToLower c1 =? 105) && (asciiToLower c2 =? 116)
               && (c3 =? 126) && (c4 =? 49)
            then onlySpacesAndPeriods rest'
            else false
        | [] => false
        end
  | _ => false
  end.

Definition windowsReservedNames : list bytes :=
  [bs "CON"; bs "PRN"; bs "AUX"; bs "NUL";
   bs "COM1"; bs "COM2"; bs "COM3"; bs "COM4"; bs "COM5"; bs "COM6"; bs "COM7"; bs "COM8"; bs "COM9";
   bs "LPT1"; bs "LPT2"; bs "LPT3"; bs "LPT4"; bs "LPT5"; bs "LPT6"; bs "LPT7"; bs "LPT8"; bs "LPT9";
   bs "CONIN$"; bs "CONOUT$"].

Definition reserved_as (part name : bytes) : bool :=
  if len part <? len name then false
  else if negb (EqualFold (take (length name) part) name) then false
  else match drop (length name) part with
       | [] => true
       | c :: _ => (c =? 32) || (c =? 46) || (c =? 58)
       end.

Definition isWindowsReservedName (part : bytes) : bool := existsb (reserved_as part) windowsReservedNames.

Definition WindowsValidPath (part : bytes) : bool :=
  if IsNTFSDotGit part && negb (IsDotGitName part) then false
  else negb (isWindowsReservedName part).

(** The loop of the third pattern on what is left of the name and of the
    prefix, [n] bytes before the eighth: whether it reaches the end.  The caller
    has checked that the name has eight bytes and the prefix six. *)
Fixpoint shortname_loop (n : nat) (name prefix : bytes) (sawTilde : bool) : bool :=
  match n, name with
  | O, _ => true
  | S n', [] => false
  | S n', c :: name' =>
      if sawTilde then
        if (c <? 48) || (c >? 57) then false else shortname_loop n' name' (tail prefix) true
      else if c =? 126 then
        match name' with
        | [] => false
        | d :: name'' =>
            if (d <? 49) || (d >? 57) then false
            else shortname_loop (n' - 1) name'' (tail (tail prefix)) true
        end
      else if (n <=? 2)%nat then false
      else if negb (Z.land c 128 =? 0) then false
      else match prefix with
           | [] => false
           | p :: prefix' => if negb (asciiToLower c =? p) then false else shortname_loop n' name' prefix' false
           end
  end.

Definition IsNTFSDot (name dotgit shortnamePrefix : bytes) : bool :=
  let pattern1 :=
    match name with
    | c :: rest =>
        (len dotgit + 1 <=? len name) && (c =? 46) && EqualFold (take (length dotgit) rest) dotgit
        && onlySpacesAndPeriods (drop (length dotgit) rest)
    | [] => false
    end in
  let pattern2 :=
    (6 <=? len dotgit) && (8 <=? len name) && EqualFold (take 6 name) (take 6 dotgit)
    && match drop 6 name with
       | c :: d :: rest => (c =? 126) && (49 <=? d) && (d <=? 52) && onlySpacesAndPeriods rest
       | _ => false
       end in
  if pattern1 then true
  else if pattern2 then true
  else if (len shortnamePrefix <? 6) || (len name <? 8) then false
  else if shortname_loop 8 name shortnamePrefix false then onlySpacesAndPeriods (drop 8 name)
  else false.

Definition IsNTFSDotGitmodules (part : bytes) : bool := IsNTFSDot part (bs "gitmodules") (bs "gi7eba").
Definition IsNTFSDotGitattributes (part : bytes) : bool := IsNTFSDot part (bs "gitattributes") (bs "gi7d29").
Definition IsNTFSDotGitignore (part : bytes) : bool := IsNTFSDot part (bs "gitignore") (bs "gi250a").
Definition IsNTFSDotMailmap (part : bytes) : bool := IsNTFSDot part (bs "mailmap") (bs "maba30").

(** ** Whole paths ([tree.go], [path_util.go]) *)

Definition isPathSep (r : Z) : bool := (r =? 47) || (r =? 92).

(** [strings.FieldsFunc(p, isPathSep)]: the non-empty runs between separators;
    [cur] is the current run, reversed.  The separators are ASCII, so splitting
    the bytes splits the runes. *)
Fixpoint fields_loop (cur : bytes) (p : bytes) : list bytes :=
  match p with
  | [] => match cur with [] => [] | _ => [reverse cur] end
  | c :: p' =>
      if isPathSep c then
        match cur with [] => fields_loop [] p' | _ => reverse cur :: fields_loop [] p' end
      else fields_loop (c :: cur) p'
  end.

Definition fields (p : bytes) : list bytes := fields_loop [] p.

Definition is_control (c : Z) : bool := (c <? 32) || (c =? 127).

(** The scan of one component: a control character was found, or a dot was. *)
Fixpoint scan_component (part : bytes) (dot : bool) : bool * bool :=
  match part with
  | [] => (false, dot)
  | c :: part' => if is_control c then (true, dot) else scan_component part' (dot || (c =? 46))
  end.

Definition unsafe_component (part : bytes) : bool :=
  let '(ctl, dot) := scan_component part false in
  if ctl then true
  else if negb dot then false
  else IsHFSDot part [] || IsNTFSDot part [] [] || IsHFSDot part (bs ".").

Definition HasUnsafeComponent (name : bytes) : bool := existsb unsafe_component (fields name).

Section tree_path.
(** [filepath.VolumeName], which depends on the platform: empty but on
    Windows. *)
Context (VolumeName : bytes -> bytes).

Definition bad_tree_component (part : bytes) : bool :=
  bool_decide (part = bs ".") || bool_decide (part = bs "..")
  || IsDotGitName part || IsHFSDotGit part || IsNTFSDotGit part.

(** True when no error is returned; every error wraps [ErrInvalidPath]. *)
Definition ValidTreePath (p : bytes) : bool :=
  if existsb is_control p then false
  else
    let parts := fields p in
    if len parts =? 0 then false
    else if negb (bool_decide (VolumeName p = [])) then false
    else negb (existsb bad_tree_component parts).
End tree_path.

Example hfs_zero_width : IsHFSDotGit (bs "." ++ [226; 128; 140] ++ bs "gIt") = true.
Proof. reflexivity. Qed.
Example ntfs_stream : IsNTFSDotGit (bs "GIT~1 .:x") = true.
Proof. reflexivity. Qed.
Example ntfs_shortname : IsNTFSDotGitmodules (bs "gi7eb~12") = true.
Proof. reflexivity. Qed.
Example ntfs_shortname' : IsNTFSDotGitmodules (bs "GI7EBA~9 ") = true.
Proof. reflexivity. Qed.
Example dotted_i : IsDotGitName (bs ".g" ++ [196; 176] ++ bs "t") = true.
Proof. reflexivity. Qed.
Example reserved : isWindowsReservedName (bs "aux.c") = true.
Proof. reflexivity. Qed.

(** ** HFS+: comparison after normalisation *)

Definition visible (r : Z) : Prop := ignored r = false.
#[export] Instance visible_dec r : Decision (visible r).
Proof. unfold visible. apply _. Defined.

(** The name of a component as HFS+ compares it with an ASCII name. *)
Definition hfs_name (c : bytes) : list Z := asciiToLower <$> filter visible (runes c).

Definition lower_ascii (c : Z) : Prop := 0 <= c <= 127 /\ asciiToLower c = c.
#[export] Instance lower_ascii_dec c : Decision (lower_ascii c).
Proof. unfold lower_ascii. apply _. Defined.

Lemma ignored_not_ascii r : r <= 127 -> ignored r = false.
Proof.
  intros Hr. unfold ignored. apply bool_decide_eq_false. unfold hfsIgnoredCodepoints. intros H.
  repeat (apply elem_of_cons in H as [->|H]; [lia|]). by apply not_elem_of_nil in H.
Qed.

Lemma skip_ignored_filter l : filter visible (skip_ignored l) = filter visible l.
Proof.
  induction l as [|r l IH]; [done|]. cbn [skip_ignored]. destruct (ignored r) eqn:Hr; [|done].
  rewrite IH, filter_cons_False; [done|]. unfold visible. by rewrite Hr.
Qed.

Lemma skip_ignored_cases l :
  (skip_ignored l = [] /\ filter visible l = []) \/
  exists r l', skip_ignored l = r :: l' /\ filter visible l = r :: filter visible l'.
Proof.
  induction l as [|r l IH]; [by left|]. cbn [skip_ignored]. destruct (ignored r) eqn:Hr.
  - rewrite filter_cons_False by (unfold visible; by rewrite Hr). done.
  - right. exists r, l. split; [done|]. by rewrite filter_cons_True.
Qed.

Lemma ToLower_rune_ascii r : r <= 127 -> ToLower_rune r = asciiToLower r.
Proof. intros H. unfold ToLower_rune. ztest (r =? 304) false. ztest (r =? 8490) false. done. Qed.

Lemma asciiToLower_big r : 127 < r -> asciiToLower r = r.
Proof. intros H. unfold asciiToLower. ztest (r <=? 90) false. by rewrite andb_false_r. Qed.

Lemma match_needle_spec needle l :
  Forall lower_ascii needle ->
  match match_needle needle l with
  | Some l' => exists k, filter visible l = k ++ filter visible l' /\ asciiToLower <$> k = needle
  | None => forall l', asciiToLower <$> filter visible l <> needle ++ l'
  end.
Proof.
  intros Hn. revert l. induction Hn as [|c needle Hc Hn IH]; intros l; cbn [match_needle]; [by exists []|].
  destruct (skip_ignored_cases l) as [[-> Hl]|(r & l1 & -> & Hl)]; rewrite Hl; [done|].
  rewrite Z.gtb_ltb. destruct Hc as [Hc Hlow]. destruct (Z.ltb_spec 127 r) as [Hr|Hr].
  { rewrite fmap_cons, asciiToLower_big by done. intros l' [= -> _]. lia. }
  rewrite ToLower_rune_ascii by done. destruct (Z.eqb_spec (asciiToLower r) c) as [Heq|Hne]; cbn [negb].
  2:{ rewrite fmap_cons. intros l' [= ? _]. done. }
  specialize (IH l1). destruct (match_needle needle l1) as [l'|].
  - destruct IH as (k & -> & <-). exists (r :: k). rewrite fmap_cons, Heq. done.
  - rewrite fmap_cons. intros l' [= _ H]. by apply (IH l').
Qed.

Lemma IsHFSDot_eq part needle :
  Forall lower_ascii needle -> IsHFSDot part needle = bool_decide (hfs_name part = 46 :: needle).
Proof.
  intros Hn. unfold IsHFSDot, hfs_name.
  destruct (skip_ignored_cases (runes part)) as [[-> ->]|(r & l & -> & ->)]; [done|].
  rewrite fmap_cons. destruct (Z.eqb_spec r 46) as [->|Hr]; cbn [negb].
  2:{ symmetry. apply bool_decide_eq_false. intros [= H _]. revert H. unfold asciiToLower.
      destruct (Z.leb_spec 65 r), (Z.leb_spec r 90); cbn [andb]; lia. }
  change (asciiToLower 46) with 46. pose proof (match_needle_spec needle l Hn) as Hm.
  destruct (match_needle needle l) as [l'|].
  - destruct Hm as (k & -> & <-). apply bool_decide_ext. rewrite fmap_app.
    destruct (skip_ignored_cases l') as [[-> ->]|(x & l1 & -> & ->)].
    + by rewrite app_nil_r.
    + split; [done|]. intros [= H]. apply (f_equal length) in H.
      rewrite length_app in H. cbn [length] in H. lia.
  - symmetry. apply bool_decide_eq_false. intros [= H]. apply (Hm []). by rewrite app_nil_r.
Qed.

(** ** NTFS: comparison after trimming *)

Fixpoint cut_colon (l : bytes) : bytes :=
  match l with [] => [] | c :: l' => if c =? 58 then [] else c :: cut_colon l' end.

Definition trimmed (c : Z) : bool := (c =? 32) || (c =? 46).

Fixpoint trim (l : bytes) : bytes :=
  match l with
  | [] => []
  | c :: l' => match trim l' with [] => if trimmed c then [] else [c] | t => c :: t end
  end.

(** The name NTFS opens for a component: without the stream, the trailing
    spaces and periods. *)
Definition ntfs_name (c : bytes) : bytes := asciiToLower <$> trim (cut_colon c).

Lemma onlySpacesAndPeriods_eq l : onlySpacesAndPeriods l = bool_decide (trim (cut_colon l) = []).
Proof.
  induction l as [|c l IH]; [done|]. cbn [onlySpacesAndPeriods cut_colon].
  destruct (c =? 58); [done|]. cbn [trim]. fold (trimmed c). destruct (trimmed c) eqn:Hc.
  - rewrite IH. by destruct (trim (cut_colon l)).
  - by destruct (trim (cut_colon l)).
Qed.

Lemma ntfs_split l : exists r, l = trim (cut_colon l) ++ r /\ trim (cut_colon r) = [].
Proof.
  induction l as [|c l (r & Hl & Hr)]; [by exists []|]. cbn [cut_colon]. destruct (Z.eqb_spec c 58) as [->|Hc].
  - exists (58 :: l). done.
  - cbn [trim]. destruct (trim (cut_colon l)) as [|d t] eqn:Ht.
    + destruct (trimmed c) eqn:Htc.
      * exists (c :: l). split; [done|]. cbn [cut_colon]. ztest (c =? 58) false. cbn [trim]. by rewrite Ht, Htc.
      * exists l. done.
    + exists r. split; [by rewrite Hl at 1|done].
Qed.

Lemma trim_app a b : trim a = a -> trim b <> [] \/ a <> [] -> trim (a ++ b) = a ++ trim b.
Proof.
  induction a as [|c a IH]; [done|]. intros Ha _. cbn [app trim] in *.
  destruct a as [|d a].
  - cbn [app trim] in *. destruct (trim b); [done|done].
  - assert (trim (d :: a) = d :: a) as Ha'.
    { destruct (trim (d :: a)) as [|x t] eqn:Ht; [|congruence]. destruct (trimmed c); congruence. }
    rewrite IH by (done || by right). done.
Qed.

Lemma cut_colon_app a b : Forall (fun c => c <> 58) a -> cut_colon (a ++ b) = a ++ cut_colon b.
Proof.
  induction 1 as [|c a Hc Ha IH]; [done|]. cbn [app cut_colon]. ztest (c =? 58) false. by rewrite IH.
Qed.

(** A name without colons that is not trimmed, followed by anything. *)
Lemma ntfs_name_app a b :
  Forall (fun c => c <> 58) a -> trim a = a -> a <> [] ->
  ntfs_name (a ++ b) = (asciiToLower <$> a) ++ ntfs_name b.
Proof.
  intros Hc Ht Hne. unfold ntfs_name. rewrite cut_colon_app, trim_app by auto. by rewrite fmap_app.
Qed.

Lemma lower_inv c d : asciiToLower c = d -> c = d \/ (97 <= d <= 122 /\ c = d - 32).
Proof.
  unfold asciiToLower. destruct (Z.leb_spec 65 c), (Z.leb_spec c 90); cbn [andb]; lia.
Qed.

(** The five spellings of a byte of the names, up to case. *)
Lemma lower_small c d : asciiToLower c = d -> d < 97 -> c = d.
Proof. intros H Hd. destruct (lower_inv c d H); [done|lia]. Qed.

Definition git_alias (n : bytes) : Prop := n = bs ".git" \/ n = bs "git~1".

(** The trimmed part of a component decides. *)
Lemma IsNTFSDotGit_split t r :
  trim (cut_colon r) = [] -> git_alias (asciiToLower <$> t) -> IsNTFSDotGit (t ++ r) = true.
Proof.
  intros Hr Hg. assert (onlySpacesAndPeriods r = true) as Ho
    by (rewrite onlySpacesAndPeriods_eq; by apply bool_decide_eq_true).
  destruct Hg as [Hg|Hg].
  - destruct t as [|c0 [|c1 [|c2 [|c3 [|]]]]]; try discriminate Hg.
    change (bs ".git") with [46; 103; 105; 116] in Hg. injection Hg as H0 H1 H2 H3.
    apply lower_small in H0 as ->; [|lia]. cbn [app IsNTFSDotGit]. rewrite H1, H2, H3. exact Ho.
  - destruct t as [|c0 [|c1 [|c2 [|c3 [|c4 [|]]]]]]; try discriminate Hg.
    change (bs "git~1") with [103; 105; 116; 126; 49] in Hg. injection Hg as H0 H1 H2 H3 H4.
    assert (c3 = 126) as -> by (destruct (lower_inv _ _ H3); lia).
    apply lower_small in H4 as ->; [|lia]. cbn [app IsNTFSDotGit].
    assert ((c0 =? 46) = false) as -> by (apply Z.eqb_neq; destruct (lower_inv _ _ H0); lia).
    cbn [andb]. rewrite H0, H1, H2. exact Ho.
Qed.

Lemma trimmed_false c : c <> 32 -> c <> 46 -> trimmed c = false.
Proof. intros H1 H2. unfold trimmed. ztest (c =? 32) false. ztest (c =? 46) false. done. Qed.

Lemma trim_last a c : trimmed c = false -> trim (a ++ [c]) = a ++ [c].
Proof.
  intros Hc. induction a as [|x a IH]; cbn [app trim]; [by rewrite Hc|]. rewrite IH. by destruct a.
Qed.

(** A name followed by spaces and periods, and perhaps a stream. *)
Lemma ntfs_name_tail a c r :
  Forall (fun c => c <> 58) (a ++ [c]) -> trimmed c = false -> onlySpacesAndPeriods r = true ->
  ntfs_name ((a ++ [c]) ++ r) = asciiToLower <$> (a ++ [c]).
Proof.
  intros Hcol Hc Hr. rewrite onlySpacesAndPeriods_eq, bool_decide_eq_true in Hr.
  rewrite ntfs_name_app; [|done|by apply trim_last|by destruct a].
  unfold ntfs_name at 1. rewrite Hr. by rewrite app_nil_r.
Qed.

Lemma lower_not_colon c d : asciiToLower c = d -> d <> 58 -> c <> 58.
Proof. intros H Hd ->. by rewrite <-H in Hd. Qed.

Lemma IsNTFSDotGit_iff part : IsNTFSDotGit part = true <-> git_alias (ntfs_name part).
Proof.
  split.
  - unfold git_alias. destruct part as [|c0 [|c1 [|c2 [|c3 rest]]]]; try discriminate. cbn [IsNTFSDotGit].
    destruct ((c0 =? 46) && _ && _ && _) eqn:H1.
    + intros Hr. zbool. subst c0. left. change (46 :: c1 :: c2 :: c3 :: rest) with (([46; c1; c2] ++ [c3]) ++ rest).
      rewrite ntfs_name_tail.
      * cbn [app]. rewrite !fmap_cons. by repeat match goal with H : asciiToLower _ = _ |- _ => rewrite H; clear H end.
      * cbn. repeat constructor; [done|eapply lower_not_colon; [done|lia]..].
      * apply trimmed_false; intros ->; discriminate.
      * done.
    + destruct rest as [|c4 rest]; [done|]. destruct (_ && (c4 =? 49)) eqn:H2; [|done]. intros Hr. zbool. subst c3 c4.
      right. change (c0 :: c1 :: c2 :: 126 :: 49 :: rest) with (([c0; c1; c2; 126] ++ [49]) ++ rest).
      rewrite ntfs_name_tail.
      * cbn [app]. rewrite !fmap_cons. by repeat match goal with H : asciiToLower _ = _ |- _ => rewrite H; clear H end.
      * cbn. repeat constructor; try done; eapply lower_not_colon; (done || lia).
      * done.
      * done.
  - intros Hg. destruct (ntfs_split part) as (r & Hp & Hr). rewrite Hp. by apply IsNTFSDotGit_split.
Qed.

(** ** Splitting paths *)

Definition no_sep (c : bytes) : Prop := Forall (fun x => isPathSep x = false) c.

Lemma fields_loop_word w cur p :
  no_sep w -> fields_loop cur (w ++ p) = fields_loop (reverse w ++ cur) p.
Proof.
  intros Hw. revert cur. induction Hw as [|x w Hx Hw IH]; intros cur; [done|].
  cbn [app fields_loop]. rewrite Hx, IH, reverse_cons, <-app_assoc. done.
Qed.

(** A single component. *)
Lemma fields_single w : no_sep w -> w <> [] -> fields w = [w].
Proof.
  intros Hw Hne. unfold fields. rewrite <-(app_nil_r w) at 1. rewrite fields_loop_word by done.
  rewrite app_nil_r. cbn. destruct (reverse w) eqn:Hr; [|by rewrite <-Hr, reverse_involutive].
  by apply (f_equal reverse) in Hr; rewrite reverse_involutive in Hr.
Qed.

(** The first component of a path. *)
Lemma fields_cons w x p :
  no_sep w -> w <> [] -> isPathSep x = true -> fields (w ++ x :: p) = w :: fields p.
Proof.
  intros Hw Hne Hx. unfold fields. rewrite fields_loop_word by done. rewrite app_nil_r. cbn [fields_loop].
  rewrite Hx. destruct (reverse w) eqn:Hr; [|by rewrite <-Hr, reverse_involutive].
  by apply (f_equal reverse) in Hr; rewrite reverse_involutive in Hr.
Qed.

Lemma fields_sep x p : isPathSep x = true -> fields (x :: p) = fields p.
Proof. intros Hx. unfold fields. cbn. by rewrite Hx. Qed.

Lemma reverse_not_nil {A} (x : A) l : reverse (x :: l) <> [].
Proof. intros H. apply (f_equal length) in H. by rewrite length_reverse in H. Qed.

Lemma fields_loop_no_sep cur p c : no_sep cur -> c ∈ fields_loop cur p -> no_sep c /\ c <> [].
Proof.
  revert cur. induction p as [|x p IH]; intros cur Hcur Hc; cbn [fields_loop] in Hc.
  - destruct cur as [|y cur]; [by apply not_elem_of_nil in Hc|]. apply list_elem_of_singleton in Hc as ->.
    split; [by apply Forall_reverse|apply reverse_not_nil].
  - destruct (isPathSep x) eqn:Hx; [|apply (IH (x :: cur)); [by constructor|done]].
    destruct cur as [|y cur]; [by apply (IH [])|].
    apply elem_of_cons in Hc as [->|Hc]; [|apply (IH []); [constructor|done]].
    split; [by apply Forall_reverse|apply reverse_not_nil].
Qed.

(** Components are non-empty and hold no separator. *)
Lemma fields_no_sep p c : c ∈ fields p -> no_sep c /\ c <> [].
Proof. apply fields_loop_no_sep. constructor. Qed.

Lemma existsb_false {A} (f : A -> bool) l : existsb f l = false <-> forall x, x ∈ l -> f x = false.
Proof.
  rewrite <-not_true_iff_false, existsb_exists. split.
  - intros H x Hx. apply not_true_is_false. intros Hf. apply H. exists x. split; [by apply list_elem_of_In|done].
  - intros H (x & Hx & Hf). apply list_elem_of_In, H in Hx. congruence.
Qed.

Lemma existsb_true {A} (f : A -> bool) l : existsb f l = true <-> exists x, x ∈ l /\ f x = true.
Proof. rewrite existsb_exists. by setoid_rewrite list_elem_of_In. Qed.

(** What a checked-out component must not be. *)
Record safe_component (c : bytes) : Prop := {
  s_dots : c <> bs "." /\ c <> bs "..";
  s_git : ToLower_rune <$> runes c <> bs ".git" /\ ToLower_rune <$> runes c <> bs "git~1";
  s_hfs : hfs_name c <> bs ".git";
  s_ntfs : ~ git_alias (ntfs_name c);
}.

Lemma bad_tree_component_false c : bad_tree_component c = false <-> safe_component c.
Proof.
  unfold bad_tree_component, IsHFSDotGit, IsDotGitName.
  rewrite IsHFSDot_eq by (apply (bool_decide_unpack _); vm_compute; exact I).
  rewrite !orb_false_iff, !bool_decide_eq_false, <-not_true_iff_false, IsNTFSDotGit_iff.
  change (46 :: bs "git") with (bs ".git"). split.
  - intros ((((? & ?) & ? & ?) & ?) & ?). by constructor.
  - intros [[? ?] [? ?] ? ?]. done.
Qed.

(** C36: the paths [ValidTreePath] accepts.  No error is returned exactly when
    the path holds no control character, has no volume name and at least one
    component, and no component, between slashes or backslashes, is "." or
    "..", is [.git] or [git~1] in any case, or is a name that HFS+ (after
    dropping ignored code points and folding case) or NTFS (after cutting the
    stream and trailing spaces and periods) resolves to [.git]. *)
Theorem ValidTreePath_iff VolumeName p :
  ValidTreePath VolumeName p = true <->
  Forall (fun c => 32 <= c /\ c <> 127) p /\ VolumeName p = [] /\ fields p <> []
  /\ forall c, c ∈ fields p -> safe_component c.
Proof.
  unfold ValidTreePath.
  assert (existsb is_control p = false <-> Forall (fun c => 32 <= c /\ c <> 127) p) as Hctl.
  { rewrite existsb_false, Forall_forall. split; intros H c Hc; specialize (H c Hc); revert H; unfold is_control.
    - rewrite orb_false_iff. intros [? ?]. zbool. done.
    - intros [? ?]. ztest (c <? 32) false. ztest (c =? 127) false. done. }
  destruct (existsb is_control p).
  { split; [done|]. intros [H%Hctl _]. done. }
  assert ((len (fields p) =? 0) = bool_decide (fields p = [])) as ->.
  { destruct (fields p) as [|w ws]; [done|]. rewrite len_cons, bool_decide_eq_false_2 by done.
    apply Z.eqb_neq. pose proof (len_nonneg ws). lia. }
  case_bool_decide as Hf; [split; [done|]; intros (_ & _ & H & _); done|].
  case_bool_decide as Hv; cbn [negb]; [|split; [done|]; intros (_ & H & _); done].
  rewrite negb_true_iff, existsb_false. setoid_rewrite bad_tree_component_false.
  split; [intros H; split; [by apply Hctl|done]|by intros (_ & _ & _ & H)].
Qed.

(** ** Unsafe components of references *)

Lemma lor_ge_l x y : 0 <= y -> x <= Z.lor x y.
Proof.
  intros Hy. assert (Z.lor x y = x + Z.ldiff y x) as ->.
  - rewrite Z.add_nocarry_lxor; apply Z.bits_inj'; intros n Hn;
      rewrite ?Z.land_spec, ?Z.lor_spec, ?Z.lxor_spec, ?Z.ldiff_spec, ?Z.bits_0;
      by destruct (Z.testbit x n), (Z.testbit y n).
  - pose proof (proj2 (Z.ldiff_nonneg y x)). lia.
Qed.

Lemma lor_ge_r x y : 0 <= x -> y <= Z.lor x y.
Proof. intros Hx. rewrite Z.lor_comm. by apply lor_ge_l. Qed.

Lemma rune2_big a b : 194 <= a <= 223 -> 128 <= rune2 a b.
Proof.
  intros Ha. unfold rune2. etrans; [|apply lor_ge_l; apply Z.land_nonneg; lia].
  change 31 with (2 ^ 5 - 1). rewrite land_low_mask, Z.shiftl_mul_pow2 by lia. lia.
Qed.

Lemma in_range_true lo hi c : in_range lo hi c = true <-> lo <= c <= hi.
Proof. unfold in_range. rewrite andb_true_iff, !Z.leb_le. done. Qed.

Lemma rune3_big a b c : in_range 224 239 a = true -> second3 a b = true -> 128 <= rune3 a b c.
Proof.
  intros Ha%in_range_true Hb. unfold rune3. etrans; [|apply lor_ge_l; apply Z.land_nonneg; lia].
  unfold second3 in Hb. change 15 with (2 ^ 4 - 1). change 63 with (2 ^ 6 - 1).
  rewrite !land_low_mask, !Z.shiftl_mul_pow2 by lia.
  destruct (Z.eqb_spec a 224) as [->|Hne].
  - apply in_range_true in Hb. etrans; [|apply lor_ge_r; lia]. lia.
  - etrans; [|apply lor_ge_l; lia]. lia.
Qed.

Lemma rune4_big a b c d : in_range 240 244 a = true -> second4 a b = true -> 128 <= rune4 a b c d.
Proof.
  intros Ha%in_range_true Hb. unfold rune4. etrans; [|apply lor_ge_l; apply Z.land_nonneg; lia].
  etrans; [|apply lor_ge_l; apply Z.shiftl_nonneg; apply Z.land_nonneg; lia].
  unfold second4 in Hb. change 7 with (2 ^ 3 - 1). change 63 with (2 ^ 6 - 1).
  rewrite !land_low_mask, !Z.shiftl_mul_pow2 by lia.
  destruct (Z.eqb_spec a 240) as [->|Hne].
  - apply in_range_true in Hb. etrans; [|apply lor_ge_r; lia]. lia.
  - etrans; [|apply lor_ge_l; lia]. lia.
Qed.

(** An ASCII rune is a byte of the string. *)
Lemma runes_ascii s r : r ∈ runes s -> r < 128 -> r ∈ s.
Proof.
  remember (length s) as n eqn:Hn. revert s Hn.
  induction (lt_wf n) as [n _ IH]. intros s -> Hr Hlt.
  assert (forall s', (length s' < length s)%nat -> r ∈ runes s' -> r ∈ s') as IH'
    by (intros s' Hs' Hr'; by apply (IH (length s'))). clear IH.
  destruct s as [|a s1]; [done|]. cbn [runes] in Hr. cbn [length] in IH'.
  assert (r ∈ RuneError :: runes s1 -> r ∈ a :: s1) as Herr.
  { intros [->|H]%elem_of_cons; [unfold RuneError in Hlt; lia|]. right. apply IH'; [lia|done]. }
  destruct (Z.ltb_spec a 128) as [Ha|Ha].
  { apply elem_of_cons in Hr as [->|Hr]; [by left|]. right. apply IH'; [lia|done]. }
  destruct (in_range 194 223 a) eqn:H2.
  { destruct s1 as [|b s2]; [by apply Herr|]. cbn [length] in IH'. destruct (cont b); [|by apply Herr].
    apply in_range_true in H2. pose proof (rune2_big a b H2).
    apply elem_of_cons in Hr as [->|Hr]; [lia|]. do 2 right. apply IH'; [lia|done]. }
  destruct (in_range 224 239 a) eqn:H3.
  { destruct s1 as [|b [|c s3]]; [by apply Herr|by apply Herr|]. cbn [length] in IH'.
    destruct (second3 a b && cont c) eqn:Hc; [|by apply Herr]. apply andb_prop in Hc as [Hc _].
    pose proof (rune3_big a b c H3 Hc).
    apply elem_of_cons in Hr as [->|Hr]; [lia|]. do 3 right. apply IH'; [lia|done]. }
  destruct (in_range 240 244 a) eqn:H4; [|by apply Herr].
  destruct s1 as [|b [|c [|d s4]]]; [by apply Herr..|]. cbn [length] in IH'.
  destruct (second4 a b && cont c && cont d) eqn:Hc; [|by apply Herr].
  apply andb_prop in Hc as [Hc _]. apply andb_prop in Hc as [Hc _].
  pose proof (rune4_big a b c d H4 Hc).
  apply elem_of_cons in Hr as [->|Hr]; [lia|]. do 4 right. apply IH'; [lia|done].
Qed.

Lemma hfs_dot_has_dot part needle : hfs_name part = 46 :: needle -> 46 ∈ part.
Proof.
  intros H. apply runes_ascii; [|lia]. unfold hfs_name in H.
  destruct (filter visible (runes part)) as [|r l] eqn:Hf; [done|]. rewrite fmap_cons in H.
  injection H as Hr _. apply lower_small in Hr as ->; [|lia].
  assert (46 ∈ filter visible (runes part)) as Hin by (rewrite Hf; by left).
  by apply list_elem_of_filter in Hin as [_ Hin].
Qed.

Lemma scan_component_spec part dot :
  scan_component part dot =
    if existsb is_control part then (true, (scan_component part dot).2)
    else (false, dot || bool_decide (46 ∈ part)).
Proof.
  revert dot. induction part as [|c part IH]; intros dot; cbn [scan_component existsb].
  - rewrite bool_decide_eq_false_2 by apply not_elem_of_nil. by rewrite orb_false_r.
  - destruct (is_control c); cbn [orb]; [done|]. rewrite IH at 1. destruct (existsb is_control part); [done|].
    f_equal. destruct (Z.eqb_spec c 46) as [->|Hc].
    + rewrite orb_true_r, (bool_decide_eq_true_2 (46 ∈ 46 :: part)) by (by left). by rewrite orb_true_r.
    + rewrite orb_false_r. f_equal. apply bool_decide_ext. rewrite elem_of_cons. split; [by right|].
      intros [H|H]; [congruence|done].
Qed.

(** A component that NTFS trims down to its first period. *)
Definition ntfs_dots (part : bytes) : Prop := exists rest, part = 46 :: rest /\ trim (cut_colon rest) = [].

Lemma IsNTFSDot_empty part : IsNTFSDot part [] [] = true <-> ntfs_dots part.
Proof.
  unfold IsNTFSDot, ntfs_dots. change (6 <=? len (@nil Z)) with false. change (len (@nil Z) <? 6) with true.
  cbn [andb orb]. destruct part as [|c rest]; [split; [done|]; by intros (? & ? & _)|].
  rewrite len_cons. pose proof (len_nonneg rest). change (len (@nil Z)) with 0. ztest (0 + 1 <=? 1 + len rest) true.
  cbn [length take drop]. rewrite onlySpacesAndPeriods_eq. cbn [andb].
  change (EqualFold [] []) with true. rewrite andb_true_r. destruct (Z.eqb_spec c 46) as [->|Hc]; cbn [andb].
  - case_bool_decide as Ht; [split; [eauto|done]|]. split; [done|]. intros (r & [= <-] & Hr). done.
  - split; [done|]. by intros (r & [= ?] & _).
Qed.

(** The fourth needle combination would add nothing. *)
Lemma IsNTFSDot_dot part : IsNTFSDot part (bs ".") [] = true -> ntfs_dots part.
Proof.
  unfold IsNTFSDot, ntfs_dots. change (6 <=? len (bs ".")) with false. change (len (@nil Z) <? 6) with true.
  cbn [andb orb]. destruct part as [|c rest]; [done|]. change (length (bs ".")) with 1%nat.
  destruct rest as [|d rest].
  { rewrite len_cons. change (len (bs ".") + 1 <=? 1 + len []) with false. done. }
  destruct (_ && onlySpacesAndPeriods (drop 1 (d :: rest))) eqn:H; [|done]. intros _. zbool. subst c.
  exists (d :: rest). split; [done|].
  match goal with H : EqualFold _ _ = true |- _ => apply bool_decide_eq_true in H; cbn in H; injection H as Hd end.
  apply lower_small in Hd as ->; [|done].
  match goal with H : onlySpacesAndPeriods _ = true |- _ =>
    rewrite onlySpacesAndPeriods_eq in H; apply bool_decide_eq_true in H; cbn [drop] in H; rename H into Ht end.
  rewrite drop_0 in Ht. change (trim (46 :: cut_colon rest) = []). cbn [trim]. by rewrite Ht.
Qed.

(** What [HasUnsafeComponent] finds.  It is true exactly when a component
    of the name, between slashes or backslashes, holds a control character or
    is resolved by HFS+ to "." or "..", or by NTFS to periods and spaces after
    a leading period; skipping the checks when no dot was seen, and the fourth
    combination of needles, loses nothing. *)
Theorem HasUnsafeComponent_iff name :
  HasUnsafeComponent name = true <->
  exists c, c ∈ fields name /\
    ((exists x, x ∈ c /\ is_control x = true) \/ hfs_name c = bs "." \/ hfs_name c = bs ".."
     \/ ntfs_dots c \/ IsNTFSDot c (bs ".") [] = true).
Proof.
  unfold HasUnsafeComponent. rewrite existsb_true. f_equiv. intros c. f_equiv.
  unfold unsafe_component. rewrite scan_component_spec, <-existsb_true.
  destruct (existsb is_control c); [split; [by left|done]|]. cbn [orb].
  rewrite !IsHFSDot_eq by (apply (bool_decide_unpack _); vm_compute; exact I).
  change (46 :: bs ".") with (bs ".."). change ([46]) with (bs ".").
  assert (hfs_name c = bs "." \/ hfs_name c = bs ".." \/ ntfs_dots c \/ IsNTFSDot c (bs ".") [] = true ->
    46 ∈ c) as Hdot.
  { intros [H|[H|[H|H]]]; [exact (hfs_dot_has_dot c [] H)|exact (hfs_dot_has_dot c [46] H)| |];
      [|apply IsNTFSDot_dot in H]; destruct H as (r & -> & _); by left. }
  case_bool_decide as Hin; cbn [negb].
  - rewrite !orb_true_iff, !bool_decide_eq_true, IsNTFSDot_empty. pose proof (IsNTFSDot_dot c).
    intuition discriminate.
  - split; [done|]. intros [H|H]; [done|]. by apply Hdot in H.
Qed.

(** ** Device names *)

(** The device name [n] in any case, then nothing, a space, a period or a
    colon. *)
Definition names_device (part n : bytes) : Prop :=
  exists m rest, part = m ++ rest /\ asciiToLower <$> m = asciiToLower <$> n
    /\ (rest = [] \/ exists c rest', rest = c :: rest' /\ c ∈ bs " .:").

Lemma reserved_as_iff part n : reserved_as part n = true <-> names_device part n.
Proof.
  unfold reserved_as, EqualFold, names_device. split.
  - destruct (len part <? len n); [done|]. case_bool_decide as Hf; [|done]. cbn [negb].
    intros Hd. exists (take (length n) part), (drop (length n) part). rewrite take_drop. split; [done|].
    split; [done|]. destruct (drop (length n) part) as [|c l]; [by left|right]. exists c, l. split; [done|].
    rewrite !orb_true_iff, !Z.eqb_eq in Hd.
    destruct Hd as [[-> | ->]| ->]; apply (bool_decide_unpack _); vm_compute; exact I.
  - intros (m & rest & -> & Hm & Hr). assert (length m = length n) as Hl
      by (apply (f_equal length) in Hm; by rewrite !length_fmap in Hm).
    assert (len m = len n) as Hl' by (unfold len; lia). rewrite len_app. pose proof (len_nonneg rest).
    replace (len m + len rest <? len n) with false by (symmetry; apply Z.ltb_ge; lia).
    rewrite <-Hl, take_app_length, drop_app_length, bool_decide_eq_true_2 by done. cbn [negb].
    destruct Hr as [->|(c & r & -> & Hc)]; [done|]. cbn in Hc.
    repeat (apply elem_of_cons in Hc as [->|Hc]; [done|]). by apply not_elem_of_nil in Hc.
Qed.

(** The reserved names of Windows.  A component is accepted exactly when it
    is not a device name, in any case, followed by nothing, a space, a period
    or a colon, and not a disguise of [.git]: a name that NTFS resolves to
    [.git] or [git~1] without being one of them, in any case. *)
Theorem WindowsValidPath_iff part :
  WindowsValidPath part = true <->
  (git_alias (ntfs_name part) -> git_alias (ToLower_rune <$> runes part))
  /\ forall n, n ∈ windowsReservedNames -> ~ names_device part n.
Proof.
  unfold WindowsValidPath, isWindowsReservedName.
  assert (existsb (reserved_as part) windowsReservedNames = false <->
    forall n, n ∈ windowsReservedNames -> ~ names_device part n) as Hall.
  { rewrite existsb_false. setoid_rewrite <-reserved_as_iff. by setoid_rewrite not_true_iff_false. }
  assert (IsNTFSDotGit part && negb (IsDotGitName part) = true <->
    git_alias (ntfs_name part) /\ ~ git_alias (ToLower_rune <$> runes part)) as Hgit.
  { rewrite andb_true_iff, IsNTFSDotGit_iff, negb_true_iff. unfold IsDotGitName, git_alias.
    rewrite orb_false_iff, !bool_decide_eq_false. tauto. }
  destruct (IsNTFSDotGit part && negb (IsDotGitName part)).
  - split; [done|]. intros [H _]. apply Hgit in H as []; tauto || done.
  - rewrite negb_true_iff, Hall. split; [|by intros [_ H]]. intros H. split; [|done]. intros H1.
    assert (Decision (git_alias (ToLower_rune <$> runes part))) as Hd by (unfold git_alias; apply _).
    destruct Hd as [|Hn]; [done|]. discriminate (proj2 Hgit (conj H1 Hn)).
Qed.

(** ** NTFS spellings of the other dot files *)

(** The short names of the fallback: up to six bytes of the prefix, a tilde and
    a number, eight bytes in all. *)
Definition is_digit (c : Z) : Prop := 48 <= c <= 57.
Definition fallback_name (prefix n : bytes) : Prop :=
  exists k d ds, (k <= 6)%nat /\ n = take k prefix ++ 126 :: d :: ds /\ 49 <= d <= 57
    /\ Forall is_digit ds /\ length n = 8%nat.

Lemma digits_loop n name prefix :
  (n <= length name)%nat -> shortname_loop n name prefix true = true <-> Forall is_digit (take n name).
Proof.
  revert name prefix. induction n as [|n IH]; intros name prefix Hn; cbn [shortname_loop take].
  - split; [constructor|done].
  - destruct name as [|c name]; [simpl in Hn; lia|]. cbn [take]. rewrite Forall_cons, Z.gtb_ltb.
    unfold is_digit at 1.
    destruct (Z.ltb_spec c 48), (Z.ltb_spec 57 c); cbn [orb]; try (split; [done|lia]).
    rewrite IH by (simpl in Hn; lia). split; [intros; split; [lia|done]|by intros []].
Qed.

Definition needle_char (c : Z) : Prop := lower_ascii c /\ c <> 58 /\ c <> 126 /\ c <> 32 /\ c <> 46.
#[export] Instance needle_char_dec c : Decision (needle_char c).
Proof. unfold needle_char. apply _. Defined.

Lemma ascii_land_128 c : 0 <= c <= 127 -> Z.land c 128 = 0.
Proof.
  intros Hc. change 128 with (Z.shiftl 1 7). rewrite land_disjoint by lia. done.
Qed.

Lemma lower_range c p : asciiToLower c = p -> 0 <= p <= 127 -> 0 <= c <= 127.
Proof. intros H Hp. destruct (lower_inv c p H) as [->|[? ->]]; lia. Qed.

(** The tail of a short name, the part of the prefix [p] still unread. *)
Definition short_tail (p n : bytes) : Prop :=
  exists k d ds, (k <= length p)%nat /\ n = take k p ++ 126 :: d :: ds /\ 49 <= d <= 57
    /\ Forall is_digit ds /\ length n = (2 + length p)%nat.

Lemma lower_digits l ds : asciiToLower <$> l = ds -> Forall (fun d => d < 97) ds -> l = ds.
Proof.
  intros <-. induction l as [|c l IH]; [done|]. rewrite fmap_cons. intros [Hc Hl]%Forall_cons.
  f_equal; [|by apply IH]. by apply lower_small.
Qed.

Lemma lower_digits_id l : Forall (fun c => c < 65 \/ 90 < c) l -> asciiToLower <$> l = l.
Proof.
  induction 1 as [|c l Hc Hl IH]; [done|]. rewrite fmap_cons, IH. f_equal.
  unfold asciiToLower. destruct (Z.leb_spec 65 c), (Z.leb_spec c 90); cbn [andb]; lia.
Qed.

(** After the tilde. *)
Lemma short_tail_tilde p name :
  Forall needle_char p -> (1 + length p <= length name)%nat ->
  shortname_loop (2 + length p) (126 :: name) p false = true <->
  exists t r, 126 :: name = t ++ r /\ short_tail p (asciiToLower <$> t).
Proof.
  intros Hp Hn. cbn [shortname_loop Nat.add]. change (126 =? 126) with true. cbn iota.
  destruct name as [|d name]; [simpl in Hn; lia|]. rewrite Z.gtb_ltb. cbn [length] in Hn.
  replace (S (length p) - 1)%nat with (length p) by lia. split.
  - destruct (Z.ltb_spec d 49), (Z.ltb_spec 57 d); cbn [orb]; try done. rewrite digits_loop by lia. intros Hds.
    exists (126 :: d :: take (length p) name), (drop (length p) name).
    cbn [app]. rewrite take_drop. split; [done|]. exists 0%nat, d, (take (length p) name).
    rewrite lower_digits_id.
    + split; [lia|]. split; [done|]. split; [lia|]. split; [done|]. cbn [length]. rewrite length_take. lia.
    + constructor; [lia|]. constructor; [lia|]. eapply Forall_impl; [exact Hds|]. unfold is_digit. lia.
  - intros (t & r & Heq & (k & d' & ds & Hk & Ht & Hd & Hds & Hlen)).
    destruct t as [|x t]; [by destruct (take k p)|]. injection Heq as <- Heq. rewrite fmap_cons in Ht.
    destruct k as [|k].
    2:{ destruct p as [|y p]; [simpl in Hk; lia|]. injection Ht as Hy _.
        apply Forall_cons in Hp as [(_ & _ & Hy' & _) _]. done. }
    injection Ht as Ht. apply lower_digits in Ht as ->.
    2:{ constructor; [lia|]. eapply Forall_impl; [exact Hds|]. unfold is_digit. lia. }
    injection Heq as <- ->. ztest (d <? 49) false. ztest (57 <? d) false. cbn [orb].
    rewrite !fmap_cons in Hlen. cbn [length] in Hlen. rewrite length_fmap in Hlen. injection Hlen as Hlen.
    apply digits_loop; [rewrite length_app; lia|]. by rewrite <-Hlen, take_app_length.
Qed.

Lemma shortname_loop_step n c name x p :
  c <> 126 -> (2 <= n)%nat ->
  shortname_loop (S n) (c :: name) (x :: p) false =
    if negb (Z.land c 128 =? 0) then false
    else if negb (asciiToLower c =? x) then false else shortname_loop n name p false.
Proof.
  intros Hc Hn. cbn [shortname_loop]. ztest (c =? 126) false.
  by replace (S n <=? 2)%nat with false by (symmetry; apply Nat.leb_gt; lia).
Qed.

Lemma shortname_spec p name :
  Forall needle_char p -> (2 + length p <= length name)%nat ->
  shortname_loop (2 + length p) name p false = true <->
  exists t r, name = t ++ r /\ short_tail p (asciiToLower <$> t).
Proof.
  revert name. induction p as [|x p IH]; intros name Hp Hn; (destruct name as [|c name]; [simpl in Hn; lia|]);
    (destruct (Z.eq_dec c 126) as [->|Hc]; [apply short_tail_tilde; [done|simpl in *; lia]|]).
  - cbn [length Nat.add shortname_loop]. ztest (c =? 126) false. change (2 <=? 2)%nat with true. cbn iota.
    split; [done|]. intros (t & r & Heq & (k & d & ds & Hk & Ht & _)).
    destruct k; [|simpl in Hk; lia]. destruct t as [|y t]; [done|]. injection Heq as <- _.
    injection Ht as Ht _. destruct (lower_inv _ _ Ht); lia.
  - apply Forall_cons in Hp as [Hx Hp].
    change (2 + length (x :: p))%nat with (S (2 + length p)). rewrite shortname_loop_step by (done || lia).
    assert (asciiToLower c <> x -> ~ exists t r, c :: name = t ++ r /\ short_tail (x :: p) (asciiToLower <$> t)) as Hno.
    { intros Hne (t & r & Heq & (k & d & ds & Hk & Ht & _)).
      destruct t as [|y t]; [by destruct k|]. injection Heq as <- _. rewrite fmap_cons in Ht.
      destruct k as [|k]; injection Ht as Ht _; [|done]. destruct (lower_inv _ _ Ht); lia. }
    destruct (Z.eq_dec (asciiToLower c) x) as [Heq|Hne].
    + rewrite ascii_land_128 by (eapply lower_range; [done|apply Hx]). cbn [Z.eqb negb].
      rewrite Heq, Z.eqb_refl. cbn [negb].
      rewrite IH by (done || (simpl in *; lia)). split.
      * intros (t & r & -> & (k & d & ds & Hk & Ht & Hd & Hds & Hlen)). exists (c :: t), r. split; [done|].
        exists (S k), d, ds. rewrite fmap_cons, Ht, Heq in *. cbn [length take app] in *. split; [lia|].
        split; [done|]. split; [done|]. split; [done|]. lia.
      * intros (t & r & Heq' & (k & d & ds & Hk & Ht & Hd & Hds & Hlen)).
        destruct t as [|y t]; [by destruct k|]. injection Heq' as <- ->. rewrite fmap_cons in Ht, Hlen.
        destruct k as [|k]; injection Ht as Ht1 Ht; [destruct (lower_inv _ _ Ht1); lia|].
        exists t, r. split; [done|]. exists k, d, ds. cbn [length] in *. split; [lia|]. split; [done|].
        split; [done|]. split; [done|]. lia.
    + destruct (negb (Z.land c 128 =? 0)); [split; [done|]; intros H; by apply Hno in H|].
      ztest (asciiToLower c =? x) false. split; [done|]. intros H. by apply Hno in H.
Qed.

(** A component that starts, in any case, with a name of [f], followed by
    spaces and periods and perhaps a stream. *)
Definition spelled (f : bytes -> Prop) (name : bytes) : Prop :=
  exists t r, name = t ++ r /\ onlySpacesAndPeriods r = true /\ f (asciiToLower <$> t).

Definition solid (n : bytes) : Prop :=
  Forall (fun c => c <> 58) n /\ exists a c, n = a ++ [c] /\ trimmed c = false.

Lemma spelled_iff f name : (forall n, f n -> solid n) -> spelled f name <-> f (ntfs_name name).
Proof.
  intros Hf. split.
  - intros (t & r & -> & Hr & Ht). destruct (Hf _ Ht) as [Hcol (a & c & Ha & Hc)].
    destruct t as [|x t _] using rev_ind; [by destruct a|].
    rewrite fmap_app in Ha. apply app_inj_tail in Ha as [_ <-].
    rewrite ntfs_name_tail; [done| | |done].
    + rewrite Forall_fmap in Hcol. eapply Forall_impl; [exact Hcol|]. cbn. by intros y Hy ->.
    + apply trimmed_false; intros ->; discriminate.
  - intros H. destruct (ntfs_split name) as (r & Hn & Hr). exists (trim (cut_colon name)), r.
    split; [done|]. split; [|done]. rewrite onlySpacesAndPeriods_eq. by apply bool_decide_eq_true.
Qed.

Definition long_needle (n : bytes) : Prop := Forall needle_char n /\ (6 <= length n)%nat.

Lemma needle_solid n : Forall needle_char n -> n <> [] -> solid n.
Proof.
  intros Hn Hne. split.
  - eapply Forall_impl; [exact Hn|]. intros c (_ & H & _). done.
  - destruct n as [|c n _] using rev_ind; [done|]. exists n, c. split; [done|].
    apply Forall_app in Hn as [_ Hn]. apply Forall_cons in Hn as [(_ & _ & _ & H1 & H2) _].
    by apply trimmed_false.
Qed.

Lemma solid_app a b : Forall (fun c => c <> 58) a -> solid b -> solid (a ++ b).
Proof.
  intros Ha [Hb (x & c & -> & Hc)]. split; [by apply Forall_app|]. exists (a ++ x), c. by rewrite app_assoc.
Qed.

Lemma needle_no_colon n : Forall needle_char n -> Forall (fun c => c <> 58) n.
Proof. intros H. eapply Forall_impl; [exact H|]. intros c (_ & Hc & _). done. Qed.

Lemma digit_solid ds : ds <> [] -> Forall (fun c => 48 <= c /\ c <> 58) ds -> solid ds.
Proof.
  intros Hne H. split; [eapply Forall_impl; [exact H|]; by intros c []|].
  destruct ds as [|c ds _] using rev_ind; [done|]. exists ds, c. split; [done|].
  apply Forall_app in H as [_ H]. apply Forall_cons in H as [H _]. apply trimmed_false; lia.
Qed.

Lemma lower_needle n : Forall needle_char n -> asciiToLower <$> n = n.
Proof.
  induction 1 as [|c n ([_ Hc] & _) Hn IH]; [done|]. by rewrite fmap_cons, IH, Hc.
Qed.

Lemma pattern1_iff name dotgit :
  Forall needle_char dotgit ->
  (match name with
   | c :: rest =>
       (len dotgit + 1 <=? len name) && (c =? 46) && EqualFold (take (length dotgit) rest) dotgit
       && onlySpacesAndPeriods (drop (length dotgit) rest)
   | [] => false
   end) = true <-> spelled (fun n => n = 46 :: dotgit) name.
Proof.
  intros Hd. unfold EqualFold, spelled. rewrite (lower_needle dotgit Hd). split.
  - destruct name as [|c rest]; [done|]. intros H. zbool. subst c.
    match goal with H : bool_decide _ = true |- _ => apply bool_decide_eq_true in H end.
    exists (46 :: take (length dotgit) rest), (drop (length dotgit) rest). cbn [app]. rewrite take_drop.
    split; [done|]. split; [done|]. rewrite fmap_cons. f_equal. done.
  - intros (t & r & -> & Hr & Ht). destruct t as [|c t]; [done|]. injection Ht as Hc Ht.
    apply lower_small in Hc as ->; [|lia]. cbn [app].
    assert (length t = length dotgit) as Hl by (rewrite <-Ht; by rewrite length_fmap).
    rewrite <-Hl, take_app_length, drop_app_length, len_cons, len_app, Hr. pose proof (len_nonneg r).
    replace (len dotgit + 1 <=? 1 + (len t + len r)) with true by (symmetry; apply Z.leb_le; unfold len in *; lia).
    by rewrite bool_decide_eq_true_2.
Qed.

Definition short4 (dotgit n : bytes) : Prop := exists d, 49 <= d <= 52 /\ n = take 6 dotgit ++ [126; d].

Lemma pattern2_iff name dotgit :
  long_needle dotgit ->
  (6 <=? len dotgit) && (8 <=? len name) && EqualFold (take 6 name) (take 6 dotgit)
    && match drop 6 name with
       | c :: d :: rest => (c =? 126) && (49 <=? d) && (d <=? 52) && onlySpacesAndPeriods rest
       | _ => false
       end = true <-> spelled (short4 dotgit) name.
Proof.
  intros [Hd Hl6]. unfold EqualFold, spelled, short4.
  ztest (6 <=? len dotgit) true || replace (6 <=? len dotgit) with true by (symmetry; apply Z.leb_le; unfold len; lia).
  rewrite (lower_needle (take 6 dotgit)) by (by apply Forall_take). cbn [andb]. split.
  - intros H. apply andb_prop in H as [H Htl]. apply andb_prop in H as [H8 Heq].
    apply bool_decide_eq_true in Heq. rewrite <-(take_drop 6 name).
    destruct (drop 6 name) as [|c [|d rest]]; try done. zbool. subst c.
    exists (take 6 name ++ [126; d]), rest. rewrite <-app_assoc. split; [done|]. split; [done|].
    exists d. split; [lia|]. rewrite fmap_app, Heq. f_equal. apply lower_digits_id. repeat constructor; lia.
  - intros (t & r & -> & Hr & (d & Hdr & Ht)).
    assert (exists u, t = u ++ [126; d] /\ asciiToLower <$> u = take 6 dotgit) as (u & -> & Hu).
    { destruct t as [|y t _] using rev_ind; [by destruct (take 6 dotgit)|].
      destruct t as [|x t _] using rev_ind.
      { apply (f_equal length) in Ht. rewrite length_app, length_take in Ht. cbn in Ht. lia. }
      rewrite !fmap_app in Ht. change [126; d] with ([126] ++ [d]) in Ht. rewrite app_assoc in Ht.
      apply app_inj_tail in Ht as [Ht Hy]. apply app_inj_tail in Ht as [Ht Hx].
      exists t. split; [|done]. apply lower_small in Hy as ->; [|lia].
      rewrite <-app_assoc. cbn [app]. destruct (lower_inv _ _ Hx) as [->|]; [done|lia]. }
    assert (length u = 6%nat) as Hl by (apply (f_equal length) in Hu; rewrite length_fmap, length_take in Hu; lia).
    rewrite <-app_assoc, <-Hl, take_app_length, drop_app_length. cbn [app].
    rewrite len_app, !len_cons. pose proof (len_nonneg r).
    replace (8 <=? len u + (1 + (1 + len r))) with true by (symmetry; apply Z.leb_le; unfold len in *; lia).
    rewrite bool_decide_eq_true_2 by (by rewrite Hu, Hl). ztest (49 <=? d) true. ztest (d <=? 52) true. done.
Qed.

Lemma pattern3_iff name short :
  Forall needle_char short -> length short = 6%nat ->
  (if (len short <? 6) || (len name <? 8) then false
   else if shortname_loop 8 name short false then onlySpacesAndPeriods (drop 8 name) else false) = true
  <-> spelled (short_tail short) name.
Proof.
  intros Hs Hl. replace (len short <? 6) with false by (symmetry; apply Z.ltb_ge; unfold len; lia). cbn [orb].
  pose proof (shortname_spec short name Hs) as Hspec. rewrite Hl in Hspec. cbn [Nat.add] in Hspec.
  unfold spelled. split.
  - destruct (Z.ltb_spec (len name) 8); [done|]. destruct (shortname_loop 8 name short false) eqn:Hloop; [|done].
    destruct (proj1 (Hspec ltac:(unfold len in *; lia)) eq_refl) as (t & r & -> & Ht). intros Hr.
    assert (length t = 8%nat) as Hlt
      by (destruct Ht as (? & ? & ? & _ & _ & _ & _ & Hlen); rewrite length_fmap in Hlen; lia).
    rewrite <-Hlt, drop_app_length in Hr. by exists t, r.
  - intros (t & r & -> & Hr & Ht). assert (length t = 8%nat) as Hlt
      by (destruct Ht as (? & ? & ? & _ & _ & _ & _ & Hlen); rewrite length_fmap in Hlen; lia).
    rewrite len_app. pose proof (len_nonneg r).
    replace (len t + len r <? 8) with false by (symmetry; apply Z.ltb_ge; unfold len in *; lia).
    rewrite (proj2 (Hspec ltac:(rewrite length_app; lia))) by eauto. by rewrite <-Hlt, drop_app_length.
Qed.

Lemma if_true_or (b c : bool) : (if b then true else c) = true <-> b = true \/ c = true.
Proof. destruct b; intuition discriminate. Qed.

(** The names NTFS may give a file called [.dotgit]. *)
Definition ntfs_spelling (dotgit short n : bytes) : Prop :=
  n = 46 :: dotgit \/ short4 dotgit n \/ short_tail short n.

Lemma short_tail_solid short n : Forall needle_char short -> short_tail short n -> solid n.
Proof.
  intros Hs (k & d & ds & Hk & -> & Hd & Hds & _). apply solid_app; [apply Forall_take; by apply needle_no_colon|].
  apply digit_solid; [done|]. constructor; [lia|]. constructor; [lia|].
  eapply Forall_impl; [exact Hds|]. unfold is_digit. lia.
Qed.

(** [IsNTFSDot] recognises the spellings of a dot file.  For a lower-case
    name of six or more letters and its six-letter short-name prefix, it is true
    exactly when NTFS, which cuts the stream and the trailing spaces and
    periods and folds case, opens the file's own name, one of its first four
    short names, or a short name of up to six letters of the prefix, a tilde
    and a number. *)
Theorem IsNTFSDot_iff name dotgit short :
  long_needle dotgit -> Forall needle_char short -> length short = 6%nat ->
  IsNTFSDot name dotgit short = true <-> ntfs_spelling dotgit short (ntfs_name name).
Proof.
  intros Hd Hs Hl. pose proof Hd as [Hdn Hd6]. unfold IsNTFSDot, ntfs_spelling.
  rewrite <-(spelled_iff (fun n => n = 46 :: dotgit)), <-(spelled_iff (short4 dotgit)), <-(spelled_iff (short_tail short)).
  - rewrite <-pattern1_iff, <-pattern2_iff, <-pattern3_iff by done.
    by rewrite !if_true_or.
  - intros n. by apply short_tail_solid.
  - intros n (d & Hdr & ->). apply solid_app; [apply Forall_take; by apply needle_no_colon|].
    apply digit_solid; [done|]. repeat constructor; lia.
  - intros n ->. change (46 :: dotgit) with ([46] ++ dotgit). apply solid_app; [repeat constructor; lia|].
    apply needle_solid; [done|]. intros ->. simpl in Hd6. lia.
Qed.

Lemma IsNTFSDot_iff_witness :
  IsNTFSDotGitmodules (bs "GITMOD~2 .:x") = true <-> ntfs_spelling (bs "gitmodules") (bs "gi7eba") (bs "gitmod~2").
Proof.
  apply (IsNTFSDot_iff (bs "GITMOD~2 .:x") (bs "gitmodules") (bs "gi7eba")).
  - split; [apply (bool_decide_unpack _); vm_compute; exact I|apply (bool_decide_unpack _); vm_compute; exact I].
  - apply (bool_decide_unpack _); vm_compute; exact I.
  - reflexivity.
Defined.
