(* ===== verification/Filemode.v ===== *)
(** * File modes: [plumbing/filemode/filemode.go]

    The modes of tree entries: their octal spellings, the canonical mode git
    acts on, and the mapping to and from the modes of the operating system. *)
From stdpp Require Import base list numbers option strings.
From Stdlib Require Import ZArith Lia.
From S2P Require Import Prelude.

Open Scope Z_scope.
#[local] Ltac Zify.zify_post_hook ::= Z.to_euclidean_division_equations.

(** A [FileMode] is a 32-bit integer.  The octal constants are written in
    hexadecimal: 040000, 0100644, 0100664, 0100755, 0120000 and 0160000. *)
Abbreviation FileMode := Z.
Definition Empty : FileMode := 0.
Definition Dir : FileMode := 0x4000.
Definition Regular : FileMode := 0x81A4.
Definition Deprecated : FileMode := 0x81B4.
Definition Executable : FileMode := 0x81ED.
Definition Symlink : FileMode := 0xA000.
Definition Submodule : FileMode := 0xE000.

Definition MaxUint32 : Z := 2 ^ 32 - 1.

(** ** Octal *)

Definition octal_digit (c : Z) : bool := (48 <=? c) && (c <=? 55).

(** [strconv.ParseUint(s, 8, 32)]: [None] for a syntax or range error.  The
    value is accumulated in 64 bits; a digit that makes it exceed 32 bits is an
    error at once. *)
Fixpoint ParseUint_loop (s : bytes) (n : Z) : option Z :=
  match s with
  | [] => Some n
  | c :: s' =>
      if negb (octal_digit c) then None
      else let n := n * 8 + (c - 48) in
           if n >? MaxUint32 then None else ParseUint_loop s' n
  end.

Definition ParseUint (s : bytes) : option Z := if len s =? 0 then None else ParseUint_loop s 0.

Definition New (s : bytes) : FileMode * bool :=
  match ParseUint s with Some n => (u32 n, true) | None => (Empty, false) end.

Fixpoint FromBytes_loop (b : bytes) (mode : Z) : FileMode * bool :=
  match b with
  | [] => (mode, true)
  | c :: b' =>
      if (c <? 48) || (c >? 55) then (Empty, false)
      else if mode >? Z.shiftr MaxUint32 3 then (Empty, false)
      else FromBytes_loop b' (Z.lor (u32 (Z.shiftl mode 3)) (u32 (c - 48)))
  end.

Definition FromBytes (b : bytes) : FileMode * bool :=
  if len b =? 0 then (Empty, false) else FromBytes_loop b 0.

(** [%o]: without padding.  Eleven digits are enough for 32 bits. *)
Fixpoint octal_loop (fuel : nat) (m : Z) (acc : bytes) : bytes :=
  match fuel with
  | O => acc
  | S f => if m =? 0 then acc else octal_loop f (m `div` 8) (48 + m `mod` 8 :: acc)
  end.

Definition octal (m : FileMode) : bytes := if m =? 0 then [48] else octal_loop 11 m [].

(** [%07o]. *)
Definition String (m : FileMode) : bytes := replicate (7 - length (octal m)) 48 ++ octal m.

(** ** Classification *)

Definition IsMalformed (m : FileMode) : bool :=
  negb (m =? Dir) && negb (m =? Regular) && negb (m =? Deprecated) && negb (m =? Executable)
  && negb (m =? Symlink) && negb (m =? Submodule).

Definition IsRegular (m : FileMode) : bool := (m =? Regular) || (m =? Deprecated).

Definition IsFile (m : FileMode) : bool :=
  (m =? Regular) || (m =? Deprecated) || (m =? Executable) || (m =? Symlink).

(** The masks 0170000 and 0100. *)
Definition Canonical (m : FileMode) : FileMode :=
  let t := Z.land m 0xF000 in
  if t =? 0x8000 then if negb (Z.land m 0x40 =? 0) then Executable else Regular
  else if t =? 0xA000 then Symlink
  else if t =? 0x4000 then Dir
  else Submodule.

(** ** Modes of the operating system ([os.FileMode]) *)

Definition ModeDir : Z := 2 ^ 31.
Definition ModeTemporary : Z := 2 ^ 28.
Definition ModeSymlink : Z := 2 ^ 27.
Definition ModeCharDevice : Z := 2 ^ 21.
(** Directory, symbolic link, named pipe, socket, device, character device and
    irregular file. *)
Definition ModeType : Z :=
  Z.lor ModeDir (Z.lor ModeSymlink (Z.lor (2 ^ 25) (Z.lor (2 ^ 24)
    (Z.lor (2 ^ 26) (Z.lor ModeCharDevice (2 ^ 19)))))).
Definition ModePerm : Z := 0x1FF.

Definition os_IsRegular (m : Z) : bool := Z.land m ModeType =? 0.
Definition os_IsDir (m : Z) : bool := negb (Z.land m ModeDir =? 0).

Definition isSetCharDevice (m : Z) : bool := negb (Z.land m ModeCharDevice =? 0).
Definition isSetTemporary (m : Z) : bool := negb (Z.land m ModeTemporary =? 0).
Definition isSetUserExecutable (m : Z) : bool := negb (Z.land m 0x40 =? 0).
Definition isSetSymLink (m : Z) : bool := negb (Z.land m ModeSymlink =? 0).

(** The mode and whether there is no error. *)
Definition NewFromOSFileMode (m : Z) : FileMode * bool :=
  if os_IsRegular m then
    if isSetTemporary m then (Empty, false)
    else if isSetCharDevice m then (Empty, false)
    else if isSetUserExecutable m then (Executable, true)
    else (Regular, true)
  else if os_IsDir m then (Dir, true)
  else if isSetSymLink m then (Symlink, true)
  else (Empty, false).

Definition ToOSFileMode (m : FileMode) : Z * bool :=
  if m =? Dir then (Z.lor ModePerm ModeDir, true)
  else if m =? Submodule then (Z.lor ModePerm ModeDir, true)
  else if m =? Regular then (0x1A4, true)
  else if m =? Deprecated then (0x1A4, true)
  else if m =? Executable then (0x1ED, true)
  else if m =? Symlink then (Z.lor ModePerm ModeSymlink, true)
  else (0, false).

(** ** Octal spellings *)

Definition is_mode (m : Z) : Prop := 0 <= m < 2 ^ 32.

(** The number a run of octal digits stands for. *)
Definition octal_value (acc : Z) (s : bytes) : Z := foldl (fun n c => n * 8 + (c - 48)) acc s.

Lemma octal_digit_iff c : octal_digit c = true <-> 48 <= c <= 55.
Proof. unfold octal_digit. rewrite andb_true_iff, !Z.leb_le. done. Qed.

Lemma octal_value_mono s acc :
  0 <= acc -> Forall (fun c => octal_digit c = true) s -> acc <= octal_value acc s.
Proof.
  revert acc. induction s as [|c s IH]; intros acc Ha Hs; [done|]. apply Forall_cons in Hs as [Hc Hs].
  apply octal_digit_iff in Hc. cbn. specialize (IH (acc * 8 + (c - 48)) ltac:(lia) Hs).
  unfold octal_value in IH. lia.
Qed.

(** Both parsers accept exactly the digits with a 32-bit value. *)
Lemma ParseUint_loop_spec s n :
  0 <= n <= MaxUint32 ->
  ParseUint_loop s n =
    if bool_decide (Forall (fun c => octal_digit c = true) s /\ octal_value n s <= MaxUint32)
    then Some (octal_value n s) else None.
Proof.
  revert n. induction s as [|c s IH]; intros n Hn; cbn [ParseUint_loop].
  - rewrite bool_decide_eq_true_2; [done|]. cbn. split; [constructor|lia].
  - destruct (octal_digit c) eqn:Hc; cbn [negb].
    2:{ rewrite bool_decide_eq_false_2; [done|]. intros [H _]. apply Forall_cons in H as [H _]. congruence. }
    apply octal_digit_iff in Hc as Hr. rewrite Z.gtb_ltb.
    destruct (Z.ltb_spec MaxUint32 (n * 8 + (c - 48))) as [Hbig|Hsmall].
    + rewrite bool_decide_eq_false_2; [done|]. intros [H Hle]. apply Forall_cons in H as [_ H].
      pose proof (octal_value_mono s (n * 8 + (c - 48)) ltac:(lia) H).
      cbn in Hle. unfold octal_value in *. lia.
    + rewrite IH by lia. cbn [octal_value foldl].
      erewrite bool_decide_ext; [done|]. rewrite Forall_cons. unfold octal_value. tauto.
Qed.

Lemma FromBytes_loop_spec s n :
  0 <= n <= MaxUint32 ->
  FromBytes_loop s n =
    if bool_decide (Forall (fun c => octal_digit c = true) s /\ octal_value n s <= MaxUint32)
    then (octal_value n s, true) else (Empty, false).
Proof.
  revert n. induction s as [|c s IH]; intros n Hn; cbn [FromBytes_loop].
  - rewrite bool_decide_eq_true_2; [done|]. cbn. split; [constructor|lia].
  - assert (((c <? 48) || (c >? 55)) = negb (octal_digit c)) as ->.
    { unfold octal_digit. rewrite Z.gtb_ltb.
      destruct (Z.ltb_spec c 48), (Z.ltb_spec 55 c), (Z.leb_spec 48 c), (Z.leb_spec c 55); try lia; done. }
    destruct (octal_digit c) eqn:Hc; cbn [negb].
    2:{ rewrite bool_decide_eq_false_2; [done|]. intros [H _]. apply Forall_cons in H as [H _]. congruence. }
    apply octal_digit_iff in Hc as Hr. rewrite Z.gtb_ltb. unfold MaxUint32 in *.
    change (Z.shiftr (2 ^ 32 - 1) 3) with (2 ^ 29 - 1).
    destruct (Z.ltb_spec (2 ^ 29 - 1) n) as [Hbig|Hsmall].
    + rewrite bool_decide_eq_false_2; [done|]. intros [H Hle]. apply Forall_cons in H as [_ H].
      pose proof (octal_value_mono s (n * 8 + (c - 48)) ltac:(lia) H).
      cbn in Hle. unfold octal_value in *. lia.
    + rewrite Z.shiftl_mul_pow2 by lia. change (2 ^ 3) with 8. rewrite !(wrap_small 32) by lia.
      assert (Z.lor (n * 8) (c - 48) = n * 8 + (c - 48)) as ->.
      { rewrite Z.lor_comm. change (n * 8) with (n * 2 ^ 3). rewrite <-Z.shiftl_mul_pow2 by lia.
        rewrite lor_disjoint_add, Z.shiftl_mul_pow2 by lia. lia. }
      rewrite IH by lia. cbn [octal_value foldl].
      erewrite bool_decide_ext; [done|]. rewrite Forall_cons. unfold octal_value. tauto.
Qed.

Lemma octal_value_app acc a b : octal_value acc (a ++ b) = octal_value (octal_value acc a) b.
Proof. unfold octal_value. by rewrite foldl_app. Qed.

Lemma octal_loop_spec f m acc :
  0 <= m < 8 ^ Z.of_nat f ->
  exists ds, octal_loop f m acc = ds ++ acc /\ Forall (fun c => octal_digit c = true) ds
    /\ octal_value 0 ds = m /\ (m <> 0 -> ds <> []).
Proof.
  revert m acc. induction f as [|f IH]; intros m acc Hm; cbn [octal_loop].
  - exists []. split; [done|]. split; [constructor|]. cbn in *. lia.
  - destruct (Z.eqb_spec m 0) as [->|Hne]; [by exists []|].
    rewrite Nat2Z.inj_succ, Z.pow_succ_r in Hm by lia.
    destruct (IH (m `div` 8) (48 + m `mod` 8 :: acc)) as (ds & -> & Hd & Hv & _); [lia|].
    exists (ds ++ [48 + m `mod` 8]). rewrite <-app_assoc. split; [done|]. split; [|split].
    + apply Forall_app. split; [done|]. constructor; [|constructor]. apply octal_digit_iff. lia.
    + rewrite octal_value_app, Hv. cbn. lia.
    + intros _. by destruct ds.
Qed.

Lemma octal_spec m :
  is_mode m -> Forall (fun c => octal_digit c = true) (octal m) /\ octal_value 0 (octal m) = m /\ octal m <> [].
Proof.
  intros Hm. unfold octal. destruct (Z.eqb_spec m 0) as [->|Hne].
  - split; [by repeat constructor|done].
  - destruct (octal_loop_spec 11 m []) as (ds & -> & Hd & Hv & Hn); [unfold is_mode in Hm; cbn; lia|].
    rewrite app_nil_r. auto.
Qed.

Lemma octal_value_zeros n s : octal_value 0 (replicate n 48 ++ s) = octal_value 0 s.
Proof. induction n as [|n IH]; [done|]. cbn [replicate app]. exact IH. Qed.

Lemma FromBytes_spec s :
  FromBytes s = if bool_decide (s <> [] /\ Forall (fun c => octal_digit c = true) s /\ octal_value 0 s <= MaxUint32)
                then (octal_value 0 s, true) else (Empty, false).
Proof.
  unfold FromBytes. destruct s as [|c s]; [done|]. rewrite len_cons. pose proof (len_nonneg s).
  ztest (1 + len s =? 0) false. rewrite FromBytes_loop_spec by done.
  erewrite bool_decide_ext; [done|]. intuition done.
Qed.

Lemma FromBytes_digits s m :
  s <> [] -> Forall (fun c => octal_digit c = true) s -> octal_value 0 s = m -> is_mode m -> FromBytes s = (m, true).
Proof.
  intros Hne Hd Hv Hm. rewrite FromBytes_spec, bool_decide_eq_true_2; [by rewrite Hv|].
  unfold is_mode, MaxUint32 in *. split; [done|]. split; [done|lia].
Qed.

(** Modes and their spellings.  Parsing the seven-digit string of any mode,
    and the unpadded octal that trees hold, gives the mode back with both
    parsers; and [FromBytes], which avoids a string, accepts the same inputs as
    [New] with the same values. *)
Theorem mode_roundtrip m s :
  is_mode m ->
  FromBytes (String m) = (m, true) /\ FromBytes (octal m) = (m, true) /\ New s = FromBytes s.
Proof.
  intros Hm. destruct (octal_spec m Hm) as (Hd & Hv & Hne). split; [|split].
  - unfold String. apply FromBytes_digits; [by destruct (replicate _ _)| |by rewrite octal_value_zeros|done].
    apply Forall_app. split; [by apply Forall_replicate|done].
  - by apply FromBytes_digits.
  - rewrite FromBytes_spec. unfold New, ParseUint. destruct s as [|c s]; [done|].
    rewrite len_cons. pose proof (len_nonneg s). ztest (1 + len s =? 0) false.
    rewrite ParseUint_loop_spec by done.
    case_bool_decide as H1; case_bool_decide as H2; try done.
    + destruct H1 as [Hds Hle]. unfold MaxUint32 in Hle.
      pose proof (octal_value_mono (c :: s) 0 ltac:(lia) Hds). rewrite wrap_small by lia. done.
    + exfalso. apply H2. done.
    + exfalso. apply H1. by destruct H2.
Qed.

Lemma mode_roundtrip_witness :
  FromBytes (bs "0100644") = (Regular, true) /\ FromBytes (bs "100644") = (Regular, true)
  /\ New (bs "00000000000100644") = FromBytes (bs "00000000000100644").
Proof. apply (mode_roundtrip Regular (bs "00000000000100644")). unfold is_mode, Regular. lia. Defined.

(** ** The canonical mode *)

Lemma Canonical_cases m : In (Canonical m) [Executable; Regular; Symlink; Dir; Submodule].
Proof.
  unfold Canonical. repeat match goal with |- context [if ?b then _ else _] => destruct b end; simpl; tauto.
Qed.

Lemma Canonical_low m : Canonical (Z.land m 0xFFFF) = Canonical m.
Proof.
  unfold Canonical. rewrite <-!Z.land_assoc. done.
Qed.

Lemma IsMalformed_false m :
  IsMalformed m = false -> In m [Dir; Regular; Deprecated; Executable; Symlink; Submodule].
Proof.
  unfold IsMalformed. rewrite !andb_false_iff, !negb_false_iff, !Z.eqb_eq. simpl.
  intuition (subst; auto 10).
Qed.

(** The canonical mode.  It is never malformed and is its own canonical
    mode; the modes git writes are their own canonical modes, group-writable
    files become regular; and it depends on the low 16 bits only, so the 32 bits
    kept by the reader of trees are enough. *)
Theorem Canonical_correct m :
  IsMalformed (Canonical m) = false /\ Canonical (Canonical m) = Canonical m
  /\ Canonical (m `mod` 2 ^ 32) = Canonical m
  /\ (IsMalformed m = false -> Canonical m = if m =? Deprecated then Regular else m).
Proof.
  split; [|split; [|split]].
  - by destruct (Canonical_cases m) as [<-|[<-|[<-|[<-|[<-|[]]]]]].
  - by destruct (Canonical_cases m) as [<-|[<-|[<-|[<-|[<-|[]]]]]].
  - rewrite <-(Canonical_low m), <-(Canonical_low (m `mod` 2 ^ 32)). f_equal.
    rewrite <-(land_low_mask m 32), <-Z.land_assoc by lia. done.
  - intros Hin%IsMalformed_false.
    by destruct Hin as [<-|[<-|[<-|[<-|[<-|[<-|[]]]]]]].
Qed.

Lemma Canonical_correct_witness : Canonical 0x81B4 = Regular.
Proof. exact (proj2 (proj2 (proj2 (Canonical_correct Deprecated))) eq_refl). Defined.

(** ** The operating system's modes *)

(** Writing a mode to the file system and reading it back.  For the modes
    that are not malformed [ToOSFileMode] succeeds, and
    [NewFromOSFileMode] of the result is the mode itself for the modes that
    have a file system equivalent, a regular file for a deprecated one and a
    directory for a submodule; malformed modes are refused. *)
Theorem os_mode_roundtrip m :
  if IsMalformed m then ToOSFileMode m = (0, false)
  else exists o, ToOSFileMode m = (o, true) /\
    NewFromOSFileMode o = (if m =? Deprecated then Regular else if m =? Submodule then Dir else m, true).
Proof.
  destruct (IsMalformed m) eqn:H.
  - unfold IsMalformed in H. zbool. unfold ToOSFileMode. repeat match goal with H : m <> ?c |- _ => apply Z.eqb_neq in H; rewrite H; clear H end.
    done.
  - apply IsMalformed_false in H as Hin.
    destruct Hin as [<-|[<-|[<-|[<-|[<-|[<-|[]]]]]]]; eexists; split; reflexivity.
Qed.
