(* ===== verification/Tree.v ===== *)
(** * Tree objects: [plumbing/object/tree.go]

    Decoding through a buffered reader, encoding, validation by the rules of
    git's fsck, and the lookup of an entry by name. *)
From stdpp Require Import base list numbers option strings gmap sorting.
From Stdlib Require Import ZArith Lia.
From S2P Require Import Prelude GoStrings ObjectId Object Filemode Pathutil.

Open Scope Z_scope.
#[local] Ltac Zify.zify_post_hook ::= Z.to_euclidean_division_equations.

(** ** Data *)

Inductive tree_error :=
  | ErrMaxTreeDepth
  | ErrDirectoryNotFound
  | ErrEntryNotFound
  | ErrMalformedTree
  | ErrUnsupportedObject
  | ErrInvalidPath
  | ErrInvalidTree
  | ErrObject (e : ioerr)        (* of the object storer *)
  | ErrTreeEOF.                  (* io.EOF *)

Record TreeEntry := { Name : bytes; Mode : FileMode; Hash : ObjectID }.

Record Tree := { Entries : list TreeEntry; tree_Hash : ObjectID; entriesSorted : bool }.

(** Directory names compare as if they had a trailing slash. *)
Definition treeEntrySortName (e : TreeEntry) : bytes :=
  if Mode e =? Dir then Name e ++ bs "/" else Name e.

(** ** The buffered reader ([bufio.Reader])

    [N] is the size of the buffer: a slice that does not end within it is
    returned in part. *)
Inductive slice_error := ErrBufferFull | SliceEOF.

Section decode.
Context (N : nat).

(** The slice, with its delimiter unless there is an error, and the rest. *)
Definition ReadSlice (d : Z) (r : bytes) : bytes * option slice_error * bytes :=
  match cut_at d (take N r) with
  | Some (a, _) => (a ++ [d], None, drop (S (length a)) r)
  | None => if (N <=? length r)%nat then (take N r, Some ErrBufferFull, drop N r)
            else (r, Some SliceEOF, [])
  end.

(** The digits of a chunk, wrapping at 32 bits. *)
Fixpoint mode_chunk (chunk : bytes) (mode : Z) : option Z :=
  match chunk with
  | [] => Some mode
  | c :: chunk' =>
      if (c <? 48) || (c >? 55) then None
      else mode_chunk chunk' (Z.lor (u32 (Z.shiftl mode 3)) (u32 (c - 48)))
  end.

Fixpoint readTreeEntryMode_loop (fuel : nat) (mode : Z) (seen : bool) (r : bytes)
    : outcome tree_error (FileMode * bytes) :=
  match fuel with
  | O => NoFuel
  | S f =>
      let '(chunk, err, r) := ReadSlice 32 r in
      match err with
      | Some SliceEOF =>
          if negb seen && (len chunk =? 0) then Err ErrTreeEOF else Err ErrMalformedTree
      | _ =>
          let chunk := match err with None => take (length chunk - 1) chunk | _ => chunk end in
          match mode_chunk chunk mode with
          | None => Err ErrMalformedTree
          | Some mode =>
              let seen := seen || (len chunk >? 0) in
              match err with
              | None => if negb seen then Err ErrMalformedTree else mret (mode, r)
              | Some _ => readTreeEntryMode_loop f mode seen r
              end
          end
      end
  end.

(** A chunk of a full buffer is not empty, so the input bounds the loop. *)
Definition readTreeEntryMode (r : bytes) : outcome tree_error (FileMode * bytes) :=
  readTreeEntryMode_loop (S (length r)) 0 false r.

(** The name with its delimiter: the loop over full buffers. *)
Fixpoint read_name (fuel : nat) (buf : bytes) (r : bytes) : outcome tree_error (bytes * bytes) :=
  match fuel with
  | O => NoFuel
  | S f =>
      let '(more, err, r) := ReadSlice 0 r in
      let buf := buf ++ more in
      match err with
      | Some ErrBufferFull => read_name f buf r
      | Some SliceEOF => Err ErrMalformedTree
      | None => mret (buf, r)
      end
  end.

(** The state of the loop of [Decode]: the entries so far, the sort name of
    the last and whether they are sorted. *)
Fixpoint Decode_loop (fuel : nat) (sz : Z) (entries : list TreeEntry) (prev : bytes) (sorted : bool)
    (r : bytes) : outcome tree_error (list TreeEntry * bool) :=
  match fuel with
  | O => NoFuel
  | S f =>
      match readTreeEntryMode r with
      | Err ErrTreeEOF => mret (entries, sorted)
      | Err e => Err e
      | Panic => Panic
      | NoFuel => NoFuel
      | Ok (mode, r) =>
          let mode := Canonical mode in
          '(nameSlice, r) ← read_name (S (length r)) [] r;
          if len nameSlice =? 1 then Err ErrMalformedTree
          else
            let name := take (length nameSlice - 1) nameSlice in
            match ReadFrom (ResetBySize sz) r with
            | Ok (hash, r) =>
                let entry := {| Name := name; Mode := mode; Hash := hash |} in
                let sortName := treeEntrySortName entry in
                let sorted := if negb (len entries =? 0) && bytes_ltb sortName prev then false else sorted in
                Decode_loop f sz (entries ++ [entry]) sortName sorted r
            | Err _ => Err ErrMalformedTree
            | Panic => Panic
            | NoFuel => NoFuel
            end
      end
  end.

Definition Decode (o : EncodedObject) : outcome tree_error Tree :=
  if negb (bool_decide (eo_Type o = TreeObject)) then Err ErrUnsupportedObject
  else if len (eo_Data o) =? 0 then
    mret {| Entries := []; tree_Hash := eo_Hash o; entriesSorted := true |}
  else
    '(entries, sorted) ← Decode_loop (S (length (eo_Data o))) (Size (eo_Hash o)) [] [] true (eo_Data o);
    mret {| Entries := entries; tree_Hash := eo_Hash o; entriesSorted := sorted |}.
End decode.

(** ** Validation *)

Definition maxTreeEntryNameLen : Z := 4096.

Inductive tree_violation :=
  | NullHash | EmptyName | SlashInName | InvalidPathName | DuplicateName | LongName | BadMode
  | GitmodulesSymlink | GitattributesSymlink | GitignoreSymlink | MailmapSymlink | NotSorted.

Definition isValidTreeMode (m : FileMode) : bool :=
  (m =? Regular) || (m =? Executable) || (m =? Symlink) || (m =? Dir) || (m =? Submodule) || (m =? Deprecated).

Section validate.
Context (VolumeName : bytes -> bytes).

Definition symlink_violation (name : bytes) : list tree_violation :=
  if IsHFSDotGitmodules name || IsNTFSDotGitmodules name then [GitmodulesSymlink]
  else if IsHFSDotGitattributes name || IsNTFSDotGitattributes name then [GitattributesSymlink]
  else if IsHFSDotGitignore name || IsNTFSDotGitignore name then [GitignoreSymlink]
  else if IsHFSDotMailmap name || IsNTFSDotMailmap name then [MailmapSymlink]
  else [].

(** The checks of the name, and the names seen after them. *)
Definition name_violations (name : bytes) (seen : gset bytes) : list tree_violation * gset bytes :=
  if bool_decide (name = []) then ([EmptyName], seen)
  else if bool_decide (47 ∈ name) then ([SlashInName], seen)
  else ((if ValidTreePath VolumeName name then [] else [InvalidPathName])
          ++ (if bool_decide (name ∈ seen) then [DuplicateName] else [])
          ++ (if len name >? maxTreeEntryNameLen then [LongName] else []), {[ name ]} ∪ seen).

(** [prev] is the sort name of the entry before, if there is one. *)
Fixpoint Validate_loop (es : list TreeEntry) (seen : gset bytes) (prev : option bytes) : list tree_violation :=
  match es with
  | [] => []
  | e :: es' =>
      let '(names, seen) := name_violations (Name e) seen in
      let sortName := treeEntrySortName e in
      (if IsZero (Hash e) then [NullHash] else [])
        ++ names
        ++ (if negb (isValidTreeMode (Mode e)) then [BadMode] else [])
        ++ (if Mode e =? Symlink then symlink_violation (Name e) else [])
        ++ (match prev with Some p => if bytes_ltb sortName p then [NotSorted] else [] | None => [] end)
        ++ Validate_loop es' seen (Some sortName)
  end.

(** All violations, joined; no error when there is none. *)
Definition Validate (t : Tree) : list tree_violation := Validate_loop (Entries t) ∅ None.

(** ** Encoding *)

Definition encode_entry (e : TreeEntry) : bytes :=
  octal (Mode e) ++ [32] ++ Name e ++ [0] ++ Bytes (Hash e).

Definition Encode (t : Tree) : outcome tree_error bytes :=
  if bool_decide (Validate t = []) then mret (concat (encode_entry <$> Entries t)) else Err ErrInvalidTree.
End validate.

(** ** Lookup of one name *)

(** The predicate indexes the entries, within their range. *)
Definition searchEntryIndex (t : Tree) (name : bytes) : outcome tree_error Z :=
  Search (len (Entries t)) (fun i =>
    match Entries t !! Z.to_nat i with
    | Some e => negb (bytes_ltb (treeEntrySortName e) name)
    | None => false
    end).

(** The test [i < len(t.Entries) && t.Entries[i].Name == baseName]. *)
Definition entry_named (t : Tree) (i : Z) (baseName : bytes) : option TreeEntry :=
  match Entries t !! Z.to_nat i with
  | Some e => if bool_decide (Name e = baseName) then Some e else None
  | None => None
  end.

Definition searchEntry (t : Tree) (baseName : bytes) : outcome tree_error (option TreeEntry) :=
  i ← searchEntryIndex t baseName;
  match entry_named t i baseName with
  | Some e => mret (Some e)
  | None => i ← searchEntryIndex t (baseName ++ bs "/"); mret (entry_named t i baseName)
  end.

(** The scan of a tree that is not sorted. *)
Fixpoint scan_entries (es : list TreeEntry) (baseName pastName : bytes) : option TreeEntry :=
  match es with
  | [] => None
  | e :: es' =>
      if bool_decide (Name e = baseName) then Some e
      else if bytes_ltb pastName (treeEntrySortName e) then None
      else scan_entries es' baseName pastName
  end.

Definition entry (t : Tree) (baseName : bytes) : outcome tree_error TreeEntry :=
  if entriesSorted t then
    e ← searchEntry t baseName;
    match e with Some e => mret e | None => Err ErrEntryNotFound end
  else
    match scan_entries (Entries t) baseName (baseName ++ bs "/") with
    | Some e => mret e
    | None => Err ErrEntryNotFound
    end.

(** *** Well-formed entries *)

Definition sorted_by_name (es : list TreeEntry) : Prop :=
  StronglySorted (fun a b => bytes_le (treeEntrySortName a) (treeEntrySortName b)) es.

Definition no_slash (e : TreeEntry) : Prop := 47 ∉ Name e.

Example entry_of_dir :
  let h := oid_of UnsetObjectFormat (replicate 20 7) in
  let e n m := {| Name := n; Mode := m; Hash := h |} in
  let t := {| Entries := [e (bs "a.b") Regular; e (bs "a") Dir; e (bs "b") Regular]; tree_Hash := h;
              entriesSorted := true |} in
  Validate (fun _ => []) t = [] /\ entry t (bs "a") = Ok (e (bs "a") Dir)
  /\ (data ← Encode (fun _ => []) t; Decode 16 {| eo_Type := TreeObject; eo_Hash := h; eo_Data := data |}) = Ok t.
Proof. vm_compute. split; [|split]; reflexivity. Qed.

(** ** The buffer does not matter *)

Lemma drop_S_app {A} (a : list A) x k : drop (S (length a)) (a ++ x :: k) = k.
Proof. induction a as [|y a IH]; [apply drop_0|exact IH]. Qed.

(** One slice: everything up to the delimiter, or a full buffer without it. *)
Lemma ReadSlice_cases N d r :
  (1 <= N)%nat ->
  match ReadSlice N d r with
  | (s, None, q) => exists a, s = a ++ [d] /\ r = a ++ d :: q /\ d ∉ a
  | (s, Some ErrBufferFull, q) => r = s ++ q /\ d ∉ s /\ s <> []
  | (s, Some SliceEOF, q) => s = r /\ d ∉ r
  end.
Proof.
  intros HN. unfold ReadSlice. destruct (cut_at d (take N r)) as [[a b]|] eqn:Hc.
  - apply cut_at_Some in Hc as [Ht Ha]. exists a. split; [done|]. split; [|done].
    assert (r = a ++ d :: (b ++ drop N r)) as Hr by (by rewrite <-(take_drop N r) at 1; rewrite Ht, <-app_assoc).
    assert (drop (S (length a)) r = b ++ drop N r) as -> by (rewrite Hr at 1; apply drop_S_app). done.
  - apply cut_at_None in Hc. destruct (Nat.leb_spec N (length r)).
    + rewrite take_drop. split; [done|]. split; [done|]. destruct r; [simpl in *; lia|]. by destruct N; [lia|].
    + rewrite take_ge in Hc by lia. done.
Qed.

Lemma mode_chunk_app a b m :
  mode_chunk (a ++ b) m = match mode_chunk a m with Some m' => mode_chunk b m' | None => None end.
Proof.
  revert m. induction a as [|c a IH]; intros m; [done|]. cbn [app mode_chunk].
  destruct ((c <? 48) || (c >? 55)); [done|]. apply IH.
Qed.

(** The mode by the first space of the input. *)
Definition mode_ref (mode : Z) (seen : bool) (r : bytes) : outcome tree_error (FileMode * bytes) :=
  match cut_at 32 r with
  | None => if negb seen && (len r =? 0) then Err ErrTreeEOF else Err ErrMalformedTree
  | Some (a, b) =>
      if negb seen && (len a =? 0) then Err ErrMalformedTree
      else match mode_chunk a mode with None => Err ErrMalformedTree | Some m => mret (m, b) end
  end.

Lemma len_pos_seen (seen : bool) (a : bytes) : (seen || (len a >? 0)) = negb (negb seen && (len a =? 0)).
Proof.
  rewrite Z.gtb_ltb. pose proof (len_nonneg a). destruct seen; [done|]. cbn.
  destruct (Z.ltb_spec 0 (len a)), (Z.eqb_spec (len a) 0); try done; lia.
Qed.

Lemma len_app_nonzero {A} (s k : list A) : s <> [] -> (len (s ++ k) =? 0) = false.
Proof.
  intros Hs. destruct s as [|x s]; [done|]. cbn [app]. rewrite len_cons. pose proof (len_nonneg (s ++ k)).
  apply Z.eqb_neq. lia.
Qed.

(** A chunk without a space, then the rest. *)
Lemma mode_ref_chunk mode seen s q :
  s <> [] -> 32 ∉ s ->
  mode_ref mode seen (s ++ q) =
    match mode_chunk s mode with None => Err ErrMalformedTree | Some m => mode_ref m true q end.
Proof.
  intros Hne Hs. unfold mode_ref. cbn [negb andb]. destruct (cut_at 32 q) as [[a b]|] eqn:Hc.
  - apply cut_at_Some in Hc as [-> Ha]. rewrite app_assoc, cut_at_app by (rewrite not_elem_of_app; done).
    rewrite len_app_nonzero, andb_false_r, mode_chunk_app by done. by destruct (mode_chunk s mode).
  - apply cut_at_None in Hc. rewrite (proj2 (cut_at_None 32 (s ++ q))) by (rewrite not_elem_of_app; done).
    rewrite len_app_nonzero, andb_false_r by done. by destruct (mode_chunk s mode).
Qed.

Lemma readTreeEntryMode_loop_eq N fuel mode seen r :
  (1 <= N)%nat -> (length r < fuel)%nat ->
  readTreeEntryMode_loop N fuel mode seen r = mode_ref mode seen r.
Proof.
  intros HN. revert mode seen r. induction fuel as [|f IH]; intros mode seen r Hf; [lia|].
  cbn [readTreeEntryMode_loop]. pose proof (ReadSlice_cases N 32 r HN) as Hr.
  destruct (ReadSlice N 32 r) as [[s [[]|]] q].
  - destruct Hr as (-> & Hs & Hne). rewrite mode_ref_chunk by done. destruct (mode_chunk s mode) as [m|]; [|done].
    rewrite IH by (rewrite length_app in Hf; destruct s; [done|simpl in *; lia]).
    rewrite len_pos_seen, <-(app_nil_r s), len_app_nonzero by done. by rewrite andb_false_r.
  - destruct Hr as [-> Hs]. unfold mode_ref. by rewrite (proj2 (cut_at_None 32 r) Hs).
  - destruct Hr as (a & -> & -> & Ha). unfold mode_ref. rewrite cut_at_app by done.
    replace (length (a ++ [32%Z]) - 1)%nat with (length a) by (rewrite length_app; simpl; lia).
    rewrite take_app_length, len_pos_seen, negb_involutive. destruct (negb seen && (len a =? 0)) eqn:Hz.
    + apply andb_prop in Hz as [_ Hz%Z.eqb_eq]. by rewrite (len_zero_nil a Hz).
    + by destruct (mode_chunk a mode).
Qed.

Lemma readTreeEntryMode_eq N r : (1 <= N)%nat -> readTreeEntryMode N r = mode_ref 0 false r.
Proof. intros HN. unfold readTreeEntryMode. apply readTreeEntryMode_loop_eq; [done|lia]. Qed.

Definition name_ref (buf r : bytes) : outcome tree_error (bytes * bytes) :=
  match cut_at 0 r with Some (a, b) => mret (buf ++ a ++ [0], b) | None => Err ErrMalformedTree end.

Lemma read_name_eq N fuel buf r :
  (1 <= N)%nat -> (length r < fuel)%nat -> read_name N fuel buf r = name_ref buf r.
Proof.
  intros HN. revert buf r. induction fuel as [|f IH]; intros buf r Hf; [lia|]. cbn [read_name].
  pose proof (ReadSlice_cases N 0 r HN) as Hr. unfold name_ref.
  destruct (ReadSlice N 0 r) as [[s [[]|]] q].
  - destruct Hr as (-> & Hs & Hne). rewrite IH; [|rewrite length_app in Hf; destruct s; [done|simpl in *; lia]].
    unfold name_ref. destruct (cut_at 0 q) as [[a b]|] eqn:Hc.
    + apply cut_at_Some in Hc as [-> Ha]. rewrite (app_assoc s a), cut_at_app by (rewrite not_elem_of_app; done).
      by rewrite <-!app_assoc.
    + apply cut_at_None in Hc. by rewrite (proj2 (cut_at_None 0 (s ++ q))) by (rewrite not_elem_of_app; done).
  - destruct Hr as [-> Hs]. by rewrite (proj2 (cut_at_None 0 r) Hs).
  - destruct Hr as (a & -> & -> & Ha). by rewrite cut_at_app.
Qed.

(** The loop of [Decode] with the reference readers. *)
Fixpoint entries_ref (fuel : nat) (sz : Z) (entries : list TreeEntry) (prev : bytes) (sorted : bool)
    (r : bytes) : outcome tree_error (list TreeEntry * bool) :=
  match fuel with
  | O => NoFuel
  | S f =>
      match mode_ref 0 false r with
      | Err ErrTreeEOF => mret (entries, sorted)
      | Err e => Err e
      | Panic => Panic
      | NoFuel => NoFuel
      | Ok (mode, r) =>
          '(nameSlice, r) ← name_ref [] r;
          if len nameSlice =? 1 then Err ErrMalformedTree
          else
            match ReadFrom (ResetBySize sz) r with
            | Ok (hash, r) =>
                let entry := {| Name := take (length nameSlice - 1) nameSlice; Mode := Canonical mode; Hash := hash |} in
                let sortName := treeEntrySortName entry in
                entries_ref f sz (entries ++ [entry]) sortName
                  (if negb (len entries =? 0) && bytes_ltb sortName prev then false else sorted) r
            | Err _ => Err ErrMalformedTree
            | Panic => Panic
            | NoFuel => NoFuel
            end
      end
  end.

Lemma Decode_loop_eq N fuel sz es prev srt r :
  (1 <= N)%nat -> Decode_loop N fuel sz es prev srt r = entries_ref fuel sz es prev srt r.
Proof.
  intros HN. revert es prev srt r. induction fuel as [|f IH]; intros es prev srt r; [done|].
  cbn [Decode_loop entries_ref]. rewrite readTreeEntryMode_eq by done.
  destruct (mode_ref 0 false r) as [[mode r1]| | |]; [|done..].
  rewrite read_name_eq by (done || lia). destruct (name_ref [] r1) as [[nm r2]| | |]; [|done..].
  cbn [mbind outcome_bind]. destruct (len nm =? 1); [done|].
  destruct (ReadFrom (ResetBySize sz) r2) as [[h r3]| | |]; [|done..]. apply IH.
Qed.

(** ** Decoding what was encoded *)

Lemma mode_chunk_octal s m :
  Forall (fun c => octal_digit c = true) s -> 0 <= m -> octal_value m s < 2 ^ 32 ->
  mode_chunk s m = Some (octal_value m s).
Proof.
  intros Hs. revert m. induction Hs as [|c s Hc Hs IH]; intros m Hm Hv; [done|].
  apply octal_digit_iff in Hc as Hr. cbn [mode_chunk]. rewrite Z.gtb_ltb.
  ztest (c <? 48) false. ztest (55 <? c) false. cbn [orb octal_value foldl].
  pose proof (octal_value_mono s (m * 8 + (c - 48)) ltac:(lia) Hs) as Hmono.
  change (octal_value m (c :: s)) with (octal_value (m * 8 + (c - 48)) s) in Hv.
  rewrite Z.shiftl_mul_pow2 by lia. change (2 ^ 3) with 8. rewrite !wrap_small by lia.
  assert (Z.lor (m * 8) (c - 48) = m * 8 + (c - 48)) as ->.
  { rewrite Z.lor_comm. replace (m * 8) with (Z.shiftl m 3) by (rewrite Z.shiftl_mul_pow2; lia).
    rewrite lor_disjoint_add by lia. rewrite Z.shiftl_mul_pow2 by lia. lia. }
  by rewrite IH by lia.
Qed.

Lemma octal_no_space s : Forall (fun c => octal_digit c = true) s -> 32 ∉ s.
Proof.
  intros Hs H. rewrite Forall_forall in Hs. by specialize (Hs _ H).
Qed.

(** What is needed of an entry for its bytes to be read back. *)
Record readable (sz : Z) (e : TreeEntry) : Prop := {
  rd_name : Name e <> [] /\ 0 ∉ Name e;
  rd_mode : is_mode (Mode e);
  rd_hash : oid_ok (Hash e) /\ Size (Hash e) = sz;
}.

Definition canonical_entry (e : TreeEntry) : TreeEntry :=
  {| Name := Name e; Mode := Canonical (Mode e); Hash := Hash e |}.

(** The flag after reading: whether each sort name is at least the one
    before. *)
Fixpoint ascending_names (prev : option bytes) (es : list TreeEntry) : bool :=
  match es with
  | [] => true
  | e :: es' =>
      match prev with Some p => negb (bytes_ltb (treeEntrySortName e) p) | None => true end
      && ascending_names (Some (treeEntrySortName e)) es'
  end.

Lemma entries_ref_encode fuel sz es0 es prev srt :
  sz = 20 \/ sz = 32 -> Forall (readable sz) es -> (length (concat (encode_entry <$> es)) < fuel)%nat ->
  entries_ref fuel sz es0 prev srt (concat (encode_entry <$> es))
  = Ok (es0 ++ (canonical_entry <$> es),
        srt && ascending_names (match es0 with [] => None | _ => Some prev end) (canonical_entry <$> es)).
Proof.
  intros Hsz Hes. revert fuel es0 prev srt. induction Hes as [|e es [[Hn1 Hn2] Hm [Hh Hhs]] Hes IH];
    intros fuel es0 prev srt Hf; (destruct fuel as [|f]; [simpl in Hf; lia|]).
  - cbn. by rewrite app_nil_r, andb_true_r.
  - rewrite fmap_cons in *. cbn [concat] in *. unfold encode_entry at 1. rewrite <-!app_assoc. cbn [entries_ref].
    destruct (octal_spec (Mode e) Hm) as (Hd & Hv & Hne). unfold mode_ref.
    change ([32] ++ ?k) with (32 :: k). rewrite cut_at_app by (by apply octal_no_space).
    replace (len (octal (Mode e)) =? 0) with false
      by (symmetry; rewrite <-(app_nil_r (octal (Mode e))); by apply len_app_nonzero).
    cbn [negb andb]. rewrite mode_chunk_octal, Hv by (done || rewrite Hv; apply Hm). unfold mret, outcome_ret.
    unfold name_ref. change ([0] ++ ?k) with (0 :: k). rewrite cut_at_app by done. unfold mret, outcome_ret.
    cbn [mbind outcome_bind app]. rewrite len_app. change (len [0]) with 1.
    assert (0 < len (Name e)) as Hpos by (destruct (Name e); [done|len_lia]).
    ztest (len (Name e) + 1 =? 1) false. rewrite ReadFrom_app by done.
    replace (length (Name e ++ [0%Z]) - 1)%nat with (length (Name e)) by (rewrite length_app; simpl; lia).
    rewrite take_app_length. fold (canonical_entry e).
    change {| Name := Name e; Mode := Canonical (Mode e); Hash := Hash e |} with (canonical_entry e).
    rewrite IH.
    2:{ rewrite length_app in Hf. unfold encode_entry in Hf at 1. rewrite !length_app in Hf. simpl in Hf. lia. }
    rewrite <-app_assoc. cbn [app ascending_names]. do 2 f_equal.
    assert (match es0 ++ [canonical_entry e] with [] => None | _ => Some (treeEntrySortName (canonical_entry e)) end
      = Some (treeEntrySortName (canonical_entry e))) as -> by (by destruct es0).
    destruct es0 as [|x es0]; [done|]. rewrite len_cons. pose proof (len_nonneg es0).
    ztest (1 + len es0 =? 0) false. cbn [negb andb].
    rewrite fmap_cons. cbn [ascending_names].
    destruct (bytes_ltb (treeEntrySortName (canonical_entry e)) prev); cbn [negb andb]; [by rewrite andb_false_r|done].
Qed.

(** *** Termination and errors *)

Lemma mode_ref_cases mode seen r :
  match mode_ref mode seen r with
  | Ok (m, q) => (length q < length r)%nat
  | Err e => e = ErrMalformedTree \/ (e = ErrTreeEOF /\ r = [] /\ seen = false)
  | _ => False
  end.
Proof.
  unfold mode_ref. destruct (cut_at 32 r) as [[a b]|] eqn:Hc.
  - apply cut_at_Some in Hc as [-> _]. destruct (negb seen && (len a =? 0)); [by left|].
    destruct (mode_chunk a mode); [|by left]. cbn. rewrite length_app. simpl. lia.
  - destruct seen; [by left|]. cbn. destruct (Z.eqb_spec (len r) 0) as [Hr|]; [|by left].
    right. by rewrite (len_zero_nil r).
Qed.

Lemma entries_ref_returns fuel sz es prev srt r :
  (length r < fuel)%nat ->
  match entries_ref fuel sz es prev srt r with
  | Ok _ => True
  | Err e => e = ErrMalformedTree
  | _ => False
  end.
Proof.
  revert es prev srt r. induction fuel as [|f IH]; intros es prev srt r Hf; [lia|]. cbn [entries_ref].
  pose proof (mode_ref_cases 0 false r) as Hm. destruct (mode_ref 0 false r) as [[m q]|e| |]; [|..].
  2:{ by destruct Hm as [->|[-> _]]. }
  2,3: done.
  unfold name_ref. destruct (cut_at 0 q) as [[a b]|] eqn:Hc; [|done]. apply cut_at_Some in Hc as [-> _].
  cbn [mbind outcome_bind mret outcome_ret app]. destruct (len _ =? 1); [done|].
  pose proof (ReadFull_returns (Size (ResetBySize sz)) b) as Hr.
  unfold ReadFrom. destruct (ReadFull (Size (ResetBySize sz)) b) as [[p b']| | |] eqn:Hrd; try done.
  cbn [mbind outcome_bind mret outcome_ret]. apply IH.
  apply ReadFull_Ok_inv in Hrd as [-> _]. rewrite length_app in Hm. simpl in Hm. rewrite length_app in Hm. lia.
Qed.

Lemma Decode_spec N o :
  (1 <= N)%nat ->
  match Decode N o with
  | Ok t => eo_Type o = TreeObject /\ tree_Hash t = eo_Hash o
  | Err e => if bool_decide (eo_Type o = TreeObject) then e = ErrMalformedTree else e = ErrUnsupportedObject
  | _ => False
  end.
Proof.
  intros HN. unfold Decode. rewrite !Decode_loop_eq by done.
  destruct (bool_decide (eo_Type o = TreeObject)) eqn:Ht; cbn [negb]; [|done].
  apply bool_decide_eq_true in Ht. destruct (len (eo_Data o) =? 0); [done|].
  pose proof (entries_ref_returns (S (length (eo_Data o))) (Size (eo_Hash o)) [] [] true (eo_Data o) ltac:(lia)) as Hr.
  by destruct (entries_ref _ _ _ _ _ _) as [[es s]| | |].
Qed.

(** Decoding does not depend on how the input is buffered, and always
    ends.  [Decode] reads through a [bufio.Reader]; for any two buffer sizes
    it returns the same tree or the same error, whether modes and names fit
    the buffer or not, it terminates without a panic, and the error is
    [ErrUnsupportedObject] for objects that are not trees and
    [ErrMalformedTree] otherwise. *)
Theorem Decode_total N M o :
  (1 <= N)%nat -> (1 <= M)%nat ->
  Decode N o = Decode M o
  /\ match Decode N o with
     | Ok t => eo_Type o = TreeObject /\ tree_Hash t = eo_Hash o
     | Err e => if bool_decide (eo_Type o = TreeObject) then e = ErrMalformedTree else e = ErrUnsupportedObject
     | _ => False
     end.
Proof. intros HN HM. split; [unfold Decode; by rewrite !Decode_loop_eq|by apply Decode_spec]. Qed.

Lemma Decode_total_witness :
  let o := {| eo_Type := TreeObject; eo_Hash := ZeroHash; eo_Data := bs "100644 name" |} in
  Decode 1 o = Decode 16 o /\ Decode 1 o = Err ErrMalformedTree.
Proof.
  split; [exact (proj1 (Decode_total 1 16 _ ltac:(lia) ltac:(lia)))|vm_compute; reflexivity].
Defined.

(** *** The order of the entries *)

(** The names in order, by adjacent pairs: what the loops check. *)
Lemma ascending_names_spec prev es :
  ascending_names prev es = true <->
  match prev with Some p => Forall (fun e => bytes_le p (treeEntrySortName e)) es | None => True end
  /\ sorted_by_name es.
Proof.
  revert prev. induction es as [|e es IH]; intros prev; cbn [ascending_names].
  - split; [intros _; split; [by destruct prev|constructor]|done].
  - rewrite andb_true_iff, IH. unfold sorted_by_name. split.
    + intros [Hp [He Hs]]. split; [|by constructor]. destruct prev as [p|]; [|done].
      apply negb_true_iff, bytes_ltb_false in Hp. constructor; [done|].
      eapply Forall_impl; [exact He|]. intros e' H. by transitivity (treeEntrySortName e).
    + intros [Hp Hs]. apply StronglySorted_inv in Hs as [Hs He]. split; [|done]. destruct prev as [p|]; [|done].
      apply Forall_cons in Hp as [Hp _]. by apply negb_true_iff, bytes_ltb_false.
Qed.

Lemma entries_ref_flag fuel sz es0 prev srt r es s :
  entries_ref fuel sz es0 prev srt r = Ok (es, s) ->
  exists ks, es = es0 ++ ks
    /\ s = srt && ascending_names (match es0 with [] => None | _ => Some prev end) ks.
Proof.
  revert es0 prev srt r. induction fuel as [|f IH]; intros es0 prev srt r; [done|]. cbn [entries_ref].
  destruct (mode_ref 0 false r) as [[m q]|[]| |]; try done.
  2:{ intros [= <- <-]. exists []. by rewrite app_nil_r, andb_true_r. }
  destruct (name_ref [] q) as [[nm q']| | |]; try done. cbn [mbind outcome_bind].
  destruct (len nm =? 1); [done|]. destruct (ReadFrom (ResetBySize sz) q') as [[h q'']| | |]; try done.
  set (e := {| Name := _; Mode := _; Hash := _ |}). intros (ks & -> & ->)%IH. exists (e :: ks).
  rewrite <-app_assoc. split; [done|]. cbn [ascending_names].
  assert (match es0 ++ [e] with [] => None | _ => Some (treeEntrySortName e) end = Some (treeEntrySortName e)) as ->
    by (by destruct es0).
  destruct es0 as [|x es0]; [done|]. rewrite len_cons. pose proof (len_nonneg es0).
  ztest (1 + len es0 =? 0) false. cbn [negb andb].
  destruct (bytes_ltb (treeEntrySortName e) prev); cbn [negb andb]; [by rewrite andb_false_r|done].
Qed.

(** The cached [entriesSorted] flag of a decoded tree is accurate: it is
    set exactly when the entries are in the order of git's tree entries
    (byte-wise by name, with a slash added to directories). *)
Theorem Decode_entriesSorted N o t :
  (1 <= N)%nat -> Decode N o = Ok t -> (entriesSorted t = true <-> sorted_by_name (Entries t)).
Proof.
  intros HN. unfold Decode. rewrite Decode_loop_eq by done.
  destruct (negb _); [done|]. destruct (len (eo_Data o) =? 0).
  - intros [= <-]. cbn. split; [constructor|done].
  - destruct (entries_ref _ _ _ _ _ _) as [[es s]| | |] eqn:He; try done. intros [= <-]. cbn [Entries entriesSorted].
    apply entries_ref_flag in He as (ks & -> & ->). cbn [app andb]. rewrite ascending_names_spec. naive_solver.
Qed.

Lemma Decode_entriesSorted_witness :
  let o := {| eo_Type := TreeObject; eo_Hash := ZeroHash;
              eo_Data := bs "100644 b" ++ [0] ++ replicate 20 7 ++ bs "40000 a" ++ [0] ++ replicate 20 7 |} in
  exists t, Decode 16 o = Ok t /\ ~ sorted_by_name (Entries t).
Proof.
  intros o. destruct (Decode 16 o) as [t| | |] eqn:Ho; try (vm_compute in Ho; discriminate).
  exists t. split; [done|]. intros Hs. apply (Decode_entriesSorted 16 o t ltac:(lia) Ho) in Hs.
  revert Hs. assert (Decode 16 o = Ok t) as Hd by done. vm_compute in Hd. injection Hd as <-. done.
Defined.

(** *** Validation *)

(** The names of the files that git reads its configuration from, in the
    spellings HFS+ and NTFS take for them. *)
Definition metadata_name (name : bytes) : bool :=
  IsHFSDotGitmodules name || IsNTFSDotGitmodules name
  || (IsHFSDotGitattributes name || IsNTFSDotGitattributes name)
  || (IsHFSDotGitignore name || IsNTFSDotGitignore name)
  || (IsHFSDotMailmap name || IsNTFSDotMailmap name).

(** One well-formed entry. *)
Record valid_entry (VolumeName : bytes -> bytes) (e : TreeEntry) : Prop := {
  ve_hash : IsZero (Hash e) = false;
  ve_name : Name e <> [] /\ 47 ∉ Name e /\ len (Name e) <= 4096;
  ve_path : ValidTreePath VolumeName (Name e) = true;
  ve_mode : Mode e ∈ [Regular; Executable; Symlink; Dir; Submodule; Deprecated];
  ve_link : Mode e = Symlink -> metadata_name (Name e) = false;
}.

Lemma isValidTreeMode_iff m :
  isValidTreeMode m = true <-> m ∈ [Regular; Executable; Symlink; Dir; Submodule; Deprecated].
Proof. unfold isValidTreeMode. rewrite !orb_true_iff, !Z.eqb_eq. set_solver. Qed.

Lemma symlink_violation_nil name : symlink_violation name = [] <-> metadata_name name = false.
Proof.
  unfold symlink_violation, metadata_name.
  repeat match goal with |- context [if ?b then _ else _] => destruct b end; cbn; try done; by rewrite ?orb_true_r.
Qed.

Lemma name_violations_nil V name seen :
  (name_violations V name seen).1 = [] <->
  (name <> [] /\ 47 ∉ name /\ len name <= 4096) /\ ValidTreePath V name = true /\ name ∉ seen.
Proof.
  unfold name_violations, maxTreeEntryNameLen. rewrite Z.gtb_ltb.
  destruct (bool_decide_reflect (name = [])); [naive_solver|].
  destruct (bool_decide_reflect (47 ∈ name)); [naive_solver|]. cbn [fst].
  destruct (ValidTreePath V name); [|naive_solver]. destruct (bool_decide_reflect (name ∈ seen)); [naive_solver|].
  cbn [app]. destruct (Z.ltb_spec 4096 (len name)); naive_solver lia.
Qed.

Lemma name_violations_seen V name seen :
  name <> [] -> 47 ∉ name -> (name_violations V name seen).2 = {[ name ]} ∪ seen.
Proof. intros H1 H2. unfold name_violations. by rewrite (bool_decide_eq_false_2 _ H1), (bool_decide_eq_false_2 _ H2). Qed.

Lemma Validate_loop_nil V es seen prev :
  Validate_loop V es seen prev = [] <->
  Forall (valid_entry V) es /\ NoDup (Name <$> es) /\ Forall (fun e => Name e ∉ seen) es
  /\ ascending_names prev es = true.
Proof.
  revert seen prev. induction es as [|e es IH]; intros seen prev; cbn [Validate_loop ascending_names].
  { split; [repeat constructor|done]. }
  pose proof (name_violations_nil V (Name e) seen) as Hn. pose proof (name_violations_seen V (Name e) seen) as Hs.
  destruct (name_violations V (Name e) seen) as [names seen']. cbn [fst snd] in *.
  rewrite !app_nil, IH, Hn, fmap_cons, !Forall_cons, NoDup_cons, andb_true_iff.
  assert ((if negb (isValidTreeMode (Mode e)) then [BadMode] else []) = [] <-> isValidTreeMode (Mode e) = true) as ->
    by (by destruct (isValidTreeMode (Mode e))).
  rewrite isValidTreeMode_iff.
  assert ((if Mode e =? Symlink then symlink_violation (Name e) else []) = []
    <-> (Mode e = Symlink -> metadata_name (Name e) = false)) as ->.
  { destruct (Z.eqb_spec (Mode e) Symlink); [|naive_solver]. rewrite symlink_violation_nil. naive_solver. }
  assert (match prev with Some p => if bytes_ltb (treeEntrySortName e) p then [NotSorted] else [] | None => [] end = []
    <-> match prev with Some p => negb (bytes_ltb (treeEntrySortName e) p) | None => true end = true) as ->.
  { destruct prev as [p|]; [|done]. by destruct (bytes_ltb (treeEntrySortName e) p). }
  assert ((if IsZero (Hash e) then [NullHash] else []) = [] <-> IsZero (Hash e) = false) as ->
    by (by destruct (IsZero (Hash e))).
  assert (forall ks : list TreeEntry, Forall (fun k => Name k ∉ {[ Name e ]} ∪ seen) ks
    <-> Name e ∉ Name <$> ks /\ Forall (fun k => Name k ∉ seen) ks) as Hsplit.
  { intros ks. rewrite list_elem_of_fmap, !Forall_forall. set_solver. }
  split.
  - intros (Hz & ((Hne & Hns & Hl) & Hp & Hni) & Hm & Hk & Ha & Hes & Hnd & Hf & Has).
    rewrite Hs, Hsplit in Hf by done. destruct Hf as [Hf1 Hf2]. repeat split; try done.
  - intros ([[Hz Hn' Hp Hm Hk] Hes] & [Hnd1 Hnd2] & [Hse Hf] & Ha & Has). destruct Hn' as (Hne & Hns & Hl).
    rewrite Hs, Hsplit by done. done.
Qed.

(** C38: [Validate] reports nothing exactly for well-formed trees: every entry
    has a non-zero hash, a name that is not empty, has no slash, at most 4096
    bytes and a safe path, a valid mode, and no symbolic link is named like
    one of git's configuration files; no name occurs twice, and the entries
    are in order. *)
Theorem Validate_iff V t :
  Validate V t = [] <->
  Forall (valid_entry V) (Entries t) /\ NoDup (Name <$> Entries t) /\ sorted_by_name (Entries t).
Proof.
  unfold Validate. rewrite Validate_loop_nil, ascending_names_spec.
  assert (Forall (fun e => Name e ∉ (∅ : gset bytes)) (Entries t)) by (apply Forall_forall; set_solver).
  naive_solver.
Qed.

(** *** Encoding and decoding *)

Lemma valid_entry_readable V sz e :
  valid_entry V e -> oid_ok (Hash e) -> Size (Hash e) = sz -> readable sz e.
Proof.
  intros [Hz (Hne & _ & _) Hp Hm _] Ho Hs. constructor; [|..|done].
  - split; [done|]. intros H0. apply ValidTreePath_iff in Hp as [Hp _].
    rewrite Forall_forall in Hp. specialize (Hp 0 H0). lia.
  - rewrite !elem_of_cons in Hm. destruct Hm as [->|[->|[->|[->|[->|[->|[]%not_elem_of_nil]]]]]]; vm_compute; done.
Qed.

Lemma canonical_sort_name V e : valid_entry V e -> treeEntrySortName (canonical_entry e) = treeEntrySortName e.
Proof.
  intros [_ _ _ Hm _]. destruct e as [n m h]. unfold treeEntrySortName. cbn in *.
  rewrite !elem_of_cons in Hm. by destruct Hm as [->|[->|[->|[->|[->|[->|[]%not_elem_of_nil]]]]]].
Qed.

Lemma canonical_sorted V es :
  Forall (valid_entry V) es -> sorted_by_name es -> sorted_by_name (canonical_entry <$> es).
Proof.
  intros Hv Hs. induction Hs as [|e es Hs IH He]; [constructor|]. apply Forall_cons in Hv as [Hv Hvs].
  rewrite fmap_cons. constructor; [by apply IH|]. rewrite Forall_fmap. rewrite Forall_forall in *. intros k Hk.
  cbn. rewrite (canonical_sort_name V e), (canonical_sort_name V k) by auto. by apply He.
Qed.

(** C37: encoding and decoding.  [Encode] refuses trees that [Validate] finds
    fault with.  What it writes for any other, whose hashes have the size of
    the object's own, decodes to the same entries (a deprecated group-writable
    file mode becomes a regular one), with the sorted flag set. *)
Theorem tree_roundtrip V N t data h :
  (1 <= N)%nat -> oid_ok h -> Forall (fun e => oid_ok (Hash e) /\ Size (Hash e) = Size h) (Entries t) ->
  Encode V t = Ok data ->
  Decode N {| eo_Type := TreeObject; eo_Hash := h; eo_Data := data |}
  = Ok {| Entries := canonical_entry <$> Entries t; tree_Hash := h; entriesSorted := true |}.
Proof.
  intros HN Hh Hes. unfold Encode. destruct (bool_decide_reflect (Validate V t = [])) as [Hv|]; [|done].
  intros [= <-]. apply Validate_iff in Hv as (Hv & _ & Hs). unfold Decode. cbn [eo_Type eo_Hash eo_Data].
  rewrite bool_decide_eq_true_2 by done. cbn [negb]. rewrite Decode_loop_eq by done.
  assert (Forall (readable (Size h)) (Entries t)) as Hr.
  { rewrite Forall_forall in *. intros e He. destruct (Hes e He). by apply (valid_entry_readable V); auto. }
  rewrite entries_ref_encode; [|by destruct (Size_cases h) as [[]|[]]; auto|done|lia].
  cbn [app andb mbind outcome_bind mret outcome_ret].
  rewrite (proj2 (ascending_names_spec None _)) by (split; [done|by apply (canonical_sorted V)]).
  destruct (Z.eqb_spec (len (concat (encode_entry <$> Entries t))) 0) as [Hz|]; [|done].
  destruct (Entries t) as [|e es]; [done|]. exfalso. rewrite fmap_cons in Hz. cbn [concat] in Hz.
  unfold encode_entry in Hz at 1. len_lia.
Qed.

Lemma tree_roundtrip_witness :
  let h := oid_of UnsetObjectFormat (replicate 20 7) in
  let e n m := {| Name := n; Mode := m; Hash := h |} in
  let t := {| Entries := [e (bs "a.b") Regular; e (bs "a") Dir; e (bs "b") Deprecated]; tree_Hash := h;
              entriesSorted := true |} in
  exists data, Encode (fun _ => []) t = Ok data
  /\ Decode 3 {| eo_Type := TreeObject; eo_Hash := h; eo_Data := data |}
     = Ok {| Entries := [e (bs "a.b") Regular; e (bs "a") Dir; e (bs "b") Regular]; tree_Hash := h;
             entriesSorted := true |}.
Proof.
  intros h e t. destruct (Encode (fun _ => []) t) as [data| | |] eqn:Hd; try (vm_compute in Hd; discriminate).
  exists data. split; [done|]. assert (oid_ok h) as Hh.
  { constructor; [reflexivity|apply (bool_decide_unpack _); vm_compute; exact I|reflexivity|done]. }
  rewrite (tree_roundtrip (fun _ => []) 3 t data h); [reflexivity|lia|done|repeat constructor; done|done].
Defined.

(** *** Lookup *)

(** The least index of an entry that sorts at or after [name]. *)
Lemma searchEntryIndex_spec t name :
  len (Entries t) < 2 ^ 63 -> sorted_by_name (Entries t) ->
  exists k, searchEntryIndex t name = Ok (Z.of_nat k)
    /\ (forall a e, Entries t !! a = Some e -> (a < k)%nat -> bytes_lt (treeEntrySortName e) name)
    /\ (forall a e, Entries t !! a = Some e -> (k <= a)%nat -> bytes_le name (treeEntrySortName e)).
Proof.
  intros Hl Hs. unfold searchEntryIndex, Search. set (f := fun i : Z => match Entries t !! Z.to_nat i with Some _ => _ | None => _ end).
  pose proof (len_nonneg (Entries t)) as Hn0.
  destruct (Search_loop_spec (E := tree_error) f (S (Z.to_nat (len (Entries t)))) 0 (len (Entries t))) as (k & -> & Hk & Hlo & Hhi);
    [lia|done|lia| |].
  - intros a b Hab Hb. unfold f.
    destruct (lookup_lt_is_Some_2 (Entries t) (Z.to_nat b)) as [eb Heb]; [unfold len in *; lia|].
    destruct (lookup_lt_is_Some_2 (Entries t) (Z.to_nat a)) as [ea Hea]; [unfold len in *; lia|].
    rewrite Hea, Heb, !negb_true_iff, !bytes_ltb_false. intros Ha.
    destruct (decide (a = b)) as [->|]; [congruence|].
    change (bytes_le name (treeEntrySortName eb)). transitivity (treeEntrySortName ea); [exact Ha|].
    apply (StronglySorted_index _ _ (Z.to_nat a) (Z.to_nat b) ea eb Hs); done || lia.
  - exists (Z.to_nat k). rewrite Z2Nat.id by lia. split; [done|]. split; intros a e He Ha.
    + specialize (Hlo (Z.of_nat a) ltac:(lia)). unfold f in Hlo. rewrite Nat2Z.id, He in Hlo.
      by apply bytes_ltb_lt, negb_false_iff.
    + apply lookup_lt_Some in He as Hlt. specialize (Hhi (Z.of_nat a) ltac:(unfold len; lia)).
      unfold f in Hhi. rewrite Nat2Z.id, He in Hhi. by apply bytes_ltb_false, negb_true_iff.
Qed.

Lemma name_le_sort e : bytes_le (Name e) (treeEntrySortName e).
Proof. unfold treeEntrySortName. destruct (_ =? _); [|done]. by apply bytes_lt_le, bytes_lt_app. Qed.

Lemma sort_name_le e : bytes_le (treeEntrySortName e) (Name e ++ bs "/").
Proof. unfold treeEntrySortName. destruct (_ =? _); [done|]. by apply bytes_lt_le, bytes_lt_app. Qed.

(** A sort name is the name or the name and a slash. *)
Lemma sort_name_eq e name :
  no_slash e -> 47 ∉ name -> treeEntrySortName e = name \/ treeEntrySortName e = name ++ bs "/" -> Name e = name.
Proof.
  unfold no_slash, treeEntrySortName. intros He Hn. destruct (Mode e =? Dir).
  - intros [H|H]; [|by apply app_inj_tail in H as [-> _]].
    exfalso. apply Hn. rewrite <-H. apply elem_of_app. right. by left.
  - intros [H|H]; [done|]. exfalso. apply He. rewrite H. apply elem_of_app. right. by left.
Qed.

Lemma entry_named_Some t i name e :
  entry_named t i name = Some e -> e ∈ Entries t /\ Name e = name.
Proof.
  unfold entry_named. destruct (Entries t !! Z.to_nat i) as [e'|] eqn:He; [|done].
  destruct (bool_decide_reflect (Name e' = name)); [|done]. intros [= <-].
  split; [by apply (list_elem_of_lookup_2 _ (Z.to_nat i))|done].
Qed.

Lemma scan_entries_Some es name past e : scan_entries es name past = Some e -> e ∈ es /\ Name e = name.
Proof.
  induction es as [|k es IH]; [done|]. cbn [scan_entries]. destruct (bool_decide_reflect (Name k = name)).
  - intros [= <-]. split; [by left|done].
  - destruct (bytes_ltb past (treeEntrySortName k)); [done|]. intros [? ?]%IH. split; [by right|done].
Qed.

(** The first entry of a name, in the order of the tree. *)
Definition first_entry (es : list TreeEntry) (name : bytes) : option TreeEntry :=
  snd <$> list_find (fun e => Name e = name) es.

Lemma scan_entries_sorted es name :
  sorted_by_name es -> scan_entries es name (name ++ bs "/") = first_entry es name.
Proof.
  unfold first_entry. induction 1 as [|e es Hs IH He]; [done|]. cbn [scan_entries list_find].
  destruct (decide (Name e = name)) as [Hn|Hn]; [by rewrite bool_decide_eq_true_2|].
  rewrite bool_decide_eq_false_2 by done. 
  destruct (bytes_ltb (name ++ bs "/") (treeEntrySortName e)) eqn:Hl.
  - apply bytes_ltb_lt in Hl. destruct (list_find _ es) as [[i k]|] eqn:Hf; [|done]. exfalso.
    apply list_find_Some in Hf as (Hk & Hkn & _). rewrite Forall_forall in He.
    apply (He k); [by apply (list_elem_of_lookup_2 _ i)|]. eapply bytes_le_lt_trans; [|exact Hl].
    rewrite <-Hkn. apply sort_name_le.
  - rewrite IH. by destruct (list_find _ es) as [[i k]|].
Qed.

Section found.
Context (t : Tree) (name : bytes) (m : nat) (e : TreeEntry).
Context (Hl : len (Entries t) < 2 ^ 63) (Hs : sorted_by_name (Entries t)) (Hns : Forall no_slash (Entries t)).
Context (Hm : Entries t !! m = Some e) (He : Name e = name).
Context (Hfirst : forall j y, Entries t !! j = Some y -> (j < m)%nat -> Name y <> name).

Lemma found_no_slash : 47 ∉ name.
Proof. rewrite <-He. rewrite Forall_forall in Hns. apply Hns. by apply (list_elem_of_lookup_2 _ m). Qed.

(** The search for a key stops at the entry or before it, and at the entry
    when the key is its sort name. *)
Lemma found_key key :
  key = name \/ key = name ++ bs "/" -> bytes_le key (treeEntrySortName e) ->
  exists k, searchEntryIndex t key = Ok (Z.of_nat k) /\ (k <= m)%nat /\ (treeEntrySortName e = key -> k = m).
Proof.
  intros Hkey Hle. destruct (searchEntryIndex_spec t key Hl Hs) as (k & Hk & Hlo & Hhi). exists k. split; [done|].
  assert (k <= m)%nat as Hkm.
  { destruct (Nat.le_gt_cases k m); [done|]. by destruct Hle; apply (Hlo m). }
  split; [done|]. intros Heq. destruct (decide (k = m)) as [|Hne]; [done|]. exfalso.
  destruct (lookup_lt_is_Some_2 (Entries t) k) as [ek Hek]; [apply lookup_lt_Some in Hm; lia|].
  apply (Hfirst k ek Hek ltac:(lia)). apply sort_name_eq; [|apply found_no_slash|].
  - rewrite Forall_forall in Hns. apply Hns. by apply (list_elem_of_lookup_2 _ k).
  - assert (treeEntrySortName ek = key) as ->; [|done]. apply bytes_le_antisym; [|by apply (Hhi k)].
    rewrite <-Heq. apply (StronglySorted_index _ _ k m ek e Hs); done || lia.
Qed.

Lemma entry_named_before k :
  (k <= m)%nat -> entry_named t (Z.of_nat k) name = if decide (k = m) then Some e else None.
Proof.
  intros Hk. unfold entry_named. rewrite Nat2Z.id. destruct (decide (k = m)) as [->|Hne].
  - by rewrite Hm, bool_decide_eq_true_2.
  - destruct (Entries t !! k) as [y|] eqn:Hy; [|done]. rewrite bool_decide_eq_false_2; [done|].
    apply (Hfirst k); done || lia.
Qed.

(** At the search result for the name, or else at the one for the name with a
    slash. *)
Lemma searchEntry_found : searchEntry t name = Ok (Some e).
Proof.
  unfold searchEntry.
  destruct (found_key name) as (k & -> & Hk & Hkeq); [by left|rewrite <-He; apply name_le_sort|].
  cbn [mbind outcome_bind]. rewrite entry_named_before by done. destruct (decide (k = m)) as [|Hne]; [done|].
  assert (treeEntrySortName e = name ++ bs "/") as Hsn.
  { destruct (Z.eqb_spec (Mode e) Dir) as [Hd|Hd].
    - unfold treeEntrySortName. by rewrite Hd, He.
    - destruct Hne. apply Hkeq. unfold treeEntrySortName. by rewrite (proj2 (Z.eqb_neq _ _) Hd). }
  destruct (found_key (name ++ bs "/")) as (k2 & -> & Hk2 & Hk2eq); [by right|by rewrite Hsn|].
  rewrite (Hk2eq Hsn). cbn [mbind outcome_bind]. by rewrite entry_named_before, decide_True by done.
Qed.
End found.

Lemma searchEntry_ok t name :
  len (Entries t) < 2 ^ 63 -> sorted_by_name (Entries t) ->
  exists r, searchEntry t name = Ok r /\ forall e, r = Some e -> e ∈ Entries t /\ Name e = name.
Proof.
  intros Hl Hs. unfold searchEntry.
  destruct (searchEntryIndex_spec t name Hl Hs) as (k & -> & _). cbn [mbind outcome_bind].
  destruct (entry_named t (Z.of_nat k) name) as [e|] eqn:He.
  - exists (Some e). split; [done|]. intros ? [= <-]. by apply entry_named_Some in He.
  - destruct (searchEntryIndex_spec t (name ++ bs "/") Hl Hs) as (k2 & -> & _). cbn [mbind outcome_bind].
    eexists. split; [reflexivity|]. intros e He2. by apply entry_named_Some in He2.
Qed.

Lemma entry_spec t name :
  len (Entries t) < 2 ^ 63 ->
  (sorted_by_name (Entries t) -> Forall no_slash (Entries t) ->
   entry t name = match first_entry (Entries t) name with Some e => Ok e | None => Err ErrEntryNotFound end)
  /\ (forall e, entry t name = Ok e -> e ∈ Entries t /\ Name e = name).
Proof.
  intros Hl. split.
  - intros Hs Hns. unfold entry. destruct (entriesSorted t).
    + unfold first_entry. destruct (list_find (fun e => Name e = name) (Entries t)) as [[m e]|] eqn:Hf.
      * apply list_find_Some in Hf as (Hm & He & Hfirst). by rewrite (searchEntry_found t name m e Hl Hs Hns Hm He Hfirst).
      * destruct (searchEntry_ok t name Hl Hs) as (r & -> & Hr). cbn.
        destruct r as [e|]; [|done]. destruct (Hr e eq_refl) as [He Hn]. exfalso.
        apply list_find_None in Hf. rewrite Forall_forall in Hf. by apply (Hf e).
    + rewrite scan_entries_sorted by done. by destruct (first_entry (Entries t) name).
  - intros e. unfold entry. destruct (entriesSorted t).
    + unfold searchEntry. destruct (searchEntryIndex t name) as [i| | |]; try done. cbn [mbind outcome_bind].
      destruct (entry_named t i name) as [e1|] eqn:H1; [intros [= <-]; by apply entry_named_Some in H1|].
      destruct (searchEntryIndex t (name ++ bs "/")) as [i2| | |]; try done. cbn [mbind outcome_bind mret outcome_ret].
      destruct (entry_named t i2 name) as [e2|] eqn:H2; [|done]. intros [= <-]. by apply entry_named_Some in H2.
    + destruct (scan_entries _ _ _) as [e'|] eqn:Hsc; [|done]. intros [= <-]. by apply scan_entries_Some in Hsc.
Qed.

(** The lookup of one name.  In a tree whose entries are sorted and whose
    names have no slash, [entry] finds the first entry of the given name, or
    reports [ErrEntryNotFound] when there is none: with the cached flag set by
    the binary search, which tries the name as a file's and then as a
    directory's, and with the flag clear by the scan, which may stop early.
    In any tree, what it finds is an entry of that name. *)
Theorem entry_lookup t name :
  len (Entries t) < 2 ^ 63 ->
  (sorted_by_name (Entries t) -> Forall no_slash (Entries t) ->
   entry t name = match first_entry (Entries t) name with Some e => Ok e | None => Err ErrEntryNotFound end)
  /\ (forall e, entry t name = Ok e -> e ∈ Entries t /\ Name e = name).
Proof. exact (entry_spec t name). Qed.

Lemma entry_lookup_witness :
  let h := oid_of UnsetObjectFormat (replicate 20 7) in
  let e n m := {| Name := n; Mode := m; Hash := h |} in
  let t := {| Entries := [e (bs "a.b") Regular; e (bs "a") Dir; e (bs "b") Regular]; tree_Hash := h;
              entriesSorted := true |} in
  entry t (bs "a") = Ok (e (bs "a") Dir) /\ entry t (bs "c") = Err ErrEntryNotFound.
Proof.
  intros h e t. assert (sorted_by_name (Entries t)) as Hs.
  { apply (ascending_names_spec None). reflexivity. }
  assert (Forall no_slash (Entries t)) as Hn.
  { repeat constructor; unfold no_slash; apply (bool_decide_unpack _); vm_compute; exact I. }
  split.
  - rewrite (proj1 (entry_lookup t (bs "a") ltac:(unfold len; simpl; lia)) Hs Hn). reflexivity.
  - rewrite (proj1 (entry_lookup t (bs "c") ltac:(unfold len; simpl; lia)) Hs Hn). reflexivity.
Defined.
