(* ===== verification/Refname.v ===== *)
(** * References and their names: [plumbing/reference.go]

    The naming rules ([Validate], [ValidateBranchName], [ValidateTagName]) and
    the storage-safety checks ([IsSafe], [IsRoot]) on reference names, and the
    references themselves. *)
From stdpp Require Import base list numbers option strings sets.
From Stdlib Require Import ZArith Lia.
From S2P Require Import Prelude GoStrings ObjectId.

Open Scope Z_scope.
#[local] Ltac Zify.zify_post_hook ::= Z.to_euclidean_division_equations.

(** ** Names *)

Abbreviation ReferenceName := bytes.

Definition RefPrefix : bytes := bs "refs/".
Definition RefHeadPrefix : bytes := RefPrefix ++ bs "heads/".
Definition refTagPrefix : bytes := RefPrefix ++ bs "tags/".
Definition refRemotePrefix : bytes := RefPrefix ++ bs "remotes/".
Definition refNotePrefix : bytes := RefPrefix ++ bs "notes/".
Definition symrefPrefix : bytes := bs "ref: ".
Definition HEAD : ReferenceName := bs "HEAD".

Definition NewBranchReferenceName (name : bytes) : ReferenceName := RefHeadPrefix ++ name.
Definition NewNoteReferenceName (name : bytes) : ReferenceName := refNotePrefix ++ name.
Definition NewRemoteReferenceName (remote name : bytes) : ReferenceName :=
  refRemotePrefix ++ remote ++ bs "/" ++ name.
Definition NewRemoteHEADReferenceName (remote : bytes) : ReferenceName :=
  refRemotePrefix ++ remote ++ bs "/" ++ HEAD.
Definition NewTagReferenceName (name : bytes) : ReferenceName := refTagPrefix ++ name.

Definition IsBranch (r : ReferenceName) : bool := HasPrefix r RefHeadPrefix.
Definition IsNote (r : ReferenceName) : bool := HasPrefix r refNotePrefix.
Definition IsRemote (r : ReferenceName) : bool := HasPrefix r refRemotePrefix.
Definition IsTag (r : ReferenceName) : bool := HasPrefix r refTagPrefix.
Definition IsPeeled (r : ReferenceName) : bool := HasSuffix r (bs "^{}").
Definition IsUnderRefs (r : ReferenceName) : bool := HasPrefix r RefPrefix.

(** *** Storage safety *)

Definition is_upper (c : Z) : bool := (65 <=? c) && (c <=? 90).

Definition unsafe_part (part : bytes) : bool :=
  bool_decide (part = []) || bool_decide (part = bs ".") || bool_decide (part = bs "..").

Definition IsSafe (r : ReferenceName) : bool :=
  if bool_decide (r = []) then false
  else
    match CutPrefix r RefPrefix with
    | Some rest =>
        if bool_decide (rest = []) || Contains rest (bs "\") then false
        else negb (existsb unsafe_part (Split rest 47))
    | None => forallb (fun c => is_upper c || (c =? 95)) r
    end.

Definition irregular_roots : list ReferenceName :=
  [bs "HEAD"; bs "AUTO_MERGE"; bs "BISECT_EXPECTED_REV"; bs "NOTES_MERGE_PARTIAL"; bs "NOTES_MERGE_REF";
   bs "MERGE_AUTOSTASH"].

Definition IsRoot (r : ReferenceName) : bool :=
  if bool_decide (r = []) then false
  else if negb (forallb (fun c => is_upper c || (c =? 95) || (c =? 45)) r) then false
  else if HasSuffix r (bs "_HEAD") then true
  else bool_decide (r ∈ irregular_roots).

(** *** Naming rules *)

(** [ctrlSeqs]: the bytes 0 to 31 and 127. *)
Definition ctrlSeq (c : Z) : bool := (c <? 32) || (c =? 127).

Definition bad_part (part : bytes) : bool :=
  HasPrefix part (bs ".")
  || Contains part (bs "..")
  || existsb ctrlSeq part
  || ContainsAny part (bs "~^:?*[ " ++ [9; 10])
  || Contains part (bs "@{")
  || Contains part (bs "\")
  || HasSuffix part (bs ".lock").

(** True when no error is returned; every error wraps
    [ErrInvalidReferenceName]. *)
Definition Validate (r : ReferenceName) : bool :=
  if len r =? 0 then false
  else if bool_decide (r = HEAD) then true
  else if bool_decide (r = bs "@") then false
  else if HasSuffix r (bs ".") then false
  else
    let parts := Split r 47 in
    if len parts <? 2 then false
    else negb (existsb (fun part => (len part =? 0) || bad_part part) parts).

Definition ValidateBranchName (name : bytes) : bool :=
  let r := NewBranchReferenceName name in
  if HasPrefix name (bs "-") || bool_decide (r = RefHeadPrefix ++ bs "HEAD") then false else Validate r.

Definition ValidateTagName (name : bytes) : bool :=
  let r := NewTagReferenceName name in
  if HasPrefix name (bs "-") || bool_decide (name = bs "HEAD") then false else Validate r.

(** ** References *)

Inductive ReferenceType := InvalidReference | HashReference | SymbolicReference.

#[export] Instance ReferenceType_eq_dec : EqDecision ReferenceType.
Proof. solve_decision. Defined.

Definition ReferenceType_String (t : ReferenceType) : bytes :=
  match t with
  | InvalidReference => bs "invalid-reference"
  | HashReference => bs "hash-reference"
  | SymbolicReference => bs "symbolic-reference"
  end.

Record Reference := {
  ref_t : ReferenceType;
  ref_n : ReferenceName;
  ref_h : ObjectID;
  ref_target : ReferenceName;
}.

#[export] Instance Reference_eq_dec : EqDecision Reference.
Proof. solve_decision. Defined.

Definition NewSymbolicReference (n target : ReferenceName) : Reference :=
  {| ref_t := SymbolicReference; ref_n := n; ref_h := ZeroHash; ref_target := target |}.

Definition NewHashReference (n : ReferenceName) (h : ObjectID) : Reference :=
  {| ref_t := HashReference; ref_n := n; ref_h := h; ref_target := [] |}.

Definition NewHash (s : bytes) : ObjectID := (FromHex s).1.

Definition NewReferenceFromStrings (name target : bytes) : Reference :=
  match CutPrefix target symrefPrefix with
  | Some t => NewSymbolicReference name t
  | None => NewHashReference name (NewHash target)
  end.

Definition Strings (r : Reference) : bytes * bytes :=
  (ref_n r,
   match ref_t r with
   | HashReference => oid_String (ref_h r)
   | SymbolicReference => symrefPrefix ++ ref_target r
   | InvalidReference => []
   end).

Definition Reference_String (r : Reference) : bytes :=
  match ref_t r with
  | HashReference => oid_String (ref_h r) ++ bs " " ++ ref_n r
  | SymbolicReference => (symrefPrefix ++ ref_target r) ++ bs " " ++ ref_n r
  | InvalidReference => []
  end.

Example valid_names :
  Validate (bs "refs/heads/@") = true /\ Validate (bs "refs/heads/a..b") = false
  /\ Validate (bs "refs/heads/a.lock") = false /\ IsSafe (bs "refs/heads/../../config") = false
  /\ IsSafe (bs "ORIG_HEAD") = true /\ ValidateBranchName (bs "-x") = false.
Proof. repeat split; reflexivity. Qed.

(** ** What the naming rules accept *)

(** The bytes a name may have, apart from the slashes. *)
Definition name_char (c : Z) : Prop := 32 < c /\ c <> 127 /\ c ∉ bs "~^:?*[\".

Record valid_part (part : bytes) : Prop := {
  vp_nonempty : part <> [];
  vp_chars : Forall name_char part;
  vp_dot : forall q, part <> bs "." ++ q;
  vp_dots : forall a b, part <> a ++ bs ".." ++ b;
  vp_brace : forall a b, part <> a ++ bs "@{" ++ b;
  vp_lock : forall a, part <> a ++ bs ".lock";
}.

Lemma not_Contains s sub : Contains s sub = false <-> forall a b, s <> a ++ sub ++ b.
Proof.
  rewrite <-not_true_iff_false, Contains_spec. split; [intros H a b ->; apply H; eauto|].
  intros H (a & b & ->). by apply (H a b).
Qed.

Lemma not_HasPrefix s p : HasPrefix s p = false <-> forall q, s <> p ++ q.
Proof.
  rewrite <-not_true_iff_false, HasPrefix_spec. split; [intros H q ->; apply H; eauto|].
  intros H (q & ->). by apply (H q).
Qed.

Lemma not_HasSuffix s p : HasSuffix s p = false <-> forall q, s <> q ++ p.
Proof.
  rewrite <-not_true_iff_false, HasSuffix_spec. split; [intros H q ->; apply H; eauto|].
  intros H (q & ->). by apply (H q).
Qed.

Lemma existsb_none {A} (f : A -> bool) l : existsb f l = false <-> Forall (fun x => f x = false) l.
Proof.
  induction l as [|x l IH]; cbn [existsb]; [split; [constructor|done]|].
  by rewrite orb_false_iff, IH, Forall_cons.
Qed.

Lemma not_Contains_byte s c : Contains s [c] = false <-> c ∉ s.
Proof.
  rewrite not_Contains. split.
  - intros H (a & b & ->)%list_elem_of_split. by apply (H a b).
  - intros H a b ->. apply H. rewrite !elem_of_app, list_elem_of_singleton. auto.
Qed.

Lemma name_chars_spec part :
  Forall name_char part <->
  existsb ctrlSeq part = false /\ ContainsAny part (bs "~^:?*[ " ++ [9; 10]) = false /\ 92 ∉ part.
Proof.
  unfold ContainsAny. rewrite !existsb_none, !Forall_forall.
  assert (forall c, name_char c <->
    ctrlSeq c = false /\ bool_decide (c ∈ bs "~^:?*[ " ++ [9; 10]) = false /\ c <> 92) as Hc.
  { intros c. unfold name_char, ctrlSeq. rewrite bool_decide_eq_false, orb_false_iff, Z.ltb_ge, Z.eqb_neq.
    change (bs "~^:?*[\") with [126; 94; 58; 63; 42; 91; 92].
    change (bs "~^:?*[ " ++ [9; 10]) with [126; 94; 58; 63; 42; 91; 32; 9; 10].
    rewrite !not_elem_of_cons. split; intros; destruct_and?; repeat split; try lia; apply not_elem_of_nil. }
  split.
  - intros H. split; [|split]; [intros c ?; by apply Hc, H..|]. intros ?. by destruct (proj1 (Hc 92) (H 92 ltac:(done))) as (_ & _ & []).
  - intros (H1 & H2 & H3) c Hin. apply Hc. split; [by apply H1|]. split; [by apply H2|]. by intros ->.
Qed.

Lemma bad_part_false part : (len part =? 0) || bad_part part = false <-> valid_part part.
Proof.
  unfold bad_part. rewrite !orb_false_iff, not_HasPrefix, !not_Contains, not_HasSuffix, Z.eqb_neq.
  assert (len part <> 0 <-> part <> []) as -> by (split; [by intros H ->|intros H Hl; by apply H, len_zero_nil]).
  rewrite <-(not_Contains part (bs "\")). change (bs "\") with [92]. rewrite not_Contains_byte.
  pose proof (name_chars_spec part) as Hc. split.
  - intros (? & ((((((? & ?) & ?) & ?) & ?) & ?) & ?)). constructor; try done. by apply Hc.
  - intros [? [? [? ?]]%Hc ? ? ? ?]. done.
Qed.

(** A name that obeys git's rules: at least two components, each of them
    valid, and no dot at the end. *)
Definition well_formed_name (r : ReferenceName) : Prop :=
  exists parts, r = Join parts 47 /\ (2 <= length parts)%nat
    /\ Forall (fun p => valid_part p /\ 47 ∉ p) parts /\ forall q, r <> q ++ bs ".".

Lemma well_formed_parts r : well_formed_name r ->
  (2 <= length (Split r 47))%nat /\ Forall valid_part (Split r 47) /\ forall q, r <> q ++ bs ".".
Proof.
  intros (parts & -> & Hlen & Hp & Hdot). assert (Split (Join parts 47) 47 = parts) as ->.
  { apply Split_Join; [by intros ->; simpl in Hlen; lia|]. eapply Forall_impl; [exact Hp|]. by intros ? []. }
  split; [done|]. split; [|done]. eapply Forall_impl; [exact Hp|]. by intros ? [].
Qed.

Lemma Validate_spec r : Validate r = true <-> r = HEAD \/ well_formed_name r.
Proof.
  unfold Validate. destruct (Z.eqb_spec (len r) 0) as [Hz|Hz].
  { apply len_zero_nil in Hz as ->. split; [done|]. intros [|Hw]; [done|].
    apply well_formed_parts in Hw as [Hl _]. simpl in Hl. lia. }
  destruct (bool_decide_reflect (r = HEAD)) as [->|Hh]; [split; auto|].
  destruct (bool_decide_reflect (r = bs "@")) as [->|Hat].
  { split; [done|]. intros [|Hw]; [done|]. apply well_formed_parts in Hw as [Hl _]. simpl in Hl. lia. }
  destruct (HasSuffix r (bs ".")) eqn:Hs.
  { split; [done|]. intros [|Hw]; [done|]. apply well_formed_parts in Hw as (_ & _ & Hd).
    apply HasSuffix_spec in Hs as [q Hq]. by destruct (Hd q). }
  rewrite not_HasSuffix in Hs. destruct (Z.ltb_spec (len (Split r 47)) 2) as [Hl|Hl]; unfold len in Hl.
  { split; [done|]. intros [|Hw]; [done|]. apply well_formed_parts in Hw as [Hl' _]. lia. }
  rewrite negb_true_iff, existsb_none. split.
  - intros Hp. right. exists (Split r 47). rewrite Join_Split. split; [done|]. split; [lia|]. split; [|done].
    apply Forall_and. split; [|apply Split_no_sep]. eapply Forall_impl; [exact Hp|].
    intros p. by rewrite bad_part_false.
  - intros [|Hw]; [done|]. apply well_formed_parts in Hw as (_ & Hv & _). eapply Forall_impl; [exact Hv|].
    intros p. by rewrite bad_part_false.
Qed.

(** *** Valid names are safe *)

Lemma valid_part_safe p : valid_part p -> unsafe_part p = false /\ 92 ∉ p.
Proof.
  intros [Hne Hch Hdot Hdots Hbr Hl]. unfold unsafe_part. rewrite !orb_false_iff, !bool_decide_eq_false.
  split; [split; [split; [done|]|]|].
  - intros ->. by apply (Hdot []).
  - intros ->. by apply (Hdots [] []).
  - intros Hin. rewrite Forall_forall in Hch. destruct (Hch _ Hin) as (_ & _ & Hx). apply Hx. cbn. set_solver.
Qed.

Lemma IsSafe_under rest :
  IsSafe (RefPrefix ++ rest) = true <->
  rest <> [] /\ 92 ∉ rest /\ Forall (fun p => unsafe_part p = false) (Split rest 47).
Proof.
  unfold IsSafe. rewrite bool_decide_eq_false_2 by done.
  assert (CutPrefix (RefPrefix ++ rest) RefPrefix = Some rest) as -> by (by apply CutPrefix_spec).
  change (bs "\") with [92]. rewrite <-existsb_none, <-not_Contains_byte.
  destruct (bool_decide_reflect (rest = [])); [naive_solver|]. cbn [orb].
  destruct (Contains rest [92]); [naive_solver|]. rewrite negb_true_iff. naive_solver.
Qed.

Lemma Split_refs rest : Split (RefPrefix ++ rest) 47 = bs "refs" :: Split rest 47.
Proof. change (RefPrefix ++ rest) with (bs "refs" ++ 47 :: rest). apply Split_app. cbn. set_solver. Qed.

Lemma Validate_safe r : Validate r = true -> IsUnderRefs r = true -> IsSafe r = true.
Proof.
  intros Hv Hu. apply HasPrefix_spec in Hu as [rest ->]. apply Validate_spec in Hv as [|Hv]; [done|].
  apply well_formed_parts in Hv as (_ & Hp & _). rewrite Split_refs, Forall_cons in Hp. destruct Hp as [_ Hp].
  assert (Forall (fun p => unsafe_part p = false /\ 92 ∉ p) (Split rest 47)) as Hs
    by (eapply Forall_impl; [exact Hp|]; apply valid_part_safe).
  rewrite Forall_forall in Hs. apply IsSafe_under. split; [|split].
  - intros ->. cbn in Hp. apply Forall_cons in Hp as [[H _ _ _ _ _] _]. done.
  - rewrite <-(Join_Split rest 47). intros [|(p & Hpp & H)]%elem_of_Join; [done|]. by apply (Hs p).
  - rewrite Forall_forall. intros p Hpp. by apply Hs.
Qed.

(** C29: the names that are accepted.  [Validate] accepts HEAD and exactly the
    names that obey git's rules: two or more components separated by slashes,
    none of them empty, starting with a dot, ending with [.lock], or holding
    two dots in a row, [@{], a control character, a space or one of the
    characters tilde, caret, colon, question mark, asterisk, bracket and
    backslash, and no dot at the end.  A valid name under refs/ can be used as
    a path; and so can the references of the branches and tags whose
    shorthands are accepted, which do not look like options. *)
Theorem Validate_correct r :
  (Validate r = true <-> r = HEAD \/ well_formed_name r)
  /\ (Validate r = true -> IsUnderRefs r = true -> IsSafe r = true)
  /\ (ValidateBranchName r = true ->
      IsSafe (NewBranchReferenceName r) = true /\ IsBranch (NewBranchReferenceName r) = true
      /\ Validate (NewBranchReferenceName r) = true /\ HasPrefix r (bs "-") = false /\ r <> HEAD)
  /\ (ValidateTagName r = true ->
      IsSafe (NewTagReferenceName r) = true /\ IsTag (NewTagReferenceName r) = true
      /\ Validate (NewTagReferenceName r) = true /\ HasPrefix r (bs "-") = false /\ r <> HEAD).
Proof.
  split; [apply Validate_spec|]. split; [apply Validate_safe|]. split.
  - unfold ValidateBranchName. destruct (HasPrefix r (bs "-")); [done|]. cbn [orb].
    destruct (bool_decide_reflect (NewBranchReferenceName r = RefHeadPrefix ++ bs "HEAD")) as [|Hne]; [done|].
    intros Hv. split; [by apply Validate_safe|]. split; [apply HasPrefix_app|]. do 2 (split; [done|]). intros ->. by apply Hne.
  - unfold ValidateTagName. destruct (HasPrefix r (bs "-")); [done|]. cbn [orb].
    destruct (bool_decide_reflect (r = bs "HEAD")) as [|Hne]; [done|].
    intros Hv. split; [by apply Validate_safe|]. split; [apply HasPrefix_app|]. done.
Qed.

(** ** Names as paths *)

(** Where a path leads from a directory when both separators are taken for
    one, empty and dot components are ignored and dot-dot is the parent;
    nothing when it leaves the directory.  Directories are lists of entries,
    the innermost first; [entry] is the entry that the file system takes a
    name for, which may be the same for different names (letters of another
    case, code points HFS+ ignores, a last dot or space NTFS drops). *)
Definition names_directory (p : bytes) : Prop := p = [] \/ p = bs "." \/ p = bs "..".

Lemma unsafe_part_spec p : unsafe_part p = false <-> ~ names_directory p.
Proof. unfold unsafe_part, names_directory. rewrite !orb_false_iff, !bool_decide_eq_false. tauto. Qed.

Section paths.
Context (entry : bytes -> bytes).

Fixpoint walk (dir : list bytes) (parts : list bytes) : option (list bytes) :=
  match parts with
  | [] => Some dir
  | p :: ps =>
      if bool_decide (entry p = []) || bool_decide (entry p = bs ".") then walk dir ps
      else if bool_decide (entry p = bs "..") then match dir with [] => None | _ :: dir' => walk dir' ps end
      else walk (entry p :: dir) ps
  end.

Definition resolve (path : bytes) : option (list bytes) :=
  walk [] (Split ((fun c => if c =? 92 then 47 else c) <$> path) 47).

(** A file system that takes no other name for the directory or its parent.
    One that drops every last dot is not of this kind: it takes three dots for
    nothing. *)
Definition plain_names : Prop := forall p, names_directory (entry p) -> names_directory p.

Lemma walk_safe dir ps : plain_names -> Forall (fun p => unsafe_part p = false) ps -> walk dir ps = Some (reverse (entry <$> ps) ++ dir).
Proof.
  intros Hpl Hps. revert dir. induction Hps as [|p ps Hp Hps IH]; intros dir; [done|].
  assert (unsafe_part (entry p) = false) as Hp' by (apply unsafe_part_spec; apply unsafe_part_spec in Hp; intros Hn; by apply Hp, Hpl).
  clear Hp. rename Hp' into Hp. unfold unsafe_part in Hp. apply orb_false_iff in Hp as [Hp1 Hp2]. cbn [walk]. rewrite Hp1, Hp2, IH.
  by rewrite fmap_cons, reverse_cons, <-app_assoc.
Qed.
End paths.

Lemma no_backslash_id (r : bytes) : 92 ∉ r -> (fun c => if c =? 92 then 47 else c) <$> r = r.
Proof.
  induction r as [|c r IH]; [done|]. intros [Hc Hr]%not_elem_of_cons. rewrite fmap_cons, IH by done.
  by ztest (c =? 92) false.
Qed.

Definition root_char (c : Z) : Prop := 65 <= c <= 90 \/ c = 95.

Lemma IsSafe_cases r : IsSafe r = true ->
  92 ∉ r /\ Forall (fun p => unsafe_part p = false) (Split r 47)
  /\ ((exists p ps, Split r 47 = bs "refs" :: p :: ps) \/ (Split r 47 = [r] /\ Forall root_char r)).
Proof.
  intros H. destruct (CutPrefix r RefPrefix) as [rest|] eqn:Hc.
  - apply CutPrefix_spec in Hc as ->. apply IsSafe_under in H as (Hne & Hb & Hp). split; [|split; [|left]].
    + rewrite elem_of_app. intros [Hr|]; [|done]. revert Hr. cbn. set_solver.
    + rewrite Split_refs. by constructor.
    + rewrite Split_refs. pose proof (Split_not_nil rest 47). destruct (Split rest 47) as [|p ps]; [done|]. eauto.
  - unfold IsSafe in H. rewrite Hc in H. destruct (bool_decide_reflect (r = [])) as [|Hne]; [done|].
    assert (Forall root_char r) as Hr.
    { rewrite forallb_forall in H. apply Forall_forall. intros c Hin. specialize (H c (proj1 (list_elem_of_In _ _) Hin)).
      unfold root_char, is_upper in *. apply orb_prop in H as [H|H]; zbool; lia. }
    assert (forall c, ~ root_char c -> c ∉ r) as Hno by (intros c Hn Hin; rewrite Forall_forall in Hr; by apply Hn, Hr).
    assert (Split r 47 = [r]) as Hs by (apply Split_none, Hno; unfold root_char; lia).
    split; [apply Hno; unfold root_char; lia|]. rewrite Hs. split; [|by right]. repeat constructor.
    unfold unsafe_part. rewrite !orb_false_iff, !bool_decide_eq_false.
    assert (46 ∉ r) as H46 by (apply Hno; unfold root_char; lia).
    split; [split; [done|]|]; intros ->; apply H46; cbn; set_solver.
Qed.

(** C28: a safe name stays where references live.  Used as a path, whose
    separators may be slashes and backslashes, on any file system that takes
    no other name for a dot or a dot-dot, a name that [IsSafe] accepts leads to
    the entries of its components and never out of the directory; they are
    refs followed by at least one more, or a single one of capital letters and
    underscores.  Two safe names share a file exactly when the file system
    takes their components for the same entries: on one that keeps names
    apart, only when they are equal. *)
Theorem IsSafe_confined entry r :
  plain_names entry -> IsSafe r = true ->
  resolve entry r = Some (reverse (entry <$> Split r 47))
  /\ (forall r', IsSafe r' = true -> resolve entry r' = resolve entry r <-> entry <$> Split r' 47 = entry <$> Split r 47)
  /\ ((forall p q, entry p = entry q -> p = q) -> forall r', IsSafe r' = true -> resolve entry r' = resolve entry r -> r' = r)
  /\ ((exists p ps, Split r 47 = bs "refs" :: p :: ps) \/ (Split r 47 = [r] /\ Forall root_char r)).
Proof.
  intros Hpl. assert (forall r, IsSafe r = true -> resolve entry r = Some (reverse (entry <$> Split r 47))) as Hres.
  { intros s Hs. apply IsSafe_cases in Hs as (Hb & Hp & _). unfold resolve.
    by rewrite no_backslash_id, walk_safe, app_nil_r. }
  assert (forall r r', IsSafe r = true -> IsSafe r' = true ->
    resolve entry r' = resolve entry r <-> entry <$> Split r' 47 = entry <$> Split r 47) as Hsame.
  { intros s s' Hs Hs'. rewrite !Hres by done. split; [by intros [= Heq%(inj reverse)]|by intros ->]. }
  intros Hr. split; [by apply Hres|]. split; [by intros; apply Hsame|]. split; [|by apply IsSafe_cases].
  intros Hinj r' Hr' Heq%Hsame; [|done..]. rewrite <-(Join_Split r' 47), <-(Join_Split r 47). f_equal.
  revert Heq. generalize (Split r 47). induction (Split r' 47) as [|p ps IH]; intros [|q qs]; try done.
  rewrite !fmap_cons. intros [= ->%Hinj Heq]. f_equal. by apply IH.
Qed.

(** A file system that does not tell small letters from capital ones. *)
Definition fold_case (p : bytes) : bytes := (fun c => if is_upper c then c + 32 else c) <$> p.

Lemma fold_case_plain : plain_names fold_case.
Proof.
  intros p. unfold names_directory.
  assert (forall c x, (if is_upper c then c + 32 else c) = x -> x = 46 -> c = 46) as Hdot.
  { intros c x <-. destruct (is_upper c) eqn:Hc; [|done]. unfold is_upper in Hc. lia. }
  assert (forall q, Forall (eq 46) q -> fold_case p = q -> p = q) as Hq.
  { induction p as [|c p IH]; intros q Hq; [done|]. unfold fold_case. rewrite fmap_cons. destruct q as [|x q]; [done|].
    intros [= Hx Heq]. apply Forall_cons in Hq as [<- Hq]. rewrite (Hdot _ _ Hx eq_refl). f_equal. by apply IH. }
  intros [Hp|[Hp|Hp]]; apply Hq in Hp; solve [by auto|repeat constructor].
Qed.

Lemma IsSafe_confined_witness :
  IsSafe (bs "refs/heads/Main") = true
  /\ resolve fold_case (bs "refs/heads/Main") = Some [bs "main"; bs "heads"; bs "refs"]
  /\ resolve fold_case (bs "refs/heads/main") = resolve fold_case (bs "refs/heads/Main").
Proof.
  destruct (IsSafe_confined fold_case (bs "refs/heads/Main") fold_case_plain eq_refl) as (H1 & H2 & _).
  split; [reflexivity|]. split; [exact H1|]. by apply H2.
Defined.

(** ** References as strings *)

(** A reference as the constructors build it. *)
Definition reference_ok (r : Reference) : Prop :=
  match ref_t r with
  | HashReference => oid_ok (ref_h r) /\ ref_target r = []
  | SymbolicReference => ref_h r = ZeroHash
  | InvalidReference => False
  end.

(** Neither is a prefix of the other: a digest is hexadecimal. *)
Lemma oid_String_not_symref h : oid_ok h -> CutPrefix (oid_String h) symrefPrefix = None.
Proof.
  intros Hh. destruct (CutPrefix (oid_String h) symrefPrefix) as [q|] eqn:H; [|done].
  apply CutPrefix_spec in H. unfold oid_String in H. pose proof (Bytes_ok h ltac:(apply Hh)) as Hb.
  destruct (Bytes h) as [|b l]; [done|]. cbn in H. injection H as H _. exfalso.
  apply bytes_ok_cons in Hb as [Hb _]. unfold is_byte in Hb. revert H.
  match goal with |- _ = ?z -> _ => change z with 114 end. unfold hex_digit. destruct (Z.ltb_spec (b `div` 16) 10); intros Hr; lia.
Qed.

Theorem Reference_roundtrip r :
  reference_ok r -> NewReferenceFromStrings (Strings r).1 (Strings r).2 = r.
Proof.
  destruct r as [t n h tgt]. unfold reference_ok, NewReferenceFromStrings, Strings.
  cbn [ref_t ref_n ref_h ref_target fst snd]. destruct t; [done|..].
  - intros [Hh ->]. rewrite oid_String_not_symref by done. unfold NewHash. by rewrite FromHex_String.
  - intros ->. by rewrite (proj2 (CutPrefix_spec _ _ tgt)).
Qed.
