(* ===== verification/RefSpec.v ===== *)
(** * Reference specifications: [config/refspec.go]

    A refspec [+src:dst] maps remote names to local ones, with one wildcard at
    most on either side. *)
From stdpp Require Import base list numbers option strings sets.
From Stdlib Require Import ZArith Lia.
From S2P Require Import Prelude GoStrings ObjectId Refname.

Open Scope Z_scope.
#[local] Ltac Zify.zify_post_hook ::= Z.to_euclidean_division_equations.

Abbreviation RefSpec := bytes.

Definition refSpecWildcard : Z := 42.   (* * *)
Definition refSpecForce : Z := 43.      (* + *)
Definition refSpecSeparator : Z := 58.  (* : *)

Inductive refspec_error := ErrRefSpecMalformedSeparator | ErrRefSpecMalformedWildcard.

Definition Validate (s : RefSpec) : outcome refspec_error unit :=
  if negb (Count s refSpecSeparator =? 1) then Err ErrRefSpecMalformedSeparator
  else
    let sep := Index s refSpecSeparator in
    if sep =? len s - 1 then Err ErrRefSpecMalformedSeparator
    else
      src ← slice s 0 sep;
      dst ← slice s (sep + 1) (len s);
      let ws := Count src refSpecWildcard in
      let wd := Count dst refSpecWildcard in
      if (ws =? wd) && (ws <? 2) && (wd <? 2) then mret () else Err ErrRefSpecMalformedWildcard.

(** Indexing an empty spec panics. *)
Definition IsForceUpdate {E} (s : RefSpec) : outcome E bool := c ← index s 0; mret (c =? refSpecForce).
Definition IsDelete {E} (s : RefSpec) : outcome E bool := c ← index s 0; mret (c =? refSpecSeparator).

Definition Src {E} (s : RefSpec) : outcome E bytes :=
  force ← IsForceUpdate s;
  let start := if (force : bool) then 1 else 0 in
  slice s start (Index s refSpecSeparator).

(** [plumbing.IsHash]. *)
Definition IsHash (s : bytes) : bool :=
  if (len s =? SHA1HexSize) || (len s =? SHA256HexSize)
  then match hex_decode s with Some _ => true | None => false end
  else false.

Definition IsExactSHA1 {E} (s : RefSpec) : outcome E bool := src ← Src s; mret (IsHash src).

Definition IsWildcard (s : RefSpec) : bool := Contains s [refSpecWildcard].

Definition matchExact {E} (s : RefSpec) (n : ReferenceName) : outcome E bool :=
  src ← Src s; mret (bool_decide (src = n)).

Definition matchGlob {E} (s : RefSpec) (n : ReferenceName) : outcome E bool :=
  src ← Src s;
  let wildcard := Index src refSpecWildcard in
  prefix ← slice src 0 wildcard;
  suffix ← (if len src >? wildcard + 1 then slice src (wildcard + 1) (len src) else mret []);
  mret ((len n >=? len prefix + len suffix) && HasPrefix n prefix && HasSuffix n suffix).

Definition Match {E} (s : RefSpec) (n : ReferenceName) : outcome E bool :=
  if negb (IsWildcard s) then matchExact s n else matchGlob s n.

(** [strings.Cut]: the parts around the separator, or everything and
    nothing. *)
Definition Cut (s : bytes) (c : Z) : bytes * bytes :=
  match cut_at c s with Some p => p | None => (s, []) end.

Definition Dst {E} (s : RefSpec) (n : ReferenceName) : outcome E ReferenceName :=
  let start := Index s refSpecSeparator + 1 in
  dst ← slice s start (len s);
  src ← Src s;
  if negb (IsWildcard s) then mret dst
  else
    let ws := Index src refSpecWildcard in
    let '(before, after) := Cut dst refSpecWildcard in
    m ← slice n ws (len n - (len src - (ws + 1)));
    mret (before ++ m ++ after).

Definition Reverse (s : RefSpec) : RefSpec :=
  let '(force, spec) :=
    match CutPrefix s [refSpecForce] with Some spec => ([refSpecForce], spec) | None => ([], s) end in
  let '(before, after) := Cut spec refSpecSeparator in
  force ++ after ++ [refSpecSeparator] ++ before.

Fixpoint MatchAny {E} (l : list RefSpec) (n : ReferenceName) : outcome E bool :=
  match l with
  | [] => mret false
  | r :: l' => m ← Match r n; if (m : bool) then mret true else MatchAny l' n
  end.

Example fetch_spec :
  let s := bs "+refs/heads/*:refs/remotes/origin/*" in
  Validate s = Ok () /\ Match (E := unit) s (bs "refs/heads/main") = Ok true
  /\ Dst (E := unit) s (bs "refs/heads/main") = Ok (bs "refs/remotes/origin/main")
  /\ Reverse s = bs "+refs/remotes/origin/*:refs/heads/*".
Proof. repeat split; reflexivity. Qed.

(** ** What a refspec means *)

(** One side: a literal, or the texts around a wildcard. *)
Inductive pattern := Exact (p : bytes) | Glob (p q : bytes).

Definition print (p : pattern) : bytes :=
  match p with Exact p => p | Glob p q => p ++ refSpecWildcard :: q end.

(** The names of the source and where each goes. *)
Inductive maps : pattern -> pattern -> ReferenceName -> ReferenceName -> Prop :=
  | maps_exact p q : maps (Exact p) (Exact q) p q
  | maps_glob p q p' q' m : maps (Glob p q) (Glob p' q') (p ++ m ++ q) (p' ++ m ++ q').

(** A refspec by its parts. *)
Definition spec_of (force : bool) (src dst : pattern) : RefSpec :=
  (if force then [refSpecForce] else []) ++ print src ++ refSpecSeparator :: print dst.

Definition plain (s : bytes) : Prop := refSpecSeparator ∉ s /\ refSpecWildcard ∉ s.

Definition pattern_ok (p : pattern) : Prop :=
  match p with Exact p => plain p | Glob p q => plain p /\ plain q end.

Definition same_shape (p q : pattern) : Prop :=
  match p, q with Exact _, Exact _ | Glob _ _, Glob _ _ => True | _, _ => False end.

(** The parts of a valid refspec: a source that does not itself start like a
    forced spec, and a destination that is not empty. *)
Record parts_ok (force : bool) (src dst : pattern) : Prop := {
  po_src : pattern_ok src;
  po_dst : pattern_ok dst;
  po_shape : same_shape src dst;
  po_force : force = false -> forall q, print src <> refSpecForce :: q;
  po_dst_nonempty : print dst <> [];
}.

Lemma Count_plain s : refSpecWildcard ∉ s -> Count s refSpecWildcard = 0.
Proof. apply Count_zero. Qed.

Lemma print_no_sep p : pattern_ok p -> refSpecSeparator ∉ print p.
Proof.
  destruct p as [p|p q]; cbn; [by intros []|]. intros [[Hp _] [Hq _]].
  rewrite not_elem_of_app, not_elem_of_cons. done.
Qed.

(** Reading one side. *)
Lemma pattern_exists s :
  refSpecSeparator ∉ s -> Count s refSpecWildcard < 2 -> exists p, s = print p /\ pattern_ok p.
Proof.
  intros Hs Hc. pose proof (Count_nonneg s refSpecWildcard) as H0.
  destruct (decide (Count s refSpecWildcard = 0)) as [Hz|Hz].
  - exists (Exact s). split; [done|]. split; [done|]. by apply Count_zero.
  - assert (Count s refSpecWildcard = 1) as (a & b & -> & Ha & Hb)%Count_one by lia.
    exists (Glob a b). split; [done|]. rewrite not_elem_of_app, not_elem_of_cons in Hs.
    split; split; tauto.
Qed.

Lemma Count_print p : pattern_ok p -> Count (print p) refSpecWildcard = match p with Exact _ => 0 | Glob _ _ => 1 end.
Proof.
  destruct p as [p|p q]; cbn [print pattern_ok].
  - intros [_ H]. by apply Count_zero.
  - intros [[_ Hp] [_ Hq]]. rewrite Count_app, Count_cons, decide_True by done.
    apply Count_zero in Hp, Hq. lia.
Qed.

(** The parts around a byte, as slices. *)
Lemma slice_before {E} a c (b : bytes) : slice (E := E) (a ++ c :: b) 0 (len a) = Ok a.
Proof.
  change 0 with (len (@nil Z)). replace (len a) with (len (@nil Z) + len a) at 2 by len_lia.
  apply (slice_app3 []).
Qed.

Lemma slice_after {E} a c (b : bytes) : slice (E := E) (a ++ c :: b) (len a + 1) (len (a ++ c :: b)) = Ok b.
Proof.
  replace (a ++ c :: b) with ((a ++ [c]) ++ b ++ []) by (by rewrite app_nil_r, <-app_assoc).
  replace (len a + 1) with (len (a ++ [c])) by len_lia.
  replace (len ((a ++ [c]) ++ b ++ [])) with (len (a ++ [c]) + len b) by len_lia. apply slice_app3.
Qed.

Section parts.
Context (force : bool) (src dst : pattern) (Hok : parts_ok force src dst).

Definition force_prefix : bytes := if force then [refSpecForce] else [].

Lemma force_no_sep : refSpecSeparator ∉ force_prefix ++ print src.
Proof.
  rewrite not_elem_of_app. split; [|apply print_no_sep, Hok]. unfold force_prefix.
  destruct force; [by rewrite list_elem_of_singleton|apply not_elem_of_nil].
Qed.

Lemma spec_split : spec_of force src dst = (force_prefix ++ print src) ++ refSpecSeparator :: print dst.
Proof. unfold spec_of. by rewrite <-app_assoc. Qed.

Lemma spec_Index : Index (spec_of force src dst) refSpecSeparator = len (force_prefix ++ print src).
Proof. rewrite spec_split. apply Index_app, force_no_sep. Qed.

Lemma spec_Src {E} : Src (E := E) (spec_of force src dst) = Ok (print src).
Proof.
  unfold Src. rewrite spec_Index. unfold IsForceUpdate.
  assert (index (spec_of force src dst) 0 ≫= (fun c => mret (c =? refSpecForce)) = Ok (E := E) force) as ->.
  { unfold spec_of. destruct force eqn:Hf; [done|]. cbn [app]. destruct (print src) as [|c l] eqn:Hs; [done|].
    cbn [app]. rewrite (index_Ok _ 0 c) by done. cbn [mbind outcome_bind mret outcome_ret].
    assert (c <> refSpecForce) as Hc%Z.eqb_neq by (intros ->; by destruct (po_force _ _ _ Hok eq_refl l)).
    by rewrite Hc. }
  cbn [mbind outcome_bind]. rewrite spec_split. unfold force_prefix. destruct force; [|apply slice_before].
  replace (([refSpecForce] ++ print src) ++ refSpecSeparator :: print dst)
    with ([refSpecForce] ++ print src ++ refSpecSeparator :: print dst) by (by rewrite <-app_assoc).
  rewrite len_app. change 1 with (len [refSpecForce]). apply slice_app3.
Qed.

Lemma spec_dst {E} :
  slice (E := E) (spec_of force src dst) (Index (spec_of force src dst) refSpecSeparator + 1)
    (len (spec_of force src dst)) = Ok (print dst).
Proof. rewrite spec_Index, spec_split. apply slice_after. Qed.

Lemma spec_IsWildcard : IsWildcard (spec_of force src dst) = match src with Exact _ => false | Glob _ _ => true end.
Proof.
  assert (refSpecWildcard ∉ force_prefix) as Hf.
  { unfold force_prefix. destruct force; [by rewrite list_elem_of_singleton|apply not_elem_of_nil]. }
  unfold IsWildcard. rewrite spec_split. destruct Hok as [Hs Hd Hsh _ _]. destruct src as [p|p q].
  - apply not_Contains_byte. destruct dst as [p'|]; [|done]. cbn in *.
    rewrite !not_elem_of_app, not_elem_of_cons. destruct Hs, Hd. done.
  - apply Contains_spec. exists (force_prefix ++ p), (q ++ refSpecSeparator :: print dst).
    cbn [print]. by rewrite <-!app_assoc.
Qed.


Lemma spec_Validate : Validate (spec_of force src dst) = Ok ().
Proof.
  pose proof (print_no_sep dst (po_dst _ _ _ Hok)) as Hd0%Count_zero.
  pose proof force_no_sep as Hf0%Count_zero. unfold Validate. rewrite spec_Index, spec_split.
  rewrite Count_app, Count_cons, decide_True, Hf0, Hd0 by done. cbn [negb].
  assert (len (print dst) <> 0) as Hdn by (intros H%len_zero_nil; by apply (po_dst_nonempty _ _ _ Hok)).
  ztest (len (force_prefix ++ print src) =?
    len ((force_prefix ++ print src) ++ refSpecSeparator :: print dst) - 1) false.
  rewrite slice_before, slice_after. cbn [mbind outcome_bind].
  assert (refSpecWildcard ∉ force_prefix) as Hf%Count_zero.
  { unfold force_prefix. destruct force; [by rewrite list_elem_of_singleton|apply not_elem_of_nil]. }
  rewrite Count_app, Hf, !Count_print by apply Hok.
  destruct Hok as [_ _ Hsh _ _]. by destruct src, dst.
Qed.

(** *** Matching *)

Lemma HasPrefix_Suffix_split n p q :
  (len n >=? len p + len q) && HasPrefix n p && HasSuffix n q = true <-> exists m, n = p ++ m ++ q.
Proof.
  rewrite !andb_true_iff, HasPrefix_spec, HasSuffix_spec, Z.geb_leb, Z.leb_le. split.
  - intros ((Hl & a & ->) & b & Hb). assert (len p <= len b) as Hpb by (apply (f_equal len) in Hb; len_lia).
    assert (take (length p) b = p) as Hp.
    { apply (f_equal (take (length p))) in Hb. rewrite take_app_length in Hb.
      rewrite take_app_le in Hb by (unfold len in *; lia). done. }
    exists (drop (length p) b). rewrite Hb. rewrite <-(take_drop (length p) b) at 1.
    by rewrite Hp, <-app_assoc.
  - intros [m ->]. split; [split; [len_lia|by exists (m ++ q)]|]. exists (p ++ m). by rewrite app_assoc.
Qed.

Lemma glob_parts {E} p q :
  refSpecWildcard ∉ p ->
  slice (E := E) (print (Glob p q)) 0 (Index (print (Glob p q)) refSpecWildcard) = Ok p
  /\ (if len (print (Glob p q)) >? Index (print (Glob p q)) refSpecWildcard + 1
      then slice (E := E) (print (Glob p q)) (Index (print (Glob p q)) refSpecWildcard + 1) (len (print (Glob p q)))
      else mret []) = Ok q.
Proof.
  intros Hp. cbn [print]. rewrite Index_app by done. rewrite slice_before, slice_after. split; [done|].
  rewrite Z.gtb_ltb. destruct (Z.ltb_spec (len p + 1) (len (p ++ refSpecWildcard :: q))) as [|H]; [done|].
  rewrite (len_zero_nil q); [done|]. len_lia.
Qed.

Lemma spec_Match {E} n :
  exists b, Match (E := E) (spec_of force src dst) n = Ok b /\ (b = true <-> exists d, maps src dst n d).
Proof.
  unfold Match, matchExact, matchGlob. rewrite spec_IsWildcard, !spec_Src. cbn [mbind outcome_bind].
  destruct Hok as [Hs Hd Hsh _ _]. destruct src as [p|p q]; cbn [negb].
  - cbn [print mret outcome_ret]. eexists. split; [reflexivity|].
    rewrite bool_decide_eq_true. destruct dst as [p'|]; [|done]. split.
    + intros ->. exists p'. constructor.
    + intros [d Hm]. by inversion Hm.
  - destruct Hs as [[_ Hp] _]. destruct (glob_parts (E := E) p q Hp) as [H1 H2].
    rewrite H1. cbn [mbind outcome_bind]. rewrite H2. cbn [mbind outcome_bind mret outcome_ret].
    eexists. split; [reflexivity|]. rewrite HasPrefix_Suffix_split. destruct dst as [|p' q']; [done|]. split.
    + intros [m ->]. exists (p' ++ m ++ q'). constructor.
    + intros [d Hm]. inversion Hm; subst. eauto.
Qed.

Lemma spec_Dst {E} n d : maps src dst n d -> Dst (E := E) (spec_of force src dst) n = Ok d.
Proof.
  intros Hm. unfold Dst. rewrite spec_dst. cbn [mbind outcome_bind]. rewrite spec_Src.
  cbn [mbind outcome_bind]. rewrite spec_IsWildcard. pose proof Hok as [Hs Hd _ _ _].
  destruct Hm as [p q|p q p' q' m]; [done|]. cbn [negb]. destruct Hs as [[_ Hp] _], Hd as [[_ Hp'] _].
  cbn [print]. rewrite Index_app by done. unfold Cut. rewrite cut_at_app by done.
  replace (len (p ++ m ++ q) - (len (p ++ refSpecWildcard :: q) - (len p + 1))) with (len p + len m) by len_lia.
  by rewrite slice_app3.
Qed.
End parts.

(** Every valid refspec has these parts. *)
Lemma Validate_inv s :
  Validate s = Ok () -> exists force src dst, s = spec_of force src dst /\ parts_ok force src dst.
Proof.
  unfold Validate. destruct (Z.eqb_spec (Count s refSpecSeparator) 1) as [Hc|]; [|done]. cbn [negb].
  apply Count_one in Hc as (a & b & -> & Ha & Hb). rewrite Index_app by done.
  destruct (Z.eqb_spec (len a) (len (a ++ refSpecSeparator :: b) - 1)) as [|Hne]; [done|].
  rewrite slice_before, slice_after. cbn [mbind outcome_bind].
  destruct ((Count a refSpecWildcard =? Count b refSpecWildcard) && (Count a refSpecWildcard <? 2)
    && (Count b refSpecWildcard <? 2)) eqn:Hw; [|done]. intros _. zbool.
  set (force := match CutPrefix a [refSpecForce] with Some _ => true | None => false end).
  assert (exists src, a = force_prefix force ++ src /\ (force = false -> forall q, src <> refSpecForce :: q)
    /\ Count src refSpecWildcard = Count a refSpecWildcard) as (src & Hsrc & Hforce & Hcs).
  { unfold force, force_prefix. destruct (CutPrefix a [refSpecForce]) as [src|] eqn:Hcut.
    - apply CutPrefix_spec in Hcut as ->. exists src. split; [done|]. split; [done|].
      by rewrite Count_app, Count_cons, decide_False by done.
    - exists a. split; [done|]. split; [|done]. intros _ q ->.
      by rewrite (proj2 (CutPrefix_spec (refSpecForce :: q) [refSpecForce] q)) in Hcut. }
  assert (refSpecSeparator ∉ src) as Hss by (rewrite Hsrc, not_elem_of_app in Ha; apply Ha).
  destruct (pattern_exists src) as (ps & -> & Hps); [done|lia|].
  destruct (pattern_exists b) as (pd & -> & Hpd); [done|lia|].
  exists force, ps, pd. split; [rewrite Hsrc; unfold spec_of; by rewrite <-app_assoc|]. constructor; try done.
  - rewrite !Count_print in * by done. destruct ps, pd; done || lia.
  - intros Hn. rewrite Hn in Hne. len_lia.
Qed.

(** C30: what a valid refspec does.  The specs that [Validate] accepts are the
    optional plus sign followed by two patterns around the colon, each a
    literal or each with one wildcard.  On them no operation panics; [Match]
    holds exactly for the names of the source pattern, and [Dst] of such a
    name is the destination with the matched text in place of the
    wildcard. *)
Theorem refspec_correct s :
  Validate s = Ok () <->
  exists force src dst, s = spec_of force src dst /\ parts_ok force src dst
    /\ (forall n, exists b, Match (E := unit) s n = Ok b /\ (b = true <-> exists d, maps src dst n d))
    /\ (forall n d, maps src dst n d -> Dst (E := unit) s n = Ok d).
Proof.
  split.
  - intros (force & src & dst & -> & Hok)%Validate_inv. exists force, src, dst. split; [done|]. split; [done|].
    split; [by intros n; apply spec_Match|by intros n d; apply spec_Dst].
  - intros (force & src & dst & -> & Hok & _). by apply spec_Validate.
Qed.

(** *** Reversal *)

Lemma maps_flip src dst n d : maps src dst n d -> maps dst src d n.
Proof. intros []; constructor. Qed.

Lemma parts_flip force src dst :
  parts_ok force src dst -> print src <> [] -> (force = false -> forall q, print dst <> refSpecForce :: q) ->
  parts_ok force dst src.
Proof. intros [Hs Hd Hsh Hf Hn] Hne Hf'. constructor; try done. by destruct src, dst. Qed.

Lemma spec_Reverse force src dst :
  parts_ok force src dst -> Reverse (spec_of force src dst) = spec_of force dst src.
Proof.
  intros Hok. pose proof (print_no_sep src (po_src _ _ _ Hok)) as Hs. unfold Reverse.
  assert (CutPrefix (spec_of force src dst) [refSpecForce]
    = if force then Some (print src ++ refSpecSeparator :: print dst) else None) as ->.
  { destruct force; [by apply CutPrefix_spec|].
    destruct (CutPrefix (spec_of false src dst) [refSpecForce]) as [q|] eqn:Hq; [|done]. exfalso.
    apply CutPrefix_spec in Hq. unfold spec_of in Hq. cbn [app] in Hq.
    destruct (print src) as [|c l] eqn:Hp; [done|]. injection Hq as -> _.
    by destruct (po_force _ _ _ Hok eq_refl l). }
  unfold spec_of. destruct force; cbn [app]; unfold Cut; rewrite cut_at_app by done; done.
Qed.

(** Reversing a refspec.  For a valid spec whose source is not empty and
    whose destination does not look like a forced source, the reversed spec
    is valid, maps every destination back to its source, and reversing it
    again gives the spec. *)
Theorem refspec_reverse force src dst :
  parts_ok force src dst -> print src <> [] -> (force = false -> forall q, print dst <> refSpecForce :: q) ->
  let s := spec_of force src dst in
  Validate (Reverse s) = Ok () /\ Reverse (Reverse s) = s
  /\ forall n, Match (E := unit) s n = Ok true ->
      exists d, Dst (E := unit) s n = Ok d /\ Match (E := unit) (Reverse s) d = Ok true
                /\ Dst (E := unit) (Reverse s) d = Ok n.
Proof.
  intros Hok Hne Hf s. pose proof (parts_flip _ _ _ Hok Hne Hf) as Hok'. unfold s.
  rewrite !spec_Reverse by done. split; [by apply spec_Validate|]. split; [done|]. intros n Hm.
  destruct (spec_Match (E := unit) force src dst Hok n) as (b & Hb & Hbm). rewrite Hb in Hm. injection Hm as ->.
  destruct (proj1 Hbm eq_refl) as [d Hd]. exists d. split; [by apply spec_Dst|].
  apply maps_flip in Hd as Hd'. split; [|by apply spec_Dst].
  destruct (spec_Match (E := unit) force dst src Hok' d) as (b' & -> & Hbm'). f_equal. apply Hbm'. eauto.
Qed.

Lemma refspec_reverse_witness :
  let s := bs "+refs/heads/*:refs/remotes/origin/*" in
  Validate (Reverse s) = Ok () /\ Reverse (Reverse s) = s.
Proof.
  pose proof (refspec_reverse true (Glob (bs "refs/heads/") []) (Glob (bs "refs/remotes/origin/") [])) as H.
  destruct H as (H1 & H2 & _); [|done|done|exact (conj H1 H2)].
  constructor; try done; repeat split; apply (bool_decide_unpack _); vm_compute; exact I.
Defined.
