(* ===== verification/Storer.v ===== *)
(** * Stores of references: [plumbing/storer/reference.go]

    The interface [ReferenceStorer] with the laws its clients rely on, the
    iterators over references, and the resolution of symbolic references
    against any store that obeys the laws. *)
From stdpp Require Import base list numbers option strings gmap.
From Stdlib Require Import ZArith Lia.
From S2P Require Import Prelude ObjectId Refname.

Open Scope Z_scope.

(** ** Stateful operations *)

Inductive storage_error :=
  | ErrReferenceNotFound
  | ErrReferenceHasChanged
  | ErrMaxResolveRecursion
  | ErrStop
  | ErrObjectNotFound
  | ErrUnsupportedObjectType
  | ErrNotSupported
  | ErrEOF
  | ErrOther.

#[export] Instance storage_error_eq_dec : EqDecision storage_error.
Proof. solve_decision. Defined.

(** An operation on a store: its outcome, and the store after it, also when it
    fails. *)
Definition M (S A : Type) : Type := S -> outcome storage_error A * S.

#[export] Instance M_ret {S} : MRet (M S) := fun A a s => (Ok a, s).
#[export] Instance M_bind {S} : MBind (M S) := fun A B f m s =>
  match m s with
  | (Ok a, s') => f a s'
  | (Err e, s') => (Err e, s')
  | (Panic, s') => (Panic, s')
  | (NoFuel, s') => (NoFuel, s')
  end.

Definition fail {S A} (e : storage_error) : M S A := fun s => (Err e, s).
Definition panic {S A} : M S A := fun s => (Panic, s).

Definition get {S A} (f : S -> A) : M S A := fun s => (Ok (f s), s).
Definition modify {S} (f : S -> S) : M S unit := fun s => (Ok tt, f s).
Definition lift {S A} (r : outcome storage_error A) : M S A := fun s => (r, s).

(** The result of an operation, whatever it is, as a value. *)
Definition try {S A} (m : M S A) : M S (outcome storage_error A) := fun s => let '(r, s') := m s in (Ok r, s').

(** An operation on a part of the state. *)
Definition zoom {S T A} (get : S -> T) (put : T -> S -> S) (m : M T A) : M S A := fun s =>
  let '(r, t) := m (get s) in (r, put t s).

Lemma bind_Ok {S A B} (m : M S A) (f : A -> M S B) s a s' : m s = (Ok a, s') -> (m ≫= f) s = f a s'.
Proof. unfold mbind, M_bind. by intros ->. Qed.

Lemma bind_Err {S A B} (m : M S A) (f : A -> M S B) s e s' : m s = (Err e, s') -> (m ≫= f) s = (Err e, s').
Proof. unfold mbind, M_bind. by intros ->. Qed.

(** ** The interface *)

(** References are immutable once built; a null pointer is [None].  A store
    that finds a reference never returns a null one. *)
Class ReferenceStorer (S : Type) := {
  SetReference : option Reference -> M S unit;
  CheckAndSetReference : option Reference -> option Reference -> M S unit;
  LookupReference : ReferenceName -> M S Reference;
  IterReferences : M S (list Reference);
  RemoveReference : ReferenceName -> M S unit;
  CountLooseRefs : M S Z;
  PackRefs : M S unit;
}.

(** A sequence of references lists a map, each once. *)
Definition lists (m : gmap ReferenceName Reference) (l : list Reference) : Prop := l ≡ₚ (map_to_list m).*2.

(** The laws: the store behaves as a map from names to references.  [view] is
    the map a store stands for; reading may change the store, but not the
    map. *)
Class LawfulStorer (S : Type) `{ReferenceStorer S} := {
  store_ok : S -> Prop;
  view : S -> gmap ReferenceName Reference;
  view_names : forall s n r, store_ok s -> view s !! n = Some r -> ref_n r = n;
  law_set : forall s r, store_ok s ->
    exists s', SetReference (Some r) s = (Ok tt, s') /\ store_ok s' /\ view s' = <[ref_n r := r]> (view s);
  law_lookup : forall s n, store_ok s ->
    exists s', LookupReference n s = (match view s !! n with Some r => Ok r | None => Err ErrReferenceNotFound end, s')
      /\ store_ok s' /\ view s' = view s;
  law_iter : forall s, store_ok s ->
    exists l s', IterReferences s = (Ok l, s') /\ store_ok s' /\ view s' = view s /\ lists (view s) l;
  law_remove : forall s n, store_ok s ->
    exists s', RemoveReference n s = (Ok tt, s') /\ store_ok s' /\ view s' = delete n (view s);
  law_pack : forall s, store_ok s ->
    exists s', PackRefs s = (Ok tt, s') /\ store_ok s' /\ view s' = view s;
}.

(** What compare-and-set does to the map. *)
Definition check_and_set (m : gmap ReferenceName Reference) (ref : Reference) (old : option Reference)
    : outcome storage_error unit * gmap ReferenceName Reference :=
  match old with
  | None => (Ok tt, <[ref_n ref := ref]> m)
  | Some old =>
      match m !! ref_n old with
      | None => (Err ErrReferenceNotFound, m)
      | Some tmp =>
          if bool_decide (ref_h tmp = ref_h old) then (Ok tt, <[ref_n ref := ref]> m)
          else (Err ErrReferenceHasChanged, m)
      end
  end.

(** The law of compare-and-set, for an update of one name. *)
Class CheckedStorer (S : Type) `{LawfulStorer S} := {
  law_check : forall s ref old, store_ok s -> (forall o, old = Some o -> ref_n o = ref_n ref) ->
    exists s', CheckAndSetReference (Some ref) old s = ((check_and_set (view s) ref old).1, s')
      /\ store_ok s' /\ view s' = (check_and_set (view s) ref old).2;
}.

(** ** Iterators *)

Inductive ReferenceIter :=
  | ReferenceSliceIter (series : list Reference) (pos : Z)
  | ReferenceFilteredIter (ff : Reference -> bool) (iter : ReferenceIter)
  | MultiReferenceIter (iters : list ReferenceIter).

Definition NewReferenceSliceIter (series : list Reference) : ReferenceIter := ReferenceSliceIter series 0.
Definition NewReferenceFilteredIter (ff : Reference -> bool) (iter : ReferenceIter) : ReferenceIter :=
  ReferenceFilteredIter ff iter.
Definition NewMultiReferenceIter (iters : list ReferenceIter) : ReferenceIter := MultiReferenceIter iters.

Definition slice_Next (series : list Reference) (pos : Z) : outcome storage_error Reference * ReferenceIter :=
  if len series <=? pos then (Err ErrEOF, ReferenceSliceIter series pos)
  else match series !! Z.to_nat pos with
       | Some obj => (Ok obj, ReferenceSliceIter series (pos + 1))
       | None => (Panic, ReferenceSliceIter series pos)
       end.

(** [Next]: the next reference, or [ErrEOF], and the iterator after it.  The
    loops of the filtered and of the concatenating iterator call it again, so
    it runs on fuel. *)
Fixpoint iter_Next (fuel : nat) (it : ReferenceIter) : outcome storage_error Reference * ReferenceIter :=
  match fuel with
  | O => (NoFuel, it)
  | S f =>
      match it with
      | ReferenceSliceIter series pos => slice_Next series pos
      | ReferenceFilteredIter ff iter =>
          match iter_Next f iter with
          | (Ok r, iter') =>
              if ff r then (Ok r, ReferenceFilteredIter ff iter')
              else iter_Next f (ReferenceFilteredIter ff iter')
          | (e, iter') => (e, ReferenceFilteredIter ff iter')
          end
      | MultiReferenceIter [] => (Err ErrEOF, it)
      | MultiReferenceIter (i :: its) =>
          match iter_Next f i with
          | (Err ErrEOF, _) => iter_Next f (MultiReferenceIter its)
          | (r, i') => (r, MultiReferenceIter (i' :: its))
          end
      end
  end.

(** [Close]. *)
Fixpoint iter_Close (it : ReferenceIter) : ReferenceIter :=
  match it with
  | ReferenceSliceIter series pos => ReferenceSliceIter series (len series)
  | ReferenceFilteredIter ff iter => ReferenceFilteredIter ff (iter_Close iter)
  | MultiReferenceIter iters => MultiReferenceIter (iter_Close <$> iters)
  end.

(** [ForEach], the same loop for the three: the callback acts on the state
    [C] of its caller. *)
Fixpoint ForEach {C} (fuel : nat) (it : ReferenceIter) (cb : Reference -> M C unit) : M C unit :=
  match fuel with
  | O => fun c => (NoFuel, c)
  | S f =>
      match iter_Next f it with
      | (Ok r, it') =>
          fun c => match cb r c with
                   | (Ok _, c') => ForEach f it' cb c'
                   | (Err ErrStop, c') => (Ok tt, c')
                   | (e, c') => (e, c')
                   end
      | (Err ErrEOF, _) => mret tt
      | (Err e, _) => fail e
      | (Panic, _) => panic
      | (NoFuel, _) => fun c => (NoFuel, c)
      end
  end.

(** What an iterator has left to yield. *)
Fixpoint remaining (it : ReferenceIter) : list Reference :=
  match it with
  | ReferenceSliceIter series pos => drop (Z.to_nat pos) series
  | ReferenceFilteredIter ff iter => List.filter ff (remaining iter)
  | MultiReferenceIter iters => concat (remaining <$> iters)
  end.

(** The callback over a list, until it fails; [ErrStop] ends it without an
    error. *)
Fixpoint for_each {C} (l : list Reference) (cb : Reference -> M C unit) : M C unit :=
  match l with
  | [] => mret tt
  | r :: l' =>
      fun c => match cb r c with
               | (Ok _, c') => for_each l' cb c'
               | (Err ErrStop, c') => (Ok tt, c')
               | (e, c') => (e, c')
               end
  end.

(** ** Symbolic references *)

Definition MaxResolveRecursion : Z := 1024.

Section resolve.
Context {S : Type} `{ReferenceStorer S}.

(** The recursion counts up to the limit, which bounds it. *)
Fixpoint resolveReference (fuel : nat) (r : Reference) (recursion : Z) : M S Reference :=
  match fuel with
  | O => fun s => (NoFuel, s)
  | Datatypes.S f =>
      if negb (bool_decide (ref_t r = SymbolicReference)) then mret r
      else if recursion >? MaxResolveRecursion then fail ErrMaxResolveRecursion
      else
        t ← LookupReference (ref_target r);
        resolveReference f t (recursion + 1)
  end.

Definition ResolveReference (n : ReferenceName) : M S Reference :=
  r ← LookupReference n;
  resolveReference (Z.to_nat (MaxResolveRecursion + 2)) r 0.
End resolve.

Example resolve_loop :
  let self := NewSymbolicReference (bs "A") (bs "A") in
  let one := {| SetReference := fun _ => mret tt; CheckAndSetReference := fun _ _ => mret tt;
                LookupReference := fun _ => mret self; IterReferences := mret [self];
                RemoveReference := fun _ => mret tt; CountLooseRefs := mret 1; PackRefs := mret tt |}
             : ReferenceStorer unit in
  (ResolveReference (bs "A") ()).1 = Err ErrMaxResolveRecursion.
Proof. reflexivity. Qed.

(** ** The iterators yield their references in order *)

(** Positions are not negative; [weight] bounds the calls that are left. *)
Fixpoint iter_ok (it : ReferenceIter) : Prop :=
  match it with
  | ReferenceSliceIter series pos => 0 <= pos
  | ReferenceFilteredIter ff iter => iter_ok iter
  | MultiReferenceIter iters => foldr (fun i P => iter_ok i /\ P) True iters
  end.

Fixpoint weight (it : ReferenceIter) : nat :=
  match it with
  | ReferenceSliceIter series pos => S (length (drop (Z.to_nat pos) series))
  | ReferenceFilteredIter ff iter => S (weight iter)
  | MultiReferenceIter iters => S (foldr (fun i n => S (weight i) + n)%nat O iters)
  end.

Lemma iter_Next_spec fuel it :
  iter_ok it -> (weight it <= fuel)%nat ->
  match iter_Next fuel it with
  | (Ok r, it') => remaining it = r :: remaining it' /\ iter_ok it' /\ (weight it' < weight it)%nat
  | (Err e, _) => e = ErrEOF /\ remaining it = []
  | _ => False
  end.
Proof.
  revert it. induction fuel as [|f IH]; intros it Hok Hw; [by destruct it; simpl in Hw; lia|].
  destruct it as [series pos|ff iter|[|i its]]; cbn [iter_Next].
  - cbn in Hok. unfold slice_Next. destruct (Z.leb_spec (len series) pos) as [Hp|Hp]; unfold len in Hp.
    + split; [done|]. cbn. apply drop_ge. lia.
    + destruct (lookup_lt_is_Some_2 series (Z.to_nat pos)) as [r Hr]; [lia|]. rewrite Hr. cbn [remaining iter_ok weight].
      replace (Z.to_nat (pos + 1)) with (S (Z.to_nat pos)) by lia. rewrite (drop_S series r) by done.
      split; [done|]. split; [lia|]. simpl. lia.
  - cbn in Hok, Hw. specialize (IH iter Hok ltac:(lia)) as Hi. destruct (iter_Next f iter) as [[r|e| |] it']; [|..]; try done.
    + destruct Hi as (Hr & Hok' & Hw'). destruct (ff r) eqn:Hff.
      * cbn [remaining iter_ok weight]. rewrite Hr. cbn [List.filter]. rewrite Hff. split; [done|]. split; [done|]. lia.
      * specialize (IH (ReferenceFilteredIter ff it') Hok' ltac:(simpl; lia)). cbn [remaining] in *.
        rewrite Hr. cbn [List.filter]. rewrite Hff. destruct (iter_Next f _) as [[r2|e| |] it2]; try done.
        destruct IH as (H1 & H2 & H3). split; [done|]. split; [done|]. simpl in *. lia.
    + destruct Hi as [-> Hr]. cbn [remaining]. by rewrite Hr.
  - done.
  - cbn in Hok, Hw. destruct Hok as [Hoki Hokits]. specialize (IH i Hoki ltac:(lia)) as Hi.
    destruct (iter_Next f i) as [[r|e| |] i']; try done.
    + destruct Hi as (Hr & Hok' & Hw'). cbn [remaining iter_ok weight]. rewrite !fmap_cons. cbn [concat foldr].
      rewrite Hr. split; [done|]. split; [done|]. lia.
    + destruct Hi as [-> Hr]. specialize (IH (MultiReferenceIter its) Hokits ltac:(simpl; lia)).
      cbn [remaining] in *. rewrite fmap_cons. cbn [concat]. rewrite Hr. cbn [app].
      destruct (iter_Next f (MultiReferenceIter its)) as [[r2|e2| |] it2]; try done.
      destruct IH as (H1 & H2 & H3). split; [done|]. split; [done|]. simpl in *. lia.
Qed.

Lemma ForEach_spec {C} fuel it (cb : Reference -> M C unit) c :
  iter_ok it -> (weight it < fuel)%nat -> ForEach fuel it cb c = for_each (remaining it) cb c.
Proof.
  revert it c. induction fuel as [|f IH]; intros it c Hok Hw; [lia|]. cbn [ForEach].
  pose proof (iter_Next_spec f it Hok ltac:(lia)) as Hn. destruct (iter_Next f it) as [[r|e| |] it']; try done.
  - destruct Hn as (-> & Hok' & Hw'). cbn [for_each]. destruct (cb r c) as [[|[]| |] c']; try done. apply IH; done || lia.
  - by destruct Hn as [-> ->].
Qed.

(** ** Resolution *)

Section resolution.
Context {S : Type} `{LawfulStorer S}.

(** [n] leads to [r] over [k] symbolic references. *)
Inductive resolves (m : gmap ReferenceName Reference) : nat -> ReferenceName -> Reference -> Prop :=
  | resolves_here n r : m !! n = Some r -> ref_t r <> SymbolicReference -> resolves m 0 n r
  | resolves_link n r k r' :
      m !! n = Some r -> ref_t r = SymbolicReference -> resolves m k (ref_target r) r' -> resolves m (1 + k) n r'.

(** [n] leads over [k] symbolic references to a name that is not there, or to
    a [k]-th symbolic reference. *)
Inductive dangles (m : gmap ReferenceName Reference) : nat -> ReferenceName -> Prop :=
  | dangles_here n : m !! n = None -> dangles m 0 n
  | dangles_link n r k :
      m !! n = Some r -> ref_t r = SymbolicReference -> dangles m k (ref_target r) -> dangles m (1 + k) n.

Inductive symbolic_chain (m : gmap ReferenceName Reference) : nat -> ReferenceName -> Prop :=
  | chain_none n : symbolic_chain m 0 n
  | chain_link n r k :
      m !! n = Some r -> ref_t r = SymbolicReference -> symbolic_chain m k (ref_target r) ->
      symbolic_chain m (1 + k) n.

Definition resolution (m : gmap ReferenceName Reference) (depth : nat) (n : ReferenceName)
    (out : outcome storage_error Reference) : Prop :=
  match out with
  | Ok r => exists k, (k <= depth)%nat /\ resolves m k n r
  | Err ErrReferenceNotFound => exists k, (k <= depth)%nat /\ dangles m k n
  | Err ErrMaxResolveRecursion => symbolic_chain m (1 + depth) n
  | _ => False
  end.

Lemma resolution_link m depth n r out :
  m !! n = Some r -> ref_t r = SymbolicReference -> resolution m depth (ref_target r) out ->
  resolution m (1 + depth) n out.
Proof.
  intros Hn Ht. destruct out as [r'|[]| |]; cbn; try done.
  - intros (k & Hk & Hr). exists (1 + k)%nat. split; [lia|]. by econstructor.
  - intros (k & Hk & Hr). exists (1 + k)%nat. split; [lia|]. by econstructor.
  - intros Hc. by econstructor.
Qed.

(** From a reference that was found, with [depth] links left to follow. *)
Lemma resolveReference_spec depth fuel r recursion s :
  store_ok s -> recursion = MaxResolveRecursion + 1 - Z.of_nat depth -> (depth < fuel)%nat ->
  exists out s', resolveReference fuel r recursion s = (out, s') /\ store_ok s' /\ view s' = view s
    /\ forall n, view s !! n = Some r -> resolution (view s) depth n out.
Proof.
  intros Hs Hrec Hf. revert fuel r recursion s Hs Hrec Hf.
  induction depth as [|depth IH]; intros fuel r recursion s Hs Hrec Hf;
    (destruct fuel as [|f]; [lia|]); cbn [resolveReference];
    destruct (bool_decide_reflect (ref_t r = SymbolicReference)) as [Ht|Ht]; cbn [negb];
    try (eexists _, _; split; [reflexivity|]; split; [done|]; split; [done|]; intros n Hn;
         exists 0%nat; split; [lia|]; by constructor).
  - rewrite Z.gtb_ltb. ztest (MaxResolveRecursion <? recursion) true.
    eexists _, _. split; [reflexivity|]. split; [done|]. split; [done|]. intros n Hn. econstructor; [done..|constructor].
  - rewrite Z.gtb_ltb. ztest (MaxResolveRecursion <? recursion) false.
    destruct (law_lookup s (ref_target r) Hs) as (s' & Hl & Hs' & Hv).
    destruct (view s !! ref_target r) as [t|] eqn:Ht'.
    + rewrite (bind_Ok _ _ _ _ _ Hl).
      destruct (IH f t (recursion + 1) s' Hs' ltac:(lia) ltac:(lia)) as (out & s2 & -> & Hs2 & Hv2 & Hout).
      exists out, s2. split; [done|]. split; [done|]. split; [by rewrite Hv2|]. rewrite Hv in Hout.
      intros n Hn. apply (resolution_link _ _ _ r); [done..|]. by apply Hout.
    + rewrite (bind_Err _ _ _ _ _ Hl). eexists _, _. split; [reflexivity|]. split; [done|]. split; [done|].
      intros n Hn. exists 1%nat. split; [lia|]. econstructor; [done..|]. by constructor.
Qed.

(** C27: resolving a reference always ends, within 1025 symbolic links, in any
    store that obeys the laws, and does not change what the store holds.  It
    returns the reference that is not symbolic at the end of the chain, or
    [ErrReferenceNotFound] for a chain that ends at a missing name; only for a
    chain of more than 1025 symbolic references, as every cycle is, it
    returns [ErrMaxResolveRecursion]. *)
Theorem ResolveReference_correct s n :
  store_ok s ->
  exists out s', ResolveReference n s = (out, s') /\ store_ok s' /\ view s' = view s
    /\ resolution (view s) 1025 n out.
Proof.
  intros Hs. unfold ResolveReference. destruct (law_lookup s n Hs) as (s' & Hl & Hs' & Hv).
  destruct (view s !! n) as [r|] eqn:Hn.
  - rewrite (bind_Ok _ _ _ _ _ Hl).
    destruct (resolveReference_spec 1025 (Z.to_nat (MaxResolveRecursion + 2)) r 0 s' Hs' eq_refl
      ltac:(unfold MaxResolveRecursion; lia)) as (out & s2 & -> & Hs2 & Hv2 & Hout).
    exists out, s2. split; [done|]. split; [done|]. split; [by rewrite Hv2|]. rewrite Hv in Hout. by apply Hout.
  - rewrite (bind_Err _ _ _ _ _ Hl). eexists _, _. split; [reflexivity|]. split; [done|]. split; [done|].
    exists 0%nat. split; [lia|]. by constructor.
Qed.
End resolution.
