(* ===== verification/MemStorage.v ===== *)
(** * Storage in memory: [storage/memory/storage.go]

    The stores of references, objects, shallow commits and reflogs that keep
    everything in Go maps, and the object transaction.  Ranging over a Go map
    visits its entries in any order: the order is a parameter, which is only
    assumed to visit every entry once. *)
From stdpp Require Import base list numbers option strings gmap countable sorting.
From Stdlib Require Import ZArith Lia.
From S2P Require Import Prelude ObjectId Object Refname Storer.

Open Scope Z_scope.

(** ** Maps *)

#[export] Instance ObjectFormat_countable : Countable ObjectFormat.
Proof.
  refine (inj_countable' (fun f => match f with UnsetObjectFormat => 0 | SHA1 => 1 | SHA256 => 2 end)
    (fun n => match n with 0 => UnsetObjectFormat | 1 => SHA1 | _ => SHA256 end) _). by intros [].
Defined.

#[export] Instance ObjectID_countable : Countable ObjectID.
Proof.
  refine (inj_countable' (fun o => (oid_hash o, oid_format o))
    (fun p => {| oid_hash := p.1; oid_format := p.2 |}) _). by intros [].
Defined.

(** The order in which [range] visits a map. *)
Class RangeOrder (K : Type) `{Countable K} (V : Type) := {
  range : gmap K V -> list (K * V);
  range_perm : forall m, range m ≡ₚ map_to_list m;
}.

(** ** References *)

Abbreviation ReferenceStorage := (gmap ReferenceName Reference).

Section references.
Context `{!RangeOrder ReferenceName Reference}.

Definition mem_SetReference (ref : option Reference) : M ReferenceStorage unit := fun r =>
  match ref with None => (Ok tt, r) | Some ref => (Ok tt, <[ref_n ref := ref]> r) end.

Definition mem_CheckAndSetReference (ref old : option Reference) : M ReferenceStorage unit := fun r =>
  match ref with
  | None => (Ok tt, r)
  | Some ref =>
      match old with
      | None => (Ok tt, <[ref_n ref := ref]> r)
      | Some old =>
          match r !! ref_n ref with
          | None => (Err ErrReferenceNotFound, r)
          | Some tmp =>
              if negb (bool_decide (ref_h tmp = ref_h old)) then (Err ErrReferenceHasChanged, r)
              else (Ok tt, <[ref_n ref := ref]> r)
          end
      end
  end.

Definition mem_Reference (n : ReferenceName) : M ReferenceStorage Reference := fun r =>
  (match r !! n with Some ref => Ok ref | None => Err ErrReferenceNotFound end, r).

Definition mem_IterReferences : M ReferenceStorage (list Reference) := fun r => (Ok (range r).*2, r).

Definition mem_CountLooseRefs : M ReferenceStorage Z := fun r => (Ok (Z.of_nat (size r)), r).

Definition mem_PackRefs : M ReferenceStorage unit := fun r => (Ok tt, r).

Definition mem_RemoveReference (n : ReferenceName) : M ReferenceStorage unit := fun r => (Ok tt, delete n r).

#[export] Instance memory_storer : ReferenceStorer ReferenceStorage := {
  SetReference := mem_SetReference;
  CheckAndSetReference := mem_CheckAndSetReference;
  LookupReference := mem_Reference;
  IterReferences := mem_IterReferences;
  RemoveReference := mem_RemoveReference;
  CountLooseRefs := mem_CountLooseRefs;
  PackRefs := mem_PackRefs;
}.

(** Every reference is stored under its own name. *)
Definition named (m : ReferenceStorage) : Prop := forall n r, m !! n = Some r -> ref_n r = n.

Lemma named_insert m r : named m -> named (<[ref_n r := r]> m).
Proof. intros Hm n r'. rewrite lookup_insert_Some. intros [[<- <-]|[_ H']]; [done|by apply Hm]. Qed.

Lemma named_delete m n : named m -> named (delete n m).
Proof. intros Hm n' r. rewrite lookup_delete_Some. intros [_ H']. by apply Hm. Qed.

Lemma named_empty : named ∅.
Proof. intros n r. by rewrite lookup_empty. Qed.

#[export] Instance memory_lawful : LawfulStorer ReferenceStorage.
Proof.
  refine {| store_ok := named; view := fun m => m |}.
  - intros s n r Hs. apply Hs.
  - intros s r Hs. eexists. split; [reflexivity|]. split; [by apply named_insert|done].
  - intros s n Hs. eexists. split; [reflexivity|]. done.
  - intros s Hs. exists (range s).*2, s. split; [done|]. split; [done|]. split; [done|].
    unfold lists. by rewrite range_perm.
  - intros s n Hs. eexists. split; [reflexivity|]. split; [by apply named_delete|done].
  - intros s Hs. eexists. split; [reflexivity|]. done.
Defined.

#[export] Instance memory_checked : CheckedStorer ReferenceStorage.
Proof.
  constructor. intros s ref old Hs Hn. cbn. unfold mem_CheckAndSetReference, check_and_set.
  destruct old as [old|]; [|eexists; split; [reflexivity|]; split; [by apply named_insert|done]].
  rewrite <-(Hn old eq_refl). destruct (s !! ref_n old) as [tmp|]; [|eexists; by split].
  destruct (bool_decide_reflect (ref_h tmp = ref_h old)); cbn; eexists; split; try reflexivity; [|done].
  split; [|done]. rewrite (Hn old eq_refl). by apply named_insert.
Qed.
End references.

(** The order of the map library, for examples. *)
Definition listing_range K `{Countable K} V : RangeOrder K V :=
  {| range := map_to_list; range_perm := fun m => reflexivity _ |}.

Definition sample_refs : ReferenceStorage :=
  <[HEAD := NewSymbolicReference HEAD (bs "refs/heads/main")]>
  (<[bs "refs/heads/main" := NewHashReference (bs "refs/heads/main") ZeroHash]> ∅).

Lemma sample_refs_named : named sample_refs.
Proof. apply (named_insert _ (NewSymbolicReference _ _)), (named_insert _ (NewHashReference _ _)), named_empty. Qed.

Lemma ResolveReference_correct_witness :
  exists out s', @ResolveReference _ (@memory_storer (listing_range _ _)) HEAD sample_refs = (out, s')
    /\ resolution sample_refs 1025 HEAD out.
Proof.
  destruct (@ResolveReference_correct _ _ (@memory_lawful (listing_range _ _)) sample_refs HEAD sample_refs_named)
    as (out & s' & H & _ & _ & Hr).
  exists out, s'. exact (conj H Hr).
Defined.

(** ** Shallow commits *)

Abbreviation ShallowStorage := (list ObjectID).

(** The list is copied in and out, so callers may change theirs. *)
Definition mem_SetShallow (commits : list ObjectID) : M ShallowStorage unit := fun _ => (Ok tt, commits).
Definition mem_Shallow : M ShallowStorage (list ObjectID) := fun s => (Ok s, s).

(** ** Reflogs *)

Section reflogs.
Context {Entry : Type}.

(** The map is made by the first append; a nil map is [None]. *)
Abbreviation ReflogStorage := (option (gmap ReferenceName (list Entry))).

Definition entries_of (m : gmap ReferenceName (list Entry)) (name : ReferenceName) : list Entry :=
  default [] (m !! name).

Definition mem_Reflog (name : ReferenceName) : M ReflogStorage (list Entry) := fun r =>
  (Ok (match r with None => [] | Some m => entries_of m name end), r).

Definition mem_AppendReflog (name : ReferenceName) (entry : Entry) : M ReflogStorage unit := fun r =>
  let m := default ∅ r in (Ok tt, Some (<[name := entries_of m name ++ [entry]]> m)).

Definition mem_DeleteReflog (name : ReferenceName) : M ReflogStorage unit := fun r =>
  (Ok tt, match r with None => None | Some m => Some (delete name m) end).
End reflogs.

(** ** Objects *)

Abbreviation ObjectMap := (gmap ObjectID EncodedObject).

Record ObjectStorage := {
  Objects : ObjectMap;
  Commits : ObjectMap;
  Trees : ObjectMap;
  Blobs : ObjectMap;
  Tags : ObjectMap;
}.

Definition empty_objects : ObjectStorage := {| Objects := ∅; Commits := ∅; Trees := ∅; Blobs := ∅; Tags := ∅ |}.

(** The object is stored before its type is checked. *)
Definition mem_SetEncodedObject (obj : EncodedObject) : M ObjectStorage ObjectID := fun o =>
  let h := eo_Hash obj in
  let objects := <[h := obj]> (Objects o) in
  match eo_Type obj with
  | CommitObject =>
      (Ok h, {| Objects := objects; Commits := <[h := obj]> (Commits o); Trees := Trees o; Blobs := Blobs o; Tags := Tags o |})
  | TreeObject =>
      (Ok h, {| Objects := objects; Commits := Commits o; Trees := <[h := obj]> (Trees o); Blobs := Blobs o; Tags := Tags o |})
  | BlobObject =>
      (Ok h, {| Objects := objects; Commits := Commits o; Trees := Trees o; Blobs := <[h := obj]> (Blobs o); Tags := Tags o |})
  | TagObject =>
      (Ok h, {| Objects := objects; Commits := Commits o; Trees := Trees o; Blobs := Blobs o; Tags := <[h := obj]> (Tags o) |})
  | _ =>
      (Err ErrUnsupportedObjectType,
       {| Objects := objects; Commits := Commits o; Trees := Trees o; Blobs := Blobs o; Tags := Tags o |})
  end.

Definition mem_HasEncodedObject (h : ObjectID) : M ObjectStorage unit := fun o =>
  (match Objects o !! h with None => Err ErrObjectNotFound | Some _ => Ok tt end, o).

Definition mem_EncodedObjectSize (h : ObjectID) : M ObjectStorage Z := fun o =>
  (match Objects o !! h with None => Err ErrObjectNotFound | Some obj => Ok (eo_Size obj) end, o).

(** The test of the lookups: an object of another type is not found. *)
Definition find_object (m : ObjectMap) (t : ObjectType) (h : ObjectID) : outcome storage_error EncodedObject :=
  match m !! h with
  | None => Err ErrObjectNotFound
  | Some obj =>
      if negb (bool_decide (AnyObject = t)) && negb (bool_decide (eo_Type obj = t)) then Err ErrObjectNotFound
      else Ok obj
  end.

Definition mem_EncodedObject (t : ObjectType) (h : ObjectID) : M ObjectStorage EncodedObject := fun o =>
  (find_object (Objects o) t h, o).

Section objects.
Context `{!RangeOrder ObjectID EncodedObject}.

Definition flattenObjectMap (m : ObjectMap) : list EncodedObject := (range m).*2.

(** Nothing for the other types. *)
Definition mem_IterEncodedObjects (t : ObjectType) : M ObjectStorage (list EncodedObject) := fun o =>
  (Ok (match t with
       | AnyObject => flattenObjectMap (Objects o)
       | CommitObject => flattenObjectMap (Commits o)
       | TreeObject => flattenObjectMap (Trees o)
       | BlobObject => flattenObjectMap (Blobs o)
       | TagObject => flattenObjectMap (Tags o)
       | _ => []
       end), o).

(** The callback on every hash, in any order; [ErrStop] ends the loop. *)
Fixpoint for_each_hash {C} (l : list ObjectID) (fn : ObjectID -> M C unit) : M C unit :=
  match l with
  | [] => mret tt
  | h :: l' => fun c => match fn h c with
                        | (Ok _, c') => for_each_hash l' fn c'
                        | (Err ErrStop, c') => (Ok tt, c')
                        | (e, c') => (e, c')
                        end
  end.

Definition ForEachObjectHash {C} (o : ObjectStorage) (fn : ObjectID -> M C unit) : M C unit :=
  for_each_hash (range (Objects o)).*1 fn.

(** *** Transactions *)

(** The objects set in the transaction, and the storage they go to. *)
Record TxObjectStorage := { tx_Storage : ObjectStorage; tx_Objects : ObjectMap }.

Definition Begin (o : ObjectStorage) : TxObjectStorage := {| tx_Storage := o; tx_Objects := ∅ |}.

Definition tx_SetEncodedObject (obj : EncodedObject) : M TxObjectStorage ObjectID := fun tx =>
  (Ok (eo_Hash obj), {| tx_Storage := tx_Storage tx; tx_Objects := <[eo_Hash obj := obj]> (tx_Objects tx) |}).

Definition tx_EncodedObject (t : ObjectType) (h : ObjectID) : M TxObjectStorage EncodedObject := fun tx =>
  (find_object (tx_Objects tx) t h, tx).

(** Each object leaves the transaction before it is stored. *)
Fixpoint tx_Commit_loop (objs : list (ObjectID * EncodedObject)) : M TxObjectStorage unit :=
  match objs with
  | [] => mret tt
  | (h, obj) :: objs' => fun tx =>
      let objects := delete h (tx_Objects tx) in
      match mem_SetEncodedObject obj (tx_Storage tx) with
      | (Ok _, o) => tx_Commit_loop objs' {| tx_Storage := o; tx_Objects := objects |}
      | (Err e, o) => (Err e, {| tx_Storage := o; tx_Objects := objects |})
      | (Panic, o) => (Panic, {| tx_Storage := o; tx_Objects := objects |})
      | (NoFuel, o) => (NoFuel, {| tx_Storage := o; tx_Objects := objects |})
      end
  end.

Definition tx_Commit : M TxObjectStorage unit := fun tx => tx_Commit_loop (range (tx_Objects tx)) tx.

Definition tx_Rollback : M TxObjectStorage unit := fun tx =>
  (Ok tt, {| tx_Storage := tx_Storage tx; tx_Objects := ∅ |}).
End objects.
