(* ===== verification/TxStorage.v ===== *)
(** * Transactions over storages: [storage/transactional]

    A transactional storage reads from a base and a temporal storage and
    writes to the temporal one until it is committed.  The references are
    modelled over any two lawful stores, so that the storage is itself a
    store, and committing it refines running the operations on the base. *)
From stdpp Require Import base list numbers option strings gmap fin_maps.
From Stdlib Require Import ZArith Lia.
From S2P Require Import Prelude ObjectId Object Refname Storer MemStorage.

Open Scope Z_scope.

(** ** References ([reference.go]) *)

Record TxReferences (B T : Type) := {
  base : B;
  temporal : T;
  deleted : gset ReferenceName;
}.
Arguments base {B T} _.
Arguments temporal {B T} _.
Arguments deleted {B T} _.
Arguments Build_TxReferences {B T} _ _ _.

Section references.
Context {B T : Type} `{LawfulStorer B} `{LawfulStorer T}.

Abbreviation Tx := (TxReferences B T).

Definition NewReferenceStorage (b : B) (t : T) : Tx := Build_TxReferences b t ∅.

Definition on_base {A} (m : M B A) : M Tx A :=
  zoom base (fun b r => Build_TxReferences b (temporal r) (deleted r)) m.
Definition on_temporal {A} (m : M T A) : M Tx A :=
  zoom temporal (fun t r => Build_TxReferences (base r) t (deleted r)) m.
Definition set_deleted (f : gset ReferenceName -> gset ReferenceName) : M Tx unit :=
  modify (fun r => Build_TxReferences (base r) (temporal r) (f (deleted r))).

Definition txr_SetReference (ref : option Reference) : M Tx unit :=
  match ref with
  | None => panic
  | Some ref => set_deleted (fun d => d ∖ {[ ref_n ref ]});; on_temporal (SetReference (Some ref))
  end.

(** A lookup that falls back on the base storage. *)
Definition lookup_either (n : ReferenceName) : M Tx Reference :=
  tmp ← try (on_temporal (LookupReference n));
  match tmp with
  | Err ErrReferenceNotFound => on_base (LookupReference n)
  | t => lift t
  end.

Definition txr_CheckAndSetReference (ref old : option Reference) : M Tx unit :=
  match old with
  | None => txr_SetReference ref
  | Some old =>
      tmp ← lookup_either (ref_n old);
      if negb (bool_decide (ref_h tmp = ref_h old)) then fail ErrReferenceHasChanged
      else txr_SetReference ref
  end.

Definition txr_Reference (n : ReferenceName) : M Tx Reference :=
  dels ← get deleted;
  if bool_decide (n ∈ dels) then fail ErrReferenceNotFound else lookup_either n.

(** The callback of both iterations: references that are neither deleted nor
    seen before, and the names seen. *)
Fixpoint unseen (l : list Reference) (deleted seen : gset ReferenceName) : list Reference * gset ReferenceName :=
  match l with
  | [] => ([], seen)
  | ref :: l' =>
      if bool_decide (ref_n ref ∈ deleted) || bool_decide (ref_n ref ∈ seen) then unseen l' deleted seen
      else let '(refs, seen) := unseen l' deleted ({[ ref_n ref ]} ∪ seen) in (ref :: refs, seen)
  end.

Definition txr_IterReferences : M Tx (list Reference) :=
  dels ← get deleted;
  temporalRefs ← on_temporal IterReferences;
  let '(refs, seen) := unseen temporalRefs dels ∅ in
  baseRefs ← on_base IterReferences;
  let '(base, _) := unseen baseRefs dels seen in
  mret (base ++ refs).

Definition txr_CountLooseRefs : M Tx Z :=
  tc ← on_temporal CountLooseRefs;
  bc ← on_base CountLooseRefs;
  mret (tc + bc).

Definition txr_PackRefs : M Tx unit := mret tt.

Definition txr_RemoveReference (n : ReferenceName) : M Tx unit :=
  set_deleted (fun d => {[ n ]} ∪ d);; on_temporal (RemoveReference n).

#[export] Instance transactional_storer : ReferenceStorer Tx := {
  SetReference := txr_SetReference;
  CheckAndSetReference := txr_CheckAndSetReference;
  LookupReference := txr_Reference;
  IterReferences := txr_IterReferences;
  RemoveReference := txr_RemoveReference;
  CountLooseRefs := txr_CountLooseRefs;
  PackRefs := txr_PackRefs;
}.

Fixpoint remove_all (names : list ReferenceName) : M B unit :=
  match names with
  | [] => mret tt
  | n :: names' => RemoveReference n;; remove_all names'
  end.

(** [order] is the order of ranging over the set of deleted names. *)
Definition txr_Commit (order : gset ReferenceName -> list ReferenceName) : M Tx unit :=
  dels ← get deleted;
  on_base (remove_all (order dels));;
  refs ← on_temporal IterReferences;
  on_base (for_each refs (fun ref => SetReference (Some ref))).

(** *** The map a transaction stands for *)

Definition tx_view (r : Tx) : gmap ReferenceName Reference :=
  filter (fun p => p.1 ∉ deleted r) (view (temporal r) ∪ view (base r)).

(** Deleted names are not in the temporal store. *)
Record tx_ok (r : Tx) : Prop := {
  tx_base : store_ok (base r);
  tx_temporal : store_ok (temporal r);
  tx_disjoint : forall n, n ∈ deleted r -> view (temporal r) !! n = None;
}.

Lemma tx_view_lookup r n :
  tx_view r !! n = if decide (n ∈ deleted r) then None else (view (temporal r) ∪ view (base r)) !! n.
Proof.
  unfold tx_view. destruct (decide (n ∈ deleted r)) as [Hd|Hd].
  - apply map_lookup_filter_None. right. intros x _ Hx. by apply Hx.
  - destruct ((view (temporal r) ∪ view (base r)) !! n) as [x|] eqn:Hx.
    + by apply map_lookup_filter_Some.
    + apply map_lookup_filter_None. by left.
Qed.

Lemma tx_view_names r n x : tx_ok r -> tx_view r !! n = Some x -> ref_n x = n.
Proof.
  intros [Hb Ht _]. rewrite tx_view_lookup. destruct (decide _); [done|]. rewrite lookup_union_Some_raw.
  intros [Hx|[_ Hx]]; [exact (view_names _ n x Ht Hx)|exact (view_names _ n x Hb Hx)].
Qed.

(** Sequences that list a map, by their elements. *)
Lemma lists_iff (m : gmap ReferenceName Reference) l :
  (forall n r, m !! n = Some r -> ref_n r = n) ->
  lists m l <-> NoDup (ref_n <$> l) /\ forall r, r ∈ l <-> m !! ref_n r = Some r.
Proof.
  intros Hm. assert (ref_n <$> (map_to_list m).*2 = (map_to_list m).*1) as Hfst.
  { rewrite <-list_fmap_compose. apply list_fmap_ext. intros i [n r] Hi. cbn. apply Hm.
    apply elem_of_map_to_list. by apply (list_elem_of_lookup_2 _ i). }
  assert (forall r, r ∈ (map_to_list m).*2 <-> m !! ref_n r = Some r) as Hin.
  { intros r. rewrite list_elem_of_fmap. split.
    - intros ([n x] & -> & Hx%elem_of_map_to_list). cbn. by rewrite (Hm n x Hx).
    - intros Hr. exists (ref_n r, r). split; [done|]. by apply elem_of_map_to_list. }
  unfold lists. split.
  - intros Hl. split.
    + rewrite Hl, Hfst. apply NoDup_fst_map_to_list.
    + intros r. by rewrite Hl.
  - intros [Hnd Hl]. apply NoDup_Permutation; [by eapply NoDup_fmap_1| |].
    + eapply (NoDup_fmap_1 ref_n). rewrite Hfst. apply NoDup_fst_map_to_list.
    + intros r. by rewrite Hl, Hin.
Qed.

Lemma unseen_spec l dels seen :
  let '(refs, seen') := unseen l dels seen in
  NoDup (ref_n <$> refs)
  /\ (forall r, r ∈ refs -> r ∈ l /\ ref_n r ∉ dels /\ ref_n r ∉ seen)
  /\ (forall n, n ∈ seen' <-> n ∈ seen \/ n ∈ ref_n <$> refs)
  /\ (forall r, r ∈ l -> ref_n r ∉ dels -> ref_n r ∉ seen -> ref_n r ∈ ref_n <$> refs).
Proof.
  revert seen. induction l as [|x l IH]; intros seen; cbn [unseen].
  - split; [constructor|]. set_solver.
  - destruct (bool_decide_reflect (ref_n x ∈ dels)) as [Hd|Hd]; cbn [orb];
      [|destruct (bool_decide_reflect (ref_n x ∈ seen)) as [Hs|Hs]].
    + specialize (IH seen). destruct (unseen l dels seen) as [refs seen']. destruct IH as (H1' & H2' & H3' & H4').
      split; [done|]. split; [set_solver|]. split; [done|]. intros r [->|Hr]%elem_of_cons; [done|by apply H4'].
    + specialize (IH seen). destruct (unseen l dels seen) as [refs seen']. destruct IH as (H1' & H2' & H3' & H4').
      split; [done|]. split; [set_solver|]. split; [done|]. intros r [->|Hr]%elem_of_cons; [done|by apply H4'].
    + specialize (IH ({[ ref_n x ]} ∪ seen)). destruct (unseen l dels _) as [refs seen'].
      destruct IH as (H1' & H2' & H3' & H4'). rewrite fmap_cons. split; [|split; [|split]].
      * constructor; [|done]. intros (r & Hr & Hin)%list_elem_of_fmap. destruct (H2' r Hin) as (_ & _ & Hn). set_solver.
      * intros r [->|Hr]%elem_of_cons; [set_solver|]. specialize (H2' r Hr). set_solver.
      * intros n. rewrite H3', elem_of_cons. set_solver.
      * intros r [->|Hr]%elem_of_cons Hnd Hns; [set_solver|]. destruct (decide (ref_n r = ref_n x)) as [->|Hne]; [set_solver|].
        right. apply H4'; [done..|set_solver].
Qed.

Lemma unseen_lists r tl bl :
  tx_ok r -> lists (view (temporal r)) tl -> lists (view (base r)) bl ->
  let '(refs, seen) := unseen tl (deleted r) ∅ in
  lists (tx_view r) ((unseen bl (deleted r) seen).1 ++ refs).
Proof.
  intros Hok Htl Hbl. pose proof Hok as [Hb Ht _].
  apply (lists_iff _ tl (fun n x => view_names _ n x Ht)) in Htl as [_ Htl].
  apply (lists_iff _ bl (fun n x => view_names _ n x Hb)) in Hbl as [_ Hbl].
  pose proof (unseen_spec tl (deleted r) ∅) as Hu. destruct (unseen tl (deleted r) ∅) as [refs seen].
  destruct Hu as (Ha1 & Ha2 & Ha3 & Ha4). pose proof (unseen_spec bl (deleted r) seen) as Hu.
  destruct (unseen bl (deleted r) seen) as [bs seen']. destruct Hu as (Hb1 & Hb2 & _ & Hb4). cbn [fst].
  apply lists_iff; [intros n x; by apply tx_view_names|]. rewrite fmap_app, NoDup_app. split.
  { split; [done|]. split; [|done]. intros n (x & -> & Hx)%list_elem_of_fmap Hn.
    destruct (Hb2 x Hx) as (_ & _ & Hns). apply Hns, Ha3. by right. }
  intros x. rewrite elem_of_app, tx_view_lookup. split.
  - intros [Hx|Hx].
    + destruct (Hb2 x Hx) as (Hxl & Hxd & Hxs). rewrite decide_False by done. rewrite lookup_union_Some_raw. right.
      split; [|by apply Hbl]. destruct (view (temporal r) !! ref_n x) as [y|] eqn:Hy; [|done]. exfalso.
      assert (ref_n y = ref_n x) as Hyx by exact (view_names _ _ _ Ht Hy).
      apply Hxs, Ha3. right. rewrite <-Hyx. apply Ha4; [by apply Htl; rewrite Hyx|by rewrite Hyx|set_solver].
    + destruct (Ha2 x Hx) as (Hxl & Hxd & _). rewrite decide_False by done. apply lookup_union_Some_raw. left. by apply Htl.
  - destruct (decide (ref_n x ∈ deleted r)) as [|Hd]; [done|]. rewrite lookup_union_Some_raw. intros [Hx|[Hn Hx]].
    + right. assert (ref_n x ∈ ref_n <$> refs) as (y & Hyn & Hy)%list_elem_of_fmap
        by (apply Ha4; [by apply Htl|done|set_solver]).
      assert (view (temporal r) !! ref_n y = Some y) as Hvy by (apply Htl; by apply Ha2).
      rewrite <-Hyn in Hvy. rewrite Hvy in Hx. by injection Hx as <-.
    + left. assert (ref_n x ∈ ref_n <$> bs) as (y & Hyn & Hy)%list_elem_of_fmap.
      { apply Hb4; [by apply Hbl|done|]. rewrite Ha3. intros [|(y & Hyn & Hy)%list_elem_of_fmap]; [set_solver|].
        assert (view (temporal r) !! ref_n y = Some y) as Hvy by (apply Htl; by apply Ha2).
        rewrite <-Hyn in Hvy. congruence. }
      assert (view (base r) !! ref_n y = Some y) as Hvy by (apply Hbl; by apply Hb2).
      rewrite <-Hyn in Hvy. rewrite Hvy in Hx. by injection Hx as <-.
Qed.

(** *** The laws *)

Lemma on_base_eq {A} (m : M B A) r out b :
  m (base r) = (out, b) -> on_base m r = (out, Build_TxReferences b (temporal r) (deleted r)).
Proof. unfold on_base, zoom. by intros ->. Qed.

Lemma on_temporal_eq {A} (m : M T A) r out t :
  m (temporal r) = (out, t) -> on_temporal m r = (out, Build_TxReferences (base r) t (deleted r)).
Proof. unfold on_temporal, zoom. by intros ->. Qed.

(** States that stand for the same map. *)
Lemma tx_view_eq r r' :
  view (base r') = view (base r) -> view (temporal r') = view (temporal r) -> deleted r' = deleted r ->
  tx_view r' = tx_view r.
Proof. unfold tx_view. by intros -> -> ->. Qed.

Lemma lookup_either_spec n r :
  tx_ok r ->
  exists r', lookup_either n r
      = (match (view (temporal r) ∪ view (base r)) !! n with Some x => Ok x | None => Err ErrReferenceNotFound end, r')
    /\ tx_ok r' /\ tx_view r' = tx_view r /\ view (base r') = view (base r).
Proof.
  intros [Hb Ht Hd]. destruct (law_lookup (temporal r) n Ht) as (t & Hl & Ht' & Hv).
  apply on_temporal_eq in Hl. unfold lookup_either.
  set (r1 := Build_TxReferences (base r) t (deleted r)) in *.
  assert (forall f, (try (on_temporal (LookupReference n)) ≫= f) r
    = f (match view (temporal r) !! n with Some x => Ok x | None => Err ErrReferenceNotFound end) r1) as ->
    by (intros f; unfold mbind, M_bind, try; by rewrite Hl).
  destruct (view (temporal r) !! n) as [x|] eqn:Hn.
  - exists r1. rewrite (lookup_union_Some_l _ _ _ x) by done. split; [done|]. split; [constructor; cbn; [done..|]|].
    + by rewrite Hv.
    + split; [|done]. by apply tx_view_eq.
  - destruct (law_lookup (base r) n Hb) as (b & Hl2 & Hb' & Hv2).
    rewrite lookup_union_r by done. rewrite (on_base_eq _ r1 _ _ Hl2). eexists. split; [reflexivity|].
    split; [constructor; cbn; [done..|by rewrite Hv]|]. split; [by apply tx_view_eq|done].
Qed.

Lemma txr_set_spec r ref :
  tx_ok r -> exists r', txr_SetReference (Some ref) r = (Ok tt, r') /\ tx_ok r' /\ tx_view r' = <[ref_n ref := ref]> (tx_view r)
    /\ view (base r') = view (base r).
Proof.
  intros [Hb Ht Hd]. destruct (law_set (temporal r) ref Ht) as (t & Hl & Ht' & Hv). unfold txr_SetReference.
  set (r1 := Build_TxReferences (base r) (temporal r) (deleted r ∖ {[ ref_n ref ]})).
  rewrite (bind_Ok _ _ r tt r1) by done. rewrite (on_temporal_eq _ r1 _ _ Hl). eexists. split; [reflexivity|].
  split; [constructor; cbn; [done..|]|].
  - intros n. rewrite Hv, elem_of_difference, not_elem_of_singleton. intros [Hn Hne].
    rewrite lookup_insert_ne by done. by apply Hd.
  - split; [|done]. apply map_eq. intros n. rewrite tx_view_lookup. cbn [deleted temporal base]. rewrite Hv.
    destruct (decide (n = ref_n ref)) as [->|Hne].
    + rewrite decide_False by set_solver. rewrite lookup_insert_eq. apply lookup_union_Some_l, lookup_insert_eq.
    + rewrite lookup_insert_ne by done. rewrite tx_view_lookup.
      destruct (decide (n ∈ deleted r)) as [Hn|Hn]; [rewrite decide_True by set_solver; done|].
      rewrite decide_False by set_solver. by rewrite !lookup_union, lookup_insert_ne.
Qed.

Lemma txr_remove_spec r n :
  tx_ok r -> exists r', txr_RemoveReference n r = (Ok tt, r') /\ tx_ok r' /\ tx_view r' = delete n (tx_view r)
    /\ view (base r') = view (base r).
Proof.
  intros [Hb Ht Hd]. destruct (law_remove (temporal r) n Ht) as (t & Hl & Ht' & Hv). unfold txr_RemoveReference.
  set (r1 := Build_TxReferences (base r) (temporal r) ({[ n ]} ∪ deleted r)).
  rewrite (bind_Ok _ _ r tt r1) by done. rewrite (on_temporal_eq _ r1 _ _ Hl). eexists. split; [reflexivity|].
  split; [constructor; cbn; [done..|]|].
  - intros m. rewrite Hv, elem_of_union, elem_of_singleton. intros Hm. destruct (decide (m = n)) as [->|Hne].
    + apply lookup_delete_eq.
    + rewrite lookup_delete_ne by done. apply Hd. by destruct Hm.
  - split; [|done]. apply map_eq. intros m. rewrite tx_view_lookup. cbn [deleted temporal base]. rewrite Hv.
    destruct (decide (m = n)) as [->|Hne].
    + rewrite decide_True by set_solver. by rewrite lookup_delete_eq.
    + rewrite lookup_delete_ne by done. rewrite tx_view_lookup.
      destruct (decide (m ∈ deleted r)) as [Hm|Hm]; [by rewrite decide_True by set_solver|].
      rewrite decide_False by set_solver. by rewrite !lookup_union, lookup_delete_ne.
Qed.

Lemma txr_iter_spec r :
  tx_ok r -> exists l r', txr_IterReferences r = (Ok l, r') /\ tx_ok r' /\ tx_view r' = tx_view r /\ lists (tx_view r) l
    /\ view (base r') = view (base r).
Proof.
  intros Hok. pose proof Hok as [Hb Ht Hd]. destruct (law_iter (temporal r) Ht) as (tl & t & Hl & Ht' & Hv & Htl).
  unfold txr_IterReferences. rewrite (bind_Ok _ _ r (deleted r) r) by done.
  rewrite (bind_Ok _ _ _ _ _ (on_temporal_eq _ r _ _ Hl)).
  destruct (law_iter (base r) Hb) as (bl & b & Hl2 & Hb' & Hv2 & Hbl).
  pose proof (unseen_lists r tl bl Hok Htl Hbl) as Hu. destruct (unseen tl (deleted r) ∅) as [refs seen].
  set (r1 := Build_TxReferences (base r) t (deleted r)).
  rewrite (bind_Ok _ _ _ _ _ (on_base_eq _ r1 _ _ Hl2)). destruct (unseen bl (deleted r) seen) as [bs seen'].
  eexists _, _. split; [reflexivity|]. split; [constructor; cbn; [done..|by rewrite Hv]|].
  split; [by apply tx_view_eq|]. by split.
Qed.

#[export] Instance transactional_lawful : LawfulStorer Tx.
Proof.
  refine {| store_ok := tx_ok; view := tx_view |}.
  - intros r n x Hok. by apply tx_view_names.
  - intros r ref Hok. destruct (txr_set_spec r ref Hok) as (r' & H' & Hok' & Hv & _). eauto.
  - intros r n Hok. cbn [LookupReference transactional_storer]. unfold txr_Reference.
    rewrite (bind_Ok _ _ r (deleted r) r) by done. rewrite tx_view_lookup.
    destruct (bool_decide_reflect (n ∈ deleted r)) as [Hn|Hn].
    + rewrite decide_True by done. by exists r.
    + rewrite decide_False by done. destruct (lookup_either_spec n r Hok) as (r' & -> & Hok' & Hv & _). eauto.
  - intros r Hok. destruct (txr_iter_spec r Hok) as (l & r' & H' & Hok' & Hv & Hl & _). eauto 7.
  - intros r n Hok. destruct (txr_remove_spec r n Hok) as (r' & H' & Hok' & Hv & _). eauto.
  - intros r Hok. by exists r.
Defined.

(** *** Committing *)

Lemma remove_all_spec names b :
  store_ok b -> exists b', remove_all names b = (Ok tt, b') /\ store_ok b'
    /\ forall n, view b' !! n = if decide (n ∈ names) then None else view b !! n.
Proof.
  revert b. induction names as [|m names IH]; intros b Hb; cbn [remove_all].
  - exists b. split; [done|]. split; [done|]. intros n. by rewrite decide_False by apply not_elem_of_nil.
  - destruct (law_remove b m Hb) as (b1 & Hr & Hb1 & Hv). rewrite (bind_Ok _ _ _ _ _ Hr).
    destruct (IH b1 Hb1) as (b2 & -> & Hb2 & Hv2). exists b2. split; [done|]. split; [done|]. intros n.
    rewrite Hv2, Hv. destruct (decide (n ∈ names)); [by rewrite decide_True by set_solver|].
    destruct (decide (n = m)) as [->|]; [rewrite decide_True by set_solver; apply lookup_delete_eq|].
    rewrite decide_False by set_solver. by apply lookup_delete_ne.
Qed.

Definition by_name (l : list Reference) : gmap ReferenceName Reference := list_to_map ((fun r => (ref_n r, r)) <$> l).

Lemma set_all_spec l (b : B) :
  store_ok b -> NoDup (ref_n <$> l) ->
  exists b', for_each l (fun ref => SetReference (Some ref)) b = (Ok tt, b') /\ store_ok b'
    /\ view b' = by_name l ∪ view b.
Proof.
  revert b. induction l as [|x l IH]; intros b Hb Hnd; cbn [for_each].
  - exists b. split; [done|]. split; [done|]. unfold by_name. cbn. by rewrite map_empty_union.
  - rewrite fmap_cons in Hnd. apply NoDup_cons in Hnd as [Hx Hnd].
    destruct (law_set b x Hb) as (b1 & -> & Hb1 & Hv). destruct (IH b1 Hb1 Hnd) as (b2 & -> & Hb2 & Hv2).
    exists b2. split; [done|]. split; [done|]. rewrite Hv2, Hv. unfold by_name. rewrite fmap_cons. cbn [list_to_map foldr].
    rewrite <-insert_union_r; [by rewrite insert_union_l|]. apply not_elem_of_list_to_map_1.
    rewrite <-list_fmap_compose. exact Hx.
Qed.

Lemma by_name_lists (m : gmap ReferenceName Reference) l :
  (forall n r, m !! n = Some r -> ref_n r = n) -> lists m l -> NoDup (ref_n <$> l) /\ by_name l = m.
Proof.
  intros Hm Hl. apply (lists_iff m l Hm) in Hl as [Hnd Hl]. split; [done|].
  assert (NoDup (((fun r => (ref_n r, r)) <$> l).*1)) as Hnd' by (by rewrite <-list_fmap_compose).
  apply map_eq. intros n. apply option_eq. intros r. unfold by_name.
  rewrite <-elem_of_list_to_map by done. rewrite list_elem_of_fmap. split.
  - intros (y & [= -> ->] & Hy). by apply Hl.
  - intros Hr. exists r. rewrite (Hm n r Hr). split; [done|]. apply Hl. by rewrite (Hm n r Hr).
Qed.

Lemma txr_Commit_spec order (order_perm : forall X, order X ≡ₚ elements X) r :
  tx_ok r -> exists r', txr_Commit order r = (Ok tt, r') /\ tx_ok r' /\ view (base r') = tx_view r /\ tx_view r' = tx_view r.
Proof.
  intros Hok. pose proof Hok as [Hb Ht Hd]. unfold txr_Commit. rewrite (bind_Ok _ _ r (deleted r) r) by done.
  destruct (remove_all_spec (order (deleted r)) (base r) Hb) as (b1 & Hr1 & Hb1 & Hv1).
  rewrite (bind_Ok _ _ _ _ _ (on_base_eq _ r _ _ Hr1)). set (r1 := Build_TxReferences b1 (temporal r) (deleted r)).
  destruct (law_iter (temporal r) Ht) as (l & t & Hl & Ht' & Hvt & Hll).
  rewrite (bind_Ok _ _ _ _ _ (on_temporal_eq _ r1 _ _ Hl)).
  change (Build_TxReferences (base r1) t (deleted r1)) with (Build_TxReferences b1 t (deleted r)).
  set (r2 := Build_TxReferences b1 t (deleted r)).
  destruct (by_name_lists _ _ (fun n x => view_names _ n x Ht) Hll) as [Hnd Hby].
  destruct (set_all_spec l b1 Hb1 Hnd) as (b2 & Hs & Hb2 & Hv2). rewrite (on_base_eq _ r2 _ _ Hs).
  eexists. split; [reflexivity|]. split; [constructor; cbn; [done..|by rewrite Hvt]|].
  assert (view b2 = tx_view r) as Hview.
  { apply map_eq. intros n. rewrite Hv2, Hby, tx_view_lookup, !lookup_union, Hv1.
    assert (n ∈ order (deleted r) <-> n ∈ deleted r) as Ho by (by rewrite order_perm, elem_of_elements).
    destruct (decide (n ∈ deleted r)) as [Hn|Hn].
    - rewrite decide_True by (by apply Ho). by rewrite Hd.
    - by rewrite decide_False by (by rewrite Ho). }
  split; [done|]. cbn [base]. apply map_eq. intros n. rewrite !tx_view_lookup. unfold r2. cbn [base temporal deleted].
  destruct (decide (n ∈ deleted r)) as [|Hn]; [done|]. rewrite Hvt, Hview, !lookup_union, tx_view_lookup.
  rewrite decide_False, lookup_union by done. by destruct (view (temporal r) !! n), (view (base r) !! n).
Qed.
End references.

(** *** Compare and set *)

(** Compare-and-set in a transaction.  For a name the transaction has not
    deleted it checks and updates what the transaction stands for, as the
    base would; a name the transaction has deleted is still compared with
    what the base holds under it. *)
Lemma transactional_check_and_set {B T} `{LawfulStorer B} `{LawfulStorer T} (r : TxReferences B T) ref old :
  tx_ok r ->
  exists r', CheckAndSetReference (Some ref) old r
      = ((check_and_set (match old with
                         | Some o => if decide (ref_n o ∈ deleted r) then view (base r) else tx_view r
                         | None => tx_view r
                         end) ref old).1, r')
    /\ tx_ok r' /\ view (base r') = view (base r)
    /\ ((forall o, old = Some o -> ref_n o ∉ deleted r) -> tx_view r' = (check_and_set (tx_view r) ref old).2).
Proof.
  intros Hok. cbn [CheckAndSetReference transactional_storer]. unfold txr_CheckAndSetReference, check_and_set.
  destruct old as [o|].
  2:{ destruct (txr_set_spec r ref Hok) as (r' & -> & Hok' & Hv & Hb). eauto 6. }
  destruct (lookup_either_spec (ref_n o) r Hok) as (r1 & Hl & Hok1 & Hv1 & Hb1).
  assert ((view (temporal r) ∪ view (base r)) !! ref_n o
    = (if decide (ref_n o ∈ deleted r) then view (base r) else tx_view r) !! ref_n o) as Heq.
  { destruct (decide (ref_n o ∈ deleted r)) as [Hd|Hd].
    - rewrite lookup_union_r; [done|]. by apply Hok.
    - by rewrite tx_view_lookup, decide_False. }
  rewrite Heq in Hl. destruct (_ !! ref_n o) as [tmp|] eqn:Htmp in Hl |- *.
  - rewrite (bind_Ok _ _ _ _ _ Hl). destruct (bool_decide_reflect (ref_h tmp = ref_h o)) as [Hh|Hh]; cbn [negb].
    + destruct (txr_set_spec r1 ref Hok1) as (r' & -> & Hok' & Hv & Hb). exists r'. split_and!; [done|done|congruence|].
      intros Hn. rewrite decide_False in Htmp by (by apply Hn). rewrite Htmp, bool_decide_eq_true_2 by done.
      by rewrite Hv, Hv1.
    + exists r1. split_and!; [done|done|done|]. intros Hn. rewrite decide_False in Htmp by (by apply Hn).
      by rewrite Htmp, bool_decide_eq_false_2.
  - rewrite (bind_Err _ _ _ _ _ Hl). exists r1. split_and!; [done|done|done|]. intros Hn.
    rewrite decide_False in Htmp by (by apply Hn). by rewrite Htmp.
Qed.

(** The names a transaction holds as deleted change when it writes only. *)
Lemma lookup_either_deleted {B T} `{ReferenceStorer B} `{ReferenceStorer T} n (r : TxReferences B T) :
  deleted (lookup_either n r).2 = deleted r.
Proof. unfold lookup_either, mbind, M_bind, try, on_temporal, on_base, zoom. repeat case_match; simplify_eq; done. Qed.

Lemma txr_set_deleted {B T} `{ReferenceStorer B} `{ReferenceStorer T} ref (r : TxReferences B T) :
  deleted (txr_SetReference (Some ref) r).2 = deleted r ∖ {[ ref_n ref ]}.
Proof. unfold txr_SetReference, mbind, M_bind, on_temporal, zoom, set_deleted, modify. cbn. by destruct (SetReference _ _). Qed.

Lemma txr_check_deleted {B T} `{ReferenceStorer B} `{ReferenceStorer T} ref old (r : TxReferences B T) :
  (forall o, old = Some o -> ref_n o = ref_n ref /\ ref_n o ∉ deleted r) ->
  deleted (txr_CheckAndSetReference (Some ref) old r).2 = deleted r ∖ {[ ref_n ref ]}.
Proof.
  intros Hold. destruct old as [o|]; [|apply txr_set_deleted]. destruct (Hold o eq_refl) as [Hn Hd].
  assert (deleted r ∖ {[ ref_n ref ]} = deleted r) as Hsame by (rewrite Hn in Hd; apply set_eq; set_solver).
  unfold txr_CheckAndSetReference. pose proof (lookup_either_deleted (ref_n o) r) as Hl.
  unfold mbind at 1, M_bind at 1. destruct (lookup_either (ref_n o) r) as [out r1]. cbn [snd] in Hl.
  destruct out; try (by rewrite Hsame). destruct (negb _); [by rewrite Hsame|]. by rewrite txr_set_deleted, Hl.
Qed.

(** *** Programs over a store *)

Inductive ref_op :=
  | OpSet (r : Reference)
  | OpCheck (r : Reference) (old : option Reference)
  | OpRemove (n : ReferenceName)
  | OpLookup (n : ReferenceName)
  | OpIter
  | OpPack.

Inductive ref_result :=
  | ResUnit (r : outcome storage_error unit)
  | ResReference (r : outcome storage_error Reference)
  | ResList (r : outcome storage_error (list Reference)).

(** Results are the same up to the order in which references are listed. *)
Inductive same_result : ref_result -> ref_result -> Prop :=
  | same_refl r : same_result r r
  | same_list l l' : l ≡ₚ l' -> same_result (ResList (Ok l)) (ResList (Ok l')).

Section programs.
Context {S : Type} `{ReferenceStorer S}.

Definition run_op (op : ref_op) (s : S) : ref_result * S :=
  match op with
  | OpSet r => let '(o, s) := SetReference (Some r) s in (ResUnit o, s)
  | OpCheck r old => let '(o, s) := CheckAndSetReference (Some r) old s in (ResUnit o, s)
  | OpRemove n => let '(o, s) := RemoveReference n s in (ResUnit o, s)
  | OpLookup n => let '(o, s) := LookupReference n s in (ResReference o, s)
  | OpIter => let '(o, s) := IterReferences s in (ResList o, s)
  | OpPack => let '(o, s) := PackRefs s in (ResUnit o, s)
  end.

Fixpoint run_ops (ops : list ref_op) (s : S) : list ref_result * S :=
  match ops with
  | [] => ([], s)
  | op :: ops' => let '(r, s) := run_op op s in let '(rs, s) := run_ops ops' s in (r :: rs, s)
  end.
End programs.

(** A compare-and-set that does to the map of the store what it says. *)
Definition checks {S} `{LawfulStorer S} (s : S) (ref : Reference) (old : option Reference) : Prop :=
  exists s', CheckAndSetReference (Some ref) old s = ((check_and_set (view s) ref old).1, s')
    /\ store_ok s' /\ view s' = (check_and_set (view s) ref old).2.

Section simulation.
Context {S S' : Type} `{LawfulStorer S} `{LawfulStorer S'}.

(** Two lawful stores that stand for the same map cannot be told apart. *)
Lemma run_op_simulates op (s : S) (s' : S') :
  (forall ref old, op = OpCheck ref old -> checks s ref old /\ checks s' ref old) ->
  store_ok s -> store_ok s' -> view s = view s' ->
  same_result (run_op op s).1 (run_op op s').1
  /\ store_ok (run_op op s).2 /\ store_ok (run_op op s').2 /\ view (run_op op s).2 = view (run_op op s').2.
Proof.
  intros Hcheck Hs Hs' Hv. destruct op as [r|r old|n|n| |]; cbn [run_op].
  - destruct (law_set s r Hs) as (t & -> & Ht & Hvt), (law_set s' r Hs') as (t' & -> & Ht' & Hvt').
    split; [constructor|]. split; [done|]. split; [done|]. cbn. by rewrite Hvt, Hvt', Hv.
  - destruct (Hcheck r old eq_refl) as [(t & -> & Ht & Hvt) (t' & -> & Ht' & Hvt')].
    rewrite Hv. split; [constructor|]. split; [done|]. split; [done|]. cbn. by rewrite Hvt, Hvt', Hv.
  - destruct (law_remove s n Hs) as (t & -> & Ht & Hvt), (law_remove s' n Hs') as (t' & -> & Ht' & Hvt').
    split; [constructor|]. split; [done|]. split; [done|]. cbn. by rewrite Hvt, Hvt', Hv.
  - destruct (law_lookup s n Hs) as (t & -> & Ht & Hvt), (law_lookup s' n Hs') as (t' & -> & Ht' & Hvt').
    rewrite Hv. split; [constructor|]. split; [done|]. split; [done|]. cbn. by rewrite Hvt, Hvt', Hv.
  - destruct (law_iter s Hs) as (l & t & -> & Ht & Hvt & Hl), (law_iter s' Hs') as (l' & t' & -> & Ht' & Hvt' & Hl').
    split; [constructor; unfold lists in *; by rewrite Hl, Hl', Hv|]. split; [done|]. split; [done|].
    cbn. by rewrite Hvt, Hvt', Hv.
  - destruct (law_pack s Hs) as (t & -> & Ht & Hvt), (law_pack s' Hs') as (t' & -> & Ht' & Hvt').
    split; [constructor|]. split; [done|]. split; [done|]. cbn. by rewrite Hvt, Hvt', Hv.
Qed.
End simulation.

(** The names that are removed and not set again; and the operations whose
    every compare-and-set updates the name it compares, which is not such a
    name. *)
Definition removed_by (op : ref_op) (removed : gset ReferenceName) : gset ReferenceName :=
  match op with
  | OpSet r | OpCheck r _ => removed ∖ {[ ref_n r ]}
  | OpRemove n => {[ n ]} ∪ removed
  | _ => removed
  end.

Definition check_kept (removed : gset ReferenceName) (op : ref_op) : Prop :=
  match op with OpCheck r (Some o) => ref_n o = ref_n r /\ ref_n o ∉ removed | _ => True end.

Fixpoint checks_kept (removed : gset ReferenceName) (ops : list ref_op) : Prop :=
  match ops with
  | [] => True
  | op :: ops' => check_kept removed op /\ checks_kept (removed_by op removed) ops'
  end.

Section transaction.
Context {B T : Type} `{LawfulStorer B, !CheckedStorer B} `{LawfulStorer T}.

(** No operation of a transaction changes what its base holds. *)
Lemma run_op_base op (r : TxReferences B T) :
  tx_ok r -> tx_ok (run_op op r).2 /\ view (base (run_op op r).2) = view (base r).
Proof.
  intros Hok. destruct op as [x|x old|n|n| |]; cbn [run_op SetReference RemoveReference LookupReference IterReferences PackRefs transactional_storer].
  - by destruct (txr_set_spec r x Hok) as (r' & -> & Hok' & _ & Hb).
  - by destruct (transactional_check_and_set r x old Hok) as (r' & -> & Hok' & Hb & _).
  - by destruct (txr_remove_spec r n Hok) as (r' & -> & Hok' & _ & Hb).
  - unfold txr_Reference. rewrite (bind_Ok _ _ r (deleted r) r) by done.
    destruct (bool_decide (n ∈ deleted r)); [done|].
    by destruct (lookup_either_spec n r Hok) as (r' & -> & Hok' & _ & Hb).
  - by destruct (txr_iter_spec r Hok) as (l & r' & -> & Hok' & _ & _ & Hb).
  - done.
Qed.

Lemma run_op_deleted op (r : TxReferences B T) : check_kept (deleted r) op -> deleted (run_op op r).2 = removed_by op (deleted r).
Proof.
  destruct op as [x|x old|n|n| |]; cbn [run_op check_kept removed_by SetReference CheckAndSetReference RemoveReference LookupReference IterReferences PackRefs transactional_storer]; intros Hk.
  - rewrite <-txr_set_deleted. by destruct (txr_SetReference _ r).
  - rewrite <-(txr_check_deleted x old r) by (by intros o ->). by destruct (txr_CheckAndSetReference _ _ r).
  - unfold txr_RemoveReference, mbind, M_bind, on_temporal, zoom, set_deleted, modify. cbn. by destruct (RemoveReference _ _).
  - unfold txr_Reference, mbind, M_bind. cbn. pose proof (lookup_either_deleted n r). by destruct (bool_decide _), (lookup_either n r).
  - unfold txr_IterReferences, mbind, M_bind, on_temporal, on_base, zoom. cbn. destruct (IterReferences (temporal r)) as [[l| | |] t]; try done.
    destruct (unseen l (deleted r) ∅) as [refs seen]. cbn. destruct (IterReferences (base r)) as [[l'| | |] b]; try done.
    by destruct (unseen l' (deleted r) seen).
  - done.
Qed.

(** A transaction and the store it stands for. *)
Lemma run_ops_simulates ops (r : TxReferences B T) (b : B) :
  checks_kept (deleted r) ops -> tx_ok r -> store_ok b -> tx_view r = view b ->
  Forall2 same_result (run_ops ops r).1 (run_ops ops b).1
  /\ tx_ok (run_ops ops r).2 /\ tx_view (run_ops ops r).2 = view (run_ops ops b).2 /\ view (base (run_ops ops r).2) = view (base r).
Proof.
  revert r b. induction ops as [|op ops IH]; intros r b Hk Hr Hb Hv; [by split; [constructor|]|]. destruct Hk as [Hk Hks]. cbn [run_ops].
  rewrite <-(run_op_deleted op r Hk) in Hks. pose proof (run_op_base op r Hr) as [_ Hbase].
  destruct (run_op_simulates op r b) as (Hres & Ht & Ht' & Hvt); [|done..|].
  { intros ref old ->. split.
    - destruct (transactional_check_and_set r ref old Hr) as (r' & Hc & Hok & _ & Hv'). exists r'.
      assert (forall o, old = Some o -> ref_n o ∉ deleted r) as Hn by (intros o ->; apply Hk). split; [|split; [done|by apply Hv']].
      rewrite Hc. f_equal. destruct old as [o|]; [|done]. by rewrite decide_False by (by apply Hn).
    - apply law_check; [done|]. intros o ->. apply Hk. }
  destruct (run_op op r) as [x t], (run_op op b) as [x' t']. cbn [fst snd] in *.
  destruct (IH t t' Hks Ht Ht' Hvt) as (Hrs & Hu & Hvu & Hbu). destruct (run_ops ops t) as [rs u], (run_ops ops t') as [rs' u'].
  cbn [fst snd] in *. split_and!; [by constructor|done|done|congruence].
Qed.
End transaction.

(** C26: a transaction refines its base.  For any base and any empty temporal
    store that obey the laws of a reference store, and any sequence of sets,
    compare-and-sets, removals, lookups, listings and packings whose every
    compare-and-set updates the name it compares and not one that an earlier
    removal took away, the transactional storage returns what the base itself
    would have returned, and leaves the base alone until it is committed; the
    commit succeeds and then makes the base the store that running the
    operations on it directly would have left, in whatever order it visits
    its maps. *)
Theorem transaction_refines {B T} `{LawfulStorer B, !CheckedStorer B} `{LawfulStorer T} order (b : B) (t : T) ops :
  (forall X, order X ≡ₚ elements X) -> store_ok b -> store_ok t -> view t = ∅ -> checks_kept ∅ ops ->
  let '(results, r) := run_ops ops (NewReferenceStorage b t) in
  let '(direct, b') := run_ops ops b in
  Forall2 same_result results direct /\ view (base r) = view b
  /\ exists r', txr_Commit order r = (Ok tt, r') /\ view (base r') = view b'.
Proof.
  intros Horder Hb Ht He Hk. set (r0 := NewReferenceStorage b t).
  assert (tx_ok r0) as Hr0 by (constructor; [done..|by cbn; intros n ?%not_elem_of_empty]).
  assert (tx_view r0 = view b) as Hv.
  { apply map_eq. intros n. rewrite tx_view_lookup, decide_False by set_solver. cbn. by rewrite He, map_empty_union. }
  destruct (run_ops_simulates ops r0 b Hk Hr0 Hb Hv) as (Hres & Hok & Hview & Hbv).
  destruct (run_ops ops r0) as [results r], (run_ops ops b) as [direct b']. cbn [fst snd] in *.
  split; [done|]. split; [exact Hbv|]. destruct (txr_Commit_spec order Horder r Hok) as (r' & -> & _ & Hbase & _). exists r'.
  split; [done|]. by rewrite Hbase.
Qed.

(** ** Values that are set whole: the configuration ([config.go]) and the
    index ([index.go]) *)

Class ValueStorer (S V : Type) := {
  SetValue : V -> M S unit;
  GetValue : M S V;
}.

Record TxValue (B T : Type) := { vbase : B; vtemporal : T; vset : bool }.
Arguments vbase {B T} _.
Arguments vtemporal {B T} _.
Arguments vset {B T} _.
Arguments Build_TxValue {B T} _ _ _.

Section values.
Context {B T V : Type} `{ValueStorer B V} `{ValueStorer T V}.

Definition NewValueStorage (b : B) (t : T) : TxValue B T := Build_TxValue b t false.

Definition on_vbase {A} (m : M B A) : M (TxValue B T) A :=
  zoom vbase (fun b r => Build_TxValue b (vtemporal r) (vset r)) m.
Definition on_vtemporal {A} (m : M T A) : M (TxValue B T) A :=
  zoom vtemporal (fun t r => Build_TxValue (vbase r) t (vset r)) m.

(** [SetConfig], [SetIndex]. *)
Definition txv_Set (v : V) : M (TxValue B T) unit :=
  on_vtemporal (SetValue v);; modify (fun r => Build_TxValue (vbase r) (vtemporal r) true).

(** [Config], [Index]. *)
Definition txv_Get : M (TxValue B T) V :=
  set ← get vset; if negb set then on_vbase GetValue else on_vtemporal GetValue.

Definition txv_Commit : M (TxValue B T) unit :=
  set ← get vset;
  if negb set then mret tt else v ← on_vtemporal GetValue; on_vbase (SetValue v).
End values.

(** ** Shallow commits ([shallow.go]) *)

Section shallow.
Context {B T : Type} `{ValueStorer B (list ObjectID)} `{ValueStorer T (list ObjectID)}.

Definition txs_SetShallow (commits : list ObjectID) : M (TxValue B T) unit := on_vtemporal (SetValue commits).

Definition txs_Shallow : M (TxValue B T) (list ObjectID) :=
  shallow ← on_vtemporal GetValue;
  if negb (len shallow =? 0) then mret shallow else on_vbase GetValue.

Definition txs_Commit : M (TxValue B T) unit :=
  commits ← on_vtemporal GetValue;
  if len commits =? 0 then mret tt else on_vbase (SetValue commits).
End shallow.

#[export] Instance memory_shallow : ValueStorer (list ObjectID) (list ObjectID) :=
  {| SetValue := mem_SetShallow; GetValue := mem_Shallow |}.

(** An empty list of shallow commits set in a transaction is not seen by it
    and not committed. *)
Lemma empty_shallow_is_lost (h : ObjectID) :
  let b := [h] : list ObjectID in
  let s := (txs_SetShallow [] (NewValueStorage b ([] : list ObjectID))).2 in
  (txs_Shallow s).1 = Ok [h] /\ vbase (txs_Commit s).2 = [h].
Proof. done. Qed.

(** ** Reflogs ([reflog.go]) *)

Class ReflogStorer (S Entry : Type) := {
  Reflog : ReferenceName -> M S (list Entry);
  AppendReflog : ReferenceName -> Entry -> M S unit;
  DeleteReflog : ReferenceName -> M S unit;
}.

(** A store of reflogs behaves as a function from names to entries. *)
Class LawfulReflogs (S Entry : Type) `{ReflogStorer S Entry} := {
  log_ok : S -> Prop;
  logs : S -> ReferenceName -> list Entry;
  law_Reflog : forall s n, log_ok s ->
    exists s', Reflog n s = (Ok (logs s n), s') /\ log_ok s' /\ forall m, logs s' m = logs s m;
  law_AppendReflog : forall s n e, log_ok s ->
    exists s', AppendReflog n e s = (Ok tt, s') /\ log_ok s'
      /\ forall m, logs s' m = if decide (m = n) then logs s n ++ [e] else logs s m;
  law_DeleteReflog : forall s n, log_ok s ->
    exists s', DeleteReflog n s = (Ok tt, s') /\ log_ok s'
      /\ forall m, logs s' m = if decide (m = n) then [] else logs s m;
}.

Record TxReflogs (B T : Type) := {
  lbase : B;
  ltemporal : T;
  lappended : gset ReferenceName;
  ldeleted : gset ReferenceName;
}.
Arguments lbase {B T} _.
Arguments ltemporal {B T} _.
Arguments lappended {B T} _.
Arguments ldeleted {B T} _.
Arguments Build_TxReflogs {B T} _ _ _ _.

Section reflogs.
Context {B T Entry : Type} `{LawfulReflogs B Entry} `{LawfulReflogs T Entry}.

Abbreviation TxL := (TxReflogs B T).

Definition NewReflogStorage (b : B) (t : T) : TxL := Build_TxReflogs b t ∅ ∅.

Definition on_lbase {A} (m : M B A) : M TxL A :=
  zoom lbase (fun b r => Build_TxReflogs b (ltemporal r) (lappended r) (ldeleted r)) m.
Definition on_ltemporal {A} (m : M T A) : M TxL A :=
  zoom ltemporal (fun t r => Build_TxReflogs (lbase r) t (lappended r) (ldeleted r)) m.

(** The entries of the base, unless they were deleted, and then those of the
    transaction. *)
Definition txl_Reflog (name : ReferenceName) : M TxL (list Entry) :=
  dels ← get ldeleted;
  base ← (if bool_decide (name ∈ dels) then mret [] else on_lbase (Reflog name));
  temporal ← on_ltemporal (Reflog name);
  mret (if len base =? 0 then temporal else if len temporal =? 0 then base else base ++ temporal).

Definition txl_AppendReflog (name : ReferenceName) (entry : Entry) : M TxL unit :=
  modify (fun r => Build_TxReflogs (lbase r) (ltemporal r) ({[ name ]} ∪ lappended r) (ldeleted r));;
  on_ltemporal (AppendReflog name entry).

Definition txl_DeleteReflog (name : ReferenceName) : M TxL unit :=
  modify (fun r => Build_TxReflogs (lbase r) (ltemporal r) (lappended r ∖ {[ name ]}) ({[ name ]} ∪ ldeleted r));;
  on_ltemporal (DeleteReflog name).

Fixpoint delete_logs (names : list ReferenceName) : M B unit :=
  match names with
  | [] => mret tt
  | n :: names' => DeleteReflog n;; delete_logs names'
  end.

Fixpoint append_all (name : ReferenceName) (entries : list Entry) : M B unit :=
  match entries with
  | [] => mret tt
  | e :: entries' => AppendReflog name e;; append_all name entries'
  end.

Fixpoint append_logs (names : list ReferenceName) : M TxL unit :=
  match names with
  | [] => mret tt
  | n :: names' =>
      entries ← on_ltemporal (Reflog n);
      on_lbase (append_all n entries);;
      append_logs names'
  end.

Definition txl_Commit (order : gset ReferenceName -> list ReferenceName) : M TxL unit :=
  dels ← get ldeleted;
  on_lbase (delete_logs (order dels));;
  apps ← get lappended;
  append_logs (order apps).

#[export] Instance transactional_reflogs : ReflogStorer TxL Entry := {
  Reflog := txl_Reflog;
  AppendReflog := txl_AppendReflog;
  DeleteReflog := txl_DeleteReflog;
}.

Definition txl_logs (r : TxL) (n : ReferenceName) : list Entry :=
  (if decide (n ∈ ldeleted r) then [] else logs (lbase r) n) ++ logs (ltemporal r) n.

(** Names that nothing was appended to have no entries of the transaction. *)
Record txl_ok (r : TxL) : Prop := {
  txl_base : log_ok (lbase r);
  txl_temporal : log_ok (ltemporal r);
  txl_appended : forall n, n ∉ lappended r -> logs (ltemporal r) n = [];
}.

Lemma on_lbase_eq {A} (m : M B A) r out b :
  m (lbase r) = (out, b) -> on_lbase m r = (out, Build_TxReflogs b (ltemporal r) (lappended r) (ldeleted r)).
Proof. unfold on_lbase, zoom. by intros ->. Qed.

Lemma on_ltemporal_eq {A} (m : M T A) r out t :
  m (ltemporal r) = (out, t) -> on_ltemporal m r = (out, Build_TxReflogs (lbase r) t (lappended r) (ldeleted r)).
Proof. unfold on_ltemporal, zoom. by intros ->. Qed.

Lemma read_nonempty {A} (l k : list A) : (if len l =? 0 then k else if len k =? 0 then l else l ++ k) = l ++ k.
Proof.
  destruct (Z.eqb_spec (len l) 0) as [Hl|_]; [by rewrite (len_zero_nil l Hl)|].
  destruct (Z.eqb_spec (len k) 0) as [Hk|_]; [by rewrite (len_zero_nil k Hk), app_nil_r|done].
Qed.

#[export] Instance transactional_reflogs_lawful : LawfulReflogs TxL Entry.
Proof.
  refine {| log_ok := txl_ok; logs := txl_logs |}.
  - intros r n [Hb Ht Ha]. cbn [Reflog transactional_reflogs]. unfold txl_Reflog.
    rewrite (bind_Ok _ _ r (ldeleted r) r) by done.
    destruct (law_Reflog (ltemporal r) n Ht) as (t & Hl & Ht' & Hlt).
    destruct (bool_decide_reflect (n ∈ ldeleted r)) as [Hn|Hn].
    + rewrite (bind_Ok _ _ r [] r) by done. rewrite (bind_Ok _ _ _ _ _ (on_ltemporal_eq _ r _ _ Hl)).
      eexists. split; [unfold mret, M_ret; rewrite read_nonempty; unfold txl_logs; by rewrite decide_True|].
      split; [constructor; cbn; [done..|]; intros m Hm; rewrite Hlt; by apply Ha|].
      intros m. unfold txl_logs. cbn. by rewrite Hlt.
    + destruct (law_Reflog (lbase r) n Hb) as (b & Hl2 & Hb' & Hlb).
      rewrite (bind_Ok _ _ _ _ _ (on_lbase_eq _ r _ _ Hl2)).
      rewrite (bind_Ok _ _ _ _ _ (on_ltemporal_eq _ (Build_TxReflogs b (ltemporal r) _ _) _ _ Hl)).
      eexists. split; [unfold mret, M_ret; rewrite read_nonempty; unfold txl_logs; by rewrite decide_False|].
      split; [constructor; cbn; [done..|]; intros m Hm; rewrite Hlt; by apply Ha|].
      intros m. unfold txl_logs. cbn. by rewrite Hlt, Hlb.
  - intros r n e [Hb Ht Ha]. cbn [AppendReflog transactional_reflogs]. unfold txl_AppendReflog.
    destruct (law_AppendReflog (ltemporal r) n e Ht) as (t & Hl & Ht' & Hlt).
    set (r1 := Build_TxReflogs (lbase r) (ltemporal r) ({[ n ]} ∪ lappended r) (ldeleted r)).
    rewrite (bind_Ok _ _ r tt r1) by done. rewrite (on_ltemporal_eq _ r1 _ _ Hl). eexists. split; [reflexivity|].
    split; [constructor; cbn; [done..|]|].
    + intros m Hm. rewrite Hlt, decide_False by set_solver. apply Ha. set_solver.
    + intros m. unfold txl_logs. cbn. rewrite Hlt. destruct (decide (m = n)) as [->|]; [by rewrite app_assoc|done].
  - intros r n [Hb Ht Ha]. cbn [DeleteReflog transactional_reflogs]. unfold txl_DeleteReflog.
    destruct (law_DeleteReflog (ltemporal r) n Ht) as (t & Hl & Ht' & Hlt).
    set (r1 := Build_TxReflogs (lbase r) (ltemporal r) (lappended r ∖ {[ n ]}) ({[ n ]} ∪ ldeleted r)).
    rewrite (bind_Ok _ _ r tt r1) by done. rewrite (on_ltemporal_eq _ r1 _ _ Hl). eexists. split; [reflexivity|].
    split; [constructor; cbn; [done..|]|].
    + intros m Hm. rewrite Hlt. destruct (decide (m = n)); [done|]. apply Ha. set_solver.
    + intros m. unfold txl_logs. cbn. rewrite Hlt. destruct (decide (m = n)) as [->|].
      * by rewrite decide_True by set_solver.
      * destruct (decide (m ∈ ldeleted r)); [by rewrite decide_True by set_solver|]. by rewrite decide_False by set_solver.
Defined.

Lemma delete_logs_spec names (b : B) :
  log_ok b -> exists b', delete_logs names b = (Ok tt, b') /\ log_ok b'
    /\ forall n, logs b' n = if decide (n ∈ names) then [] else logs b n.
Proof.
  revert b. induction names as [|m names IH]; intros b Hb; cbn [delete_logs].
  - exists b. split; [done|]. split; [done|]. intros n. by rewrite decide_False by apply not_elem_of_nil.
  - destruct (law_DeleteReflog b m Hb) as (b1 & Hr & Hb1 & Hv). rewrite (bind_Ok _ _ _ _ _ Hr).
    destruct (IH b1 Hb1) as (b2 & -> & Hb2 & Hv2). exists b2. split; [done|]. split; [done|]. intros n.
    rewrite Hv2, Hv. destruct (decide (n ∈ names)); [by rewrite decide_True by set_solver|].
    destruct (decide (n = m)) as [->|]; [by rewrite decide_True by set_solver|by rewrite decide_False by set_solver].
Qed.

Lemma append_all_spec name es (b : B) :
  log_ok b -> exists b', append_all name es b = (Ok tt, b') /\ log_ok b'
    /\ forall n, logs b' n = if decide (n = name) then logs b n ++ es else logs b n.
Proof.
  revert b. induction es as [|e es IH]; intros b Hb; cbn [append_all].
  - exists b. split; [done|]. split; [done|]. intros n. destruct (decide (n = name)); [by rewrite app_nil_r|done].
  - destruct (law_AppendReflog b name e Hb) as (b1 & Hr & Hb1 & Hv). rewrite (bind_Ok _ _ _ _ _ Hr).
    destruct (IH b1 Hb1) as (b2 & -> & Hb2 & Hv2). exists b2. split; [done|]. split; [done|]. intros n.
    rewrite Hv2, Hv. destruct (decide (n = name)) as [->|]; [|done]. by rewrite <-app_assoc.
Qed.

Lemma append_logs_spec names r :
  txl_ok r -> NoDup names ->
  exists r', append_logs names r = (Ok tt, r') /\ log_ok (lbase r')
    /\ (forall n, logs (lbase r') n
          = logs (lbase r) n ++ if decide (n ∈ names) then logs (ltemporal r) n else []).
Proof.
  intros Hok Hnd. revert r Hok. induction Hnd as [|m names Hm Hnd IH]; intros r [Hb Ht Ha]; cbn [append_logs].
  - exists r. split; [done|]. split; [done|]. intros n. by rewrite decide_False, app_nil_r by apply not_elem_of_nil.
  - destruct (law_Reflog (ltemporal r) m Ht) as (t & Hl & Ht' & Hlt). rewrite (bind_Ok _ _ _ _ _ (on_ltemporal_eq _ r _ _ Hl)).
    destruct (append_all_spec m (logs (ltemporal r) m) (lbase r) Hb) as (b & Hr & Hb' & Hlb).
    rewrite (bind_Ok _ _ _ _ _ (on_lbase_eq _ (Build_TxReflogs (lbase r) t _ _) _ _ Hr)).
    cbn [ltemporal lappended ldeleted].
    destruct (IH (Build_TxReflogs b t (lappended r) (ldeleted r))) as (r' & -> & Hb2 & Hl2).
    { constructor; cbn; [done..|]. intros n Hn. rewrite Hlt. by apply Ha. }
    exists r'. split; [done|]. split; [done|]. intros n. rewrite Hl2. cbn. rewrite Hlb, Hlt.
    destruct (decide (n = m)) as [->|Hne].
    + rewrite (decide_False (P := m ∈ names)), (decide_True (P := m ∈ m :: names)) by set_solver. by rewrite app_nil_r.
    + destruct (decide (n ∈ names)); [by rewrite decide_True by set_solver|by rewrite decide_False by set_solver].
Qed.

(** Committing reflogs.  A transaction over two lawful stores of reflogs
    is itself one, which reads the base's entries, unless it has deleted
    them, followed by its own; committing it, in whatever order it visits its
    sets of names, leaves exactly these logs in the base. *)
Theorem reflog_commit order (r : TxL) :
  (forall X, order X ≡ₚ elements X) -> txl_ok r ->
  exists r', txl_Commit order r = (Ok tt, r')
    /\ forall n, logs (lbase r') n
        = (if decide (n ∈ ldeleted r) then [] else logs (lbase r) n) ++ logs (ltemporal r) n.
Proof.
  intros Horder [Hb Ht Ha]. unfold txl_Commit. rewrite (bind_Ok _ _ r (ldeleted r) r) by done.
  destruct (delete_logs_spec (order (ldeleted r)) (lbase r) Hb) as (b & Hr & Hb' & Hlb).
  rewrite (bind_Ok _ _ _ _ _ (on_lbase_eq _ r _ _ Hr)).
  set (r1 := Build_TxReflogs b (ltemporal r) (lappended r) (ldeleted r)).
  rewrite (bind_Ok _ _ r1 (lappended r) r1) by done.
  destruct (append_logs_spec (order (lappended r)) r1) as (r' & -> & _ & Hl).
  { by constructor. }
  { rewrite Horder. apply NoDup_elements. }
  exists r'. split; [done|]. intros n. rewrite Hl. cbn. rewrite Hlb.
  assert (forall X, n ∈ order X <-> n ∈ X) as Hin by (intros X; by rewrite Horder, elem_of_elements).
  f_equal.
  - destruct (decide (n ∈ ldeleted r)); [by rewrite decide_True by (by apply Hin)|by rewrite decide_False by (by rewrite Hin)].
  - destruct (decide (n ∈ lappended r)) as [|Hn]; [by rewrite decide_True by (by apply Hin)|].
    rewrite decide_False by (by rewrite Hin). by rewrite Ha.
Qed.
End reflogs.

#[export] Instance memory_reflogs {Entry} : ReflogStorer (option (gmap ReferenceName (list Entry))) Entry :=
  {| Reflog := mem_Reflog; AppendReflog := mem_AppendReflog; DeleteReflog := mem_DeleteReflog |}.

#[export] Instance memory_reflogs_lawful {Entry} :
  LawfulReflogs (option (gmap ReferenceName (list Entry))) Entry.
Proof.
  refine {| log_ok := fun _ => True; logs := fun s n => match s with None => [] | Some m => entries_of m n end |}.
  - intros s n _. by exists s.
  - intros s n e _. eexists. split; [reflexivity|]. split; [done|]. intros m. unfold entries_of.
    destruct (decide (m = n)) as [->|Hne]; [|].
    + rewrite lookup_insert_eq. cbn. by destruct s.
    + rewrite lookup_insert_ne by done. destruct s; [done|]. cbn. by rewrite lookup_empty.
  - intros s n _. eexists. split; [reflexivity|]. split; [done|]. intros m. destruct s as [s|]; [|by destruct (decide _)].
    unfold entries_of. destruct (decide (m = n)) as [->|Hne]; [by rewrite lookup_delete_eq|by rewrite lookup_delete_ne].
Defined.

(** ** On the memory storage *)

#[local] Instance listing_order : RangeOrder ReferenceName Reference := listing_range _ _.

Lemma transaction_refines_witness :
  let main := bs "refs/heads/main" in
  let ops := [OpCheck (NewSymbolicReference main HEAD) (Some (NewHashReference main ZeroHash)); OpRemove main; OpLookup main;
    OpSet (NewHashReference (bs "refs/heads/dev") ZeroHash); OpLookup HEAD] in
  let '(results, r) := run_ops ops (NewReferenceStorage sample_refs (∅ : ReferenceStorage)) in
  let '(direct, b') := run_ops ops sample_refs in
  Forall2 same_result results direct /\ view (base r) = view sample_refs
  /\ exists r', txr_Commit elements r = (Ok tt, r') /\ view (base r') = view b'.
Proof.
  intros main ops.
  exact (transaction_refines elements sample_refs (∅ : ReferenceStorage) ops
    (fun X => reflexivity _) sample_refs_named named_empty eq_refl
    (conj (conj eq_refl (not_elem_of_empty main)) (conj I (conj I (conj I (conj I I)))))).
Defined.

(** A reference that a transaction has removed passes the check of
    compare-and-set, although the transaction reports it as missing. *)
Lemma removed_reference_passes_check :
  let main := bs "refs/heads/main" in
  let old := NewHashReference main ZeroHash in
  let r := (RemoveReference main (NewReferenceStorage sample_refs (∅ : ReferenceStorage))).2 in
  (LookupReference main r).1 = Err ErrReferenceNotFound
  /\ (CheckAndSetReference (Some old) (Some old) r).1 = Ok tt.
Proof. vm_compute. split; reflexivity. Qed.

Lemma reflog_commit_witness :
  let b := Some (<[HEAD := [1]]> ∅) : option (gmap ReferenceName (list Z)) in
  let r := (AppendReflog HEAD 2 (NewReflogStorage b (None : option (gmap ReferenceName (list Z))))).2 in
  exists r', txl_Commit elements r = (Ok tt, r') /\ logs (lbase r') HEAD = [1; 2].
Proof.
  intros b r. destruct (reflog_commit elements r (fun X => reflexivity _)) as (r' & H & Hl).
  - change r with (Build_TxReflogs b (Some (<[HEAD := [2]]> ∅ : gmap ReferenceName (list Z))) ({[ HEAD ]} ∪ ∅) ∅).
    constructor; [exact I|exact I|]. intros n Hn. cbn [lappended] in Hn. cbn [ltemporal logs memory_reflogs_lawful].
    unfold entries_of. rewrite lookup_insert_ne by set_solver. by rewrite lookup_empty.
  - exists r'. split; [exact H|]. rewrite Hl. reflexivity.
Defined.
