(* ===== verification/ObjectStore.v ===== *)
(** * Stores of objects: [storage/memory], [storage/transactional/object.go]

    The laws of an object store, the memory storage as an instance, its
    transactions, and the transactional storage over two stores. *)
From stdpp Require Import base list numbers option strings gmap fin_maps.
From Stdlib Require Import ZArith Lia.
From S2P Require Import Prelude ObjectId Object Storer MemStorage.

Open Scope Z_scope.

(** ** The interface *)

Class ObjectStorer (S : Type) := {
  SetEncodedObject : EncodedObject -> M S ObjectID;
  HasEncodedObject : ObjectID -> M S unit;
  EncodedObjectSize : ObjectID -> M S Z;
  GetEncodedObject : ObjectType -> ObjectID -> M S EncodedObject;
  IterEncodedObjects : ObjectType -> M S (list EncodedObject);
}.

(** The types that can be stored, and those that can be listed. *)
Definition storable (t : ObjectType) : bool :=
  match t with CommitObject | TreeObject | BlobObject | TagObject => true | _ => false end.

Definition of_type (t : ObjectType) (o : EncodedObject) : bool :=
  match t with AnyObject => true | _ => bool_decide (eo_Type o = t) end.

(** Objects are content-addressed: a store is not given two objects of one
    hash, which is what [agrees] asks of an object to be stored. *)
Definition agrees (m : ObjectMap) (o : EncodedObject) : Prop :=
  forall o', m !! eo_Hash o = Some o' -> o' = o.

Class LawfulObjects (S : Type) `{ObjectStorer S} := {
  objs_ok : S -> Prop;
  objs : S -> ObjectMap;
  objs_keys : forall s h o, objs_ok s -> objs s !! h = Some o -> eo_Hash o = h /\ storable (eo_Type o) = true;
  law_SetObject : forall s o, objs_ok s -> agrees (objs s) o -> storable (eo_Type o) = true ->
    exists s', SetEncodedObject o s = (Ok (eo_Hash o), s') /\ objs_ok s' /\ objs s' = <[eo_Hash o := o]> (objs s);
  law_HasObject : forall s h, objs_ok s ->
    exists s', HasEncodedObject h s = (if decide (is_Some (objs s !! h)) then Ok tt else Err ErrObjectNotFound, s')
      /\ objs_ok s' /\ objs s' = objs s;
  law_ObjectSize : forall s h, objs_ok s ->
    exists s', EncodedObjectSize h s
        = (match objs s !! h with Some o => Ok (eo_Size o) | None => Err ErrObjectNotFound end, s')
      /\ objs_ok s' /\ objs s' = objs s;
  law_GetObject : forall s t h, objs_ok s ->
    exists s', GetEncodedObject t h s
        = (match objs s !! h with
           | Some o => if of_type t o then Ok o else Err ErrObjectNotFound
           | None => Err ErrObjectNotFound
           end, s')
      /\ objs_ok s' /\ objs s' = objs s;
  law_IterObjects : forall s t, objs_ok s -> storable t || bool_decide (t = AnyObject) = true ->
    exists l s', IterEncodedObjects t s = (Ok l, s') /\ objs_ok s' /\ objs s' = objs s
      /\ forall o, o ∈ l <-> objs s !! eo_Hash o = Some o /\ of_type t o = true;
}.

(** ** The memory storage *)

Section memory.
Context `{!RangeOrder ObjectID EncodedObject}.

#[export] Instance memory_objects : ObjectStorer ObjectStorage := {
  SetEncodedObject := mem_SetEncodedObject;
  HasEncodedObject := mem_HasEncodedObject;
  EncodedObjectSize := mem_EncodedObjectSize;
  GetEncodedObject := mem_EncodedObject;
  IterEncodedObjects := mem_IterEncodedObjects;
}.

(** The map of one type holds the objects of that type. *)
Definition splits (all : ObjectMap) (t : ObjectType) (m : ObjectMap) : Prop :=
  forall h o, m !! h = Some o <-> all !! h = Some o /\ eo_Type o = t.

Record mem_objects_ok (s : ObjectStorage) : Prop := {
  mo_keys : forall h o, Objects s !! h = Some o -> eo_Hash o = h /\ storable (eo_Type o) = true;
  mo_commits : splits (Objects s) CommitObject (Commits s);
  mo_trees : splits (Objects s) TreeObject (Trees s);
  mo_blobs : splits (Objects s) BlobObject (Blobs s);
  mo_tags : splits (Objects s) TagObject (Tags s);
}.

Lemma splits_insert all t m o :
  splits all t m -> agrees all o -> eo_Type o = t -> splits (<[eo_Hash o := o]> all) t (<[eo_Hash o := o]> m).
Proof.
  intros Hs Ha Ht h o'. rewrite !lookup_insert_Some, (Hs h o'). split.
  - intros [[<- <-]|[Hne [Ho Hto]]]; [by split; [left|]|]. split; [by right|done].
  - intros [[[<- <-]|[Hne Ho]] Hto]; [by left|by right].
Qed.

Lemma splits_other all t m o :
  splits all t m -> agrees all o -> eo_Type o <> t -> splits (<[eo_Hash o := o]> all) t m.
Proof.
  intros Hs Ha Ht h o'. rewrite lookup_insert_Some, (Hs h o'). split.
  - intros [Ho Hto]. split; [|done]. right. split; [|done]. intros <-. apply Ht. by rewrite <-(Ha o' Ho).
  - intros [[[<- <-]|[Hne Ho]] Hto]; done.
Qed.

Lemma splits_empty t : splits ∅ t ∅.
Proof. intros h o. rewrite lookup_empty. split; [done|by intros []]. Qed.

Lemma empty_objects_ok : mem_objects_ok empty_objects.
Proof. split; try apply splits_empty. cbn. intros h o. by rewrite lookup_empty. Qed.

Lemma mem_Set_spec s o :
  mem_objects_ok s -> agrees (Objects s) o -> storable (eo_Type o) = true ->
  exists s', mem_SetEncodedObject o s = (Ok (eo_Hash o), s') /\ mem_objects_ok s'
    /\ Objects s' = <[eo_Hash o := o]> (Objects s).
Proof.
  intros [Hk Hc Ht Hb Hg] Ha Hst.
  assert (forall h o', <[eo_Hash o := o]> (Objects s) !! h = Some o' -> eo_Hash o' = h /\ storable (eo_Type o') = true) as Hk'.
  { intros h o'. rewrite lookup_insert_Some. intros [[<- <-]|[_ H']]; [done|by apply Hk]. }
  unfold mem_SetEncodedObject. destruct (eo_Type o) eqn:Hty; try done; eexists; split; try reflexivity;
    (split; [|done]); constructor; cbn; try done;
    first [by apply splits_insert | by apply splits_other; [..|rewrite Hty]].
Qed.

Lemma flatten_spec m o : o ∈ flattenObjectMap m <-> exists h, m !! h = Some o.
Proof.
  unfold flattenObjectMap. rewrite (list_elem_of_fmap snd). setoid_rewrite range_perm. split.
  - intros ([h o'] & -> & Hin%elem_of_map_to_list). eauto.
  - intros [h Hh]. exists (h, o). split; [done|]. by apply elem_of_map_to_list.
Qed.

Lemma mem_iter_spec s t o :
  mem_objects_ok s -> storable t || bool_decide (t = AnyObject) = true ->
  exists l, mem_IterEncodedObjects t s = (Ok l, s)
    /\ (o ∈ l <-> Objects s !! eo_Hash o = Some o /\ of_type t o = true).
Proof.
  intros [Hk Hc Ht Hb Hg] Hst.
  assert (forall t m, splits (Objects s) t m ->
    (o ∈ flattenObjectMap m <-> Objects s !! eo_Hash o = Some o /\ bool_decide (eo_Type o = t) = true)) as Hin.
  { intros t0 m Hs. rewrite flatten_spec, bool_decide_eq_true. split.
    - intros [h Hh]. apply Hs in Hh as [Ho Hto]. by destruct (Hk h o Ho) as [-> _].
    - intros [Ho Hto]. exists (eo_Hash o). by apply Hs. }
  unfold mem_IterEncodedObjects. destruct t; try done; eexists; split; try reflexivity; try (by apply Hin).
  rewrite flatten_spec. cbn. split.
  - intros [h Hh]. by destruct (Hk h o Hh) as [-> _].
  - intros [Ho _]. eauto.
Qed.

#[export] Instance memory_objects_lawful : LawfulObjects ObjectStorage.
Proof.
  refine {| objs_ok := mem_objects_ok; objs := Objects |}.
  - intros s h o Hok. apply Hok.
  - intros s o Hok Ha Hst. by apply mem_Set_spec.
  - intros s h Hok. exists s. cbn. unfold mem_HasEncodedObject. destruct (Objects s !! h) as [o|] eqn:Ho.
    + by rewrite decide_True.
    + by rewrite decide_False by (by intros []).
  - intros s h Hok. exists s. cbn. unfold mem_EncodedObjectSize. by destruct (Objects s !! h).
  - intros s t h Hok. exists s. cbn. unfold mem_EncodedObject, find_object. destruct (Objects s !! h) as [o|] eqn:Ho; [|done].
    split; [|done]. f_equal. unfold of_type. destruct (decide (t = AnyObject)) as [->|Hne]; [done|].
    rewrite (bool_decide_eq_false_2 (AnyObject = t)) by done. cbn [negb andb].
    destruct t; try done; by destruct (bool_decide (eo_Type o = _)).
  - intros s t Hok Hst. eexists _, s. split; [reflexivity|]. split; [done|]. split; [done|]. intros o.
    destruct (mem_iter_spec s t o Hok Hst) as (l & Hl & Hin). injection Hl as <-. exact Hin.
Defined.

(** *** Transactions *)

Record tx_objects_ok (tx : TxObjectStorage) : Prop := {
  to_storage : mem_objects_ok (tx_Storage tx);
  to_keys : forall h o, tx_Objects tx !! h = Some o -> eo_Hash o = h /\ storable (eo_Type o) = true;
  to_agree : forall h o, tx_Objects tx !! h = Some o -> agrees (Objects (tx_Storage tx)) o;
}.

Lemma tx_Commit_loop_spec l tx :
  NoDup l.*1 -> (forall h o, (h, o) ∈ l <-> tx_Objects tx !! h = Some o) -> tx_objects_ok tx ->
  exists s', tx_Commit_loop l tx = (Ok tt, {| tx_Storage := s'; tx_Objects := ∅ |}) /\ mem_objects_ok s'
    /\ Objects s' = tx_Objects tx ∪ Objects (tx_Storage tx).
Proof.
  revert tx. induction l as [|[h o] l IH]; intros tx Hnd Hl [Hs Hk Ha]; cbn [tx_Commit_loop].
  - assert (tx_Objects tx = ∅) as He.
    { apply map_empty. intros h. destruct (tx_Objects tx !! h) as [o|] eqn:Ho; [|done].
      apply Hl in Ho. by apply not_elem_of_nil in Ho. }
    exists (tx_Storage tx). destruct tx as [s m]. cbn in *. subst m. by rewrite map_empty_union.
  - rewrite fmap_cons in Hnd. apply NoDup_cons in Hnd as [Hh Hnd].
    assert (tx_Objects tx !! h = Some o) as Ho by (apply Hl; by left). destruct (Hk h o Ho) as [<- Hst].
    destruct (mem_Set_spec _ o Hs (Ha _ o Ho) Hst) as (s1 & -> & Hs1 & Hv1).
    assert (tx_objects_ok {| tx_Storage := s1; tx_Objects := delete (eo_Hash o) (tx_Objects tx) |}) as Hok'.
    { constructor; cbn; [done|intros h' o'; rewrite lookup_delete_Some; intros [_ ?]; by apply Hk|].
      intros h' o'. rewrite lookup_delete_Some. intros [Hne Ho']. destruct (Hk h' o' Ho') as [Hh' _].
      intros o''. rewrite Hv1, lookup_insert_ne by (by rewrite Hh'). by apply (Ha h'). }
    destruct (fun H => IH _ Hnd H Hok') as (s' & -> & Hs' & Hv').
    + intros h' o'. cbn. rewrite lookup_delete_Some, <-Hl, elem_of_cons. split.
      * intros Hin. split; [|by right]. intros <-. apply Hh. apply list_elem_of_fmap. by exists (eo_Hash o, o').
      * by intros [Hne [[= -> ->]|Hin]].
    + exists s'. split; [done|]. split; [done|]. rewrite Hv'. cbn. rewrite Hv1.
      rewrite <-(insert_delete_id (tx_Objects tx) (eo_Hash o) o) at 2 by done.
      rewrite <-insert_union_r by apply lookup_delete_eq. by rewrite insert_union_l.
Qed.

(** The object transactions of the memory storage.  When every object set
    is of a type that can be stored and agrees with the objects of the same
    hash, committing succeeds, empties the transaction and adds its objects to
    the storage, whose maps by type stay in step with the map of all objects;
    rolling back leaves the storage alone. *)
Theorem tx_Commit_correct tx :
  tx_objects_ok tx ->
  (exists s', tx_Commit tx = (Ok tt, Begin s') /\ mem_objects_ok s'
    /\ Objects s' = tx_Objects tx ∪ Objects (tx_Storage tx))
  /\ tx_Rollback tx = (Ok tt, Begin (tx_Storage tx)).
Proof.
  intros Hok. split; [|done]. unfold tx_Commit. apply tx_Commit_loop_spec; [..|done].
  - rewrite range_perm. apply NoDup_fst_map_to_list.
  - intros h o. by rewrite range_perm, elem_of_map_to_list.
Qed.
End memory.

(** ** The transactional storage *)

Record TxObjects (B T : Type) := { obase : B; otemporal : T }.
Arguments obase {B T} _.
Arguments otemporal {B T} _.
Arguments Build_TxObjects {B T} _ _.

Section transactional.
Context {B T : Type} `{LawfulObjects B} `{LawfulObjects T}.

Definition NewObjectStorage (b : B) (t : T) : TxObjects B T := Build_TxObjects b t.

Definition on_obase {A} (m : M B A) : M (TxObjects B T) A :=
  zoom obase (fun b r => Build_TxObjects b (otemporal r)) m.
Definition on_otemporal {A} (m : M T A) : M (TxObjects B T) A :=
  zoom otemporal (fun t r => Build_TxObjects (obase r) t) m.

(** The base first, and the temporal storage for what it does not find. *)
Definition either {A} (m : M B A) (m' : M T A) : M (TxObjects B T) A :=
  r ← try (on_obase m);
  match r with
  | Err ErrObjectNotFound => on_otemporal m'
  | r => lift r
  end.

Definition txo_SetEncodedObject (o : EncodedObject) : M (TxObjects B T) ObjectID := on_otemporal (SetEncodedObject o).
Definition txo_HasEncodedObject (h : ObjectID) : M (TxObjects B T) unit :=
  either (HasEncodedObject h) (HasEncodedObject h).
Definition txo_EncodedObjectSize (h : ObjectID) : M (TxObjects B T) Z :=
  either (EncodedObjectSize h) (EncodedObjectSize h).
Definition txo_EncodedObject (t : ObjectType) (h : ObjectID) : M (TxObjects B T) EncodedObject :=
  either (GetEncodedObject t h) (GetEncodedObject t h).

(** The objects of the base and then the temporal ones, which may repeat
    some. *)
Definition txo_IterEncodedObjects (t : ObjectType) : M (TxObjects B T) (list EncodedObject) :=
  baseIter ← on_obase (IterEncodedObjects t);
  temporalIter ← on_otemporal (IterEncodedObjects t);
  mret (baseIter ++ temporalIter).

#[export] Instance transactional_objects : ObjectStorer (TxObjects B T) := {
  SetEncodedObject := txo_SetEncodedObject;
  HasEncodedObject := txo_HasEncodedObject;
  EncodedObjectSize := txo_EncodedObjectSize;
  GetEncodedObject := txo_EncodedObject;
  IterEncodedObjects := txo_IterEncodedObjects;
}.

Fixpoint set_objects (l : list EncodedObject) : M B unit :=
  match l with
  | [] => mret tt
  | o :: l' => SetEncodedObject o;; set_objects l'
  end.

Definition txo_Commit : M (TxObjects B T) unit :=
  iter ← on_otemporal (IterEncodedObjects AnyObject);
  on_obase (set_objects iter).

(** *** The laws *)

Definition txo_objs (r : TxObjects B T) : ObjectMap := objs (obase r) ∪ objs (otemporal r).

Record txo_ok (r : TxObjects B T) : Prop := {
  txo_base : objs_ok (obase r);
  txo_temporal : objs_ok (otemporal r);
  txo_agree : forall h x y, objs (obase r) !! h = Some x -> objs (otemporal r) !! h = Some y -> x = y;
}.

Lemma on_obase_eq {A} (m : M B A) r out b :
  m (obase r) = (out, b) -> on_obase m r = (out, Build_TxObjects b (otemporal r)).
Proof. unfold on_obase, zoom. by intros ->. Qed.

Lemma on_otemporal_eq {A} (m : M T A) r out t :
  m (otemporal r) = (out, t) -> on_otemporal m r = (out, Build_TxObjects (obase r) t).
Proof. unfold on_otemporal, zoom. by intros ->. Qed.

(** A lookup in both, by what the base answers. *)
Lemma either_spec {A} (m : M B A) (m' : M T A) r o1 o2 b t :
  txo_ok r ->
  m (obase r) = (o1, b) -> objs_ok b -> objs b = objs (obase r) ->
  m' (otemporal r) = (o2, t) -> objs_ok t -> objs t = objs (otemporal r) ->
  exists r', either m m' r = (match o1 with Err ErrObjectNotFound => o2 | _ => o1 end, r')
    /\ txo_ok r' /\ txo_objs r' = txo_objs r.
Proof.
  intros [Hb Ht Ha] Hm Hb' Hvb Hm' Ht' Hvt. unfold either.
  assert (forall f, (try (on_obase m) ≫= f) r = f o1 (Build_TxObjects b (otemporal r))) as ->
    by (intros f; unfold mbind, M_bind, try; by rewrite (on_obase_eq _ _ _ _ Hm)).
  assert (forall b' t', objs_ok b' -> objs_ok t' -> objs b' = objs (obase r) -> objs t' = objs (otemporal r) ->
    txo_ok (Build_TxObjects b' t') /\ txo_objs (Build_TxObjects b' t') = txo_objs r) as Hok.
  { intros b' t' Hb2 Ht2 Hvb2 Hvt2. split; [constructor; cbn; [done..|by rewrite Hvb2, Hvt2]|].
    unfold txo_objs. cbn. by rewrite Hvb2, Hvt2. }
  destruct o1 as [a|[]| |]; try (eexists; split; [reflexivity|]; by apply Hok).
  rewrite (on_otemporal_eq _ (Build_TxObjects b (otemporal r)) _ _ Hm'). eexists. split; [reflexivity|]. by apply Hok.
Qed.

Lemma txo_Set_spec r o :
  txo_ok r -> agrees (txo_objs r) o -> storable (eo_Type o) = true ->
  exists r', txo_SetEncodedObject o r = (Ok (eo_Hash o), r') /\ txo_ok r' /\ txo_objs r' = <[eo_Hash o := o]> (txo_objs r).
Proof.
  intros [Hb Ht Ha] Hag Hst.
  assert (agrees (objs (otemporal r)) o) as Hagt.
  { intros o' Ho'. apply Hag. unfold txo_objs. destruct (objs (obase r) !! eo_Hash o) as [x|] eqn:Hx.
    - rewrite (lookup_union_Some_l _ _ _ x) by done. f_equal. by apply (Ha (eo_Hash o)).
    - by rewrite lookup_union_r. }
  assert (forall x, objs (obase r) !! eo_Hash o = Some x -> x = o) as Hbo.
  { intros x Hx. apply Hag. unfold txo_objs. by apply lookup_union_Some_l. }
  destruct (law_SetObject (otemporal r) o Ht Hagt Hst) as (t & Hs & Ht' & Hv).
  unfold txo_SetEncodedObject. rewrite (on_otemporal_eq _ _ _ _ Hs). eexists. split; [reflexivity|]. split.
  - constructor; cbn; [done..|]. rewrite Hv. intros h x y Hx. rewrite lookup_insert_Some. intros [[<- <-]|[_ Hy]].
    + by apply Hbo.
    + by apply (Ha h).
  - unfold txo_objs. cbn. rewrite Hv. apply map_eq. intros h. destruct (decide (h = eo_Hash o)) as [->|Hne].
    + rewrite lookup_insert_eq, lookup_union, lookup_insert_eq. destruct (objs (obase r) !! eo_Hash o) as [x|] eqn:Hx; [|done].
      by rewrite (Hbo x eq_refl).
    + by rewrite lookup_insert_ne, !lookup_union, lookup_insert_ne.
Qed.

#[export] Instance transactional_objects_lawful : LawfulObjects (TxObjects B T).
Proof.
  refine {| objs_ok := txo_ok; objs := txo_objs |}.
  - intros r h o [Hb Ht Ha] [Ho|[_ Ho]]%lookup_union_Some_raw; [exact (objs_keys _ h o Hb Ho)|exact (objs_keys _ h o Ht Ho)].
  - intros r o. apply txo_Set_spec.
  - intros r h Hok. pose proof Hok as [Hb Ht Ha].
    destruct (law_HasObject (obase r) h Hb) as (b & Hm & Hb' & Hvb), (law_HasObject (otemporal r) h Ht) as (t & Hm' & Ht' & Hvt).
    destruct (either_spec _ _ r _ _ b t Hok Hm Hb' Hvb Hm' Ht' Hvt) as (r' & Hr & Hok' & Hv). exists r'. split; [|done].
    cbn. unfold txo_HasEncodedObject. rewrite Hr. f_equal. unfold txo_objs. rewrite lookup_union.
    destruct (objs (obase r) !! h), (objs (otemporal r) !! h); cbn;
      repeat (first [rewrite decide_True by done | rewrite decide_False by (by intros [])]); done.
  - intros r h Hok. pose proof Hok as [Hb Ht Ha].
    destruct (law_ObjectSize (obase r) h Hb) as (b & Hm & Hb' & Hvb), (law_ObjectSize (otemporal r) h Ht) as (t & Hm' & Ht' & Hvt).
    destruct (either_spec _ _ r _ _ b t Hok Hm Hb' Hvb Hm' Ht' Hvt) as (r' & Hr & Hok' & Hv). exists r'. split; [|done].
    cbn. unfold txo_EncodedObjectSize. rewrite Hr. f_equal. unfold txo_objs. rewrite lookup_union.
    by destruct (objs (obase r) !! h), (objs (otemporal r) !! h).
  - intros r ty h Hok. pose proof Hok as [Hb Ht Ha].
    destruct (law_GetObject (obase r) ty h Hb) as (b & Hm & Hb' & Hvb), (law_GetObject (otemporal r) ty h Ht) as (t & Hm' & Ht' & Hvt).
    destruct (either_spec _ _ r _ _ b t Hok Hm Hb' Hvb Hm' Ht' Hvt) as (r' & Hr & Hok' & Hv). exists r'. split; [|done].
    cbn. unfold txo_EncodedObject. rewrite Hr. f_equal. unfold txo_objs. rewrite lookup_union.
    destruct (objs (obase r) !! h) as [x|] eqn:Hx, (objs (otemporal r) !! h) as [y|] eqn:Hy; cbn; try done.
    + rewrite <-(Ha h x y Hx Hy). by destruct (of_type ty x).
    + by destruct (of_type ty x).
  - intros r ty Hok Hst. pose proof Hok as [Hb Ht Ha].
    destruct (law_IterObjects (obase r) ty Hb Hst) as (l & b & Hm & Hb' & Hvb & Hl).
    destruct (law_IterObjects (otemporal r) ty Ht Hst) as (l' & t & Hm' & Ht' & Hvt & Hl').
    cbn. unfold txo_IterEncodedObjects. rewrite (bind_Ok _ _ _ _ _ (on_obase_eq _ _ _ _ Hm)).
    rewrite (bind_Ok _ _ _ _ _ (on_otemporal_eq _ (Build_TxObjects b _) _ _ Hm')). eexists _, _. split; [reflexivity|].
    split; [constructor; cbn; [done..|by rewrite Hvb, Hvt]|]. split; [unfold txo_objs; cbn; by rewrite Hvb, Hvt|].
    intros o. rewrite elem_of_app, Hl, Hl'. unfold txo_objs. rewrite lookup_union_Some_raw. split.
    + intros [[Ho Hty]|[Ho Hty]]; split; try done; [by left|].
      destruct (objs (obase r) !! eo_Hash o) as [x|] eqn:Hx; [left|by right]. f_equal. by apply (Ha (eo_Hash o)).
    + intros [[Ho|[_ Ho]] Hty]; [by left|by right].
Defined.

Lemma set_objects_spec l (b : B) :
  objs_ok b -> (forall o, o ∈ l -> storable (eo_Type o) = true /\ agrees (objs b) o) ->
  (forall o o', o ∈ l -> o' ∈ l -> eo_Hash o = eo_Hash o' -> o = o') ->
  exists b', set_objects l b = (Ok tt, b') /\ objs_ok b'
    /\ forall h o, objs b' !! h = Some o <-> objs b !! h = Some o \/ (o ∈ l /\ eo_Hash o = h).
Proof.
  revert b. induction l as [|x l IH]; intros b Hb Hl Hinj; cbn [set_objects].
  - exists b. split; [done|]. split; [done|]. intros h o. split; [by left|].
    intros [|[Hx _]]; [done|by apply not_elem_of_nil in Hx].
  - destruct (Hl x ltac:(by left)) as [Hst Hag]. destruct (law_SetObject b x Hb Hag Hst) as (b1 & Hs & Hb1 & Hv).
    rewrite (bind_Ok _ _ _ _ _ Hs). destruct (IH b1 Hb1) as (b2 & -> & Hb2 & Hv2).
    + intros o Ho. destruct (Hl o ltac:(by right)) as [Hsto Hago]. split; [done|]. intros o'. rewrite Hv, lookup_insert_Some.
      intros [[Hh <-]|[_ Ho']]; [|by apply Hago]. apply Hinj; [by left|by right|done].
    + intros o o' Ho Ho'. apply Hinj; by right.
    + exists b2. split; [done|]. split; [done|]. intros h o. rewrite Hv2, Hv, lookup_insert_Some, elem_of_cons. split.
      * intros [[[<- <-]|[_ Ho]]|[Ho Hh]]; [right; split; [by left|done]|by left|right; split; [by right|done]].
      * intros [Ho|[[->|Ho] Hh]]; [|left; by left|by right].
        destruct (decide (eo_Hash x = h)) as [<-|Hne]; [left; left; split; [done|by symmetry; apply Hag]|left; by right].
Qed.

(** C40: an object transaction over any two lawful stores that do not hold two
    objects under one hash.  The transactional storage is a lawful store of
    the objects of both; committing succeeds, and makes the base the store of
    all of them. *)
Theorem object_commit (r : TxObjects B T) :
  txo_ok r ->
  exists r', txo_Commit r = (Ok tt, r') /\ objs_ok (obase r') /\ objs (obase r') = txo_objs r
    /\ txo_objs r' = txo_objs r.
Proof.
  intros [Hb Ht Ha]. destruct (law_IterObjects (otemporal r) AnyObject Ht eq_refl) as (l & t & Hm & Ht' & Hvt & Hl).
  unfold txo_Commit. rewrite (bind_Ok _ _ _ _ _ (on_otemporal_eq _ _ _ _ Hm)).
  assert (forall o, o ∈ l <-> objs (otemporal r) !! eo_Hash o = Some o) as Hin by (intros o; rewrite Hl; naive_solver).
  destruct (set_objects_spec l (obase r) Hb) as (b & Hs & Hb' & Hv).
  { intros o Ho%Hin. split; [exact (proj2 (objs_keys _ _ o Ht Ho))|]. intros o' Ho'. by apply (Ha (eo_Hash o)). }
  { intros o o' Ho%Hin Ho'%Hin Hh. rewrite Hh in Ho. congruence. }
  rewrite (on_obase_eq _ (Build_TxObjects (obase r) t) _ _ Hs). eexists. split; [reflexivity|]. split; [done|].
  assert (objs b = txo_objs r) as Hbv.
  { apply map_eq. intros h. apply option_eq. intros o. rewrite Hv. unfold txo_objs. rewrite lookup_union_Some_raw. split.
    - intros [Ho|[Ho%Hin <-]]; [by left|]. destruct (objs (obase r) !! eo_Hash o) as [x|] eqn:Hx; [left|by right].
      f_equal. by apply (Ha (eo_Hash o)).
    - intros [Ho|[_ Ho]]; [by left|right]. destruct (objs_keys _ h o Ht Ho) as [<- _]. split; [by apply Hin|done]. }
  split; [done|]. unfold txo_objs at 1. cbn. rewrite Hbv, Hvt. unfold txo_objs. apply map_eq. intros h.
  rewrite !lookup_union. by destruct (objs (obase r) !! h), (objs (otemporal r) !! h).
Qed.
End transactional.

(** ** On the memory storage *)

#[local] Instance listing_order : RangeOrder ObjectID EncodedObject := listing_range _ _.

Definition sample_blob : EncodedObject :=
  {| eo_Type := BlobObject; eo_Hash := oid_of UnsetObjectFormat (replicate 20 7); eo_Data := bs "hello" |}.

Lemma tx_Commit_correct_witness :
  let tx := (tx_SetEncodedObject sample_blob (Begin empty_objects)).2 in
  exists s', tx_Commit tx = (Ok tt, Begin s') /\ mem_objects_ok s'.
Proof.
  intros tx. destruct (tx_Commit_correct tx) as [(s' & H & Hs' & _) _]; [|exists s'; exact (conj H Hs')].
  constructor; [apply empty_objects_ok|..].
  - cbn. intros h o. rewrite lookup_insert_Some, lookup_empty. intros [[<- <-]|[_ [=]]]. done.
  - cbn. intros h o _ o'. by rewrite lookup_empty.
Defined.

Lemma object_commit_witness :
  let t := (mem_SetEncodedObject sample_blob empty_objects).2 in
  exists r', txo_Commit (NewObjectStorage empty_objects t) = (Ok tt, r')
    /\ objs (obase r') = txo_objs (NewObjectStorage empty_objects t).
Proof.
  intros t. destruct (object_commit (NewObjectStorage empty_objects t)) as (r' & H & _ & Hv & _); [|exists r'; exact (conj H Hv)].
  constructor.
  - apply empty_objects_ok.
  - destruct (mem_Set_spec empty_objects sample_blob empty_objects_ok) as (s' & Hs & Hok & _); [by intros o'; cbn [Objects empty_objects]; rewrite lookup_empty|done|].
    unfold t. rewrite Hs. exact Hok.
  - intros h x y. cbn. by rewrite lookup_empty.
Defined.
