(* ===== verification/Lru.v ===== *)
(** * Least-recently-used caches: [plumbing/cache]

    [ObjectLRU] and [BufferLRU] are the same algorithm over different values:
    a doubly linked list of elements in order of use, a map from keys to list
    elements, and the total size.  The list is modelled with the identities of
    its elements, which the map refers to.  The mutex serialises whole
    operations and is left out. *)
From stdpp Require Import base list numbers option strings gmap.
From Stdlib Require Import ZArith Lia.
From S2P Require Import Prelude ObjectId Object MemStorage.

Open Scope Z_scope.

(** What a cache needs of its values; [back_of_empty] is what evicting from
    an empty list does. *)
Class Cached (K V : Type) := {
  key_of : V -> K;
  size_of : V -> Z;
  back_of_empty : outcome unit Z;
}.

Record buffer := { Key : Z; Slice : bytes }.

(** [ObjectLRU] resets the size when its list is empty, [BufferLRU]
    dereferences a nil element. *)
#[export] Instance cached_object : Cached ObjectID EncodedObject :=
  {| key_of := eo_Hash; size_of := eo_Size; back_of_empty := Ok 0 |}.
#[export] Instance cached_buffer : Cached Z buffer :=
  {| key_of := Key; size_of := fun b => len (Slice b); back_of_empty := Panic |}.

Definition MiByte : Z := 2 ^ 20.
Definition DefaultMaxSize : Z := 96 * MiByte.

Section lru.
Context {K V : Type} `{Countable K} `{Cached K V}.

(** The list from front to back, and the next element's identity; the map is
    nil until the first [Put]. *)
Record LRU := {
  MaxSize : Z;
  actualSize : Z;
  ll : list (nat * V);
  cache : option (gmap K nat);
  fresh : nat;
}.

Definition NewLRU (maxSize : Z) : LRU :=
  {| MaxSize := maxSize; actualSize := 0; ll := []; cache := None; fresh := 0 |}.

Definition NewLRUDefault : LRU := NewLRU DefaultMaxSize.

(** The value of an element. *)
Definition Value (l : list (nat * V)) (e : nat) : outcome unit V :=
  match List.find (fun p => bool_decide (p.1 = e)) l with Some p => Ok p.2 | None => Panic end.

(** [MoveToFront] and then [e.Value = v]. *)
Definition remove (e : nat) (l : list (nat * V)) : list (nat * V) := filter (fun p => p.1 <> e) l.

(** The loop that evicts: each turn removes an element, so the length of the
    list bounds it. *)
Fixpoint evict (fuel : nat) (c : LRU) (m : gmap K nat) : outcome unit LRU :=
  match fuel with
  | O => NoFuel
  | S f =>
      if actualSize c >? MaxSize c then
        match last (ll c) with
        | None =>
            size ← back_of_empty;
            mret {| MaxSize := MaxSize c; actualSize := size; ll := ll c; cache := Some m; fresh := fresh c |}
        | Some (e, v) =>
            let m := delete (key_of v) m in
            evict f {| MaxSize := MaxSize c; actualSize := i64 (actualSize c - size_of v);
                       ll := remove e (ll c); cache := Some m; fresh := fresh c |} m
        end
      else mret {| MaxSize := MaxSize c; actualSize := actualSize c; ll := ll c; cache := Some m; fresh := fresh c |}
  end.

Definition Put (v : V) (c : LRU) : outcome unit LRU :=
  let '(size, l, m) := match cache c with None => (0, [], ∅) | Some m => (actualSize c, ll c, m) end in
  let objSize := size_of v in
  let key := key_of v in
  match m !! key with
  | Some ee =>
      oldObj ← Value l ee;
      let objSize := i64 (objSize - size_of oldObj) in
      let l := (ee, v) :: remove ee l in
      evict (S (length l))
        {| MaxSize := MaxSize c; actualSize := i64 (size + objSize); ll := l; cache := Some m; fresh := fresh c |} m
  | None =>
      if objSize >? MaxSize c
      then mret {| MaxSize := MaxSize c; actualSize := size; ll := l; cache := Some m; fresh := fresh c |}
      else
        let ee := fresh c in
        let l := (ee, v) :: l in
        let m := <[key := ee]> m in
        evict (S (length l))
          {| MaxSize := MaxSize c; actualSize := i64 (size + objSize); ll := l; cache := Some m; fresh := S ee |} m
  end.

(** The value, if the key is there, and the cache after the call. *)
Definition Get (k : K) (c : LRU) : outcome unit (option V * LRU) :=
  match cache c with
  | None => mret (None, c)
  | Some m =>
      match m !! k with
      | None => mret (None, c)
      | Some ee =>
          v ← Value (ll c) ee;
          mret (Some v, {| MaxSize := MaxSize c; actualSize := actualSize c; ll := (ee, v) :: remove ee (ll c);
                           cache := cache c; fresh := fresh c |})
      end
  end.

Definition Clear (c : LRU) : LRU :=
  {| MaxSize := MaxSize c; actualSize := 0; ll := []; cache := None; fresh := fresh c |}.

(** ** The specification: a list of values, the most recently used first *)

Definition total (l : list V) : Z := foldr (fun v n => size_of v + n) 0 l.

(** Drop from the back until the rest fits. *)
Fixpoint trim (fuel : nat) (max : Z) (l : list V) : list V :=
  match fuel with
  | O => l
  | S f => if total l <=? max then l else trim f max (removelast l)
  end.

Definition without (k : K) (l : list V) : list V := filter (fun v => key_of v <> k) l.

Definition spec_find (k : K) (l : list V) : option V := List.find (fun v => bool_decide (key_of v = k)) l.

Definition spec_put (max : Z) (v : V) (l : list V) : list V :=
  match spec_find (key_of v) l with
  | None => if size_of v >? max then l else trim (S (length (v :: l))) max (v :: l)
  | Some _ => trim (S (length l)) max (v :: without (key_of v) l)
  end.

Definition spec_get (k : K) (l : list V) : option V * list V :=
  match spec_find k l with
  | Some v => (Some v, v :: without k l)
  | None => (None, l)
  end.

(** ** The cache represents its list *)

Definition keyed (l : list (nat * V)) (k : K) (e : nat) : Prop := exists v, (e, v) ∈ l /\ key_of v = k.

Record represents (c : LRU) (l : list V) : Prop := {
  rep_values : (ll c).*2 = l;
  rep_ids : NoDup (ll c).*1;
  rep_fresh : Forall (fun p => (p.1 < fresh c)%nat) (ll c);
  rep_keys : NoDup (key_of <$> l);
  rep_map : match cache c with
            | None => l = []
            | Some m => forall k e, m !! k = Some e <-> keyed (ll c) k e
            end;
  rep_size : actualSize c = total l;
  rep_max : total l <= MaxSize c \/ l = [];
}.

(** Sizes that cannot overflow. *)
Definition sizes_ok (l : list V) : Prop := Forall (fun v => 0 <= size_of v < 2 ^ 61) l.

Lemma total_app l k : total (l ++ k) = total l + total k.
Proof. induction l as [|v l IH]; cbn; [done|]. fold (total (l ++ k)) (total l). lia. Qed.

Lemma total_nonneg l : sizes_ok l -> 0 <= total l.
Proof. induction 1 as [|v l Hv Hl IH]; cbn; [done|]. fold (total l). lia. Qed.

Lemma remove_last e v (l : list (nat * V)) : NoDup (l ++ [(e, v)]).*1 -> remove e (l ++ [(e, v)]) = l.
Proof.
  rewrite fmap_app, NoDup_app. intros (_ & Hd & _). unfold remove. rewrite filter_app, filter_cons_False by (cbn; tauto).
  rewrite filter_nil, app_nil_r. apply filter_all. apply Forall_forall. intros [e' v'] Hp He. cbn in He. subst e'.
  apply (Hd e); [apply list_elem_of_fmap; by exists (e, v')|by left].
Qed.

Lemma keyed_last l e v k e' :
  NoDup (l ++ [(e, v)]).*1 -> NoDup (key_of <$> (l ++ [(e, v)]).*2) ->
  (k <> key_of v /\ keyed (l ++ [(e, v)]) k e') <-> keyed l k e'.
Proof.
  intros Hid Hkey. rewrite !fmap_app in Hkey. apply NoDup_app in Hkey as (_ & Hd & _). split.
  - intros [Hk (v' & Hin & <-)]. exists v'. split; [|done]. apply elem_of_app in Hin as [|Hin%list_elem_of_singleton]; [done|].
    by injection Hin as -> ->.
  - intros (v' & Hin & <-). split; [|exists v'; split; [by apply elem_of_app; left|done]]. intros Hk.
    apply (Hd (key_of v')); [|rewrite Hk; by left]. apply list_elem_of_fmap. exists v'. split; [done|].
    apply list_elem_of_fmap. by exists (e', v').
Qed.

(** The state before the loop that evicts. *)
Record loading (c : LRU) (m : gmap K nat) (l : list V) : Prop := {
  lo_values : (ll c).*2 = l;
  lo_ids : NoDup (ll c).*1;
  lo_fresh : Forall (fun p => (p.1 < fresh c)%nat) (ll c);
  lo_keys : NoDup (key_of <$> l);
  lo_map : forall k e, m !! k = Some e <-> keyed (ll c) k e;
  lo_size : actualSize c = total l;
}.

Lemma evict_spec fuel c m l :
  loading c m l -> sizes_ok l -> 0 <= MaxSize c -> total l < 2 ^ 62 -> (length l < fuel)%nat ->
  ensures (evict fuel c m) (fun c' => represents c' (trim fuel (MaxSize c) l) /\ MaxSize c' = MaxSize c).
Proof.
  revert c m l. induction fuel as [|f IH]; intros c m l Hlo Hsz Hmax Htot Hf; [lia|]. cbn [evict trim].
  pose proof Hlo as [Hv Hid Hfr Hk Hm Hs]. rewrite Hs, Z.gtb_ltb. pose proof (total_nonneg l Hsz) as Hpos.
  destruct (Z.leb_spec (total l) (MaxSize c)) as [Hle|Hgt].
  - ztest (MaxSize c <? total l) false. cbn. split; [|done]. constructor; cbn; try done. by left.
  - ztest (MaxSize c <? total l) true. destruct (last (ll c)) as [[e v]|] eqn:Hlast.
    2:{ apply last_None in Hlast. rewrite Hlast in Hv. cbn in Hv. subst l. cbn in Hgt. lia. }
    apply last_Some in Hlast as [l0 Hl0]. rewrite Hl0 in *. rewrite fmap_app in Hv. cbn in Hv. subst l.
    rewrite remove_last by done. rewrite removelast_last.
    unfold sizes_ok in Hsz. rewrite Forall_app, Forall_singleton in Hsz. destruct Hsz as [Hsz0 Hszv].
    pose proof (total_nonneg l0.*2 Hsz0) as Hpos0. rewrite total_app in *. cbn [total foldr] in *.
    rewrite i64_small by lia.
    apply (IH {| MaxSize := MaxSize c; actualSize := _; ll := l0; cache := _; fresh := _ |}
      (delete (key_of v) m) l0.*2); cbn; [|done|done|lia|rewrite length_app, length_fmap in Hf; simpl in Hf; rewrite length_fmap; lia].
    constructor; cbn.
    + done.
    + rewrite ?fmap_app in Hid. by apply NoDup_app in Hid as (? & _ & _).
    + by apply Forall_app in Hfr as [? _].
    + rewrite ?fmap_app in Hk. by apply NoDup_app in Hk as (? & _ & _).
    + intros k e'. rewrite lookup_delete_Some, Hm. rewrite <-(keyed_last l0 e v k e'); [naive_solver|done|].
      by rewrite fmap_app.
    + lia.
Qed.

Lemma find_key (l : list (nat * V)) k :
  match spec_find k l.*2 with
  | Some v => exists e, (e, v) ∈ l /\ key_of v = k
  | None => forall e, ~ keyed l k e
  end.
Proof.
  unfold spec_find. induction l as [|[e v] l IH]; [|rewrite fmap_cons; cbn [List.find snd]].
  - intros e (v & Hin & _). by apply not_elem_of_nil in Hin.
  - destruct (bool_decide_reflect (key_of v = k)) as [Hk|Hk].
    + exists e. split; [by left|done].
    + destruct (List.find _ l.*2) as [v'|].
      * destruct IH as (e' & Hin & Hk'). exists e'. split; [by right|done].
      * intros e' (v' & [Heq|Hin]%elem_of_cons & Hk'); [by injection Heq as -> ->|]. by apply (IH e'); exists v'.
Qed.

Lemma Value_spec (l : list (nat * V)) e v : NoDup l.*1 -> (e, v) ∈ l -> Value l e = Ok v.
Proof.
  unfold Value. induction l as [|[e' v'] l IH]; intros Hnd Hin; [by apply not_elem_of_nil in Hin|].
  rewrite fmap_cons in Hnd. apply NoDup_cons in Hnd as [He Hnd]. cbn [List.find fst snd] in *.
  apply elem_of_cons in Hin as [[= -> ->]|Hin]; [by rewrite bool_decide_eq_true_2|].
  rewrite bool_decide_eq_false_2; [by apply IH|]. intros ->. apply He. apply list_elem_of_fmap. by exists (e, v).
Qed.

(** Removing an element removes its value, and only it. *)
Lemma remove_values (l : list (nat * V)) e v :
  NoDup l.*1 -> NoDup (key_of <$> l.*2) -> (e, v) ∈ l -> (remove e l).*2 = without (key_of v) l.*2.
Proof.
  unfold remove, without. induction l as [|[e' v'] l IH]; intros Hid Hk Hin; [done|].
  rewrite !fmap_cons in *. apply NoDup_cons in Hid as [He Hid], Hk as [Hkv Hk]. cbn [fst snd] in *.
  apply elem_of_cons in Hin as [[= -> ->]|Hin].
  - rewrite filter_cons_False by (cbn; tauto). rewrite filter_cons_False by tauto.
    rewrite !filter_all; [done|..].
    + apply Forall_forall. intros x Hx Hkx. apply Hkv. apply list_elem_of_fmap. by exists x.
    + apply Forall_forall. intros [e0 v0] Hx Hex. cbn in Hex. subst. apply He. apply list_elem_of_fmap. by exists (e', v0).
  - rewrite filter_cons_True, filter_cons_True.
    + rewrite fmap_cons. cbn. f_equal. by apply IH.
    + intros Hkk. apply Hkv. rewrite Hkk. apply list_elem_of_fmap. exists v. split; [done|].
      apply list_elem_of_fmap. by exists (e, v).
    + cbn. intros ->. apply He. apply list_elem_of_fmap. by exists (e, v).
Qed.

Lemma elem_of_remove (l : list (nat * V)) e p : p ∈ remove e l <-> p.1 <> e /\ p ∈ l.
Proof. unfold remove. by rewrite list_elem_of_filter. Qed.

(** An element moved to the front, with a value of the same key. *)
Lemma loading_front c m l e v w size :
  loading c m l -> (e, v) ∈ ll c -> key_of w = key_of v -> size = total (w :: without (key_of v) l) ->
  loading {| MaxSize := MaxSize c; actualSize := size; ll := (e, w) :: remove e (ll c); cache := Some m; fresh := fresh c |}
    m (w :: without (key_of v) l).
Proof.
  intros [Hv Hid Hfr Hk Hm Hs] Hin Hkw Hsize. assert (NoDup (key_of <$> (ll c).*2)) as Hk' by (by rewrite Hv).
  pose proof (remove_values (ll c) e v Hid Hk' Hin) as Hrv. rewrite Hv in Hrv. constructor; cbn.
  - by rewrite Hrv.
  - constructor.
    + rewrite list_elem_of_fmap. intros ([e' v'] & -> & Hp%elem_of_remove). by destruct Hp.
    + unfold remove. eapply sublist_NoDup; [exact Hid|]. apply fmap_sublist, sublist_filter.
  - constructor; [cbn; rewrite Forall_forall in Hfr; by apply (Hfr (e, v))|]. apply Forall_forall. intros p [_ Hp]%elem_of_remove. rewrite Forall_forall in Hfr. by apply Hfr.
  - constructor.
    + rewrite Hkw, list_elem_of_fmap. intros (x & Hx & Hp). unfold without in Hp. apply list_elem_of_filter in Hp as [Hp _].
      by apply Hp.
    + eapply sublist_NoDup; [exact Hk|]. apply fmap_sublist, sublist_filter.
  - intros k e'. rewrite Hm. split.
    + intros (v' & Hin' & <-). destruct (decide (e' = e)) as [->|Hne].
      * exists w. split; [by left|]. rewrite Hkw. assert (Value (ll c) e = Ok v) as H1' by (by apply Value_spec).
        rewrite (Value_spec _ e v') in H1' by done. by injection H1' as ->.
      * exists v'. split; [|done]. right. by apply elem_of_remove.
    + intros (v' & [[= -> ->]|Hin']%elem_of_cons & <-).
      * exists v. by rewrite Hkw.
      * apply elem_of_remove in Hin' as [_ Hin']. by exists v'.
  - done.
Qed.

Lemma total_without l v : NoDup (key_of <$> l) -> v ∈ l -> total l = size_of v + total (without (key_of v) l).
Proof.
  induction l as [|x l IH]; [by intros _ ?%not_elem_of_nil|]. rewrite fmap_cons. intros [Hx Hnd]%NoDup_cons Hin.
  unfold without in *. apply elem_of_cons in Hin as [->|Hin].
  - rewrite filter_cons_False by tauto. rewrite filter_all; [done|]. apply Forall_forall. intros y Hy Hk.
    apply Hx, list_elem_of_fmap. by exists y.
  - rewrite filter_cons_True by (intros Hk; apply Hx; apply list_elem_of_fmap; by exists v).
    cbn. fold (total l) (total (filter (fun x => key_of x <> key_of v) l)). rewrite (IH Hnd Hin). lia.
Qed.

Lemma sizes_without k l : sizes_ok l -> sizes_ok (without k l).
Proof.
  unfold sizes_ok, without. rewrite !Forall_forall. intros H' x [_ Hx]%list_elem_of_filter. by apply H'.
Qed.

Lemma rep_loading c m l : represents c l -> cache c = Some m -> loading c m l.
Proof. intros [Hv Hid Hfr Hk Hm Hs _] Hc. rewrite Hc in Hm. by constructor. Qed.

Lemma empty_loading c : loading {| MaxSize := MaxSize c; actualSize := 0; ll := []; cache := Some ∅; fresh := fresh c |} ∅ [].
Proof.
  constructor; cbn; try done; try constructor.
  - by rewrite lookup_empty.
  - by intros (v & ?%not_elem_of_nil & _).
Qed.

Lemma trim_fuel f g max l : 0 <= max -> (length l < f)%nat -> (length l < g)%nat -> trim f max l = trim g max l.
Proof.
  intros Hmax. revert g l. induction f as [|f IH]; intros g l Hf Hg; [lia|]. destruct g as [|g]; [lia|]. cbn [trim].
  destruct (Z.leb_spec (total l) max) as [|Hgt]; [done|].
  destruct l as [|v l _] using rev_ind; [cbn in Hgt; lia|]. rewrite removelast_last.
  rewrite length_app in Hf, Hg. simpl in Hf, Hg. apply IH; lia.
Qed.

(** A value whose key is there replaces the old one and moves to the front. *)
Lemma Put_hit c m l v e old :
  loading c m l -> (e, old) ∈ ll c -> key_of v = key_of old -> total l < 2 ^ 61 -> sizes_ok (v :: l) ->
  loading {| MaxSize := MaxSize c; actualSize := i64 (actualSize c + i64 (size_of v - size_of old));
             ll := (e, v) :: remove e (ll c); cache := Some m; fresh := fresh c |} m (v :: without (key_of v) l)
  /\ total (v :: without (key_of v) l) < 2 ^ 62.
Proof.
  intros Hlo Hin Hkey Htot [Hsv Hsl]%Forall_cons. pose proof Hlo as [Hv Hid Hfr Hk Hm Hs].
  assert (old ∈ l) as Hold by (rewrite <-Hv; apply list_elem_of_fmap; by exists (e, old)).
  pose proof (total_without l old Hk Hold) as Ht. pose proof (total_nonneg _ (sizes_without (key_of old) l Hsl)).
  assert (0 <= size_of old < 2 ^ 61) as Hso by (unfold sizes_ok in Hsl; rewrite Forall_forall in Hsl; by apply Hsl).
  rewrite Hkey. cbn [total foldr]. fold (total (without (key_of old) l)). split; [|lia].
  apply (loading_front c m l e old v); [done..|]. cbn [total foldr]. fold (total (without (key_of old) l)).
  rewrite (i64_id (size_of v - size_of old)) by lia. rewrite i64_small by lia. lia.
Qed.

(** A new value goes to the front. *)
Lemma Put_miss c m l v :
  loading c m l -> (forall e, ~ keyed (ll c) (key_of v) e) -> total l < 2 ^ 61 -> sizes_ok (v :: l) ->
  loading {| MaxSize := MaxSize c; actualSize := i64 (actualSize c + size_of v); ll := (fresh c, v) :: ll c;
             cache := Some (<[key_of v := fresh c]> m); fresh := S (fresh c) |} (<[key_of v := fresh c]> m) (v :: l)
  /\ total (v :: l) < 2 ^ 62.
Proof.
  intros [Hv Hid Hfr Hk Hm Hs] Hno Htot [Hsv Hsl]%Forall_cons. pose proof (total_nonneg l Hsl).
  cbn [total foldr]. fold (total l). split; [|lia]. constructor; cbn.
  - by rewrite Hv.
  - constructor; [|done]. rewrite list_elem_of_fmap. intros ([e v'] & Heq & Hin).
    rewrite Forall_forall in Hfr. specialize (Hfr _ Hin). cbn in Hfr, Heq. lia.
  - constructor; [cbn; lia|]. eapply Forall_impl; [exact Hfr|]. intros p Hp. cbn in *. lia.
  - constructor; [|done]. rewrite list_elem_of_fmap. intros (v' & Hk' & Hin). rewrite <-Hv in Hin.
    apply list_elem_of_fmap in Hin as ([e v0] & -> & Hin). apply (Hno e). by exists v0.
  - intros k e. rewrite lookup_insert_Some, Hm. split.
    + intros [[<- <-]|[Hne (v' & Hin & <-)]]; [exists v; split; [by left|done]|exists v'; split; [by right|done]].
    + intros (v' & [[= -> ->]|Hin]%elem_of_cons & <-); [by left|right]. split; [|by exists v'].
      intros Heq. apply (Hno e). by exists v'.
  - fold (total l). rewrite Hs, i64_small by lia. lia.
Qed.

(** [Put] once the map is there. *)
Lemma Put_spec c l v :
  represents c l -> sizes_ok (v :: l) -> 0 <= MaxSize c < 2 ^ 61 ->
  ensures (Put v c) (fun c' => represents c' (spec_put (MaxSize c) v l) /\ MaxSize c' = MaxSize c).
Proof.
  intros Hrep Hsz Hmax. pose proof Hsz as [Hsv Hsl]%Forall_cons. pose proof (total_nonneg l Hsl) as Hpos.
  assert (total l < 2 ^ 61) as Htot by (destruct (rep_max _ _ Hrep) as [Hle| ->]; [lia|done]).
  set (c0 := match cache c with
             | None => {| MaxSize := MaxSize c; actualSize := 0; ll := []; cache := Some ∅; fresh := fresh c |}
             | Some _ => c
             end).
  set (m := match cache c with None => ∅ | Some m => m end : gmap K nat).
  assert (loading c0 m l /\ MaxSize c0 = MaxSize c /\ cache c0 = Some m
    /\ Put v c = Put v c0) as (Hlo & Hmx & Hc0 & ->).
  { unfold c0, m. destruct (cache c) as [m0|] eqn:Hc; [by split; [apply rep_loading|]|].
    pose proof (rep_map _ _ Hrep) as Hnil. rewrite Hc in Hnil. subst l. split; [apply empty_loading|].
    split; [done|]. split; [done|]. unfold Put. by rewrite Hc. }
  rewrite <-Hmx in *. unfold Put. rewrite Hc0. cbn beta iota zeta. pose proof Hlo as [Hv Hid Hfr Hk Hm Hs].
  pose proof (find_key (ll c0) (key_of v)) as Hfind. rewrite Hv in Hfind. unfold spec_put.
  destruct (spec_find (key_of v) l) as [old|].
  - destruct Hfind as (e & Hin & Hkey). rewrite (proj2 (Hm _ e)) by (by exists old).
    rewrite (Value_spec _ e old) by done. cbn [mbind outcome_bind].
    destruct (Put_hit c0 m l v e old Hlo Hin (eq_sym Hkey) Htot Hsz) as [Hlo' Ht'].
    assert (length (v :: without (key_of v) l) = length ((e, v) :: remove e (ll c0))) as Hlen
      by (rewrite <-(lo_values _ _ _ Hlo'); by rewrite length_fmap).
    eapply ensures_weaken; [apply (evict_spec _ _ m _ Hlo')|].
    + constructor; [done|]. by apply sizes_without.
    + by apply Hmax.
    + done.
    + rewrite Hlen. apply Nat.lt_succ_diag_r.
    + intros c' [Hr Hmx']. split; [|done]. cbn [MaxSize] in Hr.
      rewrite (trim_fuel _ (S (length l))) in Hr; [done|by apply Hmax|rewrite Hlen; apply Nat.lt_succ_diag_r|].
      assert (old ∈ l) as Hold by (rewrite <-Hv; apply list_elem_of_fmap; by exists (e, old)).
      apply list_elem_of_split in Hold as (l1 & l2 & ->). unfold without. rewrite filter_app, filter_cons_False by tauto.
      cbn [length]. rewrite !length_app. cbn [length].
      pose proof (length_filter (fun x => key_of x <> key_of v) l1). pose proof (length_filter (fun x => key_of x <> key_of v) l2). lia.
  - destruct (m !! key_of v) as [e|] eqn:He; [by apply Hm, Hfind in He|]. rewrite Z.gtb_ltb.
    destruct (Z.ltb_spec (MaxSize c0) (size_of v)) as [Hbig|Hsmall].
    + cbn. split; [|done]. constructor; cbn; try done. rewrite Hmx. by destruct (rep_max _ _ Hrep); [left|right].
    + destruct (Put_miss c0 m l v Hlo Hfind Htot Hsz) as [Hlo' Ht'].
      assert (length l = length (ll c0)) as Hlen by (rewrite <-Hv; by rewrite length_fmap).
      eapply ensures_weaken; [apply (evict_spec _ _ _ _ Hlo'); [done|by apply Hmax|done|]|].
      { cbn [length]. rewrite Hlen. apply Nat.lt_succ_diag_r. }
      intros c' [Hr Hmx']. split; [|done]. cbn [length MaxSize] in *. by rewrite Hlen.
Qed.

(** [Get] moves what it finds to the front. *)
Lemma Get_spec c l k :
  represents c l -> sizes_ok l -> 0 <= MaxSize c < 2 ^ 61 ->
  ensures (Get k c) (fun '(r, c') => r = (spec_get k l).1 /\ represents c' (spec_get k l).2 /\ MaxSize c' = MaxSize c).
Proof.
  intros Hrep Hsz Hmax. pose proof (rep_map _ _ Hrep) as Hmap. unfold Get, spec_get.
  destruct (cache c) as [m|] eqn:Hc; [|by subst l].
  pose proof (find_key (ll c) k) as Hfind. rewrite (rep_values _ _ Hrep) in Hfind.
  destruct (spec_find k l) as [v|].
  - destruct Hfind as (e & Hin & <-). rewrite (proj2 (Hmap _ e)) by (by exists v).
    rewrite (Value_spec _ e v) by (by destruct Hrep). cbn. split; [done|]. split; [|done].
    assert (v ∈ l) as Hv by (rewrite <-(rep_values _ _ Hrep); apply list_elem_of_fmap; by exists (e, v)).
    pose proof (total_without l v (rep_keys _ _ Hrep) Hv) as Ht.
    destruct (loading_front c m l e v v (actualSize c) (rep_loading c m l Hrep Hc) Hin eq_refl) as [Hv' Hid Hfr Hk Hm Hs].
    { rewrite (rep_size _ _ Hrep). done. }
    constructor; cbn in *; try done. left. fold (total (without (key_of v) l)).
    destruct (rep_max _ _ Hrep) as [Hle| ->]; [lia|by apply not_elem_of_nil in Hv].
  - destruct (m !! k) as [e|] eqn:He; [by apply Hmap, Hfind in He|]. done.
Qed.

Lemma Clear_spec c : represents (Clear c) [].
Proof. constructor; cbn; try done; (by right) || constructor. Qed.

Lemma NewLRU_spec max : represents (NewLRU max) [].
Proof. constructor; cbn; try done; (by right) || constructor. Qed.

(** ** Sequences of calls *)

Inductive call := CPut (v : V) | CGet (k : K) | CClear.

Definition put_size_ok (o : call) : Prop := match o with CPut v => 0 <= size_of v < 2 ^ 61 | _ => True end.

(** The cache after the calls, and what the [Get]s among them returned. *)
Fixpoint exec (ops : list call) (c : LRU) : outcome unit (list (option V) * LRU) :=
  match ops with
  | [] => mret ([], c)
  | CPut v :: ops => c ← Put v c; exec ops c
  | CGet k :: ops => '(r, c) ← Get k c; '(rs, c) ← exec ops c; mret (r :: rs, c)
  | CClear :: ops => exec ops (Clear c)
  end.

Fixpoint spec_exec (max : Z) (ops : list call) (l : list V) : list (option V) * list V :=
  match ops with
  | [] => ([], l)
  | CPut v :: ops => spec_exec max ops (spec_put max v l)
  | CGet k :: ops => let '(r, l) := spec_get k l in let '(rs, l) := spec_exec max ops l in (r :: rs, l)
  | CClear :: ops => spec_exec max ops []
  end.

Lemma sizes_trim fuel max l : sizes_ok l -> sizes_ok (trim fuel max l).
Proof.
  revert l. induction fuel as [|f IH]; intros l Hl; [done|]. cbn. destruct (total l <=? max); [done|]. apply IH.
  destruct l as [|v l _] using rev_ind; [done|]. rewrite removelast_last. by apply Forall_app in Hl as [? _].
Qed.

Lemma sizes_spec_put max v l : sizes_ok (v :: l) -> sizes_ok (spec_put max v l).
Proof.
  intros Hl. pose proof Hl as [Hv Hl']%Forall_cons. unfold spec_put.
  destruct (spec_find _ _); [|destruct (size_of v >? max); [done|]]; apply sizes_trim; [|done].
  constructor; [done|]. by apply sizes_without.
Qed.

Lemma sizes_spec_get k l : sizes_ok l -> sizes_ok (spec_get k l).2.
Proof.
  intros Hl. unfold spec_get, spec_find. destruct (List.find _ l) as [v|] eqn:Hf; [|done]. cbn.
  constructor; [|by apply sizes_without]. apply find_some in Hf as [Hin%list_elem_of_In _].
  unfold sizes_ok in Hl. rewrite Forall_forall in Hl. by apply Hl.
Qed.

Lemma exec_spec max ops c l :
  Forall put_size_ok ops -> represents c l -> sizes_ok l -> MaxSize c = max -> 0 <= max < 2 ^ 61 ->
  ensures (exec ops c) (fun '(rs, c') => rs = (spec_exec max ops l).1 /\ represents c' (spec_exec max ops l).2
    /\ MaxSize c' = max).
Proof.
  revert c l. induction ops as [|o ops IH]; intros c l Hops Hrep Hsz Hmax Hr; [done|].
  apply Forall_cons in Hops as [Ho Hops]. destruct o as [v|k|]; cbn [exec spec_exec].
  - eapply ensures_bind; [apply (Put_spec c l v); [done|by constructor|by rewrite Hmax]|].
    intros c' [Hrep' Hm]. rewrite Hmax in *. apply IH; try done. by apply sizes_spec_put; constructor.
  - eapply ensures_bind; [apply (Get_spec c l k); [done..|by rewrite Hmax]|].
    intros [r c'] (-> & Hrep' & Hm). pose proof (sizes_spec_get k l Hsz) as Hsz'.
    destruct (spec_get k l) as [r l']. cbn in *. eapply ensures_bind; [apply (IH c' l'); by try rewrite Hm|].
    intros [rs c''] (-> & Hrep'' & Hm'). by destruct (spec_exec max ops l').
  - apply IH; try done; [apply Clear_spec|constructor].
Qed.

(** C39: whatever the sequence of [Put], [Get] and [Clear] calls on a new cache
    ([ObjectLRU] or [BufferLRU]), none of them panics, the [Get]s return what
    a plain list of values in order of use returns, the cache holds the values
    of that list in that order, the size it keeps is the sum of their sizes,
    and that never exceeds [MaxSize]. *)
Theorem cache_refines_list max ops :
  0 <= max < 2 ^ 61 -> Forall put_size_ok ops ->
  ensures (exec ops (NewLRU max)) (fun '(rs, c) => rs = (spec_exec max ops []).1
    /\ (ll c).*2 = (spec_exec max ops []).2 /\ actualSize c = total (ll c).*2 /\ actualSize c <= max).
Proof.
  intros Hmax Hops. eapply ensures_weaken; [apply (exec_spec max ops _ []); [done|apply NewLRU_spec|constructor|done..]|].
  intros [rs c] (-> & [Hv _ _ _ _ Hs Hle] & Hm). rewrite Hv, Hs. split_and!; [done..|].
  rewrite Hm in Hle. destruct Hle as [| ->]; [done|by apply Hmax].
Qed.

(** A value that fits is found right after it is put. *)
Lemma trim_front fuel max v l : sizes_ok (v :: l) -> size_of v <= max -> exists l', trim fuel max (v :: l) = v :: l'.
Proof.
  intros Hsz Hv. revert l Hsz. induction fuel as [|f IH]; intros l Hsz; [by exists l|]. cbn [trim].
  destruct (Z.leb_spec (total (v :: l)) max) as [|Hgt]; [by exists l|].
  destruct l as [|x l _] using rev_ind; [cbn in Hgt; lia|].
  rewrite app_comm_cons, removelast_last. apply IH. rewrite app_comm_cons in Hsz. by apply Forall_app in Hsz as [? _].
Qed.

Lemma spec_put_get max v l :
  sizes_ok (v :: l) -> size_of v <= max -> (spec_get (key_of v) (spec_put max v l)).1 = Some v.
Proof.
  intros Hsz Hv. pose proof Hsz as [Hv' Hl]%Forall_cons. unfold spec_put.
  assert (exists l', (match spec_find (key_of v) l with
    | Some _ => trim (S (length l)) max (v :: without (key_of v) l)
    | None => if size_of v >? max then l else trim (S (length (v :: l))) max (v :: l) end) = v :: l') as [l' ->].
  { destruct (spec_find _ _).
    - apply trim_front; [constructor; [done|by apply sizes_without]|done].
    - rewrite Z.gtb_ltb. ztest (max <? size_of v) false. by apply trim_front. }
  unfold spec_get, spec_find. cbn. by rewrite bool_decide_eq_true_2.
Qed.
End lru.
Arguments LRU K V {_ _}.

(** A buffer cache of ten bytes: the second buffer is used, so the third one
    evicts the first. *)
Definition ten_byte_calls : list (call (K := Z) (V := buffer)) :=
  [CPut {| Key := 1; Slice := replicate 4 0 |}; CPut {| Key := 2; Slice := replicate 4 0 |}; CGet 2;
   CPut {| Key := 3; Slice := replicate 5 0 |}; CGet 1; CGet 3; CPut {| Key := 3; Slice := replicate 11 0 |}; CGet 3].

Lemma cache_refines_list_witness :
  (spec_exec 10 ten_byte_calls []).1 = [Some {| Key := 2; Slice := replicate 4 0 |}; None; Some {| Key := 3; Slice := replicate 5 0 |}; None]
  /\ ensures (exec ten_byte_calls (NewLRU 10)) (fun '(rs, c) => rs = (spec_exec 10 ten_byte_calls []).1
    /\ (ll c).*2 = (spec_exec 10 ten_byte_calls []).2 /\ actualSize c = total (ll c).*2 /\ actualSize c <= 10).
Proof.
  split; [reflexivity|]. apply (cache_refines_list 10 ten_byte_calls); [lia|].
  repeat constructor; vm_compute; congruence.
Defined.
