(* ===== verification/Signature.v ===== *)
(** * Signatures: [plumbing/object/object.go], [plumbing/object/signature.go]

    The identities with a time that commits and tags carry ([Signature]), and
    the cryptographic signatures embedded in objects: their recognition, and
    the payload they were computed over. *)
From stdpp Require Import base list numbers option strings sets.
From Stdlib Require Import ZArith Lia.
From S2P Require Import Prelude GoStrings.

Open Scope Z_scope.
#[local] Ltac Zify.zify_post_hook ::= Z.to_euclidean_division_equations.

(** ** Times ([time.Time])

    Seconds since 1970 and the offset of the location in seconds.  [After] and
    [Before] compare the seconds since year one, which wrap around. *)
Record Time := { Unix : Z; Offset : Z }.

#[export] Instance Time_eq_dec : EqDecision Time.
Proof. solve_decision. Defined.

Definition unixToInternal : Z := 62135596800.
Definition zero_time : Time := {| Unix := - unixToInternal; Offset := 0 |}.
Definition internal_sec (t : Time) : Z := i64 (Unix t + unixToInternal).
Definition Before (t u : Time) : bool := internal_sec t <? internal_sec u.
Definition After (t u : Time) : bool := internal_sec u <? internal_sec t.
Definition TimeEqual (t u : Time) : bool := internal_sec t =? internal_sec u.

(** [Format("-0700")]: two digits at least for hours and for minutes. *)
Definition pad2 (n : Z) : bytes := if n <? 10 then 48 :: FormatUint n else FormatUint n.

Definition format_zone (offset : Z) : bytes :=
  let zone := Z.quot offset 60 in
  if zone <? 0 then bs "-" ++ pad2 (- zone / 60) ++ pad2 (- zone mod 60)
  else bs "+" ++ pad2 (zone / 60) ++ pad2 (zone mod 60).

(** ** Signatures of people *)

Record Signature := { sig_Name : bytes; sig_Email : bytes; sig_When : Time }.

#[export] Instance Signature_eq_dec : EqDecision Signature.
Proof. solve_decision. Defined.

Definition zero_signature : Signature := {| sig_Name := []; sig_Email := []; sig_When := zero_time |}.

Section decode.
Context {E : Type}.

Definition timeZoneLength : Z := 5.

Definition decodeTimeAndTimeZone (b : bytes) (When : Time) : outcome E Time :=
  let space := Index b 32 in
  let space := if space =? -1 then len b else space in
  t ← slice b 0 space;
  match ParseInt t with
  | None => mret When
  | Some ts =>
      let When := {| Unix := ts; Offset := 0 |} in
      let tzStart := space + 1 in
      if (tzStart >=? len b) || (tzStart + timeZoneLength >? len b) then mret When
      else
        timezone ← slice b tzStart (tzStart + timeZoneLength);
        h ← slice timezone 0 3;
        m ← slice timezone 3 (len timezone);
        match ParseInt h, ParseInt m with
        | Some tzhours, Some tzmins =>
            let tzmins := if tzhours <? 0 then tzmins * -1 else tzmins in
            mret {| Unix := ts; Offset := tzhours * 60 * 60 + tzmins * 60 |}
        | _, _ => mret When
        end
  end.

(** The signature is left as it was when the text is malformed. *)
Definition Decode (b : bytes) (s : Signature) : outcome E Signature :=
  let open := LastIndexByte b 60 in
  let closeBracket := LastIndexByte b 62 in
  if (open =? -1) || (closeBracket =? -1) then mret s
  else if closeBracket <? open then mret s
  else
    name ← slice b 0 open;
    email ← slice b (open + 1) closeBracket;
    let s := {| sig_Name := Trim name 32; sig_Email := email; sig_When := sig_When s |} in
    if closeBracket + 2 <? len b then
      rest ← slice b (closeBracket + 2) (len b);
      When ← decodeTimeAndTimeZone rest (sig_When s);
      mret {| sig_Name := sig_Name s; sig_Email := sig_Email s; sig_When := When |}
    else mret s.
End decode.

Definition encodeTimeAndTimeZone (s : Signature) : bytes :=
  let u := Z.max (Unix (sig_When s)) 0 in
  FormatInt u ++ bs " " ++ format_zone (Offset (sig_When s)).

Definition Encode (s : Signature) : bytes :=
  sig_Name s ++ bs " <" ++ sig_Email s ++ bs "> " ++ encodeTimeAndTimeZone s.

Definition String (s : Signature) : bytes := sig_Name s ++ bs " <" ++ sig_Email s ++ bs ">".

Example half_hour_west : Decode (E := unit) (bs "A <a@b> 0 -0030") zero_signature
  = Ok {| sig_Name := bs "A"; sig_Email := bs "a@b"; sig_When := {| Unix := 0; Offset := 1800 |} |}.
Proof. reflexivity. Qed.

(** ** Reading back what was written *)

Lemma forall_below (P : Z -> bool) (n : nat) k :
  forallb P (Z.of_nat <$> seq 0 n) = true -> 0 <= k < Z.of_nat n -> P k = true.
Proof.
  intros H Hk. rewrite forallb_forall in H. apply H. apply list_elem_of_In, list_elem_of_fmap.
  exists (Z.to_nat k). split; [lia|]. apply elem_of_seq. lia.
Qed.

Lemma pad2_spec n :
  0 <= n < 100 -> exists c d, pad2 n = [c; d] /\ is_decimal c /\ is_decimal d /\ dec_value [c; d] = n.
Proof.
  intros Hn. assert (match pad2 n with
    | [c; d] => bool_decide (is_decimal c) && bool_decide (is_decimal d) && (dec_value [c; d] =? n)
    | _ => false end = true) as H.
  { apply (forall_below (fun n => match pad2 n with
      | [c; d] => bool_decide (is_decimal c) && bool_decide (is_decimal d) && (dec_value [c; d] =? n)
      | _ => false end) 100); [by vm_compute|lia]. }
  destruct (pad2 n) as [|c [|d [|? ?]]]; try done. exists c, d.
  apply andb_prop in H as [[Hc%bool_decide_eq_true_1 Hd%bool_decide_eq_true_1]%andb_prop Hv%Z.eqb_eq]. done.
Qed.

(** A zone as it is printed. *)
Lemma format_zone_spec k :
  -6000 < k < 6000 ->
  exists sign h h' m m', format_zone (60 * k) = [sign; h; h'; m; m']
    /\ Forall is_decimal [h; h'; m; m'] /\ sign = (if k <? 0 then 45 else 43)
    /\ dec_value [h; h'] = Z.abs k / 60 /\ dec_value [m; m'] = Z.abs k mod 60.
Proof.
  intros Hk. unfold format_zone. replace (Z.quot (60 * k) 60) with k by (rewrite Z.mul_comm, Z.quot_mul; lia).
  destruct (pad2_spec (Z.abs k / 60)) as (h & h' & Hh & ? & ? & Hhv); [lia|].
  destruct (pad2_spec (Z.abs k mod 60)) as (m & m' & Hm & ? & ? & Hmv); [lia|].
  destruct (Z.ltb_spec k 0).
  - rewrite Z.abs_neq in * by lia. rewrite Hh, Hm. exists 45, h, h', m, m'. split; [done|]. by rewrite !Forall_cons, Forall_nil.
  - rewrite Z.abs_eq in * by lia. rewrite Hh, Hm. exists 43, h, h', m, m'. split; [done|]. by rewrite !Forall_cons, Forall_nil.
Qed.

(** The offset that is read back: the sign of a zone of less than an hour is
    lost. *)
Definition offset_read (o : Z) : Z := if (-3600 <? o) && (o <? 0) then - o else o.

Definition time_ok (t : Time) : Prop :=
  0 <= Unix t < 2 ^ 63 /\ Offset t mod 60 = 0 /\ -360000 < Offset t < 360000.

#[export] Instance time_ok_dec t : Decision (time_ok t).
Proof. unfold time_ok. apply _. Defined.

Lemma time_roundtrip {E} s When :
  time_ok (sig_When s) ->
  decodeTimeAndTimeZone (E := E) (encodeTimeAndTimeZone s) When
    = Ok {| Unix := Unix (sig_When s); Offset := offset_read (Offset (sig_When s)) |}.
Proof.
  destruct s as [name email [u o]]. intros (Hu & Ho & Hr). cbn [sig_When Unix Offset] in *.
  unfold encodeTimeAndTimeZone. cbn [sig_When Unix Offset]. rewrite Z.max_l, FormatInt_nonneg by lia.
  destruct (FormatUint_spec u) as (Hne & Hd & Hv); [lia|].
  assert (32 ∉ FormatUint u) as Hsp.
  { intros Hin. rewrite Forall_forall in Hd. specialize (Hd _ Hin). unfold is_decimal in Hd. lia. }
  destruct (format_zone_spec (o / 60)) as (sign & h & h' & m & m' & Hz & Hdig & Hsign & Hhv & Hmv); [lia|].
  replace (60 * (o / 60)) with o in Hz by lia. rewrite Hz. change (bs " ") with [32]. cbn [app].
  set (z := [sign; h; h'; m; m']) in *. unfold decodeTimeAndTimeZone, timeZoneLength.
  rewrite Index_app by done. pose proof (len_nonneg (FormatUint u)).
  ztest (len (FormatUint u) =? -1) false.
  assert (slice (E := E) (FormatUint u ++ 32 :: z) 0 (len (FormatUint u)) = Ok (FormatUint u)) as ->
    by exact (slice_app3 [] (FormatUint u) (32 :: z)).
  cbn [mbind outcome_bind]. rewrite (ParseInt_digits _ u) by done.
  assert (len (FormatUint u ++ 32 :: z) = len (FormatUint u) + 6) as Hlen by (unfold z; len_lia). rewrite Hlen.
  rewrite Z.geb_leb, Z.gtb_ltb. ztest (len (FormatUint u) + 6 <=? len (FormatUint u) + 1) false.
  ztest (len (FormatUint u) + 6 <? len (FormatUint u) + 1 + 5) false. cbn [orb].
  assert (slice (E := E) (FormatUint u ++ 32 :: z) (len (FormatUint u) + 1) (len (FormatUint u) + 1 + 5) = Ok z) as ->.
  { rewrite cons_middle, app_assoc. pose proof (slice_app3 (E := E) (FormatUint u ++ [32]) z []) as Hs.
    rewrite app_nil_r in Hs. rewrite len_app in Hs. exact Hs. }
  cbn [mbind outcome_bind]. change (slice (E := E) z 0 3) with (Ok (E := E) [sign; h; h']).
  change (slice (E := E) z 3 (len z)) with (Ok (E := E) [m; m']). cbn [mbind outcome_bind].
  apply Forall_cons in Hdig as [Hdh Hdig]. apply Forall_cons in Hdig as [Hdh' Hdm].
  rewrite (ParseInt_signed sign [h; h'] (Z.abs (o / 60) / 60)); [|destruct (o / 60 <? 0); auto|done|by rewrite !Forall_cons, Forall_nil|done|lia].
  rewrite (ParseInt_digits [m; m'] (Z.abs (o / 60) mod 60)) by (done || lia).
  unfold mret, outcome_ret, offset_read. do 2 f_equal. rewrite Hsign.
  destruct (Z.ltb_spec (o / 60) 0); cbn [Z.eqb Pos.eqb].
  - zdestruct; zbool; try lia.
  - zdestruct; zbool; try lia.
Qed.

(** *** People *)

Definition sig_ok (s : Signature) : Prop :=
  head (sig_Name s) <> Some 32 /\ last (sig_Name s) <> Some 32 /\ 60 ∉ sig_Email s /\ 62 ∉ sig_Email s
  /\ time_ok (sig_When s).

#[export] Instance sig_ok_dec s : Decision (sig_ok s).
Proof. unfold sig_ok. apply _. Defined.

Definition sig_read (s : Signature) : Signature :=
  {| sig_Name := sig_Name s; sig_Email := sig_Email s;
     sig_When := {| Unix := Unix (sig_When s); Offset := offset_read (Offset (sig_When s)) |} |}.

Lemma time_text_chars s c :
  time_ok (sig_When s) -> c ∈ encodeTimeAndTimeZone s -> is_decimal c \/ c = 32 \/ c = 43 \/ c = 45.
Proof.
  destruct s as [name email [u o]]. intros (Hu & Ho & Hr). unfold encodeTimeAndTimeZone. cbn [sig_When Unix Offset] in *.
  rewrite Z.max_l, FormatInt_nonneg by lia. destruct (FormatUint_spec u) as (_ & Hd & _); [lia|].
  destruct (format_zone_spec (o / 60)) as (sign & h & h' & m & m' & Hz & Hdig & Hsign & _); [lia|].
  replace (60 * (o / 60)) with o in Hz by lia. rewrite Hz. rewrite !elem_of_app.
  rewrite Forall_forall in Hd, Hdig. intros [Hc|[Hc|Hc]].
  - left. by apply Hd.
  - apply list_elem_of_singleton in Hc as ->. auto.
  - apply elem_of_cons in Hc as [->|Hc]; [|left; by apply Hdig]. rewrite Hsign. destruct (o / 60 <? 0); auto.
Qed.

Lemma Trim_snoc_space n : head n <> Some 32 -> last n <> Some 32 -> Trim (n ++ [32]) 32 = n.
Proof.
  intros Hh Hl. unfold Trim. destruct n as [|x n]; [done|].
  rewrite TrimLeft_id by done. rewrite TrimRight_snoc. by apply TrimRight_id.
Qed.

Lemma Decode_Encode {E} s s0 : sig_ok s -> Decode (E := E) (Encode s) s0 = Ok (sig_read s).
Proof.
  intros (Hh & Hl & He1 & He2 & Ht). unfold Encode. set (tm := encodeTimeAndTimeZone s).
  assert (60 ∉ tm /\ 62 ∉ tm) as [Ht1 Ht2].
  { split; intros Hc; apply time_text_chars in Hc; [|done| |done]; unfold is_decimal in Hc; lia. }
  change (bs " <") with [32; 60]. change (bs "> ") with [62; 32].
  set (n := sig_Name s) in *. set (e := sig_Email s) in *.
  assert (n ++ [32; 60] ++ e ++ [62; 32] ++ tm = (n ++ [32]) ++ 60 :: (e ++ 62 :: 32 :: tm)) as Hb1
    by (by rewrite <-app_assoc).
  assert (n ++ [32; 60] ++ e ++ [62; 32] ++ tm = (n ++ [32; 60] ++ e) ++ 62 :: (32 :: tm)) as Hb2
    by (by rewrite <-!app_assoc).
  set (b := n ++ [32; 60] ++ e ++ [62; 32] ++ tm) in *.
  assert (LastIndexByte b 60 = len (n ++ [32])) as Hopen
    by (rewrite Hb1; apply LastIndexByte_app; rewrite elem_of_app, !elem_of_cons; naive_solver lia).
  assert (LastIndexByte b 62 = len (n ++ [32; 60] ++ e)) as Hclose
    by (rewrite Hb2; apply LastIndexByte_app; rewrite elem_of_cons; naive_solver lia).
  assert (slice (E := E) b 0 (len (n ++ [32])) = Ok (n ++ [32])) as Hs1 by (rewrite Hb1; exact (slice_app3 [] (n ++ [32]) _)).
  assert (slice (E := E) b (len (n ++ [32]) + 1) (len (n ++ [32; 60] ++ e)) = Ok e) as Hs2.
  { replace b with ((n ++ [32; 60]) ++ e ++ (62 :: 32 :: tm)) by (rewrite Hb2, <-!app_assoc; done).
    rewrite <-(slice_app3 (E := E) (n ++ [32; 60]) e (62 :: 32 :: tm)). f_equal; len_lia. }
  assert (slice (E := E) b (len (n ++ [32; 60] ++ e) + 2) (len b) = Ok tm) as Hs3.
  { replace b with ((n ++ [32; 60] ++ e ++ [62; 32]) ++ tm ++ []) by (rewrite Hb2, app_nil_r, <-!app_assoc; done).
    rewrite <-(slice_app3 (E := E) (n ++ [32; 60] ++ e ++ [62; 32]) tm []). f_equal; len_lia. }
  unfold Decode. rewrite Hopen, Hclose. pose proof (len_nonneg n). pose proof (len_nonneg e).
  ztest (len (n ++ [32]) =? -1) false. ztest (len (n ++ [32; 60] ++ e) =? -1) false. cbn [orb].
  ztest (len (n ++ [32; 60] ++ e) <? len (n ++ [32])) false. rewrite Hs1. cbn [mbind outcome_bind].
  rewrite Hs2. cbn [mbind outcome_bind].
  assert (0 < len tm) as Htm.
  { unfold tm, encodeTimeAndTimeZone. change (bs " ") with [32]. generalize (FormatInt (Z.max (Unix (sig_When s)) 0)) (format_zone (Offset (sig_When s))). intros. len_lia. }
  assert (len b = len (n ++ [32; 60] ++ e) + 2 + len tm) as Hb by (rewrite Hb2; len_lia).
  ztest (len (n ++ [32; 60] ++ e) + 2 <? len b) true. rewrite Hs3. cbn [mbind outcome_bind sig_Name sig_Email sig_When].
  unfold tm. rewrite time_roundtrip by done. cbn [mbind outcome_bind]. by rewrite Trim_snoc_space.
Qed.

(** Decoding never panics. *)
Lemma decodeTime_ok {E} b When : exists t, decodeTimeAndTimeZone (E := E) b When = Ok t.
Proof.
  unfold decodeTimeAndTimeZone, timeZoneLength. set (space := if Index b 32 =? -1 then len b else Index b 32).
  assert (0 <= space <= len b) as Hsp.
  { unfold space. pose proof (len_nonneg b). destruct (Z.eqb_spec (Index b 32) (-1)); [lia|].
    destruct (Index_range b 32); lia. }
  clearbody space. rewrite (slice_Ok b 0 space) by lia. cbn [mbind outcome_bind]. destruct (ParseInt _) as [ts|]; [|by eexists].
  rewrite Z.geb_leb, Z.gtb_ltb. destruct (Z.leb_spec (len b) (space + 1)); [by eexists|]. cbn [orb].
  destruct (Z.ltb_spec (len b) (space + 1 + 5)); [by eexists|].
  rewrite (slice_Ok b (space + 1)) by lia. cbn [mbind outcome_bind]. set (tz := take _ _).
  assert (len tz = 5) as Htz by (unfold tz; len_lia). rewrite (slice_Ok tz 0 3), (slice_Ok tz 3) by lia. cbn [mbind outcome_bind].
  destruct (ParseInt _); [|by eexists]. destruct (ParseInt _); by eexists.
Qed.

Lemma Decode_ok {E} b s : exists s', Decode (E := E) b s = Ok s'.
Proof.
  unfold Decode. destruct (LastIndexByte_range b 60) as [Ho|Ho]; [|rewrite Ho; by eexists].
  destruct (LastIndexByte_range b 62) as [Hc|Hc]; [|rewrite Hc, orb_true_r; by eexists].
  destruct (Z.eqb_spec (LastIndexByte b 60) (-1)); [by eexists|].
  destruct (Z.eqb_spec (LastIndexByte b 62) (-1)); [by eexists|]. cbn [orb].
  destruct (Z.ltb_spec (LastIndexByte b 62) (LastIndexByte b 60)) as [|Hle]; [by eexists|].
  assert (LastIndexByte b 60 <> LastIndexByte b 62) as Hne.
  { intros Heq. unfold LastIndexByte in Heq, Ho, Hc, n, n0.
    destruct (cut_last 60 b) as [[x y]|] eqn:H1; [|done]. destruct (cut_last 62 b) as [[x' y']|] eqn:H2; [|done].
    apply cut_last_Some in H1 as [-> _], H2 as [Heq2 _]. apply app_inj_1 in Heq2 as [_ Hd]; [done|unfold len in Heq; lia]. }
  rewrite (slice_Ok b 0), (slice_Ok b (LastIndexByte b 60 + 1)) by lia. cbn [mbind outcome_bind]. destruct (Z.ltb_spec (LastIndexByte b 62 + 2) (len b)); [|by eexists].
  rewrite (slice_Ok b (LastIndexByte b 62 + 2)) by lia. cbn [mbind outcome_bind].
  match goal with |- context [decodeTimeAndTimeZone ?x ?w] => destruct (decodeTime_ok (E := E) x w) as [t ->] end. by eexists.
Qed.

(** ** Cryptographic signatures *)

Definition headerpgp : bytes := bs "gpgsig".
Definition headerpgp256 : bytes := bs "gpgsig-sha256".

Inductive signatureType := signatureTypeUnknown | signatureTypeOpenPGP | signatureTypeX509 | signatureTypeSSH.

#[export] Instance signatureType_eq_dec : EqDecision signatureType.
Proof. solve_decision. Defined.

Definition openPGPSignatureFormat : list bytes := [bs "-----BEGIN PGP SIGNATURE-----"; bs "-----BEGIN PGP MESSAGE-----"].
Definition x509SignatureFormat : list bytes := [bs "-----BEGIN SIGNED MESSAGE-----"].
Definition sshSignatureFormat : list bytes := [bs "-----BEGIN SSH SIGNATURE-----"].

Definition knownSignatureFormats : list (signatureType * list bytes) :=
  [(signatureTypeOpenPGP, openPGPSignatureFormat); (signatureTypeX509, x509SignatureFormat);
   (signatureTypeSSH, sshSignatureFormat)].

(** The loop over the map of formats, visited in the order given. *)
Definition type_in (formats : list (signatureType * list bytes)) (b : bytes) : signatureType :=
  match List.find (fun '(_, begins) => existsb (HasPrefix b) begins) formats with
  | Some (t, _) => t
  | None => signatureTypeUnknown
  end.

Definition typeForSignature (b : bytes) : signatureType := type_in knownSignatureFormats b.

(** The position and type of the last block; [rest] is [b[n:]]. *)
Fixpoint parseSignedBytes_loop (fuel : nat) (n : Z) (rest : bytes) (found : Z) (t : signatureType)
    : Z * signatureType :=
  match fuel, rest with
  | O, _ | _, [] => (found, t)
  | S f, _ :: _ =>
      let st := typeForSignature rest in
      let '(found, t) := if bool_decide (st = signatureTypeUnknown) then (found, t) else (n, st) in
      match cut_at 10 rest with
      | Some (a, rest') => parseSignedBytes_loop f (n + (len a + 1)) rest' found t
      | None => (found, t)
      end
  end.

Definition parseSignedBytes (b : bytes) : Z * signatureType :=
  parseSignedBytes_loop (S (length b)) 0 b (-1) signatureTypeUnknown.

Fixpoint countSignatureBlocks_loop (fuel : nat) (rest : bytes) (count : Z) : Z :=
  match fuel, rest with
  | O, _ | _, [] => count
  | S f, _ :: _ =>
      let count := if bool_decide (typeForSignature rest = signatureTypeUnknown) then count else count + 1 in
      match cut_at 10 rest with
      | Some (_, rest') => countSignatureBlocks_loop f rest' count
      | None => count
      end
  end.

Definition countSignatureBlocks (b : bytes) : Z := countSignatureBlocks_loop (S (length b)) b 0.

Definition isSignatureHeader (line : bytes) : bool :=
  HasPrefix line (headerpgp ++ bs " ") || HasPrefix line (headerpgp256 ++ bs " ").

(** The bytes written; every turn but the last reads a line. *)
Fixpoint stripHeaderSignatures_loop (fuel : nat) (r : bytes) (inBody skipping : bool) (w : bytes) : bytes :=
  match fuel with
  | O => w
  | S f =>
      let '(line, eof, r) := ReadBytes 10 r in
      let '(write, inBody, skipping) :=
        if inBody then (true, inBody, skipping)
        else if skipping && HasPrefix line (bs " ") then (false, inBody, skipping)
        else if isSignatureHeader line then (false, inBody, true)
        else if bool_decide (line = [10]) then (true, true, false)
        else (true, inBody, false) in
      let w := if write then w ++ line else w in
      if eof then w else stripHeaderSignatures_loop f r inBody skipping w
  end.

Definition stripHeaderSignatures (r : bytes) : bytes :=
  stripHeaderSignatures_loop (S (length r)) r false false [].

(** ** Properties *)

(** No text starts with the beginnings of two types. *)
Definition distinct_begins (p q : bytes) : bool :=
  (19 <=? length p)%nat && (19 <=? length q)%nat && negb (bool_decide (take 19 p = take 19 q)).

Lemma distinct_begins_spec b p q : distinct_begins p q = true -> HasPrefix b p = true -> HasPrefix b q = true -> False.
Proof.
  unfold distinct_begins. intros [[Hp%Nat.leb_le Hq%Nat.leb_le]%andb_prop Hne%negb_true_iff%bool_decide_eq_false_1]%andb_prop.
  intros [x ->]%HasPrefix_spec [y Hy]%HasPrefix_spec. apply (f_equal (take 19)) in Hy.
  by rewrite !take_app_le in Hy by done.
Qed.

Lemma formats_distinct t f t' f' :
  (t, f) ∈ knownSignatureFormats -> (t', f') ∈ knownSignatureFormats ->
  t = t' \/ forall p q, p ∈ f -> q ∈ f' -> distinct_begins p q = true.
Proof.
  assert (forallb (fun '(t, f) => forallb (fun '(t', f') => bool_decide (t = t') ||
    forallb (fun p => forallb (fun q => distinct_begins p q) f') f) knownSignatureFormats) knownSignatureFormats = true) as H
    by (by vm_compute).
  intros H1%list_elem_of_In H2%list_elem_of_In. rewrite forallb_forall in H. specialize (H _ H1). cbn beta iota in H.
  rewrite forallb_forall in H. specialize (H _ H2). cbn beta iota in H.
  apply orb_prop in H as [H%bool_decide_eq_true_1|H]; [by left|right]. intros p q Hp%list_elem_of_In Hq%list_elem_of_In.
  rewrite forallb_forall in H. specialize (H _ Hp). rewrite forallb_forall in H. by apply H.
Qed.

(** The loop over the map finds the same type in whatever order. *)
Lemma type_in_order formats b : formats ≡ₚ knownSignatureFormats -> type_in formats b = typeForSignature b.
Proof.
  intros Hperm. unfold typeForSignature, type_in.
  destruct (List.find _ formats) as [[t f]|] eqn:H1; destruct (List.find _ knownSignatureFormats) as [[t' f']|] eqn:H2.
  - apply find_some in H1 as [Hi1%list_elem_of_In H1], H2 as [Hi2%list_elem_of_In H2]. rewrite Hperm in Hi1.
    destruct (formats_distinct t f t' f' Hi1 Hi2) as [|Hd]; [done|].
    apply existsb_exists in H1 as (p & Hp%list_elem_of_In & H1), H2 as (q & Hq%list_elem_of_In & H2).
    destruct (distinct_begins_spec b p q (Hd p q Hp Hq) H1 H2).
  - apply find_some in H1 as [Hi1%list_elem_of_In H1]. rewrite Hperm in Hi1.
    pose proof (find_none _ _ H2 _ (proj1 (list_elem_of_In _ _) Hi1)) as Hn. cbn in *. congruence.
  - apply find_some in H2 as [Hi2%list_elem_of_In H2]. rewrite <-Hperm in Hi2.
    pose proof (find_none _ _ H1 _ (proj1 (list_elem_of_In _ _) Hi2)) as Hn. cbn in *. congruence.
  - done.
Qed.
