(* ===== verification/Commit.v ===== *)
(** * Commit objects: [plumbing/object/commit.go], [commit_scanner.go]

    The decoder is a state machine over lines, as in the source: a state
    function reads lines, updates the commit and returns the next state.  The
    encoder writes the text that the decoder reads, with or without the
    cryptographic signatures. *)
From stdpp Require Import base list numbers option strings sets.
From Stdlib Require Import ZArith Lia.
From S2P Require Import Prelude GoStrings ObjectId Object Storer Signature.

Open Scope Z_scope.

(** ** Data *)

Inductive commit_error :=
  | ErrUnsupportedObject
  | ErrMalformedCommit
  | ErrStorage (e : storage_error).

(** Multi-line values are kept with their line breaks. *)
Record ExtraHeader := { Key : bytes; hdr_Value : bytes }.

#[export] Instance ExtraHeader_eq_dec : EqDecision ExtraHeader.
Proof. solve_decision. Defined.

(** The storer a commit remembers is left to its users. *)
Record Commit := {
  Hash : ObjectID;
  Author : Signature;
  Committer : Signature;
  c_Signature : bytes;
  SignatureSHA256 : bytes;
  Message : bytes;
  TreeHash : ObjectID;
  ParentHashes : list ObjectID;
  Encoding : bytes;
  ExtraHeaders : list ExtraHeader;
  src : option EncodedObject;
}.

#[export] Instance Commit_eq_dec : EqDecision Commit.
Proof. solve_decision. Defined.

Definition headerencoding : bytes := bs "encoding".
Definition defaultUtf8CommitMessageEncoding : bytes := bs "UTF-8".

Definition NumParents (c : Commit) : Z := len (ParentHashes c).

(** ** Lines *)

Definition isBlankLine (line : bytes) : bool := bool_decide (line = [10]).

Definition splitHeader (line : bytes) : bytes * bytes :=
  let trimmed := TrimRight line 10 in
  match cut_at 32 trimmed with
  | Some (key, value) => (key, value)
  | None => (trimmed, [])
  end.

Definition parseObjectIDHex (data : bytes) : outcome commit_error ObjectID :=
  if negb (len data =? 40) && negb (len data =? 64) then Err ErrMalformedCommit
  else let '(h, ok) := FromHex data in if ok then mret h else Err ErrMalformedCommit.

(** The header, and whether it may go on in the next line. *)
Definition parseExtraHeader (line : bytes) : ExtraHeader * bool :=
  match cut_at 32 line with
  | Some (k, v) => ({| Key := TrimRight k 10; hdr_Value := v |}, true)
  | None => ({| Key := TrimRight line 10; hdr_Value := [] |}, false)
  end.

(** ** The scanner *)

Record commitScanner := {
  s_r : bytes;
  s_c : Commit;
  msgbuf : bytes;
  pending : option (bytes * bool);
  sawTree : bool;
  sawEncoding : bool;
  extra : option ExtraHeader;
}.

Inductive commitState :=
  | scanTree | scanParents | scanAuthor | scanCommitter | scanHeaders
  | scanPgpCont | scanPgp256Cont | scanExtraCont | scanMessage.

Definition set_reader (s : commitScanner) (rest : bytes) (p : option (bytes * bool)) : commitScanner :=
  {| s_r := rest; s_c := s_c s; msgbuf := msgbuf s; pending := p; sawTree := sawTree s; sawEncoding := sawEncoding s; extra := extra s |}.

Definition set_commit (s : commitScanner) (x : Commit) : commitScanner :=
  {| s_r := s_r s; s_c := x; msgbuf := msgbuf s; pending := pending s; sawTree := sawTree s; sawEncoding := sawEncoding s; extra := extra s |}.

Definition set_extra (s : commitScanner) (x : option ExtraHeader) : commitScanner :=
  {| s_r := s_r s; s_c := s_c s; msgbuf := msgbuf s; pending := pending s; sawTree := sawTree s; sawEncoding := sawEncoding s; extra := x |}.

Definition readLine (s : commitScanner) : bytes * bool * commitScanner :=
  match pending s with
  | Some (line, eof) => (line, eof, set_reader s (s_r s) None)
  | None => let '(line, eof, rest) := ReadBytes 10 (s_r s) in (line, eof, set_reader s rest None)
  end.

Definition pushBack (s : commitScanner) (line : bytes) (eof : bool) : commitScanner := set_reader s (s_r s) (Some (line, eof)).

(** *** Updates of the commit *)

Definition set_TreeHash (x : Commit) (h : ObjectID) : Commit :=
  {| Hash := Hash x; Author := Author x; Committer := Committer x; c_Signature := c_Signature x;
     SignatureSHA256 := SignatureSHA256 x; Message := Message x; TreeHash := h; ParentHashes := ParentHashes x;
     Encoding := Encoding x; ExtraHeaders := ExtraHeaders x; src := src x |}.
Definition add_parent (x : Commit) (h : ObjectID) : Commit :=
  {| Hash := Hash x; Author := Author x; Committer := Committer x; c_Signature := c_Signature x;
     SignatureSHA256 := SignatureSHA256 x; Message := Message x; TreeHash := TreeHash x; ParentHashes := ParentHashes x ++ [h];
     Encoding := Encoding x; ExtraHeaders := ExtraHeaders x; src := src x |}.
Definition set_Author (x : Commit) (a : Signature) : Commit :=
  {| Hash := Hash x; Author := a; Committer := Committer x; c_Signature := c_Signature x;
     SignatureSHA256 := SignatureSHA256 x; Message := Message x; TreeHash := TreeHash x; ParentHashes := ParentHashes x;
     Encoding := Encoding x; ExtraHeaders := ExtraHeaders x; src := src x |}.
Definition set_Committer (x : Commit) (a : Signature) : Commit :=
  {| Hash := Hash x; Author := Author x; Committer := a; c_Signature := c_Signature x;
     SignatureSHA256 := SignatureSHA256 x; Message := Message x; TreeHash := TreeHash x; ParentHashes := ParentHashes x;
     Encoding := Encoding x; ExtraHeaders := ExtraHeaders x; src := src x |}.
Definition set_Encoding (x : Commit) (e : bytes) : Commit :=
  {| Hash := Hash x; Author := Author x; Committer := Committer x; c_Signature := c_Signature x;
     SignatureSHA256 := SignatureSHA256 x; Message := Message x; TreeHash := TreeHash x; ParentHashes := ParentHashes x;
     Encoding := e; ExtraHeaders := ExtraHeaders x; src := src x |}.
Definition add_sig (x : Commit) (t : bytes) : Commit :=
  {| Hash := Hash x; Author := Author x; Committer := Committer x; c_Signature := c_Signature x ++ t;
     SignatureSHA256 := SignatureSHA256 x; Message := Message x; TreeHash := TreeHash x; ParentHashes := ParentHashes x;
     Encoding := Encoding x; ExtraHeaders := ExtraHeaders x; src := src x |}.
Definition add_sig256 (x : Commit) (t : bytes) : Commit :=
  {| Hash := Hash x; Author := Author x; Committer := Committer x; c_Signature := c_Signature x;
     SignatureSHA256 := SignatureSHA256 x ++ t; Message := Message x; TreeHash := TreeHash x; ParentHashes := ParentHashes x;
     Encoding := Encoding x; ExtraHeaders := ExtraHeaders x; src := src x |}.
Definition add_extra (x : Commit) (h : ExtraHeader) : Commit :=
  {| Hash := Hash x; Author := Author x; Committer := Committer x; c_Signature := c_Signature x;
     SignatureSHA256 := SignatureSHA256 x; Message := Message x; TreeHash := TreeHash x; ParentHashes := ParentHashes x;
     Encoding := Encoding x; ExtraHeaders := ExtraHeaders x ++ [h]; src := src x |}.
Definition set_Message (x : Commit) (m : bytes) : Commit :=
  {| Hash := Hash x; Author := Author x; Committer := Committer x; c_Signature := c_Signature x;
     SignatureSHA256 := SignatureSHA256 x; Message := m; TreeHash := TreeHash x; ParentHashes := ParentHashes x;
     Encoding := Encoding x; ExtraHeaders := ExtraHeaders x; src := src x |}.

(** *** State functions *)

Definition step_result : Type := outcome commit_error (option commitState * commitScanner).

(** The next state, unless the line was the last. *)
Definition next (eof : bool) (st : commitState) (s : commitScanner) : step_result :=
  mret (if eof then None else Some st, s).

Definition do_scanTree (s : commitScanner) : step_result :=
  let '(line, eof, s) := readLine s in
  if (len line =? 0) || isBlankLine line then Err ErrMalformedCommit
  else
    let '(key, data) := splitHeader line in
    if negb (bool_decide (key = bs "tree")) then Err ErrMalformedCommit
    else
      h ← parseObjectIDHex data;
      let s := {| s_r := s_r s; s_c := set_TreeHash (s_c s) h; msgbuf := msgbuf s; pending := pending s; sawTree := true;
                  sawEncoding := sawEncoding s; extra := extra s |} in
      next eof scanParents s.

Definition do_scanParents (s : commitScanner) : step_result :=
  let '(line, eof, s) := readLine s in
  if len line =? 0 then mret (None, s)
  else if isBlankLine line then mret (Some scanMessage, s)
  else
    let '(key, data) := splitHeader line in
    if bool_decide (key = bs "parent") then
      h ← parseObjectIDHex data;
      next eof scanParents (set_commit s (add_parent (s_c s) h))
    else mret (Some scanAuthor, pushBack s line eof).

Definition do_scanAuthor (s : commitScanner) : step_result :=
  let '(line, eof, s) := readLine s in
  if len line =? 0 then mret (None, s)
  else if isBlankLine line then mret (Some scanMessage, s)
  else
    let '(key, data) := splitHeader line in
    if bool_decide (key = bs "author") then
      a ← Decode data (Author (s_c s));
      next eof scanCommitter (set_commit s (set_Author (s_c s) a))
    else mret (Some scanCommitter, pushBack s line eof).

Definition do_scanCommitter (s : commitScanner) : step_result :=
  let '(line, eof, s) := readLine s in
  if len line =? 0 then mret (None, s)
  else if isBlankLine line then mret (Some scanMessage, s)
  else
    let '(key, data) := splitHeader line in
    if bool_decide (key = bs "committer") then
      a ← Decode data (Committer (s_c s));
      next eof scanHeaders (set_commit s (set_Committer (s_c s) a))
    else mret (Some scanHeaders, pushBack s line eof).

Definition dropped_header (key : bytes) : bool :=
  bool_decide (key ∈ [bs "tree"; bs "parent"; bs "author"; bs "committer"]).

Definition do_scanHeaders (s : commitScanner) : step_result :=
  let '(line, eof, s) := readLine s in
  if len line =? 0 then mret (None, s)
  else if isBlankLine line then mret (Some scanMessage, s)
  else
    let '(key, data) := splitHeader line in
    if dropped_header key then next eof scanHeaders s
    else if bool_decide (key = headerencoding) then
      let s := if sawEncoding s then s
               else {| s_r := s_r s; s_c := set_Encoding (s_c s) data; msgbuf := msgbuf s; pending := pending s;
                       sawTree := sawTree s; sawEncoding := true; extra := extra s |} in
      next eof scanHeaders s
    else if bool_decide (key = headerpgp) then
      next eof scanPgpCont (set_commit s (add_sig (s_c s) (data ++ [10])))
    else if bool_decide (key = headerpgp256) then
      next eof scanPgp256Cont (set_commit s (add_sig256 (s_c s) (data ++ [10])))
    else
      let '(h, multiline) := parseExtraHeader line in
      if multiline : bool then next eof scanExtraCont (set_extra s (Some h))
      else next eof scanHeaders (set_commit s (add_extra (s_c s) h)).

Definition continuationCont (add : Commit -> bytes -> Commit) (self : commitState) (s : commitScanner) : step_result :=
  let '(line, eof, s) := readLine s in
  if HasPrefix line (bs " ") then next eof self (set_commit s (add (s_c s) (drop 1 line)))
  else mret (Some scanHeaders, if len line >? 0 then pushBack s line eof else s).

Definition finaliseExtra (s : commitScanner) : outcome commit_error commitScanner :=
  match extra s with
  | None => Panic
  | Some h =>
      let h := {| Key := Key h; hdr_Value := TrimRight (hdr_Value h) 10 |} in
      mret (set_extra (set_commit s (add_extra (s_c s) h)) None)
  end.

Definition do_scanExtraCont (s : commitScanner) : step_result :=
  let '(line, eof, s) := readLine s in
  if HasPrefix line (bs " ") then
    match extra s with
    | None => Panic
    | Some h =>
        let s := set_extra s (Some {| Key := Key h; hdr_Value := hdr_Value h ++ drop 1 line |}) in
        if eof : bool then s ← finaliseExtra s; mret (None, s)
        else mret (Some scanExtraCont, s)
    end
  else
    s ← finaliseExtra s;
    mret (Some scanHeaders, if len line >? 0 then pushBack s line eof else s).

(** Every line but the last takes a byte at least. *)
Fixpoint scanMessage_loop (fuel : nat) (s : commitScanner) : step_result :=
  match fuel with
  | O => NoFuel
  | S f =>
      let '(line, eof, s) := readLine s in
      let s := {| s_r := s_r s; s_c := s_c s; msgbuf := msgbuf s ++ line; pending := pending s; sawTree := sawTree s;
                  sawEncoding := sawEncoding s; extra := extra s |} in
      if eof then mret (None, s) else scanMessage_loop f s
  end.

Definition do_scanMessage (s : commitScanner) : step_result := scanMessage_loop (S (S (length (s_r s)))) s.

Definition step (st : commitState) : commitScanner -> step_result :=
  match st with
  | scanTree => do_scanTree
  | scanParents => do_scanParents
  | scanAuthor => do_scanAuthor
  | scanCommitter => do_scanCommitter
  | scanHeaders => do_scanHeaders
  | scanPgpCont => continuationCont add_sig scanPgpCont
  | scanPgp256Cont => continuationCont add_sig256 scanPgp256Cont
  | scanExtraCont => do_scanExtraCont
  | scanMessage => do_scanMessage
  end.

Fixpoint scan (fuel : nat) (st : commitState) (s : commitScanner) : outcome commit_error commitScanner :=
  match fuel with
  | O => NoFuel
  | S f =>
      '(st', s) ← step st s;
      match st' with None => mret s | Some st' => scan f st' s end
  end.

Definition reset_commit : Commit :=
  {| Hash := ZeroHash; Author := zero_signature; Committer := zero_signature; c_Signature := []; SignatureSHA256 := [];
     Message := []; TreeHash := ZeroHash; ParentHashes := []; Encoding := defaultUtf8CommitMessageEncoding;
     ExtraHeaders := []; src := None |}.

(** A line is looked at by four states at most. *)
Definition scan_fuel (text : bytes) : nat := 6 * S (length text).

Definition Decode (o : EncodedObject) : outcome commit_error Commit :=
  if negb (bool_decide (eo_Type o = CommitObject)) then Err ErrUnsupportedObject
  else
    let x := {| Hash := eo_Hash o; Author := zero_signature; Committer := zero_signature; c_Signature := [];
                SignatureSHA256 := []; Message := []; TreeHash := ZeroHash; ParentHashes := [];
                Encoding := defaultUtf8CommitMessageEncoding; ExtraHeaders := []; src := Some o |} in
    s ← scan (scan_fuel (eo_Data o)) scanTree
          {| s_r := eo_Data o; s_c := x; msgbuf := []; pending := None; sawTree := false; sawEncoding := false; extra := None |};
    if negb (sawTree s) then Err ErrMalformedCommit else mret (set_Message (s_c s) (msgbuf s)).

(** ** Encoding *)

Definition isStandardHeader (key : bytes) : bool :=
  bool_decide (key ∈ [bs "tree"; bs "parent"; bs "author"; bs "committer"; headerencoding; headerpgp; headerpgp256]).

(** Several lines, each but the first after a space. *)
Definition fold_lines (value : bytes) : bytes := join_with [10; 32] (Split (TrimSuffix value [10]) 10).

Definition header_Format (h : ExtraHeader) : bytes :=
  Key h ++ (if len (hdr_Value h) >? 0 then bs " " ++ fold_lines (hdr_Value h) else []).

(** The text written; writing to an encoded object does not fail. *)
Definition encode (x : Commit) (includeSig : bool) : bytes :=
  bs "tree " ++ oid_String (TreeHash x) ++ [10]
  ++ concat (map (fun p => bs "parent " ++ oid_String p ++ [10]) (ParentHashes x))
  ++ bs "author " ++ Signature.Encode (Author x)
  ++ [10] ++ bs "committer " ++ Signature.Encode (Committer x)
  ++ (if negb (bool_decide (Encoding x = [])) && negb (bool_decide (Encoding x = defaultUtf8CommitMessageEncoding))
      then [10] ++ headerencoding ++ bs " " ++ Encoding x else [])
  ++ concat (map (fun h => if isStandardHeader (Key h) then [] else [10] ++ header_Format h) (ExtraHeaders x))
  ++ (if negb (bool_decide (c_Signature x = [])) && includeSig
      then [10] ++ headerpgp ++ bs " " ++ fold_lines (c_Signature x) else [])
  ++ (if negb (bool_decide (SignatureSHA256 x = [])) && includeSig
      then [10] ++ headerpgp256 ++ bs " " ++ fold_lines (SignatureSHA256 x) else [])
  ++ [10; 10] ++ Message x.

Definition Encode (x : Commit) : bytes := encode x true.

Definition signatureEqual (a b : Signature) : bool :=
  bool_decide (sig_Name a = sig_Name b) && bool_decide (sig_Email a = sig_Email b)
  && (Unix (sig_When a) =? Unix (sig_When b))
  && bool_decide (format_zone (Offset (sig_When a)) = format_zone (Offset (sig_When b))).

(** Whether decoding the source again gives the fields the commit has. *)
Definition matchesSource (x : Commit) : outcome commit_error bool :=
  match src x with
  | None => mret false
  | Some o =>
      match Decode o with
      | Err _ => mret false
      | Ok fresh =>
          mret (bool_decide (Hash x = Hash fresh)
                && signatureEqual (Author x) (Author fresh)
                && signatureEqual (Committer x) (Committer fresh)
                && bool_decide (Message x = Message fresh)
                && bool_decide (TreeHash x = TreeHash fresh)
                && bool_decide (Encoding x = Encoding fresh)
                && bool_decide (ParentHashes x = ParentHashes fresh)
                && bool_decide (ExtraHeaders x = ExtraHeaders fresh))
      | Panic => Panic
      | NoFuel => NoFuel
      end
  end.

(** [stripObjectSignatures] of a commit. *)
Definition EncodeWithoutSignature (x : Commit) : outcome commit_error bytes :=
  b ← matchesSource x;
  match src x with
  | Some o => if b : bool then mret (stripHeaderSignatures (eo_Data o)) else mret (encode x false)
  | None => mret (encode x false)
  end.

(** The order of commits: by committer time, author time and hash. *)
Definition Less (x y : Commit) : bool :=
  let cw := sig_When (Committer x) in let cw' := sig_When (Committer y) in
  let aw := sig_When (Author x) in let aw' := sig_When (Author y) in
  Before cw cw'
  || (TimeEqual cw cw'
      && (Before aw aw'
          || (TimeEqual aw aw' && match Compare (Hash x) (Bytes (Hash y)) with Lt => true | _ => false end))).

Definition example_commit : Commit :=
  {| Hash := ZeroHash; Author := {| sig_Name := bs "A U Thor"; sig_Email := bs "a@b"; sig_When := {| Unix := 1; Offset := 7200 |} |};
     Committer := {| sig_Name := bs ""; sig_Email := bs ""; sig_When := {| Unix := 0; Offset := 0 |} |};
     c_Signature := bs "--- SIG" ++ [10; 10] ++ bs "abc" ++ [10]; SignatureSHA256 := []; Message := bs "subject" ++ [10];
     TreeHash := ZeroHash; ParentHashes := [ZeroHash; ZeroHash]; Encoding := bs "latin 1";
     ExtraHeaders := [{| Key := bs "mergetag"; hdr_Value := bs "object x" ++ [10; 10] ++ bs "tag y" |}; {| Key := bs "empty"; hdr_Value := [] |}];
     src := None |}.

Example example_roundtrip :
  match Decode {| eo_Type := CommitObject; eo_Hash := ZeroHash; eo_Data := Encode example_commit |} with
  | Ok y => bool_decide (y = {| Hash := Hash y; Author := Author example_commit; Committer := Committer example_commit;
     c_Signature := c_Signature example_commit; SignatureSHA256 := []; Message := Message example_commit;
     TreeHash := ZeroHash; ParentHashes := [ZeroHash; ZeroHash]; Encoding := bs "latin 1"; ExtraHeaders := ExtraHeaders example_commit;
     src := src y |})
  | _ => false
  end = true.
Proof. vm_compute. reflexivity. Qed.

(** ** Termination *)

Definition weight (s : commitScanner) : nat :=
  length (s_r s) + match pending s with Some (line, _) => length line | None => 0 end.

Definition rank (st : commitState) : nat :=
  match st with
  | scanTree => 4 | scanParents => 3 | scanAuthor => 2 | scanCommitter => 1
  | scanPgpCont | scanPgp256Cont | scanExtraCont => 1
  | scanHeaders | scanMessage => 0
  end.

(** The header whose continuation is read is there. *)
Definition scanner_ok (st : commitState) (s : commitScanner) : Prop := st = scanExtraCont -> is_Some (extra s).

Lemma readLine_weight s line eof s' :
  readLine s = (line, eof, s') ->
  (length line + weight s' = weight s)%nat /\ pending s' = None /\ extra s' = extra s.
Proof.
  unfold readLine, weight. destruct (pending s) as [[l e]|].
  - intros [= <- <- <-]. cbn. split; [lia|done].
  - destruct (ReadBytes 10 (s_r s)) as [[l e] rest] eqn:Hr. intros [= <- <- <-]. cbn.
    apply ReadBytes_content in Hr as [-> _]. rewrite length_app. split; [lia|done].
Qed.

(** A turn of the machine either takes a byte or moves to a state that looks
    at the line it has put back. *)
Definition good_step (st : commitState) (s : commitScanner) (m : step_result) : Prop :=
  match m with
  | Ok (Some st', s') => (5 * weight s' + rank st' < 5 * weight s + rank st)%nat /\ scanner_ok st' s'
  | Ok (None, _) | Err _ => True
  | _ => False
  end.

Lemma scanMessage_loop_ok fuel s :
  (length (s_r s) + match pending s with Some _ => 1 | None => 0 end < fuel)%nat ->
  exists s', scanMessage_loop fuel s = Ok (None, s').
Proof.
  revert s. induction fuel as [|f IH]; intros s Hf; [lia|]. cbn [scanMessage_loop].
  unfold readLine. destruct (pending s) as [[l e]|] eqn:Hp.
  - destruct e; [by eexists|]. apply IH. cbn. lia.
  - destruct (ReadBytes 10 (s_r s)) as [[l e] rest] eqn:Hr. apply ReadBytes_content in Hr as (Hc & _ & Hl).
    destruct e; [by eexists|]. apply IH. cbn. rewrite Hc, length_app in Hf.
    destruct l; [by specialize (Hl eq_refl)|]. simpl in Hf. lia.
Qed.

Lemma next_good st s eof st' s' :
  (5 * weight s' + rank st' < 5 * weight s + rank st)%nat -> scanner_ok st' s' -> good_step st s (next eof st' s').
Proof. intros Hw Hok. by destruct eof. Qed.

Lemma pushBack_weight s line eof : pending s = None -> weight (pushBack s line eof) = (length line + weight s)%nat.
Proof. intros Hp. unfold weight. rewrite Hp. cbn. lia. Qed.

Lemma parse_good st s {X} (m : outcome commit_error X) (f : X -> step_result) :
  returns m -> (forall x, m = Ok x -> good_step st s (f x)) -> good_step st s (m ≫= f).
Proof. destruct m; cbn; try done. intros _ Hf. by apply Hf. Qed.

Lemma parseObjectIDHex_returns data : returns (parseObjectIDHex data).
Proof. unfold parseObjectIDHex. destruct (_ && _); [done|]. destruct (FromHex data) as [h []]; done. Qed.

Lemma Signature_returns data a : returns (E := commit_error) (Signature.Decode data a).
Proof. by destruct (Decode_ok (E := commit_error) data a) as [t ->]. Qed.

Lemma step_good st s : scanner_ok st s -> good_step st s (step st s).
Proof.
  intros Hok. destruct (readLine s) as [[line eof] s1] eqn:Hl. pose proof Hl as Hline.
  apply readLine_weight in Hl as (Hw & Hp & Hx).
  destruct st; cbn [step]; unfold do_scanTree, do_scanParents, do_scanAuthor, do_scanCommitter, do_scanHeaders,
    continuationCont, do_scanExtraCont; rewrite ?Hline.
  1-5: destruct (Z.eqb_spec (len line) 0) as [H0|H0]; [done|]; cbn [orb]; unfold len in H0;
    destruct (isBlankLine line) eqn:Hb; [first [done|cbn; split; [lia|done]]|]; destruct (splitHeader line) as [key data].
  - destruct (negb _); [done|]. apply parse_good; [apply parseObjectIDHex_returns|]. intros h _.
    apply next_good; [cbn; unfold weight in *; cbn; lia|done].
  - destruct (bool_decide _).
    + apply parse_good; [apply parseObjectIDHex_returns|]. intros h _. apply next_good; [unfold weight in *; cbn; lia|done].
    + cbn [good_step mret outcome_ret]. rewrite pushBack_weight by done. split; [cbn; lia|done].
  - destruct (bool_decide _).
    + apply parse_good; [apply Signature_returns|]. intros h _. apply next_good; [unfold weight in *; cbn; lia|done].
    + cbn [good_step mret outcome_ret]. rewrite pushBack_weight by done. split; [cbn; lia|done].
  - destruct (bool_decide _).
    + apply parse_good; [apply Signature_returns|]. intros h _. apply next_good; [unfold weight in *; cbn; lia|done].
    + cbn [good_step mret outcome_ret]. rewrite pushBack_weight by done. split; [cbn; lia|done].
  - repeat (case_match; [apply next_good; [unfold weight in *; try destruct (sawEncoding s1); cbn; lia|done]|]).
    destruct (parseExtraHeader line) as [h []]; apply next_good; try done; try (by eexists); unfold weight in *; cbn; lia.
  - destruct (HasPrefix line (bs " ")) eqn:Hs.
    + apply HasPrefix_spec in Hs as [q ->]. apply next_good; [unfold weight in *; cbn in *; lia|done].
    + cbn [good_step mret outcome_ret]. destruct (len line >? 0); [rewrite pushBack_weight by done|]; split; cbn; done || lia.
  - destruct (HasPrefix line (bs " ")) eqn:Hs.
    + apply HasPrefix_spec in Hs as [q ->]. apply next_good; [unfold weight in *; cbn in *; lia|done].
    + cbn [good_step mret outcome_ret]. destruct (len line >? 0); [rewrite pushBack_weight by done|]; split; cbn; done || lia.
  - rewrite Hx. destruct (Hok eq_refl) as [h Hh]. unfold finaliseExtra. cbn [extra set_extra]. rewrite Hx, Hh.
    destruct (HasPrefix line (bs " ")) eqn:Hs.
    + apply HasPrefix_spec in Hs as [q ->]. destruct eof; [done|]. split; [unfold weight in *; cbn in *; lia|by eexists].
    + cbn [mbind outcome_bind mret outcome_ret good_step].
      destruct (len line >? 0); [rewrite pushBack_weight by done|]; split; unfold weight in *; cbn in *; done || lia.
  - unfold do_scanMessage. destruct (scanMessage_loop_ok (S (S (length (s_r s)))) s) as [s' ->]; [|done].
    destruct (pending s); lia.
Qed.

Lemma scan_returns fuel st s : scanner_ok st s -> (5 * weight s + rank st < fuel)%nat -> returns (scan fuel st s).
Proof.
  revert st s. induction fuel as [|f IH]; intros st s Hok Hf; [lia|]. cbn [scan].
  pose proof (step_good st s Hok) as Hg. destruct (step st s) as [[[st'|] s']|e| |]; cbn; try done.
  destruct Hg as [Hw Hok']. apply IH; [done|lia].
Qed.

Lemma Decode_returns o : returns (Decode o).
Proof.
  unfold Decode. destruct (negb _); [done|]. apply returns_bind.
  - apply scan_returns; [done|]. unfold weight, scan_fuel. cbn. lia.
  - intros s _. by destruct (negb _).
Qed.

(** Decoding any object ends, without a panic, in a commit or an error:
    every state of the scanner takes a line or hands it on to a later state,
    and a continuation is only read while there is a header to extend. *)
Theorem commit_Decode_total o : returns (Decode o).
Proof. exact (Decode_returns o). Qed.

(** ** Runs of the machine *)

Inductive runs : commitState -> commitScanner -> commitScanner -> Prop :=
  | runs_end st s s' : step st s = Ok (None, s') -> runs st s s'
  | runs_step st s st' s' s'' : step st s = Ok (Some st', s') -> runs st' s' s'' -> runs st s s''.

Lemma runs_scan st s s' fuel : runs st s s' -> scan fuel st s <> NoFuel -> scan fuel st s = Ok s'.
Proof.
  intros Hr. revert fuel. induction Hr as [st s s' Hs|st s st' s' s'' Hs Hr IH]; intros [|f] Hn; try done; cbn in *.
  - by rewrite Hs.
  - rewrite Hs in *. cbn in *. by apply IH.
Qed.

(** A line put back reads like a line not yet read. *)
Lemma step_pending st s l b :
  st <> scanMessage -> pending s = None -> s_r s = l ++ 10 :: b -> 10 ∉ l ->
  step st (set_reader s b (Some (l ++ [10], false))) = step st s.
Proof.
  intros Hst Hp Hr Hl.
  assert (readLine (set_reader s b (Some (l ++ [10], false))) = readLine s) as H.
  { unfold readLine. cbn. by rewrite Hp, Hr, ReadBytes_app. }
  destruct st; try done; cbn [step]; unfold do_scanTree, do_scanParents, do_scanAuthor, do_scanCommitter, do_scanHeaders,
    continuationCont, do_scanExtraCont; by rewrite H.
Qed.

(** *** Canonical states: in the header block, between two lines *)
Definition at_line (text : bytes) (x : Commit) (enc : bool) (h : option ExtraHeader) : commitScanner :=
  {| s_r := text; s_c := x; msgbuf := []; pending := None; sawTree := true; sawEncoding := enc; extra := h |}.

(** A text that goes on with a whole line that is not a continuation. *)
Definition new_line (text : bytes) : Prop := exists l b, text = l ++ 10 :: b /\ 10 ∉ l /\ head l <> Some 32.

Lemma readLine_at l b x enc h : 10 ∉ l -> readLine (at_line (l ++ 10 :: b) x enc h) = (l ++ [10], false, at_line b x enc h).
Proof. intros Hl. unfold readLine. cbn. by rewrite ReadBytes_app. Qed.

Lemma not_blank l : l <> [] -> isBlankLine (l ++ [10]) = false.
Proof. intros Hl. apply bool_decide_eq_false_2. intros H. by apply (app_inj_tail l [] 10 10) in H as [-> _]. Qed.

Lemma len_line l : (len (l ++ [10]) =? 0) = false.
Proof. ztest (len (l ++ [10]) =? 0) false. done. Qed.

Lemma splitHeader_line k v : 10 ∉ k -> 10 ∉ v -> 32 ∉ k -> splitHeader (k ++ 32 :: v ++ [10]) = (k, v).
Proof.
  intros Hk Hv Hs. unfold splitHeader. rewrite app_comm_cons, app_assoc, TrimRight_snoc.
  rewrite TrimRight_id by (apply last_not_elem; set_solver). by rewrite cut_at_app.
Qed.

(** A line of a key and a value, read in a state that looks for the key. *)
Lemma keyed_line k v b x enc h :
  10 ∉ k -> 10 ∉ v -> readLine (at_line (k ++ 32 :: v ++ 10 :: b) x enc h) = (k ++ 32 :: v ++ [10], false, at_line b x enc h).
Proof.
  intros Hk Hv. pose proof (readLine_at (k ++ 32 :: v) b x enc h ltac:(set_solver)) as H.
  rewrite <-!app_assoc in H. exact H.
Qed.

Lemma parse_hash h : oid_ok h -> parseObjectIDHex (oid_String h) = Ok h.
Proof.
  intros Hh. unfold parseObjectIDHex, oid_String. rewrite hex_encode_len, Bytes_len by apply Hh.
  pose proof (FromHex_String h Hh) as HF. unfold oid_String in HF. rewrite HF.
  by destruct (Size_cases h) as [[-> _]|[-> _]].
Qed.

Lemma hex_no_newline h : oid_ok h -> 10 ∉ oid_String h.
Proof.
  intros Hh. unfold oid_String. pose proof (Bytes_ok h (oid_bytes _ Hh)) as Hb. induction Hb as [|y l Hy Hl IH]; cbn; [set_solver|].
  unfold hex_digit, is_byte in *. pose proof (Z.mod_pos_bound y 16). pose proof (Z.div_pos y 16).
  rewrite !not_elem_of_cons. split_and!; [..|done]; zdestruct; lia.
Qed.

(** Facts about the characters of a literal. *)
#[local] Ltac lit := apply (bool_decide_unpack _); vm_compute; exact I.

Lemma runs_tree h b x s' :
  oid_ok h -> runs scanParents (at_line b (set_TreeHash x h) false None) s' ->
  runs scanTree {| s_r := bs "tree " ++ oid_String h ++ 10 :: b; s_c := x; msgbuf := []; pending := None; sawTree := false;
    sawEncoding := false; extra := None |} s'.
Proof.
  intros Hh Hr. eapply runs_step; [|exact Hr]. cbn [step]. unfold do_scanTree, readLine. cbn [pending s_r].
  assert (10 ∉ oid_String h) as Hn by (by apply hex_no_newline). assert (10 ∉ bs "tree") as Hk by lit.
  change (bs "tree ") with (bs "tree" ++ [32]). rewrite <-app_assoc, (app_assoc [32]), (app_assoc (bs "tree")).
  rewrite ReadBytes_app by (cbn [app]; set_solver). rewrite len_line, not_blank by done. cbn [orb].
  rewrite <-app_assoc. cbn [app]. rewrite splitHeader_line by (done || lit).
  rewrite bool_decide_eq_true_2 by done. cbn [negb]. by rewrite parse_hash.
Qed.

Lemma runs_parent h b x s' :
  oid_ok h -> runs scanParents (at_line b (add_parent x h) false None) s' ->
  runs scanParents (at_line (bs "parent " ++ oid_String h ++ 10 :: b) x false None) s'.
Proof.
  intros Hh Hr. eapply runs_step; [|exact Hr]. cbn [step]. unfold do_scanParents.
  assert (10 ∉ oid_String h) as Hn by (by apply hex_no_newline).
  change (bs "parent ") with (bs "parent" ++ [32]). rewrite <-app_assoc. cbn [app].
  rewrite keyed_line by (done || lit). rewrite app_comm_cons, (app_assoc (bs "parent")), len_line, not_blank by done.
  rewrite <-app_assoc. cbn [app]. rewrite splitHeader_line by (done || lit).
  rewrite bool_decide_eq_true_2 by done. by rewrite parse_hash.
Qed.

Lemma runs_parents hs b x s' :
  Forall oid_ok hs -> runs scanParents (at_line b (foldl add_parent x hs) false None) s' ->
  runs scanParents (at_line (concat (map (fun p => bs "parent " ++ oid_String p ++ [10]) hs) ++ b) x false None) s'.
Proof.
  intros Hhs. revert x. induction Hhs as [|h hs Hh Hhs IH]; intros x Hr; [done|]. cbn [map concat].
  rewrite <-!app_assoc. cbn [app]. apply runs_parent; [done|]. by apply IH.
Qed.

(** A person is put back once by the state before. *)
Lemma runs_author a b x s' :
  sig_ok a -> 10 ∉ Signature.Encode a ->
  runs scanCommitter (at_line b (set_Author x (sig_read a)) false None) s' ->
  runs scanParents (at_line (bs "author " ++ Signature.Encode a ++ 10 :: b) x false None) s'.
Proof.
  intros Ha Hn Hr. set (text := bs "author " ++ Signature.Encode a ++ 10 :: b).
  assert (text = (bs "author " ++ Signature.Encode a) ++ 10 :: b) as Htext by (by rewrite <-app_assoc).
  assert (10 ∉ bs "author " ++ Signature.Encode a) as Hno by (rewrite elem_of_app; intros [H|H]; [revert H; lit|done]).
  change (bs "author ") with (bs "author" ++ [32]) in *.
  eapply runs_step.
  - cbn [step]. unfold do_scanParents. rewrite Htext, readLine_at by done. rewrite len_line, not_blank by done.
    rewrite <-!app_assoc. cbn [app]. rewrite splitHeader_line by (done || lit).
    rewrite bool_decide_eq_false_2 by done. reflexivity.
  - assert (bs "author" ++ 32 :: Signature.Encode a ++ [10] = ((bs "author" ++ [32]) ++ Signature.Encode a) ++ [10]) as ->
      by (by rewrite <-!app_assoc). eapply runs_step; [|exact Hr].
    change (pushBack (at_line b x false None)) with (fun l e => set_reader (at_line text x false None) b (Some (l, e))).
    cbn beta. rewrite step_pending by done. cbn [step]. unfold do_scanAuthor. rewrite Htext, readLine_at by done.
    rewrite len_line, not_blank by done. rewrite <-!app_assoc. cbn [app]. rewrite splitHeader_line by (done || lit).
    rewrite bool_decide_eq_true_2 by done. by rewrite Decode_Encode.
Qed.

Lemma runs_committer a b x s' :
  sig_ok a -> 10 ∉ Signature.Encode a ->
  runs scanHeaders (at_line b (set_Committer x (sig_read a)) false None) s' ->
  runs scanCommitter (at_line (bs "committer " ++ Signature.Encode a ++ 10 :: b) x false None) s'.
Proof.
  intros Ha Hn Hr. eapply runs_step; [|exact Hr]. cbn [step]. unfold do_scanCommitter.
  change (bs "committer ") with (bs "committer" ++ [32]). rewrite <-app_assoc. cbn [app].
  rewrite keyed_line by (done || lit). rewrite app_comm_cons, (app_assoc (bs "committer")), len_line, not_blank by done.
  rewrite <-app_assoc. cbn [app]. rewrite splitHeader_line by (done || lit).
  rewrite bool_decide_eq_true_2 by done. by rewrite Decode_Encode.
Qed.

(** *** Header lines *)

Lemma runs_pending l b x enc h s' :
  10 ∉ l -> runs scanHeaders (at_line (l ++ 10 :: b) x enc h) s' ->
  runs scanHeaders (pushBack (at_line b x enc h) (l ++ [10]) false) s'.
Proof.
  intros Hl Hr. pose proof (step_pending scanHeaders (at_line (l ++ 10 :: b) x enc h) l b ltac:(done) eq_refl eq_refl Hl) as Hs.
  change (set_reader (at_line (l ++ 10 :: b) x enc h) b (Some (l ++ [10], false)))
    with (pushBack (at_line b x enc h) (l ++ [10]) false) in Hs.
  inversion Hr as [? ? ? H1|? ? ? ? ? H1 H2]; subst; [by constructor; rewrite Hs|].
  eapply runs_step; [by rewrite Hs|done].
Qed.

Lemma is_continuation l : HasPrefix (32 :: l) (bs " ") = true.
Proof. apply HasPrefix_spec. by exists l. Qed.

Lemma not_continuation l : head l <> Some 32 -> HasPrefix (l ++ [10]) (bs " ") = false.
Proof.
  intros H. apply not_true_iff_false. intros [q Hq]%HasPrefix_spec. 
  destruct l as [|y l]; cbn in Hq; [done|]. injection Hq as Hy _. apply H. by rewrite Hy.
Qed.

Definition cont_text (ls : list bytes) : bytes := concat (map (fun l => 32 :: l ++ [10]) ls).
Definition lines_text (ls : list bytes) : bytes := concat (map (fun l => l ++ [10]) ls).

Lemma cont_text_cons l ls b : cont_text (l :: ls) ++ b = 32 :: l ++ 10 :: cont_text ls ++ b.
Proof. unfold cont_text. cbn [map concat app]. by rewrite <-!app_assoc. Qed.

Lemma join_fold l ls b : join_with [10; 32] (l :: ls) ++ 10 :: b = l ++ 10 :: cont_text ls ++ b.
Proof.
  revert l. induction ls as [|l' ls IH]; intros l; [done|]. rewrite join_with_cons by done. rewrite <-!app_assoc. cbn [app].
  rewrite IH, cont_text_cons. done.
Qed.

Lemma lines_Join l ls : lines_text (l :: ls) = Join (l :: ls) 10 ++ [10].
Proof.
  revert l. induction ls as [|l' ls IH]; intros l; [by unfold lines_text; cbn; rewrite app_nil_r|].
  rewrite Join_cons by done. unfold lines_text in *. cbn [map concat] in *. rewrite IH. by rewrite <-!app_assoc.
Qed.

Lemma cont_line l b x enc h : 10 ∉ l ->
  readLine (at_line (32 :: l ++ 10 :: b) x enc h) = (32 :: l ++ [10], false, at_line b x enc h).
Proof. intros Hl. apply (readLine_at (32 :: l)). rewrite elem_of_cons. naive_solver lia. Qed.

Lemma runs_cont (add : Commit -> bytes -> Commit) st ls b x enc s' :
  step st = continuationCont add st -> (forall x p q, add (add x p) q = add x (p ++ q)) -> (forall x, add x [] = x) ->
  Forall (fun l => 10 ∉ l) ls -> new_line b -> runs scanHeaders (at_line b (add x (lines_text ls)) enc None) s' ->
  runs st (at_line (cont_text ls ++ b) x enc None) s'.
Proof.
  intros Hst Hadd Hnil Hls (l & b' & -> & Hl & Hh). revert x. induction Hls as [|l' ls Hl' Hls IH]; intros x Hr.
  - cbn in Hr. rewrite Hnil in Hr. eapply runs_step; [|by apply runs_pending in Hr].
    rewrite Hst. unfold continuationCont. cbn [cont_text map concat app]. rewrite readLine_at by done.
    rewrite not_continuation by done. pose proof (len_line l) as H0. rewrite Z.gtb_ltb.
    by ztest (0 <? len (l ++ [10])) true.
  - rewrite cont_text_cons.
    eapply runs_step.
    + rewrite Hst. unfold continuationCont. rewrite cont_line by done. rewrite is_continuation. reflexivity.
    + cbn [drop]. apply (IH (add x (l' ++ [10]))). by rewrite Hadd.
Qed.

Lemma runs_extra_cont k ls b x enc v s' :
  Forall (fun l => 10 ∉ l) ls -> new_line b ->
  runs scanHeaders (at_line b (add_extra x {| Key := k; hdr_Value := TrimRight (v ++ lines_text ls) 10 |}) enc None) s' ->
  runs scanExtraCont (at_line (cont_text ls ++ b) x enc (Some {| Key := k; hdr_Value := v |})) s'.
Proof.
  intros Hls (l & b' & -> & Hl & Hh). revert v. induction Hls as [|l' ls Hl' Hls IH]; intros v Hr.
  - cbn [lines_text map concat] in Hr. rewrite app_nil_r in Hr. eapply runs_step; [|by apply runs_pending in Hr].
    cbn [step]. unfold do_scanExtraCont. cbn [cont_text map concat app]. rewrite readLine_at by done.
    rewrite not_continuation by done. rewrite Z.gtb_ltb. ztest (0 <? len (l ++ [10])) true. reflexivity.
  - rewrite cont_text_cons.
    eapply runs_step.
    + cbn [step]. unfold do_scanExtraCont. rewrite cont_line by done. rewrite is_continuation. reflexivity.
    + cbn [drop]. apply (IH (v ++ l' ++ [10])). unfold lines_text in *. cbn [map concat] in Hr. by rewrite <-app_assoc.
Qed.

(** The lines of a value. *)
Lemma Split_head v : exists l ls, Split v 10 = l :: ls /\ Forall (fun p => 10 ∉ p) (l :: ls) /\ Join (l :: ls) 10 = v.
Proof.
  pose proof (Split_no_sep v 10) as H. pose proof (Join_Split v 10) as HJ. pose proof (Split_not_nil v 10).
  destruct (Split v 10) as [|l ls]; [done|]. by exists l, ls.
Qed.

Lemma runs_encoding v b x s' :
  10 ∉ v -> runs scanHeaders (at_line b (set_Encoding x v) true None) s' ->
  runs scanHeaders (at_line (headerencoding ++ bs " " ++ v ++ 10 :: b) x false None) s'.
Proof.
  intros Hv Hr. eapply runs_step; [|exact Hr]. cbn [step]. unfold do_scanHeaders. change (bs " ") with [32]. cbn [app].
  rewrite keyed_line by (done || lit). rewrite app_comm_cons, (app_assoc headerencoding), len_line, not_blank by done.
  rewrite <-app_assoc. cbn [app]. rewrite splitHeader_line by (done || lit). reflexivity.
Qed.

Lemma runs_sig key add st t b x enc s' :
  step st = continuationCont add st -> (forall x p q, add (add x p) q = add x (p ++ q)) -> (forall x, add x [] = x) ->
  10 ∉ key -> 32 ∉ key -> key <> [] ->
  (forall l b x enc, 10 ∉ l -> step scanHeaders (at_line (key ++ 32 :: l ++ 10 :: b) x enc None)
     = Ok (Some st, at_line b (add x (l ++ [10])) enc None)) ->
  new_line b -> runs scanHeaders (at_line b (add x (t ++ [10])) enc None) s' ->
  runs scanHeaders (at_line (key ++ bs " " ++ fold_lines (t ++ [10]) ++ 10 :: b) x enc None) s'.
Proof.
  intros Hst Hadd Hnil Hk1 Hk2 Hk3 Hstep Hb Hr. unfold fold_lines. rewrite TrimSuffix_app.
  destruct (Split_head t) as (l & ls & -> & [Hl Hls]%Forall_cons & HJ). rewrite join_fold.
  change (bs " ") with [32]. cbn [app]. eapply runs_step; [by apply Hstep|].
  apply (runs_cont add); try done. rewrite Hadd. unfold lines_text.
  change ((l ++ [10]) ++ concat (map (fun l0 => l0 ++ [10]) ls)) with (lines_text (l :: ls)). by rewrite lines_Join, HJ.
Qed.

Record header_ok (h : ExtraHeader) : Prop := {
  ho_key : Key h <> [];
  ho_line : 10 ∉ Key h;
  ho_word : 32 ∉ Key h;
  ho_extra : isStandardHeader (Key h) = false;
  ho_value : last (hdr_Value h) <> Some 10;
}.

Lemma not_standard k :
  isStandardHeader k = false -> dropped_header k = false /\ k <> headerencoding /\ k <> headerpgp /\ k <> headerpgp256.
Proof.
  unfold isStandardHeader, dropped_header. rewrite !bool_decide_eq_false, !not_elem_of_cons. naive_solver.
Qed.

Lemma TrimSuffix_none s c : last s <> Some c -> TrimSuffix s [c] = s.
Proof.
  intros H. unfold TrimSuffix. destruct (HasSuffix s [c]) eqn:Hs; [|done]. apply HasSuffix_spec in Hs as [q ->].
  by rewrite last_snoc in H.
Qed.

Lemma runs_extra h b x enc s' :
  header_ok h -> new_line b -> runs scanHeaders (at_line b (add_extra x h) enc None) s' ->
  runs scanHeaders (at_line (header_Format h ++ 10 :: b) x enc None) s'.
Proof.
  intros [Hk Hl Hw He Hv] Hb Hr. destruct h as [k v]. cbn [Key hdr_Value] in *. unfold header_Format. cbn [Key hdr_Value].
  apply not_standard in He as (He1 & He2 & He3 & He4).
  destruct (Z.ltb_spec 0 (len v)) as [Hpos|Hzero]; rewrite Z.gtb_ltb.
  - ztest (0 <? len v) true. unfold fold_lines. rewrite TrimSuffix_none by done.
    destruct (Split_head v) as (l & ls & -> & [Hl0 Hls]%Forall_cons & HJ). rewrite <-!app_assoc, join_fold.
    change (bs " ") with [32]. cbn [app]. eapply runs_step.
    + cbn [step]. unfold do_scanHeaders. rewrite keyed_line by done.
      rewrite app_comm_cons, (app_assoc k), len_line, not_blank by (by destruct k). rewrite <-app_assoc. cbn [app].
      rewrite splitHeader_line, He1 by done. rewrite !bool_decide_eq_false_2 by done.
      unfold parseExtraHeader. rewrite cut_at_app by done. reflexivity.
    + rewrite TrimRight_id by (by apply last_not_elem). apply runs_extra_cont; [done|done|].
      unfold lines_text. change ((l ++ [10]) ++ concat (map (fun l0 => l0 ++ [10]) ls)) with (lines_text (l :: ls)).
      rewrite lines_Join, HJ, TrimRight_snoc, TrimRight_id by done. done.
  - ztest (0 <? len v) false. assert (v = []) as -> by (apply len_zero_nil; len_lia). rewrite app_nil_r.
    eapply runs_step; [|exact Hr]. cbn [step]. unfold do_scanHeaders. rewrite readLine_at by done.
    rewrite len_line, not_blank by done. unfold splitHeader, parseExtraHeader.
    rewrite TrimRight_snoc, TrimRight_id by (by apply last_not_elem).
    assert (cut_at 32 k = None) as -> by (by apply cut_at_None).
    assert (cut_at 32 (k ++ [10]) = None) as -> by (apply cut_at_None; set_solver).
    rewrite He1. by rewrite !bool_decide_eq_false_2 by done.
Qed.

(** *** The header block *)

Record commit_ok (x : Commit) : Prop := {
  co_tree : oid_ok (TreeHash x);
  co_parents : Forall oid_ok (ParentHashes x);
  co_author : sig_ok (Author x) /\ 10 ∉ sig_Name (Author x) /\ 10 ∉ sig_Email (Author x);
  co_committer : sig_ok (Committer x) /\ 10 ∉ sig_Name (Committer x) /\ 10 ∉ sig_Email (Committer x);
  co_encoding : 10 ∉ Encoding x;
  co_extra : Forall header_ok (ExtraHeaders x);
}.

(** What is read for fields that are not written as they are: no encoding is
    the default one, and a signature ends its last line. *)
Definition encoding_read (e : bytes) : bytes := if bool_decide (e = []) then defaultUtf8CommitMessageEncoding else e.
Definition signature_read (sig : bytes) : bytes := if bool_decide (sig = []) then [] else TrimSuffix sig [10] ++ [10].

Lemma fold_lines_read sig : fold_lines (TrimSuffix sig [10] ++ [10]) = fold_lines sig.
Proof. unfold fold_lines. by rewrite TrimSuffix_app. Qed.

(** The header lines after the committer, in order. *)
Definition header_lines (x : Commit) (includeSig : bool) : list bytes :=
  (if negb (bool_decide (Encoding x = [])) && negb (bool_decide (Encoding x = defaultUtf8CommitMessageEncoding))
   then [headerencoding ++ bs " " ++ Encoding x] else [])
  ++ map header_Format (filter (fun h => isStandardHeader (Key h) = false) (ExtraHeaders x))
  ++ (if negb (bool_decide (c_Signature x = [])) && includeSig then [headerpgp ++ bs " " ++ fold_lines (c_Signature x)] else [])
  ++ (if negb (bool_decide (SignatureSHA256 x = [])) && includeSig
      then [headerpgp256 ++ bs " " ++ fold_lines (SignatureSHA256 x)] else []).

Lemma concat_header hs (tail : bytes) :
  concat (map (cons 10) hs) ++ 10 :: tail = 10 :: lines_text hs ++ tail.
Proof.
  induction hs as [|h hs IH]; [done|]. cbn [map concat app]. rewrite <-app_assoc, IH.
  unfold lines_text. cbn [map concat]. rewrite <-!app_assoc. done.
Qed.

Lemma encode_lines x b :
  encode x b = bs "tree " ++ oid_String (TreeHash x) ++ 10
    :: concat (map (fun p => bs "parent " ++ oid_String p ++ [10]) (ParentHashes x))
    ++ bs "author " ++ Signature.Encode (Author x) ++ 10 :: bs "committer " ++ Signature.Encode (Committer x) ++ 10
    :: lines_text (header_lines x b) ++ 10 :: Message x.
Proof.
  unfold encode. do 2 f_equal. change ([10] ++ concat ?l ++ ?k) with (10 :: concat l ++ k). f_equal. f_equal. do 3 f_equal.
  cbn [app]. f_equal. f_equal. f_equal.
  rewrite <-concat_header. unfold header_lines. rewrite !map_app, !concat_app, <-!app_assoc.
  assert (forall (l : list ExtraHeader), concat (map (fun h => if isStandardHeader (Key h) then [] else [10] ++ header_Format h) l)
    = concat (map (cons 10) (map header_Format (filter (fun h => isStandardHeader (Key h) = false) l)))) as Hf.
  { induction l as [|h l IH]; [done|]. cbn [map concat]. rewrite filter_cons, IH.
    destruct (isStandardHeader (Key h)); [by rewrite decide_False|by rewrite decide_True]. }
  rewrite Hf. repeat (case_match; cbn [map concat app]; rewrite ?app_nil_r, <-?app_assoc); try done.
Qed.

Lemma scanMessage_text fuel s :
  pending s = None -> (length (s_r s) < fuel)%nat ->
  exists s', scanMessage_loop fuel s = Ok (None, s') /\ msgbuf s' = msgbuf s ++ s_r s /\ s_c s' = s_c s /\ sawTree s' = sawTree s.
Proof.
  revert s. induction fuel as [|f IH]; intros s Hp Hf; [lia|]. cbn [scanMessage_loop]. unfold readLine. rewrite Hp.
  destruct (ReadBytes 10 (s_r s)) as [[l e] rest] eqn:Hr. apply ReadBytes_content in Hr as (Hc & He & Hl).
  destruct e.
  - eexists. split; [reflexivity|]. cbn. rewrite Hc, (He eq_refl), app_nil_r. done.
  - destruct (IH {| s_r := rest; s_c := s_c s; msgbuf := msgbuf s ++ l; pending := None; sawTree := sawTree s;
        sawEncoding := sawEncoding s; extra := extra s |}) as (s' & Hs & Hm & Hx & Ht).
    + done.
    + cbn. rewrite Hc, length_app in Hf. destruct l; [by specialize (Hl eq_refl)|]. simpl in Hf. lia.
    + exists s'. split; [exact Hs|]. cbn in Hm. rewrite Hm, Hc, <-app_assoc. done.
Qed.

Lemma runs_message m x enc :
  exists s', runs scanHeaders (at_line (10 :: m) x enc None) s' /\ msgbuf s' = m /\ s_c s' = x /\ sawTree s' = true.
Proof.
  destruct (scanMessage_text (S (S (length m))) (at_line m x enc None)) as (s' & Hs & Hm & Hx & Ht); [done|cbn; lia|].
  exists s'. split; [|done]. eapply (runs_step _ _ scanMessage (at_line m x enc None)).
  - cbn [step]. unfold do_scanHeaders. pose proof (readLine_at [] m x enc None) as HL. cbn [app] in HL.
    by rewrite HL by set_solver.
  - by constructor.
Qed.

Lemma new_line_app h b : head h <> Some 32 -> new_line (h ++ 10 :: b).
Proof.
  intros Hh. destruct (cut_at 10 h) as [[l h']|] eqn:Hc.
  - apply cut_at_Some in Hc as [-> Hl]. exists l, (h' ++ 10 :: b). rewrite <-app_assoc. split; [done|]. split; [done|].
    by destruct l.
  - apply cut_at_None in Hc. by exists h, b.
Qed.

Lemma new_line_lines hs m : Forall (fun h => head h <> Some 32) hs -> new_line (lines_text hs ++ 10 :: m).
Proof.
  intros Hhs. destruct Hhs as [|h hs Hh Hhs]; [exists [], m; split; [done|]; split; [set_solver|done]|].
  unfold lines_text. cbn [map concat]. rewrite <-!app_assoc. cbn [app]. by apply new_line_app.
Qed.

Lemma header_Format_head h : header_ok h -> head (header_Format h) <> Some 32.
Proof.
  intros [Hk _ Hw _ _]. unfold header_Format. destruct (Key h) as [|y k]; [done|]. cbn. set_solver.
Qed.

Lemma runs_extras hs b x enc s' :
  Forall header_ok hs -> new_line b -> runs scanHeaders (at_line b (foldl add_extra x hs) enc None) s' ->
  runs scanHeaders (at_line (lines_text (map header_Format hs) ++ b) x enc None) s'.
Proof.
  intros Hhs Hb. revert x. induction Hhs as [|h hs Hh Hhs IH]; intros x Hr; [done|].
  unfold lines_text. cbn [map concat]. rewrite <-!app_assoc. cbn [app]. apply runs_extra; [done| |by apply IH].
  fold (lines_text (map header_Format hs)). clear IH Hr. destruct Hhs as [|h' hs Hh' Hhs]; [done|].
  unfold lines_text. cbn [map concat]. rewrite <-!app_assoc. cbn [app]. apply new_line_app. by apply header_Format_head.
Qed.

Lemma runs_pgp t b x enc s' :
  new_line b -> runs scanHeaders (at_line b (add_sig x (t ++ [10])) enc None) s' ->
  runs scanHeaders (at_line (headerpgp ++ bs " " ++ fold_lines (t ++ [10]) ++ 10 :: b) x enc None) s'.
Proof.
  apply (runs_sig headerpgp add_sig scanPgpCont).
  - done.
  - intros [] p q. unfold add_sig. cbn. by rewrite app_assoc.
  - intros []. unfold add_sig. cbn. by rewrite app_nil_r.
  - lit.
  - lit.
  - done.
  - intros l b' x' enc' Hl. cbn [step]. unfold do_scanHeaders. rewrite keyed_line by (done || lit).
    rewrite app_comm_cons, (app_assoc headerpgp), len_line, not_blank by done.
    rewrite <-app_assoc. cbn [app]. rewrite splitHeader_line by (done || lit). reflexivity.
Qed.

Lemma runs_pgp256 t b x enc s' :
  new_line b -> runs scanHeaders (at_line b (add_sig256 x (t ++ [10])) enc None) s' ->
  runs scanHeaders (at_line (headerpgp256 ++ bs " " ++ fold_lines (t ++ [10]) ++ 10 :: b) x enc None) s'.
Proof.
  apply (runs_sig headerpgp256 add_sig256 scanPgp256Cont).
  - done.
  - intros [] p q. unfold add_sig256. cbn. by rewrite app_assoc.
  - intros []. unfold add_sig256. cbn. by rewrite app_nil_r.
  - lit.
  - lit.
  - done.
  - intros l b' x' enc' Hl. cbn [step]. unfold do_scanHeaders. rewrite keyed_line by (done || lit).
    rewrite app_comm_cons, (app_assoc headerpgp256), len_line, not_blank by done.
    rewrite <-app_assoc. cbn [app]. rewrite splitHeader_line by (done || lit). reflexivity.
Qed.

(** The commit once its header lines are read. *)
Definition read_headers (x0 x : Commit) : Commit :=
  let x1 := set_Encoding x0 (if bool_decide (encoding_read (Encoding x) = defaultUtf8CommitMessageEncoding) then Encoding x0 else Encoding x) in
  let x2 := foldl add_extra x1 (ExtraHeaders x) in
  add_sig256 (add_sig x2 (signature_read (c_Signature x))) (signature_read (SignatureSHA256 x)).

Lemma extras_kept x : commit_ok x -> filter (fun h => isStandardHeader (Key h) = false) (ExtraHeaders x) = ExtraHeaders x.
Proof. intros Hx. apply filter_all. eapply Forall_impl; [apply (co_extra _ Hx)|]. by intros h []. Qed.

(** The lines of a cryptographic signature, none when it is empty. *)
Definition sig_lines (key sig : bytes) : list bytes :=
  if negb (bool_decide (sig = [])) then [key ++ bs " " ++ fold_lines sig] else [].

Lemma sig_lines_head key sig : head key <> Some 32 -> key <> [] -> Forall (fun h => head h <> Some 32) (sig_lines key sig).
Proof. intros Hk Hne. unfold sig_lines. case_match; [|by apply Forall_nil]. rewrite Forall_cons, Forall_nil. by destruct key. Qed.

(** A block of the headers, given what the rest of the machine does: the
    lemmas on one signature, for a signature that may be empty. *)
Lemma runs_sig_lines key (add : Commit -> bytes -> Commit) sig hs m x enc s' :
  (forall t b x, new_line b -> runs scanHeaders (at_line b (add x (t ++ [10])) enc None) s' ->
     runs scanHeaders (at_line (key ++ bs " " ++ fold_lines (t ++ [10]) ++ 10 :: b) x enc None) s') ->
  (forall x, add x [] = x) -> Forall (fun h => head h <> Some 32) hs ->
  runs scanHeaders (at_line (lines_text hs ++ 10 :: m) (add x (signature_read sig)) enc None) s' ->
  runs scanHeaders (at_line (lines_text (sig_lines key sig ++ hs) ++ 10 :: m) x enc None) s'.
Proof.
  intros Hone Hnil Hhs Hr. unfold sig_lines, signature_read in *. case_bool_decide; [by rewrite Hnil in Hr|].
  rewrite <-(fold_lines_read sig). unfold lines_text. cbn [negb map concat app]. rewrite <-!app_assoc. cbn [app].
  apply Hone; [|done]. by apply new_line_lines.
Qed.

Lemma runs_headers x x0 :
  commit_ok x ->
  exists s', runs scanHeaders (at_line (lines_text (header_lines x true) ++ 10 :: Message x) x0 false None) s'
    /\ msgbuf s' = Message x /\ s_c s' = read_headers x0 x /\ sawTree s' = true.
Proof.
  intros Hx. pose proof (extras_kept x Hx) as Hex. unfold header_lines. rewrite Hex, !andb_true_r.
  fold (sig_lines headerpgp (c_Signature x)). fold (sig_lines headerpgp256 (SignatureSHA256 x)).
  set (enc := negb (bool_decide (encoding_read (Encoding x) = defaultUtf8CommitMessageEncoding))).
  destruct (runs_message (Message x) (read_headers x0 x) enc) as (s' & Hr & Hm & Hc & Ht).
  exists s'. split; [|done]. unfold read_headers in Hr.
  assert (Forall (fun h => head h <> Some 32) (sig_lines headerpgp256 (SignatureSHA256 x))) as Hh256 by (by apply sig_lines_head).
  assert (Forall (fun h => head h <> Some 32) (sig_lines headerpgp (c_Signature x) ++ sig_lines headerpgp256 (SignatureSHA256 x)))
    as Hh by (apply Forall_app; split; [by apply sig_lines_head|done]).
  apply (runs_sig_lines headerpgp256 add_sig256 _ []) in Hr;
    [|intros; by apply runs_pgp256|intros []; unfold add_sig256; cbn; by rewrite app_nil_r|by apply Forall_nil].
  rewrite app_nil_r in Hr. apply (runs_sig_lines headerpgp add_sig) in Hr;
    [|intros; by apply runs_pgp|intros []; unfold add_sig; cbn; by rewrite app_nil_r|done].
  apply runs_extras in Hr; [|by apply Hx|by apply new_line_lines].
  rewrite app_assoc in Hr. unfold lines_text in Hr at 1 2. rewrite <-concat_app, <-map_app in Hr.
  pose proof (co_encoding _ Hx) as He2. unfold enc, encoding_read in *.
  destruct (bool_decide_reflect (Encoding x = [])) as [He1|He1]; cbn [negb andb] in *; [by destruct x0|].
  case_bool_decide as He; cbn [negb app] in *.
  - by destruct x0.
  - unfold lines_text. cbn [map concat]. rewrite <-!app_assoc. cbn [app]. by apply runs_encoding.
Qed.

(** What decoding gives for the commit [x]. *)
Definition decoded (x : Commit) (o : EncodedObject) : Commit :=
  {| Hash := eo_Hash o; Author := sig_read (Author x); Committer := sig_read (Committer x); c_Signature := signature_read (c_Signature x);
     SignatureSHA256 := signature_read (SignatureSHA256 x); Message := Message x; TreeHash := TreeHash x; ParentHashes := ParentHashes x;
     Encoding := encoding_read (Encoding x); ExtraHeaders := ExtraHeaders x; src := Some o |}.

Lemma foldl_add_parent x hs :
  foldl add_parent x hs = {| Hash := Hash x; Author := Author x; Committer := Committer x; c_Signature := c_Signature x;
     SignatureSHA256 := SignatureSHA256 x; Message := Message x; TreeHash := TreeHash x; ParentHashes := ParentHashes x ++ hs;
     Encoding := Encoding x; ExtraHeaders := ExtraHeaders x; src := src x |}.
Proof.
  revert x. induction hs as [|h hs IH]; intros x; cbn; [destruct x; cbn; by rewrite app_nil_r|].
  rewrite IH. cbn. by rewrite <-app_assoc.
Qed.

Lemma foldl_add_extra x hs :
  foldl add_extra x hs = {| Hash := Hash x; Author := Author x; Committer := Committer x; c_Signature := c_Signature x;
     SignatureSHA256 := SignatureSHA256 x; Message := Message x; TreeHash := TreeHash x; ParentHashes := ParentHashes x;
     Encoding := Encoding x; ExtraHeaders := ExtraHeaders x ++ hs; src := src x |}.
Proof.
  revert x. induction hs as [|h hs IH]; intros x; cbn; [destruct x; cbn; by rewrite app_nil_r|].
  rewrite IH. cbn. by rewrite <-app_assoc.
Qed.

Lemma read_headers_spec x0 x m :
  set_Message (read_headers x0 x) m =
  {| Hash := Hash x0; Author := Author x0; Committer := Committer x0; c_Signature := c_Signature x0 ++ signature_read (c_Signature x);
     SignatureSHA256 := SignatureSHA256 x0 ++ signature_read (SignatureSHA256 x); Message := m; TreeHash := TreeHash x0;
     ParentHashes := ParentHashes x0;
     Encoding := if bool_decide (encoding_read (Encoding x) = defaultUtf8CommitMessageEncoding) then Encoding x0 else Encoding x;
     ExtraHeaders := ExtraHeaders x0 ++ ExtraHeaders x; src := src x0 |}.
Proof. unfold read_headers. rewrite foldl_add_extra. by destruct x0. Qed.

Lemma read_people x h ps a cm :
  set_Committer (set_Author (foldl add_parent (set_TreeHash x h) ps) a) cm =
  {| Hash := Hash x; Author := a; Committer := cm; c_Signature := c_Signature x; SignatureSHA256 := SignatureSHA256 x;
     Message := Message x; TreeHash := h; ParentHashes := ParentHashes x ++ ps; Encoding := Encoding x;
     ExtraHeaders := ExtraHeaders x; src := src x |}.
Proof. rewrite foldl_add_parent. by destruct x. Qed.

Lemma Encode_no_newline s : sig_ok s -> 10 ∉ sig_Name s -> 10 ∉ sig_Email s -> 10 ∉ Signature.Encode s.
Proof.
  intros Hs Hn He. unfold Signature.Encode. rewrite !elem_of_app. intros [H|[H|[H|[H|H]]]]; [done|revert H; lit|done|revert H; lit|].
  apply time_text_chars in H; [unfold is_decimal in H; lia|apply Hs].
Qed.

Lemma Decode_encode x h :
  commit_ok x -> let o := {| eo_Type := CommitObject; eo_Hash := h; eo_Data := encode x true |} in Decode o = Ok (decoded x o).
Proof.
  intros Hx o.
  set (init := {| Hash := eo_Hash o; Author := zero_signature; Committer := zero_signature; c_Signature := [];
    SignatureSHA256 := []; Message := []; TreeHash := ZeroHash; ParentHashes := [];
    Encoding := defaultUtf8CommitMessageEncoding; ExtraHeaders := []; src := Some o |}).
  set (x0 := set_Committer (set_Author (foldl add_parent (set_TreeHash init (TreeHash x)) (ParentHashes x)) (sig_read (Author x)))
    (sig_read (Committer x))).
  destruct (runs_headers x x0 Hx) as (s' & Hr & Hm & Hc & Ht).
  destruct (co_author _ Hx) as (Ha & Hal1 & Hal2), (co_committer _ Hx) as (Hcm & Hcl1 & Hcl2).
  set (s0 := {| s_r := eo_Data o; s_c := init; msgbuf := []; pending := None; sawTree := false; sawEncoding := false; extra := None |}).
  assert (runs scanTree s0 s') as Hruns.
  { unfold s0. cbn [o eo_Data]. rewrite encode_lines. apply runs_tree; [apply Hx|]. apply runs_parents; [apply Hx|].
    apply runs_author; [done|by apply Encode_no_newline|]. apply runs_committer; [done|by apply Encode_no_newline|]. exact Hr. }
  assert (scan (scan_fuel (eo_Data o)) scanTree s0 = Ok s') as Hscan.
  { apply runs_scan; [done|]. pose proof (scan_returns (scan_fuel (eo_Data o)) scanTree s0) as Hret.
    intros Hn. rewrite Hn in Hret. apply Hret; [done|]. unfold weight, scan_fuel. cbn. lia. }
  unfold Decode. cbn [eo_Type o]. rewrite bool_decide_eq_true_2 by done. cbn [negb].
  fold o. fold init. fold s0. rewrite Hscan. cbn [mbind outcome_bind]. rewrite Ht, Hm, Hc. cbn [negb mret outcome_ret].
  rewrite read_headers_spec. unfold x0. rewrite read_people. unfold decoded, init. cbn. f_equal. f_equal.
  unfold encoding_read. destruct (bool_decide_reflect (Encoding x = [])); [done|]. case_bool_decide as He; [by rewrite He|done].
Qed.

(** ** The payload of a signature *)

Definition strip (text : bytes) (inBody skipping : bool) : bytes :=
  stripHeaderSignatures_loop (S (length text)) text inBody skipping [].

Lemma strip_loop_acc fuel t ib sk w : stripHeaderSignatures_loop fuel t ib sk w = w ++ stripHeaderSignatures_loop fuel t ib sk [].
Proof.
  revert t ib sk w. induction fuel as [|f IH]; intros t ib sk w; cbn [stripHeaderSignatures_loop]; [by rewrite app_nil_r|].
  destruct (ReadBytes 10 t) as [[l e] rest]. case_match. destruct p as [wr ib']. destruct wr, e; cbn [app].
  - done.
  - rewrite IH, (IH _ _ _ l). by rewrite app_assoc.
  - by rewrite app_nil_r.
  - apply IH.
Qed.

Lemma strip_fuel f g t ib sk :
  (length t < f)%nat -> (length t < g)%nat ->
  stripHeaderSignatures_loop f t ib sk [] = stripHeaderSignatures_loop g t ib sk [].
Proof.
  revert g t ib sk. induction f as [|f IH]; intros [|g] t ib sk Hf Hg; try lia. cbn [stripHeaderSignatures_loop].
  destruct (ReadBytes 10 t) as [[l e] rest] eqn:Hr. apply ReadBytes_content in Hr as (Hc & _ & Hl).
  case_match. destruct p as [wr ib']. destruct e; [done|].
  rewrite (strip_loop_acc f), (strip_loop_acc g). f_equal. apply IH; rewrite Hc, length_app in *;
    destruct l; try (by specialize (Hl eq_refl)); cbn in *; lia.
Qed.

(** One line. *)
Lemma strip_line l b ib sk :
  10 ∉ l ->
  strip (l ++ 10 :: b) ib sk =
    let line := l ++ [10] in
    let '(write, ib, sk) :=
      if ib then (true, ib, sk)
      else if sk && HasPrefix line (bs " ") then (false, ib, sk)
      else if isSignatureHeader line then (false, ib, true)
      else if bool_decide (line = [10]) then (true, true, false)
      else (true, ib, false) in
    (if write then line else []) ++ strip b ib sk.
Proof.
  intros Hl. unfold strip at 1. cbn [stripHeaderSignatures_loop]. rewrite ReadBytes_app by done. cbn zeta.
  case_match. destruct p as [wr ib']. rewrite strip_loop_acc. f_equal. apply strip_fuel; rewrite ?length_app; cbn; lia.
Qed.

Lemma strip_body t sk : strip t true sk = t.
Proof.
  remember (length t) as n eqn:Hn. revert t Hn. induction n as [n IH] using lt_wf_ind. intros t ->.
  destruct (cut_at 10 t) as [[l b]|] eqn:Hc.
  - apply cut_at_Some in Hc as [-> Hl]. rewrite strip_line by done. cbn beta iota zeta.
    rewrite (IH (length b)) by (rewrite ?length_app; cbn; done || lia). by rewrite <-app_assoc.
  - unfold strip. cbn [stripHeaderSignatures_loop]. unfold ReadBytes. by rewrite Hc.
Qed.

(** A header that is not a signature is kept with its continuation, one that
    is a signature is dropped with it. *)
Lemma strip_cont ls b sk :
  Forall (fun l => 10 ∉ l) ls -> strip (cont_text ls ++ b) false sk = (if sk then [] else cont_text ls) ++ strip b false sk.
Proof.
  intros Hls. induction Hls as [|l ls Hl Hls IH]; [by destruct sk|].
  rewrite cont_text_cons, app_comm_cons, strip_line by (rewrite elem_of_cons; naive_solver lia). cbn zeta.
  rewrite <-app_comm_cons, is_continuation. destruct sk; cbn [andb].
  - by rewrite IH.
  - assert (isSignatureHeader (32 :: l ++ [10]) = false) as ->.
    { unfold isSignatureHeader. apply orb_false_intro; apply not_true_iff_false; intros [q Hq]%HasPrefix_spec; discriminate. }
    rewrite bool_decide_eq_false_2 by done. by rewrite IH, app_assoc.
Qed.

Lemma strip_header l ls b sk :
  10 ∉ l -> l <> [] -> head l <> Some 32 -> Forall (fun l => 10 ∉ l) ls ->
  strip (l ++ 10 :: cont_text ls ++ b) false sk =
    if isSignatureHeader (l ++ [10]) then strip b false true else (l ++ 10 :: cont_text ls) ++ strip b false false.
Proof.
  intros Hl Hne Hh Hls. rewrite strip_line by done. cbn zeta. rewrite not_continuation, andb_false_r by done.
  destruct (isSignatureHeader (l ++ [10])).
  - rewrite strip_cont by done. done.
  - change (bool_decide (l ++ [10] = [10])) with (isBlankLine (l ++ [10])). rewrite not_blank by done.
    rewrite strip_cont by done. rewrite app_assoc. f_equal. by rewrite <-app_assoc.
Qed.

(** The first line of a header decides. *)
Lemma strip_text h b sk l ls :
  h ++ 10 :: b = l ++ 10 :: cont_text ls ++ b -> 10 ∉ l -> l <> [] -> head l <> Some 32 -> Forall (fun l => 10 ∉ l) ls ->
  strip (h ++ 10 :: b) false sk =
    if isSignatureHeader (l ++ [10]) then strip b false true else h ++ 10 :: strip b false false.
Proof.
  intros Heq Hl Hne Hh Hls. rewrite Heq, strip_header by done. destruct (isSignatureHeader _); [done|].
  assert (h ++ [10] = l ++ 10 :: cont_text ls) as Ht.
  { apply (app_inv_tail b). rewrite <-!app_assoc. exact Heq. }
  rewrite <-Ht, <-app_assoc. done.
Qed.

(** A header as it is written: a first line and continuations. *)
Definition header_text (h : bytes) (sg : bool) : Prop :=
  exists l ls, (forall b, h ++ 10 :: b = l ++ 10 :: cont_text ls ++ b) /\ 10 ∉ l /\ l <> [] /\ head l <> Some 32
    /\ Forall (fun l => 10 ∉ l) ls /\ isSignatureHeader (l ++ [10]) = sg.

Lemma strip_header_text h sg b sk :
  header_text h sg -> strip (h ++ 10 :: b) false sk = if sg then strip b false true else h ++ 10 :: strip b false false.
Proof. intros (l & ls & Heq & Hl & Hne & Hh & Hls & <-). by apply (strip_text h b sk l ls). Qed.

Lemma strip_kept hs b sk :
  Forall (fun h => header_text h false) hs -> hs <> [] -> strip (lines_text hs ++ b) false sk = lines_text hs ++ strip b false false.
Proof.
  intros Hhs. revert sk. induction Hhs as [|h hs Hh Hhs IH]; intros sk Hne; [done|]. unfold lines_text. cbn [map concat].
  rewrite <-!app_assoc. cbn [app]. rewrite (strip_header_text h false) by done. f_equal. f_equal.
  destruct hs as [|h' hs]; [done|]. by apply IH.
Qed.

Lemma strip_end m sk : strip (10 :: m) false sk = 10 :: m.
Proof.
  pose proof (strip_line [] m false sk ltac:(apply not_elem_of_nil)) as H. cbn [app] in H. rewrite H. cbn zeta.
  replace (HasPrefix [10] (bs " ")) with false by done. rewrite andb_false_r.
  replace (isSignatureHeader [10]) with false by done. rewrite bool_decide_eq_true_2 by done. by rewrite strip_body.
Qed.

Lemma line_text l : 10 ∉ l -> l <> [] -> head l <> Some 32 -> header_text l (isSignatureHeader (l ++ [10])).
Proof. intros Hl Hne Hh. exists l, []. by split_and!. Qed.

(** The keyword decides whether a line starts a signature. *)
Lemma isSignatureHeader_keyword k v :
  32 ∉ k -> isSignatureHeader ((k ++ 32 :: v) ++ [10]) = bool_decide (k = headerpgp) || bool_decide (k = headerpgp256).
Proof.
  intros Hs.
  assert (forall p, 32 ∉ p -> HasPrefix ((k ++ 32 :: v) ++ [10]) (p ++ bs " ") = bool_decide (k = p)) as Hp.
  { intros p Hps. apply eq_bool_prop_intro. rewrite bool_decide_spec. rewrite Is_true_true, HasPrefix_spec. split.
    - intros [q Hq]. rewrite <-!app_assoc in Hq. change (bs " ") with [32] in Hq. cbn [app] in Hq.
      assert (Some (k, v ++ [10]) = Some (p, q)) as [= -> _]; [|done].
      by rewrite <-(cut_at_app 32 k) by done; rewrite Hq; apply cut_at_app.
    - intros <-. exists (v ++ [10]). by rewrite <-!app_assoc. }
  unfold isSignatureHeader. by rewrite (Hp headerpgp), (Hp headerpgp256) by lit.
Qed.

(** A keyword with a value, on one line or more. *)
Lemma keyword_text k v l ls :
  10 ∉ k -> 32 ∉ k -> k <> [] -> Forall (fun l => 10 ∉ l) (l :: ls) -> (forall b, v ++ 10 :: b = l ++ 10 :: cont_text ls ++ b) ->
  header_text (k ++ 32 :: v) (bool_decide (k = headerpgp) || bool_decide (k = headerpgp256)).
Proof.
  intros Hk Hs Hne [Hl Hls]%Forall_cons Hv. exists (k ++ 32 :: l), ls. split_and!.
  - intros b. rewrite <-!app_assoc. cbn [app]. by rewrite Hv.
  - set_solver.
  - by destruct k.
  - destruct k; [done|]. cbn. set_solver.
  - done.
  - by apply isSignatureHeader_keyword.
Qed.

Lemma folded_text k v :
  10 ∉ k -> 32 ∉ k -> k <> [] ->
  header_text (k ++ 32 :: fold_lines v) (bool_decide (k = headerpgp) || bool_decide (k = headerpgp256)).
Proof.
  intros Hk Hs Hne. unfold fold_lines. destruct (Split_head (TrimSuffix v [10])) as (l & ls & -> & Hls & _).
  apply (keyword_text k _ l ls); try done. intros b. apply join_fold.
Qed.

Lemma single_text k v :
  10 ∉ k -> 32 ∉ k -> k <> [] -> 10 ∉ v -> header_text (k ++ 32 :: v) (bool_decide (k = headerpgp) || bool_decide (k = headerpgp256)).
Proof. intros Hk Hs Hne Hv. apply (keyword_text k v v []); try done. by rewrite Forall_cons, Forall_nil. Qed.

Lemma plain_text k v :
  bool_decide (10 ∉ k /\ 32 ∉ k /\ k <> [] /\ k <> headerpgp /\ k <> headerpgp256) = true -> 10 ∉ v -> header_text (k ++ 32 :: v) false.
Proof.
  intros (H1 & H2 & H3 & H4 & H5)%bool_decide_eq_true_1 Hv. pose proof (single_text k v H1 H2 H3 Hv) as H.
  by rewrite !bool_decide_eq_false_2 in H by done.
Qed.

Lemma extra_text h : header_ok h -> header_text (header_Format h) false.
Proof.
  intros [Hk Hl Hw He _]. apply not_standard in He as (_ & _ & He1 & He2). unfold header_Format.
  destruct (len (hdr_Value h) >? 0).
  - change (bs " " ++ fold_lines (hdr_Value h)) with (32 :: fold_lines (hdr_Value h)).
    pose proof (folded_text (Key h) (hdr_Value h) Hl Hw Hk) as H. by rewrite !bool_decide_eq_false_2 in H by done.
  - rewrite app_nil_r. assert (isSignatureHeader (Key h ++ [10]) = false) as Hs.
    { unfold isSignatureHeader. apply orb_false_intro; apply not_true_iff_false; intros [q Hq]%HasPrefix_spec;
        (assert (32 ∈ Key h ++ [10]) as Hin by (rewrite Hq, !elem_of_app; left; right; by left)); set_solver. }
    rewrite <-Hs. apply line_text; [done|done|]. destruct (Key h); [done|]. cbn. set_solver.
Qed.

(** The texts that come before the signatures. *)
Lemma plain_texts x :
  commit_ok x ->
  Forall (fun h => header_text h false)
    ((bs "tree" ++ 32 :: oid_String (TreeHash x)) :: map (fun p => bs "parent" ++ 32 :: oid_String p) (ParentHashes x)
     ++ (bs "author" ++ 32 :: Signature.Encode (Author x)) :: (bs "committer" ++ 32 :: Signature.Encode (Committer x))
     :: header_lines x false).
Proof.
  intros Hx. destruct (co_author _ Hx) as (Ha & Hal1 & Hal2), (co_committer _ Hx) as (Hcm & Hcl1 & Hcl2).
  apply Forall_cons. split; [apply plain_text; [reflexivity|]; by apply hex_no_newline, Hx|].
  apply Forall_app. split.
  { pose proof (co_parents _ Hx) as Hp. apply List.Forall_map. eapply Forall_impl; [exact Hp|]. intros p Hpo.
    apply plain_text; [reflexivity|]; by apply hex_no_newline. }
  apply Forall_cons. split; [apply plain_text; [reflexivity|]; by apply Encode_no_newline|].
  apply Forall_cons. split; [apply plain_text; [reflexivity|]; by apply Encode_no_newline|].
  unfold header_lines. rewrite !andb_false_r, !app_nil_r, (extras_kept x Hx). apply Forall_app. split.
  - case_match; [|by apply Forall_nil]. apply Forall_cons. split; [|by apply Forall_nil].
    apply (plain_text headerencoding); [reflexivity|]; by apply Hx.
  - apply List.Forall_map. eapply Forall_impl; [apply Hx|]. apply extra_text.
Qed.

Lemma strip_encode x : commit_ok x -> stripHeaderSignatures (encode x true) = encode x false.
Proof.
  intros Hx.
  set (hs := (bs "tree" ++ 32 :: oid_String (TreeHash x)) :: map (fun p => bs "parent" ++ 32 :: oid_String p) (ParentHashes x)
     ++ (bs "author" ++ 32 :: Signature.Encode (Author x)) :: [bs "committer" ++ 32 :: Signature.Encode (Committer x)]).
  assert (forall b, encode x b = lines_text (hs ++ header_lines x b) ++ 10 :: Message x) as He.
  { intros b. rewrite encode_lines. unfold hs, lines_text. cbn [map concat app]. rewrite <-!app_assoc.
    rewrite !map_app, !concat_app, map_map. cbn [map concat app]. rewrite <-!app_assoc. cbn [app].
    reflexivity. }
  pose proof (plain_texts x Hx) as Hplain. rewrite !He.
  assert (header_lines x true = header_lines x false ++ sig_lines headerpgp (c_Signature x) ++ sig_lines headerpgp256 (SignatureSHA256 x))
    as -> by (unfold header_lines, sig_lines; by rewrite !andb_true_r, !andb_false_r, !app_nil_r, <-!app_assoc).
  assert (forall key sig b sk, key = headerpgp \/ key = headerpgp256 ->
    exists sk', strip (lines_text (sig_lines key sig) ++ b) false sk = strip b false sk') as Hsig.
  { intros key sig b sk Hkey. unfold sig_lines. case_match; [|by exists sk]. unfold lines_text. cbn [map concat].
    rewrite app_nil_r, <-!app_assoc. exists true. change (bs " " ++ fold_lines sig ++ [10] ++ b) with ((32 :: fold_lines sig) ++ 10 :: b).
    rewrite app_assoc. destruct Hkey as [-> | ->]; [apply (strip_header_text _ true), (folded_text headerpgp)|
      apply (strip_header_text _ true), (folded_text headerpgp256)]; done || lit. }
  change (stripHeaderSignatures ?t) with (strip t false false).
  rewrite app_assoc. unfold lines_text at 1. rewrite map_app, concat_app, <-app_assoc. fold (lines_text (hs ++ header_lines x false)).
  rewrite strip_kept; [|by unfold hs; cbn [app]; rewrite <-app_assoc|done]. f_equal.
  rewrite map_app, concat_app, <-app_assoc.
  destruct (Hsig headerpgp (c_Signature x) (lines_text (sig_lines headerpgp256 (SignatureSHA256 x)) ++ 10 :: Message x) false) as [sk1 H1]; [by left|].
  destruct (Hsig headerpgp256 (SignatureSHA256 x) (10 :: Message x) sk1) as [sk2 H2]; [by right|].
  unfold lines_text in H1, H2. rewrite H1, H2. apply strip_end.
Qed.

(** The machine keeps the source and the hash of the commit. *)
Definition origin (x : Commit) : option EncodedObject * ObjectID := (src x, Hash x).

Lemma step_origin st s st' s' : step st s = Ok (st', s') -> origin (s_c s') = origin (s_c s).
Proof.
  assert (forall s line eof s1, readLine s = (line, eof, s1) -> origin (s_c s1) = origin (s_c s)) as Hread.
  { intros s0 line eof s1. unfold readLine. destruct (pending s0) as [[]|]; [by intros [= <- <- <-]|].
    destruct (ReadBytes 10 (s_r s0)) as [[]]. by intros [= <- <- <-]. }
  destruct (readLine s) as [[line eof] s1] eqn:Hl. apply Hread in Hl as Hs1. rewrite <-Hs1.
  destruct st; cbn [step]; unfold do_scanTree, do_scanParents, do_scanAuthor, do_scanCommitter, do_scanHeaders,
    continuationCont, do_scanExtraCont, finaliseExtra, next; rewrite ?Hl.
  9: { intros H. rewrite Hs1. revert H. unfold do_scanMessage. generalize (S (S (length (s_r s)))) as fuel. intros fuel. clear -Hread.
       revert s. induction fuel as [|f IH]; intros s; [done|]. cbn [scanMessage_loop].
       destruct (readLine s) as [[line eof] s1] eqn:Hl. apply Hread in Hl. destruct eof.
       - intros [= _ <-]. exact Hl.
       - intros H. apply IH in H. cbn in H. congruence. }
  all: intros H; repeat (case_match; try discriminate; inv_bind; simplify_eq/=; try done).
Qed.

Lemma scan_origin fuel st s s' : scan fuel st s = Ok s' -> origin (s_c s') = origin (s_c s).
Proof.
  revert st s. induction fuel as [|f IH]; intros st s; [done|]. cbn [scan]. intros ([st' s1] & Hs & H)%bind_Ok_inv.
  apply step_origin in Hs as <-. destruct st'; [by apply (IH _ _ H)|]. by injection H as ->.
Qed.

Lemma Decode_origin o y : Decode o = Ok y -> src y = Some o /\ Hash y = eo_Hash o.
Proof.
  unfold Decode. destruct (negb _); [done|]. intros (s & Hs & H)%bind_Ok_inv. apply scan_origin in Hs. cbn in Hs.
  destruct (negb _); [done|]. injection H as <-. by injection Hs as Hs1 Hs2.
Qed.

Lemma signatureEqual_refl a : signatureEqual a a = true.
Proof. unfold signatureEqual. by rewrite !bool_decide_eq_true_2, Z.eqb_refl. Qed.

(** ** Properties *)

(** C15: decoding inverts encoding.  For any commit whose header can be written
    (identifiers in their format, names without line breaks or stray spaces,
    emails without angle brackets or line breaks, times not before 1970 in zones
    of whole minutes, an encoding without a line break, extra headers with proper keys whose values
    do not end in a line break), the decoder reads back every field from the
    text of [Encode], with continuation lines joined, but for what the text
    does not hold: no encoding comes back as UTF-8, a signature that does not
    end its last line gets the line break, and a time zone less than an hour
    west of Greenwich loses its sign. *)
Theorem commit_roundtrip x h :
  commit_ok x ->
  let o := {| eo_Type := CommitObject; eo_Hash := h; eo_Data := Encode x |} in
  Decode o = Ok {| Hash := h; Author := sig_read (Author x); Committer := sig_read (Committer x);
    c_Signature := signature_read (c_Signature x); SignatureSHA256 := signature_read (SignatureSHA256 x); Message := Message x;
    TreeHash := TreeHash x; ParentHashes := ParentHashes x; Encoding := encoding_read (Encoding x);
    ExtraHeaders := ExtraHeaders x; src := Some o |}.
Proof. intros Hx. exact (Decode_encode x h Hx). Qed.

Lemma ZeroHash_ok : oid_ok ZeroHash.
Proof. constructor; [done|apply (bool_decide_unpack _); vm_compute; exact I|done|done]. Qed.

Lemma example_commit_ok : commit_ok example_commit.
Proof.
  constructor.
  - exact ZeroHash_ok.
  - cbn. by rewrite !Forall_cons, Forall_nil; pose proof ZeroHash_ok.
  - apply (bool_decide_unpack _). vm_compute. exact I.
  - apply (bool_decide_unpack _). vm_compute. exact I.
  - apply (bool_decide_unpack _). vm_compute. exact I.
  - cbn. rewrite !Forall_cons, Forall_nil. split_and!; [..|done];
      constructor; (reflexivity || (apply (bool_decide_unpack _); vm_compute; exact I)).
Qed.

Lemma commit_roundtrip_witness :
  commit_ok example_commit /\
  let o := {| eo_Type := CommitObject; eo_Hash := ZeroHash; eo_Data := Encode example_commit |} in
  Decode o = Ok {| Hash := ZeroHash; Author := sig_read (Author example_commit); Committer := sig_read (Committer example_commit);
    c_Signature := c_Signature example_commit; SignatureSHA256 := []; Message := Message example_commit; TreeHash := ZeroHash;
    ParentHashes := [ZeroHash; ZeroHash]; Encoding := bs "latin 1"; ExtraHeaders := ExtraHeaders example_commit; src := Some o |}.
Proof. split; [exact example_commit_ok|]. exact (commit_roundtrip example_commit ZeroHash example_commit_ok). Defined.

(** The payload a signature is checked against.  For a decoded commit it
    is the text it was decoded from without its signature headers; for a
    commit that [Encode] wrote that is exactly the text the commit had before
    it was signed; and once the message is changed it is the text of the
    changed commit. *)
Theorem EncodeWithoutSignature_correct :
  (forall o y, Decode o = Ok y -> EncodeWithoutSignature y = Ok (stripHeaderSignatures (eo_Data o)))
  /\ (forall x, commit_ok x -> stripHeaderSignatures (Encode x) = encode x false)
  /\ (forall o y m, Decode o = Ok y -> m <> Message y ->
        EncodeWithoutSignature (set_Message y m) = Ok (encode (set_Message y m) false)).
Proof.
  split_and!.
  - intros o y Hy. unfold EncodeWithoutSignature, matchesSource. rewrite (proj1 (Decode_origin o y Hy)), Hy. cbn [mbind outcome_bind mret outcome_ret].
    rewrite !bool_decide_eq_true_2, !signatureEqual_refl by done. done.
  - exact strip_encode.
  - intros o y m Hy Hm. unfold EncodeWithoutSignature, matchesSource. cbn [src set_Message].
    rewrite (proj1 (Decode_origin o y Hy)), Hy. cbn [mbind outcome_bind mret outcome_ret Message set_Message].
    rewrite (bool_decide_eq_false_2 (m = Message y)) by done. by rewrite !andb_false_r.
Qed.
