(* ===== verification/Walk.v ===== *)
(** * Walking the history: [plumbing/object/commit_walker*.go]

    The iterators over the commits reachable from a commit (pre-order,
    post-order, first parents, breadth first, by committer time, and with
    filters), and what they have in common: each is a search with a set of
    seen commits and a collection of pending ones, so each lists the reachable
    commits once. *)
From stdpp Require Import base list numbers option strings gmap sets relations sorting.
From Stdlib Require Import ZArith Lia.
From S2P Require Import Prelude ObjectId Object Storer MemStorage ObjectStore Signature.
From S2P Require Commit.
Import Commit (Commit, commit_error, Hash, ParentHashes, NumParents, Committer, Author).

Open Scope Z_scope.

(** ** Commits in a store *)

(** [GetCommit] over any store of objects. *)
Definition GetCommit {S} `{ObjectStorer S} (h : ObjectID) (s : S) : outcome commit_error Commit * S :=
  match GetEncodedObject CommitObject h s with
  | (Ok o, s) => (Commit.Decode o, s)
  | (Err e, s) => (Err (Commit.ErrStorage e), s)
  | (Panic, s) => (Panic, s)
  | (NoFuel, s) => (NoFuel, s)
  end.

(** What a store of these objects answers. *)
Definition commit_of (m : ObjectMap) (h : ObjectID) : outcome commit_error Commit :=
  match m !! h with
  | Some o => if of_type CommitObject o then Commit.Decode o else Err (Commit.ErrStorage ErrObjectNotFound)
  | None => Err (Commit.ErrStorage ErrObjectNotFound)
  end.

Lemma GetCommit_spec {S} `{LawfulObjects S} h s :
  objs_ok s -> exists s', GetCommit h s = (commit_of (objs s) h, s') /\ objs_ok s' /\ objs s' = objs s.
Proof.
  intros Hs. destruct (law_GetObject s CommitObject h Hs) as (s' & Hg & Hs' & Ho). exists s'. split; [|done].
  unfold GetCommit, commit_of. rewrite Hg. destruct (objs s !! h) as [o|]; [|done]. by destruct (of_type CommitObject o).
Qed.

Lemma commit_of_Hash {S} `{LawfulObjects S} s h c : objs_ok s -> commit_of (objs s) h = Ok c -> Hash c = h.
Proof.
  intros Hs. unfold commit_of. destruct (objs s !! h) as [o|] eqn:Ho; [|done]. destruct (of_type CommitObject o); [|done].
  intros Hd. apply Commit.Decode_origin in Hd as [_ ->]. by apply (objs_keys s h o Hs).
Qed.

(** ** Walks *)

Inductive walk_error :=
  | Eof                          (* io.EOF *)
  | WalkStop                     (* storer.ErrStop *)
  | errIsReachable
  | Failed (e : commit_error).

(** What a callback returns: nil or an error, and the variables it has
    captured. *)
Definition callback (X : Type) : Type := Commit -> X -> option walk_error * X.

(** The loop of the [ForEach]s; the iterator may read the variables of the
    callback. *)
Fixpoint forEachCommit {W X} (next : X -> W -> outcome walk_error Commit * W) (cb : callback X) (fuel : nat) (w : W) (x : X)
    : outcome walk_error unit * (W * X) :=
  match fuel with
  | O => (NoFuel, (w, x))
  | S f =>
      match next x w with
      | (Ok c, w) =>
          match cb c x with
          | (None, x) => forEachCommit next cb f w x
          | (Some WalkStop, x) => (Ok tt, (w, x))
          | (Some e, x) => (Err e, (w, x))
          end
      | (Err Eof, w) => (Ok tt, (w, x))
      | (Err e, w) => (Err e, (w, x))
      | (Panic, w) => (Panic, (w, x))
      | (NoFuel, w) => (NoFuel, (w, x))
      end
  end.

(** The priority queue of the module [gods], outside this repository: what a
    push adds and a pop takes out is in it, and a pop takes out an element that
    no other is strictly newer than. *)
Class CommitHeap (Heap : Type) := {
  heap_elems : Heap -> list Commit;
  heap_empty : Heap;
  heap_push : Commit -> Heap -> Heap;
  heap_pop : Heap -> option (Commit * Heap);
  heap_empty_law : heap_elems heap_empty = [];
  heap_push_law : forall c h, heap_elems (heap_push c h) ≡ₚ c :: heap_elems h;
  heap_pop_law : forall h, match heap_pop h with
                           | None => heap_elems h = []
                           | Some (c, h') => heap_elems h ≡ₚ c :: heap_elems h'
                               /\ Forall (fun x => Before (sig_When (Committer c)) (sig_When (Committer x)) = false) (heap_elems h')
                           end;
}.

Section walk.
(** The commits of the store, see [GetCommit_spec]. *)
Context (GetCommit : ObjectID -> outcome commit_error Commit).

Definition get (h : ObjectID) : outcome walk_error Commit := map_err Failed (GetCommit h).

(** *** Pre-order *)

(** The stack has its top first; a parent iterator is the list of the hashes
    it has not looked up yet. *)
Record commitPreIterator := {
  pre_seenExternal : gset ObjectID;
  pre_seen : gset ObjectID;
  pre_stack : list (list ObjectID);
  pre_start : option Commit;
}.

Definition NewCommitPreorderIter (c : Commit) (seenExternal ignore : gset ObjectID) : commitPreIterator :=
  {| pre_seenExternal := seenExternal; pre_seen := ignore; pre_stack := []; pre_start := Some c |}.

Definition filteredParentIter (c : Commit) (seen : gset ObjectID) : list ObjectID :=
  filter (fun h => h ∉ seen) (ParentHashes c).

Definition pre_with (w : commitPreIterator) (stack : list (list ObjectID)) : commitPreIterator :=
  {| pre_seenExternal := pre_seenExternal w; pre_seen := pre_seen w; pre_stack := stack; pre_start := None |}.

Fixpoint pre_loop (fuel : nat) (w : commitPreIterator) : outcome walk_error Commit * commitPreIterator :=
  match fuel with
  | O => (NoFuel, w)
  | S f =>
      let visit c w :=
        if decide (Hash c ∈ pre_seen w ∪ pre_seenExternal w) then pre_loop f w
        else
          let seen := {[ Hash c ]} ∪ pre_seen w in
          (Ok c, {| pre_seenExternal := pre_seenExternal w; pre_seen := seen;
                    pre_stack := if NumParents c >? 0 then filteredParentIter c seen :: pre_stack w else pre_stack w;
                    pre_start := None |}) in
      match pre_start w with
      | Some c => visit c (pre_with w (pre_stack w))
      | None =>
          match pre_stack w with
          | [] => (Err Eof, w)
          | [] :: stack => pre_loop f (pre_with w stack)
          | (h :: hs) :: stack =>
              match get h with
              | Ok c => visit c (pre_with w (hs :: stack))
              | Err e => (Err e, w)
              | Panic => (Panic, w)
              | NoFuel => (NoFuel, w)
              end
          end
      end
  end.

(** Every turn takes the start, a hash or an iterator. *)
Definition pre_size (w : commitPreIterator) : nat :=
  (if pre_start w then 1 else 0) + sum_list ((fun l => S (length l)) <$> pre_stack w).

Definition pre_Next (w : commitPreIterator) : outcome walk_error Commit * commitPreIterator := pre_loop (S (pre_size w)) w.

(** *** Post-order *)

Record commitPostIterator := { post_stack : list Commit; post_seen : gset ObjectID }.

Definition NewCommitPostorderIter (c : Commit) (ignore : gset ObjectID) : commitPostIterator :=
  {| post_stack := [c]; post_seen := ignore |}.

(** [ForEach] over the parents: those that [keep] accepts are pushed, until
    one is missing. *)
Fixpoint push_parents (keep : Commit -> bool) (hs : list ObjectID) (stack : list Commit)
    : outcome walk_error unit * list Commit :=
  match hs with
  | [] => (Ok tt, stack)
  | h :: hs =>
      match get h with
      | Ok p => push_parents keep hs (if keep p then p :: stack else stack)
      | Err e => (Err e, stack)
      | Panic => (Panic, stack)
      | NoFuel => (NoFuel, stack)
      end
  end.

Fixpoint post_loop (keep : Commit -> Commit -> bool) (stack : list Commit) (seen : gset ObjectID)
    : outcome walk_error Commit * commitPostIterator :=
  match stack with
  | [] => (Err Eof, {| post_stack := []; post_seen := seen |})
  | c :: stack =>
      if decide (Hash c ∈ seen) then post_loop keep stack seen
      else
        let '(r, stack) := push_parents (keep c) (ParentHashes c) stack in
        (_ ← r; Ok c, {| post_stack := stack; post_seen := {[ Hash c ]} ∪ seen |})
  end.

Definition post_Next (w : commitPostIterator) : outcome walk_error Commit * commitPostIterator :=
  post_loop (fun _ _ => true) (post_stack w) (post_seen w).

(** [commitPostIteratorFirstParent]. *)
Definition is_first_parent (c p : Commit) : bool :=
  match ParentHashes c with [] => false | h :: _ => bool_decide (Hash p = h) end.

Definition first_Next (w : commitPostIterator) : outcome walk_error Commit * commitPostIterator :=
  post_loop is_first_parent (post_stack w) (post_seen w).

(** *** Breadth first *)

Record bfsCommitIterator := { bfs_seenExternal : gset ObjectID; bfs_seen : gset ObjectID; bfs_queue : list Commit }.

Definition NewCommitIterBSF (c : Commit) (seenExternal ignore : gset ObjectID) : bfsCommitIterator :=
  {| bfs_seenExternal := seenExternal; bfs_seen := ignore; bfs_queue := [c] |}.

(** [appendHash] for each parent, until one is missing. *)
Fixpoint appendHashes (skip : gset ObjectID) (hs : list ObjectID) (queue : list Commit) : outcome walk_error unit * list Commit :=
  match hs with
  | [] => (Ok tt, queue)
  | h :: hs =>
      if decide (h ∈ skip) then appendHashes skip hs queue
      else match get h with
           | Ok c => appendHashes skip hs (queue ++ [c])
           | Err e => (Err e, queue)
           | Panic => (Panic, queue)
           | NoFuel => (NoFuel, queue)
           end
  end.

Fixpoint bfs_loop (external seen : gset ObjectID) (queue : list Commit) : outcome walk_error Commit * bfsCommitIterator :=
  match queue with
  | [] => (Err Eof, {| bfs_seenExternal := external; bfs_seen := seen; bfs_queue := [] |})
  | c :: queue =>
      if decide (Hash c ∈ seen ∪ external) then bfs_loop external seen queue
      else
        let seen := {[ Hash c ]} ∪ seen in
        let '(r, queue) := appendHashes (seen ∪ external) (ParentHashes c) queue in
        (_ ← r; Ok c, {| bfs_seenExternal := external; bfs_seen := seen; bfs_queue := queue |})
  end.

Definition bfs_Next (w : bfsCommitIterator) : outcome walk_error Commit * bfsCommitIterator :=
  bfs_loop (bfs_seenExternal w) (bfs_seen w) (bfs_queue w).

(** *** By committer time *)

Section heap.
Context {Heap : Type} `{CommitHeap Heap}.

Record commitIteratorByCTime := { ct_seenExternal : gset ObjectID; ct_seen : gset ObjectID; ct_heap : Heap }.

Definition NewCommitIterCTime (c : Commit) (seenExternal ignore : gset ObjectID) : commitIteratorByCTime :=
  {| ct_seenExternal := seenExternal; ct_seen := ignore; ct_heap := heap_push c heap_empty |}.

Fixpoint push_all (skip : gset ObjectID) (hs : list ObjectID) (heap : Heap) : outcome walk_error unit * Heap :=
  match hs with
  | [] => (Ok tt, heap)
  | h :: hs =>
      if decide (h ∈ skip) then push_all skip hs heap
      else match get h with
           | Ok c => push_all skip hs (heap_push c heap)
           | Err e => (Err e, heap)
           | Panic => (Panic, heap)
           | NoFuel => (NoFuel, heap)
           end
  end.

Fixpoint ct_loop (fuel : nat) (w : commitIteratorByCTime) : outcome walk_error Commit * commitIteratorByCTime :=
  match fuel with
  | O => (NoFuel, w)
  | S f =>
      match heap_pop (ct_heap w) with
      | None => (Err Eof, w)
      | Some (c, heap) =>
          if decide (Hash c ∈ ct_seen w ∪ ct_seenExternal w)
          then ct_loop f {| ct_seenExternal := ct_seenExternal w; ct_seen := ct_seen w; ct_heap := heap |}
          else
            let seen := {[ Hash c ]} ∪ ct_seen w in
            let '(r, heap) := push_all (seen ∪ ct_seenExternal w) (ParentHashes c) heap in
            (_ ← r; Ok c, {| ct_seenExternal := ct_seenExternal w; ct_seen := seen; ct_heap := heap |})
      end
  end.

(** Every turn pops a commit. *)
Definition ct_Next (w : commitIteratorByCTime) : outcome walk_error Commit * commitIteratorByCTime :=
  ct_loop (S (length (heap_elems (ct_heap w)))) w.
End heap.

(** *** With filters *)

Record filterCommitIter := { f_visited : gset ObjectID; f_queue : list Commit; f_lastErr : option walk_error }.

Definition NewFilterCommitIter (from : Commit) : filterCommitIter :=
  {| f_visited := ∅; f_queue := [from]; f_lastErr := None |}.

(** [close] with an error. *)
Definition f_close (e : walk_error) : filterCommitIter := {| f_visited := ∅; f_queue := []; f_lastErr := Some e |}.

(** The first commit not visited, and the queue after it. *)
Fixpoint popNewFromQueue (visited : gset ObjectID) (queue : list Commit) : option (Commit * list Commit) :=
  match queue with
  | [] => None
  | c :: queue => if decide (Hash c ∈ visited) then popNewFromQueue visited queue else Some (c, queue)
  end.

(** One turn of the loop of [Next]: the commit visited. *)
Definition filter_visit (isLimit : Commit -> bool) (w : filterCommitIter) : outcome walk_error Commit * filterCommitIter :=
  match popNewFromQueue (f_visited w) (f_queue w) with
  | None => let e := default Eof (f_lastErr w) in (Err e, f_close e)
  | Some (c, queue) =>
      let visited := {[ Hash c ]} ∪ f_visited w in
      if isLimit c then (Ok c, {| f_visited := visited; f_queue := queue; f_lastErr := f_lastErr w |})
      else
        let '(r, queue) := appendHashes visited (ParentHashes c) queue in
        match r with
        | Ok _ => (Ok c, {| f_visited := visited; f_queue := queue; f_lastErr := f_lastErr w |})
        | Err e => (Err e, f_close e)
        | Panic => (Panic, w)
        | NoFuel => (NoFuel, w)
        end
  end.

Fixpoint filter_Next (fuel : nat) (isValid isLimit : Commit -> bool) (w : filterCommitIter)
    : outcome walk_error Commit * filterCommitIter :=
  match fuel with
  | O => (NoFuel, w)
  | S f =>
      match filter_visit isLimit w with
      | (Ok c, w) => if isValid c then (Ok c, w) else filter_Next f isValid isLimit w
      | r => r
      end
  end.

(** *** With limits *)

Record LogLimitOptions := { Since : option Time; Until : option Time; TailHash : ObjectID }.

Definition out_of_limits (o : LogLimitOptions) (c : Commit) : bool :=
  match Since o with Some t => Before (sig_When (Committer c)) t | None => false end
  || match Until o with Some t => After (sig_When (Committer c)) t | None => false end.

(** The commit and whether it comes with [ErrStop]. *)
Fixpoint limit_Next {W} (next : W -> outcome walk_error Commit * W) (fuel : nat) (o : LogLimitOptions) (w : W)
    : outcome walk_error (Commit * bool) * W :=
  match fuel with
  | O => (NoFuel, w)
  | S f =>
      match next w with
      | (Ok c, w) =>
          if out_of_limits o c then limit_Next next f o w
          else (Ok (c, bool_decide (TailHash o = Hash c)), w)
      | (Err e, w) => (Err e, w)
      | (Panic, w) => (Panic, w)
      | (NoFuel, w) => (NoFuel, w)
      end
  end.

Fixpoint limit_ForEach {W X} (next : W -> outcome walk_error Commit * W) (cb : callback X) (fuel : nat) (o : LogLimitOptions)
    (w : W) (x : X) : outcome walk_error unit * (W * X) :=
  match fuel with
  | O => (NoFuel, (w, x))
  | S f =>
      match limit_Next next fuel o w with
      | (Ok (c, stop), w) =>
          match cb c x with
          | (Some WalkStop, x) => (Ok tt, (w, x))
          | (r, x) =>
              if stop : bool then (Ok tt, (w, x))
              else match r with
                   | Some e => (Err e, (w, x))
                   | None => limit_ForEach next cb f o w x
                   end
          end
      | (Err Eof, w) => (Ok tt, (w, x))
      | (Err e, w) => (Err e, (w, x))
      | (Panic, w) => (Panic, (w, x))
      | (NoFuel, w) => (NoFuel, (w, x))
      end
  end.
End walk.

(** ** Listing: what an iterator returns when it is drained *)

Inductive emits {W} (next : W -> outcome walk_error Commit * W) : W -> list Commit -> Prop :=
  | emits_end w w' : next w = (Err Eof, w') -> emits next w []
  | emits_next w c w' l : next w = (Ok c, w') -> emits next w' l -> emits next w (c :: l).

(** Running a callback over a list of commits. *)
Fixpoint fold_cb {X} (cb : callback X) (l : list Commit) (x : X) : outcome walk_error unit * X :=
  match l with
  | [] => (Ok tt, x)
  | c :: l =>
      match cb c x with
      | (None, x) => fold_cb cb l x
      | (Some WalkStop, x) => (Ok tt, x)
      | (Some e, x) => (Err e, x)
      end
  end.

(** [ForEach] is the fold of its callback, whatever the callback does. *)
Lemma forEachCommit_emits {W X} (next : W -> outcome walk_error Commit * W) (cb : callback X) w l fuel x :
  emits next w l -> (length l < fuel)%nat ->
  exists w', forEachCommit (fun _ => next) cb fuel w x = ((fold_cb cb l x).1, (w', (fold_cb cb l x).2)).
Proof.
  intros Hem. revert fuel x. induction Hem as [w w' Hn|w c w' l Hn Hem IH]; intros [|f] x Hf; try (cbn in Hf; lia);
    cbn [forEachCommit fold_cb]; rewrite Hn.
  - by exists w'.
  - destruct (cb c x) as [[e|] x']; [|apply IH; cbn in Hf; lia]. by destruct e; exists w'.
Qed.

(** *** Searches *)

Section search.
Context (GetCommit : ObjectID -> outcome commit_error Commit).

(** The successors of a commit in a search. *)
Definition succ_of (succ : Commit -> list ObjectID) (h : ObjectID) : list ObjectID :=
  match GetCommit h with Ok c => succ c | _ => [] end.

(** A path that keeps out of [avoid]. *)
Inductive path (succ : Commit -> list ObjectID) (avoid : gset ObjectID) : ObjectID -> ObjectID -> Prop :=
  | path_refl h : h ∉ avoid -> path succ avoid h h
  | path_snoc p a b : path succ avoid p a -> b ∈ succ_of succ a -> b ∉ avoid -> path succ avoid p b.

Lemma path_cons succ avoid p a b : a ∈ succ_of succ p -> p ∉ avoid -> path succ avoid a b -> path succ avoid p b.
Proof.
  intros Hs Hp Hpath. induction Hpath as [h Hh|q a b Hpath IH Hb Hn].
  - eapply path_snoc; [by constructor|done|done].
  - eapply path_snoc; [by apply IH|done|done].
Qed.

Lemma path_mono succ V V' p b : V' ⊆ V -> path succ V p b -> path succ V' p b.
Proof. intros HV. induction 1; [constructor; set_solver|eapply path_snoc; [done|done|set_solver]]. Qed.

Lemma path_ends succ V p h : path succ V p h -> p ∉ V /\ h ∉ V.
Proof. induction 1; naive_solver. Qed.

(** A state of a search: what was seen, what must not be visited, and what is
    pending. *)
Definition found (succ : Commit -> list ObjectID) (avoid : gset ObjectID) (pending : list ObjectID) (h : ObjectID) : Prop :=
  exists p, p ∈ pending /\ path succ avoid p h.

(** Visiting a pending commit. *)
Lemma found_visit succ V k P P' :
  k ∈ P -> k ∉ V -> (forall q, q ∈ P' -> q ∈ P \/ q ∈ succ_of succ k) ->
  (forall q, q ∈ P \/ q ∈ succ_of succ k -> q ∈ P' \/ q ∈ {[ k ]} ∪ V) ->
  forall h, found succ V P h <-> h = k \/ found succ ({[ k ]} ∪ V) P' h.
Proof.
  intros Hk HkV Hsub Hcov h. split.
  - intros (p & Hp & Hpath). induction Hpath as [h Hh|p a b Hpath IH Hb Hn].
    + destruct (Hcov h (or_introl Hp)) as [Hp'|Hin]; [|left; set_solver].
      destruct (decide (h = k)) as [|Hne]; [by left|right]. exists h. split; [done|]. constructor. set_solver.
    + destruct (decide (b = k)) as [|Hne]; [by left|right]. destruct (IH Hp) as [->|(p' & Hp' & Hpath')].
      * destruct (Hcov b (or_intror Hb)) as [Hp'|Hin]; [|set_solver]. exists b. split; [done|]. constructor. set_solver.
      * exists p'. split; [done|]. eapply path_snoc; [done|done|set_solver].
  - intros [->|(p' & Hp' & Hpath)]; [exists k; split; [done|by constructor]|].
    assert (path succ V p' h) as Hpath' by (eapply path_mono; [|done]; set_solver).
    destruct (Hsub p' Hp') as [Hp|Hs]; [by exists p'|]. exists k. split; [done|]. by apply path_cons with p'.
Qed.

(** The commits the store has, closed under parents. *)
Context (H : gset ObjectID).

Definition stored (c : Commit) : Prop := Hash c ∈ H /\ GetCommit (Hash c) = Ok c.

Definition closed : Prop :=
  forall h, h ∈ H -> exists c, GetCommit h = Ok c /\ Hash c = h /\ Forall (fun p => p ∈ H) (ParentHashes c).

(** What the next commit of a search is: a pending one not seen before, whose
    successors become pending unless they are excluded; when there is none,
    nothing is left to visit. *)
Definition next_ok {W} (ok : W -> Prop) (av : W -> gset ObjectID) (pd : W -> list ObjectID) (succ : Commit -> list ObjectID)
    (V : gset ObjectID) (P : list ObjectID) (r : outcome walk_error Commit * W) : Prop :=
  (exists w', r = (Err Eof, w') /\ forall h, h ∈ P -> h ∈ V)
  \/ exists c w', r = (Ok c, w') /\ ok w' /\ stored c /\ Hash c ∈ P /\ Hash c ∉ V /\ av w' = {[ Hash c ]} ∪ V
      /\ (forall q, q ∈ pd w' -> q ∈ P \/ q ∈ succ c)
      /\ (forall q, q ∈ P \/ q ∈ succ c -> q ∈ pd w' \/ q ∈ av w').

Lemma next_ok_skip {W} (ok : W -> Prop) av pd succ V P P' r :
  next_ok ok av pd succ V P r -> P ⊆ P' -> (forall q, q ∈ P' -> q ∈ P \/ q ∈ V) -> next_ok ok av pd succ V P' r.
Proof.
  intros [(w' & -> & He)|(c & w' & -> & Hok & Hc & Hin & Hnew & Hav & Hsub & Hcov)] H1 H2.
  - left. exists w'. split; [done|]. intros h Hh. by destruct (H2 h Hh) as [Hp|]; [apply He|].
  - right. exists c, w'. split_and!; try done; [by apply H1|naive_solver|]. intros q [Hq|Hq]; [|by apply Hcov; right].
    destruct (H2 q Hq) as [Hp|Hv]; [by apply Hcov; left|right; set_solver].
Qed.

Record search {W} (next : W -> outcome walk_error Commit * W) (succ : Commit -> list ObjectID) := {
  s_ok : W -> Prop;
  s_avoid : W -> gset ObjectID;
  s_pending : W -> list ObjectID;
  s_step : forall w, s_ok w -> next_ok s_ok s_avoid s_pending succ (s_avoid w) (s_pending w) (next w);
}.
Arguments s_ok {W next succ}.
Arguments s_avoid {W next succ}.
Arguments s_pending {W next succ}.

(** The listing of a search: every commit found, once each. *)
Record listing (l : list Commit) (reached : ObjectID -> Prop) : Prop := {
  li_once : NoDup (Hash <$> l);
  li_stored : Forall stored l;
  li_all : forall h, h ∈ Hash <$> l <-> reached h;
}.

Lemma listing_length l reached : listing l reached -> (length l <= size H)%nat.
Proof.
  intros [Hn Hs _]. rewrite <-(length_fmap Hash l).
  assert (list_to_set (C := gset ObjectID) (Hash <$> l) ⊆ H) as Hsub.
  { intros h Hh%elem_of_list_to_set. apply list_elem_of_fmap in Hh as (c & -> & Hc). rewrite Forall_forall in Hs. by apply Hs. }
  apply subseteq_size in Hsub. by rewrite size_list_to_set in Hsub.
Qed.

Lemma search_emits {W} next succ (S : search next succ) (w : W) :
  s_ok S w -> exists l, emits next w l /\ listing l (found succ (s_avoid S w) (s_pending S w)).
Proof.
  remember (size (H ∖ s_avoid S w)) as n eqn:Hn. revert w Hn. induction n as [n IH] using lt_wf_ind. intros w -> Hok.
  destruct (s_step _ _ S w Hok) as [(w' & Hnext & Hend)|(c & w' & Hnext & Hok' & Hc & Hin & Hnew & Hav & Hsub & Hcov)].
  - exists []. split; [by eapply emits_end|]. constructor; [constructor|constructor|]. intros h. split; [by intros ?%not_elem_of_nil|].
    intros (p & Hp & Hpath). apply Hend in Hp. by apply path_ends in Hpath as [? _].
  - destruct (IH (size (H ∖ s_avoid S w'))) with w' as (l & Hem & Hl); [|done|done|].
    { apply subset_size. rewrite Hav. split; [set_solver|]. intros Hss. destruct Hc as [Hc _].
      assert (Hash c ∈ H ∖ s_avoid S w) as Hx by set_solver. apply Hss in Hx. set_solver. }
    destruct Hl as [Hl1 Hl2 Hl3]. rewrite Hav in Hl3.
    assert (succ_of succ (Hash c) = succ c) as Hsucc by (unfold succ_of; by rewrite (proj2 Hc)).
    pose proof (found_visit succ (s_avoid S w) (Hash c) (s_pending S w) (s_pending S w') Hin Hnew) as Hv.
    rewrite Hsucc in Hv. rewrite Hav in Hcov. specialize (Hv Hsub Hcov).
    exists (c :: l). split; [by eapply emits_next|]. constructor.
    + rewrite fmap_cons. constructor; [|done]. rewrite Hl3. intros (p & _ & Hpath). apply path_ends in Hpath as [_ Hh]. set_solver.
    + by constructor.
    + intros h. rewrite fmap_cons, elem_of_cons, Hl3. by rewrite Hv.
Qed.

(** ** The iterators are searches *)

Context (Hclosed : closed).

Lemma parent_stored c p : stored c -> p ∈ ParentHashes c -> exists c', GetCommit p = Ok c' /\ Hash c' = p /\ stored c'.
Proof.
  intros [Hc Hg] Hp. destruct (Hclosed _ Hc) as (c0 & Hg0 & _ & Hps). rewrite Hg in Hg0. injection Hg0 as <-.
  rewrite Forall_forall in Hps. pose proof (Hps _ Hp) as HpH. destruct (Hclosed _ HpH) as (c' & Hg' & Hh & _).
  exists c'. split_and!; [done..|]. split; by rewrite Hh.
Qed.

Lemma hash_stored h : h ∈ H -> exists c, GetCommit h = Ok c /\ Hash c = h /\ stored c.
Proof. intros Hh. destruct (Hclosed _ Hh) as (c & Hg & Hc & _). exists c. split_and!; [done..|]. split; by rewrite Hc. Qed.

(** *** Pre-order *)

Definition pre_ok (w : commitPreIterator) : Prop :=
  Forall (Forall (fun h => h ∈ H)) (pre_stack w) /\ forall c, pre_start w = Some c -> stored c.
Definition pre_avoid (w : commitPreIterator) : gset ObjectID := pre_seen w ∪ pre_seenExternal w.
Definition pre_pending (w : commitPreIterator) : list ObjectID :=
  match pre_start w with Some c => [Hash c] | None => [] end ++ concat (pre_stack w).

(** The commit [c], taken from [w0], whose other pending commits are those of
    [w]: it is skipped, or visited. *)
Lemma pre_visit fuel c w w0 :
  stored c -> pre_ok w -> pre_start w = None -> pre_avoid w = pre_avoid w0 ->
  (forall q, q ∈ pre_pending w0 <-> q = Hash c \/ q ∈ concat (pre_stack w)) ->
  next_ok pre_ok pre_avoid pre_pending ParentHashes (pre_avoid w) (pre_pending w) (pre_loop GetCommit fuel w) ->
  next_ok pre_ok pre_avoid pre_pending ParentHashes (pre_avoid w0) (pre_pending w0)
    (if decide (Hash c ∈ pre_seen w ∪ pre_seenExternal w) then pre_loop GetCommit fuel w
     else (Ok c, {| pre_seenExternal := pre_seenExternal w; pre_seen := {[ Hash c ]} ∪ pre_seen w;
                    pre_stack := if NumParents c >? 0 then filteredParentIter c ({[ Hash c ]} ∪ pre_seen w) :: pre_stack w else pre_stack w;
                    pre_start := None |})).
Proof.
  intros Hc [Hst _] Hnone Hav Hpd Hrec. rewrite <-Hav. unfold pre_pending in Hrec at 2. rewrite Hnone in Hrec. cbn [app] in Hrec.
  destruct (decide _) as [Hin|Hnew].
  - eapply next_ok_skip; [exact Hrec|intros q Hq; apply Hpd; by right|]. intros q [->|Hq]%Hpd; [by right|by left].
  - right. eexists c, _. split; [reflexivity|]. split_and!; try done.
    + split; [|done]. cbn. destruct (NumParents c >? 0); [|done]. constructor; [|done]. unfold filteredParentIter.
      apply Forall_forall. intros p [_ Hp]%list_elem_of_filter. by destruct (parent_stored c p Hc Hp) as (c' & _ & <- & [? _]).
    + apply Hpd. by left.
    + unfold pre_avoid. cbn. set_solver.
    + intros q. unfold pre_pending at 1. cbn. rewrite Hpd. destruct (NumParents c >? 0); cbn; [|naive_solver].
      rewrite elem_of_app. unfold filteredParentIter. rewrite list_elem_of_filter. naive_solver.
    + intros q Hq. unfold pre_pending at 1, pre_avoid. cbn. rewrite Hpd in Hq.
      assert (q ∈ ParentHashes c -> NumParents c >? 0 = true) as Hnum.
      { intros Hp. unfold NumParents. destruct (ParentHashes c); [by apply not_elem_of_nil in Hp|]. rewrite len_cons.
        pose proof (len_nonneg l). rewrite Z.gtb_ltb. apply Z.ltb_lt. lia. }
      destruct (decide (q ∈ {[ Hash c ]} ∪ pre_seen w)); [right; set_solver|].
      destruct Hq as [[->|Hq]|Hq]; [right; set_solver|left; destruct (NumParents c >? 0); cbn; set_solver|].
      left. rewrite (Hnum Hq). cbn. rewrite elem_of_app. left. unfold filteredParentIter. by apply list_elem_of_filter.
Qed.

Lemma pre_loop_ok fuel w :
  pre_ok w -> (pre_size w < fuel)%nat ->
  next_ok pre_ok pre_avoid pre_pending ParentHashes (pre_avoid w) (pre_pending w) (pre_loop GetCommit fuel w).
Proof.
  revert w. induction fuel as [|f IH]; intros w Hok Hf; [lia|]. destruct w as [ext seen stack start]. cbn [pre_loop pre_start pre_stack].
  unfold pre_with. cbn [pre_seenExternal pre_seen pre_stack].
  destruct start as [c|].
  - pose proof Hok as [Hst Hs]. unfold pre_size in Hf. cbn in Hf.
    apply (pre_visit f c {| pre_seenExternal := ext; pre_seen := seen; pre_stack := stack; pre_start := None |});
      [by apply Hs|by split|done|done|intros q; unfold pre_pending; cbn; by rewrite elem_of_cons|].
    apply IH; [by split|unfold pre_size; cbn; lia].
  - destruct stack as [|[|h hs] stack].
    + left. eexists. split; [reflexivity|]. intros h. by intros ?%not_elem_of_nil.
    + apply (IH {| pre_seenExternal := ext; pre_seen := seen; pre_stack := stack; pre_start := None |}).
      * destruct Hok as [Hst _]. split; [|done]. by apply Forall_cons in Hst as [_ ?].
      * unfold pre_size in *. cbn in *. lia.
    + destruct Hok as [Hst _]. cbn in Hst. apply Forall_cons in Hst as [[Hh Hhs]%Forall_cons Hst].
      destruct (hash_stored h Hh) as (c & Hg & <- & Hc). unfold get. rewrite Hg. cbn [map_err].
      assert (pre_ok {| pre_seenExternal := ext; pre_seen := seen; pre_stack := hs :: stack; pre_start := None |}) as Hok'
        by (split; [by constructor|done]).
      apply (pre_visit f c {| pre_seenExternal := ext; pre_seen := seen; pre_stack := hs :: stack; pre_start := None |});
        [done|exact Hok'|done|done|intros q; unfold pre_pending; cbn; by rewrite elem_of_cons|].
      apply IH; [exact Hok'|unfold pre_size in *; cbn in *; lia].
Qed.

Definition pre_search : search (pre_Next GetCommit) ParentHashes.
Proof. refine {| s_ok := pre_ok; s_avoid := pre_avoid; s_pending := pre_pending |}. intros w Hok. apply pre_loop_ok; [done|lia]. Defined.
(** *** Post-order, of all parents or the first ones *)

Lemma push_parents_ok keep c hs stack (succ : list ObjectID) :
  stored c -> (forall h, h ∈ hs -> h ∈ ParentHashes c) -> Forall stored stack ->
  (forall p, Hash p ∈ ParentHashes c -> keep p = true <-> Hash p ∈ succ) ->
  exists stack', push_parents GetCommit keep hs stack = (Ok tt, stack') /\ Forall stored stack'
    /\ forall q, q ∈ Hash <$> stack' <-> q ∈ Hash <$> stack \/ (q ∈ hs /\ q ∈ succ).
Proof.
  intros Hc Hhs Hst Hkeep. revert stack Hst. induction hs as [|h hs IH]; intros stack Hst; cbn [push_parents].
  - exists stack. split; [done|]. split; [done|]. intros q. split; [by left|]. intros [|[?%not_elem_of_nil _]]; done.
  - destruct (parent_stored c h Hc) as (p & Hg & <- & Hp); [apply Hhs; by left|]. unfold get. rewrite Hg. cbn [map_err].
    assert (Hash p ∈ ParentHashes c) as Hpc by (apply Hhs; by left). specialize (Hkeep p Hpc) as Hkp.
    destruct (IH ltac:(intros q Hq; apply Hhs; by right) (if keep p then p :: stack else stack)) as (stack' & -> & Hst' & Hq);
      [destruct (keep p); [by constructor|done]|]. exists stack'. split; [done|]. split; [done|]. intros q. rewrite Hq.
    destruct (keep p) eqn:Hkp'; rewrite ?fmap_cons, ?elem_of_cons; [naive_solver|].
    assert (Hash p ∉ succ) by (intros Hs; by apply Hkp in Hs). naive_solver.
Qed.

Definition post_ok (w : commitPostIterator) : Prop := Forall stored (post_stack w).
Definition post_pending (w : commitPostIterator) : list ObjectID := Hash <$> post_stack w.

Lemma post_loop_ok keep succ stack seen :
  (forall c h, h ∈ succ c -> h ∈ ParentHashes c) ->
  (forall c p, Hash p ∈ ParentHashes c -> keep c p = true <-> Hash p ∈ succ c) -> Forall stored stack ->
  next_ok post_ok post_seen post_pending succ seen (Hash <$> stack) (post_loop GetCommit keep stack seen).
Proof.
  intros Hsucc Hkeep. induction stack as [|c stack IH]; intros Hst; cbn [post_loop].
  - left. eexists. split; [reflexivity|]. by intros h ?%not_elem_of_nil.
  - apply Forall_cons in Hst as [Hc Hst]. destruct (decide (Hash c ∈ seen)) as [Hin|Hnew].
    + eapply next_ok_skip; [by apply IH|intros q; rewrite fmap_cons; by right|].
      intros q. rewrite fmap_cons, elem_of_cons. intros [->|]; [by right|by left].
    + destruct (push_parents_ok (keep c) c (ParentHashes c) stack (succ c) Hc) as (stack' & -> & Hst' & Hq); [done|done|by apply Hkeep|].
      right. cbn [mbind outcome_bind]. eexists c, _. split; [reflexivity|]. unfold post_ok, post_pending. cbn [post_stack post_seen].
      split_and!; try done.
      * rewrite fmap_cons. by left.
      * intros q. rewrite Hq, fmap_cons, elem_of_cons. naive_solver.
      * intros q. rewrite Hq, fmap_cons, elem_of_cons. intros [[->|Hq']|Hq']; [right; set_solver|by left; left|].
        left. right. split; [by apply Hsucc|done].
Qed.

Definition first_parent (c : Commit) : list ObjectID := match ParentHashes c with [] => [] | h :: _ => [h] end.

Definition post_search : search (post_Next GetCommit) ParentHashes.
Proof.
  refine {| s_ok := post_ok; s_avoid := post_seen; s_pending := post_pending |}. intros w Hok.
  apply post_loop_ok; [done|by intros c p Hp|done].
Defined.

Definition first_search : search (first_Next GetCommit) first_parent.
Proof.
  refine {| s_ok := post_ok; s_avoid := post_seen; s_pending := post_pending |}. intros w Hok.
  apply post_loop_ok; [intros c h; unfold first_parent; destruct (ParentHashes c); set_solver| |done].
  intros c p Hp. unfold is_first_parent, first_parent. destruct (ParentHashes c) as [|h hs]; [by apply not_elem_of_nil in Hp|].
  rewrite bool_decide_eq_true. cbn. by rewrite list_elem_of_singleton.
Defined.

(** *** Breadth first *)

Lemma appendHashes_ok c skip hs queue :
  stored c -> (forall h, h ∈ hs -> h ∈ ParentHashes c) -> Forall stored queue ->
  exists queue', appendHashes GetCommit skip hs queue = (Ok tt, queue') /\ Forall stored queue'
    /\ forall q, q ∈ Hash <$> queue' <-> q ∈ Hash <$> queue \/ (q ∈ hs /\ q ∉ skip).
Proof.
  intros Hc Hhs. revert queue. induction hs as [|h hs IH]; intros queue Hst; cbn [appendHashes].
  - exists queue. split; [done|]. split; [done|]. intros q. split; [by left|]. intros [|[?%not_elem_of_nil _]]; done.
  - assert (forall h, h ∈ hs -> h ∈ ParentHashes c) as Hhs' by (intros q Hq; apply Hhs; by right).
    destruct (decide (h ∈ skip)) as [Hin|Hnew].
    + destruct (IH Hhs' queue Hst) as (queue' & -> & Hst' & Hq). exists queue'. split; [done|]. split; [done|].
      intros q. rewrite Hq, elem_of_cons. naive_solver.
    + destruct (parent_stored c h Hc) as (p & Hg & <- & Hp); [apply Hhs; by left|]. unfold get. rewrite Hg. cbn [map_err].
      destruct (IH Hhs' (queue ++ [p])) as (queue' & -> & Hst' & Hq); [apply Forall_app; split; [done|by constructor]|].
      exists queue'. split; [done|]. split; [done|]. intros q. rewrite Hq, fmap_app, elem_of_app, elem_of_cons. cbn.
      rewrite list_elem_of_singleton. naive_solver.
Qed.

Definition bfs_ok (w : bfsCommitIterator) : Prop := Forall stored (bfs_queue w).
Definition bfs_avoid (w : bfsCommitIterator) : gset ObjectID := bfs_seen w ∪ bfs_seenExternal w.
Definition bfs_pending (w : bfsCommitIterator) : list ObjectID := Hash <$> bfs_queue w.

Lemma bfs_loop_ok ext seen queue :
  Forall stored queue ->
  next_ok bfs_ok bfs_avoid bfs_pending ParentHashes (seen ∪ ext) (Hash <$> queue) (bfs_loop GetCommit ext seen queue).
Proof.
  induction queue as [|c queue IH]; intros Hst; cbn [bfs_loop].
  - left. eexists. split; [reflexivity|]. by intros h ?%not_elem_of_nil.
  - apply Forall_cons in Hst as [Hc Hst]. destruct (decide (Hash c ∈ seen ∪ ext)) as [Hin|Hnew].
    + eapply next_ok_skip; [by apply IH|intros q; rewrite fmap_cons; by right|].
      intros q. rewrite fmap_cons, elem_of_cons. intros [->|]; [by right|by left].
    + destruct (appendHashes_ok c ({[ Hash c ]} ∪ seen ∪ ext) (ParentHashes c) queue Hc) as (queue' & -> & Hst' & Hq); [done|done|].
      right. cbn [mbind outcome_bind]. eexists c, _. split; [reflexivity|].
      unfold bfs_ok, bfs_pending, bfs_avoid. cbn [bfs_queue bfs_seen bfs_seenExternal].
      split_and!; try done.
      * rewrite fmap_cons. by left.
      * set_solver.
      * intros q. rewrite Hq, fmap_cons, elem_of_cons. naive_solver.
      * intros q. rewrite Hq, fmap_cons, elem_of_cons. intros [[->|Hq']|Hq']; [right; set_solver|by left; left|].
        destruct (decide (q ∈ {[ Hash c ]} ∪ seen ∪ ext)); [by right|left; by right].
Qed.

Definition bfs_search : search (bfs_Next GetCommit) ParentHashes.
Proof. refine {| s_ok := bfs_ok; s_avoid := bfs_avoid; s_pending := bfs_pending |}. intros w Hok. by apply bfs_loop_ok. Defined.

(** *** By committer time *)

Section heap.
Context {Heap : Type} `{CommitHeap Heap}.

Lemma push_all_ok c skip hs heap :
  stored c -> (forall h, h ∈ hs -> h ∈ ParentHashes c) -> Forall stored (heap_elems heap) ->
  exists heap', push_all GetCommit skip hs heap = (Ok tt, heap') /\ Forall stored (heap_elems heap')
    /\ forall q, q ∈ Hash <$> heap_elems heap' <-> q ∈ Hash <$> heap_elems heap \/ (q ∈ hs /\ q ∉ skip).
Proof.
  intros Hc Hhs. revert heap. induction hs as [|h hs IH]; intros heap Hst; cbn [push_all].
  - exists heap. split; [done|]. split; [done|]. intros q. split; [by left|]. intros [|[?%not_elem_of_nil _]]; done.
  - assert (forall h, h ∈ hs -> h ∈ ParentHashes c) as Hhs' by (intros q Hq; apply Hhs; by right).
    destruct (decide (h ∈ skip)) as [Hin|Hnew].
    + destruct (IH Hhs' heap Hst) as (heap' & -> & Hst' & Hq). exists heap'. split; [done|]. split; [done|].
      intros q. rewrite Hq, elem_of_cons. naive_solver.
    + destruct (parent_stored c h Hc) as (p & Hg & <- & Hp); [apply Hhs; by left|]. unfold get. rewrite Hg. cbn [map_err].
      destruct (IH Hhs' (heap_push p heap)) as (heap' & -> & Hst' & Hq); [rewrite heap_push_law; by constructor|].
      exists heap'. split; [done|]. split; [done|]. intros q. rewrite Hq, heap_push_law, fmap_cons, !elem_of_cons. naive_solver.
Qed.

Definition ct_ok (w : commitIteratorByCTime (Heap := Heap)) : Prop := Forall stored (heap_elems (ct_heap w)).
Definition ct_avoid (w : commitIteratorByCTime (Heap := Heap)) : gset ObjectID := ct_seen w ∪ ct_seenExternal w.
Definition ct_pending (w : commitIteratorByCTime (Heap := Heap)) : list ObjectID := Hash <$> heap_elems (ct_heap w).

Lemma ct_loop_ok fuel w :
  ct_ok w -> (length (heap_elems (ct_heap w)) < fuel)%nat ->
  next_ok ct_ok ct_avoid ct_pending ParentHashes (ct_avoid w) (ct_pending w) (ct_loop GetCommit fuel w).
Proof.
  revert w. induction fuel as [|f IH]; intros w Hok Hf; [lia|]. cbn [ct_loop].
  pose proof (heap_pop_law (ct_heap w)) as Hpop. unfold ct_pending at 2. destruct (heap_pop (ct_heap w)) as [[c heap]|].
  - destruct Hpop as [Hperm _]. unfold ct_ok in Hok. rewrite Hperm in Hok. apply Forall_cons in Hok as [Hc Hst].
    rewrite Hperm in Hf. cbn in Hf.
    assert (forall q, q ∈ Hash <$> heap_elems (ct_heap w) <-> q = Hash c \/ q ∈ Hash <$> heap_elems heap) as Hpd
      by (intros q; by rewrite Hperm, fmap_cons, elem_of_cons).
    destruct (decide _) as [Hin|Hnew].
    + eapply next_ok_skip; [apply (IH {| ct_seenExternal := ct_seenExternal w; ct_seen := ct_seen w; ct_heap := heap |}); [done|cbn; lia]| |].
      * intros q Hq. apply Hpd. by right.
      * intros q [->|Hq]%Hpd; [by right|by left].
    + destruct (push_all_ok c ({[ Hash c ]} ∪ ct_seen w ∪ ct_seenExternal w) (ParentHashes c) heap Hc) as (heap' & -> & Hst' & Hq); [done|done|].
      right. cbn [mbind outcome_bind]. eexists c, _. split; [reflexivity|].
      unfold ct_ok, ct_pending, ct_avoid. cbn [ct_heap ct_seen ct_seenExternal].
      split_and!; try done.
      * apply Hpd. by left.
      * set_solver.
      * intros q. rewrite Hq, Hpd. naive_solver.
      * intros q. rewrite Hq, Hpd. intros [[->|Hq']|Hq']; [right; set_solver|by left; left|].
        destruct (decide (q ∈ {[ Hash c ]} ∪ ct_seen w ∪ ct_seenExternal w)); [by right|left; by right].
  - left. eexists. split; [reflexivity|]. rewrite Hpop. by intros h ?%not_elem_of_nil.
Qed.

Definition ct_search : search (ct_Next GetCommit) ParentHashes.
Proof. refine {| s_ok := ct_ok; s_avoid := ct_avoid; s_pending := ct_pending |}. intros w Hok. apply ct_loop_ok; [done|lia]. Defined.
End heap.

(** *** With filters *)

Definition filter_ok (w : filterCommitIter) : Prop := Forall stored (f_queue w) /\ f_lastErr w = None.
Definition filter_pending (w : filterCommitIter) : list ObjectID := Hash <$> f_queue w.
Definition unless (isLimit : Commit -> bool) (c : Commit) : list ObjectID := if isLimit c then [] else ParentHashes c.

Lemma filter_visit_ok isLimit w :
  filter_ok w ->
  next_ok filter_ok f_visited filter_pending (unless isLimit) (f_visited w) (filter_pending w) (filter_visit GetCommit isLimit w).
Proof.
  intros [Hst Herr]. unfold filter_visit. unfold filter_pending at 2. rewrite Herr. cbn [default].
  induction (f_queue w) as [|c queue IH]; cbn [popNewFromQueue].
  - left. eexists. split; [reflexivity|]. by intros h ?%not_elem_of_nil.
  - apply Forall_cons in Hst as [Hc Hst]. destruct (decide (Hash c ∈ f_visited w)) as [Hin|Hnew].
    + eapply next_ok_skip; [by apply IH|intros q; rewrite fmap_cons; by right|].
      intros q. rewrite fmap_cons, elem_of_cons. intros [->|]; [by right|by left].
    + right. destruct (isLimit c) eqn:Hlim.
      * eexists c, _. split; [reflexivity|]. unfold filter_ok, filter_pending, unless. rewrite Hlim. cbn [f_queue f_visited f_lastErr].
        split_and!; try done; rewrite ?fmap_cons.
        -- by left.
        -- intros q Hq. left. by right.
        -- intros q [[->|Hq]%elem_of_cons|Hq%not_elem_of_nil]; [right; set_solver|by left|done].
      * destruct (appendHashes_ok c ({[ Hash c ]} ∪ f_visited w) (ParentHashes c) queue Hc) as (queue' & -> & Hst' & Hq); [done|done|].
        eexists c, _. split; [reflexivity|]. unfold filter_ok, filter_pending, unless. rewrite Hlim. cbn [f_queue f_visited f_lastErr].
        split_and!; try done; rewrite ?fmap_cons.
        -- by left.
        -- intros q. rewrite Hq, elem_of_cons. naive_solver.
        -- intros q. rewrite Hq, elem_of_cons. intros [[->|Hq']|Hq']; [right; set_solver|by left; left|].
           destruct (decide (q ∈ {[ Hash c ]} ∪ f_visited w)); [by right|left; by right].
Qed.

Definition filter_search isLimit : search (filter_visit GetCommit isLimit) (unless isLimit).
Proof. refine {| s_ok := filter_ok; s_avoid := f_visited; s_pending := filter_pending |}. apply filter_visit_ok. Defined.
(** ** All the iterators *)

(** The commits that can be reached from [h], itself included. *)
Definition ancestor (h h' : ObjectID) : Prop := path ParentHashes ∅ h h'.

Lemma found_one succ V h h' : found succ V [h] h' <-> path succ V h h'.
Proof. split; [by intros (p & ->%list_elem_of_singleton & Hp)|]. intros Hp. exists h. split; [by left|done]. Qed.

Section kinds.
Context {Heap : Type} `{CommitHeap Heap}.

Inductive walk_kind := Preorder | Postorder | FirstParent | BreadthFirst | CommitterTime.

(** [ForEach] on a new iterator. *)
Definition walk {X} (k : walk_kind) (c : Commit) (seenExternal ignore : gset ObjectID) (cb : callback X) (fuel : nat) (x : X)
    : outcome walk_error unit * X :=
  match k with
  | Preorder => let '(r, (_, x)) := forEachCommit (fun _ => pre_Next GetCommit) cb fuel (NewCommitPreorderIter c seenExternal ignore) x in (r, x)
  | Postorder => let '(r, (_, x)) := forEachCommit (fun _ => post_Next GetCommit) cb fuel (NewCommitPostorderIter c ignore) x in (r, x)
  | FirstParent => let '(r, (_, x)) := forEachCommit (fun _ => first_Next GetCommit) cb fuel (NewCommitPostorderIter c ignore) x in (r, x)
  | BreadthFirst => let '(r, (_, x)) := forEachCommit (fun _ => bfs_Next GetCommit) cb fuel (NewCommitIterBSF c seenExternal ignore) x in (r, x)
  | CommitterTime => let '(r, (_, x)) := forEachCommit (fun _ => ct_Next GetCommit) cb fuel (NewCommitIterCTime c seenExternal ignore) x in (r, x)
  end.

(** What a kind of walk follows and what it leaves out. *)
Definition kind_succ (k : walk_kind) : Commit -> list ObjectID := match k with FirstParent => first_parent | _ => ParentHashes end.
Definition kind_avoid (k : walk_kind) (seenExternal ignore : gset ObjectID) : gset ObjectID :=
  match k with Postorder | FirstParent => ignore | _ => ignore ∪ seenExternal end.

Lemma listed {W X} next succ (S : search next succ) (w : W) V h :
  s_ok S w -> s_avoid S w = V -> (forall q, q ∈ s_pending S w <-> q = h) ->
  exists l, listing l (path succ V h)
    /\ forall (cb : callback X) fuel x, (size H < fuel)%nat ->
      exists w', forEachCommit (fun _ => next) cb fuel w x = ((fold_cb cb l x).1, (w', (fold_cb cb l x).2)).
Proof.
  intros Hok <- Hp. destruct (search_emits next succ S w Hok) as (l & Hem & Hl). exists l. split.
  - destruct Hl as [H1 H2 H3]. constructor; [done|done|]. intros q. rewrite H3. unfold found. split.
    + intros (p & ->%Hp & Hpath). done.
    + intros Hpath. exists h. by rewrite Hp.
  - intros cb fuel x Hf. apply forEachCommit_emits; [done|]. pose proof (listing_length _ _ Hl). lia.
Qed.

Lemma walk_lists {X} k c seenExternal ignore :
  stored c ->
  exists l, listing l (path (kind_succ k) (kind_avoid k seenExternal ignore) (Hash c))
    /\ forall (cb : callback X) fuel x, (size H < fuel)%nat -> walk k c seenExternal ignore cb fuel x = fold_cb cb l x.
Proof.
  intros Hc. assert (Forall stored [c]) as Hone by (by constructor).
  destruct k; cbn [kind_succ kind_avoid].
  - destruct (listed (X := X) _ _ pre_search (NewCommitPreorderIter c seenExternal ignore) (ignore ∪ seenExternal) (Hash c))
      as (l & Hl & Hcb); [split; [done|by intros ? [= <-]]|done|intros q; apply list_elem_of_singleton|].
    exists l. split; [done|]. intros cb fuel x Hf. cbn [walk]. destruct (Hcb cb fuel x Hf) as (w' & ->). by destruct (fold_cb cb l x).
  - destruct (listed (X := X) _ _ post_search (NewCommitPostorderIter c ignore) ignore (Hash c))
      as (l & Hl & Hcb); [done|done|intros q; apply list_elem_of_singleton|].
    exists l. split; [done|]. intros cb fuel x Hf. cbn [walk]. destruct (Hcb cb fuel x Hf) as (w' & ->). by destruct (fold_cb cb l x).
  - destruct (listed (X := X) _ _ first_search (NewCommitPostorderIter c ignore) ignore (Hash c))
      as (l & Hl & Hcb); [done|done|intros q; apply list_elem_of_singleton|].
    exists l. split; [done|]. intros cb fuel x Hf. cbn [walk]. destruct (Hcb cb fuel x Hf) as (w' & ->). by destruct (fold_cb cb l x).
  - destruct (listed (X := X) _ _ bfs_search (NewCommitIterBSF c seenExternal ignore) (ignore ∪ seenExternal) (Hash c))
      as (l & Hl & Hcb); [done|done|intros q; apply list_elem_of_singleton|].
    exists l. split; [done|]. intros cb fuel x Hf. cbn [walk]. destruct (Hcb cb fuel x Hf) as (w' & ->). by destruct (fold_cb cb l x).
  - destruct (listed (X := X) _ _ ct_search (NewCommitIterCTime c seenExternal ignore) (ignore ∪ seenExternal) (Hash c))
      as (l & Hl & Hcb).
    + unfold ct_search, s_ok, ct_ok. cbn. rewrite heap_push_law, heap_empty_law. done.
    + done.
    + intros q. cbn. unfold ct_pending. cbn. rewrite heap_push_law, heap_empty_law. apply list_elem_of_singleton.
    + exists l. split; [done|]. intros cb fuel x Hf. cbn [walk]. destruct (Hcb cb fuel x Hf) as (w' & ->). by destruct (fold_cb cb l x).
Qed.

(** C14: the iterators over the history list what can be reached: those in
    pre-order, in post-order, breadth first and by committer time along all
    parents, and the one along first parents.  In a store that has every
    parent, for a start commit and any sets of commits to ignore, there is one
    list of the commits that can be reached along the parents the iterator
    follows without touching an ignored one, each of them once, such that [ForEach] with any
    callback, its errors and [ErrStop] included, is the run of the callback
    over this list; the iteration ends within as many turns as there are
    commits. *)
Theorem walk_lists_reachable {X} k c seenExternal ignore :
  stored c ->
  exists l, listing l (path (kind_succ k) (kind_avoid k seenExternal ignore) (Hash c))
    /\ forall (cb : callback X) fuel x, (size H < fuel)%nat -> walk k c seenExternal ignore cb fuel x = fold_cb cb l x.
Proof. exact (walk_lists k c seenExternal ignore). Qed.

(** *** The order by committer time *)

(** [b] was not committed after [a]. *)
Definition not_newer (a b : Commit) : Prop := Before (sig_When (Committer a)) (sig_When (Committer b)) = false.

Lemma not_newer_trans a b c : not_newer a b -> not_newer b c -> not_newer a c.
Proof. unfold not_newer, Before. rewrite !Z.ltb_ge. lia. Qed.

(** No commit is older than its parents. *)
Definition monotone : Prop :=
  forall c p, stored c -> stored p -> Hash p ∈ ParentHashes c -> not_newer c p.

Lemma stored_inj a b : stored a -> stored b -> Hash a = Hash b -> a = b.
Proof. intros [_ Ha] [_ Hb] Heq. rewrite Heq in Ha. congruence. Qed.

(** The commit popped is the newest, and what is left in the heap was there or
    is a parent. *)
Lemma ct_loop_newest fuel w c w' :
  ct_ok w -> ct_loop GetCommit fuel w = (Ok c, w') ->
  c ∈ heap_elems (ct_heap w) /\ ct_ok w'
  /\ forall x, x ∈ heap_elems (ct_heap w') -> (not_newer c x /\ x ∈ heap_elems (ct_heap w)) \/ Hash x ∈ ParentHashes c.
Proof.
  revert w. induction fuel as [|f IH]; intros w Hok; [done|]. cbn [ct_loop].
  pose proof (heap_pop_law (ct_heap w)) as Hpop. destruct (heap_pop (ct_heap w)) as [[c0 heap]|]; [|done].
  destruct Hpop as [Hperm Hmax]. unfold ct_ok in Hok. rewrite Hperm in Hok. apply Forall_cons in Hok as [Hc Hst].
  destruct (decide _) as [Hin|Hnew].
  - intros Hnext. apply IH in Hnext as (Hc' & Hok' & Hx); [|done]. cbn in Hc'. rewrite Hperm. split; [by right|]. split; [done|].
    intros x Hx'. destruct (Hx x Hx') as [[? ?]|]; [left; split; [done|rewrite Hperm; by right]|by right].
  - destruct (push_all_ok c0 ({[ Hash c0 ]} ∪ ct_seen w ∪ ct_seenExternal w) (ParentHashes c0) heap Hc) as (heap' & -> & Hst' & Hq); [done|done|].
    cbn [mbind outcome_bind]. intros [= <- <-]. rewrite Hperm. split; [by left|]. split; [exact Hst'|]. cbn [ct_heap].
    intros x Hx. assert (Hash x ∈ Hash <$> heap_elems heap') as Hh by (apply list_elem_of_fmap; by exists x).
    apply Hq in Hh as [Hh|[Hh _]]; [|by right]. left. apply list_elem_of_fmap in Hh as (y & Hxy & Hy).
    rewrite Forall_forall in Hst, Hst', Hmax. assert (x = y) as -> by (apply stored_inj; auto). split; [by apply Hmax|rewrite Hperm; by right].
Qed.

Lemma ct_emits_bound (t : Commit) w l :
  monotone -> ct_ok w -> Forall (not_newer t) (heap_elems (ct_heap w)) -> emits (ct_Next GetCommit) w l -> Forall (not_newer t) l.
Proof.
  intros Hmono Hok Hb Hem. induction Hem as [w w' Hn|w c w' l Hn Hem IH]; [constructor|].
  unfold ct_Next in Hn. destruct (ct_loop_newest _ _ _ _ Hok Hn) as (Hc & Hok' & Hx).
  rewrite Forall_forall in Hb. assert (stored c) as Hsc by (unfold ct_ok in Hok; rewrite Forall_forall in Hok; by apply Hok).
  constructor; [by apply Hb|]. apply IH; [done|]. apply Forall_forall. intros x Hx'. destruct (Hx x Hx') as [[_ ?]|Hp]; [by apply Hb|].
  unfold ct_ok in Hok'. rewrite Forall_forall in Hok'. apply not_newer_trans with c; [by apply Hb|]. apply Hmono; auto.
Qed.

Lemma ct_emits_sorted w l : monotone -> ct_ok w -> emits (ct_Next GetCommit) w l -> StronglySorted not_newer l.
Proof.
  intros Hmono Hok Hem. induction Hem as [w w' Hn|w c w' l Hn Hem IH]; [constructor|].
  pose proof Hn as Hn'. unfold ct_Next in Hn'. destruct (ct_loop_newest _ _ _ _ Hok Hn') as (Hc & Hok' & Hx).
  assert (stored c) as Hsc by (unfold ct_ok in Hok; rewrite Forall_forall in Hok; by apply Hok).
  constructor; [by apply IH|]. eapply ct_emits_bound; [done|exact Hok'| |exact Hem]. apply Forall_forall. intros x Hx'.
  destruct (Hx x Hx') as [[? _]|Hp]; [done|]. unfold ct_ok in Hok'. rewrite Forall_forall in Hok'. apply Hmono; auto.
Qed.

(** The order of [NewCommitIterCTime].  In a history where no commit is
    older than its parents, the callback sees the commits from the newest to
    the oldest by committer time. *)
Theorem ctime_order {X} c seenExternal ignore :
  monotone -> stored c ->
  exists l, StronglySorted not_newer l /\ listing l (path ParentHashes (ignore ∪ seenExternal) (Hash c))
    /\ forall (cb : callback X) fuel x, (size H < fuel)%nat ->
      walk CommitterTime c seenExternal ignore cb fuel x = fold_cb cb l x.
Proof.
  intros Hmono Hc. set (w := NewCommitIterCTime c seenExternal ignore).
  assert (ct_ok w) as Hok by (unfold ct_ok; cbn; rewrite heap_push_law, heap_empty_law; by constructor).
  destruct (search_emits _ _ ct_search w Hok) as (l & Hem & Hl). exists l. split; [by apply (ct_emits_sorted w)|].
  assert (forall q, q ∈ ct_pending w <-> q = Hash c) as Hp
    by (intros q; unfold ct_pending; cbn; rewrite heap_push_law, heap_empty_law; apply list_elem_of_singleton).
  split.
  - destruct Hl as [H1 H2 H3]. constructor; [done|done|]. intros q. rewrite H3. unfold found. cbn [s_pending s_avoid ct_search].
    split; [by intros (p & ->%Hp & Hpath)|]. intros Hpath. exists (Hash c). by rewrite Hp.
  - intros cb fuel x Hf. cbn [walk]. pose proof (listing_length _ _ Hl).
    destruct (forEachCommit_emits (ct_Next GetCommit) cb w l fuel x Hem ltac:(lia)) as (w' & Hw).
    fold w. rewrite Hw. by destruct (fold_cb cb l x).
Qed.
End kinds.
End search.

(** ** Limits *)

(** The commits within the limits, up to the tail. *)
Fixpoint limited (o : LogLimitOptions) (l : list Commit) : list Commit :=
  match l with
  | [] => []
  | c :: l =>
      if out_of_limits o c then limited o l
      else if bool_decide (TailHash o = Hash c) then [c] else c :: limited o l
  end.

Lemma limit_Next_emits {W} (next : W -> outcome walk_error Commit * W) o w l fuel :
  emits next w l -> (length l < fuel)%nat ->
  (limited o l = [] /\ exists w', limit_Next next fuel o w = (Err Eof, w'))
  \/ exists c w' l', limit_Next next fuel o w = (Ok (c, bool_decide (TailHash o = Hash c)), w') /\ emits next w' l'
       /\ (length l' < length l)%nat
       /\ limited o l = if bool_decide (TailHash o = Hash c) then [c] else c :: limited o l'.
Proof.
  intros Hem. revert fuel. induction Hem as [w w' Hn|w c w' l Hn Hem IH]; intros [|f] Hf; try (cbn in Hf; lia); cbn [limit_Next limited];
    rewrite Hn.
  - left. split; [done|]. by exists w'.
  - destruct (out_of_limits o c).
    + destruct (IH f ltac:(cbn in Hf; lia)) as [(H1 & H2)|(c' & w'' & l' & H1 & H2 & H3 & H4)]; [by left|right].
      exists c', w'', l'. split; [done|]. split; [done|]. split; [cbn; lia|done].
    + right. exists c, w', l. split; [done|]. split; [done|]. split; [cbn; lia|]. done.
Qed.

(** [ForEach] of the limited iterator is the run of the callback over the
    commits within the limits. *)
Lemma limit_ForEach_emits {W X} (next : W -> outcome walk_error Commit * W) (cb : callback X) o w l fuel x :
  emits next w l -> (length l < fuel)%nat ->
  (limit_ForEach next cb fuel o w x).2.2 = (fold_cb cb (limited o l) x).2.
Proof.
  remember (length l) as n eqn:Hn. revert w l x fuel Hn. induction n as [n IH] using lt_wf_ind. intros w l x [|f] -> Hem Hf; [lia|].
  cbn [limit_ForEach]. destruct (limit_Next_emits next o w l (Datatypes.S f) Hem Hf) as [(-> & w' & ->)|(c & w' & l' & -> & Hem' & Hlt & ->)]; [done|].
  destruct (bool_decide (TailHash o = Hash c)); cbn [fold_cb]; destruct (cb c x) as [[e|] x'].
  - by destruct e.
  - done.
  - by destruct e.
  - apply (IH (length l') Hlt w' l'); [done|done|lia].
Qed.

(** ** A queue and a history for the examples *)

(** A priority queue: a list searched for its newest element. *)
Fixpoint newest (l : list Commit) : option (Commit * list Commit) :=
  match l with
  | [] => None
  | c :: l =>
      match newest l with
      | None => Some (c, [])
      | Some (x, l') => if Before (sig_When (Committer c)) (sig_When (Committer x)) then Some (x, c :: l') else Some (c, x :: l')
      end
  end.

#[export] Instance list_heap : CommitHeap (list Commit).
Proof.
  refine {| heap_elems := id; heap_empty := []; heap_push := cons; heap_pop := newest |}; [done|done|].
  intros l. induction l as [|c l IH]; [done|]. cbn [newest]. destruct (newest l) as [[x l']|].
  - destruct IH as [Hp Hm]. unfold id in *. destruct (Before (sig_When (Committer c)) (sig_When (Committer x))) eqn:Hb.
    + split; [by rewrite Hp; constructor|]. constructor; [|done]. unfold Before in *. apply Z.ltb_ge. apply Z.ltb_lt in Hb. lia.
    + split; [by rewrite Hp|]. constructor; [done|]. eapply Forall_impl; [exact Hm|]. intros y Hy. cbn in *. unfold Before in *.
      rewrite Z.ltb_ge in *. lia.
  - unfold id in *. by rewrite IH.
Defined.

(** A store given by the list of its commits. *)
Definition get_of (cs : list Commit) (h : ObjectID) : outcome commit_error Commit :=
  match List.find (fun c => bool_decide (Hash c = h)) cs with
  | Some c => Ok c
  | None => Err (Commit.ErrStorage ErrObjectNotFound)
  end.

Definition history (cs : list Commit) : gset ObjectID := list_to_set (Hash <$> cs).

Definition parents_listed (cs : list Commit) : bool :=
  forallb (fun c => forallb (fun p => bool_decide (p ∈ Hash <$> cs)) (ParentHashes c)) cs.

Lemma get_of_in cs h : h ∈ Hash <$> cs -> exists c, get_of cs h = Ok c /\ Hash c = h /\ c ∈ cs.
Proof.
  intros Hh. unfold get_of. destruct (List.find _ cs) as [c|] eqn:Hf.
  - apply find_some in Hf as [Hin%list_elem_of_In Hc%bool_decide_eq_true_1]. by exists c.
  - apply list_elem_of_fmap in Hh as (c & -> & Hc%list_elem_of_In). pose proof (find_none _ _ Hf _ Hc) as Hn.
    cbn in Hn. by rewrite bool_decide_eq_true_2 in Hn.
Qed.

Lemma history_closed cs : parents_listed cs = true -> closed (get_of cs) (history cs).
Proof.
  unfold parents_listed, closed, history. intros Hall h Hh%elem_of_list_to_set. destruct (get_of_in cs h Hh) as (c & Hg & Hc & Hin).
  exists c. split; [done|]. split; [done|]. rewrite forallb_forall in Hall. apply list_elem_of_In in Hin.
  specialize (Hall c Hin). rewrite forallb_forall in Hall. apply Forall_forall. intros p Hp%list_elem_of_In.
  apply elem_of_list_to_set. specialize (Hall p Hp). by apply bool_decide_eq_true_1 in Hall.
Qed.

Definition ex_id (n : Z) : ObjectID := {| oid_hash := n :: replicate 31 0; oid_format := UnsetObjectFormat |}.

Definition ex_commit (n : Z) (parents : list Z) (time : Z) : Commit :=
  {| Commit.Hash := ex_id n; Commit.Author := zero_signature;
     Commit.Committer := {| sig_Name := []; sig_Email := []; sig_When := {| Unix := time; Offset := 0 |} |};
     Commit.c_Signature := []; Commit.SignatureSHA256 := []; Commit.Message := []; Commit.TreeHash := ZeroHash;
     Commit.ParentHashes := map ex_id parents; Commit.Encoding := []; Commit.ExtraHeaders := []; Commit.src := None |}.

(** Two merges of the same two branches, crossed. *)
Definition criss_cross : list Commit :=
  [ex_commit 1 [] 10; ex_commit 2 [1] 20; ex_commit 3 [1] 30; ex_commit 4 [2; 3] 40; ex_commit 5 [3; 2] 50].

Definition collect : callback (list ObjectID) := fun c x => (None, x ++ [Hash c]).

Example criss_cross_preorder :
  walk (get_of criss_cross) Preorder (ex_commit 4 [2; 3] 40) ∅ ∅ collect 10 [] = (Ok tt, map ex_id [4; 2; 1; 3]).
Proof. vm_compute. reflexivity. Qed.

Example criss_cross_time :
  walk (get_of criss_cross) CommitterTime (ex_commit 5 [3; 2] 50) ∅ ∅ collect 10 [] = (Ok tt, map ex_id [5; 3; 2; 1]).
Proof. vm_compute. reflexivity. Qed.

Lemma walk_lists_reachable_witness :
  exists l, listing (get_of criss_cross) (history criss_cross) l (path (get_of criss_cross) ParentHashes (∅ ∪ ∅) (ex_id 4))
    /\ walk (get_of criss_cross) BreadthFirst (ex_commit 4 [2; 3] 40) ∅ ∅ collect 10 [] = fold_cb collect l [].
Proof.
  destruct (walk_lists_reachable (get_of criss_cross) (history criss_cross)
    ltac:(apply history_closed; vm_compute; reflexivity) (X := list ObjectID) BreadthFirst (ex_commit 4 [2; 3] 40) ∅ ∅)
    as (l & Hl & Hcb).
  - split; [apply (bool_decide_unpack _); vm_compute; exact I|vm_compute; reflexivity].
  - exists l. split; [exact Hl|]. apply Hcb. vm_compute. lia.
Defined.

Lemma stored_listed cs c : stored (get_of cs) (history cs) c -> c ∈ cs.
Proof.
  intros [Hh Hg]. apply elem_of_list_to_set in Hh. destruct (get_of_in cs _ Hh) as (c' & Hg' & _ & Hin). congruence.
Qed.

Definition monotone_listed (cs : list Commit) : bool :=
  forallb (fun c => forallb (fun p => negb (bool_decide (Hash p ∈ ParentHashes c))
    || negb (Before (sig_When (Committer c)) (sig_When (Committer p)))) cs) cs.

Lemma history_monotone cs : monotone_listed cs = true -> monotone (get_of cs) (history cs).
Proof.
  unfold monotone_listed, monotone. intros Hall c p Hc%stored_listed%list_elem_of_In Hp%stored_listed%list_elem_of_In Hin.
  rewrite forallb_forall in Hall. specialize (Hall c Hc). rewrite forallb_forall in Hall. specialize (Hall p Hp). cbn in Hall.
  rewrite bool_decide_eq_true_2 in Hall by done. cbn [negb orb] in Hall. by apply negb_true_iff in Hall.
Qed.

Lemma ctime_order_witness :
  exists l, StronglySorted not_newer l /\ length l = 4%nat
    /\ walk (get_of criss_cross) CommitterTime (ex_commit 5 [3; 2] 50) ∅ ∅ collect 10 [] = fold_cb collect l [].
Proof.
  destruct (ctime_order (get_of criss_cross) (history criss_cross)
    ltac:(apply history_closed; vm_compute; reflexivity) (X := list ObjectID) (ex_commit 5 [3; 2] 50) ∅ ∅)
    as (l & Hs & _ & Hcb).
  - apply history_monotone. vm_compute. reflexivity.
  - split; [apply (bool_decide_unpack _); vm_compute; exact I|vm_compute; reflexivity].
  - exists l. split; [exact Hs|].
    assert (walk (get_of criss_cross) CommitterTime (ex_commit 5 [3; 2] 50) ∅ ∅ collect 10 [] = fold_cb collect l []) as Hw
      by (apply Hcb; vm_compute; lia).
    split; [|exact Hw]. rewrite criss_cross_time in Hw.
    assert (forall l x, fold_cb collect l x = (Ok tt, x ++ (Hash <$> l))) as Hf.
    { clear. intros l. induction l as [|c l IH]; intros x; cbn; [by rewrite app_nil_r|]. by rewrite IH, <-app_assoc. }
    rewrite Hf in Hw. injection Hw as Hw. apply (f_equal length) in Hw. rewrite length_fmap in Hw. by cbn in Hw.
Defined.
