(* ===== verification/MergeBase.v ===== *)
(** * Merge bases: [plumbing/object/merge_base.go]

    The best common ancestors of two commits, the independent commits among
    several, and the ancestry test, over the iterators of [Walk].  [sort.Slice]
    does not say how it orders equal elements, so it is a parameter. *)
From stdpp Require Import base list numbers option strings gmap sets sorting.
From Stdlib Require Import ZArith Lia.
From S2P Require Import Prelude ObjectId Object Storer MemStorage ObjectStore Signature.
From S2P Require Commit.
From S2P Require Import Walk.
Import Commit (Commit, commit_error, Hash, ParentHashes, NumParents, Committer, Author).

Open Scope Z_scope.

Section merge_base.
Context (GetCommit : ObjectID -> outcome commit_error Commit).
(** [sort.Slice] of the standard library. *)
Context (Slice : (Commit -> Commit -> bool) -> list Commit -> list Commit).

Definition sortByCommitDateDesc (commits : list Commit) : list Commit :=
  Slice (fun a b => After (sig_When (Committer a)) (sig_When (Committer b))) commits.

Fixpoint indexOf_from (i : Z) (commits : list Commit) (target : Commit) : Z :=
  match commits with
  | [] => -1
  | c :: commits => if bool_decide (Hash target = Hash c) then i else indexOf_from (i + 1) commits target
  end.

Definition indexOf (commits : list Commit) (target : Commit) : Z := indexOf_from 0 commits target.

Definition remove (commits : list Commit) (toDelete : Commit) : list Commit :=
  filter (fun c => Hash c <> Hash toDelete) commits.

Fixpoint removeDuplicated_loop (seen : gset ObjectID) (commits : list Commit) : list Commit :=
  match commits with
  | [] => []
  | c :: commits =>
      if decide (Hash c ∈ seen) then removeDuplicated_loop seen commits
      else c :: removeDuplicated_loop ({[ Hash c ]} ∪ seen) commits
  end.

Definition removeDuplicated (commits : list Commit) : list Commit := removeDuplicated_loop ∅ commits.

Definition isInIndexCommitFilter (index : gset ObjectID) : Commit -> bool := fun c => bool_decide (Hash c ∈ index).

(** ** Independent commits *)

(** The variables the callback has captured. *)
Record independents := { candidates : list Commit; others : list Commit; seen : gset ObjectID }.

(** The inner loop: it ranges over [others] as it was when it started. *)
Definition drop_reached (fromAncestor : Commit) (others : list Commit) (co : list Commit * list Commit) : list Commit * list Commit :=
  foldl (fun '(cs, os) other =>
    if bool_decide (Hash fromAncestor = Hash other) then (remove cs other, remove os other) else (cs, os)) co others.

Definition visit_ancestor : callback independents := fun fromAncestor x =>
  let '(cs, os) := drop_reached fromAncestor (others x) (candidates x, others x) in
  if len cs =? 1 then (Some WalkStop, {| candidates := cs; others := os; seen := seen x |})
  else (None, {| candidates := cs; others := os; seen := {[ Hash fromAncestor ]} ∪ seen x |}).

Definition isLimit (x : independents) : Commit -> bool := fun c => bool_decide (Hash c ∈ seen x).

(** [fuel] bounds every walk, the first argument the candidates. *)
Fixpoint Independents_loop (rounds fuel : nat) (pos : Z) (cs : list Commit) (sn : gset ObjectID)
    : outcome walk_error (list Commit) :=
  match rounds with
  | O => NoFuel
  | S n =>
      from ← index cs pos;
      let '(r, (_, x)) := forEachCommit (fun x => filter_Next GetCommit fuel (fun _ => true) (isLimit x)) visit_ancestor fuel
                            (NewFilterCommitIter from) {| candidates := cs; others := remove cs from; seen := sn |} in
      _ ← r;
      let nextPos := indexOf (candidates x) from + 1 in
      if nextPos >=? len (candidates x) then mret (candidates x)
      else Independents_loop n fuel nextPos (candidates x) (seen x)
  end.

Definition Independents (fuel : nat) (commits : list Commit) : outcome walk_error (list Commit) :=
  let cs := removeDuplicated (sortByCommitDateDesc commits) in
  if len cs <? 2 then mret cs else Independents_loop (S (length cs)) fuel 0 cs ∅.

(** ** Merge bases *)

Definition add_unless (excluded : Commit) : callback (gset ObjectID) := fun c history =>
  if bool_decide (Hash c = Hash excluded) then (Some errIsReachable, history) else (None, {[ Hash c ]} ∪ history).

Definition ancestorsIndex (fuel : nat) (excluded starting : Commit) : outcome walk_error (gset ObjectID) :=
  if bool_decide (oid_String (Hash excluded) = oid_String (Hash starting)) then Err errIsReachable
  else
    let '(r, (_, startingHistory)) := forEachCommit (fun _ => bfs_Next GetCommit) (add_unless excluded) fuel
                                        (NewCommitIterBSF starting ∅ ∅) ∅ in
    _ ← r; mret startingHistory.

Definition append_commit : callback (list Commit) := fun c res => (None, res ++ [c]).

(** The error of the second walk is dropped. *)
Definition MergeBase (fuel : nat) (c other : Commit) : outcome walk_error (list Commit) :=
  let sorted := sortByCommitDateDesc [c; other] in
  newer ← index sorted 0;
  older ← index sorted 1;
  match ancestorsIndex fuel older newer with
  | Err errIsReachable => mret [older]
  | Err e => Err e
  | Panic => Panic
  | NoFuel => NoFuel
  | Ok newerHistory =>
      let inNewerHistory := isInIndexCommitFilter newerHistory in
      let '(_, (_, res)) := forEachCommit (fun _ => filter_Next GetCommit fuel inNewerHistory inNewerHistory) append_commit fuel
                              (NewFilterCommitIter older) [] in
      Independents fuel res
  end.

Definition is_hash (c : Commit) : callback bool := fun comm found =>
  if bool_decide (Hash comm = Hash c) then (Some WalkStop, true) else (None, found).

(** The answer and the error come together. *)
Definition IsAncestor (fuel : nat) (c other : Commit) : bool * outcome walk_error unit :=
  let '(r, (_, found)) := forEachCommit (fun _ => pre_Next GetCommit) (is_hash c) fuel (NewCommitPreorderIter other ∅ ∅) false in
  (found, r).
End merge_base.

Example criss_cross_bases :
  match MergeBase (get_of criss_cross) insertion_sort 10 (ex_commit 4 [2; 3] 40) (ex_commit 5 [3; 2] 50) with
  | Ok l => Hash <$> l = map ex_id [3; 2]
  | _ => False
  end.
Proof. vm_compute. reflexivity. Qed.

(** When a commit of the older history is missing, the walk that stops there
    is taken for a complete one. *)
Definition missing_parent : list Commit :=
  [ex_commit 1 [] 10; ex_commit 3 [9; 1] 20; ex_commit 4 [1] 30].

Example missing_commit_is_ignored :
  MergeBase (get_of missing_parent) insertion_sort 10 (ex_commit 4 [1] 30) (ex_commit 3 [9; 1] 20) = Ok [].
Proof. vm_compute. reflexivity. Qed.

(** ** Correctness *)

Section correct.
Context (GetCommit : ObjectID -> outcome commit_error Commit) (H : gset ObjectID) (Hclosed : closed GetCommit H).
Context (Slice : (Commit -> Commit -> bool) -> list Commit -> list Commit) (Slice_perm : forall less l, Slice less l ≡ₚ l).

Abbreviation anc := (ancestor GetCommit).
Abbreviation stored := (stored GetCommit H).

Lemma anc_trans a b c : anc a b -> anc b c -> anc a c.
Proof.
  intros Hab Hbc. induction Hbc as [h _|p x y Hp IH Hy Hn]; [done|]. eapply path_snoc; [by apply IH|done|done].
Qed.

Lemma anc_refl a : anc a a.
Proof. constructor. set_solver. Qed.

(** A listing of all the commits reached from [c]. *)
Lemma listing_anc l c : listing GetCommit H l (path GetCommit ParentHashes ∅ (Hash c)) -> forall h, h ∈ Hash <$> l <-> anc (Hash c) h.
Proof. intros [_ _ Hl]. exact Hl. Qed.

(** [IsAncestor] answers whether the commit can be reached from the other
    one, and never fails in a complete history. *)
Theorem IsAncestor_correct fuel c other :
  stored other -> (size H < fuel)%nat ->
  exists b, IsAncestor GetCommit fuel c other = (b, Ok tt) /\ (b = true <-> anc (Hash other) (Hash c)).
Proof.
  intros Ho Hf. destruct (walk_lists (Heap := list Commit) GetCommit H Hclosed (X := bool) Preorder other ∅ ∅ Ho) as (l & Hl & Hw).
  specialize (Hw (is_hash c) fuel false Hf). cbn [walk] in Hw. unfold IsAncestor.
  destruct (forEachCommit _ _ _ _ _) as [r [w found]]. cbn [kind_succ kind_avoid] in Hl. rewrite union_empty_l_L in Hl.
  pose proof (listing_anc l other Hl) as Hanc.
  assert (fold_cb (is_hash c) l false = (Ok tt, bool_decide (Hash c ∈ Hash <$> l))) as Hfold.
  { clear. induction l as [|a l IH]; [by rewrite bool_decide_eq_false_2 by apply not_elem_of_nil|]. cbn [fold_cb]. unfold is_hash at 1.
    destruct (bool_decide_reflect (Hash a = Hash c)) as [Heq|Hne].
    - rewrite bool_decide_eq_true_2; [done|]. rewrite fmap_cons, Heq. by left.
    - rewrite IH. f_equal. apply bool_decide_ext. rewrite fmap_cons, elem_of_cons. naive_solver. }
  rewrite Hfold in Hw. injection Hw as -> ->. eexists. split; [reflexivity|]. rewrite bool_decide_eq_true. apply Hanc.
Qed.

(** ** Independent commits *)

(** No commit is an ancestor of its ancestors: hashes cannot form a cycle. *)
Definition acyclic : Prop := forall a b, anc a b -> anc b a -> a = b.

(** The commits that none of the others can reach. *)
Definition maximal (P : ObjectID -> Prop) (h : ObjectID) : Prop := P h /\ forall h', P h' -> anc h' h -> h' = h.

Abbreviation hashes l := (Hash <$> l).

Lemma remove_hash cs d h : h ∈ hashes (remove cs d) <-> h ∈ hashes cs /\ h <> Hash d.
Proof.
  unfold remove. rewrite !list_elem_of_fmap. split.
  - intros (c & -> & [Hne Hc]%list_elem_of_filter). split; [by exists c|done].
  - intros [(c & -> & Hc) Hne]. exists c. split; [done|]. by apply list_elem_of_filter.
Qed.

Lemma drop_reached_spec a os cs0 os0 :
  drop_reached a os (cs0, os0)
    = if bool_decide (Hash a ∈ hashes os) then (remove cs0 a, remove os0 a) else (cs0, os0).
Proof.
  unfold drop_reached. revert cs0 os0. induction os as [|o os IH]; intros cs0 os0; cbn [foldl].
  { by rewrite bool_decide_eq_false_2 by apply not_elem_of_nil. }
  rewrite fmap_cons. destruct (bool_decide_reflect (Hash a = Hash o)) as [Heq|Hne].
  - rewrite IH. rewrite (bool_decide_eq_true_2 (Hash a ∈ Hash o :: hashes os)) by (rewrite Heq; by left).
    assert (forall l, remove l o = remove l a) as Hr by (intros l; unfold remove; by rewrite Heq).
    rewrite !Hr. destruct (bool_decide _); [|done].
    assert (forall l, remove (remove l a) a = remove l a) as Hrr; [|by rewrite !Hrr].
    intros l. unfold remove at 1. apply filter_all. apply Forall_forall. by intros x [Hx _]%list_elem_of_filter.
  - rewrite IH. rewrite (bool_decide_ext (Hash a ∈ Hash o :: hashes os) (Hash a ∈ hashes os)); [done|].
    rewrite elem_of_cons. naive_solver.
Qed.

Section from.
Context (from : Commit).

(** What is kept of the candidates once the commits [L] are visited. *)
Definition kept (L : list ObjectID) (c : Commit) : Prop := Hash c = Hash from \/ Hash c ∉ L.

#[export] Instance kept_dec L c : Decision (kept L c).
Proof. unfold kept. apply _. Defined.

Lemma kept_filter h L (cs : list Commit) : filter (kept L) (filter (kept [h]) cs) = filter (kept (h :: L)) cs.
Proof.
  rewrite list_filter_filter. apply list_filter_iff. intros c. unfold kept. rewrite !not_elem_of_cons. pose proof (not_elem_of_nil (Hash c)). tauto.
Qed.

Lemma drop_kept a cs :
  drop_reached a (remove cs from) (cs, remove cs from)
    = (filter (kept [Hash a]) cs, remove (filter (kept [Hash a]) cs) from).
Proof.
  rewrite drop_reached_spec. destruct (bool_decide_reflect (Hash a ∈ hashes (remove cs from))) as [Hin|Hout].
  - apply remove_hash in Hin as [_ Hne].
    assert (remove cs a = filter (kept [Hash a]) cs) as Hr.
    { apply list_filter_iff. intros c. unfold kept. rewrite list_elem_of_singleton.
      split; [by right|]. intros [Heq|]; [rewrite Heq; congruence|done]. }
    f_equal; [done|]. unfold remove in *. rewrite <-Hr, !list_filter_filter. apply list_filter_iff. intros c. tauto.
  - assert (filter (kept [Hash a]) cs = cs) as ->; [|done]. apply filter_all, Forall_forall. intros c Hc. unfold kept.
    rewrite list_elem_of_singleton. destruct (decide (Hash c = Hash a)) as [Heq|]; [left|by right].
    destruct (decide (Hash c = Hash from)) as [|Hne]; [done|]. destruct Hout. apply remove_hash. rewrite <-Heq. split; [|done].
    apply list_elem_of_fmap. by exists c.
Qed.

Lemma kept_self L (cs : list Commit) : from ∈ cs -> from ∈ filter (kept L) cs.
Proof. intros Hc. apply list_elem_of_filter. split; [by left|done]. Qed.

Lemma alone cs : from ∈ cs -> len cs = 1 -> cs = [from].
Proof.
  intros Hc Hl. destruct cs as [|c [|c' cs]]; [done| |rewrite !len_cons in Hl; pose proof (len_nonneg cs); lia].
  by apply list_elem_of_singleton in Hc as ->.
Qed.

(** A walk leaves the candidates it has not reached, or ends early with the
    commit it starts from as the only one. *)
Lemma fold_visit l cs sn :
  from ∈ cs ->
  let '(r, x) := fold_cb visit_ancestor l {| candidates := cs; others := remove cs from; seen := sn |} in
  r = Ok tt /\ (candidates x = [from] /\ (exists L, candidates x = filter (kept L) cs /\ L ⊆ hashes l)
              \/ candidates x = filter (kept (hashes l)) cs /\ seen x = list_to_set (hashes l) ∪ sn).
Proof.
  revert cs sn. induction l as [|a l IH]; intros cs sn Hf; cbn [fold_cb].
  - split; [done|]. right. cbn. rewrite union_empty_l_L. split; [|done]. rewrite filter_all; [done|].
    apply Forall_forall. intros c _. right. apply not_elem_of_nil.
  - unfold visit_ancestor at 1. cbn [others candidates seen]. rewrite drop_kept.
    destruct (Z.eqb_spec (len (filter (kept [Hash a]) cs)) 1) as [H1|H1].
    + split; [done|]. left. cbn [candidates]. split; [by apply alone; [apply kept_self|]|].
      exists [Hash a]. split; [done|]. intros q. rewrite fmap_cons. set_solver.
    + specialize (IH (filter (kept [Hash a]) cs) ({[ Hash a ]} ∪ sn) (kept_self _ _ Hf)).
      destruct (fold_cb visit_ancestor l _) as [r x]. destruct IH as [-> IH]. split; [done|].
      destruct IH as [(Hx & L & HxL & HL)|(Hx & Hs)]; [left|right].
      * split; [done|]. exists (Hash a :: L). split; [by rewrite HxL, kept_filter|]. rewrite fmap_cons. set_solver.
      * rewrite fmap_cons, Hx, kept_filter. split; [done|]. rewrite Hs. cbn. set_solver.
Qed.
End from.

(** *** One walk *)

Definition in_set (S : gset ObjectID) : Commit -> bool := fun c => bool_decide (Hash c ∈ S).

Lemma popNew_new visited queue c queue' : popNewFromQueue visited queue = Some (c, queue') -> Hash c ∉ visited.
Proof.
  induction queue as [|x queue IH]; [done|]. cbn. destruct (decide (Hash x ∈ visited)); [done|]. by intros [= <- _].
Qed.

(** Only commits that are not visited yet are asked about. *)
Lemma filter_visit_ext lim lim' w :
  (forall c, Hash c ∉ f_visited w -> lim c = lim' c) -> filter_visit GetCommit lim w = filter_visit GetCommit lim' w.
Proof.
  intros Heq. unfold filter_visit. destruct (popNewFromQueue (f_visited w) (f_queue w)) as [[c queue]|] eqn:Hpop; [|done].
  by rewrite (Heq c) by (by apply popNew_new in Hpop).
Qed.

Lemma filter_visit_visited lim w c w' :
  filter_visit GetCommit lim w = (Ok c, w') -> f_visited w' = {[ Hash c ]} ∪ f_visited w.
Proof.
  unfold filter_visit. destruct (popNewFromQueue (f_visited w) (f_queue w)) as [[x queue]|]; [|done]. destruct (lim x).
  - by intros [= <- <-].
  - destruct (appendHashes _ _ _ _) as [[[]| | |] q]; try done. by intros [= <- <-].
Qed.

Lemma visit_ancestor_seen a x : seen x ⊆ seen (visit_ancestor a x).2 ⊆ {[ Hash a ]} ∪ seen x.
Proof. unfold visit_ancestor. destruct (drop_reached _ _ _) as [cs os]. destruct (len cs =? 1); cbn; set_solver. Qed.

(** The limit is read while the callback extends it, but only by commits that
    are visited: the walk is that of the limit as it was when it started. *)
Lemma dynamic_limit S0 n w l x fuel :
  emits (filter_visit GetCommit (in_set S0)) w l -> S0 ⊆ seen x -> seen x ⊆ S0 ∪ f_visited w -> (length l < fuel)%nat ->
  exists w', forEachCommit (fun x => filter_Next GetCommit (S n) (fun _ => true) (isLimit x)) visit_ancestor fuel w x
    = ((fold_cb visit_ancestor l x).1, (w', (fold_cb visit_ancestor l x).2)).
Proof.
  intros Hem. revert x fuel. induction Hem as [w w' Hn|w c w' l Hn Hem IH]; intros x [|f] H1 H2 Hf; try (cbn in Hf; lia);
    cbn [forEachCommit fold_cb filter_Next]; (rewrite (filter_visit_ext (isLimit x) (in_set S0));
      [rewrite Hn|intros a Ha; unfold isLimit, in_set; apply bool_decide_ext; set_solver]).
  - by exists w'.
  - pose proof (visit_ancestor_seen c x) as [Hs1 Hs2]. apply filter_visit_visited in Hn.
    destruct (visit_ancestor c x) as [[e|] x'] eqn:Hv; cbn [snd] in *; [|apply IH; [set_solver|set_solver|cbn in Hf; lia]].
    by destruct e; exists w'.
Qed.

(** What the commits of a listing with a limit reach is in the listing or
    behind a commit of the limit in it. *)
Lemma listing_limit S0 l h0 s c :
  listing GetCommit H l (path GetCommit (unless (in_set S0)) ∅ h0) -> s ∈ hashes l -> anc s c ->
  c ∈ hashes l \/ exists s', s' ∈ hashes l /\ s' ∈ S0 /\ anc s' c.
Proof.
  intros [_ Hst Hall] Hs Hanc. induction Hanc as [h _|p a b Hp IH Hb Hn]; [by left|].
  destruct (IH Hs) as [Ha|(s' & H1 & H2 & H3)].
  - assert (exists ca, ca ∈ l /\ Hash ca = a) as (ca & Hca & Hha) by (apply list_elem_of_fmap in Ha as (ca & -> & ?); by exists ca).
    rewrite Forall_forall in Hst. destruct (Hst ca Hca) as [_ Hg]. rewrite Hha in Hg.
    destruct (decide (a ∈ S0)) as [Hlim|Hlim].
    + right. exists a. split; [done|]. split; [done|]. eapply path_snoc; [apply anc_refl|done|done].
    + left. apply Hall. apply Hall in Ha. eapply path_snoc; [exact Ha| |done]. unfold succ_of in *. rewrite Hg in *.
      unfold unless, in_set. by rewrite bool_decide_eq_false_2 by (by rewrite Hha).
  - right. exists s'. split; [done|]. split; [done|]. by eapply path_snoc.
Qed.

Lemma path_unless S0 a b : path GetCommit (unless (in_set S0)) ∅ a b -> anc a b.
Proof.
  induction 1 as [h Hh|p x y Hp IH Hy Hn]; [by constructor|]. eapply path_snoc; [exact IH| |done].
  unfold succ_of, unless in *. destruct (GetCommit x); [|done..]. destruct (in_set S0 a); [by apply not_elem_of_nil in Hy|done].
Qed.

(** *** The loop over the candidates *)

Record ind_inv (cs0 pre rest : list Commit) (sn : gset ObjectID) : Prop := {
  in_once : NoDup (hashes (pre ++ rest));
  in_stored : Forall stored (pre ++ rest);
  in_sub : forall h, h ∈ hashes (pre ++ rest) -> h ∈ hashes cs0;
  in_cover : forall h, h ∈ hashes cs0 -> exists d, d ∈ hashes (pre ++ rest) /\ anc d h;
  in_seen : forall s h, s ∈ sn -> h ∈ hashes (pre ++ rest) -> anc s h -> h = s;
  in_pre : forall h, h ∈ hashes pre -> h ∈ sn;
}.

Definition independent (cs0 res : list Commit) : Prop :=
  NoDup (hashes res) /\ Forall stored res /\ forall h, h ∈ hashes res <-> maximal (fun h => h ∈ hashes cs0) h.

Lemma ind_inv_done cs0 res sn : acyclic -> ind_inv cs0 res [] sn -> independent cs0 res.
Proof.
  intros Hac [Ho Hst Hsub Hcov Hseen Hpre]. rewrite app_nil_r in *. split; [done|]. split; [done|]. intros h. split.
  - intros Hh. split; [by apply Hsub|]. intros h' Hh' Hanc. destruct (Hcov h' Hh') as (d & Hd & Hdh).
    assert (h = d) as -> by (apply (Hseen d h); [by apply Hpre|done|by apply anc_trans with h']). by apply Hac.
  - intros [Hh Hmax]. destruct (Hcov h Hh) as (d & Hd & Hdh). rewrite <-(Hmax d); [done|by apply Hsub|done].
Qed.

Lemma hashes_filter (P : Commit -> Prop) `{!forall c, Decision (P c)} (cs : list Commit) h : h ∈ hashes (filter P cs) -> h ∈ hashes cs.
Proof. rewrite !list_elem_of_fmap. intros (c & -> & [_ Hc]%list_elem_of_filter). by exists c. Qed.

Lemma NoDup_filter_hashes (P : Commit -> Prop) `{!forall c, Decision (P c)} (cs : list Commit) : NoDup (hashes cs) -> NoDup (hashes (filter P cs)).
Proof. intros Hn. eapply sublist_NoDup; [exact Hn|]. apply fmap_sublist, sublist_filter. Qed.

(** After a complete walk from the next candidate. *)
Lemma ind_inv_step cs0 pre from rest sn l :
  acyclic -> ind_inv cs0 pre (from :: rest) sn ->
  listing GetCommit H l (path GetCommit (unless (in_set sn)) ∅ (Hash from)) ->
  ind_inv cs0 (filter (kept from (hashes l)) pre ++ [from]) (filter (kept from (hashes l)) rest) (list_to_set (hashes l) ∪ sn).
Proof.
  intros Hac [Ho Hst Hsub Hcov Hseen Hpre] Hl. pose proof Hl as [_ _ Hall].
  assert (Hash from ∈ hashes l) as Hfl by (apply Hall; constructor; set_solver).
  assert (forall h, h ∈ hashes l -> anc (Hash from) h) as Hreach by (intros h Hh%Hall; by apply path_unless in Hh).
  assert ((filter (kept from (hashes l)) pre ++ [from]) ++ filter (kept from (hashes l)) rest
    = filter (kept from (hashes l)) (pre ++ from :: rest)) as Heq.
  { rewrite filter_app, filter_cons_True by (by left). by rewrite <-app_assoc. }
  assert (forall h, h ∈ hashes (filter (kept from (hashes l)) (pre ++ from :: rest)) -> h = Hash from \/ h ∉ hashes l) as Hkept.
  { intros h (c & -> & [Hk _]%list_elem_of_filter)%list_elem_of_fmap. exact Hk. }
  assert (Hash from ∈ hashes (pre ++ from :: rest)) as Hfin by (rewrite fmap_app, elem_of_app; right; rewrite fmap_cons; by left).
  constructor; rewrite ?Heq.
  - by apply NoDup_filter_hashes.
  - rewrite Forall_forall in Hst. apply Forall_forall. intros c [_ Hc]%list_elem_of_filter. by apply Hst.
  - intros h Hh%hashes_filter. by apply Hsub.
  - intros h Hh. destruct (Hcov h Hh) as (d & Hd & Hdh). destruct (decide (d ∈ hashes l)) as [Hin|Hout].
    + exists (Hash from). split; [|apply anc_trans with d; [by apply Hreach|done]].
      apply list_elem_of_fmap. exists from. split; [done|]. apply kept_self. apply elem_of_app. right. by left.
    + exists d. split; [|done]. apply list_elem_of_fmap in Hd as (c & -> & Hc). apply list_elem_of_fmap. exists c. split; [done|].
      apply list_elem_of_filter. split; [by right|done].
  - intros s h Hs Hh Hanc. pose proof (hashes_filter _ _ _ Hh) as Hh'. apply elem_of_union in Hs as [Hs|Hs]; [|by apply (Hseen s h)].
    apply elem_of_list_to_set in Hs. destruct (listing_limit sn l (Hash from) s h Hl Hs Hanc) as [Hin|(s' & Hs'l & Hs' & Ha)].
    + destruct (Hkept h Hh) as [-> |]; [|done]. apply Hac; [by apply Hreach|done].
    + assert (h = s') as -> by (by apply (Hseen s' h)). destruct (Hkept s' Hh) as [-> |]; [|done]. apply Hac; [by apply Hreach|done].
  - intros h. rewrite fmap_app, elem_of_app. intros [Hh|Hh].
    + apply elem_of_union. right. apply Hpre. by apply hashes_filter in Hh.
    + apply elem_of_union. left. apply elem_of_list_to_set. apply list_elem_of_fmap in Hh as (c & -> & ->%list_elem_of_singleton). done.
Qed.

(** The walk that stops early leaves one commit that reaches all the others. *)
Lemma early_done cs0 pre from rest sn l L :
  acyclic -> ind_inv cs0 pre (from :: rest) sn ->
  listing GetCommit H l (path GetCommit (unless (in_set sn)) ∅ (Hash from)) -> L ⊆ hashes l ->
  filter (kept from L) (pre ++ from :: rest) = [from] -> independent cs0 [from].
Proof.
  intros Hac [Ho Hst Hsub Hcov Hseen Hpre] [_ _ Hall] HL Hone.
  assert (forall h, h ∈ hashes cs0 -> anc (Hash from) h) as Hroot.
  { intros h Hh. destruct (Hcov h Hh) as (d & Hd & Hdh). apply anc_trans with d; [|done].
    apply list_elem_of_fmap in Hd as (c & -> & Hc). destruct (decide (kept from L c)) as [Hk|Hk].
    - assert (c ∈ [from]) as ->%list_elem_of_singleton by (rewrite <-Hone; by apply list_elem_of_filter). apply anc_refl.
    - unfold kept in Hk. destruct (decide (Hash c ∈ L)) as [Hin|Hout]; [|naive_solver]. apply HL, Hall in Hin. by apply path_unless in Hin. }
  assert (Hash from ∈ hashes cs0) as Hin by (apply Hsub; rewrite fmap_app, elem_of_app; right; rewrite fmap_cons; by left).
  split; [apply NoDup_singleton|]. split; [apply Forall_app in Hst as [_ [Hf _]%Forall_cons]; by constructor|].
  intros h. change (hashes [from]) with [Hash from]. rewrite list_elem_of_singleton. split.
  - intros ->. split; [done|]. intros h' Hh' Ha. apply Hac; [done|by apply Hroot].
  - intros [Hh Hmax]. symmetry. apply Hmax; [done|by apply Hroot].
Qed.

Lemma indexOf_app pre from rest :
  NoDup (hashes (pre ++ from :: rest)) -> indexOf (pre ++ from :: rest) from = len pre.
Proof.
  intros Hn. unfold indexOf. enough (forall i, indexOf_from i (pre ++ from :: rest) from = i + len pre) as Hi by (by rewrite Hi).
  induction pre as [|c pre IH]; intros i; cbn [app indexOf_from].
  - rewrite bool_decide_eq_true_2 by done. rewrite len_nil. lia.
  - rewrite <-app_comm_cons, fmap_cons in Hn. apply NoDup_cons in Hn as [Hc Hn]. rewrite bool_decide_eq_false_2.
    + rewrite IH by done. rewrite len_cons. lia.
    + intros Heq. apply Hc. rewrite fmap_app, elem_of_app, <-Heq. right. rewrite fmap_cons. by left.
Qed.

Lemma Independents_loop_spec rounds fuel cs0 pre rest sn :
  acyclic -> ind_inv cs0 pre rest sn -> rest <> [] -> (length rest < rounds)%nat -> (size H < fuel)%nat ->
  ensures (Independents_loop GetCommit rounds fuel (len pre) (pre ++ rest) sn) (independent cs0).
Proof.
  intros Hac. revert pre rest sn. induction rounds as [|n IH]; intros pre rest sn Hinv Hne Hr Hf; [lia|].
  destruct rest as [|from rest]; [done|]. cbn [Independents_loop].
  assert (index (E := walk_error) (pre ++ from :: rest) (len pre) = Ok from) as ->.
  { apply index_Ok; [apply len_nonneg|]. unfold len. rewrite Nat2Z.id. by apply list_lookup_middle. }
  cbn [mbind outcome_bind]. pose proof Hinv as [Ho Hst Hsub Hcov Hseen Hpre].
  assert (stored from) as Hfrom by (apply Forall_app in Hst as [_ [Hs _]%Forall_cons]; done).
  assert (filter_ok GetCommit H (NewFilterCommitIter from)) as Hok by (split; [by constructor|done]).
  destruct (search_emits GetCommit H _ _ (filter_search GetCommit H Hclosed (in_set sn)) (NewFilterCommitIter from) Hok) as (l & Hem & Hl).
  assert (listing GetCommit H l (path GetCommit (unless (in_set sn)) ∅ (Hash from))) as Hlist.
  { destruct Hl as [H1 H2 H3]. constructor; [done|done|]. intros h. rewrite H3. apply found_one. }
  pose proof (listing_length _ _ _ _ Hlist) as Hlen. destruct fuel as [|fuel]; [lia|].
  destruct (dynamic_limit sn fuel _ l {| candidates := pre ++ from :: rest; others := remove (pre ++ from :: rest) from; seen := sn |}
    (S fuel) Hem) as (w' & ->); [done|cbn; set_solver|lia|].
  assert (from ∈ pre ++ from :: rest) as Hin by (apply elem_of_app; right; by left).
  pose proof (fold_visit from l (pre ++ from :: rest) sn Hin) as Hfold. destruct (fold_cb visit_ancestor l _) as [r x].
  destruct Hfold as [-> [(Hone & L & HL & HLl)|(Hcs & Hsn)]]; cbn [fst snd mbind outcome_bind].
  - rewrite Hone. unfold indexOf. cbn [indexOf_from]. rewrite bool_decide_eq_true_2 by done. cbn.
    rewrite Hone in HL. by eapply early_done.
  - rewrite Hcs, Hsn. pose proof (ind_inv_step cs0 pre from rest sn l Hac Hinv Hlist) as Hinv'.
    rewrite filter_app, filter_cons_True by (by left).
    set (pre' := filter (kept from (hashes l)) pre) in *. set (rest' := filter (kept from (hashes l)) rest) in *.
    rewrite indexOf_app by (pose proof (in_once _ _ _ _ Hinv') as Hn; by rewrite <-app_assoc in Hn).
    assert (len (pre' ++ from :: rest') = len pre' + 1 + len rest') as Hlen' by len_lia.
    rewrite Hlen', Z.geb_leb. destruct (Z.leb_spec (len pre' + 1 + len rest') (len pre' + 1)) as [Hle|Hgt].
    + assert (rest' = []) as Hnil by (apply len_zero_nil; pose proof (len_nonneg rest'); lia). rewrite Hnil in *. by eapply ind_inv_done.
    + rewrite cons_middle, app_assoc. replace (len pre' + 1) with (len (pre' ++ [from])) by len_lia. apply IH; [done| | |lia].
      * intros Hnil. rewrite Hnil, len_nil in Hgt. lia.
      * pose proof (length_filter (kept from (hashes l)) rest) as Hlf. cbn in Hr. fold rest' in Hlf. lia.
Qed.

(** *** The whole function *)

Lemma removeDuplicated_spec sn cs :
  let res := removeDuplicated_loop sn cs in
  NoDup (hashes res) /\ (forall c, c ∈ res -> c ∈ cs) /\ (forall h, h ∈ hashes res <-> h ∈ hashes cs /\ h ∉ sn).
Proof.
  revert sn. induction cs as [|c cs IH]; intros sn; cbn [removeDuplicated_loop].
  - split; [constructor|]. split; [done|]. intros h. split; [by intros ?%not_elem_of_nil|by intros [?%not_elem_of_nil _]].
  - destruct (decide (Hash c ∈ sn)) as [Hin|Hout].
    + destruct (IH sn) as (H1 & H2 & H3). split; [done|]. split; [intros d Hd; right; by apply H2|].
      intros h. rewrite H3, fmap_cons, elem_of_cons. naive_solver.
    + destruct (IH ({[ Hash c ]} ∪ sn)) as (H1 & H2 & H3). rewrite fmap_cons. split; [|split].
      * constructor; [|done]. rewrite H3. set_solver.
      * intros d [->|Hd]%elem_of_cons; [by left|right; by apply H2].
      * intros h. rewrite fmap_cons, !elem_of_cons, H3. destruct (decide (h = Hash c)) as [->|]; [naive_solver|]. set_solver.
Qed.

Lemma Independents_spec fuel commits :
  acyclic -> Forall stored commits -> (size H < fuel)%nat ->
  ensures (Independents GetCommit Slice fuel commits) (independent commits).
Proof.
  intros Hac Hst Hf. unfold Independents, removeDuplicated, sortByCommitDateDesc. set (sorted := Slice _ commits).
  assert (sorted ≡ₚ commits) as Hperm by apply Slice_perm.
  destruct (removeDuplicated_spec ∅ sorted) as (Hn & Hsub & Hh). set (cs := removeDuplicated_loop ∅ sorted) in *.
  assert (forall h, h ∈ hashes cs <-> h ∈ hashes commits) as Hcs
    by (intros h; rewrite Hh, Hperm; split; [by intros []|split; [done|set_solver]]).
  assert (Forall stored cs) as Hscs.
  { apply Forall_forall. intros c Hc%Hsub. rewrite Hperm in Hc. rewrite Forall_forall in Hst. by apply Hst. }
  assert (ind_inv commits [] cs ∅) as Hinv.
  { constructor; cbn [app]; [done|done|by intros h ?%Hcs| |set_solver|by intros h ?%not_elem_of_nil].
    intros h Hh'%Hcs. exists h. split; [done|apply anc_refl]. }
  destruct (Z.ltb_spec (len cs) 2) as [Hlt|Hge].
  - assert (forall h h', h ∈ hashes cs -> h' ∈ hashes cs -> h = h') as Heq.
    { destruct cs as [|c [|c' cs]]; [by intros h h' ?%not_elem_of_nil| |rewrite !len_cons in Hlt; pose proof (len_nonneg cs); lia].
      by intros h h' ->%list_elem_of_singleton ->%list_elem_of_singleton. }
    split; [done|]. split; [done|]. intros h. rewrite Hcs. split; [|by intros []].
    intros Hh'. split; [done|]. intros h' Hh2 _. by apply Heq; apply Hcs.
  - apply (Independents_loop_spec _ fuel commits [] cs ∅); [done|done|intros Hnil; by rewrite Hnil in Hge|lia|done].
Qed.

(** C13: [Independents].  In a complete history, for any commits with any
    dates, the loop over the candidates ends within their number and returns,
    without duplicates, exactly the commits that cannot be reached from
    another of the given ones, although each walk stops at what an earlier
    one has seen and may end early. *)
Theorem Independents_correct fuel commits :
  acyclic -> Forall stored commits -> (size H < fuel)%nat ->
  ensures (Independents GetCommit Slice fuel commits) (fun res =>
    NoDup (hashes res) /\ Forall stored res /\ forall h, h ∈ hashes res <-> maximal (fun h => h ∈ hashes commits) h).
Proof. exact (Independents_spec fuel commits). Qed.

(** *** Merge bases *)

Lemma ancestorsIndex_spec fuel excluded starting :
  (forall h, h ∈ H -> oid_ok h) -> stored excluded -> stored starting -> (size H < fuel)%nat ->
  (anc (Hash starting) (Hash excluded) /\ ancestorsIndex GetCommit fuel excluded starting = Err errIsReachable)
  \/ ensures (ancestorsIndex GetCommit fuel excluded starting) (fun m => forall h, h ∈ m <-> anc (Hash starting) h).
Proof.
  intros Hids He Hs Hf. unfold ancestorsIndex. case_bool_decide as Heq.
  { left. split; [|done]. pose proof (FromHex_String (Hash excluded) (Hids _ (proj1 He))) as H1.
    rewrite Heq, FromHex_String in H1 by apply Hids, Hs. injection H1 as ->. apply anc_refl. }
  destruct (walk_lists (Heap := list Commit) GetCommit H Hclosed (X := gset ObjectID) BreadthFirst starting ∅ ∅ Hs) as (l & Hl & Hw).
  specialize (Hw (add_unless excluded) fuel ∅ Hf). cbn [walk] in Hw. cbn [kind_succ kind_avoid] in Hl. rewrite union_empty_l_L in Hl.
  pose proof (listing_anc l starting Hl) as Hanc. destruct (forEachCommit _ _ _ _ _) as [r [w m]].
  assert (forall m0, (Hash excluded ∈ hashes l /\ (fold_cb (add_unless excluded) l m0).1 = Err errIsReachable)
    \/ fold_cb (add_unless excluded) l m0 = (Ok tt, list_to_set (hashes l) ∪ m0)) as Hfold.
  { clear. induction l as [|a l IH]; intros m0; cbn [fold_cb].
    - right. cbn. by rewrite union_empty_l_L.
    - unfold add_unless at 1 3. rewrite fmap_cons. destruct (bool_decide_reflect (Hash a = Hash excluded)) as [Heq|Hne].
      + left. split; [rewrite Heq; by left|done].
      + destruct (IH ({[ Hash a ]} ∪ m0)) as [[Hin Hr]|Hr]; [left; split; [by right|done]|right]. rewrite Hr. f_equal. cbn. set_solver. }
  destruct (Hfold ∅) as [[Hin Hr]|Hr]; rewrite <-Hw in Hr.
  - left. split; [by apply Hanc|]. cbn in Hr. by rewrite Hr.
  - right. injection Hr as -> ->. cbn. intros h. rewrite union_empty_r_L, elem_of_list_to_set. apply Hanc.
Qed.

(** Draining a filter whose validity test is fixed. *)
Lemma filter_Next_emits valid lim w l n :
  emits (filter_visit GetCommit lim) w l -> (length l < n)%nat ->
  forall fuel x, (length l < fuel)%nat ->
  exists w', forEachCommit (fun _ => filter_Next GetCommit n valid lim) append_commit fuel w x
    = (Ok tt, (w', x ++ filter (fun c => valid c = true) l)).
Proof.
  intros Hem. remember (length l) as k eqn:Hk. revert w l Hk Hem. induction k as [k IH] using lt_wf_ind. intros w l -> Hem Hn fuel x Hf.
  destruct fuel as [|f]; [lia|]. cbn [forEachCommit].
  assert ((filter (fun c => valid c = true) l = [] /\ exists w', filter_Next GetCommit n valid lim w = (Err Eof, w'))
    \/ exists c w' l', filter_Next GetCommit n valid lim w = (Ok c, w') /\ emits (filter_visit GetCommit lim) w' l' /\ (length l' < length l)%nat
        /\ filter (fun c => valid c = true) l = c :: filter (fun c => valid c = true) l') as Hnext.
  { clear IH Hf. revert n Hn. induction Hem as [w w' Hv|w c w' l Hv Hem IHem]; intros [|n] Hn; try (cbn in Hn; lia); cbn [filter_Next]; rewrite Hv.
    - left. split; [done|]. by exists w'.
    - destruct (valid c) eqn:Hc.
      + right. exists c, w', l. rewrite filter_cons_True by done. split_and!; [done..|cbn; lia|done].
      + rewrite filter_cons_False by (by rewrite Hc). destruct (IHem n ltac:(cbn in Hn; lia)) as [Hl|(c' & w'' & l' & H1 & H2 & H3 & H4)]; [by left|].
        right. exists c', w'', l'. split_and!; [done..|cbn; lia|done]. }
  destruct Hnext as [(-> & w' & ->)|(c & w' & l' & -> & Hem' & Hlt & ->)].
  - exists w'. by rewrite app_nil_r.
  - cbn [append_commit]. destruct (IH (length l') Hlt w' l' eq_refl Hem' ltac:(lia) f (x ++ [c]) ltac:(lia)) as (w'' & ->).
    exists w''. by rewrite <-app_assoc.
Qed.

(** The common ancestors that no other common ancestor reaches. *)
Definition common (a b : ObjectID) (h : ObjectID) : Prop := anc a h /\ anc b h.

(** The second walk of [MergeBase] finds common ancestors that reach all the
    others: those where the other history is entered. *)
Lemma frontier fuel newer older m :
  stored older -> (size H < fuel)%nat -> (forall h, h ∈ m <-> anc (Hash newer) h) ->
  exists w' res, forEachCommit (fun _ => filter_Next GetCommit fuel (in_set m) (in_set m)) append_commit fuel (NewFilterCommitIter older) []
      = (Ok tt, (w', res))
    /\ Forall stored res /\ (forall h, h ∈ hashes res -> common (Hash newer) (Hash older) h)
    /\ (forall h, common (Hash newer) (Hash older) h -> exists r, r ∈ hashes res /\ anc r h).
Proof.
  intros Hol Hf Hm. assert (filter_ok GetCommit H (NewFilterCommitIter older)) as Hok by (split; [by constructor|done]).
  destruct (search_emits GetCommit H _ _ (filter_search GetCommit H Hclosed (in_set m)) (NewFilterCommitIter older) Hok) as (l & Hem & Hl).
  assert (listing GetCommit H l (path GetCommit (unless (in_set m)) ∅ (Hash older))) as Hlist.
  { destruct Hl as [H1 H2 H3]. constructor; [done|done|]. intros h. rewrite H3. apply found_one. }
  pose proof (listing_length _ _ _ _ Hlist) as Hlen. pose proof Hlist as [_ Hst Hall].
  destruct (filter_Next_emits (in_set m) (in_set m) _ l fuel Hem ltac:(lia) fuel [] ltac:(lia)) as (w' & Hfe).
  exists w', (filter (fun c => in_set m c = true) l). split; [exact Hfe|].
  assert (forall h, h ∈ hashes (filter (fun c => in_set m c = true) l) <-> h ∈ hashes l /\ h ∈ m) as Hres.
  { intros h. rewrite !list_elem_of_fmap. split.
    - intros (x & -> & [Hx%bool_decide_eq_true_1 Hxl]%list_elem_of_filter). split; [by exists x|done].
    - intros [(x & -> & Hxl) Hx]. exists x. split; [done|]. apply list_elem_of_filter. split; [by apply bool_decide_eq_true_2|done]. }
  split_and!.
  - apply Forall_forall. intros x [_ Hx]%list_elem_of_filter. rewrite Forall_forall in Hst. by apply Hst.
  - intros h [Hh1%Hall Hh2%Hm]%Hres. split; [done|]. by apply path_unless in Hh1.
  - intros h [H1%Hm H2]. destruct (listing_limit m l (Hash older) (Hash older) h Hlist) as [Hh|(s' & Hs1 & Hs2 & Ha)]; [|done| |].
    + apply Hall. constructor. set_solver.
    + exists h. split; [by apply Hres|apply anc_refl].
    + exists s'. split; [by apply Hres|done].
Qed.

(** C12: [MergeBase].  In a complete history, for any two commits with any
    dates, the result is, without duplicates, exactly the best common
    ancestors: those that no other common ancestor can reach; in particular
    the commit itself when one is an ancestor of the other. *)
Theorem MergeBase_correct fuel c other :
  acyclic -> (forall h, h ∈ H -> oid_ok h) -> stored c -> stored other -> (size H < fuel)%nat ->
  ensures (MergeBase GetCommit Slice fuel c other) (fun res =>
    NoDup (hashes res) /\ forall h, h ∈ hashes res <-> maximal (common (Hash c) (Hash other)) h).
Proof.
  intros Hac Hids Hc Ho Hf. unfold MergeBase, sortByCommitDateDesc.
  assert (exists newer older, Slice (fun a b => After (sig_When (Committer a)) (sig_When (Committer b))) [c; other] = [newer; older]
    /\ stored newer /\ stored older /\ forall h, common (Hash newer) (Hash older) h <-> common (Hash c) (Hash other) h)
    as (newer & older & -> & Hn & Hol & Hcom).
  { pose proof (Slice_perm (fun a b => After (sig_When (Committer a)) (sig_When (Committer b))) [c; other]) as Hp.
    symmetry in Hp. apply Permutation_length_2_inv in Hp as [-> | ->]; [exists c, other|exists other, c];
      (split; [done|]; split; [done|]; split; [done|]; intros h; unfold common; tauto). }
  change (index [newer; older] 0) with (Ok (E := walk_error) newer). change (index [newer; older] 1) with (Ok (E := walk_error) older).
  cbn [mbind outcome_bind].
  assert (forall h, maximal (common (Hash newer) (Hash older)) h <-> maximal (common (Hash c) (Hash other)) h) as Hmax.
  { intros h. unfold maximal. rewrite Hcom. split; intros [H1 H2]; (split; [done|]); intros h' Hh'; apply H2; by apply Hcom. }
  destruct (ancestorsIndex_spec fuel older newer Hids Hol Hn Hf) as [[Hreach ->]|Hidx].
  - cbn. split; [apply NoDup_singleton|]. intros h. rewrite <-Hmax. rewrite list_elem_of_singleton. split.
    + intros ->. split; [split; [done|apply anc_refl]|]. intros h' [_ Hh'] Ha. by apply Hac.
    + intros [[_ Ha] Hm]. symmetry. apply Hm; [|done]. split; [done|apply anc_refl].
  - apply ensures_inv in Hidx as (m & -> & Hm). cbn.
    change (isInIndexCommitFilter m) with (in_set m).
    destruct (frontier fuel newer older m Hol Hf Hm) as (w' & res & -> & Hst & Hin & Hcov).
    eapply ensures_weaken; [by apply Independents_spec|].
    intros out (Hnd & _ & Hout). split; [done|]. intros h. rewrite <-Hmax, Hout. split.
    + intros [Hh Hmx]. split; [by apply Hin|]. intros h' Hh' Ha. destruct (Hcov h' Hh') as (r & Hr & Hra).
      assert (r = h) as -> by (apply Hmx; [done|by apply anc_trans with h']). by apply Hac.
    + intros [Hh Hmx]. destruct (Hcov h Hh) as (r & Hr & Hra). assert (r = h) as -> by (apply Hmx; [by apply Hin|done]).
      split; [done|]. intros h' Hh'%Hin Ha. by apply Hmx.
Qed.
End correct.

(** ** Examples *)

(** A numbering that decreases along the parents rules out cycles. *)
Definition first_byte (h : ObjectID) : Z := default 0 (head (oid_hash h)).

Definition decreasing (cs : list Commit) : bool :=
  forallb (fun c => forallb (fun p => first_byte p <? first_byte (Hash c)) (ParentHashes c)) cs.

Lemma decreasing_acyclic cs : decreasing cs = true -> acyclic (get_of cs).
Proof.
  intros Hdec. assert (forall a b, ancestor (get_of cs) a b -> a = b \/ first_byte b < first_byte a) as Hlt.
  { induction 1 as [h _|p a b Hp IH Hb _]; [by left|right]. unfold succ_of, get_of in Hb.
    destruct (List.find _ cs) as [c|] eqn:Hf; [|by apply not_elem_of_nil in Hb].
    apply find_some in Hf as [Hin Hh%bool_decide_eq_true_1]. unfold decreasing in Hdec. rewrite forallb_forall in Hdec.
    specialize (Hdec c Hin). rewrite forallb_forall in Hdec. apply list_elem_of_In in Hb. specialize (Hdec b Hb).
    apply Z.ltb_lt in Hdec. rewrite Hh in Hdec. destruct IH as [-> |]; lia. }
  intros a b [|H1]%Hlt [|H2]%Hlt; [done..|lia].
Qed.

Lemma IsAncestor_correct_witness :
  exists b, IsAncestor (get_of criss_cross) 10 (ex_commit 1 [] 10) (ex_commit 5 [3; 2] 50) = (b, Ok tt)
    /\ (b = true <-> ancestor (get_of criss_cross) (ex_id 5) (ex_id 1)).
Proof.
  apply (IsAncestor_correct (get_of criss_cross) (history criss_cross)
    ltac:(apply history_closed; vm_compute; reflexivity) 10 (ex_commit 1 [] 10) (ex_commit 5 [3; 2] 50)).
  - split; [apply (bool_decide_unpack _); vm_compute; exact I|vm_compute; reflexivity].
  - vm_compute. lia.
Defined.

Lemma Independents_correct_witness :
  ensures (Independents (get_of criss_cross) insertion_sort 10 [ex_commit 1 [] 10; ex_commit 4 [2; 3] 40; ex_commit 2 [1] 20]) (fun res =>
    NoDup (Hash <$> res) /\ Forall (stored (get_of criss_cross) (history criss_cross)) res
    /\ forall h, h ∈ Hash <$> res <-> maximal (get_of criss_cross) (fun h => h ∈ [ex_id 1; ex_id 4; ex_id 2]) h).
Proof.
  apply (Independents_correct (get_of criss_cross) (history criss_cross)
    ltac:(apply history_closed; vm_compute; reflexivity) insertion_sort insertion_sort_perm 10
    [ex_commit 1 [] 10; ex_commit 4 [2; 3] 40; ex_commit 2 [1] 20]).
  - apply decreasing_acyclic. vm_compute. reflexivity.
  - apply Forall_forall. intros c Hc.
    rewrite !elem_of_cons, elem_of_nil in Hc. destruct_or!; try done; subst c;
      (split; [apply (bool_decide_unpack _); vm_compute; exact I|vm_compute; reflexivity]).
  - vm_compute. lia.
Defined.

Lemma MergeBase_correct_witness :
  ensures (MergeBase (get_of criss_cross) insertion_sort 10 (ex_commit 4 [2; 3] 40) (ex_commit 5 [3; 2] 50)) (fun res =>
    NoDup (Hash <$> res) /\ forall h, h ∈ Hash <$> res <-> maximal (get_of criss_cross) (common (get_of criss_cross) (ex_id 4) (ex_id 5)) h).
Proof.
  apply (MergeBase_correct (get_of criss_cross) (history criss_cross)
    ltac:(apply history_closed; vm_compute; reflexivity) insertion_sort insertion_sort_perm 10 (ex_commit 4 [2; 3] 40) (ex_commit 5 [3; 2] 50)).
  - apply decreasing_acyclic. vm_compute. reflexivity.
  - intros h Hh. assert (h ∈ map ex_id [1; 2; 3; 4; 5]) as Hin by (by apply elem_of_list_to_set in Hh).
    cbn in Hin. rewrite !elem_of_cons, elem_of_nil in Hin.
    destruct_or!; try done; subst h; (constructor; [reflexivity|apply (bool_decide_unpack _); vm_compute; exact I|reflexivity|done]).
  - split; [apply (bool_decide_unpack _); vm_compute; exact I|vm_compute; reflexivity].
  - split; [apply (bool_decide_unpack _); vm_compute; exact I|vm_compute; reflexivity].
  - vm_compute. lia.
Defined.
