(* ===== verification/Merkletrie.v ===== *)
(** * Differences of merkle tries: [utils/merkletrie]

    The interface of the nodes, paths and frames of siblings, the iterator over
    a trie, the pair of iterators and the table of cases of [DiffTree].  A trie
    is abstracted as the list of nodes an iterator has still to visit; on it
    [Next] drops the first node and [Step] replaces it by its children, and the
    changes [DiffTree] reports are those of the two lists of files. *)
From stdpp Require Import base list numbers option strings sorting.
From Stdlib Require Import ZArith Lia.
From S2P Require Import Prelude GoStrings.

Open Scope Z_scope.

(** ** Nodes *)

(** [noder.Noder]. The slice of children is sorted and consumed in place by the
    frame it is given to; a node is framed once in a walk, so that is not seen. *)
Class Noder (N E : Type) := {
  noder_Name : N -> bytes;
  noder_IsDir : N -> bool;
  noder_Skip : N -> bool;
  noder_Children : N -> outcome E (list N);
  noder_NumChildren : N -> outcome E Z;
}.

Inductive diff_error (E : Type) :=
  | IterEOF                      (* io.EOF *)
  | ErrEmptyFileName
  | ErrCanceled
  | BadStatus
  | NoderError (e : E).
Arguments IterEOF {E}.
Arguments ErrEmptyFileName {E}.
Arguments ErrCanceled {E}.
Arguments BadStatus {E}.
Arguments NoderError {E} e.

Section merkletrie.
Context {N E : Type} `{!Noder N E}.
#[local] Notation result := (outcome (diff_error E)).

(** [noder.Path]: a node after its ancestors. *)
Definition Path : Type := list N.

Definition Last (p : Path) : result N := match last p with Some n => mret n | None => Panic end.

Definition path_Skip (p : Path) : bool := match last p with Some n => noder_Skip n | None => false end.
Definition path_Name (p : Path) : result bytes := n ← Last p; mret (noder_Name n).
Definition path_IsDir (p : Path) : result bool := n ← Last p; mret (noder_IsDir n).
Definition path_Children (p : Path) : result (list N) := n ← Last p; map_err NoderError (noder_Children n).
Definition path_NumChildren (p : Path) : result Z := n ← Last p; map_err NoderError (noder_NumChildren n).

Definition path_String (p : Path) : bytes := Join (noder_Name <$> p) 47.

Fixpoint path_Compare (p other : Path) : comparison :=
  match p, other with
  | [], [] => Eq
  | _, [] => Gt
  | [], _ => Lt
  | a :: p, b :: other =>
      match bytes_compare (noder_Name a) (noder_Name b) with Eq => path_Compare p other | c => c end
  end.

(** ** Frames *)

Section sort.
(** [sort.Sort] of the standard library. *)
Context (Sort : (N -> N -> bool) -> list N -> list N).

(** Siblings in reverse alphabetical order. *)
Definition Frame : Type := list N.

Definition byName_Less (a b : N) : bool := bytes_ltb (noder_Name a) (noder_Name b).

Definition frame_New (children : result (list N)) : result Frame :=
  children ← children; mret (Sort (fun a b => byName_Less b a) children).

Definition First (f : Frame) : option N := last f.
Definition Drop (f : Frame) : Frame := removelast f.

(** ** The iterator *)

(** The stack of frames has its top first. *)
Record Iter := { hasStarted : bool; frameStack : list Frame; iter_base : Path }.

Definition newIter (root : option (result (list N))) (base : Path) : result Iter :=
  match root with
  | None => mret {| hasStarted := false; frameStack := []; iter_base := base |}
  | Some children =>
      frame ← frame_New children;
      mret {| hasStarted := false; frameStack := [frame]; iter_base := base |}
  end.

Definition NewIter (n : N) : result Iter := newIter (Some (map_err NoderError (noder_Children n))) [].
Definition NewIterFromPath (p : Path) : result Iter := newIter (Some (path_Children p)) p.

Definition current (it : Iter) : result Path :=
  match frameStack it with
  | [] => Err IterEOF
  | topFrame :: _ =>
      match First topFrame with
      | None => Err IterEOF
      | Some _ =>
          match mapM First (rev (frameStack it)) with
          | Some ps => mret (iter_base it ++ ps)
          | None => Panic
          end
      end
  end.

(** A frame that becomes empty is removed, and its parent with it. *)
Fixpoint drop_frames (fs : list Frame) : list Frame :=
  match fs with
  | [] => []
  | f :: fs => match Drop f with [] => drop_frames fs | f => f :: fs end
  end.

Definition with_frames (it : Iter) (fs : list Frame) : Iter :=
  {| hasStarted := true; frameStack := fs; iter_base := iter_base it |}.

Definition advance (wantDescend : bool) (it : Iter) : result Path * Iter :=
  match current it with
  | Ok cur =>
      if negb (hasStarted it) then (Ok cur, with_frames it (frameStack it))
      else
        match path_NumChildren cur with
        | Ok numChildren =>
            if negb (numChildren =? 0) && wantDescend then
              match frame_New (path_Children cur) with
              | Ok frame => let it := with_frames it (frame :: frameStack it) in (current it, it)
              | Err e => (Err e, it)
              | Panic => (Panic, it)
              | NoFuel => (NoFuel, it)
              end
            else let it := with_frames it (drop_frames (frameStack it)) in (current it, it)
        | Err e => (Err e, it)
        | Panic => (Panic, it)
        | NoFuel => (NoFuel, it)
        end
  | r => (r, it)
  end.

Definition Next : Iter -> result Path * Iter := advance false.
Definition Step : Iter -> result Path * Iter := advance true.

(** ** Changes *)

Inductive Action := Insert | Delete | Modify.

Record Change := { From : option Path; To : option Path }.

Definition change_Action (c : Change) : option Action :=
  match From c, To c with
  | None, None => None
  | None, Some _ => Some Insert
  | Some _, None => Some Delete
  | Some _, Some _ => Some Modify
  end.

Definition NewInsert (n : Path) : Change := {| From := None; To := Some n |}.
Definition NewDelete (n : Path) : Change := {| From := Some n; To := None |}.
Definition NewModify (a b : Path) : Change := {| From := Some a; To := Some b |}.

Fixpoint addRecursive_loop (fuel : nat) (ctor : Path -> Change) (i : Iter) (l : list Change) : result (list Change) :=
  match fuel with
  | O => NoFuel
  | S f =>
      match Step i with
      | (Ok cur, i) =>
          dir ← path_IsDir cur;
          if dir || path_Skip cur then addRecursive_loop f ctor i l
          else addRecursive_loop f ctor i (l ++ [ctor cur])
      | (Err IterEOF, _) => mret l
      | (Err e, _) => Err e
      | (Panic, _) => Panic
      | (NoFuel, _) => NoFuel
      end
  end.

Definition addRecursive (fuel : nat) (root : Path) (ctor : Path -> Change) (l : list Change) : result (list Change) :=
  if bool_decide (path_String root = []) then Err ErrEmptyFileName
  else
    dir ← path_IsDir root;
    if negb dir then mret (if negb (path_Skip root) then l ++ [ctor root] else l)
    else i ← NewIterFromPath root; addRecursive_loop fuel ctor i l.

Definition AddRecursiveInsert (fuel : nat) (root : Path) : list Change -> result (list Change) := addRecursive fuel root NewInsert.
Definition AddRecursiveDelete (fuel : nat) (root : Path) : list Change -> result (list Change) := addRecursive fuel root NewDelete.

(** ** Two iterators *)

Record doubleIter := { from_iter : Iter; from_current : option Path; to_iter : Iter; to_current : option Path }.

(** The path, or nil at the end. *)
Definition turnEOFIntoNil (r : result Path * Iter) : result (option Path * Iter) :=
  match r with
  | (Ok p, it) => mret (Some p, it)
  | (Err IterEOF, it) => mret (None, it)
  | (Err e, _) => Err e
  | (Panic, _) => Panic
  | (NoFuel, _) => NoFuel
  end.

Definition newDoubleIter (from to : N) : result doubleIter :=
  fi ← NewIter from;
  '(fc, fi) ← turnEOFIntoNil (Next fi);
  ti ← NewIter to;
  '(tc, ti) ← turnEOFIntoNil (Next ti);
  mret {| from_iter := fi; from_current := fc; to_iter := ti; to_current := tc |}.

Definition advanceFrom (adv : Iter -> result Path * Iter) (d : doubleIter) : result doubleIter :=
  '(c, it) ← turnEOFIntoNil (adv (from_iter d));
  mret {| from_iter := it; from_current := c; to_iter := to_iter d; to_current := to_current d |}.
Definition advanceTo (adv : Iter -> result Path * Iter) (d : doubleIter) : result doubleIter :=
  '(c, it) ← turnEOFIntoNil (adv (to_iter d));
  mret {| from_iter := from_iter d; from_current := from_current d; to_iter := it; to_current := c |}.

Definition nextFrom : doubleIter -> result doubleIter := advanceFrom Next.
Definition nextTo : doubleIter -> result doubleIter := advanceTo Next.
Definition nextBoth (d : doubleIter) : result doubleIter := d ← nextFrom d; nextTo d.
Definition stepBoth (d : doubleIter) : result doubleIter := d ← advanceFrom Step d; advanceTo Step d.

Inductive remaining := noMoreNoders | onlyToRemains (to : Path) | onlyFromRemains (from : Path) | bothHaveNodes (from to : Path).

Definition remaining_of (d : doubleIter) : remaining :=
  match from_current d, to_current d with
  | None, None => noMoreNoders
  | None, Some to => onlyToRemains to
  | Some from, None => onlyFromRemains from
  | Some from, Some to => bothHaveNodes from to
  end.

Section diff.
Context (hashEqual : N -> N -> bool).

Record comparison := {
  sameHash : bool; bothAreFiles : bool; fileAndDir : bool; bothAreDirs : bool; fromIsEmptyDir : bool; toIsEmptyDir : bool;
}.

Definition compare (from to : Path) : result comparison :=
  f ← Last from; t ← Last to;
  let fromIsDir := noder_IsDir f in
  let toIsDir := noder_IsDir t in
  let dirs := fromIsDir && toIsDir in
  let files := negb fromIsDir && negb toIsDir in
  fromNumChildren ← path_NumChildren from;
  toNumChildren ← path_NumChildren to;
  mret {| sameHash := hashEqual f t; bothAreFiles := files; fileAndDir := negb dirs && negb files; bothAreDirs := dirs;
          fromIsEmptyDir := fromIsDir && (fromNumChildren =? 0); toIsEmptyDir := toIsDir && (toNumChildren =? 0) |}.

(** ** The differences *)

Section fuel.
Context (fuel : nat).

#[local] Notation state := (list Change * doubleIter)%type.

Definition diffDirs (from to : Path) (changes : list Change) (ii : doubleIter) : result state :=
  status ← compare from to;
  if fromIsEmptyDir status then
    changes ← AddRecursiveInsert fuel to changes; ii ← nextBoth ii; mret (changes, ii)
  else if toIsEmptyDir status then
    changes ← AddRecursiveDelete fuel from changes; ii ← nextBoth ii; mret (changes, ii)
  else ii ← stepBoth ii; mret (changes, ii).

Definition diffNodesSameName (from to : Path) (changes : list Change) (ii : doubleIter) : result state :=
  status ← compare from to;
  if sameHash status then ii ← nextBoth ii; mret (changes, ii)
  else if bothAreFiles status then ii ← nextBoth ii; mret (changes ++ [NewModify from to], ii)
  else if fileAndDir status then
    changes ← AddRecursiveDelete fuel from changes;
    changes ← AddRecursiveInsert fuel to changes;
    ii ← nextBoth ii; mret (changes, ii)
  else if bothAreDirs status then diffDirs from to changes ii
  else Err BadStatus.

Definition diffNodes (from to : Path) (changes : list Change) (ii : doubleIter) : result state :=
  match path_Compare from to with
  | Lt => changes ← AddRecursiveDelete fuel from changes; ii ← nextFrom ii; mret (changes, ii)
  | Gt => changes ← AddRecursiveInsert fuel to changes; ii ← nextTo ii; mret (changes, ii)
  | Eq => diffNodesSameName from to changes ii
  end.

(** One turn of the loop while nodes remain. *)
Definition diff_turn (r : remaining) (ret : list Change) (ii : doubleIter) : result state :=
  match r with
  | noMoreNoders => mret (ret, ii)
  | onlyFromRemains from =>
      ret ← (if negb (path_Skip from) then AddRecursiveDelete fuel from ret else mret ret);
      ii ← nextFrom ii; mret (ret, ii)
  | onlyToRemains to =>
      ret ← (if negb (path_Skip to) then AddRecursiveInsert fuel to ret else mret ret);
      ii ← nextTo ii; mret (ret, ii)
  | bothHaveNodes from to =>
      if path_Skip from then
        f ← path_Name from; t ← path_Name to;
        ii ← (if bool_decide (f = t) then nextBoth ii else nextFrom ii); mret (ret, ii)
      else if path_Skip to then
        f ← path_Name from; t ← path_Name to;
        ii ← (if bool_decide (f = t) then nextBoth ii else nextTo ii); mret (ret, ii)
      else diffNodes from to ret ii
  end.

(** [done n] says whether the context is done when it is asked the n-th
    time. *)
Fixpoint DiffTree_loop (turns : nat) (done : nat -> bool) (n : nat) (ret : list Change) (ii : doubleIter) : result (list Change) :=
  match turns with
  | O => NoFuel
  | S f =>
      if done n then Err ErrCanceled
      else match remaining_of ii with
           | noMoreNoders => mret ret
           | r => '(ret, ii) ← diff_turn r ret ii; DiffTree_loop f done (S n) ret ii
           end
  end.

Definition DiffTreeContext (done : nat -> bool) (fromTree toTree : N) : result (list Change) :=
  ii ← newDoubleIter fromTree toTree; DiffTree_loop fuel done 0 [] ii.

Definition DiffTree (fromTree toTree : N) : result (list Change) := DiffTreeContext (fun _ => false) fromTree toTree.
End fuel.
End diff.
End sort.
End merkletrie.

(** ** Tries *)

(** A node with what its children, and theirs, are. *)
Inductive trie (N : Type) := Trie (n : N) (cs : list (trie N)).
Arguments Trie {N} n cs.

Section tries.
Context {N E : Type} `{!Noder N E}.

Definition root (t : trie N) : N := match t with Trie n _ => n end.
Definition kids (t : trie N) : list (trie N) := match t with Trie _ cs => cs end.
Definition trie_Name (t : trie N) : bytes := noder_Name (root t).

Fixpoint size (t : trie N) : nat := match t with Trie _ cs => S (sum_list (map size cs)) end.
Definition forest_size (ts : list (trie N)) : nat := sum_list (size <$> ts).

Lemma size_eq t : size t = S (forest_size (kids t)).
Proof. by destruct t. Qed.

Lemma forest_size_app ts us : forest_size (ts ++ us) = (forest_size ts + forest_size us)%nat.
Proof. unfold forest_size. by rewrite fmap_app, sum_list_with_app. Qed.

#[export] Instance forest_size_perm : Proper ((≡ₚ) ==> (=)) forest_size.
Proof. intros ts us Hp. unfold forest_size. by rewrite Hp. Qed.

(** The paths of the files of a trie, from its root on. *)
Fixpoint files_of (t : trie N) : list (list N) :=
  match t with Trie n cs => if noder_IsDir n then cons n <$> concat (map files_of cs) else [[n]] end.

Definition forest_files (ts : list (trie N)) : list (list N) := ts ≫= files_of.

Lemma files_of_eq t :
  files_of t = if noder_IsDir (root t) then cons (root t) <$> forest_files (kids t) else [[root t]].
Proof.
  destruct t as [n cs]. cbn [files_of root kids]. unfold forest_files. destruct (noder_IsDir n); [|done]. f_equal.
  induction cs as [|c cs IH]; [done|]. cbn. by rewrite IH.
Qed.

(** What the methods of the nodes answer: a directory lists its children,
    which have different names; nothing is skipped. *)
Inductive reads : trie N -> Prop := reads_intro n cs :
  noder_Children n = Ok (root <$> cs) -> noder_NumChildren n = Ok (len cs) ->
  (noder_IsDir n = false -> cs = []) -> NoDup (trie_Name <$> cs) ->
  Forall (fun c => trie_Name c <> [] /\ noder_Skip (root c) = false) cs -> Forall reads cs ->
  reads (Trie n cs).

(** *** The order of paths *)

Fixpoint before (p q : list bytes) : Prop :=
  match p, q with
  | x :: p, y :: q => bytes_lt x y \/ (x = y /\ before p q)
  | _, _ => False
  end.

Lemma before_trans p q r : before p q -> before q r -> before p r.
Proof.
  revert q r. induction p as [|x p IH]; intros [|y q] [|z r] H1 H2; cbn in *; try done.
  destruct H1 as [H1|[<- H1]], H2 as [H2|[<- H2]]; [left; by etrans|by left|by left|right; split; [done|by eapply IH]].
Qed.

Lemma before_app p q a b : before p q -> before (p ++ a) (q ++ b).
Proof.
  revert q. induction p as [|x p IH]; intros [|y q] H; cbn in *; try done. destruct H as [H|[-> H]]; [by left|right; auto].
Qed.

Lemma before_irrefl p : ~ before p p.
Proof. induction p as [|x p IH]; cbn; [tauto|]. intros [H|[_ H]]; [by eapply bytes_lt_irrefl|done]. Qed.

Lemma before_prefix p x y a b : bytes_lt x y -> before (p ++ x :: a) (p ++ y :: b).
Proof. intros H. induction p as [|z p IH]; cbn; [by left|right; auto]. Qed.

Definition names (p : list N) : list bytes := noder_Name <$> p.

Lemma Compare_before p q :
  (before (names p) (names q) -> path_Compare p q = Lt) /\ (before (names q) (names p) -> path_Compare p q = Gt)
  /\ (names p = names q -> path_Compare p q = Eq).
Proof.
  revert q. induction p as [|x p IH]; intros [|y q]; cbn; [done..|].
  destruct (IH q) as (IH1 & IH2 & IH3). split_and!.
  - intros [H|[Heq H]]; [by rewrite H|rewrite Heq, bytes_compare_refl; auto].
  - intros [H|[Heq H]].
    + rewrite bytes_compare_antisym. unfold bytes_lt in H. by rewrite H.
    + rewrite Heq, bytes_compare_refl; auto.
  - intros [= -> Heq]. rewrite bytes_compare_refl. auto.
Qed.

(** *** Lists of nodes to visit *)

(** A trie and the path of its parent. *)
Definition item : Type := list N * trie N.

Definition item_path (i : item) : list N := i.1 ++ [root i.2].
Definition item_files (i : item) : list (list N) := app i.1 <$> files_of i.2.
Definition items (p : list N) (ts : list (trie N)) : list item := pair p <$> ts.
Definition files (w : list item) : list (list N) := w ≫= item_files.
Definition work_size (w : list item) : nat := sum_list ((fun i => size i.2) <$> w).

Lemma work_size_items p ts : work_size (items p ts) = forest_size ts.
Proof. unfold work_size, items, forest_size. by rewrite <-list_fmap_compose. Qed.

Lemma work_size_app w v : work_size (w ++ v) = (work_size w + work_size v)%nat.
Proof. unfold work_size. by rewrite fmap_app, sum_list_with_app. Qed.

Lemma files_items p ts : files (items p ts) = app p <$> forest_files ts.
Proof.
  unfold files, items, forest_files. induction ts as [|t ts IH]; [done|]. cbn in *. rewrite fmap_app. by rewrite IH.
Qed.

Lemma item_files_eq i :
  item_files i = if noder_IsDir (root i.2) then files (items (item_path i) (kids i.2)) else [item_path i].
Proof.
  destruct i as [p t]. unfold item_files, item_path. cbn. rewrite files_of_eq, files_items.
  destruct (noder_IsDir (root t)); [|done]. rewrite <-list_fmap_compose. apply list_fmap_ext. intros _ q _. cbn. by rewrite <-app_assoc.
Qed.

Lemma item_files_prefix i q : q ∈ item_files i -> exists r, q = item_path i ++ r.
Proof.
  rewrite item_files_eq. destruct (noder_IsDir (root i.2)).
  - rewrite files_items. intros (r & -> & _)%list_elem_of_fmap. by exists r.
  - intros ->%list_elem_of_singleton. exists []. by rewrite app_nil_r.
Qed.
End tries.

(** ** The iterator visits a list of nodes *)

(** [sort.Sort] permutes, and sorts by keys; its order of equal keys is not
    determined. *)
Class Sorts {N : Type} (Sort : (N -> N -> bool) -> list N -> list N) := {
  Sort_perm : forall less l, Sort less l ≡ₚ l;
  Sort_sorted : forall (key : N -> bytes) l,
    StronglySorted (fun a b => bytes_ltb (key a) (key b) = false) (Sort (fun a b => bytes_ltb (key b) (key a)) l);
}.

Lemma StronglySorted_rev {A} (R : relation A) l : StronglySorted R l -> StronglySorted (flip R) (rev l).
Proof.
  induction 1 as [|x l Hl IH Hx]; [constructor|]. cbn. apply StronglySorted_app. split_and!; [|done|by repeat constructor].
  intros a b Ha ->%list_elem_of_singleton. rewrite Forall_forall in Hx. apply Hx. by rewrite Permutation_rev.
Qed.

Section visit.
Context {N E : Type} `{!Noder N E} (Sort : (N -> N -> bool) -> list N -> list N) `{!Sorts Sort}.
#[local] Notation result := (outcome (diff_error E)).

Definition ascending (ts : list (trie N)) : Prop := StronglySorted (fun a b => bytes_lt (trie_Name a) (trie_Name b)) ts.

Definition frame_of (ts : list (trie N)) : Frame := rev (root <$> ts).

Lemma frame_New_spec n cs :
  reads (Trie n cs) ->
  exists ts, frame_New Sort (map_err NoderError (noder_Children n)) = Ok (frame_of ts) /\ ts ≡ₚ cs /\ ascending ts.
Proof.
  inversion 1 as [? ? Hch _ _ Hnd _ _]; subst. unfold frame_New. rewrite Hch. cbn. unfold byName_Less.
  set (f := Sort _ _). pose proof (Sort_perm _ _ : f ≡ₚ root <$> cs) as Hp.
  pose proof (Sort_sorted noder_Name (root <$> cs)) as Hs. fold f in Hs. symmetry in Hp.
  destruct (Permutation_map_inv _ _ (Permutation_sym Hp)) as (ts & Hf & Hts). exists (rev ts).
  unfold frame_of. rewrite <-map_rev, rev_involutive, Hf. split_and!; [done| |].
  - by rewrite <-Permutation_rev.
  - rewrite Hf in Hs. apply StronglySorted_rev in Hs. rewrite <-map_rev in Hs.
    assert (NoDup (trie_Name <$> rev ts)) as Hnd' by (rewrite <-Permutation_rev, <-Hts; done).
    clear -Hs Hnd'. unfold ascending. induction (rev ts) as [|t l IH]; [constructor|].
    cbn in Hs, Hnd'. apply NoDup_cons in Hnd' as [Ht Hnd']. inversion_clear Hs as [|? ? Hl Hx]. constructor; [by apply IH|].
    apply Forall_forall. intros u Hu. rewrite Forall_forall in Hx. specialize (Hx (root u)). unfold flip in Hx.
    rewrite bytes_ltb_false in Hx. unfold trie_Name.
    destruct (bytes_lt_total (noder_Name (root t)) (noder_Name (root u))) as [?|[Heq|?]]; [done| |].
    + exfalso. apply Ht. apply list_elem_of_fmap. by exists u.
    + exfalso. apply Hx; [|done]. by apply list_elem_of_fmap_2.
Qed.

(** The stack of frames: the siblings still to visit at every level, the first
    of each level but the top being an ancestor of what is visited. *)
Fixpoint prefix (base : list N) (levels : list (list (trie N))) : list N :=
  match levels with
  | [] => base
  | l :: lower => prefix base lower ++ match l with [] => [] | t :: _ => [root t] end
  end.

Fixpoint rest (base : list N) (levels : list (list (trie N))) : list (@item N) :=
  match levels with [] => [] | l :: lower => items (prefix base lower) (tail l) ++ rest base lower end.

Definition work (base : list N) (levels : list (list (trie N))) : list (@item N) :=
  match levels with [] => [] | l :: lower => items (prefix base lower) l ++ rest base lower end.

Fixpoint level_drop (levels : list (list (trie N))) : list (list (trie N)) :=
  match levels with
  | [] => []
  | l :: lower => match tail l with [] => level_drop lower | l => l :: lower end
  end.

Lemma work_level_drop base levels : work base (level_drop levels) = rest base levels.
Proof.
  induction levels as [|l lower IH]; [done|]. cbn. destruct (tail l) as [|t l']; [done|]. done.
Qed.

Lemma work_drop base levels : Forall (fun l => l <> []) levels -> work base (level_drop levels) = tail (work base levels).
Proof. intros H. rewrite work_level_drop. destruct H as [|[|t l] lower Hl _]; done. Qed.

Lemma level_drop_nonempty levels : Forall (fun l => l <> []) levels -> Forall (fun l => l <> []) (level_drop levels).
Proof. induction 1 as [|l lower Hl H IH]; [done|]. cbn. destruct (tail l); [done|by constructor]. Qed.

Lemma Drop_frame_of l : Drop (frame_of l) = frame_of (tail l).
Proof. unfold Drop, frame_of. destruct l as [|t l]; [done|]. cbn. by rewrite removelast_last. Qed.

Lemma frame_of_nil l : frame_of l = [] -> l = [].
Proof. unfold frame_of. destruct l as [|t l]; [done|]. cbn. by destruct (rev (root <$> l)). Qed.

Lemma drop_frames_spec levels : drop_frames (frame_of <$> levels) = frame_of <$> level_drop levels.
Proof.
  induction levels as [|l lower IH]; [done|]. cbn. rewrite Drop_frame_of. destruct (tail l) as [|t l']; [done|].
  destruct (frame_of (t :: l')) eqn:Hf; [by apply frame_of_nil in Hf|by rewrite <-Hf].
Qed.

(** The path of the next node. *)
Definition head_path (w : list (@item N)) : result (list N) :=
  match w with [] => Err IterEOF | i :: _ => Ok (item_path i) end.

Lemma mapM_snoc {A B} (f : A -> option B) l x ks k :
  mapM f l = Some ks -> f x = Some k -> mapM f (l ++ [x]) = Some (ks ++ [k]).
Proof.
  intros Hl Hx. revert ks Hl. induction l as [|y l IH]; cbn; [intros ? [= <-]; by rewrite Hx|]. intros ks.
  destruct (f y); [|done]. cbn. destruct (mapM f l) as [ks'|]; [|done]. cbn. intros [= <-]. by rewrite (IH ks' eq_refl).
Qed.

Lemma mapM_First base levels :
  Forall (fun l => l <> []) levels ->
  exists ps, mapM First (rev (frame_of <$> levels)) = Some ps /\ base ++ ps = prefix base levels.
Proof.
  induction 1 as [|[|t l] lower Hl _ (ps & IH & Hps)]; [exists []; split; [done|by rewrite app_nil_r]|done|].
  exists (ps ++ [root t]). cbn [prefix fmap list_fmap rev]. rewrite app_assoc, Hps. split; [|done].
  apply mapM_snoc; [done|]. unfold First, frame_of. cbn. apply last_snoc.
Qed.

Record visits (it : Iter) (w : list (@item N)) : Prop := {
  v_levels : exists levels, frameStack it = frame_of <$> levels /\ w = work (iter_base it) levels
               /\ (Forall (fun l => l <> []) levels \/ levels = [[]]);
}.

Lemma current_spec it w : visits it w -> current it = head_path w.
Proof.
  intros [(levels & Hf & -> & Hl)]. unfold current. rewrite Hf. destruct Hl as [Hl| ->]; [|done].
  destruct (mapM_First (iter_base it) levels Hl) as (ps & Hps & Hb).
  destruct Hl as [|[|t l] lower Hl Hlow]; [done|done|]. cbn [fmap list_fmap]. cbn [fmap list_fmap] in Hps.
  rewrite Hps. unfold First, frame_of at 1. cbn. rewrite last_snoc. cbn. rewrite Hb. done.
Qed.
Lemma Last_item (i : @item N) : Last (E := E) (item_path i) = Ok (root i.2).
Proof. unfold Last, item_path. by rewrite last_snoc. Qed.

Lemma IsDir_item (i : @item N) : path_IsDir (E := E) (item_path i) = Ok (noder_IsDir (root i.2)).
Proof. unfold path_IsDir. by rewrite Last_item. Qed.

Lemma Skip_item (i : @item N) : path_Skip (item_path i) = noder_Skip (root i.2).
Proof. unfold path_Skip, item_path. by rewrite last_snoc. Qed.

Lemma reads_inv t : reads t ->
  noder_Children (root t) = Ok (root <$> kids t) /\ noder_NumChildren (root t) = Ok (len (kids t))
  /\ (noder_IsDir (root t) = false -> kids t = []) /\ Forall reads (kids t).
Proof. by inversion 1. Qed.

Lemma advance_fresh b it (w : list (@item N)) :
  hasStarted it = false -> visits it w ->
  exists it', advance Sort b it = (head_path w, it') /\ visits it' w /\ (w <> [] -> hasStarted it' = true).
Proof.
  intros Hs Hv. unfold advance. rewrite (current_spec it w Hv), Hs. destruct w as [|i w].
  - exists it. by split_and!.
  - eexists. split_and!; [reflexivity| |done]. destruct Hv as [(levels & Hf & Hw & Hl)]. constructor. by exists levels.
Qed.

(** What the iterator stands on, and that it has started. *)
Definition stands (it : Iter) (w : list (@item N)) : Prop := visits it w /\ (w <> [] -> hasStarted it = true).

Lemma visits_cons it i w :
  visits it (i :: w) ->
  exists l lower, frameStack it = frame_of <$> ((i.2 :: l) :: lower) /\ Forall (fun l => l <> []) lower
    /\ i.1 = prefix (iter_base it) lower /\ w = rest (iter_base it) ((i.2 :: l) :: lower).
Proof.
  intros [(levels & Hf & Hw & [Hl| ->])]; [|done]. destruct Hl as [|[|t l] lower Hl Hlow]; [done..|].
  cbn in Hw. injection Hw as -> ->. by exists l, lower.
Qed.

Lemma stands_drop it i w :
  visits it (i :: w) -> visits (with_frames it (drop_frames (frameStack it))) w.
Proof.
  intros (l & lower & Hf & Hlow & Hi & ->)%visits_cons. constructor. exists (level_drop ((i.2 :: l) :: lower)).
  cbn [with_frames frameStack iter_base]. rewrite Hf, drop_frames_spec, work_level_drop. split_and!; [done..|left].
  apply level_drop_nonempty. by constructor.
Qed.

Lemma Next_spec it i w :
  stands it (i :: w) -> reads i.2 ->
  exists it', Next Sort it = (head_path w, it') /\ stands it' w.
Proof.
  intros [Hv Hs] Hr. specialize (Hs ltac:(done)). apply reads_inv in Hr as (_ & Hn & _).
  unfold Next, advance. rewrite (current_spec _ _ Hv), Hs. cbn [head_path negb]. unfold path_NumChildren.
  rewrite Last_item. cbn [mbind outcome_bind]. rewrite Hn. cbn [map_err]. rewrite andb_false_r.
  apply stands_drop in Hv. rewrite (current_spec _ _ Hv). eexists. by split.
Qed.

Lemma Step_spec it i w :
  stands it (i :: w) -> reads i.2 ->
  exists ts it', ts ≡ₚ kids i.2 /\ ascending ts
    /\ Step Sort it = (head_path (items (item_path i) ts ++ w), it') /\ stands it' (items (item_path i) ts ++ w).
Proof.
  intros [Hv Hs] Hr. specialize (Hs ltac:(done)). pose proof Hr as Hr'. apply reads_inv in Hr' as (_ & Hn & _).
  unfold Step, advance. rewrite (current_spec _ _ Hv), Hs. cbn [head_path negb]. unfold path_NumChildren, path_Children.
  rewrite Last_item. cbn [mbind outcome_bind]. rewrite Hn. cbn [map_err]. rewrite andb_true_r.
  destruct (frame_New_spec (root i.2) (kids i.2)) as (ts & Hfr & Hts & Hasc); [by destruct (i.2)|].
  rewrite Hfr. destruct (Z.eqb_spec (len (kids i.2)) 0) as [H0|H0]; cbn [negb].
  - apply len_zero_nil in H0. rewrite H0 in Hts. apply Permutation_nil_r in Hts as ->. exists []. cbn [items fmap list_fmap app].
    apply stands_drop in Hv. rewrite (current_spec _ _ Hv). eexists. split_and!; [by rewrite H0|done..].
  - exists ts. assert (visits (with_frames it (frame_of ts :: frameStack it)) (items (item_path i) ts ++ w)) as Hv'.
    { apply visits_cons in Hv as (l & lower & Hf & Hlow & Hi & Hw). constructor. exists (ts :: (i.2 :: l) :: lower).
      cbn [with_frames frameStack iter_base]. rewrite Hf. split_and!; [done| |left].
      - rewrite Hw. unfold work, item_path. cbn [prefix]. by rewrite Hi.
      - repeat constructor; [|done|done]. intros ->. apply Permutation_nil_l in Hts. by rewrite <-Hts in H0. }
    rewrite (current_spec _ _ Hv'). eexists. by split_and!.
Qed.
(** *** Adding a subtree *)

Definition item_ok (i : @item N) : Prop := reads i.2 /\ trie_Name i.2 <> [] /\ noder_Skip (root i.2) = false.

Lemma kids_ok p t ts : reads t -> ts ≡ₚ kids t -> Forall item_ok (items p ts).
Proof.
  intros Hr Hts. unfold items. apply Forall_fmap. rewrite Hts. inversion Hr as [n cs _ _ _ _ Hv Hc]; subst. cbn.
  rewrite Forall_forall in *. intros c Hin. unfold item_ok. cbn. destruct (Hv c Hin). by split_and!; [apply Hc| |].
Qed.

Lemma size_step (i : @item N) ts w : ts ≡ₚ kids i.2 -> (work_size (items (item_path i) ts ++ w) < work_size (i :: w))%nat.
Proof.
  intros Hts. rewrite work_size_app, work_size_items, Hts. unfold work_size at 2. cbn. rewrite size_eq.
  unfold work_size. lia.
Qed.

Lemma files_step (i : @item N) ts w :
  ts ≡ₚ kids i.2 -> reads i.2 ->
  files (i :: w) ≡ₚ (if noder_IsDir (root i.2) then [] else [item_path i]) ++ files (items (item_path i) ts ++ w).
Proof.
  intros Hts Hr. unfold files at 1. cbn. change (w ≫= item_files) with (files w). rewrite item_files_eq.
  unfold files at 3. rewrite bind_app. change (w ≫= item_files) with (files w). fold (files (items (item_path i) ts)).
  rewrite !files_items. apply reads_inv in Hr as (_ & _ & Hf & _). unfold forest_files. destruct (noder_IsDir (root i.2)).
  - cbn. by rewrite Hts.
  - rewrite (Hf eq_refl) in Hts. by apply Permutation_nil_r in Hts as ->.
Qed.

Lemma addRecursive_loop_spec fuel ctor it (w : list (@item N)) l :
  Forall item_ok w -> (work_size w < fuel)%nat ->
  (exists it', Step Sort it = (head_path w, it') /\ stands it' w) ->
  exists F, addRecursive_loop Sort fuel ctor it l = Ok (l ++ (ctor <$> F)) /\ F ≡ₚ files w.
Proof.
  revert it w l. induction fuel as [|fuel IH]; intros it w l Hok Hf (it' & Hst & Hs); [lia|].
  cbn [addRecursive_loop]. rewrite Hst. destruct Hok as [|i w Hi Hok]; cbn [head_path].
  { exists []. by rewrite app_nil_r. }
  destruct Hi as (Hr & Hn & Hsk).
  destruct (Step_spec it' i w Hs Hr) as (ts & it'' & Hts & _ & Hst' & Hs').
  destruct (IH it' (items (item_path i) ts ++ w) (if noder_IsDir (root i.2) then l else l ++ [ctor (item_path i)]))
    as (F & Hloop & HF).
  - apply Forall_app. split; [by eapply kids_ok|done].
  - pose proof (size_step i ts w Hts). lia.
  - by exists it''.
  - rewrite IsDir_item, Skip_item, Hsk. cbn [mbind outcome_bind mret outcome_ret]. pose proof (files_step i ts w Hts Hr) as Hfs.
    destruct (noder_IsDir (root i.2)); cbn [orb].
    + exists F. split; [done|]. by rewrite HF, Hfs.
    + exists (item_path i :: F). rewrite Hloop. cbn. split; [by rewrite <-app_assoc|]. by rewrite HF, Hfs.
Qed.

Lemma newIter_spec n t base :
  reads t -> n = root t ->
  exists ts it, newIter Sort (Some (map_err NoderError (noder_Children n))) base = Ok it /\ ts ≡ₚ kids t /\ ascending ts
    /\ hasStarted it = false /\ visits it (items base ts).
Proof.
  intros Hr ->. destruct (frame_New_spec (root t) (kids t)) as (ts & Hfr & Hts & Hasc); [by destruct t|].
  unfold newIter. rewrite Hfr. exists ts. eexists. split_and!; [reflexivity|done..|].
  constructor. exists [ts]. cbn. rewrite app_nil_r. split_and!; [done..|]. destruct ts; [by right|left]. by repeat constructor.
Qed.

Lemma Join_nonempty ps p : p <> [] -> Join (ps ++ [p]) 47 <> [].
Proof.
  intros Hp. induction ps as [|q ps IH]; [done|]. cbn [app]. rewrite Join_cons by (by destruct ps). by destruct q.
Qed.

Lemma String_item (i : @item N) : trie_Name i.2 <> [] -> path_String (item_path i) <> [].
Proof. intros Hn. unfold path_String, item_path. rewrite (fmap_app noder_Name). by apply Join_nonempty. Qed.

Lemma addRecursive_spec fuel ctor (i : @item N) l :
  item_ok i -> (size i.2 <= fuel)%nat ->
  exists F, addRecursive Sort fuel (item_path i) ctor l = Ok (l ++ (ctor <$> F)) /\ F ≡ₚ item_files i.
Proof.
  intros (Hr & Hn & Hsk) Hf. unfold addRecursive. rewrite IsDir_item, Skip_item, Hsk.
  rewrite bool_decide_eq_false_2 by (by apply String_item). cbn [mbind outcome_bind mret outcome_ret negb].
  rewrite item_files_eq. destruct (noder_IsDir (root i.2)) eqn:Hd; cbn [negb].
  - destruct (newIter_spec (root i.2) i.2 (item_path i) Hr eq_refl) as (ts & it & Hnew & Hts & _ & Hfresh & Hv).
    unfold NewIterFromPath, path_Children. rewrite Last_item. cbn [mbind outcome_bind]. rewrite Hnew. cbn [mbind outcome_bind].
    destruct (addRecursive_loop_spec fuel ctor it (items (item_path i) ts) l) as (F & Hloop & HF).
    + by eapply kids_ok.
    + rewrite work_size_items, Hts. rewrite size_eq in Hf. lia.
    + destruct (advance_fresh true it _ Hfresh Hv) as (it' & ? & ? & ?). exists it'. by split.
    + exists F. rewrite Hloop. split; [done|]. rewrite HF, !files_items. unfold forest_files. by rewrite Hts.
  - exists [item_path i]. done.
Qed.
End visit.

(** ** The changes between two lists of files *)

Section reference.
Context {N E : Type} `{!Noder N E} (hashEqual : N -> N -> bool).

Definition same_hash (p q : list N) : bool :=
  match last p, last q with Some a, Some b => hashEqual a b | _, _ => false end.

Definition removed (F T : list (list N)) : list (list N) := filter (fun p => names p ∉ names <$> T) F.
Definition modified (F T : list (list N)) : list Change :=
  F ≫= fun p => NewModify p <$> filter (fun q => names q = names p /\ same_hash p q = false) T.

(** A file only one side has is deleted or inserted, one that both have with
    different hashes is modified. *)
Definition reference (F T : list (list N)) : list Change :=
  (NewDelete <$> removed F T) ++ (NewInsert <$> removed T F) ++ modified F T.

Definition disjoint_names (F T : list (list N)) : Prop := forall p q, p ∈ F -> q ∈ T -> names p <> names q.

Lemma disjoint_sym F T : disjoint_names F T -> disjoint_names T F.
Proof. intros H p q Hp Hq Heq. by eapply H. Qed.

Lemma filter_ext {A} (P Q : A -> Prop) `{!forall x, Decision (P x)} `{!forall x, Decision (Q x)} (l : list A) :
  (forall x, x ∈ l -> P x <-> Q x) -> filter P l = filter Q l.
Proof.
  induction l as [|x l IH]; intros Hl; [done|]. rewrite !filter_cons.
  rewrite IH by (intros; apply Hl; by right). destruct (Hl x ltac:(by left)). repeat case_decide; naive_solver.
Qed.
Lemma elem_of_names p (T : list (list N)) : p ∈ names <$> T <-> exists q, q ∈ T /\ names q = p.
Proof. rewrite list_elem_of_fmap. naive_solver. Qed.

Lemma removed_app F1 F2 T1 T2 :
  disjoint_names F1 T2 -> disjoint_names F2 T1 -> removed (F1 ++ F2) (T1 ++ T2) = removed F1 T1 ++ removed F2 T2.
Proof.
  intros H1 H2. unfold removed. rewrite filter_app. f_equal; apply filter_ext; intros p Hp; rewrite fmap_app, not_elem_of_app;
    (split; [by intros []|]); intros Hn; (split; [try done|try done]);
    rewrite elem_of_names; intros (q & Hq & Heq); [by eapply H1|by eapply H2].
Qed.

Lemma modified_app F1 F2 T1 T2 :
  disjoint_names F1 T2 -> disjoint_names F2 T1 -> modified (F1 ++ F2) (T1 ++ T2) = modified F1 T1 ++ modified F2 T2.
Proof.
  intros H1 H2. unfold modified. rewrite bind_app. f_equal; apply Forall_bind_ext, Forall_forall; intros p Hp; rewrite filter_app.
  - rewrite (filter_none _ T2), app_nil_r; [done|]. apply Forall_forall. intros q Hq [Heq _]. by eapply H1.
  - rewrite (filter_none _ T1); [done|]. apply Forall_forall. intros q Hq [Heq _]. by eapply H2.
Qed.

Lemma reference_app F1 F2 T1 T2 :
  disjoint_names F1 T2 -> disjoint_names F2 T1 ->
  reference (F1 ++ F2) (T1 ++ T2) ≡ₚ reference F1 T1 ++ reference F2 T2.
Proof.
  intros H1 H2. unfold reference. rewrite removed_app, modified_app, (removed_app T1 T2 F1 F2) by (done || by apply disjoint_sym).
  rewrite !fmap_app. solve_Permutation.
Qed.

Lemma removed_disjoint F T : disjoint_names F T -> removed F T = F.
Proof.
  intros H. apply filter_all, Forall_forall. intros p Hp. rewrite elem_of_names. intros (q & Hq & Heq). by eapply H.
Qed.

Lemma reference_disjoint F T : disjoint_names F T -> reference F T = (NewDelete <$> F) ++ (NewInsert <$> T).
Proof.
  intros H. unfold reference. rewrite !removed_disjoint by (done || by apply disjoint_sym).
  replace (modified F T) with (@nil (@Change N)); [by rewrite app_nil_r|]. unfold modified. symmetry.
  induction F as [|p F IH]; [done|]. cbn. rewrite filter_none; [|apply Forall_forall; intros q Hq [Heq _]; by eapply (H p); [left|..]].
  apply IH. intros p' q Hp. by apply H; right.
Qed.

Lemma reference_single p q :
  names p = names q -> reference [p] [q] = if same_hash p q then [] else [NewModify p q].
Proof.
  intros Heq. unfold reference, removed, modified. cbn. rewrite Heq.
  rewrite !decide_False by (intros Hn; apply Hn; by left). cbn. rewrite app_nil_r.
  destruct (same_hash p q); [by rewrite decide_False by (by intros [])|by rewrite decide_True].
Qed.

Lemma disjoint_nil_l T : disjoint_names [] T.
Proof. by intros p q Hp%elem_of_nil. Qed.

Lemma disjoint_nil_r F : disjoint_names F [].
Proof. by intros p q _ Hq%elem_of_nil. Qed.

#[export] Instance reference_perm : Proper ((≡ₚ) ==> (≡ₚ) ==> (≡ₚ)) reference.
Proof.
  intros F F' HF T T' HT. unfold reference.
  assert (forall A A' B B', A ≡ₚ A' -> B ≡ₚ B' -> removed A B ≡ₚ removed A' B') as Hrem.
  { intros A A' B B' HA HB. unfold removed. rewrite HA. erewrite filter_ext; [done|]. intros p Hp. cbn. by rewrite HB. }
  rewrite (Hrem F F' T T'), (Hrem T T' F F') by done. do 2 f_equiv. unfold modified. rewrite HF. clear HF.
  induction F' as [|p F' IH]; [done|]. cbn. by rewrite IH, HT.
Qed.
End reference.

(** ** [DiffTree] *)

Section difference.
Context {N E : Type} `{!Noder N E} (Sort : (N -> N -> bool) -> list N -> list N) `{!Sorts Sort}.
Context (hashEqual : N -> N -> bool).
#[local] Notation item := (@item N).
#[local] Notation reference := (reference hashEqual).

(** The same files with the same hashes. *)
Inductive same : trie N -> trie N -> Prop :=
  | same_file a b :
      noder_IsDir (root a) = false -> noder_IsDir (root b) = false -> hashEqual (root a) (root b) = true -> same a b
  | same_dir a b bs :
      noder_IsDir (root a) = true -> noder_IsDir (root b) = true -> bs ≡ₚ kids b ->
      Forall2 (fun x y => trie_Name x = trie_Name y /\ same x y) (kids a) bs -> same a b.

(** The property the hashes of a merkle trie have: nodes at the same place
    with equal hashes hold the same. *)
Inductive honest : trie N -> trie N -> Prop := honest_intro f t :
  (hashEqual (root f) (root t) = true -> same f t) ->
  (forall f' t', f' ∈ kids f -> t' ∈ kids t -> trie_Name f' = trie_Name t' -> honest f' t') -> honest f t.

(** The same below the roots, which are not compared. *)
Definition honest_below (F T : trie N) : Prop :=
  forall f t, f ∈ kids F -> t ∈ kids T -> trie_Name f = trie_Name t -> honest f t.

Definition item_names (i : item) : list bytes := names (item_path i).

Lemma item_names_eq (p : list N) (t : trie N) : item_names (p, t) = names p ++ [trie_Name t].
Proof. unfold item_names, item_path, names. by rewrite fmap_app. Qed.

Lemma before_disjoint i j : before (item_names i) (item_names j) -> disjoint_names (item_files i) (item_files j).
Proof.
  intros Hb p q (r & ->)%item_files_prefix (s & ->)%item_files_prefix. unfold item_names, names in *. rewrite !fmap_app.
  intros Heq. apply (before_app _ _ (noder_Name <$> r) (noder_Name <$> s)) in Hb. rewrite Heq in Hb. by eapply before_irrefl.
Qed.

Lemma before_disjoint_files i w :
  (forall j, j ∈ w -> before (item_names i) (item_names j)) -> disjoint_names (item_files i) (files w).
Proof. intros Hw p q Hp (j & Hq & Hj)%list_elem_of_bind Heq. by eapply (before_disjoint i j); [apply Hw|..]. Qed.

Definition sorted_work (w : list item) : Prop := StronglySorted (fun i j => before (item_names i) (item_names j)) w.

Lemma sorted_items p ts : ascending ts -> sorted_work (items p ts).
Proof.
  intros H. apply (StronglySorted_fmap (pair p) _ (fun i j => before (item_names i) (item_names j))) in H; [done|].
  intros a b Hab. rewrite !item_names_eq. by apply before_prefix.
Qed.

Lemma items_before i j ts : before (item_names i) (item_names j) -> forall k, k ∈ items (item_path i) ts -> before (item_names k) (item_names j).
Proof.
  intros Hb k (t & -> & _)%list_elem_of_fmap. rewrite item_names_eq. rewrite <-(app_nil_r (item_names j)). by apply before_app.
Qed.

Lemma before_items i j ts : before (item_names i) (item_names j) -> forall k, k ∈ items (item_path j) ts -> before (item_names i) (item_names k).
Proof.
  intros Hb k (t & -> & _)%list_elem_of_fmap. rewrite item_names_eq. rewrite <-(app_nil_r (item_names i)). by apply before_app.
Qed.

(** *** Equal hashes *)

Lemma files_cons (i : item) w : files (i :: w) = item_files i ++ files w.
Proof. done. Qed.

Lemma names_disjoint p q x y ys :
  names p = names q -> trie_Name x = trie_Name y -> NoDup (trie_Name <$> y :: ys) ->
  disjoint_names (item_files (p, x)) (files (items q ys)).
Proof.
  intros Hpq Hxy Hnd u v (r & ->)%item_files_prefix (j & Hv & (z & -> & Hz)%list_elem_of_fmap)%list_elem_of_bind.
  apply item_files_prefix in Hv as (s & ->). unfold names, item_path in *. cbn. rewrite !fmap_app, Hpq, <-!app_assoc.
  intros Heq%app_inv_head. cbn in Heq. injection Heq as Heq _. cbn in Hnd. apply NoDup_cons in Hnd as [Hnd _].
  apply Hnd. rewrite <-Hxy. apply list_elem_of_fmap. by exists z.
Qed.

Lemma Forall2_names xs ys (P : trie N -> trie N -> Prop) :
  Forall2 (fun x y => trie_Name x = trie_Name y /\ P x y) xs ys -> Forall2 (fun x y => trie_Name x = trie_Name y) xs ys.
Proof. intros H. eapply Forall2_impl; [exact H|]. by intros ? ? []. Qed.

Lemma fmap_names xs ys : Forall2 (fun x y => trie_Name x = trie_Name y) xs ys -> trie_Name <$> xs = trie_Name <$> ys.
Proof. induction 1 as [|x y xs ys Hxy _ IH]; [done|]. cbn. by rewrite Hxy, IH. Qed.

Lemma same_reference n : forall a b p q,
  (size a <= n)%nat -> same a b -> reads a -> reads b -> names p = names q -> trie_Name a = trie_Name b ->
  reference (item_files (p, a)) (item_files (q, b)) ≡ₚ [].
Proof.
  induction n as [|n IH]; intros a b p q Hn Hs Ha Hb Hpq Hab; [rewrite size_eq in Hn; lia|].
  rewrite !item_files_eq. cbn [fst snd]. unfold item_path. cbn [fst snd].
  assert (names (p ++ [root a]) = names (q ++ [root b])) as Hnames.
  { unfold names in *. rewrite !fmap_app, Hpq. by f_equal; cbn; f_equal. }
  destruct Hs as [a b Hda Hdb Hh|a b bs Hda Hdb Hbs Hall].
  - rewrite Hda, Hdb, reference_single by done. unfold same_hash. by rewrite !last_snoc, Hh.
  - rewrite Hda, Hdb. rewrite (files_items (q ++ _)). unfold forest_files. rewrite <-Hbs. fold (forest_files bs). rewrite <-files_items.
    assert (NoDup (trie_Name <$> bs)) as Hnd by (rewrite Hbs; by inversion Hb).
    assert (Forall reads bs) as Hrb by (rewrite Hbs; by apply reads_inv in Hb as (_ & _ & _ & ?)).
    apply reads_inv in Ha as (_ & _ & _ & Hra). rewrite size_eq in Hn. clear Hbs Hb Hda Hdb Hab.
    revert Hra Hn Hall. generalize (kids a) as cs. intros cs Hra Hn Hall. induction Hall as [|x y xs ys [Hxy Hs] Hall IHl].
    + done.
    + inversion_clear Hra. inversion_clear Hrb. unfold forest_size in Hn. cbn in Hn. fold (forest_size xs) in Hn.
      cbn [items fmap list_fmap]. rewrite !files_cons. fold (items (p ++ [root a]) xs) (items (q ++ [root b]) ys).
      apply Forall2_names in Hall. pose proof Hnd as Hnd'. cbn in Hnd. apply NoDup_cons in Hnd as [_ Hnd].
      rewrite reference_app.
      * rewrite (IH x y) by (done || lia). cbn. apply IHl; [done..|lia].
      * by eapply names_disjoint.
      * apply disjoint_sym. eapply (names_disjoint _ _ y x xs); [done|done|].
        cbn. by rewrite Hxy, (fmap_names _ _ Hall).
Qed.
Lemma same_kids a b :
  noder_IsDir (root a) = true -> noder_IsDir (root b) = true -> kids a = kids b -> Forall (fun k => same k k) (kids b) -> same a b.
Proof.
  intros Ha Hb Hk Hs. apply (same_dir a b (kids b)); [done..|]. rewrite Hk. clear Hk. by induction Hs; constructor.
Qed.

Lemma same_refl n t : (forall a, hashEqual a a = true) -> (size t <= n)%nat -> same t t.
Proof.
  intros Hr. revert t. induction n as [|n IH]; intros t Hn; [rewrite size_eq in Hn; lia|].
  destruct (noder_IsDir (root t)) eqn:Hd; [|by apply same_file]. apply same_kids; [done..|].
  apply Forall_forall. intros k Hk. apply IH. rewrite size_eq in Hn. unfold forest_size in Hn.
  apply list_elem_of_split in Hk as (l1 & l2 & Hk). rewrite Hk, fmap_app, sum_list_with_app in Hn. cbn in Hn. lia.
Qed.

(** *** The two iterators *)

(** What the iterators have still to visit. *)
Record at_work (d : doubleIter) (w1 w2 : list item) : Prop := {
  at_from : stands (from_iter d) w1;
  at_to : stands (to_iter d) w2;
  at_from_current : from_current d = item_path <$> head w1;
  at_to_current : to_current d = item_path <$> head w2;
}.

Lemma turn_head (w : list item) it : turnEOFIntoNil (E := E) (head_path w, it) = Ok (item_path <$> head w, it).
Proof. by destruct w. Qed.

Lemma nextFrom_spec d i w1 w2 :
  at_work d (i :: w1) w2 -> reads i.2 -> exists d', nextFrom Sort d = Ok d' /\ at_work d' w1 w2.
Proof.
  intros [Hf Ht Hcf Hct] Hr. destruct (Next_spec Sort _ _ _ Hf Hr) as (it & Hn & Hs).
  unfold nextFrom, advanceFrom. rewrite Hn, turn_head. eexists. by split.
Qed.

Lemma nextTo_spec d i w1 w2 :
  at_work d w1 (i :: w2) -> reads i.2 -> exists d', nextTo Sort d = Ok d' /\ at_work d' w1 w2.
Proof.
  intros [Hf Ht Hcf Hct] Hr. destruct (Next_spec Sort _ _ _ Ht Hr) as (it & Hn & Hs).
  unfold nextTo, advanceTo. rewrite Hn, turn_head. eexists. by split.
Qed.

Lemma nextBoth_spec d i j w1 w2 :
  at_work d (i :: w1) (j :: w2) -> reads i.2 -> reads j.2 -> exists d', nextBoth Sort d = Ok d' /\ at_work d' w1 w2.
Proof.
  intros Hd Hi Hj. destruct (nextFrom_spec _ _ _ _ Hd Hi) as (d1 & H1 & Hd1). unfold nextBoth. rewrite H1.
  exact (nextTo_spec _ _ _ _ Hd1 Hj).
Qed.

Lemma stepBoth_spec d i j w1 w2 :
  at_work d (i :: w1) (j :: w2) -> reads i.2 -> reads j.2 ->
  exists ts us d', ts ≡ₚ kids i.2 /\ us ≡ₚ kids j.2 /\ ascending ts /\ ascending us /\ stepBoth Sort d = Ok d'
    /\ at_work d' (items (item_path i) ts ++ w1) (items (item_path j) us ++ w2).
Proof.
  intros [Hf Ht Hcf Hct] Hi Hj.
  destruct (Step_spec Sort _ _ _ Hf Hi) as (ts & it1 & Hts & Ha1 & H1 & Hs1).
  destruct (Step_spec Sort _ _ _ Ht Hj) as (us & it2 & Hus & Ha2 & H2 & Hs2).
  unfold stepBoth, advanceFrom, advanceTo. rewrite H1, turn_head. cbn [mbind outcome_bind mret outcome_ret to_iter].
  rewrite H2, turn_head. do 3 eexists. by split_and!; [exact Hts|exact Hus|..].
Qed.

(** *** The invariant *)

Record inv (w1 w2 : list item) : Prop := {
  inv_ok1 : Forall item_ok w1;
  inv_ok2 : Forall item_ok w2;
  inv_sorted1 : sorted_work w1;
  inv_sorted2 : sorted_work w2;
  inv_cross : forall i j, i ∈ w1 -> j ∈ w2 ->
    before (item_names i) (item_names j) \/ before (item_names j) (item_names i)
    \/ (item_names i = item_names j /\ honest i.2 j.2);
}.

Lemma sorted_head i w : sorted_work (i :: w) -> forall j, j ∈ w -> before (item_names i) (item_names j).
Proof. intros [H _]%StronglySorted_cons. by rewrite Forall_forall in H. Qed.

Lemma sorted_tail i w : sorted_work (i :: w) -> sorted_work w.
Proof. by intros [_ H]%StronglySorted_cons. Qed.

Lemma inv_tail1 i w1 w2 : inv (i :: w1) w2 -> inv w1 w2.
Proof.
  intros [H1 H2 H3 H4 H5]. inversion_clear H1. constructor; [done|done|by eapply sorted_tail|done|].
  intros j k Hj Hk. apply H5; [by right|done].
Qed.

Lemma inv_tail2 j w1 w2 : inv w1 (j :: w2) -> inv w1 w2.
Proof.
  intros [H1 H2 H3 H4 H5]. inversion_clear H2. constructor; [done|done|done|by eapply sorted_tail|].
  intros i k Hi Hk. apply H5; [done|by right].
Qed.

Lemma sorted_kids i ts w : sorted_work (i :: w) -> ascending ts -> sorted_work (items (item_path i) ts ++ w).
Proof.
  intros Hs Ha. apply StronglySorted_app. split_and!; [|by apply sorted_items|by eapply sorted_tail].
  intros k j Hk Hj. eapply items_before; [by eapply sorted_head|done].
Qed.

Lemma inv_kids i j w1 w2 ts us :
  inv (i :: w1) (j :: w2) -> item_names i = item_names j -> ts ≡ₚ kids i.2 -> us ≡ₚ kids j.2 -> ascending ts -> ascending us ->
  inv (items (item_path i) ts ++ w1) (items (item_path j) us ++ w2).
Proof.
  intros [H1 H2 H3 H4 H5] Heq Hts Hus Ha1 Ha2. inversion_clear H1 as [|? ? [Hr1 _] Hw1]. inversion_clear H2 as [|? ? [Hr2 _] Hw2].
  constructor; [| |by apply sorted_kids|by apply sorted_kids|].
  { apply Forall_app. split; [by apply (kids_ok _ i.2)|done]. }
  { apply Forall_app. split; [by apply (kids_ok _ j.2)|done]. }
  assert (honest i.2 j.2) as Hh.
  { destruct (H5 i j ltac:(by left) ltac:(by left)) as [Hb|[Hb|[_ Hh]]]; [..|done];
      rewrite Heq in Hb; by apply before_irrefl in Hb. }
  intros a b Ha Hb. apply elem_of_app in Ha as [Ha|Ha], Hb as [Hb|Hb].
  - apply list_elem_of_fmap in Ha as (t & -> & Ht), Hb as (u & -> & Hu). rewrite !item_names_eq. cbn.
    fold (item_names i) (item_names j). rewrite Heq.
    destruct (bytes_lt_total (trie_Name t) (trie_Name u)) as [Hlt|[Hn|Hlt]].
    + left. by apply before_prefix.
    + right; right. split; [by rewrite Hn|]. destruct Hh as [f g _ Hh]. apply Hh; [by rewrite <-Hts|by rewrite <-Hus|done].
    + right; left. by apply before_prefix.
  - left. eapply items_before; [|done]. rewrite Heq. by eapply sorted_head.
  - right; left. eapply items_before; [|done]. rewrite <-Heq. by eapply sorted_head.
  - by apply H5; right.
Qed.
(** *** A turn of the loop *)

Definition progress (ret : list (@Change N)) (w1 w2 : list item) (r : outcome (diff_error E) (list (@Change N) * doubleIter)) : Prop :=
  exists l d w1' w2', r = Ok (ret ++ l, d) /\ at_work d w1' w2' /\ inv w1' w2'
    /\ (work_size w1' + work_size w2' < work_size w1 + work_size w2)%nat
    /\ reference (files w1) (files w2) ≡ₚ l ++ reference (files w1') (files w2').

Lemma work_size_cons (i : item) w : work_size (i :: w) = (size i.2 + work_size w)%nat.
Proof. done. Qed.

Lemma size_pos (t : trie N) : (0 < size t)%nat.
Proof. rewrite size_eq. lia. Qed.

Lemma inv_head1 i w1 w2 : inv (i :: w1) w2 -> item_ok i.
Proof. intros [H _ _ _ _]. by inversion H. Qed.

Lemma inv_head2 j w1 w2 : inv w1 (j :: w2) -> item_ok j.
Proof. intros [_ H _ _ _]. by inversion H. Qed.

Lemma delete_from fuel d i w1 w2 ret :
  at_work d (i :: w1) w2 -> inv (i :: w1) w2 -> (forall j, j ∈ w2 -> before (item_names i) (item_names j)) ->
  (size i.2 <= fuel)%nat ->
  progress ret (i :: w1) w2 (ret ← AddRecursiveDelete Sort fuel (item_path i) ret; ii ← nextFrom Sort d; mret (ret, ii)).
Proof.
  intros Hd Hinv Hb Hf. pose proof (inv_head1 _ _ _ Hinv) as Hok.
  destruct (addRecursive_spec Sort fuel NewDelete i ret Hok Hf) as (F & Hadd & HF).
  destruct (nextFrom_spec d i w1 w2 Hd (proj1 Hok)) as (d' & Hn & Hd').
  unfold AddRecursiveDelete. rewrite Hadd. cbn [mbind outcome_bind]. rewrite Hn. cbn [mbind outcome_bind mret outcome_ret].
  exists (NewDelete <$> F), d', w1, w2. split_and!; [done|done|by eapply inv_tail1| |].
  - rewrite work_size_cons. pose proof (size_pos i.2). lia.
  - rewrite files_cons. change (files w2) with ([] ++ files w2) at 1.
    rewrite reference_app by (by apply before_disjoint_files || by apply disjoint_nil_r).
    rewrite (reference_disjoint _ (item_files i) []) by apply disjoint_nil_r. by rewrite HF, app_nil_r.
Qed.

Lemma insert_to fuel d j w1 w2 ret :
  at_work d w1 (j :: w2) -> inv w1 (j :: w2) -> (forall i, i ∈ w1 -> before (item_names j) (item_names i)) ->
  (size j.2 <= fuel)%nat ->
  progress ret w1 (j :: w2) (ret ← AddRecursiveInsert Sort fuel (item_path j) ret; ii ← nextTo Sort d; mret (ret, ii)).
Proof.
  intros Hd Hinv Hb Hf. pose proof (inv_head2 _ _ _ Hinv) as Hok.
  destruct (addRecursive_spec Sort fuel NewInsert j ret Hok Hf) as (F & Hadd & HF).
  destruct (nextTo_spec d j w1 w2 Hd (proj1 Hok)) as (d' & Hn & Hd').
  unfold AddRecursiveInsert. rewrite Hadd. cbn [mbind outcome_bind]. rewrite Hn. cbn [mbind outcome_bind mret outcome_ret].
  exists (NewInsert <$> F), d', w1, w2. split_and!; [done|done|by eapply inv_tail2| |].
  - rewrite work_size_cons. pose proof (size_pos j.2). lia.
  - rewrite files_cons. change (files w1) with ([] ++ files w1) at 1.
    rewrite reference_app by (by apply disjoint_nil_l || by apply disjoint_sym, before_disjoint_files).
    rewrite (reference_disjoint _ [] (item_files j)) by apply disjoint_nil_l. by rewrite HF.
Qed.

(** The heads have the same path. *)
Section heads.
Context (fuel : nat) (d : @doubleIter N) (i j : item) (w1 w2 : list item) (ret : list (@Change N)).
Hypothesis Hd : at_work d (i :: w1) (j :: w2).
Hypothesis Hinv : inv (i :: w1) (j :: w2).
Hypothesis Hnames : item_names i = item_names j.
Hypothesis Hfuel : (size i.2 <= fuel)%nat /\ (size j.2 <= fuel)%nat.

Lemma heads_reference :
  reference (files (i :: w1)) (files (j :: w2)) ≡ₚ reference (item_files i) (item_files j) ++ reference (files w1) (files w2).
Proof.
  rewrite !files_cons. destruct Hinv as [_ _ H3 H4 _]. apply reference_app.
  - apply before_disjoint_files. rewrite Hnames. by apply sorted_head.
  - apply disjoint_sym, before_disjoint_files. rewrite <-Hnames. by apply sorted_head.
Qed.

Lemma next_both l :
  reference (item_files i) (item_files j) ≡ₚ l ->
  progress ret (i :: w1) (j :: w2) (ii ← nextBoth Sort d; mret (ret ++ l, ii)).
Proof.
  intros Hl. destruct (inv_head1 _ _ _ Hinv) as [Hri _]. destruct (inv_head2 _ _ _ Hinv) as [Hrj _].
  destruct (nextBoth_spec _ _ _ _ _ Hd Hri Hrj) as (d' & Hn & Hd'). rewrite Hn. cbn [mbind outcome_bind mret outcome_ret].
  exists l, d', w1, w2. split_and!; [done|done|by eapply inv_tail1, inv_tail2| |].
  - rewrite !work_size_cons. pose proof (size_pos i.2). lia.
  - by rewrite heads_reference, Hl.
Qed.

Lemma files_dir (k : item) ts w :
  noder_IsDir (root k.2) = true -> ts ≡ₚ kids k.2 -> files (k :: w) ≡ₚ files (items (item_path k) ts ++ w).
Proof.
  intros Hk Hts. rewrite files_cons, item_files_eq, Hk. unfold files. rewrite bind_app. do 2 f_equiv.
  unfold items. by rewrite Hts.
Qed.

Lemma step_both :
  noder_IsDir (root i.2) = true -> noder_IsDir (root j.2) = true ->
  progress ret (i :: w1) (j :: w2) (ii ← stepBoth Sort d; mret (ret, ii)).
Proof.
  intros Hi Hj. destruct (inv_head1 _ _ _ Hinv) as [Hri _]. destruct (inv_head2 _ _ _ Hinv) as [Hrj _].
  destruct (stepBoth_spec _ _ _ _ _ Hd Hri Hrj) as (ts & us & d' & Hts & Hus & Ha1 & Ha2 & Hs & Hd').
  rewrite Hs. cbn [mbind outcome_bind mret outcome_ret]. exists [], d', (items (item_path i) ts ++ w1), (items (item_path j) us ++ w2).
  rewrite app_nil_r. split_and!; [done|done|by apply inv_kids| |].
  - pose proof (size_step i ts w1 Hts). pose proof (size_step j us w2 Hus). lia.
  - by rewrite (files_dir i ts w1), (files_dir j us w2).
Qed.

Lemma reads_heads : reads i.2 /\ reads j.2 /\ honest i.2 j.2.
Proof.
  split_and!; [by destruct (inv_head1 _ _ _ Hinv)|by destruct (inv_head2 _ _ _ Hinv)|].
  destruct Hinv as [_ _ _ _ H5]. destruct (H5 i j ltac:(by left) ltac:(by left)) as [Hb|[Hb|[_ Hh]]]; [..|done];
    rewrite Hnames in Hb; by apply before_irrefl in Hb.
Qed.

Lemma names_split : names i.1 = names j.1 /\ trie_Name i.2 = trie_Name j.2.
Proof.
  pose proof Hnames as H. destruct i as [p t], j as [q u]. rewrite !item_names_eq in H. by apply app_inj_tail in H.
Qed.

Lemma empty_files (k : item) : reads k.2 -> len (kids k.2) = 0 -> noder_IsDir (root k.2) = true -> item_files k = [].
Proof. intros Hr H0%len_zero_nil Hk. by rewrite item_files_eq, Hk, H0. Qed.

Lemma compare_heads :
  compare hashEqual (item_path i) (item_path j) = Ok {|
    sameHash := hashEqual (root i.2) (root j.2);
    bothAreFiles := negb (noder_IsDir (root i.2)) && negb (noder_IsDir (root j.2));
    fileAndDir := negb (noder_IsDir (root i.2) && noder_IsDir (root j.2))
                  && negb (negb (noder_IsDir (root i.2)) && negb (noder_IsDir (root j.2)));
    bothAreDirs := noder_IsDir (root i.2) && noder_IsDir (root j.2);
    fromIsEmptyDir := noder_IsDir (root i.2) && (len (kids i.2) =? 0);
    toIsEmptyDir := noder_IsDir (root j.2) && (len (kids j.2) =? 0) |}.
Proof.
  destruct reads_heads as (Hri & Hrj & _). apply reads_inv in Hri as (_ & Hni & _), Hrj as (_ & Hnj & _).
  unfold compare, path_NumChildren. rewrite !Last_item. cbn [mbind outcome_bind]. by rewrite Hni, Hnj.
Qed.

Lemma dir_names (k : item) p : noder_IsDir (root k.2) = true -> p ∈ item_files k -> (length (item_names k) < length (names p))%nat.
Proof.
  intros Hk. rewrite item_files_eq, Hk. intros (c & Hp & (t & -> & _)%list_elem_of_fmap)%list_elem_of_bind.
  apply item_files_prefix in Hp as (r & ->). unfold item_names, names, item_path. cbn. rewrite !length_fmap, !length_app. cbn. lia.
Qed.

Lemma file_dir_disjoint :
  noder_IsDir (root i.2) <> noder_IsDir (root j.2) -> disjoint_names (item_files i) (item_files j).
Proof.
  intros Hk p q Hp Hq Heq. apply (f_equal length) in Heq. pose proof (f_equal length Hnames) as Hl.
  destruct (noder_IsDir (root i.2)) eqn:Hi, (noder_IsDir (root j.2)) eqn:Hj; [done| | |done].
  - apply dir_names in Hp; [|done]. rewrite item_files_eq, Hj in Hq. apply list_elem_of_singleton in Hq as ->. unfold item_names in *. lia.
  - apply dir_names in Hq; [|done]. rewrite item_files_eq, Hi in Hp. apply list_elem_of_singleton in Hp as ->. unfold item_names in *. lia.
Qed.

Lemma delete_insert :
  disjoint_names (item_files i) (item_files j) ->
  progress ret (i :: w1) (j :: w2)
    (ret ← AddRecursiveDelete Sort fuel (item_path i) ret; ret ← AddRecursiveInsert Sort fuel (item_path j) ret;
     ii ← nextBoth Sort d; mret (ret, ii)).
Proof.
  intros Hdis. pose proof (inv_head1 _ _ _ Hinv) as Hi. pose proof (inv_head2 _ _ _ Hinv) as Hj.
  destruct (addRecursive_spec Sort fuel NewDelete i ret) as (F & Hdel & HF); [done|by apply Hfuel|].
  destruct (addRecursive_spec Sort fuel NewInsert j (ret ++ (NewDelete <$> F))) as (G & Hins & HG); [done|by apply Hfuel|].
  unfold AddRecursiveDelete, AddRecursiveInsert. rewrite Hdel. cbn [mbind outcome_bind]. rewrite Hins. cbn [mbind outcome_bind].
  rewrite <-app_assoc. apply next_both. by rewrite reference_disjoint, HF, HG.
Qed.

Lemma diffNodesSameName_spec :
  progress ret (i :: w1) (j :: w2) (diffNodesSameName Sort hashEqual fuel (item_path i) (item_path j) ret d).
Proof.
  destruct reads_heads as (Hri & Hrj & Hh). destruct names_split as [Hp Hn].
  destruct (inv_head1 _ _ _ Hinv) as (_ & Hni & Hki), (inv_head2 _ _ _ Hinv) as (_ & Hnj & Hkj).
  destruct (addRecursive_spec Sort fuel NewDelete i ret) as (F & Hdel & HF); [done|by apply Hfuel|].
  unfold diffNodesSameName. rewrite compare_heads. cbn [mbind outcome_bind sameHash bothAreFiles fileAndDir bothAreDirs].
  destruct (hashEqual (root i.2) (root j.2)) eqn:Heq.
  { pose proof (next_both []) as Hnb. rewrite app_nil_r in Hnb. apply Hnb. inversion Hh as [? ? Hsame _]; subst. destruct i as [p t], j as [q u].
    apply (same_reference (size t)); [done|by apply Hsame|done..]. }
  destruct (noder_IsDir (root i.2)) eqn:Hi, (noder_IsDir (root j.2)) eqn:Hj; cbn [negb andb].
  - unfold diffDirs. rewrite compare_heads. cbn [mbind outcome_bind fromIsEmptyDir toIsEmptyDir]. rewrite Hi, Hj. cbn [andb].
    destruct (Z.eqb_spec (len (kids i.2)) 0) as [H0|H0]; [|destruct (Z.eqb_spec (len (kids j.2)) 0) as [H0'|H0']].
    + destruct (addRecursive_spec Sort fuel NewInsert j ret) as (G & Hins & HG); [done|by apply Hfuel|].
      unfold AddRecursiveInsert. rewrite Hins. cbn [mbind outcome_bind]. apply next_both.
      rewrite (empty_files i), reference_disjoint by (done || apply disjoint_nil_l). cbn. by rewrite HG.
    + unfold AddRecursiveDelete. rewrite Hdel. cbn [mbind outcome_bind]. apply next_both.
      rewrite (empty_files j), reference_disjoint by (done || apply disjoint_nil_r). cbn. by rewrite app_nil_r, HF.
    + by apply step_both.
  - apply delete_insert; [done..|]. apply file_dir_disjoint. by rewrite Hi, Hj.
  - apply delete_insert; [done..|]. apply file_dir_disjoint. by rewrite Hi, Hj.
  - apply (next_both [NewModify (item_path i) (item_path j)]). rewrite !item_files_eq, Hi, Hj.
    rewrite reference_single by exact Hnames. unfold same_hash, item_path. by rewrite !last_snoc, Heq.
Qed.
End heads.
Lemma turn_progress fuel d w1 w2 ret :
  at_work d w1 w2 -> inv w1 w2 -> (work_size w1 + work_size w2 <= fuel)%nat -> (w1 <> [] \/ w2 <> []) ->
  progress ret w1 w2 (diff_turn Sort hashEqual fuel (remaining_of d) ret d).
Proof.
  intros Hd Hinv Hf Hne. destruct Hd as [Hsf Hst Hcf Hct] eqn:Hd'. clear Hd'. unfold remaining_of. rewrite Hcf, Hct.
  destruct w1 as [|i w1], w2 as [|j w2]; cbn [head fmap option_fmap option_map]; [by destruct Hne| | |].
  - destruct (inv_head2 _ _ _ Hinv) as (_ & _ & Hk). cbn [diff_turn]. rewrite Skip_item, Hk. cbn [negb].
    apply insert_to; [done..|by intros i Hi%elem_of_nil|]. rewrite work_size_cons in Hf. cbn in Hf. lia.
  - destruct (inv_head1 _ _ _ Hinv) as (_ & _ & Hk). cbn [diff_turn]. rewrite Skip_item, Hk. cbn [negb].
    apply delete_from; [done..|by intros j Hj%elem_of_nil|]. rewrite work_size_cons in Hf. cbn in Hf. lia.
  - destruct (inv_head1 _ _ _ Hinv) as (_ & _ & Hki), (inv_head2 _ _ _ Hinv) as (_ & _ & Hkj).
    cbn [diff_turn]. rewrite !Skip_item, Hki, Hkj. rewrite !work_size_cons in Hf. unfold diffNodes.
    destruct (Compare_before (item_path i) (item_path j)) as (Hlt & Hgt & Heq). destruct Hinv as [H1 H2 H3 H4 H5] eqn:Hinv'. clear Hinv'.
    destruct (H5 i j ltac:(by left) ltac:(by left)) as [Hb|[Hb|[Hn _]]].
    + rewrite (Hlt Hb). apply delete_from; [done..| |lia].
      intros k [->|Hk]%elem_of_cons; [done|]. eapply before_trans; [done|by eapply sorted_head].
    + rewrite (Hgt Hb). apply insert_to; [done..| |lia].
      intros k [->|Hk]%elem_of_cons; [done|]. eapply before_trans; [done|by eapply sorted_head].
    + rewrite (Heq Hn). apply diffNodesSameName_spec; [done..|lia].
Qed.

Lemma loop_turn fuel turns n ret d :
  remaining_of d <> noMoreNoders ->
  DiffTree_loop Sort hashEqual fuel (S turns) (fun _ => false) n ret d =
    ('(ret, ii) ← diff_turn Sort hashEqual fuel (remaining_of d) ret d;
     DiffTree_loop Sort hashEqual fuel turns (fun _ => false) (S n) ret ii).
Proof. cbn. by destruct (remaining_of d). Qed.

Lemma remaining_some d w1 w2 : at_work d w1 w2 -> (w1 <> [] \/ w2 <> []) -> remaining_of d <> noMoreNoders.
Proof.
  intros [_ _ Hcf Hct] Hne. unfold remaining_of. rewrite Hcf, Hct. by destruct w1, w2, Hne.
Qed.

Lemma DiffTree_loop_spec fuel turns n d w1 w2 ret :
  at_work d w1 w2 -> inv w1 w2 -> (work_size w1 + work_size w2 <= fuel)%nat -> (work_size w1 + work_size w2 < turns)%nat ->
  exists l, DiffTree_loop Sort hashEqual fuel turns (fun _ => false) n ret d = Ok (ret ++ l)
    /\ l ≡ₚ reference (files w1) (files w2).
Proof.
  revert n d w1 w2 ret. induction turns as [|turns IH]; intros n d w1 w2 ret Hd Hinv Hf Ht; [lia|].
  assert ((w1 = [] /\ w2 = []) \/ (w1 <> [] \/ w2 <> [])) as [[-> ->]|Hne] by (destruct w1, w2; auto).
  - destruct Hd as [_ _ Hcf Hct]. cbn [DiffTree_loop]. unfold remaining_of. rewrite Hcf, Hct. cbn. exists []. by rewrite app_nil_r.
  - destruct (turn_progress fuel d w1 w2 ret Hd Hinv Hf Hne) as (l & d' & w1' & w2' & Hr & Hd' & Hinv' & Hlt & Hp).
    destruct (IH (S n) d' w1' w2' (ret ++ l) Hd' Hinv' ltac:(lia) ltac:(lia)) as (l' & Hl' & Hp').
    exists (l ++ l'). rewrite loop_turn, Hr by (by eapply remaining_some). cbn [mbind outcome_bind].
    rewrite Hl', <-app_assoc. split; [done|]. by rewrite Hp, Hp'.
Qed.

(** The paths of the files of a trie, relative to its root. *)
Definition trie_files (t : trie N) : list (list N) := forest_files (kids t).

Lemma NewIter_stands t :
  reads t -> exists ts it it', NewIter Sort (root t) = Ok it /\ ts ≡ₚ kids t /\ ascending ts
    /\ Next Sort it = (head_path (items [] ts), it') /\ stands it' (items [] ts).
Proof.
  intros Hr. destruct (newIter_spec Sort (root t) t [] Hr eq_refl) as (ts & it & Hnew & Hts & Ha & Hfresh & Hv).
  destruct (advance_fresh Sort false it _ Hfresh Hv) as (it' & Hn & Hv' & Hs'). exists ts, it, it'. by split_and!.
Qed.

(** The changes between two tries: of any two tries whose nodes list their
    children under different, non-empty names and skip nothing, and whose
    hashes are honest, [DiffTree] reports exactly the files only one side has,
    as deletions and insertions, and the files both have with different
    hashes, as modifications, each of them once; it does so within as many
    turns as there are nodes. *)
Lemma DiffTree_spec fuel F T :
  reads F -> reads T -> honest_below F T -> (size F + size T <= fuel)%nat ->
  exists l, DiffTree Sort hashEqual fuel (root F) (root T) = Ok l /\ l ≡ₚ reference (trie_files F) (trie_files T).
Proof.
  intros HF HT Hh Hf.
  destruct (NewIter_stands F HF) as (ts & i1 & i1' & Hn1 & Hts & Ha1 & Hx1 & Hs1).
  destruct (NewIter_stands T HT) as (us & i2 & i2' & Hn2 & Hus & Ha2 & Hx2 & Hs2).
  unfold DiffTree, DiffTreeContext, newDoubleIter. rewrite Hn1. cbn [mbind outcome_bind]. rewrite Hx1, turn_head.
  cbn [mbind outcome_bind]. rewrite Hn2. cbn [mbind outcome_bind]. rewrite Hx2, turn_head. cbn [mbind outcome_bind mret outcome_ret].
  rewrite !size_eq in Hf.
  destruct (DiffTree_loop_spec fuel fuel 0 {| from_iter := i1'; from_current := item_path <$> head (items [] ts);
      to_iter := i2'; to_current := item_path <$> head (items [] us) |} (items [] ts) (items [] us) []) as (l & Hl & Hp).
  - by split.
  - constructor; [by apply (kids_ok _ F)|by apply (kids_ok _ T)|by apply sorted_items..|].
    intros i j (t & -> & Ht)%list_elem_of_fmap (u & -> & Hu)%list_elem_of_fmap. rewrite !item_names_eq. cbn.
    destruct (bytes_lt_total (trie_Name t) (trie_Name u)) as [Hlt|[Hn|Hlt]]; [by left; left| |by right; left; left].
    right; right. split; [by rewrite Hn|]. apply Hh; [by rewrite <-Hts|by rewrite <-Hus|done].
  - rewrite !work_size_items, Hts, Hus. lia.
  - rewrite !work_size_items, Hts, Hus. lia.
  - exists l. split; [done|]. rewrite Hp, !files_items. unfold trie_files, forest_files. rewrite Hts, Hus.
    assert (forall L : list (list N), app [] <$> L = L) as Hid by (intros L; apply list_fmap_id). by rewrite !Hid.
Qed.
End difference.

(** ** Properties and examples *)

(** C11: the changes between two tries.  For any two tries whose directories
    list children with different, non-empty names and skip nothing, and whose
    hashes are honest (nodes at the same place with equal hashes hold the
    same), [DiffTree] ends within as many turns as there are nodes and reports
    exactly the files only one side has, as deletions and insertions, and the
    files both have with different hashes, as modifications, each of them
    once. *)
Theorem DiffTree_correct {N E : Type} `{!Noder N E} Sort `{!Sorts Sort} hashEqual fuel (F T : trie N) :
  reads F -> reads T -> honest_below hashEqual F T -> (size F + size T <= fuel)%nat ->
  exists l, DiffTree Sort hashEqual fuel (root F) (root T) = Ok l
    /\ l ≡ₚ reference hashEqual (trie_files F) (trie_files T).
Proof. exact (DiffTree_spec Sort hashEqual fuel F T). Qed.

#[export] Instance insertion_sorts {N} : Sorts (@insertion_sort N).
Proof.
  split.
  - intros less l. apply insertion_sort_perm.
  - intros key l. induction l as [|x l IH]; [constructor|]. cbn. unfold insertion_sort in IH.
    revert IH. generalize (foldr (insert_by (fun a b => bytes_ltb (key b) (key a))) [] l) as k. clear l.
    induction k as [|y k IHk]; intros Hs; cbn; [by repeat constructor|].
    apply StronglySorted_cons in Hs as [Hy Hs]. rewrite Forall_forall in Hy.
    destruct (bytes_ltb (key y) (key x)) eqn:Hlt.
    + apply StronglySorted_cons. split; [|by apply StronglySorted_cons; rewrite Forall_forall].
      apply Forall_forall. intros z [->|Hz]%elem_of_cons; apply bytes_ltb_lt in Hlt; apply bytes_ltb_false.
      * intros Hlt'. eapply bytes_lt_irrefl. by etrans.
      * specialize (Hy z Hz). apply bytes_ltb_false in Hy. intros Hlt'. apply Hy. by etrans.
    + apply StronglySorted_cons. split; [|by apply IHk]. apply Forall_forall. intros z. rewrite insert_by_perm.
      intros [->|Hz]%elem_of_cons; [done|by apply Hy].
Qed.

(** Nodes in memory. *)
Inductive node := Node (name : bytes) (dir skip : bool) (hash : bytes) (children : list node).

Definition node_children (n : node) : list node := match n with Node _ _ _ _ cs => cs end.

#[export] Instance node_Noder : Noder node unit := {
  noder_Name n := match n with Node name _ _ _ _ => name end;
  noder_IsDir n := match n with Node _ dir _ _ _ => dir end;
  noder_Skip n := match n with Node _ _ skip _ _ => skip end;
  noder_Children n := Ok (node_children n);
  noder_NumChildren n := Ok (len (node_children n));
}.

Definition node_hash (n : node) : bytes := match n with Node _ _ _ hash _ => hash end.
Definition node_equal (a b : node) : bool := bool_decide (node_hash a = node_hash b).

Definition file (name : string) (hash : bytes) : node := Node (bs name) false false hash [].
Definition dir (name : string) (hash : bytes) (cs : list node) : node := Node (bs name) true false hash cs.

Definition changed_paths (r : outcome (diff_error unit) (list (@Change node))) : list (option Action * bytes) :=
  match r with
  | Ok l => (fun c => (change_Action c, path_String (default [] (From c) ++ (if From c then [] else default [] (To c))))) <$> l
  | _ => []
  end.

Definition old_tree : node := dir "" [1] [file "b" [2]; dir "a" [3] [file "x" [4]; file "y" [5]]; file "c" [9]].
Definition new_tree : node := dir "" [6] [dir "a" [7] [file "y" [8]]; file "b" [2]; dir "c" [10] [file "z" [11]]].

Example old_new : changed_paths (DiffTree insertion_sort node_equal 20 old_tree new_tree) =
  [(Some Delete, bs "a/x"); (Some Modify, bs "a/y"); (Some Delete, bs "c"); (Some Insert, bs "c/z")].
Proof. vm_compute. reflexivity. Qed.

(** The names of skipped nodes are compared without their directories: the
    skipped [d/x] takes the unchanged [x] of the other side with it, and the
    same [x] is then reported as deleted. *)
Example skipped_name_hides_file :
  changed_paths (DiffTree insertion_sort node_equal 20
    (dir "" [1] [dir "d" [2] [file "a" [3]; Node (bs "x") false true [4] []]; file "x" [9]])
    (dir "" [5] [dir "d" [6] [file "a" [7]]; file "x" [9]]))
  = [(Some Modify, bs "d/a"); (Some Delete, bs "x")].
Proof. vm_compute. reflexivity. Qed.

Fixpoint node_trie (n : node) : trie node := match n with Node _ _ _ _ cs => Trie n (map node_trie cs) end.

Lemma root_node_trie n : root (node_trie n) = n.
Proof. by destruct n. Qed.

Lemma node_reads n cs :
  node_children n = root <$> cs -> (noder_IsDir n = false -> cs = []) -> NoDup (trie_Name <$> cs) ->
  Forall (fun c => trie_Name c <> [] /\ noder_Skip (root c) = false) cs -> Forall reads cs -> reads (Trie n cs).
Proof. intros Hn. constructor; [cbn; by rewrite Hn|cbn; rewrite Hn; unfold len; by rewrite length_fmap|done..]. Qed.

Ltac solve_reads :=
  repeat first [ apply node_reads; [reflexivity|done|apply (bool_decide_unpack _); vm_compute; exact I| |] | constructor ]; try done.

(** Tries that share no hash but those of files. *)
Fixpoint distinct (f t : trie node) : bool :=
  match f with
  | Trie n cs =>
      (negb (node_equal n (root t)) || (negb (noder_IsDir n) && negb (noder_IsDir (root t))))
      && forallb (fun f' => forallb (fun t' => negb (bool_decide (trie_Name f' = trie_Name t')) || distinct f' t') (kids t)) cs
  end.

Lemma distinct_honest n f t : (size f <= n)%nat -> distinct f t = true -> honest node_equal f t.
Proof.
  revert f t. induction n as [|n IH]; intros [m cs] t Hn; [cbn in Hn; lia|]. cbn [distinct].
  rewrite andb_true_iff, orb_true_iff, andb_true_iff, !negb_true_iff, forallb_forall. intros [Hh Hd]. constructor.
  - cbn. intros Heq. destruct Hh as [Hh|[Hf Ht]]; [by rewrite Hh in Heq|by apply same_file].
  - cbn. intros f' t' Hf Ht Heq. apply IH.
    + rewrite size_eq in Hn. cbn in Hn. unfold forest_size in Hn. apply list_elem_of_split in Hf as (l1 & l2 & ->).
      rewrite fmap_app, sum_list_with_app in Hn. cbn in Hn. lia.
    + apply list_elem_of_In in Hf. specialize (Hd f' Hf). rewrite forallb_forall in Hd. apply list_elem_of_In in Ht.
      specialize (Hd t' Ht). by rewrite bool_decide_eq_true_2 in Hd.
Qed.

Lemma DiffTree_correct_witness :
  exists l, DiffTree insertion_sort node_equal 20 old_tree new_tree = Ok l
    /\ l ≡ₚ reference node_equal (trie_files (node_trie old_tree)) (trie_files (node_trie new_tree)).
Proof.
  apply (DiffTree_correct insertion_sort node_equal 20 (node_trie old_tree) (node_trie new_tree)).
  - cbn. solve_reads.
  - cbn. solve_reads.
  - intros f t Hf Ht Hn. destruct (distinct_honest 20 (node_trie old_tree) (node_trie new_tree)) as [? ? _ Hh];
      [vm_compute; lia|vm_compute; reflexivity|by apply Hh].
  - vm_compute. lia.
Defined.
