(* ===== verification/TreeWalk.v ===== *)
(** * Looking up and walking trees: [plumbing/object/tree.go]

    Trees in a store, the lookup of a path through subtrees with the cache of
    paths, and the walker over a tree and its subtrees.  The lookups return
    what they would without a cache, the walker lists the tree, and each finds
    what the other does. *)
From stdpp Require Import base list numbers option strings gmap sets.
From Stdlib Require Import ZArith Lia.
From S2P Require Import Prelude GoStrings ObjectId Object Filemode Pathutil Storer MemStorage ObjectStore.
From S2P Require Import Tree.

Open Scope Z_scope.

(** ** Trees in a store *)

Inductive find_error :=
  | ErrTree (e : tree_error)
  | ErrStorage (e : storage_error).

#[export] Instance tree_error_eq_dec : EqDecision tree_error.
Proof. solve_decision. Defined.
#[export] Instance find_error_eq_dec : EqDecision find_error.
Proof. solve_decision. Defined.

Section store.
(** The size of the buffered readers. *)
Context (N : nat).

(** [DecodeTree]. *)
Definition DecodeTree (o : EncodedObject) : outcome find_error Tree := map_err ErrTree (Decode N o).

Definition GetTree {S} `{ObjectStorer S} (h : ObjectID) (s : S) : outcome find_error Tree * S :=
  match GetEncodedObject TreeObject h s with
  | (Ok o, s) => (DecodeTree o, s)
  | (Err e, s) => (Err (ErrStorage e), s)
  | (Panic, s) => (Panic, s)
  | (NoFuel, s) => (NoFuel, s)
  end.

(** What a store of these objects answers. *)
Definition tree_of (m : ObjectMap) (h : ObjectID) : outcome find_error Tree :=
  match m !! h with
  | Some o => if of_type TreeObject o then DecodeTree o else Err (ErrStorage ErrObjectNotFound)
  | None => Err (ErrStorage ErrObjectNotFound)
  end.

Lemma GetTree_spec {S} `{LawfulObjects S} h s :
  objs_ok s -> exists s', GetTree h s = (tree_of (objs s) h, s') /\ objs_ok s' /\ objs s' = objs s.
Proof.
  intros Hs. destruct (law_GetObject s TreeObject h Hs) as (s' & Hg & Hs' & Ho). exists s'. split; [|done].
  unfold GetTree, tree_of. rewrite Hg. destruct (objs s !! h) as [o|]; [|done]. by destruct (of_type TreeObject o).
Qed.
End store.

(** ** Lookup of a path *)

Section trees.
(** The trees of the store, see [GetTree_spec]. *)
Context (GetTree : ObjectID -> outcome find_error Tree).
(** [filepath.VolumeName]. *)
Context (VolumeName : bytes -> bytes).

(** [filepath.Join] of components without separators that are not dots, which
    [ValidTreePath] has rejected. *)
Definition filepath_Join (parts : list bytes) : bytes := Join (filter (fun p => p <> []) parts) 47.

Definition tree_entry (t : Tree) (baseName : bytes) : outcome find_error TreeEntry := map_err ErrTree (entry t baseName).

Definition tree_dir (t : Tree) (baseName : bytes) : outcome find_error Tree :=
  match tree_entry t baseName with
  | Ok e => GetTree (Hash e)
  | Err _ => Err (ErrTree ErrDirectoryNotFound)
  | Panic => Panic
  | NoFuel => NoFuel
  end.

(** The longest prefix of [i] components or fewer that is in the cache. *)
Fixpoint cached_prefix (cache : gmap bytes Tree) (pathParts : list bytes) (i : nat) : option (bytes * Tree * list bytes) :=
  match i with
  | O => None
  | S j =>
      let path := filepath_Join (take i pathParts) in
      match cache !! path with
      | Some t => Some (path, t, drop i pathParts)
      | None => cached_prefix cache pathParts j
      end
  end.

(** The walk through the subtrees, which are added to the cache. *)
Fixpoint find_loop (cache : gmap bytes Tree) (t : Tree) (pathCurrent : bytes) (pathParts : list bytes)
    : outcome find_error TreeEntry * gmap bytes Tree :=
  match pathParts with
  | [] => (Panic, cache)
  | [p] => (tree_entry t p, cache)
  | p :: pathParts =>
      match tree_dir t p with
      | Ok t =>
          let pathCurrent := filepath_Join [pathCurrent; p] in
          find_loop (<[pathCurrent := t]> cache) t pathCurrent pathParts
      | Err e => (Err e, cache)
      | Panic => (Panic, cache)
      | NoFuel => (NoFuel, cache)
      end
  end.

(** The lookup, with the cache of the tree, and the cache after it. *)
Definition FindEntry (t : Tree) (cache : gmap bytes Tree) (path : bytes) : outcome find_error TreeEntry * gmap bytes Tree :=
  if negb (ValidTreePath VolumeName path) then (Err (ErrTree ErrInvalidPath), cache)
  else
    let pathParts := Split path 47 in
    match cached_prefix cache pathParts (length pathParts - 1) with
    | Some (pathCurrent, startingTree, pathParts) => find_loop cache startingTree pathCurrent pathParts
    | None => find_loop cache t [] pathParts
    end.

(** [Tree.Tree]. *)
Definition Tree_Tree (t : Tree) (cache : gmap bytes Tree) (path : bytes) : outcome find_error Tree * gmap bytes Tree :=
  match FindEntry t cache path with
  | (Ok e, cache) =>
      (match GetTree (Hash e) with
       | Err (ErrStorage ErrObjectNotFound) => Err (ErrTree ErrDirectoryNotFound)
       | r => r
       end, cache)
  | (Err _, cache) => (Err (ErrTree ErrDirectoryNotFound), cache)
  | (Panic, cache) => (Panic, cache)
  | (NoFuel, cache) => (NoFuel, cache)
  end.

(** ** The walker *)

Definition maxTreeDepth : Z := 1024.

Definition simpleJoin (parent child : bytes) : bytes := if len parent >? 0 then parent ++ [47] ++ child else child.

(** The stack of trees and positions has its top first. *)
Record TreeWalker := {
  tw_stack : list (Tree * Z);
  tw_base : bytes;
  tw_recursive : bool;
  tw_seen : gset ObjectID;
  tw_skipPathValidation : bool;
}.

Definition NewTreeWalker (t : Tree) (recursive : bool) (seen : gset ObjectID) : TreeWalker :=
  {| tw_stack := [(t, 0)]; tw_base := []; tw_recursive := recursive; tw_seen := seen; tw_skipPathValidation := false |}.

Definition skipPathValidation (w : TreeWalker) : TreeWalker :=
  {| tw_stack := tw_stack w; tw_base := tw_base w; tw_recursive := tw_recursive w; tw_seen := tw_seen w;
     tw_skipPathValidation := true |}.

Definition tw_with (w : TreeWalker) (stack : list (Tree * Z)) (base : bytes) : TreeWalker :=
  {| tw_stack := stack; tw_base := base; tw_recursive := tw_recursive w; tw_seen := tw_seen w;
     tw_skipPathValidation := tw_skipPathValidation w |}.

(** [treeEntryIter.Next]: the entry, and the position after it. *)
Definition entry_at (t : Tree) (pos : Z) : option (TreeEntry * Z) :=
  if pos >=? len (Entries t) then None
  else match Entries t !! Z.to_nat pos with Some e => Some (e, pos + 1) | None => None end.

(** The directory of [path.Split] without its slash. *)
Definition parent_base (base : bytes) : bytes :=
  match cut_last 47 base with Some (d, _) => TrimSuffix (d ++ [47]) [47] | None => TrimSuffix [] [47] end.

(** A turn of the loop takes an entry or a tree off the stack. *)
Fixpoint tw_loop (fuel : nat) (w : TreeWalker) : outcome find_error (bytes * TreeEntry) * TreeWalker :=
  match fuel with
  | O => (NoFuel, w)
  | S f =>
      match tw_stack w with
      | [] => (Err (ErrTree ErrTreeEOF), w)
      | (t, pos) :: below =>
          if len (tw_stack w) - 1 >? maxTreeDepth then (Err (ErrTree ErrMaxTreeDepth), w)
          else
            match entry_at t pos with
            | None => tw_loop f (tw_with w below (parent_base (tw_base w)))
            | Some (e, pos) =>
                let w := tw_with w ((t, pos) :: below) (tw_base w) in
                if decide (Hash e ∈ tw_seen w) then tw_loop f w
                else if negb (tw_skipPathValidation w) && negb (ValidTreePath VolumeName (Name e)) then (Err (ErrTree ErrInvalidPath), w)
                else
                  let name := simpleJoin (tw_base w) (Name e) in
                  if Mode e =? Dir then
                    match GetTree (Hash e) with
                    | Ok obj =>
                        (Ok (name, e), if tw_recursive w then tw_with w ((obj, 0) :: tw_stack w) name else w)
                    | Err _ => (Err (ErrTree ErrTreeEOF), w)
                    | Panic => (Panic, w)
                    | NoFuel => (NoFuel, w)
                    end
                  else (Ok (name, e), w)
            end
      end
  end.

Definition entries_left (stack : list (Tree * Z)) : nat :=
  sum_list ((fun '(t, pos) => S (length (Entries t) - Z.to_nat pos)%nat) <$> stack).

Definition tw_Next (w : TreeWalker) : outcome find_error (bytes * TreeEntry) * TreeWalker :=
  tw_loop (S (entries_left (tw_stack w))) w.
End trees.

(** ** Lookups do not depend on the cache *)

Section lookup.
Context (GetTree : ObjectID -> outcome find_error Tree) (VolumeName : bytes -> bytes).
#[local] Notation tree_dir := (tree_dir GetTree).
#[local] Notation FindEntry := (FindEntry GetTree VolumeName).

(** The subtree below some directories, and the entry at the end of a path. *)
Fixpoint subtree (t : Tree) (parts : list bytes) : outcome find_error Tree :=
  match parts with [] => mret t | p :: parts => t ← tree_dir t p; subtree t parts end.

Fixpoint find (t : Tree) (parts : list bytes) : outcome find_error TreeEntry :=
  match parts with
  | [] => Panic
  | [p] => tree_entry t p
  | p :: parts => t ← tree_dir t p; find t parts
  end.

Lemma find_app t a b : b <> [] -> find t (a ++ b) = t ← subtree t a; find t b.
Proof.
  intros Hb. revert t. induction a as [|p a IH]; intros t; [done|]. cbn [app subtree].
  transitivity (t ← tree_dir t p; find t (a ++ b)); [by destruct a, b|].
  destruct (tree_dir t p); [|done..]. cbn. apply IH.
Qed.

Lemma subtree_app t a b : subtree t (a ++ b) = t ← subtree t a; subtree t b.
Proof. revert t. induction a as [|p a IH]; intros t; [done|]. cbn. destruct (tree_dir t p); [|done..]. apply IH. Qed.

(** What the cache holds is the subtree of its key. *)
Definition cache_ok (t : Tree) (cache : gmap bytes Tree) : Prop :=
  forall k t', cache !! k = Some t' -> subtree t (Split k 47) = Ok t'.

Definition components (parts : list bytes) : Prop := Forall (fun p => p <> [] /\ 47 ∉ p) parts.

Lemma Join_components parts : components parts -> filepath_Join parts = Join parts 47.
Proof.
  intros Hp. unfold filepath_Join. rewrite filter_all; [done|]. eapply Forall_impl; [exact Hp|]. by intros ? [].
Qed.

Lemma Split_components parts : parts <> [] -> components parts -> Split (Join parts 47) 47 = parts.
Proof. intros Hne Hp. apply Split_Join; [done|]. eapply Forall_impl; [exact Hp|]. by intros ? []. Qed.

Lemma Join_not_nil parts : parts <> [] -> components parts -> Join parts 47 <> [].
Proof.
  intros Hne Hp Hj. pose proof (Split_components parts Hne Hp) as Hs. rewrite Hj in Hs. cbn in Hs. subst.
  apply Forall_cons in Hp as [[? _] _]. done.
Qed.

Lemma Join_snoc parts p : parts <> [] -> Join (parts ++ [p]) 47 = Join parts 47 ++ 47 :: p.
Proof.
  induction parts as [|q parts IH]; [done|]. intros _. destruct parts as [|r parts]; [done|].
  cbn [app]. rewrite Join_cons by done. rewrite (Join_cons q (r :: parts)) by done. rewrite <-app_assoc. cbn [app].
  do 2 f_equal. apply IH. done.
Qed.

Lemma find_loop_spec t rest : forall cache cur taken,
  cache_ok t cache -> rest <> [] -> components (taken ++ rest) -> subtree t taken = Ok cur ->
  exists cache', find_loop GetTree cache cur (Join taken 47) rest = (find cur rest, cache') /\ cache_ok t cache'.
Proof.
  induction rest as [|p rest IH]; intros cache cur taken Hc Hne Hcomp Hsub; [done|].
  destruct rest as [|q rest]; [by exists cache|]. cbn [find_loop find].
  destruct (tree_dir cur p) as [t'| | |] eqn:Hdir; [|by exists cache..]. cbn [mbind outcome_bind].
  assert (components (taken ++ [p])) as Hcp.
  { rewrite cons_middle, app_assoc in Hcomp. by apply Forall_app in Hcomp as [? _]. }
  assert (subtree t (taken ++ [p]) = Ok t') as Hsub' by (rewrite subtree_app, Hsub; cbn; by rewrite Hdir).
  assert (filepath_Join [Join taken 47; p] = Join (taken ++ [p]) 47) as ->.
  { unfold filepath_Join. apply Forall_app in Hcp as [Ht [[Hp _] _]%Forall_cons]. destruct taken as [|x taken].
    - cbn. rewrite decide_False by (intros Hx; by apply Hx). by rewrite decide_True.
    - rewrite !filter_cons, filter_nil, !decide_True by (done || by apply Join_not_nil). rewrite Join_snoc by done. done. }
  apply IH; [|done| |done].
  - intros k t0 [[<- <-]|[_ Hk]]%lookup_insert_Some; [|by apply Hc]. by rewrite Split_components by (done || by destruct taken).
  - by rewrite <-app_assoc.
Qed.

Lemma cached_prefix_Some cache parts i path t' rest :
  cached_prefix cache parts i = Some (path, t', rest) ->
  exists j, (1 <= j <= i)%nat /\ path = filepath_Join (take j parts) /\ rest = drop j parts /\ cache !! path = Some t'.
Proof.
  induction i as [|i IH]; [done|]. cbn [cached_prefix].
  destruct (cache !! filepath_Join (take (S i) parts)) as [t0|] eqn:Hk.
  - intros [= <- <- <-]. exists (S i). split_and!; [lia|lia|done..].
  - intros (j & ? & ?)%IH. exists j. split; [lia|done].
Qed.

Lemma FindEntry_spec t cache path :
  cache_ok t cache -> Forall (fun p => p <> []) (Split path 47) ->
  exists cache', FindEntry t cache path
    = (if ValidTreePath VolumeName path then find t (Split path 47) else Err (ErrTree ErrInvalidPath), cache')
    /\ cache_ok t cache'.
Proof.
  intros Hc Hne. unfold TreeWalk.FindEntry. destruct (ValidTreePath VolumeName path); cbn [negb]; [|by exists cache].
  assert (components (Split path 47)) as Hcomp.
  { pose proof (Split_no_sep path 47) as Hns. unfold components. rewrite Forall_forall in *. naive_solver. }
  pose proof (Split_not_nil path 47) as Hnil. generalize dependent (Split path 47). intros parts _ Hcomp Hnil.
  destruct (cached_prefix cache parts (length parts - 1)) as [[[pc t'] rest]|] eqn:Hcp.
  - apply cached_prefix_Some in Hcp as (j & Hj & -> & -> & Hk).
    assert (components (take j parts)) as Htake by (by apply Forall_take).
    assert (take j parts <> []) as Htne by (destruct parts, j; [done..|lia|done]).
    rewrite Join_components in Hk |- * by done. apply Hc in Hk. rewrite Split_components in Hk by done.
    destruct (find_loop_spec t (drop j parts) cache t' (take j parts) Hc) as (cache' & Hl & Hc').
    + intros Hd. apply (f_equal length) in Hd. rewrite length_drop in Hd. cbn in Hd. lia.
    + by rewrite take_drop.
    + done.
    + exists cache'. rewrite Hl. split; [|done]. f_equal. rewrite <-(take_drop j parts) at 2.
      rewrite find_app; [by rewrite Hk|]. intros Hd. apply (f_equal length) in Hd. rewrite length_drop in Hd. cbn in Hd. lia.
  - destruct (find_loop_spec t parts cache t [] Hc Hnil Hcomp eq_refl) as (cache' & Hl & Hc'). by exists cache'.
Qed.
End lookup.

(** ** The walker lists the tree *)

Section walker.
Context (GetTree : ObjectID -> outcome find_error Tree) (VolumeName : bytes -> bytes).
#[local] Notation tw_Next := (tw_Next GetTree VolumeName).
#[local] Notation tw_loop := (tw_loop GetTree VolumeName).

(** What a caller that goes on until the end is given. *)
Fixpoint tw_collect (turns : nat) (w : TreeWalker) : outcome find_error (list (bytes * TreeEntry)) :=
  match turns with
  | O => NoFuel
  | S n =>
      match tw_Next w with
      | (Ok x, w) => l ← tw_collect n w; mret (x :: l)
      | (Err (ErrTree ErrTreeEOF), _) => mret []
      | (Err e, _) => Err e
      | (Panic, _) => Panic
      | (NoFuel, _) => NoFuel
      end
  end.

(** The entries of a tree and of its subtrees, with their paths, for trees of
    [d] levels at most whose subtrees can all be read. *)
Fixpoint list_entries (sub : bytes -> Tree -> option (list (bytes * TreeEntry))) (base : bytes) (es : list TreeEntry)
    : option (list (bytes * TreeEntry)) :=
  match es with
  | [] => Some []
  | e :: es =>
      let name := simpleJoin base (Name e) in
      below ← (if Mode e =? Dir then match GetTree (Hash e) with Ok t => sub name t | _ => None end else Some []);
      rest ← list_entries sub base es;
      Some ((name, e) :: below ++ rest)
  end.

Fixpoint listing (d : nat) (base : bytes) (t : Tree) : option (list (bytes * TreeEntry)) :=
  match d with O => None | S d => list_entries (listing d) base (Entries t) end.

(** The levels a walker may enter. *)
Definition max_levels : nat := 1025.

(** What a stack has still to list. *)
Inductive pending : list (Tree * Z) -> bytes -> list (bytes * TreeEntry) -> Prop :=
  | pending_nil base : pending [] base []
  | pending_cons t pos below base l1 l2 :
      0 <= pos -> (length below < max_levels)%nat ->
      list_entries (listing (max_levels - length below - 1)) base (drop (Z.to_nat pos) (Entries t)) = Some l1 ->
      pending below (parent_base base) l2 -> pending ((t, pos) :: below) base (l1 ++ l2).

Definition listable (x : bytes * TreeEntry) : Prop :=
  ValidTreePath VolumeName (Name x.2) = true /\ 47 ∉ Name x.2 /\ Name x.2 <> [].

Lemma parent_base_join base name : 47 ∉ name -> name <> [] -> parent_base (simpleJoin base name) = base.
Proof.
  intros Hn Hne. unfold parent_base, simpleJoin. destruct (Z.gtb_spec (len base) 0) as [Hb|Hb].
  - cbn [app]. rewrite cut_last_app by done. apply TrimSuffix_app.
  - assert (base = []) as -> by (apply len_zero_nil; pose proof (len_nonneg base); lia).
    destruct (cut_last 47 name) as [[a b]|] eqn:Hc; [|reflexivity].
    apply cut_last_Some in Hc as [-> _]. exfalso. apply Hn. set_solver.
Qed.

Lemma entry_at_cases t pos :
  0 <= pos ->
  match entry_at t pos with
  | None => drop (Z.to_nat pos) (Entries t) = []
  | Some (e, pos') => pos' = pos + 1 /\ drop (Z.to_nat pos) (Entries t) = e :: drop (Z.to_nat pos') (Entries t)
      /\ pos < len (Entries t)
  end.
Proof.
  intros Hp. unfold entry_at. rewrite Z.geb_leb. destruct (Z.leb_spec (len (Entries t)) pos) as [Hle|Hlt].
  - apply drop_ge. unfold len in Hle. lia.
  - destruct (Entries t !! Z.to_nat pos) as [e|] eqn:He.
    + split_and!; [done| |done]. rewrite (drop_S _ e) by done. do 2 f_equal. lia.
    + apply lookup_ge_None in He. unfold len in Hlt. lia.
Qed.

Lemma entries_left_cons t pos below :
  entries_left ((t, pos) :: below) = (S (length (Entries t) - Z.to_nat pos) + entries_left below)%nat.
Proof. done. Qed.

Lemma tw_loop_spec fuel w l :
  pending (tw_stack w) (tw_base w) l -> Forall listable l -> tw_recursive w = true -> tw_seen w = ∅ ->
  (entries_left (tw_stack w) < fuel)%nat ->
  match l with
  | [] => exists w', tw_loop fuel w = (Err (ErrTree ErrTreeEOF), w')
  | x :: l' => exists w', tw_loop fuel w = (Ok x, w') /\ pending (tw_stack w') (tw_base w') l'
                 /\ tw_recursive w' = true /\ tw_seen w' = ∅
  end.
Proof.
  revert w l. induction fuel as [|fuel IH]; intros w l Hp Hl Hr Hs Hf; [lia|].
  cbn [TreeWalk.tw_loop]. destruct w as [stack base rec seen skip]. cbn [tw_stack tw_base tw_recursive tw_seen] in *. subst rec seen.
  destruct Hp as [base|t pos below base l1 l2 Hpos Hbelow Hl1 Hp]; [by eexists|].
  assert ((len ((t, pos) :: below) - 1 >? maxTreeDepth) = false) as ->.
  { rewrite Z.gtb_ltb. apply Z.ltb_ge. rewrite len_cons. unfold len, maxTreeDepth. unfold max_levels in Hbelow. lia. }
  rewrite entries_left_cons in Hf.
  pose proof (entry_at_cases t pos Hpos) as He. destruct (entry_at t pos) as [[e pos']|].
  - destruct He as (-> & Hd & Hlt). rewrite Hd in Hl1. cbn [list_entries] in Hl1.
    cbn [tw_with tw_base tw_stack tw_recursive tw_skipPathValidation tw_seen].
    rewrite decide_False by apply not_elem_of_empty.
    set (name := simpleJoin base (Name e)) in *.
    destruct (if Mode e =? Dir then _ else _) as [lb|] eqn:Hb; [|done]. cbn [mbind option_bind] in Hl1.
    destruct (list_entries _ base _) as [lr|] eqn:Hrest; [|done]. cbn in Hl1. injection Hl1 as <-.
    apply Forall_cons in Hl as [(Hv & Hns & Hne) Hl]. cbn in Hv, Hns, Hne. rewrite Hv, andb_false_r.
    destruct (Mode e =? Dir).
    + destruct (GetTree (Hash e)) as [obj| | |] eqn:Hg; [|done..]. eexists. split_and!; [reflexivity| |done..].
      cbn [tw_with tw_stack tw_base]. rewrite <-app_assoc.
      destruct (max_levels - length below - 1)%nat as [|d] eqn:Hd'; [done|].
      constructor; [lia| | |].
      * cbn. lia.
      * cbn [Z.to_nat drop length]. replace (max_levels - S (length below) - 1)%nat with d by lia. exact Hb.
      * unfold name. rewrite parent_base_join by done. constructor; [lia|lia| |done].
        rewrite Hd'. exact Hrest.
    + injection Hb as <-. eexists. split_and!; [reflexivity| |done..]. cbn. by constructor; [lia|..].
  - rewrite He in Hl1. injection Hl1 as <-. apply (IH (tw_with _ below (parent_base base)) l2); [done|done|done|done|].
    cbn [tw_with tw_stack]. lia.
Qed.

Lemma tw_collect_spec turns w l :
  pending (tw_stack w) (tw_base w) l -> Forall listable l -> tw_recursive w = true -> tw_seen w = ∅ ->
  (length l < turns)%nat -> tw_collect turns w = Ok l.
Proof.
  revert w l. induction turns as [|turns IH]; intros w l Hp Hl Hr Hs Ht; [lia|]. cbn [tw_collect].
  pose proof (tw_loop_spec (S (entries_left (tw_stack w))) w l Hp Hl Hr Hs ltac:(lia)) as Hn. unfold TreeWalk.tw_Next.
  destruct l as [|x l].
  - destruct Hn as (w' & ->). done.
  - destruct Hn as (w' & -> & Hp' & Hr' & Hs'). apply Forall_cons in Hl as [_ Hl]. cbn in Ht.
    rewrite (IH w' l) by (done || lia). done.
Qed.

Lemma walker_lists t l turns :
  listing max_levels [] t = Some l -> Forall listable l -> (length l < turns)%nat ->
  tw_collect turns (NewTreeWalker t true ∅) = Ok l.
Proof.
  intros Hl Hok Ht. apply tw_collect_spec; [|done..]. cbn. rewrite <-(app_nil_r l).
  constructor; [lia|cbn; unfold max_levels; lia| |constructor]. cbn [length Z.to_nat drop].
  change (max_levels - 0 - 1)%nat with 1024%nat. exact Hl.
Qed.
End walker.

(** ** The walker and the lookup agree *)

Section agree.
Context (GetTree : ObjectID -> outcome find_error Tree) (VolumeName : bytes -> bytes).
Hypothesis NoVolume : forall p, VolumeName p = [].
#[local] Notation find := (find GetTree).
#[local] Notation listing := (listing GetTree).
#[local] Notation list_entries := (list_entries GetTree).

(** A tree as [Validate] asks for, in which only directories refer to
    trees. *)
Record good_tree (t : Tree) : Prop := {
  good_sorted : sorted_by_name (Entries t);
  good_names : NoDup (Name <$> Entries t);
  good_valid : Forall (fun e => ValidTreePath VolumeName (Name e) = true /\ 47 ∉ Name e) (Entries t);
  good_modes : Forall (fun e => Mode e = Dir \/ is_ok (GetTree (Hash e)) = false) (Entries t);
  good_len : len (Entries t) < 2 ^ 63;
}.

Hypothesis store_good : forall h t, GetTree h = Ok t -> good_tree t.

Lemma fields_loop_app cur a x b : isPathSep x = true -> fields_loop cur (a ++ x :: b) = fields_loop cur a ++ fields b.
Proof.
  intros Hx. revert cur. induction a as [|y a IH]; intros cur; cbn [app fields_loop].
  - rewrite Hx. by destruct cur.
  - destruct (isPathSep y); [destruct cur; rewrite IH; done|apply IH].
Qed.

Lemma ValidTreePath_app a b :
  ValidTreePath VolumeName (a ++ 47 :: b) = true <-> forallb (fun c => negb (is_control c)) (a ++ b) = true
    /\ fields a ++ fields b <> [] /\ existsb bad_tree_component (fields a ++ fields b) = false.
Proof.
  unfold ValidTreePath, fields. rewrite fields_loop_app by done. fold (fields a) (fields b). rewrite NoVolume.
  rewrite bool_decide_eq_true_2 by done. cbn [negb].
  assert (existsb is_control (a ++ 47 :: b) = negb (forallb (fun c => negb (is_control c)) (a ++ b))) as ->.
  { rewrite existsb_app, forallb_app. cbn [existsb]. replace (is_control 47) with false by done. cbn [orb].
    clear. induction a as [|x a IHa]; cbn.
    - induction b as [|x b IHb]; cbn; [done|]. rewrite IHb. by destruct (is_control x).
    - destruct (is_control x); [done|]. exact IHa. }
  destruct (forallb _ (a ++ b)); cbn [negb]; [|naive_solver].
  destruct (fields a ++ fields b) as [|c cs]; [naive_solver|].
  assert ((len (c :: cs) =? 0) = false) as -> by (apply Z.eqb_neq; len_lia). cbn [negb].
  destruct (existsb bad_tree_component (c :: cs)); naive_solver.
Qed.

Lemma ValidTreePath_fields a :
  ValidTreePath VolumeName a = true <-> forallb (fun c => negb (is_control c)) a = true
    /\ fields a <> [] /\ existsb bad_tree_component (fields a) = false.
Proof.
  unfold ValidTreePath. rewrite NoVolume, (bool_decide_eq_true_2 ([] = [])) by done. cbn [negb].
  assert (existsb is_control a = negb (forallb (fun c => negb (is_control c)) a)) as ->.
  { induction a as [|x a IHa]; cbn; [done|]. rewrite IHa. by destruct (is_control x). }
  destruct (forallb _ a); cbn [negb]; [|naive_solver].
  destruct (fields a) as [|c cs]; [naive_solver|].
  assert ((len (c :: cs) =? 0) = false) as -> by (apply Z.eqb_neq; len_lia). cbn [negb].
  destruct (existsb bad_tree_component (c :: cs)); naive_solver.
Qed.

Lemma ValidTreePath_join a b :
  ValidTreePath VolumeName a = true -> ValidTreePath VolumeName b = true -> ValidTreePath VolumeName (a ++ 47 :: b) = true.
Proof.
  rewrite ValidTreePath_app, !ValidTreePath_fields. intros (H1 & H2 & H3) (H4 & H5 & H6). split_and!.
  - by rewrite forallb_app, H1, H4.
  - by destruct (fields a).
  - by rewrite existsb_app, H3, H6.
Qed.

Lemma valid_nonempty a : ValidTreePath VolumeName a = true -> a <> [].
Proof. intros Hv ->. by apply ValidTreePath_fields in Hv as (_ & ? & _). Qed.

Lemma good_entry t e : good_tree t -> e ∈ Entries t ->
  tree_entry t (Name e) = Ok e /\ ValidTreePath VolumeName (Name e) = true /\ 47 ∉ Name e.
Proof.
  intros [Hs Hn Hv _ Hl] He. rewrite Forall_forall in Hv. destruct (Hv e He) as [Hve Hns]. split_and!; [|done..].
  destruct (entry_spec t (Name e) Hl) as [Hent _]. unfold tree_entry. rewrite Hent; [|done|].
  - unfold first_entry. destruct (list_find _ _) as [[i e']|] eqn:Hf.
    + apply list_find_Some in Hf as (Hi & Heq & _). cbn. f_equal. apply list_elem_of_lookup in He as (j & Hj).
      assert (i = j) as ->; [|congruence].
      apply (NoDup_lookup _ _ _ (Name e) Hn); rewrite list_lookup_fmap; [rewrite Hi; cbn; by f_equal|by rewrite Hj].
    + apply list_find_None in Hf. rewrite Forall_forall in Hf. by destruct (Hf e He).
  - apply Forall_forall. intros e' He'. unfold no_slash. by apply (Hv e').
Qed.

Lemma tree_entry_elem t name e : good_tree t -> tree_entry t name = Ok e -> e ∈ Entries t /\ Name e = name.
Proof.
  intros [_ _ _ _ Hl]. destruct (entry_spec t name Hl) as [_ He]. unfold tree_entry.
  destruct (entry t name) as [e'| | |]; try done. intros [= ->]. by apply He.
Qed.

Lemma list_entries_elem sub base es l x :
  list_entries sub base es = Some l ->
  x ∈ l <-> exists e, e ∈ es /\ (x = (simpleJoin base (Name e), e)
    \/ Mode e = Dir /\ exists t below, GetTree (Hash e) = Ok t /\ sub (simpleJoin base (Name e)) t = Some below /\ x ∈ below).
Proof.
  revert l. induction es as [|e es IH]; intros l; cbn [TreeWalk.list_entries].
  - intros [= <-]. split; [by intros ?%elem_of_nil|]. by intros (e & He%elem_of_nil & _).
  - destruct (if Mode e =? Dir then _ else _) as [lb|] eqn:Hb; [|done]. cbn [mbind option_bind].
    destruct (TreeWalk.list_entries _ _ _ _) as [lr|]; [|done]. cbn. intros [= <-].
    rewrite elem_of_cons, elem_of_app, (IH lr eq_refl). setoid_rewrite elem_of_cons. split.
    + intros [->|[Hx|(e' & He' & Hx)]]; [exists e; auto| |exists e'; auto].
      exists e. split; [by left|right]. destruct (Z.eqb_spec (Mode e) Dir) as [Hm|]; [|injection Hb as <-; by apply elem_of_nil in Hx].
      split; [done|]. destruct (GetTree (Hash e)) as [t| | |]; [|done..]. by exists t, lb.
    + intros (e' & [->|He'] & Hx); [|right; right; by exists e'].
      destruct Hx as [->|(Hm & t & below & Hg & Hsub & Hx)]; [by left|right; left].
      rewrite Hm, Z.eqb_refl, Hg, Hsub in Hb. by injection Hb as <-.
Qed.

Lemma simpleJoin_Join base p parts : p <> [] -> parts <> [] ->
  simpleJoin base (Join (p :: parts) 47) = simpleJoin (simpleJoin base p) (Join parts 47).
Proof.
  intros Hp Hne. rewrite Join_cons by done. assert ((len (simpleJoin base p) >? 0) = true) as Hl.
  { rewrite Z.gtb_ltb. apply Z.ltb_lt. unfold simpleJoin. destruct (len base >? 0); [|destruct p; [done|len_lia]].
    rewrite !len_app. pose proof (len_nonneg base). pose proof (len_nonneg p). len_lia. }
  unfold simpleJoin at 2. rewrite Hl. unfold simpleJoin. destruct (len base >? 0); [|done]. by rewrite <-!app_assoc.
Qed.

Lemma listing_find d : forall base t l e,
  good_tree t -> listing d base t = Some l ->
  (forall x, (x, e) ∈ l -> exists parts, parts <> [] /\ components parts /\ x = simpleJoin base (Join parts 47)
               /\ find t parts = Ok e /\ ValidTreePath VolumeName (Join parts 47) = true)
  /\ (forall parts, parts <> [] -> components parts -> find t parts = Ok e -> (simpleJoin base (Join parts 47), e) ∈ l).
Proof.
  induction d as [|d IH]; intros base t l e Ht; [done|]. cbn [TreeWalk.listing]. intros Hl. split.
  - intros x Hx. apply (list_entries_elem _ _ _ _ _ Hl) in Hx as (e0 & He0 & Hx).
    destruct (good_entry t e0 Ht He0) as (Hent & Hv & Hns). pose proof (valid_nonempty _ Hv) as Hne.
    destruct Hx as [[= -> ->]|(Hm & t' & below & Hg & Hsub & Hx)].
    + exists [Name e0]. split_and!; [done|by repeat constructor|done|done|done].
    + destruct (IH _ t' below e (store_good _ _ Hg) Hsub) as [H1 _].
      destruct (H1 x Hx) as (parts & Hp & Hc & -> & Hf & Hvp). exists (Name e0 :: parts). split_and!.
      * done.
      * by constructor.
      * by rewrite simpleJoin_Join.
      * destruct parts as [|q parts]; [done|]. cbn [TreeWalk.find]. unfold tree_dir. rewrite Hent, Hg. exact Hf.
      * rewrite Join_cons by done. by apply ValidTreePath_join.
  - intros parts Hp Hc Hf. apply (list_entries_elem _ _ _ _ _ Hl). destruct parts as [|p parts]; [done|].
    apply Forall_cons in Hc as [[Hpne Hpns] Hc]. destruct parts as [|q parts].
    + cbn in Hf. apply tree_entry_elem in Hf as [He <-]; [|done]. exists e. by split; [|left].
    + cbn [TreeWalk.find] in Hf. unfold tree_dir in Hf. destruct (tree_entry t p) as [e0| | |] eqn:Hent; try done.
      destruct (GetTree (Hash e0)) as [t'| | |] eqn:Hg; try done. cbn [mbind outcome_bind] in Hf.
      apply tree_entry_elem in Hent as [He0 <-]; [|done]. exists e0. split; [done|right].
      assert (Mode e0 = Dir) as Hm.
      { destruct Ht as [_ _ _ Hmodes _]. rewrite Forall_forall in Hmodes. destruct (Hmodes e0 He0) as [|Hno]; [done|]. by rewrite Hg in Hno. }
      split; [done|]. destruct (listing d (simpleJoin base (Name e0)) t') as [below|] eqn:Hsub.
      * exists t', below. split_and!; [done..|]. destruct (IH _ t' below e (store_good _ _ Hg) Hsub) as [_ H2].
        rewrite simpleJoin_Join by done. by apply H2.
      * exfalso. clear -Hl He0 Hm Hg Hsub. revert l Hl. induction (Entries t) as [|e1 es IHes]; [by apply elem_of_nil in He0|].
        intros l. cbn [TreeWalk.list_entries]. apply elem_of_cons in He0 as [<-|He0].
        -- by rewrite Hm, Z.eqb_refl, Hg, Hsub.
        -- destruct (if Mode e1 =? Dir then _ else _); [|done]. cbn [mbind option_bind].
           destruct (TreeWalk.list_entries _ _ _ _) as [lr|] eqn:Hr; [|done]. intros _. by apply (IHes He0 lr).
Qed.

Lemma listing_good d : forall base t l, good_tree t -> listing d base t = Some l -> Forall (listable VolumeName) l.
Proof.
  induction d as [|d IH]; intros base t l Ht; [done|]. cbn [TreeWalk.listing]. intros Hl. apply Forall_forall.
  intros [x e] Hx. apply (list_entries_elem _ _ _ _ _ Hl) in Hx as (e0 & He0 & [[= -> ->]|(Hm & t' & below & Hg & Hsub & Hx)]).
  - destruct (good_entry t e0 Ht He0) as (_ & Hv & Hns). unfold listable. cbn. split_and!; [done..|by apply valid_nonempty].
  - specialize (IH _ t' below (store_good _ _ Hg) Hsub). rewrite Forall_forall in IH. by apply (IH (x, e)).
Qed.
End agree.

(** ** Properties *)

Section properties.
Context (GetTree : ObjectID -> outcome find_error Tree) (VolumeName : bytes -> bytes).

(** Lookups one after another on the same tree. *)
Fixpoint find_all (t : Tree) (cache : gmap bytes Tree) (paths : list bytes) : list (outcome find_error TreeEntry) :=
  match paths with
  | [] => []
  | path :: paths => let '(r, cache) := FindEntry GetTree VolumeName t cache path in r :: find_all t cache paths
  end.

(** A path without empty components. *)
Definition regular (path : bytes) : Prop := Forall (fun p => p <> []) (Split path 47).

Definition lookup_result (t : Tree) (path : bytes) : outcome find_error TreeEntry :=
  if ValidTreePath VolumeName path then find GetTree t (Split path 47) else Err (ErrTree ErrInvalidPath).

Lemma find_all_spec t cache paths :
  cache_ok GetTree t cache -> Forall regular paths -> find_all t cache paths = lookup_result t <$> paths.
Proof.
  intros Hc Hp. induction Hp as [|path paths Hr Hp IH] in cache, Hc |- *; [done|]. cbn [find_all fmap list_fmap].
  destruct (FindEntry_spec GetTree VolumeName t cache path Hc Hr) as (cache' & -> & Hc'). f_equal. by apply IH.
Qed.

(** C23: the cache of paths is not seen.  For any sequence of lookups in a tree,
    of paths without empty components, each returns the entry found by going
    down from the root component by component, or the error of the first step
    that fails, whatever was looked up before. *)
Theorem FindEntry_cache t paths : Forall regular paths -> find_all t ∅ paths = lookup_result t <$> paths.
Proof. apply find_all_spec. intros k t'. by rewrite lookup_empty. Qed.

(** C22: the walker and the lookup agree.  For a well-formed tree of at most
    1025 levels all of whose subtrees can be read, a recursive walk ends and
    returns every entry of the tree and its subtrees with its path, in order;
    and these are exactly the paths and entries that a lookup finds. *)
Theorem walker_agrees t l turns :
  (forall p, VolumeName p = []) -> (forall h t, GetTree h = Ok t -> good_tree GetTree VolumeName t) ->
  good_tree GetTree VolumeName t -> listing GetTree max_levels [] t = Some l -> (length l < turns)%nat ->
  tw_collect GetTree VolumeName turns (NewTreeWalker t true ∅) = Ok l
  /\ forall path e cache, cache_ok GetTree t cache ->
       (path, e) ∈ l <-> regular path /\ fst (FindEntry GetTree VolumeName t cache path) = Ok e.
Proof.
  intros HV Hst Ht Hl Hlen. split.
  - apply walker_lists; [done| |done]. by eapply listing_good.
  - intros path e cache Hc. destruct (listing_find GetTree VolumeName HV Hst max_levels [] t l e Ht Hl) as [H1 H2]. split.
    + intros Hx. destruct (H1 path Hx) as (parts & Hp & Hcomp & -> & Hf & Hv). change (simpleJoin [] ?x) with x.
      assert (regular (Join parts 47)) as Hr.
      { unfold regular. rewrite Split_components by done. eapply Forall_impl; [exact Hcomp|]. by intros ? []. }
      split; [done|]. destruct (FindEntry_spec GetTree VolumeName t cache _ Hc Hr) as (cache' & -> & _). cbn.
      by rewrite Hv, Split_components.
    + intros [Hr Hf]. destruct (FindEntry_spec GetTree VolumeName t cache path Hc Hr) as (cache' & Heq & _). rewrite Heq in Hf.
      cbn in Hf. destruct (ValidTreePath VolumeName path); [|done].
      rewrite <-(Join_Split path 47). change (Join ?x 47) with (simpleJoin [] (Join x 47)). apply H2; [apply Split_not_nil| |done].
      unfold components. pose proof (Split_no_sep path 47) as Hns. unfold regular in Hr. rewrite Forall_forall in *. naive_solver.
Qed.
End properties.

(** ** Examples *)

Definition example_id (n : Z) : ObjectID := {| oid_hash := n :: replicate 31 0; oid_format := UnsetObjectFormat |}.

Definition example_tree (n : Z) (es : list (string * FileMode * Z)) : Tree :=
  {| Entries := (fun '(name, m, h) => {| Name := bs name; Mode := m; Hash := example_id h |}) <$> es;
     tree_Hash := example_id n; entriesSorted := true |}.

Definition trees_of (ts : list Tree) (h : ObjectID) : outcome find_error Tree :=
  match List.find (fun t => bool_decide (tree_Hash t = h)) ts with
  | Some t => Ok t
  | None => Err (ErrStorage ErrObjectNotFound)
  end.

Definition example_root : Tree := example_tree 1 [("README"%string, Regular, 10); ("src"%string, Dir, 2); ("zz"%string, Regular, 11)].
Definition example_src : Tree := example_tree 2 [("a.go"%string, Executable, 12); ("b"%string, Dir, 3)].
Definition example_b : Tree := example_tree 3 [("c"%string, Symlink, 13)].

Definition paths_of (r : outcome find_error (list (bytes * TreeEntry))) : option (list bytes) :=
  match r with Ok l => Some (fst <$> l) | _ => None end.

Example walk_example :
  paths_of (tw_collect (trees_of [example_src; example_b]) (fun _ => []) 10 (NewTreeWalker example_root true ∅))
  = Some [bs "README"; bs "src"; bs "src/a.go"; bs "src/b"; bs "src/b/c"; bs "zz"].
Proof. vm_compute. reflexivity. Qed.

(** A subtree that is missing ends the walk, even one that does not enter it,
    as if the tree had no more entries. *)
Example missing_subtree_ends_walk :
  paths_of (tw_collect (trees_of []) (fun _ => []) 10 (NewTreeWalker example_root false ∅)) = Some [bs "README"].
Proof. vm_compute. reflexivity. Qed.

(** With an empty component the answer depends on what was looked up before. *)
Example empty_component_uses_cache :
  let find := find_all (trees_of [example_src; example_b]) (fun _ => []) example_root ∅ in
  is_ok <$> find [bs "src//a.go"] = [false] /\ is_ok <$> find [bs "src/a.go"; bs "src//a.go"] = [true; true].
Proof. vm_compute. split; reflexivity. Qed.

Lemma FindEntry_cache_witness :
  find_all (trees_of [example_src; example_b]) (fun _ => []) example_root ∅ [bs "src/b/c"; bs "src/b"; bs "src/x"]
  = lookup_result (trees_of [example_src; example_b]) (fun _ => []) example_root <$> [bs "src/b/c"; bs "src/b"; bs "src/x"].
Proof. apply FindEntry_cache. apply (bool_decide_unpack _). vm_compute. exact I. Defined.

Definition good_checks (ts : list Tree) (t : Tree) : bool :=
  ascending_names None (Entries t) && bool_decide (NoDup (Name <$> Entries t))
  && forallb (fun e => ValidTreePath (fun _ => []) (Name e) && negb (ContainsByte (Name e) 47)) (Entries t)
  && forallb (fun e => (Mode e =? Dir) || negb (is_ok (trees_of ts (Hash e)))) (Entries t) && (len (Entries t) <? 2 ^ 63).

Lemma good_checked ts t : good_checks ts t = true -> good_tree (trees_of ts) (fun _ => []) t.
Proof.
  unfold good_checks. rewrite !andb_true_iff, !forallb_forall. intros ((((H1 & H2) & H3) & H4) & H5). constructor.
  - by apply (ascending_names_spec None).
  - by apply bool_decide_eq_true in H2.
  - apply Forall_forall. intros e He%list_elem_of_In. specialize (H3 e He). apply andb_true_iff in H3 as [Hv Hs]. split; [done|].
    apply negb_true_iff in Hs. by apply bool_decide_eq_false in Hs.
  - apply Forall_forall. intros e He%list_elem_of_In. specialize (H4 e He). apply orb_true_iff in H4 as [Hm|Hg]; [left; lia|right].
    by apply negb_true_iff.
  - by apply Z.ltb_lt.
Qed.

Lemma trees_of_good ts : forallb (good_checks ts) ts = true -> forall h t, trees_of ts h = Ok t -> good_tree (trees_of ts) (fun _ => []) t.
Proof.
  rewrite forallb_forall. intros Hts h t. unfold trees_of at 1. destruct (List.find _ ts) as [t'|] eqn:Hf; [|done].
  intros [= <-]. apply find_some in Hf as [Hin _]. apply good_checked. by apply Hts.
Qed.

Lemma walker_agrees_witness :
  exists l, tw_collect (trees_of [example_src; example_b]) (fun _ => []) 10 (NewTreeWalker example_root true ∅) = Ok l
    /\ forall path e cache, cache_ok (trees_of [example_src; example_b]) example_root cache ->
         (path, e) ∈ l <-> regular path /\ fst (FindEntry (trees_of [example_src; example_b]) (fun _ => []) example_root cache path) = Ok e.
Proof.
  destruct (listing (trees_of [example_src; example_b]) max_levels [] example_root) as [l|] eqn:Hl; [|vm_compute in Hl; discriminate].
  exists l. apply (walker_agrees (trees_of [example_src; example_b]) (fun _ => []) example_root l 10); [done| | |done|].
  - apply trees_of_good. vm_compute. reflexivity.
  - apply good_checked. vm_compute. reflexivity.
  - vm_compute in Hl. injection Hl as <-. cbn. lia.
Defined.
