(* ===== verification/TreeDiff.v ===== *)
(** * Differences of git trees: [plumbing/object/{treenoder,difftree,change,change_adaptor}.go]

    Trees as nodes of a merkle trie and the changes between two trees.  For
    trees whose subtrees can all be read the changes are those between the two
    lists of files that the walker lists. *)
From stdpp Require Import base list numbers option strings gmap sets sorting.
From Stdlib Require Import ZArith Lia.
From S2P Require Import Prelude GoStrings ObjectId Object Filemode Pathutil.
From S2P Require Import Tree TreeWalk Merkletrie.

Open Scope Z_scope.

(** ** Tree nodes *)

(** [FileMode.Bytes]: four bytes, the lowest first. *)
Definition mode_Bytes (m : FileMode) : bytes := reverse (PutUint32 m).

Record treeNoder := { tn_parent : option Tree; tn_name : bytes; tn_mode : FileMode; tn_hash : ObjectID }.

Definition NewTreeRootNode (t : option Tree) : treeNoder :=
  match t with
  | None => {| tn_parent := None; tn_name := []; tn_mode := Empty; tn_hash := ZeroHash |}
  | Some t => {| tn_parent := Some t; tn_name := []; tn_mode := Dir; tn_hash := tree_Hash t |}
  end.

Definition isRoot (t : treeNoder) : bool := bool_decide (tn_name t = []).

Definition tn_Hash (t : treeNoder) : bytes :=
  if tn_mode t =? Deprecated then Bytes (tn_hash t) ++ mode_Bytes Regular else Bytes (tn_hash t) ++ mode_Bytes (tn_mode t).

Section nodes.
Context (GetTree : ObjectID -> outcome find_error Tree) (VolumeName : bytes -> bytes).

Definition node_of (t : Tree) (e : TreeEntry) : treeNoder :=
  {| tn_parent := Some t; tn_name := Name e; tn_mode := Mode e; tn_hash := Hash e |}.

Fixpoint transform_loop (turns : nat) (t : Tree) (w : TreeWalker) (ret : list treeNoder) : outcome find_error (list treeNoder) :=
  match turns with
  | O => NoFuel
  | S n =>
      match tw_Next GetTree VolumeName w with
      | (Ok (_, e), w) => transform_loop n t w (ret ++ [node_of t e])
      | (Err (ErrTree ErrTreeEOF), _) => mret ret
      | (Err e, _) => Err e
      | (Panic, _) => Panic
      | (NoFuel, _) => NoFuel
      end
  end.

Definition transformChildren (t : Tree) : outcome find_error (list treeNoder) :=
  transform_loop (S (length (Entries t))) t (skipPathValidation (NewTreeWalker t false ∅)) [].

(** The tree of a node that is not the root is looked up in its parent; the
    answer does not depend on the parent's cache ([FindEntry_cache]). *)
Definition tn_Children (t : treeNoder) : outcome find_error (list treeNoder) :=
  if negb (tn_mode t =? Dir) then mret []
  else
    match tn_parent t with
    | None => Panic
    | Some parent =>
        parent ← (if negb (isRoot t) then fst (Tree_Tree GetTree VolumeName parent ∅ (tn_name t)) else mret parent);
        transformChildren parent
    end.

Definition tn_NumChildren (t : treeNoder) : outcome find_error Z := children ← tn_Children t; mret (len children).

#[local] Instance treeNoder_Noder : Noder treeNoder find_error := {
  noder_Name := tn_name;
  noder_IsDir n := tn_mode n =? Dir;
  noder_Skip _ := false;
  noder_Children := tn_Children;
  noder_NumChildren := tn_NumChildren;
}.

(** ** Changes *)

Record ChangeEntry := { ce_Name : bytes; ce_Tree : option Tree; ce_TreeEntry : TreeEntry }.

Record tree_change := { ch_From : option ChangeEntry; ch_To : option ChangeEntry }.

(** The zero entry stands for nil. *)
Definition newChangeEntry (p : option (list treeNoder)) : outcome (diff_error find_error) (option ChangeEntry) :=
  match p with
  | None => mret None
  | Some p =>
      n ← Last p;
      mret (Some {| ce_Name := path_String p; ce_Tree := tn_parent n;
                    ce_TreeEntry := {| Name := tn_name n; Mode := tn_mode n; Hash := tn_hash n |} |})
  end.

Definition newChange (c : @Change treeNoder) : outcome (diff_error find_error) tree_change :=
  from ← newChangeEntry (From c); to ← newChangeEntry (To c); mret {| ch_From := from; ch_To := to |}.

Fixpoint newChanges (src : list (@Change treeNoder)) : outcome (diff_error find_error) (list tree_change) :=
  match src with [] => mret [] | c :: src => c ← newChange c; ret ← newChanges src; mret (c :: ret) end.

Section sort.
Context (Sort : (treeNoder -> treeNoder -> bool) -> list treeNoder -> list treeNoder).

Definition hashEqual (a b : treeNoder) : bool := bool_decide (tn_Hash a = tn_Hash b).

(** [DiffTreeWithOptions] without rename detection. *)
Definition DiffTreeWithOptions (fuel : nat) (done : nat -> bool) (a b : option Tree)
    : outcome (diff_error find_error) (list tree_change) :=
  changes ← DiffTreeContext Sort hashEqual fuel done (NewTreeRootNode a) (NewTreeRootNode b);
  newChanges changes.

Definition tree_DiffTree (fuel : nat) (a b : option Tree) : outcome (diff_error find_error) (list tree_change) :=
  DiffTreeWithOptions fuel (fun _ => false) a b.
End sort.

(** ** Tries of trees *)

(** The trie below a tree of [d] levels at most, if all subtrees can be
    read. *)
Fixpoint snapshot_entries (sub : Tree -> option (list (trie treeNoder))) (t : Tree) (es : list TreeEntry)
    : option (list (trie treeNoder)) :=
  match es with
  | [] => Some []
  | e :: es =>
      below ← (if Mode e =? Dir then match GetTree (Hash e) with Ok t => sub t | _ => None end else Some []);
      rest ← snapshot_entries sub t es;
      Some (Trie (node_of t e) below :: rest)
  end.

Fixpoint snapshot (d : nat) (t : Tree) : option (list (trie treeNoder)) :=
  match d with O => None | S d => snapshot_entries (snapshot d) t (Entries t) end.

Lemma snapshot_entries_cons sub t e es ts :
  snapshot_entries sub t (e :: es) = Some ts ->
  exists below rest, ts = Trie (node_of t e) below :: rest /\ snapshot_entries sub t es = Some rest
    /\ (Mode e <> Dir /\ below = [] \/ Mode e = Dir /\ exists t', GetTree (Hash e) = Ok t' /\ sub t' = Some below).
Proof.
  cbn [snapshot_entries]. destruct (if Mode e =? Dir then _ else _) as [below|] eqn:Hb; [|done]. cbn [mbind option_bind].
  destruct (snapshot_entries sub t es) as [rest|]; [|done]. cbn. intros [= <-]. exists below, rest. split_and!; [done..|].
  destruct (Z.eqb_spec (Mode e) Dir); [right|left; by injection Hb as <-]. split; [done|].
  destruct (GetTree (Hash e)) as [t'| | |]; [by exists t'|done..].
Qed.

Lemma snapshot_roots sub t es ts : snapshot_entries sub t es = Some ts -> root <$> ts = node_of t <$> es.
Proof.
  revert ts. induction es as [|e es IH]; intros ts; [by intros [= <-]|].
  intros (below & rest & -> & Hr & _)%snapshot_entries_cons. cbn. by rewrite (IH rest Hr).
Qed.

Lemma snapshot_elem sub t es ts tr :
  snapshot_entries sub t es = Some ts -> tr ∈ ts ->
  exists e, e ∈ es /\ root tr = node_of t e
    /\ (Mode e <> Dir /\ kids tr = [] \/ Mode e = Dir /\ exists t', GetTree (Hash e) = Ok t' /\ sub t' = Some (kids tr)).
Proof.
  revert ts. induction es as [|e es IH]; intros ts; [by intros [= <-] ?%elem_of_nil|].
  intros (below & rest & -> & Hr & Hc)%snapshot_entries_cons [->|Htr]%elem_of_cons.
  - exists e. split_and!; [by left|done|done].
  - destruct (IH rest Hr Htr) as (e' & He' & H). exists e'. split; [by right|done].
Qed.

(** The children of a tree that can be read are its entries. *)
Lemma transform_loop_spec t turns pos ret :
  0 <= pos <= len (Entries t) -> (length (Entries t) - Z.to_nat pos < turns)%nat ->
  Forall (fun e => Mode e <> Dir \/ is_ok (GetTree (Hash e)) = true) (Entries t) ->
  transform_loop turns t {| tw_stack := [(t, pos)]; tw_base := []; tw_recursive := false; tw_seen := ∅;
                            tw_skipPathValidation := true |} ret
  = Ok (ret ++ (node_of t <$> drop (Z.to_nat pos) (Entries t))).
Proof.
  revert pos ret. induction turns as [|turns IH]; intros pos ret Hpos Ht Hok; [lia|]. cbn [transform_loop].
  unfold tw_Next. cbn [TreeWalk.tw_loop tw_stack]. change (len [(t, pos)] - 1 >? maxTreeDepth) with false. cbn iota.
  pose proof (entry_at_cases t pos ltac:(lia)) as He. destruct (entry_at t pos) as [[e pos']|].
  - destruct He as (-> & Hd & Hlt). cbn [tw_with tw_base tw_seen tw_recursive tw_skipPathValidation].
    rewrite decide_False by apply not_elem_of_empty. cbn [negb andb].
    assert (Mode e <> Dir \/ is_ok (GetTree (Hash e)) = true) as Hg.
    { rewrite Forall_forall in Hok. apply Hok. rewrite <-(take_drop (Z.to_nat pos) (Entries t)), Hd.
      apply elem_of_app. right. by left. }
    rewrite Hd. cbn [fmap list_fmap]. rewrite cons_middle, app_assoc.
    destruct (Z.eqb_spec (Mode e) Dir) as [Hm|Hm].
    + destruct Hg as [|Hg]; [done|]. destruct (GetTree (Hash e)); [|done..]. apply IH; [lia|unfold len in *; lia|done].
    + apply IH; [lia|unfold len in *; lia|done].
  - rewrite He. cbn [tw_with tw_stack tw_base]. destruct (entries_left [(t, pos)]) eqn:Hle; [done|].
    cbn. by rewrite app_nil_r.
Qed.
End nodes.

(** ** The tries are read as the trees are *)

Definition normal_mode (m : FileMode) : FileMode := if m =? Deprecated then Regular else m.

(** Entries that refer to the same content with the same mode. *)
Definition same_content (a b : TreeEntry) : Prop := Hash a = Hash b /\ normal_mode (Mode a) = normal_mode (Mode b).

#[export] Instance same_content_dec a b : Decision (same_content a b).
Proof. unfold same_content. apply _. Defined.

(** What decoded entries are. *)
Definition decoded_entry (e : TreeEntry) : Prop := oid_ok (Hash e) /\ 0 <= Mode e < 2 ^ 32.

Lemma PutUint32_inj a b : 0 <= a < 2 ^ 32 -> 0 <= b < 2 ^ 32 -> PutUint32 a = PutUint32 b -> a = b.
Proof.
  intros Ha Hb Heq. apply (f_equal be_val) in Heq. unfold PutUint32 in Heq. rewrite !be_val_be_bytes in Heq.
  change (8 * Z.of_nat 4) with 32 in Heq. by rewrite !Z.mod_small in Heq.
Qed.

Lemma normal_mode_range m : 0 <= m < 2 ^ 32 -> 0 <= normal_mode m < 2 ^ 32.
Proof. unfold normal_mode, Regular. intros. destruct (m =? Deprecated); [lia|done]. Qed.

Lemma tn_Hash_eq t e : tn_Hash (node_of t e) = Bytes (Hash e) ++ mode_Bytes (normal_mode (Mode e)).
Proof. unfold tn_Hash, normal_mode. cbn. by destruct (Mode e =? Deprecated). Qed.

Lemma tn_Hash_inj t1 t2 e1 e2 :
  decoded_entry e1 -> decoded_entry e2 ->
  tn_Hash (node_of t1 e1) = tn_Hash (node_of t2 e2) <-> same_content e1 e2.
Proof.
  intros [Ho1 Hm1] [Ho2 Hm2]. rewrite !tn_Hash_eq. unfold same_content. split; [|by intros [-> ->]].
  intros Heq. unfold mode_Bytes in Heq.
  assert (length (reverse (PutUint32 (normal_mode (Mode e1)))) = length (reverse (PutUint32 (normal_mode (Mode e2))))) as Hl.
  { rewrite !length_reverse. unfold PutUint32. by rewrite !be_bytes_length. }
  apply app_inj_2 in Heq as [Hb Hm]; [|done]. split; [by apply Bytes_inj|].
  apply (inj reverse) in Hm. apply PutUint32_inj; [by apply normal_mode_range..|done].
Qed.

Lemma normal_mode_Dir m : normal_mode m = Dir <-> m = Dir.
Proof. unfold normal_mode, Dir, Deprecated, Regular. destruct (Z.eqb_spec m 33204); lia. Qed.

Section tries.
Context (GetTree : ObjectID -> outcome find_error Tree) (VolumeName : bytes -> bytes).
Hypothesis NoVolume : forall p, VolumeName p = [].

(** A well-formed tree with decoded entries. *)
Definition plain_tree (t : Tree) : Prop := good_tree GetTree VolumeName t /\ Forall decoded_entry (Entries t).

Hypothesis store_plain : forall h t, GetTree h = Ok t -> plain_tree t.

#[local] Existing Instance treeNoder_Noder.
#[local] Notation snapshot := (snapshot GetTree).
#[local] Instance nodes : Noder treeNoder find_error := treeNoder_Noder GetTree VolumeName.
#[local] Notation listing := (listing GetTree).

Lemma snapshot_readable sub t es ts :
  snapshot_entries GetTree sub t es = Some ts -> Forall (fun e => Mode e <> Dir \/ is_ok (GetTree (Hash e)) = true) es.
Proof.
  revert ts. induction es as [|e es IH]; intros ts; [constructor|].
  intros (below & rest & -> & Hr & Hc)%snapshot_entries_cons. constructor; [|by eapply IH].
  destruct Hc as [[? _]|[_ (t' & -> & _)]]; [by left|by right].
Qed.

Lemma tree_children d t ts :
  plain_tree t -> snapshot d t = Some ts ->
  transformChildren GetTree VolumeName t = Ok (root <$> ts) /\ NoDup (trie_Name <$> ts)
  /\ Forall (fun c => trie_Name c <> [] /\ noder_Skip (root c) = false) ts.
Proof.
  intros [Hg _]. destruct d as [|d]; [done|]. cbn [TreeDiff.snapshot]. intros Hs.
  pose proof (snapshot_roots _ _ _ _ _ Hs) as Hroots. pose proof (snapshot_readable _ _ _ _ Hs) as Hread.
  assert (trie_Name <$> ts = Name <$> Entries t) as Hnames.
  { transitivity (tn_name <$> (root <$> ts)); [by rewrite <-list_fmap_compose|]. rewrite Hroots, <-list_fmap_compose. done. }
  split_and!.
  - unfold transformChildren, skipPathValidation, NewTreeWalker. cbn [tw_stack tw_base tw_recursive tw_seen].
    rewrite transform_loop_spec; [|pose proof (len_nonneg (Entries t)); lia|cbn; lia|done]. cbn. by rewrite Hroots.
  - rewrite Hnames. by destruct Hg.
  - apply Forall_forall. intros c Hc. split; [|done]. apply (list_elem_of_fmap_2 trie_Name) in Hc. rewrite Hnames in Hc.
    apply list_elem_of_fmap in Hc as (e & -> & He). destruct (good_entry GetTree VolumeName t e Hg He) as (_ & Hv & _).
    by eapply valid_nonempty.
Qed.

Lemma child_tree t e t' :
  plain_tree t -> e ∈ Entries t -> Mode e = Dir -> GetTree (Hash e) = Ok t' ->
  tn_Children GetTree VolumeName (node_of t e) = transformChildren GetTree VolumeName t'.
Proof.
  intros [Hg _] He Hm Ht'. destruct (good_entry GetTree VolumeName t e Hg He) as (Hent & Hv & Hns).
  pose proof (valid_nonempty _ NoVolume _ Hv) as Hne.
  unfold tn_Children, node_of, isRoot. cbn. rewrite Hm. cbn [Z.eqb negb]. change (Dir =? Dir) with true. cbn [negb].
  rewrite bool_decide_eq_false_2 by done. cbn [negb]. unfold Tree_Tree, FindEntry. rewrite Hv. cbn [negb].
  rewrite Split_none by done. cbn [length Nat.sub cached_prefix find_loop]. rewrite Hent. cbn. by rewrite Ht'.
Qed.

Lemma tree_node_reads n cs :
  tn_Children GetTree VolumeName n = Ok (root <$> cs) -> (tn_mode n <> Dir -> cs = []) -> NoDup (trie_Name <$> cs) ->
  Forall (fun c => trie_Name c <> [] /\ noder_Skip (root c) = false) cs -> Forall reads cs -> reads (Trie n cs).
Proof.
  intros Hc Hd. constructor; [exact Hc| |intros Hm; apply Hd; cbn in Hm; lia|done..].
  cbn. unfold tn_NumChildren. rewrite Hc. cbn. unfold len. by rewrite length_fmap.
Qed.

Lemma snapshot_reads d : forall t ts, plain_tree t -> snapshot d t = Some ts -> Forall reads ts.
Proof.
  induction d as [|d IH]; intros t ts Ht; [done|]. cbn [TreeDiff.snapshot]. intros Hs. apply Forall_forall. intros tr Htr.
  destruct (snapshot_elem _ _ _ _ _ _ Hs Htr) as (e & He & Hroot & Hk). destruct tr as [n cs]. cbn in Hroot, Hk. subst n.
  destruct Hk as [[Hm ->]|(Hm & t' & Hg & Hsub)].
  - apply tree_node_reads; [|done|constructor..]. unfold tn_Children. cbn. destruct (Z.eqb_spec (Mode e) Dir); [done|done].
  - destruct (tree_children d t' cs (store_plain _ _ Hg) Hsub) as (Hch & Hnd & Hok).
    apply tree_node_reads; [by rewrite (child_tree t e t')|done|done|done|]. by eapply IH, Hsub; eapply store_plain.
Qed.

Lemma root_reads d t ts : plain_tree t -> snapshot d t = Some ts -> reads (Trie (NewTreeRootNode (Some t)) ts).
Proof.
  intros Ht Hs. destruct (tree_children d t ts Ht Hs) as (Hch & Hnd & Hok).
  apply tree_node_reads; [exact Hch|done|done|done|by eapply snapshot_reads].
Qed.

(** *** The hashes are honest *)

Lemma snapshot_det d1 : forall d2 t x y, snapshot d1 t = Some x -> snapshot d2 t = Some y -> x = y.
Proof.
  induction d1 as [|d1 IH]; intros [|d2] t x y; [done..|]. cbn [TreeDiff.snapshot].
  generalize (Entries t) as es. intros es. revert x y. induction es as [|e es IHes]; intros x y; [by intros [= <-] [= <-]|].
  intros (bx & rx & -> & Hx & Hcx)%snapshot_entries_cons (by_ & ry & -> & Hy & Hcy)%snapshot_entries_cons.
  f_equal; [f_equal|by apply IHes]. destruct Hcx as [[? ->]|(? & t1 & Hg1 & H1)], Hcy as [[? ->]|(? & t2 & Hg2 & H2)]; try done.
  rewrite Hg1 in Hg2. injection Hg2 as <-. by eapply IH.
Qed.

Lemma snapshot_honest d1 : forall d2 t1 t2 ts1 ts2 x y,
  plain_tree t1 -> plain_tree t2 -> snapshot d1 t1 = Some ts1 -> snapshot d2 t2 = Some ts2 ->
  x ∈ ts1 -> y ∈ ts2 -> honest hashEqual x y.
Proof.
  induction d1 as [|d1 IH]; intros [|d2] t1 t2 ts1 ts2 x y Ht1 Ht2; [done..|]. cbn [TreeDiff.snapshot].
  intros H1 H2 Hx Hy.
  destruct (snapshot_elem _ _ _ _ _ _ H1 Hx) as (e1 & He1 & Hr1 & Hk1).
  destruct (snapshot_elem _ _ _ _ _ _ H2 Hy) as (e2 & He2 & Hr2 & Hk2). constructor.
  - rewrite Hr1, Hr2. intros Heq%bool_decide_eq_true_1.
    destruct Ht1 as [_ Hd1], Ht2 as [_ Hd2]. rewrite Forall_forall in Hd1, Hd2.
    apply tn_Hash_inj in Heq as [Hh Hm]; [|by apply Hd1|by apply Hd2].
    destruct (decide (Mode e1 = Dir)) as [Hm1|Hm1].
    + assert (Mode e2 = Dir) as Hm2 by (apply normal_mode_Dir; rewrite <-Hm; by apply normal_mode_Dir).
      destruct Hk1 as [[? _]|(_ & t1' & Hg1 & Hs1)]; [done|]. destruct Hk2 as [[? _]|(_ & t2' & Hg2 & Hs2)]; [done|].
      rewrite Hh, Hg2 in Hg1. injection Hg1 as <-.
      apply same_kids; [by rewrite Hr1; cbn; rewrite Hm1|by rewrite Hr2; cbn; rewrite Hm2|by eapply snapshot_det|].
      apply Forall_forall. intros k _. apply (same_refl hashEqual (size k)); [|done]. intros a. by apply bool_decide_eq_true_2.
    + assert (Mode e2 <> Dir) as Hm2 by (intros Hm2; apply Hm1, normal_mode_Dir; rewrite Hm; by apply normal_mode_Dir).
      apply same_file; [rewrite Hr1; cbn; by apply Z.eqb_neq|rewrite Hr2; cbn; by apply Z.eqb_neq|].
      rewrite Hr1, Hr2. apply bool_decide_eq_true_2. apply tn_Hash_inj; [by apply Hd1|by apply Hd2|done].
  - intros f t Hf Ht _. destruct Hk1 as [[_ Hk1]|(_ & t1' & Hg1 & Hs1)]; [rewrite Hk1 in Hf; by apply elem_of_nil in Hf|].
    destruct Hk2 as [[_ Hk2]|(_ & t2' & Hg2 & Hs2)]; [rewrite Hk2 in Ht; by apply elem_of_nil in Ht|].
    by eapply (IH d2 t1' t2'); [eapply store_plain|eapply store_plain|..].
Qed.
End tries.

(** ** Changes between lists of files *)

Definition zero_entry : TreeEntry := {| Name := []; Mode := Empty; Hash := ZeroHash |}.

Definition entry_of (n : treeNoder) : TreeEntry := {| Name := tn_name n; Mode := tn_mode n; Hash := tn_hash n |}.

(** The path and the entry of a node after its ancestors. *)
Definition shown {E} `{!Noder treeNoder E} (p : list treeNoder) : bytes * TreeEntry :=
  (path_String p, default zero_entry (entry_of <$> last p)).

(** The files of a listing: what is not a directory. *)
Definition files_listed (l : list (bytes * TreeEntry)) : list (bytes * TreeEntry) := filter (fun x => Mode x.2 <> Dir) l.

(** The changes from the files [A] to the files [B]. *)
Definition file_changes (A B : list (bytes * TreeEntry)) : list (option (bytes * TreeEntry) * option (bytes * TreeEntry)) :=
  ((fun x => (Some x, None)) <$> filter (fun x => x.1 ∉ B.*1) A)
  ++ ((fun y => (None, Some y)) <$> filter (fun y => y.1 ∉ A.*1) B)
  ++ (A ≫= fun x => (fun y => (Some x, Some y)) <$> filter (fun y => y.1 = x.1 /\ ~ same_content x.2 y.2) B).

Definition shown_entry (e : ChangeEntry) : bytes * TreeEntry := (ce_Name e, ce_TreeEntry e).
Definition shown_change (c : tree_change) : option (bytes * TreeEntry) * option (bytes * TreeEntry) :=
  (shown_entry <$> ch_From c, shown_entry <$> ch_To c).

Section changes.
Context (GetTree : ObjectID -> outcome find_error Tree) (VolumeName : bytes -> bytes).
#[local] Instance nodes' : Noder treeNoder find_error := treeNoder_Noder GetTree VolumeName.

Definition shown_nodes (c : @Change treeNoder) : option (bytes * TreeEntry) * option (bytes * TreeEntry) :=
  (shown <$> From c, shown <$> To c).

Definition nonempty_paths (c : @Change treeNoder) : Prop := From c <> Some [] /\ To c <> Some [].

Lemma newChangeEntry_spec p : p <> Some [] ->
  exists e, newChangeEntry GetTree VolumeName p = Ok e /\ shown_entry <$> e = shown <$> p.
Proof.
  destruct p as [p|]; [|by exists None]. intros Hp. unfold newChangeEntry, Last, shown.
  destruct (last p) as [n|] eqn:Hl; [|by apply last_None in Hl; subst]. eexists. split; [reflexivity|]. cbn. by rewrite Hl.
Qed.

Lemma newChanges_spec l : Forall nonempty_paths l ->
  exists cs, newChanges GetTree VolumeName l = Ok cs /\ shown_change <$> cs = shown_nodes <$> l.
Proof.
  induction 1 as [|c l [Hf Ht] _ (cs & IH & Hcs)]; [by exists []|]. cbn [newChanges]. unfold newChange.
  destruct (newChangeEntry_spec (From c) Hf) as (f & -> & Hsf). cbn [mbind outcome_bind].
  destruct (newChangeEntry_spec (To c) Ht) as (t & -> & Hst). cbn [mbind outcome_bind mret outcome_ret]. rewrite IH.
  eexists. split; [reflexivity|]. cbn. rewrite Hcs. f_equal. unfold shown_change, shown_nodes. cbn. by rewrite Hsf, Hst.
Qed.

Lemma filter_map {A B} (f : A -> B) (P : B -> Prop) `{!forall x, Decision (P x)} (l : list A) :
  filter P (f <$> l) = f <$> filter (fun x => P (f x)) l.
Proof.
  induction l as [|x l IH]; [done|]. cbn [fmap list_fmap]. rewrite !filter_cons, IH. by case_decide.
Qed.

(** Paths through the nodes of decoded entries. *)
Definition path_ok (p : list treeNoder) : Prop :=
  p <> [] /\ Forall (fun n => tn_name n <> [] /\ 47 ∉ tn_name n) p
  /\ exists t e, last p = Some (node_of t e) /\ decoded_entry e.

Lemma String_inj p q : path_ok p -> path_ok q -> path_String p = path_String q <-> names p = names q.
Proof.
  intros (Hp & Hnp & _) (Hq & Hnq & _). unfold path_String, names. split; [|by intros ->].
  intros Heq. apply (f_equal (fun s => Split s 47)) in Heq. rewrite !Split_Join in Heq; [done| | | |].
  - by destruct q.
  - apply Forall_fmap. eapply Forall_impl; [exact Hnq|]. by intros ? [].
  - by destruct p.
  - apply Forall_fmap. eapply Forall_impl; [exact Hnp|]. by intros ? [].
Qed.

Lemma same_hash_content p q : path_ok p -> path_ok q ->
  same_hash hashEqual p q = false <-> ~ same_content (shown p).2 (shown q).2.
Proof.
  intros (_ & _ & t1 & e1 & Hp & Hd1) (_ & _ & t2 & e2 & Hq & Hd2). unfold same_hash, shown. rewrite Hp, Hq. cbn.
  unfold hashEqual. rewrite bool_decide_eq_false, (tn_Hash_inj t1 t2 e1 e2) by done. by destruct e1, e2.
Qed.

Lemma names_shown p T : path_ok p -> Forall path_ok T -> names p ∉ names <$> T <-> (shown p).1 ∉ fst ∘ shown <$> T.
Proof.
  intros Hp HT. rewrite !list_elem_of_fmap. rewrite Forall_forall in HT. split; intros Hn (q & Heq & Hq); apply Hn.
  - exists q. split; [|done]. apply String_inj; [done|by apply HT|done].
  - exists q. split; [|done]. cbn. apply String_inj; [done|by apply HT|done].
Qed.

Lemma reference_shown F T : Forall path_ok F -> Forall path_ok T ->
  shown_nodes <$> reference hashEqual F T = file_changes (shown <$> F) (shown <$> T).
Proof.
  intros HF HT. unfold reference, file_changes, removed, modified. rewrite !fmap_app, !filter_map, <-!list_fmap_compose.
  rewrite Forall_forall in HF, HT. f_equal; [|f_equal].
  - erewrite (filter_ext (fun p => names p ∉ _)); [apply list_fmap_ext; by intros|].
    intros p Hp. apply names_shown; [by apply HF|by apply Forall_forall].
  - erewrite (filter_ext (fun p => names p ∉ _)); [apply list_fmap_ext; by intros|].
    intros p Hp. apply names_shown; [by apply HT|by apply Forall_forall].
  - clear -HF HT. induction F as [|p F IH]; [done|]. cbn [mbind list_bind fmap list_fmap]. rewrite !fmap_app.
    rewrite IH by (intros; apply HF; by right). f_equal. rewrite filter_map, <-!list_fmap_compose.
    erewrite filter_ext; [apply list_fmap_ext; by intros|]. intros q Hq. cbn.
    pose proof (HF p ltac:(by left)) as Hp. pose proof (HT q Hq) as Hq'.
    rewrite (same_hash_content p q Hp Hq'). cbn. rewrite <-(String_inj q p Hq' Hp). done.
Qed.

Lemma reference_nonempty F T : Forall path_ok F -> Forall path_ok T -> Forall nonempty_paths (reference hashEqual F T).
Proof.
  intros HF HT. rewrite Forall_forall in HF, HT. unfold reference, removed, modified. rewrite !Forall_app, !Forall_fmap. split_and!.
  - apply Forall_forall. intros p [_ Hp]%list_elem_of_filter. split; [|done]. cbn. intros [= ->]. by destruct (HF _ Hp).
  - apply Forall_forall. intros p [_ Hp]%list_elem_of_filter. split; [done|]. cbn. intros [= ->]. by destruct (HT _ Hp).
  - apply Forall_forall. intros c (p & (q & -> & [_ Hq]%list_elem_of_filter)%list_elem_of_fmap & Hp)%list_elem_of_bind.
    split; cbn; intros [= ->]; [by destruct (HF _ Hp)|by destruct (HT _ Hq)].
Qed.
End changes.

(** ** The files of a trie are those listed *)

Section listed.
Context (GetTree : ObjectID -> outcome find_error Tree) (VolumeName : bytes -> bytes).
Hypothesis NoVolume : forall p, VolumeName p = [].
#[local] Notation plain_tree := (plain_tree GetTree VolumeName).
Hypothesis store_plain : forall h t, GetTree h = Ok t -> plain_tree t.
#[local] Instance nodes'' : Noder treeNoder find_error := treeNoder_Noder GetTree VolumeName.

Definition shown_below (base : bytes) (p : list treeNoder) : bytes * TreeEntry := (simpleJoin base (path_String p), (shown p).2).

Lemma entry_of_node t e : entry_of (node_of t e) = e.
Proof. by destruct e. Qed.

Lemma shown_cons base t e p : Name e <> [] -> path_ok p ->
  shown_below base (node_of t e :: p) = shown_below (simpleJoin base (Name e)) p.
Proof.
  intros Hn (Hp & _). unfold shown_below, path_String. destruct p as [|n p]; [done|].
  cbn [fmap list_fmap]. f_equal. by rewrite simpleJoin_Join.
Qed.

Lemma forest_files_cons tr ts : forest_files (tr :: ts) = files_of tr ++ forest_files ts.
Proof. done. Qed.

Lemma forest_size_cons (tr : trie treeNoder) ts : forest_size (tr :: ts) = (size tr + forest_size ts)%nat.
Proof. done. Qed.

Lemma files_listed_cons name e below rest :
  files_listed ((name, e) :: below ++ rest) = (if decide (Mode e <> Dir) then [(name, e)] else []) ++ files_listed below ++ files_listed rest.
Proof. unfold files_listed. rewrite filter_cons, filter_app. cbn. by case_decide. Qed.

Lemma snapshot_files d : forall base t ts l,
  plain_tree t -> snapshot GetTree d t = Some ts -> listing GetTree d base t = Some l ->
  files_listed l = shown_below base <$> forest_files ts /\ Forall path_ok (forest_files ts) /\ forest_size ts = length l.
Proof.
  induction d as [|d IH]; intros base t ts l Ht; [done|]. cbn [snapshot listing].
  assert (forall es, (forall e, e ∈ es -> e ∈ Entries t) -> forall ts l, snapshot_entries GetTree (snapshot GetTree d) t es = Some ts ->
    list_entries GetTree (listing GetTree d) base es = Some l ->
    files_listed l = shown_below base <$> forest_files ts /\ Forall path_ok (forest_files ts) /\ forest_size ts = length l) as Hes;
    [|by apply Hes].
  clear ts l. induction es as [|e es IHes]; intros Hin ts l; [by intros [= <-] [= <-]|].
  intros (bts & rts & -> & Hrts & Hc)%snapshot_entries_cons. cbn [list_entries].
  destruct (if Mode e =? Dir then _ else _) as [below|] eqn:Hb; [|done]. cbn [mbind option_bind].
  destruct (list_entries _ _ _ es) as [rest|] eqn:Hrest; [|done]. cbn [mbind option_bind]. intros [= <-].
  destruct (IHes ltac:(intros; apply Hin; by right) rts rest Hrts eq_refl) as (IH1 & IH2 & IH3).
  pose proof (Hin e ltac:(by left)) as He. destruct Ht as [Hg Hd].
  destruct (good_entry GetTree VolumeName t e Hg He) as (_ & Hv & Hns). pose proof (valid_nonempty _ NoVolume _ Hv) as Hne.
  rewrite Forall_forall in Hd. specialize (Hd e He).
  rewrite forest_files_cons, forest_size_cons, files_listed_cons, fmap_app, IH1, IH3, files_of_eq, size_eq. cbn [root kids length].
  rewrite length_app.
  destruct Hc as [[Hm ->]|(Hm & t' & Hgt & Hsub)].
  - rewrite decide_True by done. destruct (Z.eqb_spec (Mode e) Dir); [done|]. injection Hb as <-.
    assert (noder_IsDir (node_of t e) = false) as -> by (by apply Z.eqb_neq). split_and!.
    + cbn. f_equal. unfold shown_below, shown, path_String. cbn. by rewrite entry_of_node.
    + cbn. constructor; [|done]. split; [done|]. split; [by repeat constructor|]. by exists t, e.
    + cbn. lia.
  - rewrite decide_False by (intros Hnm; by apply Hnm). rewrite Hm, Z.eqb_refl, Hgt in Hb.
    assert (noder_IsDir (node_of t e) = true) as -> by (by apply Z.eqb_eq).
    destruct (IH _ t' bts below (store_plain _ _ Hgt) Hsub Hb) as (Hf & Hok & Hsz). split_and!.
    + rewrite Hf, <-list_fmap_compose. cbn [app]. f_equal. apply Forall_fmap_ext_1. eapply Forall_impl; [exact Hok|].
      intros p Hp. cbn. by rewrite shown_cons.
    + apply Forall_app. split; [|done]. apply Forall_fmap. eapply Forall_impl; [exact Hok|].
      intros p (Hpn & Hpc & t0 & e0 & Hl & Hd0). split; [done|]. split; [by constructor|]. exists t0, e0. by destruct p.
    + rewrite Hsz. lia.
Qed.

Lemma listing_snapshot d : forall base t l, listing GetTree d base t = Some l -> is_Some (snapshot GetTree d t).
Proof.
  induction d as [|d IH]; intros base t l; [done|]. cbn [listing snapshot]. revert l.
  induction (Entries t) as [|e es IHes]; intros l; [by eexists|]. cbn [list_entries snapshot_entries].
  destruct (Mode e =? Dir).
  - destruct (GetTree (Hash e)) as [t'| | |]; try done. destruct (listing GetTree d _ t') as [below|] eqn:Hb; [|done].
    destruct (IH _ _ _ Hb) as (bts & ->). cbn [mbind option_bind]. destruct (list_entries _ _ _ es) as [rest|]; [|done].
    intros _. destruct (IHes rest eq_refl) as (rts & ->). by eexists.
  - cbn [mbind option_bind]. destruct (list_entries _ _ _ es) as [rest|]; [|done].
    intros _. destruct (IHes rest eq_refl) as (rts & ->). by eexists.
Qed.

Lemma tree_DiffTree_spec Sort `{!Sorts Sort} d fuel a b la lb :
  plain_tree a -> plain_tree b -> listing GetTree d [] a = Some la -> listing GetTree d [] b = Some lb ->
  (length la + length lb + 2 <= fuel)%nat ->
  exists cs, tree_DiffTree GetTree VolumeName Sort fuel (Some a) (Some b) = Ok cs
    /\ shown_change <$> cs ≡ₚ file_changes (files_listed la) (files_listed lb).
Proof.
  intros Ha Hb Hla Hlb Hf.
  destruct (listing_snapshot _ _ _ _ Hla) as (ta & Hta). destruct (listing_snapshot _ _ _ _ Hlb) as (tb & Htb).
  destruct (snapshot_files d [] a ta la Ha Hta Hla) as (Hfa & Hoka & Hsa).
  destruct (snapshot_files d [] b tb lb Hb Htb Hlb) as (Hfb & Hokb & Hsb).
  destruct (DiffTree_spec Sort hashEqual fuel (Trie (NewTreeRootNode (Some a)) ta) (Trie (NewTreeRootNode (Some b)) tb))
    as (l & Hl & Hp).
  - by eapply root_reads.
  - by eapply root_reads.
  - intros f t Hft Htt _. by eapply (snapshot_honest GetTree VolumeName store_plain d d a b ta tb).
  - rewrite !size_eq. cbn [kids]. lia.
  - unfold tree_DiffTree, DiffTreeWithOptions. cbn [root] in Hl. unfold DiffTree in Hl.
    change (treeNoder_Noder GetTree VolumeName) with nodes''. rewrite Hl. cbn [mbind outcome_bind].
    unfold trie_files in Hp. cbn [kids] in Hp.
    destruct (newChanges_spec GetTree VolumeName l) as (cs & Hcs & Hshown).
    { rewrite Hp. by apply (reference_nonempty GetTree VolumeName). }
    exists cs. split; [exact Hcs|]. rewrite Hshown, Hp. rewrite (reference_shown GetTree VolumeName) by done.
    rewrite Hfa, Hfb. done.
Qed.
End listed.

(** ** Properties and examples *)

(** C10: the changes between two git trees.  For well-formed trees all of whose
    subtrees can be read, [DiffTree] ends within as many turns as there are
    entries, without an error, and its changes are exactly those between the
    files the two trees list: a deletion for each path only the first has, an
    insertion for each only the second has, and a modification for each that
    both have with different content or mode (0100664 counting as 0100644). *)
Theorem tree_DiffTree_correct GetTree VolumeName Sort `{!Sorts Sort} d fuel a b la lb :
  (forall p, VolumeName p = []) -> (forall h t, GetTree h = Ok t -> plain_tree GetTree VolumeName t) ->
  plain_tree GetTree VolumeName a -> plain_tree GetTree VolumeName b ->
  listing GetTree d [] a = Some la -> listing GetTree d [] b = Some lb -> (length la + length lb + 2 <= fuel)%nat ->
  exists cs, tree_DiffTree GetTree VolumeName Sort fuel (Some a) (Some b) = Ok cs
    /\ shown_change <$> cs ≡ₚ file_changes (files_listed la) (files_listed lb).
Proof. intros HV Hst. exact (tree_DiffTree_spec GetTree VolumeName HV Hst Sort d fuel a b la lb). Qed.

Definition example_new : Tree := example_tree 4 [("README"%string, Executable, 10); ("src"%string, Dir, 5); ("zz"%string, Deprecated, 11)].
Definition example_src' : Tree := example_tree 5 [("b"%string, Dir, 3); ("d.go"%string, Regular, 14)].
Definition example_trees : list Tree := [example_src; example_b; example_src'].

Definition changed (r : outcome (diff_error find_error) (list tree_change)) : list (option bytes * option bytes) :=
  match r with Ok cs => (fun c => (ce_Name <$> ch_From c, ce_Name <$> ch_To c)) <$> cs | _ => [] end.

Example diff_example :
  changed (tree_DiffTree (trees_of example_trees) (fun _ => []) insertion_sort 20 (Some example_root) (Some example_new))
  = [(Some (bs "README"), Some (bs "README")); (Some (bs "src/a.go"), None); (None, Some (bs "src/d.go"))].
Proof. vm_compute. reflexivity. Qed.

(** When a subtree is missing, the entries from it on are not seen: here all
    that follows is reported as deleted although it is the same. *)
Example missing_subtree_hides_entries :
  changed (tree_DiffTree (trees_of [example_src; example_b]) (fun _ => []) insertion_sort 20 (Some example_root) (Some example_new))
  = [(Some (bs "README"), Some (bs "README")); (Some (bs "src/a.go"), None); (Some (bs "src/b/c"), None); (Some (bs "zz"), None)].
Proof. vm_compute. reflexivity. Qed.

(** A directory with a name that is unsafe to check out is looked up through
    [FindEntry], which rejects it, and fails the whole comparison. *)
Example unsafe_directory_fails :
  let a := example_tree 6 [("git~1"%string, Dir, 3)] in
  tree_DiffTree (trees_of [example_b]) (fun _ => []) insertion_sort 20 (Some a) (Some example_b)
  = Err (NoderError (ErrTree ErrDirectoryNotFound)).
Proof. vm_compute. reflexivity. Qed.

#[export] Instance oid_ok_dec s : Decision (oid_ok s).
Proof.
  destruct (decide (len (oid_hash s) = SHA256Size /\ bytes_ok (oid_hash s)
    /\ drop (Z.to_nat (Size s)) (oid_hash s) = zeros (SHA256Size - Size s) /\ oid_format s <> SHA1)) as [H|H]; [left|right].
  - by destruct H as (? & ? & ? & ?).
  - intros [? ? ? ?]. by apply H.
Defined.

#[export] Instance decoded_entry_dec e : Decision (decoded_entry e).
Proof. unfold decoded_entry. apply _. Defined.

Lemma plain_checked ts t :
  good_checks ts t && bool_decide (Forall decoded_entry (Entries t)) = true -> plain_tree (trees_of ts) (fun _ => []) t.
Proof. intros [Hg Hd%bool_decide_eq_true_1]%andb_true_iff. split; [by apply good_checked|done]. Qed.

Lemma trees_of_plain ts : forallb (fun t => good_checks ts t && bool_decide (Forall decoded_entry (Entries t))) ts = true ->
  forall h t, trees_of ts h = Ok t -> plain_tree (trees_of ts) (fun _ => []) t.
Proof.
  rewrite forallb_forall. intros Hts h t. unfold trees_of at 1. destruct (List.find _ ts) as [t'|] eqn:Hf; [|done].
  intros [= <-]. apply find_some in Hf as [Hin _]. apply plain_checked. by apply Hts.
Qed.

Lemma tree_DiffTree_correct_witness :
  exists la lb cs, listing (trees_of example_trees) 4 [] example_root = Some la
    /\ listing (trees_of example_trees) 4 [] example_new = Some lb
    /\ tree_DiffTree (trees_of example_trees) (fun _ => []) insertion_sort 20 (Some example_root) (Some example_new) = Ok cs
    /\ shown_change <$> cs ≡ₚ file_changes (files_listed la) (files_listed lb).
Proof.
  destruct (listing (trees_of example_trees) 4 [] example_root) as [la|] eqn:Hla; [|vm_compute in Hla; discriminate].
  destruct (listing (trees_of example_trees) 4 [] example_new) as [lb|] eqn:Hlb; [|vm_compute in Hlb; discriminate].
  destruct (tree_DiffTree_correct (trees_of example_trees) (fun _ => []) insertion_sort 4 20 example_root example_new la lb)
    as (cs & Hcs & Hp); [done| | | |done|done| |].
  - apply trees_of_plain. vm_compute. reflexivity.
  - apply plain_checked. vm_compute. reflexivity.
  - apply plain_checked. vm_compute. reflexivity.
  - vm_compute in Hla, Hlb. injection Hla as <-. injection Hlb as <-. cbn. lia.
  - exists la, lb, cs. by split_and!.
Defined.
