(* ===== verification/Tag.v ===== *)
(** * Tag objects: [plumbing/object/tag.go], [tag_scanner.go]

    The decoder is a state machine over lines like the one of commits; the
    signature of a tag is what follows its message, so the decoder splits the
    text after the header block at the last line that starts an armoured
    block.  The encoder, the payload of a signature, and the objects a tag
    leads to. *)
From stdpp Require Import base list numbers option strings sets.
From Stdlib Require Import ZArith Lia.
From S2P Require Import Prelude GoStrings ObjectId Object Storer Signature Commit.

Open Scope Z_scope.

(** ** Data *)

Inductive tag_error :=
  | ErrUnsupportedObject
  | ErrMalformedTag
  | ErrInvalidType.

Record Tag := {
  Hash : ObjectID;
  Name : bytes;
  Tagger : Signature;
  Message : bytes;
  t_Signature : bytes;
  SignatureSHA256 : bytes;
  TargetType : ObjectType;
  Target : ObjectID;
  src : option EncodedObject;
}.

#[export] Instance Tag_eq_dec : EqDecision Tag.
Proof. solve_decision. Defined.

Definition set_Target (x : Tag) (h : ObjectID) : Tag :=
  {| Hash := Hash x; Name := Name x; Tagger := Tagger x; Message := Message x; t_Signature := t_Signature x;
     SignatureSHA256 := SignatureSHA256 x; TargetType := TargetType x; Target := h; src := src x |}.
Definition set_TargetType (x : Tag) (ot : ObjectType) : Tag :=
  {| Hash := Hash x; Name := Name x; Tagger := Tagger x; Message := Message x; t_Signature := t_Signature x;
     SignatureSHA256 := SignatureSHA256 x; TargetType := ot; Target := Target x; src := src x |}.
Definition set_Name (x : Tag) (n : bytes) : Tag :=
  {| Hash := Hash x; Name := n; Tagger := Tagger x; Message := Message x; t_Signature := t_Signature x;
     SignatureSHA256 := SignatureSHA256 x; TargetType := TargetType x; Target := Target x; src := src x |}.
Definition set_Tagger (x : Tag) (a : Signature) : Tag :=
  {| Hash := Hash x; Name := Name x; Tagger := a; Message := Message x; t_Signature := t_Signature x;
     SignatureSHA256 := SignatureSHA256 x; TargetType := TargetType x; Target := Target x; src := src x |}.
Definition tag_add_sig256 (x : Tag) (b : bytes) : Tag :=
  {| Hash := Hash x; Name := Name x; Tagger := Tagger x; Message := Message x; t_Signature := t_Signature x;
     SignatureSHA256 := SignatureSHA256 x ++ b; TargetType := TargetType x; Target := Target x; src := src x |}.
Definition set_body (x : Tag) (m sig : bytes) : Tag :=
  {| Hash := Hash x; Name := Name x; Tagger := Tagger x; Message := m; t_Signature := sig;
     SignatureSHA256 := SignatureSHA256 x; TargetType := TargetType x; Target := Target x; src := src x |}.

(** ** The scanner *)

(** The flags [sawObject], [sawType], [sawName] and [sawTagger] of the source
    are written and never read; they are left out. *)
Record tagScanner := { s_r : bytes; s_t : Tag; msgbuf : bytes; pending : option (bytes * bool) }.

Inductive tagState :=
  | scanTagObject | scanTagType | scanTagName | scanTagTagger | scanTagHeaders | scanTagPgp256Cont | scanTagMessage.

Definition set_reader (s : tagScanner) (rest : bytes) (p : option (bytes * bool)) : tagScanner :=
  {| s_r := rest; s_t := s_t s; msgbuf := msgbuf s; pending := p |}.
Definition set_tag (s : tagScanner) (x : Tag) : tagScanner :=
  {| s_r := s_r s; s_t := x; msgbuf := msgbuf s; pending := pending s |}.

Definition readLine (s : tagScanner) : bytes * bool * tagScanner :=
  match pending s with
  | Some (line, eof) => (line, eof, set_reader s (s_r s) None)
  | None => let '(line, eof, rest) := ReadBytes 10 (s_r s) in (line, eof, set_reader s rest None)
  end.

Definition pushBack (s : tagScanner) (line : bytes) (eof : bool) : tagScanner := set_reader s (s_r s) (Some (line, eof)).

Definition step_result : Type := outcome tag_error (option tagState * tagScanner).

Definition next (eof : bool) (st : tagState) (s : tagScanner) : step_result := mret (if eof then None else Some st, s).

(** The three lines every tag starts with. *)
Definition scan_required (key : bytes) (read : bytes -> Tag -> outcome tag_error Tag) (st : tagState) (s : tagScanner) : step_result :=
  let '(line, eof, s) := readLine s in
  if (len line =? 0) || isBlankLine line then Err ErrMalformedTag
  else
    let '(k, data) := splitHeader line in
    if negb (bool_decide (k = key)) then Err ErrMalformedTag
    else x ← read data (s_t s); next eof st (set_tag s x).

Definition do_scanTagObject : tagScanner -> step_result :=
  scan_required (bs "object") (fun data x => h ← map_err (fun _ => ErrMalformedTag) (parseObjectIDHex data); mret (set_Target x h)) scanTagType.

Definition do_scanTagType : tagScanner -> step_result :=
  scan_required (bs "type")
    (fun data x => let '(ot, ok) := ParseObjectType data in if ok : bool then mret (set_TargetType x ot) else Err ErrInvalidType) scanTagName.

Definition do_scanTagName : tagScanner -> step_result :=
  scan_required (bs "tag") (fun data x => mret (set_Name x data)) scanTagTagger.

Definition do_scanTagTagger (s : tagScanner) : step_result :=
  let '(line, eof, s) := readLine s in
  if len line =? 0 then mret (None, s)
  else if isBlankLine line then mret (Some scanTagMessage, s)
  else
    let '(key, data) := splitHeader line in
    if bool_decide (key = bs "tagger") then
      a ← Signature.Decode data (Tagger (s_t s));
      next eof scanTagHeaders (set_tag s (set_Tagger (s_t s) a))
    else mret (Some scanTagHeaders, pushBack s line eof).

(** Headers out of place and unknown headers are dropped. *)
Definition do_scanTagHeaders (s : tagScanner) : step_result :=
  let '(line, eof, s) := readLine s in
  if len line =? 0 then mret (None, s)
  else if isBlankLine line then mret (Some scanTagMessage, s)
  else
    let '(key, data) := splitHeader line in
    if bool_decide (key ∈ [bs "object"; bs "type"; bs "tag"; bs "tagger"]) then next eof scanTagHeaders s
    else if bool_decide (key = headerpgp256) then
      next eof scanTagPgp256Cont (set_tag s (tag_add_sig256 (s_t s) (data ++ [10])))
    else next eof scanTagHeaders s.

Definition do_scanTagPgp256Cont (s : tagScanner) : step_result :=
  let '(line, eof, s) := readLine s in
  if HasPrefix line (bs " ") then next eof scanTagPgp256Cont (set_tag s (tag_add_sig256 (s_t s) (drop 1 line)))
  else mret (Some scanTagHeaders, if len line >? 0 then pushBack s line eof else s).

(** Every line but the last takes a byte at least. *)
Fixpoint scanTagMessage_loop (fuel : nat) (s : tagScanner) : step_result :=
  match fuel with
  | O => NoFuel
  | S f =>
      let '(line, eof, s) := readLine s in
      let s := {| s_r := s_r s; s_t := s_t s; msgbuf := msgbuf s ++ line; pending := pending s |} in
      if eof then mret (None, s) else scanTagMessage_loop f s
  end.

Definition do_scanTagMessage (s : tagScanner) : step_result := scanTagMessage_loop (S (S (length (s_r s)))) s.

Definition step (st : tagState) : tagScanner -> step_result :=
  match st with
  | scanTagObject => do_scanTagObject
  | scanTagType => do_scanTagType
  | scanTagName => do_scanTagName
  | scanTagTagger => do_scanTagTagger
  | scanTagHeaders => do_scanTagHeaders
  | scanTagPgp256Cont => do_scanTagPgp256Cont
  | scanTagMessage => do_scanTagMessage
  end.

Fixpoint scan (fuel : nat) (st : tagState) (s : tagScanner) : outcome tag_error tagScanner :=
  match fuel with
  | O => NoFuel
  | S f => '(st', s) ← step st s; match st' with None => mret s | Some st' => scan f st' s end
  end.

(** The text after the headers: the message, and the signature. *)
Definition split_signature (data : bytes) : bytes * bytes :=
  let sm := (parseSignedBytes data).1 in
  if sm >=? 0 then (take (Z.to_nat sm) data, drop (Z.to_nat sm) data) else (data, []).

Definition reset_tag (h : ObjectID) (o : option EncodedObject) : Tag :=
  {| Hash := h; Name := []; Tagger := zero_signature; Message := []; t_Signature := []; SignatureSHA256 := [];
     TargetType := InvalidObject; Target := ZeroHash; src := o |}.

Definition start (o : EncodedObject) : tagScanner :=
  {| s_r := eo_Data o; s_t := reset_tag (eo_Hash o) (Some o); msgbuf := []; pending := None |}.

Definition Decode (o : EncodedObject) : outcome tag_error Tag :=
  if negb (bool_decide (eo_Type o = TagObject)) then Err ErrUnsupportedObject
  else
    s ← scan (scan_fuel (eo_Data o)) scanTagObject (start o);
    let '(m, sig) := split_signature (msgbuf s) in
    mret (set_body (s_t s) m sig).

(** ** Encoding *)

Definition isZeroSignature (s : Signature) : bool :=
  bool_decide (sig_Name s = []) && bool_decide (sig_Email s = []) && TimeEqual (sig_When s) zero_time.

(** The text written; writing to an encoded object does not fail. *)
Definition encode (x : Tag) (includeSig : bool) : bytes :=
  bs "object " ++ oid_String (Target x) ++ [10] ++ bs "type " ++ type_String (TargetType x) ++ [10]
  ++ bs "tag " ++ Name x ++ [10]
  ++ (if negb (isZeroSignature (Tagger x)) then bs "tagger " ++ Signature.Encode (Tagger x) ++ [10] else [])
  ++ (if negb (bool_decide (SignatureSHA256 x = [])) && includeSig
      then headerpgp256 ++ bs " " ++ fold_lines (SignatureSHA256 x) ++ [10] else [])
  ++ [10] ++ Message x ++ (if includeSig then t_Signature x else []).

Definition Encode (x : Tag) : bytes := encode x true.

Definition matchesSource (x : Tag) : outcome tag_error bool :=
  match src x with
  | None => mret false
  | Some o =>
      match Decode o with
      | Err _ => mret false
      | Ok fresh =>
          mret (bool_decide (Hash x = Hash fresh) && bool_decide (Name x = Name fresh)
                && signatureEqual (Tagger x) (Tagger fresh) && bool_decide (Message x = Message fresh)
                && bool_decide (TargetType x = TargetType fresh) && bool_decide (Target x = Target fresh))
      | Panic => Panic
      | NoFuel => NoFuel
      end
  end.

(** [stripObjectSignatures] of a tag: the text is cut at the last block before
    its headers are stripped. *)
Definition stripTagSignatures (raw : bytes) : bytes := stripHeaderSignatures (split_signature raw).1.

Definition EncodeWithoutSignature (x : Tag) : outcome tag_error bytes :=
  b ← matchesSource x;
  match src x with
  | Some o => if b : bool then mret (stripTagSignatures (eo_Data o)) else mret (encode x false)
  | None => mret (encode x false)
  end.

(** ** Examples *)

Definition example_tag : Tag :=
  {| Hash := ZeroHash; Name := bs "v1.0 final"; Tagger := {| sig_Name := bs "A U Thor"; sig_Email := bs "a@b"; sig_When := {| Unix := 1; Offset := 7200 |} |};
     Message := bs "subject" ++ [10; 10] ++ bs "body" ++ [10];
     t_Signature := bs "-----BEGIN PGP SIGNATURE-----" ++ [10] ++ bs "abc" ++ [10] ++ bs "-----END PGP SIGNATURE-----" ++ [10];
     SignatureSHA256 := bs "-----BEGIN SSH SIGNATURE-----" ++ [10] ++ bs "xyz" ++ [10];
     TargetType := CommitObject; Target := ZeroHash; src := None |}.

Example example_tag_roundtrip :
  match Decode {| eo_Type := TagObject; eo_Hash := ZeroHash; eo_Data := Encode example_tag |} with
  | Ok y => set_body y (Message y) (t_Signature y) = y
            /\ (Name y, Tagger y, Message y, t_Signature y) = (Name example_tag, Tagger example_tag, Message example_tag, t_Signature example_tag)
            /\ SignatureSHA256 y = SignatureSHA256 example_tag
  | _ => False
  end.
Proof. vm_compute. split_and!; reflexivity. Qed.

(** A tag that ends after its first line, without a line break, is accepted:
    it has no type and no name. *)
Example truncated_tag_accepted :
  match Decode {| eo_Type := TagObject; eo_Hash := ZeroHash; eo_Data := bs "object " ++ oid_String ZeroHash |} with
  | Ok y => TargetType y = InvalidObject /\ Name y = []
  | _ => False
  end.
Proof. vm_compute. split; reflexivity. Qed.

(** ** Termination *)

Definition weight (s : tagScanner) : nat :=
  length (s_r s) + match pending s with Some (line, _) => length line | None => 0 end.

Definition rank (st : tagState) : nat :=
  match st with scanTagTagger | scanTagPgp256Cont => 1 | scanTagHeaders | scanTagMessage => 0 | _ => 4 end.

Lemma tag_readLine_weight s line eof s' :
  readLine s = (line, eof, s') -> (length line + weight s' = weight s)%nat /\ pending s' = None.
Proof.
  unfold readLine, weight. destruct (pending s) as [[l e]|].
  - intros [= <- <- <-]. cbn. split; [lia|done].
  - destruct (ReadBytes 10 (s_r s)) as [[l e] rest] eqn:Hr. intros [= <- <- <-]. cbn.
    apply ReadBytes_content in Hr as [-> _]. rewrite length_app. split; [lia|done].
Qed.

Definition good_step (st : tagState) (s : tagScanner) (m : step_result) : Prop :=
  match m with
  | Ok (Some st', s') => (5 * weight s' + rank st' < 5 * weight s + rank st)%nat
  | Ok (None, _) | Err _ => True
  | _ => False
  end.

Lemma tag_next_good st s eof st' s' : (5 * weight s' + rank st' < 5 * weight s + rank st)%nat -> good_step st s (next eof st' s').
Proof. by destruct eof. Qed.

Lemma tag_pushBack_weight s line eof : pending s = None -> weight (pushBack s line eof) = (length line + weight s)%nat.
Proof. intros Hp. unfold weight. rewrite Hp. cbn. lia. Qed.

Lemma scan_required_good st key read st' s :
  (forall data x, returns (read data x)) -> (rank st' <= rank st + 4)%nat -> good_step st s (scan_required key read st' s).
Proof.
  intros Hread Hr. unfold scan_required. destruct (readLine s) as [[line eof] s1] eqn:Hl.
  apply tag_readLine_weight in Hl as [Hw Hp]. destruct (Z.eqb_spec (len line) 0) as [H0|H0]; [done|]. unfold len in H0.
  destruct (isBlankLine line); [done|]. destruct (splitHeader line) as [k data]. cbn [orb]. destruct (negb _); [done|].
  pose proof (Hread data (s_t s1)) as Hx. destruct (read data (s_t s1)) as [x| | |]; try done.
  apply tag_next_good. unfold weight in *. cbn. lia.
Qed.

Lemma scanTagMessage_text fuel s :
  pending s = None -> (length (s_r s) < fuel)%nat ->
  exists s', scanTagMessage_loop fuel s = Ok (None, s') /\ msgbuf s' = msgbuf s ++ s_r s /\ s_t s' = s_t s.
Proof.
  revert s. induction fuel as [|f IH]; intros s Hp Hf; [lia|]. cbn [scanTagMessage_loop]. unfold readLine. rewrite Hp.
  destruct (ReadBytes 10 (s_r s)) as [[l e] rest] eqn:Hr. apply ReadBytes_content in Hr as (Hc & He & Hl).
  destruct e.
  - eexists. split; [reflexivity|]. cbn. rewrite Hc, (He eq_refl), app_nil_r. done.
  - destruct (IH {| s_r := rest; s_t := s_t s; msgbuf := msgbuf s ++ l; pending := None |}) as (s' & Hs & Hm & Hx).
    + done.
    + cbn. rewrite Hc, length_app in Hf. destruct l; [by specialize (Hl eq_refl)|]. simpl in Hf. lia.
    + exists s'. split; [exact Hs|]. cbn in Hm. rewrite Hm, Hc, <-app_assoc. done.
Qed.

(** A line put back to the state that drains the message is written first. *)
Lemma scanMessage_good s : good_step scanTagMessage s (do_scanTagMessage s).
Proof.
  unfold do_scanTagMessage. destruct (pending s) as [[l e]|] eqn:Hp.
  - set (f := length (s_r s)). cbn [scanTagMessage_loop]. unfold readLine at 1. rewrite Hp. destruct e; [done|].
    set (s1 := {| s_r := _; s_t := _; msgbuf := _; pending := _ |}).
    destruct (scanTagMessage_text (S f) s1) as (s' & Hs & _); [done|cbn; lia|].
    change (good_step scanTagMessage s (scanTagMessage_loop (S f) s1)). by rewrite Hs.
  - destruct (scanTagMessage_text (S (S (length (s_r s)))) s Hp ltac:(lia)) as (s' & -> & _). done.
Qed.

Lemma tag_step_good st s : good_step st s (step st s).
Proof.
  destruct st; cbn [step].
  - apply scan_required_good; [|cbn; lia]. intros data x. pose proof (parseObjectIDHex_returns data) as H.
    by destruct (parseObjectIDHex data).
  - apply scan_required_good; [|cbn; lia]. intros data x. by destruct (ParseObjectType data) as [ot []].
  - apply scan_required_good; [done|cbn; lia].
  - unfold do_scanTagTagger. destruct (readLine s) as [[line eof] s1] eqn:Hl. apply tag_readLine_weight in Hl as [Hw Hp].
    destruct (Z.eqb_spec (len line) 0) as [H0|H0]; [done|]. unfold len in H0.
    destruct (isBlankLine line); [cbn; lia|]. destruct (splitHeader line) as [key data]. destruct (bool_decide _).
    + destruct (Signature.Decode_ok (E := tag_error) data (Tagger (s_t s1))) as [a ->]. cbn [mbind outcome_bind].
      apply tag_next_good. unfold weight in *. cbn. lia.
    + cbn [good_step mret outcome_ret]. rewrite tag_pushBack_weight by done. cbn. lia.
  - unfold do_scanTagHeaders. destruct (readLine s) as [[line eof] s1] eqn:Hl. apply tag_readLine_weight in Hl as [Hw Hp].
    destruct (Z.eqb_spec (len line) 0) as [H0|H0]; [done|]. unfold len in H0.
    destruct (isBlankLine line); [cbn; lia|]. destruct (splitHeader line) as [key data].
    repeat case_match; apply tag_next_good; unfold weight in *; cbn; lia.
  - unfold do_scanTagPgp256Cont. destruct (readLine s) as [[line eof] s1] eqn:Hl. apply tag_readLine_weight in Hl as [Hw Hp].
    destruct (HasPrefix line (bs " ")) eqn:Hs.
    + apply HasPrefix_spec in Hs as [q ->]. apply tag_next_good. unfold weight in *. cbn in *. lia.
    + cbn [good_step mret outcome_ret]. destruct (len line >? 0); [rewrite tag_pushBack_weight by done|]; cbn; lia.
  - apply scanMessage_good.
Qed.

Lemma tag_scan_returns fuel st s : (5 * weight s + rank st < fuel)%nat -> returns (scan fuel st s).
Proof.
  revert st s. induction fuel as [|f IH]; intros st s Hf; [lia|]. cbn [scan].
  pose proof (tag_step_good st s) as Hg. destruct (step st s) as [[[st'|] s']|e| |]; cbn; try done. apply IH. cbn in Hg. lia.
Qed.

Lemma start_returns o : returns (scan (scan_fuel (eo_Data o)) scanTagObject (start o)).
Proof. apply tag_scan_returns. unfold weight, scan_fuel, start. cbn. lia. Qed.

Lemma tag_Decode_total o : returns (Decode o).
Proof.
  unfold Decode. destruct (negb _); [done|]. apply returns_bind; [apply start_returns|].
  intros s _. by destruct (split_signature (msgbuf s)).
Qed.

(** ** Where the signature starts *)

Definition is_block (l : bytes) : Prop := typeForSignature l <> signatureTypeUnknown.

(** No line starts a block; only the first line starts one. *)
Definition unsigned (b : bytes) : Prop := Forall (fun l => ~ is_block l) (Split b 10).
Definition one_block (b : bytes) : Prop :=
  match Split b 10 with l :: ls => is_block l /\ Forall (fun l => ~ is_block l) ls | [] => False end.

#[export] Instance unsigned_dec b : Decision (unsigned b).
Proof. unfold unsigned, is_block. apply _. Defined.
#[export] Instance one_block_dec b : Decision (one_block b).
Proof. unfold one_block, is_block. destruct (Split b 10); apply _. Defined.

Lemma HasPrefix_line l b p : 10 ∉ p -> HasPrefix (l ++ 10 :: b) p = HasPrefix l p.
Proof.
  revert l. induction p as [|y p IH]; intros l Hp; [by destruct l|]. apply not_elem_of_cons in Hp as [Hy Hp].
  destruct l as [|x l]; cbn; [by destruct (Z.eqb_spec y 10); subst|]. by rewrite IH.
Qed.

(** The formats have no line breaks, so only the line counts. *)
Lemma typeForSignature_line l b : typeForSignature (l ++ 10 :: b) = typeForSignature l.
Proof.
  unfold typeForSignature, type_in, knownSignatureFormats, openPGPSignatureFormat, x509SignatureFormat, sshSignatureFormat.
  cbn [List.find existsb]. by rewrite !HasPrefix_line by (apply (bool_decide_unpack _); vm_compute; exact I).
Qed.

Lemma not_block l : head l <> Some 45 -> ~ is_block l.
Proof.
  intros Hh Hb. apply Hb. destruct l as [|x l]; [done|].
  assert (forall p, HasPrefix (x :: l) (45 :: p) = false) as H 
    by (intros p; cbn [HasPrefix]; apply andb_false_intro1, Z.eqb_neq; intros <-; by apply Hh).
  unfold typeForSignature, type_in, knownSignatureFormats, openPGPSignatureFormat, x509SignatureFormat, sshSignatureFormat.
  change (bs "-----BEGIN PGP SIGNATURE-----") with (45 :: bs "----BEGIN PGP SIGNATURE-----").
  change (bs "-----BEGIN PGP MESSAGE-----") with (45 :: bs "----BEGIN PGP MESSAGE-----").
  change (bs "-----BEGIN SIGNED MESSAGE-----") with (45 :: bs "----BEGIN SIGNED MESSAGE-----").
  change (bs "-----BEGIN SSH SIGNATURE-----") with (45 :: bs "----BEGIN SSH SIGNATURE-----").
  cbn [List.find existsb]. by rewrite !H.
Qed.

(** Skipping whole lines that start no block. *)
Lemma parse_lines ls : forall fuel n s found t,
  Forall (fun l => 10 ∉ l /\ ~ is_block l) ls -> (length ls <= fuel)%nat ->
  parseSignedBytes_loop fuel n (lines_text ls ++ s) found t =
  parseSignedBytes_loop (fuel - length ls) (n + len (lines_text ls)) s found t.
Proof.
  induction ls as [|l ls IH]; intros fuel n s found t Hls Hf.
  - cbn [lines_text map concat app length]. rewrite Nat.sub_0_r. f_equal. unfold len. cbn. lia.
  - apply Forall_cons in Hls as [[Hl Hb] Hls]. destruct fuel as [|f]; [cbn in Hf; lia|]. unfold lines_text. cbn [map concat].
    rewrite <-!app_assoc. cbn [app]. assert (exists x y, l ++ 10 :: lines_text ls ++ s = x :: y) as (x & y & Hxy)
      by (destruct l; eauto). unfold lines_text in Hxy. cbn [parseSignedBytes_loop]. rewrite Hxy.
    rewrite <-Hxy. rewrite typeForSignature_line. rewrite bool_decide_eq_true_2 by (by apply dec_stable).
    rewrite cut_at_app by done. fold (lines_text ls). rewrite IH; [|done|cbn in Hf; lia].
    cbn [length]. f_equal. rewrite !len_app. unfold len. cbn [length]. lia.
Qed.

Lemma parse_unsigned b : forall fuel n found t, unsigned b -> parseSignedBytes_loop fuel n b found t = (found, t).
Proof.
  remember (length b) as k eqn:Hk. revert b Hk. induction k as [k IH] using lt_wf_ind. intros b -> fuel n found t Hb.
  destruct fuel as [|f]; [done|]. destruct b as [|x b]; [done|]. cbn [parseSignedBytes_loop].
  destruct (cut_at 10 (x :: b)) as [[l b']|] eqn:Hc.
  - apply cut_at_Some in Hc as [Heq Hl]. rewrite Heq in *. unfold unsigned in Hb. rewrite Split_app in Hb by done.
    apply Forall_cons in Hb as [Hn Hb]. rewrite typeForSignature_line, bool_decide_eq_true_2 by (by apply dec_stable).
    eapply IH; [|reflexivity|exact Hb]. rewrite length_app. cbn. lia.
  - apply cut_at_None in Hc. unfold unsigned in Hb. rewrite Split_none, Forall_cons in Hb by done.
    destruct Hb as [Hb _]. by rewrite bool_decide_eq_true_2 by (by apply dec_stable).
Qed.

Lemma one_block_inv b : one_block b -> exists l ls, Split b 10 = l :: ls /\ is_block l /\ Forall (fun l => ~ is_block l) ls.
Proof. unfold one_block. destruct (Split b 10) as [|l ls]; [done|]. intros [H1 H2]. by exists l, ls. Qed.

Lemma parse_block b fuel n found t :
  one_block b -> exists t', parseSignedBytes_loop (S fuel) n b found t = (n, t').
Proof.
  intros (l & ls & Hs & Hl & Hls)%one_block_inv. destruct b as [|x b]; [by injection Hs as <- <-; exfalso; apply Hl|].
  cbn [parseSignedBytes_loop]. destruct (cut_at 10 (x :: b)) as [[l' b']|] eqn:Hc.
  - apply cut_at_Some in Hc as [Heq Hl']. rewrite Heq in *. rewrite Split_app in Hs by done. injection Hs as -> Hs.
    rewrite typeForSignature_line, bool_decide_eq_false_2 by done. eexists. apply parse_unsigned. unfold unsigned. by rewrite Hs.
  - apply cut_at_None in Hc. rewrite Split_none in Hs by done. injection Hs as Hs _. rewrite Hs.
    rewrite bool_decide_eq_false_2 by done. by eexists.
Qed.

Lemma length_lines_text ls : (length ls <= length (lines_text ls))%nat.
Proof. induction ls as [|l ls IH]; [done|]. unfold lines_text in *. cbn. rewrite !length_app. cbn. lia. Qed.

(** A text of whole lines without a block, and then one: that is where it is
    cut.  Without a block it is not cut. *)
Lemma split_block ls s :
  Forall (fun l => 10 ∉ l /\ ~ is_block l) ls -> one_block s -> split_signature (lines_text ls ++ s) = (lines_text ls, s).
Proof.
  intros Hls Hs. unfold split_signature, parseSignedBytes. pose proof (length_lines_text ls) as Hlen.
  rewrite parse_lines by (done || rewrite length_app; lia).
  rewrite length_app. replace (S _ - length ls)%nat with (S (length (lines_text ls) + length s - length ls)) by lia.
  destruct (parse_block s (length (lines_text ls) + length s - length ls) (0 + len (lines_text ls)) (-1) signatureTypeUnknown Hs)
    as [t ->]. cbn [fst]. rewrite Z.add_0_l. rewrite Z.geb_leb. ztest (0 <=? len (lines_text ls)) true.
  unfold len. rewrite Nat2Z.id. by rewrite take_app_length, drop_app_length.
Qed.

Lemma split_unsigned ls s :
  Forall (fun l => 10 ∉ l /\ ~ is_block l) ls -> unsigned s -> split_signature (lines_text ls ++ s) = (lines_text ls ++ s, []).
Proof.
  intros Hls Hs. unfold split_signature, parseSignedBytes. pose proof (length_lines_text ls) as Hlen.
  rewrite parse_lines by (done || rewrite length_app; lia). by rewrite parse_unsigned.
Qed.

(** What the message and the signature of a tag must be for them to be told
    apart again. *)
Definition body_ok (m s : bytes) : Prop := unsigned m /\ (s = [] \/ (m = [] \/ last m = Some 10) /\ one_block s).

#[export] Instance body_ok_dec m s : Decision (body_ok m s).
Proof. unfold body_ok. apply _. Defined.

Lemma Split_newline t : Split (t ++ [10]) 10 = Split t 10 ++ [[]].
Proof.
  assert (forall ps : list bytes, ps <> [] -> Join (ps ++ [[]]) 10 = Join ps 10 ++ [10]) as HJ.
  { induction ps as [|p ps IH]; [done|]. intros _. destruct ps as [|q ps]; [done|].
    cbn [app] in *. rewrite Join_cons by done. rewrite IH by done. by rewrite (Join_cons p (q :: ps)), <-app_assoc by done. }
  rewrite <-(Join_Split t 10) at 1. rewrite <-HJ by apply Split_not_nil. apply Split_Join; [by destruct (Split t 10)|].
  apply Forall_app. split; [apply Split_no_sep|]. rewrite Forall_singleton. apply not_elem_of_nil.
Qed.

(** A message of whole lines. *)
Lemma message_lines m : unsigned m -> m = [] \/ last m = Some 10 -> exists ls, m = lines_text ls /\ Forall (fun l => 10 ∉ l /\ ~ is_block l) ls.
Proof.
  intros Hm [->|Hl]; [by exists []|]. apply last_Some in Hl as [t ->]. unfold unsigned in Hm. rewrite Split_newline, Forall_app in Hm.
  destruct Hm as [Hm _]. destruct (Split_head t) as (l & ls & Hs & Hno & HJ). exists (l :: ls). rewrite lines_Join, HJ. split; [done|].
  rewrite Hs in Hm. rewrite Forall_forall in Hno. rewrite Forall_forall in Hm. apply Forall_forall. auto.
Qed.

Lemma split_body hs m s :
  Forall (fun l => 10 ∉ l /\ ~ is_block l) hs -> body_ok m s -> split_signature (lines_text hs ++ m ++ s) = (lines_text hs ++ m, s).
Proof.
  intros Hhs [Hm [->|[Hl Hs]]]; [rewrite app_nil_r; by apply split_unsigned|].
  destruct (message_lines m Hm Hl) as (ls & -> & Hls).
  rewrite app_assoc. unfold lines_text. rewrite <-concat_app, <-map_app. fold (lines_text (hs ++ ls)). apply split_block; [|done].
  by apply Forall_app.
Qed.

(** ** Runs of the machine *)

Inductive runs : tagState -> tagScanner -> tagScanner -> Prop :=
  | runs_end st s s' : step st s = Ok (None, s') -> runs st s s'
  | runs_step st s st' s' s'' : step st s = Ok (Some st', s') -> runs st' s' s'' -> runs st s s''.

Lemma tag_runs_scan st s s' fuel : runs st s s' -> scan fuel st s <> NoFuel -> scan fuel st s = Ok s'.
Proof.
  intros Hr. revert fuel. induction Hr as [st s s' Hs|st s st' s' s'' Hs Hr IH]; intros [|f] Hn; try done; cbn in *.
  - by rewrite Hs.
  - rewrite Hs in *. cbn in *. by apply IH.
Qed.

Definition at_line (text : bytes) (x : Tag) : tagScanner := {| s_r := text; s_t := x; msgbuf := []; pending := None |}.

Lemma tag_readLine_at l b x : 10 ∉ l -> readLine (at_line (l ++ 10 :: b) x) = (l ++ [10], false, at_line b x).
Proof. intros Hl. unfold readLine. cbn. by rewrite ReadBytes_app. Qed.

(** A line of a key and a value. *)
Definition keyed (k v : bytes) : bytes := k ++ 32 :: v.

(** Reading it in a state that looks for a key. *)
Lemma read_keyed k v b x :
  10 ∉ k -> 32 ∉ k -> k <> [] -> 10 ∉ v ->
  let line := keyed k v ++ [10] in
  readLine (at_line (keyed k v ++ 10 :: b) x) = (line, false, at_line b x)
  /\ (len line =? 0) = false /\ isBlankLine line = false /\ splitHeader line = (k, v).
Proof.
  intros H1 H2 H3 H4 line. unfold line, keyed. split_and!.
  - apply tag_readLine_at. set_solver.
  - apply len_line.
  - apply not_blank. by destruct k.
  - rewrite <-app_assoc. cbn [app]. by apply splitHeader_line.
Qed.

#[local] Ltac lit := apply (bool_decide_unpack _); vm_compute; exact I.

Lemma runs_required st key read st' v y b x s' :
  step st = scan_required key read st' -> 10 ∉ key -> 32 ∉ key -> key <> [] -> 10 ∉ v -> read v x = Ok y ->
  runs st' (at_line b y) s' -> runs st (at_line (keyed key v ++ 10 :: b) x) s'.
Proof.
  intros Hst H1 H2 H3 H4 Hread Hr. eapply runs_step; [|exact Hr]. rewrite Hst. unfold scan_required.
  destruct (read_keyed key v b x H1 H2 H3 H4) as (-> & -> & -> & ->). cbn [orb]. rewrite bool_decide_eq_true_2 by done.
  cbn [negb at_line s_t]. rewrite Hread. reflexivity.
Qed.

(** A line that the state for the tagger hands on. *)
Lemma tag_step_pending st s l b :
  st <> scanTagMessage -> pending s = None -> s_r s = l ++ 10 :: b -> 10 ∉ l ->
  step st (set_reader s b (Some (l ++ [10], false))) = step st s.
Proof.
  intros Hst Hp Hr Hl.
  assert (readLine (set_reader s b (Some (l ++ [10], false))) = readLine s) as H.
  { unfold readLine. cbn. by rewrite Hp, Hr, ReadBytes_app. }
  destruct st; try done; cbn [step]; unfold do_scanTagObject, do_scanTagType, do_scanTagName, scan_required, do_scanTagTagger,
    do_scanTagHeaders, do_scanTagPgp256Cont; by rewrite H.
Qed.

Lemma tag_runs_pending l b x s' :
  10 ∉ l -> runs scanTagHeaders (at_line (l ++ 10 :: b) x) s' -> runs scanTagHeaders (pushBack (at_line b x) (l ++ [10]) false) s'.
Proof.
  intros Hl Hr. pose proof (tag_step_pending scanTagHeaders (at_line (l ++ 10 :: b) x) l b ltac:(done) eq_refl eq_refl Hl) as Hs.
  change (set_reader (at_line (l ++ 10 :: b) x) b (Some (l ++ [10], false))) with (pushBack (at_line b x) (l ++ [10]) false) in Hs.
  inversion Hr as [? ? ? H1|? ? ? ? ? H1 H2]; subst; [by constructor; rewrite Hs|].
  eapply runs_step; [by rewrite Hs|done].
Qed.

Lemma runs_tagger a b x s' :
  sig_ok a -> 10 ∉ Signature.Encode a -> runs scanTagHeaders (at_line b (set_Tagger x (sig_read a))) s' ->
  runs scanTagTagger (at_line (keyed (bs "tagger") (Signature.Encode a) ++ 10 :: b) x) s'.
Proof.
  intros Ha Hn Hr. eapply runs_step; [|exact Hr]. cbn [step]. unfold do_scanTagTagger.
  destruct (read_keyed (bs "tagger") (Signature.Encode a) b x ltac:(lit) ltac:(lit) ltac:(done) Hn) as (-> & -> & -> & ->).
  rewrite bool_decide_eq_true_2 by done. by rewrite Decode_Encode.
Qed.

(** No tagger: the next line is handed on, unless it is the blank one. *)
Lemma runs_no_tagger k v b x s' :
  10 ∉ k -> 32 ∉ k -> k <> [] -> 10 ∉ v -> k <> bs "tagger" ->
  runs scanTagHeaders (at_line (keyed k v ++ 10 :: b) x) s' -> runs scanTagTagger (at_line (keyed k v ++ 10 :: b) x) s'.
Proof.
  intros H1 H2 H3 H4 Hk Hr. apply tag_runs_pending in Hr; [|unfold keyed; set_solver]. eapply runs_step; [|exact Hr].
  cbn [step]. unfold do_scanTagTagger. destruct (read_keyed k v b x H1 H2 H3 H4) as (-> & -> & -> & ->).
  by rewrite bool_decide_eq_false_2.
Qed.

Lemma tag_runs_message st m x :
  st = scanTagTagger \/ st = scanTagHeaders -> exists s', runs st (at_line (10 :: m) x) s' /\ msgbuf s' = m /\ s_t s' = x.
Proof.
  intros Hst. destruct (scanTagMessage_text (S (S (length m))) (at_line m x)) as (s' & Hs & Hm & Hx); [done|cbn; lia|].
  exists s'. split; [|done]. eapply (runs_step _ _ scanTagMessage (at_line m x)).
  - pose proof (tag_readLine_at [] m x) as HL. cbn [app] in HL.
    destruct Hst as [-> | ->]; cbn [step]; unfold do_scanTagTagger, do_scanTagHeaders; by rewrite HL by set_solver.
  - by constructor.
Qed.

Lemma add_sig256_app x p q : tag_add_sig256 (tag_add_sig256 x p) q = tag_add_sig256 x (p ++ q).
Proof. unfold tag_add_sig256. cbn. by rewrite app_assoc. Qed.

Lemma tag_runs_cont ls m x :
  Forall (fun l => 10 ∉ l) ls ->
  exists s', runs scanTagPgp256Cont (at_line (cont_text ls ++ 10 :: m) x) s' /\ msgbuf s' = m
    /\ s_t s' = tag_add_sig256 x (lines_text ls).
Proof.
  intros Hls. revert x. induction Hls as [|l ls Hl Hls IH]; intros x.
  - destruct (tag_runs_message scanTagHeaders m x) as (s' & Hr & Hm & Hx); [by right|]. exists s'. split; [|split; [done|]].
    + apply (tag_runs_pending [] m) in Hr; [|apply not_elem_of_nil]. eapply runs_step; [|exact Hr]. cbn [step].
      unfold do_scanTagPgp256Cont. pose proof (tag_readLine_at [] m x) as HL. cbn [app] in HL. cbn [cont_text map concat app].
      rewrite HL by set_solver. reflexivity.
    + rewrite Hx. unfold tag_add_sig256. cbn. rewrite app_nil_r. by destruct x.
  - destruct (IH (tag_add_sig256 x (l ++ [10]))) as (s' & Hr & Hm & Hx). exists s'. split; [|split; [done|]].
    + eapply runs_step; [|exact Hr]. rewrite cont_text_cons. cbn [step]. unfold do_scanTagPgp256Cont.
      pose proof (tag_readLine_at (32 :: l) (cont_text ls ++ 10 :: m) x) as HL. cbn [app] in HL.
      rewrite HL by (rewrite elem_of_cons; naive_solver lia). rewrite is_continuation. reflexivity.
    + rewrite Hx, add_sig256_app. done.
Qed.

Lemma tag_runs_pgp256 t m x :
  exists s', runs scanTagHeaders (at_line (keyed headerpgp256 (fold_lines (t ++ [10])) ++ 10 :: 10 :: m) x) s'
    /\ msgbuf s' = m /\ s_t s' = tag_add_sig256 x (t ++ [10]).
Proof.
  unfold keyed, fold_lines. rewrite TrimSuffix_app.
  destruct (Split_head t) as (l & ls & -> & [Hl Hls]%Forall_cons & HJ). rewrite <-app_assoc. cbn [app]. rewrite join_fold.
  destruct (tag_runs_cont ls m (tag_add_sig256 x (l ++ [10])) Hls) as (s' & Hr & Hm & Hx). exists s'. split; [|split; [done|]].
  - eapply runs_step; [|exact Hr]. cbn [step]. unfold do_scanTagHeaders.
    destruct (read_keyed headerpgp256 l (cont_text ls ++ 10 :: m) x ltac:(lit) ltac:(lit) ltac:(done) Hl) as (HL & H1 & H2 & H3).
    unfold keyed in *. rewrite <-app_assoc in HL. cbn [app] in HL. rewrite HL, H1, H2, H3. reflexivity.
  - rewrite Hx, add_sig256_app, <-HJ, <-lines_Join. done.
Qed.

(** ** The text of a tag *)

Record tag_ok (x : Tag) : Prop := {
  to_target : oid_ok (Target x);
  to_type : Valid (TargetType x) = true;
  to_name : 10 ∉ Name x;
  to_tagger : isZeroSignature (Tagger x) = true \/ sig_ok (Tagger x) /\ 10 ∉ sig_Name (Tagger x) /\ 10 ∉ sig_Email (Tagger x);
  to_sig256 : SignatureSHA256 x = [] \/ exists t, SignatureSHA256 x = t ++ [10];
  to_body : body_ok (Message x) (t_Signature x);
}.

Definition first_lines (x : Tag) : list bytes :=
  [keyed (bs "object") (oid_String (Target x)); keyed (bs "type") (type_String (TargetType x)); keyed (bs "tag") (Name x)]
  ++ (if isZeroSignature (Tagger x) then [] else [keyed (bs "tagger") (Signature.Encode (Tagger x))]).

Definition header_lines (x : Tag) (includeSig : bool) : list bytes :=
  first_lines x ++ (if includeSig then sig_lines headerpgp256 (SignatureSHA256 x) else []).

Lemma lines_text_cons l ls b : lines_text (l :: ls) ++ b = l ++ 10 :: lines_text ls ++ b.
Proof. unfold lines_text. cbn [map concat]. by rewrite <-!app_assoc. Qed.

Lemma lines_text_app ls ls' : lines_text (ls ++ ls') = lines_text ls ++ lines_text ls'.
Proof. unfold lines_text. by rewrite map_app, concat_app. Qed.

Lemma tag_encode_lines x b :
  encode x b = lines_text (header_lines x b) ++ 10 :: Message x ++ (if b then t_Signature x else []).
Proof.
  unfold encode, header_lines, first_lines, sig_lines, keyed. rewrite lines_text_app.
  change (bs "object ") with (bs "object" ++ [32]). change (bs "type ") with (bs "type" ++ [32]).
  change (bs "tag ") with (bs "tag" ++ [32]). change (bs "tagger ") with (bs "tagger" ++ [32]). change (bs " ") with [32].
  unfold lines_text. destruct (isZeroSignature (Tagger x)), b; cbn [negb]; rewrite ?andb_true_r, ?andb_false_r;
    try destruct (negb (bool_decide (SignatureSHA256 x = []))); cbn [map concat app];
    rewrite ?app_nil_r; do 3 (rewrite <-?app_assoc; cbn [app]); reflexivity.
Qed.

Lemma type_no_newline t : 10 ∉ type_String t.
Proof. destruct t; lit. Qed.

Definition tagger_read (a : Signature) : Signature := if isZeroSignature a then zero_signature else sig_read a.

Lemma runs_rest x m y :
  tag_ok x -> Tagger y = zero_signature -> SignatureSHA256 y = [] ->
  exists s', runs scanTagTagger (at_line (lines_text ((if isZeroSignature (Tagger x) then [] else [keyed (bs "tagger") (Signature.Encode (Tagger x))])
      ++ sig_lines headerpgp256 (SignatureSHA256 x)) ++ 10 :: m) y) s'
    /\ msgbuf s' = m /\ s_t s' = tag_add_sig256 (set_Tagger y (tagger_read (Tagger x))) (SignatureSHA256 x).
Proof.
  intros Hx Hz Hn. unfold tagger_read.
  assert (forall st z, st = scanTagHeaders \/ st = scanTagTagger ->
    exists s', runs st (at_line (lines_text (sig_lines headerpgp256 (SignatureSHA256 x)) ++ 10 :: m) z) s'
      /\ msgbuf s' = m /\ s_t s' = tag_add_sig256 z (SignatureSHA256 x)) as Hsig.
  { intros st z Hst. unfold sig_lines. destruct (to_sig256 _ Hx) as [-> |[t ->]].
    - cbn [lines_text map concat app]. destruct (tag_runs_message st m z) as (s' & Hr & Hm & Hs); [tauto|]. exists s'.
      split_and!; [done|done|]. rewrite Hs. unfold tag_add_sig256. rewrite app_nil_r. by destruct z.
    - rewrite bool_decide_eq_false_2 by (by destruct t). cbn [negb]. rewrite lines_text_cons. cbn [lines_text map concat app].
      destruct (tag_runs_pgp256 t m z) as (s' & Hr & Hm & Hs). exists s'. split_and!; [|done|done].
      destruct Hst as [-> | ->]; [exact Hr|]. unfold keyed in *. revert Hr. unfold fold_lines. rewrite TrimSuffix_app.
      destruct (Split_head t) as (l & ls & -> & [Hl Hls]%Forall_cons & HJ). change (bs " ") with [32].
      rewrite <-!app_assoc. cbn [app]. rewrite join_fold. intros Hr.
      pose proof (runs_no_tagger headerpgp256 l (cont_text ls ++ 10 :: m) z s') as H. unfold keyed in H. rewrite <-app_assoc in H.
      cbn [app] in H. apply H; [lit|lit|done|done|done|]. exact Hr. }
  destruct (isZeroSignature (Tagger x)) eqn:Hzero.
  - cbn [app]. destruct (Hsig scanTagTagger y) as (s' & Hr & Hm & Hs); [by right|]. exists s'.
    split_and!; [done|done|]. rewrite Hs. f_equal. unfold set_Tagger. rewrite <-Hz. by destruct y.
  - destruct (to_tagger _ Hx) as [H|(Ha & Hn1 & Hn2)]; [congruence|]. cbn [app]. rewrite lines_text_cons.
    destruct (Hsig scanTagHeaders (set_Tagger y (sig_read (Tagger x)))) as (s' & Hr & Hm & Hs); [by left|].
    exists s'. split_and!; [|done|done]. apply runs_tagger; [done|by apply Encode_no_newline|done].
Qed.

Lemma runs_tag x m y :
  tag_ok x -> Tagger y = zero_signature -> SignatureSHA256 y = [] ->
  exists s', runs scanTagObject (at_line (lines_text (header_lines x true) ++ 10 :: m) y) s'
    /\ msgbuf s' = m
    /\ s_t s' = tag_add_sig256 (set_Tagger (set_Name (set_TargetType (set_Target y (Target x)) (TargetType x)) (Name x))
                   (tagger_read (Tagger x))) (SignatureSHA256 x).
Proof.
  intros Hx Hz Hn. destruct (runs_rest x m (set_Name (set_TargetType (set_Target y (Target x)) (TargetType x)) (Name x)) Hx)
    as (s' & Hr & Hm & Hs); [done..|]. exists s'. split_and!; [|done|done].
  unfold header_lines, first_lines. rewrite <-app_assoc. cbn [app].
  rewrite lines_text_cons. eapply runs_required; [reflexivity|lit|lit|done|by apply hex_no_newline, Hx| |].
  { cbn beta. rewrite parse_hash by apply Hx. reflexivity. }
  rewrite lines_text_cons. eapply runs_required; [reflexivity|lit|lit|done|apply type_no_newline| |].
  { cbn beta. rewrite ParseObjectType_String by apply Hx. reflexivity. }
  rewrite lines_text_cons. eapply runs_required; [reflexivity|lit|lit|done|by apply Hx|reflexivity|]. exact Hr.
Qed.

Lemma tag_Decode_encode x h :
  tag_ok x ->
  let o := {| eo_Type := TagObject; eo_Hash := h; eo_Data := encode x true |} in
  Decode o = Ok {| Hash := h; Name := Name x; Tagger := tagger_read (Tagger x); Message := Message x; t_Signature := t_Signature x;
    SignatureSHA256 := SignatureSHA256 x; TargetType := TargetType x; Target := Target x; src := Some o |}.
Proof.
  intros Hx o. destruct (runs_tag x (Message x ++ t_Signature x) (reset_tag h (Some o)) Hx) as (s' & Hr & Hm & Hs); [done..|].
  assert (scan (scan_fuel (eo_Data o)) scanTagObject (start o) = Ok s') as Hscan.
  { apply tag_runs_scan; [|intros Hf; pose proof (start_returns o) as H; by rewrite Hf in H]. unfold start. cbn [o eo_Data eo_Hash].
    rewrite tag_encode_lines. exact Hr. }
  unfold Decode. cbn [eo_Type o]. rewrite bool_decide_eq_true_2 by done. cbn [negb]. fold o. rewrite Hscan.
  cbn [mbind outcome_bind]. rewrite Hm. pose proof (split_body [] (Message x) (t_Signature x) (Forall_nil_2 _) (to_body _ Hx)) as Hsplit.
  cbn [lines_text map concat app] in Hsplit. rewrite Hsplit, Hs. reflexivity.
Qed.

(** ** The payload of a signature *)

Lemma keyed_not_block k v : head k <> Some 45 -> k <> [] -> ~ is_block (keyed k v).
Proof. intros Hh Hk. apply not_block. by destruct k. Qed.

Lemma first_lines_ok x : tag_ok x -> Forall (fun l => 10 ∉ l /\ ~ is_block l) (first_lines x) /\ Forall (fun h => header_text h false) (first_lines x).
Proof.
  intros Hx. assert (forall k v, bool_decide (10 ∉ k /\ 32 ∉ k /\ k <> [] /\ k <> headerpgp /\ k <> headerpgp256) = true ->
    head k <> Some 45 -> 10 ∉ v -> (10 ∉ keyed k v /\ ~ is_block (keyed k v)) /\ header_text (keyed k v) false) as Hkv.
  { intros k v Hk Hh Hv. split; [|by apply plain_text]. apply bool_decide_eq_true_1 in Hk as (H1 & H2 & H3 & _).
    split; [unfold keyed; set_solver|by apply keyed_not_block]. }
  pose proof (Hkv (bs "object") (oid_String (Target x)) eq_refl ltac:(done) ltac:(by apply hex_no_newline, Hx)) as [H1 H1'].
  pose proof (Hkv (bs "type") (type_String (TargetType x)) eq_refl ltac:(done) ltac:(apply type_no_newline)) as [H2 H2'].
  pose proof (Hkv (bs "tag") (Name x) eq_refl ltac:(done) ltac:(by apply Hx)) as [H3 H3'].
  unfold first_lines. destruct (isZeroSignature (Tagger x)) eqn:Hz; cbn [app].
  - split; by repeat (apply Forall_cons; split).
  - destruct (to_tagger _ Hx) as [H|(Ha & Hn1 & Hn2)]; [congruence|].
    pose proof (Hkv (bs "tagger") (Signature.Encode (Tagger x)) eq_refl ltac:(done) ltac:(by apply Encode_no_newline)) as [H4 H4'].
    split; by repeat (apply Forall_cons; split).
Qed.

Lemma cont_lines ls : cont_text ls = lines_text (map (cons 32) ls).
Proof. induction ls as [|l ls IH]; [done|]. unfold cont_text, lines_text in *. cbn [map concat]. by rewrite IH. Qed.

(** The lines before the message. *)
Lemma flat_lines x :
  tag_ok x -> exists flat, lines_text (header_lines x true) ++ [10] = lines_text flat /\ Forall (fun l => 10 ∉ l /\ ~ is_block l) flat.
Proof.
  intros Hx. destruct (first_lines_ok x Hx) as [Hf _]. unfold header_lines, sig_lines.
  assert (10 ∉ ([] : bytes) /\ ~ is_block []) as Hnil by (split; [apply not_elem_of_nil|by apply not_block]).
  destruct (to_sig256 _ Hx) as [-> |[t ->]].
  - exists (first_lines x ++ [[]]). rewrite app_nil_r, lines_text_app. split; [done|]. apply Forall_app. split; [done|].
    by rewrite Forall_singleton.
  - rewrite bool_decide_eq_false_2 by (by destruct t). cbn [negb]. unfold fold_lines. rewrite TrimSuffix_app.
    destruct (Split_head t) as (l & ls & -> & [Hl Hls]%Forall_cons & HJ).
    exists (first_lines x ++ (headerpgp256 ++ 32 :: l) :: map (cons 32) ls ++ [[]]). split.
    + rewrite !lines_text_app. rewrite <-app_assoc. f_equal. rewrite <-(app_nil_r (lines_text (_ :: _ ++ _))).
      rewrite !lines_text_cons. cbn [lines_text map concat app]. rewrite app_nil_r, lines_text_app, <-cont_lines. change (bs " ") with [32].
      rewrite <-!app_assoc. cbn [app]. rewrite join_fold. done.
    + apply Forall_app. split; [done|]. apply Forall_cons. split.
      * split; [rewrite elem_of_app, elem_of_cons; intros [H|[H|H]]; [revert H; lit|done|done]|by apply keyed_not_block].
      * apply Forall_app. split; [|by rewrite Forall_singleton]. apply List.Forall_map. eapply Forall_impl; [exact Hls|].
        intros p Hp. split; [rewrite elem_of_cons; naive_solver lia|by apply not_block].
Qed.

Lemma tag_strip_encode x : tag_ok x -> stripTagSignatures (encode x true) = encode x false.
Proof.
  intros Hx. unfold stripTagSignatures. rewrite !tag_encode_lines. destruct (flat_lines x Hx) as (flat & Heq & Hflat).
  change (10 :: Message x ++ t_Signature x) with ([10] ++ Message x ++ t_Signature x). rewrite app_assoc, Heq.
  rewrite (split_body flat) by (done || apply Hx). cbn [fst]. rewrite <-Heq. rewrite app_nil_r.
  change (stripHeaderSignatures ?t) with (strip t false false). unfold header_lines. rewrite app_nil_r, lines_text_app, <-!app_assoc.
  destruct (first_lines_ok x Hx) as [_ Hkept]. rewrite strip_kept by done. f_equal. cbn [app]. unfold sig_lines.
  destruct (negb _); [|apply strip_end]. rewrite lines_text_cons. cbn [lines_text map concat app].
  rewrite (strip_header_text _ true); [apply strip_end|]. apply (folded_text headerpgp256); [lit|lit|done].
Qed.

Lemma tag_step_origin st s st' s' : step st s = Ok (st', s') -> src (s_t s') = src (s_t s) /\ Hash (s_t s') = Hash (s_t s).
Proof.
  assert (forall s line eof s1, readLine s = (line, eof, s1) -> s_t s1 = s_t s) as Hread.
  { intros s0 line eof s1. unfold readLine. destruct (pending s0) as [[]|]; [by intros [= <- <- <-]|].
    destruct (ReadBytes 10 (s_r s0)) as [[]]. by intros [= <- <- <-]. }
  destruct (readLine s) as [[line eof] s1] eqn:Hl. apply Hread in Hl as Hs1. rewrite <-Hs1.
  destruct st; cbn [step]; unfold do_scanTagObject, do_scanTagType, do_scanTagName, scan_required, do_scanTagTagger,
    do_scanTagHeaders, do_scanTagPgp256Cont, next; rewrite ?Hl.
  7: { intros H. rewrite Hs1. revert H. unfold do_scanTagMessage. generalize (S (S (length (s_r s)))) as fuel. intros fuel. clear -Hread.
       revert s. induction fuel as [|f IH]; intros s; [done|]. cbn [scanTagMessage_loop].
       destruct (readLine s) as [[line eof] s1] eqn:Hl. apply Hread in Hl. destruct eof.
       - intros [= _ <-]. by rewrite <-Hl.
       - intros H. apply IH in H. cbn in H. by rewrite <-Hl. }
  all: intros H; repeat (case_match; try discriminate; inv_bind; simplify_eq/=; try done).
Qed.

Lemma tag_scan_origin fuel st s s' : scan fuel st s = Ok s' -> src (s_t s') = src (s_t s) /\ Hash (s_t s') = Hash (s_t s).
Proof.
  revert st s. induction fuel as [|f IH]; intros st s; [done|]. cbn [scan]. intros ([st' s1] & Hs & H)%bind_Ok_inv.
  apply tag_step_origin in Hs as [<- <-]. destruct st'; [by apply (IH _ _ H)|]. by injection H as ->.
Qed.

Lemma tag_Decode_origin o y : Decode o = Ok y -> src y = Some o /\ Hash y = eo_Hash o.
Proof.
  unfold Decode. destruct (negb _); [done|]. intros (s & Hs & H)%bind_Ok_inv. apply tag_scan_origin in Hs. cbn in Hs.
  destruct (split_signature (msgbuf s)). by injection H as <-.
Qed.

(** ** Properties *)

(** C16: decoding inverts encoding.  For any tag with a printable target, a name
    without line breaks, a tagger that is zero or can be written, and a message
    and signature that can be told apart (no line of the message starts an
    armoured block; the signature is one block after a whole line), the decoder
    reads back every field, the signature again cut from the message. *)
Theorem tag_roundtrip x h :
  tag_ok x ->
  let o := {| eo_Type := TagObject; eo_Hash := h; eo_Data := Encode x |} in
  Decode o = Ok {| Hash := h; Name := Name x; Tagger := tagger_read (Tagger x); Message := Message x; t_Signature := t_Signature x;
    SignatureSHA256 := SignatureSHA256 x; TargetType := TargetType x; Target := Target x; src := Some o |}.
Proof. intros Hx. exact (tag_Decode_encode x h Hx). Qed.

Lemma example_tag_ok : tag_ok example_tag.
Proof.
  constructor.
  - exact ZeroHash_ok.
  - reflexivity.
  - lit.
  - right. lit.
  - right. by exists (bs "-----BEGIN SSH SIGNATURE-----" ++ [10] ++ bs "xyz").
  - lit.
Qed.

Lemma tag_roundtrip_witness :
  tag_ok example_tag /\
  let o := {| eo_Type := TagObject; eo_Hash := ZeroHash; eo_Data := Encode example_tag |} in
  Decode o = Ok {| Hash := ZeroHash; Name := Name example_tag; Tagger := tagger_read (Tagger example_tag); Message := Message example_tag;
    t_Signature := t_Signature example_tag; SignatureSHA256 := SignatureSHA256 example_tag; TargetType := CommitObject;
    Target := ZeroHash; src := Some o |}.
Proof. split; [exact example_tag_ok|]. exact (tag_roundtrip example_tag ZeroHash example_tag_ok). Defined.

(** The payload a tag's signature is checked against: the source text without
    its last block and its signature headers; for a tag that [Encode] wrote,
    the text before it was signed; once the message is changed, the text of
    the changed tag. *)
Theorem tag_EncodeWithoutSignature :
  (forall o y, Decode o = Ok y -> EncodeWithoutSignature y = Ok (stripTagSignatures (eo_Data o)))
  /\ (forall x, tag_ok x -> stripTagSignatures (Encode x) = encode x false)
  /\ (forall o y m, Decode o = Ok y -> m <> Message y ->
        EncodeWithoutSignature (set_body y m (t_Signature y)) = Ok (encode (set_body y m (t_Signature y)) false)).
Proof.
  split_and!.
  - intros o y Hy. unfold EncodeWithoutSignature, matchesSource. rewrite (proj1 (tag_Decode_origin o y Hy)), Hy. cbn [mbind outcome_bind mret outcome_ret].
    rewrite !bool_decide_eq_true_2, signatureEqual_refl by done. done.
  - exact tag_strip_encode.
  - intros o y m Hy Hm. unfold EncodeWithoutSignature, matchesSource. cbn [src set_body].
    rewrite (proj1 (tag_Decode_origin o y Hy)), Hy. cbn [mbind outcome_bind mret outcome_ret Message set_body].
    rewrite (bool_decide_eq_false_2 (m = Message y)) by done. by rewrite !andb_false_r.
Qed.
