(* ===== verification/Revlist.v ===== *)
(** * The objects to send: [plumbing/revlist/object_walk.go], [revlist.go]

    [Objects] answers which objects a receiver that has [haves] needs for
    [wants].  Commits of both sides are walked newest first and painted with
    the side they are reached from, until only commits of both sides are left;
    the trees of the new commits are collected, without what the commits the
    receiver has are known to hold.  The theorem is that nothing is missing:
    whatever the dates of the commits, everything reachable from the wants is
    in the answer or is reachable from the haves, and the answer has no
    duplicates and nothing else. *)
From stdpp Require Import base list numbers option strings gmap sets relations.
From Stdlib Require Import ZArith Lia.
From S2P Require Import Prelude ObjectId Object Filemode Storer MemStorage ObjectStore Signature.
From S2P Require Commit Tag Tree TreeWalk Walk.
Import Commit (Commit, commit_error, ParentHashes, TreeHash, Committer).
Import Tree (Tree, TreeEntry, Entries, tree_Hash, Mode).
Import TreeWalk (find_error, tree_of).
Import Walk (commit_of).

Open Scope Z_scope.

Inductive revlist_error :=
  | ErrGet (e : storage_error)
  | ErrCommit (e : commit_error)
  | ErrTag (e : Tag.tag_error)
  | ErrTree (e : find_error)
  | ErrUnsupported
  | ErrInvalidType
  | ErrMissingParent.

Abbreviation seen_map := (gmap ObjectID ObjectType).
Abbreviation flag_map := (gmap ObjectID Z).

(** ** Trees *)

Definition entryType (m : FileMode) : ObjectType := if m =? Dir then TreeObject else BlobObject.

Definition checkSeenType (seen used : ObjectType) : outcome revlist_error unit :=
  if bool_decide (seen = used) then mret tt else Err ErrInvalidType.

(** A commit in a queue sorted by committer time, newest first. *)
Definition insertSorted (q : list Commit) (c : Commit) : outcome revlist_error (list Commit) :=
  i ← Search (len q) (fun i =>
        match q !! Z.to_nat i with
        | Some x => Before (sig_When (Committer x)) (sig_When (Committer c))
        | None => false
        end);
  mret (take (Z.to_nat i) q ++ c :: drop (Z.to_nat i) q).

Section revlist.
(** The objects of the store, and the size of the buffered readers. *)
Context (m : ObjectMap) (N : nat).

Definition GetTree (h : ObjectID) : outcome revlist_error Tree := map_err ErrTree (tree_of N m h).
Definition GetCommit (h : ObjectID) : outcome revlist_error Commit := map_err ErrCommit (commit_of m h).

(** [EncodedObject] with [AnyObject]. *)
Definition get_any (h : ObjectID) : outcome storage_error EncodedObject :=
  match m !! h with Some o => mret o | None => Err ErrObjectNotFound end.

(** A tree is descended into once: the depth is bounded by the objects that
    are not seen. *)
Definition depth_fuel : nat := S (size m).

(** The state is the objects seen and the result. *)
Fixpoint collectAllTreeObjects (fuel : nat) (t : Tree) (st : seen_map * list ObjectID)
    : outcome revlist_error (seen_map * list ObjectID) :=
  match fuel with
  | O => NoFuel
  | S f =>
      let '(seen, result) := st in
      match seen !! tree_Hash t with
      | Some typ => checkSeenType typ TreeObject;; mret st
      | None =>
          foldM (fun e '(seen, result) =>
            if Mode e =? Submodule then mret (seen, result)
            else
              let typ := entryType (Mode e) in
              match seen !! Tree.Hash e with
              | Some seenTyp => checkSeenType seenTyp typ;; mret (seen, result)
              | None =>
                  if bool_decide (typ = TreeObject) then
                    sub ← GetTree (Tree.Hash e); collectAllTreeObjects f sub (seen, result)
                  else mret (<[Tree.Hash e := BlobObject]> seen, result ++ [Tree.Hash e])
              end)
            (Entries t) (<[tree_Hash t := TreeObject]> seen, result ++ [tree_Hash t])
      end
  end.

Fixpoint markTreeSeen (fuel : nat) (t : Tree) (seen : seen_map) : outcome revlist_error seen_map :=
  match fuel with
  | O => NoFuel
  | S f =>
      match seen !! tree_Hash t with
      | Some _ => mret seen
      | None =>
          foldM (fun e seen =>
            if Mode e =? Submodule then mret seen
            else
              match seen !! Tree.Hash e with
              | Some _ => mret seen
              | None =>
                  if bool_decide (entryType (Mode e) = TreeObject) then
                    match GetTree (Tree.Hash e) with
                    | Ok sub => markTreeSeen f sub seen
                    | Err _ => mret (<[Tree.Hash e := TreeObject]> seen)
                    | Panic => Panic
                    | NoFuel => NoFuel
                    end
                  else mret (<[Tree.Hash e := BlobObject]> seen)
              end)
            (Entries t) (<[tree_Hash t := TreeObject]> seen)
      end
  end.

(** ** The state of a walk *)

Record objectWalk := {
  shallows : gset ObjectID;
  wantsQueue : list Commit;
  havesQueue : list Commit;
  wantsSeen : gset ObjectID;
  havesSeen : gset ObjectID;
  seen : seen_map;
  result : list ObjectID;
}.

(** [shallowSet] gives the set of the storer's shallow commits. *)
Definition newObjectWalk (shallow : list ObjectID) : objectWalk :=
  {| shallows := list_to_set shallow; wantsQueue := []; havesQueue := []; wantsSeen := ∅; havesSeen := ∅; seen := ∅; result := [] |}.

Definition set_seen (w : objectWalk) (st : seen_map * list ObjectID) : objectWalk :=
  {| shallows := shallows w; wantsQueue := wantsQueue w; havesQueue := havesQueue w; wantsSeen := wantsSeen w;
     havesSeen := havesSeen w; seen := st.1; result := st.2 |}.
Definition set_wants (w : objectWalk) (q : list Commit) (s : gset ObjectID) : objectWalk :=
  {| shallows := shallows w; wantsQueue := q; havesQueue := havesQueue w; wantsSeen := s;
     havesSeen := havesSeen w; seen := seen w; result := result w |}.
Definition set_haves (w : objectWalk) (q : list Commit) (s : gset ObjectID) : objectWalk :=
  {| shallows := shallows w; wantsQueue := wantsQueue w; havesQueue := q; wantsSeen := wantsSeen w;
     havesSeen := s; seen := seen w; result := result w |}.

(** Add an object to the result. *)
Definition add_seen (h : ObjectID) (t : ObjectType) (w : objectWalk) : objectWalk :=
  set_seen w (<[h := t]> (seen w), result w ++ [h]).

(** *** Seeds *)

(** One want, and the hashes that its object adds to the list. *)
Definition seedWant (h : ObjectID) (w : objectWalk) : outcome revlist_error (list ObjectID * objectWalk) :=
  if decide (h ∈ wantsSeen w) then mret ([], w)
  else if decide (is_Some (seen w !! h)) then mret ([], w)
  else
    o ← map_err ErrGet (get_any h);
    match eo_Type o with
    | CommitObject =>
        c ← map_err ErrCommit (Commit.Decode o);
        q ← insertSorted (wantsQueue w) c;
        mret ([], set_wants w q ({[h]} ∪ wantsSeen w))
    | TagObject =>
        tag ← map_err ErrTag (Tag.Decode o);
        mret ([Tag.Target tag], add_seen (Tag.Hash tag) TagObject w)
    | TreeObject =>
        t ← GetTree h;
        st ← collectAllTreeObjects depth_fuel t (seen w, result w);
        mret ([], set_seen w st)
    | BlobObject => mret ([], add_seen h BlobObject w)
    | _ => Err ErrUnsupported
    end.

Definition seedHave (h : ObjectID) (w : objectWalk) : outcome revlist_error (list ObjectID * objectWalk) :=
  if decide (h ∈ havesSeen w) then mret ([], w)
  else if decide (is_Some (seen w !! h)) then mret ([], w)
  else
    match get_any h with
    | Err ErrObjectNotFound => mret ([], w)
    | Err e => Err (ErrGet e)
    | Panic => Panic
    | NoFuel => NoFuel
    | Ok o =>
        match eo_Type o with
        | CommitObject =>
            c ← map_err ErrCommit (Commit.Decode o);
            q ← insertSorted (havesQueue w) c;
            let w := set_haves w q ({[h]} ∪ havesSeen w) in
            match GetTree (TreeHash c) with
            | Ok t => sn ← markTreeSeen depth_fuel t (seen w); mret ([], set_seen w (sn, result w))
            | Err _ => mret ([], w)
            | Panic => Panic
            | NoFuel => NoFuel
            end
        | TagObject =>
            tag ← map_err ErrTag (Tag.Decode o);
            mret ([Tag.Target tag], set_seen w (<[Tag.Hash tag := TagObject]> (seen w), result w))
        | TreeObject =>
            match GetTree h with
            | Ok t => sn ← markTreeSeen depth_fuel t (seen w); mret ([], set_seen w (sn, result w))
            | Err _ => mret ([], w)
            | Panic => Panic
            | NoFuel => NoFuel
            end
        | BlobObject => mret ([], set_seen w (<[h := BlobObject]> (seen w), result w))
        | _ => mret ([], w)
        end
    end.

(** The loops over the wants and the haves, which grow while they are visited. *)
Fixpoint seed_loop (seed : ObjectID -> objectWalk -> outcome revlist_error (list ObjectID * objectWalk))
    (fuel : nat) (hs : list ObjectID) (w : objectWalk) : outcome revlist_error objectWalk :=
  match hs with
  | [] => mret w
  | h :: hs =>
      match fuel with
      | O => NoFuel
      | S f => '(more, w) ← seed h w; seed_loop seed f (hs ++ more) w
      end
  end.

(** A tag adds one hash, once. *)
Definition seed_fuel (hs : list ObjectID) : nat := length hs + size m.

Definition seedWants (wants : list ObjectID) (w : objectWalk) : outcome revlist_error objectWalk :=
  seed_loop seedWant (seed_fuel wants) wants w.
Definition seedHaves (haves : list ObjectID) (w : objectWalk) : outcome revlist_error objectWalk :=
  seed_loop seedHave (seed_fuel haves) haves w.

(** *** Painting *)

Definition wantPaint : Z := 1.
Definition havePaint : Z := 2.

Definition flag (flags : flag_map) (h : ObjectID) : Z := default 0 (flags !! h).
Definition paint (flags : flag_map) (h : ObjectID) (f : Z) : flag_map := <[h := Z.lor (flag flags h) f]> flags.

(** The child and its parent that is missing. *)
Record missingParent := { mp_hash : ObjectID; mp_child : ObjectID }.

Definition paint_state : Type := list Commit * flag_map * list missingParent.

Definition propagate (lc : Commit) (f : Z) (st : paint_state) : outcome revlist_error paint_state :=
  foldM (fun ph '(queue, flags, missing) =>
    let pf := flag flags ph in
    if Z.lor pf f =? pf then mret (queue, flags, missing)
    else
      let flags := paint flags ph f in
      match commit_of m ph with
      | Ok pc => queue ← insertSorted queue pc; mret (queue, flags, missing)
      | Err (Commit.ErrStorage ErrObjectNotFound) =>
          mret (queue, flags, missing ++ [{| mp_hash := ph; mp_child := Commit.Hash lc |}])
      | Err e => Err (ErrCommit e)
      | Panic => Panic
      | NoFuel => NoFuel
      end) (ParentHashes lc) st.

Definition allStale (queue : list Commit) (flags : flag_map) : bool :=
  forallb (fun c => negb ((Z.land (flag flags (Commit.Hash c)) wantPaint =? 0)
                          || (Z.land (flag flags (Commit.Hash c)) havePaint =? 0))) queue.

(** Phase 1; the new commits are in the order they were taken out. *)
Fixpoint paint_loop (fuel : nat) (sh : gset ObjectID) (st : paint_state) (newCommits : list Commit)
    : outcome revlist_error (list Commit * flag_map * list missingParent) :=
  match fuel with
  | O => NoFuel
  | S n =>
      let '(queue, flags, missing) := st in
      match queue with
      | [] => mret (newCommits, flags, missing)
      | lc :: queue =>
          let f := flag flags (Commit.Hash lc) in
          let newCommits := if f =? wantPaint then newCommits ++ [lc] else newCommits in
          '(queue, flags, missing) ← (if decide (Commit.Hash lc ∈ sh) then mret (queue, flags, missing)
                                      else propagate lc f (queue, flags, missing));
          if allStale queue flags then mret (newCommits, flags, missing)
          else paint_loop n sh (queue, flags, missing) newCommits
      end
  end.

(** *** Collecting *)

Definition collectCommit (lc : Commit) (w : objectWalk) : outcome revlist_error objectWalk :=
  let w := if decide (is_Some (seen w !! Commit.Hash lc)) then w else add_seen (Commit.Hash lc) CommitObject w in
  tree ← GetTree (TreeHash lc);
  st ← collectAllTreeObjects depth_fuel tree (seen w, result w);
  mret (set_seen w st).

Definition markEdgeTreeSeen (h : ObjectID) (w : objectWalk) : outcome revlist_error objectWalk :=
  match commit_of m h with
  | Ok c =>
      if decide (is_Some (seen w !! TreeHash c)) then mret w
      else
        t ← GetTree (TreeHash c);
        sn ← markTreeSeen depth_fuel t (seen w);
        mret (set_seen w (sn, result w))
  | Err (Commit.ErrStorage ErrObjectNotFound) => mret w
  | Err e => Err (ErrCommit e)
  | Panic => Panic
  | NoFuel => NoFuel
  end.

(** Only parents of commits in the store are pushed, each at most twice. *)
Definition all_parents : list ObjectID :=
  map_to_list m ≫= fun '(h, _) => match commit_of m h with Ok c => ParentHashes c | _ => [] end.

Fixpoint walkFull (fuel : nat) (w : objectWalk) : outcome revlist_error objectWalk :=
  match fuel with
  | O => NoFuel
  | S f =>
      match wantsQueue w with
      | [] => mret w
      | lc :: q =>
          let w := set_wants w q (wantsSeen w) in
          if decide (is_Some (seen w !! Commit.Hash lc)) then walkFull f w
          else
            w ← collectCommit lc w;
            if decide (Commit.Hash lc ∈ shallows w) then walkFull f w
            else
              w ← foldM (fun ph w =>
                    if decide (ph ∈ wantsSeen w) then mret w
                    else
                      pc ← GetCommit ph;
                      q ← insertSorted (wantsQueue w) pc;
                      mret (set_wants w q ({[ph]} ∪ wantsSeen w))) (ParentHashes lc) w;
              walkFull f w
      end
  end.

Definition has (flags : flag_map) (p : Z) (h : ObjectID) : bool := negb (Z.land (flag flags h) p =? 0).

Definition walk_fuel (w : objectWalk) : nat := S (length (wantsQueue w) + length (havesQueue w) + 4 * length all_parents).

Definition mark_edges (flags : flag_map) (lc : Commit) (w : objectWalk) : outcome revlist_error objectWalk :=
  if decide (Commit.Hash lc ∈ shallows w) then mret w
  else foldM (fun ph w => if has flags havePaint ph then markEdgeTreeSeen ph w else mret w) (ParentHashes lc) w.

(** The painted flags and the queue of the seeds. *)
Definition seed_flags (p : Z) (cs : list Commit) (st : list Commit * flag_map) : outcome revlist_error (list Commit * flag_map) :=
  foldM (fun c '(queue, flags) => queue ← insertSorted queue c; mret (queue, paint flags (Commit.Hash c) p)) cs st.

Definition walk (w : objectWalk) : outcome revlist_error objectWalk :=
  match havesQueue w with
  | [] => walkFull (walk_fuel w) w
  | _ :: _ =>
      '(queue, flags) ← seed_flags wantPaint (wantsQueue w) ([], ∅);
      '(queue, flags) ← seed_flags havePaint (havesQueue w) (queue, flags);
      let fuel := walk_fuel w in
      let w := set_haves (set_wants w [] (wantsSeen w)) [] (havesSeen w) in
      '(newCommits, flags, missing) ← paint_loop fuel (shallows w) (queue, flags, []) [];
      if negb (forallb (fun mp => has flags havePaint (mp_child mp)) missing) then Err ErrMissingParent
      else
        let newCommits := filter (fun c => has flags havePaint (Commit.Hash c) = false) newCommits in
        w ← foldM (mark_edges flags) newCommits w;
        foldM collectCommit newCommits w
  end.

(** ** The entry points *)

Definition Objects (shallow wants haves : list ObjectID) : outcome revlist_error (list ObjectID) :=
  let w := newObjectWalk shallow in
  w ← seedHaves haves w;
  w ← seedWants wants w;
  w ← walk w;
  mret (result w).

(** The map from each object to the wants that need it. *)
Definition ObjectsWithRef (shallow wants haves : list ObjectID) : outcome revlist_error (gmap ObjectID (list ObjectID)) :=
  foldM (fun want all =>
    hashes ← Objects shallow [want] haves;
    mret (foldl (fun all h => <[h := default [] (all !! h) ++ [want]]> all) all hashes)) wants ∅.
End revlist.

(** ** The graph of objects *)

(** An object with the type it is used as. *)
Definition node : Type := ObjectID * ObjectType.

Section graph.
Context (m : ObjectMap) (N : nat) (sh : gset ObjectID).

Inductive edge : node -> node -> Prop :=
  | edge_parent h c p : commit_of m h = Ok c -> h ∉ sh -> p ∈ ParentHashes c -> edge (h, CommitObject) (p, CommitObject)
  | edge_tree h c : commit_of m h = Ok c -> edge (h, CommitObject) (TreeHash c, TreeObject)
  | edge_entry h t e : tree_of N m h = Ok t -> e ∈ Entries t -> Mode e <> Submodule -> edge (h, TreeObject) (Tree.Hash e, entryType (Mode e))
  | edge_tag h o x o' : m !! h = Some o -> eo_Type o = TagObject -> Tag.Decode o = Ok x -> m !! Tag.Target x = Some o' ->
      edge (h, TagObject) (Tag.Target x, eo_Type o').

Definition start (seeds : list ObjectID) (x : node) : Prop := x.1 ∈ seeds /\ exists o, m !! x.1 = Some o /\ x.2 = eo_Type o.

Definition reach (seeds : list ObjectID) (x : node) : Prop := exists s, start seeds s /\ rtc edge s x.

Lemma reach_start seeds h o : h ∈ seeds -> m !! h = Some o -> reach seeds (h, eo_Type o).
Proof. intros Hh Ho. exists (h, eo_Type o). split; [|done]. split; [done|]. by exists o. Qed.

Lemma reach_edge seeds x y : reach seeds x -> edge x y -> reach seeds y.
Proof. intros (s & Hs & Hr) He. exists s. split; [done|]. by eapply rtc_r. Qed.

(** The objects from [x] on can be read. *)
Definition readable (x : node) : Prop :=
  match x.2 with
  | CommitObject => exists c, commit_of m x.1 = Ok c
  | TreeObject => exists t, tree_of N m x.1 = Ok t
  | TagObject => exists o x', m !! x.1 = Some o /\ eo_Type o = TagObject /\ Tag.Decode o = Ok x' /\ is_Some (m !! Tag.Target x')
  | BlobObject => True
  | _ => False
  end.

(** Of what the receiver has, an object may be missing but not broken. *)
Definition tolerable (x : node) : Prop :=
  match x.2 with
  | CommitObject => (exists c, commit_of m x.1 = Ok c) \/ forall o, m !! x.1 = Some o -> eo_Type o <> CommitObject
  | TagObject => exists o x', m !! x.1 = Some o /\ eo_Type o = TagObject /\ Tag.Decode o = Ok x'
  | _ => True
  end.
End graph.

(** ** Trees *)

Lemma insertSorted_perm q c :
  len q < 2 ^ 63 -> exists q', insertSorted q c = Ok q' /\ q' ≡ₚ c :: q.
Proof.
  intros Hq. unfold insertSorted. destruct (Search_range (E := revlist_error) (len q) (fun i =>
    match q !! Z.to_nat i with Some x => Before (sig_When (Committer x)) (sig_When (Committer c)) | None => false end))
    as (k & -> & Hk); [unfold len in *; lia|].
  eexists. split; [reflexivity|]. rewrite <-Permutation_middle. by rewrite take_drop.
Qed.

Section correct.
Context (m : ObjectMap) (N : nat) (sh : gset ObjectID) (wants haves : list ObjectID).
Hypothesis keyed : forall h o, m !! h = Some o -> eo_Hash o = h.
Hypothesis buffered : (1 <= N)%nat.

#[local] Notation W := (reach m N sh wants).
#[local] Notation H := (reach m N sh haves).
#[local] Notation tree_of := (tree_of N m).
#[local] Notation commit_of := (commit_of m).

(** No object is used as two types, on either side. *)
Hypothesis one_type : forall h k k', W (h, k) \/ H (h, k) -> W (h, k') \/ H (h, k') -> k = k'.
(** What is reachable from the wants is there. *)
Hypothesis wants_complete : forall x, W x -> readable m N x.
Hypothesis wants_there : forall h, h ∈ wants -> is_Some (m !! h).
Hypothesis haves_tolerable : forall x, H x -> tolerable m x.

(** Fewer objects than Go can count. *)
Hypothesis small : Z.of_nat (length wants + length haves + 2 * size m + 2 * length (all_parents m)) < 2 ^ 63.

Lemma tree_of_spec h :
  match tree_of h with Ok t => tree_Hash t = h /\ h ∈ dom m | Err _ => True | _ => False end.
Proof.
  unfold TreeWalk.tree_of. destruct (m !! h) as [o|] eqn:Ho; [|done]. destruct (of_type TreeObject o); [|done].
  unfold TreeWalk.DecodeTree. pose proof (Tree.Decode_spec N o buffered) as Hd. destruct (Tree.Decode N o) as [t|e| |]; cbn; try done.
  destruct Hd as [_ Hd]. rewrite Hd. split; [by apply keyed|]. by apply elem_of_dom.
Qed.

Lemma tree_of_Hash h t : tree_of h = Ok t -> tree_Hash t = h /\ h ∈ dom m.
Proof. intros Ht. pose proof (tree_of_spec h) as Hs. by rewrite Ht in Hs. Qed.

Lemma keyed_commit_Hash h c : commit_of h = Ok c -> Commit.Hash c = h.
Proof.
  unfold Walk.commit_of. destruct (m !! h) as [o|] eqn:Ho; [|done]. destruct (of_type CommitObject o); [|done].
  intros Hd. apply Commit.Decode_origin in Hd as [_ ->]. by apply keyed.
Qed.

(** *** What is seen *)

(** [open] are the trees whose entries are being visited. *)
Record good_seen (op : gset ObjectID) (sn : seen_map) (res : list ObjectID) : Prop := {
  gs_seen : forall h k, sn !! h = Some k -> h ∈ res /\ W (h, k) \/ H (h, k);
  gs_result : forall h, h ∈ res -> exists k, sn !! h = Some k /\ W (h, k);
  gs_nodup : NoDup res;
  gs_closed : forall h t e, sn !! h = Some TreeObject -> h ∉ op -> tree_of h = Ok t -> e ∈ Entries t -> Mode e <> Submodule ->
    is_Some (sn !! Tree.Hash e);
}.

(** A step that only adds trees and blobs. *)
Record grows (sn sn' : seen_map) : Prop := {
  gr_dom : forall h, is_Some (sn !! h) -> is_Some (sn' !! h);
  gr_kinds : forall h k, sn' !! h = Some k -> k <> TreeObject -> k <> BlobObject -> sn !! h = Some k;
}.

#[local] Instance grows_preorder : PreOrder grows.
Proof.
  split.
  - intros sn. split; auto.
  - intros a b c [H1 H2] [H3 H4]. split; eauto.
Qed.

Definition unseen (sn : seen_map) : gset ObjectID := dom m ∖ dom sn.

Lemma unseen_mono sn sn' : (forall h, is_Some (sn !! h) -> is_Some (sn' !! h)) -> (size (unseen sn') <= size (unseen sn))%nat.
Proof.
  intros Hsub. apply subseteq_size. intros h. unfold unseen. rewrite !elem_of_difference, !elem_of_dom. naive_solver.
Qed.

Lemma unseen_insert sn h k : h ∈ dom m -> sn !! h = None -> (size (unseen (<[h := k]> sn)) < size (unseen sn))%nat.
Proof.
  intros Hh Hn. apply subset_size. unfold unseen. rewrite dom_insert. apply not_elem_of_dom in Hn. split; set_solver.
Qed.

Lemma grows_insert sn h k : sn !! h = None -> k = TreeObject \/ k = BlobObject -> grows sn (<[h := k]> sn).
Proof.
  intros Hn Hk. split.
  - intros h' Hh. destruct (decide (h = h')) as [<-|]; [by rewrite lookup_insert_eq|by rewrite lookup_insert_ne].
  - intros h' k' Hh' H1 H2. destruct (decide (h = h')) as [<-|]; [|by rewrite lookup_insert_ne in Hh'].
    rewrite lookup_insert_eq in Hh'. naive_solver.
Qed.

(** A new object, in the result or on the haves' side. *)
Lemma good_add op sn res h k :
  good_seen op sn res -> sn !! h = None -> W (h, k) -> (k = TreeObject -> h ∈ op) -> good_seen op (<[h := k]> sn) (res ++ [h]).
Proof.
  intros [G1 G2 G3 G4] Hn HW Hop. split.
  - intros h' k'. destruct (decide (h = h')) as [<-|Hne].
    + rewrite lookup_insert_eq. intros [= <-]. left. set_solver.
    + rewrite lookup_insert_ne by done. intros [[]|]%G1; [left|by right]. set_solver.
  - intros h'. rewrite elem_of_app, list_elem_of_singleton. intros [Hin| ->].
    + destruct (G2 h' Hin) as (k' & Hk' & HW'). exists k'. rewrite lookup_insert_ne by congruence. done.
    + exists k. by rewrite lookup_insert_eq.
  - apply NoDup_app. split; [done|]. split; [|apply NoDup_singleton]. intros x Hx ->%list_elem_of_singleton.
    destruct (G2 h Hx) as (k' & Hk' & _). congruence.
  - intros h' t e Hh' Hno Ht He Hm. assert (is_Some (sn !! Tree.Hash e)) as Hs.
    { destruct (decide (h = h')) as [<-|Hne]; [|rewrite lookup_insert_ne in Hh' by done; eauto].
      rewrite lookup_insert_eq in Hh'. injection Hh' as ->. by destruct (Hno (Hop eq_refl)). }
    destruct (decide (h = Tree.Hash e)) as [<-|]; [by rewrite lookup_insert_eq|by rewrite lookup_insert_ne].
Qed.

Lemma good_mark op sn res h k :
  good_seen op sn res -> sn !! h = None -> H (h, k) -> (k = TreeObject -> h ∈ op \/ forall t, tree_of h <> Ok t) ->
  good_seen op (<[h := k]> sn) res.
Proof.
  intros [G1 G2 G3 G4] Hn HH Hop. split.
  - intros h' k'. destruct (decide (h = h')) as [<-|Hne].
    + rewrite lookup_insert_eq. intros [= <-]. by right.
    + rewrite lookup_insert_ne by done. auto.
  - intros h' Hin. destruct (G2 h' Hin) as (k' & Hk' & HW'). exists k'. rewrite lookup_insert_ne by congruence. done.
  - done.
  - intros h' t e Hh' Hno Ht He Hm. assert (is_Some (sn !! Tree.Hash e)) as Hs.
    { destruct (decide (h = h')) as [<-|Hne]; [|rewrite lookup_insert_ne in Hh' by done; eauto].
      rewrite lookup_insert_eq in Hh'. injection Hh' as ->. destruct (Hop eq_refl) as [Hx|Hx]; [by destruct (Hno Hx)|by destruct (Hx t)]. }
    destruct (decide (h = Tree.Hash e)) as [<-|]; [by rewrite lookup_insert_eq|by rewrite lookup_insert_ne].
Qed.

Lemma good_open op op' sn res : good_seen op sn res -> op ⊆ op' -> good_seen op' sn res.
Proof. intros [G1 G2 G3 G4] Hsub. split; try done. intros h t e Hh Hno. apply (G4 h); [done|set_solver]. Qed.

(** The entries of a tree are all seen: it is no longer open. *)
Lemma good_close op sn res h t :
  good_seen ({[h]} ∪ op) sn res -> tree_of h = Ok t ->
  (forall e, e ∈ Entries t -> Mode e <> Submodule -> is_Some (sn !! Tree.Hash e)) -> good_seen op sn res.
Proof.
  intros [G1 G2 G3 G4] Ht Hall. split; try done. intros h' t' e Hh Hno Ht' He Hm.
  destruct (decide (h' = h)) as [->|]; [|apply (G4 h' t'); [done|set_solver|done..]].
  apply Hall; [|done]. congruence.
Qed.

Lemma type_cases e : entryType (Mode e) = TreeObject \/ entryType (Mode e) = BlobObject.
Proof. unfold entryType. destruct (Mode e =? Dir); auto. Qed.

(** *** Collecting a tree *)

Lemma checkSeenType_ok k : checkSeenType k k = Ok tt.
Proof. unfold checkSeenType. by rewrite bool_decide_eq_true_2. Qed.

Definition collected (op : gset ObjectID) (h : ObjectID) (sn : seen_map) (st : seen_map * list ObjectID) : Prop :=
  good_seen op st.1 st.2 /\ grows sn st.1 /\ is_Some (st.1 !! h).

Lemma collect_spec fuel : forall op h t sn res,
  tree_of h = Ok t -> W (h, TreeObject) -> good_seen op sn res -> (size (unseen sn) < fuel)%nat ->
  ensures (collectAllTreeObjects m N fuel t (sn, res)) (collected op h sn).
Proof.
  induction fuel as [|f IH]; intros op h t sn res Ht HW Hg Hf; [lia|]. cbn [collectAllTreeObjects].
  destruct (tree_of_Hash h t Ht) as [-> Hdom]. destruct (sn !! h) as [typ|] eqn:Hs.
  { assert (typ = TreeObject) as ->.
    { apply (one_type h); [|by left]. destruct (gs_seen _ _ _ Hg h typ Hs) as [[_ ?]|?]; auto. }
    rewrite checkSeenType_ok. cbn. split; [done|]. split; [done|]. cbn [fst]. by rewrite Hs. }
  assert (good_seen ({[h]} ∪ op) (<[h := TreeObject]> sn) (res ++ [h])) as Hg1.
  { apply good_add; [eapply good_open; [done|set_solver]|done|done|set_solver]. }
  pose proof (grows_insert sn h TreeObject Hs ltac:(by left)) as Hgr1.
  eapply ensures_weaken; [apply (foldM_inv _ (fun dn st => good_seen ({[h]} ∪ op) st.1 st.2 /\ grows (<[h := TreeObject]> sn) st.1
    /\ forall e, e ∈ dn -> Mode e <> Submodule -> is_Some (st.1 !! Tree.Hash e)))|].
  - split; [done|]. split; [done|]. set_solver.
  - intros dn e rest [sn1 res1] Hes (Hg2 & Hgr2 & Hd). cbn [fst snd] in *.
    assert (forall sn2, grows sn1 sn2 -> (Mode e <> Submodule -> is_Some (sn2 !! Tree.Hash e)) ->
      forall e0, e0 ∈ dn ++ [e] -> Mode e0 <> Submodule -> is_Some (sn2 !! Tree.Hash e0)) as Hnext.
    { intros sn2 Hgr Hlast e0. rewrite elem_of_app, list_elem_of_singleton. intros [Hin| ->] Hm; [|auto]. apply (gr_dom _ _ Hgr). auto. }
    destruct (Z.eqb_spec (Mode e) Submodule) as [Hm|Hm].
    { cbn. split_and!; [done|done|]. apply Hnext; [done|done]. }
    assert (W (Tree.Hash e, entryType (Mode e))) as HWe.
    { eapply reach_edge; [exact HW|]. eapply edge_entry; [done| |done]. rewrite Hes. set_solver. }
    destruct (sn1 !! Tree.Hash e) as [typ|] eqn:Hse.
    { assert (typ = entryType (Mode e)) as ->.
      { apply (one_type (Tree.Hash e)); [|by left]. destruct (gs_seen _ _ _ Hg2 _ _ Hse) as [[_ ?]|?]; auto. }
      rewrite checkSeenType_ok. cbn. split_and!; [done|done|]. apply Hnext; [done|]. intros _. cbn [fst]. by rewrite Hse. }
    case_bool_decide as Hty.
    + rewrite Hty in HWe. destruct (wants_complete _ HWe) as [sub Hsub]. cbn in Hsub. unfold GetTree. rewrite Hsub. cbn [map_err mbind outcome_bind].
      eapply ensures_weaken; [apply (IH ({[h]} ∪ op) (Tree.Hash e)); [done|done|done|]|].
      * pose proof (unseen_insert sn h TreeObject Hdom Hs). pose proof (unseen_mono _ _ (gr_dom _ _ Hgr2)). lia.
      * intros [sn2 res2] (Hg3 & Hgr3 & Hs3). cbn [fst snd] in *. split_and!; [done|by etrans|]. by apply Hnext.
    + assert (entryType (Mode e) = BlobObject) as Hb by (destruct (type_cases e); done). rewrite Hb in HWe. cbn.
      assert (grows sn1 (<[Tree.Hash e := BlobObject]> sn1)) as Hgr3 by (apply grows_insert; auto).
      split_and!; [by apply good_add|by etrans|]. apply Hnext; [done|]. intros _. by rewrite lookup_insert_eq.
  - intros [sn1 res1] (Hg2 & Hgr2 & Hd). cbn [fst snd] in *. split; [by eapply good_close|]. split; [by etrans|].
    apply (gr_dom _ _ Hgr2). by rewrite lookup_insert_eq.
Qed.

(** *** Marking a tree *)

Definition marked (op : gset ObjectID) (res : list ObjectID) (h : ObjectID) (sn sn' : seen_map) : Prop :=
  good_seen op sn' res /\ grows sn sn' /\ is_Some (sn' !! h).

Lemma mark_spec fuel : forall op h t sn res,
  tree_of h = Ok t -> H (h, TreeObject) -> good_seen op sn res -> (size (unseen sn) < fuel)%nat ->
  ensures (markTreeSeen m N fuel t sn) (marked op res h sn).
Proof.
  induction fuel as [|f IH]; intros op h t sn res Ht HH Hg Hf; [lia|]. cbn [markTreeSeen].
  destruct (tree_of_Hash h t Ht) as [-> Hdom]. destruct (sn !! h) as [typ|] eqn:Hs.
  { cbn. split; [done|]. split; [done|]. by rewrite Hs. }
  assert (good_seen ({[h]} ∪ op) (<[h := TreeObject]> sn) res) as Hg1.
  { apply good_mark; [eapply good_open; [done|set_solver]|done|done|set_solver]. }
  pose proof (grows_insert sn h TreeObject Hs ltac:(by left)) as Hgr1.
  eapply ensures_weaken; [apply (foldM_inv _ (fun dn sn' => good_seen ({[h]} ∪ op) sn' res /\ grows (<[h := TreeObject]> sn) sn'
    /\ forall e, e ∈ dn -> Mode e <> Submodule -> is_Some (sn' !! Tree.Hash e)))|].
  - split; [done|]. split; [done|]. set_solver.
  - intros dn e rest sn1 Hes (Hg2 & Hgr2 & Hd).
    assert (forall sn2, grows sn1 sn2 -> (Mode e <> Submodule -> is_Some (sn2 !! Tree.Hash e)) ->
      forall e0, e0 ∈ dn ++ [e] -> Mode e0 <> Submodule -> is_Some (sn2 !! Tree.Hash e0)) as Hnext.
    { intros sn2 Hgr Hlast e0. rewrite elem_of_app, list_elem_of_singleton. intros [Hin| ->] Hm; [|auto]. apply (gr_dom _ _ Hgr). auto. }
    destruct (Z.eqb_spec (Mode e) Submodule) as [Hm|Hm].
    { cbn. split_and!; [done|done|]. apply Hnext; [done|done]. }
    assert (H (Tree.Hash e, entryType (Mode e))) as HHe.
    { eapply reach_edge; [exact HH|]. eapply edge_entry; [done| |done]. rewrite Hes. set_solver. }
    destruct (sn1 !! Tree.Hash e) as [typ|] eqn:Hse.
    { cbn. split_and!; [done|done|]. apply Hnext; [done|]. intros _. by rewrite Hse. }
    assert (forall k, k = TreeObject \/ k = BlobObject -> H (Tree.Hash e, k) -> (k = TreeObject -> forall t, tree_of (Tree.Hash e) <> Ok t) ->
      good_seen ({[h]} ∪ op) (<[Tree.Hash e := k]> sn1) res /\ grows (<[h := TreeObject]> sn) (<[Tree.Hash e := k]> sn1)
      /\ forall e0, e0 ∈ dn ++ [e] -> Mode e0 <> Submodule -> is_Some (<[Tree.Hash e := k]> sn1 !! Tree.Hash e0)) as Hadd.
    { intros k Hk HHk Hun. assert (grows sn1 (<[Tree.Hash e := k]> sn1)) as Hgr3 by (by apply grows_insert).
      split_and!; [apply good_mark; auto|by etrans|]. apply Hnext; [done|]. intros _. by rewrite lookup_insert_eq. }
    case_bool_decide as Hty.
    + rewrite Hty in HHe. unfold GetTree. pose proof (tree_of_spec (Tree.Hash e)) as Hspec.
      destruct (tree_of (Tree.Hash e)) as [sub|err| |] eqn:Hsub; cbn [map_err]; try done.
      * eapply ensures_weaken; [apply (IH ({[h]} ∪ op) (Tree.Hash e)); [done|done|done|]|].
        -- pose proof (unseen_insert sn h TreeObject Hdom Hs). pose proof (unseen_mono _ _ (gr_dom _ _ Hgr2)). lia.
        -- intros sn2 (Hg3 & Hgr3 & Hs3). split_and!; [done|by etrans|]. by apply Hnext.
      * apply Hadd; [by left|done|]. intros _ t'. congruence.
    + assert (entryType (Mode e) = BlobObject) as Hb by (destruct (type_cases e); done). rewrite Hb in HHe. by apply Hadd; [right|..].
  - intros sn1 (Hg2 & Hgr2 & Hd). split; [by eapply good_close|]. split; [by etrans|].
    apply (gr_dom _ _ Hgr2). by rewrite lookup_insert_eq.
Qed.

Lemma unseen_fuel sn : (size (unseen sn) < depth_fuel m)%nat.
Proof. unfold depth_fuel. rewrite <-(size_dom m). apply Nat.lt_succ_r, subseteq_size. unfold unseen. set_solver. Qed.

(** *** Seeds *)

(** A loop over a list that grows, with an invariant and a measure. *)
Lemma seed_loop_spec (I : list ObjectID -> objectWalk -> Prop) (mu : objectWalk -> nat) seed :
  (forall h hs w, I (h :: hs) w -> ensures (seed h w) (fun r => I (hs ++ r.1) r.2 /\ (length r.1 + mu r.2 <= mu w)%nat)) ->
  forall fuel hs w, I hs w -> (length hs + mu w <= fuel)%nat -> ensures (seed_loop seed fuel hs w) (I []).
Proof.
  intros Hstep. induction fuel as [|f IH]; intros [|h hs] w HI Hf; cbn [seed_loop]; try done; [cbn in Hf; lia|].
  eapply ensures_bind; [by apply Hstep|]. intros [more w'] [HI' Hmu]. cbn [fst snd] in *. apply IH; [done|].
  rewrite length_app. cbn in Hf. lia.
Qed.

Definition have_commit (c : Commit) : Prop := commit_of (Commit.Hash c) = Ok c /\ H (Commit.Hash c, CommitObject).
Definition want_commit (c : Commit) : Prop := commit_of (Commit.Hash c) = Ok c /\ W (Commit.Hash c, CommitObject).
Definition no_commits (sn : seen_map) : Prop := forall h, sn !! h <> Some CommitObject.

Lemma no_commits_grows sn sn' : grows sn sn' -> no_commits sn -> no_commits sn'.
Proof. intros Hg Hn h Hh. apply (Hn h). by apply (gr_kinds _ _ Hg). Qed.

Lemma no_commits_insert sn h k : k <> CommitObject -> no_commits sn -> no_commits (<[h := k]> sn).
Proof.
  intros Hk Hn h'. destruct (decide (h = h')) as [<-|]; [rewrite lookup_insert_eq; congruence|rewrite lookup_insert_ne by done; apply Hn].
Qed.

Lemma commit_of_type h o : m !! h = Some o -> eo_Type o = CommitObject -> commit_of h = Commit.Decode o.
Proof. intros Ho Ht. unfold Walk.commit_of. rewrite Ho. cbn. by rewrite bool_decide_eq_true_2. Qed.

Record haves_inv (hs : list ObjectID) (w : objectWalk) : Prop := {
  hi_shallows : shallows w = sh;
  hi_fresh : wantsQueue w = [] /\ wantsSeen w = ∅ /\ result w = [];
  hi_good : good_seen ∅ (seen w) (result w);
  hi_queue : Forall have_commit (havesQueue w);
  hi_commits : no_commits (seen w);
  hi_pending : forall h o, h ∈ hs -> m !! h = Some o -> H (h, eo_Type o);
  hi_small : (length (havesQueue w) + length hs + size (unseen (seen w)) <= length haves + size m)%nat;
}.

(** What the objects of one have leave to show. *)
Lemma haves_next h hs w sn :
  haves_inv (h :: hs) w -> good_seen ∅ sn (result w) -> no_commits sn -> (size (unseen sn) <= size (unseen (seen w)))%nat ->
  haves_inv (hs ++ []) (set_seen w (sn, result w)) /\ (length ([] : list ObjectID) + size (unseen sn) <= size (unseen (seen w)))%nat.
Proof.
  intros [H1 H2 H3 H4 H5 H6 H7] Hg Hn Hu. split; [|cbn; lia]. rewrite app_nil_r. split; cbn; try done.
  - intros h' o Hh'. apply H6. by right.
  - cbn in H7. lia.
Qed.

Lemma haves_skip h hs w :
  haves_inv (h :: hs) w -> haves_inv (hs ++ []) w /\ (length ([] : list ObjectID) + size (unseen (seen w)) <= size (unseen (seen w)))%nat.
Proof.
  intros Hi. pose proof (haves_next h hs w (seen w) Hi (hi_good _ _ Hi) (hi_commits _ _ Hi) ltac:(done)) as [H1 H2].
  split; [|done]. by destruct w.
Qed.

Lemma seedHave_spec h hs w :
  haves_inv (h :: hs) w ->
  ensures (seedHave m N h w) (fun r => haves_inv (hs ++ r.1) r.2 /\ (length r.1 + size (unseen (seen r.2)) <= size (unseen (seen w)))%nat).
Proof.
  intros Hi. unfold seedHave. destruct (decide (h ∈ havesSeen w)); [by eapply haves_skip|].
  destruct (decide (is_Some (seen w !! h))) as [|Hn]; [by eapply haves_skip|]. apply eq_None_not_Some in Hn.
  unfold get_any. destruct (m !! h) as [o|] eqn:Ho; cbn [mret outcome_ret]; [|by eapply haves_skip].
  assert (H (h, eo_Type o)) as HH by (eapply hi_pending; [done|by left|done]).
  assert (h ∈ dom m) as Hdom by (by apply elem_of_dom).
  assert (forall k, k <> CommitObject -> k <> TreeObject -> H (h, k) -> good_seen ∅ (<[h := k]> (seen w)) (result w)
    /\ no_commits (<[h := k]> (seen w)) /\ (size (unseen (<[h := k]> (seen w))) < size (unseen (seen w)))%nat) as Hadd.
  { intros k Hk Hk' HHk. split_and!; [apply good_mark; [apply Hi|done|done|done]|by apply no_commits_insert; [|apply Hi]|by apply unseen_insert]. }
  destruct (eo_Type o) eqn:Hty; try (by eapply haves_skip).
  - destruct (haves_tolerable _ HH) as [[c Hc]|Hno]; [|by destruct (Hno o Ho)]. cbn in Hc.
    pose proof (keyed_commit_Hash h c Hc) as Hhash. rewrite <-(commit_of_type h o Ho Hty), Hc. cbn [map_err mbind outcome_bind].
    pose proof (hi_small _ _ Hi) as Hsm. cbn in Hsm.
    destruct (insertSorted_perm (havesQueue w) c) as (q & -> & Hq); [unfold len; lia|]. cbn [mbind outcome_bind].
    assert (haves_inv (hs ++ []) (set_haves w q ({[h]} ∪ havesSeen w))) as Hi'.
    { destruct Hi as [H1 H2 H3 H4 H5 H6 H7]. rewrite app_nil_r. split; cbn; try done.
      - rewrite Hq. apply Forall_cons. split; [|done]. split; by rewrite Hhash.
      - intros h' o' Hh'. apply H6. by right.
      - rewrite Hq. cbn in *. lia. }
    assert (haves_inv (h :: hs) (set_haves w (havesQueue w) ({[h]} ∪ havesSeen w))) as Hi0 by (destruct Hi; by split).
    unfold GetTree. pose proof (tree_of_spec (TreeHash c)) as Hts. destruct (tree_of (TreeHash c)) as [t|e| |] eqn:Ht; try done;
      cbn [map_err].
    eapply ensures_bind; [apply (mark_spec _ ∅ (TreeHash c) t (seen w) (result w)); [done| |apply Hi|apply unseen_fuel]|].
    * eapply reach_edge; [exact HH|]. by apply edge_tree.
    * intros sn (Hg & Hgr & _). cbn.
        pose proof (unseen_mono _ _ (gr_dom _ _ Hgr)) as Hu. split; [|cbn; lia].
        destruct Hi' as [H1 H2 H3 H4 H5 H6 H7]. split; cbn in *; try done.
        -- by eapply no_commits_grows.
        -- lia.
  - unfold GetTree. pose proof (tree_of_spec h) as Hts. destruct (tree_of h) as [t|e| |] eqn:Ht; try done; cbn [map_err];
      [|by eapply haves_skip].
    eapply ensures_bind; [apply (mark_spec _ ∅ h t (seen w) (result w)); [done|done|apply Hi|apply unseen_fuel]|].
    intros sn (Hg & Hgr & _). apply (haves_next h); [done|done|eapply no_commits_grows; [done|apply Hi]|].
    by apply unseen_mono, gr_dom.
  - destruct (Hadd BlobObject) as (Hg & Hn' & Hu); [done..|]. apply (haves_next h hs w _ Hi Hg Hn'). lia.
  - destruct (haves_tolerable _ HH) as (o' & x & Ho' & _ & Hx). cbn in Ho'. rewrite Ho in Ho'. injection Ho' as <-.
    rewrite Hx. cbn [map_err mbind outcome_bind mret outcome_ret].
    pose proof (proj2 (Tag.tag_Decode_origin _ _ Hx)) as Hhash. rewrite (keyed h o Ho) in Hhash. rewrite Hhash.
    destruct (Hadd TagObject) as (Hg & Hn' & Hu); [done..|]. cbn. split; [|cbn; lia].
    destruct (haves_next h hs w (<[h := TagObject]> (seen w)) Hi Hg Hn' ltac:(lia)) as [[H1 H2 H3 H4 H5 H6 H7] _].
    split; cbn in *; try done.
    + intros h' o'. rewrite app_nil_r in H6. rewrite elem_of_app, list_elem_of_singleton. intros [Hin| ->] Ho'; [by apply H6|].
      eapply reach_edge; [exact HH|]. by eapply edge_tag.
    + pose proof (hi_small _ _ Hi) as Hsm. cbn in Hsm. rewrite length_app. cbn. lia.
Qed.

Lemma unseen_le sn : (size (unseen sn) <= size m)%nat.
Proof. pose proof (unseen_fuel sn). unfold depth_fuel in *. lia. Qed.

Lemma seedHaves_spec shallow :
  sh = list_to_set shallow -> ensures (seedHaves m N haves (newObjectWalk shallow)) (haves_inv []).
Proof.
  intros Hsh. unfold seedHaves. apply (seed_loop_spec haves_inv (fun w => size (unseen (seen w)))).
  - apply seedHave_spec.
  - split; cbn; try done.
    + split; [done|by intros h []%elem_of_nil|apply NoDup_nil_2|done].
    + intros h o. apply reach_start.
    + pose proof (unseen_le ∅). lia.
  - cbn. unfold seed_fuel. pose proof (unseen_le ∅). lia.
Qed.

Definition settled (w : objectWalk) (h : ObjectID) : Prop := h ∈ wantsSeen w \/ is_Some (seen w !! h).

(** The targets of the tags that are sent, and the wants, are to come or
    settled. *)
Definition tags_followed (hs : list ObjectID) (w : objectWalk) : Prop := forall h o x,
  seen w !! h = Some TagObject -> m !! h = Some o -> Tag.Decode o = Ok x ->
  H (h, TagObject) \/ Tag.Target x ∈ hs \/ settled w (Tag.Target x).

Record wants_inv (hs : list ObjectID) (w : objectWalk) : Prop := {
  wi_shallows : shallows w = sh;
  wi_good : good_seen ∅ (seen w) (result w);
  wi_haves : Forall have_commit (havesQueue w);
  wi_queue : Forall want_commit (wantsQueue w);
  wi_nodup : NoDup (Commit.Hash <$> wantsQueue w);
  wi_seen : forall h, h ∈ wantsSeen w <-> h ∈ Commit.Hash <$> wantsQueue w;
  wi_commits : no_commits (seen w);
  wi_pending : forall h, h ∈ hs -> exists o, m !! h = Some o /\ W (h, eo_Type o);
  wi_tags : tags_followed hs w;
  wi_wants : forall h, h ∈ wants -> h ∈ hs \/ settled w h;
  wi_small : (length (wantsQueue w) + length hs + size (unseen (seen w)) <= length wants + size m)%nat;
  wi_haves_small : (length (havesQueue w) <= length haves + size m)%nat;
}.

(** One want is settled by what its object adds. *)
Lemma wants_next h hs more w sn res :
  wants_inv (h :: hs) w -> good_seen ∅ sn res -> no_commits sn -> (forall h, is_Some (seen w !! h) -> is_Some (sn !! h)) ->
  (is_Some (sn !! h) \/ h ∈ wantsSeen w) ->
  (forall h', h' ∈ more -> exists o, m !! h' = Some o /\ W (h', eo_Type o)) ->
  (length more + size (unseen sn) <= size (unseen (seen w)))%nat ->
  (forall h' o x, sn !! h' = Some TagObject -> m !! h' = Some o -> Tag.Decode o = Ok x ->
     seen w !! h' = Some TagObject \/ Tag.Target x ∈ more) ->
  wants_inv (hs ++ more) (set_seen w (sn, res)) /\ (length more + size (unseen sn) <= size (unseen (seen w)))%nat.
Proof.
  intros Hi Hg Hn Hsub Hh Hmore Hu Htags. split; [|done]. destruct Hi as [H1 H2 H3 H4 H5 H6 H7 H8 H9 H10 H11 H12].
  assert (forall h', settled w h' -> settled (set_seen w (sn, res)) h') as Hset by (intros h' [|]; [by left|right; cbn; auto]).
  assert (settled (set_seen w (sn, res)) h) as Hs by (destruct Hh; [by right|by left]).
  split; cbn; try done.
  - intros h' [Hin|Hin]%elem_of_app; [|by apply Hmore]. apply H8. by right.
  - intros h' o x Hk Ho Hx. cbn [seen result set_seen fst snd] in *. rewrite elem_of_app.
    destruct (Htags h' o x Hk Ho Hx) as [Hk'|]; [|auto].
    destruct (H9 h' o x Hk' Ho Hx) as [|[[-> |]%elem_of_cons|]]; auto.
  - intros h' Hin. rewrite elem_of_app. destruct (H10 h' Hin) as [[-> |]%elem_of_cons|]; auto.
  - rewrite length_app. cbn in H11. lia.
Qed.

Lemma wants_skip h hs w :
  wants_inv (h :: hs) w -> settled w h ->
  wants_inv (hs ++ []) w /\ (length ([] : list ObjectID) + size (unseen (seen w)) <= size (unseen (seen w)))%nat.
Proof.
  intros Hi Hs. pose proof (wants_next h hs [] w (seen w) (result w) Hi (wi_good _ _ Hi) (wi_commits _ _ Hi)) as Hnext.
  destruct Hnext as [H1 H2]; [done|destruct Hs; auto|by intros ? ?%elem_of_nil|done|auto|]. split; [|done]. by destruct w.
Qed.

Lemma seedWant_spec h hs w :
  wants_inv (h :: hs) w ->
  ensures (seedWant m N h w) (fun r => wants_inv (hs ++ r.1) r.2 /\ (length r.1 + size (unseen (seen r.2)) <= size (unseen (seen w)))%nat).
Proof.
  intros Hi. unfold seedWant. destruct (decide (h ∈ wantsSeen w)); [eapply wants_skip; [done|by left]|].
  destruct (decide (is_Some (seen w !! h))) as [|Hn]; [eapply wants_skip; [done|by right]|]. apply eq_None_not_Some in Hn.
  destruct (wi_pending _ _ Hi h ltac:(by left)) as (o & Ho & HW). unfold get_any. rewrite Ho. cbn [map_err mret outcome_ret mbind outcome_bind].
  assert (h ∈ dom m) as Hdom by (by apply elem_of_dom).
  pose proof (wants_complete _ HW) as Hread. cbn [readable snd fst] in Hread. unfold readable in Hread. cbn [snd fst] in Hread.
  assert (forall k more, k <> CommitObject -> k <> TreeObject -> W (h, k) ->
    (forall h', h' ∈ more -> exists o, m !! h' = Some o /\ W (h', eo_Type o)) -> (length more <= 1)%nat ->
    (forall x, k = TagObject -> Tag.Decode o = Ok x -> Tag.Target x ∈ more) ->
    wants_inv (hs ++ more) (add_seen h k w) /\ (length more + size (unseen (seen (add_seen h k w))) <= size (unseen (seen w)))%nat) as Hadd.
  { intros k more Hk Hk' HWk Hmore Hlen Htag. pose proof (unseen_insert (seen w) h k Hdom Hn) as Hu.
    change (seen (add_seen h k w)) with (<[h := k]> (seen w)). apply (wants_next h hs more w).
    - done.
    - apply good_add; [apply Hi|done|done|done].
    - apply no_commits_insert; [done|apply Hi].
    - intros h' Hh'. rewrite lookup_insert. by case_decide.
    - left. by rewrite lookup_insert_eq.
    - done.
    - lia.
    - intros h' o' x Hl Ho' Hx. destruct (decide (h = h')) as [<-|Hne].
      + right. rewrite lookup_insert_eq in Hl. injection Hl as ->. rewrite Ho in Ho'. injection Ho' as <-. by apply Htag.
      + left. by rewrite lookup_insert_ne in Hl. }
  destruct (eo_Type o) eqn:Hty; try done.
  - destruct Hread as [c Hc]. pose proof (keyed_commit_Hash h c Hc) as Hhash. rewrite <-(commit_of_type h o Ho Hty), Hc. cbn [map_err mbind outcome_bind].
    pose proof (wi_small _ _ Hi) as Hsm. cbn in Hsm.
    destruct (insertSorted_perm (wantsQueue w) c) as (q & -> & Hq); [unfold len; lia|]. cbn [mbind outcome_bind ensures mret outcome_ret fst snd].
    split; [|cbn; lia]. destruct Hi as [H1 H2 H3 H4 H5 H6 H7 H8 H9 H10 H11 H12].
    assert (forall h', settled w h' -> settled (set_wants w q ({[h]} ∪ wantsSeen w)) h') as Hset by (intros h' [|]; [left; cbn; set_solver|by right]).
    assert (settled (set_wants w q ({[h]} ∪ wantsSeen w)) h) as Hs by (left; cbn; set_solver).
    rewrite app_nil_r. split; cbn; try done.
    + rewrite Hq. apply Forall_cons. split; [|done]. split; by rewrite Hhash.
    + rewrite Hq. cbn. rewrite Hhash. apply NoDup_cons. split; [|done]. by rewrite <-H6.
    + intros h'. rewrite Hq. cbn. rewrite Hhash, elem_of_union, elem_of_singleton, elem_of_cons, H6. done.
    + intros h' Hin. apply H8. by right.
    + intros h' o' x Hk Ho' Hx. destruct (H9 h' o' x Hk Ho' Hx) as [|[[-> |]%elem_of_cons|]]; auto.
    + intros h' Hin. destruct (H10 h' Hin) as [[-> |]%elem_of_cons|]; auto.
    + rewrite Hq. cbn in *. lia.
  - destruct Hread as [t Ht]. unfold GetTree. rewrite Ht. cbn [map_err mbind outcome_bind].
    eapply ensures_bind; [apply (collect_spec _ ∅ h t (seen w) (result w)); [done|done|apply Hi|apply unseen_fuel]|].
    intros [sn res] (Hg & Hgr & Hs). cbn [fst snd] in *. apply (wants_next h hs [] w); try done.
    + eapply no_commits_grows; [done|apply Hi].
    + apply gr_dom, Hgr.
    + by left.
    + by intros ? ?%elem_of_nil.
    + apply unseen_mono, gr_dom, Hgr.
    + intros h' o' x Hk Ho' Hx. left. by apply (gr_kinds _ _ Hgr) in Hk.
  - apply (Hadd BlobObject []); try done; [by intros ? ?%elem_of_nil|cbn; lia].
  - destruct Hread as (o' & x & Ho' & _ & Hx & o2 & Ho2). rewrite Ho in Ho'. injection Ho' as <-.
    rewrite Hx. cbn [map_err mbind outcome_bind mret outcome_ret].
    pose proof (proj2 (Tag.tag_Decode_origin _ _ Hx)) as Hhash. rewrite (keyed h o Ho) in Hhash. rewrite Hhash.
    apply (Hadd TagObject [Tag.Target x]); try done.
    + intros h' ->%list_elem_of_singleton. exists o2. split; [done|]. eapply reach_edge; [exact HW|]. by eapply edge_tag.
    + intros x' _ Hx'. rewrite Hx in Hx'. injection Hx' as <-. by left.
Qed.

Lemma seedWants_spec w : haves_inv [] w -> ensures (seedWants m N wants w) (wants_inv []).
Proof.
  intros [H1 (H2a & H2b & H2c) H3 H4 H5 H6 H7]. unfold seedWants.
  apply (seed_loop_spec wants_inv (fun w => size (unseen (seen w)))).
  - apply seedWant_spec.
  - split; try done.
    + by rewrite H2a.
    + rewrite H2a. apply NoDup_nil_2.
    + intros h. rewrite H2a, H2b. set_solver.
    + intros h Hh. destruct (wants_there h Hh) as [o Ho]. exists o. split; [done|]. by apply reach_start.
    + intros h o x Hk _ _. destruct (gs_seen _ _ _ H3 h _ Hk) as [[Hin _]|]; [|by left]. rewrite H2c in Hin. by apply elem_of_nil in Hin.
    + intros h Hh. by left.
    + rewrite H2a. pose proof (unseen_le (seen w)). cbn. lia.
    + cbn in H7. lia.
  - unfold seed_fuel. pose proof (unseen_le (seen w)). lia.
Qed.

(** *** When everything is covered *)

Record covers (w : objectWalk) : Prop := {
  cv_good : good_seen ∅ (seen w) (result w);
  cv_commits : forall h c, seen w !! h = Some CommitObject -> commit_of h = Ok c -> H (h, CommitObject) \/
    is_Some (seen w !! TreeHash c) /\ (h ∉ sh -> forall p, p ∈ ParentHashes c -> H (p, CommitObject) \/ is_Some (seen w !! p));
  cv_tags : forall h o x o', seen w !! h = Some TagObject -> m !! h = Some o -> Tag.Decode o = Ok x -> m !! Tag.Target x = Some o' ->
    H (h, TagObject) \/ H (Tag.Target x, eo_Type o') \/ is_Some (seen w !! Tag.Target x);
  cv_wants : forall h o, h ∈ wants -> m !! h = Some o -> H (h, eo_Type o) \/ is_Some (seen w !! h);
}.

Lemma covers_all w x : covers w -> W x -> H x \/ is_Some (seen w !! x.1).
Proof.
  intros [C1 C2 C3 C4] (s & Hs & Hr). revert x Hr. apply (rtc_ind_r (fun y => H y \/ is_Some (seen w !! y.1))).
  - destruct Hs as (Hin & o & Ho & Hty). destruct s as [h k]. cbn in *. subst k. by apply C4.
  - intros y z Hsy Hyz IH. assert (W y) as HWy by (by exists s). destruct IH as [HH|Hseen]; [left; by eapply reach_edge|].
    assert (H y \/ seen w !! y.1 = Some y.2) as [HH|Hk].
    { destruct Hseen as [k Hk]. destruct y as [h k']. cbn in *. destruct (gs_seen _ _ _ C1 h k Hk) as [[_ HWk]|HHk].
      - right. rewrite Hk. f_equal. eapply one_type; by left.
      - left. replace k' with k; [done|]. eapply one_type; [by right|by left]. }
    + left. by eapply reach_edge.
    + assert (forall P, H y \/ P -> H z \/ P) as Hy by (intros P [|]; [left; by eapply reach_edge|by right]).
      destruct Hyz as [h c p Hc Hsh Hp|h c Hc|h t e Ht He Hm|h o x' o' Ho Hty Hx Ho']; cbn in *.
      * destruct (Hy _ (C2 h c Hk Hc)) as [|[_ Hps]]; [by left|auto].
      * destruct (Hy _ (C2 h c Hk Hc)) as [|[Ht _]]; auto.
      * right. by apply (gs_closed _ _ _ C1 h t e).
      * destruct (Hy _ (C3 h o x' o' Hk Ho Hx Ho')) as [|[|]]; auto.
Qed.

(** The answer, once everything is covered. *)
Definition answer (res : list ObjectID) : Prop :=
  NoDup res
  /\ (forall x, W x -> x.1 ∈ res \/ H x)
  /\ (forall h, h ∈ res -> exists k, W (h, k)).

Lemma covers_answer w : covers w -> answer (result w).
Proof.
  intros Hc. pose proof (cv_good _ Hc) as Hg. split_and!.
  - apply Hg.
  - intros [h k] HW. destruct (covers_all w (h, k) Hc HW) as [|[k' Hk]]; [by right|]. cbn in *.
    destruct (gs_seen _ _ _ Hg h k' Hk) as [[]|HH]; [by left|right]. replace k with k'; [done|].
    eapply one_type; [by right|by left].
  - intros h Hin. destruct (gs_result _ _ _ Hg h Hin) as (k & _ & HW). by exists k.
Qed.

(** *** Collecting a commit *)

Lemma collectCommit_spec lc w :
  want_commit lc -> good_seen ∅ (seen w) (result w) ->
  ensures (collectCommit m N lc w) (fun w' => exists st, w' = set_seen w st /\ good_seen ∅ st.1 st.2
    /\ (forall h, is_Some (seen w !! h) -> is_Some (st.1 !! h))
    /\ is_Some (st.1 !! Commit.Hash lc) /\ is_Some (st.1 !! TreeHash lc)
    /\ (forall h k, st.1 !! h = Some k -> k <> TreeObject -> k <> BlobObject -> seen w !! h = Some k \/ h = Commit.Hash lc /\ k = CommitObject)).
Proof.
  intros [Hc HW] Hg. unfold collectCommit.
  set (w1 := if decide (is_Some (seen w !! Commit.Hash lc)) then w else add_seen (Commit.Hash lc) CommitObject w).
  assert (exists st, w1 = set_seen w st /\ good_seen ∅ st.1 st.2 /\ (forall h, is_Some (seen w !! h) -> is_Some (st.1 !! h))
    /\ is_Some (st.1 !! Commit.Hash lc)
    /\ (forall h k, st.1 !! h = Some k -> seen w !! h = Some k \/ h = Commit.Hash lc /\ k = CommitObject))
    as ([sn res] & Hw1 & Hg1 & Hsub & Hs & Hk).
  { unfold w1. destruct (decide _) as [Hs|Hn].
    - exists (seen w, result w). split; [by destruct w|]. cbn. split_and!; auto.
    - apply eq_None_not_Some in Hn. exists (<[Commit.Hash lc := CommitObject]> (seen w), result w ++ [Commit.Hash lc]). cbn.
      split; [done|]. split_and!; [by apply good_add|..].
      + intros h Hh. rewrite lookup_insert. by case_decide.
      + by rewrite lookup_insert_eq.
      + intros h k. rewrite lookup_insert. case_decide as Heq; [|auto]. intros [= <-]. auto. }
  cbn [fst snd] in *. clearbody w1. subst w1. unfold GetTree.
  assert (W (TreeHash lc, TreeObject)) as HWt by (eapply reach_edge; [exact HW|by apply edge_tree]).
  destruct (wants_complete _ HWt) as [t Ht]. cbn in Ht. rewrite Ht. cbn [map_err mbind outcome_bind seen result set_seen fst snd].
  eapply ensures_bind; [apply (collect_spec _ ∅ (TreeHash lc) t sn res); [done|done|done|apply unseen_fuel]|].
  intros [sn' res'] (Hg' & Hgr & Hst). cbn [fst snd] in *. exists (sn', res'). split; [done|]. cbn [fst snd].
  split_and!; [done|..].
  - intros h Hh. apply (gr_dom _ _ Hgr). auto.
  - by apply (gr_dom _ _ Hgr).
  - done.
  - intros h k Hk' H1 H2. apply Hk. by apply (gr_kinds _ _ Hgr).
Qed.

(** *** Without haves *)

Definition unseen_parents (ws : gset ObjectID) : list ObjectID := filter (fun h => h ∉ ws) (all_parents m).

Lemma filter_sub_length {A} (P Q : A -> Prop) `{!forall x, Decision (P x)} `{!forall x, Decision (Q x)} (l : list A) :
  (forall x, P x -> Q x) -> (length (filter P l) <= length (filter Q l))%nat.
Proof.
  intros Hsub. induction l as [|x l IH]; [done|]. rewrite !filter_cons.
  destruct (decide (P x)), (decide (Q x)); cbn; [lia| |lia|lia]. naive_solver.
Qed.

Lemma filter_sub_strict {A} (P Q : A -> Prop) `{!forall x, Decision (P x)} `{!forall x, Decision (Q x)} (l : list A) x :
  (forall x, P x -> Q x) -> x ∈ l -> Q x -> ~ P x -> (length (filter P l) < length (filter Q l))%nat.
Proof.
  intros Hsub Hx HQ HP. apply list_elem_of_split in Hx as (l1 & l2 & ->). rewrite !filter_app, !length_app, !filter_cons.
  rewrite decide_False, decide_True by done. cbn.
  pose proof (filter_sub_length P Q l1 Hsub). pose proof (filter_sub_length P Q l2 Hsub). lia.
Qed.

Lemma parent_listed h c p : commit_of h = Ok c -> p ∈ ParentHashes c -> p ∈ all_parents m.
Proof.
  intros Hc Hp. unfold all_parents. apply list_elem_of_bind. assert (is_Some (m !! h)) as [o Ho].
  { revert Hc. unfold Walk.commit_of. by destruct (m !! h). }
  exists (h, o). split; [by rewrite Hc|]. by apply elem_of_map_to_list.
Qed.

Record full_inv (w : objectWalk) : Prop := {
  fi_shallows : shallows w = sh;
  fi_good : good_seen ∅ (seen w) (result w);
  fi_queue : Forall want_commit (wantsQueue w);
  fi_seen : forall h, h ∈ wantsSeen w -> h ∈ Commit.Hash <$> wantsQueue w \/ is_Some (seen w !! h);
  fi_commits : forall h c, seen w !! h = Some CommitObject -> commit_of h = Ok c ->
    is_Some (seen w !! TreeHash c) /\ (h ∉ sh -> forall p, p ∈ ParentHashes c -> p ∈ wantsSeen w);
  fi_tags : tags_followed [] w;
  fi_wants : forall h, h ∈ wants -> settled w h;
  fi_small : Z.of_nat (length (wantsQueue w) + length (unseen_parents (wantsSeen w))) < 2 ^ 63;
}.

(** The parents of a commit that was collected. *)
Definition push_parent (ph : ObjectID) (w : objectWalk) : outcome revlist_error objectWalk :=
  if decide (ph ∈ wantsSeen w) then mret w
  else
    pc ← GetCommit m ph;
    q ← insertSorted (wantsQueue w) pc;
    mret (set_wants w q ({[ph]} ∪ wantsSeen w)).

Lemma push_parents_spec lc w :
  want_commit lc -> Commit.Hash lc ∉ sh -> Forall want_commit (wantsQueue w) ->
  (forall h, h ∈ wantsSeen w -> h ∈ Commit.Hash <$> wantsQueue w \/ is_Some (seen w !! h)) ->
  Z.of_nat (length (wantsQueue w) + length (unseen_parents (wantsSeen w))) < 2 ^ 63 ->
  ensures (foldM push_parent (ParentHashes lc) w) (fun w' => exists q ws, w' = set_wants w q ws
    /\ Forall want_commit q /\ (forall h, h ∈ ws -> h ∈ Commit.Hash <$> q \/ is_Some (seen w !! h))
    /\ wantsSeen w ⊆ ws /\ (forall p, p ∈ ParentHashes lc -> p ∈ ws)
    /\ (length q + length (unseen_parents ws) <= length (wantsQueue w) + length (unseen_parents (wantsSeen w)))%nat).
Proof.
  intros [Hc HW] Hsh Hq Hs Hsm. eapply ensures_weaken; [apply (foldM_inv _ (fun dn w' => exists q ws, w' = set_wants w q ws
    /\ Forall want_commit q /\ (forall h, h ∈ ws -> h ∈ Commit.Hash <$> q \/ is_Some (seen w !! h))
    /\ wantsSeen w ⊆ ws /\ (forall p, p ∈ dn -> p ∈ ws)
    /\ (length q + length (unseen_parents ws) <= length (wantsQueue w) + length (unseen_parents (wantsSeen w)))%nat))|].
  - exists (wantsQueue w), (wantsSeen w). split; [by destruct w|]. split_and!; try done. by intros p ?%elem_of_nil.
  - intros dn ph rest w1 Hl (q & ws & -> & Hq1 & Hs1 & Hsub & Hd & Hlen). unfold push_parent. cbn [wantsSeen set_wants wantsQueue].
    destruct (decide (ph ∈ ws)) as [Hin|Hno].
    + exists q, ws. split_and!; try done. intros p [|Hp%list_elem_of_singleton]%elem_of_app; [auto|by subst].
    + assert (ph ∈ ParentHashes lc) as Hp by (rewrite Hl; set_solver).
      assert (W (ph, CommitObject)) as HWp by (eapply reach_edge; [exact HW|by eapply edge_parent]).
      destruct (wants_complete _ HWp) as [pc Hpc]. cbn in Hpc. unfold GetCommit. rewrite Hpc. cbn [map_err mbind outcome_bind].
      pose proof (keyed_commit_Hash _ _ Hpc) as Hhash.
      destruct (insertSorted_perm q pc) as (q' & -> & Hq'); [unfold len; lia|]. cbn [mbind outcome_bind ensures mret outcome_ret].
      exists q', ({[ph]} ∪ ws). split_and!.
      * done.
      * rewrite Hq'. apply Forall_cons. split; [|done]. split; by rewrite Hhash.
      * intros h. rewrite Hq', elem_of_union, elem_of_singleton. cbn. rewrite elem_of_cons, Hhash. intros [->|Hh]; [by left; left|].
        destruct (Hs1 h Hh); auto.
      * set_solver.
      * intros p [|Hp'%list_elem_of_singleton]%elem_of_app; [|subst; set_solver]. apply elem_of_union. auto.
      * rewrite Hq'. cbn. assert (length (unseen_parents ({[ph]} ∪ ws)) < length (unseen_parents ws))%nat; [|lia].
        apply (filter_sub_strict _ _ _ ph); [set_solver|exact (parent_listed _ _ _ Hc Hp)|done|set_solver].
  - intros w' (q & ws & Hw & H1 & H2 & H3 & H4 & H5). by exists q, ws.
Qed.

Lemma walkFull_spec fuel : forall w,
  full_inv w -> (length (wantsQueue w) + length (unseen_parents (wantsSeen w)) < fuel)%nat -> ensures (walkFull m N fuel w) covers.
Proof.
  induction fuel as [|f IH]; intros w Hi Hf; [lia|]. cbn [walkFull]. destruct Hi as [F1 F2 F3 F4 F5 F6 F7 F8].
  destruct (wantsQueue w) as [|lc q] eqn:Hq.
  - assert (forall h, settled w h -> is_Some (seen w !! h)) as Hset.
    { intros h [Hh|]; [|done]. destruct (F4 h Hh) as [Hn|]; [by apply elem_of_nil in Hn|done]. }
    cbn. split; [done|..].
    + intros h c Hk Hc. right. destruct (F5 h c Hk Hc) as [Ht Hp]. split; [done|]. intros Hsh p Hin. right. apply Hset. left. auto.
    + intros h o x o' Hk Ho Hx Ho'. destruct (F6 h o x Hk Ho Hx) as [|[Hn|]]; [by left|by apply elem_of_nil in Hn|auto].
    + intros h o Hh _. auto.
  - apply Forall_cons in F3 as [Hlc F3]. cbn [length] in *. set (w1 := set_wants w q (wantsSeen w)).
    change (seen w1) with (seen w). destruct (decide (is_Some (seen w !! Commit.Hash lc))) as [Hs|Hn].
    { apply IH; [|cbn; lia]. split; cbn; try done; [|lia].
      intros h Hh. destruct (F4 h Hh) as [Hin|]; [|by right]. cbn in Hin. apply elem_of_cons in Hin as [->|]; auto. }
    eapply ensures_bind; [by apply collectCommit_spec|]. intros w2 ([sn res] & -> & Hg & Hsub & Hs & Hst & Hk).
    cbn [fst snd] in *. change (shallows (set_seen w1 (sn, res))) with (shallows w). rewrite F1.
    change (seen w1) with (seen w) in *.
    assert (forall h, h ∈ wantsSeen w -> h ∈ Commit.Hash <$> q \/ is_Some (sn !! h)) as F4'.
    { intros h Hh. destruct (F4 h Hh) as [Hin|]; [|auto]. cbn in Hin. apply elem_of_cons in Hin as [->|]; auto. }
    assert (forall ws, wantsSeen w ⊆ ws -> (Commit.Hash lc ∉ sh -> forall p, p ∈ ParentHashes lc -> p ∈ ws) ->
      (forall h c, sn !! h = Some CommitObject -> commit_of h = Ok c -> is_Some (sn !! TreeHash c) /\ (h ∉ sh -> forall p, p ∈ ParentHashes c -> p ∈ ws))
      /\ (forall h o x, sn !! h = Some TagObject -> m !! h = Some o -> Tag.Decode o = Ok x ->
            H (h, TagObject) \/ Tag.Target x ∈ ([] : list ObjectID) \/ (Tag.Target x ∈ ws \/ is_Some (sn !! Tag.Target x)))
      /\ (forall h, h ∈ wants -> h ∈ ws \/ is_Some (sn !! h))) as Hkeep.
    { intros ws Hws Hps. split_and!.
      - intros h c Hk' Hc. destruct (Hk h _ Hk' ltac:(done) ltac:(done)) as [Hk2|[-> _]].
        + destruct (F5 h c Hk2 Hc) as [Ht Hp]. split; [auto|]. intros Hno p Hin. apply Hws. auto.
        + destruct Hlc as [Hlc _]. rewrite Hlc in Hc. injection Hc as <-. done.
      - intros h o x Hk' Ho Hx. destruct (Hk h _ Hk' ltac:(done) ltac:(done)) as [Hk2|[_ [=]]].
        destruct (F6 h o x Hk2 Ho Hx) as [|[|[Hw|Hs']]]; auto.
      - intros h Hh. destruct (F7 h Hh) as [Hw|Hs']; auto. }
    destruct (decide (Commit.Hash lc ∈ sh)) as [Hsh|Hsh].
    + destruct (Hkeep (wantsSeen w)) as (K1 & K2 & K3); [done|done|]. apply IH; [|cbn; lia]. split; cbn; try done. lia.
    + eapply ensures_bind; [apply (push_parents_spec lc (set_seen w1 (sn, res)) Hlc Hsh F3 F4'); cbn; lia|].
      intros w3 (q' & ws & -> & Q1 & Q2 & Q3 & Q4 & Q5). cbn in Q2, Q3, Q5. destruct (Hkeep ws) as (K1 & K2 & K3); [done|done|].
      apply IH; [|cbn; lia]. split; cbn; try done. lia.
Qed.

(** *** Painting *)

Definition wbit (flags : flag_map) (h : ObjectID) : bool := Z.testbit (flag flags h) 0.
Definition hbit (flags : flag_map) (h : ObjectID) : bool := Z.testbit (flag flags h) 1.

(** A flag holds two bits. *)
Lemma small_flag f : 0 <= f <= 3 -> f = 0 \/ f = 1 \/ f = 2 \/ f = 3.
Proof. lia. Qed.

(** The paint of [f] is in [g]. *)
Definition sub (f g : Z) : Prop := Z.lor g f = g.

Lemma sub_bit f g i : sub f g -> Z.testbit f i = true -> Z.testbit g i = true.
Proof. intros Hs Hf. rewrite <-Hs, Z.lor_spec, Hf. by rewrite orb_true_r. Qed.

Lemma sub_refl f : sub f f.
Proof. unfold sub. apply Z.lor_diag. Qed.

Lemma sub_trans f g h : sub f g -> sub g h -> sub f h.
Proof. unfold sub. intros H1 H2. rewrite <-H2 at 2. rewrite <-H1, Z.lor_assoc. by rewrite H2. Qed.

Lemma sub_lor f g : sub f (Z.lor g f) /\ sub g (Z.lor g f).
Proof.
  unfold sub. split; [by rewrite <-Z.lor_assoc, Z.lor_diag|].
  by rewrite (Z.lor_comm g f), <-Z.lor_assoc, Z.lor_diag.
Qed.

Lemma has_have flags h : has flags havePaint h = hbit flags h.
Proof.
  unfold has, hbit, havePaint. destruct (Z.eqb_spec (Z.land (flag flags h) 2) 0) as [Hz|Hz]; cbn [negb].
  - apply (f_equal (fun z => Z.testbit z 1)) in Hz. rewrite Z.land_spec, Z.bits_0 in Hz. by rewrite andb_true_r in Hz.
  - apply eq_sym, not_false_iff_true. intros Hf. apply Hz. apply Z.bits_inj'. intros i Hi. rewrite Z.land_spec, Z.bits_0.
    destruct (Z.eq_dec i 1) as [->|Hne]; [by rewrite Hf|]. change 2 with (2 ^ 1). rewrite Z.pow2_bits_false by lia. apply andb_false_r.
Qed.

Lemma flag_paint flags h f h' : flag (paint flags h f) h' = if decide (h = h') then Z.lor (flag flags h) f else flag flags h'.
Proof. unfold flag, paint. rewrite lookup_insert. by case_decide. Qed.

Lemma lor_small f g : 0 <= f <= 3 -> 0 <= g <= 3 -> 0 <= Z.lor f g <= 3.
Proof. intros [-> |[-> |[-> | ->]]]%small_flag [-> |[-> |[-> | ->]]]%small_flag; vm_compute; split; congruence. Qed.

Record paint_inv (exc : gset ObjectID) (queue : list Commit) (flags : flag_map) (missing : list missingParent) (new : list Commit) : Prop := {
  pi_range : forall h, 0 <= flag flags h <= 3;
  pi_want : forall h, wbit flags h = true -> W (h, CommitObject);
  pi_have : forall h, hbit flags h = true -> H (h, CommitObject);
  pi_queue : Forall (fun c => commit_of (Commit.Hash c) = Ok c /\ flag flags (Commit.Hash c) <> 0) queue;
  pi_done : forall h c, commit_of h = Ok c -> flag flags h <> 0 -> h ∈ exc \/ h ∈ Commit.Hash <$> queue \/
    (h ∉ sh -> forall p, p ∈ ParentHashes c -> sub (flag flags h) (flag flags p)) /\ (flag flags h = 1 -> h ∈ Commit.Hash <$> new);
  pi_new : Forall (fun c => commit_of (Commit.Hash c) = Ok c /\ wbit flags (Commit.Hash c) = true) new;
  pi_missing : Forall (fun mp => exists c, commit_of (mp_child mp) = Ok c /\ mp_child mp ∉ sh /\ mp_hash mp ∈ ParentHashes c
    /\ (forall o, m !! mp_hash mp = Some o -> eo_Type o <> CommitObject) /\ flag flags (mp_child mp) <> 0) missing;
}.

Lemma nonzero_bit f : 0 <= f <= 3 -> f <> 0 -> Z.testbit f 0 = true \/ Z.testbit f 1 = true.
Proof. intros [-> |[-> |[-> | ->]]]%small_flag; cbn; auto. Qed.

Lemma want_only f : 0 <= f <= 3 -> Z.testbit f 0 = true -> Z.testbit f 1 = false -> f = 1.
Proof. intros [-> |[-> |[-> | ->]]]%small_flag; cbn; auto; discriminate. Qed.

Definition no_commit (h : ObjectID) : Prop := forall o, m !! h = Some o -> eo_Type o <> CommitObject.

Lemma commit_of_type' h c : commit_of h = Ok c -> exists o, m !! h = Some o /\ eo_Type o = CommitObject.
Proof.
  unfold Walk.commit_of. destruct (m !! h) as [o|] eqn:Ho; [|done]. destruct (of_type CommitObject o) eqn:Ht; [|done].
  intros _. exists o. split; [done|]. cbn in Ht. by apply bool_decide_eq_true_1 in Ht.
Qed.

Lemma no_commit_of h : no_commit h -> commit_of h = Err (Commit.ErrStorage ErrObjectNotFound).
Proof.
  intros Hn. unfold Walk.commit_of. destruct (m !! h) as [o|] eqn:Ho; [|done]. cbn. rewrite bool_decide_eq_false_2; [done|].
  by apply Hn.
Qed.

(** A painted commit is there, unless only the haves reach it. *)
Lemma painted_commit exc queue flags missing new h :
  paint_inv exc queue flags missing new -> flag flags h <> 0 ->
  (exists c, commit_of h = Ok c) \/ wbit flags h = false /\ no_commit h.
Proof.
  intros Hp Hf. destruct (wbit flags h) eqn:Hw.
  - left. by apply (pi_want _ _ _ _ _ Hp), wants_complete in Hw.
  - destruct (nonzero_bit _ (pi_range _ _ _ _ _ Hp h) Hf) as [Hw'|Hh]; [unfold wbit in Hw; congruence|].
    apply (pi_have _ _ _ _ _ Hp), haves_tolerable in Hh as [Hc|Hn]; [by left|by right].
Qed.

(** Painting one more commit, which is pushed if it is there. *)
Lemma paint_step exc queue flags missing new h f q ms :
  paint_inv exc queue flags missing new -> 0 <= f <= 3 -> f <> 0 ->
  (Z.testbit f 0 = true -> W (h, CommitObject)) -> (Z.testbit f 1 = true -> H (h, CommitObject)) ->
  (forall c, commit_of h = Ok c -> q ≡ₚ c :: queue) -> (no_commit h -> q = queue) ->
  (forall c, commit_of h = Ok c -> ms = missing) ->
  (no_commit h -> ms = missing \/ exists ch c, ms = missing ++ [{| mp_hash := h; mp_child := ch |}] /\ commit_of ch = Ok c /\ ch ∉ sh
     /\ h ∈ ParentHashes c /\ flag flags ch <> 0) ->
  paint_inv exc q (paint flags h f) ms new.
Proof.
  intros Hp Hf Hf0 HW HH Hq Hq' Hms Hms'. pose proof (pi_range _ _ _ _ _ Hp) as Hrange.
  assert (forall h', sub (flag flags h') (flag (paint flags h f) h')) as Hgrow.
  { intros h'. rewrite flag_paint. case_decide as Heq; [subst; apply sub_lor|apply sub_refl]. }
  assert (forall h', flag flags h' <> 0 -> flag (paint flags h f) h' <> 0) as Hnz.
  { intros h' Hh' Hz. pose proof (Hgrow h') as Hs. rewrite Hz in Hs. unfold sub in Hs. rewrite Z.lor_0_l in Hs. done. }
  assert (flag (paint flags h f) h <> 0) as Hh0.
  { rewrite flag_paint, decide_True by done. intros Hz%Z.lor_eq_0_iff. naive_solver. }
  assert (forall h', 0 <= flag (paint flags h f) h' <= 3) as Hrange'.
  { intros h'. rewrite flag_paint. case_decide; [by apply lor_small|done]. }
  assert (forall h', wbit (paint flags h f) h' = true -> W (h', CommitObject)) as HW'.
  { intros h'. unfold wbit. rewrite flag_paint. case_decide; [subst|apply Hp]. rewrite Z.lor_spec. intros [Hb|Hb]%orb_prop; [by apply Hp|auto]. }
  assert (forall h', hbit (paint flags h f) h' = true -> H (h', CommitObject)) as HH'.
  { intros h'. unfold hbit. rewrite flag_paint. case_decide; [subst|apply Hp]. rewrite Z.lor_spec. intros [Hb|Hb]%orb_prop; [by apply Hp|auto]. }
  assert ((exists c, commit_of h = Ok c) \/ no_commit h) as Hcase.
  { destruct (nonzero_bit f Hf Hf0) as [Hb|Hb]; [left; by apply (wants_complete _ (HW Hb))|].
    by destruct (haves_tolerable _ (HH Hb)) as [|]; [left|right]. }
  split; try done.
  - assert (Forall (fun c => commit_of (Commit.Hash c) = Ok c /\ flag (paint flags h f) (Commit.Hash c) <> 0) queue) as Hold.
    { eapply Forall_impl; [apply Hp|]. intros c [Hc Hn]. auto. }
    destruct Hcase as [[c Hc]|Hn]; [|by rewrite (Hq' Hn)]. rewrite (Hq c Hc). apply Forall_cons. split; [|done].
    by rewrite (keyed_commit_Hash h c Hc).
  - intros h' c Hc Hn. destruct (decide (h' = h)) as [->|Hne].
    { right. left. rewrite (Hq c Hc). cbn. rewrite (keyed_commit_Hash h c Hc). by left. }
    assert (flag (paint flags h f) h' = flag flags h') as Hsame by (rewrite flag_paint, decide_False by done; done).
    rewrite Hsame in *. destruct (pi_done _ _ _ _ _ Hp h' c Hc Hn) as [|[Hin|[Hps Hnew]]]; [by left|right; left|right; right].
    + destruct Hcase as [[c' Hc']|Hn']; [rewrite (Hq c' Hc'); by right|by rewrite (Hq' Hn')].
    + split; [|done]. intros Hsh p Hin. eapply sub_trans; [by apply Hps|apply Hgrow].
  - eapply Forall_impl; [apply Hp|]. intros c [Hc Hb]. split; [done|]. unfold wbit in *. eapply sub_bit; [apply Hgrow|done].
  - assert (Forall (fun mp => exists c, commit_of (mp_child mp) = Ok c /\ mp_child mp ∉ sh /\ mp_hash mp ∈ ParentHashes c
      /\ (forall o, m !! mp_hash mp = Some o -> eo_Type o <> CommitObject) /\ flag (paint flags h f) (mp_child mp) <> 0) missing) as Hold.
    { eapply Forall_impl; [apply Hp|]. intros mp (c & H1 & H2 & H3 & H4 & H5). exists c. split_and!; auto. }
    destruct Hcase as [[c Hc]|Hn]; [by rewrite (Hms c Hc)|]. destruct (Hms' Hn) as [-> |(ch & c & -> & H1 & H2 & H3 & H4)]; [done|].
    apply Forall_app. split; [done|]. rewrite Forall_singleton. cbn. exists c. split_and!; auto.
Qed.

(** The paint that the parents in the store have not got yet. *)
Definition unpainted (flags : flag_map) : nat :=
  length (filter (fun h => wbit flags h = false) (all_parents m)) + length (filter (fun h => hbit flags h = false) (all_parents m)).

Lemma not_sub f g :
  0 <= f <= 3 -> 0 <= g <= 3 -> ~ sub f g -> exists i, (i = 0 \/ i = 1) /\ Z.testbit f i = true /\ Z.testbit g i = false.
Proof.
  intros [-> |[-> |[-> | ->]]]%small_flag [-> |[-> |[-> | ->]]]%small_flag Hs;
    first [exfalso; by apply Hs|exists 0; by auto|exists 1; by auto].
Qed.

Lemma unpainted_step flags h f :
  0 <= flag flags h <= 3 -> 0 <= f <= 3 -> ~ sub f (flag flags h) -> h ∈ all_parents m -> (unpainted (paint flags h f) < unpainted flags)%nat.
Proof.
  intros Hr Hf Hs Hin. unfold unpainted.
  assert (forall i h', Z.testbit (flag (paint flags h f) h') i = false -> Z.testbit (flag flags h') i = false) as Hmono.
  { intros i h'. rewrite flag_paint. case_decide; [subst|done]. rewrite Z.lor_spec. intros Hb. by apply orb_false_elim in Hb as [? _]. }
  destruct (not_sub f (flag flags h) Hf Hr Hs) as (i & Hi & Hfi & Hgi).
  assert (Z.testbit (flag (paint flags h f) h) i = true) as Hnew.
  { rewrite flag_paint, decide_True by done. rewrite Z.lor_spec, Hfi. apply orb_true_r. }
  pose proof (filter_sub_length _ _ (all_parents m) (Hmono 0)) as L0. pose proof (filter_sub_length _ _ (all_parents m) (Hmono 1)) as L1.
  unfold wbit, hbit. destruct Hi as [-> | ->].
  - pose proof (filter_sub_strict _ _ (all_parents m) h (Hmono 0) Hin Hgi ltac:(congruence)). lia.
  - pose proof (filter_sub_strict _ _ (all_parents m) h (Hmono 1) Hin Hgi ltac:(congruence)). lia.
Qed.

Lemma propagate_spec lc f queue flags missing new :
  paint_inv {[Commit.Hash lc]} queue flags missing new -> commit_of (Commit.Hash lc) = Ok lc -> Commit.Hash lc ∉ sh ->
  flag flags (Commit.Hash lc) = f -> f <> 0 -> Z.of_nat (length queue + unpainted flags) < 2 ^ 63 ->
  ensures (propagate m lc f (queue, flags, missing)) (fun '(q, fl, ms) => paint_inv {[Commit.Hash lc]} q fl ms new
    /\ flag fl (Commit.Hash lc) = f /\ (forall p, p ∈ ParentHashes lc -> sub f (flag fl p))
    /\ (forall h, sub (flag flags h) (flag fl h)) /\ (length q + unpainted fl <= length queue + unpainted flags)%nat).
Proof.
  intros Hp Hlc Hsh Hf Hf0 Hsm. pose proof (pi_range _ _ _ _ _ Hp (Commit.Hash lc)) as Hfr. rewrite Hf in Hfr.
  eapply ensures_weaken; [apply (foldM_inv _ (fun dn '(q, fl, ms) => paint_inv {[Commit.Hash lc]} q fl ms new
    /\ flag fl (Commit.Hash lc) = f /\ (forall p, p ∈ dn -> sub f (flag fl p))
    /\ (forall h, sub (flag flags h) (flag fl h)) /\ (length q + unpainted fl <= length queue + unpainted flags)%nat))|].
  - split_and!; try done; [by intros p ?%elem_of_nil|intros; apply sub_refl].
  - intros dn ph rest [[q fl] ms] Hl (Hp1 & Hf1 & Hd & Hgr & Hm). assert (ph ∈ ParentHashes lc) as Hin by (rewrite Hl; set_solver).
    cbn zeta. destruct (Z.eqb_spec (Z.lor (flag fl ph) f) (flag fl ph)) as [Hs|Hs].
    { cbn. split_and!; try done. intros p [|Hx%list_elem_of_singleton]%elem_of_app; [auto|by subst]. }
    assert (Z.testbit f 0 = true -> W (ph, CommitObject)) as HWp.
    { intros Hb. eapply reach_edge; [apply (pi_want _ _ _ _ _ Hp1 (Commit.Hash lc)); unfold wbit; by rewrite Hf1|by eapply edge_parent]. }
    assert (Z.testbit f 1 = true -> H (ph, CommitObject)) as HHp.
    { intros Hb. eapply reach_edge; [apply (pi_have _ _ _ _ _ Hp1 (Commit.Hash lc)); unfold hbit; by rewrite Hf1|by eapply edge_parent]. }
    assert (ph <> Commit.Hash lc) as Hne by (intros ->; apply Hs; rewrite Hf1; apply Z.lor_diag).
    assert ((unpainted (paint fl ph f) < unpainted fl)%nat) as Hlt.
    { apply unpainted_step; [apply Hp1|done|done|exact (parent_listed _ _ _ Hlc Hin)]. }
    assert (forall q' ms', paint_inv {[Commit.Hash lc]} q' (paint fl ph f) ms' new -> (length q' <= S (length q))%nat ->
      paint_inv {[Commit.Hash lc]} q' (paint fl ph f) ms' new /\ flag (paint fl ph f) (Commit.Hash lc) = f
      /\ (forall p, p ∈ dn ++ [ph] -> sub f (flag (paint fl ph f) p)) /\ (forall h, sub (flag flags h) (flag (paint fl ph f) h))
      /\ (length q' + unpainted (paint fl ph f) <= length queue + unpainted flags)%nat) as Hnext.
    { intros q' ms' Hp2 Hlen. split_and!; [done|by rewrite flag_paint, decide_False| | |lia].
      - intros p [Hx|Hx%list_elem_of_singleton]%elem_of_app; rewrite flag_paint; case_decide as Heq.
        + subst. apply sub_lor.
        + auto.
        + subst. apply sub_lor.
        + congruence.
      - intros h. rewrite flag_paint. case_decide as Heq; [|auto]. subst. eapply sub_trans; [apply Hgr|apply sub_lor]. }
    destruct (nonzero_bit f Hfr Hf0) as [Hb|Hb].
    + destruct (wants_complete _ (HWp Hb)) as [pc Hpc]. cbn in Hpc. rewrite Hpc.
      destruct (insertSorted_perm q pc) as (q' & -> & Hq'); [unfold len; lia|]. apply Hnext; [|by rewrite Hq'].
      eapply paint_step; try done; first [intros c Hc; congruence|intros Hn%no_commit_of; congruence].
    + pose proof (haves_tolerable _ (HHp Hb)) as Htol. unfold tolerable in Htol. cbn [fst snd] in Htol. destruct Htol as [[pc Hpc]|Hn].
      * rewrite Hpc. destruct (insertSorted_perm q pc) as (q' & -> & Hq'); [unfold len; lia|]. apply Hnext; [|by rewrite Hq'].
        eapply paint_step; try done; first [intros c Hc; congruence|intros Hn%no_commit_of; congruence].
      * rewrite (no_commit_of ph Hn). apply Hnext; [|lia]. pose proof (no_commit_of ph Hn) as Hno.
        eapply paint_step; try done; try (intros c Hc; congruence).
        intros _. right. exists (Commit.Hash lc), lc. split_and!; try done. by rewrite Hf1.
  - intros [[q fl] ms] Hx. exact Hx.
Qed.

Lemma allStale_have queue flags c : allStale queue flags = true -> c ∈ queue -> hbit flags (Commit.Hash c) = true.
Proof.
  unfold allStale. rewrite forallb_forall. intros Ha Hc%list_elem_of_In. specialize (Ha c Hc). apply negb_true_iff, orb_false_elim in Ha as [_ Ha].
  rewrite <-has_have. unfold has. by rewrite Ha.
Qed.

Definition painted (flags0 : flag_map) (r : list Commit * flag_map * list missingParent) : Prop :=
  let '(new, flags, missing) := r in
  exists queue, paint_inv ∅ queue flags missing new /\ (forall c, c ∈ queue -> hbit flags (Commit.Hash c) = true)
    /\ forall h, sub (flag flags0 h) (flag flags h).

Lemma paint_loop_spec fuel : forall queue flags missing new,
  paint_inv ∅ queue flags missing new -> (length queue + unpainted flags < fuel)%nat -> Z.of_nat (length queue + unpainted flags) < 2 ^ 63 ->
  ensures (paint_loop m fuel sh (queue, flags, missing) new) (painted flags).
Proof.
  induction fuel as [|f IH]; intros queue flags missing new Hp Hf Hsm; [lia|]. cbn [paint_loop].
  destruct queue as [|lc queue].
  { cbn. exists []. split_and!; [done|by intros c ?%elem_of_nil|intros; apply sub_refl]. }
  pose proof Hp as [P1 P2 P3 P4 P5 P6 P7]. apply Forall_cons in P4 as [[Hlc Hnz] P4]. cbn zeta.
  set (fl := flag flags (Commit.Hash lc)) in *. set (new' := if fl =? wantPaint then new ++ [lc] else new).
  assert (forall h, h ∈ Commit.Hash <$> new -> h ∈ Commit.Hash <$> new') as Hnew by (unfold new'; case_match; set_solver).
  assert (fl = 1 -> Commit.Hash lc ∈ Commit.Hash <$> new') as Hone.
  { intros ->. cbn [new' Z.eqb wantPaint Pos.eqb]. rewrite fmap_app. set_solver. }
  assert (Forall (fun c => commit_of (Commit.Hash c) = Ok c /\ wbit flags (Commit.Hash c) = true) new') as Hnewok.
  { unfold new'. destruct (Z.eqb_spec fl wantPaint) as [He|]; [|done]. apply Forall_app. split; [done|]. rewrite Forall_singleton.
    split; [done|]. unfold wbit. fold fl. by rewrite He. }
  assert (paint_inv {[Commit.Hash lc]} queue flags missing new') as Hp'.
  { split; try done. intros h c Hc Hn. destruct (P5 h c Hc Hn) as [Hx|[Hx|[Hx1 Hx2]]]; [set_solver| |right; right; auto].
    cbn in Hx. apply elem_of_cons in Hx as [->|]; [left; set_solver|auto]. }
  cbn [length] in *. destruct (decide (Commit.Hash lc ∈ sh)) as [Hsh|Hsh].
  - assert (paint_inv ∅ queue flags missing new') as Hp2.
    { split; try done. intros h c Hc Hn. destruct (pi_done _ _ _ _ _ Hp' h c Hc Hn) as [Hx|]; [|by right]. apply elem_of_singleton in Hx as ->.
      right. right. split; [done|]. apply Hone. }
    cbn [mbind outcome_bind mret outcome_ret]. destruct (allStale queue flags) eqn:Hst.
    + cbn. exists queue. split_and!; [done| |intros; apply sub_refl]. intros c Hc. by eapply allStale_have.
    + apply IH; [done|lia|lia].
  - eapply ensures_bind; [apply (propagate_spec lc fl queue flags missing new'); try done; lia|].
    intros [[q fl'] ms] (Hp2 & Hf1 & Hps & Hgr & Hm).
    assert (paint_inv ∅ q fl' ms new') as Hp3.
    { destruct Hp2 as [R1 R2 R3 R4 R5 R6 R7]. split; try done. intros h c Hc Hn. destruct (R5 h c Hc Hn) as [Hx|]; [|by right].
      apply elem_of_singleton in Hx as ->. right. right. rewrite Hf1. rewrite Hlc in Hc. injection Hc as <-. done. }
    destruct (allStale q fl') eqn:Hst.
    + cbn. exists q. split_and!; [done| |done]. intros c Hc. by eapply allStale_have.
    + eapply ensures_weaken; [apply IH; [done|lia|lia]|]. intros [[new2 fl2] ms2] (q2 & H1 & H2 & H3). exists q2. split_and!; try done.
      intros h. eapply sub_trans; [apply Hgr|apply H3].
Qed.

Lemma seed_flags_spec p cs queue flags :
  p = 1 \/ p = 2 -> paint_inv ∅ queue flags [] [] ->
  Forall (fun c => commit_of (Commit.Hash c) = Ok c /\ (p = 1 -> W (Commit.Hash c, CommitObject)) /\ (p = 2 -> H (Commit.Hash c, CommitObject))) cs ->
  Z.of_nat (length queue + length cs) < 2 ^ 63 ->
  ensures (seed_flags p cs (queue, flags)) (fun '(q, fl) => paint_inv ∅ q fl [] [] /\ (forall c, c ∈ cs -> sub p (flag fl (Commit.Hash c)))
    /\ (forall h, sub (flag flags h) (flag fl h)) /\ (length q = length queue + length cs)%nat).
Proof.
  intros Hpp Hp Hcs Hsm. unfold seed_flags. eapply ensures_weaken; [apply (foldM_inv _ (fun dn '(q, fl) =>
    paint_inv ∅ q fl [] [] /\ (forall c, c ∈ dn -> sub p (flag fl (Commit.Hash c)))
    /\ (forall h, sub (flag flags h) (flag fl h)) /\ (length q = length queue + length dn)%nat))|].
  - split_and!; [done|by intros c ?%elem_of_nil|intros; apply sub_refl|cbn; lia].
  - intros dn c rest [q fl] Hl (Hp1 & Hd & Hgr & Hlen). rewrite Forall_forall in Hcs.
    destruct (Hcs c) as (Hc & HWc & HHc); [rewrite Hl; set_solver|].
    destruct (insertSorted_perm q c) as (q' & -> & Hq'); [rewrite Hl, length_app in Hsm; unfold len; cbn in Hsm; lia|].
    cbn [mbind outcome_bind mret outcome_ret ensures]. split_and!.
    + eapply paint_step; try done; try lia; try (intros c' Hc'; congruence); try (intros Hn%no_commit_of; congruence).
      * intros Hb. apply HWc. by destruct Hpp as [-> | ->].
      * intros Hb. apply HHc. by destruct Hpp as [-> | ->].
    + intros c' [Hx|Hx%list_elem_of_singleton]%elem_of_app; rewrite flag_paint; case_decide as Heq.
      * apply sub_lor.
      * auto.
      * apply sub_lor.
      * congruence.
    + intros h. rewrite flag_paint. case_decide as Heq; [|auto]. subst. eapply sub_trans; [apply Hgr|apply sub_lor].
    + rewrite Hq', length_app. cbn. lia.
  - intros [q fl] Hx. exact Hx.
Qed.

(** *** Edges, and the commits that are left *)

(** Only marks were added. *)
Definition marks (w w' : objectWalk) : Prop :=
  exists sn, w' = set_seen w (sn, result w) /\ good_seen ∅ sn (result w) /\ grows (seen w) sn.

Lemma marks_trans w1 w2 w3 : marks w1 w2 -> marks w2 w3 -> marks w1 w3.
Proof.
  intros (sn & -> & Hg & Hgr) (sn' & -> & Hg' & Hgr'). exists sn'. cbn in *. split; [done|]. split; [done|by etrans].
Qed.

Lemma marks_refl w : good_seen ∅ (seen w) (result w) -> marks w w.
Proof. intros Hg. exists (seen w). split; [by destruct w|done]. Qed.

Lemma markEdge_spec h w :
  W (h, CommitObject) -> H (h, CommitObject) -> good_seen ∅ (seen w) (result w) -> ensures (markEdgeTreeSeen m N h w) (marks w).
Proof.
  intros HW HH Hg. unfold markEdgeTreeSeen. destruct (wants_complete _ HW) as [c Hc]. cbn in Hc. rewrite Hc.
  destruct (decide _); [by apply marks_refl|].
  assert (W (TreeHash c, TreeObject)) as HWt by (eapply reach_edge; [exact HW|by apply edge_tree]).
  assert (H (TreeHash c, TreeObject)) as HHt by (eapply reach_edge; [exact HH|by apply edge_tree]).
  destruct (wants_complete _ HWt) as [t Ht]. cbn in Ht. unfold GetTree. rewrite Ht. cbn [map_err mbind outcome_bind].
  eapply ensures_bind; [apply (mark_spec _ ∅ (TreeHash c) t (seen w) (result w)); [done|done|done|apply unseen_fuel]|].
  intros sn (Hg' & Hgr & _). by exists sn.
Qed.

Lemma mark_edges_spec flags lc w :
  want_commit lc -> (forall h, hbit flags h = true -> H (h, CommitObject)) -> shallows w = sh -> good_seen ∅ (seen w) (result w) ->
  ensures (mark_edges m N flags lc w) (marks w).
Proof.
  intros [Hlc HW] Hh Hsh Hg. unfold mark_edges. rewrite Hsh. destruct (decide _) as [|Hno]; [by apply marks_refl|].
  eapply ensures_weaken; [apply (foldM_inv _ (fun _ w' => marks w w'))|].
  - by apply marks_refl.
  - intros dn ph rest w' Hl Hm. rewrite has_have. destruct (hbit flags ph) eqn:Hb; [|done].
    pose proof Hm as (sn & -> & Hg' & Hgr). eapply ensures_weaken; [apply markEdge_spec; [|by apply Hh|done]|].
    + eapply reach_edge; [exact HW|]. eapply edge_parent; [done|done|rewrite Hl; set_solver].
    + intros w' Hm'. by eapply marks_trans.
  - done.
Qed.

Lemma collect_commits_spec cs w :
  Forall want_commit cs -> good_seen ∅ (seen w) (result w) -> no_commits (seen w) ->
  ensures (foldM (collectCommit m N) cs w) (fun w' => exists st, w' = set_seen w st /\ good_seen ∅ st.1 st.2
    /\ (forall h, is_Some (seen w !! h) -> is_Some (st.1 !! h))
    /\ (forall c, c ∈ cs -> is_Some (st.1 !! Commit.Hash c) /\ is_Some (st.1 !! TreeHash c))
    /\ (forall h k, st.1 !! h = Some k -> k <> TreeObject -> k <> BlobObject ->
          seen w !! h = Some k \/ k = CommitObject /\ exists c, c ∈ cs /\ h = Commit.Hash c)).
Proof.
  intros Hcs Hg Hn. eapply ensures_weaken; [apply (foldM_inv _ (fun dn w' => exists st, w' = set_seen w st /\ good_seen ∅ st.1 st.2
    /\ (forall h, is_Some (seen w !! h) -> is_Some (st.1 !! h))
    /\ (forall c, c ∈ dn -> is_Some (st.1 !! Commit.Hash c) /\ is_Some (st.1 !! TreeHash c))
    /\ (forall h k, st.1 !! h = Some k -> k <> TreeObject -> k <> BlobObject ->
          seen w !! h = Some k \/ k = CommitObject /\ exists c, c ∈ dn /\ h = Commit.Hash c)))|].
  - exists (seen w, result w). cbn. split; [by destruct w|]. split_and!; auto. by intros c ?%elem_of_nil.
  - intros dn c rest w' Hl (st & -> & Hg' & Hsub & Hd & Hk). rewrite Forall_forall in Hcs.
    eapply ensures_weaken; [apply collectCommit_spec; [apply Hcs; rewrite Hl; set_solver|done]|].
    intros w' (st' & -> & Hg2 & Hsub2 & Hs1 & Hs2 & Hk2). cbn [seen set_seen] in *. exists st'. split; [done|]. split_and!.
    + done.
    + auto.
    + intros c' [Hx|Hx%list_elem_of_singleton]%elem_of_app; [|by subst]. destruct (Hd c' Hx). auto.
    + intros h k Hh H1 H2. destruct (Hk2 h k Hh H1 H2) as [Hx|[-> ->]].
      * destruct (Hk h k Hx H1 H2) as [|[Hc (c' & Hc' & ->)]]; [by left|right]. split; [done|]. exists c'. set_solver.
      * right. split; [done|]. exists c. set_solver.
  - done.
Qed.

(** *** The whole walk *)

Lemma walk_full_covers w : wants_inv [] w -> ensures (walkFull m N (walk_fuel m w) w) covers.
Proof.
  intros [W1 W2 W3 W4 W5 W6 W7 W8 W9 W10 W11 W12].
  assert (length (unseen_parents (wantsSeen w)) <= length (all_parents m))%nat as Hu by apply length_filter.
  apply walkFull_spec; [|unfold walk_fuel; lia]. split; try done.
  - intros h. rewrite W6. auto.
  - intros h c Hk. by destruct (W7 h).
  - intros h Hh. destruct (W10 h Hh) as [Hn|]; [by apply elem_of_nil in Hn|done].
  - cbn in W11. lia.
Qed.

Lemma walk_covers w : wants_inv [] w -> ensures (walk m N w) covers.
Proof.
  intros Hi. unfold walk. destruct (havesQueue w) as [|hq hqs] eqn:Hhq; [by apply walk_full_covers|]. rewrite <-Hhq. clear hq hqs Hhq.
  destruct Hi as [W1 W2 W3 W4 W5 W6 W7 W8 W9 W10 W11 W12]. cbn [length] in W11.
  assert (paint_inv ∅ [] ∅ [] []) as H0.
  { assert (forall h, flag ∅ h = 0) as Hf by (intros h; unfold flag; by rewrite lookup_empty).
    split; try (by apply Forall_nil); intros h; rewrite ?Hf; try lia; try (unfold wbit, hbit; rewrite Hf; done). }
  eapply ensures_bind; [apply (seed_flags_spec 1 (wantsQueue w) [] ∅); [by left|done| |cbn; lia]|].
  { eapply Forall_impl; [exact W4|]. intros c [Hc HW]. done. }
  intros [q1 fl1] (Hp1 & Hs1 & _ & Hl1). cbn [length] in Hl1.
  eapply ensures_bind; [apply (seed_flags_spec 2 (havesQueue w) q1 fl1); [by right|done| |lia]|].
  { eapply Forall_impl; [exact W3|]. intros c [Hc HH]. done. }
  intros [q2 fl2] (Hp2 & _ & Hgr2 & Hl2). cbn zeta.
  assert ((unpainted fl2 <= 2 * length (all_parents m))%nat) as Hun.
  { unfold unpainted. pose proof (length_filter (fun h => wbit fl2 h = false) (all_parents m)).
    pose proof (length_filter (fun h => hbit fl2 h = false) (all_parents m)). lia. }
  set (w1 := set_haves (set_wants w [] (wantsSeen w)) [] (havesSeen w)). change (shallows w1) with (shallows w). rewrite W1.
  eapply ensures_bind; [apply paint_loop_spec; [done|unfold walk_fuel; lia|lia]|].
  intros [[new fl] ms] (queue & Hp & Hstale & Hgr). cbn zeta.
  pose proof Hp as [P1 P2 P3 P4 P5 P6 P7].
  assert (forallb (fun mp => has fl havePaint (mp_child mp)) ms = true) as ->.
  { apply forallb_forall. intros mp Hin%list_elem_of_In. rewrite has_have. rewrite Forall_forall in P7.
    destruct (P7 mp Hin) as (c & Hc & Hsh & Hpar & Hno & Hnz). destruct (hbit fl (mp_child mp)) eqn:Hb; [done|exfalso].
    destruct (nonzero_bit _ (P1 (mp_child mp)) Hnz) as [Hw|Hh]; [|unfold hbit in Hb; congruence].
    apply P2 in Hw. assert (W (mp_hash mp, CommitObject)) as HWp by (eapply reach_edge; [exact Hw|by eapply edge_parent]).
    destruct (wants_complete _ HWp) as [pc Hpc]. cbn in Hpc. pose proof (no_commit_of _ Hno). congruence. }
  cbn [negb]. set (cs := filter (fun c => has fl havePaint (Commit.Hash c) = false) new).
  assert (Forall want_commit cs) as Hcs.
  { apply Forall_forall. intros c [_ Hin]%list_elem_of_filter. rewrite Forall_forall in P6. destruct (P6 c Hin) as [Hc Hw]. split; [done|by apply P2]. }
  assert (forall h, wbit fl h = true -> H (h, CommitObject) \/ exists c, c ∈ cs /\ h = Commit.Hash c) as Hnew.
  { intros h Hw. destruct (hbit fl h) eqn:Hb; [left; by apply P3|right].
    pose proof (want_only _ (P1 h) Hw Hb) as H1. destruct (wants_complete _ (P2 h Hw)) as [c Hc]. cbn in Hc.
    destruct (P5 h c Hc ltac:(lia)) as [Hx|[Hx|[_ Hx]]]; [set_solver| |].
    - apply list_elem_of_fmap in Hx as (c' & -> & Hx). apply Hstale in Hx. congruence.
    - specialize (Hx H1). apply list_elem_of_fmap in Hx as (c' & -> & Hx). exists c'. split; [|done].
      apply list_elem_of_filter. by rewrite has_have. }
  eapply ensures_bind; [apply (foldM_inv _ (fun _ w' => marks w1 w'))|].
  { by apply marks_refl. }
  { intros dn c rest w' Hl Hm. pose proof Hm as (sn & -> & Hg' & Hgr'). eapply ensures_weaken; [apply mark_edges_spec|].
    - rewrite Forall_forall in Hcs. apply Hcs. rewrite Hl. set_solver.
    - exact P3.
    - exact W1.
    - done.
    - intros w' Hm'. by eapply marks_trans. }
  intros w2 (sn & -> & Hg2 & Hgr3). eapply ensures_weaken; [apply collect_commits_spec; [done|done|by eapply no_commits_grows]|].
  intros w' (st & -> & Hg3 & Hsub & Hd & Hk). cbn [seen set_seen fst snd] in *. change (seen w1) with (seen w) in *.
  assert (forall h, wbit fl h = true -> H (h, CommitObject) \/ is_Some (st.1 !! h)) as Hcov.
  { intros h Hw. destruct (Hnew h Hw) as [|(c & Hc & ->)]; [by left|right]. by apply Hd. }
  assert (forall h o, settled w h -> m !! h = Some o -> H (h, eo_Type o) \/ is_Some (st.1 !! h)) as Hset.
  { intros h o [Hws|Hs] Ho; [|right; apply Hsub, (gr_dom _ _ Hgr3), Hs].
    apply W6, list_elem_of_fmap in Hws as (c & -> & Hc). rewrite Forall_forall in W4. destruct (W4 c Hc) as [Hcc _].
    destruct (commit_of_type' _ _ Hcc) as (o' & Ho' & Ht). rewrite Ho in Ho'. injection Ho' as <-. rewrite Ht. apply Hcov.
    unfold wbit. eapply sub_bit; [eapply sub_trans; [apply (Hs1 c Hc)|eapply sub_trans; [apply Hgr2|apply Hgr]]|done]. }
  split; cbn [seen result set_seen].
  - done.
  - intros h c Hh Hc. destruct (Hk h _ Hh ltac:(done) ltac:(done)) as [Hx|[_ (c' & Hc' & ->)]].
    { apply (gr_kinds _ _ Hgr3) in Hx; [|done|done]. by destruct (W7 h). }
    right. rewrite Forall_forall in Hcs. destruct (Hcs c' Hc') as [Hcc HWc]. rewrite Hcc in Hc. injection Hc as <-.
    split; [by apply Hd|]. intros Hsh p Hin. apply Hcov. apply list_elem_of_filter in Hc' as [Hb Hin'].
    rewrite has_have in Hb. rewrite Forall_forall in P6. destruct (P6 c' Hin') as [_ Hw].
    assert (flag fl (Commit.Hash c') = 1) as H1 by (by apply want_only).
    destruct (P5 (Commit.Hash c') c' Hcc ltac:(lia)) as [Hx|[Hx|[Hx _]]]; [set_solver| |].
    + apply list_elem_of_fmap in Hx as (c2 & Heq & Hx). apply Hstale in Hx. rewrite <-Heq in Hx. congruence.
    + unfold wbit. eapply sub_bit; [by apply Hx|]. by rewrite H1.
  - intros h o x o' Hh Ho Hx Ho'. destruct (Hk h _ Hh ltac:(done) ltac:(done)) as [Hh'|[[=] _]].
    apply (gr_kinds _ _ Hgr3) in Hh'; [|done|done]. destruct (W9 h o x Hh' Ho Hx) as [|[Hn|Hs]]; [by left|by apply elem_of_nil in Hn|].
    right. by apply Hset.
  - intros h o Hh Ho. destruct (W10 h Hh) as [Hn|Hs]; [by apply elem_of_nil in Hn|]. by apply Hset.
Qed.

Lemma Objects_spec shallow :
  sh = list_to_set shallow -> exists res, Objects m N shallow wants haves = Ok res /\ answer res.
Proof.
  intros Hsh. apply ensures_inv. unfold Objects.
  eapply ensures_bind; [by apply seedHaves_spec|]. intros w1 H1. eapply ensures_bind; [by apply seedWants_spec|]. intros w2 H2.
  eapply ensures_bind; [by apply walk_covers|]. intros w3 H3. by apply covers_answer.
Qed.
End correct.

(** ** Properties *)

(** What the theorem asks of a store and a query: objects are kept under their
    hashes, none is used as two types, what is reachable from the wants is
    there, and what the receiver has may be missing but is not broken. *)
Record askable (m : ObjectMap) (N : nat) (sh : gset ObjectID) (wants haves : list ObjectID) : Prop := {
  as_keyed : forall h o, m !! h = Some o -> eo_Hash o = h;
  as_buffered : (1 <= N)%nat;
  as_one_type : forall h k k', reach m N sh wants (h, k) \/ reach m N sh haves (h, k) ->
    reach m N sh wants (h, k') \/ reach m N sh haves (h, k') -> k = k';
  as_complete : forall x, reach m N sh wants x -> readable m N x;
  as_there : forall h, h ∈ wants -> is_Some (m !! h);
  as_tolerable : forall x, reach m N sh haves x -> tolerable m x;
  as_small : Z.of_nat (length wants + length haves + 2 * size m + 2 * length (all_parents m)) < 2 ^ 63;
}.

(** C9: the objects to send.  For any wants and haves over a store that holds
    what is reachable from the wants (up to the shallow commits), whatever the
    dates of the commits and whatever of the haves is missing, [Objects] ends
    with a list without duplicates in which every object reachable from the
    wants is listed unless it is reachable from the haves, and every object
    listed is reachable from the wants: a receiver that has the haves can
    complete the wants. *)
Theorem Objects_correct m N shallow wants haves :
  let sh := list_to_set shallow : gset ObjectID in
  askable m N sh wants haves ->
  exists res, Objects m N shallow wants haves = Ok res
    /\ NoDup res
    /\ (forall x, reach m N sh wants x -> x.1 ∈ res \/ reach m N sh haves x)
    /\ (forall h, h ∈ res -> exists k, reach m N sh wants (h, k)).
Proof. intros sh [H1 H2 H3 H4 H5 H6 H7]. by apply (Objects_spec m N sh wants haves H1 H2 H3 H4 H5 H6 H7). Qed.

(** *** Checking a concrete query *)

Section checks.
Context (m : ObjectMap) (N : nat) (sh : gset ObjectID).

(** The edges as a function. *)
Definition succs (x : node) : list node :=
  match x.2 with
  | CommitObject =>
      match commit_of m x.1 with
      | Ok c => (TreeHash c, TreeObject) :: (if decide (x.1 ∈ sh) then [] else (fun p => (p, CommitObject)) <$> ParentHashes c)
      | _ => []
      end
  | TreeObject =>
      match tree_of N m x.1 with
      | Ok t => (fun e => (Tree.Hash e, entryType (Mode e))) <$> filter (fun e => Mode e <> Submodule) (Entries t)
      | _ => []
      end
  | TagObject =>
      match m !! x.1 with
      | Some o =>
          match Tag.Decode o with
          | Ok t => match m !! Tag.Target t with Some o' => [(Tag.Target t, eo_Type o')] | None => [] end
          | _ => []
          end
      | None => []
      end
  | _ => []
  end.

Lemma edge_succs x y : edge m N sh x y -> y ∈ succs x.
Proof.
  intros [h c p Hc Hsh Hp|h c Hc|h t e Ht He Hm|h o t o' Ho Hty Hx Ho']; unfold succs; cbn [fst snd].
  - rewrite Hc, decide_False by done. right. apply list_elem_of_fmap. by exists p.
  - rewrite Hc. by left.
  - rewrite Ht. apply list_elem_of_fmap. exists e. split; [done|]. by apply list_elem_of_filter.
  - rewrite Ho, Hx, Ho'. by left.
Qed.

Definition starts (seeds : list ObjectID) : list node :=
  seeds ≫= fun h => match m !! h with Some o => [(h, eo_Type o)] | None => [] end.

(** A list that holds the seeds and is closed holds what is reachable. *)
Definition closed (seeds : list ObjectID) (l : list node) : bool :=
  bool_decide (starts seeds ⊆ l) && forallb (fun x => bool_decide (succs x ⊆ l)) l.

Lemma closed_reach seeds l x : closed seeds l = true -> reach m N sh seeds x -> x ∈ l.
Proof.
  intros [Hs%bool_decide_eq_true_1 Hl]%andb_prop (s & (Hin & o & Ho & Hty) & Hr). rewrite forallb_forall in Hl.
  revert x Hr. apply (rtc_ind_r (fun y => y ∈ l)).
  - apply Hs. unfold starts. apply list_elem_of_bind. exists s.1. split; [|done]. rewrite Ho, <-Hty. destruct s. by left.
  - intros y z _ Hyz Hy. apply list_elem_of_In in Hy. specialize (Hl y Hy). apply bool_decide_eq_true_1 in Hl. by apply Hl, edge_succs.
Qed.

Definition readable_b (x : node) : bool :=
  match x.2 with
  | CommitObject => is_ok (commit_of m x.1)
  | TreeObject => is_ok (tree_of N m x.1)
  | TagObject =>
      match m !! x.1 with
      | Some o => bool_decide (eo_Type o = TagObject)
          && match Tag.Decode o with Ok t => bool_decide (is_Some (m !! Tag.Target t)) | _ => false end
      | None => false
      end
  | BlobObject => true
  | _ => false
  end.

Lemma readable_b_spec x : readable_b x = true -> readable m N x.
Proof.
  unfold readable_b, readable. destruct x as [h []]; cbn [fst snd]; try done.
  - destruct (commit_of m h); try done. eauto.
  - destruct (tree_of N m h); try done. eauto.
  - destruct (m !! h) as [o|]; [|done]. intros [Ht%bool_decide_eq_true_1 Hx]%andb_prop.
    destruct (Tag.Decode o) as [t| | |] eqn:Hd; try done. apply bool_decide_eq_true_1 in Hx. by exists o, t.
Qed.

(** All the hypotheses of a query, from a list of what is reachable. *)
Definition askable_b (wants haves : list ObjectID) (l : list node) : bool :=
  bool_decide (map_Forall (fun h o => eo_Hash o = h) m) && (1 <=? N)%nat
  && closed wants l && closed haves l && forallb readable_b l
  && bool_decide (NoDup (fst <$> l)) && forallb (fun h => bool_decide (is_Some (m !! h))) wants
  && (Z.of_nat (length wants + length haves + 2 * size m + 2 * length (all_parents m)) <? 2 ^ 63).

Lemma askable_b_spec wants haves l : askable_b wants haves l = true -> askable m N sh wants haves.
Proof.
  unfold askable_b. rewrite !andb_true_iff. intros [[[[[[[Hk%bool_decide_eq_true_1 HN%Nat.leb_le] Hw] Hh] Hr] Hd%bool_decide_eq_true_1] Ht] Hs%Z.ltb_lt].
  assert (forall x, reach m N sh wants x \/ reach m N sh haves x -> x ∈ l) as Hl
    by (intros x [Hx|Hx]; [exact (closed_reach _ _ _ Hw Hx)|exact (closed_reach _ _ _ Hh Hx)]).
  rewrite !forallb_forall in *.
  assert (forall x, x ∈ l -> readable m N x) as Hread by (intros x Hx; apply readable_b_spec, Hr; by apply list_elem_of_In).
  split; try done.
  - intros h k k' H1%Hl H2%Hl. apply list_elem_of_lookup in H1 as [i Hi], H2 as [j Hj].
    assert (i = j) as <- by (exact (NoDup_lookup (fst <$> l) i j h Hd (list_lookup_fmap_Some_2 fst l i _ Hi) (list_lookup_fmap_Some_2 fst l j _ Hj))). congruence.
  - intros x Hx. auto.
  - intros h Hin. apply list_elem_of_In in Hin. specialize (Ht h Hin). by apply bool_decide_eq_true_1 in Ht.
  - intros x Hx. assert (readable m N x) as H by auto. unfold readable, tolerable in *. destruct x as [h []]; cbn [fst snd] in *; try done.
    + by left.
    + destruct H as (o & t & H1 & H2 & H3 & _). eauto.
Qed.
End checks.

(** *** An example *)

Definition ex_id (n : Z) : ObjectID := {| oid_hash := n :: replicate 31 0; oid_format := UnsetObjectFormat |}.

Definition ex_commit (n tree : Z) (parents : list Z) (date : Z) : EncodedObject :=
  {| eo_Type := CommitObject; eo_Hash := ex_id n;
     eo_Data := bs "tree " ++ oid_String (ex_id tree) ++ [10] ++ concat (map (fun p => bs "parent " ++ oid_String (ex_id p) ++ [10]) parents)
       ++ bs "author A <a> 0 +0000" ++ [10] ++ bs "committer A <a> " ++ GoStrings.FormatUint date ++ bs " +0000" ++ [10; 10] ++ bs "m" |}.

Definition ex_tree (n : Z) (es : list (string * string * Z)) : EncodedObject :=
  {| eo_Type := TreeObject; eo_Hash := ex_id n;
     eo_Data := concat (map (fun '(mode, name, id) => bs mode ++ [32] ++ bs name ++ [0] ++ Bytes (ex_id id)) es) |}.

Definition ex_tag (n target : Z) : EncodedObject :=
  {| eo_Type := TagObject; eo_Hash := ex_id n;
     eo_Data := bs "object " ++ oid_String (ex_id target) ++ [10] ++ bs "type commit" ++ [10] ++ bs "tag v1" ++ [10; 10] ++ bs "m" |}.

(** A tag of a commit whose tree shares a subtree with its parent's; the
    child is dated before its parent. *)
Definition ex_store : ObjectMap :=
  list_to_map ((fun o => (eo_Hash o, o)) <$>
    [ex_commit 1 11 [] 50; ex_commit 2 12 [1] 40; ex_tag 3 2;
     ex_tree 11 [("100644", "a", 21); ("40000", "d", 13)]; ex_tree 12 [("100644", "a", 22); ("40000", "d", 13)];
     ex_tree 13 [("100644", "f", 23)]])%string.

Example ex_objects :
  Objects ex_store 16 [] [ex_id 3] [ex_id 1] = Ok (map ex_id [3; 2; 12; 22])
  /\ Objects ex_store 16 [] [ex_id 3] [] = Ok (map ex_id [3; 2; 12; 22; 13; 23; 1; 11; 21])
  /\ Objects ex_store 16 [ex_id 2] [ex_id 3] [ex_id 99] = Ok (map ex_id [3; 2; 12; 22; 13; 23]).
Proof. vm_compute. split_and!; reflexivity. Qed.

Definition ex_reachable : list node :=
  map (fun '(n, k) => (ex_id n, k)) [(3, TagObject); (2, CommitObject); (1, CommitObject); (12, TreeObject); (22, BlobObject); (13, TreeObject);
    (23, BlobObject); (11, TreeObject); (21, BlobObject)].

Lemma Objects_correct_witness :
  exists res, Objects ex_store 16 [] [ex_id 3] [ex_id 1] = Ok res /\ NoDup res
    /\ (forall x, reach ex_store 16 (list_to_set []) [ex_id 3] x -> x.1 ∈ res \/ reach ex_store 16 (list_to_set []) [ex_id 1] x)
    /\ (forall h, h ∈ res -> exists k, reach ex_store 16 (list_to_set []) [ex_id 3] (h, k)).
Proof. apply (Objects_correct ex_store 16 [] [ex_id 3] [ex_id 1]). apply (askable_b_spec _ _ _ _ _ ex_reachable). vm_compute. reflexivity. Defined.
