(* ===== verification/PackScanner.v ===== *)
(** * Reading packs: [plumbing/format/packfile/scanner.go], [scanner_reader.go], [types.go]

    The scanner as its machine of state functions over the bytes of a pack: the
    header, one entry per call, and the checksum.  The zlib codec is a plugin
    ([x/plugin/zlib]) and a parameter; so are the digest of the crypto packages
    and the storage objects are written to.  The reader under the scanner is
    the list of its bytes; what has been read is hashed at once, since every
    use of a hash comes after the flush of the buffer in front of it. *)
From stdpp Require Import base list gmap numbers option strings.
From Stdlib Require Import ZArith Lia.
From S2P Require Import Prelude State GoStrings Varint ObjectId Object Storer MemStorage.

Open Scope Z_scope.

(** ** The codec *)

Inductive zlib_error := ZTruncated (e : ioerr) | ZCorrupt.

(** What a reset zlib reader gives for an input: it fails on the header, or it
    delivers bytes until an error or the end of the stream, with what remains
    of the input. *)
Inductive inflated :=
  | ZHeader (e : zlib_error)
  | ZStream (out : bytes) (fin : zlib_error + bytes).

(** The documented behaviour: a reader over an [io.ByteReader] takes exactly the
    bytes of the stream, and what is written is read back. *)
Class Zlib := {
  inflate : bytes -> inflated;
  deflate : bytes -> bytes;
  inflate_deflate : forall x rest, bytes_ok x -> inflate (deflate x ++ rest) = ZStream x (inr rest);
  inflate_exact : forall r out rest, inflate r = ZStream out (inr rest) ->
    exists z, r = z ++ rest /\ forall rest', inflate (z ++ rest') = ZStream out (inr rest');
  inflate_ok : forall r out rest, bytes_ok r -> inflate r = ZStream out (inr rest) -> bytes_ok out;
  deflate_ok : forall x, bytes_ok x -> bytes_ok (deflate x);
}.

(** What the scanner and the parser use of a storage: opening a writer for an
    object, and closing it after a content was written; the error of closing is
    ignored. *)
Class RawStorer (S : Type) := {
  RawObjectWriter : ObjectType -> Z -> M S unit;
  raw_close : ObjectType -> Z -> bytes -> S -> S;
  raw_object : ObjectType -> ObjectID -> M S EncodedObject;
}.

(** ** CRC-32 ([hash/crc32], the IEEE polynomial) *)

Definition crc_bit (c : Z) : Z := if Z.testbit c 0 then Z.lxor (Z.shiftr c 1) 0xedb88320 else Z.shiftr c 1.
Definition crc_byte (c b : Z) : Z := Nat.iter 8 crc_bit (Z.lxor c b).
Definition crc32 (l : bytes) : Z := Z.lxor (foldl crc_byte 0xffffffff l) 0xffffffff.

Example crc32_check : crc32 (bs "123456789") = 0xcbf43926.
Proof. vm_compute. reflexivity. Qed.

(** ** Types *)

(** The types a header byte can hold; 0 and 5 name no type. *)
Definition type_of_num (n : Z) : ObjectType :=
  if n =? 1 then CommitObject else if n =? 2 then TreeObject else if n =? 3 then BlobObject
  else if n =? 4 then TagObject else if n =? 6 then OFSDeltaObject else if n =? 7 then REFDeltaObject
  else InvalidObject.

Definition type_num (t : ObjectType) : Z :=
  match t with
  | InvalidObject => 0 | CommitObject => 1 | TreeObject => 2 | BlobObject => 3 | TagObject => 4
  | OFSDeltaObject => 6 | REFDeltaObject => 7 | AnyObject => -127
  end.

Definition V2 : Z := 2.
Definition Supported (v : Z) : bool := v =? V2.

(** [content] is [None] for nil; [parent] is the address of another header. *)
Record ObjectHeader := {
  oh_Type : ObjectType; oh_Offset : Z; oh_ContentOffset : Z; oh_Size : Z;
  oh_Reference : ObjectID; oh_OffsetReference : Z; oh_Crc32 : Z; oh_Hash : ObjectID;
  oh_content : option bytes; oh_parent : option nat; oh_diskType : ObjectType;
  oh_externalRef : bool; oh_chainDepth : Z;
}.

Record Header := { Version : Z; ObjectsQty : Z }.

(** [Section] with the value it selects. *)
Inductive PackData :=
  | NoData
  | HeaderSection (h : Header)
  | ObjectSection (oh : ObjectHeader)
  | FooterSection (checksum : ObjectID).

(** ** Errors *)

Inductive scan_error :=
  | ErrEmptyPackfile
  | ErrBadSignature
  | ErrUnsupportedVersion
  | ErrRead (e : ioerr)
  | ErrObjectType
  | ErrSize (e : varint_error)
  | ErrOffset (e : varint_error)
  | ErrOFSDelta
  | ErrZlib (e : zlib_error)
  | ErrInflatedSizeMismatch
  | ErrInflatedSizeShort
  | ErrChecksum
  | ErrStorage (e : storage_error)
  | ErrSeek
  | ErrSeekNotSupported
  | ErrNoHeader
  | ErrObjectNotFound
  | ErrReferenceDeltaNotFound.

(** The errors [Scan] makes an [ErrMalformedPackfile], an end of the input among
    them. *)
Definition ErrMalformedPackfile (e : scan_error) : bool :=
  match e with
  | ErrBadSignature | ErrRead _ | ErrObjectType | ErrOFSDelta | ErrInflatedSizeShort | ErrChecksum => true
  | ErrSize (Varint.ErrRead _) | ErrSize ErrLengthOverflow | ErrOffset (Varint.ErrRead _) | ErrZlib (ZTruncated _) => true
  | _ => false
  end.

(** ** The reader under the scanner *)

(** All the bytes of the source, those that remain, the position, what was
    hashed since the checksum was reset, and since the last [Reset]. *)
Record scannerReader := {
  sr_src : bytes; sr_rest : bytes; sr_offset : Z; sr_crc : bytes; sr_packhash : bytes;
}.

Definition newScannerReader (src : bytes) : scannerReader :=
  {| sr_src := src; sr_rest := src; sr_offset := 0; sr_crc := []; sr_packhash := [] |}.

(** The bytes up to [rest] are read. *)
Definition sr_read (r : scannerReader) (rest : bytes) : scannerReader :=
  let p := take (length (sr_rest r) - length rest) (sr_rest r) in
  {| sr_src := sr_src r; sr_rest := rest; sr_offset := sr_offset r + len p;
     sr_crc := sr_crc r ++ p; sr_packhash := sr_packhash r ++ p |}.

Definition crc_Reset (r : scannerReader) : scannerReader :=
  {| sr_src := sr_src r; sr_rest := sr_rest r; sr_offset := sr_offset r; sr_crc := []; sr_packhash := sr_packhash r |}.

Definition packhash_Reset (r : scannerReader) : scannerReader :=
  {| sr_src := sr_src r; sr_rest := sr_rest r; sr_offset := sr_offset r; sr_crc := sr_crc r; sr_packhash := [] |}.

(** [Seek] from the start; past the end nothing remains. *)
Definition sr_Seek (seekable : bool) (r : scannerReader) (offset : Z) : outcome scan_error scannerReader :=
  if negb seekable then Err ErrSeekNotSupported
  else if offset <? 0 then Err ErrSeek
  else mret {| sr_src := sr_src r; sr_rest := drop (Z.to_nat offset) (sr_src r); sr_offset := offset;
               sr_crc := sr_crc r; sr_packhash := sr_packhash r |}.

(** ** The scanner *)

Inductive stateFn := packHeaderSignature | packVersion | packObjectsQty | objectEntry | packFooter.

Record Scanner (S : Type) := {
  version : Z;
  objects : Z;
  objIndex : Z;
  packSize : Z;
  nextFn : option stateFn;
  packData : PackData;
  scan_err : option scan_error;
  reader : scannerReader;
  storage : option S;
}.
Arguments version {S}. Arguments objects {S}. Arguments objIndex {S}. Arguments packSize {S}.
Arguments nextFn {S}. Arguments packData {S}. Arguments scan_err {S}. Arguments reader {S}. Arguments storage {S}.
Arguments Build_Scanner {S}.

Section setters.
Context {S : Type}.
Implicit Types s : Scanner S.

Definition set_version s v := Build_Scanner v (objects s) (objIndex s) (packSize s) (nextFn s) (packData s) (scan_err s) (reader s) (storage s).
Definition set_objects s n := Build_Scanner (version s) n (objIndex s) (packSize s) (nextFn s) (packData s) (scan_err s) (reader s) (storage s).
Definition set_objIndex s i := Build_Scanner (version s) (objects s) i (packSize s) (nextFn s) (packData s) (scan_err s) (reader s) (storage s).
Definition set_packSize s n := Build_Scanner (version s) (objects s) (objIndex s) n (nextFn s) (packData s) (scan_err s) (reader s) (storage s).
Definition set_next s f := Build_Scanner (version s) (objects s) (objIndex s) (packSize s) f (packData s) (scan_err s) (reader s) (storage s).
Definition set_data s d := Build_Scanner (version s) (objects s) (objIndex s) (packSize s) (nextFn s) d (scan_err s) (reader s) (storage s).
Definition set_err s e := Build_Scanner (version s) (objects s) (objIndex s) (packSize s) (nextFn s) (packData s) e (reader s) (storage s).
Definition set_reader s r := Build_Scanner (version s) (objects s) (objIndex s) (packSize s) (nextFn s) (packData s) (scan_err s) r (storage s).
Definition set_storage s (o : option S) := Build_Scanner (version s) (objects s) (objIndex s) (packSize s) (nextFn s) (packData s) (scan_err s) (reader s) o.
End setters.

Section scanner.
Context {S : Type} `{RawStorer S, Zlib} (digest : ObjectFormat -> bytes -> bytes).
(** The object format ([WithSHA256]), whether the source is an [io.Seeker], and
    the mode of the parser. *)
Context (fmt : ObjectFormat) (seekable lowMemoryMode : bool).

Abbreviation SM := (ST scan_error (Scanner S)).

Definition objectIDSize : Z := if bool_decide (fmt = SHA256) then SHA256Size else SHA1Size.
(** The format of the identifiers and of the digest. *)
Definition id_format : ObjectFormat := if bool_decide (fmt = SHA256) then SHA256 else UnsetObjectFormat.

(** [Hasher.Reset], the writes and [Sum]. *)
Definition hasher_Sum (t : ObjectType) (size : Z) (content : bytes) : ObjectID :=
  oid_Write {| oid_hash := zeros SHA256Size; oid_format := id_format |} (digest id_format (writeHeader t size ++ content)).

Definition NewScanner (src : bytes) (st : option S) : Scanner S :=
  Build_Scanner 0 0 (-1) 0 (Some packHeaderSignature) NoData None (newScannerReader src) st.

(** Reading through the reader. *)
Definition reads {E A} (err : E -> scan_error) (f : bytes -> outcome E (A * bytes)) : SM A := fun s =>
  match f (sr_rest (reader s)) with
  | Ok (a, rest) => (Ok a, set_reader s (sr_read (reader s) rest))
  | Err e => (Err (err e), s)
  | Panic => (Panic, s)
  | NoFuel => (NoFuel, s)
  end.

Definition read_byte (r : bytes) : outcome ioerr (Z * bytes) := match r with [] => Err EOF | b :: r => Ok (b, r) end.

Definition read_uint32 (r : bytes) : outcome ioerr (Z * bytes) := '(b, r) ← ReadFull 4 r; mret (be_val b, r).

Definition do_packHeaderSignature : SM (option stateFn) := fun s =>
  match ReadFull 4 (sr_rest (reader s)) with
  | Ok (start, rest) =>
      if bool_decide (start = bs "PACK") then (Ok (Some packVersion), set_reader s (sr_read (reader s) rest))
      else (Err ErrBadSignature, s)
  | Err EOF => (Err ErrEmptyPackfile, s)
  | Err ErrUnexpectedEOF => (Err ErrBadSignature, s)
  | Panic => (Panic, s)
  | NoFuel => (NoFuel, s)
  end.

Definition do_packVersion : SM (option stateFn) :=
  v ← reads ErrRead read_uint32;
  if negb (Supported v) then st_fail ErrUnsupportedVersion
  else st_set (fun s => set_version s v);; mret (Some packObjectsQty).

Definition do_packObjectsQty : SM (option stateFn) :=
  qty ← reads ErrRead read_uint32;
  if qty =? 0 then mret (Some packFooter)
  else
    st_set (fun s => set_next (set_data (set_objects s qty) (HeaderSection {| Version := version s; ObjectsQty := qty |})) (Some objectEntry));;
    mret None.

Definition ValidateOFSDeltaBase (deltaOffset negativeOffset : Z) : outcome scan_error unit :=
  if (negativeOffset <=? 0) || (negativeOffset >=? deltaOffset) then Err ErrOFSDelta else mret tt.

(** [io.CopyBuffer] through a [boundedWriter]: what is written, and the number
    of bytes.  An overrun is met before an error of the stream behind it. *)
Definition bounded_copy (limit : Z) (out : bytes) (fin : zlib_error + bytes) : bytes * outcome scan_error Z :=
  if (0 <? len out) && (len out >? limit) then (take (Z.to_nat limit) out, Err ErrInflatedSizeMismatch)
  else (out, match fin with inl e => Err (ErrZlib e) | inr _ => Ok (len out) end).

(** The base of a delta: the offset and the identifier. *)
Definition read_base (t : ObjectType) (offset : Z) : SM (Z * ObjectID) :=
  if bool_decide (t = OFSDeltaObject) then
    no ← reads ErrOffset ReadVariableWidthInt;
    st_lift (ValidateOFSDeltaBase offset no);;
    mret (offset - no, ZeroHash)
  else if bool_decide (t = REFDeltaObject) then
    h ← reads ErrRead (ReadFrom (ResetBySize objectIDSize));
    mret (0, h)
  else mret (0, ZeroHash).

(** Opening the storage's writer of an object that is no delta. *)
Definition open_raw (t : ObjectType) (size : Z) : SM unit := fun s =>
  match storage s with
  | Some st =>
      if IsDelta t then (Ok tt, s)
      else let '(r, st) := RawObjectWriter t size st in (map_err ErrStorage r, set_storage s (Some st))
  | None => (Ok tt, s)
  end.

Definition close_raw (t : ObjectType) (size : Z) (written : bytes) : SM unit := fun s =>
  match storage s with
  | Some st => if IsDelta t then (Ok tt, s) else (Ok tt, set_storage s (Some (raw_close t size written st)))
  | None => (Ok tt, s)
  end.

(** The zlib stream of an entry, written to the storage when there is one: the
    content. *)
Definition read_content (t : ObjectType) (size : Z) : SM bytes := fun s =>
  match inflate (sr_rest (reader s)) with
  | ZHeader e => (Err (ErrZlib e), s)
  | ZStream out fin =>
      (open_raw t size;;
       let '(written, r) := bounded_copy size out fin in
       close_raw t size written;;
       n ← st_lift r;
       if negb (n =? size) then st_fail ErrInflatedSizeShort
       else
         st_set (fun s => set_reader s (sr_read (reader s) (match fin with inr rest => rest | inl _ => [] end)));;
         mret written) s
  end.

Definition do_objectEntry : SM (option stateFn) :=
  i ← st_get objIndex;
  n ← st_get objects;
  if i + 1 >=? n then mret (Some packFooter)
  else
    st_set (fun s => set_objIndex s (i + 1));;
    offset ← st_get (fun s => sr_offset (reader s));
    st_set (fun s => set_reader s (crc_Reset (reader s)));;
    b ← reads ErrRead read_byte;
    let typ := type_of_num (Varint.ObjectType b) in
    if negb (Valid typ) then st_fail ErrObjectType
    else
      size ← reads ErrSize (VariableLengthSize b);
      let size := i64 size in
      '(offRef, ref) ← read_base typ offset;
      contentOffset ← st_get (fun s => sr_offset (reader s));
      content ← read_content typ size;
      crc ← st_get (fun s => crc32 (sr_crc (reader s)));
      st_set (fun s => set_data s (ObjectSection
        {| oh_Type := typ; oh_Offset := offset; oh_ContentOffset := contentOffset; oh_Size := size;
           oh_Reference := ref; oh_OffsetReference := offRef; oh_Crc32 := crc;
           oh_Hash := if IsDelta typ then ResetBySize objectIDSize else hasher_Sum typ size content;
           oh_content := if negb lowMemoryMode && (IsDelta typ || negb seekable) then Some content else None;
           oh_parent := None; oh_diskType := typ; oh_externalRef := false; oh_chainDepth := 0 |}));;
      mret None.

Definition do_packFooter : SM (option stateFn) :=
  actual ← st_get (fun s => digest id_format (sr_packhash (reader s)));
  checksum ← reads ErrRead (ReadFrom (ResetBySize objectIDSize));
  if negb (bool_decide (Compare checksum actual = Eq)) then st_fail ErrChecksum
  else
    st_set (fun s => set_next (set_packSize (set_data s (FooterSection checksum)) (sr_offset (reader s))) None);;
    mret None.

Definition step (f : stateFn) : SM (option stateFn) :=
  match f with
  | packHeaderSignature => do_packHeaderSignature
  | packVersion => do_packVersion
  | packObjectsQty => do_packObjectsQty
  | objectEntry => do_objectEntry
  | packFooter => do_packFooter
  end.

Fixpoint scan (fuel : nat) (state : option stateFn) : SM unit :=
  match state with
  | None => mret tt
  | Some f =>
      match fuel with
      | O => fun s => (NoFuel, s)
      | Datatypes.S n => state ← step f; scan n state
      end
  end.

(** A call runs at most the four states from the signature to the footer. *)
Definition scan_fuel : nat := 4.

Definition Scan : SM bool := fun s =>
  if bool_decide (is_Some (scan_err s)) || bool_decide (nextFn s = None) then (Ok false, s)
  else
    match scan scan_fuel (nextFn s) s with
    | (Ok _, s) => (Ok true, s)
    | (Err e, s) => (Ok false, set_err s (Some e))
    | (Panic, s) => (Panic, s)
    | (NoFuel, s) => (NoFuel, s)
    end.

(** *** Seeking *)

Definition seek (offset : Z) : SM unit := fun s =>
  match sr_Seek seekable (reader s) offset with
  | Ok r => (Ok tt, set_reader s r)
  | Err e => (Err e, s)
  | Panic => (Panic, s)
  | NoFuel => (NoFuel, s)
  end.

Definition Reset : SM unit :=
  seek 0;;
  st_set (fun s => Build_Scanner 0 0 (-1) 0 (Some packHeaderSignature) NoData None (packhash_Reset (reader s)) (storage s)).

Definition SeekFromStart (offset : Z) : SM unit :=
  Reset;;
  ok ← Scan;
  if negb ok then st_fail ErrNoHeader else seek offset.

(** What is written, also when the inflation fails. *)
Definition inflateContent (contentOffset declaredSize : Z) : SM (bytes * option scan_error) := fun s =>
  match seek contentOffset s with
  | (Ok _, s) =>
      match inflate (sr_rest (reader s)) with
      | ZHeader e => (Ok ([], Some (ErrZlib e)), s)
      | ZStream out fin =>
          match bounded_copy declaredSize out fin with
          | (written, Ok n) =>
              let s := set_reader s (sr_read (reader s) (match fin with inr rest => rest | inl _ => [] end)) in
              (Ok (written, if n =? declaredSize then None else Some ErrInflatedSizeShort), s)
          | (written, Err e) => (Ok (written, Some e), s)
          | (_, Panic) => (Panic, s)
          | (_, NoFuel) => (NoFuel, s)
          end
      end
  | (Err e, s) => (Ok ([], Some e), s)
  | (Panic, s) => (Panic, s)
  | (NoFuel, s) => (NoFuel, s)
  end.

(** Writing drains the buffer of the header: it is returned without it. *)
Definition WriteObject (oh : ObjectHeader) : SM (bytes * option scan_error * option bytes) :=
  match oh_content oh with
  | Some (c :: cs) => mret (c :: cs, None, Some [])
  | _ =>
      if oh_externalRef oh && (oh_ContentOffset oh =? 0) then mret ([], Some ErrObjectNotFound, oh_content oh)
      else if negb seekable then mret ([], Some ErrObjectNotFound, oh_content oh)
      else
        '(w, e) ← inflateContent (oh_ContentOffset oh) (oh_Size oh);
        mret (w, match e with Some _ => Some ErrReferenceDeltaNotFound | None => None end, oh_content oh)
  end.

(** Scanning to the end: the sections, in order. *)
Fixpoint scan_all (fuel : nat) : SM (list PackData) :=
  match fuel with
  | O => fun s => (NoFuel, s)
  | Datatypes.S n =>
      ok ← Scan;
      if negb ok then mret []
      else d ← st_get packData; ds ← scan_all n; mret (d :: ds)
  end.
End scanner.

(** ** What a pack is

    A decoder that takes exactly the bytes of a value. *)
Definition decodes {E A} (f : bytes -> outcome E (A * bytes)) (p : bytes) (a : A) : Prop :=
  forall rest, f (p ++ rest) = Ok (a, rest).

Definition exact {E A} (f : bytes -> outcome E (A * bytes)) : Prop :=
  forall r a rest, f r = Ok (a, rest) -> exists p, r = p ++ rest /\ decodes f p a.

Inductive base_ref := NoBase | OfsBase (n : Z) | RefBase (h : ObjectID).

(** An entry: the bytes of its header, of the reference to its base and of its
    zlib stream, and what they say. *)
Record entry := {
  en_type : ObjectType; en_base : base_ref; en_data : bytes;
  en_head : bytes; en_ref : bytes; en_zip : bytes;
}.

Definition en_raw (e : entry) : bytes := en_head e ++ en_ref e ++ en_zip e.
Definition raws (es : list entry) : bytes := concat (map en_raw es).

Section grammar.
Context `{Zlib} (digest : ObjectFormat -> bytes -> bytes) (fmt : ObjectFormat) (seekable lowMemoryMode : bool).

Definition head_encodes (hd : bytes) (t : ObjectType) (size : Z) : Prop :=
  exists b h, hd = b :: h /\ type_of_num (Varint.ObjectType b) = t /\ Valid t = true /\ decodes (VariableLengthSize b) h size.

(** The reference of an entry at [off]: an earlier position of the pack, or an
    identifier. *)
Definition ref_encodes (off : Z) (t : ObjectType) (ref : bytes) (b : base_ref) : Prop :=
  match b with
  | OfsBase n => t = OFSDeltaObject /\ decodes ReadVariableWidthInt ref n /\ 0 < n < off
  | RefBase h => t = REFDeltaObject /\ decodes (ReadFrom (ResetBySize (objectIDSize fmt))) ref h
  | NoBase => IsDelta t = false /\ ref = []
  end.

Definition inflates (z content : bytes) : Prop := forall rest, inflate (z ++ rest) = ZStream content (inr rest).

Record entry_ok (off : Z) (e : entry) : Prop := {
  eo_head : head_encodes (en_head e) (en_type e) (len (en_data e));
  eo_ref : ref_encodes off (en_type e) (en_ref e) (en_base e);
  eo_zip : inflates (en_zip e) (en_data e);
  eo_small : len (en_data e) < 2 ^ 63;
}.

Fixpoint entries_ok (off : Z) (es : list entry) : Prop :=
  match es with
  | [] => True
  | e :: es => entry_ok off e /\ entries_ok (off + len (en_raw e)) es
  end.

Definition pack_head (n : Z) : bytes := bs "PACK" ++ PutUint32 V2 ++ PutUint32 n.
Definition pack_body (es : list entry) : bytes := pack_head (len es) ++ raws es.

(** The bytes of a pack, and what may come after it. *)
Record is_pack (src : bytes) (es : list entry) (sum : ObjectID) (rest : bytes) : Prop := {
  ip_src : exists c, src = pack_body es ++ c ++ rest /\ decodes (ReadFrom (ResetBySize (objectIDSize fmt))) c sum;
  ip_count : len es < 2 ^ 32;
  ip_entries : entries_ok 12 es;
  ip_sum : Bytes sum = digest (id_format fmt) (pack_body es);
}.

(** What the scanner says of an entry at [off]. *)
Definition header_of (off : Z) (e : entry) : ObjectHeader :=
  {| oh_Type := en_type e; oh_Offset := off; oh_ContentOffset := off + len (en_head e) + len (en_ref e);
     oh_Size := len (en_data e);
     oh_Reference := match en_base e with RefBase h => h | _ => ZeroHash end;
     oh_OffsetReference := match en_base e with OfsBase n => off - n | _ => 0 end;
     oh_Crc32 := crc32 (en_raw e);
     oh_Hash := if IsDelta (en_type e) then ResetBySize (objectIDSize fmt)
                else hasher_Sum digest fmt (en_type e) (len (en_data e)) (en_data e);
     oh_content := if negb lowMemoryMode && (IsDelta (en_type e) || negb seekable) then Some (en_data e) else None;
     oh_parent := None; oh_diskType := en_type e; oh_externalRef := false; oh_chainDepth := 0 |}.

Fixpoint headers_of (off : Z) (es : list entry) : list ObjectHeader :=
  match es with [] => [] | e :: es => header_of off e :: headers_of (off + len (en_raw e)) es end.

Definition sections (es : list entry) (sum : ObjectID) : list PackData :=
  match es with [] => [] | _ => [HeaderSection {| Version := V2; ObjectsQty := len es |}] end
  ++ map ObjectSection (headers_of 12 es) ++ [FooterSection sum].

(** The storage after an entry. *)
Definition store_entry {S} `{RawStorer S} (st : option S) (e : entry) : option S :=
  match st with
  | Some st =>
      if IsDelta (en_type e) then Some st
      else Some (raw_close (en_type e) (len (en_data e)) (en_data e) (RawObjectWriter (en_type e) (len (en_data e)) st).2)
  | None => None
  end.
End grammar.

(** ** Decoders are exact *)

Lemma read_byte_exact : exact read_byte.
Proof. intros [|b r] a rest [= <- <-]. exists [b]. by split. Qed.

Lemma ReadFull_exact n : exact (ReadFull n).
Proof.
  intros r p rest Hr. destruct (ReadFull_Ok_inv _ _ _ _ Hr) as [-> Hp]. exists p. split; [done|].
  intros rest'. destruct (Z.leb_spec n 0) as [Hn|Hn].
  - rewrite (len_zero_nil p) by lia. unfold ReadFull. by rewrite (proj2 (Z.leb_le n 0)).
  - rewrite Z.max_r in Hp by lia. subst n. by apply ReadFull_app.
Qed.

Lemma read_uint32_exact : exact read_uint32.
Proof.
  intros r a rest. unfold read_uint32. intros ([b r'] & Hb & [= <- <-])%bind_Ok_inv.
  destruct (ReadFull_exact 4 _ _ _ Hb) as (p & -> & Hp). exists p. split; [done|]. intros rest'.
  unfold read_uint32. by rewrite Hp.
Qed.

Lemma ReadFrom_exact s : exact (ReadFrom s).
Proof.
  intros r a rest. unfold ReadFrom. intros ([b r'] & Hb & [= <- <-])%bind_Ok_inv.
  destruct (ReadFull_exact _ _ _ _ Hb) as (p & -> & Hp). exists p. split; [done|]. intros rest'. by rewrite Hp.
Qed.

Lemma VariableLengthSize_loop_exact size shift : exact (fun r => VariableLengthSize_loop r size shift).
Proof.
  intros r. revert size shift. induction r as [|b r IH]; intros size shift a rest; cbn [VariableLengthSize_loop].
  - by destruct (shift >? _).
  - destruct (shift >? 64 - 7) eqn:Hs; [done|]. destruct (Z.land b 0x80 =? 0) eqn:Hb.
    + intros [= <- <-]. exists [b]. split; [done|]. intros rest'. cbn. by rewrite Hs, Hb.
    + intros (p & -> & Hp)%IH. exists (b :: p). split; [done|]. intros rest'. cbn [app VariableLengthSize_loop].
      rewrite Hs, Hb. apply Hp.
Qed.

Lemma VariableLengthSize_exact b : exact (VariableLengthSize b).
Proof.
  intros r a rest. unfold VariableLengthSize. destruct (negb _) eqn:Hb.
  - intros (p & -> & Hp)%VariableLengthSize_loop_exact. exists p. split; [done|]. intros rest'. apply Hp.
  - intros [= <- <-]. exists []. by split.
Qed.

Lemma ReadVariableWidthInt_loop_exact v c : exact (ReadVariableWidthInt_loop v c).
Proof.
  intros r. revert v c. induction r as [|b r IH]; intros v c a rest; cbn [ReadVariableWidthInt_loop];
    destruct (Z.land c 128 >? 0) eqn:Hc.
  - by destruct (v >=? _).
  - intros [= <- <-]. exists []. split; [done|]. intros rest'. destruct rest'; cbn; by rewrite Hc.
  - destruct (v >=? _) eqn:Hv; [done|]. intros (p & -> & Hp)%IH. exists (b :: p). split; [done|]. intros rest'.
    cbn [app ReadVariableWidthInt_loop]. rewrite Hc, Hv. apply Hp.
  - intros [= <- <-]. exists []. split; [done|]. intros rest'. destruct rest'; cbn; by rewrite Hc.
Qed.

Lemma ReadVariableWidthInt_exact : exact ReadVariableWidthInt.
Proof.
  intros [|c r] a rest; cbn [ReadVariableWidthInt]; [done|]. intros (p & -> & Hp)%ReadVariableWidthInt_loop_exact.
  exists (c :: p). split; [done|]. intros rest'. cbn. apply Hp.
Qed.

Lemma be_val_cons x l : is_byte x -> bytes_ok l -> be_val (x :: l) = x * 2 ^ (8 * len l) + be_val l.
Proof.
  intros Hx Hl. unfold be_val at 1. cbn [foldl]. rewrite Z.shiftl_0_l, Z.lor_0_l. unfold is_byte in Hx. by apply be_val_acc; [lia|].
Qed.

Lemma be_val_inj l l' : bytes_ok l -> bytes_ok l' -> length l = length l' -> be_val l = be_val l' -> l = l'.
Proof.
  intros Hl. revert l'. induction Hl as [|x l Hx Hl IH]; intros [|y l'] Hl' Hlen; try done.
  apply Forall_cons in Hl' as [Hy Hl']. injection Hlen as Hlen. rewrite !be_val_cons by done.
  pose proof (be_val_bound l Hl). pose proof (be_val_bound l' Hl').
  assert (len l' = len l) as Heq by (unfold len; lia). rewrite Heq in *. intros Hv.
  assert (x = y) as -> by nia. f_equal. apply IH; [done..|]. lia.
Qed.

Lemma be_bytes_be_val l : bytes_ok l -> be_bytes (length l) (be_val l) = l.
Proof.
  intros Hl. apply be_val_inj; [apply be_bytes_ok|done|apply be_bytes_length|].
  rewrite be_val_be_bytes. apply Z.mod_small. by apply be_val_bound.
Qed.

Lemma read_uint32_PutUint32 v : 0 <= v < 2 ^ 32 -> decodes read_uint32 (PutUint32 v) v.
Proof.
  intros Hv rest. unfold read_uint32. change 4 with (len (PutUint32 v)). rewrite ReadFull_app. cbn [mbind outcome_bind].
  unfold PutUint32. rewrite be_val_be_bytes, Z.mod_small by done. done.
Qed.

Lemma read_uint32_sound r v rest : bytes_ok r -> read_uint32 r = Ok (v, rest) -> r = PutUint32 v ++ rest /\ 0 <= v < 2 ^ 32.
Proof.
  intros Hr. unfold read_uint32. intros ([b r'] & Hb & [= <- <-])%bind_Ok_inv. apply ReadFull_Ok_inv in Hb as [-> Hl].
  apply bytes_ok_app in Hr as [Hb _]. pose proof (be_val_bound b Hb) as Hbd. rewrite Hl in Hbd. split; [|done].
  f_equal. unfold PutUint32. replace 4%nat with (length b) by (unfold len in Hl; lia). by rewrite be_bytes_be_val.
Qed.

Lemma lor_bound x y n : 0 <= n -> 0 <= x < 2 ^ n -> 0 <= y < 2 ^ n -> 0 <= Z.lor x y < 2 ^ n.
Proof.
  intros Hn Hx Hy. replace (Z.lor x y) with (Z.lor x y mod 2 ^ n).
  - apply Z.mod_pos_bound. lia.
  - by rewrite <-Z.land_ones, Z.land_lor_distr_l, !Z.land_ones, !Z.mod_small by lia.
Qed.

Lemma VariableLengthSize_loop_bound r size shift n rest :
  0 <= size < 2 ^ 64 -> VariableLengthSize_loop r size shift = Ok (n, rest) -> 0 <= n < 2 ^ 64.
Proof.
  revert size shift. induction r as [|b r IH]; intros size shift Hs; cbn [VariableLengthSize_loop]; destruct (shift >? _); try done.
  assert (0 <= Z.lor size (u64 (Z.shiftl (Z.land b 0x7f) shift)) < 2 ^ 64) as Hb.
  { apply lor_bound; [lia|done|]. apply wrap_bound. lia. }
  destruct (_ =? 0); [by intros [= <- <-]|]. by apply IH.
Qed.

Lemma VariableLengthSize_bound b r n rest : VariableLengthSize b r = Ok (n, rest) -> 0 <= n < 2 ^ 64.
Proof.
  unfold VariableLengthSize. assert (0 <= Z.land b 0x0f < 2 ^ 64).
  { change 0x0f with (Z.ones 4). rewrite Z.land_ones by lia. pose proof (Z.mod_pos_bound b (2 ^ 4)). lia. }
  destruct (negb _); [by apply VariableLengthSize_loop_bound|]. by intros [= <- <-].
Qed.

(** ** The scanner accepts exactly the packs *)

Lemma sr_read_app r p rest : sr_rest r = p ++ rest ->
  sr_read r rest = {| sr_src := sr_src r; sr_rest := rest; sr_offset := sr_offset r + len p;
                      sr_crc := sr_crc r ++ p; sr_packhash := sr_packhash r ++ p |}.
Proof.
  intros Hr. unfold sr_read. rewrite Hr, length_app. replace (length p + length rest - length rest)%nat with (length p) by lia.
  by rewrite take_app_length.
Qed.

Section correct.
Context {S : Type} `{RawStorer S, Zlib} (digest : ObjectFormat -> bytes -> bytes).
Context (fmt : ObjectFormat) (seekable lowMemoryMode : bool).
Hypothesis opens : forall t n (st : S), (RawObjectWriter t n st).1 = Ok tt.

#[local] Notation do_objectEntry := (do_objectEntry (S := S) digest fmt seekable lowMemoryMode).
#[local] Notation do_packFooter := (do_packFooter (S := S) digest fmt).
#[local] Notation header_of := (header_of digest fmt seekable lowMemoryMode).
#[local] Notation entry_ok := (entry_ok fmt).

Lemma reads_complete {E A} (err : E -> scan_error) f p (a : A) (s : Scanner S) rest :
  decodes f p a -> sr_rest (reader s) = p ++ rest -> reads err f s = (Ok a, set_reader s (sr_read (reader s) rest)).
Proof. intros Hf Hr. unfold reads. by rewrite Hr, Hf. Qed.

Lemma reads_sound {E A} (err : E -> scan_error) f (a : A) (s s' : Scanner S) :
  exact f -> reads err f s = (Ok a, s') ->
  exists p rest, sr_rest (reader s) = p ++ rest /\ decodes f p a /\ s' = set_reader s (sr_read (reader s) rest).
Proof.
  intros Hf. unfold reads. destruct (f _) as [[a' rest]| | |] eqn:Hr; try done. intros [= -> <-].
  destruct (Hf _ _ _ Hr) as (p & Hp & Hd). by exists p, rest.
Qed.

Lemma read_content_complete t (z content rest : bytes) (s : Scanner S) :
  inflates z content -> sr_rest (reader s) = z ++ rest ->
  read_content t (len content) s
  = (Ok content, set_reader (set_storage s
      (match storage s with
       | Some st => if IsDelta t then Some st else Some (raw_close t (len content) content (RawObjectWriter t (len content) st).2)
       | None => None end)) (sr_read (reader s) rest)).
Proof.
  intros Hz Hr. unfold read_content. rewrite Hr, Hz. unfold bounded_copy.
  replace (len content >? len content) with false by (symmetry; apply Z.gtb_ltb, Z.ltb_irrefl || (rewrite Z.gtb_ltb; apply Z.ltb_irrefl)).
  rewrite andb_false_r. destruct s as [v o i ps nf pd er r st]. cbn in Hr.
  unfold open_raw, close_raw, st_lift, st_set, mbind, ST_bind. cbn. destruct st as [st|]; cbn; [|by rewrite Z.eqb_refl].
  destruct (IsDelta t); cbn; [by rewrite Z.eqb_refl|].
  pose proof (opens t (len content) st) as Hop. destruct (RawObjectWriter t (len content) st) as [r0 st']. cbn in *. subst r0.
  cbn. by rewrite Z.eqb_refl.
Qed.
Lemma set_reader_read_nil (s : Scanner S) : set_reader s (sr_read (reader s) (sr_rest (reader s))) = s.
Proof.
  destruct s as [v o i ps nf pd er r st]. unfold set_reader. cbn. f_equal. rewrite (sr_read_app r [] _ eq_refl).
  destruct r. cbn. by rewrite !app_nil_r, Z.add_0_r.
Qed.

Definition base_offset (off : Z) (b : base_ref) : Z := match b with OfsBase n => off - n | _ => 0 end.
Definition base_id (b : base_ref) : ObjectID := match b with RefBase h => h | _ => ZeroHash end.

Lemma read_base_complete off t ref b (s : Scanner S) rest :
  ref_encodes fmt off t ref b -> sr_rest (reader s) = ref ++ rest ->
  read_base fmt t off s = (Ok (base_offset off b, base_id b), set_reader s (sr_read (reader s) rest)).
Proof.
  intros Hb Hr. unfold read_base. destruct b as [|n|h]; cbn in Hb.
  - destruct Hb as [Ht ->]. cbn [app] in Hr. subst rest. rewrite set_reader_read_nil. by destruct t.
  - destruct Hb as (-> & Hd & Hn). rewrite bool_decide_eq_true_2 by done. rewrite (st_bind_Ok _ _ _ _ _ (reads_complete _ _ _ _ _ _ Hd Hr)).
    unfold ValidateOFSDeltaBase. replace (n <=? 0) with false by lia. replace (n >=? off) with false by lia. done.
  - destruct Hb as (-> & Hd). rewrite bool_decide_eq_false_2, bool_decide_eq_true_2 by done. by rewrite (st_bind_Ok _ _ _ _ _ (reads_complete _ _ _ _ _ _ Hd Hr)).
Qed.

Lemma read_base_sound off t (s s' : Scanner S) a :
  Valid t = true -> read_base fmt t off s = (Ok a, s') ->
  exists ref b rest, ref_encodes fmt off t ref b /\ sr_rest (reader s) = ref ++ rest
    /\ s' = set_reader s (sr_read (reader s) rest).
Proof.
  intros Ht. unfold read_base. destruct (bool_decide (t = OFSDeltaObject)) eqn:Hofs; [|destruct (bool_decide (t = REFDeltaObject)) eqn:Href].
  - apply bool_decide_eq_true_1 in Hofs. intros (n & s1 & Hn & Hk)%st_bind_Ok_inv.
    apply st_bind_Ok_inv in Hk as (u & s2 & Hv & [= _ <-]).
    apply reads_sound in Hn as (ref & rest & Hr & Hd & ->); [|apply ReadVariableWidthInt_exact].
    unfold st_lift, ValidateOFSDeltaBase in Hv. destruct (Z.leb_spec n 0); [done|]. destruct (n >=? off) eqn:Hoff; [done|].
    injection Hv as _ <-. exists ref, (OfsBase n), rest. split; [|done]. cbn. split_and!; [done..|lia|lia].
  - apply bool_decide_eq_true_1 in Href. intros (h & s1 & Hn & [= _ <-])%st_bind_Ok_inv.
    apply reads_sound in Hn as (ref & rest & Hr & Hd & ->); [|apply ReadFrom_exact]. exists ref, (RefBase h), rest. done.
  - intros [= _ <-]. exists [], NoBase, (sr_rest (reader s)). rewrite set_reader_read_nil. split_and!; [|done..].
    cbn. split; [|done]. apply bool_decide_eq_false_1 in Hofs, Href. by destruct t.
Qed.

Lemma read_content_sound t size content (s s' : Scanner S) :
  read_content t size s = (Ok content, s') ->
  exists z rest, inflates z content /\ sr_rest (reader s) = z ++ rest /\ size = len content.
Proof.
  unfold read_content. destruct (inflate _) as [|out fin] eqn:Hz; [done|].
  intros (u & s1 & _ & Hk)%st_bind_Ok_inv. unfold bounded_copy in Hk.
  destruct (_ && _).
  - apply st_bind_Ok_inv in Hk as (? & ? & _ & Hk). apply st_bind_Ok_inv in Hk as (? & ? & Hk & _). done.
  - apply st_bind_Ok_inv in Hk as (? & ? & _ & Hk). apply st_bind_Ok_inv in Hk as (n & ? & Hn & Hk).
    destruct fin as [e|rest]; [done|]. injection Hn as <- <-.
    destruct (negb (len out =? size)) eqn:Hl; [done|]. apply negb_false_iff, Z.eqb_eq in Hl.
    apply st_bind_Ok_inv in Hk as (? & ? & _ & [= <- _]).
    destruct (inflate_exact _ _ _ Hz) as (z & Hr & Hall). by exists z, rest.
Qed.

(** The scanner at a position of its source. *)
Definition at_pos v o i ps nf pd (src rest : bytes) (off : Z) (crc ph : bytes) (st : option S) : Scanner S :=
  Build_Scanner v o i ps nf pd None
    {| sr_src := src; sr_rest := rest; sr_offset := off; sr_crc := crc; sr_packhash := ph |} st.

Section at_pos.
Context (v o i ps : Z) (nf : option stateFn) (pd : PackData) (src rest : bytes) (off : Z) (crc ph : bytes) (st : option S).

Lemma set_reader_at p : set_reader (at_pos v o i ps nf pd src (p ++ rest) off crc ph st)
    (sr_read (reader (at_pos v o i ps nf pd src (p ++ rest) off crc ph st)) rest)
  = at_pos v o i ps nf pd src rest (off + len p) (crc ++ p) (ph ++ p) st.
Proof. by rewrite (sr_read_app _ p). Qed.

Lemma reads_at {E A} (err : E -> scan_error) f p (a : A) : decodes f p a ->
  reads err f (at_pos v o i ps nf pd src (p ++ rest) off crc ph st)
  = (Ok a, at_pos v o i ps nf pd src rest (off + len p) (crc ++ p) (ph ++ p) st).
Proof. intros Hf. by rewrite (reads_complete _ _ _ _ _ rest Hf), set_reader_at. Qed.

Lemma base_at o' t ref b : ref_encodes fmt o' t ref b ->
  read_base fmt t o' (at_pos v o i ps nf pd src (ref ++ rest) off crc ph st)
  = (Ok (base_offset o' b, base_id b), at_pos v o i ps nf pd src rest (off + len ref) (crc ++ ref) (ph ++ ref) st).
Proof. intros Hb. by rewrite (read_base_complete _ _ _ _ _ rest Hb), set_reader_at. Qed.

Lemma content_at t z content : inflates z content ->
  read_content t (len content) (at_pos v o i ps nf pd src (z ++ rest) off crc ph st)
  = (Ok content, at_pos v o i ps nf pd src rest (off + len z) (crc ++ z) (ph ++ z)
      (match st with
       | Some st => if IsDelta t then Some st else Some (raw_close t (len content) content (RawObjectWriter t (len content) st).2)
       | None => None end)).
Proof.
  intros Hz. rewrite (read_content_complete _ _ _ rest _ Hz) by done.
  by rewrite (sr_read_app _ z).
Qed.
End at_pos.

Lemma i64_of_size n : 0 <= n < 2 ^ 63 -> i64 n = n.
Proof. intros. apply i64_small. lia. Qed.

Lemma entry_complete v o i ps nf pd src rest off crc ph st e :
  entry_ok off e -> i + 1 < o ->
  do_objectEntry (at_pos v o i ps nf pd src (en_raw e ++ rest) off crc ph st)
  = (Ok None, at_pos v o (i + 1) ps nf (ObjectSection (header_of off e)) src rest (off + len (en_raw e)) (en_raw e) (ph ++ en_raw e)
                (store_entry st e)).
Proof.
  intros [(b & hd & Hhd & Hty & Hv & Hsz) Href Hz Hsmall] Hi. unfold PackScanner.do_objectEntry.
  rewrite !(st_bind_Ok (st_get _) _ _ _ _ eq_refl). cbn [objIndex objects at_pos].
  replace (i + 1 >=? o) with false by lia.
  rewrite (st_bind_Ok (st_set _) _ _ _ _ eq_refl), (st_bind_Ok (st_get _) _ _ _ _ eq_refl), (st_bind_Ok (st_set _) _ _ _ _ eq_refl).
  match goal with |- _ ?s = _ => change s with (at_pos v o (i + 1) ps nf pd src (en_raw e ++ rest) off [] ph st) end.
  unfold en_raw. rewrite Hhd, <-!app_assoc. change (b :: hd) with ([b] ++ hd). rewrite <-!app_assoc.
  rewrite (st_bind_Ok _ _ _ _ _ (reads_at _ _ _ _ _ _ _ _ _ _ _ _ ErrRead read_byte [b] b (fun _ => eq_refl))).
  rewrite Hty, Hv. cbn [negb].
  rewrite (st_bind_Ok _ _ _ _ _ (reads_at _ _ _ _ _ _ _ _ _ _ _ _ ErrSize _ _ _ Hsz)).
  rewrite i64_of_size by (pose proof (len_nonneg (en_data e)); lia).
  rewrite (st_bind_Ok _ _ _ _ _ (base_at _ _ _ _ _ _ _ _ _ _ _ _ _ _ _ _ Href)). cbn beta iota.
  rewrite (st_bind_Ok (st_get _) _ _ _ _ eq_refl).
  rewrite (st_bind_Ok _ _ _ _ _ (content_at _ _ _ _ _ _ _ _ _ _ _ _ _ _ _ Hz)).
  rewrite (st_bind_Ok (st_get _) _ _ _ _ eq_refl), (st_bind_Ok (st_set _) _ _ _ _ eq_refl).
  unfold mret, ST_ret, at_pos, set_data, header_of, en_raw. cbn. rewrite Hhd. cbn.
  rewrite <-?app_assoc. cbn [app]. rewrite <-?app_assoc.
  replace (off + len [b] + len hd + len (en_ref e) + len (en_zip e)) with (off + len (b :: hd ++ en_ref e ++ en_zip e)) by len_lia.
  by replace (off + len [b] + len hd) with (off + len (b :: hd)) by len_lia.
Qed.

(** *** What a step that succeeds has read *)

Section at_pos_inv.
Context (v o i ps : Z) (nf : option stateFn) (pd : PackData) (src rest : bytes) (off : Z) (crc ph : bytes) (st : option S).
#[local] Notation here := (at_pos v o i ps nf pd src rest off crc ph st).
#[local] Notation after p r := (at_pos v o i ps nf pd src r (off + len p) (crc ++ p) (ph ++ p) st).

Lemma reads_at_inv {E A} (err : E -> scan_error) f (a : A) s' :
  exact f -> reads err f here = (Ok a, s') ->
  exists p r, rest = p ++ r /\ decodes f p a /\ s' = after p r.
Proof.
  intros Hf (p & r & Hr & Hd & ->)%reads_sound; [|done]. cbn in Hr. subst rest. exists p, r.
  by rewrite set_reader_at.
Qed.

Lemma base_at_inv o' t a s' :
  Valid t = true -> read_base fmt t o' here = (Ok a, s') ->
  exists ref b r, rest = ref ++ r /\ ref_encodes fmt o' t ref b /\ s' = after ref r.
Proof.
  intros Ht (ref & b & r & Hb & Hr & ->)%read_base_sound; [|done]. cbn in Hr. subst rest. exists ref, b, r.
  by rewrite set_reader_at.
Qed.

End at_pos_inv.

Lemma entry_at_inv v o i ps nf pd src rest off crc ph st x s' :
  do_objectEntry (at_pos v o i ps nf pd src rest off crc ph st) = (Ok x, s') -> i + 1 < o ->
  exists e r, rest = en_raw e ++ r /\ entry_ok off e.
Proof.
  intros He Hi. unfold PackScanner.do_objectEntry in He.
  rewrite !(st_bind_Ok (st_get _) _ _ _ _ eq_refl) in He. cbn [objIndex objects at_pos] in He.
  replace (i + 1 >=? o) with false in He by lia.
  rewrite (st_bind_Ok (st_set _) _ _ _ _ eq_refl), (st_bind_Ok (st_get _) _ _ _ _ eq_refl), (st_bind_Ok (st_set _) _ _ _ _ eq_refl) in He.
  match type of He with _ ?s = _ => change s with (at_pos v o (i + 1) ps nf pd src rest off [] ph st) in He end.
  apply st_bind_Ok_inv in He as (b & s1 & Hb & He).
  apply reads_at_inv in Hb as (p & r & -> & Hb & ->); [|apply read_byte_exact].
  destruct (Valid (type_of_num (Varint.ObjectType b))) eqn:Hv; cbn [negb] in He; [|done].
  apply st_bind_Ok_inv in He as (sz & s1 & Hsz & He).
  apply reads_at_inv in Hsz as (hd & r1 & -> & Hsz & ->); [|apply VariableLengthSize_exact].
  apply st_bind_Ok_inv in He as ([offRef ref'] & s1 & Hb' & He).
  change (sr_offset (reader (at_pos v o i ps nf pd src (p ++ hd ++ r1) off crc ph st))) with off in Hb'.
  apply base_at_inv in Hb' as (ref & bs & r2 & -> & Href & ->); [|done].
  rewrite (st_bind_Ok (st_get _) _ _ _ _ eq_refl) in He.
  apply st_bind_Ok_inv in He as (content & s1 & Hc & He).
  apply read_content_sound in Hc as (z & r3 & Hz & Hr & Hlen). cbn in Hr. subst r2.
  pose proof (Hb []) as Hp. destruct p as [|b' p]; [done|]. cbn in Hp. injection Hp as -> Hp. rewrite app_nil_r in Hp. subst p.
  pose proof (VariableLengthSize_bound _ _ _ _ (Hsz [])) as Hszb.
  assert (sz = len content /\ len content < 2 ^ 63) as [-> Hsmall].
  { pose proof (len_nonneg content). unfold i64 in Hlen. rewrite wrap_small in Hlen by lia.
    destruct (Z.ltb_spec sz (2 ^ 63)); lia. }
  exists {| en_type := type_of_num (Varint.ObjectType b); en_base := bs; en_data := content; en_head := b :: hd; en_ref := ref; en_zip := z |}, r3.
  split; [unfold en_raw; cbn; by rewrite <-!app_assoc|]. split; cbn; try done. by exists b, hd.
Qed.
(** *** The checksum *)

Lemma footer_complete v o i ps nf pd src rest off crc ph st c sum :
  decodes (ReadFrom (ResetBySize (objectIDSize fmt))) c sum -> Bytes sum = digest (id_format fmt) ph ->
  do_packFooter (at_pos v o i ps nf pd src (c ++ rest) off crc ph st)
  = (Ok None, at_pos v o i (off + len c) None (FooterSection sum) src rest (off + len c) (crc ++ c) (ph ++ c) st).
Proof.
  intros Hc Hs. unfold PackScanner.do_packFooter. rewrite (st_bind_Ok (st_get _) _ _ _ _ eq_refl).
  rewrite (st_bind_Ok _ _ _ _ _ (reads_at _ _ _ _ _ _ _ _ _ _ _ _ _ _ _ _ Hc)).
  unfold Compare. cbn [sr_packhash reader at_pos]. by rewrite Hs, bytes_compare_refl.
Qed.

Lemma footer_inv v o i ps nf pd src rest off crc ph st x s' :
  do_packFooter (at_pos v o i ps nf pd src rest off crc ph st) = (Ok x, s') ->
  exists c sum r, rest = c ++ r /\ decodes (ReadFrom (ResetBySize (objectIDSize fmt))) c sum
    /\ Bytes sum = digest (id_format fmt) ph.
Proof.
  unfold PackScanner.do_packFooter. rewrite (st_bind_Ok (st_get _) _ _ _ _ eq_refl).
  intros (sum & s1 & Hc & Hk)%st_bind_Ok_inv. apply reads_at_inv in Hc as (c & r & -> & Hc & ->); [|apply ReadFrom_exact].
  destruct (bool_decide _) eqn:Hd; cbn in Hk; [|done]. apply bool_decide_eq_true_1, bytes_compare_eq in Hd.
  by exists c, sum, r.
Qed.

(** *** Every call returns *)

Definition rank (f : stateFn) : nat :=
  match f with packHeaderSignature => 4 | packVersion => 3 | packObjectsQty => 2 | objectEntry => 2 | packFooter => 1 end.

Lemma reads_returns {E A} (err : E -> scan_error) (f : bytes -> outcome E (A * bytes)) (s : Scanner S) :
  (forall r, returns (f r)) -> st_returns (reads err f) s.
Proof. intros Hf. unfold st_returns, reads. specialize (Hf (sr_rest (reader s))). by destruct (f _) as [[]| | |]. Qed.

Lemma read_uint32_returns r : returns (read_uint32 r).
Proof. unfold read_uint32. apply returns_bind; [apply ReadFull_returns|]. by intros []. Qed.

Lemma ReadFrom_returns h r : returns (ReadFrom h r).
Proof. unfold ReadFrom. apply returns_bind; [apply ReadFull_returns|]. by intros []. Qed.

Lemma VariableLengthSize_loop_returns r size shift : returns (VariableLengthSize_loop r size shift).
Proof. revert size shift. induction r as [|b r IH]; intros; cbn; destruct (shift >? _); try done. by destruct (_ =? 0); [|apply IH]. Qed.

Lemma VariableLengthSize_returns b r : returns (VariableLengthSize b r).
Proof. unfold VariableLengthSize. destruct (negb _); [apply VariableLengthSize_loop_returns|done]. Qed.

Lemma ReadVariableWidthInt_returns r : returns (ReadVariableWidthInt r).
Proof.
  destruct r as [|c r]; [done|]. cbn [ReadVariableWidthInt]. generalize (Z.land c 127). revert c.
  induction r as [|b r IH]; intros c v; cbn [ReadVariableWidthInt_loop]; destruct (_ >? 0); try done; by destruct (v >=? _).
Qed.

#[local] Hint Resolve reads_returns read_uint32_returns ReadFrom_returns VariableLengthSize_returns
  ReadVariableWidthInt_returns ReadFull_returns : scans.

Lemma read_base_returns t off (s : Scanner S) : st_returns (read_base fmt t off) s.
Proof.
  unfold read_base. destruct (bool_decide _); [|destruct (bool_decide _); [|done]].
  - apply st_returns_bind; [by auto with scans|]. intros no s1 _. apply st_returns_bind; [|done].
    unfold st_returns, st_lift, ValidateOFSDeltaBase. by destruct (_ || _).
  - apply st_returns_bind; [by auto with scans|done].
Qed.

Lemma read_content_returns t size (s : Scanner S) : st_returns (read_content t size) s.
Proof.
  unfold st_returns, read_content. destruct (inflate _) as [|out fin]; [done|].
  unfold bounded_copy. destruct (_ && _), fin; unfold open_raw, close_raw, st_lift, mbind, ST_bind, st_set;
    destruct (storage s) as [st|] eqn:Hst; cbn; rewrite ?Hst; cbn;
    try (destruct (IsDelta t); cbn; rewrite ?Hst; cbn);
    try (pose proof (opens t size st) as Hop; destruct (RawObjectWriter t size st) as [r0 st']; cbn in Hop; subst r0; cbn);
    try done; by destruct (len out =? size).
Qed.

Lemma step_returns f (s : Scanner S) : st_returns (step digest fmt seekable lowMemoryMode f) s.
Proof.
  destruct f; cbn [step].
  - unfold st_returns, do_packHeaderSignature. pose proof (ReadFull_returns 4 (sr_rest (reader s))) as Hr.
    destruct (ReadFull _ _) as [[]|[]| |]; try done. by destruct (bool_decide _).
  - unfold do_packVersion. apply st_returns_bind; [by auto with scans|]. intros v s1 _. by destruct (negb _).
  - unfold do_packObjectsQty. apply st_returns_bind; [by auto with scans|]. intros q s1 _. by destruct (_ =? 0).
  - unfold PackScanner.do_objectEntry. do 2 (apply st_returns_bind; [done|]; intros ? ? _). destruct (_ >=? _); [done|].
    do 3 (apply st_returns_bind; [done|]; intros ? ? _).
    apply st_returns_bind; [apply reads_returns; by intros []|]. intros b s1 _. destruct (negb _); [done|].
    apply st_returns_bind; [apply reads_returns, VariableLengthSize_returns|]. intros sz s2 _.
    apply st_returns_bind; [apply read_base_returns|]. intros [] s3 _. apply st_returns_bind; [done|]. intros ? s4 _.
    apply st_returns_bind; [apply read_content_returns|]. intros ? s5 _. done.
  - unfold PackScanner.do_packFooter. apply st_returns_bind; [done|]. intros ? s1 _.
    apply st_returns_bind; [by auto with scans|]. intros ? s2 _. by destruct (negb _).
Qed.
Lemma step_rank f g (s s' : Scanner S) :
  step digest fmt seekable lowMemoryMode f s = (Ok (Some g), s') -> (rank g < rank f)%nat.
Proof.
  destruct f; cbn [step].
  - unfold do_packHeaderSignature. destruct (ReadFull _ _) as [[]|[]| |]; try done. destruct (bool_decide _); [|done].
    intros [= <- _]. cbn. lia.
  - unfold do_packVersion. intros (v & s1 & _ & Hk)%st_bind_Ok_inv. destruct (negb _); [done|].
    apply st_bind_Ok_inv in Hk as (? & ? & _ & [= <- _]). cbn. lia.
  - unfold do_packObjectsQty. intros (q & s1 & _ & Hk)%st_bind_Ok_inv. destruct (q =? 0); [injection Hk as <- _; cbn; lia|].
    by apply st_bind_Ok_inv in Hk as (? & ? & _ & [= ]).
  - unfold PackScanner.do_objectEntry. intros (i & s1 & _ & Hk)%st_bind_Ok_inv. apply st_bind_Ok_inv in Hk as (n & s2 & _ & Hk).
    destruct (_ >=? _); [injection Hk as <- _; cbn; lia|].
    do 3 (apply st_bind_Ok_inv in Hk as (? & ? & _ & Hk)).
    apply st_bind_Ok_inv in Hk as (b & ? & _ & Hk). destruct (negb _); [done|].
    apply st_bind_Ok_inv in Hk as (? & ? & _ & Hk). apply st_bind_Ok_inv in Hk as ([] & ? & _ & Hk).
    do 4 (apply st_bind_Ok_inv in Hk as (? & ? & _ & Hk)). done.
  - unfold PackScanner.do_packFooter. intros (? & s1 & _ & Hk)%st_bind_Ok_inv. apply st_bind_Ok_inv in Hk as (? & ? & _ & Hk).
    destruct (negb _); [done|]. by apply st_bind_Ok_inv in Hk as (? & ? & _ & [= ]).
Qed.

#[local] Notation scan := (scan (S := S) digest fmt seekable lowMemoryMode).
#[local] Notation Scan := (Scan (S := S) digest fmt seekable lowMemoryMode).

Lemma pack_scan_returns n o (s : Scanner S) :
  (match o with Some f => rank f | None => 0 end <= n)%nat -> st_returns (scan n o) s.
Proof.
  revert o s. induction n as [|n IH]; intros [f|] s Hn; cbn [PackScanner.scan]; try done; [by destruct f; cbn in Hn; lia|].
  apply st_returns_bind; [apply step_returns|]. intros [g|] s' Hg; apply IH; [|lia].
  apply step_rank in Hg. lia.
Qed.

(** A call gives a section, or an error that stays. *)
Lemma Scan_returns (s : Scanner S) :
  exists b s', Scan s = (Ok b, s')
    /\ (b = false -> scan_err s = None -> nextFn s <> None -> scan_err s' <> None).
Proof.
  unfold PackScanner.Scan. destruct (_ || _) eqn:Hs.
  - exists false, s. split; [done|]. intros _ He Hn. rewrite He in Hs. cbn in Hs. by apply bool_decide_eq_true_1 in Hs.
  - assert (st_returns (scan scan_fuel (nextFn s)) s) as Hr.
    { apply pack_scan_returns. unfold scan_fuel. destruct (nextFn s) as [[]|]; cbn; lia. }
    unfold st_returns in Hr. destruct (scan scan_fuel (nextFn s) s) as [[[]|e| |] s']; try done; [by exists true, s'|].
    exists false, (set_err s' (Some e)). by split.
Qed.

Lemma Scan_step f (s : Scanner S) :
  scan_err s = None -> nextFn s = Some f ->
  Scan s = match scan scan_fuel (Some f) s with
           | (Ok _, s) => (Ok true, s) | (Err e, s) => (Ok false, set_err s (Some e))
           | (Panic, s) => (Panic, s) | (NoFuel, s) => (NoFuel, s) end.
Proof. intros He Hn. unfold PackScanner.Scan. by rewrite He, Hn. Qed.

Lemma scan_done n f (s s' : Scanner S) :
  step digest fmt seekable lowMemoryMode f s = (Ok None, s') -> scan (Datatypes.S n) (Some f) s = (Ok tt, s').
Proof. intros Hf. cbn [PackScanner.scan]. rewrite (st_bind_Ok _ _ _ _ _ Hf). by destruct n. Qed.

Lemma scan_next n f g (s s' : Scanner S) :
  step digest fmt seekable lowMemoryMode f s = (Ok (Some g), s') -> scan (Datatypes.S n) (Some f) s = scan n (Some g) s'.
Proof. intros Hf. cbn [PackScanner.scan]. by rewrite (st_bind_Ok _ _ _ _ _ Hf). Qed.

Lemma Scan_true_inv f (s s' : Scanner S) :
  scan_err s = None -> nextFn s = Some f -> Scan s = (Ok true, s') ->
  exists x s1, step digest fmt seekable lowMemoryMode f s = (Ok x, s1) /\ scan 3 x s1 = (Ok tt, s').
Proof.
  intros He Hn. rewrite (Scan_step f) by done. unfold scan_fuel.
  destruct (scan 4 (Some f) s) as [[[]|e| |] s2] eqn:Hs; try done. intros [= <-].
  cbn [PackScanner.scan] in Hs. by apply st_bind_Ok_inv in Hs.
Qed.

(** *** The entries *)

(** The scanner of a pack of [n] entries after [done] of them. *)
Definition after_entries (src : bytes) (n : Z) (done : list entry) pd (rest crc : bytes) (st : option S) : Scanner S :=
  at_pos V2 n (len done - 1) 0 (Some objectEntry) pd src rest (12 + len (raws done)) crc (pack_head n ++ raws done) st.

Lemma raws_snoc es e : raws (es ++ [e]) = raws es ++ en_raw e.
Proof. unfold raws. rewrite map_app, concat_app. cbn. by rewrite app_nil_r. Qed.

Lemma Scan_entry src n done e pd rest crc st :
  entry_ok (12 + len (raws done)) e -> len done < n ->
  Scan (after_entries src n done pd (en_raw e ++ rest) crc st)
  = (Ok true, after_entries src n (done ++ [e]) (ObjectSection (header_of (12 + len (raws done)) e)) rest (en_raw e) (store_entry st e)).
Proof.
  intros He Hn. rewrite (Scan_step objectEntry) by done. unfold scan_fuel, after_entries at 1.
  erewrite scan_done by (apply (entry_complete V2 n (len done - 1)); [done|lia]).
  unfold after_entries. rewrite raws_snoc, <-app_assoc, !len_app.
  replace (len done - 1 + 1) with (len done + len [e] - 1) by len_lia. by rewrite Z.add_assoc.
Qed.

Lemma Scan_entry_inv src n done pd rest crc st s' :
  len done < n -> Scan (after_entries src n done pd rest crc st) = (Ok true, s') ->
  exists e r, rest = en_raw e ++ r /\ entry_ok (12 + len (raws done)) e.
Proof.
  intros Hn (x & s1 & He & _)%(Scan_true_inv objectEntry); [|done..]. eapply entry_at_inv; [exact He|lia].
Qed.

Definition finished (src : bytes) (n : Z) (done : list entry) i sum c (rest crc : bytes) (st : option S) : Scanner S :=
  at_pos V2 n i (12 + len (raws done) + len c) None (FooterSection sum) src rest (12 + len (raws done) + len c) crc
    (pack_head n ++ raws done ++ c) st.

Lemma entries_end (s : Scanner S) : objects s <= objIndex s + 1 -> do_objectEntry s = (Ok (Some packFooter), s).
Proof.
  intros Hn. unfold PackScanner.do_objectEntry. rewrite !(st_bind_Ok (st_get _) _ _ _ _ eq_refl).
  by replace (objIndex s + 1 >=? objects s) with true by lia.
Qed.

Lemma Scan_footer src n done pd rest crc st c sum :
  n <= len done -> decodes (ReadFrom (ResetBySize (objectIDSize fmt))) c sum ->
  Bytes sum = digest (id_format fmt) (pack_head n ++ raws done) ->
  Scan (after_entries src n done pd (c ++ rest) crc st) = (Ok true, finished src n done (len done - 1) sum c rest (crc ++ c) st).
Proof.
  intros Hn Hc Hs. rewrite (Scan_step objectEntry) by done. unfold scan_fuel.
  erewrite (scan_next 3 objectEntry packFooter) by (apply entries_end; cbn; lia).
  erewrite scan_done by (cbn [step]; by apply footer_complete). unfold finished. by rewrite app_assoc.
Qed.

Lemma Scan_footer_inv src n done pd rest crc st s' :
  n <= len done -> Scan (after_entries src n done pd rest crc st) = (Ok true, s') ->
  exists c sum r, rest = c ++ r /\ decodes (ReadFrom (ResetBySize (objectIDSize fmt))) c sum
    /\ Bytes sum = digest (id_format fmt) (pack_head n ++ raws done).
Proof.
  intros Hn (x & s1 & He & Hk)%(Scan_true_inv objectEntry); [|done..]. cbn [step] in He.
  rewrite entries_end in He by (cbn; lia). injection He as <- <-. cbn [PackScanner.scan step] in Hk.
  apply st_bind_Ok_inv in Hk as (x & s2 & Hf & _). eapply footer_inv. exact Hf.
Qed.
(** *** The header *)

Lemma NewScanner_at src (st : option S) : NewScanner src st = at_pos 0 0 (-1) 0 (Some packHeaderSignature) NoData src src 0 [] [] st.
Proof. done. Qed.

Lemma len_pack_head n : len (pack_head n) = 12.
Proof. unfold pack_head. rewrite !len_app. unfold PutUint32. by rewrite !be_bytes_len. Qed.

Lemma signature_at v o i ps nf pd src rest off crc ph st :
  do_packHeaderSignature (at_pos v o i ps nf pd src (bs "PACK" ++ rest) off crc ph st)
  = (Ok (Some packVersion), at_pos v o i ps nf pd src rest (off + 4) (crc ++ bs "PACK") (ph ++ bs "PACK") st).
Proof.
  unfold do_packHeaderSignature. cbn [sr_rest reader at_pos]. change 4 with (len (bs "PACK")) at 1. rewrite ReadFull_app.
  rewrite bool_decide_eq_true_2 by done. by rewrite set_reader_at.
Qed.

Lemma version_at v o i ps nf pd src rest off crc ph st :
  do_packVersion (at_pos v o i ps nf pd src (PutUint32 V2 ++ rest) off crc ph st)
  = (Ok (Some packObjectsQty), at_pos V2 o i ps nf pd src rest (off + 4) (crc ++ PutUint32 V2) (ph ++ PutUint32 V2) st).
Proof.
  unfold do_packVersion. assert (decodes read_uint32 (PutUint32 V2) V2) as Hd by by apply read_uint32_PutUint32.
  by rewrite (st_bind_Ok _ _ _ _ _ (reads_at _ _ _ _ _ _ _ _ _ _ _ _ _ _ _ _ Hd)).
Qed.

Lemma qty_at v o i ps nf pd src rest off crc ph st n : 0 <= n < 2 ^ 32 ->
  do_packObjectsQty (at_pos v o i ps nf pd src (PutUint32 n ++ rest) off crc ph st)
  = (Ok (if n =? 0 then Some packFooter else None),
     at_pos v (if n =? 0 then o else n) i ps (if n =? 0 then nf else Some objectEntry)
       (if n =? 0 then pd else HeaderSection {| Version := v; ObjectsQty := n |})
       src rest (off + 4) (crc ++ PutUint32 n) (ph ++ PutUint32 n) st).
Proof.
  intros Hn. unfold do_packObjectsQty.
  rewrite (st_bind_Ok _ _ _ _ _ (reads_at _ _ _ _ _ _ _ _ _ _ _ _ _ _ _ _ (read_uint32_PutUint32 n Hn))).
  by destruct (n =? 0).
Qed.

Lemma Scan_head n rest st : 0 < n < 2 ^ 32 ->
  Scan (NewScanner (pack_head n ++ rest) st)
  = (Ok true, after_entries (pack_head n ++ rest) n [] (HeaderSection {| Version := V2; ObjectsQty := n |}) rest (pack_head n) st).
Proof.
  intros Hn. rewrite (Scan_step packHeaderSignature) by done. unfold scan_fuel. rewrite NewScanner_at. unfold pack_head at 2.
  rewrite <-!app_assoc.
  erewrite scan_next by apply signature_at. erewrite scan_next by apply version_at.
  erewrite scan_done by (cbn [step]; rewrite qty_at by lia; by replace (n =? 0) with false by lia).
  replace (n =? 0) with false by lia. unfold after_entries. cbn [raws map concat]. by rewrite app_nil_r.
Qed.

Lemma Scan_empty rest st c sum :
  decodes (ReadFrom (ResetBySize (objectIDSize fmt))) c sum -> Bytes sum = digest (id_format fmt) (pack_head 0) ->
  Scan (NewScanner (pack_head 0 ++ c ++ rest) st)
  = (Ok true, finished (pack_head 0 ++ c ++ rest) 0 [] (-1) sum c rest (pack_head 0 ++ c) st).
Proof.
  intros Hc Hs. rewrite (Scan_step packHeaderSignature) by done. unfold scan_fuel. rewrite NewScanner_at. unfold pack_head at 2.
  rewrite <-!app_assoc.
  erewrite scan_next by apply signature_at. erewrite scan_next by apply version_at.
  erewrite scan_next by (cbn [step]; by rewrite qty_at by lia).
  erewrite scan_done by (cbn [step]; by apply footer_complete). done.
Qed.

Lemma Scan_head_inv src st s' :
  bytes_ok src -> Scan (NewScanner src st) = (Ok true, s') ->
  exists n rest, src = pack_head n ++ rest /\ 0 <= n < 2 ^ 32 /\
    (n = 0 -> exists c sum r, rest = c ++ r /\ decodes (ReadFrom (ResetBySize (objectIDSize fmt))) c sum
      /\ Bytes sum = digest (id_format fmt) (pack_head 0)).
Proof.
  intros Hok (x & s1 & H1 & Hk)%(Scan_true_inv packHeaderSignature); [|done..]. cbn [step] in H1.
  assert (exists rest, src = bs "PACK" ++ rest) as [r1 ->].
  { unfold do_packHeaderSignature in H1. cbn [sr_rest reader NewScanner newScannerReader] in H1.
    destruct (ReadFull 4 src) as [[p rest]|[]| |] eqn:Hr; try done.
    destruct (bool_decide (p = bs "PACK")) eqn:Hp; [|done]. apply bool_decide_eq_true_1 in Hp as ->.
    apply ReadFull_Ok_inv in Hr as [-> _]. by exists rest. }
  rewrite NewScanner_at, signature_at in H1. injection H1 as <- <-. apply bytes_ok_app in Hok as [_ Hok].
  cbn [PackScanner.scan] in Hk. apply st_bind_Ok_inv in Hk as (x & s1 & H2 & Hk). cbn [step] in H2.
  assert (exists r2, r1 = PutUint32 V2 ++ r2) as [r2 ->].
  { unfold do_packVersion in H2. apply st_bind_Ok_inv in H2 as (v & s2 & Hv & H2).
    unfold reads in Hv. cbn [sr_rest reader at_pos] in Hv. destruct (read_uint32 r1) as [[v' r2]| | |] eqn:Hr; try done. injection Hv as -> <-.
    apply read_uint32_sound in Hr as [-> _]; [|done]. unfold Supported in H2. destruct (Z.eqb_spec v V2) as [->|]; [by exists r2|done]. }
  rewrite version_at in H2. injection H2 as <- <-. apply bytes_ok_app in Hok as [_ Hok].
  apply st_bind_Ok_inv in Hk as (x & s1 & H3 & Hk). cbn [step] in H3.
  assert (exists n r3, r2 = PutUint32 n ++ r3 /\ 0 <= n < 2 ^ 32) as (n & r3 & -> & Hn).
  { unfold do_packObjectsQty in H3. apply st_bind_Ok_inv in H3 as (v & s2 & Hv & H3).
    unfold reads in Hv. cbn [sr_rest reader at_pos] in Hv. destruct (read_uint32 r2) as [[v' r3]| | |] eqn:Hr; try done. injection Hv as -> <-.
    apply read_uint32_sound in Hr as [-> ?]; [|done]. by exists v, r3. }
  rewrite qty_at in H3 by done. injection H3 as <- <-.
  exists n, r3. unfold pack_head. rewrite <-!app_assoc. split; [done|]. split; [done|]. intros ->.
  change (0 =? 0) with true in Hk. cbn [PackScanner.scan step] in Hk. apply st_bind_Ok_inv in Hk as (x & s1 & H4 & _). apply footer_inv in H4. exact H4.
Qed.

(** *** The whole pack *)

Lemma scan_all_entries src n pre es pd crc st c sum rest fuel :
  entries_ok fmt (12 + len (raws pre)) es -> n = len pre + len es ->
  decodes (ReadFrom (ResetBySize (objectIDSize fmt))) c sum ->
  Bytes sum = digest (id_format fmt) (pack_head n ++ raws (pre ++ es)) ->
  (length es + 2 <= fuel)%nat ->
  exists crc', scan_all digest fmt seekable lowMemoryMode fuel (after_entries src n pre pd (raws es ++ c ++ rest) crc st)
    = (Ok (map ObjectSection (headers_of digest fmt seekable lowMemoryMode (12 + len (raws pre)) es) ++ [FooterSection sum]),
       finished src n (pre ++ es) (n - 1) sum c rest crc' (foldl store_entry st es)).
Proof.
  revert pre pd crc st fuel. induction es as [|e es IH]; intros pre pd crc st fuel He Hn Hc Hs Hf.
  - rewrite app_nil_r in *. destruct fuel as [|[|fuel]]; [cbn in Hf; lia..|]. cbn [scan_all]. rewrite len_nil in Hn.
    exists (crc ++ c). change (raws [] ++ c ++ rest) with (c ++ rest). assert (n <= len pre) as Hle by lia.
    rewrite (st_bind_Ok _ _ _ _ _ (Scan_footer src n pre pd rest crc st c sum Hle Hc Hs)). cbn [negb].
    rewrite (st_bind_Ok (st_get _) _ _ _ _ eq_refl). replace (len pre) with n by lia. done.
  - destruct fuel as [|fuel]; [cbn in Hf; lia|]. destruct He as [He Hes]. cbn [scan_all]. rewrite len_cons in Hn.
    change (raws (e :: es)) with (en_raw e ++ raws es). rewrite <-app_assoc.
    assert (len pre < n) as Hlt by (pose proof (len_nonneg es); lia).
    rewrite (st_bind_Ok _ _ _ _ _ (Scan_entry src n pre e pd _ crc st He Hlt)). cbn [negb].
    rewrite (st_bind_Ok (st_get _) _ _ _ _ eq_refl).
    destruct (IH (pre ++ [e]) (ObjectSection (header_of (12 + len (raws pre)) e)) (en_raw e) (store_entry st e) fuel) as [crc' Hall].
    + by rewrite raws_snoc, len_app, Z.add_assoc.
    + rewrite len_app. unfold len in Hn |- *. cbn. lia.
    + done.
    + by rewrite <-app_assoc.
    + cbn in Hf. lia.
    + rewrite (st_bind_Ok _ _ _ _ _ Hall), <-app_assoc, raws_snoc, len_app, Z.add_assoc. by exists crc'.
Qed.

Lemma scan_all_entries_inv src n pre pd rest crc st fuel ds s' :
  scan_all digest fmt seekable lowMemoryMode fuel (after_entries src n pre pd rest crc st) = (Ok ds, s') ->
  scan_err s' = None -> len pre <= n ->
  exists es c sum r, rest = raws es ++ c ++ r /\ entries_ok fmt (12 + len (raws pre)) es /\ n = len pre + len es
    /\ decodes (ReadFrom (ResetBySize (objectIDSize fmt))) c sum
    /\ Bytes sum = digest (id_format fmt) (pack_head n ++ raws (pre ++ es)).
Proof.
  revert pre pd rest crc st ds. induction fuel as [|fuel IH]; intros pre pd rest crc st ds Hall Herr Hn; [done|].
  cbn [scan_all] in Hall. apply st_bind_Ok_inv in Hall as ([] & s1 & Hs & Hall); cbn [negb] in Hall.
  - destruct (decide (n <= len pre)) as [Hend|Hmore].
    + apply Scan_footer_inv in Hs as (c & sum & r & -> & Hc & Hsum); [|done]. exists [], c, sum, r.
      rewrite app_nil_r, len_nil. cbn. split_and!; [done..|lia|done|done].
    + pose proof Hs as Hs'. apply Scan_entry_inv in Hs' as (e & r & -> & He); [|lia].
      rewrite Scan_entry in Hs by (done || lia). injection Hs as <-.
      apply st_bind_Ok_inv in Hall as (d & s2 & Hd & Hall). injection Hd as _ <-.
      apply st_bind_Ok_inv in Hall as (ds' & s2 & Hall & [= _ <-]).
      apply IH in Hall as (es & c & sum & r' & -> & Hes & Hn' & Hc & Hsum); [|done|rewrite len_app; unfold len in *; cbn; lia].
      exists (e :: es), c, sum, r'. rewrite raws_snoc, len_app, Z.add_assoc in Hes. rewrite <-app_assoc in Hsum.
      split_and!; [by rewrite app_assoc|done|rewrite len_app in Hn'; unfold len in *; cbn in *; lia|done|done].
  - injection Hall as <- <-. destruct (Scan_returns (after_entries src n pre pd rest crc st)) as (b & s1' & Hs' & Hb).
    rewrite Hs in Hs'. injection Hs' as <- <-. by destruct Hb.
Qed.
#[local] Notation scan_all := (scan_all (S := S) digest fmt seekable lowMemoryMode).
#[local] Notation is_pack := (is_pack digest fmt).

Lemma entry_nonempty off e : entry_ok off e -> (1 <= length (en_raw e))%nat.
Proof. intros [(b & h & Hh & _) _ _ _]. unfold en_raw. rewrite Hh. cbn. lia. Qed.

Lemma scan_all_finished fuel src n pre i sum c rest crc st :
  scan_all (Datatypes.S fuel) (finished src n pre i sum c rest crc st) = (Ok [], finished src n pre i sum c rest crc st).
Proof. done. Qed.

Lemma scan_all_no_error fuel (s : Scanner S) e : (scan_all fuel s).1 <> Err e.
Proof.
  revert s. induction fuel as [|fuel IH]; intros s; [done|]. cbn [PackScanner.scan_all].
  destruct (Scan_returns s) as (b & s' & Hs & _). rewrite (st_bind_Ok _ _ _ _ _ Hs). destruct b; [|done].
  cbn [negb]. rewrite (st_bind_Ok (st_get _) _ _ _ _ eq_refl). unfold mbind, ST_bind.
  specialize (IH s'). by destruct (scan_all fuel s') as [[] ?].
Qed.

Lemma scan_all_entries_returns src n pre pd rest crc st fuel :
  len pre <= n -> (length rest + 2 <= fuel)%nat -> st_returns (scan_all fuel) (after_entries src n pre pd rest crc st).
Proof.
  revert pre pd rest crc st. induction fuel as [|fuel IH]; intros pre pd rest crc st Hn Hf; [lia|]. cbn [PackScanner.scan_all].
  destruct (Scan_returns (after_entries src n pre pd rest crc st)) as (b & s' & Hs & _).
  apply st_returns_bind; [unfold st_returns; by rewrite Hs|]. intros b' s1 Hs1. destruct b'; cbn [negb]; [|done].
  apply st_returns_bind; [done|]. intros d s2 [= _ <-]. apply st_returns_bind; [|done].
  destruct (decide (n <= len pre)) as [Hend|Hmore].
  - pose proof Hs1 as Hs2. apply Scan_footer_inv in Hs1 as (c & sum & r & -> & Hc & Hsum); [|done].
    rewrite (Scan_footer src n pre pd r crc st c sum) in Hs2 by done. injection Hs2 as <-.
    destruct fuel as [|fuel]; [lia|]. unfold st_returns. by rewrite scan_all_finished.
  - pose proof Hs1 as Hs2. apply Scan_entry_inv in Hs1 as (e & r & -> & He); [|lia].
    rewrite Scan_entry in Hs2 by (done || lia). injection Hs2 as <-. pose proof (entry_nonempty _ _ He).
    apply IH; [rewrite len_app; unfold len in *; cbn; lia|]. rewrite length_app in Hf. lia.
Qed.

Lemma scan_all_returns src st fuel :
  bytes_ok src -> (length src + 3 <= fuel)%nat -> st_returns (scan_all fuel) (NewScanner src st).
Proof.
  intros Hok Hf. destruct fuel as [|fuel]; [lia|]. cbn [PackScanner.scan_all].
  destruct (Scan_returns (NewScanner src st)) as (b & s' & Hs & _).
  apply st_returns_bind; [unfold st_returns; by rewrite Hs|]. intros b' s1 Hs1. destruct b'; cbn [negb]; [|done].
  apply st_returns_bind; [done|]. intros d s2 [= _ <-]. apply st_returns_bind; [|done].
  pose proof Hs1 as Hs2. apply Scan_head_inv in Hs1 as (n & rest & -> & Hn & H0'); [|done].
  destruct (decide (n = 0)) as [->|Hne].
  - destruct (H0' eq_refl) as (c & sum & r & -> & Hc & Hsum). rewrite (Scan_empty r st c sum Hc Hsum) in Hs2. injection Hs2 as <-.
    destruct fuel as [|fuel]; [lia|]. unfold st_returns. by rewrite scan_all_finished.
  - rewrite Scan_head in Hs2 by lia. injection Hs2 as <-. apply scan_all_entries_returns; [rewrite len_nil; lia|].
    pose proof (len_pack_head n) as Hl. unfold len in Hl. rewrite length_app in Hf. lia.
Qed.

Lemma scan_all_complete src st es sum rest fuel :
  is_pack src es sum rest -> (length es + 3 <= fuel)%nat ->
  exists s', scan_all fuel (NewScanner src st) = (Ok (sections digest fmt seekable lowMemoryMode es sum), s')
    /\ scan_err s' = None /\ storage s' = foldl store_entry st es /\ packSize s' = len src - len rest.
Proof.
  intros [(c & -> & Hc) Hn He Hs] Hf. unfold pack_body in *. destruct fuel as [|fuel]; [lia|]. cbn [PackScanner.scan_all].
  destruct es as [|e es].
  - cbn [raws map concat] in *. rewrite app_nil_r in *. change (len (@nil entry)) with 0 in *.
    rewrite (st_bind_Ok _ _ _ _ _ (Scan_empty rest st c sum Hc Hs)). cbn [negb].
    rewrite (st_bind_Ok (st_get _) _ _ _ _ eq_refl). destruct fuel as [|fuel]; [lia|].
    rewrite (st_bind_Ok _ _ _ _ _ (scan_all_finished _ _ _ _ _ _ _ _ _ _)).
    eexists. split; [done|]. split; [done|]. split; [done|].
    cbn [finished at_pos packSize raws map concat]. rewrite !len_app, len_pack_head, len_nil. lia.
  - set (n := len (e :: es)) in *. assert (0 < n < 2 ^ 32) as Hn' by (unfold n in *; rewrite len_cons in *; pose proof (len_nonneg es); lia).
    rewrite <-!app_assoc. rewrite (st_bind_Ok _ _ _ _ _ (Scan_head n _ st Hn')). cbn [negb].
    rewrite (st_bind_Ok (st_get _) _ _ _ _ eq_refl).
    destruct (scan_all_entries (pack_head n ++ raws (e :: es) ++ c ++ rest) n [] (e :: es) (HeaderSection {| Version := V2; ObjectsQty := n |})
      (pack_head n) st c sum rest fuel) as [crc' Hall]; [done..|cbn [length] in *; lia|].
    rewrite (st_bind_Ok _ _ _ _ _ Hall). eexists. split; [done|]. split; [done|]. split; [done|].
    cbn [finished at_pos packSize]. rewrite !len_app, len_pack_head. cbn [app]. lia.
Qed.

Lemma scan_all_sound src st fuel ds s' :
  bytes_ok src -> scan_all fuel (NewScanner src st) = (Ok ds, s') -> scan_err s' = None ->
  exists es sum rest, is_pack src es sum rest.
Proof.
  intros Hok Hall Herr. destruct fuel as [|fuel]; [done|]. cbn [PackScanner.scan_all] in Hall.
  apply st_bind_Ok_inv in Hall as ([] & s1 & Hs & Hall); cbn [negb] in Hall.
  - pose proof Hs as Hs'. apply Scan_head_inv in Hs' as (n & rest & -> & Hn & H0'); [|done].
    apply st_bind_Ok_inv in Hall as (d & s2 & [= _ <-] & Hall). apply st_bind_Ok_inv in Hall as (ds' & s2 & Hall & [= _ <-]).
    destruct (decide (n = 0)) as [->|Hne].
    + destruct (H0' eq_refl) as (c & sum & r & -> & Hc & Hsum). exists [], sum, r.
      assert (pack_body [] = pack_head 0) as Hb by (unfold pack_body; cbn [raws map concat]; by rewrite app_nil_r).
      split; [|done|done|]; rewrite Hb; [by exists c|done].
    + rewrite Scan_head in Hs by lia. injection Hs as <-.
      apply scan_all_entries_inv in Hall as (es & c & sum & r & -> & Hes & Hlen & Hc & Hsum); [|done|rewrite len_nil; lia].
      rewrite len_nil, Z.add_0_l in Hlen. exists es, sum, r. rewrite Hlen in *. cbn in Hes, Hsum.
      split; [|lia|done|done]. exists c. unfold pack_body. by rewrite <-!app_assoc.
  - injection Hall as <- <-. destruct (Scan_returns (NewScanner src st)) as (b & s1' & Hs' & Hb).
    rewrite Hs in Hs'. injection Hs' as <- <-. by destruct Hb.
Qed.
Lemma raws_length off es : entries_ok fmt off es -> (length es <= length (raws es))%nat.
Proof.
  revert off. induction es as [|e es IH]; intros off; [cbn; lia|]. intros [He Hes].
  change (raws (e :: es)) with (en_raw e ++ raws es). rewrite length_app.
  pose proof (entry_nonempty _ _ He). pose proof (IH _ Hes). cbn [length]. lia.
Qed.

Lemma is_pack_length src es sum rest : is_pack src es sum rest -> (length es <= length src)%nat.
Proof.
  intros [(c & -> & _) _ He _]. unfold pack_body. rewrite !length_app. pose proof (raws_length _ _ He). lia.
Qed.
End correct.

(** C8: the scanner accepts exactly the packs.  Over any bytes, whatever they
    are, scanning ends without a panic after at most one call more than there
    are bytes, and it ends without an error exactly when the bytes are a pack of
    version 2 (a header, the number of entries it promises, each with a header
    that decodes, a base that is an earlier position or an identifier, and a
    zlib stream of exactly the declared size, then the digest of all that),
    possibly followed by more.  It then reports the header, every entry with its
    position, size, checksum, base and identifier, and the digest, in order,
    and every object that is no delta has been written to the storage. *)
Theorem scanner_accepts_packs {S} `{RawStorer S, Zlib} digest fmt seekable lowMemoryMode src st :
  (forall t n (st : S), (RawObjectWriter t n st).1 = Ok tt) -> bytes_ok src ->
  let r := scan_all digest fmt seekable lowMemoryMode (length src + 3) (NewScanner src st) in
  returns r.1
  /\ (scan_err r.2 = None -> exists es sum rest, is_pack digest fmt src es sum rest)
  /\ forall es sum rest, is_pack digest fmt src es sum rest ->
       r.1 = Ok (sections digest fmt seekable lowMemoryMode es sum) /\ scan_err r.2 = None
       /\ storage r.2 = foldl store_entry st es /\ packSize r.2 = len src - len rest.
Proof.
  intros Hopen Hok r.
  assert (returns r.1) as Hr by (apply scan_all_returns; [done..|lia]).
  split; [done|]. split.
  - intros Herr. destruct r as [[ds|e| |] s'] eqn:Hall; try done.
    + by eapply scan_all_sound.
    + destruct (scan_all_no_error digest fmt seekable lowMemoryMode Hopen (length src + 3) (NewScanner src st) e). fold r. by rewrite Hall.
  - intros es sum rest Hp. pose proof (is_pack_length _ _ _ _ _ _ Hp).
    destruct (scan_all_complete digest fmt seekable lowMemoryMode Hopen src st es sum rest (length src + 3) Hp) as (s' & Hall & Hs); [lia|].
    unfold r. by rewrite Hall.
Qed.

(** ** An example *)

(** A codec for examples: a byte is written as 1 and itself, and 0 ends. *)
Fixpoint toy_inflate (r : bytes) : bytes * (zlib_error + bytes) :=
  match r with
  | 0 :: r => ([], inr r)
  | 1 :: b :: r => let '(out, fin) := toy_inflate r in (b :: out, fin)
  | [] | [_] => ([], inl (ZTruncated ErrUnexpectedEOF))
  | _ => ([], inl ZCorrupt)
  end.

Fixpoint toy_deflate (x : bytes) : bytes := match x with [] => [0] | b :: x => 1 :: b :: toy_deflate x end.

Lemma toy_inflate_deflate x rest : toy_inflate (toy_deflate x ++ rest) = (x, inr rest).
Proof. induction x as [|b x IH]; [done|]. cbn. by rewrite IH. Qed.

Lemma toy_inflate_sound n r out rest : (length r <= n)%nat -> toy_inflate r = (out, inr rest) -> r = toy_deflate out ++ rest.
Proof.
  revert r out. induction n as [|n IH]; intros r out Hn H; (destruct r as [|a r]; [by simplify_eq/=|]); cbn [length] in Hn; [lia|].
  destruct a as [|[p|p|]|p]; [by simplify_eq/=|destruct r; by simplify_eq/=|destruct r; by simplify_eq/=| |destruct r; by simplify_eq/=].
  destruct r as [|b r]; [by simplify_eq/=|]. cbn in H, Hn. destruct (toy_inflate r) as [o f] eqn:Hr. injection H as <- ->.
  cbn. by rewrite (IH r o) by (done || lia).
Qed.

Definition toy_zlib : Zlib.
Proof.
  refine {| inflate r := let '(out, fin) := toy_inflate r in ZStream out fin; deflate := toy_deflate |}.
  - intros x rest _. by rewrite toy_inflate_deflate.
  - intros r out rest Hr. destruct (toy_inflate r) as [o f] eqn:Hi. injection Hr as -> ->.
    apply (toy_inflate_sound (length r)) in Hi as ->; [|done]. exists (toy_deflate out). split; [done|]. intros. by rewrite toy_inflate_deflate.
  - intros r out rest Hok Hr. destruct (toy_inflate r) as [o f] eqn:Hi. injection Hr as -> ->.
    apply (toy_inflate_sound (length r)) in Hi as ->; [|done]. apply bytes_ok_app in Hok as [Hok _]. clear -Hok.
    induction out as [|b out IH]; [constructor|]. cbn in Hok. apply bytes_ok_cons in Hok as [_ Hok]. apply bytes_ok_cons in Hok as [Hb Hok].
    apply bytes_ok_cons. auto.
  - intros x Hok. induction Hok as [|b x Hb Hok IH]; cbn.
    + repeat constructor; unfold is_byte; lia.
    + constructor; [unfold is_byte; lia|]. by constructor.
Defined.

(** A digest for examples, of the size of the format. *)
Definition toy_digest (f : ObjectFormat) (d : bytes) : bytes :=
  be_bytes (Z.to_nat (format_Size f)) (foldl (fun a b => (a * 257 + b + 1) mod 2 ^ 96) 7 d).

(** The memory storage as the target of a parser: the object is set when its
    writer is closed, with the hash a memory object computes. *)
Definition mem_raw (digest : ObjectFormat -> bytes -> bytes) (fmt : ObjectFormat) : RawStorer ObjectStorage :=
  {| RawObjectWriter t n := mret tt;
     raw_close t n data := fun st =>
       let o := mo_SetSize n (mo_SetType t (NewMemoryObject (Some (FromObjectFormat fmt)))) in
       let o := match data with [] => o | _ => (mo_Write data o).2 end in
       (mem_SetEncodedObject {| eo_Type := t; eo_Hash := (mo_Hash digest o).1; eo_Data := data |} st).2;
     raw_object := mem_EncodedObject |}.

(** Two blobs, the second a delta of the first. *)
Definition example_pack : bytes :=
  let body := pack_head 2 ++ [51] ++ toy_deflate [7; 8; 9] ++ [101] ++ [8] ++ toy_deflate [3; 2; 0x91; 1; 2] in
  body ++ toy_digest UnsetObjectFormat body.

Definition example_scan : outcome scan_error (list PackData) * Scanner ObjectStorage :=
  scan_all (H := mem_raw toy_digest SHA1) (H0 := toy_zlib) toy_digest SHA1 false false (length example_pack + 3)
    (NewScanner example_pack (Some empty_objects)).

Example example_sections :
  match example_scan.1 with
  | Ok ds => map (fun d => match d with
      | HeaderSection h => [ObjectsQty h]
      | ObjectSection oh => [type_num (oh_Type oh); oh_Offset oh; oh_ContentOffset oh; oh_Size oh; oh_OffsetReference oh]
      | _ => [] end) ds
  | _ => []
  end = [[2]; [3; 12; 13; 3; 0]; [6; 20; 22; 5; 12]; []].
Proof. vm_compute. reflexivity. Qed.

Lemma scanner_accepts_packs_witness :
  bytes_ok example_pack /\ scan_err example_scan.2 = None
  /\ exists es sum rest, is_pack (H := toy_zlib) toy_digest SHA1 example_pack es sum rest.
Proof.
  assert (bytes_ok example_pack) as Hok by (apply (bool_decide_unpack _); vm_compute; exact I).
  split; [exact Hok|]. split; [vm_compute; reflexivity|].
  exact (proj1 (proj2 (scanner_accepts_packs (H := mem_raw toy_digest SHA1) (H0 := toy_zlib) toy_digest SHA1 false false example_pack
    (Some empty_objects) (fun _ _ _ => eq_refl) Hok)) ltac:(vm_compute; reflexivity)).
Defined.
