(* ===== verification/PackParser.v ===== *)
(** * Parsing packs: [plumbing/format/packfile/parser.go], [parser_cache.go]

    The parser drives the scanner over a pack, keeps the headers of the entries
    with their contents, resolves the deltas depth first from the objects that
    are no deltas, writes objects to a storage and reports them to observers.
    The headers are shared by pointers (a header points to its base, whose
    content buffer is filled and drained through it), so they live in a heap;
    pooled buffers are values, since a buffer is given back only by its owner. *)
From stdpp Require Import base list gmap numbers option strings.
From Stdlib Require Import ZArith Lia.
From S2P Require Import Prelude State GoStrings Varint PatchDelta ObjectId Object Storer MemStorage PackScanner.

Open Scope Z_scope.

Inductive parse_error :=
  | PScan (e : scan_error)
  | PConsumed
  | PObjectNotFound
  | PReferenceDeltaNotFound
  | PChainDepth
  | PInflate (e : scan_error)
  | PPatch (e : delta_error)
  | PStorage (e : storage_error)
  | PObserver
  | PDeltaType.

(** ** Observers *)

Inductive event :=
  | OnHeader (count : Z)
  | OnInflatedObjectHeader (t : ObjectType) (objSize pos : Z)
  | OnInflatedObjectContent (h : ObjectID) (pos crc : Z)
  | OnFooter (h : ObjectID).

(** Whether there is no error, and the observer after the call. *)
Class Observer (Ob : Type) := observe : event -> Ob -> bool * Ob.

(** ** The state *)

(** Pointers into the heap; the maps are nil until the cache is reset. *)
Record parserCache := {
  c_oi : list nat;
  c_oiByHash : gmap ObjectID nat;
  c_oiByOffset : gmap Z nat;
  c_made : bool;
}.

Definition newParserCache : parserCache := {| c_oi := []; c_oiByHash := ∅; c_oiByOffset := ∅; c_made := false |}.
Definition cache_Reset : parserCache := {| c_oi := []; c_oiByHash := ∅; c_oiByOffset := ∅; c_made := true |}.

Record Parser (S Ob : Type) := {
  p_scanner : Scanner S;
  p_heap : list ObjectHeader;
  p_cache : parserCache;
  p_observers : list Ob;
  p_checksum : ObjectID;
  p_size : Z;
  p_parsed : bool;
}.
Arguments p_scanner {S Ob}. Arguments p_heap {S Ob}. Arguments p_cache {S Ob}. Arguments p_observers {S Ob}.
Arguments p_checksum {S Ob}. Arguments p_size {S Ob}. Arguments p_parsed {S Ob}. Arguments Build_Parser {S Ob}.

Definition maxDeltaChainDepth : Z := 4095.

Definition isDeltaOnDisk (oh : ObjectHeader) : bool := IsDelta (oh_Type oh) || IsDelta (oh_diskType oh).

Definition set_content (oh : ObjectHeader) (c : option bytes) : ObjectHeader :=
  Build_ObjectHeader (oh_Type oh) (oh_Offset oh) (oh_ContentOffset oh) (oh_Size oh) (oh_Reference oh) (oh_OffsetReference oh)
    (oh_Crc32 oh) (oh_Hash oh) c (oh_parent oh) (oh_diskType oh) (oh_externalRef oh) (oh_chainDepth oh).
Definition set_parent (oh : ObjectHeader) (p : nat) : ObjectHeader :=
  Build_ObjectHeader (oh_Type oh) (oh_Offset oh) (oh_ContentOffset oh) (oh_Size oh) (oh_Reference oh) (oh_OffsetReference oh)
    (oh_Crc32 oh) (oh_Hash oh) (oh_content oh) (Some p) (oh_diskType oh) (oh_externalRef oh) (oh_chainDepth oh).
Definition set_depth (oh : ObjectHeader) (d : Z) : ObjectHeader :=
  Build_ObjectHeader (oh_Type oh) (oh_Offset oh) (oh_ContentOffset oh) (oh_Size oh) (oh_Reference oh) (oh_OffsetReference oh)
    (oh_Crc32 oh) (oh_Hash oh) (oh_content oh) (oh_parent oh) (oh_diskType oh) (oh_externalRef oh) d.
Definition set_object (oh : ObjectHeader) (t : ObjectType) (size : Z) (h : ObjectID) : ObjectHeader :=
  Build_ObjectHeader t (oh_Offset oh) (oh_ContentOffset oh) size (oh_Reference oh) (oh_OffsetReference oh)
    (oh_Crc32 oh) h (oh_content oh) (oh_parent oh) (oh_diskType oh) (oh_externalRef oh) (oh_chainDepth oh).

(** The base of a thin pack's delta. *)
Definition placeholder (h : ObjectID) : ObjectHeader :=
  Build_ObjectHeader AnyObject 0 0 0 ZeroHash 0 0 h None None AnyObject true 0.

Section parser.
Context {S Ob : Type} `{RawStorer S, Zlib, Observer Ob} (digest : ObjectFormat -> bytes -> bytes).
(** The object format of the parser, whether its source is an [io.Seeker], and
    its mode. *)
Context (fmt : ObjectFormat) (seekable lowMemoryMode : bool).

Abbreviation PM := (ST parse_error (Parser S Ob)).

Definition NewParser (src : bytes) (st : option S) (obs : list Ob) : Parser S Ob :=
  Build_Parser (NewScanner src st) [] newParserCache obs ZeroHash 0 false.

(** *** Access to the parts *)

Definition with_scanner {A} (m : ST scan_error (Scanner S) A) : PM A := fun p =>
  let '(r, sc) := m (p_scanner p) in
  (map_err PScan r, Build_Parser sc (p_heap p) (p_cache p) (p_observers p) (p_checksum p) (p_size p) (p_parsed p)).

Definition p_storage (p : Parser S Ob) : option S := storage (p_scanner p).

Definition set_p_storage (p : Parser S Ob) (st : S) : Parser S Ob :=
  Build_Parser (set_storage (p_scanner p) (Some st)) (p_heap p) (p_cache p) (p_observers p) (p_checksum p) (p_size p) (p_parsed p).

Definition set_heap (p : Parser S Ob) (h : list ObjectHeader) : Parser S Ob :=
  Build_Parser (p_scanner p) h (p_cache p) (p_observers p) (p_checksum p) (p_size p) (p_parsed p).
Definition set_cache (p : Parser S Ob) (c : parserCache) : Parser S Ob :=
  Build_Parser (p_scanner p) (p_heap p) c (p_observers p) (p_checksum p) (p_size p) (p_parsed p).
Definition set_observers (p : Parser S Ob) (o : list Ob) : Parser S Ob :=
  Build_Parser (p_scanner p) (p_heap p) (p_cache p) o (p_checksum p) (p_size p) (p_parsed p).
Definition set_checksum (p : Parser S Ob) (h : ObjectID) (n : Z) : Parser S Ob :=
  Build_Parser (p_scanner p) (p_heap p) (p_cache p) (p_observers p) h n (p_parsed p).
Definition set_parsed (p : Parser S Ob) : Parser S Ob :=
  Build_Parser (p_scanner p) (p_heap p) (p_cache p) (p_observers p) (p_checksum p) (p_size p) true.

Definition alloc (oh : ObjectHeader) : PM nat := fun p => (Ok (length (p_heap p)), set_heap p (p_heap p ++ [oh])).

Definition deref (x : nat) : PM ObjectHeader := fun p =>
  (match p_heap p !! x with Some oh => Ok oh | None => Panic end, p).

Definition update (x : nat) (f : ObjectHeader -> ObjectHeader) : PM unit :=
  st_set (fun p => set_heap p (alter f x (p_heap p))).

(** [forEachObserver]: the first error ends the loop. *)
Fixpoint notify_all (e : event) (os : list Ob) : bool * list Ob :=
  match os with
  | [] => (true, [])
  | o :: os =>
      let '(ok, o) := observe e o in
      if ok : bool then let '(ok, os) := notify_all e os in (ok, o :: os) else (false, o :: os)
  end.

Definition forEachObserver (e : event) : PM unit := fun p =>
  let '(ok, os) := notify_all e (p_observers p) in
  (if ok : bool then Ok tt else Err PObserver, set_observers p os).

(** An error that is dropped. *)
Definition ignore (m : PM unit) : PM unit := fun p => match m p with (Err _, p) => (Ok tt, p) | r => r end.

(** A deferred call that does not change the outcome. *)
Definition deferred (m : PM unit) (f : Parser S Ob -> Parser S Ob) : PM unit := fun p => let '(r, p) := m p in (r, f p).

(** *** The cache *)

Definition cache_Add (x : nat) : PM unit :=
  oh ← deref x;
  c ← st_get p_cache;
  if negb (c_made c) then st_panic
  else st_set (fun p => set_cache p
    {| c_oi := c_oi c ++ [x]; c_oiByHash := <[oh_Hash oh := x]> (c_oiByHash c);
       c_oiByOffset := <[oh_Offset oh := x]> (c_oiByOffset c); c_made := true |}).

(** The buffers of a header and of its bases are given back. *)
Fixpoint release (fuel : nat) (x : nat) : PM unit :=
  match fuel with
  | O => st_nofuel
  | Datatypes.S n =>
      oh ← deref x;
      match oh_content oh with
      | None => mret tt
      | Some _ =>
          update x (fun oh => set_content oh None);;
          match oh_parent oh with
          | None => mret tt
          | Some pa =>
              poh ← deref pa;
              match oh_content poh with None => mret tt | Some _ => release n pa end
          end
      end
  end.

(** The rest of [storeOrCache], after the object was written. *)
Definition cache_and_notify (x : nat) : PM unit :=
  h ← st_get p_heap;
  (if lowMemoryMode then release (Datatypes.S (length h)) x else mret tt);;
  cache_Add x;;
  oh ← deref x;
  forEachObserver (OnInflatedObjectHeader (oh_Type oh) (oh_Size oh) (oh_Offset oh));;
  forEachObserver (OnInflatedObjectContent (oh_Hash oh) (oh_Offset oh) (oh_Crc32 oh)).

(** Copying the content to the storage drains its buffer; the writer is closed
    when the function returns. *)
Definition storeOrCache (x : nat) : PM unit :=
  oh ← deref x;
  st ← st_get p_storage;
  match st with
  | Some st =>
      if IsDelta (oh_diskType oh) then
        let '(r, st) := RawObjectWriter (oh_Type oh) (oh_Size oh) st in
        st_set (fun p => set_p_storage p st);;
        st_lift (map_err PStorage r);;
        match oh_content oh with
        | None => st_panic
        | Some data =>
            update x (fun oh => set_content oh (Some []));;
            deferred (cache_and_notify x) (fun p =>
              match p_storage p with
              | Some st => set_p_storage p (raw_close (oh_Type oh) (oh_Size oh) data st)
              | None => p
              end)
        end
      else cache_and_notify x
  | None => cache_and_notify x
  end.
(** *** Bases and contents *)

(** The inflated content at an offset of the pack, and the error. *)
Definition inflate_at (off size : Z) : PM (bytes * option scan_error) := with_scanner (inflateContent seekable off size).

Definition append_content (x : nat) (data : bytes) : PM unit :=
  update x (fun oh => set_content oh (Some (default [] (oh_content oh) ++ data))).

(** The object of the storage, when it can be found. *)
Definition find_stored (t : ObjectType) (h : ObjectID) : PM (option EncodedObject) := fun p =>
  match p_storage p with
  | Some st =>
      if IsZero h then (Ok None, p)
      else
        let '(r, st) := raw_object t h st in
        (match r with Ok o => Ok (Some o) | Err _ => Ok None | Panic => Panic | NoFuel => NoFuel end, set_p_storage p st)
  | None => (Ok None, p)
  end.

Definition contents (x : nat) : PM bytes := oh ← deref x; mret (default [] (oh_content oh)).

(** The contents of a base whose buffer is empty, from the storage or the
    pack. *)
Definition loadParent (x : nat) (parent : ObjectHeader) : PM bytes :=
  obj ← find_stored (oh_Type parent) (oh_Hash parent);
  match obj with
  | Some o =>
      update x (fun oh => set_object oh (eo_Type o) (eo_Size o) (oh_Hash oh));;
      append_content x (eo_Data o);;
      contents x
  | None =>
      if negb (oh_externalRef parent) && (oh_ContentOffset parent =? 0) then st_fail PObjectNotFound
      else if negb seekable then st_fail PObjectNotFound
      else
        '(data, e) ← inflate_at (oh_ContentOffset parent) (oh_Size parent);
        append_content x data;;
        match e with
        | Some _ => st_fail PReferenceDeltaNotFound
        | None => contents x
        end
  end.

Definition parentReader (x : nat) : PM bytes :=
  parent ← deref x;
  match oh_content parent with
  | Some (_ :: _) => contents x
  | _ => loadParent x parent
  end.

(** [patchDeltaWriter]'s hash of the target. *)
Definition target_hash (t : Z) (n : Z) (content : bytes) : ObjectID := hasher_Sum digest fmt (type_of_num t) n content.

(** The target of a delta; the header takes the type of its base. *)
Definition applyPatchBaseHeader (x : nat) (delta : bytes) : PM bytes :=
  ota ← deref x;
  match oh_parent ota with
  | None => st_panic
  | Some pa =>
      base ← parentReader pa;
      parent ← deref pa;
      let typ := if IsZero (oh_Hash ota) then oh_Type parent else oh_Type ota in
      '(target, sz, h) ← st_lift (map_err PPatch (patchDeltaWriter target_hash None base (len base) delta (type_num typ)));
      (if IsZero (oh_Hash ota) then update x (fun oh => set_object oh typ (i64 sz) h) else mret tt);;
      mret target
  end.

(** A delta's instructions are its content, or inflated from the pack. *)
Definition ensureContent (x : nat) : PM unit :=
  oh ← deref x;
  if match oh_content oh with Some c => len c =? oh_Size oh | None => false end && negb (IsZero (oh_Hash oh)) then mret tt
  else
    update x (fun oh => set_content oh (Some (default [] (oh_content oh))));;
    let from_pack :=
      if seekable then
        '(deltaData, e) ← inflate_at (oh_ContentOffset oh) (oh_Size oh);
        match e with
        | Some e => st_fail (PInflate e)
        | None => target ← applyPatchBaseHeader x deltaData; append_content x target
        end
      else st_fail PObjectNotFound in
    match oh_content oh with
    | Some (b :: source) =>
        if lowMemoryMode then from_pack
        else
          update x (fun oh => set_content oh (Some []));;
          target ← applyPatchBaseHeader x (b :: source);
          append_content x target
    | _ => from_pack
    end.

(** *** The depth of a chain *)

Fixpoint chain_loop (fuel : nat) (current : option nat) (depth : Z) : PM Z :=
  match fuel with
  | O => st_nofuel
  | Datatypes.S n =>
      match current with
      | None => mret depth
      | Some x =>
          oh ← deref x;
          if negb (isDeltaOnDisk oh) then mret depth
          else if oh_chainDepth oh >? 0 then
            let depth := depth + oh_chainDepth oh in
            if depth >? maxDeltaChainDepth then st_fail PChainDepth else mret depth
          else
            let depth := depth + 1 in
            if depth >? maxDeltaChainDepth then st_fail PChainDepth else chain_loop n (oh_parent oh) depth
      end
  end.

Definition checkDeltaChainDepth (x : nat) : PM unit :=
  oh ← deref x;
  if oh_chainDepth oh >? 0 then mret tt
  else
    depth ← chain_loop (Z.to_nat maxDeltaChainDepth + 2) (Some x) 0;
    update x (fun oh => set_depth oh depth).

(** *** Resolving *)

(** The parent of a delta, found in the cache or outside the pack. *)
Definition set_base (x : nat) : PM unit :=
  oh ← deref x;
  c ← st_get p_cache;
  match oh_Type oh with
  | OFSDeltaObject =>
      match c_oiByOffset c !! oh_OffsetReference oh with
      | None => st_fail PObjectNotFound
      | Some pa => update x (fun oh => set_parent oh pa)
      end
  | REFDeltaObject =>
      pa ← match c_oiByHash c !! oh_Reference oh with
           | None => alloc (placeholder (oh_Reference oh))
           | Some pa => mret pa
           end;
      update x (fun oh => set_parent oh pa);;
      if negb (c_made c) then st_panic
      else st_set (fun p => set_cache p {| c_oi := c_oi c; c_oiByHash := <[oh_Reference oh := pa]> (c_oiByHash c);
                                           c_oiByOffset := c_oiByOffset c; c_made := true |})
  | _ => st_fail PDeltaType
  end.

Definition processDelta (x : nat) : PM unit :=
  set_base x;;
  checkDeltaChainDepth x;;
  ensureContent x;;
  storeOrCache x.

(** The children of each base, in the order of the pack. *)
Definition children : Type := gmap Z (list nat) * gmap ObjectID (list nat).

Definition add_child {K} `{Countable K} (m : gmap K (list nat)) (k : K) (x : nat) : gmap K (list nat) :=
  <[k := default [] (m !! k) ++ [x]]> m.

Definition ofs_children (heap : list ObjectHeader) (ds : list nat) : gmap Z (list nat) :=
  foldl (fun m x => match heap !! x with Some oh => add_child m (oh_OffsetReference oh) x | None => m end) ∅ ds.
Definition ref_children (heap : list ObjectHeader) (ds : list nat) : gmap ObjectID (list nat) :=
  foldl (fun m x => match heap !! x with Some oh => add_child m (oh_Reference oh) x | None => m end) ∅ ds.

Fixpoint visit (fuel : nat) (ch : children) (x : nat) : PM unit :=
  match fuel with
  | O => st_nofuel
  | Datatypes.S n =>
      let child c :=
        oc ← deref c;
        match oh_parent oc with
        | Some _ => mret tt
        | None => processDelta c;; visit n ch c
        end in
      parent ← deref x;
      st_each child (default [] (ch.2 !! oh_Hash parent));;
      parent ← deref x;
      st_each child (default [] (ch.1 !! oh_Offset parent))
  end.

Definition is_base (heap : list ObjectHeader) (x : nat) : bool :=
  match heap !! x with Some oh => negb (IsDelta (oh_Type oh)) | None => false end.

Definition resolveDeltas (ofsDeltas refDeltas : list nat) : PM unit :=
  heap ← st_get p_heap;
  let ch := (ofs_children heap ofsDeltas, ref_children heap refDeltas) in
  let fuel := Datatypes.S (Datatypes.S (length ofsDeltas + length refDeltas)) in
  oi ← st_get (fun p => c_oi (p_cache p));
  let bases := filter (fun x => is_base heap x = true) oi in
  st_each (visit fuel ch) bases;;
  st_each (fun d =>
    oh ← deref d;
    match oh_parent oh with
    | Some _ => mret tt
    | None => processDelta d;; visit fuel ch d
    end) refDeltas;;
  st_each (fun d =>
    oh ← deref d;
    match oh_parent oh with
    | Some _ => mret tt
    | None => st_fail PObjectNotFound
    end) ofsDeltas.

(** *** Parsing *)

(** The deltas by offset and by reference. *)
Fixpoint Parse_loop (fuel : nat) (ofs refs : list nat) : PM (list nat * list nat) :=
  match fuel with
  | O => st_nofuel
  | Datatypes.S n =>
      ok ← with_scanner (Scan digest fmt seekable lowMemoryMode);
      if negb ok then mret (ofs, refs)
      else
        data ← st_get (fun p => packData (p_scanner p));
        match data with
        | HeaderSection h =>
            st_set (fun p => set_cache p cache_Reset);;
            ignore (forEachObserver (OnHeader (ObjectsQty h)));;
            Parse_loop n ofs refs
        | ObjectSection oh =>
            if IsDelta (oh_Type oh) then
              x ← alloc (set_object oh (oh_Type oh) (oh_Size oh) (ResetBySize (objectIDSize fmt)));
              match oh_Type oh with
              | OFSDeltaObject => Parse_loop n (ofs ++ [x]) refs
              | _ => Parse_loop n ofs (refs ++ [x])
              end
            else
              x ← alloc (if lowMemoryMode then set_content oh None else oh);
              ignore (storeOrCache x);;
              Parse_loop n ofs refs
        | FooterSection sum =>
            st_set (fun p => set_checksum p sum (packSize (p_scanner p)));;
            Parse_loop n ofs refs
        | NoData => Parse_loop n ofs refs
        end
  end.

(** The buffers that are given back to their pool at the end are not looked at
    again. *)
Definition Parse : PM ObjectID :=
  parsed ← st_get p_parsed;
  if parsed : bool then st_fail PConsumed
  else
    st_set set_parsed;;
    n ← st_get (fun p => length (sr_rest (reader (p_scanner p))));
    '(ofs, refs) ← Parse_loop (n + 3) [] [];
    err ← st_get (fun p => scan_err (p_scanner p));
    match err with
    | Some e => st_fail (PScan e)
    | None =>
        resolveDeltas ofs refs;;
        sum ← st_get p_checksum;
        forEachObserver (OnFooter sum);;
        mret sum
    end.
End parser.
