(* ===== verification/PackResolve.v ===== *)
(** * Resolving the deltas of a pack: the parser is correct

    What the entries of a pack stand for is defined without the parser: an
    object, or the result of a delta over what an earlier position, or an
    identifier, stands for.  The parser, over any pack whose entries all stand
    for something, reports each of them once and stores them. *)
From stdpp Require Import base list gmap numbers option strings.
From Stdlib Require Import ZArith Lia.
From S2P Require Import Prelude State GoStrings Varint PatchDelta ObjectId Object Storer MemStorage ObjectStore PackScanner PackParser.

Open Scope Z_scope.

(** ** What the parser uses of a storage *)

(** The objects a storage holds, by identifier, and what the calls do to them. *)
Class LawfulRaw (S : Type) `{RawStorer S} (digest : ObjectFormat -> bytes -> bytes) (fmt : ObjectFormat) := {
  raw_map : S -> ObjectMap;
  raw_open : forall t n st, exists st', RawObjectWriter t n st = (Ok tt, st') /\ raw_map st' = raw_map st;
  raw_closed : forall t data st, storable t = true -> IsZero (hasher_Sum digest fmt t (len data) data) = false ->
    raw_map (raw_close t (len data) data st)
    = <[hasher_Sum digest fmt t (len data) data :=
        {| eo_Type := t; eo_Hash := hasher_Sum digest fmt t (len data) data; eo_Data := data |}]> (raw_map st);
  raw_found : forall t h st, exists st', raw_object t h st = (find_object (raw_map st) t h, st') /\ raw_map st' = raw_map st;
}.
Arguments raw_map {S _ digest fmt _}.

(** ** What an entry stands for *)

(** The entries with their positions. *)
Fixpoint placed (off : Z) (es : list entry) : list (Z * entry) :=
  match es with [] => [] | e :: es => (off, e) :: placed (off + len (en_raw e)) es end.

Section meaning.
Context (digest : ObjectFormat -> bytes -> bytes) (fmt : ObjectFormat) (es : list entry).

Definition entry_at (off : Z) (e : entry) : Prop := (off, e) ∈ placed 12 es.

Definition object_id (t : ObjectType) (c : bytes) : ObjectID := hasher_Sum digest fmt t (len c) c.

(** The entry at [off] stands for the object of type [t] and content [c], over
    [d] deltas; [ext] holds the objects a thin pack may refer to. *)
Inductive stands (ext : ObjectMap) : Z -> Z -> ObjectType -> bytes -> Prop :=
  | stands_object off e : entry_at off e -> en_base e = NoBase -> stands ext 0 off (en_type e) (en_data e)
  | stands_ofs d off e n t s c : entry_at off e -> en_base e = OfsBase n -> stands ext d (off - n) t s ->
      PatchDelta s (en_data e) = Ok c -> stands ext (d + 1) off t c
  | stands_ref d off off' e h t s c : entry_at off e -> en_base e = RefBase h -> stands ext d off' t s ->
      object_id t s = h -> PatchDelta s (en_data e) = Ok c -> stands ext (d + 1) off t c
  | stands_thin off e h o c : entry_at off e -> en_base e = RefBase h -> ext !! h = Some o ->
      PatchDelta (eo_Data o) (en_data e) = Ok c -> stands ext 1 off (eo_Type o) c.

(** The objects the entries stand for, and those of [ext]. *)
Definition an_object (ext : ObjectMap) (t : ObjectType) (c : bytes) : Prop :=
  (exists d off, stands ext d off t c) \/ exists h, ext !! h = Some {| eo_Type := t; eo_Hash := h; eo_Data := c |}.

(** What a pack has to satisfy to be resolved: every entry stands for an object,
    over a bounded number of deltas; a delta by identifier over an object of the
    pack is resolved when that object can be without [ext], or comes before;
    and no two objects share an identifier. *)
Record resolvable (ext : ObjectMap) : Prop := {
  rs_stands : forall off e, entry_at off e -> exists d t c, stands ext d off t c;
  rs_depth : forall d off t c, stands ext d off t c -> d <= maxDeltaChainDepth;
  rs_order : forall off e h, entry_at off e -> en_base e = RefBase h ->
    is_Some (ext !! h)
    \/ (exists d off' t s, stands ext d off' t s /\ off' < off /\ object_id t s = h)
    \/ (exists d off' t s, stands ∅ d off' t s /\ object_id t s = h);
  rs_ext : forall h o, ext !! h = Some o -> eo_Hash o = h /\ object_id (eo_Type o) (eo_Data o) = h /\ storable (eo_Type o) = true
    /\ len (eo_Data o) < 2 ^ 63;
  rs_ids : forall t c t' c', an_object ext t c -> an_object ext t' c' -> object_id t c = object_id t' c' -> t = t' /\ c = c';
  rs_zero : forall t c, an_object ext t c -> IsZero (object_id t c) = false;
}.
End meaning.

Section positions.
Context (fmt : ObjectFormat) `{Zlib} (es : list entry) (Hes : entries_ok fmt 12 es).

Definition pos (k : nat) : Z := 12 + len (raws (take k es)).

Lemma placed_lookup off l k : placed off l !! k = (fun e => (off + len (raws (take k l)), e)) <$> l !! k.
Proof.
  revert off k. induction l as [|e l IH]; intros off [|k]; try done; cbn [placed lookup list_lookup].
  - cbn. by rewrite Z.add_0_r.
  - rewrite IH. cbn [take]. change (raws (e :: take k l)) with (en_raw e ++ raws (take k l)). rewrite len_app, Z.add_assoc. done.
Qed.

Lemma entry_at_iff off e : entry_at es off e <-> exists k, es !! k = Some e /\ off = pos k.
Proof.
  unfold entry_at. rewrite list_elem_of_lookup. split.
  - intros [k Hk]. rewrite placed_lookup in Hk. destruct (es !! k) as [e'|] eqn:He; [|done]. injection Hk as <- <-. by exists k.
  - intros (k & Hk & ->). exists k. by rewrite placed_lookup, Hk.
Qed.

Lemma entries_ok_lookup off l k e : entries_ok fmt off l -> l !! k = Some e -> entry_ok fmt (off + len (raws (take k l))) e.
Proof.
  revert off k. induction l as [|e' l IH]; intros off [|k] Hok Hk; try done; destruct Hok as [He Hl].
  - cbn. injection Hk as <-. by rewrite Z.add_0_r.
  - cbn [take]. change (raws (e' :: take k l)) with (en_raw e' ++ raws (take k l)). rewrite len_app, Z.add_assoc. by apply IH.
Qed.

Lemma entry_lookup_ok k e : es !! k = Some e -> entry_ok fmt (pos k) e.
Proof. by apply entries_ok_lookup. Qed.

Lemma pos_S k e : es !! k = Some e -> pos (S k) = pos k + len (en_raw e) /\ 0 < len (en_raw e).
Proof.
  intros Hk. unfold pos. rewrite (take_S_r _ _ _ Hk), raws_snoc, len_app. split; [lia|].
  pose proof (entry_nonempty _ _ _ (entry_lookup_ok _ _ Hk)). unfold len. lia.
Qed.

Lemma pos_mono j k : (j < k)%nat -> (k <= length es)%nat -> pos j < pos k.
Proof.
  intros Hjk Hk. induction k as [|k IH]; [lia|].
  destruct (lookup_lt_is_Some_2 es k) as [e He]; [lia|]. destruct (pos_S k e He) as [-> Hl].
  destruct (decide (j = k)) as [->|]; [lia|]. assert (pos j < pos k) by (apply IH; lia). lia.
Qed.

Lemma pos_inj j k : (j < length es)%nat -> (k < length es)%nat -> pos j = pos k -> j = k.
Proof.
  intros Hj Hk Heq. destruct (lt_eq_lt_dec j k) as [[Hlt|]|Hlt]; [|done|].
  - pose proof (pos_mono j k Hlt ltac:(lia)). lia.
  - pose proof (pos_mono k j Hlt ltac:(lia)). lia.
Qed.

Lemma pos_lower k : 12 <= pos k.
Proof. unfold pos. pose proof (len_nonneg (raws (take k es))). lia. Qed.

Lemma entry_at_pos k e : es !! k = Some e -> entry_at es (pos k) e.
Proof. intros. apply entry_at_iff. eauto. Qed.

Lemma entry_at_lookup off e : entry_at es off e -> exists k, es !! k = Some e /\ off = pos k.
Proof. apply entry_at_iff. Qed.

Lemma entry_at_det off e e' : entry_at es off e -> entry_at es off e' -> e = e'.
Proof.
  intros (k & Hk & ->)%entry_at_iff (j & Hj & Heq)%entry_at_iff.
  apply pos_inj in Heq; [|by eapply lookup_lt_Some..]. subst. congruence.
Qed.
End positions.

Section unique.
Context (digest : ObjectFormat -> bytes -> bytes) (fmt : ObjectFormat) `{Zlib} (es : list entry) (ext : ObjectMap).
Hypothesis Hes : entries_ok fmt 12 es.
Hypothesis Hrs : resolvable digest fmt es ext.

#[local] Notation stands := (stands digest fmt es ext).

Lemma stands_an_object d off t c : stands d off t c -> an_object digest fmt es ext t c.
Proof. left. eauto. Qed.

Lemma ext_an_object h o : ext !! h = Some o -> an_object digest fmt es ext (eo_Type o) (eo_Data o).
Proof. intros Ho. right. exists h. destruct (rs_ext _ _ _ _ Hrs h o Ho) as (<- & _). by destruct o. Qed.

Lemma stands_entry d off t c : stands d off t c -> exists e, entry_at es off e.
Proof. destruct 1; eauto. Qed.

(** What an entry stands for is determined by the pack. *)
Lemma stands_det d off t c d' t' c' : stands d off t c -> stands d' off t' c' -> t = t' /\ c = c'.
Proof.
  intros H1. revert d' t' c'. induction H1 as [off e He Hb|d off e n t s c He Hb Hs IH Hp|d off off' e h t s c He Hb Hs IH Hh Hp|off e h o c He Hb Ho Hp];
    intros d' t' c' H2; inversion H2 as [off2 e2 He2 Hb2|d2 off2 e2 n2 t2 s2 c2 He2 Hb2 Hs2 Hp2|d2 off2 off2' e2 h2 t2 s2 c2 He2 Hb2 Hs2 Hh2 Hp2|off2 e2 h2 o2 c2 He2 Hb2 Ho2 Hp2]; subst;
    assert (e2 = e) as -> by (by eapply entry_at_det); try congruence.
  - done.
  - rewrite Hb in Hb2. injection Hb2 as <-. destruct (IH _ _ _ Hs2) as [-> ->]. split; congruence.
  - destruct (rs_ids _ _ _ _ Hrs t s t' s2) as [-> ->]; [by eapply stands_an_object..|congruence|]. split; congruence.
  - destruct (rs_ext _ _ _ _ Hrs _ _ Ho2) as (_ & Hi & _).
    destruct (rs_ids _ _ _ _ Hrs t s (eo_Type o2) (eo_Data o2)) as [Ht Hc]; [by eapply stands_an_object|by eapply ext_an_object|congruence|].
    rewrite Hc in Hp. split; congruence.
  - destruct (rs_ext _ _ _ _ Hrs _ _ Ho) as (_ & Hi & _).
    destruct (rs_ids _ _ _ _ Hrs (eo_Type o) (eo_Data o) t' s2) as [Ht Hc]; [by eapply ext_an_object|by eapply stands_an_object|congruence|].
    rewrite Hc in Hp. split; congruence.
  - split; congruence.
Qed.

Lemma stands_nonneg d off t c : stands d off t c -> 0 <= d.
Proof. induction 1; lia. Qed.

Lemma stands_depth_pos d off t c e : stands d off t c -> entry_at es off e -> en_base e <> NoBase -> 1 <= d.
Proof.
  intros Hs He Hb. destruct Hs as [off e2 He2 Hb2|d off e2 n t s c He2 Hb2 Hs|d off off' e2 h t s c He2 Hb2 Hs|]; [|by apply stands_nonneg in Hs; lia..|lia].
  by rewrite (entry_at_det _ _ Hes _ _ _ He He2) in Hb.
Qed.

Lemma stands_small d off t c : (forall off e, entry_at es off e -> bytes_ok (en_data e)) -> stands d off t c ->
  len c < 2 ^ 63 /\ storable t = true.
Proof.
  intros Hok Hs. induction Hs as [off e He Hb|d off e n t s c He Hb Hs [IH1 IH2] Hp|d off off' e h t s c He Hb Hs [IH1 IH2] Hh Hp|off e h o c He Hb Ho Hp].
  - apply entry_at_lookup in He as (k & Hk & ->). destruct (entry_lookup_ok _ _ Hes _ _ Hk) as [(b & hd & _ & Hty & Hv & _) Href _ Hl].
    split; [done|]. rewrite Hb in Href. destruct Href as [Hd _]. by destruct (en_type e).
  - split; [|done]. unfold PatchDelta in Hp. destruct (_ || _); [done|]. apply patchDelta_len in Hp; [done|]. by eapply Hok.
  - split; [|done]. unfold PatchDelta in Hp. destruct (_ || _); [done|]. apply patchDelta_len in Hp; [done|]. by eapply Hok.
  - destruct (rs_ext _ _ _ _ Hrs _ _ Ho) as (_ & _ & Hst & _). split; [|done].
    unfold PatchDelta in Hp. destruct (_ || _); [done|]. apply patchDelta_len in Hp; [done|]. by eapply Hok.
Qed.
End unique.

(** ** The state of the parser

    The log of the objects resolved so far: the entry, its type and content. *)
Abbreviation log := (list (nat * (ObjectType * bytes))).

Section state.
Context {S Ob : Type} `{LawfulRaw S digest fmt, Zlib, Observer Ob}.
Context (seekable lowMemoryMode : bool) (es : list entry) (src : bytes) (st0 : option S) (obs0 : list Ob) (fixed : ObjectID * Z).

Definition initial_objects : ObjectMap := match st0 with Some st => raw_map st | None => ∅ end.

#[local] Notation ext := initial_objects.
#[local] Notation stands := (stands digest fmt es ext).
#[local] Notation object_id := (object_id digest fmt).

(** The fields that do not change. *)
Record static (k : nat) (e : entry) (oh : ObjectHeader) : Prop := {
  so_offset : oh_Offset oh = pos es k;
  so_content : oh_ContentOffset oh = pos es k + len (en_head e) + len (en_ref e);
  so_offref : forall n, en_base e = OfsBase n -> oh_OffsetReference oh = pos es k - n;
  so_ref : forall h, en_base e = RefBase h -> oh_Reference oh = h;
  so_crc : oh_Crc32 oh = crc32 (en_raw e);
  so_disk : oh_diskType oh = en_type e;
  so_external : oh_externalRef oh = false;
}.

(** The buffer of an object of content [c]. *)
Definition buffered (e : entry) (oh : ObjectHeader) (c : bytes) : Prop :=
  match st0 with
  | Some _ => oh_content oh = None \/ oh_content oh = Some [] \/ oh_content oh = Some c
  | None => oh_content oh = Some c \/ (oh_content oh = None /\ en_base e = NoBase /\ seekable = true)
  end.

(** A header of the heap: of a resolved entry, of one to be resolved, or of an
    object outside the pack. *)
Inductive cell (m : nat) (l : log) (x : nat) (oh : ObjectHeader) : Prop :=
  | cell_done e t c d : (x < m)%nat -> es !! x = Some e -> static x e oh -> (x, (t, c)) ∈ l -> stands d (pos es x) t c ->
      oh_Type oh = t -> oh_Size oh = len c -> oh_Hash oh = object_id t c -> oh_chainDepth oh = d ->
      (en_base e <> NoBase -> is_Some (oh_parent oh)) -> buffered e oh c -> cell m l x oh
  | cell_pending e : (x < m)%nat -> es !! x = Some e -> static x e oh -> x ∉ l.*1 -> en_base e <> NoBase ->
      oh_Type oh = en_type e -> oh_Size oh = len (en_data e) -> IsZero (oh_Hash oh) = true -> oh_chainDepth oh = 0 ->
      oh_parent oh = None -> oh_content oh = (if lowMemoryMode then None else Some (en_data e)) -> cell m l x oh
  | cell_thin h o : (m <= x)%nat -> ext !! h = Some o -> oh_Hash oh = h -> oh_externalRef oh = true -> oh_diskType oh = AnyObject ->
      oh_chainDepth oh = 0 -> oh_parent oh = None ->
      (oh_Type oh = AnyObject /\ (oh_content oh = None \/ oh_content oh = Some [])
       \/ oh_Type oh = eo_Type o /\ (oh_content oh = None \/ oh_content oh = Some [] \/ oh_content oh = Some (eo_Data o))) ->
      cell m l x oh.

Record heap_ok (exc : option nat) (m : nat) (l : log) (heap : list ObjectHeader) : Prop := {
  ho_length : (m <= length heap)%nat;
  ho_cells : forall x oh, heap !! x = Some oh -> exc <> Some x -> cell m l x oh;
  ho_parents : forall x oh pa, heap !! x = Some oh -> oh_parent oh = Some pa -> (pa < length heap)%nat;
}.

Record cache_ok (m : nat) (l : log) (heap : list ObjectHeader) (c : parserCache) : Prop := {
  co_made : c_made c = true;
  co_oi : c_oi c = l.*1;
  co_offset : forall z x, c_oiByOffset c !! z = Some x <-> x ∈ l.*1 /\ z = pos es x;
  co_hash : forall h x, c_oiByHash c !! h = Some x ->
    (exists t c, (x, (t, c)) ∈ l /\ object_id t c = h) \/ (exists oh, (m <= x)%nat /\ heap !! x = Some oh /\ oh_Hash oh = h);
  co_hashed : forall x t c', (x, (t, c')) ∈ l -> is_Some (c_oiByHash c !! object_id t c');
}.

Definition store_ok (l : log) (st : option S) : Prop :=
  match st0, st with
  | Some _, Some st => forall h o, raw_map st !! h = Some o <->
      ext !! h = Some o \/ exists k t c, (k, (t, c)) ∈ l /\ h = object_id t c /\ o = {| eo_Type := t; eo_Hash := h; eo_Data := c |}
  | None, None => True
  | _, _ => False
  end.

(** What the observers are told of a resolved entry. *)
Definition entry_events (x : nat * (ObjectType * bytes)) : list event :=
  let '(k, (t, c)) := x in
  match es !! k with
  | Some e => [OnInflatedObjectHeader t (len c) (pos es k); OnInflatedObjectContent (object_id t c) (pos es k) (crc32 (en_raw e))]
  | None => []
  end.

Definition obs_after (evs : list event) (o : Ob) : Ob := foldl (fun o ev => (observe ev o).2) o evs.

Record parsing (exc : option nat) (m : nat) (l : log) (p : Parser S Ob) : Prop := {
  pg_heap : heap_ok exc m l (p_heap p);
  pg_cache : cache_ok m l (p_heap p) (p_cache p);
  pg_store : store_ok l (p_storage p);
  pg_src : sr_src (reader (p_scanner p)) = src;
  pg_obs : p_observers p = map (obs_after (OnHeader (len es) :: (l ≫= entry_events))) obs0;
  pg_log : NoDup l.*1 /\ forall k t c, (k, (t, c)) ∈ l -> (k < m)%nat /\ exists d, stands d (pos es k) t c;
  pg_count : (m <= length es)%nat;
  pg_fixed : (p_checksum p, p_size p) = fixed;
}.
End state.

(** What the observers are told before the end. *)
Definition told_before digest fmt (es : list entry) (l : log) : list event :=
  match es with [] => [] | _ => [OnHeader (len es)] end ++ (l ≫= entry_events (digest := digest) (fmt := fmt) es).

Definition quiet (ev : event) : bool := match ev with OnFooter _ => false | _ => true end.

(** Everything the observers are told; the count is not, of a pack without
    entries. *)
Definition told digest fmt (es : list entry) (l : log) (sum : ObjectID) : list event :=
  match es with [] => [] | _ => [OnHeader (len es)] end ++ (l ≫= entry_events (digest := digest) (fmt := fmt) es) ++ [OnFooter sum].

Section proofs.
Context {S Ob : Type} `{LawfulRaw S digest fmt, Zlib, Observer Ob}.
Context (seekable lowMemoryMode : bool) (es : list entry) (src : bytes) (st0 : option S) (obs0 : list Ob) (fixed : ObjectID * Z).

#[local] Notation ext := (initial_objects (digest := digest) (fmt := fmt) st0).
#[local] Notation stands := (stands digest fmt es ext).
#[local] Notation object_id := (object_id digest fmt).
#[local] Notation cell := (cell (digest := digest) (fmt := fmt) seekable lowMemoryMode es st0).
#[local] Notation heap_ok := (heap_ok (digest := digest) (fmt := fmt) seekable lowMemoryMode es st0).
#[local] Notation cache_ok := (cache_ok (digest := digest) (fmt := fmt) es).
#[local] Notation store_ok := (store_ok (digest := digest) (fmt := fmt) st0).
#[local] Notation parsing := (parsing (digest := digest) (fmt := fmt) seekable lowMemoryMode es src st0 obs0 fixed).

Hypothesis Hes : entries_ok fmt 12 es.
Hypothesis Hrs : resolvable digest fmt es ext.
Hypothesis Hdata : forall off e, entry_at es off e -> bytes_ok (en_data e).
Hypothesis Hsrc : forall k e, es !! k = Some e ->
  exists r, drop (Z.to_nat (pos es k + len (en_head e) + len (en_ref e))) src = en_zip e ++ r.
Hypothesis Hlow : lowMemoryMode = true -> is_Some st0 /\ seekable = true.
Hypothesis Hobs : forall ev (o : Ob), quiet ev = true -> (observe ev o).1 = true.

(** *** The parts of the state *)

Lemma stands_facts d k t c : stands d (pos es k) t c -> len c < 2 ^ 63 /\ storable t = true.
Proof. intros Hs. by apply (stands_small digest fmt es ext Hes Hrs d (pos es k)). Qed.

Lemma object_id_nonzero t c : an_object digest fmt es ext t c -> IsZero (object_id t c) = false.
Proof. apply (rs_zero _ _ _ _ Hrs). Qed.

Lemma parsing_alter exc m l p x f :
  parsing exc m l p ->
  (forall oh, p_heap p !! x = Some oh -> ((m <= x)%nat -> oh_Hash (f oh) = oh_Hash oh) /\ (exc <> Some x -> cell m l x (f oh))
    /\ forall pa, oh_parent (f oh) = Some pa -> (pa < length (p_heap p))%nat) ->
  parsing exc m l (set_heap p (alter f x (p_heap p))).
Proof.
  intros [[Hlen Hcells Hpar] [Hmade Hoi Hoff Hhash Hhashed] Hstore Hpsrc Hpobs Hlog Hcount Hfix] Hf. split; try done.
  - split; cbn; [by rewrite length_alter| |].
    + intros y oh Hy Hexc. destruct (decide (y = x)) as [->|Hne]; [|rewrite list_lookup_alter_ne in Hy by done; by apply Hcells].
      rewrite list_lookup_alter_eq in Hy. destruct (p_heap p !! x) as [oh0|] eqn:Hx; [|done]. injection Hy as <-. by apply (Hf oh0).
    + intros y oh pa Hy. rewrite length_alter. destruct (decide (y = x)) as [->|Hne]; [|rewrite list_lookup_alter_ne in Hy by done; by eapply Hpar].
      rewrite list_lookup_alter_eq in Hy. destruct (p_heap p !! x) as [oh0|] eqn:Hx; [|done]. injection Hy as <-. by apply (Hf oh0).
  - split; try done. cbn. intros h y Hy. destruct (Hhash h y Hy) as [|(oh & Hm & Hoh & Hh)]; [by left|right].
    destruct (decide (y = x)) as [->|Hne].
    + exists (f oh). rewrite list_lookup_alter_eq, Hoh. cbn. split_and!; [done..|]. rewrite (proj1 (Hf oh Hoh)); done.
    + exists oh. by rewrite list_lookup_alter_ne.
Qed.

Lemma parsing_storage exc m l p st st' :
  parsing exc m l p -> p_storage p = Some st -> raw_map st' = raw_map st -> parsing exc m l (set_p_storage p st').
Proof.
  intros [? ? Hstore ? ? ? ? ?] Hst Hmap. split; try done. cbn. unfold PackResolve.store_ok in *. rewrite Hst in Hstore.
  destruct st0; [|done]. by rewrite Hmap.
Qed.

Lemma parsing_scanner exc m l p sc :
  parsing exc m l p -> sr_src (reader sc) = src -> storage sc = p_storage p ->
  parsing exc m l (Build_Parser sc (p_heap p) (p_cache p) (p_observers p) (p_checksum p) (p_size p) (p_parsed p)).
Proof. intros [? ? Hstore ? ? ? ? ?] Hr Hst. split; try done. unfold p_storage. cbn. by rewrite Hst. Qed.

Lemma deref_ok x oh p : p_heap p !! x = Some oh -> deref (S := S) (Ob := Ob) x p = (Ok oh, p).
Proof. intros Hx. unfold deref. by rewrite Hx. Qed.

(** What is inflated at the stream of an entry. *)
Lemma inflateContent_entry k e (sc : Scanner S) :
  es !! k = Some e -> seekable = true -> sr_src (reader sc) = src ->
  exists sc', inflateContent seekable (pos es k + len (en_head e) + len (en_ref e)) (len (en_data e)) sc = (Ok (en_data e, None), sc')
    /\ sr_src (reader sc') = src /\ storage sc' = storage sc.
Proof.
  intros Hk -> Hr. destruct (Hsrc k e Hk) as [r Hd]. destruct (entry_lookup_ok _ _ Hes _ _ Hk) as [_ _ Hz _].
  unfold inflateContent, seek, sr_Seek. cbn [negb].
  pose proof (pos_lower es k). pose proof (len_nonneg (en_head e)). pose proof (len_nonneg (en_ref e)).
  replace (_ <? 0) with false by (symmetry; apply Z.ltb_ge; lia). cbn [mret outcome_ret set_reader reader sr_rest].
  rewrite Hr, Hd, Hz. unfold bounded_copy. rewrite Z.gtb_ltb, Z.ltb_irrefl, andb_false_r.
  eexists. split; [rewrite Z.eqb_refl; reflexivity|]. by split.
Qed.

(** The object of a header: of the log, or of the storage. *)
Definition holds (m : nat) (l : log) (x : nat) (oh : ObjectHeader) (t : ObjectType) (c : bytes) : Prop :=
  (x, (t, c)) ∈ l \/ ((m <= x)%nat /\ exists o, ext !! oh_Hash oh = Some o /\ t = eo_Type o /\ c = eo_Data o).

Lemma log_unique (l : log) x t c t' c' : NoDup l.*1 -> (x, (t, c)) ∈ l -> (x, (t', c')) ∈ l -> t = t' /\ c = c'.
Proof.
  intros Hnd [i Hi]%list_elem_of_lookup [j Hj]%list_elem_of_lookup.
  assert (i = j) as <- by (exact (NoDup_lookup (fst <$> l) i j x Hnd (list_lookup_fmap_Some_2 fst l i _ Hi) (list_lookup_fmap_Some_2 fst l j _ Hj))).
  rewrite Hi in Hj. by injection Hj as <- <-.
Qed.

Lemma find_stored_ok exc m (l : log) (p : Parser S Ob) t0 t c :
  parsing exc m l p -> t0 = AnyObject \/ t0 = t -> an_object digest fmt es ext t c ->
  ((exists x, (x, (t, c)) ∈ l) \/ exists h, ext !! h = Some {| eo_Type := t; eo_Hash := h; eo_Data := c |} /\ h = object_id t c) ->
  match st0 with
  | Some _ => exists p', find_stored t0 (object_id t c) p = (Ok (Some {| eo_Type := t; eo_Hash := object_id t c; eo_Data := c |}), p')
      /\ parsing exc m l p' /\ p_heap p' = p_heap p
  | None => find_stored t0 (object_id t c) p = (Ok None, p)
  end.
Proof.
  intros Hp Ht Hobj Hin. pose proof (object_id_nonzero t c Hobj) as Hnz.
  pose proof (fun st st' => parsing_storage exc m l p st st' Hp) as Hps. pose proof (pg_store _ _ _ _ _ _ _ _ _ _ _ Hp) as Hstore. unfold PackResolve.store_ok in Hstore. unfold find_stored.
  destruct st0 as [st1|] eqn:Hst0, (p_storage p) as [st|] eqn:Hst; try done.
  rewrite Hnz. destruct (raw_found t0 (object_id t c) st) as (st' & -> & Hmap).
  assert (raw_map st !! object_id t c = Some {| eo_Type := t; eo_Hash := object_id t c; eo_Data := c |}) as Hraw.
  { apply Hstore. destruct Hin as [[x Hx]|(h & Hh & ->)]; [right; by exists x, t, c|by left]. }
  unfold find_object. rewrite Hraw. cbn [eo_Type].
  assert (negb (bool_decide (AnyObject = t0)) && negb (bool_decide (t = t0)) = false) as ->.
  { destruct Ht as [->|Ht]; [by rewrite bool_decide_eq_true_2|]. by rewrite (bool_decide_eq_true_2 (t = t0)), andb_false_r. }
  eexists. split; [done|]. split; [|done]. by apply (Hps st).
Qed.
Lemma holds_done exc m l p x oh t c : parsing exc m l p -> (x < m)%nat -> holds m l x oh t c -> (x, (t, c)) ∈ l.
Proof. intros _ Hx [Hin|[Hm _]]; [done|lia]. Qed.

(** What is known of the header of an object: its identifier, where it is
    stored, its type and its buffer, unless they are not there yet. *)
Record header_of_object (l : log) (x : nat) (oh : ObjectHeader) (t : ObjectType) (c : bytes) : Prop := {
  hd_id : oh_Hash oh = object_id t c;
  hd_object : an_object digest fmt es ext t c;
  hd_in : (exists k, (k, (t, c)) ∈ l) \/ exists h, ext !! h = Some {| eo_Type := t; eo_Hash := h; eo_Data := c |} /\ h = object_id t c;
  hd_type : oh_Type oh = t \/ oh_Type oh = AnyObject /\ default [] (oh_content oh) = [];
  hd_content : oh_content oh = Some c \/ default [] (oh_content oh) = [];
  hd_missing : c <> [] -> default [] (oh_content oh) = [] -> st0 = None ->
    seekable = true /\ oh_content oh = None /\ exists e, es !! x = Some e /\ c = en_data e /\ oh_Size oh = len c /\ oh_Type oh = t
      /\ oh_ContentOffset oh = pos es x + len (en_head e) + len (en_ref e);
}.

Lemma holds_object exc m l p x oh t c :
  parsing exc m l p -> cell m l x oh -> holds m l x oh t c -> header_of_object l x oh t c.
Proof.
  intros Hp Hc Hh. destruct (pg_log _ _ _ _ _ _ _ _ _ _ _ Hp) as [Hnd Hlog].
  destruct Hc as [e t' c' d Hm He Hst Hin Hd Hty Hsz Hhash Hch Hpa Hbu|e Hm He Hst Hni|h o Hm Ho Hhash Hext Hdisk Hch Hpa Hty].
  - apply (holds_done _ _ _ _ _ _ _ _ Hp Hm) in Hh. destruct (log_unique _ _ _ _ _ _ Hnd Hin Hh) as [-> ->].
    split; [done|by eapply stands_an_object|left; by exists x|by left| |].
    + unfold buffered in Hbu. destruct st0; [destruct Hbu as [->|[->| ->]]|destruct Hbu as [->|[-> _]]]; first [by left|by right].
    + intros Hne Hnil Hst0. unfold buffered in Hbu. rewrite Hst0 in Hbu. destruct Hbu as [Hc|(Hc & Hb & Hsk)]; [by rewrite Hc in Hnil|].
      split; [done|]. split; [done|]. exists e. split_and!; try done; [|by destruct Hst].
      by destruct (stands_det digest fmt es ext Hes Hrs _ _ _ _ _ _ _ Hd (stands_object digest fmt es ext _ _ (entry_at_pos _ _ _ He) Hb)).
  - apply (holds_done _ _ _ _ _ _ _ _ Hp Hm) in Hh. destruct Hni. apply list_elem_of_fmap. by exists (x, (t, c)).
  - destruct Hh as [Hin|(_ & o' & Ho' & -> & ->)]; [destruct (Hlog _ _ _ Hin); lia|].
    rewrite Hhash, Ho in Ho'. injection Ho' as <-. destruct (rs_ext _ _ _ _ Hrs h o Ho) as (Hk & Hid & _).
    split; [congruence|by eapply ext_an_object| | | |].
    + right. exists h. split; [|congruence]. rewrite Ho, <-Hk. by destruct o.
    + destruct Hty as [[-> [->| ->]]|[-> _]]; first [by left|by right].
    + destruct Hty as [[_ [->| ->]]|[_ [->|[->| ->]]]]; first [by left|by right].
    + intros _ _ Hst0. unfold initial_objects in Ho. by rewrite Hst0 in Ho.
Qed.

Lemma cell_filled exc m l p x oh t c :
  parsing exc m l p -> cell m l x oh -> holds m l x oh t c ->
  cell m l x (set_content (set_object oh t (len c) (oh_Hash oh)) (Some c)).
Proof.
  intros Hp Hc Hh. destruct (pg_log _ _ _ _ _ _ _ _ _ _ _ Hp) as [Hnd Hlog].
  destruct Hc as [e t' c' d Hm He Hst Hin Hd Hty Hsz Hhash Hch Hpa Hbu|e Hm He Hst Hni|h o Hm Ho Hhash Hext Hdisk Hch Hpa Hty].
  - apply (holds_done _ _ _ _ _ _ _ _ Hp Hm) in Hh. destruct (log_unique _ _ _ _ _ _ Hnd Hin Hh) as [-> ->].
    eapply cell_done; try done; [by destruct Hst|]. unfold buffered. cbn. destruct st0; auto.
  - apply (holds_done _ _ _ _ _ _ _ _ Hp Hm) in Hh. destruct Hni. apply list_elem_of_fmap. by exists (x, (t, c)).
  - destruct Hh as [Hin|(_ & o' & Ho' & -> & ->)]; [destruct (Hlog _ _ _ Hin); lia|].
    rewrite Hhash, Ho in Ho'. injection Ho' as <-. eapply cell_thin; try done. right. cbn. auto.
Qed.

Lemma alter_twice {A} (f g : A -> A) (x : nat) (l : list A) : alter f x (alter g x l) = alter (fun a => f (g a)) x l.
Proof. exact (list_alter_alter_eq f g l x). Qed.

Lemma update_run (x : nat) f (p : Parser S Ob) : update x f p = (Ok tt, set_heap p (alter f x (p_heap p))).
Proof. done. Qed.

Lemma contents_run x oh c (p : Parser S Ob) : p_heap p !! x = Some oh -> oh_content oh = Some c -> contents x p = (Ok c, p).
Proof. intros Hx Hc. unfold contents. rewrite (st_bind_Ok _ _ _ _ _ (deref_ok _ _ _ Hx)). by rewrite Hc. Qed.

Lemma parsing_set exc m l p x oh f :
  parsing exc m l p -> p_heap p !! x = Some oh -> cell m l x (f oh) -> oh_Hash (f oh) = oh_Hash oh -> oh_parent (f oh) = oh_parent oh ->
  parsing exc m l (set_heap p (alter f x (p_heap p))).
Proof.
  intros Hp Hx Hc Hh Hpa. apply parsing_alter; [done|]. intros oh' Hoh. rewrite Hx in Hoh. injection Hoh as <-. split_and!; [done..|].
  rewrite Hpa. intros pa. by apply (ho_parents _ _ _ _ _ _ _ _ (pg_heap _ _ _ _ _ _ _ _ _ _ _ Hp) x).
Qed.

Lemma append_run x oh c (p : Parser S Ob) : p_heap p !! x = Some oh -> default [] (oh_content oh) = [] ->
  (append_content x c;; contents x) p = (Ok c, set_heap p (alter (fun oh => set_content oh (Some c)) x (p_heap p))).
Proof.
  intros Hx Hnil. unfold append_content. rewrite (st_bind_Ok _ _ _ _ _ (update_run _ _ _)).
  assert (alter (fun oh => set_content oh (Some (default [] (oh_content oh) ++ c))) x (p_heap p)
    = alter (fun oh => set_content oh (Some c)) x (p_heap p)) as ->.
  { apply list_alter_ext; [|done]. intros oh' Hoh. rewrite Hx in Hoh. injection Hoh as <-. by rewrite Hnil. }
  apply (contents_run x (set_content oh (Some c))); [|done]. cbn. by rewrite list_lookup_alter_eq, Hx.
Qed.

(** The entry that is resolved may be changed. *)
Lemma parsing_exc m l p x f : parsing (Some x) m l p -> (x < m)%nat -> (forall oh, oh_parent (f oh) = oh_parent oh) ->
  parsing (Some x) m l (set_heap p (alter f x (p_heap p))).
Proof.
  intros Hp Hx Hf. apply parsing_alter; [done|]. intros oh Hoh. split_and!; [lia|done|]. rewrite Hf. intros pa.
  by apply (ho_parents _ _ _ _ _ _ _ _ (pg_heap _ _ _ _ _ _ _ _ _ _ _ Hp) x).
Qed.

Lemma parentReader_ok exc m l p x oh t c :
  parsing exc m l p -> p_heap p !! x = Some oh -> exc <> Some x -> holds m l x oh t c -> c <> [] ->
  exists p' oh', parentReader seekable x p = (Ok c, p') /\ parsing exc m l p'
    /\ p_heap p' !! x = Some oh' /\ oh_Type oh' = t /\ (forall y, y <> x -> p_heap p' !! y = p_heap p !! y).
Proof.
  intros Hp Hx Hexc Hh Hne. pose proof (ho_cells _ _ _ _ _ _ _ _ (pg_heap _ _ _ _ _ _ _ _ _ _ _ Hp) x oh Hx Hexc) as Hc.
  destruct (holds_object _ _ _ _ _ _ _ _ Hp Hc Hh) as [Hid Hobj Hin Hty Hcont Hmiss].
  unfold parentReader. rewrite (st_bind_Ok _ _ _ _ _ (deref_ok _ _ _ Hx)).
  destruct Hcont as [Hfull|Hnil].
  - rewrite Hfull. destruct c as [|b cs]; [done|]. rewrite (contents_run _ _ _ _ Hx Hfull). exists p, oh. split_and!; try done.
    destruct Hty as [|[_ Hnil]]; [done|]. by rewrite Hfull in Hnil.
  - pose proof (cell_filled _ _ _ _ _ _ _ _ Hp Hc Hh) as Hfill.
    assert (match oh_content oh with Some (_ :: _) => contents x | _ => loadParent seekable x oh end = loadParent seekable x oh) as ->
      by (destruct (oh_content oh) as [[|]|]; done).
    unfold loadParent.
    assert (oh_Type oh = AnyObject \/ oh_Type oh = t) as Hty' by (destruct Hty as [|[]]; auto).
    pose proof (find_stored_ok exc m l p (oh_Type oh) t c Hp Hty' Hobj Hin) as Hfs. rewrite <-Hid in Hfs.
    destruct (decide (st0 = None)) as [Hst0|Hst0].
    + rewrite Hst0 in Hfs. rewrite (st_bind_Ok _ _ _ _ _ Hfs).
      destruct (Hmiss Hne Hnil Hst0) as (Hsk & Hcn & e & He & -> & Hsz & Hto & Hco).
      pose proof (pos_lower es x). pose proof (len_nonneg (en_head e)). pose proof (len_nonneg (en_ref e)).
      replace (oh_ContentOffset oh =? 0) with false by (symmetry; apply Z.eqb_neq; lia). rewrite andb_false_r. rewrite (f_equal negb Hsk). cbn [negb].
      destruct (inflateContent_entry x e (p_scanner p) He Hsk (pg_src _ _ _ _ _ _ _ _ _ _ _ Hp)) as (sc & Hi & Hr & Hs).
      assert (inflate_at seekable (oh_ContentOffset oh) (oh_Size oh) p
        = (Ok (en_data e, None), Build_Parser sc (p_heap p) (p_cache p) (p_observers p) (p_checksum p) (p_size p) (p_parsed p))) as Hia.
      { unfold inflate_at, with_scanner. by rewrite Hco, Hsz, Hi. }
      rewrite (st_bind_Ok _ _ _ _ _ Hia). cbn beta iota.
      set (p1 := Build_Parser sc (p_heap p) (p_cache p) (p_observers p) (p_checksum p) (p_size p) (p_parsed p)) in *.
      assert (parsing exc m l p1) as Hp1 by by apply parsing_scanner.
      assert (set_object oh t (len (en_data e)) (oh_Hash oh) = oh) as Heta by (destruct oh; cbn in *; by subst).
      rewrite Heta in Hfill. rewrite (append_run x oh (en_data e) p1 Hx Hnil). eexists _, _. split; [done|].
      split; [by apply (parsing_set exc m l p1 x oh (fun oh => set_content oh (Some (en_data e))))|]. cbn. rewrite list_lookup_alter_eq, Hx. split; [done|]. split; [done|].
      intros y Hy. by rewrite list_lookup_alter_ne.
    + assert (exists p1, find_stored (oh_Type oh) (oh_Hash oh) p = (Ok (Some {| eo_Type := t; eo_Hash := oh_Hash oh; eo_Data := c |}), p1)
        /\ parsing exc m l p1 /\ p_heap p1 = p_heap p) as (p1 & Hf1 & Hp1 & Hh1) by (clear -Hfs Hst0; by destruct st0).
      rewrite (st_bind_Ok _ _ _ _ _ Hf1). rewrite <-Hh1 in Hx.
      unfold eo_Size. cbn [eo_Type eo_Data]. rewrite (st_bind_Ok _ _ _ _ _ (update_run _ _ _)).
      rewrite (append_run x (set_object oh t (len c) (oh_Hash oh))); [|cbn; by rewrite list_lookup_alter_eq, Hx|done].
      eexists _, (set_content (set_object oh t (len c) (oh_Hash oh)) (Some c)). split; [done|]. cbn [p_heap set_heap].
      assert (forall h, alter (fun oh0 => set_content oh0 (Some c)) x (alter (fun oh0 => set_object oh0 t (len c) (oh_Hash oh0)) x h)
        = alter (fun oh0 => set_content (set_object oh0 t (len c) (oh_Hash oh0)) (Some c)) x h) as ->
        by (intros h; apply alter_twice).
      split; [|split; [by rewrite list_lookup_alter_eq, Hx|split; [done|]]].
      * by apply (parsing_set exc m l p1 x oh (fun oh0 => set_content (set_object oh0 t (len c) (oh_Hash oh0)) (Some c))).
      * intros y Hy. rewrite list_lookup_alter_ne by done. by rewrite Hh1.
Qed.

(** *** Applying a delta *)

Lemma PatchDelta_facts s delta c : bytes_ok delta -> PatchDelta s delta = Ok c ->
  s <> [] /\ minDeltaSize <= len delta /\ patchDelta s delta = Ok c /\ len c < 2 ^ 63.
Proof.
  intros Hok Hp. unfold PatchDelta in Hp. destruct (len s =? 0) eqn:Hs; [done|]. destruct (len delta <? minDeltaSize) eqn:Hd; [done|].
  cbn [orb] in Hp. apply Z.ltb_ge in Hd. split; [by intros ->|]. split; [done|]. split; [done|]. by eapply patchDelta_len.
Qed.

Lemma target_hash_id t (c : bytes) : storable t = true -> target_hash digest fmt (type_num t) (len c) c = object_id t c.
Proof. by destruct t. Qed.

Lemma writer_run t s delta c : bytes_ok delta -> PatchDelta s delta = Ok c -> len s < 2 ^ 63 -> storable t = true ->
  patchDeltaWriter (target_hash digest fmt) None s (len s) delta (type_num t) = Ok (c, len c, object_id t c).
Proof.
  intros Hok Hp Hs Ht. destruct (PatchDelta_facts s delta c Hok Hp) as (_ & Hmin & Hp' & _).
  rewrite patchDeltaWriter_spec by first [done | pose proof (len_nonneg s); lia].
  replace (Z.to_nat (len s)) with (length s) by (unfold len; lia). rewrite firstn_all, Hp'. cbn [mbind outcome_bind mret outcome_ret].
  by rewrite target_hash_id.
Qed.

Lemma holds_small exc m l p x oh t c : parsing exc m l p -> holds m l x oh t c -> len c < 2 ^ 63 /\ storable t = true.
Proof.
  intros Hp [Hin|(_ & o & Ho & -> & ->)].
  - destruct (proj2 (pg_log _ _ _ _ _ _ _ _ _ _ _ Hp) _ _ _ Hin) as (_ & d & Hd). by eapply stands_facts.
  - by destruct (rs_ext _ _ _ _ Hrs _ _ Ho) as (_ & _ & ? & ?).
Qed.

Lemma applyPatch_ok m l p x ota pa pah t s c delta :
  parsing (Some x) m l p -> p_heap p !! x = Some ota -> oh_parent ota = Some pa -> pa <> x -> IsZero (oh_Hash ota) = true ->
  p_heap p !! pa = Some pah -> holds m l pa pah t s -> bytes_ok delta -> PatchDelta s delta = Ok c -> (x < m)%nat ->
  exists p', applyPatchBaseHeader digest fmt seekable x delta p = (Ok c, p') /\ parsing (Some x) m l p'
    /\ p_heap p' !! x = Some (set_object ota t (len c) (object_id t c)) /\ (forall y, y <> x -> y <> pa -> p_heap p' !! y = p_heap p !! y).
Proof.
  intros Hp Hx Hpa Hne Hz Hpah Hh Hok Hpd Hm. destruct (PatchDelta_facts s delta c Hok Hpd) as (Hs & _ & _ & Hc).
  destruct (holds_small _ _ _ _ _ _ _ _ Hp Hh) as [Hss Hst].
  unfold applyPatchBaseHeader. rewrite (st_bind_Ok _ _ _ _ _ (deref_ok _ _ _ Hx)), Hpa.
  destruct (parentReader_ok (Some x) m l p pa pah t s) as (p1 & pah1 & Hpr & Hp1 & Hpa1 & Hty & Hrest); [done..|congruence|done|done|].
  rewrite (st_bind_Ok _ _ _ _ _ Hpr), (st_bind_Ok _ _ _ _ _ (deref_ok _ _ _ Hpa1)), Hz, Hty.
  rewrite (st_bind_Ok (st_lift _) _ p1 (c, len c, object_id t c) p1); [|unfold st_lift; by rewrite (writer_run t s delta c)].
  cbn beta iota. rewrite (st_bind_Ok _ _ _ _ _ (update_run _ _ _)).
  pose proof (len_nonneg c). rewrite i64_small by lia. eexists. split; [done|]. cbn [p_heap set_heap].
  rewrite list_lookup_alter_eq, Hrest, Hx by done. split; [|split; [done|]].
  - by apply parsing_exc.
  - intros y Hy Hy'. rewrite list_lookup_alter_ne by done. by apply Hrest.
Qed.


Lemma lookup_alter_at (f : ObjectHeader -> ObjectHeader) (x : nat) (h : list ObjectHeader) oh : h !! x = Some oh -> alter f x h !! x = Some (f oh).
Proof. intros Hx. by rewrite list_lookup_alter_eq, Hx. Qed.

Definition object_header (oh : ObjectHeader) (t : ObjectType) (c : bytes) : ObjectHeader :=
  set_content (set_object oh t (len c) (object_id t c)) (Some c).

Lemma patch_and_append m l p x ota pa pah t s c delta :
  parsing (Some x) m l p -> p_heap p !! x = Some ota -> oh_parent ota = Some pa -> pa <> x -> IsZero (oh_Hash ota) = true ->
  p_heap p !! pa = Some pah -> holds m l pa pah t s -> bytes_ok delta -> PatchDelta s delta = Ok c -> (x < m)%nat ->
  oh_content ota = Some [] ->
  exists p', (target ← applyPatchBaseHeader digest fmt seekable x delta; append_content x target) p = (Ok tt, p') /\ parsing (Some x) m l p'
    /\ p_heap p' !! x = Some (object_header ota t c).
Proof.
  intros Hp Hx Hpa Hne Hz Hpah Hh Hok Hpd Hm Hc.
  destruct (applyPatch_ok m l p x ota pa pah t s c delta) as (p1 & Ha & Hp1 & Hx1 & _); [done..|lia|].
  rewrite (st_bind_Ok _ _ _ _ _ Ha). eexists. split; [done|]. split; [by apply parsing_exc|].
  cbn [p_heap set_heap]. rewrite (lookup_alter_at _ _ _ _ Hx1). cbn. by rewrite Hc.
Qed.

Lemma ensureContent_ok m l p x e oh pa pah t s c :
  parsing (Some x) m l p -> p_heap p !! x = Some oh -> es !! x = Some e -> static es x e oh -> (x < m)%nat ->
  oh_Size oh = len (en_data e) -> oh_content oh = (if lowMemoryMode then None else Some (en_data e)) -> IsZero (oh_Hash oh) = true ->
  oh_parent oh = Some pa -> pa <> x -> p_heap p !! pa = Some pah -> holds m l pa pah t s -> PatchDelta s (en_data e) = Ok c ->
  exists p', ensureContent digest fmt seekable lowMemoryMode x p = (Ok tt, p') /\ parsing (Some x) m l p'
    /\ p_heap p' !! x = Some (object_header oh t c).
Proof.
  intros Hp Hx He Hst Hm Hsz Hco Hz Hpa Hne Hpah Hh Hpd.
  assert (bytes_ok (en_data e)) as Hok by (by eapply Hdata, entry_at_pos).
  destruct (PatchDelta_facts s (en_data e) c Hok Hpd) as (_ & Hmin & _).
  set (p1 := set_heap p (alter (fun oh => set_content oh (Some (default [] (oh_content oh)))) x (p_heap p))).
  assert (parsing (Some x) m l p1) as Hp1 by by apply parsing_exc.
  assert (p_heap p1 !! pa = Some pah) as Hpah1 by (cbn; by rewrite list_lookup_alter_ne).
  unfold ensureContent. rewrite (st_bind_Ok _ _ _ _ _ (deref_ok _ _ _ Hx)), Hz, andb_false_r, (st_bind_Ok _ _ _ _ _ (update_run _ _ _)).
  fold p1. assert (lowMemoryMode = true \/ lowMemoryMode = false) as [Hlm|Hlm] by (destruct lowMemoryMode; auto); rewrite Hlm in Hco; rewrite Hco.
  - destruct (Hlow Hlm) as [_ Hsk]. assert (p_heap p1 !! x = Some (set_content oh (Some []))) as Hx1.
    { cbn. rewrite (lookup_alter_at _ _ _ _ Hx). by rewrite Hco. }
    destruct (inflateContent_entry x e (p_scanner p1) He Hsk (pg_src _ _ _ _ _ _ _ _ _ _ _ Hp1)) as (sc & Hi & Hr & Hs).
    set (p2 := Build_Parser sc (p_heap p1) (p_cache p1) (p_observers p1) (p_checksum p1) (p_size p1) (p_parsed p1)).
    assert (inflate_at seekable (oh_ContentOffset oh) (oh_Size oh) p1 = (Ok (en_data e, None), p2)) as Hia.
    { unfold inflate_at, with_scanner. by rewrite (so_content _ _ _ _ Hst), Hsz, Hi. }
    match goal with |- context [if seekable then ?a else ?b] => replace (if seekable then a else b) with a by by rewrite Hsk end.
    rewrite (st_bind_Ok _ _ _ _ _ Hia). cbn beta iota.
    by eapply (patch_and_append m l p2 x (set_content oh (Some []))); [by apply parsing_scanner| |..].
  - assert (p_heap p1 !! x = Some oh) as Hx1.
    { cbn. rewrite (lookup_alter_at _ _ _ _ Hx). rewrite Hco. cbn. destruct oh; cbn in *; by subst. }
    destruct (en_data e) as [|b source] eqn:Hd; [by vm_compute in Hmin|]. rewrite <-Hd in *.
    match goal with |- context [if lowMemoryMode then ?a else ?b] => replace (if lowMemoryMode then a else b) with b by by rewrite Hlm end.
    rewrite (st_bind_Ok _ _ _ _ _ (update_run _ _ _)).
    eapply (patch_and_append m l (set_heap p1 _) x (set_content oh (Some []))); try done; [by apply parsing_exc|..]; cbn [p_heap set_heap].
    + by rewrite (lookup_alter_at _ _ _ _ Hx1).
    + by rewrite list_lookup_alter_ne.
Qed.

(** *** The depth of a chain *)

Lemma chain_step n x oh depth (p : Parser S Ob) : p_heap p !! x = Some oh -> isDeltaOnDisk oh = true -> oh_chainDepth oh = 0 ->
  depth + 1 <= maxDeltaChainDepth -> chain_loop (Datatypes.S n) (Some x) depth p = chain_loop n (oh_parent oh) (depth + 1) p.
Proof.
  intros Hx Hd Hc Hle. cbn [chain_loop]. rewrite (st_bind_Ok _ _ _ _ _ (deref_ok _ _ _ Hx)), Hd, Hc. cbn [negb].
  change (0 >? 0) with false. cbn match. rewrite Z.gtb_ltb. by replace (_ <? _) with false by (symmetry; apply Z.ltb_ge; lia).
Qed.

Lemma chain_end n x oh depth (p : Parser S Ob) : p_heap p !! x = Some oh -> (if isDeltaOnDisk oh then 0 < oh_chainDepth oh else oh_chainDepth oh = 0) ->
  depth + oh_chainDepth oh <= maxDeltaChainDepth -> chain_loop (Datatypes.S n) (Some x) depth p = (Ok (depth + oh_chainDepth oh), p).
Proof.
  intros Hx Hd Hle. cbn [chain_loop]. rewrite (st_bind_Ok _ _ _ _ _ (deref_ok _ _ _ Hx)). destruct (isDeltaOnDisk oh); cbn [negb].
  - rewrite !Z.gtb_ltb. replace (0 <? _) with true by (symmetry; apply Z.ltb_lt; lia).
    by replace (_ <? _) with false by (symmetry; apply Z.ltb_ge; lia).
  - by rewrite Hd, Z.add_0_r.
Qed.

Lemma checkDepth_ok x oh pa pah (p : Parser S Ob) :
  p_heap p !! x = Some oh -> IsDelta (oh_diskType oh) = true -> oh_chainDepth oh = 0 -> oh_parent oh = Some pa -> p_heap p !! pa = Some pah ->
  (if isDeltaOnDisk pah then 0 < oh_chainDepth pah else oh_chainDepth pah = 0) -> oh_chainDepth pah + 1 <= maxDeltaChainDepth ->
  checkDeltaChainDepth x p = (Ok tt, set_heap p (alter (fun oh => set_depth oh (oh_chainDepth pah + 1)) x (p_heap p))).
Proof.
  intros Hx Hd Hc Hpa Hpah Hpd Hle. unfold checkDeltaChainDepth. rewrite (st_bind_Ok _ _ _ _ _ (deref_ok _ _ _ Hx)), Hc.
  change (0 >? 0) with false. cbn match. replace (Z.to_nat maxDeltaChainDepth + 2)%nat with (Datatypes.S (Datatypes.S (Z.to_nat maxDeltaChainDepth))) by lia.
  assert (0 <= oh_chainDepth pah) by (destruct (isDeltaOnDisk pah); lia).
  rewrite (st_bind_Ok _ _ p (oh_chainDepth pah + 1) p); [done|].
  rewrite (chain_step _ x oh) by (try done; try lia; unfold isDeltaOnDisk; by rewrite Hd, orb_true_r).
  rewrite Hpa, (chain_end _ pa pah) by (done || lia). do 2 f_equal. lia.
Qed.

(** A delta's position, and the object it is over, with its depth. *)
Lemma stands_base_depth d off t c e : stands d off t c -> entry_at es off e -> en_base e = NoBase -> d = 0.
Proof.
  intros Hs He Hb. destruct Hs as [|d off e2 n t s c He2 Hb2 Hs|d off off' e2 h t s c He2 Hb2 Hs|off e2 h o c He2 Hb2]; [done|..];
    rewrite (entry_at_det _ _ Hes _ _ _ He He2) in Hb; congruence.
Qed.

Lemma en_type_delta k e : es !! k = Some e -> IsDelta (en_type e) = true <-> en_base e <> NoBase.
Proof.
  intros He. destruct (entry_lookup_ok _ _ Hes _ _ He) as [_ Href _ _]. unfold ref_encodes in Href.
  destruct (en_base e); [destruct Href as [-> _]; split; [done|congruence]| |]; (split; [congruence|]); intros _; destruct (en_type e); naive_solver.
Qed.

(** *** Giving buffers back *)

Definition buffers (h : list ObjectHeader) : nat := length (filter (fun oh => is_Some (oh_content oh)) h).

(** Some buffers are given back. *)
Definition released (h h' : list ObjectHeader) : Prop := Forall2 (fun a b => b = a \/ b = set_content a None) h h'.

Lemma buffers_alter x oh h : h !! x = Some oh -> is_Some (oh_content oh) ->
  buffers h = Datatypes.S (buffers (alter (fun oh => set_content oh None) x h)).
Proof.
  unfold buffers. revert x. induction h as [|a h IH]; intros [|x] Hx Hc; try done.
  - injection Hx as <-. cbn [alter list_alter]. rewrite filter_cons_True, filter_cons_False by (done || by intros []). done.
  - change (alter ?f (Datatypes.S x) (a :: h)) with (a :: alter f x h). rewrite !filter_cons.
    specialize (IH x Hx Hc). destruct (decide (is_Some (oh_content a))); cbn [length]; lia.
Qed.

Lemma released_refl h : released h h.
Proof. apply Forall_Forall2_diag. induction h; constructor; auto. Qed.

Lemma released_alter x h h' : released (alter (fun oh => set_content oh None) x h) h' -> released h h'.
Proof.
  revert x h'. induction h as [|a h IH]; intros [|x] h' Hr; [done..| |].
  - apply Forall2_cons_inv_l in Hr as (b & h1 & [->| ->] & Hr & ->); constructor; auto.
  - apply Forall2_cons_inv_l in Hr as (b & h1 & Hb & Hr & ->). constructor; [done|]. by apply (IH x).
Qed.

Lemma release_ok n x (p : Parser S Ob) :
  (forall y oh pa, p_heap p !! y = Some oh -> oh_parent oh = Some pa -> (pa < length (p_heap p))%nat) ->
  (x < length (p_heap p))%nat -> (buffers (p_heap p) < n)%nat ->
  exists h, release n x p = (Ok tt, set_heap p h) /\ released (p_heap p) h.
Proof.
  revert x p. induction n as [|n IH]; intros x p Hpar Hx Hn; [lia|]. cbn [release].
  apply lookup_lt_is_Some_2 in Hx as [oh Hx]. rewrite (st_bind_Ok _ _ _ _ _ (deref_ok _ _ _ Hx)).
  destruct (oh_content oh) as [c|] eqn:Hc; [|exists (p_heap p); split; [by destruct p|apply released_refl]].
  rewrite (st_bind_Ok _ _ _ _ _ (update_run _ _ _)). set (p1 := set_heap p _).
  assert (released (p_heap p) (p_heap p1)) as Hr1 by (apply (released_alter x); apply released_refl).
  destruct (oh_parent oh) as [pa|] eqn:Hpa; [|by exists (p_heap p1)].
  pose proof (Hpar x oh pa Hx Hpa) as Hpl. destruct (lookup_lt_is_Some_2 (p_heap p1) pa) as [poh Hpoh]; [cbn; by rewrite length_alter|].
  rewrite (st_bind_Ok _ _ _ _ _ (deref_ok _ _ _ Hpoh)). destruct (oh_content poh); [|by exists (p_heap p1)].
  destruct (IH pa p1) as (h & Hrel & Hh).
  - intros y oy pb. cbn. rewrite length_alter. destruct (decide (y = x)) as [->|Hne].
    + rewrite (lookup_alter_at _ _ _ _ Hx). intros [= <-] Hpb. by apply (Hpar x oh).
    + rewrite list_lookup_alter_ne by done. apply Hpar.
  - cbn. by rewrite length_alter.
  - pose proof (buffers_alter x oh (p_heap p) Hx (mk_is_Some _ _ Hc)). unfold p1, set_heap, p_heap at 1. lia.
  - exists h. split; [done|]. by apply (released_alter x).
Qed.

Lemma cell_released m l x oh : lowMemoryMode = true -> cell m l x oh -> cell m l x (set_content oh None).
Proof.
  intros Hlm Hc. destruct (Hlow Hlm) as [[st Hst0] _].
  destruct Hc as [e t' c' d Hm He [] Hin Hd Hty Hsz Hhash Hch Hpa Hbu|e Hm He [] Hni Hb Hty Hsz Hz Hch Hpa Hco|h o Hm Ho Hhash Hext Hdisk Hch Hpa Hty].
  - eapply cell_done; try done. unfold buffered. rewrite Hst0. by left.
  - eapply cell_pending; try done. by rewrite Hlm.
  - eapply cell_thin; try done. cbn. destruct Hty as [[-> _]|[-> _]]; auto.
Qed.

Lemma notify_run ev (os : list Ob) : Forall (fun o => (observe ev o).1 = true) os -> notify_all ev os = (true, map (fun o => (observe ev o).2) os).
Proof.
  induction 1 as [|o os Ho _ IH]; [done|]. cbn. destruct (observe ev o) as [b o']. cbn in Ho. subst b. by rewrite IH.
Qed.

Lemma notify_quiet ev (os : list Ob) : quiet ev = true -> Forall (fun o => (observe ev o).1 = true) os.
Proof. intros Hev. apply Forall_true. intros o. by apply Hobs. Qed.

(** The rest of [storeOrCache]. *)
Lemma cache_and_notify_ok x oh t c (p : Parser S Ob) :
  (forall y oh pa, p_heap p !! y = Some oh -> oh_parent oh = Some pa -> (pa < length (p_heap p))%nat) ->
  p_heap p !! x = Some oh -> c_made (p_cache p) = true -> oh_Type oh = t -> oh_Size oh = len c -> oh_Hash oh = object_id t c ->
  exists h, cache_and_notify lowMemoryMode x p = (Ok tt,
      set_observers (set_cache (set_heap p h)
        {| c_oi := c_oi (p_cache p) ++ [x]; c_oiByHash := <[object_id t c := x]> (c_oiByHash (p_cache p));
           c_oiByOffset := <[oh_Offset oh := x]> (c_oiByOffset (p_cache p)); c_made := true |})
        (map (obs_after [OnInflatedObjectHeader t (len c) (oh_Offset oh); OnInflatedObjectContent (object_id t c) (oh_Offset oh) (oh_Crc32 oh)]) (p_observers p)))
    /\ if lowMemoryMode then released (p_heap p) h else h = p_heap p.
Proof.
  intros Hpar Hx Hmade Hty Hsz Hhash. unfold cache_and_notify. rewrite (st_bind_Ok (st_get _) _ _ _ _ eq_refl).
  assert (exists h, (if lowMemoryMode then release (Datatypes.S (length (p_heap p))) x else mret tt) p = (Ok tt, set_heap p h)
    /\ if lowMemoryMode then released (p_heap p) h else h = p_heap p) as (h & Hr & Hh).
  { destruct lowMemoryMode; [|exists (p_heap p); split; [by destruct p|done]]. apply release_ok; [done|by eapply lookup_lt_Some|].
    unfold buffers. pose proof (length_filter (fun oh => is_Some (oh_content oh)) (p_heap p)). lia. }
  exists h. split; [|done]. rewrite (st_bind_Ok _ _ _ _ _ Hr).
  assert (exists oh', h !! x = Some oh' /\ oh_Type oh' = t /\ oh_Size oh' = len c /\ oh_Hash oh' = object_id t c
    /\ oh_Offset oh' = oh_Offset oh /\ oh_Crc32 oh' = oh_Crc32 oh) as (oh' & Hx' & Ht' & Hs' & Hh' & Ho' & Hc').
  { destruct lowMemoryMode; [|subst h; by exists oh]. destruct (Forall2_lookup_l _ _ _ _ _ Hh Hx) as (oh' & Hx' & [->| ->]); eauto 10. }
  unfold cache_Add, mbind, ST_bind, deref, st_get, st_set, mret, ST_ret. cbn [p_heap p_cache set_heap set_cache].
  rewrite Hx', Hmade. cbn [negb]. cbn [p_heap p_cache set_heap set_cache]. rewrite Hx', Hh', Ho'.
  unfold forEachObserver. cbn [p_observers set_heap set_cache]. rewrite !notify_run by by apply notify_quiet. cbn [p_observers set_heap set_cache set_observers].
  by rewrite Ht', Hs', Hc', map_map.
Qed.

(** *** One more object *)

Lemma cell_grow m l x oh y v : cell m l x oh -> x <> y -> cell m (l ++ [(y, v)]) x oh.
Proof.
  intros [e t' c' d Hm He Hs Hin Hd Hty Hsz Hhash Hch Hpa Hbu|e Hm He Hs Hni Hb Hty Hsz Hz Hch Hpa Hco|h o Hm Ho Hhash Hext Hdisk Hch Hpa Hty] Hne.
  - eapply cell_done; try done. apply elem_of_app. by left.
  - eapply cell_pending; try done. rewrite fmap_app. cbn. rewrite not_elem_of_app, list_elem_of_singleton. done.
  - by eapply cell_thin.
Qed.

Lemma log_objects m (l : log) : (forall k t c, (k, (t, c)) ∈ l -> (k < m)%nat /\ exists d, stands d (pos es k) t c) ->
  forall k t c, (k, (t, c)) ∈ l -> an_object digest fmt es ext t c.
Proof. intros Hl k t c Hk. destruct (Hl k t c Hk) as (_ & d & Hd). by eapply stands_an_object. Qed.

Lemma store_extend l st st' x t c : store_ok l (Some st) -> an_object digest fmt es ext t c ->
  (forall k t c, (k, (t, c)) ∈ l -> an_object digest fmt es ext t c) ->
  raw_map st' = <[object_id t c := {| eo_Type := t; eo_Hash := object_id t c; eo_Data := c |}]> (raw_map st) ->
  store_ok (l ++ [(x, (t, c))]) (Some st').
Proof.
  intros Hst Hobj Hlog Hmap. unfold PackResolve.store_ok in *. pose proof (rs_ids _ _ _ _ Hrs) as Hids.
  pose proof (ext_an_object digest fmt es ext Hrs) as Hext. pose proof (rs_ext _ _ _ _ Hrs) as Hrx.
  destruct st0 as [s0|]; [|done]. intros h o. rewrite Hmap. destruct (decide (h = object_id t c)) as [->|Hne].
  - rewrite lookup_insert_eq. split.
    + intros [= <-]. right. exists x, t, c. split; [|done]. apply elem_of_app. right. by apply list_elem_of_singleton.
    + intros [Ho|(k & t' & c' & Hk & Hid & ->)].
      * destruct (Hrx _ _ Ho) as (Hh & Hid & _). destruct (Hids _ _ _ _ (Hext _ _ Ho) Hobj Hid) as [Ht Hc].
        f_equal. destruct o; cbn in *; congruence.
      * apply elem_of_app in Hk as [Hk|[= <- <- <-]%list_elem_of_singleton]; [|done].
        by destruct (Hids _ _ _ _ (Hlog _ _ _ Hk) Hobj (eq_sym Hid)) as [<- <-].
  - rewrite lookup_insert_ne by done. rewrite Hst. split; (intros [Ho|(k & t' & c' & Hk & Hid & Ho)]; [by left|right]); exists k, t', c'.
    + split; [|done]. apply elem_of_app. by left.
    + split; [|done]. apply elem_of_app in Hk as [Hk|[= -> -> ->]%list_elem_of_singleton]; [done|]. congruence.
Qed.

Lemma cache_extend m l h c x t d : cache_ok m l h c -> (x < m)%nat -> (m <= length es)%nat -> (forall k, k ∈ l.*1 -> (k < m)%nat) -> x ∉ l.*1 ->
  cache_ok m (l ++ [(x, (t, d))]) h
    {| c_oi := c_oi c ++ [x]; c_oiByHash := <[object_id t d := x]> (c_oiByHash c);
       c_oiByOffset := <[pos es x := x]> (c_oiByOffset c); c_made := true |}.
Proof.
  intros [Hmade Hoi Hoff Hhash Hhashed] Hx Hm Hl Hni. split; cbn; [done|by rewrite fmap_app, Hoi| | |].
  - intros z y. rewrite fmap_app. cbn. rewrite elem_of_app, list_elem_of_singleton. destruct (decide (z = pos es x)) as [->|Hne].
    + rewrite lookup_insert_eq. split; [intros [= <-]; auto|]. intros [[Hy| ->] Heq]; [|done].
      apply (pos_inj fmt es Hes) in Heq; [congruence|lia|pose proof (Hl y Hy); lia].
    + rewrite lookup_insert_ne by done. rewrite Hoff. split; [naive_solver|]. intros [[Hy| ->] Heq]; done.
  - intros h' y. destruct (decide (h' = object_id t d)) as [->|Hne].
    + rewrite lookup_insert_eq. intros [= <-]. left. exists t, d. split; [|done]. apply elem_of_app. right. by apply list_elem_of_singleton.
    + rewrite lookup_insert_ne by done. intros Hy. destruct (Hhash _ _ Hy) as [(t' & c' & Hin & Hid)|]; [left|by right].
      exists t', c'. split; [|done]. apply elem_of_app. by left.
  - intros y t' c' Hy. destruct (decide (object_id t' c' = object_id t d)) as [->|Hne]; [by rewrite lookup_insert_eq|].
    rewrite lookup_insert_ne by done. apply elem_of_app in Hy as [Hy|[= -> -> ->]%list_elem_of_singleton]; [by eapply Hhashed|done].
Qed.

Lemma heap_released m l h h' : heap_ok None m l h -> (if lowMemoryMode then released h h' else h' = h) -> heap_ok None m l h'.
Proof.
  intros [Hlen Hcells Hpar] Hr. assert (lowMemoryMode = true \/ lowMemoryMode = false) as [Hlm|Hlm] by (destruct lowMemoryMode; auto);
    rewrite Hlm in Hr; [|by subst]. pose proof (Forall2_length _ _ _ Hr) as Hl. split; [lia| |].
  - intros x oh Hx _. destruct (Forall2_lookup_r _ _ _ _ _ Hr Hx) as (oh0 & Hx0 & [->| ->]); [by apply Hcells|].
    apply cell_released; [done|]. by apply Hcells.
  - intros x oh pa Hx Hpa. destruct (Forall2_lookup_r _ _ _ _ _ Hr Hx) as (oh0 & Hx0 & [->| ->]); rewrite <-Hl; by apply (Hpar x oh0).
Qed.

Lemma cache_released m l h h' c : cache_ok m l h c -> (if lowMemoryMode then released h h' else h' = h) -> cache_ok m l h' c.
Proof.
  intros [Hmade Hoi Hoff Hhash Hhashed] Hr. split; try done. intros k x Hx. destruct (Hhash k x Hx) as [|(oh & Hm & Hoh & Hk)]; [by left|right].
  destruct lowMemoryMode; [|subst; by exists oh]. destruct (Forall2_lookup_l _ _ _ _ _ Hr Hoh) as (oh' & Hoh' & [->| ->]); eauto.
Qed.

Lemma log_ids m (l : log) : (forall k t c, (k, (t, c)) ∈ l -> (k < m)%nat /\ exists d, stands d (pos es k) t c) -> forall k, k ∈ l.*1 -> (k < m)%nat.
Proof. intros Hl k ([k' [t c]] & -> & Hk)%list_elem_of_fmap. by apply (Hl k' t c). Qed.

(** After an object was cached and reported. *)
Lemma parsing_extended m l (p p' : Parser S Ob) x e oh t c d :
  (m <= length es)%nat -> (x < m)%nat -> es !! x = Some e -> static es x e oh -> x ∉ l.*1 -> stands d (pos es x) t c ->
  heap_ok (Some x) m l (p_heap p) -> p_heap p !! x = Some oh -> oh_Type oh = t -> oh_Size oh = len c -> oh_Hash oh = object_id t c ->
  oh_chainDepth oh = d -> (en_base e <> NoBase -> is_Some (oh_parent oh)) -> buffered seekable st0 e oh c ->
  cache_ok m l (p_heap p) (p_cache p) -> p_observers p = map (obs_after (OnHeader (len es) :: (l ≫= entry_events (digest := digest) (fmt := fmt) es))) obs0 ->
  NoDup l.*1 -> (forall k t c, (k, (t, c)) ∈ l -> (k < m)%nat /\ exists d, stands d (pos es k) t c) ->
  cache_and_notify lowMemoryMode x p = (Ok tt, p') ->
  p_scanner p' = p_scanner p /\ length (p_heap p') = length (p_heap p) /\
  forall sc sum n parsed, store_ok (l ++ [(x, (t, c))]) (storage sc) -> sr_src (reader sc) = src -> (sum, n) = fixed ->
    parsing None m (l ++ [(x, (t, c))]) (Build_Parser sc (p_heap p') (p_cache p') (p_observers p') sum n parsed).
Proof.
  intros Hcount Hm He Hst Hni Hs Hheap Hx Hty Hsz Hhash Hch Hpa Hbu Hcache Hobs' Hnd Hlog Hrun.
  destruct (cache_and_notify_ok x oh t c p) as (h & Hrun' & Hrel); [apply (ho_parents _ _ _ _ _ _ _ _ Hheap)|done|apply Hcache|done..|].
  rewrite Hrun in Hrun'. injection Hrun' as ->. split; [done|]. split; [|intros sc sum n parsed Hstore Hr Hfix].
  { cbn. destruct lowMemoryMode; [symmetry; by eapply Forall2_length|by subst]. }
  assert (heap_ok None m (l ++ [(x, (t, c))]) (p_heap p)) as Hh1.
  { destruct Hheap as [Hlen Hcells Hpar]. split; [done| |done]. intros y oy Hy _. destruct (decide (y = x)) as [->|Hne].
    - rewrite Hx in Hy. injection Hy as <-. eapply cell_done; try done. apply elem_of_app. right. by apply list_elem_of_singleton.
    - apply cell_grow; [|done]. apply Hcells; [done|congruence]. }
  split; cbn [p_heap p_cache p_observers p_storage p_scanner set_observers set_cache set_heap]; try done.
  - by apply (heap_released _ _ (p_heap p)).
  - apply (cache_released _ _ (p_heap p)); [|done]. rewrite (so_offset _ _ _ _ Hst).
    by apply cache_extend; [..|by eapply log_ids|].
  - rewrite Hobs', map_map, bind_app. apply map_ext. intros o. cbn [bind_app mbind list_bind app entry_events].
    rewrite He, app_nil_r, (so_offset _ _ _ _ Hst), (so_crc _ _ _ _ Hst). unfold obs_after. by rewrite app_comm_cons, foldl_app.
  - rewrite fmap_app. split.
    + apply NoDup_app. split; [done|]. split; [|apply NoDup_singleton]. intros y Hy Hy'%list_elem_of_singleton. cbn in Hy'. by subst.
    + intros k t' c' [Hk|[= -> -> ->]%list_elem_of_singleton]%elem_of_app; [by apply Hlog|]. split; [done|]. by exists d.
Qed.

Lemma storeOrCache_ok m l (p : Parser S Ob) x e oh t c d :
  parsing (Some x) m l p -> (x < m)%nat -> es !! x = Some e -> static es x e oh -> x ∉ l.*1 -> stands d (pos es x) t c ->
  p_heap p !! x = Some oh -> en_base e <> NoBase -> oh_Type oh = t -> oh_Size oh = len c -> oh_Hash oh = object_id t c ->
  oh_chainDepth oh = d -> is_Some (oh_parent oh) -> oh_content oh = Some c ->
  exists p', storeOrCache lowMemoryMode x p = (Ok tt, p') /\ parsing None m (l ++ [(x, (t, c))]) p'.
Proof.
  intros Hp Hm He Hst Hni Hs Hx Hb Hty Hsz Hhash Hch Hpa Hco. pose proof Hp as [Hheap Hcache Hstore Hpsrc Hpobs [Hnd Hlog] Hcount Hfix].
  unfold storeOrCache. rewrite (st_bind_Ok _ _ _ _ _ (deref_ok _ _ _ Hx)), (st_bind_Ok (st_get _) _ _ _ _ eq_refl).
  destruct (p_storage p) as [st|] eqn:Hpst.
  - rewrite (so_disk _ _ _ _ Hst), (proj2 (en_type_delta _ _ He) Hb). destruct (raw_open (oh_Type oh) (oh_Size oh) st) as (st' & -> & Hmap).
    set (p1 := set_p_storage p st'). assert (parsing (Some x) m l p1) as Hp1 by by eapply parsing_storage.
    rewrite (st_bind_Ok _ _ p tt p1 eq_refl), (st_bind_Ok (st_lift (map_err PStorage (Ok tt))) _ p1 tt p1 eq_refl), Hco, (st_bind_Ok _ _ _ _ _ (update_run _ _ _)).
    pose proof (parsing_exc m l p1 x (fun oh => set_content oh (Some [])) Hp1 Hm (fun _ => eq_refl)) as Hp2. set (p2 := set_heap p1 _) in *.
    destruct Hp2 as [Hheap2 Hcache2 Hstore2 Hpsrc2 Hpobs2 _ _ Hfix2].
    assert (p_heap p2 !! x = Some (set_content oh (Some []))) as Hx2 by (cbn; by rewrite (lookup_alter_at _ _ _ _ Hx)).
    assert (buffered seekable st0 e (set_content oh (Some [])) c) as Hbu.
    { unfold buffered. cbn in Hstore. unfold PackResolve.store_ok in Hstore. destruct st0; [cbn; auto|done]. }
    destruct (cache_and_notify_ok x _ t c p2 (ho_parents _ _ _ _ _ _ _ _ Hheap2) Hx2 (co_made _ _ _ _ _ Hcache2) Hty Hsz Hhash) as (h & Hrun & _).
    set (p3 := set_observers _ _) in Hrun.
    destruct (parsing_extended m l p2 p3 x e (set_content oh (Some [])) t c d Hcount Hm He) as (_ & _ & Hend); try done; [by destruct Hst|].
    unfold deferred. rewrite Hrun. change (p_storage p3) with (Some st'). eexists. split; [done|]. apply Hend; [|done..].
    destruct (stands_facts _ _ _ _ Hs) as [_ Hstor]. rewrite Hty, Hsz.
    apply (store_extend l st); [done|by eapply stands_an_object|by eapply log_objects|].
    rewrite raw_closed; [by rewrite Hmap|done|]. apply object_id_nonzero. by eapply stands_an_object.
  - assert (buffered seekable st0 e oh c) as Hbu.
    { unfold buffered. unfold PackResolve.store_ok in Hstore. destruct st0; [done|by left]. }
    destruct (cache_and_notify_ok x oh t c p (ho_parents _ _ _ _ _ _ _ _ Hheap) Hx (co_made _ _ _ _ _ Hcache) Hty Hsz Hhash) as (h & Hrun & _).
    set (p3 := set_observers _ _) in Hrun.
    destruct (parsing_extended m l p p3 x e oh t c d Hcount Hm He) as (_ & _ & Hend); try done.
    exists p3. split; [done|]. apply (Hend (p_scanner p)); [|done..]. unfold PackResolve.store_ok in *. change (storage (p_scanner p)) with (p_storage p).
    rewrite Hpst. by destruct st0.
Qed.

(** *** Resolving a delta *)

(** The header [pa] is the base of [e]. *)
Definition linked (m : nat) (l : log) (x : nat) (e : entry) (pa : nat) (pah : ObjectHeader) : Prop :=
  match en_base e with
  | NoBase => False
  | OfsBase n => pa ∈ l.*1 /\ pos es pa = pos es x - n
  | RefBase h => (exists t s, (pa, (t, s)) ∈ l /\ object_id t s = h) \/ ((m <= pa)%nat /\ oh_Hash pah = h)
  end.

Lemma log_elem (l : log) k : k ∈ l.*1 -> exists t c, (k, (t, c)) ∈ l.
Proof. intros ([k' [t c]] & -> & Hk)%list_elem_of_fmap. by exists t, c. Qed.

Lemma elem_log (l : log) k t c : (k, (t, c)) ∈ l -> k ∈ l.*1.
Proof. intros. apply list_elem_of_fmap. by exists (k, (t, c)). Qed.

(** What a delta is over. *)
Lemma stands_over off e t c d : stands d off t c -> entry_at es off e -> en_base e <> NoBase -> exists t' s d',
  PatchDelta s (en_data e) = Ok c /\ t' = t /\
  match en_base e with
  | NoBase => False
  | OfsBase n => stands d' (off - n) t' s
  | RefBase h => an_object digest fmt es ext t' s /\ object_id t' s = h
  end.
Proof.
  intros Hs He Hb. destruct Hs as [off e2 He2 Hb2|d off e2 n t s c He2 Hb2 Hs Hp|d off off' e2 h t s c He2 Hb2 Hs Hh Hp|off e2 h o c He2 Hb2 Ho Hp];
    pose proof (entry_at_det _ _ Hes _ _ _ He He2) as <-; [done|..]; rewrite Hb2.
  - by exists t, s, d.
  - exists t, s, d. split_and!; try done. by eapply stands_an_object.
  - destruct (rs_ext _ _ _ _ Hrs _ _ Ho) as (_ & Hid & _). exists (eo_Type o), (eo_Data o), 0. split_and!; try done. by eapply ext_an_object.
Qed.

Lemma depth_facts m l x oh t c d e : cell m l x oh -> NoDup l.*1 -> (x, (t, c)) ∈ l -> (x < m)%nat -> es !! x = Some e ->
  oh_chainDepth oh = d -> stands d (pos es x) t c /\ (if isDeltaOnDisk oh then 0 < d else d = 0).
Proof.
  intros Hc Hnd Hin Hm He Hd. destruct Hc as [e' t' c' d' _ He' Hst Hin' Hs Hty Hsz Hhash Hch Hpa Hbu|e' _ He' Hst Hni|h o Hm']; [| |lia].
  - destruct (log_unique _ _ _ _ _ _ Hnd Hin Hin') as [<- <-]. assert (d' = d) as -> by congruence. split; [done|].
    rewrite He in He'. injection He' as <-. destruct (stands_facts _ _ _ _ Hs) as [_ Hstor]. pose proof (entry_at_pos _ _ _ He) as Hat.
    assert (IsDelta t = false) as Hnt by by destruct t. unfold isDeltaOnDisk. rewrite Hty, Hnt, (so_disk _ _ _ _ Hst). cbn [orb].
    destruct (IsDelta (en_type e)) eqn:Hde.
    + assert (1 <= d); [|lia]. apply (en_type_delta _ _ He) in Hde. by apply (stands_depth_pos digest fmt es ext Hes d (pos es x) t c e).
    + assert (en_base e = NoBase) as Hnb; [|by eapply stands_base_depth].
      destruct (en_base e) eqn:Hb; [done|..]; assert (IsDelta (en_type e) = true) by (apply (en_type_delta _ _ He); by rewrite Hb); congruence.
  - destruct Hni. by eapply elem_log.
Qed.

Lemma base_facts exc m l (p : Parser S Ob) x e pa pah :
  parsing exc m l p -> p_heap p !! pa = Some pah -> exc <> Some pa -> es !! x = Some e -> linked m l x e pa pah ->
  exists t s c, holds m l pa pah t s /\ PatchDelta s (en_data e) = Ok c /\ stands (oh_chainDepth pah + 1) (pos es x) t c
    /\ (if isDeltaOnDisk pah then 0 < oh_chainDepth pah else oh_chainDepth pah = 0).
Proof.
  intros Hp Hpah Hexc He Hl. pose proof (ho_cells _ _ _ _ _ _ _ _ (pg_heap _ _ _ _ _ _ _ _ _ _ _ Hp) pa pah Hpah Hexc) as Hc.
  destruct (pg_log _ _ _ _ _ _ _ _ _ _ _ Hp) as [Hnd Hlog]. pose proof (entry_at_pos _ _ _ He) as Hat.
  destruct (rs_stands _ _ _ _ Hrs _ _ Hat) as (d0 & t0 & c0 & Hs0).
  assert (en_base e <> NoBase) as Hb by (intros Hb; unfold linked in Hl; by rewrite Hb in Hl).
  destruct (stands_over _ _ _ _ _ Hs0 Hat Hb) as (t' & s' & d' & Hpd & -> & Hov). unfold linked in Hl.
  assert (forall t s, (pa, (t, s)) ∈ l -> stands (oh_chainDepth pah) (pos es pa) t s
    /\ (if isDeltaOnDisk pah then 0 < oh_chainDepth pah else oh_chainDepth pah = 0)) as Hdone.
  { intros t s Hin. destruct (Hlog _ _ _ Hin) as (Hlt & d & Hd). destruct (stands_entry _ _ _ _ _ _ _ _ Hd) as (e' & He').
    apply entry_at_lookup in He' as (k & Hk & Hpos). pose proof (pg_count _ _ _ _ _ _ _ _ _ _ _ Hp).
    apply (pos_inj fmt es Hes) in Hpos as ->; [|lia|by eapply lookup_lt_Some]. by eapply depth_facts. }
  destruct (en_base e) as [|n|h] eqn:Hbe; [done|..].
  - destruct Hl as [(t & s & Hin)%log_elem Hpos]. destruct (Hdone t s Hin) as [Hs Hd]. rewrite Hpos in Hs.
    destruct (stands_det digest fmt es ext Hes Hrs _ _ _ _ _ _ _ Hs Hov) as [-> ->].
    exists t0, s', c0. split_and!; [by left|done| |done]. by apply (stands_ofs digest fmt es ext _ _ e n t0 s').
  - destruct Hov as [Hobj Hid]. destruct Hl as [(t & s & Hin & Hid')|[Hm Hh]].
    + destruct (Hdone t s Hin) as [Hs Hd]. destruct (rs_ids _ _ _ _ Hrs t s t0 s') as [-> ->]; [by eapply stands_an_object|done|congruence|].
      exists t0, s', c0. split_and!; [by left|done| |done]. by apply (stands_ref digest fmt es ext _ _ (pos es pa) e h t0 s').
    + destruct Hc as [? ? ? ? Hlt|? Hlt|h' o _ Ho Hhash Hext Hdisk Hch Hpa Hty]; [lia..|]. assert (h' = h) as -> by congruence.
      destruct (rs_ext _ _ _ _ Hrs _ _ Ho) as (_ & Hid' & Hstor & _).
      destruct (rs_ids _ _ _ _ Hrs (eo_Type o) (eo_Data o) t0 s') as [Ht Hs]; [by eapply ext_an_object|done|congruence|].
      exists t0, s', c0. split_and!; [right; split; [done|]; exists o; by rewrite Hh|done| |].
      * rewrite Hch, <-Ht. apply (stands_thin digest fmt es ext _ e h o); [done..|by rewrite Hs].
      * unfold isDeltaOnDisk. rewrite Hdisk, Hch. destruct Hty as [[-> _]|[-> _]]; [done|]. by destruct (eo_Type o).
Qed.

(** The base of the entry is known. *)
Definition ready (l : log) (x : nat) (e : entry) : Prop :=
  match en_base e with
  | NoBase => False
  | OfsBase n => exists pa, pa ∈ l.*1 /\ pos es pa = pos es x - n
  | RefBase h => (exists pa t s, (pa, (t, s)) ∈ l /\ object_id t s = h) \/ is_Some (ext !! h)
  end.

Lemma parsing_weaken exc m l p : parsing None m l p -> parsing exc m l p.
Proof. intros [[] ? ? ? ? ? ? ?]. split; try done. split; [done| |done]. intros. auto. Qed.

Lemma parsing_link m l (p : Parser S Ob) x pa : parsing (Some x) m l p -> (x < m)%nat -> (pa < length (p_heap p))%nat ->
  parsing (Some x) m l (set_heap p (alter (fun oh => set_parent oh pa) x (p_heap p))).
Proof. intros Hp Hx Hpa. apply parsing_alter; [done|]. intros oh Hoh. split_and!; [lia|done|]. by intros pb [= <-]. Qed.

Lemma parsing_alloc m l p h o : parsing None m l p -> ext !! h = Some o -> parsing None m l (set_heap p (p_heap p ++ [placeholder h])).
Proof.
  intros [[Hlen Hcells Hpar] [Hmade Hoi Hoff Hhash Hhashed] Hstore Hpsrc Hpobs Hlog Hcount Hfix] Ho. split; try done; cbn [p_heap set_heap].
  - split; rewrite ?length_app; cbn [length]; [lia| |].
    + intros x oh [Hx|[Hx Hoh]]%lookup_app_Some _; [by apply Hcells|]. apply list_lookup_singleton_Some in Hoh as [Hx0 <-].
      eapply cell_thin; try done; [lia|]. left. split; [done|by left].
    + intros x oh pa [Hx|[Hx Hoh]]%lookup_app_Some Hpa; [pose proof (Hpar _ _ _ Hx Hpa); lia|].
      apply list_lookup_singleton_Some in Hoh as [Hx0 <-]. done.
  - split; try done. intros k x Hx. destruct (Hhash k x Hx) as [|(oh & Hm & Hoh & Hk)]; [by left|right].
    exists oh. split; [done|]. split; [|done]. by apply lookup_app_l_Some.
Qed.

Lemma parsing_cached exc m l (p : Parser S Ob) h pa pah :
  parsing exc m l p -> p_heap p !! pa = Some pah -> (exists t s, (pa, (t, s)) ∈ l /\ object_id t s = h) \/ ((m <= pa)%nat /\ oh_Hash pah = h) ->
  parsing exc m l (set_cache p {| c_oi := c_oi (p_cache p); c_oiByHash := <[h := pa]> (c_oiByHash (p_cache p));
    c_oiByOffset := c_oiByOffset (p_cache p); c_made := true |}).
Proof.
  intros [Hheap [Hmade Hoi Hoff Hhash Hhashed] Hstore Hpsrc Hpobs Hlog Hcount Hfix] Hpa Hl. split; try done. split; cbn; try done.
  - intros k x. destruct (decide (k = h)) as [->|Hne]; [|rewrite lookup_insert_ne by done; apply Hhash].
    rewrite lookup_insert_eq. intros [= <-]. destruct Hl as [|[Hm Hk]]; [by left|right]. by exists pah.
  - intros x t c Hx. destruct (decide (object_id t c = h)) as [->|Hne]; [by rewrite lookup_insert_eq|].
    rewrite lookup_insert_ne by done. by eapply Hhashed.
Qed.

Lemma en_type_base k e : es !! k = Some e ->
  match en_base e with NoBase => IsDelta (en_type e) = false | OfsBase _ => en_type e = OFSDeltaObject | RefBase _ => en_type e = REFDeltaObject end.
Proof.
  intros He. destruct (entry_lookup_ok _ _ Hes _ _ He) as [_ Href _ _]. unfold ref_encodes in Href. destruct (en_base e); by destruct Href.
Qed.

Lemma pending_cell m l x oh e : cell m l x oh -> (x < m)%nat -> x ∉ l.*1 -> es !! x = Some e ->
  static es x e oh /\ oh_Type oh = en_type e /\ oh_Size oh = len (en_data e) /\ IsZero (oh_Hash oh) = true /\ oh_chainDepth oh = 0
    /\ oh_parent oh = None /\ oh_content oh = (if lowMemoryMode then None else Some (en_data e)).
Proof.
  intros Hc Hm Hni He. destruct Hc as [e' t' c' d' _ He' Hst Hin'|e' _ He' Hst _|h o Hm']; [|naive_solver|lia].
  destruct Hni. by eapply elem_log.
Qed.

Lemma set_base_ok m l (p : Parser S Ob) x oh e :
  parsing None m l p -> (x < m)%nat -> x ∉ l.*1 -> es !! x = Some e -> p_heap p !! x = Some oh -> ready l x e ->
  exists p' pa pah, set_base x p = (Ok tt, p') /\ parsing (Some x) m l p' /\ p_heap p' !! x = Some (set_parent oh pa)
    /\ pa <> x /\ p_heap p' !! pa = Some pah /\ linked m l x e pa pah.
Proof.
  intros Hp Hm Hni He Hx Hready.
  pose proof (ho_cells _ _ _ _ _ _ _ _ (pg_heap _ _ _ _ _ _ _ _ _ _ _ Hp) x oh Hx ltac:(done)) as Hc.
  destruct (pending_cell _ _ _ _ _ Hc Hm Hni He) as (Hst & Hty & _ & _ & _ & Hpa0 & _).
  pose proof (en_type_base x e He) as Hbt. unfold set_base, ready, linked in *.
  rewrite (st_bind_Ok _ _ _ _ _ (deref_ok _ _ _ Hx)), (st_bind_Ok (st_get _) _ _ _ _ eq_refl), Hty.
  pose proof (ho_length _ _ _ _ _ _ _ _ (pg_heap _ _ _ _ _ _ _ _ _ _ _ Hp)) as Hlen.
  destruct (pg_cache _ _ _ _ _ _ _ _ _ _ _ Hp) as [Hmade Hoi Hoff Hhash Hhashed].
  destruct (pg_log _ _ _ _ _ _ _ _ _ _ _ Hp) as [Hnd Hlog].
  destruct (en_base e) as [|n|h] eqn:Hb; [done|..]; rewrite Hbt.
  - destruct Hready as (pa & Hin & Hpos). rewrite (so_offref _ _ _ _ Hst n Hb).
    rewrite (proj2 (Hoff (pos es x - n) pa)) by done.
    assert (pa < m)%nat as Hpm by by eapply log_ids. destruct (lookup_lt_is_Some_2 (p_heap p) pa) as [pah Hpah]; [lia|].
    exists (set_heap p (alter (fun oh => set_parent oh pa) x (p_heap p))), pa, pah. assert (pa <> x) by by intros ->.
    split; [done|]. split; [apply parsing_link; [by apply parsing_weaken|done|lia]|]. cbn [p_heap set_heap].
    rewrite (lookup_alter_at _ _ _ _ Hx), list_lookup_alter_ne by done. done.
  - rewrite (so_ref _ _ _ _ Hst h Hb).
    assert (exists p1 pa pah, (match c_oiByHash (p_cache p) !! h with None => alloc (placeholder h) | Some pa => mret pa end) p = (Ok pa, p1)
      /\ parsing None m l p1 /\ p_heap p1 !! x = Some oh /\ pa <> x /\ p_heap p1 !! pa = Some pah /\ p_cache p1 = p_cache p
      /\ ((exists t s, (pa, (t, s)) ∈ l /\ object_id t s = h) \/ ((m <= pa)%nat /\ oh_Hash pah = h))) as (p1 & pa & pah & Ha & Hp1 & Hx1 & Hne & Hpah & Hc1 & Hl).
    { destruct (c_oiByHash (p_cache p) !! h) as [pa|] eqn:Hca.
      - destruct (Hhash _ _ Hca) as [(t & s & Hin & Hid)|(pah & Hpm & Hpah & Hph)].
        + destruct (Hlog _ _ _ Hin) as [Hpm _]. destruct (lookup_lt_is_Some_2 (p_heap p) pa) as [pah Hpah]; [lia|].
          exists p, pa, pah. split_and!; try done; [intros ->; by apply Hni, (elem_log _ _ _ _ Hin)|left; eauto].
        + exists p, pa, pah. split_and!; try done; [lia|by right].
      - destruct Hready as [(pa & t & s & Hin & Hid)|[o Ho]]; [destruct (Hhashed _ _ _ Hin) as [y Hy]; by rewrite Hid, Hca in Hy|].
        eexists _, _, (placeholder h). split; [reflexivity|]. split; [by eapply parsing_alloc|]. cbn [p_heap set_heap].
        split; [by apply lookup_app_l_Some|]. split; [lia|]. split; [by rewrite lookup_app_r, Nat.sub_diag by lia|].
        split; [done|]. right. split; [lia|done]. }
    rewrite (st_bind_Ok _ _ _ _ _ Ha), (st_bind_Ok _ _ _ _ _ (update_run _ _ _)), Hmade. cbn [negb].
    set (p2 := set_heap p1 (alter (fun oh => set_parent oh pa) x (p_heap p1))).
    assert (parsing (Some x) m l p2) as Hp2 by (apply parsing_link; [by apply parsing_weaken|done|by eapply lookup_lt_Some]).
    assert (p_heap p2 !! pa = Some pah) as Hpah2 by (cbn; by rewrite list_lookup_alter_ne).
    eexists _, pa, pah. split; [unfold st_set; reflexivity|].
    pose proof (parsing_cached _ _ _ _ h pa pah Hp2 Hpah2 Hl) as Hp3. rewrite <-Hc1. split; [exact Hp3|].
    cbn [p_heap set_cache set_heap p2]. rewrite (lookup_alter_at _ _ _ _ Hx1), list_lookup_alter_ne by done. done.
Qed.

Lemma processDelta_ok m l (p : Parser S Ob) x e :
  parsing None m l p -> (x < m)%nat -> x ∉ l.*1 -> es !! x = Some e -> ready l x e ->
  exists p' t c, processDelta digest fmt seekable lowMemoryMode x p = (Ok tt, p') /\ parsing None m (l ++ [(x, (t, c))]) p'.
Proof.
  intros Hp Hm Hni He Hready. pose proof (pg_heap _ _ _ _ _ _ _ _ _ _ _ Hp) as [Hlen Hcells _].
  destruct (lookup_lt_is_Some_2 (p_heap p) x) as [oh Hx]; [lia|].
  destruct (pending_cell _ _ _ _ _ (Hcells _ _ Hx ltac:(done)) Hm Hni He) as (Hst & Hty & Hsz & Hz & Hch & Hpa0 & Hco).
  destruct (set_base_ok _ _ _ _ _ _ Hp Hm Hni He Hx Hready) as (p1 & pa & pah & Hb & Hp1 & Hx1 & Hne & Hpah & Hl).
  destruct (base_facts (Some x) m l p1 x e pa pah) as (t & s & c & Hh & Hpd & Hs & Hdepth); [done..|congruence|done|done|].
  pose proof (rs_depth _ _ _ _ Hrs _ _ _ _ Hs) as Hmax.
  assert (en_base e <> NoBase) as Hnb by (intros Hnb; unfold ready in Hready; by rewrite Hnb in Hready).
  unfold processDelta. rewrite (st_bind_Ok _ _ _ _ _ Hb).
  assert (IsDelta (oh_diskType (set_parent oh pa)) = true) as Hdd.
  { cbn. rewrite (so_disk _ _ _ _ Hst). by apply (en_type_delta _ _ He). }
  pose proof (checkDepth_ok x _ pa pah p1 Hx1 Hdd Hch eq_refl Hpah Hdepth Hmax) as Hcd. set (p2 := set_heap p1 _) in Hcd.
  rewrite (st_bind_Ok _ _ _ _ _ Hcd).
  assert (parsing (Some x) m l p2) as Hp2 by by apply parsing_exc.
  set (oh2 := set_depth (set_parent oh pa) (oh_chainDepth pah + 1)).
  assert (p_heap p2 !! x = Some oh2) as Hx2 by (cbn; by rewrite (lookup_alter_at _ _ _ _ Hx1)).
  assert (static es x e oh2) as Hst2 by by destruct Hst.
  destruct (ensureContent_ok m l p2 x e oh2 pa pah t s c) as (p3 & Hec & Hp3 & Hx3); try done; [cbn; by rewrite list_lookup_alter_ne|].
  rewrite (st_bind_Ok _ _ _ _ _ Hec).
  destruct (storeOrCache_ok m l p3 x e (object_header oh2 t c) t c (oh_chainDepth pah + 1) Hp3 Hm He) as (p4 & Hso & Hp4); try done; [by destruct Hst2|].
  by exists p4, t, c.
Qed.

(** *** Visiting the deltas over an object *)

(** The entry [z] is a delta over the resolved entry [y]. *)
Definition kid (l : log) (y z : nat) : Prop :=
  exists e, es !! z = Some e /\
    match en_base e with
    | NoBase => False
    | OfsBase n => pos es z - n = pos es y
    | RefBase h => exists t c, (y, (t, c)) ∈ l /\ object_id t c = h
    end.

Definition closed (l : log) (y : nat) : Prop := forall z, kid l y z -> z ∈ l.*1.

Lemma closed_grow (l l' : log) y : NoDup (l ++ l').*1 -> y ∈ l.*1 -> closed l y -> closed (l ++ l') y.
Proof.
  intros Hnd Hy Hc z (e & He & Hk). rewrite fmap_app, elem_of_app. left. apply Hc. exists e. split; [done|].
  destruct (en_base e); [done..|]. destruct Hk as (t & c & Hin & Hid). apply log_elem in Hy as (t' & c' & Hy).
  destruct (log_unique (l ++ l') y t c t' c') as [-> ->]; [done|done|apply elem_of_app; by left|]. eauto.
Qed.

Lemma ready_grow (l l' : log) x e : ready l x e -> ready (l ++ l') x e.
Proof.
  unfold ready. destruct (en_base e); [done|..].
  - intros (pa & Hpa & Hpos). exists pa. split; [|done]. rewrite fmap_app, elem_of_app. by left.
  - intros [(pa & t & s & Hin & Hid)|]; [left|by right]. exists pa, t, s. split; [|done]. apply elem_of_app. by left.
Qed.

Lemma log_size m (l : log) : NoDup l.*1 -> (forall k, k ∈ l.*1 -> (k < m)%nat) -> (length l <= m)%nat.
Proof.
  intros Hnd Hl. assert (l.*1 ⊆+ seq 0 m) as Hsub%submseteq_length.
  - apply NoDup_submseteq; [done|]. intros y Hy. apply elem_of_seq. pose proof (Hl y Hy). lia.
  - by rewrite length_seq, length_fmap in Hsub.
Qed.

(** The children of each base. *)
Record children_ok (ch : children) : Prop := {
  ch_ofs : forall z c, c ∈ default [] (ch.1 !! z) <-> exists e n, es !! c = Some e /\ en_base e = OfsBase n /\ pos es c - n = z;
  ch_ref : forall h c, c ∈ default [] (ch.2 !! h) <-> exists e, es !! c = Some e /\ en_base e = RefBase h;
}.

(** What a step of the traversal establishes, from the log [l]: some entries
    were resolved and their deltas too. *)
Definition resolves (l : log) (p : Parser S Ob) (m : ST parse_error (Parser S Ob) unit) (Q : log -> Prop) : Prop :=
  exists p' l', m p = (Ok tt, p') /\ parsing None (length es) (l ++ l') p' /\ (forall y, y ∈ l'.*1 -> closed (l ++ l') y) /\ Q (l ++ l').

Lemma resolves_ret l p (Q : log -> Prop) : parsing None (length es) l p -> Q l -> resolves l p (mret tt) Q.
Proof. intros Hp HQ. exists p, []. rewrite app_nil_r. split_and!; [done..| |done]. intros y Hy. by apply elem_of_nil in Hy. Qed.

Lemma resolves_eq l p m1 (m2 : ST parse_error (Parser S Ob) unit) (Q : log -> Prop) : m1 p = m2 p -> resolves l p m2 Q -> resolves l p m1 Q.
Proof. intros Heq (p' & l' & Hm & H'). exists p', l'. by rewrite Heq. Qed.

Lemma resolves_weaken l p m1 (Q Q' : log -> Prop) : resolves l p m1 Q ->
  (forall l' p', parsing None (length es) (l ++ l') p' -> Q (l ++ l') -> Q' (l ++ l')) -> resolves l p m1 Q'.
Proof. intros (p' & l' & Hm & Hp & Hc & HQ) Hw. exists p', l'. split_and!; [done..|by eapply Hw]. Qed.

Lemma resolves_bind l p m1 (m2 : ST parse_error (Parser S Ob) unit) (Q1 Q2 : log -> Prop) :
  resolves l p m1 Q1 -> (forall l' p', parsing None (length es) (l ++ l') p' -> Q1 (l ++ l') -> resolves (l ++ l') p' m2 Q2) ->
  resolves l p (m1;; m2) Q2.
Proof.
  intros (p1 & l1 & Hm1 & Hp1 & Hc1 & HQ1) Hnext. destruct (Hnext l1 p1 Hp1 HQ1) as (p2 & l2 & Hm2 & Hp2 & Hc2 & HQ2).
  exists p2, (l1 ++ l2). rewrite (st_bind_Ok _ _ _ _ _ Hm1), app_assoc. split_and!; [done..| |done].
  intros y. rewrite fmap_app. intros [Hy|Hy]%elem_of_app; [|by apply Hc2]. apply closed_grow; [apply Hp2| |by apply Hc1].
  rewrite fmap_app, elem_of_app. by right.
Qed.

Lemma resolves_each (f : nat -> ST parse_error (Parser S Ob) unit) (P : log -> Prop) (Q : log -> nat -> Prop) cs l p :
  (forall c l p, c ∈ cs -> P l -> parsing None (length es) l p -> resolves l p (f c) (fun l' => Q l' c)) ->
  (forall l l', P l -> P (l ++ l')) -> (forall l l' c, NoDup (l ++ l').*1 -> Q l c -> Q (l ++ l') c) ->
  P l -> parsing None (length es) l p -> resolves l p (st_each f cs) (fun l' => forall c, c ∈ cs -> Q l' c).
Proof.
  intros Hf Hmono HQmono. revert l p. induction cs as [|c cs IH]; intros l p HP Hp; cbn [st_each].
  - apply resolves_ret; [done|]. intros c Hc. by apply elem_of_nil in Hc.
  - eapply resolves_bind; [apply Hf; [by left|done..]|]. intros l' p' Hp' Hc. cbn beta in Hc.
    destruct (IH) with (l := l ++ l') (p := p') as (p2 & l2 & Hm & Hp2 & Hcl & HQ); [|by apply Hmono|done|].
    + intros c' l0 p0 Hc'. apply Hf. by right.
    + exists p2, l2. split_and!; [done..|]. intros c' [->|Hc']%elem_of_cons; [|by apply HQ]. apply HQmono; [apply Hp2|done].
Qed.

Lemma elem_grow (l l' : log) (c : nat) : c ∈ l.*1 -> c ∈ (l ++ l').*1.
Proof. rewrite fmap_app, elem_of_app. by left. Qed.

Lemma resolved_header l (p : Parser S Ob) c e : parsing None (length es) l p -> es !! c = Some e -> exists oh, p_heap p !! c = Some oh
  /\ oh_Offset oh = pos es c /\ (forall t d, (c, (t, d)) ∈ l -> oh_Hash oh = object_id t d)
  /\ if oh_parent oh then c ∈ l.*1 else en_base e = NoBase \/ c ∉ l.*1.
Proof.
  intros Hp He. pose proof (pg_heap _ _ _ _ _ _ _ _ _ _ _ Hp) as [Hlen Hcells _]. pose proof (lookup_lt_Some _ _ _ He) as Hlt.
  destruct (lookup_lt_is_Some_2 (p_heap p) c) as [oh Hx]; [lia|]. exists oh. split; [done|].
  destruct (pg_log _ _ _ _ _ _ _ _ _ _ _ Hp) as [Hnd _].
  destruct (Hcells _ _ Hx ltac:(done)) as [e' t' c' d' _ He' Hst Hin' _ _ _ Hhash _ Hpa _|e' _ He' Hst Hni _ _ _ _ _ Hpa _|h o Hm']; [..|lia];
    (split; [by destruct Hst|]); (split; [intros t d Hin|]); rewrite He in He'; injection He' as <-.
  - by destruct (log_unique _ _ _ _ _ _ Hnd Hin Hin') as [-> ->].
  - apply elem_log in Hin'. destruct (oh_parent oh); [done|left]. destruct (en_base e) eqn:Hb; [done|..]; by destruct Hpa.
  - destruct Hni. by eapply elem_log.
  - rewrite Hpa. by right.
Qed.

(** A delta that is resolved, and those over it, unless it was. *)
Lemma resolve_one l (p : Parser S Ob) (k : ST parse_error (Parser S Ob) unit) c e :
  parsing None (length es) l p -> es !! c = Some e -> c ∈ l.*1 \/ ready l c e -> en_base e <> NoBase ->
  (forall t d p', c ∉ l.*1 -> parsing None (length es) (l ++ [(c, (t, d))]) p' -> resolves (l ++ [(c, (t, d))]) p' k (fun l' => closed l' c)) ->
  resolves l p (oc ← deref c; match oh_parent oc with Some _ => mret tt | None => processDelta digest fmt seekable lowMemoryMode c;; k end)
    (fun l' => c ∈ l'.*1).
Proof.
  intros Hp He Hr Hnb Hk. destruct (resolved_header l p c e Hp He) as (oh & Hx & _ & _ & Hpa).
  destruct (oh_parent oh) as [pa|] eqn:Hop.
  - exists p, []. rewrite (st_bind_Ok _ _ _ _ _ (deref_ok _ _ _ Hx)), Hop, app_nil_r. split_and!; [done..| |done].
    intros y Hy. by apply elem_of_nil in Hy.
  - destruct Hpa as [|Hni]; [done|]. destruct Hr as [|Hr]; [done|]. pose proof (lookup_lt_Some _ _ _ He) as Hlt.
    destruct (processDelta_ok _ _ _ _ _ Hp Hlt Hni He Hr) as (p1 & t & d & Hpd & Hp1).
    destruct (Hk t d p1 Hni Hp1) as (p2 & l2 & Hm & Hp2 & Hc2 & HQ). exists p2, ((c, (t, d)) :: l2).
    rewrite (st_bind_Ok _ _ _ _ _ (deref_ok _ _ _ Hx)), Hop, (st_bind_Ok _ _ _ _ _ Hpd).
    replace (l ++ (c, (t, d)) :: l2) with ((l ++ [(c, (t, d))]) ++ l2) by by rewrite <-app_assoc.
    split_and!; [done..| |]; [|rewrite !fmap_app, !elem_of_app; left; right; by left].
    intros y. rewrite fmap_cons. intros [->|Hy]%elem_of_cons; [done|by apply Hc2].
Qed.

Lemma visit_ok n ch l (p : Parser S Ob) x : children_ok ch -> parsing None (length es) l p -> x ∈ l.*1 -> (length es < length l + n)%nat ->
  resolves l p (visit digest fmt seekable lowMemoryMode n ch x) (fun l' => closed l' x).
Proof.
  intros [Hofs Href]. revert l p x. induction n as [|n IH]; intros l p x Hp Hx Hn.
  { destruct (pg_log _ _ _ _ _ _ _ _ _ _ _ Hp) as [Hnd Hl]. pose proof (log_size _ _ Hnd (log_ids _ _ Hl)). lia. }
  cbn [visit]. destruct (pg_log _ _ _ _ _ _ _ _ _ _ _ Hp) as [Hnd Hlog]. apply log_elem in Hx as (t & s & Hx).
  assert (x < length es)%nat as Hlt by by eapply Hlog. destruct (lookup_lt_is_Some_2 es x Hlt) as [ex Hex].
  set (P := fun l => (x, (t, s)) ∈ l /\ (length es < length l + Datatypes.S n)%nat).
  assert (forall l l', P l -> P (l ++ l')) as Hmono.
  { intros l0 l' [Hin Hlen]. split; [apply elem_of_app; by left|]. rewrite length_app. lia. }
  assert (forall c l p, kid l x c -> P l -> parsing None (length es) l p -> resolves l p
    (oc ← deref c; match oh_parent oc with Some _ => mret tt | None => processDelta digest fmt seekable lowMemoryMode c;;
       visit digest fmt seekable lowMemoryMode n ch c end) (fun l' => c ∈ l'.*1)) as Hchild.
  { intros c l0 p0 (e & He & Hk) [Hin Hlen] Hp0. apply (resolve_one l0 p0 _ c e); [done..|right| |].
    - unfold ready. destruct (en_base e) as [|m|h]; [done|exists x; split; [by eapply elem_log|lia]|]. left. destruct Hk as (t' & c' & ? & ?). eauto.
    - intros Hb. by rewrite Hb in Hk.
    - intros t' d p' Hni Hp'. apply IH; [done| |rewrite length_app; cbn; lia]. rewrite fmap_app, elem_of_app. right. by left. }
  assert (forall l (p : Parser S Ob) (f : ObjectHeader -> ST parse_error (Parser S Ob) unit) (Q : log -> Prop), P l -> parsing None (length es) l p ->
    (forall oh, oh_Hash oh = object_id t s -> oh_Offset oh = pos es x -> resolves l p (f oh) Q) -> resolves l p (oh ← deref x; f oh) Q) as Hderef.
  { intros l0 p0 f Q [Hin _] Hp0 Hf. destruct (resolved_header l0 p0 x ex Hp0 Hex) as (oh & Hoh & Hoff & Hhash & _).
    apply (resolves_eq _ _ _ (f oh)); [by rewrite (st_bind_Ok _ _ _ _ _ (deref_ok _ _ _ Hoh))|]. apply Hf; [by apply Hhash|done]. }
  assert (P l) as HP by by split.
  apply Hderef; [done..|]. intros oh Hhash _.
  eapply (resolves_bind _ _ _ _ (fun l' => forall c, c ∈ default [] (ch.2 !! object_id t s) -> c ∈ l'.*1)).
  - rewrite Hhash. apply (resolves_each _ P (fun l c => c ∈ l.*1)); [|done|by intros; apply elem_grow|done..]. intros c l0 p0 (e & He & Hb)%Href HP0 Hp0. apply Hchild; [|done..].
    exists e. split; [done|]. rewrite Hb. exists t, s. split; [apply HP0|done].
  - intros l1 p1 Hp1 Hrefs. pose proof (Hmono _ l1 HP) as HP1. apply Hderef; [done..|]. intros oh' _ Hoff.
    eapply resolves_weaken.
    + apply (resolves_each _ P (fun l c => c ∈ l.*1)); [|done|by intros; apply elem_grow|done..]. intros c l0 p0 (e & m & He & Hb & Hpos)%Hofs HP0 Hp0. apply Hchild; [|done..].
      exists e. split; [done|]. by rewrite Hb, Hpos.
    + cbn beta. intros l2 p2 Hp2 Hofss z (e & He & Hk). destruct (en_base e) as [|m|h] eqn:Hb; [done| |].
      * apply Hofss. rewrite Hoff. apply Hofs. eauto.
      * destruct Hk as (t' & c' & Hin & Hid). destruct (pg_log _ _ _ _ _ _ _ _ _ _ _ Hp2) as [Hnd2 _].
        destruct (log_unique _ x t s t' c' Hnd2) as [-> ->]; [by apply (Hmono _ l2 HP1)|done|].
        rewrite fmap_app, elem_of_app. left. apply Hrefs. rewrite Hid. apply Href. eauto.
Qed.

(** *** Resolving all deltas *)

Lemma children_fold {K} `{Countable K} (f : nat -> option K) ds m k c :
  c ∈ default [] (foldl (fun m x => match f x with Some k => add_child m k x | None => m end) m ds !! k)
  <-> c ∈ default [] (m !! k) \/ (c ∈ ds /\ f c = Some k).
Proof.
  revert m. induction ds as [|x ds IH]; intros m; cbn [foldl].
  - split; [by left|]. intros [|[Hn _]]; [done|]. by apply elem_of_nil in Hn.
  - rewrite IH, elem_of_cons. destruct (f x) as [kx|] eqn:Hfx; [|naive_solver].
    unfold add_child. destruct (decide (kx = k)) as [->|Hne].
    + rewrite lookup_insert_eq. cbn [default]. change (id ?x) with x. rewrite elem_of_app, list_elem_of_singleton. naive_solver.
    + rewrite lookup_insert_ne by done. naive_solver.
Qed.

Lemma children_of_heap l (p : Parser S Ob) ofs refs :
  parsing None (length es) l p -> (forall k, k ∈ l.*1 -> exists e, es !! k = Some e /\ en_base e = NoBase) ->
  (forall k, k ∈ ofs <-> exists e n, es !! k = Some e /\ en_base e = OfsBase n) ->
  (forall k, k ∈ refs <-> exists e h, es !! k = Some e /\ en_base e = RefBase h) ->
  children_ok (ofs_children (p_heap p) ofs, ref_children (p_heap p) refs).
Proof.
  intros Hp Hb Hofs Hrefs. pose proof (pg_heap _ _ _ _ _ _ _ _ _ _ _ Hp) as [Hlen Hcells _].
  assert (forall k e, es !! k = Some e -> en_base e <> NoBase -> exists oh, p_heap p !! k = Some oh /\ static es k e oh) as Hoh.
  { intros k e He Hnb. pose proof (lookup_lt_Some _ _ _ He) as Hlt. destruct (lookup_lt_is_Some_2 (p_heap p) k) as [oh Hx]; [lia|]. exists oh. split; [done|].
    apply (pending_cell _ _ _ _ _ (Hcells _ _ Hx ltac:(done)) Hlt); [|done]. intros (e' & He' & Hb')%Hb. congruence. }
  split; cbn [fst snd].
  - intros z c. unfold ofs_children.
    assert (forall m, foldl (fun m x => match p_heap p !! x with Some oh => add_child m (oh_OffsetReference oh) x | None => m end) m ofs
      = foldl (fun m x => match oh_OffsetReference <$> p_heap p !! x with Some k => add_child m k x | None => m end) m ofs) as ->.
    { clear. induction ofs as [|x ofs IH]; intros m; [done|]. cbn [foldl]. rewrite IH. by destruct (p_heap p !! x). }
    rewrite children_fold, lookup_empty. cbn [default]. split.
    + intros [Hn|[(e & n & He & Hbe)%Hofs Hk]]; [by apply elem_of_nil in Hn|]. destruct (Hoh c e He) as (oh & Hx & Hst); [congruence|].
      rewrite Hx in Hk. injection Hk as Hk. rewrite (so_offref _ _ _ _ Hst n Hbe) in Hk. eauto.
    + intros (e & n & He & Hbe & Hz). right. split; [apply Hofs; eauto|]. destruct (Hoh c e He) as (oh & -> & Hst); [congruence|]. cbn.
      by rewrite (so_offref _ _ _ _ Hst n Hbe), Hz.
  - intros h c. unfold ref_children.
    assert (forall m, foldl (fun m x => match p_heap p !! x with Some oh => add_child m (oh_Reference oh) x | None => m end) m refs
      = foldl (fun m x => match oh_Reference <$> p_heap p !! x with Some k => add_child m k x | None => m end) m refs) as ->.
    { clear. induction refs as [|x refs IH]; intros m; [done|]. cbn [foldl]. rewrite IH. by destruct (p_heap p !! x). }
    rewrite children_fold, lookup_empty. cbn [default]. split.
    + intros [Hn|[(e & k & He & Hbe)%Hrefs Hk]]; [by apply elem_of_nil in Hn|]. destruct (Hoh c e He) as (oh & Hx & Hst); [congruence|].
      rewrite Hx in Hk. injection Hk as Hk. rewrite (so_ref _ _ _ _ Hst k Hbe) in Hk. subst. eauto.
    + intros (e & He & Hbe). right. split; [apply Hrefs; eauto|]. destruct (Hoh c e He) as (oh & -> & Hst); [congruence|]. cbn.
      by rewrite (so_ref _ _ _ _ Hst h Hbe).
Qed.

Lemma log_content exc m l (p : Parser S Ob) k t c d : parsing exc m l p -> k ∈ l.*1 -> stands d (pos es k) t c -> (k, (t, c)) ∈ l.
Proof.
  intros Hp (t' & c' & Hk)%log_elem Hs. destruct (proj2 (pg_log _ _ _ _ _ _ _ _ _ _ _ Hp) _ _ _ Hk) as (_ & d' & Hd').
  by destruct (stands_det digest fmt es ext Hes Hrs _ _ _ _ _ _ _ Hs Hd') as [-> ->].
Qed.

Lemma stands_mono d off t c : PackResolve.stands digest fmt es ∅ d off t c -> stands d off t c.
Proof.
  induction 1; [by apply stands_object|by eapply stands_ofs|by eapply stands_ref|by rewrite lookup_empty in *].
Qed.

(** The bases are resolved and so are all deltas over what is resolved. *)
Record saturated (l : log) : Prop := {
  sat_bases : forall k e, es !! k = Some e -> en_base e = NoBase -> k ∈ l.*1;
  sat_closed : forall k, k ∈ l.*1 -> closed l k;
}.

(** What stands without the storage is resolved. *)
Lemma grounded l (p : Parser S Ob) d off t c : parsing None (length es) l p -> saturated l -> PackResolve.stands digest fmt es ∅ d off t c ->
  exists k, off = pos es k /\ (k, (t, c)) ∈ l.
Proof.
  intros Hp [Hbases Hclosed] Hs. induction Hs as [off e He Hb|d off e n t s c He Hb Hs IH Hpd|d off off' e h t s c He Hb Hs IH Hh Hpd|off e h o c He Hb Ho];
    [..|by rewrite lookup_empty in Ho]; apply entry_at_lookup in He as (k & Hk & ->); exists k; (split; [done|]).
  - eapply log_content; [done|by eapply Hbases|]. by apply stands_object, Hb; apply entry_at_pos.
  - destruct IH as (j & Hj & Hin). eapply log_content; [done| |eapply stands_mono, stands_ofs; [by apply entry_at_pos|done..]].
    apply (Hclosed j); [by eapply elem_log|]. exists e. split; [done|]. by rewrite Hb.
  - destruct IH as (j & Hj & Hin). eapply log_content; [done| |eapply stands_mono, stands_ref; [by apply entry_at_pos|done..]].
    apply (Hclosed j); [by eapply elem_log|]. exists e. split; [done|]. rewrite Hb. eauto.
Qed.

(** What comes before a position is resolved, when the deltas by identifier
    are. *)
Lemma resolved_below l k : saturated l -> (forall j e h, (j < k)%nat -> es !! j = Some e -> en_base e = RefBase h -> j ∈ l.*1) ->
  forall j, (j < k)%nat -> (j < length es)%nat -> j ∈ l.*1.
Proof.
  intros [Hbases Hclosed] Href j. induction (lt_wf j) as [j _ IH]. intros Hj Hlen. destruct (lookup_lt_is_Some_2 es j Hlen) as [e He].
  destruct (en_base e) as [|n|h] eqn:Hb; [by eapply Hbases| |by eapply Href].
  destruct (rs_stands _ _ _ _ Hrs _ _ (entry_at_pos _ _ _ He)) as (d & t & c & Hs).
  destruct (stands_over _ _ _ _ _ Hs (entry_at_pos _ _ _ He)) as (t' & s & d' & _ & _ & Hov); [congruence|]. rewrite Hb in Hov.
  destruct (stands_entry _ _ _ _ _ _ _ _ Hov) as (e' & He'). apply entry_at_lookup in He' as (i & Hi & Hpos).
  destruct (entry_lookup_ok _ _ Hes _ _ He) as [_ Hr _ _]. rewrite Hb in Hr. destruct Hr as (_ & _ & Hn).
  pose proof (lookup_lt_Some _ _ _ Hi). assert (i < j)%nat as Hij.
  { destruct (decide (i < j)%nat); [done|]. destruct (decide (i = j)) as [->|]; [lia|]. pose proof (pos_mono fmt es Hes j i ltac:(lia) ltac:(lia)). lia. }
  apply (Hclosed i); [apply IH; lia|]. exists e. split; [done|]. rewrite Hb. lia.
Qed.

Lemma saturated_extend l l' : NoDup (l ++ l').*1 -> saturated l -> (forall y, y ∈ l'.*1 -> closed (l ++ l') y) -> saturated (l ++ l').
Proof.
  intros Hnd [Hb Hc] Hl'. split.
  - intros k e He Hbe. apply elem_grow. by eapply Hb.
  - intros k. rewrite fmap_app. intros [Hk|Hk]%elem_of_app; [|by apply Hl']. apply closed_grow; [done..|by apply Hc].
Qed.

(** A delta by identifier can be resolved when all before it are. *)
Lemma ref_ready l (p : Parser S Ob) d e h : parsing None (length es) l p -> saturated l ->
  (forall j e h, (j < d)%nat -> es !! j = Some e -> en_base e = RefBase h -> j ∈ l.*1) ->
  es !! d = Some e -> en_base e = RefBase h -> ready l d e.
Proof.
  intros Hp Hsat Hrefs He Hb. unfold ready. rewrite Hb.
  destruct (rs_order _ _ _ _ Hrs _ _ _ (entry_at_pos _ _ _ He) Hb) as [|[(d' & off' & t & s & Hs & Hlt & Hid)|(d' & off' & t & s & Hs & Hid)]]; [by right|left..].
  - destruct (stands_entry _ _ _ _ _ _ _ _ Hs) as (e' & He'). apply entry_at_lookup in He' as (i & Hi & ->).
    pose proof (lookup_lt_Some _ _ _ Hi). pose proof (lookup_lt_Some _ _ _ He). assert (i < d)%nat as Hid'.
    { destruct (decide (i < d)%nat); [done|]. destruct (decide (i = d)) as [->|]; [lia|]. pose proof (pos_mono fmt es Hes d i ltac:(lia) ltac:(lia)). lia. }
    exists i, t, s. split; [|done]. eapply log_content; [done| |done]. by apply (resolved_below l d Hsat Hrefs).
  - destruct (grounded _ _ _ _ _ _ Hp Hsat Hs) as (k & -> & Hk). by exists k, t, s.
Qed.

Lemma resolve_refs n ch refs rest pre l (p : Parser S Ob) : children_ok ch -> refs = pre ++ rest -> parsing None (length es) l p -> saturated l ->
  (length es < length l + n)%nat -> (forall k, k ∈ refs <-> exists e h, es !! k = Some e /\ en_base e = RefBase h) ->
  (forall pre d rest k, refs = pre ++ d :: rest -> k ∈ refs -> (k < d)%nat -> k ∈ pre) -> (forall d, d ∈ pre -> d ∈ l.*1) ->
  resolves l p (st_each (fun d => oh ← deref d; match oh_parent oh with Some _ => mret tt | None =>
     processDelta digest fmt seekable lowMemoryMode d;; visit digest fmt seekable lowMemoryMode n ch d end) rest) (fun l' => forall d, d ∈ refs -> d ∈ l'.*1).
Proof.
  intros Hch Hsplit Hp Hsat Hn Hrefs Hsorted Hpre. revert pre l p Hsplit Hp Hsat Hn Hpre.
  induction rest as [|d rest IH]; intros pre l p Hsplit Hp Hsat Hn Hpre; cbn [st_each].
  { apply resolves_ret; [done|]. intros d Hd. apply Hpre. by rewrite Hsplit, app_nil_r in Hd. }
  assert (d ∈ refs) as (e & h & He & Hb)%Hrefs by (rewrite Hsplit, elem_of_app; right; by left).
  assert (resolves l p (oh ← deref d; match oh_parent oh with Some _ => mret tt | None =>
     processDelta digest fmt seekable lowMemoryMode d;; visit digest fmt seekable lowMemoryMode n ch d end) (fun l' => d ∈ l'.*1)) as Hstep.
  { apply (resolve_one l p _ d e); [done..| |congruence|].
    - right. apply (ref_ready l p d e h); try done. intros j e' h' Hj He' Hb'. apply Hpre, (Hsorted pre d rest); [done| |done]. apply Hrefs. eauto.
    - intros t c p' _ Hp'. apply visit_ok; [done..| |rewrite length_app; cbn; lia]. rewrite fmap_app, elem_of_app. right. by left. }
  destruct Hstep as (p1 & l1 & Hm1 & Hp1 & Hc1 & Hd1).
  destruct (IH (pre ++ [d]) (l ++ l1) p1) as (p2 & l2 & Hm2 & Hp2 & Hc2 & HQ).
  - by rewrite <-app_assoc.
  - done.
  - apply saturated_extend; [apply Hp1|done|done].
  - rewrite length_app. lia.
  - intros d' [Hd'|Hd']%elem_of_app; [by apply elem_grow, Hpre|]. apply list_elem_of_singleton in Hd' as ->. done.
  - exists p2, (l1 ++ l2). rewrite (st_bind_Ok _ _ _ _ _ Hm1), app_assoc. split_and!; [done..| |done].
    intros y. rewrite fmap_app. intros [Hy|Hy]%elem_of_app; [|by apply Hc2]. apply closed_grow; [apply Hp2| |by apply Hc1].
    rewrite fmap_app, elem_of_app. by right.
Qed.

Lemma resolveDeltas_ok l (p : Parser S Ob) ofs refs : parsing None (length es) l p ->
  (forall k, k ∈ l.*1 <-> exists e, es !! k = Some e /\ en_base e = NoBase) ->
  (forall k, k ∈ ofs <-> exists e n, es !! k = Some e /\ en_base e = OfsBase n) ->
  (forall k, k ∈ refs <-> exists e h, es !! k = Some e /\ en_base e = RefBase h) ->
  (forall pre d rest k, refs = pre ++ d :: rest -> k ∈ refs -> (k < d)%nat -> k ∈ pre) ->
  (length es <= length l + length ofs + length refs)%nat ->
  exists p' l', resolveDeltas digest fmt seekable lowMemoryMode ofs refs p = (Ok tt, p') /\ parsing None (length es) (l ++ l') p'
    /\ forall k, (k < length es)%nat -> k ∈ (l ++ l').*1.
Proof.
  intros Hp Hb Hofs Hrefs Hsorted Hlen. pose proof (children_of_heap l p ofs refs Hp (fun k => proj1 (Hb k)) Hofs Hrefs) as Hch.
  unfold resolveDeltas. rewrite (st_bind_Ok (st_get _) _ _ _ _ eq_refl). set (ch := (ofs_children _ ofs, _)) in *.
  rewrite (st_bind_Ok (st_get _) _ _ _ _ eq_refl), (co_oi _ _ _ _ _ (pg_cache _ _ _ _ _ _ _ _ _ _ _ Hp)).
  set (n := Datatypes.S (Datatypes.S (length ofs + length refs))). set (bases := filter _ l.*1).
  assert (forall k, k ∈ bases <-> k ∈ l.*1) as Hbases.
  { intros k. unfold bases. rewrite list_elem_of_filter. split; [by intros [_ ?]|]. intros Hk. split; [|done].
    pose proof Hk as Hk'. apply log_elem in Hk' as (t & c & Hkl). destruct (proj2 (pg_log _ _ _ _ _ _ _ _ _ _ _ Hp) _ _ _ Hkl) as (Hlt & d & Hd).
    pose proof (pg_heap _ _ _ _ _ _ _ _ _ _ _ Hp) as [Hl Hcells _]. destruct (lookup_lt_is_Some_2 (p_heap p) k) as [oh Hx]; [lia|].
    unfold is_base. rewrite Hx. destruct (Hcells _ _ Hx ltac:(done)) as [e' t' c' d' _ He' Hst Hin' Hs Hty|e' _ He' Hst Hni|h o Hm']; [|done|lia].
    destruct (stands_facts _ _ _ _ Hs) as [_ Hstor]. rewrite Hty. by destruct t'. }
  assert (resolves l p (st_each (visit digest fmt seekable lowMemoryMode n ch) bases) (fun l' => forall c, c ∈ bases -> c ∈ l'.*1 /\ closed l' c))
    as (p1 & l1 & Hm1 & Hp1 & Hc1 & HQ1).
  { apply (resolves_each _ (fun l' => (forall k, k ∈ bases -> k ∈ l'.*1) /\ (length es < length l' + n)%nat) (fun l' c => c ∈ l'.*1 /\ closed l' c)).
    - intros c l0 p0 Hc [Hin Hn] Hp0. eapply resolves_weaken; [by apply visit_ok; [..|apply Hin|]|].
      intros l' p' _ Hcl. split; [by apply elem_grow, Hin|done].
    - intros l0 l' [Hin Hn]. split; [intros; by apply elem_grow, Hin|rewrite length_app; lia].
    - intros l0 l' c Hnd [Hin Hcl]. split; [by apply elem_grow|by apply closed_grow].
    - split; [intros k; apply Hbases|unfold n; lia].
    - done. }
  rewrite (st_bind_Ok _ _ _ _ _ Hm1).
  assert (saturated (l ++ l1)) as Hsat.
  { split.
    - intros k e He Hbe. apply elem_grow, Hb. eauto.
    - intros k. rewrite fmap_app. intros [Hk|Hk]%elem_of_app; [|by apply Hc1]. by apply HQ1, Hbases. }
  destruct (resolve_refs n ch refs refs [] (l ++ l1) p1) as (p2 & l2 & Hm2 & Hp2 & Hc2 & HQ2); try done;
    [rewrite length_app; unfold n; lia|intros d Hd; by apply elem_of_nil in Hd|].
  rewrite (st_bind_Ok _ _ _ _ _ Hm2).
  assert (saturated ((l ++ l1) ++ l2)) as Hsat2 by (apply saturated_extend; [apply Hp2|done..]).
  assert (forall k, (k < length es)%nat -> k ∈ ((l ++ l1) ++ l2).*1) as Hall.
  { intros k Hk. apply (resolved_below _ (length es) Hsat2); [|done..]. intros j e h _ He Hbe. apply HQ2, Hrefs. eauto. }
  exists p2, (l1 ++ l2). rewrite app_assoc. split; [|done].
  assert (forall ds, (forall d, d ∈ ds -> d ∈ ofs) -> st_each (fun d => oh ← deref d; match oh_parent oh with Some _ => mret tt | None => st_fail PObjectNotFound end) ds p2
    = (Ok tt, p2)) as Hofs_done; [|by apply Hofs_done].
  induction ds as [|d ds IH]; intros Hds; [done|]. cbn [st_each]. assert (d ∈ ofs) as (e & m & He & Hbe)%Hofs by (apply Hds; by left).
  destruct (resolved_header _ p2 d e Hp2 He) as (oh & Hx & _ & _ & Hpa).
  rewrite (st_bind_Ok _ _ p2 tt p2); [apply IH; intros; apply Hds; by right|]. rewrite (st_bind_Ok _ _ _ _ _ (deref_ok _ _ _ Hx)).
  destruct (oh_parent oh); [done|]. destruct Hpa as [Hnb|Hni]; [congruence|]. destruct Hni. apply Hall. by eapply lookup_lt_Some.
Qed.

(** *** Reading the entries *)

Inductive kind := KBase | KOfs | KRef.
#[export] Instance kind_dec : EqDecision kind.
Proof. solve_decision. Defined.

Definition kind_of (e : entry) : kind := match en_base e with NoBase => KBase | OfsBase _ => KOfs | RefBase _ => KRef end.
Definition kind_at (k : nat) : option kind := kind_of <$> es !! k.
Definition upto (w : kind) (n : nat) : list nat := filter (fun k => kind_at k = Some w) (seq 0 n).

Lemma upto_S w n e : es !! n = Some e -> upto w (Datatypes.S n) = upto w n ++ (if decide (kind_of e = w) then [n] else []).
Proof.
  intros He. unfold upto. rewrite seq_S, filter_app, filter_cons, filter_nil. cbn. f_equal. apply decide_ext.
  unfold kind_at. rewrite He. cbn. naive_solver.
Qed.

Lemma elem_of_upto w n k : k ∈ upto w n <-> (k < n)%nat /\ kind_at k = Some w.
Proof. unfold upto. rewrite list_elem_of_filter, elem_of_seq. naive_solver lia. Qed.

Lemma upto_sorted w n pre d rest k : upto w n = pre ++ d :: rest -> k ∈ upto w n -> (k < d)%nat -> k ∈ pre.
Proof.
  revert pre d rest. induction n as [|n IH]; intros pre d rest Heq Hk Hlt; [by destruct pre|].
  apply elem_of_upto in Hk as Hk'. destruct Hk' as [Hkn Hkw].
  assert (upto w (Datatypes.S n) = upto w n ++ (if decide (kind_at n = Some w) then [n] else [])) as Hup.
  { unfold upto. rewrite seq_S, filter_app, filter_cons, filter_nil. cbn. done. }
  rewrite Hup in Heq. destruct (decide (kind_at n = Some w)) as [Hw|Hw].
  - destruct rest as [|y r _] using rev_ind.
    + apply app_inj_tail in Heq as [<- ->]. apply elem_of_upto. split; [lia|done].
    + rewrite app_comm_cons, app_assoc in Heq. apply app_inj_tail in Heq as [Heq _].
      apply (IH pre d r Heq); [|done]. apply elem_of_upto. split; [|done].
      assert (d ∈ upto w n) as [Hd _]%elem_of_upto by (rewrite Heq, elem_of_app; right; by left). lia.
  - rewrite app_nil_r in Heq. apply (IH pre d rest Heq); [|done]. apply elem_of_upto. split; [|done].
    assert (k <> n) by congruence. lia.
Qed.

Lemma upto_length n : (n <= length es)%nat -> (length (upto KBase n) + length (upto KOfs n) + length (upto KRef n))%nat = n.
Proof.
  induction n as [|n IH]; intros Hn; [done|]. destruct (lookup_lt_is_Some_2 es n) as [e He]; [lia|].
  rewrite !(upto_S _ _ e He), !length_app. specialize (IH ltac:(lia)). destruct (kind_of e); repeat case_decide; try done; cbn; lia.
Qed.

(** The header an entry gets. *)
Lemma heap_snoc exc m l h oh : heap_ok None m l h -> length h = m -> oh_parent oh = None -> (exc <> Some m -> cell (Datatypes.S m) l m oh) ->
  heap_ok exc (Datatypes.S m) l (h ++ [oh]).
Proof.
  intros [Hlen Hcells Hpar] Hm Hp Hc. split; rewrite ?length_app; cbn [length]; [lia| |].
  - intros x ohx [Hx|[Hx Hoh]]%lookup_app_Some Hexc.
    + apply lookup_lt_Some in Hx as Hlt. destruct (Hcells x ohx Hx ltac:(done)) as [e t c d _ ?|e _ ?|]; [| |lia].
      * by eapply cell_done; try done; lia.
      * by eapply cell_pending; try done; lia.
    + apply list_lookup_singleton_Some in Hoh as [Hx0 <-]. assert (x = m) as -> by lia. by apply Hc.
  - intros x ohx pa [Hx|[Hx Hoh]]%lookup_app_Some Hpa; [pose proof (Hpar _ _ _ Hx Hpa); lia|].
    apply list_lookup_singleton_Some in Hoh as [_ <-]. congruence.
Qed.

Lemma cache_snoc m l h oh c : cache_ok m l h c -> length h = m -> cache_ok (Datatypes.S m) l (h ++ [oh]) c.
Proof.
  intros [Hmade Hoi Hoff Hhash Hhashed] Hm. split; try done. intros k x Hx. destruct (Hhash k x Hx) as [|(ohx & Hmx & Hohx & _)]; [by left|].
  apply lookup_lt_Some in Hohx. lia.
Qed.

Lemma with_scanner_run {A} (m : ST scan_error (Scanner S) A) (p : Parser S Ob) a sc : m (p_scanner p) = (Ok a, sc) ->
  with_scanner m p = (Ok a, Build_Parser sc (p_heap p) (p_cache p) (p_observers p) (p_checksum p) (p_size p) (p_parsed p)).
Proof. intros Hm. unfold with_scanner. by rewrite Hm. Qed.

Lemma raw_opens t n (st : S) : (RawObjectWriter t n st).1 = Ok tt.
Proof. by destruct (raw_open t n st) as (st' & -> & _). Qed.

(** The parser after the entries [pre], with [tail] to be read; the checksum is
    not known yet. *)
Record reading (pre : list entry) (tail : bytes) (l : log) (p : Parser S Ob) : Prop := {
  rd_parsing : parsing None (length pre) l (set_checksum p fixed.1 fixed.2);
  rd_length : length (p_heap p) = length pre;
  rd_scanner : exists pd crc, p_scanner p = after_entries src (len es) pre pd tail crc (p_storage p);
  rd_log : l.*1 = upto KBase (length pre);
}.

(** The header of the next entry. *)
Definition scanned (pre : list entry) (e : entry) : ObjectHeader := header_of digest fmt seekable lowMemoryMode (12 + len (raws pre)) e.

Lemma position pre e rest : es = pre ++ e :: rest -> pos es (length pre) = 12 + len (raws pre) /\ es !! length pre = Some e.
Proof.
  intros ->. unfold pos. split; [by rewrite take_app_length|]. by rewrite list_lookup_middle.
Qed.

Lemma scanned_static pre e rest oh : es = pre ++ e :: rest ->
  (oh = scanned pre e \/ oh = set_content (scanned pre e) None \/ oh = set_object (scanned pre e) (en_type e) (len (en_data e)) (ResetBySize (objectIDSize fmt))) ->
  static es (length pre) e oh.
Proof.
  intros Hsplit Hoh. destruct (position _ _ _ Hsplit) as [Hpos He].
  assert (static es (length pre) e (scanned pre e)) as Hst.
  { split; cbn; [done|by rewrite Hpos|..|done|done|done].
    - intros n Hb. by rewrite Hb, Hpos.
    - intros h Hb. by rewrite Hb. }
  destruct Hoh as [->|[->| ->]]; by destruct Hst.
Qed.

Lemma parsing_delta pre e rest l (p : Parser S Ob) oh sc : es = pre ++ e :: rest -> parsing None (length pre) l p -> length (p_heap p) = length pre ->
  en_base e <> NoBase -> oh = set_object (scanned pre e) (en_type e) (len (en_data e)) (ResetBySize (objectIDSize fmt)) ->
  sr_src (reader sc) = src -> storage sc = p_storage p ->
  l.*1 = upto KBase (length pre) ->
  parsing None (Datatypes.S (length pre)) l (Build_Parser sc (p_heap p ++ [oh]) (p_cache p) (p_observers p) (p_checksum p) (p_size p) (p_parsed p)).
Proof.
  intros Hsplit [Hheap Hcache Hstore Hpsrc Hpobs [Hnd Hlog] Hcount Hfix] Hlen Hb Hoh Hsc Hst Hl.
  destruct (position _ _ _ Hsplit) as [Hpos He]. split; cbn; try done.
  - apply heap_snoc; [done..|by subst|]. intros _. assert (static es (length pre) e oh) as Hso by (eapply scanned_static; eauto). subst oh.
    apply (cell_pending _ _ _ _ _ _ _ _ e); try done; [lia| |].
    + rewrite Hl, elem_of_upto. lia.
    + cbn. rewrite (proj2 (en_type_delta _ _ He) Hb). by destruct lowMemoryMode.
  - by apply cache_snoc.
  - unfold p_storage. cbn. by rewrite Hst.
  - split; [done|]. intros k t c Hk. destruct (Hlog k t c Hk) as [Hlt Hd]. split; [lia|done].
  - rewrite Hsplit, length_app. cbn. lia.
Qed.

Lemma store_base l st e x : store_ok l st -> an_object digest fmt es ext (en_type e) (en_data e) ->
  (forall k t c, (k, (t, c)) ∈ l -> an_object digest fmt es ext t c) -> IsDelta (en_type e) = false -> storable (en_type e) = true ->
  store_ok (l ++ [(x, (en_type e, en_data e))]) (store_entry st e).
Proof.
  intros Hst Hobj Hl Hd Hstor. destruct st as [st|]; [|unfold PackResolve.store_ok in *; by destruct st0].
  unfold store_entry. rewrite Hd. destruct (raw_open (en_type e) (len (en_data e)) st) as (st' & -> & Hmap). cbn [snd].
  apply (store_extend _ st); [done..|]. rewrite raw_closed; [by rewrite Hmap|done|by apply object_id_nonzero].
Qed.

Lemma parsing_base pre e rest l (p : Parser S Ob) oh sc : es = pre ++ e :: rest -> parsing None (length pre) l (set_checksum p fixed.1 fixed.2) ->
  length (p_heap p) = length pre -> en_base e = NoBase -> oh = (if lowMemoryMode then set_content (scanned pre e) None else scanned pre e) ->
  sr_src (reader sc) = src -> storage sc = store_entry (p_storage p) e -> l.*1 = upto KBase (length pre) ->
  exists p', ignore (storeOrCache lowMemoryMode (length pre))
      (Build_Parser sc (p_heap p ++ [oh]) (p_cache p) (p_observers p) (p_checksum p) (p_size p) (p_parsed p)) = (Ok tt, p')
    /\ p_scanner p' = sc /\ length (p_heap p') = Datatypes.S (length pre)
    /\ parsing None (Datatypes.S (length pre)) (l ++ [(length pre, (en_type e, en_data e))]) (set_checksum p' fixed.1 fixed.2).
Proof.
  intros Hsplit [Hheap Hcache Hstore Hpsrc Hpobs [Hnd Hlog] Hcount Hfix] Hlen Hb Hoh Hsc Hst Hl.
  destruct (position _ _ _ Hsplit) as [Hpos He]. set (x := length pre) in *.
  cbn [set_checksum p_heap p_cache p_storage p_scanner p_observers] in *.
  assert (static es x e oh) as Hso by (eapply scanned_static; [done|]; destruct lowMemoryMode; auto).
  pose proof (en_type_base _ _ He) as Hbt. rewrite Hb in Hbt.
  assert (stands 0 (pos es x) (en_type e) (en_data e)) as Hs by (apply stands_object, Hb; by apply entry_at_pos).
  destruct (stands_facts _ _ _ _ Hs) as [_ Hstor].
  set (p1 := Build_Parser sc (p_heap p ++ [oh]) (p_cache p) (p_observers p) (p_checksum p) (p_size p) (p_parsed p)).
  assert (heap_ok (Some x) (Datatypes.S x) l (p_heap p1)) as Hh1.
  { apply heap_snoc; [done..| |done]. subst oh. by destruct lowMemoryMode. }
  assert (p_heap p1 !! x = Some oh) as Hx1 by (cbn; by rewrite lookup_app_r, Hlen, Nat.sub_diag by lia).
  assert (oh_Type oh = en_type e /\ oh_Size oh = len (en_data e) /\ oh_Hash oh = object_id (en_type e) (en_data e) /\ oh_chainDepth oh = 0) as (Hty & Hsz & Hhash & Hch).
  { subst oh. unfold scanned, header_of. rewrite Hbt. by destruct lowMemoryMode. }
  assert (buffered seekable st0 e oh (en_data e)) as Hbu.
  { unfold buffered. subst oh. unfold scanned, header_of. rewrite Hbt. destruct st0 eqn:Hst0.
    - destruct lowMemoryMode; cbn; [auto|]. destruct seekable; cbn; auto.
    - assert (lowMemoryMode = true \/ lowMemoryMode = false) as [Hlm|Hlm] by (destruct lowMemoryMode; auto); rewrite Hlm.
      + destruct (Hlow Hlm) as [[? Hn] _]. congruence.
      + destruct seekable; cbn; auto. }
  assert (length es <> 0)%nat as Hne by (rewrite Hsplit, length_app; cbn; lia). apply lookup_lt_Some in He as Hxlt.
  destruct (cache_and_notify_ok x oh (en_type e) (en_data e) p1 (ho_parents _ _ _ _ _ _ _ _ Hh1) Hx1 (co_made _ _ _ _ _ Hcache) Hty Hsz Hhash)
    as (h & Hrun & _). set (p2 := set_observers _ _) in Hrun.
  destruct (parsing_extended (Datatypes.S x) l p1 p2 x e oh (en_type e) (en_data e) 0) as (Hsc2 & Hlen2 & Hend); try done; try lia.
  - rewrite Hl, elem_of_upto. lia.
  - by apply cache_snoc.
  - intros k t c Hk. destruct (Hlog k t c Hk) as [Hlt Hd]. split; [lia|done].
  - exists p2. split; [|split; [done|split]].
    + unfold ignore, storeOrCache. rewrite (st_bind_Ok _ _ _ _ _ (deref_ok _ _ _ Hx1)), (st_bind_Ok (st_get _) _ _ _ _ eq_refl), (so_disk _ _ _ _ Hso), Hbt.
      destruct (p_storage p1); by rewrite Hrun.
    + rewrite Hlen2. cbn. rewrite length_app. cbn. lia.
    + apply Hend; [|done|by destruct fixed]. rewrite Hsc2. cbn. rewrite Hst.
      apply store_base; try done; [by eapply stands_an_object|by eapply log_objects].
Qed.

(** One entry. *)
Lemma Parse_loop_entry pre e rest tail l (p : Parser S Ob) fuel : es = pre ++ e :: rest -> reading pre (en_raw e ++ tail) l p ->
  exists p' l', Parse_loop digest fmt seekable lowMemoryMode (Datatypes.S fuel) (upto KOfs (length pre)) (upto KRef (length pre)) p
      = Parse_loop digest fmt seekable lowMemoryMode fuel (upto KOfs (Datatypes.S (length pre))) (upto KRef (Datatypes.S (length pre))) p'
    /\ reading (pre ++ [e]) tail l' p'.
Proof.
  intros Hsplit [Hp Hlen (pd & crc & Hsc) Hl]. destruct (position _ _ _ Hsplit) as [Hpos He].
  assert (len pre < len es) as Hlt by (rewrite Hsplit, len_app, len_cons; pose proof (len_nonneg rest); lia).
  assert (entry_ok fmt (12 + len (raws pre)) e) as Hok by (rewrite <-Hpos; by apply (entry_lookup_ok fmt es Hes)).
  pose proof (Scan_entry digest fmt seekable lowMemoryMode raw_opens src (len es) pre e pd tail crc (p_storage p) Hok Hlt) as Hscan. rewrite <-Hsc in Hscan.
  pose proof (with_scanner_run _ p _ _ Hscan) as Hrun. set (sc := after_entries src (len es) (pre ++ [e]) _ _ _ _) in Hrun. set (p1 := Build_Parser sc _ _ _ _ _ _) in Hrun.
  cbn [Parse_loop]. rewrite (st_bind_Ok _ _ _ _ _ Hrun). cbn [negb]. rewrite (st_bind_Ok (st_get _) _ _ _ _ eq_refl).
  change (packData (p_scanner p1)) with (ObjectSection (scanned pre e)). cbn match.
  change (oh_Type (scanned pre e)) with (en_type e). change (oh_Size (scanned pre e)) with (len (en_data e)).
  rewrite !(upto_S _ _ e He). unfold kind_of. pose proof (en_type_base _ _ He) as Hbt.
  assert (Hsnoc : length (pre ++ [e]) = Datatypes.S (length pre)) by (rewrite length_app; cbn; lia).
  assert (forall p2 l2, length (p_heap p2) = Datatypes.S (length pre) -> parsing None (Datatypes.S (length pre)) l2 (set_checksum p2 fixed.1 fixed.2) ->
    p_scanner p2 = sc -> l2.*1 = upto KBase (Datatypes.S (length pre)) -> reading (pre ++ [e]) tail l2 p2) as Hreading.
  { intros p2 l2 Hh Hp2 Hsc2 Hl2. split; rewrite ?Hsnoc; try done. exists (ObjectSection (scanned pre e)), (en_raw e).
    unfold p_storage at 1. by rewrite Hsc2. }
  assert (sr_src (reader sc) = src) as Hr by done.
  assert (storage sc = store_entry (p_storage p) e) as Hstore by done.
  destruct (IsDelta (en_type e)) eqn:Hd.
  - assert (en_base e <> NoBase) as Hnb by by apply (en_type_delta _ _ He).
    set (oh := set_object _ _ _ _). set (p2 := set_heap p1 (p_heap p1 ++ [oh])).
    rewrite (st_bind_Ok (alloc oh) _ p1 (length pre) p2) by (unfold alloc; by rewrite <-Hlen).
    exists p2, l. split.
    + destruct (en_base e) eqn:Hb; [done|..]; rewrite Hbt; repeat case_decide; try done; by rewrite app_nil_r.
    + apply Hreading; [cbn; rewrite length_app; cbn; lia| |done|].
      * apply (parsing_delta pre e rest l (set_checksum p fixed.1 fixed.2)); try done.
        change (storage sc = p_storage p). rewrite Hstore. unfold store_entry. rewrite Hd. by destruct (p_storage p).
      * rewrite (upto_S _ _ e He). unfold kind_of. destruct (en_base e) eqn:Hb; [done|..]; by rewrite app_nil_r.
  - destruct (en_base e) eqn:Hb; [|by rewrite Hbt in Hd..].
    set (oh := if lowMemoryMode then _ else _). set (p2 := set_heap p1 (p_heap p1 ++ [oh])).
    rewrite (st_bind_Ok (alloc oh) _ p1 (length pre) p2) by (unfold alloc; by rewrite <-Hlen).
    destruct (parsing_base pre e rest l p oh sc) as (p3 & Hig & Hsc3 & Hlen3 & Hp3); try done.
    rewrite (st_bind_Ok _ _ _ _ _ Hig). exists p3, (l ++ [(length pre, (en_type e, en_data e))]). split.
    + repeat case_decide; try done. by rewrite !app_nil_r.
    + apply Hreading; [done..|]. rewrite (upto_S _ _ e He), fmap_app, Hl. unfold kind_of. by rewrite Hb.
Qed.

(** The entries and the footer. *)
Lemma Parse_loop_entries rest pre l (p : Parser S Ob) fuel c sum tail :
  es = pre ++ rest -> reading pre (raws rest ++ c ++ tail) l p -> (length rest + 2 <= fuel)%nat ->
  decodes (ReadFrom (ResetBySize (objectIDSize fmt))) c sum -> Bytes sum = digest (id_format fmt) (pack_body es) ->
  fixed = (sum, 12 + len (raws es) + len c) ->
  exists p' l', Parse_loop digest fmt seekable lowMemoryMode fuel (upto KOfs (length pre)) (upto KRef (length pre)) p
      = (Ok (upto KOfs (length es), upto KRef (length es)), p')
    /\ parsing None (length es) l' p' /\ l'.*1 = upto KBase (length es) /\ scan_err (p_scanner p') = None.
Proof.
  intros Hsplit Hread Hfuel Hc Hsum Hfix. revert pre l p fuel Hsplit Hread Hfuel. induction rest as [|e rest IH]; intros pre l p fuel Hsplit Hread Hfuel.
  - rewrite app_nil_r in Hsplit. subst pre. destruct fuel as [|[|fuel]]; [cbn in Hfuel; lia..|].
    destruct Hread as [Hp Hlen (pd & crc & Hsc) Hl]. change (raws [] ++ c ++ tail) with (c ++ tail) in Hsc.
    pose proof (Scan_footer digest fmt seekable lowMemoryMode src (len es) es pd tail crc (p_storage p) c sum ltac:(lia) Hc Hsum) as Hscan.
    rewrite <-Hsc in Hscan. pose proof (with_scanner_run _ p _ _ Hscan) as Hrun. set (sc := finished _ _ _ _ _ _ _ _ _) in Hrun.
    set (p1 := Build_Parser sc _ _ _ _ _ _) in Hrun. cbn [Parse_loop]. rewrite (st_bind_Ok _ _ _ _ _ Hrun). cbn [negb].
    rewrite (st_bind_Ok (st_get _) _ _ _ _ eq_refl). change (packData (p_scanner p1)) with (FooterSection sum). cbn match.
    set (p2 := set_checksum p1 sum (12 + len (raws es) + len c)).
    rewrite (st_bind_Ok _ _ p1 tt p2 eq_refl).
    assert (with_scanner (Scan digest fmt seekable lowMemoryMode) p2 = (Ok false, p2)) as Hend by done.
    rewrite (st_bind_Ok _ _ _ _ _ Hend). cbn [negb]. exists p2, l. split_and!; try done.
    destruct Hp as [Hheap Hcache Hstore Hpsrc Hpobs Hlog Hcount _]. by split.
  - destruct fuel as [|fuel]; [cbn in Hfuel; lia|].
    change (raws (e :: rest)) with (en_raw e ++ raws rest) in Hread. rewrite <-app_assoc in Hread.
    destruct (Parse_loop_entry pre e rest (raws rest ++ c ++ tail) l p fuel Hsplit Hread) as (p1 & l1 & -> & Hread1).
    destruct (IH (pre ++ [e]) l1 p1 fuel) as (p2 & l2 & Hloop & Hp2); [by rewrite <-app_assoc|done|cbn in Hfuel; lia|].
    exists p2, l2. split; [|done]. rewrite <-Hloop, length_app. cbn [length]. by rewrite Nat.add_1_r.
Qed.


Lemma forEachObserver_run ev (p : Parser S Ob) : Forall (fun o => (observe ev o).1 = true) (p_observers p) -> forEachObserver ev p = (Ok tt, set_observers p (map (fun o => (observe ev o).2) (p_observers p))).
Proof. intros Hev. unfold forEachObserver. by rewrite notify_run. Qed.

Lemma Parse_run c sum tail : src = pack_body es ++ c ++ tail -> es <> [] -> len es < 2 ^ 32 ->
  decodes (ReadFrom (ResetBySize (objectIDSize fmt))) c sum -> Bytes sum = digest (id_format fmt) (pack_body es) ->
  fixed = (sum, 12 + len (raws es) + len c) ->
  (forall l o, o ∈ obs0 -> l.*1 ≡ₚ seq 0 (length es) -> (forall k t c, (k, (t, c)) ∈ l -> exists d, stands d (pos es k) t c) ->
     (observe (OnFooter sum) (obs_after (told_before digest fmt es l) o)).1 = true) ->
  exists p' l, Parse digest fmt seekable lowMemoryMode (NewParser src st0 obs0) = (Ok sum, p') /\ l.*1 ≡ₚ seq 0 (length es)
    /\ (forall k t c, (k, (t, c)) ∈ l -> exists d, stands d (pos es k) t c) /\ p_observers p' = map (obs_after (told digest fmt es l sum)) obs0
    /\ store_ok l (p_storage p') /\ (p_checksum p', p_size p') = fixed.
Proof.
  intros Hsplit Hne Hn Hc Hsum Hfix Hfoot. assert (0 < len es < 2 ^ 32) as Hn' by (destruct es; [done|rewrite len_cons in *; pose proof (len_nonneg l); lia]).
  set (p0 := set_parsed (NewParser src st0 obs0)).
  unfold Parse. rewrite (st_bind_Ok (st_get _) _ _ _ _ eq_refl). cbn [NewParser p_parsed]. rewrite (st_bind_Ok (st_set set_parsed) _ (NewParser src st0 obs0) tt p0 eq_refl), (st_bind_Ok (st_get _) _ _ _ _ eq_refl).
  change (length (sr_rest (reader (p_scanner p0)))) with (length src).
  assert (src = pack_head (len es) ++ raws es ++ c ++ tail) as Hsrc' by (rewrite Hsplit; unfold pack_body; by rewrite <-!app_assoc).
  pose proof (Scan_head digest fmt seekable lowMemoryMode (len es) (raws es ++ c ++ tail) st0 Hn') as Hscan. rewrite <-Hsrc' in Hscan.
  pose proof (with_scanner_run _ p0 _ _ Hscan) as Hrun. set (p1 := Build_Parser _ (p_heap p0) _ _ _ _ _) in Hrun.
  replace (length src + 3)%nat with (Datatypes.S (length src + 2)) by lia. cbn [Parse_loop].
  set (p3 := set_observers (set_cache p1 cache_Reset) (map (fun o => (observe (OnHeader (len es)) o).2) obs0)).
  assert (reading [] (raws es ++ c ++ tail) [] p3) as Hread.
  { split; [|done|exists (HeaderSection {| Version := V2; ObjectsQty := len es |}), (pack_head (len es)); done|done]. split; cbn; try done.
    - split; cbn; [done..|intros z x; rewrite lookup_empty; split; [done|by intros [Hx%elem_of_nil _]]|by intros h x; rewrite lookup_empty|].
      by intros x t d Hx%elem_of_nil.
    - unfold PackResolve.store_ok, p_storage. cbn. destruct st0; [|done]. intros h o. split; [by left|]. intros [|(k & t & d & Hk%elem_of_nil & _)]; done.
    - split; [by constructor|]. by intros k t d Hk%elem_of_nil.
    - lia.
    - by destruct fixed. }
  destruct (Parse_loop_entries es [] [] p3 (length src + 2) c sum tail) as (p4 & l4 & Hloop & Hp4 & Hl4 & Herr); try done.
  { rewrite Hsrc', !length_app. pose proof (raws_length fmt _ _ Hes). lia. }
  rewrite (st_bind_Ok _ _ p0 (upto KOfs (length es), upto KRef (length es)) p4); [|].
  2: { rewrite (st_bind_Ok _ _ _ _ _ Hrun). cbn [negb]. rewrite (st_bind_Ok (st_get _) _ _ _ _ eq_refl).
       change (packData (p_scanner p1)) with (HeaderSection {| Version := V2; ObjectsQty := len es |}). cbn match.
       rewrite (st_bind_Ok _ _ p1 tt (set_cache p1 cache_Reset) eq_refl).
       rewrite (st_bind_Ok _ _ _ tt p3); [exact Hloop|]. unfold ignore. by rewrite forEachObserver_run by by apply notify_quiet. }
  cbn beta iota. rewrite (st_bind_Ok (st_get _) _ _ _ _ eq_refl), Herr.
  assert (forall w k, k ∈ upto w (length es) <-> exists e, es !! k = Some e /\ kind_of e = w) as Hupto.
  { intros w k. rewrite elem_of_upto. unfold kind_at. split.
    - intros [Hk Hkind]. destruct (es !! k) as [e|]; [|done]. exists e. split; [done|]. by injection Hkind.
    - intros (e & He & Hk). split; [by eapply lookup_lt_Some|]. rewrite He. cbn. by rewrite Hk. }
  destruct (resolveDeltas_ok l4 p4 (upto KOfs (length es)) (upto KRef (length es))) as (p5 & l5 & Hres & Hp5 & Hall); [done|..].
  { intros k. rewrite Hl4, Hupto. unfold kind_of. split; intros (e & He & Hk); exists e; (split; [done|]); destruct (en_base e); done. }
  { intros k. rewrite Hupto. unfold kind_of. split; [intros (e & He & Hk); destruct (en_base e) eqn:Hb; eauto; done|]. intros (e & n & He & Hb). exists e. by rewrite Hb. }
  { intros k. rewrite Hupto. unfold kind_of. split; [intros (e & He & Hk); destruct (en_base e) eqn:Hb; eauto; done|]. intros (e & n & He & Hb). exists e. by rewrite Hb. }
  { intros pre d rest k. apply upto_sorted. }
  { pose proof (upto_length (length es) ltac:(lia)). pose proof (f_equal length Hl4) as Hl. rewrite length_fmap in Hl. lia. }
  rewrite (st_bind_Ok _ _ _ _ _ Hres), (st_bind_Ok (st_get _) _ _ _ _ eq_refl).
  destruct Hp5 as [_ _ Hstore _ Hpobs [Hnd Hlog] _ Hfix5]. pose proof Hfix5 as Hfix6. rewrite Hfix in Hfix6. injection Hfix6 as Hsum5 _.
  assert ((l4 ++ l5).*1 ≡ₚ seq 0 (length es)) as Hperm.
  { apply NoDup_Permutation; [done|apply NoDup_seq|]. intros k. rewrite elem_of_seq. split; [|intros; apply Hall; lia]. intros Hk.
    pose proof (log_ids _ _ Hlog k Hk). lia. }
  assert (forall k t c, (k, (t, c)) ∈ l4 ++ l5 -> exists d, stands d (pos es k) t c) as Hst by (intros k t d Hk; by apply Hlog).
  assert (Forall (fun o => (observe (OnFooter sum) o).1 = true) (p_observers p5)) as Hlast.
  { rewrite Hpobs. apply Forall_fmap, Forall_forall. intros o Ho. unfold compose. pose proof (Hfoot _ o Ho Hperm Hst) as Hf. unfold told_before in Hf. by destruct es. }
  rewrite Hsum5, (st_bind_Ok _ _ _ _ _ (forEachObserver_run _ _ Hlast)).
  eexists _, (l4 ++ l5). split; [done|]. split_and!.
  - done.
  - done.
  - cbn [p_observers set_observers]. rewrite Hpobs, map_map. apply map_ext. intros o. unfold told, obs_after.
    destruct es; [done|]. cbn [app]. by rewrite app_comm_cons, foldl_app.
  - done.
  - done.
Qed.
End proofs.

(** ** The parser is correct *)

Lemma bytes_ok_raws es k e : es !! k = Some e -> bytes_ok (raws es) -> bytes_ok (en_raw e).
Proof.
  intros Hk. rewrite <-(take_drop_middle es k e Hk). unfold raws. rewrite map_app, concat_app. cbn.
  intros [_ Hok]%bytes_ok_app. by apply bytes_ok_app in Hok as [Hok _].
Qed.

Lemma raws_split es k e : es !! k = Some e -> exists r, raws es = raws (take k es) ++ en_raw e ++ r.
Proof.
  intros Hk. exists (raws (drop (S k) es)). rewrite <-(take_drop_middle es k e Hk) at 1. unfold raws. by rewrite map_app, concat_app.
Qed.

Lemma pack_stream es k e rest : es !! k = Some e ->
  exists r, drop (Z.to_nat (pos es k + len (en_head e) + len (en_ref e))) (pack_body es ++ rest) = en_zip e ++ r.
Proof.
  intros Hk. destruct (raws_split es k e Hk) as [r Hr]. exists (r ++ rest). unfold pack_body. rewrite Hr. unfold en_raw.
  replace (pack_head (len es) ++ raws (take k es) ++ (en_head e ++ en_ref e ++ en_zip e) ++ r)
    with ((pack_head (len es) ++ raws (take k es) ++ en_head e ++ en_ref e) ++ en_zip e ++ r) by by rewrite <-!app_assoc.
  rewrite <-app_assoc, drop_app_length'; [by rewrite <-app_assoc|]. unfold pos.
  pose proof (len_pack_head (len es)). rewrite !length_app. unfold len in *. lia.
Qed.

Lemma Parse_empty {S Ob} `{LawfulRaw S digest fmt, Zlib, Observer Ob} seekable lowMemoryMode src st0 (obs0 : list Ob) c sum tail :
  src = pack_head 0 ++ c ++ tail -> Forall (fun o => (observe (OnFooter sum) o).1 = true) obs0 ->
  decodes (ReadFrom (ResetBySize (objectIDSize fmt))) c sum -> Bytes sum = digest (id_format fmt) (pack_head 0) ->
  exists p', Parse digest fmt seekable lowMemoryMode (NewParser src st0 obs0) = (Ok sum, p')
    /\ p_observers p' = map (obs_after [OnFooter sum]) obs0 /\ p_storage p' = st0 /\ (p_checksum p', p_size p') = (sum, 12 + len c).
Proof.
  intros Hsrc Hobs Hc Hsum. set (p0 := set_parsed (NewParser src st0 obs0)).
  pose proof (Scan_empty digest fmt seekable lowMemoryMode tail st0 c sum Hc Hsum) as Hscan. rewrite <-Hsrc in Hscan.
  pose proof (with_scanner_run _ p0 _ _ Hscan) as Hrun. set (sc := finished _ _ _ _ _ _ _ _ _) in Hrun. set (p1 := Build_Parser _ (p_heap p0) _ _ _ _ _) in Hrun.
  set (p2 := set_checksum p1 sum (12 + len c)).
  assert (with_scanner (Scan digest fmt seekable lowMemoryMode) p2 = (Ok false, p2)) as Hend by done.
  assert (p_heap p2 = [] /\ p_cache p2 = newParserCache /\ scan_err (p_scanner p2) = None /\ p_checksum p2 = sum /\ p_observers p2 = obs0 /\ p_storage p2 = st0)
    as (Hheap & Hcache & Herr & Hsum2 & Hob2 & Hst2) by done.
  assert (packData (p_scanner p1) = FooterSection sum /\ packSize (p_scanner p1) = 12 + len c) as [Hdata Hsize]
    by (split; [done|]; change (12 + len (raws []) + len c = 12 + len c); change (raws []) with (@nil Z); by rewrite len_nil).
  assert (p_size p2 = 12 + len c) as Hsz by done. clearbody sc.
  unfold Parse. rewrite (st_bind_Ok (st_get _) _ _ _ _ eq_refl). cbn [NewParser p_parsed].
  rewrite (st_bind_Ok (st_set set_parsed) _ (NewParser src st0 obs0) tt p0 eq_refl), (st_bind_Ok (st_get _) _ _ _ _ eq_refl).
  rewrite (st_bind_Ok _ _ p0 ([], []) p2).
  2: { replace (length (sr_rest (reader (p_scanner p0))) + 3)%nat with (Datatypes.S (Datatypes.S (length src + 1))) by (cbn; lia).
       cbn [Parse_loop]. rewrite (st_bind_Ok _ _ _ _ _ Hrun). cbn [negb]. rewrite (st_bind_Ok (st_get _) _ _ _ _ eq_refl), Hdata.
       rewrite (st_bind_Ok (st_set (fun p => set_checksum p sum (packSize (p_scanner p)))) _ p1 tt p2) by (unfold st_set; by rewrite Hsize).
       by rewrite (st_bind_Ok _ _ _ _ _ Hend). }
  cbn beta iota. rewrite (st_bind_Ok (st_get _) _ _ _ _ eq_refl), Herr.
  rewrite (st_bind_Ok (resolveDeltas _ _ _ _ _ _) _ p2 tt p2) by (unfold resolveDeltas; rewrite (st_bind_Ok (st_get _) _ _ _ _ eq_refl),
    (st_bind_Ok (st_get _) _ _ _ _ eq_refl), Hcache; done).
  rewrite (st_bind_Ok (st_get _) _ _ _ _ eq_refl), Hsum2.
  assert (Forall (fun o => (observe (OnFooter sum) o).1 = true) (p_observers p2)) as Hlast by by rewrite Hob2.
  rewrite (st_bind_Ok _ _ _ _ _ (forEachObserver_run _ _ Hlast)), Hob2. eexists. split; [done|].
  cbn [p_observers set_observers p_checksum p_size]. split; [done|]. split; [exact Hst2|]. by rewrite Hsum2, Hsz.
Qed.

Lemma entries_data_ok `{Zlib} fmt es c : entries_ok fmt 12 es -> bytes_ok (pack_body es ++ c) -> forall off e, entry_at es off e -> bytes_ok (en_data e).
Proof.
  intros Hes Hok off e (k & Hk & _)%entry_at_lookup. destruct (entry_lookup_ok fmt es Hes _ _ Hk) as [_ _ Hz _].
  apply bytes_ok_app in Hok as [Hok _]. apply bytes_ok_app in Hok as [_ Hok]. apply (bytes_ok_raws es k e Hk) in Hok. unfold en_raw in Hok.
  apply bytes_ok_app in Hok as [_ Hok]. apply bytes_ok_app in Hok as [_ Hok]. eapply inflate_ok; [|exact (Hz [])]. by rewrite app_nil_r.
Qed.

(** The observers take what they are told of the entries, and the end after
    it. *)
Lemma Parse_observed {S Ob} `{LawfulRaw S digest fmt, Zlib, Observer Ob} seekable lowMemoryMode src st0 (obs0 : list Ob) es sum tail :
  is_pack digest fmt src es sum tail -> bytes_ok src -> resolvable digest fmt es (initial_objects st0) ->
  (lowMemoryMode = true -> is_Some st0 /\ seekable = true) -> (forall ev (o : Ob), quiet ev = true -> (observe ev o).1 = true) ->
  (forall l o, o ∈ obs0 -> l.*1 ≡ₚ seq 0 (length es) -> (forall k t c, (k, (t, c)) ∈ l -> exists d, stands digest fmt es (initial_objects st0) d (pos es k) t c) ->
     (observe (OnFooter sum) (obs_after (told_before digest fmt es l) o)).1 = true) ->
  exists p' l, Parse digest fmt seekable lowMemoryMode (NewParser src st0 obs0) = (Ok sum, p')
    /\ l.*1 ≡ₚ seq 0 (length es)
    /\ (forall k t c, (k, (t, c)) ∈ l -> exists d, stands digest fmt es (initial_objects st0) d (pos es k) t c)
    /\ p_observers p' = map (obs_after (told digest fmt es l sum)) obs0
    /\ store_ok st0 l (p_storage p')
    /\ p_checksum p' = sum /\ p_size p' = len src - len tail.
Proof.
  intros [(c & Hsrc & Hc) Hn Hes Hsum] Hok Hrs Hlow Hobs Hfoot.
  assert (len src - len tail = 12 + len (raws es) + len c) as ->.
  { rewrite Hsrc. unfold pack_body. rewrite !len_app, len_pack_head. lia. }
  destruct es as [|e0 es0] eqn:Hes0.
  - assert (Forall (fun o => (observe (OnFooter sum) o).1 = true) obs0) as Hlast.
    { apply Forall_forall. intros o Ho. apply (Hfoot [] o Ho); [done|]. by intros k t d Hk%elem_of_nil. }
    destruct (Parse_empty (fmt := fmt) seekable lowMemoryMode src st0 obs0 c sum tail) as (p' & Hp & Ho & Hst & Hfix); [|done..|].
    { rewrite Hsrc. unfold pack_body. change (raws []) with (@nil Z). by rewrite app_nil_r. }
    exists p', []. injection Hfix as Hf1 Hf2. split_and!; try done.
    + by intros k t d Hk%elem_of_nil.
    + rewrite Hst. unfold store_ok. destruct st0; [|done]. intros h o. split; [by left|]. intros [|(k & t & d & Hk%elem_of_nil & _)]; done.
  - assert (es <> []) as Hne by by rewrite Hes0. rewrite <-Hes0 in *. clear Hes0.
    destruct (Parse_run seekable lowMemoryMode es src st0 obs0 (sum, 12 + len (raws es) + len c) Hes Hrs) with (5 := Hsrc) (c := c) (sum := sum)
      as (p' & l & Hp & Hl & Hs & Ho & Hst & Hfix); try done.
    + eapply entries_data_ok; [done|]. by rewrite Hsrc in Hok.
    + intros k e Hk. rewrite Hsrc. by apply pack_stream.
    + exists p', l. injection Hfix as -> ->. done.
Qed.

Lemma Parse_resolved {S Ob} `{LawfulRaw S digest fmt, Zlib, Observer Ob} seekable lowMemoryMode src st0 (obs0 : list Ob) es sum tail :
  is_pack digest fmt src es sum tail -> bytes_ok src -> resolvable digest fmt es (initial_objects st0) ->
  (lowMemoryMode = true -> is_Some st0 /\ seekable = true) -> (forall ev (o : Ob), (observe ev o).1 = true) ->
  exists p' l, Parse digest fmt seekable lowMemoryMode (NewParser src st0 obs0) = (Ok sum, p')
    /\ l.*1 ≡ₚ seq 0 (length es)
    /\ (forall k t c, (k, (t, c)) ∈ l -> exists d, stands digest fmt es (initial_objects st0) d (pos es k) t c)
    /\ p_observers p' = map (obs_after (told digest fmt es l sum)) obs0
    /\ store_ok st0 l (p_storage p')
    /\ p_checksum p' = sum /\ p_size p' = len src - len tail.
Proof. intros Hp Hok Hrs Hlow Hobs. apply Parse_observed; auto. Qed.

(** C1: the parser resolves every pack that can be resolved ([resolvable]).
    Over the bytes of a pack, each of whose entries stands for an object (in
    itself, or by at most 4095 deltas over an earlier position, over an object
    of the pack, or over an object of the storage when the pack is thin), with
    no two objects of one identifier, and in which an object that is the base
    of a delta by identifier comes before it, unless the storage has that
    object or it needs nothing of the storage, [Parse] returns the digest at the end of
    the pack; it resolves every entry exactly once, a base before what is over
    it; its observers are told the number of entries, then type, size, position,
    identifier and checksum of every entry in that order, then the digest; and
    the storage holds what it held and the objects of all entries, nothing
    else.  So it is in every mode: with a storage or without, over a source that
    seeks or a stream, keeping contents or inflating them again. *)
Theorem Parse_resolves {S Ob} `{LawfulRaw S digest fmt, Zlib, Observer Ob} seekable lowMemoryMode src st0 (obs0 : list Ob) es sum tail :
  is_pack digest fmt src es sum tail -> bytes_ok src -> resolvable digest fmt es (initial_objects st0) ->
  (lowMemoryMode = true -> is_Some st0 /\ seekable = true) -> (forall ev (o : Ob), (observe ev o).1 = true) ->
  exists p' l, Parse digest fmt seekable lowMemoryMode (NewParser src st0 obs0) = (Ok sum, p')
    /\ l.*1 ≡ₚ seq 0 (length es)
    /\ (forall k t c, (k, (t, c)) ∈ l -> exists d, stands digest fmt es (initial_objects st0) d (pos es k) t c)
    /\ p_observers p' = map (obs_after (told digest fmt es l sum)) obs0
    /\ store_ok st0 l (p_storage p')
    /\ p_checksum p' = sum /\ p_size p' = len src - len tail.
Proof. apply Parse_resolved. Qed.

(** ** An example: the memory storage *)

Lemma mem_raw_id digest fmt t data : IsZero (hasher_Sum digest fmt t (len data) data) = false ->
  (let o := mo_SetSize (len data) (mo_SetType t (NewMemoryObject (Some (FromObjectFormat fmt)))) in
   (mo_Hash digest (match data with [] => o | _ => (mo_Write data o).2 end)).1) = hasher_Sum digest fmt t (len data) data.
Proof.
  assert (FromObjectFormat fmt = id_format fmt) as -> by by destruct fmt.
  intros Hz. set (o := mo_SetSize _ _). cbn zeta.
  assert (match data with [] => o | _ => (mo_Write data o).2 end
    = {| mo_t := t; mo_h := ZeroHash; mo_cont := data; mo_sz := len data; mo_oh := Some (id_format fmt) |}) as -> by by destruct data.
  unfold mo_Hash. cbn [mo_h mo_cont mo_sz mo_oh mo_t]. rewrite Z.eqb_refl.
  change (Compute digest (id_format fmt) t data) with (hasher_Sum digest fmt t (len data) data).
  change (IsZero ZeroHash && true) with true. cbn match. by rewrite Hz.
Qed.

Definition mem_lawful digest fmt : @LawfulRaw ObjectStorage (mem_raw digest fmt) digest fmt.
Proof.
  refine {| raw_map := Objects |}.
  - intros t n st. by exists st.
  - intros t data st Ht Hz. cbn [raw_close mem_raw]. pose proof (mem_raw_id digest fmt t data Hz) as Hid. cbn zeta in *. rewrite Hid. unfold mem_SetEncodedObject. cbn [eo_Type eo_Hash]. by destruct t.
  - intros t h st. by exists st.
Defined.

(** A recorder of what it is told. *)
Definition recorder : Observer (list event) := fun ev l => (true, l ++ [ev]).

Definition example_blob : entry :=
  {| en_head := [51]; en_ref := []; en_zip := toy_deflate [7; 8; 9]; en_type := BlobObject; en_base := NoBase; en_data := [7; 8; 9] |}.
Definition example_delta : entry :=
  {| en_head := [101]; en_ref := [8]; en_zip := toy_deflate [3; 2; 0x91; 1; 2]; en_type := OFSDeltaObject; en_base := OfsBase 8;
     en_data := [3; 2; 0x91; 1; 2] |}.
Definition example_entries : list entry := [example_blob; example_delta].

Definition example_sum : ObjectID :=
  {| oid_hash := copy (zeros SHA256Size) (toy_digest UnsetObjectFormat (pack_body example_entries)); oid_format := UnsetObjectFormat |}.

Lemma example_is_pack : @is_pack toy_zlib toy_digest SHA1 example_pack example_entries example_sum [].
Proof.
  split.
  - exists (toy_digest UnsetObjectFormat (pack_body example_entries)). split; [vm_compute; reflexivity|].
    intros rest. unfold ReadFrom. set (c := toy_digest _ _).
    replace (Size _) with (len c) by (vm_compute; reflexivity). by rewrite ReadFull_app.
  - vm_compute. reflexivity.
  - cbn [entries_ok example_entries]. split; [|split; [|done]].
    + split; [exists 51, []; split_and!; [done..|by intros rest]|by split|by intros rest|by vm_compute].
    + split; [|split; [done|split]|by intros rest|by vm_compute].
      * exists 101, []. split_and!; [done..|by intros rest].
      * intros rest. by destruct rest.
      * vm_compute. split; reflexivity.
  - vm_compute. reflexivity.
Qed.

Lemma example_stands d off t c : @stands toy_digest SHA1 example_entries ∅ d off t c ->
  (d, off, t, c) ∈ [(0, 12, BlobObject, [7; 8; 9]); (1, 20, BlobObject, [8; 9])].
Proof.
  induction 1 as [off e He Hb|d off e n t s c He Hb Hs IH Hpd|d off off' e h t s c He Hb Hs IH Hh Hpd|off e h o c He Hb Ho]; [..|done];
    unfold entry_at, placed, example_entries in He; rewrite !elem_of_cons, elem_of_nil in He; destruct He as [[= -> ->]|[[= -> ->]|[]]]; try done.
  - by left.
  - injection Hb as <-. rewrite !elem_of_cons, elem_of_nil in IH. destruct IH as [[= -> -> ->]|[Habs|[]]];
      [|apply (f_equal (fun x => x.1.1.2)) in Habs; by vm_compute in Habs].
    vm_compute in Hpd. injection Hpd as <-. right. by left.
Qed.

Lemma example_objects t c : @an_object toy_digest SHA1 example_entries ∅ t c -> t = BlobObject /\ (c = [7; 8; 9] \/ c = [8; 9]).
Proof.
  intros [(d & off & Hs)|[h Hh]]; [|by rewrite lookup_empty in Hh]. apply example_stands in Hs.
  rewrite !elem_of_cons, elem_of_nil in Hs. destruct Hs as [[= _ _ -> ->]|[[= _ _ -> ->]|[]]]; auto.
Qed.

Lemma example_resolvable : @resolvable toy_digest SHA1 example_entries ∅.
Proof.
  assert (forall d off t c, @stands toy_digest SHA1 example_entries ∅ d off t c -> d = 0 \/ d = 1) as Hdepth.
  { intros d off t c Hs%example_stands. rewrite !elem_of_cons, elem_of_nil in Hs. destruct Hs as [[= -> _ _ _]|[[= -> _ _ _]|[]]]; auto. }
  assert (entry_at example_entries 12 example_blob) as H1 by by left.
  assert (entry_at example_entries 20 example_delta) as H2 by (right; by left).
  split.
  - intros off e He. unfold entry_at, placed, example_entries in He. rewrite !elem_of_cons, elem_of_nil in He.
    destruct He as [[= -> ->]|[[= -> ->]|[]]].
    + exists 0. do 2 eexists. by apply stands_object.
    + exists (0 + 1), BlobObject, [8; 9]. eapply stands_ofs; [exact H2|done|by apply (stands_object _ _ _ _ 12 _ H1)|vm_compute; reflexivity].
  - intros d off t c Hs%Hdepth. unfold maxDeltaChainDepth. lia.
  - intros off e h He. unfold entry_at, placed, example_entries in He. rewrite !elem_of_cons, elem_of_nil in He.
    by destruct He as [[= -> ->]|[[= -> ->]|[]]].
  - intros h o. by rewrite lookup_empty.
  - intros t c t' c' [-> Hc]%example_objects [-> Hc']%example_objects Hid. split; [done|]. apply (f_equal oid_hash) in Hid.
    destruct Hc as [->| ->], Hc' as [->| ->]; try done; vm_compute in Hid; discriminate.
  - intros t c [-> [->| ->]]%example_objects; vm_compute; reflexivity.
Qed.

Lemma Parse_resolves_witness :
  exists p' l, Parse (H := mem_raw toy_digest SHA1) (H0 := toy_zlib) (H1 := recorder) toy_digest SHA1 true false
      (NewParser example_pack (Some empty_objects) [[]]) = (Ok example_sum, p')
    /\ l.*1 ≡ₚ seq 0 2 /\ p_observers p' = [told toy_digest SHA1 example_entries l example_sum].
Proof.
  assert (bytes_ok example_pack) as Hok by (apply (bool_decide_unpack _); vm_compute; exact I).
  destruct (Parse_resolves (H := mem_raw toy_digest SHA1) (H0 := mem_lawful toy_digest SHA1) (H1 := toy_zlib) (H2 := recorder) true false
    example_pack (Some empty_objects) [[]] example_entries example_sum [] example_is_pack Hok example_resolvable ltac:(done) ltac:(done))
    as (p' & l & Hp & Hl & _ & Ho & _).
  exists p', l. split; [exact Hp|]. split; [exact Hl|]. rewrite Ho. cbn [map]. f_equal. unfold obs_after.
  generalize (told toy_digest SHA1 example_entries l example_sum) as evs. intros evs.
  assert (forall acc, foldl (fun (o : list event) ev => (observe (Observer := recorder) ev o).2) acc evs = acc ++ evs) as Hrec; [|apply (Hrec [])].
  induction evs as [|ev evs IH]; intros acc; [by rewrite app_nil_r|]. cbn [foldl]. rewrite IH. cbn. by rewrite <-app_assoc.
Defined.

(** A thin pack of two deltas by identifier: over the stored blob [[7; 8; 9]],
    and over the result of the first.  They are resolved in this order; in the
    other one the base in the pack is looked for outside. *)
Definition thin_pack (swap : bool) : bytes :=
  let id c := Bytes (hasher_Sum toy_digest SHA1 BlobObject (len c) c) in
  let d1 := [117] ++ id [7; 8; 9] ++ toy_deflate [3; 2; 0x91; 1; 2] in
  let d2 := [117] ++ id [8; 9] ++ toy_deflate [2; 1; 0x91; 1; 1] in
  let body := pack_head 2 ++ (if swap then d2 ++ d1 else d1 ++ d2) in
  body ++ toy_digest UnsetObjectFormat body.

Definition thin_storage : ObjectStorage :=
  raw_close (RawStorer := mem_raw toy_digest SHA1) BlobObject 3 [7; 8; 9] empty_objects.

Definition thin_parse (swap : bool) : outcome parse_error ObjectID :=
  (Parse (H := mem_raw toy_digest SHA1) (H0 := toy_zlib) (H1 := recorder) toy_digest SHA1 true false
    (NewParser (thin_pack swap) (Some thin_storage) [[]])).1.

Example thin_order : (match thin_parse false with Ok _ => true | _ => false end, thin_parse true) = (true, Err PReferenceDeltaNotFound).
Proof. vm_compute. reflexivity. Qed.
