(* ===== verification/PackSelect.v ===== *)
(** * Selecting deltas: [plumbing/format/packfile/object_pack.go], [delta_selector.go]

    The objects to pack are shared by pointers (a delta points to its base), so
    they live in a heap; a list of objects to pack is a list of indices.  The
    groups of objects of one type are walked by goroutines in Go: they touch
    different objects, so they are walked here one after the other. *)
From stdpp Require Import base list gmap numbers option strings sorting.
From Stdlib Require Import ZArith Lia.
From S2P Require Import Prelude State GoStrings Varint PatchDelta DeltaIndex DiffDelta ObjectId Object Storer MemStorage ObjectStore PackScanner.

Open Scope Z_scope.

Inductive pack_error :=
  | EStorage (e : storage_error)
  | EVarint (e : varint_error)
  | EBadOffset (n : Z)
  | EInvalidHash.

(** ** Objects to pack *)

(** What a [plumbing.DeltaObject] adds to an object. *)
Record DeltaInfo := { BaseHash : ObjectID; ActualHash : ObjectID; ActualSize : Z }.

(** A [plumbing.EncodedObject], which may be a [plumbing.DeltaObject]. *)
Record PackObject := { po_Type : ObjectType; po_Hash : ObjectID; po_Data : bytes; po_delta : option DeltaInfo }.

Definition po_Size (o : PackObject) : Z := len (po_Data o).

Definition plain (o : Object.EncodedObject) : PackObject :=
  {| po_Type := eo_Type o; po_Hash := eo_Hash o; po_Data := eo_Data o; po_delta := None |}.

(** [resolvedOriginal] and what it guards are one option. *)
Record ObjectToPack := {
  otp_Object : PackObject;
  otp_Base : option nat;
  otp_Original : option PackObject;
  otp_Depth : Z;
  otp_Offset : Z;
  otp_resolved : option (ObjectType * Z * ObjectID);
}.

Definition newObjectToPack (o : PackObject) : ObjectToPack :=
  {| otp_Object := o; otp_Base := None; otp_Original := Some o; otp_Depth := 0; otp_Offset := 0; otp_resolved := None |}.

(** [base] and its depth. *)
Definition newDeltaObjectToPack (base : nat) (depth : Z) (original delta : PackObject) : ObjectToPack :=
  {| otp_Object := delta; otp_Base := Some base; otp_Original := Some original; otp_Depth := i64 (depth + 1);
     otp_Offset := 0; otp_resolved := None |}.

Definition otp_IsDelta (o : ObjectToPack) : bool := match otp_Base o with Some _ => true | None => false end.

Definition set_object (x : PackObject) (o : ObjectToPack) : ObjectToPack :=
  {| otp_Object := x; otp_Base := otp_Base o; otp_Original := otp_Original o; otp_Depth := otp_Depth o;
     otp_Offset := otp_Offset o; otp_resolved := otp_resolved o |}.
Definition set_depth (d : Z) (o : ObjectToPack) : ObjectToPack :=
  {| otp_Object := otp_Object o; otp_Base := otp_Base o; otp_Original := otp_Original o; otp_Depth := d;
     otp_Offset := otp_Offset o; otp_resolved := otp_resolved o |}.
Definition set_offset (z : Z) (o : ObjectToPack) : ObjectToPack :=
  {| otp_Object := otp_Object o; otp_Base := otp_Base o; otp_Original := otp_Original o; otp_Depth := otp_Depth o;
     otp_Offset := z; otp_resolved := otp_resolved o |}.
Definition set_original (x : option PackObject) (o : ObjectToPack) : ObjectToPack :=
  {| otp_Object := otp_Object o; otp_Base := otp_Base o; otp_Original := x; otp_Depth := otp_Depth o;
     otp_Offset := otp_Offset o; otp_resolved := otp_resolved o |}.

Definition BackToOriginal (o : ObjectToPack) : ObjectToPack :=
  match otp_Original o with
  | Some x => if otp_IsDelta o
      then {| otp_Object := x; otp_Base := None; otp_Original := Some x; otp_Depth := 0; otp_Offset := otp_Offset o; otp_resolved := otp_resolved o |}
      else o
  | None => o
  end.

Definition IsWritten (o : ObjectToPack) : bool := otp_Offset o >? 1.
Definition MarkWantWrite (o : ObjectToPack) : ObjectToPack := set_offset 1 o.
Definition WantWrite (o : ObjectToPack) : bool := otp_Offset o =? 1.

Definition SaveOriginalMetadata (o : ObjectToPack) : ObjectToPack :=
  match otp_Original o with
  | Some x => {| otp_Object := otp_Object o; otp_Base := otp_Base o; otp_Original := otp_Original o; otp_Depth := otp_Depth o;
                 otp_Offset := otp_Offset o; otp_resolved := Some (po_Type x, po_Size x, po_Hash x) |}
  | None => o
  end.
Definition SetOriginal (x : option PackObject) (o : ObjectToPack) : ObjectToPack := SaveOriginalMetadata (set_original x o).
Definition CleanOriginal (o : ObjectToPack) : ObjectToPack := set_original None o.

(** [Type] follows the bases: the fuel is the number of objects. *)
Fixpoint otp_Type {E} (fuel : nat) (heap : list ObjectToPack) (i : nat) : outcome E ObjectType :=
  match heap !! i with
  | None => Panic
  | Some o =>
      match otp_Original o, otp_resolved o, otp_Base o with
      | Some x, _, _ => Ok (po_Type x)
      | None, Some (t, _, _), _ => Ok t
      | None, None, Some b => match fuel with O => NoFuel | S f => otp_Type f heap b end
      | None, None, None => Ok (po_Type (otp_Object o))
      end
  end.

Definition otp_Hash {E} (o : ObjectToPack) : outcome E ObjectID :=
  match otp_Original o, otp_resolved o, po_delta (otp_Object o) with
  | Some x, _, _ => Ok (po_Hash x)
  | None, Some (_, _, h), _ => Ok h
  | None, None, Some d => Ok (ActualHash d)
  | None, None, None => Panic
  end.

Definition otp_Size {E} (o : ObjectToPack) : outcome E Z :=
  match otp_Original o, otp_resolved o, po_delta (otp_Object o) with
  | Some x, _, _ => Ok (po_Size x)
  | None, Some (_, s, _), _ => Ok s
  | None, None, Some d => Ok (ActualSize d)
  | None, None, None => Panic
  end.

(** [SetDelta], for a base of the given depth. *)
Definition SetDelta (base : nat) (depth : Z) (delta : PackObject) (o : ObjectToPack) : ObjectToPack :=
  {| otp_Object := delta; otp_Base := Some base; otp_Original := otp_Original o; otp_Depth := i64 (depth + 1);
     otp_Offset := otp_Offset o; otp_resolved := otp_resolved o |}.

(** ** The selector *)

(** [storer.DeltaObjectStorer], which a storer may implement. *)
Class DeltaObjectStorer (S : Type) := DeltaObject : option (ObjectType -> ObjectID -> M S PackObject).

(** The state of a selection or an encoding: the objects, the storer, and what
    was written. *)
Record Packing (S : Type) := { pk_heap : list ObjectToPack; pk_storer : S; pk_out : bytes }.
Arguments pk_heap {S}. Arguments pk_storer {S}. Arguments pk_out {S}. Arguments Build_Packing {S}.

Definition maxDepth : Z := 50.

Definition applyDelta (t : ObjectType) : bool := match t with BlobObject | TreeObject => true | _ => false end.

(** The type and the size of an object, by which the objects are sorted. *)
Definition keyed : Type := nat * (ObjectType * Z).

(** [byTypeAndSize.Less]. *)
Definition Less (a b : keyed) : bool :=
  let '(_, (ta, sa)) := a in let '(_, (tb, sb)) := b in
  if type_num ta <? type_num tb then false
  else if type_num ta >? type_num tb then true
  else sa >? sb.

Section selector.
Context {S : Type} `{ObjectStorer S, DeltaObjectStorer S}.
Context (digest : ObjectFormat -> bytes -> bytes).
(** [sort.Sort] of the standard library. *)
Context (Sort : (keyed -> keyed -> bool) -> list keyed -> list keyed).

Abbreviation SM := (ST pack_error (Packing S)).

Definition on_storer {A} (m : M S A) : SM A := fun p =>
  let '(r, st) := m (pk_storer p) in (map_err EStorage r, Build_Packing (pk_heap p) st (pk_out p)).

Definition with_heap (f : list ObjectToPack -> list ObjectToPack) (p : Packing S) : Packing S :=
  Build_Packing (f (pk_heap p)) (pk_storer p) (pk_out p).

Definition deref (i : nat) : SM ObjectToPack :=
  h ← st_get pk_heap; match h !! i with Some o => mret o | None => st_panic end.
Definition update (i : nat) (f : ObjectToPack -> ObjectToPack) : SM unit := st_set (with_heap (alter f i)).
Definition alloc (o : ObjectToPack) : SM nat :=
  i ← st_get (fun p => length (pk_heap p)); st_set (with_heap (fun h => h ++ [o])) ;; mret i.

Definition Type_of (i : nat) : SM ObjectType := h ← st_get pk_heap; st_lift (otp_Type (length h) h i).
Definition Hash_of (i : nat) : SM ObjectID := o ← deref i; st_lift (otp_Hash o).
Definition Size_of (i : nat) : SM Z := o ← deref i; st_lift (otp_Size o).

Definition encodedObject (h : ObjectID) : SM PackObject := o ← on_storer (GetEncodedObject AnyObject h); mret (plain o).

Definition encodedDeltaObject (h : ObjectID) : SM PackObject :=
  match DeltaObject with
  | None => encodedObject h
  | Some get => on_storer (get AnyObject h)
  end.

Definition restoreOriginal (i : nat) : SM unit :=
  o ← deref i;
  match otp_Original o with
  | Some _ => mret tt
  | None =>
      if negb (IsDelta (po_Type (otp_Object o))) then mret tt
      else
        h ← Hash_of i;
        x ← encodedObject h;
        update i (SetOriginal (Some x))
  end.

(** It is called on a delta, whose original is there once restored. *)
Definition undeltify (i : nat) : SM unit :=
  restoreOriginal i ;;
  o ← deref i;
  match otp_Original o with
  | Some x => update i (fun o => set_depth 0 (set_object x o))
  | None => st_panic
  end.

(** The objects on the path are the set [visiting]. *)
Fixpoint fixAndBreakChainsOne (fuel : nat) (m : gmap ObjectID nat) (i : nat) (visiting : gset ObjectID) : SM unit :=
  match fuel with
  | O => st_nofuel
  | Datatypes.S f =>
      o ← deref i;
      if negb (IsDelta (po_Type (otp_Object o))) then mret tt
      else match otp_Base o with
      | Some _ => mret tt
      | None =>
          match po_delta (otp_Object o) with
          | None => undeltify i
          | Some d =>
              match m !! BaseHash d with
              | None => undeltify i
              | Some base =>
                  h ← Hash_of i;
                  let visiting := {[h]} ∪ visiting in
                  if decide (BaseHash d ∈ visiting) then undeltify i
                  else
                    fixAndBreakChainsOne f m base visiting ;;
                    b ← deref base;
                    update i (fun o => SetDelta base (otp_Depth b) (otp_Object o) o)
              end
          end
      end
  end.

Fixpoint by_hash (l : list nat) (m : gmap ObjectID nat) : SM (gmap ObjectID nat) :=
  match l with
  | [] => mret m
  | i :: l => h ← Hash_of i; by_hash l (<[h := i]> m)
  end.

Definition fixAndBreakChains (l : list nat) : SM unit :=
  m ← by_hash l ∅;
  st_each (fun i => fixAndBreakChainsOne (Datatypes.S (length l)) m i ∅) l.

Fixpoint load (hashes : list ObjectID) (packWindow : Z) : SM (list nat) :=
  match hashes with
  | [] => mret []
  | h :: hashes =>
      o ← if packWindow =? 0 then encodedObject h else encodedDeltaObject h;
      let otp := newObjectToPack o in
      i ← alloc (match po_delta o with Some _ => CleanOriginal otp | None => otp end);
      l ← load hashes packWindow;
      mret (i :: l)
  end.

Definition objectsToPack (hashes : list ObjectID) (packWindow : Z) : SM (list nat) :=
  l ← load hashes packWindow;
  if packWindow =? 0 then mret l
  else fixAndBreakChains l ;; mret l.

Definition deltaSizeLimit (targetSize baseDepth targetDepth : Z) (targetDelta : bool) : Z :=
  if negb targetDelta then
    let n := Z.shiftr targetSize 1 in
    Z.quot (i64 (n * i64 (maxDepth - baseDepth))) maxDepth
  else
    let d := targetDepth in
    let n := targetSize in
    if d >=? maxDepth then 0
    else Z.quot (i64 (n * i64 (maxDepth - baseDepth))) (i64 (maxDepth - d)).

(** [getDelta] over objects whose readers do not fail: the delta and the index
    as it leaves it. *)
Definition getDelta (idx : deltaIndex) (base target : PackObject) : SM (PackObject * deltaIndex) :=
  '(db, idx) ← st_lift (map_err EVarint (diffDelta idx (po_Data base) (po_Data target)));
  mret ({| po_Type := OFSDeltaObject; po_Hash := Compute digest (FromObjectFormat SHA1) OFSDeltaObject db; po_Data := db; po_delta := None |}, idx).

(** The index map after the call. *)
Definition tryToDeltify (indexMap : gmap ObjectID deltaIndex) (base target : nat) : SM (gmap ObjectID deltaIndex) :=
  restoreOriginal target ;;
  restoreOriginal base ;;
  tsize ← Size_of target;
  bsize ← Size_of base;
  if tsize <? Z.shiftr bsize 4 then mret indexMap
  else
    b ← deref base; t ← deref target;
    let msz := deltaSizeLimit (po_Size (otp_Object t)) (otp_Depth b) (otp_Depth t) (otp_IsDelta t) in
    if msz <=? 8 then mret indexMap
    else if i64 (bsize - tsize) >? msz then mret indexMap
    else
      h ← Hash_of base;
      let idx := default new_deltaIndex (indexMap !! h) in
      match otp_Original b, otp_Original t with
      | Some bo, Some to =>
          '(delta, idx) ← getDelta idx bo to;
          (if po_Size delta <? msz then update target (SetDelta base (otp_Depth b) delta) else mret tt) ;;
          mret (<[h := idx]> indexMap)
      | _, _ => st_panic
      end.

(** The inner loop of [walk], for [j] downwards. *)
Fixpoint walk_bases (n : nat) (objs : list nat) (w i j : Z) (target : nat) (indexMap : gmap ObjectID deltaIndex)
    : SM (gmap ObjectID deltaIndex) :=
  match n with
  | O => mret indexMap
  | Datatypes.S n =>
      if (j >=? 0) && (i - j <? w) then
        base ← st_lift (index objs j);
        tb ← Type_of base; tt ← Type_of target;
        if negb (bool_decide (tb = tt)) then mret indexMap
        else
          indexMap ← tryToDeltify indexMap base target;
          walk_bases n objs w i (j - 1) target indexMap
      else mret indexMap
  end.

Definition clean (objs : list nat) (w i : Z) (indexMap : gmap ObjectID deltaIndex) : SM (gmap ObjectID deltaIndex) :=
  if i >? w then
    obj ← st_lift (index objs (i64 (i - w)));
    h ← Hash_of obj;
    o ← deref obj;
    (if otp_IsDelta o then update obj SaveOriginalMetadata ;; update obj CleanOriginal else mret tt) ;;
    mret (delete h indexMap)
  else mret indexMap.

(** One round of the loop of [walk]. *)
Definition walk_step (objs : list nat) (w : Z) (i : Z) (indexMap : gmap ObjectID deltaIndex) : SM (gmap ObjectID deltaIndex) :=
  indexMap ← clean objs w i indexMap;
  target ← st_lift (index objs i);
  t ← deref target;
  if otp_IsDelta t then mret indexMap
  else
    ty ← Type_of target;
    if negb (applyDelta ty) then mret indexMap
    else walk_bases (Z.to_nat i) objs w i (i - 1) target indexMap.

Fixpoint walk_from (n : nat) (objs : list nat) (w i : Z) (indexMap : gmap ObjectID deltaIndex) : SM unit :=
  match n with
  | O => mret tt
  | Datatypes.S n =>
      indexMap ← walk_step objs w i indexMap;
      walk_from n objs w (i + 1) indexMap
  end.

(** [int(packWindow)] wraps. *)
Definition walk (objs : list nat) (packWindow : Z) : SM unit := walk_from (length objs) objs (i64 packWindow) 0 ∅.

Fixpoint keys (l : list nat) : SM (list keyed) :=
  match l with
  | [] => mret []
  | i :: l => t ← Type_of i; s ← Size_of i; ks ← keys l; mret ((i, (t, s)) :: ks)
  end.

(** The order of the objects depends on their types and sizes alone. *)
Definition sort (l : list nat) : SM (list keyed) := ks ← keys l; mret (Sort Less ks).

(** The runs of one type; [prev] is the type of the last object, with its
    group. *)
Fixpoint groups (prev : option (ObjectType * list nat)) (l : list keyed) : list (list nat) :=
  match l with
  | [] => match prev with Some (_, g) => [g] | None => [] end
  | (i, (t, _)) :: l =>
      match prev with
      | Some (t', g) => if bool_decide (t' = t) then groups (Some (t', g ++ [i])) l else g :: groups (Some (t, [i])) l
      | None => groups (Some (t, [i])) l
      end
  end.

(** Every group is walked; the error is the first one. *)
Fixpoint walks (gs : list (list nat)) (packWindow : Z) : SM unit := fun p =>
  match gs with
  | [] => (Ok tt, p)
  | g :: gs =>
      let '(r, p) := walk g packWindow p in
      match r with
      | Ok _ => walks gs packWindow p
      | Err e => match walks gs packWindow p with (Ok _, p) | (Err _, p) => (Err e, p) | (r, p) => (r, p) end
      | r => (r, p)
      end
  end.

Definition ObjectsToPack (hashes : list ObjectID) (packWindow : Z) : SM (list nat) :=
  otp ← objectsToPack hashes packWindow;
  if packWindow =? 0 then mret otp
  else
    ks ← sort otp;
    walks (groups None ks) packWindow ;;
    mret (fst <$> ks).
End selector.

(** ** What the selection keeps true *)

(** An object that may be sent as the delta it is stored as. *)
Record reusable (m : ObjectMap) (h : ObjectID) (o : Object.EncodedObject) (x : PackObject) : Prop := {
  ru_type : IsDelta (po_Type x) = true;
  ru_bytes : bytes_ok (po_Data x);
  ru_len : len (po_Data x) < 2 ^ 36;
  ru_nonempty : eo_Data o <> [];
  ru_info : exists d, po_delta x = Some d /\ ActualHash d = h
    /\ forall b, m !! BaseHash d = Some b -> eo_Type b = eo_Type o /\ PatchDelta (eo_Data b) (po_Data x) = Ok (eo_Data o);
}.

(** A storer of deltas returns the object, or a delta of it. *)
Class LawfulDeltas (S : Type) `{LawfulObjects S, DeltaObjectStorer S} :=
  law_DeltaObject : forall get, DeltaObject = Some get -> forall s h, objs_ok s ->
    exists r s', get AnyObject h s = (r, s') /\ objs_ok s' /\ objs s' = objs s
      /\ match objs s !! h with
         | None => r = Err Storer.ErrObjectNotFound
         | Some o => exists x, r = Ok x /\ (x = plain o \/ reusable (objs s) h o x)
         end.

(** The objects asked for are in the storage, and of at most 4 GiB. *)
Definition requested (m : ObjectMap) (ids : list ObjectID) : Prop :=
  forall h, h ∈ ids -> exists o, m !! h = Some o /\ eo_Hash o = h /\ storable (eo_Type o) = true
    /\ bytes_ok (eo_Data o) /\ len (eo_Data o) <= 2 ^ 32.

Section selection.
Context (m : ObjectMap) (ids : list ObjectID).

Definition object_at (k : nat) (o : Object.EncodedObject) : Prop := exists h, ids !! k = Some h /\ m !! h = Some o.

(** [x] is a delta of [o] over [ob]. *)
Record delta_over (ob o : Object.EncodedObject) (x : PackObject) : Prop := {
  dv_delta : IsDelta (po_Type x) = true;
  dv_bytes : bytes_ok (po_Data x);
  dv_len : len (po_Data x) < 2 ^ 36;
  dv_type : eo_Type ob = eo_Type o;
  dv_patch : PatchDelta (eo_Data ob) (po_Data x) = Ok (eo_Data o);
}.

Definition metadata (o : Object.EncodedObject) : option (ObjectType * Z * ObjectID) := Some (eo_Type o, eo_Size o, eo_Hash o).

Definition known (o : Object.EncodedObject) (x : ObjectToPack) : Prop :=
  otp_Original x = Some (plain o)
  \/ otp_Original x = None /\ (otp_resolved x = metadata o
       \/ otp_resolved x = None /\ exists d, po_delta (otp_Object x) = Some d /\ ActualHash d = eo_Hash o).

(** What is to be packed for the object [o]: the object, a delta of it, or,
    before its base was looked for, the delta it is stored as. *)
Inductive cell (pending : bool) (o : Object.EncodedObject) (x : ObjectToPack) : Prop :=
  | cell_whole : otp_Base x = None -> otp_Object x = plain o -> otp_Original x = Some (plain o) -> cell pending o x
  | cell_delta b ob : otp_Base x = Some b -> object_at b ob -> delta_over ob o (otp_Object x) -> eo_Data o <> [] ->
      known o x -> cell pending o x
  | cell_pending : pending = true -> otp_Base x = None -> reusable m (eo_Hash o) o (otp_Object x) ->
      otp_Original x = None -> otp_resolved x = None -> cell pending o x.

Record heap_ok (pending : bool) (heap : list ObjectToPack) : Prop := {
  hk_length : length heap = length ids;
  hk_cells : forall k x, heap !! k = Some x -> exists o, object_at k o /\ cell pending o x;
  hk_depth : forall k x, heap !! k = Some x -> 0 <= otp_Depth x <= 2 ^ 26;
}.

(** The bases that have to be followed to know a type. *)
Definition typed (heap : list ObjectToPack) : Prop :=
  exists rank : nat -> nat, (forall k, (rank k <= length heap)%nat) /\ forall k x b, heap !! k = Some x ->
    otp_Base x = Some b -> otp_Original x = None -> otp_resolved x = None -> (rank b < rank k)%nat.

(** Depths, when no delta is reused; no object of [unused] is a base. *)
Definition ranked (unused : nat -> Prop) (heap : list ObjectToPack) : Prop :=
  forall k x b y, heap !! k = Some x -> otp_Base x = Some b -> heap !! b = Some y ->
    otp_Depth y + 1 <= otp_Depth x <= 50 /\ ~ unused b.

Definition unwritten (heap : list ObjectToPack) : Prop := forall k x, heap !! k = Some x -> otp_Offset x = 0.

Hypothesis Hreq : requested m ids.

Lemma object_at_det k o o' : object_at k o -> object_at k o' -> o = o'.
Proof. intros (h & Hk & Ho) (h' & Hk' & Ho'). congruence. Qed.

Lemma object_at_facts k o : object_at k o ->
  ids !! k = Some (eo_Hash o) /\ m !! eo_Hash o = Some o /\ storable (eo_Type o) = true /\ bytes_ok (eo_Data o) /\ len (eo_Data o) <= 2 ^ 32.
Proof.
  intros (h & Hk & Ho). destruct (Hreq h) as (o' & Ho' & Hh & Hs & Hb & Hl); [by eapply list_elem_of_lookup_2|].
  rewrite Ho in Ho'. injection Ho' as <-. subst h. done.
Qed.

Lemma object_at_some k : (k < length ids)%nat -> exists o, object_at k o.
Proof.
  intros [h Hh]%lookup_lt_is_Some. destruct (Hreq h) as (o & Ho & _); [by eapply list_elem_of_lookup_2|]. by exists o, h.
Qed.

Lemma cell_Hash {E} p o x : cell p o x -> otp_Hash (E := E) x = Ok (eo_Hash o).
Proof.
  unfold otp_Hash. intros [Hb Ho Hor|b ob Hb Hob Hd Hn Hk|Hp Hb Hr Hor Hres].
  - by rewrite Hor.
  - destruct Hk as [->|[-> [->|[-> (d & -> & <-)]]]]; done.
  - destruct Hr as [_ _ _ _ (d & Hd & Ha & _)]. by rewrite Hor, Hres, Hd, Ha.
Qed.

(** The size is that of the object but for a delta that is reused. *)
Lemma cell_Size {E} p o x : cell p o x ->
  exists s, otp_Size (E := E) x = Ok s /\ (otp_Base x = None -> p = false -> s = len (eo_Data o))
    /\ (otp_Original x = Some (plain o) -> s = len (eo_Data o)).
Proof.
  unfold otp_Size. intros [Hb Ho Hor|b ob Hb Hob Hd Hn Hk|Hp Hb Hr Hor Hres].
  - rewrite Hor. by eexists.
  - destruct Hk as [->|[-> [->|[-> (d & -> & _)]]]]; (eexists; split; [done|]; split; [congruence|done]).
  - destruct Hr as [_ _ _ _ (d & Hd & Ha & _)]. rewrite Hor, Hres, Hd. eexists. split; [done|]. split; congruence.
Qed.

Lemma heap_Type {E} heap k o : heap_ok false heap -> typed heap -> object_at k o -> otp_Type (E := E) (length heap) heap k = Ok (eo_Type o).
Proof.
  intros Hh (rank & Hr & Hrank) Hk. assert (rank k <= length heap)%nat as Hf by done. revert Hf.
  generalize (length heap) as fuel. intros fuel. revert k o Hk. induction fuel as [|f IH]; intros k o Hk Hf;
    (destruct (object_at_facts _ _ Hk) as (Hid & _); destruct (lookup_lt_is_Some_2 heap k) as [x Hx];
      [rewrite (hk_length _ _ Hh); by eapply lookup_lt_Some|]; destruct (hk_cells _ _ Hh k x Hx) as (o' & Hk' & Hc);
      rewrite <-(object_at_det _ _ _ Hk Hk') in Hc; clear o' Hk'; cbn [otp_Type]; rewrite Hx).
  - destruct Hc as [Hb Ho Hor|b ob Hb Hob Hd Hn Hkn|]; [by rewrite Hor| |done].
    destruct Hkn as [->|[Hor [Hres|[Hres _]]]]; [done|by rewrite Hor, Hres|].
    pose proof (Hrank k x b Hx Hb Hor Hres). lia.
  - destruct Hc as [Hb Ho Hor|b ob Hb Hob Hd Hn Hkn|]; [by rewrite Hor| |done].
    destruct Hkn as [->|[Hor [Hres|[Hres _]]]]; [done|by rewrite Hor, Hres|].
    rewrite Hor, Hres, Hb. pose proof (Hrank k x b Hx Hb Hor Hres). rewrite (IH b ob Hob) by lia.
    f_equal. apply (dv_type _ _ _ Hd).
Qed.

(** *** Changing a cell *)

Lemma heap_ok_insert p heap k x o : heap_ok p heap -> object_at k o -> cell p o x -> 0 <= otp_Depth x <= 2 ^ 26 -> heap_ok p (<[k := x]> heap).
Proof.
  intros [Hl Hc Hd] Hk Hx Hdx. split; [by rewrite length_insert| |].
  - intros j y [(<- & <- & _)|[Hne Hj]]%list_lookup_insert_Some; [by exists o|by apply Hc].
  - intros j y [(<- & <- & _)|[Hne Hj]]%list_lookup_insert_Some; [done|by eapply Hd].
Qed.

Lemma typed_insert heap k x : typed heap -> is_Some (otp_Original x) \/ is_Some (otp_resolved x) \/ otp_Base x = None -> typed (<[k := x]> heap).
Proof.
  intros (rank & Hr & Hrank) Hx. exists rank. rewrite length_insert. split; [done|].
  intros j y b [(<- & <- & _)|[Hne Hj]]%list_lookup_insert_Some Hb Hor Hres; [|by eapply Hrank].
  destruct Hx as [[z Hz]|[[z Hz]|Hz]]; congruence.
Qed.

Lemma ranked_insert U heap k x x' : ranked U heap -> heap !! k = Some x -> otp_Depth x' <= otp_Depth x \/ U k ->
  (forall b, otp_Base x' = Some b -> b <> k /\ ~ U b /\ forall y, heap !! b = Some y -> otp_Depth y + 1 <= otp_Depth x' <= 50) ->
  ranked U (<[k := x']> heap).
Proof.
  intros Hr Hk Hd Hb j y b z Hj Hy Hz.
  apply list_lookup_insert_Some in Hj as [(<- & <- & _)|[Hne Hj]].
  - destruct (Hb b Hy) as (Hbk & Hub & Hdep). rewrite list_lookup_insert_ne in Hz by done. split; [by apply Hdep|done].
  - apply list_lookup_insert_Some in Hz as [(<- & <- & _)|[Hne' Hz]]; [|by eapply Hr].
    destruct (Hr j y k x Hj Hy Hk) as [Hdep HU]. destruct Hd as [Hd|Hd]; [|done]. split; [lia|done].
Qed.

Lemma ranked_same U heap k x x' : ranked U heap -> heap !! k = Some x -> otp_Base x' = otp_Base x \/ otp_Base x' = None ->
  otp_Depth x' = otp_Depth x \/ (otp_Depth x' = 0 /\ 0 <= otp_Depth x /\ otp_Base x' = None) -> ranked U (<[k := x']> heap).
Proof.
  intros Hr Hk Hb Hd. destruct Hb as [Hb|Hb].
  - destruct Hd as [Hd|(Hd & Hd0 & Hb')].
    + intros j y b z Hj Hy Hz. apply list_lookup_insert_Some in Hj as [(<- & <- & _)|[Hne Hj]].
      * rewrite Hb in Hy. rewrite Hd. apply list_lookup_insert_Some in Hz as [(<- & <- & _)|[_ Hz]]; [|by eapply Hr].
        rewrite Hd. by eapply Hr.
      * apply list_lookup_insert_Some in Hz as [(<- & <- & _)|[_ Hz]]; [|by eapply Hr]. rewrite Hd. by eapply Hr.
    + eapply ranked_insert; [done..|lia|]. intros b Hxb. congruence.
  - eapply ranked_insert; [done..|lia|]. intros b Hxb. congruence.
Qed.

Lemma unwritten_insert heap k x : unwritten heap -> otp_Offset x = 0 -> unwritten (<[k := x]> heap).
Proof. intros Hu Hx j y [(<- & <- & _)|[Hne Hj]]%list_lookup_insert_Some; [done|by eapply Hu]. Qed.
End selection.

(** ** The operations *)

Section operations.
Context {S : Type} `{LawfulObjects S, DeltaObjectStorer S}.
Context (digest : ObjectFormat -> bytes -> bytes) (Sort : (keyed -> keyed -> bool) -> list keyed -> list keyed).
Context (m : ObjectMap) (ids : list ObjectID).
Hypothesis Hreq : requested m ids.

Implicit Types p : Packing S.

(** What is true of every state; the heap changes, what was written does not. *)
Record good (pending : bool) p : Prop := {
  gd_store : objs_ok (pk_storer p);
  gd_objs : objs (pk_storer p) = m;
  gd_heap : heap_ok m ids pending (pk_heap p);
}.

Lemma deref_otp i x p : pk_heap p !! i = Some x -> deref i p = (Ok x, p).
Proof. intros Hx. unfold deref. rewrite (st_bind_Ok (st_get _) _ _ _ _ eq_refl). by rewrite Hx. Qed.

Lemma alter_insert {A} (f : A -> A) i (l : list A) x : l !! i = Some x -> alter f i l = <[i := f x]> l.
Proof.
  intros Hx. apply list_eq. intros j. destruct (decide (j = i)) as [->|Hne].
  - rewrite list_lookup_alter_eq, Hx. by rewrite list_lookup_insert_eq by (by eapply lookup_lt_Some).
  - by rewrite list_lookup_alter_ne, list_lookup_insert_ne by done.
Qed.

Lemma update_ok i f x p : pk_heap p !! i = Some x -> update i f p = (Ok tt, with_heap (fun h => <[i := f x]> h) p).
Proof. intros Hx. unfold update, st_set, with_heap. by rewrite (alter_insert f i _ x). Qed.

Lemma good_cell pd p k x : good pd p -> pk_heap p !! k = Some x -> exists o, object_at m ids k o /\ cell m ids pd o x.
Proof. intros Hg Hx. by apply (hk_cells _ _ _ _ (gd_heap _ _ Hg)). Qed.

Lemma good_lookup pd p k o : good pd p -> object_at m ids k o -> exists x, pk_heap p !! k = Some x /\ cell m ids pd o x.
Proof.
  intros Hg Hk. destruct (object_at_facts m ids Hreq k o Hk) as (Hid & _). destruct (lookup_lt_is_Some_2 (pk_heap p) k) as [x Hx].
  { rewrite (hk_length _ _ _ _ (gd_heap _ _ Hg)). by eapply lookup_lt_Some. }
  exists x. split; [done|]. destruct (good_cell pd p k x Hg Hx) as (o' & Hk' & Hc). by rewrite (object_at_det m ids _ _ _ Hk Hk').
Qed.

Lemma Hash_ok pd p k o : good pd p -> object_at m ids k o -> Hash_of k p = (Ok (eo_Hash o), p).
Proof.
  intros Hg Hk. destruct (good_lookup pd p k o Hg Hk) as (x & Hx & Hc). unfold Hash_of.
  rewrite (st_bind_Ok _ _ _ _ _ (deref_otp _ _ _ Hx)). unfold st_lift. by rewrite (cell_Hash m ids pd o x Hc).
Qed.

Lemma Size_ok pd p k o x : good pd p -> object_at m ids k o -> pk_heap p !! k = Some x ->
  exists s, Size_of k p = (Ok s, p) /\ (otp_Base x = None -> pd = false -> s = len (eo_Data o))
    /\ (otp_Original x = Some (plain o) -> s = len (eo_Data o)).
Proof.
  intros Hg Hk Hx. destruct (good_lookup pd p k o Hg Hk) as (x' & Hx' & Hc). rewrite Hx in Hx'. injection Hx' as <-.
  destruct (cell_Size (E := pack_error) m ids pd o x Hc) as (s & Hs & H3). exists s. split; [|done]. unfold Size_of.
  rewrite (st_bind_Ok _ _ _ _ _ (deref_otp _ _ _ Hx)). unfold st_lift. by rewrite Hs.
Qed.

Lemma Type_ok p k o : good false p -> typed (pk_heap p) -> object_at m ids k o -> Type_of k p = (Ok (eo_Type o), p).
Proof.
  intros Hg Ht Hk. unfold Type_of. rewrite (st_bind_Ok (st_get _) _ _ _ _ eq_refl). unfold st_lift.
  by rewrite (heap_Type m ids Hreq (pk_heap p) k o (gd_heap _ _ Hg) Ht Hk).
Qed.

Lemma encodedObject_ok p h o : objs_ok (pk_storer p) -> objs (pk_storer p) !! h = Some o ->
  exists st', encodedObject h p = (Ok (plain o), Build_Packing (pk_heap p) st' (pk_out p)) /\ objs_ok st' /\ objs st' = objs (pk_storer p).
Proof.
  intros Hok Ho. destruct (law_GetObject (pk_storer p) AnyObject h Hok) as (st' & Hget & Hok' & Hm).
  rewrite Ho in Hget. cbn [of_type] in Hget. exists st'. split; [|done]. unfold encodedObject.
  refine (st_bind_Ok _ _ _ o _ _). unfold on_storer. by rewrite Hget.
Qed.

(** The object with its original, nothing else changed. *)
Record restored (o : Object.EncodedObject) (x x' : ObjectToPack) : Prop := {
  rd_original : otp_Original x' = Some (plain o);
  rd_object : otp_Object x' = otp_Object x;
  rd_base : otp_Base x' = otp_Base x;
  rd_depth : otp_Depth x' = otp_Depth x;
  rd_offset : otp_Offset x' = otp_Offset x;
}.

Lemma restore_raw pd p k o x : good pd p -> object_at m ids k o -> pk_heap p !! k = Some x ->
  exists st' x', restoreOriginal k p = (Ok tt, Build_Packing (<[k := x']> (pk_heap p)) st' (pk_out p))
    /\ objs_ok st' /\ objs st' = m /\ restored o x x'.
Proof.
  intros Hg Hk Hx. destruct (good_lookup pd p k o Hg Hk) as (x' & Hx' & Hc). rewrite Hx in Hx'. injection Hx' as <-.
  destruct (object_at_facts m ids Hreq k o Hk) as (_ & Hm & _).
  unfold restoreOriginal. rewrite (st_bind_Ok _ _ _ _ _ (deref_otp _ _ _ Hx)).
  assert (otp_Original x = Some (plain o) \/ otp_Original x = None /\ IsDelta (po_Type (otp_Object x)) = true) as [Hor|[Hor Hty]].
  { destruct Hc as [Hb Ho Hor|b ob Hb Hob Hd Hn [Hor|[Hor _]]|Hpd Hb Hr Hor Hres]; [by left..|right|right]; (split; [done|]).
    - apply (dv_delta _ _ _ Hd).
    - apply (ru_type _ _ _ _ Hr). }
  - rewrite Hor. exists (pk_storer p), x. rewrite list_insert_id by done. split; [by destruct p|]. split; [apply Hg|]. split; [apply Hg|]. done.
  - rewrite Hor, Hty. cbn [negb]. rewrite (st_bind_Ok _ _ _ _ _ (Hash_ok pd p k o Hg Hk)).
    destruct (encodedObject_ok p (eo_Hash o) o (gd_store _ _ Hg)) as (st' & He & Hok' & Hm'); [by rewrite (gd_objs _ _ Hg)|].
    rewrite (st_bind_Ok _ _ _ _ _ He). rewrite (update_ok k _ x) by done. exists st', (SetOriginal (Some (plain o)) x).
    split; [done|]. split; [done|]. split; [by rewrite Hm', (gd_objs _ _ Hg)|]. done.
Qed.

Lemma restored_cell o x x' : restored o x x' -> cell m ids false o x -> cell m ids false o x'.
Proof.
  intros [R1 R2 R3 R4 R5] [Hb Ho Hor|b ob Hb Hob Hd Hn Hkn|]; [|..|done].
  - apply cell_whole; congruence.
  - eapply cell_delta; [by rewrite R3|done|by rewrite R2|done|by left].
Qed.

Definition changes (k : nat) (x' : ObjectToPack) (p p' : Packing S) : Prop :=
  pk_heap p' = <[k := x']> (pk_heap p) /\ pk_out p' = pk_out p.

Lemma restoreOriginal_ok p k o x : good false p -> object_at m ids k o -> pk_heap p !! k = Some x ->
  exists p' x', restoreOriginal k p = (Ok tt, p') /\ good false p' /\ changes k x' p p' /\ restored o x x' /\ cell m ids false o x'.
Proof.
  intros Hg Hk Hx. destruct (restore_raw false p k o x Hg Hk Hx) as (st' & x' & Hr & Hok & Hm & Hres).
  destruct (good_lookup false p k o Hg Hk) as (y & Hy & Hc). rewrite Hx in Hy. injection Hy as <-.
  do 2 eexists. split; [exact Hr|]. assert (cell m ids false o x') as Hc' by by eapply restored_cell.
  split; [|by split]. split; [done..|]. cbn. eapply heap_ok_insert; [apply Hg|done|done|].
  rewrite (rd_depth _ _ _ Hres). by apply (hk_depth _ _ _ _ (gd_heap _ _ Hg) k).
Qed.

Lemma typed_restored heap k o x x' : typed heap -> restored o x x' -> typed (<[k := x']> heap).
Proof. intros Ht Hr. apply typed_insert; [done|]. left. rewrite (rd_original _ _ _ Hr). by eexists. Qed.

Lemma ranked_restored U heap k o x x' : ranked U heap -> heap !! k = Some x -> restored o x x' -> ranked U (<[k := x']> heap).
Proof. intros Hu Hk [_ _ Hb Hd _]. eapply ranked_same; [done..|by left|by left]. Qed.

(** Undoing a delta. *)
Lemma undeltify_ok p k o x : good true p -> object_at m ids k o -> pk_heap p !! k = Some x -> otp_Base x = None ->
  exists p' x', undeltify k p = (Ok tt, p') /\ good true p' /\ changes k x' p p' /\ cell m ids false o x'
    /\ otp_Base x' = None /\ otp_Depth x' = 0 /\ otp_Offset x' = otp_Offset x.
Proof.
  intros Hg Hk Hx Hb. destruct (restore_raw true p k o x Hg Hk Hx) as (st' & x' & Hr & Hok & Hm & Hres).
  unfold undeltify. rewrite (st_bind_Ok _ _ _ _ _ Hr). set (p1 := Build_Packing _ _ _).
  assert (pk_heap p1 !! k = Some x') as Hx' by (cbn; apply list_lookup_insert_eq; by eapply lookup_lt_Some).
  rewrite (st_bind_Ok _ _ _ _ _ (deref_otp _ _ _ Hx')), (rd_original _ _ _ Hres), (update_ok k _ x') by done.
  do 2 eexists. split; [done|].
  assert (cell m ids false o (set_depth 0 (set_object (plain o) x'))) as Hc.
  { apply cell_whole; [|done|]; cbn; [rewrite (rd_base _ _ _ Hres); congruence|apply (rd_original _ _ _ Hres)]. }
  split_and!; try done.
  - split; [done..|]. cbn. rewrite list_insert_insert_eq. eapply heap_ok_insert; [apply Hg|done| |done].
    destruct Hc; [by apply cell_whole|by eapply cell_delta|done].
  - split; [|done]. cbn. by rewrite list_insert_insert_eq.
  - cbn. rewrite (rd_base _ _ _ Hres). congruence.
  - cbn. apply (rd_offset _ _ _ Hres).
Qed.

(** *** Loading the objects *)

Record fresh (w : Z) (o : Object.EncodedObject) (x : ObjectToPack) : Prop := {
  fr_cell : cell m ids true o x;
  fr_whole : w = 0 \/ DeltaObject (S := S) = None -> cell m ids false o x;
  fr_base : otp_Base x = None;
  fr_depth : otp_Depth x = 0;
  fr_offset : otp_Offset x = 0;
}.

Lemma newObjectToPack_fresh w o : fresh w o (newObjectToPack (plain o)).
Proof. assert (forall pd, cell m ids pd o (newObjectToPack (plain o))) by (intros; by apply cell_whole). by split. Qed.

Context `{!LawfulDeltas S}.

Lemma load_one w h o p : objs_ok (pk_storer p) -> objs (pk_storer p) = m -> m !! h = Some o -> eo_Hash o = h ->
  exists x st', (if w =? 0 then encodedObject h else encodedDeltaObject h) p = (Ok x, Build_Packing (pk_heap p) st' (pk_out p))
    /\ objs_ok st' /\ objs st' = m
    /\ fresh w o (match po_delta x with Some _ => CleanOriginal (newObjectToPack x) | None => newObjectToPack x end).
Proof.
  intros Hok Hm Ho Hh. assert (exists st', encodedObject h p = (Ok (plain o), Build_Packing (pk_heap p) st' (pk_out p)) /\ objs_ok st' /\ objs st' = m) as He.
  { destruct (encodedObject_ok p h o Hok) as (st' & He & Hok' & Hm'); [by rewrite Hm|]. exists st'. by rewrite <-Hm. }
  assert (forall r : outcome pack_error PackObject * Packing S, (exists st', r = (Ok (plain o), Build_Packing (pk_heap p) st' (pk_out p)) /\ objs_ok st' /\ objs st' = m) ->
    exists x st', r = (Ok x, Build_Packing (pk_heap p) st' (pk_out p)) /\ objs_ok st' /\ objs st' = m
      /\ fresh w o (match po_delta x with Some _ => CleanOriginal (newObjectToPack x) | None => newObjectToPack x end)) as Hplain.
  { intros r (st' & -> & Hok' & Hm'). exists (plain o), st'. split_and!; [done..|]. apply newObjectToPack_fresh. }
  destruct (Z.eqb_spec w 0) as [Hw|Hw]; [by apply Hplain|]. unfold encodedDeltaObject.
  destruct DeltaObject as [get|] eqn:Hget; [|by apply Hplain].
  destruct (law_DeltaObject get Hget (pk_storer p) h Hok) as (r & st' & Hr & Hok' & Hm' & Hx). rewrite Hm, Ho in Hx.
  destruct Hx as (x & -> & [->|Hru]); unfold on_storer; rewrite Hr; cbn [map_err].
  - apply Hplain. exists st'. by rewrite Hm'.
  - exists x, st'. split_and!; [done|done|by rewrite Hm'|]. destruct (ru_info _ _ _ _ Hru) as (d & Hd & _). rewrite Hd.
    split; cbn; try done.
    + apply cell_pending; cbn; try done. by rewrite Hh.
    + intros [?|?]; congruence.
Qed.

Lemma load_ok w hashes : forall done p, ids = done ++ hashes -> objs_ok (pk_storer p) -> objs (pk_storer p) = m ->
  length (pk_heap p) = length done -> (forall k x, pk_heap p !! k = Some x -> exists o, object_at m ids k o /\ fresh w o x) ->
  exists p', load hashes w p = (Ok (seq (length done) (length hashes)), p') /\ objs_ok (pk_storer p') /\ objs (pk_storer p') = m
    /\ length (pk_heap p') = length ids /\ pk_out p' = pk_out p
    /\ (forall k x, pk_heap p' !! k = Some x -> exists o, object_at m ids k o /\ fresh w o x).
Proof.
  induction hashes as [|h hashes IH]; intros done p Hids Hok Hm Hl Hcells; cbn [load].
  - exists p. rewrite app_nil_r in Hids. subst done. done.
  - destruct (Hreq h) as (o & Ho & Hh & _). { rewrite Hids. apply elem_of_app. right. by left. }
    destruct (load_one w h o p Hok Hm Ho Hh) as (x & st' & Hx & Hok' & Hm' & Hfr).
    rewrite (st_bind_Ok _ _ _ _ _ Hx).
    set (otp := match po_delta x with Some _ => _ | None => _ end) in *.
    set (p2 := Build_Packing (pk_heap p ++ [otp]) st' (pk_out p)).
    destruct (IH (done ++ [h]) p2) as (p' & Hp' & Hok2 & Hm2 & Hl2 & Hout & Hc2).
    + by rewrite <-app_assoc.
    + done.
    + done.
    + cbn. rewrite !length_app, Hl. done.
    + intros k y Hy. cbn in Hy. apply lookup_snoc_Some in Hy as [[Hlt Hy]|[Hk ->]]; [by apply Hcells|].
      exists o. split; [|done]. exists h. split; [|done]. subst k. rewrite Hids, Hl, lookup_app_r, Nat.sub_diag by done. done.
    + exists p'. split; [|done]. rewrite (st_bind_Ok (alloc otp) _ (Build_Packing (pk_heap p) st' (pk_out p)) (length (pk_heap p)) p2 eq_refl), (st_bind_Ok _ _ _ _ _ Hp'). rewrite Hl. cbn [length seq]. rewrite length_app. cbn [length]. by rewrite Nat.add_1_r.
Qed.

(** *** Breaking the chains *)

Definition deltas (heap : list ObjectToPack) : Z := len (filter (fun x => otp_IsDelta x = true) heap).

Lemma deltas_insert heap k x x' : heap !! k = Some x -> otp_Base x = None ->
  deltas (<[k := x']> heap) = deltas heap + (if otp_IsDelta x' then 1 else 0).
Proof.
  intros Hk Hb. unfold deltas. rewrite <-(take_drop_middle heap k x Hk) at 2.
  rewrite insert_take_drop by (by eapply lookup_lt_Some). rewrite !filter_app, !len_app.
  rewrite (filter_cons_False _ x) by (unfold otp_IsDelta; rewrite Hb; done).
  destruct (otp_IsDelta x') eqn:Hd; [rewrite filter_cons_True by done; rewrite len_cons; lia|].
  rewrite filter_cons_False by congruence. lia.
Qed.

Lemma deltas_len heap : deltas heap <= len heap.
Proof. unfold deltas, len. pose proof (length_filter (fun x => otp_IsDelta x = true) heap). lia. Qed.

(** The objects whose chains are dealt with are no longer pending, nor are
    their bases. *)
Record fixing p : Prop := {
  fx_good : good true p;
  fx_offsets : unwritten (pk_heap p);
  fx_bases : forall k x b, pk_heap p !! k = Some x -> otp_Base x = Some b ->
    exists y ob, pk_heap p !! b = Some y /\ object_at m ids b ob /\ cell m ids false ob y /\ otp_Depth y < otp_Depth x;
  fx_depth : forall k x, pk_heap p !! k = Some x -> otp_Depth x <= deltas (pk_heap p);
}.

Lemma plain_no_delta k o : object_at m ids k o -> IsDelta (eo_Type o) = false.
Proof. intros Hk. destruct (object_at_facts m ids Hreq k o Hk) as (_ & _ & Hs & _). by destruct (eo_Type o). Qed.

Lemma pending_not_done k o x : object_at m ids k o -> otp_Base x = None -> IsDelta (po_Type (otp_Object x)) = true -> ~ cell m ids false o x.
Proof.
  intros Hk Hb Hd [_ Ho _|b ob Hb' _ _ _ _|]; [|congruence|done]. rewrite Ho in Hd. cbn in Hd. by rewrite (plain_no_delta k o Hk) in Hd.
Qed.

Lemma fixing_step p p' i o x x' : fixing p -> object_at m ids i o -> pk_heap p !! i = Some x -> otp_Base x = None ->
  IsDelta (po_Type (otp_Object x)) = true -> good true p' -> changes i x' p p' -> cell m ids false o x' -> otp_Offset x' = otp_Offset x ->
  (otp_Base x' = None /\ otp_Depth x' = 0 \/ exists b y ob, otp_Base x' = Some b /\ b <> i /\ pk_heap p !! b = Some y
     /\ object_at m ids b ob /\ cell m ids false ob y /\ otp_Depth x' = otp_Depth y + 1) ->
  fixing p'.
Proof.
  intros [Hg Ho Hbs Hds] Hi Hx Hb Hty Hg' [Hh _] Hc Hoff Hx'. split; [done|..]; rewrite Hh.
  - apply unwritten_insert; [done|]. rewrite Hoff. by eapply Ho.
  - intros k z b [(<- & <- & Hlt)|[Hne Hk]]%list_lookup_insert_Some Hzb.
    + destruct Hx' as [[Hn _]|(b' & y & ob & Hb' & Hne & Hy & Hob & Hcy & Hd)]; [congruence|].
      rewrite Hb' in Hzb. injection Hzb as <-. exists y, ob. rewrite list_lookup_insert_ne by done. split_and!; (done || lia).
    + destruct (Hbs k z b Hk Hzb) as (y & ob & Hy & Hob & Hcy & Hd). destruct (decide (b = i)) as [->|Hbi].
      { rewrite Hx in Hy. injection Hy as <-. destruct (pending_not_done i ob x Hob Hb Hty Hcy). }
      exists y, ob. rewrite list_lookup_insert_ne by done. done.
  - intros k z Hk. rewrite (deltas_insert _ _ x) by done. apply list_lookup_insert_Some in Hk as [(<- & <- & Hlt)|[Hne Hk]].
    + unfold otp_IsDelta. destruct Hx' as [[-> ->]|(b' & y & ob & -> & _ & Hy & _ & _ & ->)]; [unfold deltas; pose proof (len_nonneg (filter (fun x => otp_IsDelta x = true) (pk_heap p))); lia|].
      specialize (Hds b' y Hy). lia.
    + specialize (Hds k z Hk). destruct (otp_IsDelta x'); lia.
Qed.

Lemma fix_undeltify p i o x : fixing p -> object_at m ids i o -> pk_heap p !! i = Some x -> otp_Base x = None ->
  IsDelta (po_Type (otp_Object x)) = true ->
  exists p' x', undeltify i p = (Ok tt, p') /\ fixing p' /\ changes i x' p p' /\ cell m ids false o x'.
Proof.
  intros Hf Hi Hx Hb Hty. destruct (undeltify_ok p i o x (fx_good _ Hf) Hi Hx Hb) as (p' & x' & Hu & Hg & Hch & Hc & Hb' & Hd & Ho).
  exists p', x'. split; [done|]. split; [|done]. eapply fixing_step; try done. by left.
Qed.

(** What is done, or on the path, is left alone. *)
Definition keeps (visiting : gset ObjectID) p p' : Prop :=
  pk_out p' = pk_out p /\ forall k y o, object_at m ids k o -> pk_heap p !! k = Some y ->
    cell m ids false o y \/ eo_Hash o ∈ visiting -> pk_heap p' !! k = Some y.

Lemma keeps_changes visiting p p' i o x x' : object_at m ids i o -> eo_Hash o ∉ visiting -> pk_heap p !! i = Some x ->
  ~ cell m ids false o x -> changes i x' p p' -> keeps visiting p p'.
Proof.
  intros Hi Hv Hx Hnc [Hh Hout]. split; [done|]. intros k y ok Hk Hy Hor. rewrite Hh.
  destruct (decide (k = i)) as [->|Hne]; [|by rewrite list_lookup_insert_ne].
  rewrite Hx in Hy. injection Hy as <-. rewrite (object_at_det m ids _ _ _ Hk Hi) in Hor. by destruct Hor.
Qed.

#[local] Notation all_ids := (list_to_set ids : gset ObjectID).

Lemma fixAndBreakChainsOne_ok M fuel : len ids < 2 ^ 26 -> forall i visiting p o x,
  (forall h j, M !! h = Some j -> ids !! j = Some h) -> (size (all_ids ∖ visiting) < fuel)%nat ->
  fixing p -> object_at m ids i o -> pk_heap p !! i = Some x -> eo_Hash o ∉ visiting ->
  exists p', fixAndBreakChainsOne fuel M i visiting p = (Ok tt, p') /\ fixing p' /\ keeps visiting p p'
    /\ exists x', pk_heap p' !! i = Some x' /\ cell m ids false o x'.
Proof.
  intros Hcount. induction fuel as [|f IH]; intros i visiting p o x HM Hsize Hf Hi Hx Hv; [lia|]. cbn [fixAndBreakChainsOne].
  rewrite (st_bind_Ok _ _ _ _ _ (deref_otp _ _ _ Hx)).
  assert (keeps visiting p p) as Hid by done.
  destruct (good_lookup true p i o (fx_good _ Hf) Hi) as (x0 & Hx0 & Hc). rewrite Hx in Hx0. injection Hx0 as <-.
  destruct Hc as [Hb Ho Hor|b ob Hb Hob Hd Hn Hkn|_ Hb Hr Hor Hres].
  - rewrite Ho. cbn [po_Type plain]. rewrite (plain_no_delta i o Hi). cbn [negb].
    exists p. split; [done|]. split; [done|]. split; [done|]. exists x. split; [done|]. by apply cell_whole.
  - rewrite (dv_delta _ _ _ Hd), Hb. cbn [negb].
    exists p. split; [done|]. split; [done|]. split; [done|]. exists x. split; [done|]. by eapply cell_delta.
  - pose proof (ru_type _ _ _ _ Hr) as Hty. pose proof (pending_not_done i o x Hi Hb Hty) as Hnc.
    rewrite Hty, Hb. cbn [negb]. destruct (ru_info _ _ _ _ Hr) as (d & Hd & Ha & Hpatch). rewrite Hd.
    assert (exists p', undeltify i p = (Ok tt, p') /\ fixing p' /\ keeps visiting p p'
      /\ exists x', pk_heap p' !! i = Some x' /\ cell m ids false o x') as Hun.
    { destruct (fix_undeltify p i o x Hf Hi Hx Hb Hty) as (p' & x' & Hu & Hf' & Hch & Hc'). exists p'. split; [done|]. split; [done|].
      split; [by eapply keeps_changes|]. exists x'. split; [|done]. rewrite (proj1 Hch). apply list_lookup_insert_eq. by eapply lookup_lt_Some. }
    destruct (M !! BaseHash d) as [base|] eqn:HMb; [|done].
    rewrite (st_bind_Ok _ _ _ _ _ (Hash_ok true p i o (fx_good _ Hf) Hi)). set (visiting' := {[eo_Hash o]} ∪ visiting).
    destruct (decide (BaseHash d ∈ visiting')) as [Hin|Hnin]; [done|].
    specialize (HM _ _ HMb) as Hbase. destruct (object_at_some m ids Hreq base) as [ob Hob]; [by eapply lookup_lt_Some|].
    assert (eo_Hash ob = BaseHash d) as Hbh. { destruct (object_at_facts m ids Hreq _ _ Hob) as [Hid' _]. congruence. }
    assert (base <> i) as Hbi. { intros ->. apply Hnin. rewrite <-Hbh, (object_at_det m ids _ _ _ Hob Hi). unfold visiting'. set_solver. }
    destruct (good_lookup true p base ob (fx_good _ Hf) Hob) as (y & Hy & _).
    destruct (IH base visiting' p ob y HM) as (p1 & Hp1 & Hf1 & [Hout1 Hkeep1] & y1 & Hy1 & Hcy1); try done.
    { assert (eo_Hash o ∈ all_ids ∖ visiting). { apply elem_of_difference. split; [|done]. apply elem_of_list_to_set. destruct (object_at_facts m ids Hreq _ _ Hi) as [Hid' _]. by eapply list_elem_of_lookup_2. }
      assert (size (all_ids ∖ visiting') < size (all_ids ∖ visiting))%nat; [|lia]. apply subset_size. unfold visiting'. set_solver. }
    { by rewrite Hbh. }
    rewrite (st_bind_Ok _ _ _ _ _ Hp1), (st_bind_Ok _ _ _ _ _ (deref_otp _ _ _ Hy1)).
    assert (pk_heap p1 !! i = Some x) as Hx1. { eapply Hkeep1; [done..|]. right. unfold visiting'. set_solver. }
    rewrite (update_ok i _ x) by done. set (x' := SetDelta base (otp_Depth y1) (otp_Object x) x).
    assert (0 <= otp_Depth y1 < 2 ^ 26) as Hdy.
    { split; [apply (hk_depth _ _ _ _ (gd_heap _ _ (fx_good _ Hf1)) _ _ Hy1)|]. pose proof (fx_depth _ Hf1 _ _ Hy1). pose proof (deltas_len (pk_heap p1)).
      pose proof (hk_length _ _ _ _ (gd_heap _ _ (fx_good _ Hf1))) as Hl. unfold len in *. lia. }
    assert (otp_Depth x' = otp_Depth y1 + 1) as Hdx by (unfold x'; cbn; apply i64_small; lia).
    assert (cell m ids false o x') as Hc'.
    { eapply (cell_delta _ _ _ _ _ base ob); [done|done| |apply Hr|].
      - destruct (object_at_facts m ids Hreq _ _ Hob) as (_ & Hmb & _). rewrite Hbh in Hmb. destruct (Hpatch ob Hmb) as [Ht Hp]. split; try done; apply Hr.
      - right. split; [done|]. right. split; [done|]. by exists d. }
    eexists. split; [done|]. set (p2 := with_heap _ p1).
    assert (changes i x' p1 p2) as Hch by done.
    assert (good true p2) as Hg2.
    { split; [apply Hf1|apply Hf1|]. cbn. eapply heap_ok_insert; [apply Hf1|done| |lia]. destruct Hc'; [by apply cell_whole|by eapply cell_delta|done]. }
    split; [eapply (fixing_step p1 p2 i o x x'); try done|split].
    + right. exists base, y1, ob. done.
    + split; [done|]. intros k z ok Hk Hz Hor'. cbn.
      rewrite list_lookup_insert_ne. { eapply Hkeep1; [done..|]. destruct Hor'; [by left|]. right. unfold visiting'. set_solver. }
      intros <-. rewrite Hx in Hz. injection Hz as <-. rewrite (object_at_det m ids _ _ _ Hk Hi) in Hor'. by destruct Hor'.
    + exists x'. split; [|done]. cbn. apply list_lookup_insert_eq. by eapply lookup_lt_Some.
Qed.

Lemma by_hash_ok pd l : forall p M, good pd p -> (forall i, i ∈ l -> (i < length ids)%nat) -> (forall h j, M !! h = Some j -> ids !! j = Some h) ->
  exists M', by_hash l M p = (Ok M', p) /\ forall h j, M' !! h = Some j -> ids !! j = Some h.
Proof.
  induction l as [|i l IH]; intros p M Hg Hl HM; cbn [by_hash]; [by exists M|].
  destruct (object_at_some m ids Hreq i) as [o Ho]; [apply Hl; by left|].
  rewrite (st_bind_Ok _ _ _ _ _ (Hash_ok pd p i o Hg Ho)). apply IH; [done|intros; apply Hl; by right|].
  intros h j [[<- <-]|[Hne Hj]]%lookup_insert_Some; [|by apply HM]. by destruct (object_at_facts m ids Hreq _ _ Ho).
Qed.

(** What a selection starts from. *)
Record selecting p : Prop := {
  se_good : good false p;
  se_offsets : unwritten (pk_heap p);
  se_typed : typed (pk_heap p);
  se_whole : DeltaObject (S := S) = None -> forall k x, pk_heap p !! k = Some x -> otp_Base x = None;
}.

Lemma size_ids (l : list ObjectID) : (size (list_to_set l : gset ObjectID) <= length l)%nat.
Proof.
  induction l as [|h l IH]; cbn; [by rewrite size_empty|]. rewrite size_union_alt, size_singleton.
  pose proof (subseteq_size (list_to_set l ∖ {[h]} : gset ObjectID) (list_to_set l) ltac:(set_solver)). lia.
Qed.

Lemma fix_each M l : len ids < 2 ^ 26 -> (forall h j, M !! h = Some j -> ids !! j = Some h) -> (forall i, i ∈ l -> (i < length ids)%nat) ->
  forall p, fixing p -> exists p', st_each (fun i => fixAndBreakChainsOne (Datatypes.S (length ids)) M i ∅) l p = (Ok tt, p')
    /\ fixing p' /\ keeps ∅ p p' /\ forall i, i ∈ l -> exists x o, pk_heap p' !! i = Some x /\ object_at m ids i o /\ cell m ids false o x.
Proof.
  intros Hn HM. induction l as [|i l IH]; intros Hl p Hf; cbn [st_each].
  - exists p. split; [done|]. split; [done|]. split; [done|]. by intros i Hi%elem_of_nil.
  - destruct (object_at_some m ids Hreq i) as [o Ho]; [apply Hl; by left|].
    destruct (good_lookup true p i o (fx_good _ Hf) Ho) as (x & Hx & _).
    destruct (fixAndBreakChainsOne_ok M (Datatypes.S (length ids)) Hn i ∅ p o x HM) as (p1 & Hp1 & Hf1 & [Hout1 Hk1] & x1 & Hx1 & Hc1); try done.
    { pose proof (size_ids ids). rewrite difference_empty_L. lia. }
    rewrite (st_bind_Ok _ _ _ _ _ Hp1). destruct (IH ltac:(intros; apply Hl; by right) p1 Hf1) as (p2 & Hp2 & Hf2 & [Hout2 Hk2] & Hdone).
    exists p2. split; [done|]. split; [done|]. split.
    + split; [congruence|]. intros k y ok Hk Hy Hor. eapply Hk2; [done|by eapply Hk1|done].
    + intros j [->|Hj]%elem_of_cons; [|by apply Hdone]. exists x1, o. split; [|done]. eapply Hk2; [done..|by left].
Qed.

Lemma fixing_selecting p : fixing p -> DeltaObject (S := S) <> None ->
  (forall i, (i < length ids)%nat -> exists x o, pk_heap p !! i = Some x /\ object_at m ids i o /\ cell m ids false o x) -> selecting p.
Proof.
  intros [Hg Ho Hb Hd] Hdo Hdone. pose proof (hk_length _ _ _ _ (gd_heap _ _ Hg)) as Hlen. split; [|done| |done].
  - split; [apply Hg|apply Hg|]. split; [done| |apply (gd_heap _ _ Hg)].
    intros k x Hx. destruct (Hdone k) as (x' & o & Hx' & Hok & Hc); [rewrite <-Hlen; by eapply lookup_lt_Some|]. rewrite Hx in Hx'. injection Hx' as <-. by exists o.
  - exists (fun k => match pk_heap p !! k with Some x => Z.to_nat (otp_Depth x) | None => 0%nat end). split.
    + intros k. destruct (pk_heap p !! k) as [x|] eqn:Hx; [|lia]. pose proof (Hd k x Hx). pose proof (deltas_len (pk_heap p)). unfold len in *. lia.
    + intros k x b Hx Hxb _ _. destruct (Hb k x b Hx Hxb) as (y & ob & Hy & _ & _ & Hlt). rewrite Hx, Hy.
      pose proof (hk_depth _ _ _ _ (gd_heap _ _ Hg) b y Hy). lia.
Qed.

Lemma fix_whole n M l p : good false p -> (forall k x, pk_heap p !! k = Some x -> otp_Base x = None) -> (forall i, i ∈ l -> (i < length ids)%nat) ->
  st_each (fun i => fixAndBreakChainsOne (Datatypes.S n) M i ∅) l p = (Ok tt, p).
Proof.
  intros Hg Hw. induction l as [|i l IH]; intros Hl; [done|]. cbn [st_each fixAndBreakChainsOne].
  destruct (object_at_some m ids Hreq i) as [o Ho]; [apply Hl; by left|].
  destruct (good_lookup false p i o Hg Ho) as (x & Hx & Hc).
  refine (eq_trans (st_bind_Ok _ _ p tt p _) _); [|apply IH; intros; apply Hl; by right].
  rewrite (st_bind_Ok _ _ _ _ _ (deref_otp _ _ _ Hx)).
  destruct Hc as [Hb Hob _|b ob Hb _ _ _ _|]; [|by rewrite (Hw i x Hx) in Hb|done].
  rewrite Hob. cbn [po_Type plain]. by rewrite (plain_no_delta i o Ho).
Qed.

Hypothesis Hreuse : DeltaObject (S := S) = None \/ len ids < 2 ^ 26.

Lemma objectsToPack_ok w p : objs_ok (pk_storer p) -> objs (pk_storer p) = m -> pk_heap p = [] ->
  exists p', objectsToPack ids w p = (Ok (seq 0 (length ids)), p') /\ selecting p' /\ pk_out p' = pk_out p
    /\ (w = 0 -> forall k x, pk_heap p' !! k = Some x -> otp_Base x = None).
Proof.
  intros Hok Hm Hh. unfold objectsToPack.
  destruct (load_ok w ids [] p eq_refl Hok Hm) as (p1 & Hp1 & Hok1 & Hm1 & Hl1 & Hout1 & Hc1); [by rewrite Hh|by rewrite Hh|].
  rewrite (st_bind_Ok _ _ _ _ _ Hp1). cbn [length].
  assert (good true p1 /\ unwritten (pk_heap p1)) as [Hg1 Ho1].
  { split; [split; [done..|]; split; [done|..]|].
    - intros k x Hx. destruct (Hc1 k x Hx) as (o & Hk & Hfr). exists o. split; [done|apply Hfr].
    - intros k x Hx. destruct (Hc1 k x Hx) as (o & Hk & Hfr). rewrite (fr_depth _ _ _ Hfr). lia.
    - intros k x Hx. destruct (Hc1 k x Hx) as (o & Hk & Hfr). apply Hfr. }
  assert (forall k x, pk_heap p1 !! k = Some x -> otp_Base x = None) as Hb1.
  { intros k x Hx. destruct (Hc1 k x Hx) as (o & Hk & Hfr). apply Hfr. }
  assert (w = 0 \/ DeltaObject (S := S) = None -> selecting p1) as Hwhole.
  { intros Hw. split; [|done| |done].
    - split; [done..|]. split; [done| |apply (gd_heap _ _ Hg1)]. intros k x Hx. destruct (Hc1 k x Hx) as (o & Hk & Hfr).
      exists o. split; [done|by apply (fr_whole _ _ _ Hfr)].
    - exists (fun _ => 0%nat). split; [lia|]. intros k x b Hx Hb. by rewrite (Hb1 k x Hx) in Hb. }
  destruct (Z.eqb_spec w 0) as [Hw|Hw].
  { exists p1. split; [done|]. split; [apply Hwhole; by left|]. done. }
  unfold fixAndBreakChains. assert (forall i, i ∈ seq 0 (length ids) -> (i < length ids)%nat) as Hin by (intros i Hi%elem_of_seq; lia).
  destruct (by_hash_ok true (seq 0 (length ids)) p1 ∅ Hg1 Hin) as (M & HM & HMs); [intros h j; by rewrite lookup_empty|].
  rewrite length_seq.
  destruct (decide (DeltaObject (S := S) = None)) as [Hdo|Hdo].
  - exists p1. split; [|split; [apply Hwhole; by right|done]].
    refine (st_bind_Ok _ _ p1 tt p1 _). rewrite (st_bind_Ok _ _ _ _ _ HM). apply fix_whole; [|done..].
    apply Hwhole. by right.
  - destruct Hreuse as [|Hn]; [done|].
    destruct (fix_each M (seq 0 (length ids)) Hn HMs Hin p1) as (p2 & Hp2 & Hf2 & [Hout2 _] & Hdone).
    { split; [done..| |].
      - intros k x b Hx Hb. by rewrite (Hb1 k x Hx) in Hb.
      - intros k x Hx. destruct (Hc1 k x Hx) as (o & Hk & Hfr). rewrite (fr_depth _ _ _ Hfr). unfold deltas. apply len_nonneg. }
    exists p2. split; [|split; [|split; [congruence|done]]].
    + refine (st_bind_Ok _ _ p1 tt p2 _). by rewrite (st_bind_Ok _ _ _ _ _ HM).
    + apply fixing_selecting; [done..|]. intros i Hi. apply Hdone. apply elem_of_seq. lia.
Qed.

(** *** Trying a base *)

Record walking (unused : nat -> Prop) p : Prop := {
  wk_good : good false p;
  wk_offsets : unwritten (pk_heap p);
  wk_typed : typed (pk_heap p);
  wk_ranked : DeltaObject (S := S) = None -> ranked unused (pk_heap p);
}.

(** An index is that of the object of its identifier. *)
Definition indexes (M : gmap ObjectID deltaIndex) : Prop :=
  forall h idx o, M !! h = Some idx -> m !! h = Some o -> index_ok (eo_Data o) idx.

(** A base of a non-empty object has to be one. *)
Definition pair (b t : nat) : Prop := forall ob ot, object_at m ids b ob -> object_at m ids t ot ->
  eo_Type ob = eo_Type ot -> eo_Data ot <> [] -> eo_Data ob <> [].

(** What was a delta stays one; nothing is written. *)
Definition grows p p' : Prop :=
  pk_out p' = pk_out p /\ forall k x', pk_heap p' !! k = Some x' -> otp_Base x' = None -> exists x, pk_heap p !! k = Some x /\ otp_Base x = None.

Lemma grows_refl p : grows p p.
Proof. split; [done|]. intros k x Hx Hb. by exists x. Qed.

Lemma grows_trans p1 p2 p3 : grows p1 p2 -> grows p2 p3 -> grows p1 p3.
Proof.
  intros [Ho H1'] [Ho' H2']. split; [congruence|]. intros k x Hx Hb. destruct (H2' k x Hx Hb) as (y & Hy & Hyb). eauto.
Qed.

Lemma grows_changes p p' k x x' : pk_heap p !! k = Some x -> changes k x' p p' -> (otp_Base x' = None -> otp_Base x = None) -> grows p p'.
Proof.
  intros Hx [Hh Ho] Hb. split; [done|]. intros j y. rewrite Hh. intros [(<- & <- & _)|[Hne Hj]]%list_lookup_insert_Some Hy; eauto.
Qed.

Lemma walking_restore U p k o : walking U p -> object_at m ids k o ->
  exists p' x x', restoreOriginal k p = (Ok tt, p') /\ walking U p' /\ grows p p' /\ pk_heap p !! k = Some x /\ changes k x' p p' /\ restored o x x'.
Proof.
  intros [Hg Ho Ht Hr] Hk. destruct (good_lookup false p k o Hg Hk) as (x & Hx & _).
  destruct (restoreOriginal_ok p k o x Hg Hk Hx) as (p' & x' & Hp' & Hg' & Hch & Hres & Hc). exists p', x, x'. split; [done|].
  split; [|split; [|done]].
  - destruct Hch as [Hh _]. split; [done|..]; rewrite Hh.
    + apply unwritten_insert; [done|]. rewrite (rd_offset _ _ _ Hres). by eapply Ho.
    + by eapply typed_restored.
    + intros Hdo. eapply ranked_restored; [by apply Hr|done..].
  - eapply grows_changes; [done..|]. by rewrite (rd_base _ _ _ Hres).
Qed.

Lemma deltaSizeLimit_spec sz bd td d : 0 <= sz < 2 ^ 36 -> 0 <= bd <= 2 ^ 26 -> 0 <= td <= 2 ^ 26 ->
  8 < deltaSizeLimit sz bd td d -> bd < 50 /\ 0 < sz.
Proof.
  intros Hs Hbd Htd. unfold deltaSizeLimit, maxDepth. rewrite (i64_id (50 - bd)) by lia.
  assert (0 <= Z.shiftr sz 1 <= sz) as Hn. { rewrite Z.shiftr_div_pow2 by lia. split; [apply Z.div_pos; lia|apply Z.div_le_upper_bound; lia]. }
  assert (forall a, 0 <= a <= sz -> i64 (a * (50 - bd)) = a * (50 - bd)) as Hi. { intros a Ha. apply i64_id. nia. }
  assert (forall a c, 0 <= a <= sz -> 0 < c -> 8 < Z.quot (a * (50 - bd)) c -> bd < 50 /\ 0 < sz) as Hq.
  { intros a c Ha Hc Hq. assert (0 < a * (50 - bd)); [|nia].
    destruct (Z.le_gt_cases (a * (50 - bd)) 0) as [Hle|]; [|done].
    assert (Z.quot (a * (50 - bd)) c <= 0); [|lia]. rewrite <-(Z.opp_involutive (a * (50 - bd))), Z.quot_opp_l by lia.
    pose proof (Z.quot_pos (- (a * (50 - bd))) c ltac:(lia) Hc). lia. }
  destruct (negb d).
  - rewrite Hi by lia. apply Hq; lia.
  - rewrite Z.geb_leb. destruct (Z.leb_spec 50 td); [lia|]. rewrite Hi, i64_id by lia. apply Hq; lia.
Qed.

Lemma getDelta_ok idx bo to p : bytes_ok (eo_Data bo) -> bytes_ok (eo_Data to) -> 0 < len (eo_Data bo) <= 2 ^ 32 -> len (eo_Data to) <= 2 ^ 32 ->
  idx = new_deltaIndex \/ index_ok (eo_Data bo) idx ->
  exists delta idx', getDelta digest idx (plain bo) (plain to) p = (Ok (delta, idx'), p)
    /\ index_ok (eo_Data bo) idx' /\ (eo_Type bo = eo_Type to -> delta_over bo to delta) .
Proof.
  intros Hb1 Hb2 Hl1 Hl2 Hidx.
  destruct (ensures_inv _ _ (diffDelta_patches idx _ _ Hb1 Hb2 Hl1 ltac:(lia) Hidx)) as ([db idx'] & Hd & Hok & Hp & Hidx' & Hlen).
  unfold getDelta. cbn [po_Data plain]. rewrite Hd.
  do 2 eexists. split; [reflexivity|]. split; [done|]. intros Ht. split; cbn; (done || lia).
Qed.

Lemma tryToDeltify_ok U p M b t ob ot : walking U p -> indexes M -> object_at m ids b ob -> object_at m ids t ot -> eo_Type ob = eo_Type ot ->
  pair b t -> U t -> ~ U b ->
  exists M' p', tryToDeltify digest M b t p = (Ok M', p') /\ walking U p' /\ indexes M' /\ grows p p'.
Proof.
  intros Hw HM Hb Ht Hty Hpair HUt HUb. assert (b <> t) as Hne by by intros ->.
  unfold tryToDeltify.
  destruct (walking_restore U p t ot Hw Ht) as (p1 & t0 & t1 & Hr1 & Hw1 & Hgr1 & Ht0 & [Hch1 _] & Hres1).
  rewrite (st_bind_Ok _ _ _ _ _ Hr1).
  destruct (walking_restore U p1 b ob Hw1 Hb) as (p2 & b0 & b1 & Hr2 & Hw2 & Hgr2 & Hb0 & [Hch2 _] & Hres2).
  rewrite (st_bind_Ok _ _ _ _ _ Hr2).
  assert (pk_heap p2 !! b = Some b1) as Hb1 by (rewrite Hch2; apply list_lookup_insert_eq; by eapply lookup_lt_Some).
  assert (pk_heap p2 !! t = Some t1) as Ht1.
  { rewrite Hch2, list_lookup_insert_ne by done. rewrite Hch1. apply list_lookup_insert_eq. by eapply lookup_lt_Some. }
  pose proof (rd_original _ _ _ Hres1) as Hto. pose proof (rd_original _ _ _ Hres2) as Hbo.
  destruct (Size_ok false p2 t ot t1 (wk_good _ _ Hw2) Ht Ht1) as (ts & Hts & _ & Hl1). rewrite (Hl1 Hto) in Hts. rewrite (st_bind_Ok _ _ _ _ _ Hts). clear ts Hts Hl1.
  destruct (Size_ok false p2 b ob b1 (wk_good _ _ Hw2) Hb Hb1) as (bsz & Hbs & _ & Hl1). rewrite (Hl1 Hbo) in Hbs. rewrite (st_bind_Ok _ _ _ _ _ Hbs). clear bsz Hbs Hl1.
  assert (exists M' p', (mret M : ST pack_error (Packing S) _) p2 = (Ok M', p') /\ walking U p' /\ indexes M' /\ grows p p') as Hskip.
  { exists M, p2. split; [done|]. split; [done|]. split; [done|]. by eapply grows_trans. }
  destruct (_ <? Z.shiftr _ _); [done|].
  rewrite (st_bind_Ok _ _ _ _ _ (deref_otp _ _ _ Hb1)), (st_bind_Ok _ _ _ _ _ (deref_otp _ _ _ Ht1)). set (msz := deltaSizeLimit _ _ _ _).
  destruct (Z.leb_spec msz 8) as [|Hmsz]; [done|]. destruct (i64 _ >? msz); [done|].
  rewrite (st_bind_Ok _ _ _ _ _ (Hash_ok false p2 b ob (wk_good _ _ Hw2) Hb)), Hbo, Hto.
  destruct (object_at_facts m ids Hreq b ob Hb) as (_ & Hmb & _ & Hbb & Hlb). destruct (object_at_facts m ids Hreq t ot Ht) as (_ & _ & _ & Hbt & Hlt).
  destruct (good_cell false p2 t t1 (wk_good _ _ Hw2) Ht1) as (o' & Ho' & Hct). rewrite (object_at_det m ids _ _ _ Ho' Ht) in Hct. clear o' Ho'.
  pose proof (hk_depth _ _ _ _ (gd_heap _ _ (wk_good _ _ Hw2)) b b1 Hb1) as Hdb. pose proof (hk_depth _ _ _ _ (gd_heap _ _ (wk_good _ _ Hw2)) t t1 Ht1) as Hdt.
  assert (0 <= po_Size (otp_Object t1) < 2 ^ 36) as Hsz.
  { split; [apply len_nonneg|]. destruct Hct as [_ -> _|? ? _ _ Hd _ _|]; [cbn; unfold po_Size; cbn; lia|apply (dv_len _ _ _ Hd)|done]. }
  destruct (deltaSizeLimit_spec _ _ _ _ Hsz Hdb Hdt Hmsz) as [Hd50 Hpos].
  assert (eo_Data ot <> []) as Hnt.
  { destruct Hct as [_ Ho _|? ? _ _ _ Hnn _|]; [|done|done]. rewrite Ho in Hpos. unfold po_Size in Hpos. cbn in Hpos. intros Hn. rewrite Hn in Hpos. by cbn in Hpos. }
  assert (0 < len (eo_Data ob)) as Hlb0. { pose proof (Hpair ob ot Hb Ht Hty Hnt). destruct (eo_Data ob); [done|]. rewrite len_cons. pose proof (len_nonneg l). lia. }
  destruct (getDelta_ok (default new_deltaIndex (M !! eo_Hash ob)) ob ot p2 Hbb Hbt ltac:(lia) Hlt) as (delta & idx' & Hgd & Hidx & Hdel).
  { destruct (M !! eo_Hash ob) as [idx|] eqn:Hidx; cbn; [right; by eapply HM|by left]. }
  rewrite (st_bind_Ok _ _ _ _ _ Hgd).
  assert (indexes (<[eo_Hash ob := idx']> M)) as HM'.
  { intros h idx o [[<- <-]|[_ Hh]]%lookup_insert_Some Ho; [|by eapply HM]. rewrite Hmb in Ho. by injection Ho as <-. }
  destruct (_ <? msz).
  - rewrite (st_bind_Ok _ _ _ _ _ (update_ok t _ t1 p2 Ht1)). set (x' := SetDelta _ _ _ _). do 2 eexists. split; [reflexivity|].
    set (p3 := with_heap _ p2). assert (changes t x' p2 p3) as Hch by done.
    assert (otp_Depth x' = otp_Depth b1 + 1) as Hdx by (cbn; apply i64_small; lia).
    split; [|split; [done|]].
    + split.
      * split; [apply Hw2|apply Hw2|]. cbn. eapply heap_ok_insert; [apply Hw2|done| |lia].
        eapply (cell_delta _ _ _ _ _ b ob); [done|done|by apply Hdel|done|]. left. done.
      * apply unwritten_insert; [apply Hw2|]. apply (wk_offsets _ _ Hw2 t t1 Ht1).
      * apply typed_insert; [apply Hw2|]. left. cbn. rewrite Hto. by eexists.
      * intros Hdo. eapply ranked_insert; [by apply Hw2|done|by right|]. intros b' [= <-]. split; [done|]. split; [done|]. intros y Hy. rewrite Hb1 in Hy. injection Hy as <-. lia.
    + eapply grows_trans; [done|]. eapply grows_trans; [done|]. by eapply grows_changes.
  - rewrite (st_bind_Ok (mret tt) _ p2 tt p2 eq_refl). do 2 eexists. split; [reflexivity|]. split; [done|]. split; [done|]. by eapply grows_trans.
Qed.

(** *** The walk over a group *)

Definition ordered (objs : list nat) p : Prop := forall i j b t x, objs !! i = Some b -> objs !! j = Some t -> (i < j)%nat ->
  pk_heap p !! t = Some x -> otp_Base x = None -> pair b t.

Lemma ordered_grows objs p p' : ordered objs p -> grows p p' -> ordered objs p'.
Proof. intros Ho [_ Hg] i j b t x Hb Ht Hlt Hx Hn. destruct (Hg t x Hx Hn) as (y & Hy & Hyn). by eapply Ho. Qed.

Lemma walking_weaken (U U' : nat -> Prop) p : (forall k, U' k -> U k) -> walking U p -> walking U' p.
Proof.
  intros HU [Hg Ho Ht Hr]. split; try done. intros Hdo k x b y Hk Hb Hy. destruct (Hr Hdo k x b y Hk Hb Hy) as [Hd Hn]. split; [done|]. auto.
Qed.

Definition group_ok (objs later : list nat) : Prop := NoDup (objs ++ later) /\ forall k, k ∈ objs -> (k < length ids)%nat.

Lemma index_lookup (objs : list nat) j b : objs !! j = Some b -> index (E := pack_error) objs (Z.of_nat j) = Ok b.
Proof. intros Hj. pose proof (lookup_lt_Some _ _ _ Hj). apply index_Ok; [|by rewrite Nat2Z.id]. unfold len. lia. Qed.

Lemma before_unused objs later i j b : group_ok objs later -> objs !! j = Some b -> (j < i)%nat -> b ∉ drop i objs ++ later.
Proof.
  intros [Hnd _] Hj Hlt Hin. rewrite <-(take_drop i objs), <-app_assoc in Hnd. apply NoDup_app in Hnd as (_ & Hdis & _).
  apply (Hdis b); [|done]. apply list_elem_of_lookup. exists j. by rewrite lookup_take_lt.
Qed.

Lemma walk_bases_ok objs later w i t n : group_ok objs later -> objs !! i = Some t -> (n <= i)%nat -> forall M p,
  walking (fun k => k ∈ drop i objs ++ later) p -> indexes M -> (forall j b, objs !! j = Some b -> (j < i)%nat -> pair b t) ->
  exists M' p', walk_bases digest n objs w (Z.of_nat i) (Z.of_nat n - 1) t M p = (Ok M', p')
    /\ walking (fun k => k ∈ drop i objs ++ later) p' /\ indexes M' /\ grows p p'.
Proof.
  intros Hgr Hi. induction n as [|n IH]; intros Hn M p Hw HM Hpair; cbn [walk_bases].
  { exists M, p. split; [done|]. split; [done|]. split; [done|]. apply grows_refl. }
  destruct (_ && _); [|exists M, p; split; [done|]; split; [done|]; split; [done|]; apply grows_refl].
  replace (Z.of_nat (Datatypes.S n) - 1) with (Z.of_nat n) by lia.
  destruct (lookup_lt_is_Some_2 objs n) as [b Hb]; [apply lookup_lt_Some in Hi; lia|].
  unfold st_lift at 1. rewrite (st_bind_Ok _ _ p b p); [|by rewrite (index_lookup _ _ _ Hb)].
  destruct (object_at_some m ids Hreq b) as [ob Hob]; [apply Hgr; by eapply list_elem_of_lookup_2|].
  destruct (object_at_some m ids Hreq t) as [ot Hot]; [apply Hgr; by eapply list_elem_of_lookup_2|].
  rewrite (st_bind_Ok _ _ _ _ _ (Type_ok p b ob (wk_good _ _ Hw) (wk_typed _ _ Hw) Hob)).
  rewrite (st_bind_Ok _ _ _ _ _ (Type_ok p t ot (wk_good _ _ Hw) (wk_typed _ _ Hw) Hot)).
  destruct (bool_decide _) eqn:Hty; cbn [negb]; [|exists M, p; split; [done|]; split; [done|]; split; [done|]; apply grows_refl].
  apply bool_decide_eq_true in Hty.
  destruct (tryToDeltify_ok (fun k => k ∈ drop i objs ++ later) p M b t ob ot) as (M1 & p1 & H1' & Hw1 & HM1 & Hg1); try done.
  - apply (Hpair n); [done|lia].
  - apply elem_of_app. left. apply list_elem_of_lookup. exists 0%nat. rewrite lookup_drop, Nat.add_0_r. done.
  - eapply before_unused; [done..|lia].
  - rewrite (st_bind_Ok _ _ _ _ _ H1').
    destruct (IH ltac:(lia) M1 p1 Hw1 HM1 Hpair) as (M2 & p2 & H2' & Hw2 & HM2 & Hg2).
    exists M2, p2. split; [done|]. split; [done|]. split; [done|]. by eapply grows_trans.
Qed.

Lemma clean_ok U objs later w i M p : group_ok objs later -> (i < length objs)%nat -> len objs < 2 ^ 62 -> 0 <= w -> walking U p -> indexes M ->
  exists M' p', clean objs w (Z.of_nat i) M p = (Ok M', p') /\ walking U p' /\ indexes M' /\ grows p p'.
Proof.
  intros Hgr Hi Hl Hw0 Hw HM. unfold clean.
  destruct (Z.gtb_spec (Z.of_nat i) w); [|exists M, p; split; [done|]; split; [done|]; split; [done|]; apply grows_refl].
  rewrite i64_small by (unfold len in Hl; lia).
  destruct (lookup_lt_is_Some_2 objs (Z.to_nat (Z.of_nat i - w))) as [b Hb]; [lia|].
  unfold st_lift at 1. rewrite (st_bind_Ok _ _ p b p); [|by rewrite <-(index_lookup _ _ _ Hb), Z2Nat.id by lia].
  destruct (object_at_some m ids Hreq b) as [o Ho]; [apply Hgr; by eapply list_elem_of_lookup_2|].
  destruct (good_lookup false p b o (wk_good _ _ Hw) Ho) as (x & Hx & Hc).
  rewrite (st_bind_Ok _ _ _ _ _ (Hash_ok false p b o (wk_good _ _ Hw) Ho)), (st_bind_Ok _ _ _ _ _ (deref_otp _ _ _ Hx)).
  assert (indexes (delete (eo_Hash o) M)) as HM'. { intros h idx o' [_ Hh]%lookup_delete_Some Ho'. by eapply HM. }
  unfold otp_IsDelta. destruct (otp_Base x) as [c|] eqn:Hbx.
  2: { rewrite (st_bind_Ok (mret tt) _ p tt p eq_refl). exists (delete (eo_Hash o) M), p. split; [done|]. split; [done|]. split; [done|]. apply grows_refl. }
  set (x' := CleanOriginal (SaveOriginalMetadata x)). set (p' := with_heap (fun h => <[b := x']> h) p).
  assert ((update b SaveOriginalMetadata;; update b CleanOriginal) p = (Ok tt, p')) as Hup.
  { rewrite (st_bind_Ok _ _ _ _ _ (update_ok b SaveOriginalMetadata x p Hx)), (update_ok b CleanOriginal (SaveOriginalMetadata x)).
    - unfold with_heap. cbn. rewrite list_insert_insert_eq. done.
    - cbn. apply list_lookup_insert_eq. by eapply lookup_lt_Some. }
  rewrite (st_bind_Ok _ _ _ _ _ Hup). do 2 eexists. split; [reflexivity|].
  assert (otp_Base x' = otp_Base x /\ otp_Object x' = otp_Object x /\ otp_Depth x' = otp_Depth x /\ otp_Offset x' = otp_Offset x) as (E1 & E2 & E3 & E4).
  { unfold x', CleanOriginal, SaveOriginalMetadata. by destruct (otp_Original x). }
  assert (changes b x' p p') as Hch by done.
  destruct Hc as [Hb' _ _|c' oc Hb' Hoc Hd Hn Hkn|]; [congruence| |done]. rewrite Hbx in Hb'. injection Hb' as <-.
  assert (known o x') as Hkn'.
  { right. unfold x', CleanOriginal, SaveOriginalMetadata. destruct Hkn as [->|[Hor Hkn]]; [by split; [|left]|]. rewrite Hor. by split. }
  split; [|split; [done|]].
  - split.
    + split; [apply Hw|apply Hw|]. cbn. eapply heap_ok_insert; [apply Hw|done| |rewrite E3; by apply (hk_depth _ _ _ _ (gd_heap _ _ (wk_good _ _ Hw)) b)].
      eapply cell_delta; [by rewrite E1|done|by rewrite E2|done|done].
    + apply unwritten_insert; [apply Hw|]. rewrite E4. by eapply (wk_offsets _ _ Hw).
    + cbn [pk_heap p' with_heap]. unfold x', CleanOriginal, SaveOriginalMetadata. destruct Hkn as [Hor|[Hor Hkn]]; rewrite Hor.
      * apply typed_insert; [apply Hw|]. right; left. cbn. by eexists.
      * destruct Hkn as [Hr|[Hr _]].
        -- apply typed_insert; [apply Hw|]. right; left. cbn. rewrite Hr. by eexists.
        -- replace (set_original None x) with x by (unfold set_original; by destruct x; cbn in *; subst). rewrite list_insert_id by done. apply Hw.
    + intros Hdo. eapply ranked_same; [by apply Hw|done|left; congruence|by left].
  - eapply grows_changes; [done..|]. by rewrite E1.
Qed.

Lemma walk_step_ok objs later w i M p : group_ok objs later -> (i < length objs)%nat -> len objs < 2 ^ 62 -> 0 <= w ->
  walking (fun k => k ∈ drop i objs ++ later) p -> ordered objs p -> indexes M ->
  exists M' p', walk_step digest objs w (Z.of_nat i) M p = (Ok M', p')
    /\ walking (fun k => k ∈ drop i objs ++ later) p' /\ indexes M' /\ grows p p'.
Proof.
  intros Hgr Hi Hl Hw0 Hw Ho HM. unfold walk_step.
  destruct (clean_ok _ objs later w i M p Hgr Hi Hl Hw0 Hw HM) as (M1 & p1 & H1' & Hw1 & HM1 & Hg1). rewrite (st_bind_Ok _ _ _ _ _ H1').
  destruct (lookup_lt_is_Some_2 objs i Hi) as [t Ht].
  unfold st_lift at 1. rewrite (st_bind_Ok _ _ p1 t p1); [|by rewrite (index_lookup _ _ _ Ht)].
  destruct (object_at_some m ids Hreq t) as [ot Hot]; [apply Hgr; by eapply list_elem_of_lookup_2|].
  destruct (good_lookup false p1 t ot (wk_good _ _ Hw1) Hot) as (x & Hx & _). rewrite (st_bind_Ok _ _ _ _ _ (deref_otp _ _ _ Hx)).
  destruct (otp_IsDelta x) eqn:Hd; [by exists M1, p1|].
  rewrite (st_bind_Ok _ _ _ _ _ (Type_ok p1 t ot (wk_good _ _ Hw1) (wk_typed _ _ Hw1) Hot)).
  destruct (negb _); [by exists M1, p1|]. rewrite Nat2Z.id.
  destruct (walk_bases_ok objs later w i t i Hgr Ht ltac:(lia) M1 p1 Hw1 HM1) as (M2 & p2 & H2' & Hw2 & HM2 & Hg2).
  { intros j b Hb Hlt. eapply (ordered_grows _ _ _ Ho Hg1); try done. unfold otp_IsDelta in Hd. by destruct (otp_Base x). }
  exists M2, p2. split; [done|]. split; [done|]. split; [done|]. by eapply grows_trans.
Qed.

Lemma walk_from_ok objs later w n : group_ok objs later -> len objs < 2 ^ 62 -> 0 <= w -> forall i M p, (i + n = length objs)%nat ->
  walking (fun k => k ∈ drop i objs ++ later) p -> ordered objs p -> indexes M ->
  exists p', walk_from digest n objs w (Z.of_nat i) M p = (Ok tt, p') /\ walking (fun k => k ∈ later) p' /\ grows p p'.
Proof.
  intros Hgr Hl Hw0. induction n as [|n IH]; intros i M p Hin Hw Ho HM; cbn [walk_from].
  - exists p. split; [done|]. split; [|apply grows_refl]. eapply walking_weaken; [|exact Hw]. intros k Hk. apply elem_of_app. by right.
  - destruct (walk_step_ok objs later w i M p Hgr ltac:(lia) Hl Hw0 Hw Ho HM) as (M1 & p1 & H1' & Hw1 & HM1 & Hg1). rewrite (st_bind_Ok _ _ _ _ _ H1').
    replace (Z.of_nat i + 1) with (Z.of_nat (Datatypes.S i)) by lia.
    destruct (IH (Datatypes.S i) M1 p1) as (p2 & H2' & Hw2 & Hg2); [lia| |by eapply ordered_grows|done|].
    + eapply walking_weaken; [|exact Hw1]. intros k [Hk|Hk]%elem_of_app; apply elem_of_app; [left|by right].
      apply list_elem_of_lookup in Hk as [j Hj]. apply list_elem_of_lookup. exists (Datatypes.S j). rewrite !lookup_drop in *. by rewrite Nat.add_succ_r.
    + exists p2. split; [done|]. split; [done|]. by eapply grows_trans.
Qed.

Lemma groups_concat prev l : concat (groups prev l) = (match prev with Some (_, g) => g | None => [] end) ++ (fst <$> l).
Proof.
  revert prev. induction l as [|[i [t s]] l IH]; intros [[t' g]|]; cbn [groups]; cbn.
  - done.
  - done.
  - destruct (bool_decide _); [rewrite IH; by rewrite <-app_assoc|]. cbn. by rewrite IH.
  - apply IH.
Qed.

Lemma walks_ok w gs : 0 <= w < 2 ^ 63 -> len (concat gs) < 2 ^ 62 -> NoDup (concat gs) -> (forall k, k ∈ concat gs -> (k < length ids)%nat) -> forall p,
  walking (fun k => k ∈ concat gs) p -> (forall g, g ∈ gs -> ordered g p) ->
  exists p', walks digest gs w p = (Ok tt, p') /\ walking (fun _ => False) p' /\ grows p p'.
Proof.
  intros Hw0. induction gs as [|g gs IH]; intros Hl Hnd Hin p Hw Ho; cbn [walks].
  - exists p. split; [done|]. split; [|apply grows_refl]. by eapply walking_weaken.
  - cbn [concat] in *. rewrite len_app in Hl. pose proof (len_nonneg (concat gs)). pose proof (len_nonneg g).
    unfold walk. rewrite i64_small by lia.
    destruct (walk_from_ok g (concat gs) w (length g)) with (i := 0%nat) (M := ∅ : gmap ObjectID deltaIndex) (p := p) as (p1 & H1' & Hw1 & Hg1); try done; try lia.
    + split; [done|]. intros k Hk. apply Hin, elem_of_app. by left.
    + apply Ho. by left.
    + change (Z.of_nat 0) with 0 in H1'. rewrite H1'.
      destruct (IH ltac:(lia)) with (p := p1) as (p2 & H2' & Hw2 & Hg2); try done.
      * by apply NoDup_app in Hnd as (_ & _ & ?).
      * intros k Hk. apply Hin, elem_of_app. by right.
      * intros g' Hg'. eapply ordered_grows; [|done]. apply Ho. by right.
      * exists p2. split; [done|]. split; [done|]. by eapply grows_trans.
Qed.

(** *** The order *)

Definition key_ok p (x : keyed) : Prop := let '(k, (t, s)) := x in
  exists o y, object_at m ids k o /\ t = eo_Type o /\ pk_heap p !! k = Some y /\ (otp_Base y = None -> s = len (eo_Data o)).

Lemma keys_ok l p : good false p -> typed (pk_heap p) -> (forall k, k ∈ l -> (k < length ids)%nat) ->
  exists ks, keys l p = (Ok ks, p) /\ fst <$> ks = l /\ Forall (key_ok p) ks.
Proof.
  intros Hg Ht. induction l as [|k l IH]; intros Hl; cbn [keys]; [by exists []|].
  destruct (object_at_some m ids Hreq k) as [o Ho]; [apply Hl; by left|].
  rewrite (st_bind_Ok _ _ _ _ _ (Type_ok p k o Hg Ht Ho)). destruct (good_lookup false p k o Hg Ho) as (x & Hx & _).
  destruct (Size_ok false p k o x Hg Ho Hx) as (s & Hs & Hsz & _). rewrite (st_bind_Ok _ _ _ _ _ Hs).
  destruct IH as (ks & Hks & Hfst & Hall); [intros; apply Hl; by right|]. rewrite (st_bind_Ok _ _ _ _ _ Hks).
  eexists. split; [reflexivity|]. split; [cbn; by rewrite Hfst|]. constructor; [|done]. exists o, x. auto.
Qed.

Lemma Less_asym a b : Less a b = true -> Less b a = false.
Proof.
  destruct a as [i [ta sa]], b as [j [tb sb]]. unfold Less. rewrite !Z.gtb_ltb.
  destruct (Z.ltb_spec (type_num ta) (type_num tb)), (Z.ltb_spec (type_num tb) (type_num ta)); try done; try lia.
Qed.

Lemma Less_trans a b c : Less b a = false -> Less c b = false -> Less c a = false.
Proof.
  destruct a as [i [ta sa]], b as [j [tb sb]], c as [k [tc sc]]. unfold Less. rewrite !Z.gtb_ltb.
  destruct (Z.ltb_spec (type_num tb) (type_num ta)), (Z.ltb_spec (type_num ta) (type_num tb)); try done; try lia;
    destruct (Z.ltb_spec (type_num tc) (type_num tb)), (Z.ltb_spec (type_num tb) (type_num tc)); try done; try lia;
    destruct (Z.ltb_spec (type_num tc) (type_num ta)), (Z.ltb_spec (type_num ta) (type_num tc)); try done; try lia.
Qed.

Lemma type_num_inj t t' : Valid t = true -> Valid t' = true -> type_num t = type_num t' -> t = t'.
Proof. by destruct t, t'. Qed.

Lemma sorted_ordered ks p : good false p -> StronglySorted (fun x y => Less y x = false) ks -> Forall (key_ok p) ks -> ordered (fst <$> ks) p.
Proof.
  intros Hg Hs Hall i j b t x Hb Ht Hlt Hx Hn ob ot Hob Hot Hty Hne Hnb.
  apply list_lookup_fmap_Some in Hb as ([b' [tb sb]] & -> & Hb). apply list_lookup_fmap_Some in Ht as ([t' [tt st]] & -> & Ht). cbn [fst] in *.
  pose proof (StronglySorted_index _ _ _ _ _ _ Hs Hb Ht Hlt) as Hless.
  destruct (Forall_lookup_1 _ _ _ _ Hall Hb) as (ob' & y & Hob' & -> & Hy & Hsb). destruct (Forall_lookup_1 _ _ _ _ Hall Ht) as (ot' & x' & Hot' & -> & Hx' & Hst).
  rewrite <-(object_at_det m ids _ _ _ Hob Hob') in *. rewrite <-(object_at_det m ids _ _ _ Hot Hot') in *.
  rewrite Hx in Hx'. injection Hx' as <-. rewrite (Hst Hn) in Hless.
  destruct (good_cell false p b' y Hg Hy) as (o' & Ho' & Hc). rewrite (object_at_det m ids _ _ _ Ho' Hob) in Hc.
  destruct Hc as [Hby _ _|? ? _ _ _ Hnn _|]; [|done|done]. rewrite (Hsb Hby), Hnb in Hless. unfold Less in Hless.
  rewrite Hty, Z.gtb_ltb, Z.ltb_irrefl, Z.gtb_ltb in Hless. apply Z.ltb_ge in Hless. destruct (eo_Data ot); [done|].
  rewrite len_cons in Hless. pose proof (len_nonneg l). change (len (@nil Z)) with 0 in Hless. lia.
Qed.

Lemma ordered_infix l1 l2 l3 p : ordered (l1 ++ l2 ++ l3) p -> ordered l2 p.
Proof.
  intros Ho i j b t x Hb Ht Hlt. assert (forall i b, l2 !! i = Some b -> (l1 ++ l2 ++ l3) !! (length l1 + i)%nat = Some b) as Hin.
  { intros i' b' Hi'. rewrite lookup_app_r by lia. replace (length l1 + i' - length l1)%nat with i' by lia. by apply lookup_app_l_Some. }
  apply (Ho (length l1 + i)%nat (length l1 + j)%nat); [by apply Hin|by apply Hin|lia].
Qed.

Hypothesis HSort : sorts Sort.

(** What the selection leaves: for every object asked for, the object or a
    delta of it over another one of them. *)
Record selected (w : Z) p : Prop := {
  sl_good : good false p;
  sl_offsets : unwritten (pk_heap p);
  sl_ranked : DeltaObject (S := S) = None \/ w = 0 -> ranked (fun _ => False) (pk_heap p);
}.

Lemma ObjectsToPack_ok w p : objs_ok (pk_storer p) -> objs (pk_storer p) = m -> pk_heap p = [] -> 0 <= w < 2 ^ 63 -> len ids < 2 ^ 32 ->
  exists l p', ObjectsToPack digest Sort ids w p = (Ok l, p') /\ l ≡ₚ seq 0 (length ids) /\ selected w p' /\ pk_out p' = pk_out p.
Proof.
  intros Hok Hm Hh Hw Hn. unfold ObjectsToPack.
  destruct (objectsToPack_ok w p Hok Hm Hh) as (p1 & Hp1 & [Hg1 Ho1 Ht1 Hwh1] & Hout1 & Hz). rewrite (st_bind_Ok _ _ _ _ _ Hp1).
  assert (forall U, (forall k x, pk_heap p1 !! k = Some x -> otp_Base x = None) -> ranked U (pk_heap p1)) as Hrk.
  { intros U Hb k x b y Hk Hbk. by rewrite (Hb k x Hk) in Hbk. }
  destruct (Z.eqb_spec w 0) as [Hw0|Hw0].
  { exists (seq 0 (length ids)), p1. split; [done|]. split; [done|]. split; [|done]. split; [done..|]. intros _. apply Hrk. by apply Hz. }
  unfold sort. destruct (keys_ok (seq 0 (length ids)) p1 Hg1 Ht1) as (ks & Hks & Hfst & Hall); [intros k Hk%elem_of_seq; lia|].
  rewrite (st_bind_Ok _ _ p1 (Sort Less ks) p1); [|by rewrite (st_bind_Ok _ _ _ _ _ Hks)]. set (ks' := Sort Less ks).
  assert (ks' ≡ₚ ks) as Hperm by apply (sorts_perm _ HSort).
  assert (fst <$> ks' ≡ₚ seq 0 (length ids)) as Hperm' by (by rewrite Hperm, Hfst).
  assert (concat (groups None ks') = fst <$> ks') as Hcat by apply groups_concat.
  assert (ordered (fst <$> ks') p1) as Hord.
  { apply sorted_ordered; [done| |by rewrite Hperm]. apply (sorts_sorted _ HSort); [intros; by apply Less_asym|intros; by eapply Less_trans]. }
  destruct (walks_ok w (groups None ks') Hw) with (p := p1) as (p2 & H2' & Hw2 & [Hout2 _]).
  - rewrite Hcat. unfold len. rewrite Hperm', length_seq. unfold len in Hn. lia.
  - rewrite Hcat, Hperm'. apply NoDup_seq.
  - intros k. rewrite Hcat, Hperm'. intros Hk%elem_of_seq. lia.
  - split; [done..|]. intros Hdo. apply Hrk. by apply Hwh1.
  - intros g (i & Hg)%list_elem_of_lookup. rewrite <-Hcat, <-(take_drop_middle _ _ _ Hg) in Hord. rewrite concat_app in Hord. cbn [concat] in Hord. by eapply ordered_infix.
  - rewrite (st_bind_Ok _ _ _ _ _ H2'). exists (fst <$> ks'), p2. split; [done|]. split; [done|]. split; [|congruence].
    split; [apply Hw2|apply Hw2|]. intros [Hdo|?]; [|done]. by apply Hw2.
Qed.
End operations.
