(* ===== verification/PackEncoder.v ===== *)
(** * Writing packs: [plumbing/format/packfile/encoder.go]

    The encoder writes the objects a selection left, a base before what is over
    it, and breaks the cycles of deltas it meets.  Read back by the parser, what
    it writes gives the objects that were asked for. *)
From stdpp Require Import base list gmap numbers option strings sorting.
From Stdlib Require Import ZArith Lia.
From S2P Require Import Prelude State GoStrings Varint PatchDelta DeltaIndex DiffDelta ObjectId Object Storer MemStorage ObjectStore PackScanner PackParser PackResolve PackSelect.

Open Scope Z_scope.

Section encoder.
Context {S : Type} `{ObjectStorer S, DeltaObjectStorer S, Zlib}.
Context (digest : ObjectFormat -> bytes -> bytes) (Sort : (keyed -> keyed -> bool) -> list keyed -> list keyed).
(** The object format of the repository, which [NewEncoder] takes the hasher
    from, and the kind of deltas. *)
Context (fmt : ObjectFormat) (useRefDeltas : bool).

Abbreviation EM := (ST pack_error (Packing S)).

(** A writer that accepts everything; the hasher is given the same bytes. *)
Definition write (b : bytes) : EM unit := st_set (fun p => Build_Packing (pk_heap p) (pk_storer p) (pk_out p ++ b)).
Definition Offset : EM Z := st_get (fun p => len (pk_out p)).

Definition head (numEntries : Z) : EM unit := write (bs "PACK" ++ PutUint32 V2 ++ PutUint32 (u32 numEntries)).

Definition enc_entryHead (t : ObjectType) (size : Z) : EM unit :=
  h ← st_lift (map_err EVarint (Varint.entryHead (type_num t) size)); write h.

Definition writeRefDeltaHeader (base : ObjectID) : EM unit := write (Bytes base).

Definition writeOfsDeltaHeader (i base : nat) : EM unit :=
  o ← deref i; b ← deref base;
  let relativeOffset := otp_Offset o - otp_Offset b in
  if relativeOffset <=? 0 then st_fail (EBadOffset relativeOffset)
  else l ← st_lift (map_err EVarint (WriteVariableWidthInt relativeOffset)); write l.

Definition writeDeltaHeader (i base : nat) : EM unit :=
  o ← deref i;
  enc_entryHead (if useRefDeltas then REFDeltaObject else OFSDeltaObject) (po_Size (otp_Object o)) ;;
  if useRefDeltas then h ← Hash_of base; writeRefDeltaHeader h
  else writeOfsDeltaHeader i base.

(** What comes after the base was written. *)
Definition write_object (i : nat) : EM unit :=
  off ← Offset;
  update i (set_offset off) ;;
  o ← deref i;
  (match otp_Base o with
   | Some base => writeDeltaHeader i base
   | None => t ← Type_of i; s ← Size_of i; enc_entryHead t s
   end) ;;
  write (deflate (po_Data (otp_Object o))).

(** The fuel is the number of objects, as [entry] follows the bases. *)
Fixpoint entry (fuel : nat) (i : nat) : EM unit :=
  match fuel with
  | O => st_nofuel
  | Datatypes.S f =>
      o ← deref i;
      (if WantWrite o then restoreOriginal i ;; update i BackToOriginal else mret tt) ;;
      o ← deref i;
      if IsWritten o then mret tt
      else
        update i MarkWantWrite ;;
        o ← deref i;
        (match otp_Base o with
         | Some base => b ← deref base; if IsWritten b then mret tt else entry f base
         | None => mret tt
         end) ;;
        o ← deref i;
        if IsWritten o then mret tt else write_object i
  end.

Definition footer : EM ObjectID :=
  d ← st_get (fun p => digest (id_format fmt) (pk_out p));
  match FromBytes d with
  | (h, true) => write (Bytes h) ;; mret h
  | (_, false) => st_fail EInvalidHash
  end.

Definition encode (objects : list nat) : EM ObjectID :=
  head (len objects) ;;
  n ← st_get (fun p => length (pk_heap p));
  st_each (entry (n + 2)) objects ;;
  footer.

Definition Encode (hashes : list ObjectID) (packWindow : Z) : EM ObjectID :=
  objects ← ObjectsToPack digest Sort hashes packWindow;
  encode objects.

(** [NewEncoder]. *)
Definition NewEncoder (s : S) : Packing S := Build_Packing [] s [].
End encoder.

(** ** Entries *)

Section entries.
Context `{Zlib} (digest : ObjectFormat -> bytes -> bytes) (fmt : ObjectFormat).

Lemma entry_at_app es es' off e : entry_at es off e -> entry_at (es ++ es') off e.
Proof.
  unfold entry_at. enough (forall o, placed o (es ++ es') = placed o es ++ placed (o + len (raws es)) es') as ->.
  { intros Hin. apply elem_of_app. by left. }
  induction es as [|x es IH]; intros o; cbn [app placed]; [by rewrite Z.add_0_r|]. rewrite IH. change (raws (x :: es)) with (en_raw x ++ raws es).
  by rewrite len_app, Z.add_assoc.
Qed.

Lemma pos_app es es' j : (j <= length es)%nat -> pos (es ++ es') j = pos es j.
Proof. intros Hj. unfold pos. by rewrite take_app_le. Qed.

Lemma entries_ok_app off es es' : entries_ok fmt off es -> entries_ok fmt (off + len (raws es)) es' -> entries_ok fmt off (es ++ es').
Proof.
  revert off. induction es as [|e es IH]; intros off Hes Hes'; cbn [app entries_ok]; [by rewrite Z.add_0_r in Hes'|].
  destruct Hes as [He Hes]. split; [done|]. apply IH; [done|]. change (raws (e :: es)) with (en_raw e ++ raws es) in Hes'.
  by rewrite len_app, Z.add_assoc in Hes'.
Qed.

(** The identifiers of the pack's format. *)
Definition pack_id (h : ObjectID) : Prop := oid_ok h /\ Size h = objectIDSize fmt.

(** What is asked of the digest: its size. *)
Definition digest_ok : Prop := forall d, len (digest (id_format fmt) d) = objectIDSize fmt /\ bytes_ok (digest (id_format fmt) d).

Lemma id_format_facts : id_format fmt <> SHA1 /\ format_Size (id_format fmt) = objectIDSize fmt /\ (objectIDSize fmt = 20 \/ objectIDSize fmt = 32).
Proof. unfold id_format, objectIDSize. destruct (bool_decide _); (split; [done|split; [done|]]); [by right|by left]. Qed.

Lemma pack_id_decodes h : pack_id h -> decodes (ReadFrom (ResetBySize (objectIDSize fmt))) (Bytes h) h.
Proof. intros [Hh Hs] rest. by apply ReadFrom_app; [apply id_format_facts|..]. Qed.

Lemma digest_id d : digest_ok -> pack_id (oid_of (id_format fmt) (digest (id_format fmt) d)).
Proof.
  intros Hd. destruct (Hd d) as [Hl Hb]. destruct id_format_facts as (Hf & Hs & _).
  split; [apply oid_of_ok; [done|congruence|done]|done].
Qed.

Lemma object_id_pack t c : digest_ok -> pack_id (object_id digest fmt t c).
Proof.
  intros Hd. pose proof (digest_id (writeHeader t (len c) ++ c) Hd) as Hp. destruct (Hd (writeHeader t (len c) ++ c)) as [Hl _].
  replace (object_id digest fmt t c) with (oid_of (id_format fmt) (digest (id_format fmt) (writeHeader t (len c) ++ c))); [done|].
  unfold object_id, hasher_Sum, oid_Write, oid_of. cbn [oid_hash oid_format]. rewrite copy_zeros; [done|]. rewrite Hl.
  destruct id_format_facts as (_ & _ & [-> | ->]); unfold SHA256Size; lia.
Qed.

Lemma pack_id_bytes h : pack_id h -> bytes_ok (Bytes h) /\ len (Bytes h) <= 32.
Proof.
  intros [Hh Hs]. split; [apply Bytes_ok; apply Hh|]. rewrite Bytes_len by apply Hh. pose proof (Size_bound h). lia.
Qed.

(** The header of an entry. *)
Lemma entryHead_encodes t size : Valid t = true -> 0 <= size < 2 ^ 60 ->
  exists hd, Varint.entryHead (type_num t) size = Ok hd /\ bytes_ok hd /\ len hd <= 10 /\ head_encodes hd t size.
Proof.
  intros Hv Hs. destruct (entryHead_spec (type_num t) size) as (b & h & He & Hb & Hl & Hvls & Hty); [by destruct t|done|].
  exists (b :: h). split; [done|]. split; [done|]. split; [rewrite len_cons; lia|]. exists b, h. rewrite Hty. split; [done|].
  split; [by destruct t|]. split; [done|]. done.
Qed.
End entries.

(** ** What the encoder keeps true *)

Section writing.
Context {S : Type} `{LawfulObjects S, DeltaObjectStorer S, Zlib}.
Context (digest : ObjectFormat -> bytes -> bytes) (fmt : ObjectFormat) (useRefDeltas : bool).
Context (m : ObjectMap) (ids : list ObjectID) (zbound : Z) (rk : Prop).

Hypothesis Hreq : requested m ids.
Hypothesis Hdigest : digest_ok digest fmt.
Hypothesis Hids : forall k o, object_at m ids k o -> object_id digest fmt (eo_Type o) (eo_Data o) = eo_Hash o.
Hypothesis Hzip : forall x, len x < 2 ^ 36 -> len (deflate x) <= zbound.
Hypothesis Hsize : len ids * (zbound + 64) < 2 ^ 62.

Implicit Types p : Packing S.

(** The entry [j], of the [k]-th object: the object, or a delta of it over an
    object written before; the depths of the heap bound those of the pack. *)
Inductive described (heap : list ObjectToPack) (es : list PackScanner.entry) (w : list nat) (j k : nat) (o : Object.EncodedObject) (e : PackScanner.entry) : Prop :=
  | described_whole : en_base e = NoBase -> en_type e = eo_Type o -> en_data e = eo_Data o -> described heap es w j k o e
  | described_delta jb b ob : (jb < j)%nat -> w !! jb = Some b -> object_at m ids b ob -> eo_Type ob = eo_Type o ->
      PatchDelta (eo_Data ob) (en_data e) = Ok (eo_Data o) ->
      en_base e = OfsBase (pos es j - pos es jb) \/ en_base e = RefBase (eo_Hash ob) ->
      (rk -> forall x y, heap !! b = Some y -> heap !! k = Some x -> otp_Depth y + 1 <= otp_Depth x <= 50) -> described heap es w j k o e.

(** [w] are the objects written, in order, and [es] their entries. *)
Record writing (es : list PackScanner.entry) (w : list nat) p : Prop := {
  wr_good : good m ids false p;
  wr_out : pk_out p = pack_head (len ids) ++ raws es;
  wr_len : length w = length es;
  wr_nodup : NoDup w;
  wr_in : forall k, k ∈ w -> (k < length ids)%nat;
  wr_entries : entries_ok fmt 12 es;
  wr_bytes : bytes_ok (raws es);
  wr_size : len (raws es) <= len es * (zbound + 64);
  wr_cells : forall k x, pk_heap p !! k = Some x ->
    k ∉ w /\ (otp_Offset x = 0 \/ otp_Offset x = 1) \/ exists j, w !! j = Some k /\ otp_Offset x = pos es j;
  wr_desc : forall j k o e, w !! j = Some k -> object_at m ids k o -> es !! j = Some e -> described (pk_heap p) es w j k o e;
  wr_ranked : rk -> ranked (fun _ => False) (pk_heap p);
}.

Lemma described_heap heap heap' es w j k o e : (forall i, i ∈ w -> heap' !! i = heap !! i) -> w !! j = Some k ->
  described heap es w j k o e -> described heap' es w j k o e.
Proof.
  intros Hh Hj [Hb Ht Hd|jb b ob Hlt Hjb Hob Hty Hp Hb Hr]; [by apply described_whole|].
  eapply described_delta; try done. intros Hrk x y Hy Hx. rewrite Hh in Hy, Hx by (by eapply list_elem_of_lookup_2). by eapply Hr.
Qed.

Lemma described_app heap es es' w w' j k o e : (j < length es)%nat -> described heap es w j k o e -> described heap (es ++ es') (w ++ w') j k o e.
Proof.
  intros Hj [Hb Ht Hd|jb b ob Hlt Hjb Hob Hty Hp Hb Hr]; [by apply described_whole|].
  eapply described_delta; try done; [by apply lookup_app_l_Some|]. by rewrite !pos_app by lia.
Qed.

(** An object that is not written changes. *)
Lemma writing_change es w p k x' o st : writing es w p -> k ∉ w -> object_at m ids k o -> cell m ids false o x' -> 0 <= otp_Depth x' <= 2 ^ 26 ->
  otp_Offset x' = 0 \/ otp_Offset x' = 1 -> (rk -> ranked (fun _ => False) (<[k := x']> (pk_heap p))) -> objs_ok st -> objs st = m ->
  writing es w (Build_Packing (<[k := x']> (pk_heap p)) st (pk_out p)).
Proof.
  intros [Hg Ho Hl Hnd Hin He Hb Hs Hc Hd Hr] Hk Hok Hcell Hdep Hoff Hrk Hst Hm. split; try done.
  - split; [done..|]. cbn. eapply heap_ok_insert; [apply Hg|done..].
  - cbn. intros i y [(<- & <- & _)|[Hne Hi]]%list_lookup_insert_Some; [by left|by apply Hc].
  - intros j i oi e Hj Hoi Hej. eapply described_heap; [|done|by apply Hd]. cbn. intros i' Hi'. rewrite list_lookup_insert_ne; [done|]. by intros <-.
Qed.

(** An object is written. *)
Lemma writing_snoc es w p i x o e : writing es w p -> i ∉ w -> object_at m ids i o -> pk_heap p !! i = Some x -> cell m ids false o x ->
  entry_ok fmt (pos es (length es)) e -> bytes_ok (en_raw e) -> len (en_raw e) <= zbound + 64 ->
  (forall heap, heap = <[i := set_offset (pos es (length es)) x]> (pk_heap p) -> described heap (es ++ [e]) (w ++ [i]) (length es) i o e) ->
  writing (es ++ [e]) (w ++ [i]) (Build_Packing (<[i := set_offset (pos es (length es)) x]> (pk_heap p)) (pk_storer p) (pk_out p ++ en_raw e)).
Proof.
  intros [Hg Ho Hl Hnd Hin He Hb Hs Hc Hd Hr] Hi Hok Hx Hcell Hee Heb Hel Hdesc.
  assert ((i < length ids)%nat) as Hil. { destruct (object_at_facts m ids Hreq i o Hok) as (Hid & _). by eapply lookup_lt_Some. }
  split.
  - split; [apply Hg|apply Hg|]. cbn. eapply heap_ok_insert; [apply Hg|done| |by apply (hk_depth _ _ _ _ (gd_heap _ _ _ _ Hg) i x)].
    destruct Hcell; [by apply cell_whole|by eapply cell_delta|done].
  - cbn. rewrite Ho, raws_snoc. by rewrite <-app_assoc.
  - rewrite !length_app, Hl. done.
  - apply NoDup_app. split; [done|]. split; [|apply NoDup_singleton]. intros k Hk ->%list_elem_of_singleton. done.
  - intros k [Hk| ->%list_elem_of_singleton]%elem_of_app; auto.
  - apply entries_ok_app; [done|]. split; [|done]. unfold pos in Hee. by rewrite firstn_all in Hee.
  - rewrite raws_snoc. by apply bytes_ok_app.
  - rewrite raws_snoc, !len_app. change (len [e]) with 1. lia.
  - cbn. intros k y [(<- & <- & _)|[Hne Hk]]%list_lookup_insert_Some.
    + right. exists (length w). rewrite lookup_app_r, Nat.sub_diag by done. split; [done|]. cbn. by rewrite Hl, pos_app.
    + destruct (Hc k y Hk) as [[Hn Hoff]|(j & Hj & Hoff)].
      * left. split; [|done]. intros [?| ->%list_elem_of_singleton]%elem_of_app; done.
      * right. exists j. split; [by apply lookup_app_l_Some|]. rewrite pos_app; [done|]. apply lookup_lt_Some in Hj. lia.
  - intros j k ok e' Hj Hk Hej. cbn [pk_heap]. apply lookup_snoc_Some in Hj as [[Hlt Hj]|[Hlt <-]].
    + rewrite lookup_app_l in Hej by lia. apply described_app; [lia|].
      eapply described_heap; [|done|by apply Hd]. intros i' Hi'. rewrite list_lookup_insert_ne; [done|]. by intros ->.
    + rewrite Hl in Hlt. subst j. rewrite lookup_app_r, Nat.sub_diag in Hej by done. injection Hej as <-.
      rewrite (object_at_det m ids _ _ _ Hk Hok). by apply Hdesc.
  - intros Hrk. cbn. eapply ranked_same; [by apply Hr|done|by left|by left].
Qed.

Lemma deflate_entry x : bytes_ok x -> inflates (deflate x) x.
Proof. intros Hx rest. by apply inflate_deflate. Qed.

Lemma written_offset es w p b y : writing es w p -> b ∈ w -> pk_heap p !! b = Some y -> exists j, w !! j = Some b /\ otp_Offset y = pos es j.
Proof. intros Hw Hb Hy. destruct (wr_cells _ _ _ Hw b y Hy) as [[Hn _]|]; done. Qed.

Lemma writing_total es w p : writing es w p -> len es <= len ids.
Proof.
  intros Hw. assert (length w <= length ids)%nat; [|rewrite (wr_len _ _ _ Hw) in *; unfold len; lia].
  rewrite <-(length_seq (length ids) 0). apply submseteq_length, NoDup_submseteq; [apply Hw|].
  intros k Hk%(wr_in _ _ _ Hw). apply elem_of_seq. lia.
Qed.

Lemma zbound_nonneg : 0 <= zbound.
Proof. pose proof (Hzip [] ltac:(done)). pose proof (len_nonneg (deflate [])). lia. Qed.

Lemma pos_bound es w p : writing es w p -> len (pk_out p) = pos es (length es) /\ pos es (length es) < 2 ^ 63.
Proof.
  intros Hw. rewrite (wr_out _ _ _ Hw), len_app, len_pack_head. unfold pos. rewrite firstn_all. split; [done|].
  pose proof (wr_size _ _ _ Hw). pose proof (writing_total _ _ _ Hw). pose proof zbound_nonneg. pose proof (len_nonneg es). nia.
Qed.

Definition appended (b : bytes) p : Packing S := Build_Packing (pk_heap p) (pk_storer p) (pk_out p ++ b).

Lemma enc_entryHead_ok t size p : Valid t = true -> 0 <= size < 2 ^ 60 ->
  exists hd, enc_entryHead t size p = (Ok tt, appended hd p) /\ bytes_ok hd /\ len hd <= 10 /\ head_encodes hd t size.
Proof.
  intros Hv Hs. destruct (entryHead_encodes t size Hv Hs) as (hd & Hhd & Hrest). exists hd. split; [|done].
  unfold enc_entryHead. rewrite (st_bind_Ok _ _ p hd p); [done|]. unfold st_lift. by rewrite Hhd.
Qed.

(** The reference to a base at [bpos], of an entry at [off]. *)
Definition references (off bpos : Z) (ob : Object.EncodedObject) (t : ObjectType) (ref : bytes) (rb : base_ref) : Prop :=
  bytes_ok ref /\ len ref <= 32 /\ ref_encodes fmt off t ref rb /\ (rb = OfsBase (off - bpos) \/ rb = RefBase (eo_Hash ob)).

Definition deltaType : ObjectType := if useRefDeltas then REFDeltaObject else OFSDeltaObject.

Lemma writeDeltaHeader_ok p i x b y ob : pk_heap p !! i = Some x -> pk_heap p !! b = Some y -> object_at m ids b ob -> cell m ids false ob y ->
  0 < otp_Offset y < otp_Offset x -> otp_Offset x < 2 ^ 63 -> len (po_Data (otp_Object x)) < 2 ^ 36 ->
  exists hd ref rb, writeDeltaHeader useRefDeltas i b p = (Ok tt, appended (hd ++ ref) p)
    /\ bytes_ok hd /\ len hd <= 10 /\ head_encodes hd deltaType (len (po_Data (otp_Object x)))
    /\ references (otp_Offset x) (otp_Offset y) ob deltaType ref rb.
Proof.
  intros Hx Hy Hob Hcy Hoff Hmax Hl. unfold writeDeltaHeader. rewrite (st_bind_Ok _ _ _ _ _ (deref_otp _ _ _ Hx)). fold deltaType.
  destruct (enc_entryHead_ok deltaType (po_Size (otp_Object x)) p) as (hd & Hhd & Hhb & Hhl & Hhe);
    [unfold deltaType; by destruct useRefDeltas|unfold po_Size; pose proof (len_nonneg (po_Data (otp_Object x))); lia|].
  rewrite (st_bind_Ok _ _ _ _ _ Hhd). unfold deltaType, references. destruct useRefDeltas eqn:Huse.
  - pose proof (object_id_pack digest fmt (eo_Type ob) (eo_Data ob) Hdigest) as Hpid. rewrite (Hids b ob Hob) in Hpid.
    destruct (pack_id_bytes fmt _ Hpid) as [Hib Hil]. exists hd, (Bytes (eo_Hash ob)), (RefBase (eo_Hash ob)).
    split; [|split; [done|split; [done|split; [unfold deltaType in Hhe; by rewrite Huse in Hhe|split; [done|split; [done|split; [|by right]]]]]]].
    + rewrite (st_bind_Ok (Hash_of b) _ _ (eo_Hash ob) (appended hd p)); [unfold writeRefDeltaHeader, write, st_set, appended; cbn; by rewrite <-app_assoc|].
      unfold Hash_of. rewrite (st_bind_Ok _ _ _ y (appended hd p) (deref_otp b y (appended hd p) Hy)). unfold st_lift. by rewrite (cell_Hash m ids false ob y Hcy).
    + split; [done|]. by apply pack_id_decodes.
  - destruct (WriteVariableWidthInt_spec (otp_Offset x - otp_Offset y)) as (l & Hwl & Hlb & Hll & Hlr); [unfold MaxInt64; lia|].
    exists hd, l, (OfsBase (otp_Offset x - otp_Offset y)).
    split; [|split; [done|split; [done|split; [unfold deltaType in Hhe; by rewrite Huse in Hhe|split; [done|split; [lia|split; [|by left]]]]]]].
    + unfold writeOfsDeltaHeader. rewrite (st_bind_Ok _ _ _ x _ (deref_otp i x (appended hd p) Hx)), (st_bind_Ok _ _ _ y _ (deref_otp b y (appended hd p) Hy)).
      ztest (otp_Offset x - otp_Offset y <=? 0) false.
      rewrite (st_bind_Ok _ _ _ l (appended hd p)); [unfold write, st_set, appended; cbn; by rewrite <-app_assoc|]. unfold st_lift. by rewrite Hwl.
    + split; [done|]. split; [done|lia].
Qed.

Lemma write_whole es w p i x o : writing es w p -> i ∉ w -> object_at m ids i o -> pk_heap p !! i = Some x -> otp_Base x = None ->
  otp_Object x = plain o -> otp_Original x = Some (plain o) ->
  exists p' e, write_object useRefDeltas i p = (Ok tt, p') /\ writing (es ++ [e]) (w ++ [i]) p'
    /\ pk_heap p' = <[i := set_offset (pos es (length es)) x]> (pk_heap p).
Proof.
  intros Hw Hi Hok Hx Hb Ho Hor. destruct (pos_bound _ _ _ Hw) as [Hout Hpos]. set (off := pos es (length es)) in *.
  unfold write_object. rewrite (st_bind_Ok Offset _ p off p) by (unfold Offset, st_get; by rewrite Hout).
  rewrite (st_bind_Ok _ _ _ _ _ (update_ok i _ x p Hx)). set (x' := set_offset off x). set (p1 := with_heap _ p).
  assert (pk_heap p1 !! i = Some x') as Hx1 by (cbn; apply list_lookup_insert_eq; by eapply lookup_lt_Some).
  rewrite (st_bind_Ok _ _ _ _ _ (deref_otp _ _ _ Hx1)). change (otp_Base x') with (otp_Base x). rewrite Hb.
  destruct (object_at_facts m ids Hreq i o Hok) as (_ & _ & Hst & Hbd & Hld). pose proof (len_nonneg (eo_Data o)).
  destruct (enc_entryHead_ok (eo_Type o) (len (eo_Data o)) p1) as (hd & Hhd & Hhb & Hhl & Hhe); [by destruct (eo_Type o)|lia|].
  assert ((t ← Type_of i; s ← Size_of i; enc_entryHead t s) p1 = (Ok tt, appended hd p1)) as Hh.
  { rewrite (st_bind_Ok (Type_of i) _ p1 (eo_Type o) p1).
    - rewrite (st_bind_Ok (Size_of i) _ p1 (len (eo_Data o)) p1); [done|]. unfold Size_of.
      rewrite (st_bind_Ok _ _ _ _ _ (deref_otp _ _ _ Hx1)). unfold st_lift, otp_Size. change (otp_Original x') with (otp_Original x). by rewrite Hor.
    - unfold Type_of. rewrite (st_bind_Ok (st_get _) _ _ _ _ eq_refl). unfold st_lift. f_equal.
      assert (length (pk_heap p1) <> 0%nat) as Hne by (apply lookup_lt_Some in Hx1; lia). destruct (length (pk_heap p1)); [done|].
      cbn [otp_Type]. rewrite Hx1. change (otp_Original x') with (otp_Original x). by rewrite Hor. }
  rewrite (st_bind_Ok _ _ _ _ _ Hh). change (otp_Object x') with (otp_Object x). rewrite Ho.
  set (e := {| en_type := eo_Type o; en_base := NoBase; en_data := eo_Data o; en_head := hd; en_ref := []; en_zip := deflate (eo_Data o) |}).
  eexists _, e. split; [reflexivity|]. split; [|done].
  replace (Build_Packing _ _ _) with (Build_Packing (<[i := x']> (pk_heap p)) (pk_storer p) (pk_out p ++ en_raw e)) by (unfold en_raw; cbn; by rewrite <-app_assoc).
  apply (writing_snoc es w p i x o); try done.
  - by apply cell_whole.
  - split; [done|by split; [destruct (eo_Type o)|]|by apply deflate_entry|cbn; lia].
  - unfold en_raw. cbn. apply bytes_ok_app. split; [done|]. by apply deflate_ok.
  - unfold en_raw. cbn. rewrite len_app. specialize (Hzip (eo_Data o)). lia.
  - intros heap _. by apply described_whole.
Qed.

Lemma write_delta es w p i x o b ob : writing es w p -> i ∉ w -> object_at m ids i o -> pk_heap p !! i = Some x -> cell m ids false o x ->
  otp_Base x = Some b -> b ∈ w -> object_at m ids b ob -> delta_over ob o (otp_Object x) ->
  exists p' e, write_object useRefDeltas i p = (Ok tt, p') /\ writing (es ++ [e]) (w ++ [i]) p'
    /\ pk_heap p' = <[i := set_offset (pos es (length es)) x]> (pk_heap p).
Proof.
  intros Hw Hi Hok Hx Hcell Hb Hbw Hob [Dt Db Dl Dty Dp]. destruct (pos_bound _ _ _ Hw) as [Hout Hpos]. set (off := pos es (length es)) in *.
  unfold write_object. rewrite (st_bind_Ok Offset _ p off p) by (unfold Offset, st_get; by rewrite Hout).
  rewrite (st_bind_Ok _ _ _ _ _ (update_ok i _ x p Hx)). set (x' := set_offset off x). set (p1 := with_heap _ p).
  assert (pk_heap p1 !! i = Some x') as Hx1 by (cbn; apply list_lookup_insert_eq; by eapply lookup_lt_Some).
  rewrite (st_bind_Ok _ _ _ _ _ (deref_otp _ _ _ Hx1)). change (otp_Base x') with (otp_Base x). rewrite Hb.
  destruct (good_lookup m ids Hreq false p b ob (wr_good _ _ _ Hw) Hob) as (y & Hy & Hcy).
  destruct (written_offset _ _ _ _ _ Hw Hbw Hy) as (jb & Hjb & Hoffb).
  assert ((jb < length es)%nat) as Hjl by (apply lookup_lt_Some in Hjb; rewrite <-(wr_len _ _ _ Hw); lia).
  assert (b <> i) as Hbi by by intros ->.
  assert (pk_heap p1 !! b = Some y) as Hy1 by (cbn; by rewrite list_lookup_insert_ne).
  assert (0 < pos es jb < off) as Hposb. { pose proof (pos_lower es jb). split; [lia|]. by apply (pos_mono fmt es (wr_entries _ _ _ Hw)). }
  destruct (writeDeltaHeader_ok p1 i x' b y ob Hx1 Hy1 Hob Hcy) as (hd & ref & rb & Hwr & Hhb & Hhl & Hhe & Hrb & Hrl & Hre & Hrbase); [by rewrite Hoffb|done|done|].
  rewrite Hoffb in Hrbase. change (otp_Offset x') with off in Hre, Hrbase.
  rewrite (st_bind_Ok _ _ _ _ _ Hwr). change (otp_Object x') with (otp_Object x) in *. set (d := po_Data (otp_Object x)) in *.
  set (e := {| en_type := deltaType; en_base := rb; en_data := d; en_head := hd; en_ref := ref; en_zip := deflate d |}).
  eexists _, e. split; [reflexivity|]. split; [|done].
  replace (Build_Packing _ _ _) with (Build_Packing (<[i := x']> (pk_heap p)) (pk_storer p) (pk_out p ++ en_raw e)) by (unfold en_raw; cbn; by rewrite <-!app_assoc).
  apply (writing_snoc es w p i x o); try done.
  - split; [done|done|by apply deflate_entry|cbn; lia].
  - unfold en_raw. cbn. rewrite !bytes_ok_app. split; [done|]. split; [done|]. by apply deflate_ok.
  - unfold en_raw. cbn. rewrite !len_app. specialize (Hzip d). lia.
  - intros heap Hheap. apply (described_delta _ _ _ _ _ _ _ jb b ob); try done.
    + by apply lookup_app_l_Some.
    + rewrite !pos_app by lia. done.
    + intros Hrk x2 y2 Hy2 Hx2. rewrite Hheap in Hy2, Hx2. rewrite list_lookup_insert_ne in Hy2 by done.
      rewrite list_lookup_insert_eq in Hx2 by (by eapply lookup_lt_Some). injection Hx2 as <-.
      by apply (wr_ranked _ _ _ Hw Hrk i x b y2).
Qed.

Lemma write_object_ok es w p i x o : writing es w p -> i ∉ w -> object_at m ids i o -> pk_heap p !! i = Some x -> cell m ids false o x ->
  (forall b, otp_Base x = Some b -> b ∈ w) ->
  exists p' e, write_object useRefDeltas i p = (Ok tt, p') /\ writing (es ++ [e]) (w ++ [i]) p'
    /\ pk_heap p' = <[i := set_offset (pos es (length es)) x]> (pk_heap p).
Proof.
  intros Hw Hi Hok Hx Hcell Hbase. pose proof Hcell as [Hb Ho Hor|b ob Hb Hob Hd _ _|]; [by eapply write_whole| |done].
  eapply write_delta; [done..|by apply Hbase|done|done].
Qed.

(** *** An object and its bases *)

Definition unmarked (heap : list ObjectToPack) : nat := length (filter (fun x => otp_Offset x = 0) heap).

Lemma unmarked_insert heap k x x' : heap !! k = Some x -> (otp_Offset x' = 0 -> otp_Offset x = 0) ->
  (unmarked (<[k := x']> heap) <= unmarked heap)%nat /\ (otp_Offset x = 0 -> otp_Offset x' <> 0 -> (unmarked (<[k := x']> heap) < unmarked heap)%nat).
Proof.
  intros Hk Himp. unfold unmarked. rewrite <-(take_drop_middle heap k x Hk) at 2 4.
  rewrite insert_take_drop by (by eapply lookup_lt_Some). rewrite !filter_app, !length_app, !filter_cons.
  destruct (decide (otp_Offset x = 0)), (decide (otp_Offset x' = 0)); cbn [length]; try lia; tauto.
Qed.

(** What a call leaves: the objects that wait for a base are as they were, or
    written. *)
Record extends (es : list PackScanner.entry) (w : list nat) p (es' : list PackScanner.entry) (w' : list nat) p' : Prop := {
  ex_written : w `prefix_of` w';
  ex_entries : es `prefix_of` es';
  ex_waiting : forall k x', pk_heap p' !! k = Some x' -> otp_Offset x' = 1 -> pk_heap p !! k = Some x';
  ex_fresh : forall k x', pk_heap p' !! k = Some x' -> otp_Offset x' = 0 -> exists x, pk_heap p !! k = Some x /\ otp_Offset x = 0;
  ex_unmarked : (unmarked (pk_heap p') <= unmarked (pk_heap p))%nat;
}.

Lemma extends_refl es w p : extends es w p es w p.
Proof. split; try done. eauto. Qed.

Lemma extends_trans es w p es1 w1 p1 es2 w2 p2 : extends es w p es1 w1 p1 -> extends es1 w1 p1 es2 w2 p2 -> extends es w p es2 w2 p2.
Proof.
  intros [E1 E2 E3 E4 E5] [F1 F2 F3 F4 F5]. split; [by etrans..| | |lia].
  - intros k x Hk Hx. auto.
  - intros k x Hk Hx. destruct (F4 k x Hk Hx) as (y & Hy & Hy0). eauto.
Qed.

Lemma pos_two es j : 2 <= pos es j.
Proof. pose proof (pos_lower es j). lia. Qed.

Lemma written_iff es w p k x : writing es w p -> pk_heap p !! k = Some x -> IsWritten x = bool_decide (k ∈ w).
Proof.
  intros Hw Hx. unfold IsWritten. destruct (wr_cells _ _ _ Hw k x Hx) as [[Hn [-> | ->]]|(j & Hj & ->)].
  - by rewrite bool_decide_eq_false_2.
  - by rewrite bool_decide_eq_false_2.
  - rewrite bool_decide_eq_true_2 by (by eapply list_elem_of_lookup_2). pose proof (pos_two es j). rewrite Z.gtb_ltb. apply Z.ltb_lt. pose proof (pos_lower es j). lia.
Qed.

(** An object met again while it waits for its base: it is written whole. *)
Lemma break_cycle es w p i x o : writing es w p -> i ∉ w -> object_at m ids i o -> pk_heap p !! i = Some x -> otp_Offset x = 1 ->
  exists p' x', (restoreOriginal i ;; update i BackToOriginal) p = (Ok tt, p') /\ writing es w p' /\ pk_heap p' = <[i := x']> (pk_heap p)
    /\ otp_Base x' = None /\ otp_Offset x' = 1.
Proof.
  intros Hw Hi Hok Hx Hoff. pose proof (wr_good _ _ _ Hw) as Hg.
  destruct (restore_raw m ids Hreq false p i o x Hg Hok Hx) as (st' & x1 & Hr & Hst & Hm & [R1 R2 R3 R4 R5]).
  rewrite (st_bind_Ok _ _ _ _ _ Hr). set (p1 := Build_Packing _ _ _).
  assert (pk_heap p1 !! i = Some x1) as Hx1 by (cbn; apply list_lookup_insert_eq; by eapply lookup_lt_Some).
  rewrite (update_ok i _ x1) by done. eexists _, (BackToOriginal x1). split; [reflexivity|].
  destruct (good_lookup m ids Hreq false p i o Hg Hok) as (x0 & Hx0 & Hc). rewrite Hx in Hx0. injection Hx0 as <-.
  pose proof (hk_depth _ _ _ _ (gd_heap _ _ _ _ Hg) i x Hx) as Hdep.
  assert (otp_Base (BackToOriginal x1) = None /\ otp_Offset (BackToOriginal x1) = 1 /\ otp_Object (BackToOriginal x1) = plain o
    /\ otp_Original (BackToOriginal x1) = Some (plain o)
    /\ (otp_Depth (BackToOriginal x1) = otp_Depth x \/ otp_Depth (BackToOriginal x1) = 0)) as (B1 & B2 & B3 & B4 & B5).
  { unfold BackToOriginal. rewrite R1. unfold otp_IsDelta. rewrite R3. destruct Hc as [Hb Ho Hor|b ob Hb _ _ _ _|]; [| |done]; rewrite Hb; cbn.
    - split_and!; [congruence|congruence|congruence|done|left; congruence].
    - split_and!; [done|congruence|done|done|by right]. }
  assert (pk_heap (with_heap (fun h => <[i := BackToOriginal x1]> h) p1) = <[i := BackToOriginal x1]> (pk_heap p)) as Hh by (cbn; apply list_insert_insert_eq).
  split; [|done]. unfold with_heap in *. cbn in Hh |- *. rewrite Hh.
  apply (writing_change es w p i (BackToOriginal x1) o st'); try done.
  - by apply cell_whole.
  - destruct B5 as [-> | ->]; lia.
  - by right.
  - intros Hrk. eapply ranked_same; [by apply Hw|done|by right|]. destruct B5 as [?|?]; [by left|right]. split; [done|]. split; [lia|done].
Qed.

Lemma written_waits es w p i : writing es w p -> i ∈ w -> forall x, pk_heap p !! i = Some x -> otp_Offset x <> 1 /\ otp_Offset x <> 0.
Proof. intros Hw Hi x Hx. destruct (written_offset _ _ _ _ _ Hw Hi Hx) as (j & _ & ->). pose proof (pos_lower es j). lia. Qed.

Lemma enter_ok es w p i x o : writing es w p -> object_at m ids i o -> pk_heap p !! i = Some x ->
  exists p1 x1, (if WantWrite x then restoreOriginal i ;; update i BackToOriginal else mret tt) p = (Ok tt, p1) /\ writing es w p1
    /\ pk_heap p1 = <[i := x1]> (pk_heap p) /\ otp_Offset x1 = otp_Offset x /\ (otp_Offset x = 1 -> otp_Base x1 = None).
Proof.
  intros Hw Hok Hx. unfold WantWrite. destruct (Z.eqb_spec (otp_Offset x) 1) as [Hoff|Hoff].
  - destruct (break_cycle es w p i x o) as (p1 & x1 & Hp1 & Hw1 & Hh1 & Hb1 & Hoff1); try done.
    + intros Hi. by destruct (written_waits es w p i Hw Hi x Hx).
    + exists p1, x1. rewrite Hoff. done.
  - exists p, x. rewrite list_insert_id by done. done.
Qed.

Lemma mark_ok es w p i x o : writing es w p -> i ∉ w -> object_at m ids i o -> pk_heap p !! i = Some x ->
  exists p', update i MarkWantWrite p = (Ok tt, p') /\ writing es w p' /\ pk_heap p' = <[i := MarkWantWrite x]> (pk_heap p).
Proof.
  intros Hw Hi Hok Hx. eexists. split; [by apply (update_ok i MarkWantWrite x)|]. split; [|done].
  destruct (good_cell m ids false p i x (wr_good _ _ _ Hw) Hx) as (o' & Ho' & Hc). rewrite (object_at_det m ids _ _ _ Ho' Hok) in Hc.
  apply (writing_change es w p i (MarkWantWrite x) o (pk_storer p)); try done; [| | | |apply (wr_good _ _ _ Hw)..].
  - destruct Hc; [by apply cell_whole|by eapply cell_delta|done].
  - by apply (hk_depth _ _ _ _ (gd_heap _ _ _ _ (wr_good _ _ _ Hw)) i x).
  - by right.
  - intros Hrk. eapply ranked_same; [by apply Hw|done|by left|by left].
Qed.

(** After the base was written: the object may have been, by a cycle. *)
Lemma leave_ok es w p i x o : writing es w p -> object_at m ids i o -> pk_heap p !! i = Some x -> i ∈ w \/ (forall b, otp_Base x = Some b -> b ∈ w) ->
  exists p' es' w', (o ← deref i; if IsWritten o then mret tt else write_object useRefDeltas i) p = (Ok tt, p')
    /\ writing es' w' p' /\ extends es w p es' w' p' /\ i ∈ w'.
Proof.
  intros Hw Hok Hx Hbase. rewrite (st_bind_Ok _ _ _ _ _ (deref_otp _ _ _ Hx)), (written_iff es w p i x Hw Hx).
  destruct (bool_decide (i ∈ w)) eqn:Hi.
  { apply bool_decide_eq_true in Hi. exists p, es, w. split; [done|]. split; [done|]. split; [apply extends_refl|done]. }
  apply bool_decide_eq_false in Hi. destruct Hbase as [?|Hbase]; [done|].
  destruct (good_cell m ids false p i x (wr_good _ _ _ Hw) Hx) as (o' & Ho' & Hc). rewrite (object_at_det m ids _ _ _ Ho' Hok) in Hc.
  destruct (write_object_ok es w p i x o Hw Hi Hok Hx Hc Hbase) as (p' & e & Hp' & Hw' & Hh').
  exists p', (es ++ [e]), (w ++ [i]). split; [done|]. split; [done|]. assert (i ∈ w ++ [i]) as Hin by (apply elem_of_app; right; by left).
  split; [|done]. pose proof (pos_lower es (length es)) as Hpos.
  destruct (unmarked_insert (pk_heap p) i x (set_offset (pos es (length es)) x) Hx) as [Hum _]; [cbn; lia|]. rewrite <-Hh' in Hum.
  split; [by eexists|by eexists| | |done]; intros k y Hk Hy; rewrite Hh' in Hk;
    (apply list_lookup_insert_Some in Hk as [(<- & <- & _)|[_ Hk]]; [cbn in Hy; lia|]); [done|by exists y].
Qed.

Lemma entry_written fuel : forall i es w p o, writing es w p -> object_at m ids i o -> (unmarked (pk_heap p) < fuel)%nat ->
  exists p' es' w', entry useRefDeltas fuel i p = (Ok tt, p') /\ writing es' w' p' /\ extends es w p es' w' p' /\ i ∈ w'.
Proof.
  induction fuel as [|f IH]; intros i es w p o Hw Hok Hf; [lia|]. cbn [entry].
  destruct (good_lookup m ids Hreq false p i o (wr_good _ _ _ Hw) Hok) as (x & Hx & _).
  rewrite (st_bind_Ok _ _ _ _ _ (deref_otp _ _ _ Hx)).
  destruct (enter_ok es w p i x o Hw Hok Hx) as (p1 & x1 & Hp1 & Hw1 & Hh1 & Hoff1 & Hb1). rewrite (st_bind_Ok _ _ _ _ _ Hp1).
  assert (pk_heap p1 !! i = Some x1) as Hx1 by (rewrite Hh1; apply list_lookup_insert_eq; by eapply lookup_lt_Some).
  rewrite (st_bind_Ok _ _ _ _ _ (deref_otp _ _ _ Hx1)), (written_iff es w p1 i x1 Hw1 Hx1).
  destruct (bool_decide (i ∈ w)) eqn:Hiw.
  { apply bool_decide_eq_true in Hiw. exists p1, es, w. split; [done|]. split; [done|]. split; [|done].
    destruct (written_waits es w p1 i Hw1 Hiw x1 Hx1). destruct (unmarked_insert (pk_heap p) i x x1 Hx ltac:(congruence)) as [Hum _]. rewrite <-Hh1 in Hum.
    split; [done|done| | |done]; intros k y Hk Hy; rewrite Hh1 in Hk; apply list_lookup_insert_Some in Hk as [(<- & <- & _)|[_ Hk]]; [done|done|done|by exists y]. }
  apply bool_decide_eq_false in Hiw.
  destruct (mark_ok es w p1 i x1 o Hw1 Hiw Hok Hx1) as (p2 & Hp2 & Hw2 & Hh2). rewrite (st_bind_Ok _ _ _ _ _ Hp2). set (x2 := MarkWantWrite x1) in *.
  rewrite Hh1, list_insert_insert_eq in Hh2.
  assert (pk_heap p2 !! i = Some x2) as Hx2 by (rewrite Hh2; apply list_lookup_insert_eq; by eapply lookup_lt_Some).
  rewrite (st_bind_Ok _ _ _ _ _ (deref_otp _ _ _ Hx2)).
  destruct (unmarked_insert (pk_heap p) i x x2 Hx ltac:(done)) as [Hum2 Hum2']. rewrite <-Hh2 in Hum2, Hum2'.
  assert (exists p3 es3 w3, (match otp_Base x2 with Some base => b ← deref base; if IsWritten b then mret tt else entry useRefDeltas f base | None => mret tt end) p2 = (Ok tt, p3)
    /\ writing es3 w3 p3 /\ extends es w p2 es3 w3 p3 /\ forall b, otp_Base x2 = Some b -> b ∈ w3) as (p3 & es3 & w3 & Hp3 & Hw3 & Hex3 & Hbase3).
  { destruct (otp_Base x2) as [b|] eqn:Hb; [|exists p2, es, w; split; [done|]; split; [done|]; split; [apply extends_refl|done]].
    destruct (good_cell m ids false p2 i x2 (wr_good _ _ _ Hw2) Hx2) as (o' & _ & [Hb' _ _|b' ob Hb' Hob _ _ _|]); [congruence| |done]. rewrite Hb in Hb'. injection Hb' as <-.
    destruct (good_lookup m ids Hreq false p2 b ob (wr_good _ _ _ Hw2) Hob) as (y & Hy & _).
    rewrite (st_bind_Ok _ _ _ _ _ (deref_otp _ _ _ Hy)), (written_iff es w p2 b y Hw2 Hy).
    destruct (bool_decide (b ∈ w)) eqn:Hbw; [apply bool_decide_eq_true in Hbw; exists p2, es, w; split; [done|]; split; [done|]; split; [apply extends_refl|]; by intros ? [= <-]|].
    destruct (IH b es w p2 ob Hw2 Hob) as (p3 & es3 & w3 & Hp3 & Hw3 & Hex3 & Hin3); [|by exists p3, es3, w3; split; [done|]; split; [done|]; split; [done|]; intros ? [= <-]].
    destruct (wr_cells _ _ _ Hw i x Hx) as [[_ [Hoff|Hoff]]|(j & Hj & _)]; [|specialize (Hb1 Hoff); cbn in Hb; congruence|by apply list_elem_of_lookup_2 in Hj].
    specialize (Hum2' Hoff). cbn [x2 MarkWantWrite set_offset otp_Offset] in Hum2'. lia. }
  rewrite (st_bind_Ok _ _ _ _ _ Hp3).
  destruct (good_lookup m ids Hreq false p3 i o (wr_good _ _ _ Hw3) Hok) as (x3 & Hx3 & _).
  destruct (leave_ok es3 w3 p3 i x3 o Hw3 Hok Hx3) as (p4 & es4 & w4 & Hp4 & Hw4 & Hex4 & Hi4).
  { (* a base is left only to an object that still waits, which is as it was *)
    destruct (wr_cells _ _ _ Hw3 i x3 Hx3) as [[_ [Hoff|Hoff]]|(j & Hj & _)].
    - destruct (ex_fresh _ _ _ _ _ _ Hex3 i x3 Hx3 Hoff) as (y & Hy & Hy0). rewrite Hx2 in Hy. by injection Hy as <-.
    - pose proof (ex_waiting _ _ _ _ _ _ Hex3 i x3 Hx3 Hoff) as Hy. rewrite Hx2 in Hy. injection Hy as <-. by right.
    - left. by eapply list_elem_of_lookup_2. }
  exists p4, es4, w4. split; [done|]. split; [done|]. split; [|done].
  destruct (extends_trans _ _ _ _ _ _ _ _ _ Hex3 Hex4) as [E1 E2 E3 E4 E5]. pose proof (written_waits es4 w4 p4 i Hw4 Hi4) as Hni.
  split; [done|done| | |lia].
  - intros k y Hk Hy. specialize (E3 k y Hk Hy). rewrite Hh2 in E3.
    apply list_lookup_insert_Some in E3 as [(<- & <- & _)|[_ ?]]; [by destruct (Hni _ Hk)|done].
  - intros k y Hk Hy. destruct (E4 k y Hk Hy) as (z & Hz & Hz0). rewrite Hh2 in Hz.
    apply list_lookup_insert_Some in Hz as [(<- & <- & _)|[_ ?]]; [done|by exists z].
Qed.

(** *** A pack *)

Lemma entries_ok_each fuel l : forall es w p, writing es w p -> (forall i, i ∈ l -> (i < length ids)%nat) -> (length ids < fuel)%nat ->
  exists p' es' w', st_each (entry useRefDeltas fuel) l p = (Ok tt, p') /\ writing es' w' p' /\ w `prefix_of` w' /\ forall i, i ∈ l -> i ∈ w'.
Proof.
  induction l as [|i l IH]; intros es w p Hw Hl Hf; cbn [st_each].
  - exists p, es, w. split; [done|]. split; [done|]. split; [done|]. by intros i Hi%elem_of_nil.
  - destruct (object_at_some m ids Hreq i) as [o Ho]; [apply Hl; by left|].
    destruct (entry_written fuel i es w p o Hw Ho) as (p1 & es1 & w1 & Hp1 & Hw1 & Hex & Hi).
    { pose proof (hk_length _ _ _ _ (gd_heap _ _ _ _ (wr_good _ _ _ Hw))). unfold unmarked.
      pose proof (length_filter (fun x => otp_Offset x = 0) (pk_heap p)). lia. }
    rewrite (st_bind_Ok _ _ _ _ _ Hp1). destruct (IH es1 w1 p1 Hw1) as (p2 & es2 & w2 & Hp2 & Hw2 & Hpre & Hl2); [intros; apply Hl; by right|done|].
    exists p2, es2, w2. split; [done|]. split; [done|]. split; [etrans; [apply Hex|done]|].
    intros j [->|Hj]%elem_of_cons; [by eapply elem_of_prefix|by apply Hl2].
Qed.

Lemma encode_ok l p : good m ids false p -> unwritten (pk_heap p) -> (rk -> ranked (fun _ => False) (pk_heap p)) -> pk_out p = [] ->
  l ≡ₚ seq 0 (length ids) -> len ids < 2 ^ 32 ->
  exists sum p' es w heap, encode digest fmt useRefDeltas l p = (Ok sum, p')
    /\ is_pack digest fmt (pk_out p') es sum [] /\ bytes_ok (pk_out p') /\ w ≡ₚ seq 0 (length ids)
    /\ writing es w heap.
Proof.
  intros Hg Ho Hrk Hout Hl Hn. unfold encode. assert (len l = len ids) as Hll by (unfold len; by rewrite Hl, length_seq).
  set (p1 := Build_Packing (pk_heap p) (pk_storer p) (pack_head (len ids))).
  rewrite (st_bind_Ok _ _ p tt p1).
  2: { unfold head, write, st_set. rewrite Hout, Hll, wrap_small by (pose proof (len_nonneg ids); lia). done. }
  rewrite (st_bind_Ok (st_get _) _ _ _ _ eq_refl).
  assert (writing [] [] p1) as Hw1.
  { split; try done.
    - split; [apply Hg..|]. apply Hg.
    - constructor.
    - by intros k Hk%elem_of_nil.
    - constructor.
    - intros k x Hk. left. split; [apply not_elem_of_nil|]. left. by eapply Ho. }
  destruct (entries_ok_each (length (pk_heap p1) + 2) l [] [] p1 Hw1) as (p2 & es & w & Hp2 & Hw2 & _ & Hin).
  { intros i. rewrite Hl. intros Hi%elem_of_seq. lia. }
  { change (pk_heap p1) with (pk_heap p). rewrite (hk_length _ _ _ _ (gd_heap _ _ _ _ Hg)). lia. }
  rewrite (st_bind_Ok _ _ _ _ _ Hp2).
  assert (w ≡ₚ seq 0 (length ids)) as Hperm.
  { apply NoDup_Permutation; [apply Hw2|apply NoDup_seq|]. intros k. split.
    - intros Hk%(wr_in _ _ _ Hw2). apply elem_of_seq. lia.
    - intros Hk. apply Hin. by rewrite Hl. }
  assert (len es = len ids) as Hles by (unfold len; by rewrite <-(wr_len _ _ _ Hw2), Hperm, length_seq).
  assert (pk_out p2 = pack_body es) as Hbody by (rewrite (wr_out _ _ _ Hw2); unfold pack_body; by rewrite Hles).
  destruct (Hdigest (pk_out p2)) as [Hdl Hdb]. destruct (id_format_facts fmt) as (Hf & Hfs & _).
  pose proof (digest_id digest fmt (pk_out p2) Hdigest) as Hpid. set (sum := oid_of _ _) in *.
  assert (Bytes sum = digest (id_format fmt) (pk_out p2)) as Hsum by (apply oid_of_Bytes; congruence).
  unfold footer. rewrite (st_bind_Ok (st_get _) _ _ _ _ eq_refl), (FromBytes_of _ (id_format fmt) Hf) by congruence. fold sum.
  eexists sum, _, es, w, p2. split; [reflexivity|]. cbn [pk_out]. split_and!; [| |done|done].
  - split.
    + exists (Bytes sum). split; [by rewrite app_nil_r, Hbody|]. by apply pack_id_decodes.
    + lia.
    + apply Hw2.
    + by rewrite Hsum, Hbody.
  - apply bytes_ok_app. split; [|by apply (pack_id_bytes fmt)]. rewrite (wr_out _ _ _ Hw2). apply bytes_ok_app. split; [|apply Hw2].
    unfold pack_head. apply bytes_ok_app. split; [apply (bool_decide_unpack _); vm_compute; exact I|]. apply bytes_ok_app. split; apply be_bytes_ok.
Qed.

(** *** What the pack stands for *)

Hypothesis Hnodup : NoDup ids.

Section resolved.
Context (es : list PackScanner.entry) (w : list nat) (p : Packing S).
Hypothesis Hw : writing es w p.
Hypothesis Hall : w ≡ₚ seq 0 (length ids).

#[local] Notation stands := (stands digest fmt es ∅).

Lemma object_at_inj k k' o : object_at m ids k o -> object_at m ids k' o -> k = k'.
Proof.
  intros Hk Hk'. destruct (object_at_facts m ids Hreq k o Hk) as (H1' & _). destruct (object_at_facts m ids Hreq k' o Hk') as (H2' & _).
  by eapply NoDup_lookup.
Qed.

Lemma entry_object j e : es !! j = Some e -> exists k o, w !! j = Some k /\ object_at m ids k o /\ described (pk_heap p) es w j k o e.
Proof.
  intros Hj. destruct (lookup_lt_is_Some_2 w j) as [k Hk]; [rewrite (wr_len _ _ _ Hw); by eapply lookup_lt_Some|].
  destruct (object_at_some m ids Hreq k) as [o Ho]; [apply (wr_in _ _ _ Hw); by eapply list_elem_of_lookup_2|].
  exists k, o. split; [done|]. split; [done|]. by eapply (wr_desc _ _ _ Hw).
Qed.

(** What stands at a position is the object written there, over a number of
    deltas that is bounded. *)
Lemma stands_written d off t c : stands d off t c -> exists j k o, off = pos es j /\ (j < length es)%nat /\ w !! j = Some k /\ object_at m ids k o
  /\ t = eo_Type o /\ c = eo_Data o /\ 0 <= d <= Z.of_nat j /\ (rk -> d <= 50) /\ (rk -> forall x, pk_heap p !! k = Some x -> d <= otp_Depth x).
Proof.
  induction 1 as [off e He Hb|d off e n t s c He Hb Hs IH Hp|d off off' e h t s c He Hb Hs IH Hh Hp|off e h o c He Hb Ho Hp]; [..|by rewrite lookup_empty in Ho];
    apply entry_at_lookup in He as (j & Hj & ->); destruct (entry_object j e Hj) as (k & o & Hk & Hok & Hdesc); pose proof (lookup_lt_Some _ _ _ Hj) as Hjl.
  - exists j, k, o. destruct Hdesc as [_ Ht Hd|jb b ob _ _ _ _ _ [Hb'|Hb'] _]; [|congruence..].
    split_and!; try done; try lia. intros _ x Hx. apply (hk_depth _ _ _ _ (gd_heap _ _ _ _ (wr_good _ _ _ Hw)) k x Hx).
  - destruct Hdesc as [Hb' _ _|jb b ob Hlt Hjb Hob Hty Hpt [Hb'|Hb'] Hr]; [congruence| |congruence].
    rewrite Hb in Hb'. injection Hb' as ->. destruct IH as (j' & k' & o' & Hpos & Hj' & Hk' & Ho' & -> & -> & Hd & Hd50 & Hdx).
    assert (jb = j') as <-. { apply (pos_inj fmt es (wr_entries _ _ _ Hw)); lia. }
    rewrite Hjb in Hk'. injection Hk' as <-. rewrite <-(object_at_det m ids _ _ _ Hob Ho') in *. rewrite Hpt in Hp. injection Hp as <-.
    destruct (good_lookup m ids Hreq false p b ob (wr_good _ _ _ Hw) Hob) as (y & Hy & _).
    destruct (good_lookup m ids Hreq false p k o (wr_good _ _ _ Hw) Hok) as (x & Hx & _).
    exists j, k, o. split_and!; try done; try lia.
    + intros Hrk. specialize (Hr Hrk x y Hy Hx). specialize (Hdx Hrk y Hy). lia.
    + intros Hrk x' Hx'. rewrite Hx in Hx'. injection Hx' as <-. specialize (Hr Hrk x y Hy Hx). specialize (Hdx Hrk y Hy). lia.
  - destruct Hdesc as [Hb' _ _|jb b ob Hlt Hjb Hob Hty Hpt [Hb'|Hb'] Hr]; [congruence|congruence|].
    rewrite Hb in Hb'. injection Hb' as ->. destruct IH as (j' & k' & o' & -> & Hj' & Hk' & Ho' & -> & -> & Hd & Hd50 & Hdx).
    rewrite (Hids k' o' Ho') in Hh.
    assert (ob = o') as <-. { destruct (object_at_facts m ids Hreq _ _ Hob) as (_ & M1 & _). destruct (object_at_facts m ids Hreq _ _ Ho') as (_ & M2 & _). congruence. }
    assert (b = k') as <- by by eapply object_at_inj. assert (jb = j') as <-. { eapply NoDup_lookup; [apply Hw|done..]. }
    rewrite Hpt in Hp. injection Hp as <-.
    destruct (good_lookup m ids Hreq false p b ob (wr_good _ _ _ Hw) Hob) as (y & Hy & _).
    destruct (good_lookup m ids Hreq false p k o (wr_good _ _ _ Hw) Hok) as (x & Hx & _).
    exists j, k, o. split_and!; try done; try lia.
    + intros Hrk. specialize (Hr Hrk x y Hy Hx). specialize (Hdx Hrk y Hy). lia.
    + intros Hrk x' Hx'. rewrite Hx in Hx'. injection Hx' as <-. specialize (Hr Hrk x y Hy Hx). specialize (Hdx Hrk y Hy). lia.
Qed.

(** Every entry stands for the object written there. *)
Lemma written_stands j k o : w !! j = Some k -> object_at m ids k o -> exists d, stands d (pos es j) (eo_Type o) (eo_Data o).
Proof.
  revert k o. induction j as [j IH] using lt_wf_ind. intros k o Hk Hok.
  destruct (lookup_lt_is_Some_2 es j) as [e He]; [rewrite <-(wr_len _ _ _ Hw); by eapply lookup_lt_Some|].
  pose proof (entry_at_pos es j e He) as Hat.
  destruct (wr_desc _ _ _ Hw j k o e Hk Hok He) as [Hb <- <-|jb b ob Hlt Hjb Hob <- Hp [Hb|Hb] _].
  - exists 0. by apply stands_object.
  - destruct (IH jb Hlt b ob Hjb Hob) as [d Hd]. exists (d + 1). eapply stands_ofs; [done..| |done].
    by replace (pos es j - (pos es j - pos es jb)) with (pos es jb) by lia.
  - destruct (IH jb Hlt b ob Hjb Hob) as [d Hd]. exists (d + 1). eapply stands_ref; [done..|by apply Hids in Hob as ->|done].
Qed.

Hypothesis Hnonzero : forall h, h ∈ ids -> IsZero h = false.
Hypothesis Hdepth : forall d off t c, stands d off t c -> d <= maxDeltaChainDepth.

Lemma written_object t c : an_object digest fmt es ∅ t c -> exists k o, object_at m ids k o /\ t = eo_Type o /\ c = eo_Data o /\ object_id digest fmt t c = eo_Hash o.
Proof.
  intros [(d & off & Hs)|[h Hh]]; [|by rewrite lookup_empty in Hh].
  destruct (stands_written d off t c Hs) as (j & k & o & _ & _ & _ & Hok & -> & -> & _). exists k, o. split_and!; try done. by eapply Hids.
Qed.

Lemma written_resolvable : resolvable digest fmt es ∅.
Proof.
  split.
  - intros off e (j & Hj & ->)%entry_at_lookup. destruct (entry_object j e Hj) as (k & o & Hk & Hok & _).
    destruct (written_stands j k o Hk Hok) as [d Hd]. by exists d, (eo_Type o), (eo_Data o).
  - done.
  - intros off e h (j & Hj & ->)%entry_at_lookup Hb. destruct (entry_object j e Hj) as (k & o & Hk & Hok & Hdesc). right; left.
    destruct Hdesc as [Hb' _ _|jb b ob Hlt Hjb Hob Hty Hpt [Hb'|Hb'] Hr]; [congruence|congruence|]. rewrite Hb in Hb'. injection Hb' as ->.
    destruct (written_stands jb b ob Hjb Hob) as [d Hd]. exists d, (pos es jb), (eo_Type ob), (eo_Data ob). split; [done|]. split; [|by eapply Hids].
    apply (pos_mono fmt es (wr_entries _ _ _ Hw)); [done|]. apply lookup_lt_Some in Hj. lia.
  - intros h o. by rewrite lookup_empty.
  - intros t c t' c' (k & o & Hok & -> & -> & Hi)%written_object (k' & o' & Hok' & -> & -> & Hi')%written_object Heq.
    destruct (object_at_facts m ids Hreq _ _ Hok) as (_ & M1 & _). destruct (object_at_facts m ids Hreq _ _ Hok') as (_ & M2 & _).
    assert (o = o') as -> by congruence. done.
  - intros t c (k & o & Hok & -> & -> & ->)%written_object. apply Hnonzero. destruct (object_at_facts m ids Hreq _ _ Hok) as (Hi & _). by eapply list_elem_of_lookup_2.
Qed.
End resolved.
End writing.

(** ** Written and read back *)

(** What is asked of the objects to send: they are there, of at most 4 GiB,
    each under its identifier, which is not zero, and listed once. *)
Record packable (digest : ObjectFormat -> bytes -> bytes) (fmt : ObjectFormat) (m : ObjectMap) (ids : list ObjectID) : Prop := {
  pb_requested : requested m ids;
  pb_nodup : NoDup ids;
  pb_ids : forall h o, h ∈ ids -> m !! h = Some o -> object_id digest fmt (eo_Type o) (eo_Data o) = h;
  pb_nonzero : forall h, h ∈ ids -> IsZero h = false;
}.

(** The bounds: of a compressed object, of the number of objects, and of the
    window; a reused delta may lengthen the chains to the number of objects,
    and the depth is multiplied with a size. *)
Record within_bounds `{Zlib} (zbound : Z) (reuse : Prop) (ids : list ObjectID) (packWindow : Z) : Prop := {
  wb_zip : forall x, len x < 2 ^ 36 -> len (deflate x) <= zbound;
  wb_size : len ids * (zbound + 64) < 2 ^ 62;
  wb_count : len ids < 2 ^ 32;
  wb_reuse : ~ reuse \/ len ids < 2 ^ 26;
  wb_window : 0 <= packWindow < 2 ^ 63;
}.

Section roundtrip.
Context {S R Ob : Type} `{LawfulObjects S, DeltaObjectStorer S, !LawfulDeltas S, Zlib, LawfulRaw R digest fmt, Observer Ob}.
Context (Sort : (keyed -> keyed -> bool) -> list keyed -> list keyed) (HSort : sorts Sort) (Hdigest : digest_ok digest fmt).
Context (useRefDeltas : bool) (s : S) (ids : list ObjectID) (w zbound : Z).

Hypothesis Hok : objs_ok s.
Hypothesis Hpack : packable digest fmt (objs s) ids.
Hypothesis Hbounds : within_bounds zbound (DeltaObject (S := S) <> None) ids w.

#[local] Notation m := (objs s).

Lemma packable_at k o : object_at m ids k o -> object_id digest fmt (eo_Type o) (eo_Data o) = eo_Hash o.
Proof.
  intros Hk. destruct (object_at_facts m ids (pb_requested _ _ _ _ Hpack) k o Hk) as (Hi & Hm & _).
  eapply (pb_ids _ _ _ _ Hpack); [by eapply list_elem_of_lookup_2|done].
Qed.

Lemma no_reuse : DeltaObject (S := S) = None \/ len ids < 2 ^ 26.
Proof. destruct (wb_reuse _ _ _ _ Hbounds) as [Hn|]; [left; destruct DeltaObject; [by destruct Hn|done]|by right]. Qed.

Lemma Encode_ok : exists sum p es wr q, Encode digest Sort fmt useRefDeltas ids w (NewEncoder s) = (Ok sum, p)
  /\ is_pack digest fmt (pk_out p) es sum [] /\ bytes_ok (pk_out p) /\ wr ≡ₚ seq 0 (length ids)
  /\ writing fmt m ids zbound (DeltaObject (S := S) = None) es wr q /\ length es = length ids
  /\ (forall d off t c, stands digest fmt es ∅ d off t c -> d < len ids /\ (DeltaObject (S := S) = None -> d <= maxDepth))
  /\ ((forall d off t c, stands digest fmt es ∅ d off t c -> d <= maxDeltaChainDepth) -> resolvable digest fmt es ∅).
Proof.
  pose proof (pb_requested _ _ _ _ Hpack) as Hreq. destruct Hbounds as [Hzip Hsize Hn _ Hwin]. pose proof no_reuse as Hreuse.
  destruct (ObjectsToPack_ok digest Sort m ids Hreq Hreuse HSort w (NewEncoder s) Hok eq_refl eq_refl Hwin Hn) as (l & p1 & Hp1 & Hl & [Hg Ho Hrk] & Hout).
  destruct (encode_ok digest fmt useRefDeltas m ids zbound (DeltaObject (S := S) = None) Hreq Hdigest packable_at Hzip Hsize l p1 Hg Ho) as (sum & p2 & es & wr & q & Hp2 & Hpk & Hb & Hwr & Hw);
    [intros ?; apply Hrk; by left|done|done|done|].
  exists sum, p2, es, wr, q. unfold Encode. rewrite (st_bind_Ok _ _ _ _ _ Hp1). split_and!; try done.
  - by rewrite <-(wr_len _ _ _ _ _ _ _ _ Hw), Hwr, length_seq.
  - intros d off t c Hd. destruct (stands_written digest fmt m ids zbound _ Hreq packable_at (pb_nodup _ _ _ _ Hpack) es wr q Hw _ _ _ _ Hd)
      as (j & _ & _ & _ & Hj & _ & _ & _ & _ & Hdj & Hd50 & _).
    rewrite <-(wr_len _ _ _ _ _ _ _ _ Hw), Hwr, length_seq in Hj. split; [unfold len; lia|exact Hd50].
  - intros Hch. eapply written_resolvable; try done; [apply packable_at|apply Hpack|apply Hpack].
Qed.

(** Chains are short when no delta is reused, or of few objects. *)
Lemma chains_short es : (forall d off t c, stands digest fmt es ∅ d off t c -> d < len ids /\ (DeltaObject (S := S) = None -> d <= maxDepth)) ->
  DeltaObject (S := S) = None \/ len ids <= maxDeltaChainDepth -> forall d off t c, stands digest fmt es ∅ d off t c -> d <= maxDeltaChainDepth.
Proof.
  intros Hd Hshort d off t c Hs. destruct (Hd _ _ _ _ Hs) as [Hn H50]. destruct Hshort as [Hdo|Hl]; [specialize (H50 Hdo)|].
  - unfold maxDepth, maxDeltaChainDepth in *. lia.
  - lia.
Qed.

End roundtrip.

(** *** An example: a cycle

    A repository that stores one blob as a delta of another; the selection
    makes the other a delta of the first. *)
Definition toy_blob (c : bytes) : Object.EncodedObject := {| eo_Type := BlobObject; eo_Hash := hasher_Sum toy_digest SHA1 BlobObject (len c) c; eo_Data := c |}.

Definition blob_a : Object.EncodedObject := toy_blob (Z.of_nat <$> seq 1 60).
Definition blob_b : Object.EncodedObject := toy_blob ((Z.of_nat <$> seq 1 60) ++ [1; 2; 3; 4]).
Definition delta_b : PackObject := {| po_Type := OFSDeltaObject; po_Hash := ZeroHash; po_Data := [60; 64; 144; 60; 4; 1; 2; 3; 4];
  po_delta := Some {| BaseHash := eo_Hash blob_a; ActualHash := eo_Hash blob_b; ActualSize := 64 |} |}.

#[local] Instance blobs_order : RangeOrder ObjectID EncodedObject := listing_range _ _.

Definition as_stored (st : ObjectStorage) (o : Object.EncodedObject) : PackObject :=
  if bool_decide (o = blob_b) && bool_decide (Objects st !! eo_Hash blob_a = Some blob_a) then delta_b else plain o.

Definition stored_deltas : DeltaObjectStorer ObjectStorage := Some (fun t h st =>
  (o ← find_object (Objects st) t h; mret (as_stored st o), st)).

Lemma stored_deltas_lawful : LawfulDeltas (H1 := stored_deltas) ObjectStorage.
Proof.
  intros get [= <-] s h Hok. change (objs s) with (Objects s). unfold find_object. destruct (Objects s !! h) as [o|] eqn:Ho; [|by eexists _, _].
  eexists _, _. split; [reflexivity|]. split; [done|]. split; [done|].
  exists (as_stored s o). split; [done|]. unfold as_stored.
  destruct (bool_decide (o = blob_b)) eqn:Hb; [|by left]. apply bool_decide_eq_true in Hb as ->.
  destruct (bool_decide (Objects s !! eo_Hash blob_a = Some blob_a)) eqn:Ha; [right|by left]. apply bool_decide_eq_true in Ha.
  destruct (objs_keys s h blob_b Hok Ho) as [<- _]. split; [done|apply (bool_decide_unpack _); vm_compute; exact I|done|done|].
  eexists. split; [reflexivity|]. split; [done|]. cbn [BaseHash]. intros b. rewrite Ha. intros [= <-]. split; [done|]. vm_compute. reflexivity.
Qed.

Definition blobs_repository : ObjectStorage := (mem_SetEncodedObject blob_b (mem_SetEncodedObject blob_a empty_objects).2).2.
Definition blob_ids : list ObjectID := [eo_Hash blob_a; eo_Hash blob_b].

Example cyclic_pack :
  match Encode (H0 := stored_deltas) (H1 := toy_zlib) toy_digest insertion_sort SHA1 false blob_ids 10 (NewEncoder blobs_repository) with
  | (Ok _, p) => otp_Base <$> pk_heap p
  | _ => []
  end = [Some 1%nat; None].
Proof. vm_compute. reflexivity. Qed.

Lemma toy_deflate_len x : len (toy_deflate x) = 2 * len x + 1.
Proof. induction x as [|b x IH]; [done|]. cbn [toy_deflate]. rewrite !len_cons, IH. lia. Qed.

Lemma toy_digest_ok f : digest_ok toy_digest f.
Proof.
  intros d. destruct (id_format_facts f) as (_ & <- & _). unfold toy_digest. rewrite be_bytes_len. split; [|apply be_bytes_ok].
  by destruct (id_format f).
Qed.

Lemma blobs_ok : mem_objects_ok blobs_repository
  /\ Objects blobs_repository = <[eo_Hash blob_b := blob_b]> (<[eo_Hash blob_a := blob_a]> ∅).
Proof.
  destruct (mem_Set_spec empty_objects blob_a empty_objects_ok) as (s1 & H1' & Hok1 & Hm1); [by intros o'; cbn [Objects empty_objects]; rewrite lookup_empty|done|].
  destruct (mem_Set_spec s1 blob_b Hok1) as (s2 & H2' & Hok2 & Hm2); [|done|].
  - intros o'. rewrite Hm1. change (Objects empty_objects) with (∅ : ObjectMap). intros Ho. assert (eo_Hash blob_a <> eo_Hash blob_b) as Hne by (apply (bool_decide_unpack _); vm_compute; exact I).
    by rewrite lookup_insert_ne, lookup_empty in Ho.
  - unfold blobs_repository. rewrite H1'. cbn [snd]. rewrite H2'. cbn [snd]. split; [done|]. by rewrite Hm2, Hm1.
Qed.

Lemma blobs_packable : packable toy_digest SHA1 (Objects blobs_repository) blob_ids.
Proof.
  destruct blobs_ok as [_ ->]. set (m := <[eo_Hash blob_b := blob_b]> _).
  assert (forall h, h ∈ blob_ids -> exists o, (o = blob_a \/ o = blob_b) /\ eo_Hash o = h /\ m !! h = Some o) as Hin.
  { intros h. unfold blob_ids. rewrite !elem_of_cons, elem_of_nil. intros [->|[->|[]]].
    - exists blob_a. split; [by left|]. split; [done|]. apply lookup_insert_Some. right.
      split; [apply (bool_decide_unpack _); vm_compute; exact I|]. apply lookup_insert_eq.
    - exists blob_b. split; [by right|]. split; [done|]. apply lookup_insert_eq. }
  split.
  - intros h Hh. destruct (Hin h Hh) as (o & Ho & He & Hm). exists o. split; [done|]. split; [done|].
    destruct Ho as [-> | ->]; (split; [done|]; split; [apply (bool_decide_unpack _); vm_compute; exact I|vm_compute; discriminate]).
  - apply (bool_decide_unpack _). vm_compute. exact I.
  - intros h o Hh Hm. destruct (Hin h Hh) as (o' & Ho & <- & Hm'). rewrite Hm in Hm'. injection Hm' as ->. by destruct Ho as [-> | ->].
  - intros h Hh. destruct (Hin h Hh) as (o & [-> | ->] & <- & _); vm_compute; reflexivity.
Qed.

Lemma blobs_bounds : @within_bounds toy_zlib (2 ^ 38) (stored_deltas <> None) blob_ids 10.
Proof.
  split; [|done|done|by right|done]. intros x Hx. change (deflate x) with (toy_deflate x). rewrite toy_deflate_len. lia.
Qed.

