(* ===== verification/Packfile.v ===== *)
(** * Objects of a pack: [plumbing/format/packfile/packfile.go], [packfile_iter.go], [packfile_options.go]

    A [Packfile] serves the objects of a pack by identifier and by position,
    over an index, a cache and the scanner.  The index and the cache are
    interfaces in the source and classes here, with the laws the theorems use;
    [MemoryIndex] and [ObjectLRU] are their instances.  The source of the bytes
    is a file or a handle.  Modelled is the mode without [WithFs], in which
    objects are held in memory; the mutex serialises whole calls and is left
    out. *)
From stdpp Require Import base list gmap numbers option strings sorting.
From Stdlib Require Import ZArith Lia.
From S2P Require Import Prelude State GoStrings Varint PatchDelta ObjectId Object Idxfile IdxLookup IdxWrite Storer MemStorage ObjectStore Lru PackScanner.
From S2P Require Import PackParser PackResolve PackSelect PackEncoder.

Open Scope Z_scope.

(** ** The interfaces *)

(** [idxfile.Index], as far as a pack file uses it, with its iterator. *)
Class PackIndex (I : Type) := {
  pi_Iter : Type;
  pi_FindOffset : ObjectID -> I -> outcome idx_error Z * I;
  pi_FindHash : Z -> I -> outcome idx_error ObjectID * I;
  pi_EntriesByOffset : I -> outcome idx_error pi_Iter;
  pi_Next : pi_Iter -> outcome idx_error (option Entry * pi_Iter);
}.

(** [cache.Object]; the methods have no errors. *)
Class ObjectCache (C : Type) := {
  oc_Get : ObjectID -> C -> outcome unit (option EncodedObject * C);
  oc_Put : EncodedObject -> C -> outcome unit C;
  oc_NewDefault : C;
}.

#[export] Instance memory_index : PackIndex MemoryIndex := {|
  pi_Iter := idxfileEntryOffsetIter;
  pi_FindOffset h i := match FindOffset i h with
    | Ok (o, i') => (Ok o, i') | Err e => (Err e, i) | Panic => (Panic, i) | NoFuel => (NoFuel, i) end;
  pi_FindHash o i := match FindHash i o with
    | Ok (inl h, i') => (Ok h, i') | Ok (inr e, i') => (Err e, i') | Err e => (Err e, i) | Panic => (Panic, i) | NoFuel => (NoFuel, i) end;
  pi_EntriesByOffset := EntriesByOffset;
  pi_Next := EntriesByOffset_Next;
|}.

#[export] Instance object_lru : ObjectCache (@LRU ObjectID EncodedObject _ _) := {|
  oc_Get := Lru.Get;
  oc_Put := Lru.Put;
  oc_NewDefault := NewLRUDefault;
|}.

(** ** The state *)

(** A file or reader: its bytes, and whether closing it gives no error. *)
Record pack_source := { ps_bytes : bytes; ps_closes : bool }.

(** A handle gives a reader over the pack and its hash, or errors. *)
Record PackHandle := { OpenPackReader : option pack_source; h_PackHash : option ObjectID }.

Inductive packfile_error :=
  | PfClosed
  | PfNoFile
  | PfNoIndex
  | PfHandle
  | PfSource
  | PfScan (e : scan_error)
  | PfIndex (e : idx_error)
  | PfObjectNotFound
  | PfBase (e : packfile_error)
  | PfInflate (e : scan_error)
  | PfDelta (e : delta_error)
  | PfInvalidObject
  | PfInvalidType
  | PfEOF.

(** [pf_once] is the outcome of [init] once it has run; a resolver that is set
    gives a handle or an error. *)
Record Packfile (I C : Type) := {
  pf_file : option pack_source;
  pf_resolve : option (option PackHandle);
  pf_handle : option PackHandle;
  pf_reader : option pack_source;
  pf_index : option I;
  pf_cache : option C;
  pf_scanner : option (Scanner Empty_set);
  pf_id : ObjectID;
  pf_idSize : Z;
  pf_once : option (option packfile_error);
  pf_closed : bool;
}.
Arguments pf_file {I C}. Arguments pf_resolve {I C}. Arguments pf_handle {I C}. Arguments pf_reader {I C}.
Arguments pf_index {I C}. Arguments pf_cache {I C}. Arguments pf_scanner {I C}. Arguments pf_id {I C}.
Arguments pf_idSize {I C}. Arguments pf_once {I C}. Arguments pf_closed {I C}. Arguments Build_Packfile {I C}.

Section setters.
Context {I C : Type}.
Implicit Types p : Packfile I C.

Definition pf_set_file p f := Build_Packfile f (pf_resolve p) (pf_handle p) (pf_reader p) (pf_index p) (pf_cache p) (pf_scanner p) (pf_id p) (pf_idSize p) (pf_once p) (pf_closed p).
Definition pf_set_resolve p r := Build_Packfile (pf_file p) r (pf_handle p) (pf_reader p) (pf_index p) (pf_cache p) (pf_scanner p) (pf_id p) (pf_idSize p) (pf_once p) (pf_closed p).
Definition pf_set_handle p h := Build_Packfile (pf_file p) (pf_resolve p) h (pf_reader p) (pf_index p) (pf_cache p) (pf_scanner p) (pf_id p) (pf_idSize p) (pf_once p) (pf_closed p).
Definition pf_set_reader p r := Build_Packfile (pf_file p) (pf_resolve p) (pf_handle p) r (pf_index p) (pf_cache p) (pf_scanner p) (pf_id p) (pf_idSize p) (pf_once p) (pf_closed p).
Definition pf_set_index p (i : option I) := Build_Packfile (pf_file p) (pf_resolve p) (pf_handle p) (pf_reader p) i (pf_cache p) (pf_scanner p) (pf_id p) (pf_idSize p) (pf_once p) (pf_closed p).
Definition pf_set_cache p (c : option C) := Build_Packfile (pf_file p) (pf_resolve p) (pf_handle p) (pf_reader p) (pf_index p) c (pf_scanner p) (pf_id p) (pf_idSize p) (pf_once p) (pf_closed p).
Definition pf_set_scanner p s := Build_Packfile (pf_file p) (pf_resolve p) (pf_handle p) (pf_reader p) (pf_index p) (pf_cache p) s (pf_id p) (pf_idSize p) (pf_once p) (pf_closed p).
Definition pf_set_id p h := Build_Packfile (pf_file p) (pf_resolve p) (pf_handle p) (pf_reader p) (pf_index p) (pf_cache p) (pf_scanner p) h (pf_idSize p) (pf_once p) (pf_closed p).
Definition pf_set_idSize p n := Build_Packfile (pf_file p) (pf_resolve p) (pf_handle p) (pf_reader p) (pf_index p) (pf_cache p) (pf_scanner p) (pf_id p) n (pf_once p) (pf_closed p).
Definition pf_set_once p o := Build_Packfile (pf_file p) (pf_resolve p) (pf_handle p) (pf_reader p) (pf_index p) (pf_cache p) (pf_scanner p) (pf_id p) (pf_idSize p) o (pf_closed p).
Definition pf_set_closed p := Build_Packfile (pf_file p) (pf_resolve p) (pf_handle p) (pf_reader p) (pf_index p) (pf_cache p) (pf_scanner p) (pf_id p) (pf_idSize p) (pf_once p) true.
End setters.

(** The scanner writes to no storage. *)
#[export] Instance no_storer : RawStorer Empty_set := {|
  RawObjectWriter t n := fun s : Empty_set => match s with end;
  raw_close t n d := fun s : Empty_set => match s with end;
  raw_object t h := fun s : Empty_set => match s with end;
|}.

Section packfile.
Context {I C : Type} `{PackIndex I, ObjectCache C, Zlib} (digest : ObjectFormat -> bytes -> bytes).

Abbreviation PF := (ST packfile_error (Packfile I C)).

(** ** Options *)

Definition WithCache (c : C) (p : Packfile I C) : Packfile I C := pf_set_cache p (Some c).
Definition WithIdx (i : I) (p : Packfile I C) : Packfile I C := pf_set_index p (Some i).
Definition WithObjectIDSize (sz : Z) (p : Packfile I C) : Packfile I C := pf_set_idSize p sz.
Definition WithPackHandle (get : option PackHandle) (p : Packfile I C) : Packfile I C := pf_set_resolve p (Some get).

Definition NewPackfile (file : option pack_source) (opts : list (Packfile I C -> Packfile I C)) : Packfile I C :=
  let p := Build_Packfile file None None None None None None ZeroHash SHA1Size None false in
  let p := foldl (fun p opt => opt p) p opts in
  match pf_resolve p, file with Some _, Some _ => pf_set_file p None | _, _ => p end.

(** ** Access to the parts *)

Definition scan_format (p : Packfile I C) : ObjectFormat := if pf_idSize p =? SHA256Size then SHA256 else SHA1.

(** A nil scanner, index or cache is dereferenced. *)
Definition on_scanner {A} (m : ObjectFormat -> ST scan_error (Scanner Empty_set) A) : PF A := fun p =>
  match pf_scanner p with
  | Some sc => let '(r, sc) := m (scan_format p) sc in (map_err PfScan r, pf_set_scanner p (Some sc))
  | None => (Panic, p)
  end.

Definition on_index {A} (m : I -> outcome idx_error A * I) : PF A := fun p =>
  match pf_index p with
  | Some i => let '(r, i) := m i in (map_err PfIndex r, pf_set_index p (Some i))
  | None => (Panic, p)
  end.

Definition cache_Get (h : ObjectID) : PF (option EncodedObject) := fun p =>
  match pf_cache p with
  | Some c => match oc_Get h c with Ok (o, c) => (Ok o, pf_set_cache p (Some c)) | NoFuel => (NoFuel, p) | _ => (Panic, p) end
  | None => (Panic, p)
  end.

Definition cache_Put (o : EncodedObject) : PF unit := fun p =>
  match pf_cache p with
  | Some c => match oc_Put o c with Ok c => (Ok tt, pf_set_cache p (Some c)) | NoFuel => (NoFuel, p) | _ => (Panic, p) end
  | None => (Panic, p)
  end.

(** The scanner of a pack file seeks, and keeps the contents of deltas. *)
Definition pf_Scan : PF bool := on_scanner (fun f => Scan digest f true false).

(** [Seek] from the end. *)
Definition seek_end (n : Z) : ST scan_error (Scanner Empty_set) unit := fun s => seek true (len (sr_src (reader s)) - n) s.

(** ** Initialisation *)

Definition resolve_handle : PF unit :=
  h ← st_get pf_handle;
  r ← st_get pf_resolve;
  match h, r with
  | None, Some None => st_fail PfHandle
  | None, Some (Some h) => st_set (fun p => pf_set_handle p (Some h))
  | _, _ => mret tt
  end.

(** The source of the scanner; a file that was closed cannot be read. *)
Definition open_source : PF bytes :=
  h ← st_get pf_handle;
  f ← st_get pf_file;
  closed ← st_get pf_closed;
  match h, f with
  | Some h, _ =>
      match OpenPackReader h with
      | None => st_fail PfHandle
      | Some r => st_set (fun p => pf_set_reader p (Some r));; mret (ps_bytes r)
      end
  | None, Some f => if closed : bool then st_fail PfSource else mret (ps_bytes f)
  | None, None => st_fail PfNoFile
  end.

Definition default_cache : PF unit := st_set (fun p =>
  match pf_cache p with None => pf_set_cache p (Some oc_NewDefault) | Some _ => p end).

(** The hash of the handle, or the last bytes of the file; an error of reading
    these is set after the seek, and the cache is made all the same. *)
Definition read_id : PF unit :=
  h ← st_get pf_handle;
  match h with
  | Some h =>
      match h_PackHash h with
      | None => st_fail PfHandle
      | Some id => st_set (fun p => pf_set_id p id);; default_cache
      end
  | None =>
      n ← st_get pf_idSize;
      on_scanner (fun _ => seek_end n);;
      st_set (fun p => pf_set_id p (ResetBySize n));;
      default_cache;;
      id ← on_scanner (fun _ => reads ErrRead (ReadFrom (ResetBySize n)));
      st_set (fun p => pf_set_id p id)
  end.

Definition do_init : PF unit :=
  resolve_handle;;
  h ← st_get pf_handle;
  f ← st_get pf_file;
  i ← st_get pf_index;
  match h, f, i with
  | None, None, _ => st_fail PfNoFile
  | _, _, None => st_fail PfNoIndex
  | _, _, Some _ =>
      src ← open_source;
      st_set (fun p => pf_set_scanner p (Some (NewScanner src None)));;
      ok ← pf_Scan;
      if negb ok then
        e ← st_get (fun p => pf_scanner p ≫= scan_err);
        match e with Some e => st_fail (PfScan e) | None => mret tt end
      else read_id
  end.

(** [sync.Once]: the first call's error is the error of all. *)
Definition init : PF unit := fun p =>
  match pf_once p with
  | Some None => (Ok tt, p)
  | Some (Some e) => (Err e, p)
  | None =>
      match do_init p with
      | (Ok _, p) => (Ok tt, pf_set_once p (Some None))
      | (Err e, p) => (Err e, pf_set_once p (Some (Some e)))
      | (Panic, p) => (Panic, p)
      | (NoFuel, p) => (NoFuel, p)
      end
  end.

(** ** Objects *)

(** After [Close] the source cannot seek. *)
Definition headerFromOffset (offset : Z) : PF ObjectHeader :=
  closed ← st_get pf_closed;
  if closed : bool then st_fail PfSource
  else
    on_scanner (fun f => SeekFromStart digest f true false offset);;
    ok ← pf_Scan;
    if negb ok then
      e ← st_get (fun p => pf_scanner p ≫= scan_err);
      match e with Some e => st_fail (PfScan e) | None => st_fail PfObjectNotFound end
    else
      d ← st_get (fun p => packData <$> pf_scanner p);
      match d with
      | Some (ObjectSection oh) => mret oh
      | _ => st_panic
      end.

(** The view of a memory object in a store. *)
Definition encoded (o : MemoryObject) : EncodedObject :=
  {| eo_Type := mo_t o; eo_Hash := (mo_Hash digest o).1; eo_Data := mo_cont o |}.

(** Copying nothing writes nothing. *)
Definition mo_fill (data : bytes) (o : MemoryObject) : MemoryObject :=
  match data with [] => o | _ => (mo_Write data o).2 end.

Definition ApplyDelta (target : MemoryObject) (base : EncodedObject) (delta : bytes) : outcome delta_error MemoryObject :=
  dst ← patchDelta (eo_Data base) delta;
  mret (mo_fill dst (mo_SetSize (len dst) target)).

Definition inflate_content (oh : ObjectHeader) : PF (bytes * option scan_error) :=
  on_scanner (fun _ => inflateContent true (oh_ContentOffset oh) (oh_Size oh)).

Definition find_base (m : PF EncodedObject) : PF EncodedObject := fun p =>
  let '(r, p) := m p in (map_err PfBase r, p).

(** The instructions of a delta, inflated when the header does not hold them. *)
Definition delta_content (oh : ObjectHeader) : PF bytes :=
  match oh_content oh with
  | Some c => mret c
  | None =>
      '(c, e) ← inflate_content oh;
      match e with Some e => st_fail (PfInflate e) | None => mret c end
  end.

Section memory_object.
Context (get : ObjectID -> PF EncodedObject) (getByOffset : Z -> PF EncodedObject).

Definition getMemoryObject (oh : ObjectHeader) : PF EncodedObject :=
  f ← st_get scan_format;
  let obj := mo_SetType (oh_Type oh) (mo_SetSize (oh_Size oh) (NewMemoryObject (Some (FromObjectFormat f)))) in
  obj ← match oh_Type oh with
    | CommitObject | TreeObject | BlobObject | TagObject =>
        '(data, e) ← inflate_content oh;
        match e with Some e => st_fail (PfScan e) | None => mret (mo_fill data obj) end
    | REFDeltaObject | OFSDeltaObject =>
        parent ← find_base (match oh_Type oh with
          | REFDeltaObject =>
              o ← cache_Get (oh_Reference oh);
              match o with Some o => mret o | None => get (oh_Reference oh) end
          | _ => getByOffset (oh_OffsetReference oh)
          end);
        content ← delta_content oh;
        st_lift (map_err PfDelta (ApplyDelta (mo_SetType (eo_Type parent) obj) parent content))
    | _ => st_fail PfInvalidObject
    end;
  cache_Put (encoded obj);;
  mret (encoded obj).
End memory_object.

(** [get] and [getByOffset] call each other through [getMemoryObject]; nothing
    in the source bounds the depth of the calls. *)
Fixpoint lookup_object (fuel : nat) (q : ObjectID + Z) : PF EncodedObject :=
  match fuel with
  | O => st_nofuel
  | Datatypes.S n =>
      let objectFromHeader := getMemoryObject (fun h => lookup_object n (inl h)) (fun o => lookup_object n (inr o)) in
      match q with
      | inl h =>
          o ← cache_Get h;
          match o with
          | Some o => mret o
          | None =>
              offset ← on_index (pi_FindOffset h);
              oh ← headerFromOffset offset;
              objectFromHeader oh
          end
      | inr offset =>
          h ← on_index (pi_FindHash offset);
          o ← cache_Get h;
          match o with
          | Some o => mret o
          | None => oh ← headerFromOffset offset; objectFromHeader oh
          end
      end
  end.

Definition get (fuel : nat) (h : ObjectID) : PF EncodedObject := lookup_object fuel (inl h).
Definition getByOffset (fuel : nat) (offset : Z) : PF EncodedObject := lookup_object fuel (inr offset).
Definition objectFromHeader (fuel : nat) (oh : ObjectHeader) : PF EncodedObject :=
  getMemoryObject (get fuel) (getByOffset fuel) oh.

(** ** The methods *)

Definition unless_closed {A} (m : PF A) : PF A :=
  closed ← st_get pf_closed;
  if closed : bool then st_fail PfClosed else m.

(** The second look at [closed] is behind the lock. *)
Definition Get (fuel : nat) (h : ObjectID) : PF EncodedObject :=
  unless_closed (init;; unless_closed (get fuel h)).

Definition GetByOffset (fuel : nat) (offset : Z) : PF EncodedObject :=
  unless_closed (init;; unless_closed (getByOffset fuel offset)).

Definition GetSizeByOffset (fuel : nat) (offset : Z) : PF Z :=
  unless_closed (init;; d ← GetByOffset fuel offset; mret (eo_Size d)).

Record objectIter := { oi_typ : ObjectType; oi_iter : pi_Iter }.

Definition GetByType (t : ObjectType) : PF objectIter :=
  unless_closed (
    init;;
    match t with
    | AnyObject | BlobObject | TreeObject | CommitObject | TagObject =>
        it ← on_index (fun i => (pi_EntriesByOffset i, i));
        mret {| oi_typ := t; oi_iter := it |}
    | _ => st_fail PfInvalidType
    end).

Definition GetAll : PF objectIter := GetByType AnyObject.

Definition pf_Scanner : PF (option (Scanner Empty_set)) := unless_closed (init;; st_get pf_scanner).

Definition ID : PF ObjectID := init;; st_get pf_id.

(** Whether closing gives no error. *)
Definition Close : PF bool :=
  closed ← st_get pf_closed;
  if closed : bool then mret true
  else
    st_set pf_set_closed;;
    h ← st_get pf_handle;
    match h with
    | Some _ =>
        r ← st_get pf_reader;
        match r with
        | Some r => st_set (fun p => pf_set_reader p None);; mret (ps_closes r)
        | None => mret true
        end
    | None => f ← st_get pf_file; mret (match f with Some f => ps_closes f | None => true end)
    end.

(** *** Iterating *)

(** The loop passes over entries of other types; each turn takes an entry of
    the index. *)
Fixpoint next (turns fuel : nat) (i : objectIter) : PF (EncodedObject * objectIter) :=
  match turns with
  | O => st_nofuel
  | Datatypes.S n =>
      '(e, it) ← st_lift (map_err PfIndex (pi_Next (oi_iter i)));
      let i := {| oi_typ := oi_typ i; oi_iter := it |} in
      match e with
      | None => st_fail PfEOF
      | Some e =>
          oh ← headerFromOffset (i64 (e_Offset e));
          if bool_decide (oi_typ i = AnyObject) then o ← objectFromHeader fuel oh; mret (o, i)
          else if IsDelta (oh_Type oh) then
            o ← objectFromHeader fuel oh;
            if bool_decide (eo_Type o = oi_typ i) then mret (o, i) else next n fuel i
          else if bool_decide (oh_Type oh = oi_typ i) then o ← objectFromHeader fuel oh; mret (o, i)
          else next n fuel i
      end
  end.

Definition Next (turns fuel : nat) (i : objectIter) : PF (EncodedObject * objectIter) := init;; next turns fuel i.

(** The objects the callback saw; it ends the loop when it gives an error. *)
Fixpoint ForEach_loop (n turns fuel : nat) (f : EncodedObject -> option packfile_error) (i : objectIter) : PF (list EncodedObject * option packfile_error) :=
  match n with
  | O => st_nofuel
  | Datatypes.S n => fun p =>
      match next turns fuel i p with
      | (Ok (o, i), p) =>
          match f o with
          | Some e => (Ok ([o], Some e), p)
          | None => ('(os, e) ← ForEach_loop n turns fuel f i; mret (o :: os, e)) p
          end
      | (Err PfEOF, p) => (Ok ([], None), p)
      | (Err e, p) => (Ok ([], Some e), p)
      | (Panic, p) => (Panic, p)
      | (NoFuel, p) => (NoFuel, p)
      end
  end.

Definition ForEach (n turns fuel : nat) (f : EncodedObject -> option packfile_error) (i : objectIter) : PF (list EncodedObject * option packfile_error) :=
  init;; ForEach_loop n turns fuel f i.
End packfile.

(** ** What the interfaces promise *)

(** An index lists entries, whatever it remembers of earlier lookups; an
    iterator has the entries to come. *)
Class LawfulIndex (I : Type) `{PackIndex I} := {
  ix_lists : I -> list Entry -> Prop;
  ix_ahead : pi_Iter -> list Entry -> Prop;
  ix_FindOffset : forall i l h, ix_lists i l -> oid_ok h -> exists r i', pi_FindOffset h i = (r, i') /\ ix_lists i' l
    /\ match r with
       | Ok o => exists e, e ∈ l /\ ebytes e = Bytes h /\ e_Offset e = o
       | Err _ => forall e, e ∈ l -> ebytes e <> Bytes h
       | _ => False
       end;
  ix_FindHash : forall i l o, ix_lists i l -> exists r i', pi_FindHash o i = (r, i') /\ ix_lists i' l
    /\ match r with
       | Ok h => exists e, e ∈ l /\ e_Offset e = o /\ Bytes h = ebytes e
       | Err _ => forall e, e ∈ l -> e_Offset e <> o
       | _ => False
       end;
  ix_EntriesByOffset : forall i l, ix_lists i l -> exists it l', pi_EntriesByOffset i = Ok it /\ ix_ahead it l'
    /\ StronglySorted (fun a b => e_Offset a <= e_Offset b) l' /\ (e_Offset <$> l') ≡ₚ (e_Offset <$> l);
  ix_Next : forall it l, ix_ahead it l -> exists it', pi_Next it = Ok (hd_error l, it') /\ ix_ahead it' (tl l);
}.

(** A cache holds objects it was given; it may forget any of them. *)
Class LawfulCache (C : Type) `{ObjectCache C} := {
  oc_ok : C -> Prop;
  oc_holds : C -> EncodedObject -> Prop;
  oc_Get_law : forall c h, oc_ok c -> exists r c', oc_Get h c = Ok (r, c') /\ oc_ok c'
    /\ (forall o, oc_holds c' o -> oc_holds c o) /\ (forall o, r = Some o -> oc_holds c o /\ eo_Hash o = h);
  oc_Put_law : forall c o, oc_ok c -> eo_Size o < 2 ^ 61 -> exists c', oc_Put o c = Ok c' /\ oc_ok c'
    /\ forall o', oc_holds c' o' -> o' = o \/ oc_holds c o';
  oc_Default_law : oc_ok oc_NewDefault /\ forall o, ~ oc_holds oc_NewDefault o;
}.

Lemma elem_trim {K V : Type} `{Cached K V} fuel max (l : list V) v : v ∈ trim fuel max l -> v ∈ l.
Proof.
  revert l. induction fuel as [|f IH]; intros l; [done|]. cbn [trim]. destruct (total l <=? max); [done|].
  intros Hv%IH. destruct l as [|x l _] using rev_ind; [done|]. rewrite removelast_last in Hv. apply elem_of_app. by left.
Qed.

Lemma elem_without {K V : Type} `{Countable K, Cached K V} (k : K) (l : list V) v : v ∈ without k l -> v ∈ l.
Proof. unfold without. rewrite list_elem_of_filter. by intros []. Qed.

Lemma elem_spec_put {K V : Type} `{Countable K, Cached K V} max (v w : V) (l : list V) : w ∈ spec_put max v l -> w = v \/ w ∈ l.
Proof.
  unfold spec_put. destruct (spec_find _ _).
  - intros [->|Hw%elem_without]%elem_trim%elem_of_cons; auto.
  - destruct (_ >? _); [by right|]. intros Hw%elem_trim. by apply elem_of_cons in Hw.
Qed.

Lemma spec_find_key {K V : Type} `{Countable K, Cached K V} (k : K) (l : list V) v : spec_find k l = Some v -> v ∈ l /\ key_of v = k.
Proof.
  unfold spec_find. intros [Hv Hk]%List.find_some. split; [by apply list_elem_of_In|]. by apply bool_decide_eq_true_1 in Hk.
Qed.

#[export] Instance object_lru_lawful : LawfulCache (@LRU ObjectID EncodedObject _ _).
Proof.
  refine {|
    oc_ok c := exists l, Lru.represents c l /\ sizes_ok l /\ 0 <= MaxSize c < 2 ^ 61;
    oc_holds c o := o ∈ (ll c).*2;
  |}.
  - intros c h (l & Hr & Hs & Hm). destruct (ensures_inv _ _ (Get_spec c l h Hr Hs Hm)) as ([r c'] & Hg & -> & Hr' & Hm').
    exists (spec_get h l).1, c'. split; [exact Hg|]. split.
    { exists (spec_get h l).2. rewrite Hm'. split; [done|]. split; [by apply sizes_spec_get|done]. }
    rewrite (rep_values _ _ Hr'), (rep_values _ _ Hr). unfold spec_get. destruct (spec_find h l) as [v|] eqn:Hf; [|done].
    apply spec_find_key in Hf as [Hv Hk]. split; [|by intros o [= <-]]. intros o [->|Ho%elem_without]%elem_of_cons; done.
  - intros c o (l & Hr & Hs & Hm) Ho.
    assert (0 <= eo_Size o) as Hpos by apply len_nonneg.
    assert (sizes_ok (o :: l)) as Hs' by (constructor; [by split|done]).
    destruct (ensures_inv _ _ (Put_spec c l o Hr Hs' Hm)) as (c' & Hp & Hr' & Hm').
    exists c'. split; [exact Hp|]. split.
    { exists (spec_put (MaxSize c) o l). rewrite Hm'. split; [done|]. split; [by apply sizes_spec_put|done]. }
    rewrite (rep_values _ _ Hr'), (rep_values _ _ Hr). intros o'. apply elem_spec_put.
  - split; [|intros o; apply not_elem_of_nil]. exists []. split; [apply NewLRU_spec|]. split; [constructor|done].
Defined.

#[export] Instance memory_index_lawful : LawfulIndex MemoryIndex.
Proof.
  refine {|
    ix_lists i l := exists bs, IdxLookup.represents i bs /\ concat bs = l /\ len l < 2 ^ 27;
    ix_ahead it l := 0 <= oi_pos it <= len (oi_entries it) /\ drop (Z.to_nat (oi_pos it)) (oi_entries it) = l;
  |}.
  - intros i l h (bs & Hr & <- & Hn) Hh. destruct (lookup_name i bs h Hr Hh) as [Hin Hout]. cbn [pi_FindOffset memory_index].
    destruct (decide (Exists (fun e => ebytes e = Bytes h) (concat bs))) as [(e & He & Hb)%Exists_exists|Hno].
    + destruct (Hin e) as [(i' & Hf & Hr') _]; [done|]. rewrite Hf. exists (Ok (e_Offset e)), i'.
      split; [done|]. split; [by exists bs|]. by exists e.
    + assert (forall e, ~ present bs h e) as Habs by (intros e [He Hb]; apply Hno, Exists_exists; by exists e).
      destruct (Hout Habs) as [-> _]. exists (Err Idxfile.ErrObjectNotFound), i. split; [done|]. split; [by exists bs|].
      intros e He Hb. by apply (Habs e).
  - intros i l o (bs & Hr & <- & Hn). destruct (lookup_by_offset i bs o Hr Hn) as (r & i' & Hf & Hr' & Hres).
    cbn [pi_FindHash memory_index]. rewrite Hf. destruct r as [h|e]; eexists _, _; (split; [done|]); (split; [by exists bs|]).
    + exact Hres.
    + by destruct Hres.
  - intros i l (bs & Hr & <- & Hn). destruct (EntriesByOffset_spec i bs Hr) as (es & Hit & Hs & Hes).
    eexists _, (merge_sort offset_le es). split; [exact Hit|]. cbn [oi_pos oi_entries]. split.
    { split; [pose proof (len_nonneg (merge_sort offset_le es)); lia|done]. }
    split; [done|]. rewrite merge_sort_Permutation. apply (reflexive_eq (R := (≡ₚ))). clear -Hes.
    induction Hes as [|e' e es' es (_ & _ & Ho) Hes IH]; [done|]. cbn. by rewrite Ho, IH.
  - intros it l [Hp <-]. cbn [pi_Next memory_index]. unfold EntriesByOffset_Next. rewrite Z.geb_leb.
    destruct (Z.leb_spec (len (oi_entries it)) (oi_pos it)) as [Hle|Hlt].
    + exists it. rewrite drop_ge by (unfold len in *; lia). by split.
    + destruct (lookup_lt_is_Some_2 (oi_entries it) (Z.to_nat (oi_pos it))) as [e He]; [unfold len in *; lia|].
      rewrite (index_Ok (oi_entries it) (oi_pos it) e ltac:(lia) He), (drop_S _ _ _ He). eexists. split; [done|].
      cbn [oi_pos oi_entries tl]. split; [lia|]. by replace (Z.to_nat (oi_pos it + 1)) with (S (Z.to_nat (oi_pos it))) by lia.
Defined.

(** ** The pack file is correct *)

Lemma idSize_cases fmt : objectIDSize fmt = 20 \/ objectIDSize fmt = 32.
Proof. unfold objectIDSize. destruct (bool_decide _); auto. Qed.

Lemma digest_len fmt c sum : decodes (ReadFrom (ResetBySize (objectIDSize fmt))) c sum -> len c = objectIDSize fmt.
Proof.
  intros Hc. specialize (Hc []). rewrite app_nil_r in Hc. unfold ReadFrom in Hc. apply bind_Ok_inv in Hc as ([b r] & Hb & [= _ ->]).
  apply ReadFull_Ok_inv in Hb as [-> Hb]. rewrite app_nil_r, Hb. destruct (ResetBySize_props (objectIDSize fmt) (idSize_cases fmt)) as [-> _].
  destruct (idSize_cases fmt); lia.
Qed.

Lemma unless_closed_open {I C A} (m : ST packfile_error (Packfile I C) A) p : pf_closed p = false -> unless_closed m p = m p.
Proof. intros Hc. unfold unless_closed. by rewrite (st_bind_Ok (st_get _) _ _ _ _ eq_refl), Hc. Qed.

Lemma on_scanner_run {I C A} fmt (m : ObjectFormat -> ST scan_error (Scanner Empty_set) A) (p : Packfile I C) sc a sc' :
  pf_scanner p = Some sc -> scan_format p = fmt -> m fmt sc = (Ok a, sc') -> on_scanner m p = (Ok a, pf_set_scanner p (Some sc')).
Proof. intros Hsc <- Hm. unfold on_scanner. by rewrite Hsc, Hm. Qed.

Section seeking.
Context `{Zlib} (digest : ObjectFormat -> bytes -> bytes) (fmt : ObjectFormat) (es : list PackScanner.entry) (src : bytes) (sum : ObjectID).
Hypothesis Hpack : is_pack digest fmt src es sum [].

#[local] Notation Scan := (Scan (S := Empty_set) digest fmt true false).

Lemma no_storer_opens t n (s : Empty_set) : (RawObjectWriter t n s).1 = Ok tt.
Proof. destruct s. Qed.

Lemma Scan_head_at n rest crc (st : option Empty_set) : 0 < n < 2 ^ 32 ->
  Scan (at_pos 0 0 (-1) 0 (Some packHeaderSignature) NoData (pack_head n ++ rest) (pack_head n ++ rest) 0 crc [] st)
  = (Ok true, at_pos V2 n (-1) 0 (Some objectEntry) (HeaderSection {| Version := V2; ObjectsQty := n |})
      (pack_head n ++ rest) rest 12 (crc ++ pack_head n) (pack_head n) st).
Proof.
  intros Hn. rewrite (Scan_step digest fmt true false packHeaderSignature) by done. unfold scan_fuel.
  unfold pack_head at 2. rewrite <-!app_assoc.
  erewrite scan_next by apply signature_at. erewrite scan_next by apply version_at.
  erewrite scan_done by (cbn [step]; rewrite qty_at by lia; by replace (n =? 0) with false by lia).
  replace (n =? 0) with false by lia. by rewrite <-!app_assoc.
Qed.

Lemma pack_source_split : exists c, src = pack_head (len es) ++ raws es ++ c.
Proof. destruct (ip_src _ _ _ _ _ _ Hpack) as (c & -> & _). exists c. unfold pack_body. by rewrite app_nil_r, <-app_assoc. Qed.

Lemma pack_entries : entries_ok fmt 12 es.
Proof. by destruct Hpack. Qed.

(** The scanner before an entry, after a seek. *)
Lemma SeekFromStart_ok off (sc : Scanner Empty_set) :
  es <> [] -> 0 <= off -> sr_src (reader sc) = src -> exists crc ph,
  SeekFromStart digest fmt true false off sc
  = (Ok tt, at_pos V2 (len es) (-1) 0 (Some objectEntry) (HeaderSection {| Version := V2; ObjectsQty := len es |})
      src (drop (Z.to_nat off) src) off crc ph (storage sc)).
Proof.
  intros Hne Hoff Hsrc. destruct pack_source_split as [c Hc].
  assert (0 < len es < 2 ^ 32) as Hn.
  { split; [destruct es; [done|rewrite len_cons; pose proof (len_nonneg l); lia]|by destruct Hpack]. }
  exists (sr_crc (reader sc) ++ pack_head (len es)), (pack_head (len es)). unfold SeekFromStart.
  assert (Reset true sc = (Ok tt, at_pos 0 0 (-1) 0 (Some packHeaderSignature) NoData src src 0 (sr_crc (reader sc)) [] (storage sc))) as Hreset.
  { unfold Reset, seek, sr_Seek. cbn [negb]. unfold mbind, ST_bind. cbn. rewrite Hsrc. by change (Z.to_nat 0) with 0%nat. }
  rewrite (st_bind_Ok _ _ _ _ _ Hreset).
  pose proof (Scan_head_at (len es) (raws es ++ c) (sr_crc (reader sc)) (storage sc) Hn) as Hscan. rewrite <-Hc in Hscan.
  rewrite (st_bind_Ok _ _ _ _ _ Hscan). cbn [negb].
  unfold seek, sr_Seek. cbn [negb]. by replace (off <? 0) with false by lia.
Qed.

Lemma pack_at k e : es !! k = Some e -> exists r, drop (Z.to_nat (pos es k)) src = en_raw e ++ r.
Proof.
  intros Hk. destruct pack_source_split as [c ->]. destruct (raws_split es k e Hk) as [r Hr]. exists (r ++ c).
  rewrite Hr, <-!app_assoc, app_assoc, drop_app_length'; [done|]. unfold pos.
  pose proof (len_pack_head (len es)). rewrite length_app. unfold len in *. lia.
Qed.

Lemma Scan_entry_at k e crc ph (st : option Empty_set) : es !! k = Some e -> exists sc',
  Scan (at_pos V2 (len es) (-1) 0 (Some objectEntry) (HeaderSection {| Version := V2; ObjectsQty := len es |})
      src (drop (Z.to_nat (pos es k)) src) (pos es k) crc ph st) = (Ok true, sc')
  /\ packData sc' = ObjectSection (header_of digest fmt true false (pos es k) e) /\ sr_src (reader sc') = src.
Proof.
  intros Hk. destruct (pack_at k e Hk) as [r ->]. rewrite (Scan_step digest fmt true false objectEntry) by done. unfold scan_fuel.
  pose proof (entry_lookup_ok fmt es pack_entries k e Hk) as He.
  assert (0 < len es) by (apply lookup_lt_Some in Hk; unfold len; lia).
  erewrite scan_done by (apply (entry_complete digest fmt true false no_storer_opens V2 (len es) (-1)); [done|lia]).
  by eexists.
Qed.

Lemma inflateContent_at k e (sc : Scanner Empty_set) : es !! k = Some e -> sr_src (reader sc) = src -> exists sc',
  inflateContent true (pos es k + len (en_head e) + len (en_ref e)) (len (en_data e)) sc = (Ok (en_data e, None), sc')
  /\ sr_src (reader sc') = src.
Proof.
  intros Hk Hsrc.
  assert (forall k' e', es !! k' = Some e' -> exists r,
    drop (Z.to_nat (pos es k' + len (en_head e') + len (en_ref e'))) src = en_zip e' ++ r) as Hstream.
  { intros k' e' Hk'. destruct (ip_src _ _ _ _ _ _ Hpack) as (c & -> & _). by apply pack_stream. }
  destruct (inflateContent_entry true false es src None pack_entries Hstream ltac:(done) k e sc Hk eq_refl Hsrc) as (sc' & Hi & Hs & _).
  by exists sc'.
Qed.
Lemma headerFromOffset_run {I C} (k : nat) e (p : Packfile I C) sc : es !! k = Some e -> pf_closed p = false -> scan_format p = fmt ->
  pf_scanner p = Some sc -> sr_src (reader sc) = src ->
  exists sc', headerFromOffset digest (pos es k) p = (Ok (header_of digest fmt true false (pos es k) e), pf_set_scanner p (Some sc'))
    /\ sr_src (reader sc') = src.
Proof.
  intros Hk Hopen Hf Hsc Hsrc. unfold headerFromOffset. rewrite (st_bind_Ok (st_get _) _ _ _ _ eq_refl), Hopen.
  pose proof (pos_lower es k).
  destruct (SeekFromStart_ok (pos es k) sc) as (crc & ph & Hseek); [by intros ->|lia|done|].
  rewrite (st_bind_Ok _ _ _ _ _ (on_scanner_run fmt (fun f => SeekFromStart digest f true false (pos es k)) p sc _ _ Hsc Hf Hseek)).
  destruct (Scan_entry_at k e crc ph (storage sc) Hk) as (sc' & Hscan & Hd & Hsrc').
  rewrite (st_bind_Ok _ _ _ true (pf_set_scanner p (Some sc'))) by exact (on_scanner_run fmt (fun f => PackScanner.Scan digest f true false) (pf_set_scanner p (Some _)) _ _ _ eq_refl Hf Hscan).
  cbn [negb]. rewrite (st_bind_Ok (st_get _) _ _ _ _ eq_refl). cbn [pf_scanner pf_set_scanner fmap option_fmap option_map]. rewrite Hd.
  by exists sc'.
Qed.
End seeking.

(** An index lists the entries of a pack, with the names of their objects. *)
Record indexes (digest : ObjectFormat -> bytes -> bytes) (fmt : ObjectFormat) (es : list PackScanner.entry) (l : list Entry) : Prop := {
  xs_offsets : (e_Offset <$> l) ≡ₚ (pos es <$> seq 0 (length es));
  xs_names : forall e d t c, e ∈ l -> stands digest fmt es ∅ d (e_Offset e) t c -> ebytes e = Bytes (object_id digest fmt t c);
}.

(** No object is in the pack twice.  (Over two copies of an object, deltas by
    identifier can form a cycle that only the copy that is not indexed
    breaks.) *)
Definition single_copies (digest : ObjectFormat -> bytes -> bytes) (fmt : ObjectFormat) (es : list PackScanner.entry) : Prop :=
  forall d off d' off' t c, stands digest fmt es ∅ d off t c -> stands digest fmt es ∅ d' off' t c -> off = off'.

(** What a pack file is served from. *)
Record served `{Zlib} (digest : ObjectFormat -> bytes -> bytes) (fmt : ObjectFormat) (es : list PackScanner.entry) (src : bytes) (sum : ObjectID)
    (l : list Entry) : Prop := {
  sd_digest : digest_ok digest fmt;
  sd_format : fmt <> UnsetObjectFormat;
  sd_pack : is_pack digest fmt src es sum [];
  sd_bytes : bytes_ok src;
  sd_length : len src < 2 ^ 63;
  sd_resolvable : resolvable digest fmt es ∅;
  sd_single : single_copies digest fmt es;
  sd_small : forall t c, an_object digest fmt es ∅ t c -> len c < 2 ^ 61;
  sd_index : indexes digest fmt es l;
}.

Section serving.
Context {I C : Type} `{LawfulIndex I, LawfulCache C, Zlib} (digest : ObjectFormat -> bytes -> bytes).
Context (fmt : ObjectFormat) (es : list PackScanner.entry) (src : bytes) (sum : ObjectID) (l : list Entry).

#[local] Notation stands := (stands digest fmt es ∅).
#[local] Notation an_object := (an_object digest fmt es ∅).
#[local] Notation object_id := (object_id digest fmt).

(** The object the pack file gives for a type and content. *)
Definition mem_object (t : ObjectType) (c : bytes) : EncodedObject := {| eo_Type := t; eo_Hash := object_id t c; eo_Data := c |}.

(** A cache may be shared: what it holds under the name of an object of the
    pack is that object. *)
Definition cache_sound (c : C) : Prop :=
  oc_ok c /\ forall o t d, oc_holds c o -> an_object t d -> Bytes (eo_Hash o) = Bytes (object_id t d) -> o = mem_object t d.

Definition sources (p : Packfile I C) : Prop :=
  match pf_resolve p with
  | Some (Some h) => exists r, OpenPackReader h = Some r /\ ps_bytes r = src /\ h_PackHash h = Some sum
  | Some None => False
  | None => exists f, pf_file p = Some f /\ ps_bytes f = src
  end.

Definition scans (p : Packfile I C) : Prop := exists sc, pf_scanner p = Some sc /\ sr_src (reader sc) = src.

(** A pack file before or after [init], between two calls. *)
Record serving (started : bool) (p : Packfile I C) : Prop := {
  sv_open : pf_closed p = false;
  sv_index : exists i, pf_index p = Some i /\ ix_lists i l;
  sv_cache : forall c, pf_cache p = Some c -> cache_sound c;
  sv_size : pf_idSize p = objectIDSize fmt;
  sv_once : if started then pf_once p = Some None /\ pf_id p = sum /\ is_Some (pf_cache p) /\ scans p
            else pf_once p = None /\ pf_handle p = None /\ sources p;
}.

Hypothesis Hsd : served digest fmt es src sum l.

Lemma serving_format b p : serving b p -> scan_format p = fmt.
Proof.
  intros Hp. unfold scan_format. rewrite (sv_size _ _ Hp). pose proof (sd_format _ _ _ _ _ _ Hsd).
  by destruct fmt.
Qed.

Lemma objects_small t c : an_object t c -> len c < 2 ^ 61 /\ storable t = true /\ IsZero (object_id t c) = false.
Proof.
  intros Ho. split; [by eapply sd_small|]. split; [|by eapply rs_zero; [apply Hsd|]].
  destruct Ho as [(d & off & Hs)|(h & Hh)]; [|by rewrite lookup_empty in Hh].
  eapply stands_small; [by eapply pack_entries, Hsd|apply Hsd| |exact Hs].
  destruct (ip_src _ _ _ _ _ _ (sd_pack _ _ _ _ _ _ Hsd)) as (cs & Hsrc & _).
  eapply entries_data_ok; [by eapply pack_entries, Hsd|]. rewrite <-Hsrc. apply Hsd.
Qed.

(** Objects with one name are one object. *)
Lemma object_named t c t' c' : an_object t c -> an_object t' c' -> Bytes (object_id t c) = Bytes (object_id t' c') -> t = t' /\ c = c'.
Proof.
  intros Ho Ho' Hb. apply (rs_ids _ _ _ _ (sd_resolvable _ _ _ _ _ _ Hsd)); [done..|].
  pose proof (sd_digest _ _ _ _ _ _ Hsd) as Hd. destruct (object_id_pack digest fmt t c Hd) as [Hi Hs], (object_id_pack digest fmt t' c' Hd) as [Hi' Hs'].
  rewrite (oid_eta _ Hi), (oid_eta _ Hi'), Hb. f_equal.
Qed.

Lemma encoded_object t data (o : MemoryObject) : an_object t data ->
  mo_t o = t -> mo_h o = ZeroHash -> mo_cont o = [] -> mo_oh o = Some (FromObjectFormat fmt) ->
  encoded digest (mo_fill data (mo_SetSize (len data) o)) = mem_object t data.
Proof.
  intros Ho Ht Hh Hc Hf. destruct (objects_small t data Ho) as (_ & _ & Hz). pose proof (mem_raw_id digest fmt t data Hz) as Hid.
  destruct o as [t' h' c' s' f']. cbn in *. subst. unfold encoded, mem_object, PackResolve.object_id. f_equal; [by destruct data| |by destruct data].
  rewrite <-Hid. by destruct data.
Qed.

(** *** The parts of the state *)

Lemma serving_scanner p sc : serving true p -> sr_src (reader sc) = src -> serving true (pf_set_scanner p (Some sc)).
Proof. intros [Ho Hi Hc Hs (H1' & H2' & H3' & _)] Hsc. constructor; try done. cbn. split_and!; try done. by exists sc. Qed.

Lemma serving_index b p i : serving b p -> ix_lists i l -> serving b (pf_set_index p (Some i)).
Proof. intros [Ho Hi Hc Hs Hon] Hl. constructor; try done. by exists i. Qed.

Lemma serving_cache p c : serving true p -> cache_sound c -> serving true (pf_set_cache p (Some c)).
Proof.
  intros [Ho Hi Hc Hs (H1' & H2' & H3' & H4')] Hl. constructor; try done; cbn. by intros c' [= <-].
Qed.

Lemma cache_Get_ok h p : serving true p -> st_ensures (cache_Get h) p (fun r p' => serving true p' /\ forall o, r = Some o -> eo_Hash o = h
  /\ (exists c, pf_cache p = Some c /\ oc_holds c o) /\ forall t d, an_object t d -> Bytes h = Bytes (object_id t d) -> o = mem_object t d).
Proof.
  intros Hp. destruct (sv_once _ _ Hp) as (_ & _ & [c Hc] & _). destruct (sv_cache _ _ Hp c Hc) as [Hok Hs].
  destruct (oc_Get_law c h Hok) as (r & c' & Hg & Hok' & Hsub & Hr). eexists r, _. unfold cache_Get. rewrite Hc, Hg. split; [done|].
  split; [apply serving_cache; [done|]; split; [done|]; eauto|]. intros o Ho. destruct (Hr o Ho) as [Hh Heq]. split; [done|].
  split; [by exists c|]. intros t d Hobj Hb. apply Hs; [done..|]. by rewrite Heq.
Qed.

Lemma cache_Put_ok t d p : serving true p -> an_object t d -> st_ensures (cache_Put (mem_object t d)) p (fun _ p' => serving true p').
Proof.
  intros Hp Hobj. destruct (sv_once _ _ Hp) as (_ & _ & [c Hc] & _). destruct (sv_cache _ _ Hp c Hc) as [Hok Hs].
  destruct (oc_Put_law c (mem_object t d) Hok) as (c' & Hg & Hok' & Hsub); [exact (proj1 (objects_small t d Hobj))|].
  eexists tt, _. unfold cache_Put. rewrite Hc, Hg. split; [done|]. apply serving_cache; [done|]. split; [done|].
  intros o t' d' Ho Hobj' Hb. destruct (Hsub o Ho) as [->|Ho']; [|by apply Hs]. cbn in Hb.
  by destruct (object_named t d t' d' Hobj Hobj' Hb) as [-> ->].
Qed.

Lemma on_scanner_ok {A} (m : ObjectFormat -> ST scan_error (Scanner Empty_set) A) p (P : A -> Prop) : serving true p ->
  (forall sc, sr_src (reader sc) = src -> exists a sc', m fmt sc = (Ok a, sc') /\ P a /\ sr_src (reader sc') = src) ->
  st_ensures (on_scanner m) p (fun a p' => P a /\ serving true p').
Proof.
  intros Hp Hm. destruct (sv_once _ _ Hp) as (_ & _ & _ & sc & Hsc & Hsrc). destruct (Hm sc Hsrc) as (a & sc' & Hr & Ha & Hsrc').
  eexists a, _. split; [exact (on_scanner_run fmt m p sc a sc' Hsc (serving_format _ _ Hp) Hr)|]. split; [done|]. by apply serving_scanner.
Qed.

#[local] Notation header k e := (header_of digest fmt true false (pos es k) e).

Lemma headerFromOffset_ok k e p : es !! k = Some e -> serving true p ->
  st_ensures (headerFromOffset digest (pos es k)) p (fun oh p' => oh = header k e /\ serving true p').
Proof.
  intros Hk Hp. destruct (sv_once _ _ Hp) as (_ & _ & _ & sc & Hsc & Hsrc).
  destruct (headerFromOffset_run digest fmt es src sum (sd_pack _ _ _ _ _ _ Hsd) k e p sc Hk (sv_open _ _ Hp) (serving_format _ _ Hp) Hsc Hsrc)
    as (sc' & Hrun & Hsrc'). eexists _, _. split; [exact Hrun|]. split; [done|]. by apply serving_scanner.
Qed.

Lemma inflate_content_ok k e p : es !! k = Some e -> serving true p ->
  st_ensures (inflate_content (header k e)) p (fun r p' => r = (en_data e, None) /\ serving true p').
Proof.
  intros Hk Hp. apply on_scanner_ok; [done|]. intros sc Hsc.
  destruct (inflateContent_at digest fmt es src sum (sd_pack _ _ _ _ _ _ Hsd) k e sc Hk Hsc) as (sc' & Hi & Hs').
  by eexists _, sc'.
Qed.

(** *** Finding objects *)

Definition gives (m : ST packfile_error (Packfile I C) EncodedObject) (p : Packfile I C) (t : ObjectType) (c : bytes) : Prop :=
  st_ensures m p (fun o p' => o = mem_object t c /\ serving true p').

(** With fuel [n], the header of an entry that stands for an object over [d]
    deltas gives the object. *)
Definition resolved (d off : Z) (t : ObjectType) (c : bytes) : Prop := forall n k e p,
  es !! k = Some e -> off = pos es k -> d <= Z.of_nat n -> serving true p -> gives (objectFromHeader digest n (header k e)) p t c.

(** The queries for an object. *)
Definition asks (q : ObjectID + Z) (off : Z) (t : ObjectType) (c : bytes) : Prop :=
  match q with inl h => oid_ok h /\ Bytes h = Bytes (object_id t c) | inr o => o = off end.

Lemma stands_object_of d off t c : stands d off t c -> an_object t c.
Proof. intros Hs. left. eauto. Qed.

Lemma indexed_entry d off t c : stands d off t c -> exists e, e ∈ l /\ e_Offset e = off /\ ebytes e = Bytes (object_id t c).
Proof.
  intros Hs. destruct (stands_entry _ _ _ _ _ _ _ _ Hs) as (x & (k & Hk & ->)%entry_at_lookup).
  assert (pos es k ∈ (e_Offset <$> l)) as (e & He & Hin)%list_elem_of_fmap.
  { rewrite (xs_offsets _ _ _ _ (sd_index _ _ _ _ _ _ Hsd)). apply list_elem_of_fmap. exists k. split; [done|].
    apply elem_of_seq. apply lookup_lt_Some in Hk. lia. }
  exists e. split; [done|]. split; [done|]. eapply (xs_names _ _ _ _ (sd_index _ _ _ _ _ _ Hsd)); [done|]. by rewrite <-He.
Qed.

(** The entry of the index under the name of an object is the object's. *)
Lemma named_entry d off t c e : stands d off t c -> e ∈ l -> ebytes e = Bytes (object_id t c) -> e_Offset e = off.
Proof.
  intros Hs He Hb. pose proof (sd_index _ _ _ _ _ _ Hsd) as Hx. pose proof (sd_resolvable _ _ _ _ _ _ Hsd) as Hrs.
  assert (e_Offset e ∈ (pos es <$> seq 0 (length es))) as (k & Hk & Hin%elem_of_seq)%list_elem_of_fmap.
  { rewrite <-(xs_offsets _ _ _ _ Hx). apply list_elem_of_fmap. by exists e. }
  destruct (lookup_lt_is_Some_2 es k) as [x Hx']; [lia|].
  destruct (rs_stands _ _ _ _ Hrs (pos es k) x (entry_at_pos es k x Hx')) as (d' & t' & c' & Hs').
  rewrite <-Hk in Hs'. pose proof (xs_names _ _ _ _ Hx e d' t' c' He Hs') as Hb'.
  destruct (object_named t c t' c') as [-> ->]; [by eapply stands_object_of..|congruence|].
  by eapply (sd_single _ _ _ _ _ _ Hsd).
Qed.

Lemma lookup_resolved d off t c n q p : stands d off t c -> resolved d off t c -> d < Z.of_nat n -> asks q off t c -> serving true p ->
  gives (lookup_object digest n q) p t c.
Proof.
  intros Hs Hres Hn Hq Hp. destruct n as [|n]; [pose proof (stands_nonneg _ _ _ _ _ _ _ _ Hs); lia|].
  destruct (stands_entry _ _ _ _ _ _ _ _ Hs) as (x & (k & Hk & ->)%entry_at_lookup).
  destruct (sv_index _ _ Hp) as (i & Hi & Hl). cbn [lookup_object]. destruct q as [h|o]; cbn in Hq.
  - destruct Hq as [Hh Hb]. eapply st_ensures_bind; [by apply cache_Get_ok|]. intros [o|] p1 [Hp1 Ho]; cbn beta in *.
    { destruct (Ho o eq_refl) as (_ & _ & Hobj). apply st_ensures_ret. split; [|done]. apply Hobj; [by eapply stands_object_of|done]. }
    clear Hi Hl i. destruct (sv_index _ _ Hp1) as (i & Hi & Hl).
    destruct (ix_FindOffset i l h Hl Hh) as (r & i' & Hf & Hl' & Hr).
    destruct (indexed_entry _ _ _ _ Hs) as (e0 & He0 & Ho0 & Hb0).
    destruct r as [off|err| |]; [|by destruct (Hr e0 He0); congruence|done|done]. destruct Hr as (e & He & Hbe & <-).
    eapply st_ensures_step; [unfold on_index; rewrite Hi, Hf; reflexivity|].
    rewrite (named_entry _ _ _ _ e Hs He) by congruence.
    eapply st_ensures_bind; [by apply headerFromOffset_ok; [|by apply serving_index]|]. intros oh p2 [-> Hp2].
    apply (Hres n); [done..|lia|done].
  - subst o. destruct (ix_FindHash i l (pos es k) Hl) as (r & i' & Hf & Hl' & Hr).
    destruct (indexed_entry _ _ _ _ Hs) as (e0 & He0 & Ho0 & Hb0).
    destruct r as [h|err| |]; [|by destruct (Hr e0 He0)|done|done]. destruct Hr as (e & He & Hoe & Hbe).
    eapply st_ensures_step; [unfold on_index; rewrite Hi, Hf; reflexivity|].
    assert (Bytes h = Bytes (object_id t c)) as Hb.
    { rewrite Hbe. eapply (xs_names _ _ _ _ (sd_index _ _ _ _ _ _ Hsd)); [done|]. by rewrite Hoe. }
    eapply st_ensures_bind; [by apply cache_Get_ok, serving_index|]. intros [o|] p1 [Hp1 Ho]; cbn beta in *.
    { destruct (Ho o eq_refl) as (_ & _ & Hobj). apply st_ensures_ret. split; [|done]. apply Hobj; [by eapply stands_object_of|done]. }
    eapply st_ensures_bind; [by apply headerFromOffset_ok|]. intros oh p2 [-> Hp2].
    apply (Hres n); [done..|lia|done].
Qed.

Lemma find_base_ok m p t c : gives m p t c -> gives (find_base m) p t c.
Proof. intros (o & p' & Hm & Ho). exists o, p'. split; [|done]. unfold find_base. by rewrite Hm. Qed.

Lemma put_ok (obj : MemoryObject) p t c : encoded digest obj = mem_object t c -> an_object t c -> serving true p ->
  gives (cache_Put (encoded digest obj);; mret (encoded digest obj)) p t c.
Proof.
  intros -> Ho Hp. eapply st_ensures_bind; [by apply cache_Put_ok|]. intros [] p' Hp'. by apply st_ensures_ret.
Qed.

Lemma whole_resolved off e : entry_at es off e -> en_base e = NoBase -> resolved 0 off (en_type e) (en_data e).
Proof.
  intros He Hb n k e' p Hk -> _ Hp.
  assert (e' = e) as ->. { eapply entry_at_det; [by eapply pack_entries, Hsd|by apply entry_at_pos|done]. }
  assert (an_object (en_type e) (en_data e)) as Hobj by (eapply stands_object_of; by apply stands_object).
  unfold gives, objectFromHeader, getMemoryObject. eapply st_ensures_step; [reflexivity|]. rewrite (serving_format _ _ Hp).
  apply (st_ensures_bind _ _ _ _ (fun obj p' => encoded digest obj = mem_object (en_type e) (en_data e) /\ serving true p'));
    [|intros obj p' [Hob Hp']; by apply (put_ok obj p' _ _ Hob Hobj Hp')].
  destruct (objects_small _ _ Hobj) as (_ & Hst & _). cbn [oh_Type PackScanner.header_of].
  match goal with |- st_ensures (match _ with CommitObject => ?m | _ => _ end) _ _ =>
    match goal with |- st_ensures ?M p ?P => assert (M = m) as -> by by destruct (en_type e) end end.
  eapply st_ensures_bind; [by apply inflate_content_ok|]. intros r p' [-> Hp']. apply st_ensures_ret. split; [|done].
  change (oh_Size (header k e)) with (len (en_data e)).
  change (mo_SetType (en_type e) (mo_SetSize ?n ?o)) with (mo_SetSize n (mo_SetType (en_type e) o)). by apply encoded_object.
Qed.

(** A delta gives its object once its base is found. *)
Lemma delta_resolved n k e p t s c d : es !! k = Some e -> IsDelta (en_type e) = true -> stands d (pos es k) t c ->
  PatchDelta s (en_data e) = Ok c -> serving true p ->
  (match en_type e with
   | REFDeltaObject => gives (o ← cache_Get (oh_Reference (header k e)); match o with Some o => mret o | None => get digest n (oh_Reference (header k e)) end) p t s
   | _ => gives (getByOffset digest n (oh_OffsetReference (header k e))) p t s
   end) ->
  gives (objectFromHeader digest n (header k e)) p t c.
Proof.
  intros Hk Hd Hs Hpatch Hp Hbase. pose proof (stands_object_of _ _ _ _ Hs) as Hobj.
  unfold gives, objectFromHeader, getMemoryObject. eapply st_ensures_step; [reflexivity|]. rewrite (serving_format _ _ Hp).
  apply (st_ensures_bind _ _ _ _ (fun obj p' => encoded digest obj = mem_object t c /\ serving true p'));
    [|intros obj p' [Hob Hp']; by apply (put_ok obj p' _ _ Hob Hobj Hp')].
  cbn [oh_Type PackScanner.header_of].
  match goal with |- st_ensures (match _ with REFDeltaObject => ?m | _ => _ end) _ _ =>
    match goal with |- st_ensures ?M p ?P => assert (M = m) as -> by by destruct (en_type e) end end.
  eapply st_ensures_bind; [apply find_base_ok; by destruct (en_type e); first [exact Hbase | done]|].
  intros o p' [-> Hp']. cbn [mem_object eo_Type].
  assert (delta_content (I := I) (C := C) (header k e) p' = (Ok (en_data e), p')) as Hc.
  { unfold delta_content. cbn [oh_content PackScanner.header_of]. by rewrite Hd. }
  eapply st_ensures_step; [exact Hc|]. unfold ApplyDelta. assert (bytes_ok (en_data e)) as Hdok.
  { destruct (ip_src _ _ _ _ _ _ (sd_pack _ _ _ _ _ _ Hsd)) as (cs & Hsrc & _).
    eapply entries_data_ok; [by eapply pack_entries, Hsd| |by apply entry_at_pos]. rewrite <-Hsrc. apply Hsd. }
  destruct (PatchDelta_facts s (en_data e) c Hdok Hpatch) as (_ & _ & Hrun & _). cbn [mem_object eo_Data]. rewrite Hrun. eexists _, p'. split; [reflexivity|]. split; [|done].
  by apply encoded_object.
Qed.

Lemma stands_resolved d off t c : stands d off t c -> resolved d off t c.
Proof.
  intros Hs. induction Hs as [off e He Hb|d off e m t s c He Hb Hs IH Hpatch|d off off' e h t s c He Hb Hs IH Hh Hpatch|off e h o c He Hb Ho Hp];
    [by apply whole_resolved| | |by rewrite lookup_empty in Ho].
  - intros n k e' p Hk -> Hn Hp. assert (e' = e) as ->. { eapply entry_at_det; [by eapply pack_entries, Hsd|by apply entry_at_pos|done]. }
    destruct (entry_lookup_ok fmt es (pack_entries _ _ _ _ _ (sd_pack _ _ _ _ _ _ Hsd)) k e Hk) as [_ Href _ _]. rewrite Hb in Href. destruct Href as (Ht & _).
    eapply delta_resolved; [done|by rewrite Ht|by eapply stands_ofs|done|done|]. rewrite Ht.
    cbn [oh_OffsetReference PackScanner.header_of]. rewrite Hb. by eapply lookup_resolved; [|done|lia|..].
  - intros n k e' p Hk -> Hn Hp. assert (e' = e) as ->. { eapply entry_at_det; [by eapply pack_entries, Hsd|by apply entry_at_pos|done]. }
    destruct (entry_lookup_ok fmt es (pack_entries _ _ _ _ _ (sd_pack _ _ _ _ _ _ Hsd)) k e Hk) as [_ Href _ _]. rewrite Hb in Href. destruct Href as (Ht & _).
    eapply delta_resolved; [done|by rewrite Ht|by eapply stands_ref|done|done|]. rewrite Ht.
    cbn [oh_Reference PackScanner.header_of]. rewrite Hb.
    eapply st_ensures_bind; [by apply cache_Get_ok|]. intros [o|] p1 [Hp1 Ho]; cbn beta in *.
    + destruct (Ho o eq_refl) as (_ & _ & Hobj). apply st_ensures_ret. split; [|done]. apply Hobj; [by eapply stands_object_of|by rewrite Hh].
    + eapply lookup_resolved; [done|done|lia| |done]. cbn. split; [|by rewrite Hh]. rewrite <-Hh. by apply object_id_pack, Hsd.
Qed.

Lemma lookup_ok d off t c n q p : stands d off t c -> maxDeltaChainDepth < Z.of_nat n -> asks q off t c -> serving true p ->
  gives (lookup_object digest n q) p t c.
Proof.
  intros Hs Hn Hq Hp. eapply lookup_resolved; [done|by apply stands_resolved| |done|done].
  pose proof (rs_depth _ _ _ _ (sd_resolvable _ _ _ _ _ _ Hsd) _ _ _ _ Hs). lia.
Qed.

(** *** Initialisation *)

Definition cached (p : Packfile I C) (o : EncodedObject) : Prop := exists c, pf_cache p = Some c /\ oc_holds c o.

Lemma first_scan : exists sc, Scan digest fmt true false (NewScanner src (@None Empty_set)) = (Ok true, sc) /\ sr_src (reader sc) = src.
Proof.
  pose proof (sd_pack _ _ _ _ _ _ Hsd) as Hpack. destruct (decide (es = [])) as [->|Hne].
  - destruct Hpack as [(c & Hsrc & Hc) _ _ Hsum]. unfold pack_body in *. change (raws []) with (@nil Z) in *. rewrite app_nil_r in *.
    change (len (@nil PackScanner.entry)) with 0 in *. pose proof (Scan_empty digest fmt true false [] (@None Empty_set) c sum Hc Hsum) as Hscan.
    rewrite <-Hsrc in Hscan. by eexists.
  - destruct (pack_source_split digest fmt es src sum Hpack) as [c Hc].
    assert (0 < len es < 2 ^ 32) as Hn.
    { split; [destruct es as [|x es']; [done|rewrite len_cons; pose proof (len_nonneg es'); lia]|by destruct Hpack]. }
    pose proof (Scan_head digest fmt true false (len es) (raws es ++ c) (@None Empty_set) Hn) as Hscan. rewrite <-Hc in Hscan. by eexists.
Qed.

(** The digest is read from the end of the file. *)
Lemma read_sum (sc : Scanner Empty_set) : sr_src (reader sc) = src -> exists sc1 sc2,
  seek_end (objectIDSize fmt) sc = (Ok tt, sc1) /\ reads ErrRead (ReadFrom (ResetBySize (objectIDSize fmt))) sc1 = (Ok sum, sc2)
  /\ sr_src (reader sc2) = src.
Proof.
  intros Hsc. destruct (ip_src _ _ _ _ _ _ (sd_pack _ _ _ _ _ _ Hsd)) as (c & Hsrc & Hc).
  pose proof (Hc []) as Hread. rewrite app_nil_r in Hread, Hsrc.
  pose proof (digest_len fmt c sum Hc) as Hlen.
  assert (drop (Z.to_nat (len src - objectIDSize fmt)) src = c) as Hdrop.
  { rewrite Hsrc at 2. apply drop_app_length'. rewrite Hsrc, len_app. unfold len in *. lia. }
  assert (0 <= len src - objectIDSize fmt) as Hpos by (rewrite Hsrc, len_app; pose proof (len_nonneg (pack_body es)); lia).
  unfold seek_end, seek, sr_Seek. cbn [negb]. rewrite Hsc. replace (_ <? 0) with false by lia. eexists _, _. split; [reflexivity|].
  unfold reads. cbn [reader set_reader sr_rest]. rewrite Hdrop, Hread. by split.
Qed.

Lemma default_sound : cache_sound oc_NewDefault.
Proof. destruct oc_Default_law as [Hok Hno]. split; [done|]. intros o t d Ho. by destruct (Hno o). Qed.

(** A pack file becomes ready when the cache is there and the rest of its
    state is in place. *)
Lemma serving_started p h r f sc id :
  serving false p -> (forall c, pf_cache p = Some c -> cache_sound c) -> sr_src (reader sc) = src -> id = sum ->
  serving true (pf_set_once (Build_Packfile f (pf_resolve p) h r (pf_index p)
     (Some (default oc_NewDefault (pf_cache p))) (Some sc) id (pf_idSize p) (pf_once p) (pf_closed p)) (Some None)).
Proof.
  intros [Ho Hi Hc Hs Hon] Hca Hsc ->. constructor; try done; cbn.
  - intros c [= <-]. destruct (pf_cache p) as [c0|] eqn:Hp; cbn; [by apply Hca|apply default_sound].
  - split_and!; try done. by exists sc.
Qed.

#[local] Opaque PackScanner.Scan seek_end reads.

#[local] Ltac run_init :=
  unfold do_init, resolve_handle, open_source, read_id, pf_Scan, on_scanner, default_cache, st_get, st_set, mbind, ST_bind, mret, ST_ret; cbn.

Lemma init_ok b p : serving b p -> st_ensures (init digest) p (fun _ p' => serving true p' /\ forall o, cached p' o -> cached p o).
Proof.
  destruct b; intros Hp; unfold init.
  { destruct (sv_once _ _ Hp) as [Hon _]. exists tt, p. by rewrite Hon. }
  destruct (sv_once _ _ Hp) as (Hon & Hh & Hsources). destruct (sv_index _ _ Hp) as (i & Hi & _). pose proof (serving_format _ _ Hp) as Hf.
  destruct first_scan as (sc & Hscan & Hsc). destruct (read_sum sc Hsc) as (sc1 & sc2 & Hseek & Hread & Hsc2).
  assert (exists p', do_init digest p = (Ok tt, p') /\ serving true (pf_set_once p' (Some None))
    /\ pf_cache p' = Some (default oc_NewDefault (pf_cache p))) as (p' & Hrun & Hs & Hc).
  2: { exists tt, (pf_set_once p' (Some None)). rewrite Hon, Hrun. split; [done|]. split; [done|]. intros o (c & Hc' & Ho). cbn in Hc'. rewrite Hc in Hc'.
       injection Hc' as <-. destruct (pf_cache p) as [c0|] eqn:Hp0; cbn in Ho; [by exists c0|]. by destruct (proj2 oc_Default_law o). }
  pose proof (sv_size _ _ Hp) as Hsz. pose proof (sv_cache _ _ Hp) as Hca. destruct p as [file rs h rd ix ca scn id sz on cl]. cbn in Hon, Hh, Hi, Hsz, Hca. subst h on ix sz.
  pose proof (sv_open _ _ Hp) as Hcl. cbn in Hcl. subst cl. unfold scan_format in Hf. cbn [pf_idSize] in Hf. unfold sources in Hsources. cbn [pf_resolve pf_file] in Hsources.
  destruct rs as [[h|]|]; [|done|].
  - destruct Hsources as (r & Hopen & Hrb & Hpk). destruct ca as [ca|]; eexists; (split; [run_init; rewrite Hopen; cbn;
      unfold scan_format; cbn; rewrite Hf, Hrb, Hscan; cbn; rewrite Hpk; reflexivity|]); (split; [|done]); eapply (serving_started _ _ _ _ _ _ Hp); done.
  - destruct Hsources as (f & -> & Hfb). destruct ca as [ca|]; eexists; (split; [run_init; unfold scan_format; cbn; rewrite Hf, Hfb, Hscan;
      cbn; rewrite Hseek; cbn; rewrite Hread; reflexivity|]); (split; [|done]); eapply (serving_started _ _ _ _ _ _ Hp); done.
Qed.
#[local] Transparent PackScanner.Scan seek_end reads.

(** *** The methods *)

Lemma unless_open {A} b p (m : ST packfile_error (Packfile I C) A) : serving b p -> unless_closed m p = m p.
Proof. intros Hp. apply unless_closed_open, Hp. Qed.

(** Every method starts with the same checks. *)
Lemma after_init {A} b p (m : ST packfile_error (Packfile I C) A) : serving b p -> exists p', serving true p' /\ (forall o, cached p' o -> cached p o)
  /\ unless_closed (init digest;; m) p = m p' /\ unless_closed (init digest;; unless_closed m) p = m p' /\ (init digest;; m) p = m p'.
Proof.
  intros Hp. destruct (init_ok b p Hp) as ([] & p' & Hi & Hs & Hc). exists p'. split; [done|]. split; [done|].
  rewrite !(unless_open _ _ _ Hp), !(st_bind_Ok _ _ _ _ _ Hi). by rewrite (unless_open _ _ _ Hs).
Qed.

Lemma Get_ok b p n h d off t c : serving b p -> maxDeltaChainDepth < Z.of_nat n -> stands d off t c -> oid_ok h ->
  Bytes h = Bytes (object_id t c) -> gives (Get digest n h) p t c.
Proof.
  intros Hp Hn Hs Hh Hb. destruct (after_init b p (get digest n h) Hp) as (p' & Hp' & _ & _ & Hrun & _).
  unfold gives, st_ensures, Get. rewrite Hrun. by eapply lookup_ok.
Qed.

Lemma GetByOffset_ok b p n d off t c : serving b p -> maxDeltaChainDepth < Z.of_nat n -> stands d off t c -> gives (GetByOffset digest n off) p t c.
Proof.
  intros Hp Hn Hs. destruct (after_init b p (getByOffset digest n off) Hp) as (p' & Hp' & _ & _ & Hrun & _).
  unfold gives, st_ensures, GetByOffset. rewrite Hrun. by eapply lookup_ok.
Qed.

Lemma GetSizeByOffset_ok b p n d off t c : serving b p -> maxDeltaChainDepth < Z.of_nat n -> stands d off t c ->
  st_ensures (GetSizeByOffset digest n off) p (fun sz p' => sz = len c /\ serving true p').
Proof.
  intros Hp Hn Hs. destruct (after_init b p (d ← GetByOffset digest n off; mret (eo_Size d)) Hp) as (p' & Hp' & _ & Hrun & _ & _).
  unfold st_ensures, GetSizeByOffset. rewrite Hrun. eapply st_ensures_bind; [by eapply GetByOffset_ok|].
  intros o p2 [-> Hp2]. by apply st_ensures_ret.
Qed.

(** What the index does not list. *)
Definition misses {A} (m : ST packfile_error (Packfile I C) A) (p : Packfile I C) : Prop :=
  exists e p', m p = (Err (PfIndex e), p') /\ serving true p'.

Lemma index_entry e : e ∈ l -> exists k x d t c, es !! k = Some x /\ e_Offset e = pos es k /\ stands d (pos es k) t c
  /\ ebytes e = Bytes (object_id t c).
Proof.
  intros He. pose proof (sd_index _ _ _ _ _ _ Hsd) as Hx. pose proof (sd_resolvable _ _ _ _ _ _ Hsd) as Hrs.
  assert (e_Offset e ∈ (pos es <$> seq 0 (length es))) as (k & Hk & Hin%elem_of_seq)%list_elem_of_fmap.
  { rewrite <-(xs_offsets _ _ _ _ Hx). apply list_elem_of_fmap. by exists e. }
  destruct (lookup_lt_is_Some_2 es k) as [x Hx']; [lia|].
  destruct (rs_stands _ _ _ _ Hrs (pos es k) x (entry_at_pos es k x Hx')) as (d' & t' & c' & Hs').
  exists k, x, d', t', c'. split_and!; try done. apply (xs_names _ _ _ _ Hx e d'); [done|]. by rewrite Hk.
Qed.

Lemma Get_misses b p n h : serving b p -> oid_ok h -> (forall t c, an_object t c -> Bytes (object_id t c) <> Bytes h) ->
  (forall o, cached p o -> eo_Hash o <> h) -> misses (Get digest (S n) h) p.
Proof.
  intros Hp Hh Hno Hc. destruct (after_init b p (get digest (S n) h) Hp) as (p' & Hp' & Hsub & _ & Hrun & _).
  unfold misses, Get. rewrite Hrun. unfold get. cbn [lookup_object].
  destruct (cache_Get_ok h p' Hp') as (r & p1 & Hg & Hp1 & Ho). rewrite (st_bind_Ok _ _ _ _ _ Hg).
  destruct r as [o|]; [destruct (Ho o eq_refl) as (Heq & Hin & _); by destruct (Hc o (Hsub o Hin))|].
  destruct (sv_index _ _ Hp1) as (i & Hi & Hl). destruct (ix_FindOffset i l h Hl Hh) as (r & i' & Hf & Hl' & Hr).
  destruct r as [off|err| |]; [|clear Hr|done|done].
  { destruct Hr as (e & He & Hb & _). destruct (index_entry e He) as (k & x & d & t & c & _ & _ & Hs & Hn'). destruct (Hno t c); [by eapply stands_object_of|congruence]. }
  exists err, (pf_set_index p1 (Some i')). split; [|by apply serving_index].
  unfold mbind, ST_bind, on_index. by rewrite Hi, Hf.
Qed.

Lemma GetByOffset_misses b p n off : serving b p -> (forall e, ~ entry_at es off e) -> misses (GetByOffset digest (S n) off) p.
Proof.
  intros Hp Hno. destruct (after_init b p (getByOffset digest (S n) off) Hp) as (p' & Hp' & _ & _ & Hrun & _).
  unfold misses, GetByOffset. rewrite Hrun. unfold getByOffset. cbn [lookup_object].
  destruct (sv_index _ _ Hp') as (i & Hi & Hl). destruct (ix_FindHash i l off Hl) as (r & i' & Hf & Hl' & Hr).
  destruct r as [h|err| |]; [|clear Hr|done|done].
  { destruct Hr as (e & He & Ho & _). destruct (index_entry e He) as (k & x & _ & _ & _ & Hk & Hpos & _). destruct (Hno x).
    rewrite <-Ho, Hpos. by apply entry_at_pos. }
  exists err, (pf_set_index p' (Some i')). split; [|by apply serving_index].
  unfold mbind, ST_bind, on_index. by rewrite Hi, Hf.
Qed.

Lemma ID_ok b p : serving b p -> st_ensures (ID digest) p (fun h p' => h = sum /\ serving true p').
Proof.
  intros Hp. destruct (after_init b p (st_get pf_id) Hp) as (p' & Hp' & _ & _ & _ & Hrun).
  unfold ID, st_ensures. rewrite Hrun. exists (pf_id p'), p'. split; [done|]. split; [|done]. by destruct (sv_once _ _ Hp') as (_ & ? & _).
Qed.

(** *** Iterating *)

(** The object of the entry number [k]. *)
Definition object_of (k : nat) (o : EncodedObject) : Prop :=
  exists d t c, stands d (pos es k) t c /\ o = mem_object t c.

Definition entry_number (e : Entry) (k : nat) : Prop := (k < length es)%nat /\ e_Offset e = pos es k.

Lemma pos_small k : 0 <= pos es k < 2 ^ 63.
Proof.
  pose proof (pos_lower es k). pose proof (sd_length _ _ _ _ _ _ Hsd) as Hlen.
  destruct (pack_source_split digest fmt es src sum (sd_pack _ _ _ _ _ _ Hsd)) as [c Hc].
  assert (len (raws (take k es)) <= len (raws es)).
  { rewrite <-(take_drop k es) at 2. unfold raws. rewrite map_app, concat_app, len_app. pose proof (len_nonneg (concat (map en_raw (drop k es)))). lia. }
  split; [lia|]. unfold pos. rewrite Hc, !len_app, len_pack_head in Hlen. pose proof (len_nonneg c). lia.
Qed.

(** An iterator goes over the entries in the order of the pack. *)
Lemma iterator_order i : ix_lists i l -> exists it l', pi_EntriesByOffset i = Ok it /\ ix_ahead it l' /\ Forall2 entry_number l' (seq 0 (length es)).
Proof.
  intros Hl. destruct (ix_EntriesByOffset i l Hl) as (it & l' & Hit & Ha & Hsorted & Hperm). exists it, l'. split; [done|]. split; [done|].
  rewrite (xs_offsets _ _ _ _ (sd_index _ _ _ _ _ _ Hsd)) in Hperm.
  assert (e_Offset <$> l' = pos es <$> seq 0 (length es)) as Heq.
  { apply (StronglySorted_unique Z.le); [| |done].
    - clear -Hsorted. induction Hsorted as [|e l' Hs IH Hall]; cbn; constructor; [done|]. by rewrite Forall_fmap.
    - assert (forall a n, (a + n <= length es)%nat -> StronglySorted Z.le (pos es <$> seq a n)) as Hseq; [|by apply Hseq].
      intros a n. revert a. induction n as [|n IH]; intros a Ha'; cbn; constructor; [apply IH; lia|].
      rewrite Forall_fmap, Forall_seq. intros j Hj. cbn. pose proof (pos_mono fmt es (pack_entries _ _ _ _ _ (sd_pack _ _ _ _ _ _ Hsd)) a j). lia. }
  assert (forall ks, Forall (fun k => k < length es)%nat ks -> forall l', e_Offset <$> l' = pos es <$> ks -> Forall2 entry_number l' ks) as Hgen.
  { intros ks Hks. induction Hks as [|k ks Hk Hks IH]; intros [|e l1] He; try done. cbn in He. injection He as He Hrest. constructor; [done|auto]. }
  apply Hgen; [apply Forall_seq; lia|done].
Qed.

Lemma header_type k x d t c : es !! k = Some x -> stands d (pos es k) t c -> IsDelta (en_type x) = false -> t = en_type x.
Proof.
  intros Hk Hs Hd. destruct (entry_lookup_ok fmt es (pack_entries _ _ _ _ _ (sd_pack _ _ _ _ _ _ Hsd)) k x Hk) as [_ Href _ _].
  assert (en_base x = NoBase) as Hb by (destruct (en_base x) as [|m|h]; [done|by destruct Href as [Ht _]; rewrite Ht in Hd..]).
  assert (stands 0 (pos es k) (en_type x) (en_data x)) as Hs' by (apply stands_object; [by apply entry_at_pos|done]).
  by destruct (stands_det digest fmt es ∅ (pack_entries _ _ _ _ _ (sd_pack _ _ _ _ _ _ Hsd)) (sd_resolvable _ _ _ _ _ _ Hsd) _ _ _ _ _ _ _ Hs Hs').
Qed.

(** An iterator before entries with the given objects. *)
Definition before (i : objectIter (I := I)) (t : ObjectType) (objs : list EncodedObject) : Prop :=
  oi_typ i = t /\ exists la ks, ix_ahead (oi_iter i) la /\ Forall2 entry_number la ks /\ Forall2 object_of ks objs.

Lemma next_ok t turns n : maxDeltaChainDepth < Z.of_nat n -> forall objs i p, before i t objs -> serving true p -> (length objs < turns)%nat ->
  match filter (fun o => of_type t o = true) objs with
  | [] => exists p', next digest turns n i p = (Err PfEOF, p') /\ serving true p'
  | o :: rest => exists i' p' objs', next digest turns n i p = (Ok (o, i'), p') /\ serving true p' /\ before i' t objs'
      /\ filter (fun o => of_type t o = true) objs' = rest /\ (length objs' < length objs)%nat
  end.
Proof.
  intros Hn. induction turns as [|turns IH]; intros objs i p (Ht & la & ks & Ha & Hla & Hks) Hp Hlen; [lia|].
  destruct (ix_Next (oi_iter i) la Ha) as (it & Hnext & Ha'). cbn [next].
  match goal with |- context [(st_lift ?m ≫= ?f) p] => assert (forall e, hd_error la = e -> (st_lift m ≫= f) p = f (e, it) p) as Hstep
    by (intros e <-; by rewrite (st_bind_Ok _ _ _ (hd_error la, it) p) by (unfold st_lift; by rewrite Hnext)) end.
  destruct Hks as [|k o ks objs Ho Hks]; inversion Hla as [|e k' la' ks' [Hk He] Hla' Heq1 Heq2]; subst.
  { rewrite (Hstep None eq_refl). cbn. by exists p. }
  rewrite (Hstep (Some e) eq_refl). clear Hstep. cbn beta iota. set (i1 := {| oi_typ := oi_typ i; oi_iter := it |}).
  assert (before i1 (oi_typ i) objs) as Hb1 by (split; [done|]; by exists la', ks).
  rewrite He, i64_small by apply pos_small. destruct (lookup_lt_is_Some_2 es k Hk) as [x Hx].
  destruct (headerFromOffset_ok k x p Hx Hp) as (oh & p1 & Hhd & -> & Hp1). rewrite (st_bind_Ok _ _ _ _ _ Hhd).
  destruct Ho as (d & ty & c & Hs & ->).
  assert (gives (objectFromHeader digest n (header k x)) p1 ty c) as (o & p2 & Hobj & -> & Hp2).
  { eapply (stands_resolved _ _ _ _ Hs); [done..| |done]. pose proof (rs_depth _ _ _ _ (sd_resolvable _ _ _ _ _ _ Hsd) _ _ _ _ Hs). lia. }
  change (oh_Type (header k x)) with (en_type x). cbn [oi_typ i1]. rewrite filter_cons.
  assert (exists i' p' objs',
    (o ← objectFromHeader digest n (header k x); mret (o, i1)) p1 = (Ok (mem_object ty c, i'), p') /\ serving true p' /\ before i' (oi_typ i) objs'
      /\ filter (fun o => of_type (oi_typ i) o = true) objs' = filter (fun o => of_type (oi_typ i) o = true) objs
      /\ (length objs' < length (mem_object ty c :: objs))%nat) as Hgive.
  { exists i1, p2, objs. rewrite (st_bind_Ok _ _ _ _ _ Hobj). split_and!; try done. cbn. lia. }
  destruct (bool_decide_reflect (oi_typ i = AnyObject)) as [Hany|Hany].
  { destruct (decide _) as [_|Hno]; [done|]. by rewrite Hany in Hno. }
  assert (of_type (oi_typ i) (mem_object ty c) = bool_decide (ty = oi_typ i)) as Hof by (unfold of_type; by destruct (oi_typ i)).
  rewrite Hof. destruct (IsDelta (en_type x)) eqn:Hd.
  - rewrite (st_bind_Ok _ _ _ _ _ Hobj). cbn [mem_object eo_Type]. destruct (bool_decide_reflect (ty = oi_typ i)) as [He'|He'].
    + destruct (decide _); [|done]. exists i1, p2, objs. split_and!; try done. cbn. lia.
    + destruct (decide _); [done|]. specialize (IH objs i1 p2 Hb1 Hp2 ltac:(cbn in Hlen; lia)). cbn [oi_typ] in IH.
      destruct (filter _ objs) as [|o' rest]; [done|]. destruct IH as (i' & p' & objs' & ? & ? & ? & ? & ?). exists i', p', objs'. split_and!; try done. cbn. lia.
  - rewrite <-(header_type k x d ty c Hx Hs Hd). destruct (bool_decide_reflect (ty = oi_typ i)) as [He'|He'].
    + by destruct (decide _).
    + destruct (decide _); [done|]. specialize (IH objs i1 p1 Hb1 Hp1 ltac:(cbn in Hlen; lia)). cbn [oi_typ] in IH.
      destruct (filter _ objs) as [|o' rest]; [done|]. destruct IH as (i' & p' & objs' & ? & ? & ? & ? & ?). exists i', p', objs'. split_and!; try done. cbn. lia.
Qed.

(** A callback sees objects until it gives an error. *)
Fixpoint visit (f : EncodedObject -> option packfile_error) (os : list EncodedObject) : list EncodedObject * option packfile_error :=
  match os with
  | [] => ([], None)
  | o :: os =>
      match f o with
      | Some e => ([o], Some e)
      | None => let '(seen, e) := visit f os in (o :: seen, e)
      end
  end.

Lemma ForEach_loop_ok t turns n m f : maxDeltaChainDepth < Z.of_nat n -> forall objs i p, before i t objs -> serving true p ->
  (length objs < turns)%nat -> (length objs < m)%nat ->
  st_ensures (ForEach_loop digest m turns n f i) p (fun r p' => r = visit f (filter (fun o => of_type t o = true) objs) /\ serving true p').
Proof.
  intros Hn. induction m as [|m IH]; intros objs i p Hb Hp Hturns Hm; [lia|]. cbn [ForEach_loop].
  pose proof (next_ok t turns n Hn objs i p Hb Hp Hturns) as Hnext. unfold st_ensures. destruct (filter _ objs) as [|o rest].
  - destruct Hnext as (p' & -> & Hp'). by eexists _, p'.
  - destruct Hnext as (i' & p' & objs' & -> & Hp' & Hb' & <- & Hlen). cbn [visit]. destruct (f o) as [e|]; [by eexists _, p'|].
    destruct (IH objs' i' p' Hb' Hp' ltac:(lia) ltac:(lia)) as ([seen e] & p2 & Hrun & Hv & Hp2). rewrite (st_bind_Ok _ _ _ _ _ Hrun).
    eexists _, p2. split; [done|]. by rewrite <-Hv.
Qed.

(** The types [GetByType] takes. *)
Definition listable (t : ObjectType) : bool := match t with AnyObject => true | _ => storable t end.

Lemma GetByType_ok b p t : serving b p -> listable t = true -> exists objs, Forall2 object_of (seq 0 (length es)) objs
  /\ st_ensures (GetByType digest t) p (fun i p' => before i t objs /\ serving true p').
Proof.
  intros Hp Ht.
  assert (exists objs, Forall2 object_of (seq 0 (length es)) objs) as [objs Hobjs].
  { assert (forall ks, Forall (fun k => k < length es)%nat ks -> exists objs, Forall2 object_of ks objs) as Hgen; [|apply Hgen, Forall_seq; lia].
    intros ks Hks. induction Hks as [|k ks Hk _ [objs IH]]; [by exists []|].
    destruct (lookup_lt_is_Some_2 es k Hk) as [x Hx].
    destruct (rs_stands _ _ _ _ (sd_resolvable _ _ _ _ _ _ Hsd) (pos es k) x (entry_at_pos es k x Hx)) as (d & ty & c & Hs).
    exists (mem_object ty c :: objs). constructor; [by exists d, ty, c|done]. }
  exists objs. split; [done|]. unfold GetByType, st_ensures.
  match goal with |- context [unless_closed (init digest ;; ?m) p] => destruct (after_init b p m Hp) as (p' & Hp' & _ & -> & _ & _) end.
  match goal with |- exists a s', (match _ with BlobObject => ?m | _ => _ end) p' = _ /\ _ => assert (forall M, M = m -> exists a s', M p' = (Ok a, s') /\ before a t objs /\ serving true s') as Hrun end.
  { intros M ->. destruct (sv_index _ _ Hp') as (i & Hi & Hl). destruct (iterator_order i Hl) as (it & la & Hit & Ha & Hla).
    rewrite (st_bind_Ok _ _ p' it (pf_set_index p' (Some i))) by (unfold on_index; by rewrite Hi, Hit).
    eexists _, _. split; [done|]. split; [|by apply serving_index]. split; [done|]. by exists la, (seq 0 (length es)). }
  by destruct t; first [done | apply Hrun].
Qed.
End serving.

(** C4: a pack file serves its pack.  Over the bytes of a pack whose entries
    stand for objects, an index that lists them, and any cache that does not
    hold something else under their names, a pack file that is open, whatever
    was asked of it before, gives for every entry the type and content the
    entry stands for, with its identifier, by any identifier with its name and
    by its position; its size is that of the content.  A name that the pack
    does not have (and the cache does not hold), and a position no entry starts
    at, give the index's error.  The pack's own identifier is its digest.  The
    fuel for chains of deltas is one more than the longest chain a parser
    accepts; none of these calls panics, and the pack file serves the next call
    just as well. *)
Theorem Packfile_serves {I C} `{LawfulIndex I, LawfulCache C, Zlib} digest fmt es src sum l (b : bool) (p : Packfile I C) n :
  served digest fmt es src sum l -> serving digest fmt es src sum l b p -> maxDeltaChainDepth < Z.of_nat n ->
  (forall d off t c, stands digest fmt es ∅ d off t c ->
     (forall h, oid_ok h -> Bytes h = Bytes (object_id digest fmt t c) -> gives digest fmt es src sum l (Get digest n h) p t c)
     /\ gives digest fmt es src sum l (GetByOffset digest n off) p t c
     /\ st_ensures (GetSizeByOffset digest n off) p (fun sz p' => sz = len c /\ serving digest fmt es src sum l true p'))
  /\ (forall h, oid_ok h -> (forall t c, an_object digest fmt es ∅ t c -> Bytes (object_id digest fmt t c) <> Bytes h) ->
       (forall o, cached p o -> eo_Hash o <> h) -> misses digest fmt es src sum l (Get digest n h) p)
  /\ (forall off, (forall e, ~ entry_at es off e) -> misses digest fmt es src sum l (GetByOffset digest n off) p)
  /\ st_ensures (ID digest) p (fun h p' => h = sum /\ serving digest fmt es src sum l true p').
Proof.
  intros Hsd Hp Hn. destruct n as [|n]; [unfold maxDeltaChainDepth in Hn; lia|]. split_and!.
  - intros d off t c Hs. split_and!; [intros h Hh Hb|..]; [by eapply Get_ok|by eapply GetByOffset_ok|by eapply GetSizeByOffset_ok].
  - intros h Hh Hno Hc. by eapply Get_misses.
  - intros off Hno. by eapply GetByOffset_misses.
  - by eapply ID_ok.
Qed.

(** C5: iterating gives the objects in the order of the pack.  [GetByType]
    over such a pack file gives an iterator; the objects the pack's entries
    stand for, in the order of the entries, those of the asked type, are what
    [ForEach] hands to its callback, one after the other, up to and with the
    first the callback refuses; it returns what the callback said then, and no
    error at the end.  A delta counts as what it stands for. *)
Theorem GetByType_visits {I C} `{LawfulIndex I, LawfulCache C, Zlib} digest fmt es src sum l (b : bool) (p : Packfile I C) n t f :
  served digest fmt es src sum l -> serving digest fmt es src sum l b p -> maxDeltaChainDepth < Z.of_nat n -> listable t = true ->
  exists objs, Forall2 (object_of digest fmt es) (seq 0 (length es)) objs
  /\ st_ensures (i ← GetByType digest t; ForEach digest (S (length es)) (S (length es)) n f i) p (fun r p' =>
       r = visit f (filter (fun o => of_type t o = true) objs) /\ serving digest fmt es src sum l true p').
Proof.
  intros Hsd Hp Hn Ht. destruct (GetByType_ok digest fmt es src sum l Hsd b p t Hp Ht) as (objs & Hobjs & Hrun).
  exists objs. split; [done|]. eapply st_ensures_bind; [exact Hrun|]. intros i p1 [Hb Hp1]; cbn beta in *.
  pose proof (Forall2_length _ _ _ Hobjs) as Hlen. rewrite length_seq in Hlen.
  eapply st_ensures_bind; [by eapply init_ok|]. intros [] p2 [Hp2 _]; cbn beta in *.
  eapply ForEach_loop_ok; [done..|lia|lia].
Qed.

(** A closed pack file refuses.  Closing succeeds once and gives the error
    of closing what the pack file owns, a second time it does nothing; from
    then on every method that looks for objects gives [fs.ErrClosed] and
    changes nothing.  An iterator made before gives an error, not objects.
    [ID] alone does not ask: it gives the identifier of a pack file that was
    ready, as before. *)
Theorem Close_refuses {I C} `{PackIndex I, ObjectCache C, Zlib} digest (p : Packfile I C) :
  exists ok p', Close p = (Ok ok, p') /\ pf_closed p' = true /\ Close p' = (Ok true, p')
  /\ (forall n h, Get digest n h p' = (Err PfClosed, p')) /\ (forall n off, GetByOffset digest n off p' = (Err PfClosed, p'))
  /\ (forall n off, GetSizeByOffset digest n off p' = (Err PfClosed, p')) /\ (forall t, GetByType digest t p' = (Err PfClosed, p'))
  /\ GetAll digest p' = (Err PfClosed, p') /\ pf_Scanner digest p' = (Err PfClosed, p')
  /\ (pf_once p = Some None ->
       (forall turns n i o i' q, Next digest turns n i p' <> (Ok (o, i'), q)) /\ ID digest p' = (Ok (pf_id p), p')).
Proof.
  assert (exists ok p', Close p = (Ok ok, p') /\ pf_closed p' = true /\ pf_once p' = pf_once p /\ pf_id p' = pf_id p) as (ok & p' & Hc & Hcl & Hon & Hid).
  { unfold Close. rewrite (st_bind_Ok (st_get _) _ _ _ _ eq_refl). destruct (pf_closed p) eqn:Hp; [by eexists _, p|].
    rewrite (st_bind_Ok (st_set _) _ _ _ _ eq_refl), (st_bind_Ok (st_get _) _ _ _ _ eq_refl). cbn [pf_handle pf_set_closed].
    destruct (pf_handle p); rewrite (st_bind_Ok (st_get _) _ _ _ _ eq_refl); cbn [pf_reader pf_set_closed]; [destruct (pf_reader p)|]; by eexists _, _. }
  assert (forall A (m : ST packfile_error (Packfile I C) A), unless_closed m p' = (Err PfClosed, p')) as Hno.
  { intros A m. unfold unless_closed. by rewrite (st_bind_Ok (st_get _) _ _ _ _ eq_refl), Hcl. }
  exists ok, p'. split_and!; try done; try (intros; apply Hno).
  - unfold Close. by rewrite (st_bind_Ok (st_get _) _ _ _ _ eq_refl), Hcl.
  - intros Hready. rewrite Hready in Hon. assert (init digest p' = (Ok tt, p')) as Hi by (unfold init; by rewrite Hon). split.
    + intros [|turns] n i o i' q; unfold Next; rewrite (st_bind_Ok _ _ _ _ _ Hi); [done|]. cbn [next].
      intros ([e it] & p2 & Hn & Hk)%st_bind_Ok_inv. assert (p2 = p') as -> by (unfold st_lift in Hn; by injection Hn as _ <-).
      destruct e as [e|]; [|done]. apply st_bind_Ok_inv in Hk as (oh & p3 & Hh & _). unfold headerFromOffset in Hh.
      by rewrite (st_bind_Ok (st_get _) _ _ _ _ eq_refl), Hcl in Hh.
    + unfold ID. rewrite (st_bind_Ok _ _ _ _ _ Hi). unfold st_get. by rewrite Hid.
Qed.

(** ** Cycles

    Nothing bounds the chains of [getMemoryObject] (the parser has
    [maxDeltaChainDepth]): over an index that names deltas by identifier in a
    cycle, looking for any of them never ends. *)
Section cycles.
Context {I C : Type} `{LawfulIndex I, LawfulCache C, Zlib} (digest : ObjectFormat -> bytes -> bytes) (fmt : ObjectFormat).
Context (es : list PackScanner.entry) (src : bytes) (sum : ObjectID) (l : list Entry) (names : list ObjectID).
Hypothesis Hpack : is_pack digest fmt src es sum [].

(** Each name is in the index, and all its entries are deltas over names. *)
Definition cyclic : Prop := forall h, h ∈ names -> oid_ok h /\ (exists e, e ∈ l /\ ebytes e = Bytes h)
  /\ forall e, e ∈ l -> ebytes e = Bytes h -> exists k x h', e_Offset e = pos es k /\ es !! k = Some x /\ en_base x = RefBase h' /\ h' ∈ names.

Record spinning (p : Packfile I C) : Prop := {
  sp_open : pf_closed p = false;
  sp_format : scan_format p = fmt;
  sp_index : exists i, pf_index p = Some i /\ ix_lists i l;
  sp_cache : exists c, pf_cache p = Some c /\ oc_ok c /\ forall o, oc_holds c o -> eo_Hash o ∉ names;
  sp_scanner : exists sc, pf_scanner p = Some sc /\ sr_src (reader sc) = src;
}.

Lemma spinning_miss p h : spinning p -> h ∈ names -> exists p', cache_Get h p = (Ok None, p') /\ spinning p'.
Proof.
  intros [Ho Hf Hi (c & Hc & Hok & Hno) Hs] Hh. destruct (oc_Get_law c h Hok) as (r & c' & Hg & Hok' & Hsub & Hr).
  destruct r as [o|]; [destruct (Hr o eq_refl) as [Hin Heq]; by destruct (Hno o Hin); rewrite Heq|].
  exists (pf_set_cache p (Some c')). unfold cache_Get. rewrite Hc, Hg. split; [done|]. split; try done. exists c'. eauto.
Qed.

Lemma cycle_spins : cyclic -> forall n p h, h ∈ names -> spinning p -> exists q, lookup_object digest n (inl h) p = (NoFuel, q).
Proof.
  intros Hcyc n. induction n as [|n IH]; intros p h Hh Hp; [by exists p|]. destruct (Hcyc h Hh) as (Hok & (e0 & He0 & Hb0) & Hdelta).
  cbn [lookup_object]. destruct (spinning_miss p h Hp Hh) as (p1 & Hg & Hp1). rewrite (st_bind_Ok _ _ _ _ _ Hg).
  destruct (sp_index _ Hp1) as (i & Hi & Hl). destruct (ix_FindOffset i l h Hl Hok) as (r & i' & Hfind & Hl' & Hr).
  destruct r as [off|err| |]; [|by destruct (Hr e0 He0)|done|done]. destruct Hr as (e & He & Hb & <-).
  destruct (Hdelta e He Hb) as (k & x & h' & Hpos & Hk & Hbase & Hh').
  set (p2 := pf_set_index p1 (Some i')). assert (spinning p2) as Hp2 by (destruct Hp1; split; try done; by exists i').
  rewrite (st_bind_Ok _ _ p1 (e_Offset e) p2) by (unfold on_index; by rewrite Hi, Hfind).
  destruct (sp_scanner _ Hp2) as (sc & Hsc & Hsrc). rewrite Hpos.
  destruct (headerFromOffset_run digest fmt es src sum Hpack k x p2 sc Hk (sp_open _ Hp2) (sp_format _ Hp2) Hsc Hsrc) as (sc' & Hhd & Hsrc').
  rewrite (st_bind_Ok _ _ _ _ _ Hhd). set (p3 := pf_set_scanner p2 (Some sc')).
  assert (spinning p3) as Hp3 by (destruct Hp2; split; try done; by exists sc').
  destruct (entry_lookup_ok fmt es (pack_entries digest fmt es src sum Hpack) k x Hk) as [_ Href _ _]. rewrite Hbase in Href. destruct Href as (Ht & _).
  unfold getMemoryObject. rewrite (st_bind_Ok (st_get _) _ _ _ _ eq_refl). cbn [oh_Type oh_Reference PackScanner.header_of]. rewrite Ht, Hbase.
  destruct (spinning_miss p3 h' Hp3 Hh') as (p4 & Hg' & Hp4). destruct (IH p4 h' Hh' Hp4) as (q & Hq). exists q.
  unfold find_base, mbind, ST_bind. by rewrite Hg', Hq.
Qed.
End cycles.

(** ** An example

    The pack of [PackScanner], served over the index a writer builds. *)
Definition example_index_entries : list Entry :=
  [{| e_Hash := object_id toy_digest SHA1 BlobObject [7; 8; 9]; e_CRC32 := crc32 (en_raw example_blob); e_Offset := 12 |};
   {| e_Hash := object_id toy_digest SHA1 BlobObject [8; 9]; e_CRC32 := crc32 (en_raw example_delta); e_Offset := 20 |}].

Lemma example_index_ok e : e ∈ example_index_entries -> IdxLookup.entry_ok 20 e.
Proof.
  unfold example_index_entries. rewrite !elem_of_cons, elem_of_nil. intros [->|[->|[]]]; (split; [|vm_compute; intuition discriminate]);
    (split; [vm_compute; reflexivity|apply (bool_decide_unpack _); vm_compute; exact I|vm_compute; reflexivity|vm_compute; discriminate]).
Qed.

(** The index a writer builds of entries with different names lists them. *)
Lemma writer_index_lists count objs checksum :
  Forall (IdxLookup.entry_ok (Size checksum)) objs -> len objs < 2 ^ 27 -> NoDup (e_Hash <$> objs) -> Forall (fun e => IsZero (e_Hash e) = false) objs ->
  exists idx w l, Idxfile.OnFooter (IdxWrite.observe (Idxfile.OnHeader new_Writer count) objs) checksum = Ok (None, w) /\ Index w = Ok (inl idx, w)
    /\ ix_lists idx l /\ l ≡ₚ objs.
Proof.
  intros Hok Hn Hnd Hz. destruct (writer_index count objs checksum Hok ltac:(lia)) as (idx & w & bs & Hf & Hi & Hrep & _ & _ & _ & Hin).
  assert (concat bs ≡ₚ objs) as Hperm.
  { apply NoDup_Permutation; [|by eapply NoDup_fmap_1|].
    - apply NoDup_alt. intros i j x Hx Hy. destruct Hrep as [_ [_ _ _ Hs _] _ _].
      destruct (Nat.lt_trichotomy i j) as [Hij|[->|Hij]]; [|done|];
        [pose proof (sorted_lookup _ _ _ _ _ Hs Hx Hy Hij) as Hlt|pose proof (sorted_lookup _ _ _ _ _ Hs Hy Hx Hij) as Hlt]; by apply bytes_lt_irrefl in Hlt.
    - intros e. rewrite Hin. split; [intros (pre & post & -> & _); apply elem_of_app; right; by left|].
      intros (pre & post & ->)%list_elem_of_split. exists pre, post. split; [done|]. rewrite Forall_app, Forall_cons in Hz. split; [by apply Hz|].
      rewrite fmap_app in Hnd. apply NoDup_app in Hnd as (_ & Hnd & _). apply Forall_forall. intros e' He' Heq.
      apply (Hnd (e_Hash e')); [by apply list_elem_of_fmap; exists e'|]. rewrite Heq. cbn. by left. }
  exists idx, w, (concat bs). split; [done|]. split; [done|]. split; [|done]. exists bs. split; [done|]. split; [done|]. unfold len in *. by rewrite Hperm.
Qed.

Lemma example_served l : l ≡ₚ example_index_entries ->
  served (H := toy_zlib) toy_digest SHA1 example_entries example_pack example_sum l.
Proof.
  intros Hl. split; try done.
  - apply toy_digest_ok.
  - apply example_is_pack.
  - apply (bool_decide_unpack _). vm_compute. exact I.
  - apply example_resolvable.
  - intros d off d' off' t c H1%example_stands H2%example_stands. rewrite !elem_of_cons, elem_of_nil in H1. rewrite !elem_of_cons, elem_of_nil in H2.
    by destruct H1 as [?|[?|[]]], H2 as [?|[?|[]]]; simplify_eq.
  - intros t c [-> [->| ->]]%example_objects; done.
  - split.
    + rewrite Hl. done.
    + intros e d t c He Hs%example_stands. rewrite Hl in He. unfold example_index_entries in He. rewrite !elem_of_cons, elem_of_nil in He. rewrite !elem_of_cons, elem_of_nil in Hs.
      by destruct He as [->|[->|[]]], Hs as [?|[?|[]]]; simplify_eq.
Qed.

(** A pack file over a file, just made. *)
Lemma NewPackfile_serving {I C} `{LawfulIndex I, LawfulCache C, Zlib} digest fmt es src sum l (i : I) closes :
  served digest fmt es src sum l -> ix_lists i l ->
  serving digest fmt es src sum l (C := C) false
    (NewPackfile (Some {| ps_bytes := src; ps_closes := closes |}) [WithIdx i; WithObjectIDSize (objectIDSize fmt)]).
Proof.
  intros Hsd Hi. split; try done; [by exists i|]. cbn. split; [done|]. split; [done|]. by eexists.
Qed.

Abbreviation toy_packfile idx := (NewPackfile (C := @LRU ObjectID EncodedObject _ _)
  (Some {| ps_bytes := example_pack; ps_closes := true |}) [WithIdx idx; WithObjectIDSize 20]).

Lemma example_packfile : exists idx l, served (H := toy_zlib) toy_digest SHA1 example_entries example_pack example_sum l
  /\ serving toy_digest SHA1 example_entries example_pack example_sum l false (toy_packfile idx).
Proof.
  destruct (writer_index_lists 2 example_index_entries example_sum) as (idx & w & l & _ & _ & Hi & Hl).
  - apply Forall_forall. apply example_index_ok.
  - done.
  - apply (bool_decide_unpack _). vm_compute. exact I.
  - apply (bool_decide_unpack _). vm_compute. exact I.
  - exists idx, l. split; [by apply example_served|]. apply (NewPackfile_serving (H3 := toy_zlib)); [by apply example_served|done].
Qed.

Lemma Packfile_serves_witness : exists idx,
  (let '(r, p) := Get (H1 := toy_zlib) toy_digest 4097 (object_id toy_digest SHA1 BlobObject [8; 9]) (toy_packfile idx) in
   exists q, r = Ok (mem_object toy_digest SHA1 BlobObject [8; 9]) /\ GetByOffset (H1 := toy_zlib) toy_digest 4097 12 p
     = (Ok (mem_object toy_digest SHA1 BlobObject [7; 8; 9]), q))
  /\ exists e q, GetByOffset (H1 := toy_zlib) toy_digest 4097 13 (toy_packfile idx) = (Err (PfIndex e), q).
Proof.
  destruct example_packfile as (idx & l & Hsd & Hp). exists idx.
  assert (stands toy_digest SHA1 example_entries ∅ 0 12 BlobObject [7; 8; 9]) as H1.
  { apply (stands_object _ _ _ _ 12 example_blob); [by left|done]. }
  assert (stands toy_digest SHA1 example_entries ∅ 1 20 BlobObject [8; 9]) as H2.
  { apply (stands_ofs _ _ _ _ 0 20 example_delta 8 BlobObject [7; 8; 9]); [right; by left|done|done|vm_compute; reflexivity]. }
  destruct (Packfile_serves (H3 := toy_zlib) toy_digest SHA1 example_entries example_pack example_sum l false _ 4097 Hsd Hp ltac:(done)) as (Hget & _ & Hmiss & _).
  split.
  - destruct (proj1 (Hget _ _ _ _ H2) (object_id toy_digest SHA1 BlobObject [8; 9])) as (o & p & -> & -> & Hp').
    { by apply object_id_pack, toy_digest_ok. }
    { done. }
    destruct (Packfile_serves (H3 := toy_zlib) toy_digest SHA1 example_entries example_pack example_sum l true p 4097 Hsd Hp' ltac:(done)) as (Hget' & _).
    destruct (proj1 (proj2 (Hget' _ _ _ _ H1))) as (o & q & -> & -> & _). by exists q.
  - destruct (Hmiss 13) as (e & q & Hq & _); [|by exists e, q].
    intros e He. unfold entry_at, placed, example_entries in He. rewrite !elem_of_cons, elem_of_nil in He. destruct He as [[=]|[[=]|[]]].
Defined.

Lemma GetByType_visits_witness : exists (idx : MemoryIndex) objs,
  Forall2 (object_of toy_digest SHA1 example_entries) (seq 0 2) objs
  /\ exists p, (i ← GetByType (H1 := toy_zlib) toy_digest AnyObject; ForEach (H1 := toy_zlib) toy_digest 3 3 4097 (fun _ => None) i) (toy_packfile idx) = (Ok (objs, None), p).
Proof.
  destruct example_packfile as (idx & l & Hsd & Hp). exists idx.
  destruct (GetByType_visits (H3 := toy_zlib) toy_digest SHA1 example_entries example_pack example_sum l false _ 4097 AnyObject (fun _ => None) Hsd Hp ltac:(done) eq_refl)
    as (objs & Hobjs & r & p & Hrun & -> & _).
  exists objs. split; [exact Hobjs|]. exists p. etransitivity; [exact Hrun|].
  assert (forall os : list EncodedObject, filter (fun o => of_type AnyObject o = true) os = os) as Hall.
  { intros os. induction os as [|o os IH]; [reflexivity|]. rewrite filter_cons. destruct (decide _) as [_|Hno]; [by rewrite IH|by destruct Hno]. }
  assert (forall os : list EncodedObject, visit (fun _ => None) os = (os, None)) as Hv.
  { intros os. induction os as [|o os IH]; [reflexivity|]. cbn. by rewrite IH. }
  by rewrite Hall, Hv.
Defined.

(** Two deltas, each over the name the index gives to the other. *)
Definition cycle_name (b : Z) : ObjectID := oid_of UnsetObjectFormat (replicate 20 b).
Definition cycle_entry (b : Z) : PackScanner.entry :=
  {| en_head := [115]; en_ref := replicate 20 b; en_zip := toy_deflate [1; 1; 1]; en_type := REFDeltaObject; en_base := RefBase (cycle_name b);
     en_data := [1; 1; 1] |}.
Definition cycle_entries : list PackScanner.entry := [cycle_entry 2; cycle_entry 1].
Definition cycle_pack : bytes := pack_body cycle_entries ++ toy_digest UnsetObjectFormat (pack_body cycle_entries).
Definition cycle_index_entries : list Entry :=
  [{| e_Hash := cycle_name 1; e_CRC32 := 0; e_Offset := 12 |}; {| e_Hash := cycle_name 2; e_CRC32 := 0; e_Offset := 40 |}].

Lemma cycle_name_ok b : is_byte b -> oid_ok (cycle_name b) /\ Bytes (cycle_name b) = replicate 20 b.
Proof.
  intros Hb. split; [|done]. split; [done| |done|done]. apply bytes_ok_app. split; [|apply zeros_ok]. by apply Forall_replicate.
Qed.

Lemma cycle_is_pack : exists sum, is_pack (H := toy_zlib) toy_digest SHA1 cycle_pack cycle_entries sum [].
Proof.
  set (c := toy_digest UnsetObjectFormat (pack_body cycle_entries)).
  exists {| oid_hash := copy (zeros SHA256Size) c; oid_format := UnsetObjectFormat |}.
  assert (forall off b, is_byte b -> PackScanner.entry_ok (H := toy_zlib) SHA1 off (cycle_entry b)) as Hentry.
  { intros off b Hb. split; [exists 115, []; split_and!; [done..|by intros rest]| |by intros rest|done]. split; [done|]. intros rest. unfold ReadFrom.
    replace (Size _) with (len (replicate 20 b)) by done. by rewrite ReadFull_app. }
  split.
  - exists c. split; [vm_compute; reflexivity|]. intros rest. unfold ReadFrom. replace (Size _) with (len c) by (vm_compute; reflexivity). by rewrite ReadFull_app.
  - done.
  - cbn [entries_ok cycle_entries]. by split_and!; [apply Hentry..|].
  - vm_compute. reflexivity.
Qed.

Lemma cycle_is_cyclic l : l ≡ₚ cycle_index_entries -> cyclic cycle_entries l [cycle_name 1; cycle_name 2].
Proof.
  intros Hl h Hh. assert (h = cycle_name 1 \/ h = cycle_name 2) as Hcases by (rewrite !elem_of_cons, elem_of_nil in Hh; tauto).
  assert (forall e, e ∈ l <-> e = {| e_Hash := cycle_name 1; e_CRC32 := 0; e_Offset := 12 |} \/ e = {| e_Hash := cycle_name 2; e_CRC32 := 0; e_Offset := 40 |}) as Hin.
  { intros e. rewrite Hl. unfold cycle_index_entries. rewrite !elem_of_cons, elem_of_nil. tauto. }
  destruct Hcases as [-> | ->]; (split; [by apply cycle_name_ok|]).
  - split; [eexists; split; [apply Hin; by left|done]|]. intros e [-> | ->]%Hin He; [|by vm_compute in He].
    exists 0%nat, (cycle_entry 2), (cycle_name 2). split_and!; [done..|right; by left].
  - split; [eexists; split; [apply Hin; by right|done]|]. intros e [-> | ->]%Hin He; [by vm_compute in He|].
    exists 1%nat, (cycle_entry 1), (cycle_name 1). split_and!; [done..|by left].
Qed.

(** The pack file of such a pack starts, and then spins. *)
Lemma cycle_never_ends : exists idx : MemoryIndex, forall n, exists q,
  Get (H1 := toy_zlib) toy_digest n (cycle_name 1)
    (NewPackfile (C := @LRU ObjectID EncodedObject _ _) (Some {| ps_bytes := cycle_pack; ps_closes := true |}) [WithIdx idx]) = (NoFuel, q).
Proof.
  destruct cycle_is_pack as [sum Hpack].
  destruct (writer_index_lists 2 cycle_index_entries (ResetBySize 20)) as (idx & w & l & _ & _ & Hi & Hl).
  { unfold cycle_index_entries. repeat apply Forall_cons_2; [..|apply Forall_nil_2]; (split; [by apply cycle_name_ok|by vm_compute]). }
  { done. }
  { apply (bool_decide_unpack _). vm_compute. exact I. }
  { apply (bool_decide_unpack _). vm_compute. exact I. }
  exists idx. intros n. set (p := NewPackfile _ _).
  assert (exists p1, init (H1 := toy_zlib) toy_digest p = (Ok tt, p1) /\ spinning SHA1 cycle_pack l [cycle_name 1; cycle_name 2] p1) as (p1 & Hrun & Hp1).
  { eexists. split; [vm_compute; reflexivity|]. split; [done|done|by exists idx| |].
    - eexists. split; [done|]. destruct (oc_Default_law (C := @LRU ObjectID EncodedObject _ _)) as [Hok Hno]. split; [exact Hok|].
      intros o Ho. by destruct (Hno o).
    - eexists. split; [reflexivity|]. vm_compute. reflexivity. }
  destruct (cycle_spins (H3 := toy_zlib) toy_digest SHA1 cycle_entries cycle_pack sum l [cycle_name 1; cycle_name 2] Hpack (cycle_is_cyclic l Hl) n p1 (cycle_name 1)) as [q Hq];
    [by left|done|].
  exists q. unfold Get. rewrite unless_closed_open by done. rewrite (st_bind_Ok _ _ _ _ _ Hrun), unless_closed_open by by destruct Hp1. exact Hq.
Qed.
