(* ===== verification/PackStore.v ===== *)
(** * A pack from end to end: encoder, parser, index writer, pack file

    The composition of [PackEncoder], [PackParser], [Idxfile] and [Packfile]:
    what a repository does when it receives a pack and then reads objects from
    it.  The index writer is an observer of the parser. *)
From stdpp Require Import base list gmap numbers option strings sorting.
From Stdlib Require Import ZArith Lia.
From S2P Require Import Prelude State GoStrings Varint PatchDelta ObjectId Object Idxfile IdxLookup IdxWrite Storer MemStorage ObjectStore Lru PackScanner.
From S2P Require Import PackParser PackResolve PackSelect PackEncoder Packfile.

Open Scope Z_scope.

(** The methods of [idxfile.Writer]; only the last can fail. *)
#[export] Instance index_writer : Observer Writer := fun ev w =>
  match ev with
  | OnHeader n => (true, Idxfile.OnHeader w n)
  | OnInflatedObjectHeader _ _ _ => (true, w)
  | OnInflatedObjectContent h pos crc => (true, Idxfile.OnInflatedObjectContent w h pos crc)
  | OnFooter h => match Idxfile.OnFooter w h with Ok (None, w) => (true, w) | Ok (Some _, w) => (false, w) | _ => (false, w) end
  end.

(** ** Checksums are 32 bits wide *)

Lemma lxor_range x y n : 0 < n -> 0 <= x < 2 ^ n -> 0 <= y < 2 ^ n -> 0 <= Z.lxor x y < 2 ^ n.
Proof.
  intros Hn Hx Hy. assert (0 <= Z.lxor x y) as Hpos by (apply Z.lxor_nonneg; lia). split; [done|].
  destruct (Z.eq_dec (Z.lxor x y) 0) as [->|Hne]; [lia|]. apply Z.log2_lt_pow2; [lia|].
  eapply Z.le_lt_trans; [apply Z.log2_lxor; lia|]. apply Z.max_lub_lt.
  - destruct (Z.eq_dec x 0) as [->|]; [cbn; lia|]. apply Z.log2_lt_pow2; lia.
  - destruct (Z.eq_dec y 0) as [->|]; [cbn; lia|]. apply Z.log2_lt_pow2; lia.
Qed.

Lemma crc32_range l : bytes_ok l -> 0 <= crc32 l < 2 ^ 32.
Proof.
  assert (forall c, 0 <= c < 2 ^ 32 -> 0 <= crc_bit c < 2 ^ 32) as Hbit.
  { intros c Hc. assert (0 <= Z.shiftr c 1 < 2 ^ 32).
    { rewrite Z.shiftr_div_pow2 by lia. change (2 ^ 1) with 2. split; [apply Z.div_pos; lia|]. apply Z.div_lt_upper_bound; lia. }
    unfold crc_bit. destruct (Z.testbit c 0); [|done]. by apply lxor_range. }
  assert (forall c b, 0 <= c < 2 ^ 32 -> is_byte b -> 0 <= crc_byte c b < 2 ^ 32) as Hbyte.
  { intros c b Hc Hb. unfold crc_byte. unfold is_byte in Hb.
    assert (0 <= Z.lxor c b < 2 ^ 32) as H0 by (apply lxor_range; lia).
    assert (forall n c, 0 <= c < 2 ^ 32 -> 0 <= Nat.iter n crc_bit c < 2 ^ 32) as Hiter; [|by apply Hiter].
    intros n. induction n as [|n IH]; intros c' Hc'; [done|]. cbn. by apply Hbit, IH. }
  intros Hl. unfold crc32. apply lxor_range; [lia| |lia]. assert (0 <= 0xffffffff < 2 ^ 32) as Hc by lia. revert Hc. generalize 0xffffffff.
  induction Hl as [|b l Hb Hl IH]; intros c Hc; [done|]. cbn [foldl]. by apply IH, Hbyte.
Qed.

(** ** What the index writer makes of a pack *)

Section indexing.
Context `{Zlib} (digest : ObjectFormat -> bytes -> bytes) (fmt : ObjectFormat) (es : list PackScanner.entry).

#[local] Notation stands := (stands digest fmt es ∅).
#[local] Notation object_id := (object_id digest fmt).

Definition log_entry (x : nat * (ObjectType * bytes)) : list Entry :=
  let '(k, (t, c)) := x in
  match es !! k with
  | Some e => [{| e_Hash := object_id t c; e_CRC32 := crc32 (en_raw e); e_Offset := pos es k |}]
  | None => []
  end.

Lemma writer_told (lg : log) : obs_after (told_before digest fmt es lg) new_Writer = IdxWrite.observe (Idxfile.OnHeader new_Writer (len es)) (lg ≫= log_entry).
Proof.
  unfold told_before. assert (forall w, obs_after (Ob := Writer) (lg ≫= entry_events (digest := digest) (fmt := fmt) es) w = IdxWrite.observe w (lg ≫= log_entry)) as Hlog.
  { unfold obs_after, IdxWrite.observe. induction lg as [|[k [t c]] lg' IH]; intros w; [done|]. cbn [mbind list_bind]. rewrite !foldl_app, IH.
    f_equal. cbn. by destruct (es !! k). }
  destruct es as [|e es0] eqn:Hes; [apply Hlog|]. rewrite <-Hes in *. unfold obs_after in *. rewrite foldl_app. apply Hlog.
Qed.

(** The log of a parsed pack. *)
Record complete (lg : log) : Prop := {
  lg_all : lg.*1 ≡ₚ seq 0 (length es);
  lg_stands : forall k t c, (k, (t, c)) ∈ lg -> exists d, stands d (pos es k) t c;
}.

Context (src : bytes) (sum : ObjectID).
Hypothesis Hdigest : digest_ok digest fmt.
Hypothesis Hpack : is_pack digest fmt src es sum [].
Hypothesis Hok : bytes_ok src.
Hypothesis Hlen : len src < 2 ^ 63.
Hypothesis Hrs : resolvable digest fmt es ∅.
Hypothesis Hsingle : single_copies digest fmt es.

Context (lg : log) (Hlg : complete lg).

Lemma log_lookup k t c : (k, (t, c)) ∈ lg -> exists e, es !! k = Some e.
Proof.
  intros Hk. apply lookup_lt_is_Some_2. assert (k ∈ lg.*1) as Hin by (apply list_elem_of_fmap; by exists (k, (t, c))).
  rewrite (lg_all _ Hlg), elem_of_seq in Hin. lia.
Qed.

Lemma elem_log_entries x : x ∈ (lg ≫= log_entry) <-> exists k t c e, (k, (t, c)) ∈ lg /\ es !! k = Some e
  /\ x = {| e_Hash := object_id t c; e_CRC32 := crc32 (en_raw e); e_Offset := pos es k |}.
Proof.
  rewrite list_elem_of_bind. split.
  - intros ([k [t c]] & Hx & Hin). cbn in Hx. destruct (es !! k) as [e|] eqn:He; [|by apply not_elem_of_nil in Hx].
    apply list_elem_of_singleton in Hx as ->. by exists k, t, c, e.
  - intros (k & t & c & e & Hin & He & ->). exists (k, (t, c)). split; [|done]. cbn. rewrite He. by left.
Qed.

Lemma position_bound k e : es !! k = Some e -> 0 <= pos es k < 2 ^ 63.
Proof.
  intros Hk. pose proof (pos_lower es k). destruct (pack_at digest fmt es src sum Hpack k e Hk) as [r Hr].
  pose proof (PackScanner.entry_nonempty _ _ _ (entry_lookup_ok fmt es (pack_entries digest fmt es src sum Hpack) k e Hk)) as Hne.
  apply (f_equal length) in Hr. rewrite length_drop, length_app in Hr. unfold len in *. lia.
Qed.

Lemma log_entries_ok : Forall (IdxLookup.entry_ok (objectIDSize fmt)) (lg ≫= log_entry).
Proof.
  apply Forall_forall. intros x (k & t & c & e & Hin & He & ->)%elem_log_entries. cbn.
  destruct (object_id_pack digest fmt t c Hdigest) as [Hid Hsz]. split; [done|]. split; [done|]. split; [|by eapply position_bound].
  apply crc32_range, (bytes_ok_raws es k e He). destruct (ip_src _ _ _ _ _ _ Hpack) as (cs & -> & _).
  apply bytes_ok_app in Hok as [Hb _]. by apply bytes_ok_app in Hb as [_ Hb].
Qed.

Lemma log_offsets : (e_Offset <$> (lg ≫= log_entry)) = pos es <$> lg.*1.
Proof.
  pose proof log_lookup as Hl. clear Hlg. induction lg as [|[k [t c]] lg' IH]; [done|]. cbn [mbind list_bind]. rewrite fmap_app, IH.
  - cbn. by destruct (Hl k t c ltac:(by left)) as [e ->].
  - intros k' t' c' Hin. eapply Hl. by right.
Qed.

Lemma log_names : NoDup (e_Hash <$> (lg ≫= log_entry)).
Proof.
  assert (NoDup lg.*1) as Hnd by (rewrite (lg_all _ Hlg); apply NoDup_seq).
  pose proof (lg_stands _ Hlg) as Hst. pose proof log_lookup as Hl. clear Hlg. induction lg as [|[k [t c]] lg' IH]; [constructor|].
  apply NoDup_cons in Hnd as [Hnin Hnd]. cbn [mbind list_bind]. rewrite fmap_app.
  destruct (Hl k t c ltac:(by left)) as [e He].
  assert (log_entry (k, (t, c)) = [{| e_Hash := object_id t c; e_CRC32 := crc32 (en_raw e); e_Offset := pos es k |}]) as -> by (cbn; by rewrite He).
  cbn [fmap list_fmap app]. apply NoDup_cons. split.
  - intros (x & Hh & Hx)%list_elem_of_fmap. apply list_elem_of_bind in Hx as ([k' [t' c']] & Hx & Hin). cbn in Hx.
    destruct (es !! k') as [e'|] eqn:He'; [|by apply not_elem_of_nil in Hx]. apply list_elem_of_singleton in Hx as ->. cbn in Hh.
    destruct (Hst k t c ltac:(by left)) as [d Hd]. destruct (Hst k' t' c' ltac:(by right)) as [d' Hd'].
    destruct (rs_ids _ _ _ _ Hrs t c t' c') as [<- <-]; [by eapply stands_an_object..|done|].
    assert (k = k') as <-. { apply (pos_inj fmt es (pack_entries digest fmt es src sum Hpack)); [by eapply lookup_lt_Some..|]. by eapply Hsingle. }
    apply Hnin, list_elem_of_fmap. by exists (k, (t, c)).
  - apply IH; [done|..]; intros k' t' c' Hin; [eapply Hst|eapply Hl]; by right.
Qed.

Lemma log_nonzero : Forall (fun e => IsZero (e_Hash e) = false) (lg ≫= log_entry).
Proof.
  apply Forall_forall. intros x (k & t & c & e & Hin & He & ->)%elem_log_entries. cbn. destruct (lg_stands _ Hlg k t c Hin) as [d Hd].
  by eapply (rs_zero _ _ _ _ Hrs), stands_an_object.
Qed.

Lemma sum_size : Size sum = objectIDSize fmt.
Proof.
  destruct (ip_src _ _ _ _ _ _ Hpack) as (c & _ & Hc). specialize (Hc []). unfold ReadFrom in Hc.
  apply bind_Ok_inv in Hc as ([b r] & Hb & [= <- _]). unfold Size. cbn [oid_format].
  by destruct (ResetBySize_props (objectIDSize fmt) (idSize_cases fmt)) as [Hs _].
Qed.

(** The index of the log lists the pack. *)
Lemma log_indexes l : l ≡ₚ (lg ≫= log_entry) -> indexes digest fmt es l.
Proof.
  intros Hl. split.
  - rewrite Hl, log_offsets. by rewrite (lg_all _ Hlg).
  - intros x d t c Hx Hs. rewrite Hl in Hx. apply elem_log_entries in Hx as (k & t' & c' & e & Hin & He & ->). cbn in *.
    destruct (lg_stands _ Hlg k t' c' Hin) as [d' Hd'].
    by destruct (stands_det digest fmt es ∅ (pack_entries digest fmt es src sum Hpack) Hrs _ _ _ _ _ _ _ Hs Hd') as [-> ->].
Qed.

Lemma log_length : length (lg ≫= log_entry) = length es.
Proof. rewrite <-(length_fmap e_Offset), log_offsets, length_fmap, (lg_all _ Hlg). apply length_seq. Qed.

(** The writer's index after the footer. *)
Lemma log_index : len es < 2 ^ 27 -> exists idx w l, Idxfile.OnFooter (obs_after (told_before digest fmt es lg) new_Writer) sum = Ok (None, w)
  /\ Index w = Ok (inl idx, w) /\ ix_lists idx l /\ indexes digest fmt es l.
Proof.
  intros Hn. destruct (writer_index_lists (len es) (lg ≫= log_entry) sum) as (idx & w & l & Hf & Hi & Hl & Hperm).
  - rewrite sum_size. apply log_entries_ok.
  - unfold len in *. by rewrite log_length.
  - apply log_names.
  - apply log_nonzero.
  - exists idx, w, l. rewrite writer_told. split; [done|]. split; [done|]. split; [done|]. by apply log_indexes.
Qed.
End indexing.

(** ** Parsing builds the index *)

Lemma Parse_indexes {R} `{LawfulRaw R digest fmt, Zlib} seekable lowMemoryMode src (st0 : option R) es sum :
  digest_ok digest fmt -> is_pack digest fmt src es sum [] -> bytes_ok src -> len src < 2 ^ 63 -> resolvable digest fmt es ∅ ->
  single_copies digest fmt es -> len es < 2 ^ 27 -> initial_objects (digest := digest) (fmt := fmt) st0 = ∅ ->
  (lowMemoryMode = true -> is_Some st0 /\ seekable = true) ->
  exists p w idx l, Parse digest fmt seekable lowMemoryMode (NewParser src st0 [new_Writer]) = (Ok sum, p) /\ p_observers p = [w]
    /\ Index w = Ok (inl idx, w) /\ ix_lists idx l /\ indexes digest fmt es l.
Proof.
  intros Hd Hp Hok Hlen Hrs Hsingle Hn Hext Hlow.
  assert (forall lg : log, lg.*1 ≡ₚ seq 0 (length es) ->
    (forall k t c, (k, (t, c)) ∈ lg -> exists d, stands digest fmt es (initial_objects st0) d (pos es k) t c) -> complete digest fmt es lg) as Hcomplete.
  { intros lg Hall Hst. rewrite Hext in Hst. by split. }
  destruct (Parse_observed seekable lowMemoryMode src st0 [new_Writer] es sum []) as (p & lg & Hrun & Hall & Hst & Hob & _); try done.
  - by rewrite Hext.
  - by intros [].
  - intros lg w ->%list_elem_of_singleton Hall Hst.
    destruct (log_index digest fmt es src sum Hd Hp Hok Hlen Hrs Hsingle lg (Hcomplete lg Hall Hst) Hn) as (idx & w & l & Hf & _).
    cbn [observe index_writer]. by rewrite Hf.
  - destruct (log_index digest fmt es src sum Hd Hp Hok Hlen Hrs Hsingle lg (Hcomplete lg Hall Hst) Hn) as (idx & w & l & Hf & Hi & Hl & Hx).
    exists p, w, idx, l. split; [done|]. split; [|done]. rewrite Hob. cbn [map]. f_equal.
    assert (told digest fmt es lg sum = told_before digest fmt es lg ++ [OnFooter sum]) as -> by (unfold told, told_before; by rewrite <-app_assoc).
    unfold obs_after in *. rewrite foldl_app. cbn [foldl observe index_writer]. by rewrite Hf.
Qed.

(** ** Looking objects up, one after the other *)

Section lookups.
Context {I C : Type} `{LawfulIndex I, LawfulCache C, Zlib} (digest : ObjectFormat -> bytes -> bytes).

Fixpoint Get_all (n : nat) (hs : list ObjectID) : ST packfile_error (Packfile I C) (list EncodedObject) :=
  match hs with
  | [] => mret []
  | h :: hs => o ← Get digest n h; os ← Get_all n hs; mret (o :: os)
  end.

Lemma Get_all_ok fmt es src sum l n hs os : served digest fmt es src sum l -> maxDeltaChainDepth < Z.of_nat n ->
  Forall2 (fun h o => oid_ok h /\ an_object digest fmt es ∅ (eo_Type o) (eo_Data o) /\ o = mem_object digest fmt (eo_Type o) (eo_Data o)
    /\ Bytes h = Bytes (eo_Hash o)) hs os -> forall b (p : Packfile I C), serving digest fmt es src sum l b p ->
  exists q, Get_all n hs p = (Ok os, q).
Proof.
  intros Hsd Hn Hall. induction Hall as [|h o hs os (Hh & Hobj & Ho & Hb) _ IH]; intros b p Hp; [by exists p|]. cbn [Get_all].
  destruct Hobj as [(d & off & Hs)|(x & Hx)]; [|by rewrite lookup_empty in Hx].
  rewrite Ho in Hb. cbn [mem_object eo_Hash] in Hb.
  destruct (Get_ok digest fmt es src sum l Hsd b p n h d off _ _ Hp Hn Hs Hh Hb) as (o' & p' & Hrun & -> & Hp').
  destruct (IH true p' Hp') as [q Hq]. exists q. rewrite (st_bind_Ok _ _ _ _ _ Hrun), (st_bind_Ok _ _ _ _ _ Hq). by rewrite <-Ho.
Qed.
End lookups.

(** ** From repository to repository *)

Section stored.
Context {S R C : Type} `{LawfulObjects S, DeltaObjectStorer S, !LawfulDeltas S, Zlib, LawfulRaw R digest fmt, LawfulCache C}.
Context (Sort : (keyed -> keyed -> bool) -> list keyed -> list keyed) (HSort : sorts Sort) (Hdigest : digest_ok digest fmt).
Context (useRefDeltas : bool) (s : S) (ids : list ObjectID) (w zbound : Z).

Hypothesis Hok : objs_ok s.
Hypothesis Hpack : packable digest fmt (objs s) ids.
Hypothesis Hbounds : within_bounds zbound (DeltaObject (S := S) <> None) ids w.
Hypothesis Hshort : DeltaObject (S := S) = None \/ len ids <= maxDeltaChainDepth.
Hypothesis Hformat : fmt <> UnsetObjectFormat.
Hypothesis Hcount : len ids < 2 ^ 27.

#[local] Notation m := (objs s).

(** What the encoder writes can be indexed and served. *)
Lemma Encode_served : exists sum p es, Encode digest Sort fmt useRefDeltas ids w (NewEncoder s) = (Ok sum, p) /\ len es = len ids
  /\ is_pack digest fmt (pk_out p) es sum [] /\ bytes_ok (pk_out p) /\ len (pk_out p) < 2 ^ 63 /\ resolvable digest fmt es ∅ /\ single_copies digest fmt es
  /\ (forall t c, an_object digest fmt es ∅ t c <-> exists h o, h ∈ ids /\ m !! h = Some o /\ t = eo_Type o /\ c = eo_Data o).
Proof.
  pose proof (pb_requested _ _ _ _ Hpack) as Hreq.
  pose proof (packable_at (digest := digest) (fmt := fmt) s ids Hpack) as Hat.
  destruct (Encode_ok Sort HSort Hdigest useRefDeltas s ids w zbound Hok Hpack Hbounds) as (sum & p & es & wr & q & He & Hpk & Hb & Hwr & Hw & Hlen & Hchain & Hres).
  specialize (Hres (chains_short ids es Hchain Hshort)).
  pose proof (stands_written digest fmt m ids zbound _ Hreq Hat (pb_nodup _ _ _ _ Hpack) es wr q Hw) as Hsw.
  assert (forall t c, an_object digest fmt es ∅ t c <-> exists h o, h ∈ ids /\ m !! h = Some o /\ t = eo_Type o /\ c = eo_Data o) as Hobjs.
  { intros t c. split.
    - intros [(d & off & Hs)|[h Hh]]; [|by rewrite lookup_empty in Hh]. destruct (Hsw _ _ _ _ Hs) as (j & k & o & _ & _ & _ & Ho & -> & -> & _).
      destruct (object_at_facts m ids Hreq k o Ho) as (Hi & Hm & _). exists (eo_Hash o), o. split; [by eapply list_elem_of_lookup_2|done].
    - intros (h & o & [k Hk]%list_elem_of_lookup & Hm & -> & ->). assert (object_at m ids k o) as Ho by (by exists h).
      assert (k ∈ wr) as [j Hj]%list_elem_of_lookup. { rewrite Hwr. apply elem_of_seq. apply lookup_lt_Some in Hk. lia. }
      destruct (written_stands digest fmt m ids zbound _ Hat es wr q Hw j k o Hj Ho) as [d Hd]. left. by exists d, (pos es j). }
  assert (len es = len ids) as Heq by (unfold len; by rewrite Hlen).
  exists sum, p, es. split_and!; try done.
  - destruct (ip_src _ _ _ _ _ _ Hpk) as (c & -> & Hc). rewrite app_nil_r. pose proof (digest_len fmt c sum Hc) as Hcl.
    unfold pack_body. rewrite !len_app, len_pack_head, Hcl. pose proof (wr_size _ _ _ _ _ _ _ _ Hw) as Hraw. pose proof (wb_size _ _ _ _ Hbounds) as Hsize.
    rewrite Heq in Hraw. pose proof (idSize_cases fmt). lia.
  - intros d off d' off' t c Hs Hs'. destruct (Hsw _ _ _ _ Hs) as (j & k & o & -> & _ & Hk & Ho & Ht & Hc & _).
    destruct (Hsw _ _ _ _ Hs') as (j' & k' & o' & -> & _ & Hk' & Ho' & Ht' & Hc' & _).
    assert (eo_Hash o = eo_Hash o') as Hh by (rewrite <-(Hat k o Ho), <-(Hat k' o' Ho'); by rewrite <-Ht, <-Ht', <-Hc, <-Hc').
    destruct (object_at_facts m ids Hreq k o Ho) as (Hi & _). destruct (object_at_facts m ids Hreq k' o' Ho') as (Hi' & _). rewrite <-Hh in Hi'.
    assert (k = k') as <- by (eapply NoDup_lookup; [apply (pb_nodup _ _ _ _ Hpack)|done..]).
    assert (j = j') as <- by (eapply NoDup_lookup; [apply (wr_nodup _ _ _ _ _ _ _ _ Hw)|done..]). done.
Qed.

End stored.

(** ** An example: the repository of [PackEncoder] *)

#[local] Existing Instance blobs_order.

