(* ===== verification/IndexFile.v ===== *)
(** * The staging index: [plumbing/format/index]

    The entries of the index in memory, the encoder of its file format in the
    versions 2 to 4, and the decoder with the extensions it knows. *)
From stdpp Require Import base list numbers option strings gmap sorting.
From Stdlib Require Import ZArith Lia.
From S2P Require Import Prelude GoStrings Varint ObjectId Pathutil.

Open Scope Z_scope.

Inductive index_error :=
  | ErrUnsupportedVersion | ErrEntryNotFound | ErrMalformedSignature | ErrInvalidChecksum | ErrUnknownExtension
  | ErrMalformedIndexFile | ErrInvalidTimestamp | ErrNumSyntax | ErrInvalidPath | ErrSignatureLength
  | ErrRead (e : ioerr)
  | ErrVarint (e : varint_error).

(** ** The index in memory *)

(** A [time.Time] by its Unix seconds and nanoseconds; the zero time is that of
    the year 1. *)
Record Time := { Unix : Z; Nanosecond : Z }.
Definition zero_time : Time := {| Unix := -62135596800; Nanosecond := 0 |}.

#[export] Instance index_Time_eq_dec : EqDecision Time.
Proof. solve_decision. Defined.

Definition time_IsZero (t : Time) : bool := bool_decide (t = zero_time).
Definition UnixNano (t : Time) : Z := i64 (Unix t * 10 ^ 9 + Nanosecond t).

Record Entry := {
  Hash : ObjectID; Name : bytes; CreatedAt : Time; ModifiedAt : Time;
  Dev : Z; Inode : Z; Mode : Z; UID : Z; GID : Z; Size : Z; Stage : Z;
  SkipWorktree : bool; IntentToAdd : bool;
}.

Record TreeEntry := { te_Path : bytes; te_Entries : Z; te_Trees : Z; te_Hash : ObjectID }.
Record ResolveUndoEntry := { ru_Path : bytes; ru_Stages : gmap Z ObjectID }.
Record EndOfIndexEntry := { eoie_Offset : Z; eoie_Hash : ObjectID }.

Record Index := {
  Version : Z;
  Entries : list Entry;
  Cache : option (list TreeEntry);
  ResolveUndo : option (list ResolveUndoEntry);
  EndOfIndex : option EndOfIndexEntry;
}.

Definition empty_index : Index := {| Version := 0; Entries := []; Cache := None; ResolveUndo := None; EndOfIndex := None |}.

Definition set_Version (v : Z) (i : Index) : Index :=
  {| Version := v; Entries := Entries i; Cache := Cache i; ResolveUndo := ResolveUndo i; EndOfIndex := EndOfIndex i |}.
Definition set_Entries (l : list Entry) (i : Index) : Index :=
  {| Version := Version i; Entries := l; Cache := Cache i; ResolveUndo := ResolveUndo i; EndOfIndex := EndOfIndex i |}.
Definition set_Cache (t : list TreeEntry) (i : Index) : Index :=
  {| Version := Version i; Entries := Entries i; Cache := Some t; ResolveUndo := ResolveUndo i; EndOfIndex := EndOfIndex i |}.
Definition set_ResolveUndo (r : list ResolveUndoEntry) (i : Index) : Index :=
  {| Version := Version i; Entries := Entries i; Cache := Cache i; ResolveUndo := Some r; EndOfIndex := EndOfIndex i |}.
Definition set_EndOfIndex (e : EndOfIndexEntry) (i : Index) : Index :=
  {| Version := Version i; Entries := Entries i; Cache := Cache i; ResolveUndo := ResolveUndo i; EndOfIndex := Some e |}.

Section operations.
(** [filepath.VolumeName], which the path validation asks. *)
Context (VolumeName : bytes -> bytes).

Definition new_entry (path : bytes) : Entry :=
  {| Hash := {| oid_hash := zeros SHA256Size; oid_format := UnsetObjectFormat |}; Name := path; CreatedAt := zero_time; ModifiedAt := zero_time;
     Dev := 0; Inode := 0; Mode := 0; UID := 0; GID := 0; Size := 0; Stage := 0; SkipWorktree := false; IntentToAdd := false |}.

(** [filepath.ToSlash] is the identity where the separator is the slash. *)
Definition Add (path : bytes) (i : Index) : outcome index_error (Entry * Index) :=
  if negb (ValidTreePath VolumeName path) then Err ErrInvalidPath
  else let e := new_entry path in mret (e, set_Entries (Entries i ++ [e]) i).

Fixpoint find_entry (path : bytes) (l : list Entry) : option Entry :=
  match l with
  | [] => None
  | e :: l => if bool_decide (Name e = path) then Some e else find_entry path l
  end.

Definition Get (path : bytes) (i : Index) : outcome index_error Entry :=
  match find_entry path (Entries i) with Some e => mret e | None => Err ErrEntryNotFound end.

Fixpoint remove_entry (path : bytes) (l : list Entry) : option (Entry * list Entry) :=
  match l with
  | [] => None
  | e :: l =>
      if bool_decide (Name e = path) then Some (e, l)
      else match remove_entry path l with Some (x, l) => Some (x, e :: l) | None => None end
  end.

Definition Remove (path : bytes) (i : Index) : outcome index_error (Entry * Index) :=
  match remove_entry path (Entries i) with
  | Some (e, l) => mret (e, set_Entries l i)
  | None => Err ErrEntryNotFound
  end.

Definition set_SkipWorktree (b : bool) (e : Entry) : Entry :=
  {| Hash := Hash e; Name := Name e; CreatedAt := CreatedAt e; ModifiedAt := ModifiedAt e; Dev := Dev e; Inode := Inode e; Mode := Mode e;
     UID := UID e; GID := GID e; Size := Size e; Stage := Stage e; SkipWorktree := b; IntentToAdd := IntentToAdd e |}.

Definition SkipUnless (patterns : list bytes) (i : Index) : Index :=
  set_Entries (map (fun e => set_SkipWorktree (negb (existsb (HasPrefix (Name e)) patterns)) e) (Entries i)) i.
End operations.

(** ** The encoder *)

Definition EncodeVersionSupported : Z := 4.
Definition entryHeaderLength : Z := 42.
Definition entryExtended : Z := 0x4000.
Definition nameMask : Z := 0xfff.
Definition intentToAddMask : Z := 2 ^ 13.
Definition skipWorkTreeMask : Z := 2 ^ 14.

Definition PutUint16 (v : Z) : bytes := be_bytes 2 v.

(** [byNameAndStage.Less]. *)
Definition Less (a b : Entry) : bool :=
  if bool_decide (Name a = Name b) then Stage a <? Stage b else bytes_ltb (Name a) (Name b).

Definition timeToUint32 (t : Time) : outcome index_error (Z * Z) :=
  if time_IsZero t then mret (0, 0)
  else if (Unix t <? 0) || (UnixNano t <? 0) then Err ErrInvalidTimestamp
  else mret (u32 (Unix t), u32 (Nanosecond t)).

Fixpoint commonPrefixLen (a b : bytes) : Z :=
  match a, b with
  | x :: a, y :: b => if x =? y then 1 + commonPrefixLen a b else 0
  | _, _ => 0
  end.

Section encoder.
(** The hash: the digest of what was written, and its size. *)
Context (digest : bytes -> bytes) (hash_Size : Z) (skipHash : bool).
(** [sort.Sort] of the standard library. *)
Context (Sort : (Entry -> Entry -> bool) -> list Entry -> list Entry).

Definition encodeHeader (i : Index) : bytes := bs "DIRC" ++ PutUint32 (u32 (Version i)) ++ PutUint32 (u32 (len (Entries i))).

Definition extended (e : Entry) : bool := IntentToAdd e || SkipWorktree e.

Definition entry_flags (e : Entry) : Z :=
  let flags := wrap 16 (Z.shiftl (wrap 16 (Z.land (Stage e) 3)) 12) in
  if len (Name e) <? nameMask then Z.lor flags (wrap 16 (len (Name e))) else Z.lor flags nameMask.

Definition extended_flags (e : Entry) : Z :=
  let f := if IntentToAdd e then Z.lor 0 intentToAddMask else 0 in
  if SkipWorktree e then Z.lor f skipWorkTreeMask else f.

Definition encodeEntryName (e : Entry) : bytes := Name e.

(** The name, from the entry before. *)
Definition encodeEntryNameV4 (last : option Entry) (e : Entry) : outcome index_error bytes :=
  let prefix := match last with Some l => commonPrefixLen (Name l) (Name e) | None => 0 end in
  let stripLen := match last with Some l => len (Name l) - prefix | None => 0 end in
  n ← map_err ErrVarint (WriteVariableWidthInt stripLen);
  suffix ← slice (Name e) prefix (len (Name e));
  mret (n ++ suffix ++ [0]).

Definition encodeEntry (version : Z) (last : option Entry) (e : Entry) : outcome index_error bytes :=
  '(sec, nsec) ← timeToUint32 (CreatedAt e);
  '(msec, mnsec) ← timeToUint32 (ModifiedAt e);
  let flow := PutUint32 sec ++ PutUint32 nsec ++ PutUint32 msec ++ PutUint32 mnsec
    ++ PutUint32 (Dev e) ++ PutUint32 (Inode e) ++ PutUint32 (Mode e) ++ PutUint32 (UID e) ++ PutUint32 (GID e) ++ PutUint32 (Size e)
    ++ Bytes (Hash e) in
  let flagsFlow := if extended e then PutUint16 (Z.lor (entry_flags e) entryExtended) ++ PutUint16 (extended_flags e)
                   else PutUint16 (entry_flags e) in
  name ← (if (version =? 2) || (version =? 3) then mret (encodeEntryName e)
          else if version =? 4 then encodeEntryNameV4 last e
          else Err ErrUnsupportedVersion);
  mret (flow ++ flagsFlow ++ name).

Definition padEntry (version wrote : Z) : bytes :=
  if version =? 4 then [] else replicate (Z.to_nat (8 - wrote mod 8)) 0.

(** [last] is the encoder's [lastEntry], which only version 4 sets. *)
Fixpoint encodeEntries (version : Z) (last : option Entry) (l : list Entry) : outcome index_error bytes :=
  match l with
  | [] => mret []
  | e :: l =>
      b ← encodeEntry version last e;
      let entryLength := entryHeaderLength + hash_Size + (if extended e then 2 else 0) in
      let pad := padEntry version (entryLength + len (Name e)) in
      rest ← encodeEntries version (if version =? 4 then Some e else last) l;
      mret (b ++ pad ++ rest)
  end.

Definition encodeFooter (body : bytes) : bytes := if skipHash then zeros hash_Size else digest body.

(** What is written by a new encoder, and the index with its entries sorted. *)
Definition Encode (i : Index) : outcome index_error (bytes * Index) :=
  if Version i >? EncodeVersionSupported then Err ErrUnsupportedVersion
  else
    let l := Sort Less (Entries i) in
    b ← encodeEntries (Version i) None l;
    let body := encodeHeader i ++ b in
    mret (body ++ encodeFooter body, set_Entries l i).

Definition encodeRawExtension (signature data : bytes) : outcome index_error bytes :=
  if negb (len signature =? 4) then Err ErrSignatureLength
  else mret (signature ++ PutUint32 (u32 (len data)) ++ data).
End encoder.

(** ** The decoder *)

Definition read_u32 (r : bytes) : outcome index_error (Z * bytes) := '(b, r) ← map_err ErrRead (ReadFull 4 r); mret (be_val b, r).
Definition read_u16 (r : bytes) : outcome index_error (Z * bytes) := '(b, r) ← map_err ErrRead (ReadFull 2 r); mret (be_val b, r).

(** [binary.ReadUntil]: what is before the delimiter, and what is after it. *)
Fixpoint ReadUntil (delim : Z) (r : bytes) : outcome index_error (bytes * bytes) :=
  match r with
  | [] => Err (ErrRead EOF)
  | c :: r => if c =? delim then mret ([], r) else '(v, r) ← ReadUntil delim r; mret (c :: v, r)
  end.

Definition unix_time (sec nsec : Z) : Time :=
  if negb (sec =? 0) || negb (nsec =? 0) then {| Unix := sec + nsec / 10 ^ 9; Nanosecond := nsec mod 10 ^ 9 |} else zero_time.

(** [strconv.ParseInt] in base 8, 64 bits. *)
Definition is_octal (c : Z) : Prop := 48 <= c <= 55.
#[export] Instance is_octal_dec c : Decision (is_octal c).
Proof. unfold is_octal. apply _. Defined.

Definition oct_value (s : bytes) : Z := foldl (fun n c => n * 8 + (c - 48)) 0 s.

Definition ParseOctal (s : bytes) : option Z :=
  let '(neg, digits) := match s with
                        | 45 :: s' => (true, s')
                        | 43 :: s' => (false, s')
                        | _ => (false, s)
                        end in
  if bool_decide (digits = []) || negb (bool_decide (Forall is_octal digits)) then None
  else
    let n := oct_value digits in
    if negb neg && (2 ^ 63 <=? n) then None
    else if neg && (2 ^ 63 <? n) then None
    else Some (if neg then - n else n).

Section decoder.
Context (digest : bytes -> bytes) (hash_Size : Z) (skipHash : bool).
(** The order in which Go ranges over the stages of an entry. *)
Context (range_stages : list Z -> list Z).

Definition read_hash (r : bytes) : outcome index_error (ObjectID * bytes) := map_err ErrRead (ReadFrom (ResetBySize hash_Size) r).

Definition validateHeader (r : bytes) : outcome index_error (Z * bytes) :=
  '(s, r) ← map_err ErrRead (ReadFull 4 r);
  if negb (bool_decide (s = bs "DIRC")) then Err ErrMalformedSignature
  else
    '(version, r) ← read_u32 r;
    if (version <? 2) || (version >? 4) then Err ErrUnsupportedVersion else mret (version, r).

(** The name, and how many bytes were consumed for it. *)
Definition doReadEntryName (nameLen : Z) (r : bytes) : outcome index_error (bytes * Z * bytes) :=
  if nameLen =? nameMask then
    '(name, r) ← ReadUntil 0 r; mret (name, len name + 1, r)
  else
    '(name, r) ← map_err ErrRead (ReadFull nameLen r); mret (name, nameLen, r).

(** [last] is the name of the entry before. *)
Definition doReadEntryNameV4 (last : option bytes) (r : bytes) : outcome index_error (bytes * bytes) :=
  '(l, r) ← map_err ErrVarint (ReadVariableWidthInt r);
  base ← match last with
         | Some n => if (l <? 0) || (i64 l >? len n) then Err ErrMalformedIndexFile else slice n 0 (len n - i64 l)
         | None => if l >? 0 then Err ErrMalformedIndexFile else mret []
         end;
  '(name, r) ← ReadUntil 0 r;
  mret (base ++ name, r).

Definition readEntryName (version : Z) (last : option bytes) (flags : Z) (r : bytes) : outcome index_error (bytes * Z * bytes) :=
  if (version =? 2) || (version =? 3) then doReadEntryName (Z.land flags nameMask) r
  else if version =? 4 then '(name, r) ← doReadEntryNameV4 last r; mret (name, 0, r)
  else Err ErrUnsupportedVersion.

(** [io.CopyN] to nowhere. *)
Definition discard (n : Z) (r : bytes) : outcome index_error bytes :=
  if len r <? n then Err (ErrRead EOF) else mret (drop (Z.to_nat n) r).

Definition dec_padEntry (version nameLen read nameConsumed : Z) (r : bytes) : outcome index_error bytes :=
  if version =? 4 then mret r
  else
    let entrySize := read + nameLen in
    let padLen := 8 - entrySize mod 8 in
    let padLen := padLen - (nameConsumed - nameLen) in
    if padLen >? 0 then discard padLen r else mret r.

Definition readEntry (version : Z) (last : option bytes) (r : bytes) : outcome index_error (Entry * bytes) :=
  '(sec, r) ← read_u32 r; '(nsec, r) ← read_u32 r; '(msec, r) ← read_u32 r; '(mnsec, r) ← read_u32 r;
  '(dev, r) ← read_u32 r; '(ino, r) ← read_u32 r; '(mode, r) ← read_u32 r; '(uid, r) ← read_u32 r; '(gid, r) ← read_u32 r;
  '(sz, r) ← read_u32 r;
  '(h, r) ← read_hash r;
  '(flags, r) ← read_u16 r;
  let read := entryHeaderLength + hash_Size in
  '(read, ita, skip, r) ←
    (if negb (Z.land flags entryExtended =? 0) then
       '(ext, r) ← read_u16 r;
       mret (read + 2, negb (Z.land ext intentToAddMask =? 0), negb (Z.land ext skipWorkTreeMask =? 0), r)
     else mret (read, false, false, r));
  '(name, nameConsumed, r) ← readEntryName version last flags r;
  r ← dec_padEntry version (len name) read nameConsumed r;
  mret ({| Hash := h; Name := name; CreatedAt := unix_time sec nsec; ModifiedAt := unix_time msec mnsec; Dev := dev; Inode := ino; Mode := mode;
           UID := uid; GID := gid; Size := sz; Stage := Z.land (Z.shiftr flags 12) 3; SkipWorktree := skip; IntentToAdd := ita |}, r).

(** The fuel is the length of the input: an entry is not empty. *)
Fixpoint readEntries (fuel : nat) (version count : Z) (last : option bytes) (r : bytes) : outcome index_error (list Entry * bytes) :=
  if count <=? 0 then mret ([], r)
  else match fuel with
  | O => NoFuel
  | S f =>
      '(e, r) ← readEntry version last r;
      '(l, r) ← readEntries f version (count - 1) (Some (Name e)) r;
      mret (e :: l, r)
  end.

(** *** Extensions

    Their decoders read from what the length of the extension leaves them, and
    take its end for the end of the entries. *)

Definition parse_number (p : option Z) : outcome index_error Z := match p with Some n => mret n | None => Err ErrNumSyntax end.

(** Nothing for an invalidated entry. *)
Definition tree_readEntry (r : bytes) : outcome index_error (option TreeEntry * bytes) :=
  '(path, r) ← ReadUntil 0 r;
  '(count, r) ← ReadUntil 32 r;
  i ← parse_number (ParseInt count);
  '(trees, r) ← ReadUntil 10 r;
  subtrees ← parse_number (ParseInt trees);
  if i <? 0 then mret (None, r)
  else '(h, r) ← read_hash r; mret (Some {| te_Path := path; te_Entries := i; te_Trees := subtrees; te_Hash := h |}, r).

Fixpoint tree_Decode (fuel : nat) (r : bytes) : outcome index_error (list TreeEntry) :=
  match fuel with
  | O => NoFuel
  | S f =>
      match tree_readEntry r with
      | Ok (e, r) => l ← tree_Decode f r; mret (match e with Some e => e :: l | None => l end)
      | Err (ErrRead EOF) => mret []
      | Err e => Err e
      | Panic => Panic
      | NoFuel => NoFuel
      end
  end.

Definition readStage (r : bytes) : outcome index_error (bool * bytes) :=
  '(ascii, r) ← ReadUntil 0 r;
  stage ← parse_number (ParseOctal ascii);
  mret (negb (stage =? 0), r).

Fixpoint read_stages (l : list Z) (m : gmap Z ObjectID) (r : bytes) : outcome index_error (gmap Z ObjectID * bytes) :=
  match l with
  | [] => mret (m, r)
  | s :: l => '(h, r) ← read_hash r; read_stages l (<[s := h]> m) r
  end.

(** The hashes of the stages follow each other in the file; they are given to
    the stages in the order of the iteration. *)
Definition undo_readEntry (r : bytes) : outcome index_error (ResolveUndoEntry * bytes) :=
  '(path, r) ← ReadUntil 0 r;
  '(s1, r) ← readStage r; '(s2, r) ← readStage r; '(s3, r) ← readStage r;
  let stages := (if s1 : bool then [1] else []) ++ (if s2 : bool then [2] else []) ++ (if s3 : bool then [3] else []) in
  '(m, r) ← read_stages (range_stages stages) ∅ r;
  mret ({| ru_Path := path; ru_Stages := m |}, r).

Fixpoint undo_Decode (fuel : nat) (r : bytes) : outcome index_error (list ResolveUndoEntry) :=
  match fuel with
  | O => NoFuel
  | S f =>
      match undo_readEntry r with
      | Ok (e, r) => l ← undo_Decode f r; mret (e :: l)
      | Err (ErrRead EOF) => mret []
      | Err e => Err e
      | Panic => Panic
      | NoFuel => NoFuel
      end
  end.

Definition eoie_Decode (r : bytes) : outcome index_error EndOfIndexEntry :=
  '(offset, r) ← read_u32 r; '(h, _) ← read_hash r; mret {| eoie_Offset := offset; eoie_Hash := h |}.

(** The buffer of the extension's reader, filled at once. *)
Definition bufSize : Z := 4096.

Definition readExtension (i : Index) (r : bytes) : outcome index_error (Index * bytes) :=
  '(header, r) ← map_err ErrRead (ReadFull 4 r);
  '(extLen, r) ← read_u32 r;
  let ext := take (Z.to_nat extLen) r in
  let after := drop (Z.to_nat extLen) r in
  if bool_decide (header = bs "TREE") then
    l ← tree_Decode (S (length ext)) ext; mret (set_Cache l i, after)
  else if bool_decide (header = bs "REUC") then
    l ← undo_Decode (S (length ext)) ext; mret (set_ResolveUndo l i, after)
  else if bool_decide (header = bs "EOIE") then
    e ← eoie_Decode ext; mret (set_EndOfIndex e i, drop (Z.to_nat (Z.min extLen bufSize)) r)
  else
    c ← index header 0;
    if (c <? 65) || (c >? 90) then Err ErrUnknownExtension else mret (i, after).

Definition readChecksum (expected : bytes) (r : bytes) : outcome index_error unit :=
  '(h, _) ← read_hash r;
  if IsZero h then mret tt
  else if skipHash then mret tt
  else match Compare h expected with Eq => mret tt | _ => Err ErrInvalidChecksum end.

(** [src] is the whole input: the hash is that of what was read of it. *)
Fixpoint readExtensions (fuel : nat) (src : bytes) (i : Index) (r : bytes) : outcome index_error Index :=
  let expected := digest (take (length src - length r) src) in
  let peekLen := 4 + 4 + hash_Size in
  if len r <? peekLen then readChecksum expected r ;; mret i
  else match fuel with
  | O => NoFuel
  | S f => '(i, r) ← readExtension i r; readExtensions f src i r
  end.

Definition Decode (i : Index) (src : bytes) : outcome index_error Index :=
  '(version, r) ← validateHeader src;
  let i := set_Version version i in
  '(entryCount, r) ← read_u32 r;
  '(l, r) ← readEntries (S (length r)) version entryCount None r;
  let i := set_Entries (Entries i ++ l) i in
  readExtensions (S (length r)) src i r.
End decoder.

(** Two stages whose hashes are given to the stages in the wrong order. *)
Definition undo_example : bytes := bs "f" ++ [0] ++ bs "100644" ++ [0] ++ bs "100644" ++ [0] ++ bs "0" ++ [0] ++ replicate 20 1 ++ replicate 20 2.

Example undo_order :
  (e ← undo_readEntry 20 id undo_example; mret (ru_Stages e.1 !! 1)) = Ok (Some (oid_of UnsetObjectFormat (replicate 20 1)))
  /\ (e ← undo_readEntry 20 reverse undo_example; mret (ru_Stages e.1 !! 1)) = Ok (Some (oid_of UnsetObjectFormat (replicate 20 2))).
Proof. split; vm_compute; reflexivity. Qed.

(** ** Read back *)

Ltac step := cbn [mbind outcome_bind mret outcome_ret map_err].

Lemma read_u32_app v r : 0 <= v < 2 ^ 32 -> read_u32 (PutUint32 v ++ r) = Ok (v, r).
Proof.
  intros Hv. unfold read_u32. replace 4 with (len (PutUint32 v)) by apply be_bytes_len. rewrite ReadFull_app. step.
  unfold PutUint32. rewrite be_val_be_bytes, Z.mod_small by (change (8 * Z.of_nat 4) with 32; lia). done.
Qed.

Lemma read_u16_app v r : 0 <= v < 2 ^ 16 -> read_u16 (PutUint16 v ++ r) = Ok (v, r).
Proof.
  intros Hv. unfold read_u16. replace 2 with (len (PutUint16 v)) at 1 by apply be_bytes_len. rewrite ReadFull_app. step.
  unfold PutUint16. rewrite be_val_be_bytes, Z.mod_small by (change (8 * Z.of_nat 2) with 16; lia). done.
Qed.

Lemma ReadUntil_app d p r : d ∉ p -> ReadUntil d (p ++ d :: r) = Ok (p, r).
Proof.
  induction p as [|c p IH]; intros Hd; cbn [app ReadUntil].
  - by rewrite Z.eqb_refl.
  - apply not_elem_of_cons in Hd as [Hc Hd]. ztest (c =? d) false. rewrite IH by done. done.
Qed.

Lemma ReadFull_len n p r : len p = n -> ReadFull n (p ++ r) = Ok (p, r).
Proof. intros <-. apply ReadFull_app. Qed.

(** *** Times and flags *)

(** The times that can be written: the zero time, or seconds and nanoseconds
    that fit, and are not both zero. *)
Definition time_ok (t : Time) : Prop :=
  t = zero_time \/ (0 <= Unix t < 2 ^ 32 /\ 0 <= Nanosecond t < 10 ^ 9 /\ (Unix t <> 0 \/ Nanosecond t <> 0)).

Lemma mtime_roundtrip t : time_ok t -> exists a b, timeToUint32 t = Ok (a, b) /\ 0 <= a < 2 ^ 32 /\ 0 <= b < 2 ^ 32 /\ unix_time a b = t.
Proof.
  unfold timeToUint32, time_IsZero. intros Ht. destruct (bool_decide (t = zero_time)) eqn:Hz.
  - apply bool_decide_eq_true in Hz as ->. exists 0, 0. split; [done|]. split; [lia|]. split; [lia|]. done.
  - apply bool_decide_eq_false in Hz. destruct Ht as [|(Hs & Hn & Hne)]; [done|].
    assert (UnixNano t = Unix t * 10 ^ 9 + Nanosecond t) as -> by (apply i64_small; lia).
    ztest (Unix t <? 0) false. ztest (Unix t * 10 ^ 9 + Nanosecond t <? 0) false. cbn [orb]. rewrite !wrap_small by lia.
    exists (Unix t), (Nanosecond t). split; [done|]. split; [lia|]. split; [lia|]. unfold unix_time.
    assert (negb (Unix t =? 0) || negb (Nanosecond t =? 0) = true) as ->.
    { destruct (Z.eqb_spec (Unix t) 0), (Z.eqb_spec (Nanosecond t) 0); try done. lia. }
    rewrite Z.div_small, Z.mod_small, Z.add_0_r by lia. by destruct t.
Qed.

(** The flags: the length in the low twelve bits, the stage above. *)
Lemma flags_parts stage l x : 0 <= stage < 4 -> 0 <= l < 2 ^ 12 -> x = stage * 2 ^ 12 + l \/ x = 2 ^ 14 + stage * 2 ^ 12 + l ->
  0 <= x < 2 ^ 16 /\ Z.land (Z.shiftr x 12) 3 = stage /\ Z.land x nameMask = l /\ (Z.land x entryExtended =? 0) = (x <? 2 ^ 14).
Proof.
  intros Hs Hl Hx. split; [lia|]. unfold nameMask, entryExtended.
  change 0xfff with (2 ^ 12 - 1). change 3 with (2 ^ 2 - 1). change 0x4000 with (2 ^ 14).
  rewrite !land_low_mask, Z.shiftr_div_pow2 by lia.
  assert (forall k, x = k * 2 ^ 12 + l -> x / 2 ^ 12 = k /\ x mod 2 ^ 12 = l) as Hdm.
  { intros k ->. split; [|rewrite Z.add_comm, Z.mod_add by lia; by apply Z.mod_small].
    rewrite Z.add_comm, Z.div_add by lia. rewrite Z.div_small by lia. lia. }
  split; [|split].
  - destruct Hx as [Hx|Hx].
    + destruct (Hdm stage Hx) as [-> _]. by apply Z.mod_small.
    + destruct (Hdm (4 + stage)) as [-> _]; [lia|]. rewrite <-(Z.mod_small stage (2 ^ 2)) at 2 by lia. rewrite Z.add_comm. by rewrite <-(Z.mod_add stage 1 (2 ^ 2)) by lia.
  - destruct Hx as [Hx|Hx]; [by destruct (Hdm stage Hx)|]. destruct (Hdm (4 + stage)) as [_ ?]; [lia|done].
  - rewrite land_pow2_testbit, testbit_top by lia. destruct (Z.leb_spec (2 ^ 14) x), (Z.ltb_spec x (2 ^ 14)); try lia; done.
Qed.

Lemma entry_flags_value e : 0 <= Stage e < 4 -> entry_flags e = Stage e * 2 ^ 12 + Z.min (len (Name e)) nameMask.
Proof.
  intros Hs. unfold entry_flags. pose proof (len_nonneg (Name e)).
  assert (Z.land (Stage e) 3 = Stage e) as ->. { change 3 with (2 ^ 2 - 1). rewrite land_low_mask by lia. apply Z.mod_small. lia. }
  rewrite (wrap_small 16 (Stage e)) by lia. rewrite (wrap_small 16 (Z.shiftl (Stage e) 12)) by (rewrite Z.shiftl_mul_pow2; lia).
  unfold nameMask. destruct (Z.ltb_spec (len (Name e)) 0xfff).
  - rewrite wrap_small by lia. rewrite Z.lor_comm, lor_disjoint_add by lia. lia.
  - rewrite Z.lor_comm, lor_disjoint_add by lia. lia.
Qed.

Lemma extended_flags_value e : 0 <= extended_flags e < 2 ^ 16
  /\ negb (Z.land (extended_flags e) intentToAddMask =? 0) = IntentToAdd e /\ negb (Z.land (extended_flags e) skipWorkTreeMask =? 0) = SkipWorktree e.
Proof. unfold extended_flags. by destruct (IntentToAdd e), (SkipWorktree e). Qed.

(** *** Names *)

Lemma commonPrefixLen_spec a b : 0 <= commonPrefixLen a b <= len a /\ commonPrefixLen a b <= len b
  /\ take (Z.to_nat (commonPrefixLen a b)) a = take (Z.to_nat (commonPrefixLen a b)) b.
Proof.
  revert b. induction a as [|x a IH]; intros [|y b]; cbn [commonPrefixLen]; try (split; [len_lia|split; [len_lia|done]]).
  destruct (Z.eqb_spec x y) as [->|]; [|split; [len_lia|split; [len_lia|done]]].
  destruct (IH b) as (Hp & Hb & Ht). rewrite !len_cons. split; [lia|]. split; [lia|].
  rewrite (Z2Nat.inj_add 1) by lia. change (Z.to_nat 1) with 1%nat. cbn [Nat.add take]. by rewrite Ht.
Qed.

Lemma name_v4 (last : option Entry) e r : 0 ∉ Name e -> len (Name e) < 2 ^ 62 -> (forall l, last = Some l -> len (Name l) < 2 ^ 62) ->
  exists b, encodeEntryNameV4 last e = Ok b /\ doReadEntryNameV4 (Name <$> last) (b ++ r) = Ok (Name e, r).
Proof.
  intros H0 Hlen Hlast. unfold encodeEntryNameV4, doReadEntryNameV4. pose proof (len_nonneg (Name e)).
  set (prefix := match last with Some l => commonPrefixLen (Name l) (Name e) | None => 0 end).
  assert (0 <= prefix <= len (Name e)) as Hp. { unfold prefix. destruct last as [l|]; [|lia]. destruct (commonPrefixLen_spec (Name l) (Name e)) as (? & ? & _). lia. }
  set (strip := match last with Some l => len (Name l) - prefix | None => 0 end).
  assert (0 <= strip <= MaxInt64) as Hs.
  { unfold strip, prefix, MaxInt64. destruct last as [l|]; [|lia]. destruct (commonPrefixLen_spec (Name l) (Name e)) as (? & ? & _). specialize (Hlast l eq_refl). lia. }
  destruct (WriteVariableWidthInt_spec strip Hs) as (n & -> & _ & _ & Hr). step.
  rewrite (slice_Ok (Name e)) by lia. step. eexists. split; [reflexivity|]. rewrite <-!app_assoc, Hr. step.
  assert ((match Name <$> last with
    | Some n => if (strip <? 0) || (i64 strip >? len n) then Err ErrMalformedIndexFile else slice n 0 (len n - i64 strip)
    | None => if strip >? 0 then Err ErrMalformedIndexFile else mret []
    end) = Ok (E := index_error) (take (Z.to_nat prefix) (Name e))) as ->.
  { rewrite i64_small by (unfold MaxInt64 in Hs; lia). unfold strip, prefix. destruct last as [l|]; [|done]. cbn [fmap option_fmap option_map].
    destruct (commonPrefixLen_spec (Name l) (Name e)) as (Hc & _ & Ht). rewrite Z.gtb_ltb.
    ztest (len (Name l) - commonPrefixLen (Name l) (Name e) <? 0) false. ztest (len (Name l) <? len (Name l) - commonPrefixLen (Name l) (Name e)) false. cbn [orb].
    rewrite slice_Ok by lia. rewrite drop_0, <-Ht. do 2 f_equal. lia. }
  step. rewrite (take_ge (drop _ _)) by (rewrite length_drop; unfold len in *; lia).
  change ([0] ++ r) with (0 :: r). rewrite ReadUntil_app; [|intros Hin; apply H0; rewrite <-(take_drop (Z.to_nat prefix)); apply elem_of_app; by right].
  step. by rewrite take_drop.
Qed.

Lemma ReadUntil_pad p n r : 0 ∉ p -> 0 < n -> ReadUntil 0 (p ++ replicate (Z.to_nat n) 0 ++ r) = Ok (p, replicate (Z.to_nat (n - 1)) 0 ++ r).
Proof.
  intros Hp Hn. replace (Z.to_nat n) with (Datatypes.S (Z.to_nat (n - 1))) by lia. cbn [replicate]. rewrite <-app_comm_cons. by apply ReadUntil_app.
Qed.

Lemma discard_app n p r : len p = n -> discard n (p ++ r) = Ok r.
Proof.
  intros <-. unfold discard. rewrite len_app. pose proof (len_nonneg r). ztest (len p + len r <? len p) false.
  unfold mret, outcome_ret. f_equal. apply drop_app_length'. unfold len. lia.
Qed.

(** The name of an entry of version 2 or 3 and its padding: a name too long for
    the flags ends at the padding. *)
Lemma name_and_padding version e read r : version = 2 \/ version = 3 -> 0 ∉ Name e -> 0 <= read ->
  exists c r', doReadEntryName (Z.min (len (Name e)) nameMask) (Name e ++ padEntry version (read + len (Name e)) ++ r) = Ok (Name e, c, r')
    /\ dec_padEntry version (len (Name e)) read c r' = Ok r.
Proof.
  intros Hv H0 Hread. pose proof (len_nonneg (Name e)). unfold padEntry, dec_padEntry. assert ((version =? 4) = false) as -> by (destruct Hv as [-> | ->]; done).
  set (pad := 8 - (read + len (Name e)) mod 8). assert (1 <= pad <= 8) as Hpad by (unfold pad; pose proof (Z.mod_pos_bound (read + len (Name e)) 8); lia).
  unfold doReadEntryName. destruct (Z.eqb_spec (Z.min (len (Name e)) nameMask) nameMask) as [Hl|Hl].
  - rewrite ReadUntil_pad by (done || lia). step. do 2 eexists. split; [reflexivity|].
    rewrite Z.gtb_ltb. replace (pad - (len (Name e) + 1 - len (Name e))) with (pad - 1) by lia. destruct (Z.ltb_spec 0 (pad - 1)).
    + apply discard_app. rewrite len_replicate. lia.
    + replace (Z.to_nat (pad - 1)) with 0%nat by lia. done.
  - rewrite Z.min_l by lia. rewrite ReadFull_app. step. do 2 eexists. split; [reflexivity|].
    rewrite Z.sub_diag, Z.sub_0_r, Z.gtb_ltb. ztest (0 <? pad) true. apply discard_app. rewrite len_replicate. lia.
Qed.

(** *** Entries *)

Section roundtrip.
Context (hash_Size : Z).
Hypothesis Hsize : hash_Size = 20 \/ hash_Size = 32.

(** The entries that can be written and read back. *)
Record entry_ok (e : Entry) : Prop := {
  eo_hash : oid_ok (Hash e) /\ ObjectId.Size (Hash e) = hash_Size;
  eo_name : 0 ∉ Name e /\ len (Name e) < 2 ^ 62;
  eo_times : time_ok (CreatedAt e) /\ time_ok (ModifiedAt e);
  eo_stage : 0 <= Stage e < 4;
  eo_dev : 0 <= Dev e < 2 ^ 32; eo_inode : 0 <= Inode e < 2 ^ 32; eo_mode : 0 <= Mode e < 2 ^ 32;
  eo_uid : 0 <= UID e < 2 ^ 32; eo_gid : 0 <= GID e < 2 ^ 32; eo_size : 0 <= Size e < 2 ^ 32;
}.

Lemma read_hash_app h r : oid_ok h -> ObjectId.Size h = hash_Size -> read_hash hash_Size (Bytes h ++ r) = Ok (h, r).
Proof. intros Hh Hs. unfold read_hash. by rewrite ReadFrom_app. Qed.

Lemma nameMask_min n : 0 <= n -> 0 <= Z.min n nameMask < 2 ^ 12.
Proof. unfold nameMask. lia. Qed.

(** The flags of an entry, and what is read from them. *)
Definition flag_bytes (e : Entry) : bytes :=
  if extended e then PutUint16 (Z.lor (entry_flags e) entryExtended) ++ PutUint16 (extended_flags e) else PutUint16 (entry_flags e).

Lemma flags_app e r : 0 <= Stage e < 4 ->
  exists flags r', read_u16 (flag_bytes e ++ r) = Ok (flags, r') /\ Z.land (Z.shiftr flags 12) 3 = Stage e /\ Z.land flags nameMask = Z.min (len (Name e)) nameMask
    /\ (if negb (Z.land flags entryExtended =? 0) then
          '(ext, r) ← read_u16 r';
          mret (entryHeaderLength + hash_Size + 2, negb (Z.land ext intentToAddMask =? 0), negb (Z.land ext skipWorkTreeMask =? 0), r)
        else mret (entryHeaderLength + hash_Size, false, false, r'))
       = Ok (E := index_error) (entryHeaderLength + hash_Size + (if extended e then 2 else 0), IntentToAdd e, SkipWorktree e, r).
Proof.
  intros Hs. pose proof (nameMask_min (len (Name e)) (len_nonneg _)) as Hm. unfold flag_bytes. rewrite entry_flags_value by done.
  set (l := Z.min (len (Name e)) nameMask) in *.
  destruct (extended e) eqn:He.
  - assert (Z.lor (Stage e * 2 ^ 12 + l) entryExtended = 2 ^ 14 + Stage e * 2 ^ 12 + l) as ->.
    { change entryExtended with (Z.shiftl 1 14). rewrite lor_disjoint_add by lia. lia. }
    destruct (flags_parts (Stage e) l _ Hs Hm ltac:(by right)) as (Hb & H1 & H2 & H3).
    rewrite <-app_assoc, read_u16_app by done. do 2 eexists. split; [reflexivity|]. split; [done|]. split; [done|].
    rewrite H3. ztest (2 ^ 14 + Stage e * 2 ^ 12 + l <? 2 ^ 14) false. cbn [negb].
    destruct (extended_flags_value e) as (Hx & Hi & Hk). rewrite read_u16_app by done. step. by rewrite Hi, Hk.
  - destruct (flags_parts (Stage e) l _ Hs Hm ltac:(by left)) as (Hb & H1 & H2 & H3).
    rewrite read_u16_app by done. do 2 eexists. split; [reflexivity|]. split; [done|]. split; [done|].
    rewrite H3. ztest (Stage e * 2 ^ 12 + l <? 2 ^ 14) true. cbn [negb]. unfold extended in He. apply orb_false_iff in He as [-> ->]. rewrite Z.add_0_r. done.
Qed.

Lemma entry_roundtrip version last dlast e r : version = 2 \/ version = 3 \/ version = 4 -> entry_ok e ->
  (version = 4 -> dlast = Name <$> last /\ forall l, last = Some l -> len (Name l) < 2 ^ 62) ->
  exists b, encodeEntry version last e = Ok b
    /\ readEntry hash_Size version dlast (b ++ padEntry version (entryHeaderLength + hash_Size + (if extended e then 2 else 0) + len (Name e)) ++ r) = Ok (e, r).
Proof.
  intros Hv [[Hh Hhs] [H0 Hlen] [Ht1 Ht2] Hst Hdev Hino Hmode Huid Hgid Hsz] Hlast.
  destruct (mtime_roundtrip _ Ht1) as (sec & nsec & Ec & Hsec & Hnsec & Uc). destruct (mtime_roundtrip _ Ht2) as (msec & mnsec & Em & Hmsec & Hmnsec & Um).
  unfold encodeEntry. rewrite Ec. step. rewrite Em. step. fold (flag_bytes e).
  set (read := entryHeaderLength + hash_Size + (if extended e then 2 else 0)).
  assert (exists nb, (if (version =? 2) || (version =? 3) then mret (encodeEntryName e) else if version =? 4 then encodeEntryNameV4 last e else Err ErrUnsupportedVersion) = Ok (E := index_error) nb
    /\ forall flags r', Z.land flags nameMask = Z.min (len (Name e)) nameMask -> r' = nb ++ padEntry version (read + len (Name e)) ++ r ->
       exists c r'', readEntryName version dlast flags r' = Ok (Name e, c, r'') /\ dec_padEntry version (len (Name e)) read c r'' = Ok r) as (nb & Hnb & Hname).
  { assert (0 <= read) as Hread by (unfold read, entryHeaderLength; destruct (extended e), Hsize as [-> | ->]; lia). unfold readEntryName.
    destruct (decide (version = 4)) as [->|Hne].
    - destruct (Hlast eq_refl) as [-> Hl]. destruct (name_v4 last e r H0 Hlen Hl) as (nb & Hb & Hr). exists nb. split; [done|].
      intros flags r' _ ->. change (padEntry 4 _) with (@nil Z). cbn [app]. change ((4 =? 2) || (4 =? 3)) with false. change (4 =? 4) with true. cbn match. rewrite Hr. step. by do 2 eexists.
    - assert ((version =? 2) || (version =? 3) = true) as -> by (destruct Hv as [-> |[-> | ->]]; done). exists (Name e). split; [done|].
      intros flags r' -> ->. apply name_and_padding; [lia|done|done]. }
  rewrite Hnb. step. eexists. split; [reflexivity|].
  destruct (flags_app e (nb ++ padEntry version (read + len (Name e)) ++ r) Hst) as (flags & r1 & Hf & Hfs & Hfn & Hfe).
  destruct (Hname flags _ Hfn eq_refl) as (c & r2 & Hrn & Hpad).
  unfold readEntry. rewrite <-!app_assoc.
  rewrite (read_u32_app sec) by done. step. rewrite (read_u32_app nsec) by done. step. rewrite (read_u32_app msec) by done. step. rewrite (read_u32_app mnsec) by done. step.
  rewrite (read_u32_app (Dev e)) by done. step. rewrite (read_u32_app (Inode e)) by done. step. rewrite (read_u32_app (Mode e)) by done. step.
  rewrite (read_u32_app (UID e)) by done. step. rewrite (read_u32_app (GID e)) by done. step. rewrite (read_u32_app (Size e)) by done. step.
  rewrite read_hash_app by done. step. rewrite Hf. step. rewrite Hfe. step. fold read. rewrite Hrn. step. rewrite Hpad. step.
  rewrite Uc, Um, Hfs. by destruct e.
Qed.

Lemma entries_roundtrip version l : version = 2 \/ version = 3 \/ version = 4 -> Forall entry_ok l -> forall last dlast r,
  (version = 4 -> dlast = Name <$> last /\ forall l, last = Some l -> len (Name l) < 2 ^ 62) ->
  exists b, encodeEntries hash_Size version last l = Ok b
    /\ forall fuel, (length l < fuel)%nat -> readEntries hash_Size fuel version (len l) dlast (b ++ r) = Ok (l, r).
Proof.
  intros Hv. induction 1 as [|e l He Hl IH]; intros last dlast r Hlast; cbn [encodeEntries].
  - eexists. split; [reflexivity|]. intros [|fuel] ?; [cbn in *; lia|]. done.
  - set (last' := if version =? 4 then Some e else last).
    destruct (IH last' (Some (Name e)) r) as (b2 & -> & Hr2).
    { intros ->. split; [done|]. intros ? [= <-]. apply He. }
    destruct (entry_roundtrip version last dlast e (b2 ++ r) Hv He Hlast) as (b1 & -> & Hr1). step.
    eexists. split; [reflexivity|]. intros [|fuel] Hf; [cbn in *; lia|]. cbn [length] in Hf.
    cbn [readEntries]. pose proof (len_nonneg l). rewrite len_cons. ztest (1 + len l <=? 0) false. rewrite <-!app_assoc, Hr1. step.
    replace (1 + len l - 1) with (len l) by lia. rewrite Hr2 by lia. done.
Qed.

#[local] Opaque PutUint32.

Lemma encodeEntry_nonempty version last e b : encodeEntry version last e = Ok b -> 1 <= len b.
Proof.
  unfold encodeEntry. destruct (timeToUint32 (CreatedAt e)) as [[x y]| | |]; step; try done. destruct (timeToUint32 (ModifiedAt e)) as [[z w]| | |]; step; try done.
  destruct (if _ || _ then _ else _) as [n| | |]; step; try done. intros [= <-]. rewrite <-!app_assoc, len_app. assert (len (PutUint32 x) = 4) as -> by apply (be_bytes_len 4). match goal with |- context [4 + len ?b] => pose proof (len_nonneg b) end. lia.
Qed.

#[local] Transparent PutUint32.

Lemma encodeEntries_long version l : forall last b, encodeEntries hash_Size version last l = Ok b -> len l <= len b.
Proof.
  induction l as [|e l IH]; intros last b; cbn [encodeEntries]; [intros [= <-]; done|].
  destruct (encodeEntry version last e) as [x| | |] eqn:He; step; try done. destruct (encodeEntries _ _ _ _) as [y| | |] eqn:Hy; step; try done. intros [= <-].
  apply IH in Hy. apply encodeEntry_nonempty in He. rewrite !len_app, len_cons. pose proof (len_nonneg (padEntry version (entryHeaderLength + hash_Size + (if extended e then 2 else 0) + len (Name e)))). lia.
Qed.

(** *** The order of the entries *)

Lemma Less_spec a b : Less a b = true <-> bytes_lt (Name a) (Name b) \/ Name a = Name b /\ Stage a < Stage b.
Proof.
  unfold Less. destruct (decide (Name a = Name b)) as [Hn|Hn].
  - rewrite bool_decide_eq_true_2, Z.ltb_lt, Hn by done. split; [auto|]. intros [Hl|[_ Hl]]; [by apply bytes_lt_irrefl in Hl|done].
  - rewrite bool_decide_eq_false_2, bytes_ltb_lt by done. split; [auto|]. by intros [Hl|[Hl _]].
Qed.

Lemma Less_false a b : Less a b = false <-> bytes_lt (Name b) (Name a) \/ Name a = Name b /\ Stage b <= Stage a.
Proof.
  rewrite <-not_true_iff_false, Less_spec. destruct (bytes_lt_total (Name a) (Name b)) as [Hn|[Hn|Hn]].
  - split; [intros []; by left|]. intros [Hl|[Hl _]]; [destruct (bytes_lt_irrefl (Name a)); by etrans|rewrite Hl in Hn; by apply bytes_lt_irrefl in Hn].
  - split; [intros Hl; right; split; [done|]; apply Z.nlt_ge; intros ?; apply Hl; by right|]. rewrite Hn. intros [Hl|[_ Hl]]; [by apply bytes_lt_irrefl in Hl|].
    intros [Hl'|[_ Hl']]; [by apply bytes_lt_irrefl in Hl'|lia].
  - split; [by left|]. intros _ [Hl|[Hl _]]; [destruct (bytes_lt_irrefl (Name a)); by etrans|rewrite Hl in Hn; by apply bytes_lt_irrefl in Hn].
Qed.

Lemma index_Less_asym a b : Less a b = true -> Less b a = false.
Proof. rewrite Less_spec, Less_false. intros [?|[? ?]]; [by left|right; split; [done|lia]]. Qed.

Lemma index_Less_trans a b c : Less b a = false -> Less c b = false -> Less c a = false.
Proof.
  rewrite !Less_false. intros [R1|[R1 R2]] [Q1|[Q1 Q2]].
  - left. by etrans.
  - left. by rewrite Q1.
  - left. by rewrite <-R1.
  - right. split; [congruence|lia].
Qed.
(** *** The footer *)

Lemma index_checksum_app skip expected b : len b = hash_Size -> bytes_ok b -> (b = zeros hash_Size \/ b = expected) ->
  readChecksum hash_Size skip expected b = Ok tt.
Proof.
  intros Hl Hb Hcase. set (h := oid_of (if hash_Size =? 32 then SHA256 else UnsetObjectFormat) b).
  assert (len b = format_Size (if hash_Size =? 32 then SHA256 else UnsetObjectFormat)) as Hf by (rewrite Hl; by destruct Hsize as [-> | ->]).
  assert (oid_ok h) as Hh by (apply oid_of_ok; [by destruct Hsize as [-> | ->]|done|done]).
  assert (Bytes h = b) as HB by (by apply oid_of_Bytes).
  assert (ObjectId.Size h = hash_Size) as Hs by (rewrite <-Bytes_len, HB by apply Hh; done).
  unfold readChecksum. rewrite <-HB at 1. rewrite <-(app_nil_r (Bytes h)), read_hash_app by done. step.
  destruct (IsZero h) eqn:Hz; [done|]. destruct skip; [done|]. unfold Compare. rewrite HB.
  destruct Hcase as [->| ->]; [|by rewrite bytes_compare_refl].
  exfalso. apply not_true_iff_false in Hz. apply Hz. apply bool_decide_eq_true. unfold h. cbn [oid_of oid_hash].
  by destruct Hsize as [-> | ->].
Qed.

Lemma validateHeader_app version r : 2 <= version <= 4 -> validateHeader (bs "DIRC" ++ PutUint32 (u32 version) ++ r) = Ok (version, r).
Proof.
  intros Hv. unfold validateHeader. rewrite (ReadFull_len 4) by done. step. rewrite bool_decide_eq_true_2 by done. cbn [negb].
  rewrite wrap_small, read_u32_app by lia. step. rewrite Z.gtb_ltb. ztest (version <? 2) false. ztest (4 <? version) false. done.
Qed.

Context (digest : bytes -> bytes) (Sort : (Entry -> Entry -> bool) -> list Entry -> list Entry) (range_stages : list Z -> list Z).
Hypothesis HSort : sorts Sort.
Hypothesis Hdigest : forall b, len (digest b) = hash_Size /\ bytes_ok (digest b).

Lemma Encode_Decode_Ok skip_e skip_d idx : 2 <= Version idx <= 4 -> Forall entry_ok (Entries idx) -> len (Entries idx) < 2 ^ 32 ->
  exists out, Encode digest hash_Size skip_e Sort idx = Ok (out, set_Entries (Sort Less (Entries idx)) idx)
    /\ Decode digest hash_Size skip_d range_stages empty_index out = Ok (set_Entries (Sort Less (Entries idx)) (set_Version (Version idx) empty_index)).
Proof.
  intros Hv Hl Hlen. unfold Encode. rewrite Z.gtb_ltb. unfold EncodeVersionSupported. ztest (4 <? Version idx) false.
  set (l := Sort Less (Entries idx)). assert (l ≡ₚ Entries idx) as Hp by apply (sorts_perm _ HSort).
  assert (Forall entry_ok l) as Hl' by (by rewrite Hp). assert (len l = len (Entries idx)) as Hll by (unfold len; by rewrite Hp).
  set (footer := fun body => encodeFooter digest hash_Size skip_e body).
  assert (2 = Version idx \/ 3 = Version idx \/ 4 = Version idx) as Hv' by lia.
  destruct (entries_roundtrip (Version idx) l ltac:(intuition) Hl' None None [] ltac:(by split)) as (b & Hb & _).
  rewrite Hb. step. eexists. split; [reflexivity|].
  set (body := encodeHeader idx ++ b). fold (footer body).
  destruct (entries_roundtrip (Version idx) l ltac:(intuition) Hl' None None (footer body) ltac:(by split)) as (b' & Hb' & Hr).
  rewrite Hb in Hb'. injection Hb' as <-.
  assert (len (footer body) = hash_Size /\ bytes_ok (footer body)) as [Hfl Hfb].
  { unfold footer, encodeFooter. destruct skip_e; [|apply Hdigest]. split; [destruct Hsize as [-> | ->]; by rewrite zeros_len|apply zeros_ok]. }
  unfold Decode. assert (body ++ footer body = bs "DIRC" ++ PutUint32 (u32 (Version idx)) ++ PutUint32 (u32 (len (Entries idx))) ++ b ++ footer body) as Heq.
  { unfold body, encodeHeader. by rewrite <-!app_assoc. }
  rewrite Heq at 1. rewrite validateHeader_app by done. step. rewrite wrap_small, read_u32_app by (pose proof (len_nonneg (Entries idx)); lia). step.
  apply encodeEntries_long in Hb. rewrite <-Hll, Hr; [|rewrite length_app; unfold len in *; lia]. step. cbn [readExtensions].
  ztest (len (footer body) <? 4 + 4 + hash_Size) true. rewrite take_app_length' by (rewrite length_app; lia).
  rewrite index_checksum_app; [by cbn|done|done|]. unfold footer, encodeFooter. destruct skip_e; [by left|by right].
Qed.

Lemma Sort_sorted l : StronglySorted (fun a b => bytes_lt (Name a) (Name b) \/ Name a = Name b /\ Stage a <= Stage b) (Sort Less l).
Proof.
  assert (StronglySorted (fun x y => Less y x = false) (Sort Less l)) as Hs.
  { apply (sorts_sorted _ HSort); [intros; by apply index_Less_asym|intros x y z; apply index_Less_trans]. }
  induction Hs as [|e k Hk IH He]; constructor; [done|]. eapply Forall_impl; [exact He|]. intros b [Hb|[Hb ?]]%Less_false; [by left|by right].
Qed.
End roundtrip.

(** ** Any input *)

(** A reader that takes at least [n] bytes off the front of its input and
    returns a value with [P], or fails. *)
Definition reads {A} (P : A -> Prop) (n : nat) (m : outcome index_error (A * bytes)) (r : bytes) : Prop :=
  match m with
  | Ok (x, r') => P x /\ exists p, r = p ++ r' /\ (n <= length p)%nat
  | Err _ => True
  | Panic | NoFuel => False
  end.

Lemma reads_bind {A B} (P : A -> Prop) (Q : B -> Prop) k n m (f : A * bytes -> outcome index_error (B * bytes)) r :
  reads P k m r -> bytes_ok r -> (forall x r', P x -> bytes_ok r' -> reads Q (n - k) (f (x, r')) r') -> reads Q n (m ≫= f) r.
Proof.
  intros Hm Hr Hf. destruct m as [[x r']| | |]; step; try done. destruct Hm as (HP & p & -> & Hp).
  apply bytes_ok_app in Hr as [_ Hr]. specialize (Hf x r' HP Hr). unfold reads in *. destruct (f (x, r')) as [[y r'']| | |]; try done.
  destruct Hf as (HQ & q & -> & Hq). split; [done|]. exists (p ++ q). rewrite <-app_assoc, length_app. split; [done|lia].
Qed.

Lemma reads_ret {A} (P : A -> Prop) x r : P x -> reads P 0 (Ok (x, r)) r.
Proof. intros Hx. split; [done|]. by exists []. Qed.

Lemma reads_le {A} (P Q : A -> Prop) n k m r : reads P n m r -> (k <= n)%nat -> (forall x, P x -> Q x) -> reads Q k m r.
Proof. unfold reads. destruct m as [[x r']| | |]; try done. intros (Hx & p & -> & Hp) Hk HQ. split; [auto|]. exists p. split; [done|lia]. Qed.

(** A value that is computed or refused before reading on. *)
Lemma reads_pure {A B} (P : A -> Prop) (Q : B -> Prop) n m (f : A -> outcome index_error (B * bytes)) r :
  match m with Ok x => P x | Err _ => True | _ => False end -> (forall x, P x -> reads Q n (f x) r) -> reads Q n (m ≫= f) r.
Proof. destruct m; cbn; intros Hm Hf; try done. by apply Hf. Qed.

Lemma ReadFull_reads n r : 0 <= n -> bytes_ok r -> reads (fun b => len b = n /\ bytes_ok b) (Z.to_nat n) (map_err ErrRead (ReadFull n r)) r.
Proof.
  intros Hn Hr. unfold ReadFull. destruct (Z.leb_spec n 0); [cbn [map_err]; assert (n = 0) as -> by lia; apply reads_ret; split; [done|constructor]|].
  destruct (len r =? 0); [done|]. destruct (Z.ltb_spec (len r) n); [done|]. cbn [map_err].
  rewrite <-(take_drop (Z.to_nat n) r) in Hr. apply bytes_ok_app in Hr as [Ht _].
  assert (length (take (Z.to_nat n) r) = Z.to_nat n) as Hl by (rewrite length_take; unfold len in *; lia).
  split; [split; [unfold len; lia|done]|]. exists (take (Z.to_nat n) r). by rewrite take_drop, Hl.
Qed.

Lemma read_u32_reads r : bytes_ok r -> reads (fun v => 0 <= v < 2 ^ 32) 4 (read_u32 r) r.
Proof.
  intros Hr. eapply (reads_bind _ _ 4); [by apply (ReadFull_reads 4)|done|]. intros b r' [Hl Hb] _. apply reads_ret.
  pose proof (be_val_bound b Hb) as Hv. rewrite Hl in Hv. exact Hv.
Qed.

Lemma read_u16_reads r : bytes_ok r -> reads (fun v => 0 <= v < 2 ^ 16) 2 (read_u16 r) r.
Proof.
  intros Hr. eapply (reads_bind _ _ 2); [by apply (ReadFull_reads 2)|done|]. intros b r' [Hl Hb] _. apply reads_ret.
  pose proof (be_val_bound b Hb) as Hv. rewrite Hl in Hv. exact Hv.
Qed.

Lemma ReadUntil_reads d r : bytes_ok r -> reads (fun v => bytes_ok v /\ d ∉ v) 1 (ReadUntil d r) r.
Proof.
  induction r as [|c r IH]; cbn [ReadUntil]; [done|]. intros [Hc Hr]%Forall_cons. destruct (Z.eqb_spec c d) as [->|Hne].
  - split; [split; [constructor|set_solver]|]. by exists [d].
  - specialize (IH Hr). unfold reads in IH. destruct (ReadUntil d r) as [[v r']| | |]; step; try done.
    destruct IH as ([Hv Hd] & p & -> & Hp). split; [split; [by constructor|set_solver]|]. exists (c :: p). split; [done|cbn; lia].
Qed.

Lemma land_127 c : 0 <= Z.land c 127 < 128.
Proof. change 127 with (2 ^ 7 - 1). rewrite land_low_mask by lia. apply Z.mod_pos_bound. lia. Qed.

Lemma ReadVariableWidthInt_reads r : reads (fun n => 0 <= n <= MaxInt64) 1 (map_err ErrVarint (ReadVariableWidthInt r)) r.
Proof.
  destruct r as [|c r]; [done|]. cbn [ReadVariableWidthInt].
  enough (forall v, 0 <= v <= MaxInt64 -> reads (fun n => 0 <= n <= MaxInt64) 0 (map_err ErrVarint (ReadVariableWidthInt_loop v c r)) r) as Hl.
  { pose proof (land_127 c). specialize (Hl (Z.land c 127) ltac:(unfold MaxInt64; lia)). unfold reads in *.
    destruct (ReadVariableWidthInt_loop _ c r) as [[x r']| | |]; cbn [map_err] in *; try done.
    destruct Hl as (Hx & p & -> & Hp). split; [done|]. exists (c :: p). split; [done|cbn; lia]. }
  revert c. induction r as [|b r IH]; intros c v Hv; cbn [ReadVariableWidthInt_loop]; destruct (_ >? 0); try (by apply reads_ret);
    rewrite Z.geb_leb; destruct (Z.leb_spec (Z.shiftr (MaxInt64 - 127) 7) v) as [|Hlt]; try done.
  pose proof (land_127 b). change (Z.shiftr (MaxInt64 - 127) 7) with (2 ^ 56 - 1) in Hlt.
  specialize (IH b (Z.shiftl (v + 1) 7 + Z.land b 127) ltac:(rewrite Z.shiftl_mul_pow2; unfold MaxInt64; lia)). unfold reads in *.
  destruct (ReadVariableWidthInt_loop _ b r) as [[x r']| | |]; cbn [map_err] in *; try done.
  destruct IH as (Hx & p & -> & Hp). split; [done|]. exists (b :: p). split; [done|cbn; lia].
Qed.

Lemma reads_skip {A} (P : A -> Prop) n (m : outcome index_error bytes) (f : bytes -> outcome index_error (A * bytes)) r :
  match m with Ok r' => exists p, r = p ++ r' | Err _ => True | _ => False end -> bytes_ok r ->
  (forall r', bytes_ok r' -> reads P n (f r') r') -> reads P n (m ≫= f) r.
Proof.
  destruct m as [r'| | |]; step; try done. intros [p ->] Hr Hf. apply bytes_ok_app in Hr as [_ Hr]. specialize (Hf r' Hr). unfold reads in *.
  destruct (f r') as [[x r'']| | |]; try done. destruct Hf as (Hx & q & -> & Hq). split; [done|]. exists (p ++ q). rewrite <-app_assoc, length_app. split; [done|lia].
Qed.

Lemma dec_padEntry_skips version nl rd nc r : match dec_padEntry version nl rd nc r with Ok r' => exists p, r = p ++ r' | Err _ => True | _ => False end.
Proof.
  unfold dec_padEntry. destruct (version =? 4); [by exists []|]. destruct (_ >? 0); [|by exists []]. unfold discard. destruct (len r <? _); [done|].
  eexists. symmetry. apply take_drop.
Qed.

Section totality.
Context (digest : bytes -> bytes) (hash_Size : Z) (skipHash : bool) (range_stages : list Z -> list Z).
Hypothesis Hsize : hash_Size = 20 \/ hash_Size = 32.
Hypothesis Hrange : forall l, range_stages l ≡ₚ l.

Definition id_ok (h : ObjectID) : Prop := oid_ok h /\ ObjectId.Size h = hash_Size.

Lemma read_hash_inv r : bytes_ok r ->
  match read_hash hash_Size r with
  | Ok (h, r') => r = Bytes h ++ r' /\ id_ok h
  | Err e => is_Some (match e with ErrRead _ => Some tt | _ => None end)
  | _ => False
  end.
Proof.
  intros Hr. destruct (Z.ltb_spec (len r) hash_Size) as [Hl|Hl].
  - unfold read_hash, ReadFrom, ReadFull. assert (ObjectId.Size (ResetBySize hash_Size) = hash_Size) as -> by (by destruct Hsize as [-> | ->]).
    ztest (hash_Size <=? 0) false. destruct (len r =? 0); [cbn; eauto|]. ztest (len r <? hash_Size) true. cbn; eauto.
  - rewrite <-(take_drop (Z.to_nat hash_Size) r) in Hr |- *. set (b := take (Z.to_nat hash_Size) r) in *. set (q := drop (Z.to_nat hash_Size) r) in *.
    apply bytes_ok_app in Hr as [Hb _]. assert (len b = hash_Size) as Hlb by (unfold b, len in *; rewrite length_take; lia).
    set (f := if hash_Size =? 32 then SHA256 else UnsetObjectFormat).
    assert (len b = format_Size f) as Hlf by (unfold f; rewrite Hlb; by destruct Hsize as [-> | ->]).
    pose proof (oid_of_ok f b ltac:(unfold f; by destruct Hsize as [-> | ->]) Hlf Hb) as Hok. pose proof (oid_of_Bytes f b Hlf) as HB.
    assert (ObjectId.Size (oid_of f b) = hash_Size) as Hs by (rewrite <-Bytes_len, HB by apply Hok; done).
    rewrite <-HB, (read_hash_app hash_Size Hsize) by done. done.
Qed.

Lemma read_hash_reads r : bytes_ok r -> reads id_ok 20 (read_hash hash_Size r) r.
Proof.
  intros Hr. pose proof (read_hash_inv r Hr) as Hh. unfold reads. destruct (read_hash hash_Size r) as [[h r']| | |]; try done.
  destruct Hh as [-> Hh]. split; [done|]. exists (Bytes h). split; [done|]. destruct Hh as [Hok Hs]. pose proof (Bytes_len h (oid_len _ Hok)). unfold len in *. lia.
Qed.

(** An entry as its record types it. *)
Record entry_typed (e : Entry) : Prop := {
  et_hash : id_ok (Hash e); et_name : bytes_ok (Name e); et_stage : 0 <= Stage e < 4;
  et_dev : 0 <= Dev e < 2 ^ 32; et_inode : 0 <= Inode e < 2 ^ 32; et_mode : 0 <= Mode e < 2 ^ 32;
  et_uid : 0 <= UID e < 2 ^ 32; et_gid : 0 <= GID e < 2 ^ 32; et_size : 0 <= Size e < 2 ^ 32;
  et_created : 0 <= Nanosecond (CreatedAt e) < 10 ^ 9; et_modified : 0 <= Nanosecond (ModifiedAt e) < 10 ^ 9;
}.

(** The next read of a decoder, of at least [k] bytes. *)
Ltac next k lem x r Hx Hr :=
  eapply (reads_bind _ _ k);
  [eapply reads_le; [by apply lem|lia|let y := fresh in let H := fresh in intros y H; exact H] | done
  | first [clear r Hr|idtac]; intros x r Hx Hr; cbn beta in Hx].

Lemma doReadEntryNameV4_reads last r : (forall n, last = Some n -> bytes_ok n) -> bytes_ok r -> reads bytes_ok 2 (doReadEntryNameV4 last r) r.
Proof.
  intros Hlast Hr. unfold doReadEntryNameV4. eapply (reads_bind _ _ 1); [by apply ReadVariableWidthInt_reads|done|]. intros l r1 Hl Hr1.
  unfold MaxInt64 in Hl. eapply (reads_pure bytes_ok).
  - destruct last as [n|]; [|destruct (l >? 0); [done|constructor]]. ztest (l <? 0) false. rewrite Z.gtb_ltb, i64_small by lia. destruct (Z.ltb_spec (len n) l); [done|]. cbn [orb].
    rewrite slice_Ok by lia. apply Forall_take, Forall_drop. by apply Hlast.
  - intros base Hb. eapply (reads_bind _ _ 1); [by apply ReadUntil_reads|done|]. intros n r2 [Hn _] _. apply reads_ret. by apply bytes_ok_app.
Qed.

Lemma doReadEntryName_reads n r : 0 <= n -> bytes_ok r -> reads (fun x => bytes_ok x.1) 0 (doReadEntryName n r) r.
Proof.
  intros Hn Hr. unfold doReadEntryName. destruct (n =? nameMask).
  - eapply (reads_bind _ _ 0); [eapply reads_le; [by apply ReadUntil_reads|lia|intros x Hx; exact Hx]|done|]. intros x r' [Hx _] _. by apply reads_ret.
  - eapply (reads_bind _ _ 0); [eapply reads_le; [by apply ReadFull_reads|lia|intros x Hx; exact Hx]|done|]. intros x r' [_ Hx] _. by apply reads_ret.
Qed.

Lemma readEntryName_reads version last flags r : 0 <= flags -> (forall n, last = Some n -> bytes_ok n) -> bytes_ok r ->
  reads (fun x => bytes_ok x.1) 0 (readEntryName version last flags r) r.
Proof.
  intros Hf Hlast Hr. unfold readEntryName. destruct (_ || _); [apply doReadEntryName_reads; [by apply Z.land_nonneg; left|done]|]. destruct (version =? 4); [|done].
  eapply (reads_bind _ _ 0); [eapply reads_le; [by apply doReadEntryNameV4_reads|lia|intros x Hx; exact Hx]|done|]. intros x r' Hx _. by apply reads_ret.
Qed.

Lemma unix_time_typed a b : 0 <= Nanosecond (unix_time a b) < 10 ^ 9.
Proof. unfold unix_time. destruct (_ || _); [by apply Z.mod_pos_bound|done]. Qed.

Lemma readEntry_reads version last r : (forall n, last = Some n -> bytes_ok n) -> bytes_ok r -> reads entry_typed 1 (readEntry hash_Size version last r) r.
Proof.
  intros Hlast Hr. unfold readEntry.
  next 4%nat read_u32_reads sec r Hsec Hr.
  next 4%nat read_u32_reads nsec r Hnsec Hr.
  next 4%nat read_u32_reads msec r Hmsec Hr.
  next 4%nat read_u32_reads mnsec r Hmnsec Hr.
  next 4%nat read_u32_reads dev r Hdev Hr.
  next 4%nat read_u32_reads ino r Hino Hr.
  next 4%nat read_u32_reads mode r Hmode Hr.
  next 4%nat read_u32_reads uid r Huid Hr.
  next 4%nat read_u32_reads gid r Hgid Hr.
  next 4%nat read_u32_reads sz r Hsz Hr.
  next 20%nat read_hash_reads h r Hh Hr.
  next 2%nat read_u16_reads flags r Hflags Hr.
  eapply (reads_bind (fun _ => True) _ 0); [|done|].
  { destruct (negb _); [|by apply reads_ret]. eapply (reads_bind _ _ 0); [eapply reads_le; [by apply read_u16_reads|lia|intros x Hx; exact Hx]|done|]. intros ext r' _ _. by apply reads_ret. }
  clear r Hr; intros [[rd ita] skip] r _ Hr.
  eapply (reads_bind _ _ 0); [apply readEntryName_reads; [lia|done|done]|done|]. clear r Hr; intros [name nc] r Hname Hr.
  eapply reads_skip; [apply dec_padEntry_skips|done|]. clear r Hr; intros r Hr. apply reads_ret.
  constructor; cbn; try done; try apply unix_time_typed. change 3 with (2 ^ 2 - 1). rewrite land_low_mask by lia. apply Z.mod_pos_bound. lia.
Qed.

Lemma readEntries_reads version : forall fuel count last r, (length r < fuel)%nat -> (forall n, last = Some n -> bytes_ok n) -> bytes_ok r ->
  reads (Forall entry_typed) 0 (readEntries hash_Size fuel version count last r) r.
Proof.
  induction fuel as [|f IH]; intros count last r Hf Hlast Hr; [lia|]. cbn [readEntries]. destruct (count <=? 0); [by apply reads_ret|].
  pose proof (readEntry_reads version last r Hlast Hr) as He. unfold reads in He. destruct (readEntry _ _ _ r) as [[e r1]| | |]; step; try done.
  destruct He as (Ht & p & -> & Hp). rewrite length_app in Hf. apply bytes_ok_app in Hr as [_ Hr].
  specialize (IH (count - 1) (Some (Name e)) r1 ltac:(lia) ltac:(intros ? [= <-]; apply Ht) Hr). unfold reads in *.
  destruct (readEntries _ _ _ _ _ r1) as [[l r2]| | |]; step; try done. destruct IH as (Hl & q & -> & _). split; [by constructor|]. exists (p ++ q). by rewrite <-app_assoc; split; [|lia].
Qed.
(** *** Extensions *)

Definition tree_typed (e : TreeEntry) : Prop := 0 <= te_Entries e < 2 ^ 63 /\ - 2 ^ 63 <= te_Trees e < 2 ^ 63 /\ id_ok (te_Hash e).
Definition undo_typed (e : ResolveUndoEntry) : Prop := map_Forall (fun s h => 1 <= s <= 3 /\ id_ok h) (ru_Stages e).
Definition eoie_typed (e : EndOfIndexEntry) : Prop := 0 <= eoie_Offset e < 2 ^ 32 /\ id_ok (eoie_Hash e).

(** What every decoded index satisfies. *)
Record index_typed (i : Index) : Prop := {
  it_version : 2 <= Version i <= 4;
  it_entries : Forall entry_typed (Entries i);
  it_cache : forall l, Cache i = Some l -> Forall tree_typed l;
  it_undo : forall l, ResolveUndo i = Some l -> Forall undo_typed l;
  it_eoie : forall e, EndOfIndex i = Some e -> eoie_typed e;
}.

Lemma parse_number_outcome p : match parse_number p with Ok n => p = Some n | Err _ => True | _ => False end.
Proof. by destruct p. Qed.

Lemma tree_readEntry_reads r : bytes_ok r -> reads (fun o => forall e, o = Some e -> tree_typed e) 1 (tree_readEntry hash_Size r) r.
Proof.
  intros Hr. unfold tree_readEntry. next 1%nat ReadUntil_reads path r Hp Hr. next 1%nat ReadUntil_reads count r Hc Hr.
  eapply reads_pure; [apply parse_number_outcome|]. intros i Hi%ParseInt_range. next 1%nat ReadUntil_reads trees r Ht Hr.
  eapply reads_pure; [apply parse_number_outcome|]. intros subtrees Hs%ParseInt_range. destruct (Z.ltb_spec i 0); [by apply reads_ret|].
  next 20%nat read_hash_reads h r Hh Hr. apply reads_ret. intros ? [= <-]. unfold tree_typed. cbn [te_Entries te_Trees te_Hash]. by split_and!; [lia..|].
Qed.

Lemma tree_Decode_outcome : forall fuel r, (length r < fuel)%nat -> bytes_ok r ->
  match tree_Decode hash_Size fuel r with Ok l => Forall tree_typed l | Err _ => True | _ => False end.
Proof.
  induction fuel as [|f IH]; intros r Hf Hr; [lia|]. cbn [tree_Decode]. pose proof (tree_readEntry_reads r Hr) as He. unfold reads in He.
  destruct (tree_readEntry hash_Size r) as [[o r1]|e| |]; try done.
  - destruct He as (Ho & p & -> & Hp). rewrite length_app in Hf. apply bytes_ok_app in Hr as [_ Hr]. specialize (IH r1 ltac:(lia) Hr).
    destruct (tree_Decode _ f r1); step; try done. destruct o as [e|]; [|done]. constructor; [by apply Ho|done].
  - destruct e as [| | | | | | | | | |[]|]; solve [done | constructor].
Qed.

Lemma readStage_reads r : bytes_ok r -> reads (fun _ => True) 1 (readStage r) r.
Proof.
  intros Hr. unfold readStage. next 1%nat ReadUntil_reads a r Ha Hr. eapply reads_pure; [apply parse_number_outcome|]. intros s _. by apply reads_ret.
Qed.

Lemma read_stages_reads l : Forall (fun s => 1 <= s <= 3) l -> forall m r, map_Forall (fun s h => 1 <= s <= 3 /\ id_ok h) m -> bytes_ok r ->
  reads (map_Forall (fun s h => 1 <= s <= 3 /\ id_ok h)) 0 (read_stages hash_Size l m r) r.
Proof.
  induction 1 as [|s l Hs Hl IH]; intros m r Hm Hr; cbn [read_stages]; [by apply reads_ret|].
  next 0%nat read_hash_reads h r Hh Hr. apply IH; [|done]. by apply map_Forall_insert_2.
Qed.

Lemma undo_readEntry_reads r : bytes_ok r -> reads undo_typed 1 (undo_readEntry hash_Size range_stages r) r.
Proof.
  intros Hr. unfold undo_readEntry. next 1%nat ReadUntil_reads path r Hp Hr.
  next 1%nat readStage_reads s1 r H1' Hr. next 1%nat readStage_reads s2 r H2' Hr. next 1%nat readStage_reads s3 r H3' Hr.
  eapply (reads_bind _ _ 0); [apply read_stages_reads; [|apply map_Forall_empty|done]|done|intros m r' Hm _; by apply reads_ret].
  rewrite Hrange. destruct s1, s2, s3; repeat constructor; lia.
Qed.

Lemma undo_Decode_outcome : forall fuel r, (length r < fuel)%nat -> bytes_ok r ->
  match undo_Decode hash_Size range_stages fuel r with Ok l => Forall undo_typed l | Err _ => True | _ => False end.
Proof.
  induction fuel as [|f IH]; intros r Hf Hr; [lia|]. cbn [undo_Decode]. pose proof (undo_readEntry_reads r Hr) as He. unfold reads in He.
  destruct (undo_readEntry hash_Size range_stages r) as [[o r1]|e| |]; try done.
  - destruct He as (Ho & p & -> & Hp). rewrite length_app in Hf. apply bytes_ok_app in Hr as [_ Hr]. specialize (IH r1 ltac:(lia) Hr).
    destruct (undo_Decode _ _ f r1); step; try done. by constructor.
  - destruct e as [| | | | | | | | | |[]|]; solve [done | constructor].
Qed.

Lemma eoie_Decode_outcome r : bytes_ok r -> match eoie_Decode hash_Size r with Ok e => eoie_typed e | Err _ => True | _ => False end.
Proof.
  intros Hr. unfold eoie_Decode. pose proof (read_u32_reads r Hr) as Ho. unfold reads in Ho. destruct (read_u32 r) as [[o r1]| | |]; step; try done.
  destruct Ho as (Ho & p & -> & _). apply bytes_ok_app in Hr as [_ Hr].
  pose proof (read_hash_reads r1 Hr) as Hh. unfold reads in Hh. destruct (read_hash _ r1) as [[h r2]| | |]; step; try done. by split; [|apply Hh].
Qed.

Lemma readExtension_reads i r : index_typed i -> bytes_ok r -> reads index_typed 8 (readExtension hash_Size range_stages i r) r.
Proof.
  intros Hi Hr. unfold readExtension. eapply (reads_bind _ _ 4); [by apply (ReadFull_reads 4)|done|]. clear r Hr. intros header r [Hl Hh] Hr.
  next 4%nat read_u32_reads extLen r Hext Hr.
  assert (forall n, bytes_ok (take n r)) as Htake by (intros; by apply Forall_take).
  assert (forall (j : Index) n, index_typed j -> reads index_typed 0 (Ok (j, drop n r)) r) as Hret.
  { intros j n Hj. split; [done|]. exists (take n r). rewrite take_drop. split; [done|lia]. }
  destruct Hi as [Hv He Hc Hu Hx].
  case_bool_decide.
  { eapply (reads_pure (Forall tree_typed)); [apply tree_Decode_outcome; [lia|done]|]. intros l Hl'. apply Hret. constructor; cbn; try done. by intros ? [= <-]. }
  case_bool_decide.
  { eapply (reads_pure (Forall undo_typed)); [apply undo_Decode_outcome; [lia|done]|]. intros l Hl'. apply Hret. constructor; cbn; try done. by intros ? [= <-]. }
  case_bool_decide.
  { eapply (reads_pure eoie_typed); [by apply eoie_Decode_outcome|]. intros l Hl'. apply Hret. constructor; cbn; try done. by intros ? [= <-]. }
  destruct (index_in_range (E := index_error) header 0 ltac:(lia)) as (c & -> & _). step. destruct (_ || _); [done|]. by apply Hret.
Qed.

(** The end of the file: the checksum, and less than eight bytes after it. *)
Definition footer_of (body r : bytes) : Prop :=
  exists h tail, r = h ++ tail /\ len h = hash_Size /\ len tail < 8 /\ (skipHash = true \/ h = zeros hash_Size \/ h = digest body).

Lemma readChecksum_outcome body r : bytes_ok r -> len r < 8 + hash_Size ->
  match readChecksum hash_Size skipHash (digest body) r with Ok _ => footer_of body r | Err _ => True | _ => False end.
Proof.
  intros Hr Hlen. unfold readChecksum. pose proof (read_hash_inv r Hr) as Hh. destruct (read_hash hash_Size r) as [[h tail]| | |]; step; try done.
  destruct Hh as [-> [Hok Hs]]. pose proof (Bytes_len h (oid_len _ Hok)) as HB. rewrite Hs in HB. rewrite len_app in Hlen.
  assert (forall P : Prop, P -> (P -> skipHash = true \/ Bytes h = zeros hash_Size \/ Bytes h = digest body) -> footer_of body (Bytes h ++ tail)) as Hf.
  { intros P HP Himp. exists (Bytes h), tail. split; [done|]. split; [done|]. split; [lia|]. by apply Himp. }
  destruct (IsZero h) eqn:Hz.
  - apply (Hf (oid_hash h = zeros SHA256Size)); [by apply bool_decide_eq_true in Hz|]. intros Hz'. right. left. unfold Bytes. rewrite Hz', Hs. by destruct Hsize as [-> | ->].
  - destruct skipHash; [by apply (Hf True); [|left]|]. unfold Compare. destruct (bytes_compare (Bytes h) (digest body)) eqn:Hc; try done.
    apply (Hf True); [done|]. intros _. right. right. by apply bytes_compare_eq.
Qed.

Lemma readExtensions_outcome src : forall fuel i body r, (length r < fuel)%nat -> src = body ++ r -> bytes_ok r -> index_typed i ->
  match readExtensions digest hash_Size skipHash range_stages fuel src i r with
  | Ok i' => index_typed i' /\ exists body r, src = body ++ r /\ footer_of body r
  | Err _ => True
  | _ => False
  end.
Proof.
  induction fuel as [|f IH]; intros i body r Hf Hsrc Hr Hi; [lia|]. cbn [readExtensions]. destruct (Z.ltb_spec (len r) (4 + 4 + hash_Size)) as [Hl|Hl].
  - assert (take (length src - length r) src = body) as -> by (rewrite Hsrc, length_app, Nat.add_sub; apply take_app_length). pose proof (readChecksum_outcome body r Hr ltac:(lia)) as Hc.
    destruct (readChecksum _ _ _ r); step; try done. split; [done|]. by exists body, r.
  - pose proof (readExtension_reads i r Hi Hr) as He. unfold reads in He. destruct (readExtension _ _ i r) as [[i' r']| | |]; step; try done.
    destruct He as (Hi' & p & -> & Hp). rewrite length_app in Hf. apply bytes_ok_app in Hr as [_ Hr]. apply (IH i' (body ++ p)); [lia|by rewrite <-app_assoc|done|done].
Qed.

Lemma Decode_outcome src : bytes_ok src ->
  match Decode digest hash_Size skipHash range_stages empty_index src with
  | Ok i => index_typed i /\ exists body r, src = body ++ r /\ footer_of body r
  | Err _ => True
  | _ => False
  end.
Proof.
  intros Hsrc. unfold Decode, validateHeader.
  pose proof (ReadFull_reads 4 src ltac:(lia) Hsrc) as Hs. unfold reads in Hs. destruct (map_err ErrRead (ReadFull 4 src)) as [[s r]| | |]; step; try done.
  destruct Hs as (_ & p1 & -> & _). apply bytes_ok_app in Hsrc as [_ Hr]. destruct (negb _); [done|]. step.
  pose proof (read_u32_reads r Hr) as Hv. unfold reads in Hv. destruct (read_u32 r) as [[v r2]| | |]; step; try done. destruct Hv as (_ & p2 & -> & _). apply bytes_ok_app in Hr as [_ Hr].
  rewrite Z.gtb_ltb. destruct (Z.ltb_spec v 2), (Z.ltb_spec 4 v); try done. cbn [orb]. step.
  pose proof (read_u32_reads r2 Hr) as Hc. unfold reads in Hc. destruct (read_u32 r2) as [[c r3]| | |]; step; try done. destruct Hc as (_ & p3 & -> & _). apply bytes_ok_app in Hr as [_ Hr].
  pose proof (readEntries_reads v (S (length r3)) c None r3 ltac:(lia) ltac:(done) Hr) as He. unfold reads in He.
  destruct (readEntries _ _ _ _ _ r3) as [[l r4]| | |]; step; try done. destruct He as (Hl & p4 & -> & _). apply bytes_ok_app in Hr as [_ Hr].
  apply (readExtensions_outcome _ _ _ (p1 ++ p2 ++ p3 ++ p4)); [lia|by rewrite <-!app_assoc|done|]. constructor; cbn; done.
Qed.
End totality.

(** ** Properties *)

(** C17: an index file written by [Encode] is read back by [Decode], for the versions 2, 3 and 4, either hash size, and whether or not either side
    skips the hash; only in the versions 3 and 4, which have the extended flags, may entries be to be added or be left out of the worktree.  The index read has the version written, no extension, and the entries written, all their fields included, in the order
    of [byNameAndStage]: that of the sort, which is by name and then by stage; none of a version 2 file has the extended flags.  The entries are those whose times are zero or fit 32 bits, whose
    names have no NUL byte, and whose numbers fit their widths. *)
Theorem index_roundtrip digest hash_Size Sort range_stages skip_e skip_d idx :
  hash_Size = 20 \/ hash_Size = 32 -> sorts Sort -> (forall b, len (digest b) = hash_Size /\ bytes_ok (digest b)) ->
  2 <= Version idx <= 4 -> Forall (entry_ok hash_Size) (Entries idx) -> len (Entries idx) < 2 ^ 32 ->
  (Version idx = 2 -> Forall (fun e => SkipWorktree e = false /\ IntentToAdd e = false) (Entries idx)) ->
  exists out l, Encode digest hash_Size skip_e Sort idx = Ok (out, set_Entries l idx)
    /\ Decode digest hash_Size skip_d range_stages empty_index out = Ok (set_Entries l (set_Version (Version idx) empty_index))
    /\ l ≡ₚ Entries idx
    /\ StronglySorted (fun a b => bytes_lt (Name a) (Name b) \/ Name a = Name b /\ Stage a <= Stage b) l
    /\ (Version idx = 2 -> Forall (fun e => extended e = false) l).
Proof.
  intros Hsz HS Hd Hv He Hl H2. destruct (Encode_Decode_Ok hash_Size Hsz digest Sort range_stages HS Hd skip_e skip_d idx Hv He Hl) as (out & Ho & Hr).
  exists out, (Sort Less (Entries idx)). split; [done|]. split; [done|]. split; [apply (sorts_perm _ HS)|].
  split; [by apply Sort_sorted|]. intros Hv2. rewrite (sorts_perm _ HS). eapply Forall_impl; [by apply H2|]. intros e [Hs Hi]. unfold extended. by rewrite Hs, Hi.
Qed.

(** A digest for the examples. *)
Definition index_digest (b : bytes) : bytes := replicate 20 (foldl (fun x c => (x * 3 + c) mod 65536) 7 b mod 256).

Definition example_entry (name : bytes) (stage : Z) : Entry :=
  {| Hash := oid_of UnsetObjectFormat (replicate 20 stage); Name := name; CreatedAt := {| Unix := 1700000000; Nanosecond := 5 |}; ModifiedAt := zero_time;
     Dev := 1; Inode := 2; Mode := 33188; UID := 3; GID := 4; Size := 5; Stage := stage; SkipWorktree := bool_decide (stage = 2); IntentToAdd := false |}.

Definition example_index (version : Z) : Index :=
  set_Entries [example_entry (bs "foo/b") 0; example_entry (bs "foo/a") 2; example_entry (bs "foo/a") 1] (set_Version version empty_index).

Lemma example_entry_ok stage n : (stage = 0 \/ stage = 1 \/ stage = 2) -> 0 ∉ n -> len n < 100 -> entry_ok 20 (example_entry n stage).
Proof.
  intros Hs Hn Hl. constructor; cbn; try lia; try (split; [done|lia]).
  - split; [|done]. apply oid_of_ok; [done|done|]. destruct Hs as [-> |[-> | ->]]; repeat constructor; unfold is_byte; lia.
  - split; [right; cbn; lia|by left].
Qed.

Lemma index_roundtrip_witness :
  exists out l, Encode index_digest 20 false insertion_sort (example_index 4) = Ok (out, set_Entries l (example_index 4))
    /\ Decode index_digest 20 false id empty_index out = Ok (set_Entries l (set_Version 4 empty_index))
    /\ l ≡ₚ Entries (example_index 4)
    /\ StronglySorted (fun a b => bytes_lt (Name a) (Name b) \/ Name a = Name b /\ Stage a <= Stage b) l
    /\ (4 = 2 -> Forall (fun e => extended e = false) l).
Proof.
  apply (index_roundtrip index_digest 20 insertion_sort id false false (example_index 4)).
  - by left.
  - apply insertion_sort_sorts.
  - intros b. split; [done|]. apply Forall_replicate, Z.mod_pos_bound. lia.
  - cbn. lia.
  - cbn [Entries example_index set_Entries]. apply Forall_cons; split; [|apply Forall_cons; split; [|apply Forall_cons; split; [|constructor]]]; apply example_entry_ok; try (by auto); apply (bool_decide_unpack _); vm_compute; exact I.
  - done.
  - done.
Defined.

(** The encoder writes the extended flags in version 2 too, which has none,
    and the decoder reads them there. *)
Example extended_in_version_2 :
  match Encode index_digest 20 false insertion_sort (example_index 2) with
  | Ok (out, _) => match Decode index_digest 20 false id empty_index out with Ok i => (Version i, SkipWorktree <$> Entries i) | _ => (0, []) end
  | _ => (0, [])
  end = (2, [false; true; false]).
Proof. vm_compute. reflexivity. Qed.

(** C18: on every input the decoder ends and does not panic: it returns an index or an error.  When it returns an index and the hash is not
    skipped, the input is a body, a checksum that is all zeros or the digest of that very body, and less than eight bytes more; so such a decoder
    refuses an input with any other checksum.  A decoder made to skip the hash reads one of the hash's size and does not look at it. *)
Theorem index_Decode_checked digest hash_Size skipHash range_stages src :
  hash_Size = 20 \/ hash_Size = 32 -> (forall l, range_stages l ≡ₚ l) -> bytes_ok src ->
  match Decode digest hash_Size skipHash range_stages empty_index src with
  | Ok _ => exists body h tail, src = body ++ h ++ tail /\ len h = hash_Size /\ len tail < 8
              /\ (skipHash = true \/ h = zeros hash_Size \/ h = digest body)
  | Err _ => True
  | Panic | NoFuel => False
  end.
Proof.
  intros Hsz Hr Hb. pose proof (Decode_outcome digest hash_Size skipHash range_stages Hsz Hr src Hb) as Hd.
  destruct (Decode _ _ _ _ _ src); try done. destruct Hd as (_ & body & r & -> & h & tail & -> & Hh). by exists body, h, tail.
Qed.

Definition example_file : bytes :=
  match Encode index_digest 20 false insertion_sort (example_index 3) with Ok (out, _) => out | _ => [] end.

Lemma index_Decode_checked_witness :
  match Decode index_digest 20 false id empty_index example_file with Ok i => len (Entries i) | _ => 0 end = 3
  /\ Decode index_digest 20 false id empty_index (take (length example_file - 1) example_file ++ [0]) = Err ErrInvalidChecksum
  /\ match Decode index_digest 20 false id empty_index example_file with
     | Ok _ => exists body h tail, example_file = body ++ h ++ tail /\ len h = 20 /\ len tail < 8
                 /\ (false = true \/ h = zeros 20 \/ h = index_digest body)
     | Err _ => True
     | Panic | NoFuel => False
     end.
Proof.
  split; [vm_compute; reflexivity|]. split; [vm_compute; reflexivity|].
  apply (index_Decode_checked index_digest 20 false id example_file); [by left|done|]. apply (bool_decide_unpack _). vm_compute. exact I.
Defined.

(** C19: every index the decoder returns is well typed: its version is 2, 3 or 4; its entries have identifiers of the repository's
    hash, stages 0 to 3, nanoseconds below a second and numbers of 32 bits; the cached trees have numbers of 64 bits with signs, the number of
    entries not negative, the resolved conflicts only the stages 1 to 3, and all of them identifiers of that hash. *)
Theorem index_Decode_typed digest hash_Size skipHash range_stages src i :
  hash_Size = 20 \/ hash_Size = 32 -> (forall l, range_stages l ≡ₚ l) -> bytes_ok src ->
  Decode digest hash_Size skipHash range_stages empty_index src = Ok i -> index_typed hash_Size i.
Proof.
  intros Hsz Hr Hb Hd. pose proof (Decode_outcome digest hash_Size skipHash range_stages Hsz Hr src Hb) as Ho. rewrite Hd in Ho. apply Ho.
Qed.

Lemma index_Decode_typed_witness :
  exists i, Decode index_digest 20 false id empty_index example_file = Ok i /\ len (Entries i) = 3 /\ index_typed 20 i.
Proof.
  destruct (Decode index_digest 20 false id empty_index example_file) as [i| | |] eqn:Hd; [|exfalso; revert Hd; vm_compute; discriminate..].
  exists i. split; [done|]. split.
  - revert Hd. vm_compute. intros [= <-]. reflexivity.
  - apply (index_Decode_typed index_digest 20 false id example_file i); [by left|done| |exact Hd]. apply (bool_decide_unpack _). vm_compute. exact I.
Defined.
