(* ===== verification/Gitignore.v ===== *)
(** * Ignore patterns: [plumbing/format/gitignore/pattern.go], [matcher.go], [scope.go]

    The matcher of one path component, git's wildmatch with its bracket
    expressions read once into sets of bits and kept in a cache; the patterns
    over paths, the matcher of several patterns, and the scopes of a walk.  The
    matcher of a component is proved equivalent to a declarative semantics of
    wildcards, and the patterns to what the format says of paths. *)
From stdpp Require Import base list numbers option strings gmap.
From Stdlib Require Import ZArith Lia.
From S2P Require Import Prelude GoStrings.

Open Scope Z_scope.

(** ** Sets of bytes *)

(** Four words of 64 bits; [b_end] is the field [end]. *)
Record bracketSet := { accept : list Z; b_end : Z; abort : bool }.

Definition zero_set : bracketSet := {| accept := [0; 0; 0; 0]; b_end := 0; abort := false |}.
Definition ones64 : Z := 2 ^ 64 - 1.

Definition set_accept (a : list Z) (b : bracketSet) : bracketSet := {| accept := a; b_end := b_end b; abort := abort b |}.
Definition set_end (e : Z) (b : bracketSet) : bracketSet := {| accept := accept b; b_end := e; abort := abort b |}.
Definition set_abort (b : bracketSet) : bracketSet := {| accept := accept b; b_end := b_end b; abort := true |}.

Definition bit64 (ch : Z) : Z := u64 (Z.shiftl 1 (Z.land ch 63)).
Definition word_of (ch : Z) : nat := Z.to_nat (Z.shiftr ch 6).

Definition add (b : bracketSet) (ch : Z) : bracketSet := set_accept (alter (fun w => Z.lor w (bit64 ch)) (word_of ch) (accept b)) b.

(** The mask of the word [i] for the range. *)
Definition range_mask (lo hi : Z) (i : nat) : Z :=
  let m := ones64 in
  let m := if decide (i = word_of lo) then Z.land m (u64 (Z.shiftl ones64 (Z.land lo 63))) else m in
  if decide (i = word_of hi) then Z.land m (Z.shiftr ones64 (63 - Z.land hi 63)) else m.

Definition addRange (b : bracketSet) (lo hi : Z) : bracketSet :=
  if lo >? hi then b
  else set_accept (foldl (fun a i => alter (fun w => Z.lor w (range_mask lo hi i)) i a) (accept b)
                         (seq (word_of lo) (S (word_of hi - word_of lo)))) b.

Definition has (b : bracketSet) (ch : Z) : bool := negb (Z.land (default 0 (accept b !! word_of ch)) (bit64 ch) =? 0).

(** ** Flags, codes and classes *)

Definition wmMatch : Z := 0.
Definition wmNoMatch : Z := 1.
Definition wmAbortAll : Z := -1.
Definition wmAbortToStarStar : Z := -2.

Definition wmCasefold : Z := 1.
Definition wmPathname : Z := 2.

Definition casefold (flags : Z) : bool := negb (Z.land flags wmCasefold =? 0).
Definition pathname (flags : Z) : bool := negb (Z.land flags wmPathname =? 0).

Definition between (lo ch hi : Z) : bool := (lo <=? ch) && (ch <=? hi).
Definition isASCIIUpper (ch : Z) : bool := between 65 ch 90.
Definition isASCIILower (ch : Z) : bool := between 97 ch 122.
Definition isASCIIAlpha (ch : Z) : bool := isASCIILower ch || isASCIIUpper ch.
Definition isASCIIDigit (ch : Z) : bool := between 48 ch 57.
Definition isASCIIPunct (ch : Z) : bool := between 33 ch 47 || between 58 ch 64 || between 91 ch 96 || between 123 ch 126.

(** The table of the classes, in its source's order. *)
Definition posixClasses : list (bytes * (Z -> Z -> bool)) := [
  (bs "alnum", fun ch _ => isASCIIAlpha ch || isASCIIDigit ch);
  (bs "alpha", fun ch _ => isASCIIAlpha ch);
  (bs "blank", fun ch _ => (ch =? 32) || (ch =? 9));
  (bs "cntrl", fun ch _ => (ch <? 32) || (ch =? 127));
  (bs "digit", fun ch _ => isASCIIDigit ch);
  (bs "graph", fun ch _ => (32 <? ch) && (ch <? 127));
  (bs "lower", fun ch _ => between 97 ch 122);
  (bs "print", fun ch _ => (32 <=? ch) && (ch <? 127));
  (bs "punct", fun ch _ => isASCIIPunct ch);
  (bs "space", fun ch _ => (ch =? 32) || (ch =? 9) || (ch =? 10) || (ch =? 11) || (ch =? 12) || (ch =? 13));
  (bs "upper", fun ch flags => between 65 ch 90 || casefold flags && isASCIILower ch);
  (bs "xdigit", fun ch _ => isASCIIDigit ch || between 97 ch 102 || between 65 ch 70)
].

Definition class_named (name : bytes) : option (Z -> Z -> bool) :=
  snd <$> find (fun c => bool_decide (c.1 = name)) posixClasses.

Definition all_bytes : list Z := Z.of_nat <$> seq 0 256.

(** [buildPOSIXClassSets]: a class evaluated over every byte. *)
Definition class_set (p : Z -> Z -> bool) (flags : Z) : list Z :=
  foldl (fun a ch => if p ch flags then alter (fun w => Z.lor w (bit64 ch)) (word_of ch) a else a) [0; 0; 0; 0] all_bytes.

Definition posixClassSet (name : bytes) (flags : Z) : option (list Z) :=
  (fun p => class_set p (if casefold flags then wmCasefold else 0)) <$> class_named name.

(** ** Reading a bracket expression *)

(** Reads of the pattern that a comparison with its length guards. *)
Definition at_ (p : bytes) (i : Z) : option Z := if 0 <=? i then p !! Z.to_nat i else None.

(** The position of the first [']'] from [i] on, or the length of the pattern. *)
Definition close_from (p : bytes) (i : Z) : Z :=
  match cut_at 93 (drop (Z.to_nat i) p) with Some (a, _) => i + len a | None => len p end.

(** What is read of the bracket: the set, the position and byte of the member,
    and the last [']'] found. *)
Record member_state := { m_set : bracketSet; m_pi : Z; m_ch : Z; m_close : Z }.

(** One member: none when it is malformed. *)
Definition member (p : bytes) (flags : Z) (b : bracketSet) (pi pCh prevCh closeAt : Z) : outcome Empty_set (option member_state) :=
  let next := at_ p (pi + 1) in
  if pCh =? 92 then
    match next with
    | None => mret None
    | Some c => mret (Some {| m_set := add b c; m_pi := pi + 1; m_ch := c; m_close := closeAt |})
    end
  else if (pCh =? 45) && negb (prevCh =? 0) && match next with Some c => negb (c =? 93) | None => false end then
    let range pi c :=
      let b := addRange b prevCh c in
      let b := if casefold flags
               then foldl (fun b l => if (l - 32 <=? c) && (prevCh <=? l - 32) then add b l else b) b (Z.of_nat <$> seq 97 26)
               else b in
      mret (Some {| m_set := b; m_pi := pi; m_ch := 0; m_close := closeAt |}) in
    let c := default 0 next in
    if c =? 92 then match at_ p (pi + 2) with None => mret None | Some c => range (pi + 2) c end
    else range (pi + 1) c
  else if (pCh =? 91) && bool_decide (next = Some 58) then
    let s := pi + 2 in
    let closeAt := if closeAt <? s then close_from p s else closeAt in
    if closeAt >=? len p then mret None
    else
      let nameLen := closeAt - s - 1 in
      is_class ← (if nameLen <? 0 then mret false else c ← index p (closeAt - 1); mret (c =? 58));
      if negb is_class then mret (Some {| m_set := add b 91; m_pi := s - 2; m_ch := 91; m_close := closeAt |})
      else
        name ← slice p s (closeAt - 1);
        match posixClassSet name flags with
        | None => mret None
        | Some class => mret (Some {| m_set := set_accept (zip_with Z.lor (accept b) class) b; m_pi := closeAt; m_ch := 0; m_close := closeAt |})
        end
  else mret (Some {| m_set := add b pCh; m_pi := pi; m_ch := pCh; m_close := closeAt |}).

Definition negate (b : bracketSet) : bracketSet := set_accept ((fun w => Z.lxor w ones64) <$> accept b) b.

Definition finish (flags : Z) (negated : bool) (b : bracketSet) (pi : Z) : bracketSet :=
  let b := set_end pi b in
  let b := if negated then negate b else b in
  if pathname flags then set_accept (alter (fun w => Z.land w (Z.lxor (bit64 47) ones64)) (word_of 47) (accept b)) b else b.

(** The fuel is the length of the pattern: a member is not empty. *)
Fixpoint readBracket_loop (fuel : nat) (p : bytes) (flags : Z) (negated : bool) (b : bracketSet) (pi pCh prevCh closeAt : Z) : outcome Empty_set bracketSet :=
  match fuel with
  | O => NoFuel
  | S f =>
      m ← member p flags b pi pCh prevCh closeAt;
      match m with
      | None => mret (set_abort b)
      | Some m =>
          let pi := m_pi m + 1 in
          match at_ p pi with
          | None => mret (set_abort (m_set m))
          | Some c =>
              if c =? 93 then mret (finish flags negated (m_set m) pi)
              else readBracket_loop f p flags negated (m_set m) pi c (m_ch m) (m_close m)
          end
      end
  end.

Definition readBracket (p : bytes) (start flags : Z) : outcome Empty_set bracketSet :=
  let pi := start + 1 in
  match at_ p pi with
  | None => mret (set_abort zero_set)
  | Some c =>
      let c := if c =? 94 then 33 else c in
      let fuel := S (length p) in
      if c =? 33 then
        match at_ p (pi + 1) with
        | None => mret (set_abort zero_set)
        | Some c => readBracket_loop fuel p flags true zero_set (pi + 1) c 0 (-1)
        end
      else readBracket_loop fuel p flags false zero_set pi c 0 (-1)
  end.

(** ** The cache of brackets *)

Definition inlineBrackets : Z := 4.

(** The first [n] slots are in use; the map takes the brackets after the fourth. *)
Record bracketCache := { offsets : list Z; sets : list bracketSet; cache_n : nat; overflow : gmap Z bracketSet }.

Definition new_cache : bracketCache :=
  {| offsets := [0; 0; 0; 0]; sets := [zero_set; zero_set; zero_set; zero_set]; cache_n := 0; overflow := ∅ |}.

Definition reset (c : bracketCache) : bracketCache := {| offsets := offsets c; sets := sets c; cache_n := 0; overflow := ∅ |}.

(** The first of the [n] slots in use with the offset. *)
Definition find_slot (c : bracketCache) (start : Z) : option nat :=
  find (fun i => bool_decide (offsets c !! i = Some start)) (seq 0 (cache_n c)).

Definition get (c : bracketCache) (p : bytes) (start flags : Z) : outcome Empty_set (bracketSet * bracketCache) :=
  match find_slot c start with
  | Some i => b ← index (sets c) (Z.of_nat i); mret (b, c)
  | None =>
      match overflow c !! start with
      | Some b => mret (b, c)
      | None =>
          b ← readBracket p start flags;
          if Z.of_nat (cache_n c) <? inlineBrackets then
            mret (b, {| offsets := <[cache_n c := start]> (offsets c); sets := <[cache_n c := b]> (sets c); cache_n := S (cache_n c); overflow := overflow c |})
          else mret (b, {| offsets := offsets c; sets := sets c; cache_n := cache_n c; overflow := <[start := b]> (overflow c) |})
      end
  end.

(** ** The matcher of a component *)

Definition isGlobSpecial (c : Z) : bool := (c =? 42) || (c =? 63) || (c =? 91) || (c =? 92).

Definition fold_case (flags c : Z) : Z := if casefold flags && isASCIIUpper c then c + 32 else c.

(** How many stars the text starts with. *)
Fixpoint count_stars (p : bytes) : Z := match p with c :: p => if c =? 42 then 1 + count_stars p else 0 | [] => 0 end.

(** The search for the literal after a star: how far it goes, and the last
    byte looked at. *)
Fixpoint scan_lit (flags : Z) (matchSlash : bool) (pCh tCh : Z) (l : bytes) : Z * Z :=
  match l with
  | [] => (0, tCh)
  | c :: l =>
      if negb matchSlash && (c =? 47) then (0, c)
      else
        let c := fold_case flags c in
        if c =? pCh then (0, c) else let '(n, t) := scan_lit flags matchSlash pCh c l in (1 + n, t)
  end.

(** [dowild] from the positions [pi] and [ti], and its loop after a star.  The
    fuel bounds the depth: [wild_fuel] is enough. *)
Fixpoint dowild_loop (fuel : nat) (p : bytes) (pStart : Z) (text : bytes) (flags pi ti : Z) (c : bracketCache) : outcome Empty_set (Z * bracketCache) :=
  match fuel with
  | O => NoFuel
  | S f =>
      match at_ p pi with
      | None => mret (if ti <? len text then wmNoMatch else wmMatch, c)
      | Some pCh =>
          let atEndOfText := ti >=? len text in
          if atEndOfText && negb (pCh =? 42) then mret (wmAbortAll, c)
          else
            let tCh := fold_case flags (default 0 (at_ text ti)) in
            let pCh := fold_case flags pCh in
            let next := dowild_loop f p pStart text flags in
            if pCh =? 92 then
              match at_ p (pi + 1) with
              | None => mret (wmNoMatch, c)
              | Some pCh => if negb (tCh =? pCh) then mret (wmNoMatch, c) else next (pi + 2) (ti + 1) c
              end
            else if pCh =? 63 then
              if pathname flags && (tCh =? 47) then mret (wmNoMatch, c) else next (pi + 1) (ti + 1) c
            else if pCh =? 42 then
              let pi := pi + 1 in
              '(ret, pi, matchSlash, c) ←
                (if bool_decide (at_ p pi = Some 42) then
                   let prevPi := pi in
                   let pi := pi + count_stars (drop (Z.to_nat pi) p) in
                   if negb (pathname flags) then mret (None, pi, true, c)
                   else
                     before ← (if prevPi - 2 <? pStart then mret true else x ← index p (prevPi - 2); mret (x =? 47));
                     let after := match at_ p pi with
                                  | None => true
                                  | Some x => (x =? 47) || (x =? 92) && bool_decide (at_ p (pi + 1) = Some 47)
                                  end in
                     if before && after then
                       if bool_decide (at_ p pi = Some 47) then
                         sub ← slice text ti (len text);
                         '(r, c) ← dowild_loop f p (pi + 1) sub flags (pi + 1) 0 c;
                         mret (if r =? wmMatch then Some wmMatch else None, pi, true, c)
                       else mret (None, pi, true, c)
                     else mret (None, pi, false, c)
                 else mret (None, pi, negb (pathname flags), c));
              match ret with
              | Some r => mret (r, c)
              | None =>
                  rest ← slice text ti (len text);
                  match at_ p pi with
                  | None => mret (if negb matchSlash && ContainsByte rest 47 then wmAbortToStarStar else wmMatch, c)
                  | Some x =>
                      if negb matchSlash && (x =? 47) then
                        let slash := Index rest 47 in
                        if slash <? 0 then mret (wmAbortAll, c) else next (pi + 1) (ti + slash + 1) c
                      else star_loop f p text flags matchSlash pi ti c
                  end
              end
            else if pCh =? 91 then
              '(b, c) ← get c p pi flags;
              if abort b then mret (wmAbortAll, c)
              else if negb (has b tCh) then mret (wmNoMatch, c)
              else next (b_end b + 1) (ti + 1) c
            else if negb (tCh =? pCh) then mret (wmNoMatch, c)
            else next (pi + 1) (ti + 1) c
      end
  end
with star_loop (fuel : nat) (p : bytes) (text : bytes) (flags : Z) (matchSlash : bool) (pi ti : Z) (c : bracketCache) : outcome Empty_set (Z * bracketCache) :=
  match fuel with
  | O => NoFuel
  | S f =>
      match at_ text ti with
      | None => mret (wmAbortAll, c)
      | Some tCh =>
          x ← index p pi;
          let pCh := fold_case flags x in
          let '(n, tCh) := if isGlobSpecial x then (0, tCh) else scan_lit flags matchSlash pCh tCh (drop (Z.to_nat ti) text) in
          let ti := ti + n in
          if negb (isGlobSpecial x) && ((ti >=? len text) || negb (tCh =? pCh)) then
            mret (if matchSlash then wmAbortAll else wmAbortToStarStar, c)
          else
            sub ← slice text ti (len text);
            '(matched, c) ← dowild_loop f p pi sub flags pi 0 c;
            if negb (matched =? wmNoMatch) && (negb matchSlash || negb (matched =? wmAbortToStarStar)) then mret (matched, c)
            else if (matched =? wmNoMatch) && negb matchSlash && (tCh =? 47) then mret (wmAbortToStarStar, c)
            else star_loop f p text flags matchSlash pi (ti + 1) c
      end
  end.

Definition wild_fuel (p text : bytes) : nat := S (S (length p) * (length text + 3)).

Definition dowild (p : bytes) (pStart : Z) (text : bytes) (flags : Z) (c : bracketCache) : outcome Empty_set (Z * bracketCache) :=
  dowild_loop (wild_fuel p text) p pStart text flags pStart 0 c.

Definition wildmatch (pattern text : bytes) (c : bracketCache) : outcome Empty_set (bool * bracketCache) :=
  '(r, c) ← dowild pattern 0 text 0 c; mret (r =? wmMatch, c).

(** ** Patterns over paths *)

Inductive MatchResult := NoMatch | Exclude | Include.

#[export] Instance MatchResult_eq_dec : EqDecision MatchResult.
Proof. solve_decision. Defined.

Definition inclusionPrefix : bytes := bs "!".
Definition zeroToManyDirs : bytes := bs "**".
Definition patternDirSep : Z := 47.

Record pattern := { domain : list bytes; segments : list bytes; inclusion : bool; dirOnly : bool; isGlob : bool }.

(** Segments of three or more stars; the last one of a directory-only pattern is kept. *)
Fixpoint read_stars (dirOnly : bool) (segs : list bytes) : list bytes :=
  match segs with
  | [] => []
  | seg :: rest =>
      if dirOnly && bool_decide (rest = []) then [seg]
      else (if (len seg >? len zeroToManyDirs) && bool_decide (Trim seg 42 = []) then zeroToManyDirs else seg) :: read_stars dirOnly rest
  end.

Definition ParsePattern (p : bytes) (dom : list bytes) : pattern :=
  let inclusion := HasPrefix p inclusionPrefix in
  let p := if inclusion then drop 1 p else p in
  let p := if negb (HasSuffix p (bs "\ ")) then TrimRight p 32 else p in
  let dirOnly := HasSuffix p [patternDirSep] in
  let p := if dirOnly then take (length p - 1) p else p in
  {| domain := dom; segments := read_stars dirOnly (Split p patternDirSep); inclusion := inclusion; dirOnly := dirOnly;
     isGlob := ContainsByte p patternDirSep |}.

Fixpoint simple_loop (p : pattern) (seg : bytes) (path : list bytes) (isDir : bool) (c : bracketCache) : outcome Empty_set bool :=
  match path with
  | [] => mret false
  | name :: rest =>
      '(m, c) ← wildmatch seg name c;
      if negb m then simple_loop p seg rest isDir c
      else mret (negb (dirOnly p && negb isDir && bool_decide (rest = [])))
  end.

Definition simpleNameMatch (p : pattern) (path : list bytes) (isDir : bool) : outcome Empty_set bool :=
  seg ← index (segments p) 0; simple_loop p seg path isDir new_cache.

(** The components are consumed until one matches: none when they run out. *)
Fixpoint traverse (seg : bytes) (path : list bytes) (c : bracketCache) : outcome Empty_set (option (list bytes) * bracketCache) :=
  match path with
  | [] => mret (None, c)
  | e :: path => '(m, c) ← wildmatch seg e c; if m : bool then mret (Some path, c) else traverse seg path c
  end.

(** The loop over the segments, of which [i] are done. *)
Fixpoint glob_loop (dirOnly isDir : bool) (i : nat) (segs path : list bytes) (matched canTraverse : bool) (c : bracketCache) : outcome Empty_set bool :=
  let finish matched trailingStar := mret (matched && negb (dirOnly && negb isDir && (bool_decide (path = []) || trailingStar))) in
  match segs with
  | [] => finish matched false
  | seg :: rest =>
      if bool_decide (seg = []) then
        if decide (0 < i)%nat then mret false else glob_loop dirOnly isDir (S i) rest path matched false c
      else if bool_decide (seg = zeroToManyDirs) then
        if bool_decide (rest = []) then
          let matched := negb (bool_decide (path = [])) || isDir in finish matched matched
        else glob_loop dirOnly isDir (S i) rest path matched true c
      else
        match path with
        | [] => mret false
        | e :: path' =>
            let c := reset c in
            if canTraverse then
              '(r, c) ← traverse seg path c;
              match r with
              | Some path => glob_loop dirOnly isDir (S i) rest path true false c
              | None => mret false
              end
            else
              '(m, c) ← wildmatch seg e c;
              if negb m then mret false
              else glob_loop dirOnly isDir (S i) rest path' (negb (bool_decide (path' = []) && negb (bool_decide (rest = [])))) false c
        end
  end.

Definition globMatch (p : pattern) (path : list bytes) (isDir : bool) : outcome Empty_set bool :=
  glob_loop (dirOnly p) isDir 0 (segments p) path false false new_cache.

(** The path below the domain. *)
Fixpoint below (dom path : list bytes) : option (list bytes) :=
  match dom, path with
  | [], _ => Some path
  | d :: dom, x :: path => if bool_decide (x = d) then below dom path else None
  | _ :: _, [] => None
  end.

Definition Match (p : pattern) (path : list bytes) (isDir : bool) : outcome Empty_set MatchResult :=
  if len path <=? len (domain p) then mret NoMatch
  else match below (domain p) path with
  | None => mret NoMatch
  | Some path =>
      m ← (if isGlob p then globMatch p path isDir else simpleNameMatch p path isDir);
      mret (if negb m then NoMatch else if inclusion p then Include else Exclude)
  end.

(** ** Several patterns *)

(** [matcher.Match]: the last pattern that decides. *)
Fixpoint matcher_loop (ps : list pattern) (path : list bytes) (isDir : bool) : outcome Empty_set bool :=
  match ps with
  | [] => mret false
  | p :: ps =>
      m ← Match p path isDir;
      match m with NoMatch => matcher_loop ps path isDir | Exclude => mret true | Include => mret false end
  end.

Definition matcher_Match (ps : list pattern) (path : list bytes) (isDir : bool) : outcome Empty_set bool := matcher_loop (reverse ps) path isDir.

(** [matcher] is built from the patterns; the zero scope has none. *)
Record Scope := { patterns : list pattern; excluded : bool }.

Definition NewScope (base : list pattern) : Scope := {| patterns := base; excluded := false |}.

Definition scope_Match (s : Scope) (path : list bytes) (isDir : bool) : outcome Empty_set bool :=
  if excluded s then mret true else matcher_Match (patterns s) path isDir.

(** [readOwn] is what reading the directory's ignore file gives, when there is one. *)
Definition Descend {E} (s : Scope) (dir : list bytes) (readOwn : option (outcome E (list pattern))) : outcome E Scope :=
  match scope_Match s dir true with
  | Ok true => mret {| patterns := patterns s; excluded := true |}
  | Ok false =>
      match readOwn with
      | None => mret s
      | Some read =>
          own ← read;
          if bool_decide (own = []) then mret s else mret {| patterns := patterns s ++ own; excluded := false |}
      end
  | Err e => match e with end
  | Panic => Panic
  | NoFuel => NoFuel
  end.

(** ** Sets of bits are sets of bytes *)

#[local] Ltac Zify.zify_post_hook ::= Z.to_euclidean_division_equations.

Lemma land_63 x : Z.land x 63 = x mod 64.
Proof. change 63 with (2 ^ 6 - 1). by rewrite land_low_mask. Qed.

Lemma word_of_div x : word_of x = Z.to_nat (x / 64).
Proof. unfold word_of. by rewrite Z.shiftr_div_pow2. Qed.

Lemma bit64_pow x : bit64 x = 2 ^ (x mod 64).
Proof.
  unfold bit64. rewrite land_63, Z.shiftl_mul_pow2, Z.mul_1_l by lia. apply wrap_small. split; [lia|]. apply Z.pow_lt_mono_r; lia.
Qed.

Definition in_words (a : list Z) (x : Z) : bool := Z.testbit (default 0 (a !! word_of x)) (x mod 64).

Lemma has_words b x : has b x = in_words (accept b) x.
Proof. unfold has, in_words. rewrite bit64_pow, land_pow2_testbit, negb_involutive by lia. done. Qed.

Lemma word_bound x : is_byte x -> (word_of x < 4)%nat.
Proof. unfold is_byte. rewrite word_of_div. lia. Qed.

Lemma same_word x y : is_byte x -> is_byte y -> word_of x = word_of y -> x mod 64 = y mod 64 -> x = y.
Proof. unfold is_byte. rewrite !word_of_div. intros. lia. Qed.

(** One word changed by adding bits to it. *)
Lemma in_words_alter a i m x : length a = 4%nat -> is_byte x ->
  in_words (alter (fun w => Z.lor w m) i a) x = in_words a x || bool_decide (i = word_of x) && Z.testbit m (x mod 64).
Proof.
  intros Ha Hx. unfold in_words. case_bool_decide as Hi.
  - subst i. rewrite list_lookup_alter_eq. destruct (lookup_lt_is_Some_2 a (word_of x)) as [w ->]; [rewrite Ha; by apply word_bound|]. cbn. apply Z.lor_spec.
  - rewrite list_lookup_alter_ne, orb_false_r by done. done.
Qed.

Lemma in_words_add a ch x : length a = 4%nat -> is_byte ch -> is_byte x ->
  in_words (alter (fun w => Z.lor w (bit64 ch)) (word_of ch) a) x = in_words a x || (x =? ch).
Proof.
  intros Ha Hc Hx. rewrite in_words_alter by done. f_equal. rewrite bit64_pow. destruct (Z.eqb_spec x ch) as [->|Hne].
  - rewrite bool_decide_eq_true_2 by done. apply Z.pow2_bits_true. lia.
  - case_bool_decide as Hw; [|done]. apply Z.pow2_bits_false. intros Hm. apply Hne. symmetry. by apply same_word.
Qed.

Definition wf (b : bracketSet) : Prop := length (accept b) = 4%nat.

Lemma has_add b ch x : wf b -> is_byte ch -> is_byte x -> has (add b ch) x = has b x || (x =? ch).
Proof. intros. rewrite !has_words. by apply in_words_add. Qed.

Lemma wf_add b ch : wf b -> wf (add b ch).
Proof. unfold wf. cbn. by rewrite length_alter. Qed.

(** The masks of a range. *)
Lemma ones64_testbit k : 0 <= k < 64 -> Z.testbit ones64 k = true.
Proof. intros. change ones64 with (Z.ones 64). by apply Z.ones_spec_low. Qed.

Lemma in_words_fold m ws : forall a x, length a = 4%nat -> is_byte x ->
  in_words (foldl (fun a i => alter (fun w => Z.lor w (m i)) i a) a ws) x = in_words a x || bool_decide (word_of x ∈ ws) && Z.testbit (m (word_of x)) (x mod 64).
Proof.
  induction ws as [|i ws IH]; intros a x Ha Hx; cbn [foldl].
  - rewrite bool_decide_eq_false_2 by apply not_elem_of_nil. by rewrite orb_false_r.
  - rewrite IH, in_words_alter by (rewrite ?length_alter; done). rewrite <-orb_assoc. f_equal.
    destruct (decide (word_of x = i)) as [<-|Hne].
    + rewrite (bool_decide_eq_true_2 (word_of x = word_of x)) by done. rewrite (bool_decide_eq_true_2 (word_of x ∈ _ :: _)) by set_solver. cbn [andb].
      destruct (Z.testbit _ _); [done|]. by rewrite andb_false_r.
    + rewrite (bool_decide_eq_false_2 (i = word_of x)) by done. cbn [andb orb]. f_equal. apply bool_decide_ext. set_solver.
Qed.

Lemma range_mask_spec lo hi x : is_byte lo -> is_byte hi -> is_byte x ->
  Z.testbit (range_mask lo hi (word_of x)) (x mod 64)
  = (if decide (word_of x = word_of lo) then lo mod 64 <=? x mod 64 else true) && (if decide (word_of x = word_of hi) then x mod 64 <=? hi mod 64 else true).
Proof.
  intros Hl Hh Hx. unfold range_mask. rewrite !land_63. assert (0 <= x mod 64 < 64) as Hb by (apply Z.mod_pos_bound; lia).
  assert (forall k, 0 <= k < 64 -> Z.testbit (u64 (Z.shiftl ones64 k)) (x mod 64) = (k <=? x mod 64)) as Hs.
  { intros k Hk. unfold wrap. rewrite Z.mod_pow2_bits_low by lia. rewrite Z.shiftl_spec by lia. destruct (Z.leb_spec k (x mod 64)).
    - apply ones64_testbit. lia.
    - apply Z.testbit_neg_r. lia. }
  assert (forall k, 0 <= k < 64 -> Z.testbit (Z.shiftr ones64 (63 - k)) (x mod 64) = (x mod 64 <=? k)) as Hr.
  { intros k Hk. rewrite Z.shiftr_spec by lia. destruct (Z.leb_spec (x mod 64) k); [apply ones64_testbit; lia|].
    change ones64 with (Z.ones 64). apply Z.ones_spec_high. lia. }
  assert (0 <= lo mod 64 < 64) by (apply Z.mod_pos_bound; lia). assert (0 <= hi mod 64 < 64) by (apply Z.mod_pos_bound; lia).
  repeat case_decide; rewrite ?Z.land_spec, ?Hs, ?Hr, ?ones64_testbit by lia; rewrite ?andb_true_r; done.
Qed.

Lemma has_addRange b lo hi x : wf b -> is_byte lo -> is_byte hi -> is_byte x ->
  has (addRange b lo hi) x = has b x || between lo x hi.
Proof.
  intros Hb Hl Hh Hx. rewrite !has_words. unfold addRange, between. rewrite Z.gtb_ltb. destruct (Z.ltb_spec hi lo) as [Hlt|Hle].
  { destruct (Z.leb_spec lo x), (Z.leb_spec x hi); rewrite ?orb_false_r; try done. lia. }
  cbn [set_accept accept]. rewrite in_words_fold by done. f_equal. rewrite range_mask_spec by done.
  unfold is_byte in *. destruct (bool_decide (word_of x ∈ seq _ _)) eqn:Hin; cbn [andb].
  - apply bool_decide_eq_true, elem_of_seq in Hin. rewrite !word_of_div in *.
    repeat case_decide; destruct (Z.leb_spec lo x), (Z.leb_spec x hi); cbn [andb]; rewrite ?andb_true_r, ?andb_false_r;
      try apply andb_true_iff; try split; try apply Z.leb_le; try apply Z.leb_gt; try lia; try apply andb_false_iff; rewrite ?Z.leb_gt; lia.
  - apply bool_decide_eq_false in Hin. rewrite elem_of_seq, !word_of_div in Hin. destruct (Z.leb_spec lo x), (Z.leb_spec x hi); try done. exfalso. apply Hin. lia.
Qed.

Lemma wf_addRange b lo hi : wf b -> wf (addRange b lo hi).
Proof.
  unfold wf, addRange. intros Hb. destruct (lo >? hi); [done|]. cbn [set_accept accept]. generalize (seq (word_of lo) (S (word_of hi - word_of lo))) as ws. revert Hb. generalize (accept b) as a.
  intros a Ha ws. revert a Ha. induction ws as [|i ws IH]; intros a Ha; [done|]. apply IH. by rewrite length_alter.
Qed.

(** A class is the set of the bytes that satisfy its predicate. *)
Lemma class_fold (p : Z -> Z -> bool) flags l : Forall is_byte l -> forall a x, length a = 4%nat -> is_byte x ->
  let a' := foldl (fun (a : list Z) ch => if p ch flags then alter (fun w => Z.lor w (bit64 ch)) (word_of ch) a else a) a l in
  length a' = 4%nat /\ in_words a' x = in_words a x || bool_decide (x ∈ l) && p x flags.
Proof.
  induction 1 as [|ch l Hch Hl IH]; intros a x Ha Hx; cbn [foldl].
  - split; [done|]. rewrite bool_decide_eq_false_2 by apply not_elem_of_nil. by rewrite orb_false_r.
  - destruct (IH (if p ch flags then alter (fun w => Z.lor w (bit64 ch)) (word_of ch) a else a) x) as [Hl' ->]; [by destruct (p ch flags); rewrite ?length_alter|done|].
    split; [done|]. destruct (Z.eqb_spec x ch) as [->|Hne].
    + rewrite (bool_decide_eq_true_2 (ch ∈ ch :: l)) by set_solver. destruct (p ch flags); cbn [andb].
      * rewrite in_words_add, Z.eqb_refl by done. by rewrite !orb_true_r.
      * by rewrite andb_false_r.
    + assert (bool_decide (x ∈ ch :: l) = bool_decide (x ∈ l)) as -> by (apply bool_decide_ext; set_solver).
      destruct (p ch flags); [|done]. rewrite in_words_add by done. ztest (x =? ch) false. by rewrite orb_false_r.
Qed.

Lemma class_set_spec (p : Z -> Z -> bool) flags x : is_byte x -> in_words (class_set p flags) x = p x flags.
Proof.
  intros Hx. destruct (class_fold p flags all_bytes) with (a := [0; 0; 0; 0]) (x := x) as [_ He]; [|done|done|].
  { apply Forall_forall. unfold all_bytes, is_byte. intros y (n & -> & Hn%elem_of_seq)%list_elem_of_fmap. lia. }
  unfold class_set. rewrite He. assert (in_words [0; 0; 0; 0] x = false) as ->.
  { unfold in_words. pose proof (word_bound x Hx). destruct (word_of x) as [|[|[|[|]]]]; [..|lia]; apply Z.testbit_0_l. }
  rewrite bool_decide_eq_true_2; [done|]. unfold all_bytes, is_byte in *. apply list_elem_of_fmap. exists (Z.to_nat x). split; [lia|]. apply elem_of_seq. lia.
Qed.

Lemma class_set_length p flags : length (class_set p flags) = 4%nat.
Proof.
  destruct (class_fold p flags all_bytes) with (a := [0; 0; 0; 0]) (x := 0) as [Hl _]; [|done|done|done].
  apply Forall_forall. unfold all_bytes, is_byte. intros y (n & -> & Hn%elem_of_seq)%list_elem_of_fmap. lia.
Qed.

Lemma in_words_zip a c x : length a = 4%nat -> length c = 4%nat -> is_byte x -> in_words (zip_with Z.lor a c) x = in_words a x || in_words c x.
Proof.
  intros Ha Hc Hx. unfold in_words. pose proof (word_bound x Hx). rewrite lookup_zip_with.
  destruct (lookup_lt_is_Some_2 a (word_of x)) as [w ->]; [lia|]. destruct (lookup_lt_is_Some_2 c (word_of x)) as [v ->]; [lia|]. cbn. apply Z.lor_spec.
Qed.

Lemma has_negate b x : wf b -> is_byte x -> has (negate b) x = negb (has b x).
Proof.
  intros Hb Hx. rewrite !has_words. unfold in_words, negate. cbn [set_accept accept]. rewrite list_lookup_fmap.
  destruct (lookup_lt_is_Some_2 (accept b) (word_of x)) as [w ->]; [unfold wf in Hb; pose proof (word_bound x Hx); lia|]. cbn.
  rewrite Z.lxor_spec, ones64_testbit by (apply Z.mod_pos_bound; lia). apply xorb_true_r.
Qed.

(** ** Bracket expressions, byte by byte

    The reading of a bracket that does not build a set but compares each member
    with one byte, as git's wildmatch.c does: what the sets are compared with. *)

(** Whether the first member of [q] matches [x], the member as the start of a
    range, and the rest; [prev] is the member before, 0 when it cannot start a range. *)
Definition member_ref (x prev : Z) (q : bytes) : option (bool * Z * bytes) :=
  match q with
  | [] => None
  | c :: q' =>
      if c =? 92 then match q' with [] => None | e :: r => Some (x =? e, e, r) end
      else if (c =? 45) && negb (prev =? 0) && match q' with h :: _ => negb (h =? 93) | [] => false end then
        match q' with
        | [] => None
        | h :: r => if h =? 92 then match r with [] => None | e :: r => Some (between prev x e, 0, r) end else Some (between prev x h, 0, r)
        end
      else if (c =? 91) && bool_decide (head q' = Some 58) then
        match cut_at 93 (tail q') with
        | None => None
        | Some (a, r) =>
            if bool_decide (last a = Some 58) then (fun p => (p x 0, 0, r)) <$> class_named (removelast a)
            else Some (x =? 91, 91, q')
        end
      else Some (x =? c, c, q')
  end.

(** The members up to the closing bracket, and what follows it. *)
Fixpoint members (n : nat) (x prev : Z) (acc : bool) (q : bytes) : option (bool * bytes) :=
  match n with
  | O => None
  | S n =>
      '(m, prev, r) ← member_ref x prev q;
      match r with
      | [] => None
      | c :: r' => if c =? 93 then Some (acc || m, r') else members n x prev (acc || m) r
      end
  end.

(** Whether the bracket after its ['['] accepts [x], and what follows it. *)
Definition bracket (x : Z) (q : bytes) : option (bool * bytes) :=
  match q with
  | [] => None
  | c :: q' =>
      if (c =? 33) || (c =? 94) then (fun '(m, r) => (negb m, r)) <$> members (length q') x 0 false q'
      else members (length q) x 0 false q
  end.

(** ** The sets agree with it *)

Ltac step := cbn [mbind outcome_bind mret outcome_ret].

Definition suf (p : bytes) (i : Z) : bytes := drop (Z.to_nat i) p.

Lemma at_Some p i c : at_ p i = Some c -> 0 <= i < len p /\ suf p i = c :: suf p (i + 1).
Proof.
  unfold at_. destruct (Z.leb_spec 0 i); [|done]. intros Hc. pose proof (lookup_lt_Some _ _ _ Hc) as Hl. split; [unfold len; lia|].
  unfold suf. rewrite (drop_S p c (Z.to_nat i)) by done. do 2 f_equal. lia.
Qed.

Lemma at_None p i : 0 <= i -> at_ p i = None -> len p <= i /\ suf p i = [].
Proof.
  unfold at_. intros Hi. ztest (0 <=? i) true. intros Hn%lookup_ge_None. split; [unfold len; lia|]. unfold suf. by apply drop_ge.
Qed.

Lemma at_suf p i : 0 <= i -> at_ p i = head (suf p i).
Proof.
  intros Hi. destruct (at_ p i) eqn:Ha; [by apply at_Some in Ha as [_ ->]|by apply at_None in Ha as [_ ->]].
Qed.

Lemma suf_app (p : bytes) i a r : 0 <= i -> suf p i = a ++ r -> suf p (i + len a) = r.
Proof.
  unfold suf. intros Hi Ha. replace (Z.to_nat (i + len a)) with (Z.to_nat i + length a)%nat by (unfold len; lia).
  rewrite <-drop_drop, Ha. by rewrite drop_app_length.
Qed.

(** The memory of the last closing bracket found. *)
Definition close_ok (p : bytes) (c i : Z) : Prop := c < len p /\ forall s, i <= s <= c -> close_from p s = c.

Lemma close_from_spec p s : 0 <= s <= len p ->
  match cut_at 93 (suf p s) with
  | Some (a, r) => close_from p s = s + len a /\ suf p s = a ++ 93 :: r /\ close_ok p (s + len a) s
  | None => close_from p s = len p
  end.
Proof.
  intros Hs. unfold close_from. fold (suf p s). destruct (cut_at 93 (suf p s)) as [[a r]|] eqn:Hc; [|done]. apply cut_at_Some in Hc as [He Ha]. split; [done|]. split; [done|].
  assert (len (suf p s) = len p - s) as Hl by (unfold len, suf; rewrite length_drop; unfold len in *; lia). rewrite He, len_app, len_cons in Hl. pose proof (len_nonneg r).
  split; [lia|]. intros t Ht. assert (suf p t = drop (Z.to_nat (t - s)) a ++ 93 :: r) as Hd.
  { unfold suf in *. replace (Z.to_nat t) with (Z.to_nat s + Z.to_nat (t - s))%nat by lia. rewrite <-drop_drop, He. rewrite drop_app_le; [done|unfold len in *; lia]. }
  unfold close_from. fold (suf p t). rewrite Hd, cut_at_app by (intros Hin; apply Ha; rewrite <-(take_drop (Z.to_nat (t - s)) a); apply elem_of_app; by right).
  unfold len in *. rewrite length_drop. lia.
Qed.

Lemma close_ok_mono p c i j : i <= j -> close_ok p c i -> close_ok p c j.
Proof. intros Hij [Hl Hc]. split; [done|]. intros s Hs. apply Hc. lia. Qed.

Definition member_ok (p : bytes) (b : bracketSet) (prev pi : Z) (q : bytes) (r : outcome Empty_set (option member_state)) : Prop :=
  match r with
  | Ok None => forall x, member_ref x prev q = None
  | Ok (Some m) =>
      wf (m_set m) /\ abort (m_set m) = abort b /\ pi <= m_pi m < len p /\ is_byte (m_ch m) /\ close_ok p (m_close m) (m_pi m + 2)
      /\ forall x, is_byte x -> exists mt, member_ref x prev q = Some (mt, m_ch m, suf p (m_pi m + 1)) /\ has (m_set m) x = has b x || mt
  | _ => False
  end.

Lemma at_byte p i c : bytes_ok p -> at_ p i = Some c -> is_byte c.
Proof. unfold at_. intros Hp. destruct (0 <=? i); [|done]. intros Hc. by eapply Forall_lookup_1. Qed.

#[local] Arguments class_named : simpl never.
#[local] Arguments posixClassSet : simpl never.

(** A member that is one literal byte. *)
Lemma lit_ok p b prev pi c closeAt q j r : wf b -> is_byte c -> pi <= j < len p -> close_ok p closeAt (pi + 2) -> r = suf p (j + 1) ->
  (forall x, member_ref x prev q = Some (x =? c, c, r)) ->
  member_ok p b prev pi q (Ok (Some {| m_set := add b c; m_pi := j; m_ch := c; m_close := closeAt |})).
Proof.
  intros Hb Hc Hj Hcl -> Hr. cbn [member_ok m_set m_pi m_ch m_close]. split; [by apply wf_add|]. split; [done|]. split; [lia|]. split; [done|].
  split; [by eapply close_ok_mono; [|done]; lia|]. intros x Hx. exists (x =? c). split; [apply Hr|by apply has_add].
Qed.

Lemma range_ok p b prev pi c closeAt q j r : wf b -> is_byte prev -> is_byte c -> pi <= j < len p -> close_ok p closeAt (pi + 2) -> r = suf p (j + 1) ->
  (forall x, member_ref x prev q = Some (between prev x c, 0, r)) ->
  member_ok p b prev pi q (Ok (Some {| m_set := addRange b prev c; m_pi := j; m_ch := 0; m_close := closeAt |})).
Proof.
  intros Hb Hp Hc Hj Hcl -> Hr. cbn [member_ok m_set m_pi m_ch m_close]. split; [by apply wf_addRange|]. split; [unfold addRange; by destruct (prev >? c)|]. split; [lia|]. split; [done|].
  split; [by eapply close_ok_mono; [|done]; lia|]. intros x Hx. exists (between prev x c). split; [apply Hr|by apply has_addRange].
Qed.

Lemma class_ok p b prev pi f closeAt q r : wf b -> pi <= closeAt < len p -> close_ok p closeAt (pi + 2) -> r = suf p (closeAt + 1) ->
  (forall x, member_ref x prev q = Some (f x 0, 0, r)) ->
  member_ok p b prev pi q (Ok (Some {| m_set := set_accept (zip_with Z.lor (accept b) (class_set f 0)) b; m_pi := closeAt; m_ch := 0; m_close := closeAt |})).
Proof.
  intros Hb Hj Hcl -> Hr. cbn [member_ok m_set m_pi m_ch m_close]. assert (length (class_set f 0) = 4%nat) as Hl by apply class_set_length.
  split; [unfold wf in *; cbn [set_accept accept]; rewrite length_zip_with; lia|]. split; [done|]. split; [lia|]. split; [done|].
  split; [by eapply close_ok_mono; [|done]; lia|]. intros x Hx. exists (f x 0). split; [apply Hr|].
  rewrite !has_words. cbn [set_accept accept]. rewrite in_words_zip by done. by rewrite class_set_spec.
Qed.

(** A member that starts with ["[:"]. *)
Lemma class_member p b prev pi closeAt r : bytes_ok p -> wf b -> 0 <= pi < len p -> close_ok p closeAt (pi + 2) -> pi + 1 < len p -> r = suf p (pi + 2) -> suf p (pi + 1) = 58 :: r ->
  member_ok p b prev pi (91 :: 58 :: r)
    (let s := pi + 2 in
     let closeAt := if closeAt <? s then close_from p s else closeAt in
     if closeAt >=? len p then mret None
     else
       is_class ← (if closeAt - s - 1 <? 0 then mret false else c ← index p (closeAt - 1); mret (c =? 58));
       if negb is_class then mret (Some {| m_set := add b 91; m_pi := s - 2; m_ch := 91; m_close := closeAt |})
       else
         name ← slice p s (closeAt - 1);
         match posixClassSet name 0 with
         | None => mret None
         | Some class => mret (Some {| m_set := set_accept (zip_with Z.lor (accept b) class) b; m_pi := closeAt; m_ch := 0; m_close := closeAt |})
         end).
Proof.
  intros Hp Hb Hpi Hcl Hi Hr Hq. cbv zeta. set (s := pi + 2) in *.
  assert ((if closeAt <? s then close_from p s else closeAt) = close_from p s) as ->.
  { destruct (Z.ltb_spec closeAt s); [done|]. symmetry. apply Hcl. lia. }
  assert (forall x, member_ref x prev (91 :: 58 :: r) = match cut_at 93 r with
    | None => None
    | Some (a, r') => if bool_decide (last a = Some 58) then (fun p => (p x 0, 0, r')) <$> class_named (removelast a) else Some (x =? 91, 91, 58 :: r) end) as Href.
  { intros x. unfold member_ref. change (91 =? 92) with false. change (91 =? 45) with false. cbn [andb head tail]. by rewrite bool_decide_eq_true_2. }
  pose proof (close_from_spec p s ltac:(lia)) as Hspec. rewrite <-Hr in Hspec. rewrite Z.geb_leb. destruct (cut_at 93 r) as [[a r']|].
  - destruct Hspec as (-> & Hrr & Hok). assert (s + len a < len p) as Hlt by apply Hok. ztest (len p <=? s + len a) false.
    assert (suf p (s + len a) = 93 :: r') as Hsa by (apply (suf_app p s a); [lia|by rewrite <-Hr]).
    assert (r' = suf p (s + len a + 1)) as Hr'.
    { assert (at_ p (s + len a) = Some 93) as Ha by (rewrite at_suf, Hsa; [done|pose proof (len_nonneg a); lia]). apply at_Some in Ha as [_ Ha]. rewrite Hsa in Ha. by injection Ha. }
    assert (58 :: r = suf p (s - 2 + 1)) as Hlitr by (rewrite <-Hq; f_equal; lia).
    replace (s + len a - s - 1) with (len a - 1) by lia. destruct a as [|c a'] using rev_ind; [|clear IHa'].
    + change (len [] - 1 <? 0) with true. cbn match. step. cbn [negb]. apply (lit_ok _ _ _ _ 91 _ _ _ (58 :: r)); [done|done|lia| |exact Hlitr|exact Href].
      * change (len []) with 0 in *. eapply close_ok_mono; [|exact Hok]. lia.
    + pose proof (len_nonneg a'). rewrite len_app in *. change (len [c]) with 1 in *. ztest (len a' + 1 - 1 <? 0) false.
      assert (at_ p (s + (len a' + 1) - 1) = Some c) as Hc.
      { rewrite at_suf by lia. replace (s + (len a' + 1) - 1) with (s + len a') by lia. rewrite (suf_app p s a' (c :: 93 :: r')) by (lia || (rewrite <-Hr, Hrr, <-app_assoc; done)). done. }
      unfold at_ in Hc. destruct (Z.leb_spec 0 (s + (len a' + 1) - 1)); [|done].
      rewrite (index_Ok p (s + (len a' + 1) - 1) c) by done. step. rewrite last_snoc in Href. destruct (Z.eqb_spec c 58) as [->|Hne]; cbn [negb].
      * rewrite removelast_last in Href. rewrite slice_Ok by lia.
        assert (take (Z.to_nat (s + (len a' + 1) - 1 - s)) (drop (Z.to_nat s) p) = a') as ->.
        { fold (suf p s). rewrite <-Hr, Hrr, <-app_assoc. apply take_app_length'. unfold len. lia. }
        step. unfold posixClassSet. change (casefold 0) with false. cbn match. destruct (class_named a') as [f|]; cbn [fmap option_fmap option_map] in *; [|exact Href].
        eapply class_ok; [done|lia|eapply close_ok_mono; [|exact Hok]; lia|done|exact Href].
      * apply (lit_ok _ _ _ _ 91 _ _ _ (58 :: r)); [done|done|lia| |exact Hlitr|].
        -- eapply close_ok_mono; [|exact Hok]. lia.
        -- intros x. rewrite Href. rewrite bool_decide_eq_false_2; [done|]. congruence.
  - rewrite Hspec. ztest (len p <=? len p) true. exact Href.
Qed.

Lemma member_spec p b pi pCh prev closeAt : bytes_ok p -> wf b -> is_byte prev -> at_ p pi = Some pCh -> close_ok p closeAt (pi + 2) ->
  member_ok p b prev pi (suf p pi) (member p 0 b pi pCh prev closeAt).
Proof.
  intros Hp Hb Hprev Hat Hclose. pose proof (at_byte _ _ _ Hp Hat) as Hch. apply at_Some in Hat as [Hpi Hq]. rewrite Hq. unfold member.
  pose proof (at_suf p (pi + 1) ltac:(lia)) as Hnext. rewrite Hnext.
  assert (forall c r, suf p (pi + 1) = c :: r -> is_byte c /\ pi + 1 < len p /\ r = suf p (pi + 2)) as Hsuf.
  { intros c r Hr. rewrite Hr in Hnext. pose proof (at_byte _ _ _ Hp Hnext) as Hc. apply at_Some in Hnext as [Hi Hn]. rewrite Hr in Hn. injection Hn as ->. replace (pi + 1 + 1) with (pi + 2) by lia. split; [done|]. split; [lia|done]. }
  destruct (Z.eqb_spec pCh 92) as [->|Hne1].
  { destruct (suf p (pi + 1)) as [|c r] eqn:Hr; cbn [head]; [by intros x|]. destruct (Hsuf c r eq_refl) as (Hc & Hi & ->).
    eapply lit_ok; [done|done|lia|done| |intros x; reflexivity]. f_equal. lia. }
  assert (forall x, (pCh =? 45) && negb (prev =? 0) && match suf p (pi + 1) with h :: _ => negb (h =? 93) | [] => false end = false ->
    (pCh =? 91) && bool_decide (head (suf p (pi + 1)) = Some 58) = false -> member_ref x prev (pCh :: suf p (pi + 1)) = Some (x =? pCh, pCh, suf p (pi + 1))) as Hdefault.
  { intros x R1 R2. unfold member_ref. ztest (pCh =? 92) false. by rewrite R1, R2. }
  assert (match head (suf p (pi + 1)) with Some c => negb (c =? 93) | None => false end = match suf p (pi + 1) with h :: _ => negb (h =? 93) | [] => false end) as -> by (by destruct (suf p (pi + 1))).
  destruct ((pCh =? 45) && negb (prev =? 0) && match suf p (pi + 1) with h :: _ => negb (h =? 93) | [] => false end) eqn:Hrange.
  { assert (forall x, member_ref x prev (pCh :: suf p (pi + 1)) = match suf p (pi + 1) with
      | [] => None | h :: r => if h =? 92 then match r with [] => None | e :: r => Some (between prev x e, 0, r) end else Some (between prev x h, 0, r) end) as Href.
    { intros x. unfold member_ref. ztest (pCh =? 92) false. by rewrite Hrange. }
    destruct (suf p (pi + 1)) as [|h r] eqn:Hr; [by rewrite andb_false_r in Hrange|]. destruct (Hsuf h r eq_refl) as (Hh & Hi & Hr2). cbn [head from_option id]. change (casefold 0) with false. cbn match. cbv beta zeta.
    destruct (Z.eqb_spec h 92) as [->|Hne].
    - rewrite (at_suf p (pi + 2)), <-Hr2 by lia. destruct r as [|e r]; cbn [head]; [exact Href|].
      assert (at_ p (pi + 2) = Some e) as He by (rewrite at_suf, <-Hr2 by lia; done). pose proof (at_byte _ _ _ Hp He) as Heb. apply at_Some in He as [Hi2 He].
      rewrite <-Hr2 in He. injection He as ->. eapply range_ok; [done|done|done|lia|done|reflexivity|]. intros x. rewrite Href. change (92 =? 92) with true. done.
    - apply (range_ok _ _ _ _ h _ _ _ r); [done|done|done|lia|done| |].
      + rewrite Hr2. f_equal. lia.
      + intros x. rewrite Href. by ztest (h =? 92) false. }
  destruct ((pCh =? 91) && bool_decide (head (suf p (pi + 1)) = Some 58)) eqn:Hclass.
  { apply andb_true_iff in Hclass as [->%Z.eqb_eq Hc]. apply bool_decide_eq_true in Hc. destruct (suf p (pi + 1)) as [|h r] eqn:Hr; [done|]. injection Hc as ->.
    destruct (Hsuf 58 r eq_refl) as (_ & Hi & Hr2). by apply class_member. }
  eapply lit_ok; [done|done|lia|done|reflexivity|]. intros x. by apply Hdefault.
Qed.

(** The set read agrees with the reading byte by byte, its end included. *)
Definition set_ok (p : bytes) (negated : bool) (b r : bracketSet) (n : nat) (prev pi : Z) : Prop :=
  if abort r then forall x acc, is_byte x -> members n x prev acc (suf p pi) = None
  else pi < b_end r < len p /\ forall x, is_byte x -> exists m, (forall acc, members n x prev acc (suf p pi) = Some (acc || m, suf p (b_end r + 1)))
         /\ has r x = xorb negated (has b x || m).

Lemma readBracket_loop_spec p negated : bytes_ok p -> forall fuel n b pi pCh prev closeAt,
  wf b -> abort b = false -> is_byte prev -> at_ p pi = Some pCh -> close_ok p closeAt (pi + 2) -> len p - pi < Z.of_nat fuel -> len p - pi <= Z.of_nat n ->
  exists r, readBracket_loop fuel p 0 negated b pi pCh prev closeAt = Ok r /\ set_ok p negated b r n prev pi.
Proof.
  intros Hp. induction fuel as [|f IH]; intros n b pi pCh prev closeAt Hb Hab Hprev Hat Hcl Hf Hn; pose proof (at_Some _ _ _ Hat) as [Hpi _]; [lia|].
  cbn [readBracket_loop]. pose proof (member_spec p b pi pCh prev closeAt Hp Hb Hprev Hat Hcl) as Hm. destruct n as [|n]; [lia|].
  destruct (member p 0 b pi pCh prev closeAt) as [[m|]| | |]; try done; step.
  2: { eexists. split; [reflexivity|]. unfold set_ok. cbn [set_abort abort]. intros x acc _. cbn [members]. by rewrite Hm. }
  destruct Hm as (Hwf & Habm & Hmpi & Hch & Hcl' & Hx). rewrite Hab in Habm. pose proof (at_suf p (m_pi m + 1) ltac:(lia)) as Hhd.
  destruct (at_ p (m_pi m + 1)) as [c|] eqn:Hc.
  2: { eexists. split; [reflexivity|]. unfold set_ok. cbn [set_abort abort]. intros x acc Hxb. cbn [members]. destruct (Hx x Hxb) as (mt & -> & _). cbn [mbind option_bind].
       by destruct (suf p (m_pi m + 1)). }
  pose proof (at_Some _ _ _ Hc) as [Hi Hs].
  assert (forall x acc, is_byte x -> exists mt, has (m_set m) x = has b x || mt
    /\ members (S n) x prev acc (suf p pi) = if c =? 93 then Some (acc || mt, suf p (m_pi m + 1 + 1)) else members n x (m_ch m) (acc || mt) (suf p (m_pi m + 1))) as Hstep.
  { intros x acc Hxb. destruct (Hx x Hxb) as (mt & Hr & Hm). exists mt. split; [done|]. cbn [members]. rewrite Hr. cbn [mbind option_bind]. by rewrite Hs. }
  destruct (Z.eqb_spec c 93) as [->|Hne].
  - eexists. split; [reflexivity|]. unfold set_ok, finish. change (pathname 0) with false. cbn match.
    assert (abort (if negated then negate (set_end (m_pi m + 1) (m_set m)) else set_end (m_pi m + 1) (m_set m)) = false) as -> by (by destruct negated).
    assert (b_end (if negated then negate (set_end (m_pi m + 1) (m_set m)) else set_end (m_pi m + 1) (m_set m)) = m_pi m + 1) as -> by (by destruct negated).
    split; [lia|]. intros x Hxb. destruct (Hx x Hxb) as (mt & Hr & Hm). exists mt. split.
    + intros acc. cbn [members]. rewrite Hr. cbn [mbind option_bind]. by rewrite Hs.
    + rewrite <-Hm. destruct negated; [|by rewrite xorb_false_l]. by rewrite has_negate.
  - destruct (IH n (m_set m) (m_pi m + 1) c (m_ch m) (m_close m)) as (r & -> & Hr); [done|done|done|done|eapply close_ok_mono; [|exact Hcl']; lia|lia|lia|].
    eexists. split; [reflexivity|]. unfold set_ok in *. destruct (abort r) eqn:Har.
    + intros x acc Hxb. destruct (Hstep x acc Hxb) as (mt & _ & ->). by apply Hr.
    + destruct Hr as [He Hr]. split; [lia|]. intros x Hxb. destruct (Hx x Hxb) as (mt & Hrf & Hm). destruct (Hr x Hxb) as (m2 & Hm2 & Hh2). exists (mt || m2). split.
      * intros acc. cbn [members]. rewrite Hrf. cbn [mbind option_bind]. rewrite Hs. ztest (c =? 93) false. rewrite <-Hs, Hm2. by rewrite orb_assoc.
      * by rewrite Hh2, Hm, orb_assoc.
Qed.

(** What reading the bracket at [start] must give. *)
Definition bracket_ok (p : bytes) (start : Z) (r : bracketSet) : Prop :=
  if abort r then forall x, is_byte x -> bracket x (suf p (start + 1)) = None
  else start < b_end r < len p /\ forall x, is_byte x -> bracket x (suf p (start + 1)) = Some (has r x, suf p (b_end r + 1)).

Lemma has_zero x : is_byte x -> has zero_set x = false.
Proof.
  intros Hx. rewrite has_words. unfold in_words. pose proof (word_bound x Hx). destruct (word_of x) as [|[|[|[|]]]]; [..|lia]; apply Z.testbit_0_l.
Qed.

Lemma suf_len p i : 0 <= i <= len p -> len (suf p i) = len p - i.
Proof. intros. unfold suf, len in *. rewrite length_drop. lia. Qed.

Lemma readBracket_spec p start : bytes_ok p -> 0 <= start < len p -> exists r, readBracket p start 0 = Ok r /\ bracket_ok p start r.
Proof.
  intros Hp Hs. unfold readBracket. pose proof (suf_len p (start + 1) ltac:(lia)) as Hl1.
  destruct (at_ p (start + 1)) as [c|] eqn:Hc.
  2: { apply at_None in Hc as [_ Hn]; [|lia]. eexists. split; [reflexivity|]. unfold bracket_ok. cbn [set_abort abort]. intros x _. by rewrite Hn. }
  pose proof (at_Some _ _ _ Hc) as [Hi Hq]. replace (start + 1 + 1) with (start + 2) in * by lia. pose proof (suf_len p (start + 2) ltac:(lia)) as Hl2.
  assert (((if c =? 94 then 33 else c) =? 33) = (c =? 33) || (c =? 94)) as ->.
  { destruct (Z.eqb_spec c 94) as [->|]; [done|]. by rewrite orb_false_r. }
  destruct ((c =? 33) || (c =? 94)) eqn:Hneg.
  - destruct (at_ p (start + 2)) as [d|] eqn:Hd.
    2: { apply at_None in Hd as [_ Hn]; [|lia]. eexists. split; [reflexivity|]. unfold bracket_ok. cbn [set_abort abort]. intros x _. rewrite Hq. unfold bracket. by rewrite Hneg, Hn. }
    pose proof (at_Some _ _ _ Hd) as [Hi2 _].
    destruct (readBracket_loop_spec p true Hp (S (length p)) (length (suf p (start + 2))) zero_set (start + 2) d 0 (-1)) as (r & Hr & Hok); [done|done|done|done|split; [unfold len; lia|lia]|unfold len in *; lia|unfold len in *; lia|].
    exists r. split; [exact Hr|]. unfold set_ok, bracket_ok in *. rewrite Hq. unfold bracket. rewrite Hneg. destruct (abort r).
    + intros x Hx. by rewrite Hok.
    + destruct Hok as [He Hok]. split; [lia|]. intros x Hx. destruct (Hok x Hx) as (m & -> & ->). by rewrite has_zero.
  - assert ((if c =? 94 then 33 else c) = c) as -> by (apply orb_false_iff in Hneg as [_ ->]; done).
    destruct (readBracket_loop_spec p false Hp (S (length p)) (length (suf p (start + 1))) zero_set (start + 1) c 0 (-1)) as (r & Hr & Hok); [done|done|done|done|split; [unfold len; lia|lia]|unfold len in *; lia|unfold len in *; lia|].
    exists r. split; [exact Hr|]. unfold set_ok, bracket_ok in *. rewrite Hq in *. unfold bracket. rewrite Hneg. destruct (abort r).
    + intros x Hx. by rewrite Hok.
    + destruct Hok as [He Hok]. split; [lia|]. intros x Hx. destruct (Hok x Hx) as (m & -> & ->). by rewrite has_zero, xorb_false_l.
Qed.

(** ** The cache is transparent *)

Record cache_ok (p : bytes) (c : bracketCache) : Prop := {
  ca_offsets : length (offsets c) = 4%nat; ca_sets : length (sets c) = 4%nat; ca_n : (cache_n c <= 4)%nat;
  ca_slots : forall i start, (i < cache_n c)%nat -> offsets c !! i = Some start -> exists b, sets c !! i = Some b /\ readBracket p start 0 = Ok b;
  ca_overflow : forall start b, overflow c !! start = Some b -> readBracket p start 0 = Ok b;
}.

Lemma new_cache_ok p : cache_ok p new_cache.
Proof. constructor; try done; try (cbn; lia). Qed.

Lemma reset_ok p q c : cache_ok p c -> cache_ok q (reset c).
Proof. intros [Ho Hs _ _ _]. constructor; cbn; try done; lia. Qed.

Lemma get_spec p c start : bytes_ok p -> 0 <= start < len p -> cache_ok p c ->
  exists b c', get c p start 0 = Ok (b, c') /\ bracket_ok p start b /\ cache_ok p c'.
Proof.
  intros Hp Hs Hc. pose proof Hc as [Ho Hse Hn Hsl Hov]. destruct (readBracket_spec p start Hp Hs) as (r & Hr & Hok). unfold get.
  destruct (find_slot c start) as [i|] eqn:Hf.
  - apply find_some in Hf as [Hi%in_seq Ho'%bool_decide_eq_true]. destruct (Hsl i start ltac:(lia) Ho') as (b & Hb & Hrb).
    rewrite (index_Ok (sets c) (Z.of_nat i) b) by (rewrite ?Nat2Z.id; done || lia). step. assert (b = r) as -> by congruence. by exists r, c.
  - destruct (overflow c !! start) as [b|] eqn:Hb; [apply Hov in Hb; assert (b = r) as -> by congruence; by exists r, c|].
    rewrite Hr. step. unfold inlineBrackets. destruct (Z.ltb_spec (Z.of_nat (cache_n c)) 4).
    + eexists _, _. split; [reflexivity|]. split; [done|]. constructor; cbn; rewrite ?length_insert; try done; [lia|].
      intros i st Hi. destruct (decide (i = cache_n c)) as [->|Hne].
      * rewrite !list_lookup_insert_eq by lia. intros [= <-]. by exists r.
      * rewrite !list_lookup_insert_ne by done. apply Hsl. lia.
    + eexists _, _. split; [reflexivity|]. split; [done|]. constructor; cbn; try done. intros st b. destruct (decide (st = start)) as [->|Hne].
      * rewrite lookup_insert_eq. congruence.
      * rewrite lookup_insert_ne by done. apply Hov.
Qed.

(** ** The language of wildcards *)

(** Whether a pattern of one component matches a name.  A star matches any
    bytes, a question mark and a bracket one, a backslash quotes the next byte. *)
Inductive glob : bytes -> bytes -> Prop :=
  | glob_nil : glob [] []
  | glob_escape c p t : glob p t -> glob (92 :: c :: p) (c :: t)
  | glob_any x p t : glob p t -> glob (63 :: p) (x :: t)
  | glob_star p s t : glob p t -> glob (42 :: p) (s ++ t)
  | glob_bracket x q p t : bracket x q = Some (true, p) -> glob p t -> glob (91 :: q) (x :: t)
  | glob_lit c p t : isGlobSpecial c = false -> glob p t -> glob (c :: p) (c :: t).

Lemma glob_nil_inv t : glob [] t -> t = [].
Proof. by inversion 1. Qed.

Lemma glob_escape_inv c p t : glob (92 :: c :: p) t -> exists t', t = c :: t' /\ glob p t'.
Proof. inversion 1; subst; eauto. done. Qed.

Lemma glob_escape_end t : ~ glob [92] t.
Proof. inversion 1; done. Qed.

Lemma glob_any_inv p t : glob (63 :: p) t -> exists x t', t = x :: t' /\ glob p t'.
Proof. inversion 1; subst; eauto. Qed.

Lemma glob_star_inv p t : glob (42 :: p) t -> exists s t', t = s ++ t' /\ glob p t'.
Proof. inversion 1; subst; eauto. done. Qed.

Lemma glob_bracket_inv q t : glob (91 :: q) t -> exists x p t', t = x :: t' /\ bracket x q = Some (true, p) /\ glob p t'.
Proof. inversion 1; subst; eauto 6. done. Qed.

Lemma glob_lit_inv c p t : isGlobSpecial c = false -> glob (c :: p) t -> exists t', t = c :: t' /\ glob p t'.
Proof. intros Hc. inversion 1; subst; eauto; done. Qed.

(** Only stars match the empty name. *)
Lemma glob_nonstar c p t : c <> 42 -> glob (c :: p) t -> t <> [].
Proof. intros Hc. inversion 1; subst; done. Qed.

Lemma glob_stars p t : glob (42 :: p) t <-> glob (42 :: drop (Z.to_nat (count_stars p)) p) t.
Proof.
  revert t. induction p as [|c p IH]; intros t; [done|]. cbn [count_stars]. destruct (Z.eqb_spec c 42) as [->|Hne]; [|done].
  assert (0 <= count_stars p) as Hn by (clear; induction p as [|c p IH]; cbn [count_stars]; [lia|]; destruct (c =? 42); lia).
  rewrite Z2Nat.inj_add by lia. change (Z.to_nat 1) with 1%nat. cbn [Nat.add drop]. rewrite <-IH. split.
  - intros (s & t' & -> & (s' & t'' & -> & Ht)%glob_star_inv)%glob_star_inv. rewrite app_assoc. by constructor.
  - intros Ht. change t with ([] ++ t). by constructor.
Qed.

Lemma count_stars_head p : head (drop (Z.to_nat (count_stars p)) p) <> Some 42 /\ 0 <= count_stars p <= len p.
Proof.
  induction p as [|c p [IH1 IH2]]; cbn [count_stars]; [done|]. rewrite len_cons. destruct (Z.eqb_spec c 42) as [->|Hne].
  - rewrite Z2Nat.inj_add by lia. change (Z.to_nat 1) with 1%nat. cbn [Nat.add drop]. split; [done|lia].
  - split; [cbn; intros [= ?]; done|]. pose proof (len_nonneg p). lia.
Qed.

(** ** The matcher decides it *)

(** No suffix of [t] matches. *)
Definition no_suffix (P t : bytes) : Prop := forall a s, t = a ++ s -> ~ glob P s.

Lemma no_suffix_cons P x t : ~ glob P (x :: t) -> no_suffix P t -> no_suffix P (x :: t).
Proof. intros Hx Ht a s. destruct a as [|y a]; cbn; [by intros <-|]. intros [= <- ->]. by apply (Ht a). Qed.

(** A pattern that takes one byte and goes on: pruning carries over. *)
Lemma no_suffix_step P P' x t : bytes_ok (x :: t) -> (forall y s, is_byte y -> glob P (y :: s) -> glob P' s) -> (~ glob P []) -> no_suffix P' t -> no_suffix P (x :: t).
Proof.
  intros Hok Hstep Hnil Ht a s Hs Hg. destruct s as [|y s]; [done|].
  assert (is_byte y) as Hy. { rewrite Hs in Hok. apply bytes_ok_app in Hok as [_ Hok]. by apply Forall_cons in Hok as [? _]. }
  apply Hstep in Hg; [|done]. destruct a as [|z a]; cbn in Hs; injection Hs as -> ->; [by apply (Ht [] s)|]. apply (Ht (a ++ [y]) s); [by rewrite <-app_assoc|done].
Qed.

(** The bytes before the next occurrence of the literal cannot start a match. *)
Lemma no_suffix_skip c p l t : isGlobSpecial c = false -> c ∉ l -> no_suffix (c :: p) t -> no_suffix (c :: p) (l ++ t).
Proof.
  intros Hc. induction l as [|x l IH]; [done|]. intros [Hx Hl]%not_elem_of_cons Ht. cbn [app]. apply no_suffix_cons; [|by apply IH].
  intros (t' & [= -> _] & _)%glob_lit_inv; done.
Qed.

Lemma scan_lit_spec c t0 l : let '(n, t) := scan_lit 0 true c t0 l in
  (exists a r, l = a ++ c :: r /\ c ∉ a /\ n = len a /\ t = c) \/ (c ∉ l /\ n = len l).
Proof.
  revert t0. induction l as [|x l IH]; intros t0; cbn [scan_lit negb andb].
  - right. split; [apply not_elem_of_nil|done].
  - change (fold_case 0 x) with x. destruct (Z.eqb_spec x c) as [->|Hne].
    + left. exists [], l. split; [done|]. split; [apply not_elem_of_nil|done].
    + specialize (IH x). destruct (scan_lit 0 true c x l) as [n t]. destruct IH as [(a & r & -> & Ha & -> & ->)|[Hl ->]].
      * left. exists (x :: a), r. rewrite len_cons. split; [done|]. split; [apply not_elem_of_cons; done|done].
      * right. rewrite len_cons. split; [apply not_elem_of_cons; done|done].
Qed.

(** What a result of the matcher says of the pattern and the text left. *)
Definition wild_ok (P t : bytes) (r : Z) : Prop :=
  r = wmMatch /\ glob P t \/ r = wmNoMatch /\ ~ glob P t \/ r = wmAbortAll /\ no_suffix P t.

Definition star_ok (P t : bytes) (r : Z) : Prop :=
  r = wmMatch /\ (exists a s, t = a ++ s /\ glob P s) \/ r = wmAbortAll /\ no_suffix P t.

(** One byte of both is consumed. *)
Lemma wild_ok_step P P' x t r : bytes_ok (x :: t) -> (forall s, glob P' s -> glob P (x :: s)) -> (forall y s, is_byte y -> glob P (y :: s) -> glob P' s) -> ~ glob P [] ->
  wild_ok P' t r -> wild_ok P (x :: t) r.
Proof.
  intros Hok Hin Hout Hnil [[-> Hg]|[[-> Hg]|[-> Hg]]].
  - left. auto.
  - right. left. split; [done|]. intros Hg'. apply Hg. apply (Hout x); [|done]. by apply Forall_cons in Hok as [? _].
  - right. right. split; [done|]. by eapply no_suffix_step.
Qed.

Lemma star_ok_wild p t r : star_ok p t r -> wild_ok (42 :: p) t r.
Proof.
  intros [[-> (a & s & -> & Hg)]|[-> Hg]].
  - left. split; [done|]. by constructor.
  - right. right. split; [done|]. intros a s -> (b & s' & -> & Hg')%glob_star_inv. apply (Hg (a ++ b) s'); [by rewrite app_assoc|done].
Qed.

(** The fuel a call needs. *)
Definition depth (p text : bytes) (pi ti T : Z) : Z := (len p - pi) * (T + 2) + (len text - ti).

Lemma depth_next p text pi pi' ti ti' T : pi < pi' <= len p -> ti <= ti' -> 0 <= T -> depth p text pi' ti' T + (T + 2) <= depth p text pi ti T.
Proof. unfold depth. intros. nia. Qed.

Lemma suf_suf p i j : 0 <= i -> 0 <= j -> suf (suf p i) j = suf p (i + j).
Proof. intros. unfold suf. rewrite drop_drop. f_equal. lia. Qed.

Lemma suf_split p i n : 0 <= i -> 0 <= n -> suf p i = take (Z.to_nat n) (suf p i) ++ suf p (i + n).
Proof. intros. rewrite <-suf_suf by lia. generalize (suf p i) as l. intros l. unfold suf. by rewrite take_drop. Qed.

Lemma slice_suf {E} (text : bytes) ti : 0 <= ti <= len text -> slice (E := E) text ti (len text) = Ok (suf text ti).
Proof. intros. rewrite slice_Ok by lia. unfold suf. f_equal. apply take_ge. rewrite length_drop. unfold len in *. lia. Qed.

Section matcher.
Context (p : bytes) (T : Z) (Hp : bytes_ok p) (HT : 0 <= T).

Definition loop_ok (f : nat) : Prop := forall pStart text pi ti c,
  bytes_ok text -> 0 <= pi <= len p -> 0 <= ti <= len text -> len text <= T -> cache_ok p c -> depth p text pi ti T < Z.of_nat f ->
  exists r c', dowild_loop f p pStart text 0 pi ti c = Ok (r, c') /\ cache_ok p c' /\ wild_ok (suf p pi) (suf text ti) r.

Definition star_loop_ok (f : nat) : Prop := forall text pi ti c x,
  bytes_ok text -> at_ p pi = Some x -> x <> 42 -> 0 <= ti <= len text -> len text <= T -> cache_ok p c -> depth p text pi ti T + 1 < Z.of_nat f ->
  exists r c', star_loop f p text 0 true pi ti c = Ok (r, c') /\ cache_ok p c' /\ star_ok (suf p pi) (suf text ti) r.

Lemma star_loop_step f : loop_ok f -> star_loop_ok f -> star_loop_ok (S f).
Proof.
  intros HL HS text pi ti c x Htext Hx Hne Hti HlT Hc Hf. cbn [star_loop]. pose proof (at_Some _ _ _ Hx) as [Hpi Hq].
  destruct (at_ text ti) as [tCh|] eqn:Ht.
  2: { eexists _, _. split; [reflexivity|]. split; [done|]. right. split; [done|]. apply at_None in Ht as [_ ->]; [|lia]. intros a s Has Hg.
       symmetry in Has. apply app_nil in Has as [-> ->]. rewrite Hq in Hg. by apply glob_nonstar in Hg. }
  apply at_Some in Ht as [Hti' Htq]. unfold at_ in Hx. destruct (Z.leb_spec 0 pi); [|done]. rewrite (index_Ok p pi x) by done. step.
  change (fold_case 0 x) with x.
  assert (forall n t, (if isGlobSpecial x then (0, tCh) else scan_lit 0 true x tCh (drop (Z.to_nat ti) text)) = (n, t) ->
    negb (isGlobSpecial x) && ((ti + n >=? len text) || negb (t =? x)) = false ->
    0 <= n /\ ti + n < len text /\ (no_suffix (suf p pi) (suf text (ti + n)) -> no_suffix (suf p pi) (suf text ti))) as Hskip.
  { intros n t Hs Hcond. destruct (isGlobSpecial x) eqn:Hsp.
    - injection Hs as <- <-. rewrite Z.add_0_r. split; [lia|]. split; [lia|done].
    - pose proof (scan_lit_spec x tCh (suf text ti)) as Hsc. unfold suf in Hsc at 1. rewrite Hs in Hsc. destruct Hsc as [(a & r & Ha & Hna & -> & ->)|[_ ->]].
      + pose proof (len_nonneg a). pose proof (suf_len text ti ltac:(lia)) as Hl. rewrite Ha, len_app, len_cons in Hl. pose proof (len_nonneg r). split; [lia|]. split; [lia|].
        rewrite (suf_app text ti a (x :: r)) by (done || lia). rewrite Ha, Hq. by apply no_suffix_skip.
      + rewrite suf_len, Z.geb_leb in Hcond by lia. assert ((len text <=? ti + (len text - ti)) = true) as Htt by (apply Z.leb_le; lia). by rewrite Htt in Hcond. }
  assert (forall n t, (if isGlobSpecial x then (0, tCh) else scan_lit 0 true x tCh (drop (Z.to_nat ti) text)) = (n, t) ->
    negb (isGlobSpecial x) && ((ti + n >=? len text) || negb (t =? x)) = true -> no_suffix (suf p pi) (suf text ti)) as Habort.
  { intros n t Hs Hcond. destruct (isGlobSpecial x) eqn:Hsp; [done|].
    pose proof (scan_lit_spec x tCh (suf text ti)) as Hsc. unfold suf in Hsc at 1. rewrite Hs in Hsc. destruct Hsc as [(a & r & Ha & Hna & -> & ->)|[Hni _]].
    - pose proof (suf_len text ti ltac:(lia)) as Hl. rewrite Ha, len_app, len_cons in Hl. pose proof (len_nonneg r). rewrite Z.geb_leb, Z.eqb_refl in Hcond.
      assert ((len text <=? ti + len a) = false) as Htt by (apply Z.leb_gt; lia). by rewrite Htt in Hcond.
    - rewrite Hq, <-(app_nil_r (suf text ti)). apply no_suffix_skip; [done|done|]. intros a s Has Hg. symmetry in Has. apply app_nil in Has as [-> ->]. by apply glob_nonstar in Hg. }
  destruct (if isGlobSpecial x then (0, tCh) else scan_lit 0 true x tCh (drop (Z.to_nat ti) text)) as [n t] eqn:Hscan.
  specialize (Hskip n t eq_refl). specialize (Habort n t eq_refl).
  destruct (negb (isGlobSpecial x) && ((ti + n >=? len text) || negb (t =? x))) eqn:Hcond.
  { eexists _, _. split; [reflexivity|]. split; [done|]. right. split; [done|]. by apply Habort. }
  destruct (Hskip eq_refl) as (Hn & Hlt & Hskip'). clear Hskip Habort. rewrite slice_suf by lia. step.
  pose proof (suf_len text (ti + n) ltac:(lia)) as Hls.
  destruct (HL pi (suf text (ti + n)) pi 0 c) as (r & c' & -> & Hc' & Hr); [by apply Forall_drop|lia|lia|lia|done|unfold depth in *; lia|]. step.
  change (suf (suf text (ti + n)) 0) with (suf text (ti + n)) in Hr.
  destruct Hr as [[-> Hg]|[[-> Hg]|[-> Hg]]]; cbn [negb andb orb Z.eqb wmMatch wmNoMatch wmAbortAll wmAbortToStarStar].
  - eexists _, _. split; [reflexivity|]. split; [done|]. left. split; [done|]. exists (take (Z.to_nat n) (suf text ti)), (suf text (ti + n)). split; [apply suf_split; lia|done].
  - destruct (HS text pi (ti + n + 1) c' x) as (r & c2 & Hr & Hc2 & Hs); [done|unfold at_; by ztest (0 <=? pi) true|done|lia|lia|done|unfold depth in *; lia|].
    eexists _, _. split; [exact Hr|]. split; [done|]. destruct (at_ text (ti + n)) as [y|] eqn:Hy; [|apply at_None in Hy as [? _]; lia]. apply at_Some in Hy as [_ Hy].
    destruct Hs as [[-> (a & s & Has & Hgs)]|[-> Hgs]].
    + left. split; [done|]. exists (take (Z.to_nat n) (suf text ti) ++ y :: a), s. split; [|done]. rewrite <-app_assoc. cbn [app]. rewrite <-Has, <-Hy. apply suf_split; lia.
    + right. split; [done|]. apply Hskip'. rewrite Hy in *. by apply no_suffix_cons.
  - eexists _, _. split; [reflexivity|]. split; [done|]. right. split; [done|]. by apply Hskip'.
Qed.
Lemma star_step f pStart text pi ti c : star_loop_ok f -> bytes_ok text -> at_ p pi = Some 42 -> 0 <= ti <= len text -> len text <= T -> cache_ok p c ->
  depth p text pi ti T < Z.of_nat (S f) ->
  exists r c', dowild_loop (S f) p pStart text 0 pi ti c = Ok (r, c') /\ cache_ok p c' /\ wild_ok (suf p pi) (suf text ti) r.
Proof.
  intros HS Htext Hx Hti HlT Hc Hf. cbn [dowild_loop]. rewrite Hx. pose proof (at_Some _ _ _ Hx) as [Hpi Hq].
  change (fold_case 0 42) with 42. change (pathname 0) with false. change (42 =? 42) with true. change (42 =? 92) with false. change (42 =? 63) with false. cbn [negb]. rewrite andb_false_r.
  set (n := count_stars (suf p (pi + 1))). destruct (count_stars_head (suf p (pi + 1))) as [Hh Hn]. fold n in Hh, Hn. rewrite suf_len in Hn by lia.
  fold (suf (suf p (pi + 1)) n) in Hh. rewrite suf_suf in Hh by lia.
  assert (forall P t, P = suf p (pi + 1 + n) -> glob (42 :: suf p (pi + 1)) t <-> glob (42 :: P) t) as Hstars.
  { intros P t ->. rewrite <-(suf_suf p (pi + 1) n) by lia. apply glob_stars. }
  assert ((if bool_decide (at_ p (pi + 1) = Some 42)
      then mret (None, pi + 1 + count_stars (drop (Z.to_nat (pi + 1)) p), true, c)
      else mret (None, pi + 1, true, c)) = Ok (E := Empty_set) (@None Z, pi + 1 + n, true, c)) as ->.
  { fold (suf p (pi + 1)). fold n. case_bool_decide as H42; [done|]. rewrite at_suf in H42 by lia. unfold n. destruct (suf p (pi + 1)) as [|z l]; cbn [count_stars].
    - by rewrite Z.add_0_r.
    - cbn [head] in H42. destruct (Z.eqb_spec z 42) as [->|]; [done|]. by rewrite Z.add_0_r. }
  step. rewrite slice_suf by lia. step. cbn [negb andb]. destruct (at_ p (pi + 1 + n)) as [x|] eqn:Hx2.
  - pose proof (depth_next p text pi (pi + 1 + n) ti ti T ltac:(lia) ltac:(lia) HT). pose proof (at_Some _ _ _ Hx2) as [_ Hq2].
    destruct (HS text (pi + 1 + n) ti c x) as (r & c' & -> & Hc' & Hr); [done|done| |done|done|done|lia|].
    { rewrite Hq2 in Hh. intros ->. done. }
    exists r, c'. split; [done|]. split; [done|]. rewrite Hq. apply star_ok_wild in Hr. unfold wild_ok, no_suffix in *. rewrite (Hstars _ _ eq_refl).
    destruct Hr as [?|[?|[-> Hr]]]; [by left|by right; left|]. right. right. split; [done|]. intros a s Has Hg. apply (Hr a s Has). by rewrite <-(Hstars _ _ eq_refl).
  - apply at_None in Hx2 as [_ Hx2]; [|lia]. eexists _, _. split; [reflexivity|]. split; [done|]. left. split; [done|]. rewrite Hq, (Hstars _ _ eq_refl), Hx2, <-(app_nil_r (suf text ti)). repeat constructor.
Qed.

Lemma loop_step f : loop_ok f -> star_loop_ok f -> loop_ok (S f).
Proof.
  intros HL HS pStart text pi ti c Htext Hpi Hti HlT Hc Hf. cbn [dowild_loop].
  destruct (at_ p pi) as [x|] eqn:Hx.
  2: { apply at_None in Hx as [_ Hq]; [|lia]. rewrite Hq. eexists _, _. split; [reflexivity|]. split; [done|]. pose proof (suf_len text ti Hti) as Hl. destruct (Z.ltb_spec ti (len text)).
    - right. left. split; [done|]. intros Hg%glob_nil_inv. rewrite Hg in Hl. change (len []) with 0 in Hl. lia.
    - left. split; [done|]. rewrite (len_zero_nil (suf text ti)) by lia. constructor. }
  destruct (Z.eqb_spec x 42) as [->|Hne]; [by destruct (star_step f pStart text pi ti c HS Htext Hx Hti HlT Hc Hf) as (r & c' & Hr & Hok); cbn [dowild_loop] in Hr; rewrite Hx in Hr; exists r, c'|].
  pose proof (at_byte _ _ _ Hp Hx) as Hxb. pose proof (at_Some _ _ _ Hx) as [Hpi' Hq]. rewrite Hq.
  change (fold_case 0 x) with x. change (pathname 0) with false. rewrite Z.geb_leb. cbn [negb andb].
  (* the rest of the text, when a byte is needed *)
  destruct (Z.leb_spec (len text) ti) as [Hend|Hend]; cbn [andb].
  - assert (suf text ti = []) as Hnil by (apply len_zero_nil; rewrite suf_len by lia; lia). rewrite Hnil.
    ztest (x =? 42) false. cbn [negb]. eexists _, _. split; [reflexivity|]. split; [done|]. right. right. split; [done|]. intros a s Has Hg. symmetry in Has. apply app_nil in Has as [-> ->]. by apply glob_nonstar in Hg.
  - destruct (at_ text ti) as [y|] eqn:Hy; [|apply at_None in Hy as [? _]; lia]. pose proof (at_byte _ _ _ Htext Hy) as Hyb. apply at_Some in Hy as [_ Htq]. cbn [from_option id]. change (fold_case 0 y) with y.
    assert (bytes_ok (suf text ti)) as Htok by (by apply Forall_drop). rewrite Htq in *.
    assert (forall pi', pi < pi' <= len p ->
      (forall s, glob (suf p pi') s -> glob (x :: suf p (pi + 1)) (y :: s)) -> (forall z s, is_byte z -> glob (x :: suf p (pi + 1)) (z :: s) -> glob (suf p pi') s) -> ~ glob (x :: suf p (pi + 1)) [] ->
      forall c, cache_ok p c ->
      exists r c', dowild_loop f p pStart text 0 pi' (ti + 1) c = Ok (r, c') /\ cache_ok p c' /\ wild_ok (x :: suf p (pi + 1)) (y :: suf text (ti + 1)) r) as Hnext.
    { intros pi' Hpi2 Hin Hout Hnil c1 Hc1. pose proof (depth_next p text pi pi' ti (ti + 1) T Hpi2 ltac:(lia) HT).
      destruct (HL pStart text pi' (ti + 1) c1) as (r & c' & Hr & Hc' & Hw); [done|lia|lia|done|done|lia|]. exists r, c'. split; [exact Hr|]. split; [done|]. by eapply wild_ok_step. }
    destruct (Z.eqb_spec x 92) as [->|Hn1].
    { destruct (at_ p (pi + 1)) as [e|] eqn:He.
      - apply at_Some in He as [Hi2 He]. replace (pi + 1 + 1) with (pi + 2) in He by lia. rewrite He. destruct (Z.eqb_spec y e) as [->|Hney]; cbn [negb].
        + rewrite <-He. apply Hnext; [lia| | | |done]; rewrite He.
          * intros s Hs. by constructor.
          * intros z s _ (t' & [= _ <-] & Ht)%glob_escape_inv. done.
          * intros Hg. by apply glob_nonstar in Hg.
        + eexists _, _. split; [reflexivity|]. split; [done|]. right. left. split; [done|]. by intros (t' & [= ? ?] & _)%glob_escape_inv.
      - apply at_None in He as [_ ->]; [|lia]. eexists _, _. split; [reflexivity|]. split; [done|]. right. left. split; [done|]. apply glob_escape_end. }
    destruct (Z.eqb_spec x 63) as [->|Hn2].
    { apply Hnext; [lia| | | |done].
      - intros s Hs. by constructor.
      - intros z s _ (z' & t' & [= <- <-] & Ht)%glob_any_inv. done.
      - intros Hg. by apply glob_nonstar in Hg. }
    ztest (x =? 42) false.
    destruct (Z.eqb_spec x 91) as [->|Hn4].
    { destruct (get_spec p c pi Hp Hpi' Hc) as (b & c1 & -> & Hb & Hc1). step. unfold bracket_ok in Hb. destruct (abort b).
      - eexists _, _. split; [reflexivity|]. split; [done|]. right. right. split; [done|]. intros a s Has Hg. apply glob_bracket_inv in Hg as (z & P & t' & -> & Hbr & _).
        rewrite Hb in Hbr; [done|]. rewrite Has in Htok. apply bytes_ok_app in Htok as [_ Htok]. by apply Forall_cons in Htok as [? _].
      - destruct Hb as [He Hb]. destruct (has b y) eqn:Hy; cbn [negb].
        + apply Hnext; [lia| | | |done].
          * intros s Hs. eapply glob_bracket; [|exact Hs]. by rewrite Hb, Hy.
          * intros z s Hz (z' & P & t' & [= <- <-] & Hbr & Ht)%glob_bracket_inv. rewrite Hb in Hbr by done. by injection Hbr as _ <-.
          * intros Hg. by apply glob_nonstar in Hg.
        + eexists _, _. split; [reflexivity|]. split; [done|]. right. left. split; [done|]. intros (z' & P & t' & [= <- <-] & Hbr & Ht)%glob_bracket_inv. rewrite Hb, Hy in Hbr by done. done. }
    assert (isGlobSpecial x = false) as Hsp. { unfold isGlobSpecial. ztest (x =? 42) false. ztest (x =? 63) false. ztest (x =? 91) false. by ztest (x =? 92) false. }
    destruct (Z.eqb_spec y x) as [->|Hney]; cbn [negb].
    + apply Hnext; [lia| | | |done].
      * intros s Hs. by constructor.
      * intros z s _ (t' & [= _ <-] & Ht)%glob_lit_inv; done.
      * intros Hg. by apply glob_nonstar in Hg.
    + eexists _, _. split; [reflexivity|]. split; [done|]. right. left. split; [done|]. intros (t' & [= ? ?] & _)%glob_lit_inv; done.
Qed.
Lemma loops_ok f : loop_ok f /\ star_loop_ok f.
Proof.
  induction f as [|f [HL HS]].
  - assert (forall text pi ti, 0 <= pi <= len p -> 0 <= ti <= len text -> 0 <= depth p text pi ti T) as Hd by (unfold depth; intros; nia). split.
    + intros pStart text pi ti c _ Hpi Hti _ _ Hf. specialize (Hd text pi ti Hpi Hti). lia.
    + intros text pi ti c x _ Hx _ Hti _ _ Hf. apply at_Some in Hx as [Hpi _]. specialize (Hd text pi ti ltac:(lia) Hti). lia.
  - split; [by apply loop_step|by apply star_loop_step].
Qed.
End matcher.

(** The matcher of a component decides the language of the pattern, whatever
    brackets of the pattern the cache holds. *)
Lemma wildmatch_spec p text c : bytes_ok p -> bytes_ok text -> cache_ok p c ->
  exists b c', wildmatch p text c = Ok (b, c') /\ cache_ok p c' /\ (b = true <-> glob p text).
Proof.
  intros Hp Ht Hc. destruct (loops_ok p (len text) Hp (len_nonneg _) (wild_fuel p text)) as [HL _].
  destruct (HL 0 text 0 0 c) as (r & c' & Hr & Hc' & Hw); [done|pose proof (len_nonneg p); lia|pose proof (len_nonneg text); lia|done|done| |].
  { unfold depth, wild_fuel, len. nia. }
  unfold wildmatch, dowild. rewrite Hr. step. eexists _, _. split; [reflexivity|]. split; [done|]. change (suf p 0) with p in Hw. change (suf text 0) with text in Hw.
  destruct Hw as [[-> Hg]|[[-> Hg]|[-> Hg]]]; [done|split; [done|intros H; by destruct (Hg H)]|split; [done|intros H; by destruct (Hg [] text eq_refl H)]].
Qed.

(** ** What patterns say of paths *)

(** [segs_match segs path rest]: the segments match the components of [path] up
    to [rest].  A ["**"] takes any number of directories, and as the last
    segment anything inside, at any depth. *)
Inductive segs_match : list bytes -> list bytes -> list bytes -> Prop :=
  | sm_nil path : segs_match [] path path
  | sm_seg s ss c path rest : s <> [] -> s <> zeroToManyDirs -> glob s c -> segs_match ss path rest -> segs_match (s :: ss) (c :: path) rest
  | sm_inside taken rest : taken <> [] -> segs_match [zeroToManyDirs] (taken ++ rest) rest
  | sm_dirs ss skipped path rest : ss <> [] -> segs_match ss path rest -> segs_match (zeroToManyDirs :: ss) (skipped ++ path) rest.

(** A leading slash only anchors the pattern. *)
Definition anchored (segs : list bytes) : list bytes := match segs with [] :: segs => segs | _ => segs end.

(** A directory-only pattern matches directories, and what is below a match. *)
Definition dir_ok (dirOnly isDir : bool) (rest : list bytes) : Prop := dirOnly = true -> isDir = true \/ rest <> [].

(** Whether the pattern matches the path below its domain or a parent of it: a
    pattern with a slash from the top, one without at any depth. *)
Definition ignores (p : pattern) (path : list bytes) (isDir : bool) : Prop :=
  if isGlob p then exists rest, segs_match (anchored (segments p)) path rest /\ dir_ok (dirOnly p) isDir rest
  else exists above name rest, path = above ++ name :: rest /\ glob (default [] (head (segments p))) name /\ dir_ok (dirOnly p) isDir rest.

(** A directory of which the pattern matches every entry it can match. *)
Definition covers (p : pattern) (path : list bytes) (isDir : bool) : Prop :=
  isDir = true /\ forall name d, (dirOnly p = true -> d = true) -> ignores p (path ++ [name]) d.

(** *** What the loop over the segments decides

    The last ["**"] takes all that is left, and there must be some, or a
    directory, which stands for its entries. *)
Inductive loop_match (isDir : bool) : list bytes -> list bytes -> list bytes -> Prop :=
  | lm_nil path : loop_match isDir [] path path
  | lm_seg s ss c path rest : s <> [] -> s <> zeroToManyDirs -> glob s c -> loop_match isDir ss path rest -> loop_match isDir (s :: ss) (c :: path) rest
  | lm_trailing path : path <> [] \/ isDir = true -> loop_match isDir [zeroToManyDirs] path []
  | lm_dirs ss skipped path rest : ss <> [] -> loop_match isDir ss path rest -> loop_match isDir (zeroToManyDirs :: ss) (skipped ++ path) rest.

Definition decided (p : pattern) (path : list bytes) (isDir : bool) : Prop :=
  if isGlob p then exists rest, loop_match isDir (anchored (segments p)) path rest /\ dir_ok (dirOnly p) isDir rest
  else ignores p path isDir.

Lemma loop_says isDir segs path rest : loop_match isDir segs path rest ->
  segs_match segs path rest \/ isDir = true /\ forall name, segs_match segs (path ++ [name]) [].
Proof.
  induction 1 as [path|s ss c path rest Hs Hst Hc _ IH|path Hp|ss sk path rest Hs _ IH].
  - left. constructor.
  - destruct IH as [IH|[Hd IH]]; [left; by constructor|right]. split; [done|]. intros name. cbn. by constructor.
  - destruct path as [|x path]; [destruct Hp as [?|Hd]; [done|right]|left].
    + split; [done|]. intros name. by apply (sm_inside [name] []).
    + rewrite <-(app_nil_r (x :: path)). by apply sm_inside.
  - destruct IH as [IH|[Hd IH]]; [left; by constructor|right]. split; [done|]. intros name. rewrite <-app_assoc. by constructor.
Qed.

Lemma says_loop isDir segs path rest : segs_match segs path rest ->
  exists rest', loop_match isDir segs path rest' /\ (rest' = rest \/ last segs = Some zeroToManyDirs).
Proof.
  induction 1 as [path|s ss c path rest Hs Hst Hc _ (r & Hr & IH)|taken rest Ht|ss sk path rest Hs _ (r & Hr & IH)].
  - exists path. split; [constructor|by left].
  - exists r. split; [by constructor|]. rewrite last_cons. destruct IH as [->| ->]; [by left|by right].
  - exists []. split; [|by right]. apply lm_trailing. left. by destruct taken.
  - exists r. split; [by constructor|]. rewrite last_cons. destruct IH as [->| ->]; [by left|by right].
Qed.

Lemma decided_ignores p path isDir : decided p path isDir -> ignores p path isDir \/ covers p path isDir.
Proof.
  unfold decided, covers, ignores. destruct (isGlob p); [|by left]. intros (rest & [Hm|[Hdir Hm]]%loop_says & Hd); [left; eauto|right].
  split; [done|]. intros name d Hdo. exists []. split; [done|]. intros Hp. left. by apply Hdo.
Qed.

Lemma ignores_decided p path isDir : isDir = true \/ dirOnly p = false \/ last (segments p) <> Some zeroToManyDirs ->
  ignores p path isDir -> decided p path isDir.
Proof.
  unfold decided, ignores. destruct (isGlob p); [|done]. intros Hside (rest & Hm & Hd).
  destruct (says_loop isDir _ _ _ Hm) as (r & Hr & Hlast). exists r. split; [done|]. intros Hdo. destruct Hlast as [->|Hlast]; [by apply Hd|].
  destruct Hside as [->|[Hside|Hside]]; [by left|congruence|]. destruct Hside. revert Hlast. destruct (segments p) as [|[|c s] segs]; cbn [anchored]; [done| |done].
  rewrite last_cons. by destruct (last segs).
Qed.

(** Between two ["**"] there is at most one segment: the first component that
    matches it can be taken without trying others. *)
Fixpoint greedy (segs : list bytes) : bool :=
  match segs with
  | a :: rest =>
      (if bool_decide (a = zeroToManyDirs) then
         match rest with b :: c :: _ => bool_decide (b = zeroToManyDirs) || bool_decide (c = zeroToManyDirs) | _ => true end
       else true) && greedy rest
  | [] => true
  end.

(** ** The patterns without a slash *)

Lemma simple_loop_spec p seg path isDir : bytes_ok seg -> Forall bytes_ok path -> forall c, cache_ok seg c ->
  exists b, simple_loop p seg path isDir c = Ok b
    /\ (b = true <-> exists above name rest, path = above ++ name :: rest /\ glob seg name /\ dir_ok (dirOnly p) isDir rest).
Proof.
  intros Hseg. induction 1 as [|name path Hn Hpath IH]; intros c Hc; cbn [simple_loop].
  - exists false. split; [done|]. split; [done|]. intros (above & name & rest & Hp & _). by destruct above.
  - destruct (wildmatch_spec seg name c Hseg Hn Hc) as (b & c' & -> & Hc' & Hb). step. destruct b; cbn [negb].
    + eexists. split; [reflexivity|]. apply proj1 in Hb. specialize (Hb eq_refl). split.
      * intros Hd. exists [], name, path. split; [done|]. split; [done|]. intros Hdo. rewrite Hdo in Hd. destruct isDir; [by left|]. right. intros ->. done.
      * intros (above & n & rest & Hp & Hg & Hd). destruct (dirOnly p) eqn:Hdo; [|done]. destruct isDir; [done|]. cbn [negb andb].
        apply negb_true_iff, bool_decide_eq_false. intros ->. destruct above as [|a above]; cbn in Hp; injection Hp as -> Hp; [|by destruct above].
        subst rest. destruct (Hd eq_refl); done.
    + destruct (IH c' Hc') as (b & -> & Hb2). exists b. split; [done|]. rewrite Hb2. split.
      * intros (above & n & rest & -> & Hg). by exists (name :: above), n, rest.
      * intros (above & n & rest & Hp & Hg & Hd). destruct above as [|a above]; cbn in Hp; injection Hp as -> Hp; [by apply Hb in Hg|]. by exists above, n, rest.
Qed.

(** ** The patterns with a slash *)

Lemma traverse_spec seg path : bytes_ok seg -> Forall bytes_ok path -> forall c, cache_ok seg c ->
  exists r c', traverse seg path c = Ok (r, c') /\ cache_ok seg c'
    /\ match r with
       | Some path' => exists skipped e, path = skipped ++ e :: path' /\ glob seg e /\ Forall (fun x => ~ glob seg x) skipped
       | None => Forall (fun x => ~ glob seg x) path
       end.
Proof.
  intros Hseg. induction 1 as [|e path He Hpath IH]; intros c Hc; cbn [traverse]; [by eexists _, _|].
  destruct (wildmatch_spec seg e c Hseg He Hc) as (b & c1 & -> & Hc1 & Hb). step. destruct b.
  - eexists _, _. split; [reflexivity|]. split; [done|]. exists [], e. split; [done|]. split; [by apply Hb|done].
  - assert (~ glob seg e) as Hne by (intros Hg; by apply Hb in Hg). destruct (IH c1 Hc1) as (r & c2 & -> & Hc2 & Hr). eexists _, _. split; [reflexivity|]. split; [done|].
    destruct r as [path'|]; [|by constructor]. destruct Hr as (skipped & x & -> & Hx & Hs). exists (e :: skipped), x. split; [done|]. split; [done|]. by constructor.
Qed.

(** The segments that are left, with the ["**"] that was passed. *)
Definition pending (canTraverse : bool) (segs : list bytes) : list bytes := if canTraverse then zeroToManyDirs :: segs else segs.

Lemma seg_match_inv isDir s ss path rest : s <> zeroToManyDirs -> loop_match isDir (s :: ss) path rest ->
  exists c path', path = c :: path' /\ s <> [] /\ glob s c /\ loop_match isDir ss path' rest.
Proof. intros Hs. inversion 1; subst; try done. eauto 8. Qed.

Lemma dirs_match_inv isDir ss path rest : loop_match isDir (zeroToManyDirs :: ss) path rest ->
  ss = [] /\ rest = [] /\ (path <> [] \/ isDir = true) \/ ss <> [] /\ exists skipped path', path = skipped ++ path' /\ loop_match isDir ss path' rest.
Proof. inversion 1; subst; [done|by left|right; eauto]. Qed.

(** More to skip does no harm. *)
Lemma dirs_match_more isDir ss skipped path rest : loop_match isDir (zeroToManyDirs :: ss) path rest -> loop_match isDir (zeroToManyDirs :: ss) (skipped ++ path) rest.
Proof.
  intros [(-> & -> & Hp)|(Hne & sk & path' & -> & Hm)]%dirs_match_inv.
  - apply lm_trailing. destruct Hp as [Hp|Hp]; [left|by right]. intros [_ ?]%app_nil. done.
  - rewrite app_assoc. by apply lm_dirs.
Qed.

(** What the loop returns is right, and complete when the pattern is greedy. *)
Definition loop_result (dirOnly isDir : bool) (segs path : list bytes) (b : bool) : Prop :=
  (b = true -> exists rest, loop_match isDir segs path rest /\ dir_ok dirOnly isDir rest)
  /\ (greedy segs = true -> forall rest, loop_match isDir segs path rest -> dir_ok dirOnly isDir rest -> b = true).

Lemma result_false dirOnly isDir segs path : (forall rest, ~ loop_match isDir segs path rest) -> loop_result dirOnly isDir segs path false.
Proof. intros Hn. split; [done|]. intros _ rest Hm. by destruct (Hn rest). Qed.

(** The first component that matches comes no later than any other that does. *)
Lemma first_match (P : bytes -> Prop) skipped e p1 sk c p2 : Forall (fun x => ~ P x) skipped -> P c -> skipped ++ e :: p1 = sk ++ c :: p2 -> exists extra, p1 = extra ++ p2.
Proof.
  revert sk. induction skipped as [|x skipped IH]; intros [|y sk] Hs Hc Heq; cbn in Heq; injection Heq as -> Heq.
  - by exists [].
  - exists (sk ++ [c]). by rewrite <-app_assoc.
  - by apply Forall_cons in Hs as [? _].
  - apply Forall_cons in Hs as [_ Hs]. by apply (IH sk).
Qed.

Lemma traverse_result dirOnly isDir seg rest skipped e p1 b : seg <> [] -> seg <> zeroToManyDirs -> glob seg e -> Forall (fun x => ~ glob seg x) skipped ->
  loop_result dirOnly isDir rest p1 b -> loop_result dirOnly isDir (zeroToManyDirs :: seg :: rest) (skipped ++ e :: p1) b.
Proof.
  intros Hne Hst He Hs [Hsound Hcomp]. split.
  - intros Hb. destruct (Hsound Hb) as (r & Hm & Hd). exists r. split; [|done]. apply lm_dirs; [done|]. by apply lm_seg.
  - intros Hgr r Hm Hd. apply dirs_match_inv in Hm as [(? & _)|(_ & sk & path' & Heq & Hm)]; [done|]. apply seg_match_inv in Hm as (c & p2 & -> & _ & Hc & Hm); [|done].
    destruct (first_match _ _ _ _ _ _ _ Hs Hc Heq) as (extra & ->). cbn [greedy] in Hgr. rewrite bool_decide_eq_true_2 in Hgr by done.
    apply andb_true_iff in Hgr as [Hgr1 Hgr]. apply andb_true_iff in Hgr as [_ Hgr]. rewrite (bool_decide_eq_false_2 (seg = _)) in Hgr1 by done. cbn [orb] in Hgr1.
    destruct rest as [|x rest].
    + inversion Hm; subst. apply (Hcomp eq_refl (extra ++ r)); [apply lm_nil|]. intros Hdo. destruct (Hd Hdo) as [?|?]; [by left|right]. intros [_ ?]%app_nil. done.
    + apply bool_decide_eq_true in Hgr1 as ->. apply (Hcomp Hgr r); [|done]. by apply dirs_match_more.
Qed.

Lemma glob_loop_spec dirOnly isDir : forall segs i path matched ct c q, Forall bytes_ok segs -> Forall bytes_ok path -> cache_ok q c ->
  ((0 < i)%nat \/ head segs <> Some []) -> (ct = true -> segs <> []) -> (segs = [] -> matched = true) ->
  exists b, glob_loop dirOnly isDir i segs path matched ct c = Ok b /\ loop_result dirOnly isDir (pending ct segs) path b.
Proof.
  induction segs as [|seg rest IH]; intros i path matched ct c q Hsegs Hpath Hc Hi Hct Hm; cbn [glob_loop].
  - rewrite Hm by done. assert (ct = false) as -> by (destruct ct; [by destruct Hct|done]). eexists. split; [reflexivity|]. rewrite orb_false_r. split.
    + intros Hb. exists path. split; [apply lm_nil|]. intros ->. destruct isDir; [by left|]. right. intros ->. done.
    + intros _ r Hr Hd. inversion Hr; subst. destruct dirOnly; [|done]. destruct isDir; [done|]. cbn. destruct (Hd eq_refl) as [?|Hne]; [done|]. by rewrite bool_decide_eq_false_2.
  - apply Forall_cons in Hsegs as [Hseg Hsegs]. case_bool_decide as Hempty.
    { subst seg. destruct Hi as [Hi|Hi]; [|done]. rewrite decide_True by done. eexists. split; [reflexivity|]. apply result_false. intros r Hr.
      destruct ct; cbn [pending] in Hr; [apply dirs_match_inv in Hr as [(? & _)|(_ & sk & path' & _ & Hr)]; [done|]|]; apply seg_match_inv in Hr as (? & ? & _ & ? & _); done. }
    case_bool_decide as Hstar.
    { subst seg. case_bool_decide as Hlast.
      - subst rest. eexists. split; [reflexivity|]. set (m := negb (bool_decide (path = [])) || isDir).
        assert (m = true <-> path <> [] \/ isDir = true) as Hmp by (unfold m; rewrite orb_true_iff, negb_true_iff, bool_decide_eq_false; done). split.
        + intros [Hb1 Hb2]%andb_true_iff. exists []. split; [destruct ct; [apply (lm_dirs _ _ []); [done|]|]; apply lm_trailing; by apply Hmp|].
          intros ->. left. rewrite Hb1, orb_true_r, andb_true_r in Hb2. by destruct isDir.
        + intros _ r Hr Hd. assert (r = [] /\ m = true) as [-> ->].
          { rewrite Hmp. destruct ct; cbn [pending] in Hr.
            - apply dirs_match_inv in Hr as [(? & _)|(_ & sk & path' & -> & Hr)]; [done|]. apply dirs_match_inv in Hr as [(_ & -> & Hp)|(? & _)]; [|done]. split; [done|].
              destruct Hp as [Hp|Hp]; [left|by right]. intros [_ ?]%app_nil. done.
            - apply dirs_match_inv in Hr as [(_ & -> & Hp)|(? & _)]; done. }
          destruct dirOnly; [|done]. destruct (Hd eq_refl) as [->|?]; done.
      - destruct (IH (S i) path matched true c q Hsegs Hpath Hc ltac:(lia) ltac:(done) ltac:(done)) as (b & -> & [Hsound Hcomp]). exists b. split; [done|].
        destruct ct; [|by split]. cbn [pending] in *. split.
        + intros Hb. destruct (Hsound Hb) as (r & Hr & Hd). exists r. split; [|done]. by apply (lm_dirs _ _ []).
        + intros Hgr r Hr Hd. apply dirs_match_inv in Hr as [(? & _)|(_ & sk & path' & -> & Hr)]; [done|]. apply (Hcomp ltac:(cbn [greedy] in Hgr; by apply andb_true_iff in Hgr as [_ ?]) r); [|done]. by apply dirs_match_more. }
    destruct path as [|e path'].
    { eexists. split; [reflexivity|]. apply result_false. intros r Hr.
      destruct ct; cbn [pending] in Hr; [apply dirs_match_inv in Hr as [(? & _)|(_ & sk & path' & Hnil & Hr)]; [done|]|]; apply seg_match_inv in Hr as (? & ? & Hp & _); try done.
      subst path'. symmetry in Hnil. by apply app_nil in Hnil as [_ ?]. }
    pose proof (reset_ok q seg c Hc) as Hrc. destruct ct.
    + destruct (traverse_spec seg (e :: path') Hseg Hpath (reset c) Hrc) as (r & c2 & -> & Hc2 & Hr). step. destruct r as [p1|].
      * destruct Hr as (skipped & x & Hp & Hx & Hsk). rewrite Hp in Hpath |- *. apply Forall_app in Hpath as [_ [_ Hp1]%Forall_cons].
        destruct (IH (S i) p1 true false c2 seg Hsegs Hp1 Hc2 ltac:(lia) ltac:(done) ltac:(done)) as (b & -> & Hb). exists b. split; [done|]. by apply traverse_result.
      * eexists. split; [reflexivity|]. apply result_false. cbn [pending]. intros r Hrm. apply dirs_match_inv in Hrm as [(? & _)|(_ & sk & p2 & Hp & Hrm)]; [done|].
        apply seg_match_inv in Hrm as (x & p3 & -> & _ & Hg & _); [|done]. rewrite Hp in Hr. apply Forall_app in Hr as [_ [Hr _]%Forall_cons]. done.
    + apply Forall_cons in Hpath as [He Hpath]. destruct (wildmatch_spec seg e (reset c) Hseg He Hrc) as (m & c2 & -> & Hc2 & Hmm). step. destruct m; cbn [negb].
      * destruct (IH (S i) path' (negb (bool_decide (path' = []) && negb (bool_decide (rest = [])))) false c2 seg Hsegs Hpath Hc2 ltac:(lia) ltac:(done)) as (b & -> & [Hsound Hcomp]).
        { intros ->. rewrite (bool_decide_eq_true_2 (@nil bytes = [])) by done. cbn [negb]. by rewrite andb_false_r. }
        exists b. split; [done|]. cbn [pending] in *. split.
        -- intros Hb. destruct (Hsound Hb) as (r & Hr & Hd). exists r. split; [|done]. apply lm_seg; [done|done|by apply Hmm|done].
        -- intros Hgr r Hr Hd. apply seg_match_inv in Hr as (x & p2 & [= <- <-] & _ & _ & Hr); [|done]. apply (Hcomp ltac:(cbn [greedy] in Hgr; by apply andb_true_iff in Hgr as [_ ?]) r Hr Hd).
      * eexists. split; [reflexivity|]. apply result_false. cbn [pending]. intros r Hr. apply seg_match_inv in Hr as (x & p2 & [= <- <-] & _ & Hg & _); [|done]. by apply Hmm in Hg.
Qed.

(** ** Parsed patterns *)

Lemma below_spec dom path sub : below dom path = Some sub <-> path = dom ++ sub.
Proof.
  revert path. induction dom as [|d dom IH]; intros path; cbn [below app]; [split; [by intros [= ->]|by intros ->]|].
  destruct path as [|x path]; [done|]. case_bool_decide as Hx; [subst; rewrite IH; split; [by intros ->|by intros [= ->]]|]. split; [done|]. by intros [= ? _].
Qed.

Lemma TrimLeft_suffix s c : exists k, s = k ++ TrimLeft s c.
Proof.
  induction s as [|x s [k IH]]; [by exists []|]. cbn [TrimLeft]. destruct (x =? c); [|by exists []]. exists (x :: k). cbn. by rewrite <-IH.
Qed.

Lemma TrimRight_ok s c : bytes_ok s -> bytes_ok (TrimRight s c).
Proof.
  intros Hs. unfold TrimRight. apply Forall_reverse. apply Forall_reverse in Hs. destruct (TrimLeft_suffix (reverse s) c) as [k Hk]. rewrite Hk in Hs. by apply bytes_ok_app in Hs as [_ ?].
Qed.

Lemma Split_ok s d : bytes_ok s -> Forall bytes_ok (Split s d).
Proof. intros Hs. apply Forall_forall. intros x Hx. apply Forall_forall. intros c Hc. eapply Forall_forall; [exact Hs|]. by eapply elem_of_Split. Qed.

Lemma read_stars_spec dirOnly segs : Forall bytes_ok segs -> Forall bytes_ok (read_stars dirOnly segs) /\ length (read_stars dirOnly segs) = length segs.
Proof.
  induction 1 as [|seg segs Hs Hsegs [IH1 IH2]]; cbn [read_stars]; [done|]. destruct (dirOnly && bool_decide (segs = [])) eqn:Hl.
  - apply andb_true_iff in Hl as [_ ->%bool_decide_eq_true]. split; [by repeat constructor|done].
  - split; [|cbn; by rewrite IH2]. constructor; [|exact IH1]. destruct ((len seg >? len zeroToManyDirs) && bool_decide (Trim seg 42 = [])); [|exact Hs]. apply (bool_decide_unpack _). vm_compute. exact I.
Qed.

(** A parsed pattern has segments of bytes, and two at least when it has a slash. *)
Lemma ParsePattern_segments s dom : bytes_ok s -> Forall bytes_ok (segments (ParsePattern s dom)) /\ segments (ParsePattern s dom) <> []
  /\ (isGlob (ParsePattern s dom) = true -> (2 <= length (segments (ParsePattern s dom)))%nat).
Proof.
  intros Hs. unfold ParsePattern. cbn [segments isGlob]. set (p1 := if HasPrefix s inclusionPrefix then drop 1 s else s).
  assert (bytes_ok p1) as H1 by (unfold p1; destruct (HasPrefix s inclusionPrefix); [by apply Forall_drop|done]). set (p2 := if negb (HasSuffix p1 (bs "\ ")) then TrimRight p1 32 else p1).
  assert (bytes_ok p2) as H2 by (unfold p2; destruct (negb (HasSuffix p1 (bs "\ "))); [by apply TrimRight_ok|done]). set (p3 := if HasSuffix p2 [patternDirSep] then take (length p2 - 1) p2 else p2).
  assert (bytes_ok p3) as H3 by (unfold p3; destruct (HasSuffix p2 [patternDirSep]); [by apply Forall_take|done]).
  destruct (read_stars_spec (HasSuffix p2 [patternDirSep]) (Split p3 patternDirSep) (Split_ok _ _ H3)) as [Hok Hlen]. split; [done|]. split.
  - intros Hn. rewrite Hn in Hlen. cbn in Hlen. symmetry in Hlen. apply nil_length_inv in Hlen. by apply Split_not_nil in Hlen.
  - intros Hin%bool_decide_eq_true. rewrite Hlen. pose proof (Join_Split p3 patternDirSep) as HJ. pose proof (Split_no_sep p3 patternDirSep) as Hno.
    destruct (Split p3 patternDirSep) as [|a [|b l]]; cbn; [by rewrite <-HJ in Hin; apply not_elem_of_nil in Hin| |lia]. cbn in HJ. subst a. by apply Forall_cons in Hno as [? _].
Qed.

Lemma pattern_match p path isDir : Forall bytes_ok (segments p) -> segments p <> [] -> (isGlob p = true -> (2 <= length (segments p))%nat) -> Forall bytes_ok path ->
  exists b, (if isGlob p then globMatch p path isDir else simpleNameMatch p path isDir) = Ok b
    /\ (b = true -> decided p path isDir) /\ (isGlob p = false \/ greedy (anchored (segments p)) = true -> decided p path isDir -> b = true).
Proof.
  intros Hsegs Hne Htwo Hpath. unfold decided, ignores. destruct (isGlob p) eqn:Hg.
  - unfold globMatch. specialize (Htwo eq_refl).
    assert (exists b, glob_loop (dirOnly p) isDir 0 (segments p) path false false new_cache = Ok b /\ loop_result (dirOnly p) isDir (anchored (segments p)) path b) as (b & Hb & [Hsound Hcomp]).
    { destruct (segments p) as [|seg rest]; [done|]. destruct (decide (seg = [])) as [->|Hs].
      - cbn [glob_loop anchored]. rewrite bool_decide_eq_true_2 by done. rewrite decide_False by lia. apply Forall_cons in Hsegs as [_ Hsegs].
        apply (glob_loop_spec (dirOnly p) isDir rest 1 path false false new_cache []); [done|done|apply new_cache_ok|lia|done|intros ->; cbn in Htwo; lia].
      - assert (anchored (seg :: rest) = seg :: rest) as -> by (by destruct seg). by apply (glob_loop_spec (dirOnly p) isDir (seg :: rest) 0 path false false new_cache []); [| |apply new_cache_ok|right; cbn; congruence| |]. }
    exists b. split; [done|]. split; [done|]. intros [?|Hgr]; [done|]. intros (rest & Hm & Hd). by apply (Hcomp Hgr rest).
  - unfold simpleNameMatch. destruct (segments p) as [|seg rest]; [done|]. apply Forall_cons in Hsegs as [Hseg _]. rewrite (index_Ok _ 0 seg) by done. step.
    destruct (simple_loop_spec p seg path isDir Hseg Hpath new_cache (new_cache_ok seg)) as (b & -> & Hb). exists b. split; [done|]. cbn [head default from_option id]. split; [by apply Hb|]. intros _ Hi. by apply Hb.
Qed.

Lemma Match_decides s dom path isDir : bytes_ok s -> Forall bytes_ok path ->
  let p := ParsePattern s dom in
  exists r, Match p path isDir = Ok r
    /\ (r <> NoMatch -> r = (if HasPrefix s inclusionPrefix then Include else Exclude) /\ exists sub, path = dom ++ sub /\ sub <> [] /\ decided p sub isDir)
    /\ (isGlob p = false \/ greedy (anchored (segments p)) = true -> forall sub, path = dom ++ sub -> sub <> [] -> decided p sub isDir -> r <> NoMatch).
Proof.
  intros Hs Hpath p. destruct (ParsePattern_segments s dom Hs) as (Hsegs & Hne & Htwo). fold p in Hsegs, Hne, Htwo. unfold Match. change (domain p) with dom.
  destruct (Z.leb_spec (len path) (len dom)) as [Hle|Hlt].
  { exists NoMatch. split; [done|]. split; [done|]. intros _ sub -> Hsub. rewrite len_app in Hle. pose proof (len_nonneg sub). destruct sub; [done|]. rewrite len_cons in Hle. pose proof (len_nonneg sub). lia. }
  destruct (below dom path) as [sub|] eqn:Hb.
  - apply below_spec in Hb as ->. apply Forall_app in Hpath as [_ Hsub]. destruct (pattern_match p sub isDir Hsegs Hne Htwo Hsub) as (b & -> & Hsound & Hcomp). step.
    eexists. split; [reflexivity|]. change (inclusion p) with (HasPrefix s inclusionPrefix). destruct b; cbn [negb].
    + split; [|by destruct (HasPrefix s inclusionPrefix)]. intros _. split; [done|]. exists sub. split; [done|]. split; [|by apply Hsound]. intros ->. rewrite app_nil_r in Hlt. lia.
    + split; [done|]. intros Hg sub' Heq _ Hi. apply app_inv_head in Heq as <-. by specialize (Hcomp Hg Hi).
  - exists NoMatch. split; [done|]. split; [done|]. intros _ sub Hp. apply below_spec in Hp. congruence.
Qed.

(** ** Properties *)

(** C20: matching one component decides the language of the wildcards.  For every pattern and name and every cache that holds brackets of this
    pattern, [wildmatch] returns, without a panic and within its fuel, whether the name is in the language of the pattern ([glob]), and leaves
    a cache of this pattern: neither the sets of bits, nor what the cache holds, nor the codes that prune the search change the answer. *)
Theorem wildmatch_decides_glob p text c : bytes_ok p -> bytes_ok text -> cache_ok p c ->
  exists b c', wildmatch p text c = Ok (b, c') /\ cache_ok p c' /\ (b = true <-> glob p text).
Proof. apply wildmatch_spec. Qed.

Lemma wildmatch_decides_glob_witness :
  let p := bs "a*[!b-d[:digit:]]?\*" in
  (exists b c', wildmatch p (bs "axxe7*") new_cache = Ok (b, c') /\ cache_ok p c' /\ (b = true <-> glob p (bs "axxe7*")))
  /\ (fst <$> (match wildmatch p (bs "axxe7*") new_cache with Ok r => Some r | _ => None end)) = Some true
  /\ (fst <$> (match wildmatch p (bs "axx77*") new_cache with Ok r => Some r | _ => None end)) = Some false.
Proof.
  intros p. split; [|split; vm_compute; reflexivity].
  apply (wildmatch_decides_glob p (bs "axxe7*") new_cache); [| |apply new_cache_ok]; apply (bool_decide_unpack _); vm_compute; exact I.
Defined.



(** A text without wildcards matches itself. *)
Lemma glob_literal s : forallb (fun c => negb (isGlobSpecial c)) s = true -> glob s s.
Proof. induction s as [|c s IH]; [constructor|]. cbn [forallb]. intros [Hc%negb_true_iff Hs]%andb_true_iff. by apply glob_lit; [|apply IH]. Qed.

(** The first component after a ["**"] that matches is never given up: a pattern
    with two segments after it misses paths that the format says it matches. *)
Example double_star_misses :
  let p := ParsePattern (bs "**/foo/bar") [] in let path := [bs "foo"; bs "x"; bs "foo"; bs "bar"] in
  Match p path false = Ok NoMatch /\ ignores p path false.
Proof.
  intros p path. split; [vm_compute; reflexivity|]. exists []. split; [|done]. apply (sm_dirs [bs "foo"; bs "bar"] [bs "foo"; bs "x"]); [done|].
  apply sm_seg; [done|done|by apply glob_literal|]. apply sm_seg; [done|done|by apply glob_literal|]. apply sm_nil.
Qed.

(** A last ["**"] for directories only matches the directories inside, but not
    the files below them. *)
Example directories_inside_miss :
  let p := ParsePattern (bs "abc/**/") [] in let path := [bs "abc"; bs "x"; bs "y.txt"] in
  Match p path false = Ok NoMatch /\ ignores p path false /\ Match p [bs "abc"; bs "x"] true = Ok Exclude.
Proof.
  intros p path. split; [vm_compute; reflexivity|]. split; [|vm_compute; reflexivity]. exists [bs "y.txt"]. split; [|by right].
  apply sm_seg; [done|done|by apply glob_literal|]. by apply (sm_inside [bs "x"] [bs "y.txt"]).
Qed.

(** A last ["**"] matches the directory itself, not only what is inside. *)
Example everything_inside_and_itself :
  let p := ParsePattern (bs "abc/**") [] in Match p [bs "abc"] true = Ok Exclude /\ Match p [bs "abc"] false = Ok NoMatch /\ ~ ignores p [bs "abc"] true.
Proof.
  intros p. split; [vm_compute; reflexivity|]. split; [vm_compute; reflexivity|]. intros (rest & Hm & _).
  change (anchored (segments p)) with [bs "abc"; zeroToManyDirs] in Hm.
  inversion Hm as [|s ss c path r _ _ _ Hin| |]; subst.
  inversion Hin as [|s' ss' c' path' r' _ Hne| taken r' Hne Heq|ss' sk path' r' Hne]; subst; try done. by destruct taken.
Qed.

(** ** Scopes *)

(** Once a directory is excluded, so is everything below, whatever is read there. *)
Lemma Descend_excluded {E} (s s' : Scope) dir (readOwn : option (outcome E (list pattern))) :
  scope_Match s dir true = Ok true -> Descend s dir readOwn = Ok s' ->
  excluded s' = true /\ (forall path isDir, scope_Match s' path isDir = Ok true) /\ forall dir' (read' : option (outcome E (list pattern))), exists s'', Descend s' dir' read' = Ok s'' /\ excluded s'' = true.
Proof.
  intros Hm Hd. unfold Descend in Hd. rewrite Hm in Hd. injection Hd as <-. split; [done|]. split; [done|]. intros dir' read'. by eexists.
Qed.
